(* ===== verification/_CoqProject ===== *)
-Q . S2P
Prelude.v
Model.v
Text.v
Float.v
Hungarian.v
Release.v
Assignment.v
Component.v
Matcher.v
MatcherAssign.v
MatcherProofs.v
Torrent.v
Retry.v
Template.v
Hardlink.v
Paths.v
Pieces.v
Store.v
Ingress.v
Duroxide.v
Projection.v
TaskControl.v
Outbox.v
Protocol.v
Candidate.v
Injection.v
InjectionProofs.v
Library.v
Codec.v
Accept.v
Decision.v
DecisionProofs.v
AcceptProofs.v
Facts.v
Completion.v
QbitInventory.v
QbitProjection.v
QbitSync.v
ManifestProofs.v
SyncProofs.v
Catalogue.v
Torznab.v
Prowlarr.v
Search.v
SearchSample.v
SearchRun.v
SearchProofs.v
DataScan.v
DataScanProofs.v
Scan.v
ScanProofs.v
ScanTree.v
Config.v
ConfigProofs.v
Preflight.v
Arr.v
ArrProofs.v
Api.v
ApiProofs.v
