(* ===== verification/Prelude.v ===== *)
(** * Sporos: a verification development

    Sporos watches a local library of torrents, matches a newly announced torrent
    (a "candidate") against files that are already there, and, when they are the
    same files, hardlinks them and adds the candidate to qBittorrent, so that it
    can be seeded without being downloaded.  Rust crates under
    [src/crates]: [sporos-model] (domain types), [sporos-matcher] (pure matching)
    and [sporos-service] (storage, workflows, remote clients).

    ** What is modelled, and where

    Pure code is translated function by function; code over SQLite, the file
    system, the workflow runtime or qBittorrent becomes state passing over an
    explicit state, with an interface (a [Class]) for what is third-party.

    - Prelude: [result], the state-and-error monad [M] with its program logic
      [hoare], machine integers, list lemmas.  Text: Rust's text operations.
    - Model: the types of [sporos-model] ([matching.rs], [id.rs]).
    - Release: release names to descriptors ([sporos-matcher/src/release.rs]).
    - Hungarian, Assignment, Component, Matcher: [sporos-matcher/src/matcher.rs]:
      the assignment solver, its use with a banned edge, the connected
      components, and the decisions of [evaluate].  MatcherAssign and
      MatcherProofs hold their proofs.
    - Torrent: file lists and piece-stream layout of a metainfo ([torrent.rs]).
    - Retry, Template: backoff delays and category/tag templates ([retry.rs],
      [template.rs]).
    - Hardlink: the materializer over [openat2]/[mkdirat]/[linkat]
      ([hardlink.rs]).  Paths: path rewrites between services ([config.rs]).
      Pieces: the inspection of a rechecked torrent and the resume policy
      ([injection.rs], [inventory.rs], [config.rs]).
    - Store: the tables of the durable task protocol as finite maps, its
      statements and transactions, its invariant [db_ok].  Ingress
      ([durable_ingress.rs]), Duroxide (the runtime and JSON interfaces,
      [activity_failure.rs]), Projection ([task_projection.rs]), TaskControl
      ([task_control.rs]) and Outbox ([outbox.rs]) are the protocol's parts,
      and Protocol their interleavings as one transition system.
    - Candidate: what the workflows of a candidate share.  Injection: the activities
      of the injection workflow ([injection.rs], with [project_candidate_task] of
      [candidate_workflow.rs]) over the tables they write, the file system of
      Hardlink and the interface [Qbittorrent]; [run_step] adds retries, lost
      results and outside changes.  InjectionProofs holds its proofs and a run on
      sample components.
    - Library: the tables of torrents, data sources, files, facts, candidates,
      decisions and plans around the task tables of Store, and [atomically], the
      transaction.  Codec: a concrete codec of the JSON columns, for examples.
    - Accept, AcceptProofs: the acceptance of a candidate ([candidate.rs]).
      Decision, DecisionProofs: its evaluation, its verdict and its plan
      ([candidate_workflow.rs]).  Facts: the titles and identifiers by which
      sources are found ([source_facts.rs]).
    - QbitInventory, QbitProjection, QbitSync, Float: what qBittorrent answers,
      how it becomes rows of the library, and the rounds of the synchronisation
      ([inventory.rs], [qbit_projection.rs], [qbit_sync.rs]).  ManifestProofs and
      SyncProofs hold their proofs.  Completion: completed downloads
      ([completion.rs]).
    - Catalogue: the tables of indexers, searches and scans around the library.
      Torznab: the items of a feed from its XML events ([torznab.rs]).  Prowlarr:
      its client and the projection of its indexers ([prowlarr.rs]).  Search,
      SearchRun: the triggers of searches, their attempts and tasks, and the
      activity that performs one ([search.rs]); SearchSample has concrete
      codecs, SearchProofs the proofs.
    - DataScan, Scan: one page of a data directory and the files of a release, and
      the statements that accept a scan, record its pages and complete it
      ([data_scan.rs]).  DataScanProofs, ScanProofs and ScanTree hold the proofs.
    - Config, ConfigProofs: the tree that the defaults, the file and the
      environment make, its checks and the settings that come out ([config.rs]).
      Preflight: the check of an announcement against the library
      ([preflight.rs]).  Arr, ArrProofs: what Sonarr and Radarr know of a torrent,
      its cache and the enriched release ([arr.rs]).
    - Api, ApiProofs: the endpoints for autobrr and for administration with their
      checks, effects and answers, and the token in front of them ([http.rs]).

    How they interact: Api submits torrents to Accept, announcements to Preflight,
    and orders to TaskControl, Search and Scan, under the settings of Config.  A
    task accepted by Ingress has an outbox row; Outbox
    delivers it as a workflow start; Projection records what workflows report;
    TaskControl requeues or cancels.  QbitSync and Scan keep the sources of the
    library in step with qBittorrent and the data directories, with the facts of
    their releases; a completed torrent, a scanned release and a backfill each ask
    for searches, and a search, which may first enrich its source by Arr, submits
    what it downloads to Accept.  A candidate's
    workflow loads what Accept stored, selects sources by Facts, evaluates it with
    Matcher on descriptors of Release and files of Torrent, and writes a plan;
    the injection workflow loads the plan, links its files with Hardlink (roots
    mapped by Paths), inspects pieces with Pieces, and projects the end of the
    task with Projection.

    ** What the theorems show

    Matching: [hungarian] ends with a minimum-cost assignment, [assign_with]
    finds the unique best file mapping or reports a tie, a match is one-to-one on
    files of equal size with truthful mode and byte counts, evaluation ends without a
    panic of its checked indices and assertions, and does not depend on the order of
    sources.  Parsing: descriptors are well formed,
    episode names round-trip, titles and templates are normalised as specified.
    Torrents: accepted file lists are exactly the safe ones, piece streams are
    contiguous or aligned.

    Tasks: every interleaving of the protocol's operations keeps the store
    consistent and refines a log of states per task; accepting is atomic and
    idempotent; projecting is a compare-and-swap; leases exclude other dispatchers;
    a dispatch round settles the rows it claimed by the answers of the runtime and
    loses none; runs of the repair that meet no error ask the runtime about every
    unfinished task and finish those that it reports as finished (liveness; a row
    whose status cannot be read ends a run, and hides the rows behind it:
    [unavailable_instance_hides]); retry, cancellation and reconciliation change
    exactly what they should.  Searches and scans set the state of their own tasks
    without an event, as the code does, and are outside that log.

    Candidates: accepting one is a single transaction that can be repeated, and
    the workflow it starts loads what was submitted, if the candidate is new (one that
    is there keeps its row); its wait ends at its deadline and only pending sources
    prolong it; a plan maps real files of an available source; an evaluation may be
    repeated, and then changes nothing but the time of the candidate's last change.

    Sources: after a synchronisation or a reconciliation the library mirrors what
    qBittorrent reported, as long as the full inventory before it was finished (after an
    interrupted one it need not: [interrupted_inventory_keeps_deleted]); the available
    torrents that the filters admit are loaded as sources by the titles of their
    releases, within the limits of titles (32) and sources (64);
    files are published all at once; a completion is reported once.  The files of
    a scanned release are exactly the regular files below its directory, they are
    what decisions read, and a scan that completes leaves available exactly the
    releases of the directory tree, whatever its pages and its failed activities.

    Searches: a run searches its indexer at most once, and however runs interleave, the
    times at which they claim their searches of an indexer are a second apart (the
    downloads that follow are not spaced by the code); exactly the searchable indexers are eligible; torrents are downloaded only from
    Prowlarr; the results of a feed are read back, within their bounds.  A torrent
    that distinct instances of Sonarr and Radarr answered about is not asked about
    again until an answer of no match expires after an hour.  An announcement
    is refused only when the matcher would refuse every available source of its title
    and size that the filters admit, if at most 32 data sources have them
    ([long_season_is_refused]).

    Interface: a request that is refused changes nothing, an upload may be repeated,
    lists are complete whatever happens between two pages, and identifiers are
    read back as they were printed.

    Configuration: the environment overrides the file and the file the defaults,
    path by path; durations round-trip; what loads is within the bounds that the
    parts assume, the budgets of the matcher's theorems among them.

    Injection: a torrent is started only after a recheck whose piece states pass
    both gates, under any retries; the integrity gate is exact; links are made
    only under a stopped torrent and only add entries beneath the link root;
    observation ends within sixty inconclusive looks (liveness).

    ** Fuel, bounds and panics

    The two loops of [hungarian] take fuel; [hungarian_optimal] proves that the
    fuel given covers every input.  [run] of Injection takes the number of
    activities to perform; theorems about runs use [run_step] instead, and
    [observation_is_bounded] bounds the polling.  [reconcile_pages] takes the
    number of pages it may ask for; [reconcile_mirrors] says how many are enough.
    The walk over a release takes fuel for its stack of directories;
    [release_holds_files_below] proves that enough of it ends the walk, and
    [OutOfFuel] of Scan, which the code does not have, stands for too little.  All
    other functions are total by structure.  In the matcher every index
    into a vector is checked: [None] and [ExitPanic] are the panics of an index out
    of range, an [assert!] or an [expect], which [evaluate_total] excludes.  Integers are [Z] with the checks, wraps and
    saturations of their width written out; [f64] progress is IEEE binary64 from
    [SpecFloat].

    ** What is not modelled, and why

    I/O failures of SQLite and crashes in the middle of a transaction (rolled
    back by SQLite); some times that no query reads; logs, metrics and semaphores.
    Bencode, TOML, JSON and XML parsing, HTTP, hashing and Unicode tables are
    third-party and appear as interfaces or arguments.  The registration of
    workflows with Duroxide and their loops over activities run inside it; the
    order of the injection workflow's activities is modelled by [run_step].  The
    enrichment of a source is an argument of SearchRun, for which Arr's
    [enrich_source] may be taken.  Connection pools, migrations and retention
    ([storage.rs]), the probes, the text of the metrics, the limits of bodies and the
    serialisation of [http.rs], the process shell ([app.rs], [engine.rs]) and the
    client of qBittorrent ([qbittorrent.rs]) are not modelled. *)

From Stdlib Require Export ZArith Lia Bool Sorted Permutation.
From Stdlib Require Import Ascii String.
From stdpp Require Export base list options fin_maps gmap.
From stdpp Require Import strings.

Export ListNotations.

Declare Scope rust_scope.
Delimit Scope rust_scope with rust.

(** ** Byte strings

    A Rust [String]/[&str]/[&[u8]] that the program inspects is the list of its
    bytes, each a [Z] between 0 and 255.  [lit] turns a literal into bytes. *)

Abbreviation str := (list Z).

Fixpoint lit (s : string) : str :=
  match s with
  | EmptyString => []
  | String c r => Z.of_N (N_of_ascii c) :: lit r
  end.
Arguments lit s%_string_scope.

(** ** [Result] *)

Inductive result (E A : Type) : Type :=
| Ok (a : A)
| Err (e : E).
Arguments Ok {E A} a.
Arguments Err {E A} e.

#[export] Instance result_ret E : MRet (result E) := fun _ a => Ok a.
#[export] Instance result_bind E : MBind (result E) :=
  fun _ _ f m => match m with Ok a => f a | Err e => Err e end.
#[export] Instance result_fmap E : FMap (result E) :=
  fun _ _ f m => match m with Ok a => Ok (f a) | Err e => Err e end.

(** [if c { return Err(e) }] *)
Definition bail_if {E} (c : bool) (e : E) : result E () :=
  if c then Err e else Ok tt.

(** [Option::ok_or] *)
Definition ok_or {E A} (o : option A) (e : E) : result E A :=
  match o with Some a => Ok a | None => Err e end.

Definition is_ok {E A} (r : result E A) : bool :=
  match r with Ok _ => true | Err _ => false end.

(** [iter.map(f).collect::<Result<Vec<_>, _>>()]: stops at the first error. *)
Fixpoint collect {E A B} (f : A -> result E B) (l : list A) : result E (list B) :=
  match l with
  | [] => Ok []
  | x :: l' =>
      match f x with
      | Err e => Err e
      | Ok y => match collect f l' with
                | Err e => Err e
                | Ok ys => Ok (y :: ys)
                end
      end
  end.

Lemma collect_map {E A B} (f : A -> result E B) (g : A -> B) l :
  (forall x, x ∈ l -> f x = Ok (g x)) -> collect f l = Ok (map g l).
Proof.
  induction l as [|x l IH]; intros H; simpl; [done|].
  rewrite (H x) by left. rewrite IH; [done|]. intros y Hy. apply H. by right.
Qed.

(** [for x in l { body }] with an early return on error. *)
Fixpoint try_fold {E A B} (f : B -> A -> result E B) (l : list A) (acc : B) : result E B :=
  match l with
  | [] => Ok acc
  | x :: l' => match f acc x with Err e => Err e | Ok acc' => try_fold f l' acc' end
  end.

Lemma bind_Ok {E A B} (m : result E A) (f : A -> result E B) b :
  m ≫= f = Ok b <-> exists a, m = Ok a /\ f a = Ok b.
Proof. destruct m; simpl; naive_solver. Qed.

Lemma bail_if_Ok {E} c (e : E) u : bail_if c e = Ok u <-> c = false.
Proof. destruct c, u; simpl; naive_solver. Qed.

Lemma ok_or_Ok {E A} (o : option A) (e : E) a : ok_or o e = Ok a <-> o = Some a.
Proof. destruct o; simpl; naive_solver. Qed.

Lemma collect_Forall2 {E A B} (f : A -> result E B) l ys :
  collect f l = Ok ys <-> Forall2 (fun x y => f x = Ok y) l ys.
Proof.
  revert ys. induction l as [|x l IH]; intros ys; simpl.
  - split; [intros [= <-]; constructor | intros H; inversion H; done].
  - destruct (f x) as [y|e] eqn:Hf.
    + destruct (collect f l) as [ys'|e] eqn:Hc.
      * split; [intros [= <-]; constructor; naive_solver|].
        intros H; inversion H; subst. f_equal. f_equal; [congruence|].
        apply IH in H4. congruence.
      * split; [done|]. intros H; inversion H; subst. apply IH in H4. done.
    + split; [done|]. intros H; inversion H; congruence.
Qed.

Lemma try_fold_app {E A B} (f : B -> A -> result E B) l1 l2 acc :
  try_fold f (l1 ++ l2) acc = try_fold f l1 acc ≫= try_fold f l2.
Proof.
  revert acc. induction l1 as [|x l1 IH]; intros acc; simpl; [done|].
  destruct (f acc x); simpl; [apply IH|done].
Qed.

(** Loop rule for [try_fold]: an invariant indexed by the processed prefix. *)
Lemma try_fold_inv {E A B} (f : B -> A -> result E B) (P : list A -> B -> Prop) l acc r :
  P [] acc ->
  (forall l1 x l2 b b', l = l1 ++ x :: l2 -> P l1 b -> f b x = Ok b' -> P (l1 ++ [x]) b') ->
  try_fold f l acc = Ok r -> P l r.
Proof.
  intros H0 Hstep.
  assert (forall l2 l1 b, l = l1 ++ l2 -> P l1 b -> try_fold f l2 b = Ok r -> P l r) as Hg.
  { induction l2 as [|x l2 IH]; intros l1 b Hl HP; simpl.
    - intros [= <-]. rewrite app_nil_r in Hl. by subst.
    - destruct (f b x) as [b'|] eqn:Hf; [|done].
      apply (IH (l1 ++ [x])); [by rewrite <- app_assoc|]. eauto. }
  apply (Hg l []); done.
Qed.

(** An early return happens at some element, after a run that succeeded. *)
Lemma try_fold_Err {E A B} (f : B -> A -> result E B) l acc e :
  try_fold f l acc = Err e ->
  exists l1 x l2 b, l = l1 ++ x :: l2 /\ try_fold f l1 acc = Ok b /\ f b x = Err e.
Proof.
  revert acc. induction l as [|x l IH]; intros acc; simpl; [done|].
  destruct (f acc x) as [b|e'] eqn:Hf.
  - intros H. destruct (IH b H) as (l1 & y & l2 & b' & -> & Hr & Hy).
    exists (x :: l1), y, l2, b'. simpl. by rewrite Hf.
  - intros [= ->]. exists [], x, l, acc. done.
Qed.

(** ** Stateful fallible code

    [M S E A] is a computation over an explicit state [S] that may return early
    with an error [E] (the [?] operator); effects done before the error stay. *)

Definition M (S E A : Type) : Type := S -> S * result E A.

#[export] Instance M_ret S E : MRet (M S E) := fun _ a s => (s, Ok a).
#[export] Instance M_bind S E : MBind (M S E) :=
  fun _ _ f m s => match m s with (s', Ok a) => f a s' | (s', Err e) => (s', Err e) end.

(** A fallible computation that does not touch the state. *)
Definition liftr {S E A} (r : result E A) : M S E A := fun s => (s, r).
(** A fallible observation of the state. *)
Definition reads {S E A} (f : S -> result E A) : M S E A := fun s => (s, f s).
Definition throw {S E A} (e : E) : M S E A := fun s => (s, Err e).
Definition guard_ok {S E} (c : bool) (e : E) : M S E () := liftr (bail_if (negb c) e).
(** [result.map_err(f)] *)
Definition map_err {E F A} (f : E -> F) (r : result E A) : result F A :=
  match r with Ok a => Ok a | Err e => Err (f e) end.

(** [for x in l { out.push(f(x)?) }] *)
Fixpoint collectM {S E A B} (f : A -> M S E B) (l : list A) : M S E (list B) :=
  match l with
  | [] => mret []
  | x :: l' => y ← f x; ys ← collectM f l'; mret (y :: ys)
  end.

Section StatefulLaws.
Context {S E : Type}.

Lemma M_bind_Ok {A B} (m : M S E A) (f : A -> M S E B) s s' b :
  (m ≫= f) s = (s', Ok b) <-> exists s1 a, m s = (s1, Ok a) /\ f a s1 = (s', Ok b).
Proof. unfold mbind, M_bind. destruct (m s) as [s1 [a|e]]; naive_solver. Qed.

(** Whatever its outcome, [m] moves the state along [R]; when it succeeds from a
    state satisfying [P], its value and state satisfy [Q]. *)
Definition hoare (R : relation S) (P : S -> Prop) {A} (m : M S E A) (Q : A -> S -> Prop) : Prop :=
  forall s, P s -> R s (m s).1 /\ match (m s).2 with Ok a => Q a (m s).1 | Err _ => True end.

Context (R : relation S) `{!PreOrder R}.

Lemma hoare_liftr {A} P (r : result E A) :
  hoare R P (liftr r) (fun a s => r = Ok a /\ P s).
Proof using All. intros s HP. cbn. split; [reflexivity|]. by destruct r. Qed.
Lemma hoare_reads {A} P (f : S -> result E A) :
  hoare R P (reads f) (fun a s => f s = Ok a /\ P s).
Proof using All. intros s HP. cbn. split; [reflexivity|]. by destruct (f s). Qed.
Lemma hoare_ret {A} (P : S -> Prop) (a : A) : hoare R P (mret a) (fun b s => b = a /\ P s).
Proof using All. intros s HP. cbn. split; [reflexivity|done]. Qed.
Lemma hoare_throw {A} P e Q : hoare R P (throw e : M S E A) Q.
Proof using All. intros s HP. cbn. split; [reflexivity|done]. Qed.
Lemma hoare_weaken {A} (P P' : S -> Prop) (m : M S E A) (Q Q' : A -> S -> Prop) :
  (forall s, P s -> P' s) -> (forall a s, Q' a s -> Q a s) -> hoare R P' m Q' -> hoare R P m Q.
Proof using All.
  intros HP HQ Hm s Hs. destruct (Hm s (HP s Hs)) as [H1 H2]. split; [done|].
  destruct (m s).2; auto.
Qed.
Lemma hoare_bind {A B} P (m : M S E A) (f : A -> M S E B) Q T :
  hoare R P m Q -> (forall a, hoare R (Q a) (f a) T) -> hoare R P (m ≫= f) T.
Proof using All.
  intros Hm Hf s HP. unfold mbind, M_bind. specialize (Hm s HP).
  destruct (m s) as [s1 [a|e]]; cbn in *; destruct Hm as [HR HQ]; [|done].
  destruct (Hf a s1 HQ) as [HR' HT]. split; [by etransitivity|done].
Qed.
(** A loop keeps what is stable along [R]. *)
Lemma hoare_collect {A B} (P : S -> Prop) (f : A -> M S E B) (T : A -> B -> S -> Prop) l :
  (forall s s', R s s' -> P s -> P s') ->
  (forall a b s s', R s s' -> T a b s -> T a b s') ->
  (forall a, hoare R P (f a) (T a)) ->
  hoare R P (collectM f l) (fun bs s => Forall2 (fun a b => T a b s) l bs).
Proof using All.
  intros HP HT Hf. induction l as [|x l IH]; cbn [collectM].
  - intros s Hs. cbn. split; [reflexivity|constructor].
  - intros s Hs. unfold mbind, M_bind. destruct (Hf x s Hs) as [HR1 HQ1].
    destruct (f x s) as [s1 [y|e]]; cbn [fst snd] in *; [|done].
    destruct (IH s1 (HP _ _ HR1 Hs)) as [HR2 HQ2].
    destruct (collectM f l s1) as [s2 [ys|e]]; cbn [fst snd] in *; [|split; [by etransitivity|done]].
    split; [by etransitivity|]. cbn. constructor; [|done]. by eapply HT.
Qed.
End StatefulLaws.

(** ** Machine integers

    An unsigned [w]-bit integer is a [Z] in [0, 2^w); [wrap_u] and [wrap_i] are
    the wrap-around of release-mode arithmetic and of [as] casts. *)

Definition u8_max : Z := 2^8 - 1.
Definition u16_max : Z := 2^16 - 1.
Definition u32_max : Z := 2^32 - 1.
Definition u64_max : Z := 2^64 - 1.
Definition u128_max : Z := 2^128 - 1.
Definition i64_max : Z := 2^63 - 1.
Definition i64_min : Z := - 2^63.
Definition i128_max : Z := 2^127 - 1.

Definition wrap_u (w : Z) (z : Z) : Z := z mod 2^w.
Definition wrap_i (w : Z) (z : Z) : Z := (z + 2^(w-1)) mod 2^w - 2^(w-1).

Definition is_u64 (z : Z) : Prop := (0 <= z <= u64_max)%Z.
Definition is_u32 (z : Z) : Prop := (0 <= z <= u32_max)%Z.
Definition is_i64 (z : Z) : Prop := (i64_min <= z <= i64_max)%Z.

(** [u64::checked_add], [i64::checked_add], [u64::saturating_*] *)
Definition checked_add_u64 (a b : Z) : option Z :=
  if (a + b <=? u64_max)%Z then Some (a + b)%Z else None.
Definition checked_add_i64 (a b : Z) : option Z :=
  if ((i64_min <=? a + b) && (a + b <=? i64_max))%Z then Some (a + b)%Z else None.
Definition saturating_add_u64 (a b : Z) : Z := Z.min (a + b) u64_max.
Definition saturating_mul_u64 (a b : Z) : Z := Z.min (a * b) u64_max.
Definition saturating_sub_u (a b : Z) : Z := Z.max 0 (a - b).
Definition saturating_mul_i64 (a b : Z) : Z := Z.max i64_min (Z.min i64_max (a * b)).
Definition saturating_add_i64 (a b : Z) : Z := Z.max i64_min (Z.min i64_max (a + b)).

(** [i64::try_from(u64)], [u64::try_from(i64)] *)
Definition i64_try_from (z : Z) : option Z := if (z <=? i64_max)%Z then Some z else None.
Definition u64_try_from (z : Z) : option Z := if (0 <=? z)%Z then Some z else None.
Definition u32_try_from (z : Z) : option Z :=
  if ((0 <=? z) && (z <=? u32_max))%Z then Some z else None.

(** [u64::div_ceil] *)
Definition div_ceil (a b : Z) : Z := (a + b - 1) / b.

(** [iter.sum::<u64>()] in a release build. *)
Definition sum_u64 (l : list Z) : Z := foldl (fun a x => wrap_u 64 (a + x)) 0%Z l.

Definition sum_Z (l : list Z) : Z := foldr Z.add 0%Z l.

Ltac unfold_ints :=
  unfold is_u64, is_u32, is_i64, u8_max, u16_max, u32_max, u64_max, u128_max, i64_max, i64_min,
    i128_max in *.

(** [to_le_bytes], [to_be_bytes] of an integer of [n] bytes *)
Fixpoint le_bytes (n : nat) (z : Z) : list Z :=
  match n with O => [] | Datatypes.S n => (z mod 256)%Z :: le_bytes n (z / 256)%Z end.
Definition be_bytes (n : nat) (z : Z) : list Z := rev (le_bytes n z).

Section Ints.
Local Open Scope Z_scope.

Lemma wrap_u_small w z : 0 <= z < 2^w -> wrap_u w z = z.
Proof. apply Z.mod_small. Qed.

Lemma wrap_i_small w z : 0 < w -> - 2^(w-1) <= z < 2^(w-1) -> wrap_i w z = z.
Proof.
  intros Hw Hz. unfold wrap_i.
  assert (2^w = 2 * 2^(w-1)) as Hp.
  { rewrite <- Z.pow_succ_r by lia. f_equal. lia. }
  rewrite Z.mod_small; lia.
Qed.

Lemma checked_add_u64_Some a b c : checked_add_u64 a b = Some c <-> c = a + b /\ a + b <= u64_max.
Proof. unfold checked_add_u64. case_match; naive_solver lia. Qed.

Lemma le_bytes_inj n a b :
  0 <= a < 256 ^ Z.of_nat n -> 0 <= b < 256 ^ Z.of_nat n -> le_bytes n a = le_bytes n b -> a = b.
Proof.
  revert a b. induction n as [|n IH]; intros a b Ha Hb; cbn [le_bytes]; [cbn in *; lia|].
  rewrite Nat2Z.inj_succ, Z.pow_succ_r in Ha, Hb by lia. intros [= Hm Hd].
  apply IH in Hd; [|split; [apply Z.div_pos|apply Z.div_lt_upper_bound]; lia..].
  rewrite (Z.div_mod a 256), (Z.div_mod b 256) by lia. congruence.
Qed.

Lemma be_bytes_inj n a b :
  0 <= a < 256 ^ Z.of_nat n -> 0 <= b < 256 ^ Z.of_nat n -> be_bytes n a = be_bytes n b -> a = b.
Proof. intros Ha Hb H%(f_equal (@rev Z)). unfold be_bytes in H. rewrite !rev_involutive in H. by eapply le_bytes_inj. Qed.

Lemma length_be_bytes n z : length (be_bytes n z) = n.
Proof. unfold be_bytes. rewrite length_rev. revert z. induction n; intros; cbn; auto. Qed.

Lemma sum_Z_nil : sum_Z [] = 0.
Proof. done. Qed.
Lemma sum_Z_cons x l : sum_Z (x :: l) = x + sum_Z l.
Proof. done. Qed.
Lemma sum_Z_app l1 l2 : sum_Z (l1 ++ l2) = sum_Z l1 + sum_Z l2.
Proof. induction l1 as [|x l1 IH]; simpl; [done|]. unfold sum_Z in *; simpl. lia. Qed.
Lemma sum_Z_nonneg l : Forall (fun x => 0 <= x) l -> 0 <= sum_Z l.
Proof. induction 1; simpl; unfold sum_Z in *; simpl in *; lia. Qed.
Lemma sum_Z_bounded l B :
  Forall (fun v => 0 <= v <= B) l -> 0 <= sum_Z l <= Z.of_nat (length l) * B.
Proof. induction 1 as [|v l Hv Hl IH]; [cbn; lia|]. rewrite sum_Z_cons. cbn [length]. lia. Qed.
Lemma sum_Z_Permutation l1 l2 : Permutation l1 l2 -> sum_Z l1 = sum_Z l2.
Proof. induction 1; unfold sum_Z in *; simpl in *; lia. Qed.

Lemma sum_Z_map_ext {A} (f g : A -> Z) l :
  (forall x, x ∈ l -> f x = g x) -> sum_Z (map f l) = sum_Z (map g l).
Proof.
  induction l as [|x l IH]; intros H; [done|]. cbn [map]. rewrite !sum_Z_cons.
  rewrite IH, (H x); [done|left|]. intros y Hy. apply H. by right.
Qed.
Lemma sum_Z_map_le {A} (f g : A -> Z) l :
  (forall x, x ∈ l -> f x <= g x) -> sum_Z (map f l) <= sum_Z (map g l).
Proof.
  induction l as [|x l IH]; intros H; [done|]. cbn [map]. rewrite !sum_Z_cons.
  pose proof (H x ltac:(left)). pose proof (IH ltac:(intros y Hy; apply H; by right)). lia.
Qed.
Lemma sum_Z_map_add {A} (f g : A -> Z) l :
  sum_Z (map (fun x => f x + g x) l) = sum_Z (map f l) + sum_Z (map g l).
Proof. induction l as [|x l IH]; [done|]. cbn [map]. rewrite !sum_Z_cons. lia. Qed.
Lemma sum_Z_map_opp {A} (f : A -> Z) l : sum_Z (map (fun x => - f x) l) = - sum_Z (map f l).
Proof. induction l as [|x l IH]; [done|]. cbn [map]. rewrite !sum_Z_cons. lia. Qed.

Lemma sum_submseteq {A} (f : A -> Z) l k :
  l ⊆+ k -> (forall x, x ∈ k -> 0 <= f x) -> sum_Z (map f l) <= sum_Z (map f k).
Proof.
  intros [r Hr]%submseteq_Permutation Hf.
  rewrite (sum_Z_Permutation _ _ (Permutation_map f Hr)), map_app, sum_Z_app.
  assert (0 <= sum_Z (map f r)); [|lia]. apply sum_Z_nonneg, Forall_map, Forall_forall.
  intros x Hx. apply Hf. rewrite Hr. apply elem_of_app. by right.
Qed.

Lemma sum_u64_mod l : sum_u64 l = wrap_u 64 (sum_Z l).
Proof.
  unfold sum_u64.
  assert (forall a, foldl (fun a x => wrap_u 64 (a + x)) (wrap_u 64 a) l
                    = wrap_u 64 (a + sum_Z l)) as H.
  { induction l as [|x l IH]; intros a; cbn [foldl].
    - f_equal. rewrite sum_Z_nil. lia.
    - rewrite sum_Z_cons, Z.add_assoc, <- IH. f_equal. unfold wrap_u.
      by rewrite Zplus_mod_idemp_l. }
  exact (H 0).
Qed.

Lemma sum_u64_small l :
  Forall (fun x => 0 <= x) l -> sum_Z l <= u64_max -> sum_u64 l = sum_Z l.
Proof.
  intros H1%sum_Z_nonneg H2. rewrite sum_u64_mod. apply wrap_u_small. unfold_ints. lia.
Qed.
End Ints.

(** ** Checked indexing: [None] is the panic of an index out of range *)

(** [v[i] = x]; reading [v[i]] is stdpp's [v !! i]. *)
Definition put {A} (i : nat) (x : A) (v : list A) : option (list A) :=
  if i <? length v then Some (<[i := x]> v) else None.

(** [a - b] on [usize]; [None] is the underflow. *)
Definition usize_sub (a b : nat) : option nat := if b <=? a then Some (a - b) else None.

(** [for x in l { body }] whose body may panic *)
Fixpoint fold_opt {A B} (f : B -> A -> option B) (acc : B) (l : list A) : option B :=
  match l with
  | [] => Some acc
  | x :: l => match f acc x with None => None | Some acc => fold_opt f acc l end
  end.

Lemma put_lt {A} i (x : A) v : i < length v -> put i x v = Some (<[i := x]> v).
Proof. intros Hi. unfold put. by rewrite (proj2 (Nat.ltb_lt _ _) Hi). Qed.

Lemma put_Some {A} i (x : A) v v' : put i x v = Some v' -> i < length v /\ v' = <[i := x]> v.
Proof. unfold put. destruct (Nat.ltb_spec i (length v)); [|done]. by intros [= <-]. Qed.

Lemma usize_sub_le a b : b <= a -> usize_sub a b = Some (a - b).
Proof. intros Hb. unfold usize_sub. by rewrite (proj2 (Nat.leb_le _ _) Hb). Qed.

Lemma fold_opt_app {A B} (f : B -> A -> option B) l1 l2 acc :
  fold_opt f acc (l1 ++ l2) = fold_opt f acc l1 ≫= fun acc => fold_opt f acc l2.
Proof.
  revert acc. induction l1 as [|x l1 IH]; intros acc; [done|]. cbn [app fold_opt].
  by destruct (f acc x).
Qed.

(** A panicking loop that stays within bounds is the loop without checks. *)
Lemma fold_opt_foldl {A B} (f : B -> A -> option B) (g : B -> A -> B) (P : B -> Prop) l b :
  P b -> (forall x b, x ∈ l -> P b -> f b x = Some (g b x) /\ P (g b x)) ->
  fold_opt f b l = Some (foldl g b l).
Proof.
  revert b. induction l as [|x l IH]; intros b Hb Hf; [done|]. cbn [fold_opt foldl].
  destruct (Hf x b ltac:(left) Hb) as [-> Hb']. apply IH; [done|]. intros; apply Hf; [by right|done].
Qed.

(** ** Counting loops: [for i in 0..n] *)

Lemma foldl_seq_inv {S} (P : nat -> S -> Prop) (f : S -> nat -> S) a n s :
  P a s ->
  (forall k s, a <= k < a + n -> P k s -> P (Datatypes.S k) (f s k)) ->
  P (a + n) (foldl f s (seq a n)).
Proof.
  revert a s. induction n as [|n IH]; intros a s H0 Hs; simpl.
  - by rewrite Nat.add_0_r.
  - replace (a + Datatypes.S n) with (Datatypes.S a + n) by lia.
    apply IH; [apply Hs; [lia|done]|]. intros k s' Hk. apply Hs. lia.
Qed.

(** First index satisfying [f]: the [for .. { continue } .. return Some] loops. *)
Fixpoint find_map {A B} (f : A -> option B) (l : list A) : option B :=
  match l with
  | [] => None
  | x :: l' => match f x with Some b => Some b | None => find_map f l' end
  end.

Lemma find_map_Some {A B} (f : A -> option B) l b :
  find_map f l = Some b ->
  exists l1 x l2, l = l1 ++ x :: l2 /\ f x = Some b /\ Forall (fun y => f y = None) l1.
Proof.
  induction l as [|x l IH]; simpl; [done|]. destruct (f x) eqn:Hf; intros H; simplify_eq.
  - exists [], x, l. auto.
  - destruct (IH H) as (l1 & y & l2 & -> & Hy & Hn). exists (x :: l1), y, l2. auto.
Qed.

Lemma find_map_elem {A B} (f : A -> option B) l b :
  find_map f l = Some b -> exists x, x ∈ l /\ f x = Some b.
Proof.
  intros (l1 & x & l2 & -> & Hx & _)%find_map_Some. exists x. split; [|done].
  apply elem_of_app. right. left.
Qed.

Lemma find_map_None {A B} (f : A -> option B) l :
  find_map f l = None <-> Forall (fun y => f y = None) l.
Proof.
  induction l as [|x l IH]; simpl; [by split; auto|].
  rewrite Forall_cons, <- IH. destruct (f x); naive_solver.
Qed.

(** ** Stable sorting: [slice::sort_by_key] *)

Section Sort.
Context {A : Type} (leb : A -> A -> bool).

Fixpoint insert_sorted (x : A) (l : list A) : list A :=
  match l with
  | [] => [x]
  | y :: l' => if leb x y then x :: y :: l' else y :: insert_sorted x l'
  end.

Definition sort_by (l : list A) : list A := foldr insert_sorted [] l.

Lemma insert_sorted_Permutation x l : Permutation (insert_sorted x l) (x :: l).
Proof.
  induction l as [|y l IH]; simpl; [done|]. case_match; [done|].
  rewrite IH. apply perm_swap.
Qed.

Lemma sort_by_Permutation l : Permutation (sort_by l) l.
Proof.
  induction l as [|x l IH]; simpl; [done|].
  rewrite insert_sorted_Permutation. by apply perm_skip.
Qed.

Lemma elem_of_sort_by x l : x ∈ sort_by l <-> x ∈ l.
Proof. by rewrite sort_by_Permutation. Qed.

Lemma length_sort_by l : length (sort_by l) = length l.
Proof. by rewrite sort_by_Permutation. Qed.

Hypothesis leb_total : forall x y, leb x y = true \/ leb y x = true.
Hypothesis leb_trans : forall x y z, leb x y = true -> leb y z = true -> leb x z = true.

Lemma insert_sorted_sorted x l :
  StronglySorted leb l -> StronglySorted leb (insert_sorted x l).
Proof using leb_total leb_trans.
  induction 1 as [|y l Hl IH Hy]; simpl.
  - by repeat constructor.
  - destruct (leb x y) eqn:Hxy.
    + constructor; [by constructor|]. constructor; [by rewrite Hxy|].
      eapply Forall_impl; [exact Hy|]. intros z Hz. cbn in *.
      apply Is_true_true. apply Is_true_true in Hz. eauto.
    + constructor; [done|]. apply Forall_forall. intros z Hz.
      rewrite insert_sorted_Permutation in Hz. apply elem_of_cons in Hz as [->|Hz].
      * destruct (leb_total x y) as [H|H]; [congruence|by rewrite H].
      * rewrite Forall_forall in Hy. auto.
Qed.

Lemma sort_by_sorted l : StronglySorted leb (sort_by l).
Proof using leb_total leb_trans. induction l; simpl; [constructor|by apply insert_sorted_sorted]. Qed.

(** Sorting forgets the order of its input when keys identify elements. *)
Lemma sorted_unique l1 l2 :
  (forall x y, x ∈ l1 -> y ∈ l1 -> leb x y = true -> leb y x = true -> x = y) ->
  StronglySorted leb l1 -> StronglySorted leb l2 -> Permutation l1 l2 -> l1 = l2.
Proof.
  intros Hanti Hs1. revert l2. induction Hs1 as [|x l1 Hl1 IH Hx]; intros l2 Hs2 Hp.
  - by apply Permutation_nil_l in Hp.
  - destruct Hs2 as [|y l2 Hl2 Hy]; [by symmetry in Hp; apply Permutation_nil_l in Hp|].
    assert (x = y) as ->.
    { assert (y ∈ x :: l1) as Hy1 by (rewrite Hp; left).
      assert (x ∈ y :: l2) as Hx2 by (rewrite <- Hp; left).
      rewrite Forall_forall in Hx, Hy.
      apply elem_of_cons in Hy1 as [->|Hy1]; [done|].
      apply elem_of_cons in Hx2 as [->|Hx2]; [done|].
      apply Hanti; [left|by right| |]; apply Is_true_true; auto. }
    f_equal. apply IH; [|done|by apply Permutation_cons_inv in Hp].
    intros a b Ha Hb. apply Hanti; by right.
Qed.

Lemma sort_by_Permutation_eq l1 l2 :
  (forall x y, x ∈ l1 -> y ∈ l1 -> leb x y = true -> leb y x = true -> x = y) ->
  Permutation l1 l2 -> sort_by l1 = sort_by l2.
Proof using leb_total leb_trans.
  intros Hanti Hp. apply sorted_unique; [|apply sort_by_sorted..|].
  - intros x y. rewrite !elem_of_sort_by. apply Hanti.
  - by rewrite !sort_by_Permutation.
Qed.
End Sort.

Lemma take_insert_sorted {A} (leb : A -> A -> bool) n x l :
  take n (insert_sorted leb x l) = take n (insert_sorted leb x (take n l)).
Proof.
  revert n. induction l as [|y l IH]; intros [|n]; cbn; try done. destruct (leb x y); cbn.
  - f_equal. destruct n; [done|]. cbn. by rewrite take_take, Nat.min_l by lia.
  - by rewrite IH.
Qed.

Lemma sort_by_snoc {A} (leb : A -> A -> bool) x l :
  (forall x y, leb x y = true \/ leb y x = true) ->
  (forall x y z, leb x y = true -> leb y z = true -> leb x z = true) ->
  (forall x y, leb x y = true -> leb y x = true -> x = y) ->
  sort_by leb (l ++ [x]) = insert_sorted leb x (sort_by leb l).
Proof.
  intros Ht Htr Ha. apply (sort_by_Permutation_eq leb Ht Htr (l ++ [x]) (x :: l)); [naive_solver|].
  by rewrite Permutation_app_comm.
Qed.

Lemma insert_sorted_map {A B} (f : A -> B) (leb : A -> A -> bool) (leb' : B -> B -> bool) x l :
  (forall x y, leb' (f x) (f y) = leb x y) ->
  insert_sorted leb' (f x) (map f l) = map f (insert_sorted leb x l).
Proof.
  intros Hf. induction l as [|y l IH]; cbn; [done|]. rewrite Hf. destruct (leb x y); cbn; [done|by rewrite IH].
Qed.

Lemma sort_by_map {A B} (f : A -> B) (leb : A -> A -> bool) (leb' : B -> B -> bool) l :
  (forall x y, leb' (f x) (f y) = leb x y) -> sort_by leb' (map f l) = map f (sort_by leb l).
Proof.
  intros Hf. induction l as [|x l IH]; cbn; [done|]. fold (sort_by leb' (map f l)).
  by rewrite IH, (insert_sorted_map f leb leb').
Qed.

Lemma removelast_take {A} (l : list A) n : length l = S n -> removelast l = take n l.
Proof.
  revert n. induction l as [|x l IH]; intros n; cbn; [lia|]. destruct l as [|y l].
  - by destruct n.
  - destruct n as [|n]; cbn; intros [=]. f_equal. apply (IH n). cbn. lia.
Qed.

Lemma length_omap_le {A B} (f : A -> option B) l : (length (omap f l) <= length l)%nat.
Proof. induction l as [|x l IH]; cbn; [done|]. destruct (f x); cbn; lia. Qed.

Lemma existsb_Permutation {A} (f : A -> bool) k1 k2 :
  Permutation k1 k2 -> existsb f k1 = existsb f k2.
Proof.
  intros H. induction H; cbn; [done|by f_equal| |congruence].
  rewrite !orb_assoc. f_equal. apply orb_comm.
Qed.

Lemma elem_of_rev {A} (x : A) l : x ∈ rev l <-> x ∈ l.
Proof. rewrite !list_elem_of_In. symmetry. apply in_rev. Qed.

(** [Vec::dedup] *)
Fixpoint dedup {A} `{EqDecision A} (l : list A) : list A :=
  match l with
  | [] => []
  | x :: l' => match l' with
               | [] => [x]
               | y :: _ => if decide (x = y) then dedup l' else x :: dedup l'
               end
  end.

Lemma elem_of_dedup {A} `{EqDecision A} (x : A) l : x ∈ dedup l <-> x ∈ l.
Proof.
  induction l as [|y [|z l] IH]; simpl; [done|done|].
  case_decide as Hyz; [subst; rewrite IH|rewrite !elem_of_cons, IH, !elem_of_cons]; set_solver.
Qed.

(** ** Lexicographic order on byte strings: [Ord] for [&[u8]] and [[u8; N]] *)

Fixpoint str_leb (a b : str) : bool :=
  match a, b with
  | [], _ => true
  | _ :: _, [] => false
  | x :: a', y :: b' => if (x <? y)%Z then true else if (y <? x)%Z then false else str_leb a' b'
  end.

Lemma str_leb_total a b : str_leb a b = true \/ str_leb b a = true.
Proof.
  revert b. induction a as [|x a IH]; intros [|y b]; simpl; auto.
  destruct (Z.ltb_spec x y), (Z.ltb_spec y x); auto.
Qed.

Lemma str_leb_trans a b c : str_leb a b = true -> str_leb b c = true -> str_leb a c = true.
Proof.
  revert b c. induction a as [|x a IH]; intros [|y b] [|z c]; simpl; auto; try done.
  destruct (Z.ltb_spec x y), (Z.ltb_spec y x), (Z.ltb_spec y z), (Z.ltb_spec z y),
    (Z.ltb_spec x z), (Z.ltb_spec z x); try done; try lia; eauto.
Qed.

Lemma str_leb_antisym a b : str_leb a b = true -> str_leb b a = true -> a = b.
Proof.
  revert b. induction a as [|x a IH]; intros [|y b]; simpl; auto; try done.
  destruct (Z.ltb_spec x y), (Z.ltb_spec y x); try done; try lia.
  intros. f_equal; [lia|eauto].
Qed.

Lemma str_leb_refl a : str_leb a a = true.
Proof. destruct (str_leb_total a a); done. Qed.

Create HintDb sporos.
#[export] Hint Resolve str_leb_total str_leb_trans str_leb_antisym str_leb_refl : sporos.
#[export] Hint Resolve hoare_liftr hoare_reads hoare_ret hoare_throw : sporos.
#[export] Hint Resolve sum_Z_nonneg sum_Z_Permutation : sporos.

(** Case analysis on the tests of a handler. *)
Ltac split_tests :=
  repeat match goal with
  | H : context [ if ?b then _ else _ ] |- _ => destruct b eqn:?; try discriminate H
  | H : context [ match ?o with Some _ => _ | None => _ end ] |- _ =>
      destruct o eqn:?; try discriminate H
  end.
