(* ===== verification/Model.v ===== *)
(** The stable domain types shared by every component: the crate
    [crates/sporos-model] ([id.rs] and [matching.rs]).  Every record keeps the
    fields of the Rust struct; [u16]/[u32]/[u64]/[i64] and [usize] fields are [Z],
    [String] is [str] and [Vec] is [list]. *)

From S2P Require Import Prelude.
From stdpp Require Import strings.

Local Open Scope Z_scope.

(** ** Identifiers ([id.rs]): fixed-length byte arrays, ordered lexicographically *)

Definition CandidateId : Type := str.
Definition PolicySnapshotId : Type := str.
Definition SourceId : Type := str.
Definition TaskId : Type := str.
Definition TaskKey : Type := str.

#[export] Instance SourceId_eq_dec : EqDecision SourceId := _.

(** ** Releases *)

Inductive VideoKind :=
| Movie | Episode | SeasonPack | DateEpisode | AbsoluteEpisode | Disc | UnknownVideo.
#[export] Instance VideoKind_eq_dec : EqDecision VideoKind.
Proof. solve_decision. Defined.

Record Date := mkDate { date_year : Z; date_month : Z; date_day : Z }.
#[export] Instance Date_eq_dec : EqDecision Date.
Proof. solve_decision. Defined.

(** [NormalizedTitle] wraps a [String] built by [normalize_title]. *)
Definition NormalizedTitle : Type := str.
#[export] Instance NormalizedTitle_eq_dec : EqDecision NormalizedTitle := _.

Inductive ArrKind := ArrMovie | ArrSeries.
#[export] Instance ArrKind_eq_dec : EqDecision ArrKind.
Proof. solve_decision. Defined.

Record ArrIdentity := mkArrIdentity {
  arr_kind : ArrKind;
  arr_instance : str;
  arr_entity_id : Z;
  arr_tvdb_id : option Z;
  arr_tmdb_id : option Z;
  arr_imdb_id : option str }.
#[export] Instance ArrIdentity_eq_dec : EqDecision ArrIdentity.
Proof. solve_decision. Defined.

Record ReleaseDescriptor := mkReleaseDescriptor {
  rd_kind : VideoKind;
  rd_primary_title : NormalizedTitle;
  rd_alternate_titles : list NormalizedTitle;
  rd_year : option Z;
  rd_season : option Z;
  rd_episode : option Z;
  rd_episode_end : option Z;
  rd_absolute_episode : option Z;
  rd_air_date : option Date;
  rd_edition : option str;
  rd_source : option str;
  rd_resolution : option str;
  rd_video_codec : option str;
  rd_hdr : option str;
  rd_audio : option str;
  rd_release_group : option str;
  rd_arr_identity : option ArrIdentity }.

(** [ReleaseDescriptor::unknown] *)
Definition unknown (title : NormalizedTitle) : ReleaseDescriptor :=
  {| rd_kind := UnknownVideo; rd_primary_title := title; rd_alternate_titles := [];
     rd_year := None; rd_season := None; rd_episode := None; rd_episode_end := None;
     rd_absolute_episode := None; rd_air_date := None; rd_edition := None; rd_source := None;
     rd_resolution := None; rd_video_codec := None; rd_hdr := None; rd_audio := None;
     rd_release_group := None; rd_arr_identity := None |}.

(** ** Torrents and local sources *)

Record InfoHashes := mkInfoHashes { ih_v1 : option str; ih_v2 : option str }.
Definition no_hashes : InfoHashes := {| ih_v1 := None; ih_v2 := None |}.

Record TorrentFile := mkTorrentFile {
  tf_ordinal : Z; tf_path : str; tf_size : Z; tf_padding : bool }.

Record TorrentPieceFile := mkTorrentPieceFile {
  tpf_file_ordinal : option Z; tpf_offset : Z; tpf_size : Z }.

Record TorrentManifest := mkTorrentManifest {
  tm_hashes : InfoHashes;
  tm_files : list TorrentFile;
  tm_piece_length : option Z;
  tm_piece_files : list TorrentPieceFile }.

Inductive SourceKind := QbittorrentTorrent | DataDirectoryRelease | DataDirectoryFile.
#[export] Instance SourceKind_eq_dec : EqDecision SourceKind.
Proof. solve_decision. Defined.

Record LocalSourceFile := mkLocalSourceFile {
  lsf_id : Z; lsf_path : str; lsf_size : Z; lsf_device_id : option Z; lsf_inode : option Z }.

Record LocalSourceManifest := mkLocalSourceManifest {
  lsm_id : SourceId;
  lsm_kind : SourceKind;
  lsm_release : ReleaseDescriptor;
  lsm_hashes : InfoHashes;
  lsm_files : list LocalSourceFile;
  lsm_available : bool }.

(** ** Matching policy *)

Record MatchingPolicy := mkMatchingPolicy {
  mp_allow_flexible : bool;
  mp_allow_partial : bool;
  mp_allow_season_from_episodes : bool;
  mp_primary_video_extensions : list str;
  mp_optional_extensions : list str;
  mp_optional_path_components : list str;
  mp_max_assignment_files : Z;
  mp_max_candidate_edges : Z;
  mp_max_assignment_component_files : Z;
  mp_max_assignment_operations : Z }.

Definition default_max_assignment_files : Z := 4096.
Definition default_max_candidate_edges : Z := 100000.
Definition default_max_assignment_component_files : Z := 128.
Definition default_max_assignment_operations : Z := 50000000.

(** [impl Default for MatchingPolicy] *)
Definition default_policy : MatchingPolicy :=
  {| mp_allow_flexible := true;
     mp_allow_partial := true;
     mp_allow_season_from_episodes := true;
     mp_primary_video_extensions :=
       map lit ["mkv"; "mp4"; "m4v"; "avi"; "ts"; "m2ts"; "mov"; "wmv"; "webm"; "iso"]%string;
     mp_optional_extensions :=
       map lit ["nfo"; "txt"; "srt"; "ass"; "ssa"; "sub"; "idx"; "jpg"; "jpeg"; "png"; "sfv"]%string;
     mp_optional_path_components := map lit ["sample"; "proof"; "screenshots"]%string;
     mp_max_assignment_files := default_max_assignment_files;
     mp_max_candidate_edges := default_max_candidate_edges;
     mp_max_assignment_component_files := default_max_assignment_component_files;
     mp_max_assignment_operations := default_max_assignment_operations |}.

(** ** Match decisions *)

Inductive MatchOutcome := Match | NoMatch | AlreadyPresent | Rejected.
#[export] Instance MatchOutcome_eq_dec : EqDecision MatchOutcome.
Proof. solve_decision. Defined.

Inductive MatchMode := Strict | Flexible | Partial | SeasonFromEpisodes.
#[export] Instance MatchMode_eq_dec : EqDecision MatchMode.
Proof. solve_decision. Defined.

Inductive MatchReason :=
| MatchStrict | MatchFlexible | MatchPartial | MatchSeasonFromEpisodes
| ReasonAlreadyPresent | NoPlausibleSource | MediaTypeConflict | TitleConflict | YearConflict
| SeriesConflict | SeasonConflict | EpisodeConflict | DateConflict | NoPrimaryVideoOverlap
| FileSizeConflict | AmbiguousFileMapping | UnsupportedTorrent | UnsafeTorrentPath
| HardlinkDeviceMismatch | MatcherBudgetExceeded.
#[export] Instance MatchReason_eq_dec : EqDecision MatchReason.
Proof. solve_decision. Defined.

(** [Ratio]: parts per million in a [u32] *)
Definition Ratio : Type := Z.
Definition Ratio_ZERO : Ratio := 0.
Definition Ratio_ONE : Ratio := 1000000.

Definition Ratio_from_ppm (ppm : Z) : option Ratio :=
  if ppm <=? 1000000 then Some ppm else None.

(** [Ratio::from_bytes]: the product and quotient are [u128], the result is cast
    to [u32]. *)
Definition Ratio_from_bytes (present total : Z) : Ratio :=
  if total =? 0 then Ratio_ZERO else wrap_u 32 (present * 1000000 / total).

Record FileMapping := mkFileMapping {
  fm_candidate_ordinal : Z;
  fm_source_id : SourceId;
  fm_source_file_id : Z;
  fm_candidate_path : str;
  fm_source_path : str;
  fm_size : Z;
  fm_score : Z }.
#[export] Instance FileMapping_eq_dec : EqDecision FileMapping.
Proof. solve_decision. Defined.

Record MatchEvidence := mkMatchEvidence {
  me_candidate_files : Z;
  me_required_files : Z;
  me_primary_files : Z;
  me_mapped_files : Z;
  me_mapped_primary_files : Z;
  me_mapped_primary_bytes : Z;
  me_exact_path_mappings : Z;
  me_compatible_sources : Z;
  me_qbit_sources : Z }.

(** [MatchEvidence::default()] *)
Definition default_evidence : MatchEvidence := mkMatchEvidence 0 0 0 0 0 0 0 0 0.

Record MatchDecision := mkMatchDecision {
  md_outcome : MatchOutcome;
  md_mode : option MatchMode;
  md_reason : MatchReason;
  md_source_ids : list SourceId;
  md_mappings : list FileMapping;
  md_mapped_bytes : Z;
  md_missing_bytes : Z;
  md_present_ratio : Ratio;
  md_requires_recheck : bool;
  md_evidence : MatchEvidence }.

(** ** Properties of [Ratio] *)

(** A byte ratio of a part to its whole never exceeds one million and never
    wraps in the cast to [u32]. *)
Lemma Ratio_from_bytes_bounded present total :
  0 <= present <= total ->
  0 <= Ratio_from_bytes present total <= Ratio_ONE /\
  (total <> 0 -> Ratio_from_bytes present total = present * 1000000 / total).
Proof.
  intros H. unfold Ratio_from_bytes, Ratio_ONE.
  destruct (Z.eqb_spec total 0) as [->|Ht]; [split; [done|lia]|].
  assert (0 <= present * 1000000 / total <= 1000000).
  { split; [apply Z.div_pos; lia|]. apply Z.div_le_upper_bound; nia. }
  rewrite wrap_u_small by (cbn; lia). lia.
Qed.

Lemma Ratio_from_bytes_full total :
  0 < total -> Ratio_from_bytes total total = Ratio_ONE.
Proof.
  intros H. unfold Ratio_from_bytes. destruct (Z.eqb_spec total 0); [lia|].
  rewrite Z.mul_comm, Z.div_mul by lia. done.
Qed.
