(* ===== verification/Text.v ===== *)
(** Text primitives: the parts of Rust's [str], [char] and [u8] that the program
    uses, over byte strings ([str] of the prelude) and over Unicode scalar values
    ([list Z]).

    [Unicode] is the interface to the three operations whose tables are data the
    repository does not contain: NFC normalisation (the third-party crate
    [unicode-normalization]), [char::to_lowercase] and [char::is_alphanumeric].
    [UnicodeLaws] states their documented behaviour on ASCII; [ascii_unicode] is
    a concrete instance. *)

From S2P Require Import Prelude.

Local Open Scope Z_scope.

(** ** Bytes *)

Definition is_ascii_digit (b : Z) : bool := (48 <=? b) && (b <=? 57).
Definition is_ascii_upper (b : Z) : bool := (65 <=? b) && (b <=? 90).
Definition is_ascii_lower (b : Z) : bool := (97 <=? b) && (b <=? 122).
Definition is_ascii_alphanumeric (b : Z) : bool :=
  is_ascii_digit b || is_ascii_upper b || is_ascii_lower b.
Definition is_ascii_hexdigit (b : Z) : bool :=
  is_ascii_digit b || ((65 <=? b) && (b <=? 70)) || ((97 <=? b) && (b <=? 102)).

Definition byte_to_ascii_uppercase (b : Z) : Z := if is_ascii_lower b then b - 32 else b.
Definition byte_to_ascii_lowercase (b : Z) : Z := if is_ascii_upper b then b + 32 else b.
Definition to_ascii_uppercase (s : str) : str := map byte_to_ascii_uppercase s.
Definition to_ascii_lowercase (s : str) : str := map byte_to_ascii_lowercase s.
Definition eq_ignore_ascii_case (a b : str) : bool :=
  bool_decide (to_ascii_lowercase a = to_ascii_lowercase b).

(** [a == b] on strings *)
Definition str_eqb (a b : str) : bool := bool_decide (a = b).

(** [list.contains(&x)] and [iter.any(f)] over strings *)
Definition str_mem (x : str) (l : list str) : bool := bool_decide (x ∈ l).

(** ** Numbers *)

(** [str::parse::<u64>] *)
Fixpoint digits_value (s : str) (value : Z) : option Z :=
  match s with
  | [] => Some value
  | b :: s =>
      if is_ascii_digit b
      then let value := value * 10 + (b - 48) in
           if value <=? u64_max then digits_value s value else None
      else None
  end.
Definition parse_u64 (s : str) : option Z :=
  match s with
  | [] => None
  | b :: rest =>
      if b =? 43 then match rest with [] => None | _ => digits_value rest 0 end
      else digits_value s 0
  end.

Lemma digits_value_range s value n :
  0 <= value <= u64_max -> digits_value s value = Some n -> 0 <= n <= u64_max.
Proof.
  revert value. induction s as [|b s IH]; intros value Hv; cbn [digits_value]; [by intros [= <-]|].
  destruct (is_ascii_digit b) eqn:Hb; [|done].
  destruct (Z.leb_spec (value * 10 + (b - 48)) u64_max); [|done]. apply IH.
  unfold is_ascii_digit in Hb. apply andb_prop in Hb as [Hb _]. lia.
Qed.

Lemma parse_u64_range s n : parse_u64 s = Some n -> 0 <= n <= u64_max.
Proof.
  assert (0 <= 0 <= u64_max) as H0' by done.
  destruct s as [|b [|c s]]; cbn [parse_u64]; [done|..]; destruct (b =? 43); try done;
    intros Hn; eapply digits_value_range; eauto.
Qed.

(** ** Searching and splitting *)

Fixpoint starts_with (p s : str) : bool :=
  match p, s with
  | [], _ => true
  | _ :: _, [] => false
  | x :: p', y :: s' => (x =? y) && starts_with p' s'
  end.

(** [str::find(&str)]: byte position of the first occurrence *)
Fixpoint find_sub (p s : str) : option nat :=
  if starts_with p s then Some O
  else match s with
       | [] => None
       | _ :: s' => S <$> find_sub p s'
       end.

Definition contains (p s : str) : bool :=
  match find_sub p s with Some _ => true | None => false end.

Definition contains_byte (c : Z) (s : str) : bool := existsb (Z.eqb c) s.

(** [s.split(c)]: always at least one component *)
Fixpoint split_on (c : Z) (s : str) : list str :=
  match s with
  | [] => [[]]
  | x :: s' =>
      if x =? c then [] :: split_on c s'
      else match split_on c s' with
           | [] => [[x]]
           | w :: ws => (x :: w) :: ws
           end
  end.

(** [components.join("/")] *)
Fixpoint join_on (c : Z) (ws : list str) : str :=
  match ws with
  | [] => []
  | [w] => w
  | w :: ws' => w ++ c :: join_on c ws'
  end.

(** [s.split_once] at the last occurrence of a byte: [rsplit_once(c)] *)
Fixpoint rsplit_once (c : Z) (s : str) : option (str * str) :=
  match s with
  | [] => None
  | x :: s' =>
      match rsplit_once c s' with
      | Some (a, b) => Some (x :: a, b)
      | None => if x =? c then Some ([], s') else None
      end
  end.

(** [s.rsplit(c).next().unwrap_or(s)] *)
Definition rsplit_next (c : Z) (s : str) : str :=
  match rsplit_once c s with Some (_, b) => b | None => s end.

(** [trim_end_matches(c)] *)
Fixpoint trim_end_matches (c : Z) (s : str) : str :=
  match s with
  | [] => []
  | x :: s' => match trim_end_matches c s' with
               | [] => if x =? c then [] else [x]
               | t => x :: t
               end
  end.

(** ** UTF-8 *)

Definition len_utf8 (c : Z) : Z :=
  if c <? 128 then 1 else if c <? 2048 then 2 else if c <? 65536 then 3 else 4.

Definition encode_utf8 (c : Z) : str :=
  if c <? 128 then [c]
  else if c <? 2048 then [192 + c / 64; 128 + c mod 64]
  else if c <? 65536 then [224 + c / 4096; 128 + (c / 64) mod 64; 128 + c mod 64]
  else [240 + c / 262144; 128 + (c / 4096) mod 64; 128 + (c / 64) mod 64; 128 + c mod 64].

Definition string_of_chars (cs : list Z) : str := concat (map encode_utf8 cs).

(** [s.chars()] on the bytes of a valid [str] *)
Fixpoint chars (s : str) : list Z :=
  match s with
  | [] => []
  | b0 :: s1 =>
      if b0 <? 192 then b0 :: chars s1
      else match s1 with
           | [] => [b0]
           | b1 :: s2 =>
               if b0 <? 224 then (b0 - 192) * 64 + (b1 - 128) :: chars s2
               else match s2 with
                    | [] => [b0; b1]
                    | b2 :: s3 =>
                        if b0 <? 240
                        then (b0 - 224) * 4096 + (b1 - 128) * 64 + (b2 - 128) :: chars s3
                        else match s3 with
                             | [] => [b0; b1; b2]
                             | b3 :: s4 =>
                                 (b0 - 240) * 262144 + (b1 - 128) * 4096 + (b2 - 128) * 64
                                 + (b3 - 128) :: chars s4
                             end
                    end
           end
  end.

(** [std::str::from_utf8]: the bytes that encode Unicode scalar values *)
Definition from_utf8 (s : str) : option str :=
  if bool_decide (string_of_chars (chars s) = s)
     && forallb (fun c => (0 <=? c) && (c <? 1114112) && negb ((55296 <=? c) && (c <=? 57343))) (chars s)
  then Some s else None.

(** A Unicode scalar value (the surrogate gap is irrelevant to the encoding). *)
Definition is_scalar (c : Z) : Prop := 0 <= c < 1114112.

Lemma chars_encode c s : is_scalar c -> chars (encode_utf8 c ++ s) = c :: chars s.
Proof.
  unfold is_scalar, encode_utf8. intros Hc.
  destruct (Z.ltb_spec c 128); [|destruct (Z.ltb_spec c 2048); [|destruct (Z.ltb_spec c 65536)]].
  - simpl. destruct (Z.ltb_spec c 192); [done|lia].
  - simpl. pose proof (Z.div_mod c 64 ltac:(lia)). pose proof (Z.mod_pos_bound c 64 ltac:(lia)).
    set (q := c / 64) in *. assert (2 <= q < 32) by (subst q; split;
      [apply Z.div_le_lower_bound|apply Z.div_lt_upper_bound]; lia).
    destruct (Z.ltb_spec (192 + q) 192); [lia|].
    destruct (Z.ltb_spec (192 + q) 224); [|lia]. f_equal. lia.
  - simpl. pose proof (Z.div_mod c 64 ltac:(lia)). pose proof (Z.mod_pos_bound c 64 ltac:(lia)).
    pose proof (Z.div_mod (c / 64) 64 ltac:(lia)).
    pose proof (Z.mod_pos_bound (c / 64) 64 ltac:(lia)).
    replace (c / 4096) with (c / 64 / 64) by (rewrite Z.div_div by lia; f_equal).
    set (q := c / 64) in *. set (r := q / 64) in *.
    assert (32 <= q < 1024) by (subst q; split;
      [apply Z.div_le_lower_bound|apply Z.div_lt_upper_bound]; lia).
    assert (0 <= r < 16) by (subst r; split;
      [apply Z.div_le_lower_bound|apply Z.div_lt_upper_bound]; lia).
    destruct (Z.ltb_spec (224 + r) 192); [lia|].
    destruct (Z.ltb_spec (224 + r) 224); [lia|].
    destruct (Z.ltb_spec (224 + r) 240); [|lia]. f_equal. lia.
  - simpl. pose proof (Z.div_mod c 64 ltac:(lia)). pose proof (Z.mod_pos_bound c 64 ltac:(lia)).
    pose proof (Z.div_mod (c / 64) 64 ltac:(lia)).
    pose proof (Z.mod_pos_bound (c / 64) 64 ltac:(lia)).
    pose proof (Z.div_mod (c / 64 / 64) 64 ltac:(lia)).
    pose proof (Z.mod_pos_bound (c / 64 / 64) 64 ltac:(lia)).
    replace (c / 4096) with (c / 64 / 64) by (rewrite Z.div_div by lia; f_equal).
    replace (c / 262144) with (c / 64 / 64 / 64) by (rewrite !Z.div_div by lia; f_equal).
    set (q := c / 64) in *. set (r := q / 64) in *. set (t := r / 64) in *.
    assert (0 <= t) by (subst t r q; repeat apply Z.div_pos; lia).
    destruct (Z.ltb_spec (240 + t) 192); [lia|].
    destruct (Z.ltb_spec (240 + t) 224); [lia|].
    destruct (Z.ltb_spec (240 + t) 240); [lia|]. f_equal. lia.
Qed.

Lemma chars_string_of_chars cs : Forall is_scalar cs -> chars (string_of_chars cs) = cs.
Proof.
  induction 1 as [|c cs Hc _ IH]; [done|].
  unfold string_of_chars in *. cbn [map concat]. rewrite chars_encode by done. by rewrite IH.
Qed.

Lemma string_of_chars_app a b : string_of_chars (a ++ b) = string_of_chars a ++ string_of_chars b.
Proof. unfold string_of_chars. by rewrite map_app, concat_app. Qed.

Lemma length_encode_utf8 c : Z.of_nat (length (encode_utf8 c)) = len_utf8 c.
Proof. unfold encode_utf8, len_utf8. by repeat case_match. Qed.

(** ** [char] predicates with complete tables *)

(** [char::is_whitespace] *)
Definition is_whitespace (c : Z) : bool :=
  ((9 <=? c) && (c <=? 13)) || (c =? 32) || (c =? 133) || (c =? 160) || (c =? 5760)
  || ((8192 <=? c) && (c <=? 8202)) || (c =? 8232) || (c =? 8233) || (c =? 8239)
  || (c =? 8287) || (c =? 12288).

(** [char::is_control]: general category Cc *)
Definition is_control (c : Z) : bool :=
  ((0 <=? c) && (c <=? 31)) || ((127 <=? c) && (c <=? 159)).

Fixpoint drop_while (f : Z -> bool) (l : list Z) : list Z :=
  match l with
  | [] => []
  | x :: l' => if f x then drop_while f l' else l
  end.

(** [str::trim], on scalar values and on bytes *)
Definition trim_chars (cs : list Z) : list Z :=
  rev (drop_while is_whitespace (rev (drop_while is_whitespace cs))).
Definition trim (s : str) : str := string_of_chars (trim_chars (chars s)).

Lemma drop_while_suffix f l : exists k, l = k ++ drop_while f l /\ Forall (fun x => f x = true) k.
Proof.
  induction l as [|x l (k & Hk & Hf)]; simpl; [by exists []|].
  destruct (f x) eqn:Hx; [|by exists []]. exists (x :: k). split; [by rewrite Hk at 1|auto].
Qed.

Lemma drop_while_elem f l x : x ∈ drop_while f l -> x ∈ l.
Proof.
  destruct (drop_while_suffix f l) as (k & Hk & _). intros Hx. rewrite Hk.
  apply elem_of_app. by right.
Qed.

Lemma trim_chars_elem l x : x ∈ trim_chars l -> x ∈ l.
Proof.
  unfold trim_chars. intros Hx%elem_of_rev%drop_while_elem%elem_of_rev%drop_while_elem. done.
Qed.

(** [trim] keeps a contiguous part of its input. *)
Lemma trim_chars_sub l : exists a b, l = a ++ trim_chars l ++ b.
Proof.
  unfold trim_chars. destruct (drop_while_suffix is_whitespace l) as (a & Ha & _).
  destruct (drop_while_suffix is_whitespace (rev (drop_while is_whitespace l))) as (b & Hb & _).
  exists a, (rev b). rewrite Ha at 1. f_equal.
  rewrite <- rev_app_distr, <- Hb. by rewrite rev_involutive.
Qed.

(** ** The Unicode interface *)

Class Unicode := {
  nfc : list Z -> list Z;
  to_lowercase : Z -> list Z;
  is_alphanumeric : Z -> bool }.

Class UnicodeLaws (U : Unicode) : Prop := {
  nfc_ascii : forall cs, Forall (fun c => 0 <= c < 128) cs -> nfc cs = cs;
  nfc_scalar : forall cs, Forall is_scalar cs -> Forall is_scalar (nfc cs);
  to_lowercase_ascii : forall c, 0 <= c < 128 -> to_lowercase c = [byte_to_ascii_lowercase c];
  to_lowercase_scalar : forall c, is_scalar c -> Forall is_scalar (to_lowercase c);
  is_alphanumeric_ascii : forall c, 0 <= c < 128 -> is_alphanumeric c = is_ascii_alphanumeric c }.

(** [s.nfc().collect::<String>()] *)
Definition nfc_string `{Unicode} (s : str) : str := string_of_chars (nfc (chars s)).

#[export] Instance ascii_unicode : Unicode := {|
  nfc := fun cs => cs;
  to_lowercase := fun c => [byte_to_ascii_lowercase c];
  is_alphanumeric := is_ascii_alphanumeric |}.

#[export] Instance ascii_unicode_laws : UnicodeLaws ascii_unicode.
Proof.
  split; try done.
  intros c Hc. cbn. constructor; [|constructor].
  unfold byte_to_ascii_lowercase, is_ascii_upper, is_scalar in *.
  destruct (Z.leb_spec 65 c), (Z.leb_spec c 90); simpl; lia.
Qed.

(** ** Lemmas on the string operations *)

Lemma starts_with_spec p s : starts_with p s = true <-> exists t, s = p ++ t.
Proof.
  revert s. induction p as [|x p IH]; intros s; simpl.
  - split; [by exists s|done].
  - destruct s as [|y s]; [split; [done|by intros [t Ht]]|].
    rewrite andb_true_iff, Z.eqb_eq, IH. split.
    + intros [-> [t ->]]. by exists t.
    + intros [t [= -> ->]]. split; [done|by exists t].
Qed.

Lemma find_sub_Some p s n :
  find_sub p s = Some n -> exists a b, s = a ++ p ++ b /\ length a = n.
Proof.
  revert n. induction s as [|x s IH]; intros n; cbn [find_sub].
  - destruct (starts_with p []) eqn:Hp; [|done]. intros [= <-].
    apply starts_with_spec in Hp as [t Ht]. exists [], t. done.
  - destruct (starts_with p (x :: s)) eqn:Hp.
    + intros [= <-]. apply starts_with_spec in Hp as [t Ht]. exists [], t. done.
    + destruct (find_sub p s) as [m|]; [|done]. intros [= <-].
      destruct (IH m eq_refl) as (a & b & -> & Hl). exists (x :: a), b. simpl. auto.
Qed.

Lemma find_sub_app p a b : is_Some (find_sub p (a ++ p ++ b)).
Proof.
  induction a as [|x a IH]; cbn [app].
  - assert (starts_with p (p ++ b) = true) as H by (apply starts_with_spec; by exists b).
    destruct (p ++ b); cbn [find_sub]; by rewrite H.
  - cbn [find_sub]. case_match; [done|]. destruct IH as [n Hn]. rewrite Hn. done.
Qed.

Lemma contains_spec p s : contains p s = true <-> exists a b, s = a ++ p ++ b.
Proof.
  unfold contains. split.
  - destruct (find_sub p s) eqn:Hf; [|done]. intros _.
    apply find_sub_Some in Hf as (a & b & Hs & _). eauto.
  - intros (a & b & ->). destruct (find_sub_app p a b) as [n Hn]. by rewrite Hn.
Qed.

Lemma contains_byte_spec c s : contains_byte c s = true <-> c ∈ s.
Proof.
  unfold contains_byte. rewrite existsb_exists. setoid_rewrite Z.eqb_eq.
  setoid_rewrite <- list_elem_of_In. naive_solver.
Qed.

Lemma split_on_nonempty c s : split_on c s <> [].
Proof. destruct s as [|x s]; simpl; [done|]. by repeat case_match. Qed.

Lemma join_split c s : join_on c (split_on c s) = s.
Proof.
  induction s as [|x s IH]; simpl; [done|].
  destruct (Z.eqb_spec x c) as [->|Hx].
  - pose proof (split_on_nonempty c s). destruct (split_on c s); [done|]. simpl in *. by rewrite IH.
  - pose proof (split_on_nonempty c s). destruct (split_on c s) as [|w [|w' ws]]; [done| |];
      simpl in *; by rewrite IH.
Qed.

Lemma split_on_no_sep c s w : w ∈ split_on c s -> c ∉ w.
Proof.
  revert w. induction s as [|x s IH]; intros w; simpl.
  - rewrite list_elem_of_singleton. intros ->. apply not_elem_of_nil.
  - destruct (Z.eqb_spec x c) as [->|Hx].
    + rewrite elem_of_cons. intros [->|Hw]; [apply not_elem_of_nil|auto].
    + destruct (split_on c s) as [|w' ws].
      * rewrite list_elem_of_singleton. intros ->. rewrite list_elem_of_singleton. congruence.
      * rewrite elem_of_cons. intros [->|Hw].
        -- rewrite not_elem_of_cons. split; [congruence|]. apply IH. left.
        -- apply IH. by right.
Qed.

Lemma rsplit_once_Some c s a b : rsplit_once c s = Some (a, b) -> s = a ++ c :: b /\ c ∉ b.
Proof.
  revert a b. induction s as [|x s IH]; intros a b; simpl; [done|].
  destruct (rsplit_once c s) as [[a' b']|] eqn:Hr.
  - intros [= <- <-]. destruct (IH a' b' eq_refl) as [-> Hb]. done.
  - destruct (Z.eqb_spec x c) as [->|]; [|done]. intros [= <- <-]. split; [done|].
    clear IH. induction s as [|y s IH]; [apply not_elem_of_nil|].
    simpl in Hr. destruct (rsplit_once c s) as [[? ?]|]; [done|].
    destruct (Z.eqb_spec y c); [done|]. apply not_elem_of_cons. auto.
Qed.

#[export] Hint Resolve split_on_nonempty split_on_no_sep chars_string_of_chars : sporos.

Lemma str_eqb_spec a b : str_eqb a b = true <-> a = b.
Proof. apply bool_decide_eq_true. Qed.

Lemma str_eqb_refl a : str_eqb a a = true.
Proof. by apply str_eqb_spec. Qed.
