(* ===== verification/Float.v ===== *)
(** The [f64]s of the program: progress reported by qBittorrent, between 0 and 1, which
    is stored in millionths, and tolerances.

    An [f64] is IEEE binary64, the executable [spec_float] of the Standard Library.  The
    operations are those the source uses: [is_finite], [contains] on [0.0..=1.0],
    multiplication with rounding to the nearest even, [round] and [ceil] with the saturating
    casts to [i64] and [u64], and the cast from an integer. *)

From S2P Require Import Prelude.
From Stdlib Require Export SpecFloat.
Local Open Scope Z_scope.

Definition f64_zero : spec_float := S754_zero false.
Definition f64_one : spec_float := S754_finite false (2 ^ 52) (-52).
Definition f64_million : spec_float := S754_finite false (1000000 * 2 ^ 33) (-33).

Definition is_finite (value : spec_float) : bool :=
  match value with S754_zero _ | S754_finite _ _ _ => true | _ => false end.

(** [(0.0..=1.0).contains(&value)] *)
Definition unit_contains (value : spec_float) : bool := SFleb f64_zero value && SFleb value f64_one.

(** [value.round() as i64]: to the nearest integer, ties away from zero. *)
Definition round_i64 (value : spec_float) : Z :=
  match value with
  | S754_finite s m e =>
      let magnitude := if 0 <=? e then Z.pos m * 2 ^ e
                       else (Z.pos m + 2 ^ (- e - 1)) / 2 ^ (- e) in
      let v := if s then - magnitude else magnitude in
      Z.max i64_min (Z.min i64_max v)
  | S754_infinity s => if s then i64_min else i64_max
  | S754_zero _ | S754_nan => 0
  end.

(** [(value * 1_000_000.0).round() as i64] *)
Definition millionths (value : spec_float) : Z := round_i64 (SFmul 53 1024 value f64_million).

(** [value as f64] of an unsigned integer: to the nearest, ties to even *)
Definition f64_of (value : Z) : spec_float := binary_normalize 53 1024 value 0 false.

(** [value.ceil() as u64] *)
Definition ceil_u64 (value : spec_float) : Z :=
  match value with
  | S754_finite s m e =>
      let up := if 0 <=? e then (if s then - Z.pos m else Z.pos m) * 2 ^ e
                else if s then - (Z.pos m / 2 ^ (- e)) else (Z.pos m + 2 ^ (- e) - 1) / 2 ^ (- e) in
      Z.max 0 (Z.min u64_max up)
  | S754_infinity s => if s then 0 else u64_max
  | S754_zero _ | S754_nan => 0
  end.

(** [((value as f64) * factor).ceil() as u64] *)
Definition ceil_scaled (value : Z) (factor : spec_float) : Z := ceil_u64 (SFmul 53 1024 (f64_of value) factor).

Example one_is_a_million : millionths f64_one = 1000000.
Proof. reflexivity. Qed.
Example zero_is_zero : millionths f64_zero = 0 /\ millionths (S754_zero true) = 0.
Proof. done. Qed.

#[export] Instance spec_float_eq_dec : EqDecision spec_float.
Proof. solve_decision. Defined.

(** Two percent of 1000 is 20; in binary64 nothing is added by the rounding. *)
Example two_percent_of_1000 : ceil_scaled 1000 (S754_finite false 5764607523034235 (-58)) = 20.
Proof. reflexivity. Qed.
