(* ===== verification/Hungarian.v ===== *)
(** The assignment solver of the matcher: [hungarian] of
    [crates/sporos-matcher/src/matcher.rs], with its [i128] arithmetic.

    The vectors of the code are lists indexed from 0, [minimum], [used],
    [row_potential], [column_potential], [column_row] and [previous] as in the
    source.  Every index is checked: a result [None] is a panic (an index out of
    range, an underflowing [- 1]) or a run that the fuel of the two unbounded
    [loop]s did not cover, and [hungarian_optimal] excludes both.

    The proof follows the primal-dual argument: the outer loop keeps a matching
    of the first rows whose edges are tight for feasible potentials ([Outer]);
    the search loop grows an alternating tree in the order of [L] ([Search]);
    augmenting along [previous] moves the hole of the matching down that tree
    ([Hole]). *)

From S2P Require Import Prelude.

Local Open Scope Z_scope.

(** ** Definitions *)

Definition i128_sub (a b : Z) : Z := wrap_i 128 (a - b).
Definition i128_add (a b : Z) : Z := wrap_i 128 (a + b).

(** [vec![x; n]] *)
Definition vec_of {A} (x : A) (n : nat) : list A := replicate n x.

Section Code.
Context (costs : list (list Z)).

(** The vectors that live across rows. *)
Record solver := mkSolver {
  row_potential : list Z;
  column_potential : list Z;
  column_row : list nat;
  previous : list nat }.

(** Body of [for candidate_column in 1..=columns]: relax the columns that are
    not used and remember the cheapest. *)
Definition scan_step (s : solver) (column current_row : nat) (used : list bool)
    (acc : list Z * list nat * Z * nat) (candidate_column : nat)
    : option (list Z * list nat * Z * nat) :=
  let '(minimum, previous, delta, next) := acc in
  seen ← used !! candidate_column;
  if (seen : bool) then Some acc
  else
    row ← usize_sub current_row 1;
    costs_row ← costs !! row;
    column_index ← usize_sub candidate_column 1;
    cost ← costs_row !! column_index;
    u ← row_potential s !! current_row;
    v ← column_potential s !! candidate_column;
    let reduced := i128_sub (i128_sub cost u) v in
    known ← minimum !! candidate_column;
    '(minimum, previous) ←
      (if reduced <? known
       then minimum ← put candidate_column reduced minimum;
            previous ← put candidate_column column previous;
            Some (minimum, previous)
       else Some (minimum, previous));
    known ← minimum !! candidate_column;
    Some (if known <? delta then (minimum, previous, known, candidate_column)
          else (minimum, previous, delta, next)).

(** Body of [for candidate_column in 0..=columns]: shift the potentials. *)
Definition shift_step (column_row : list nat) (used : list bool) (delta : Z)
    (acc : list Z * list Z * list Z) (candidate_column : nat)
    : option (list Z * list Z * list Z) :=
  let '(row_potential, column_potential, minimum) := acc in
  seen ← used !! candidate_column;
  if (seen : bool) then
    r ← column_row !! candidate_column;
    u ← row_potential !! r;
    row_potential ← put r (i128_add u delta) row_potential;
    v ← column_potential !! candidate_column;
    column_potential ← put candidate_column (i128_sub v delta) column_potential;
    Some (row_potential, column_potential, minimum)
  else
    known ← minimum !! candidate_column;
    minimum ← put candidate_column (i128_sub known delta) minimum;
    Some (row_potential, column_potential, minimum).

(** The first [loop]: returns the solver and the free column it reached. *)
Fixpoint search (columns fuel : nat) (s : solver) (minimum : list Z) (used : list bool)
    (column : nat) : option (solver * nat) :=
  match fuel with
  | O => None
  | S fuel =>
      used ← put column true used;
      current_row ← column_row s !! column;
      '(minimum, previous, delta, next) ←
        fold_opt (scan_step s column current_row used) (minimum, previous s, i128_max, O)
          (seq 1 columns);
      '(row_potential, column_potential, minimum) ←
        fold_opt (shift_step (column_row s) used delta)
          (row_potential s, column_potential s, minimum) (seq 0 (S columns));
      let s := mkSolver row_potential column_potential (column_row s) previous in
      row ← column_row s !! next;
      if (row =? 0)%nat then Some (s, next) else search columns fuel s minimum used next
  end.

(** The second [loop]: reassign columns back to column 0. *)
Fixpoint augment (fuel : nat) (previous column_row : list nat) (column : nat)
    : option (list nat) :=
  match fuel with
  | O => None
  | S fuel =>
      prior ← previous !! column;
      row ← column_row !! prior;
      column_row ← put column row column_row;
      if (prior =? 0)%nat then Some column_row else augment fuel previous column_row prior
  end.

(** Body of [for row in 1..=rows]. *)
Definition insert_row (columns : nat) (s : solver) (row : nat) : option solver :=
  column_row' ← put O row (column_row s);
  let s := mkSolver (row_potential s) (column_potential s) column_row' (previous s) in
  '(s, column) ← search columns (S columns) s (vec_of i128_max (S columns))
                        (vec_of false (S columns)) O;
  column_row ← augment (S columns) (previous s) (column_row s) column;
  Some (mkSolver (row_potential s) (column_potential s) column_row (previous s)).

Definition read_assignment (column_row : list nat) (assignment : list nat) (column : nat)
    : option (list nat) :=
  row ← column_row !! column;
  if (row =? 0)%nat then Some assignment
  else row_index ← usize_sub row 1;
       column_index ← usize_sub column 1;
       put row_index column_index assignment.

Definition hungarian : option (list nat) :=
  let rows := length costs in
  first ← costs !! O;
  let columns := length first in
  let s := mkSolver (vec_of 0 (S rows)) (vec_of 0 (S columns)) (vec_of O (S columns))
                    (vec_of O (S columns)) in
  s ← fold_opt (insert_row columns) s (seq 1 rows);
  fold_opt (read_assignment (column_row s)) (vec_of columns rows) (seq 1 columns).
End Code.

(** [rectangular_assignment_can_leave_rows_unmatched] of the test module. *)
Example hungarian_test : hungarian [[-10; 0; 0]; [-5; 0; 0]] = Some [0; 1]%nat.
Proof. vm_compute. reflexivity. Qed.
Example hungarian_test2 :
  hungarian [[-7; -9; 0; 0; 0]; [-3; -9; 0; 0; 0]; [-8; -1; 0; 0; 0]] = Some [2; 1; 0]%nat.
Proof. vm_compute. reflexivity. Qed.

(** ** The loop bodies without bounds checks

    Within bounds each checked body above is its unchecked form below
    ([scan_checked], [shift_checked], [read_checked]); the invariants of the proof
    provide the bounds. *)

Section Unchecked.
Context (costs : list (list Z)).

Definition cost (row column : nat) : Z := (costs !!! row) !!! column.

Definition scan_body (s : solver) (column : nat) (used : list bool)
    (acc : list Z * list nat * Z * nat) (candidate_column : nat)
    : list Z * list nat * Z * nat :=
  let '(minimum, previous, delta, next) := acc in
  if (used !!! candidate_column : bool) then acc
  else
    let current_row := column_row s !!! column in
    let reduced :=
      i128_sub (i128_sub (cost (current_row - 1) (candidate_column - 1))
                         (row_potential s !!! current_row))
               (column_potential s !!! candidate_column) in
    let '(minimum, previous) :=
      if reduced <? minimum !!! candidate_column
      then (<[candidate_column := reduced]> minimum, <[candidate_column := column]> previous)
      else (minimum, previous) in
    if minimum !!! candidate_column <? delta
    then (minimum, previous, minimum !!! candidate_column, candidate_column)
    else (minimum, previous, delta, next).

Definition shift_body (column_row : list nat) (used : list bool) (delta : Z)
    (acc : list Z * list Z * list Z) (candidate_column : nat) : list Z * list Z * list Z :=
  let '(row_potential, column_potential, minimum) := acc in
  if (used !!! candidate_column : bool) then
    let r := column_row !!! candidate_column in
    (<[r := i128_add (row_potential !!! r) delta]> row_potential,
     <[candidate_column := i128_sub (column_potential !!! candidate_column) delta]>
       column_potential,
     minimum)
  else
    (row_potential, column_potential,
     <[candidate_column := i128_sub (minimum !!! candidate_column) delta]> minimum).

Definition read_body (column_row : list nat) (assignment : list nat) (column : nat)
    : list nat :=
  if (column_row !!! column =? 0)%nat then assignment
  else <[(column_row !!! column - 1)%nat := (column - 1)%nat]> assignment.

(** [scan_body] and [scan_step] agree while every vector is long enough. *)
Lemma scan_checked (s : solver) column (used : list bool) (minimum : list Z) n m :
  length costs = n -> Forall (fun row => length row = m) costs ->
  length (row_potential s) = S n -> length (column_potential s) = S m ->
  length (previous s) = S m -> length minimum = S m -> length used = S m ->
  (1 <= column_row s !!! column <= n)%nat ->
  fold_opt (scan_step costs s column (column_row s !!! column) used)
    (minimum, previous s, i128_max, O) (seq 1 m)
  = Some (foldl (scan_body s column used) (minimum, previous s, i128_max, O) (seq 1 m)).
Proof.
  intros Hn Hrect Hu Hv Hw Hm Hus Hrow.
  apply (fold_opt_foldl _ _ (fun '(mi, pr, _, _) => length mi = S m /\ length pr = S m)); [done|].
  intros j [[[mi pr] de] ne] Hj%elem_of_seq [Hmi Hpr]. unfold scan_step, scan_body, cost.
  set (i := column_row s !!! column) in *.
  rewrite (list_lookup_lookup_total_lt used) by lia. cbn [mbind option_bind].
  destruct (used !!! j); [done|].
  rewrite (usize_sub_le i) by lia. cbn [mbind option_bind].
  rewrite (list_lookup_lookup_total_lt costs (i - 1)) by lia. cbn [mbind option_bind].
  assert (length (costs !!! (i - 1)%nat) = m) as Hlen.
  { rewrite Forall_forall in Hrect. apply Hrect, list_elem_of_lookup_total_2. lia. }
  rewrite (usize_sub_le j) by lia. cbn [mbind option_bind].
  rewrite (list_lookup_lookup_total_lt (costs !!! (i - 1)%nat)) by lia. cbn [mbind option_bind].
  rewrite (list_lookup_lookup_total_lt (row_potential s)) by lia. cbn [mbind option_bind].
  rewrite (list_lookup_lookup_total_lt (column_potential s)) by lia. cbn [mbind option_bind].
  rewrite (list_lookup_lookup_total_lt mi) by lia. cbn [mbind option_bind].
  set (reduced := i128_sub _ _). destruct (reduced <? mi !!! j).
  - rewrite !put_lt by lia. cbn [mbind option_bind].
    rewrite list_lookup_lookup_total_lt by (rewrite length_insert; lia). cbn [mbind option_bind].
    split; [by destruct (_ <? de)|]. destruct (_ <? de); by rewrite !length_insert.
  - cbn [mbind option_bind]. rewrite list_lookup_lookup_total_lt by lia. cbn [mbind option_bind].
    split; [by destruct (_ <? de)|]. by destruct (_ <? de).
Qed.
End Unchecked.

Lemma shift_checked (p : list nat) (used : list bool) delta (u v minimum : list Z) n m :
  length p = S m -> length used = S m ->
  length u = S n -> length v = S m -> length minimum = S m ->
  (forall j, (j <= m)%nat -> used !!! j = true -> (p !!! j <= n)%nat) ->
  fold_opt (shift_step p used delta) (u, v, minimum) (seq 0 (S m))
  = Some (foldl (shift_body p used delta) (u, v, minimum) (seq 0 (S m))).
Proof.
  intros Hp Hus Hu Hv Hm Hrow.
  apply (fold_opt_foldl _ _ (fun '(u, v, mi) => length u = S n /\ length v = S m /\ length mi = S m));
    [done|].
  intros j [[u1 v1] mi] Hj%elem_of_seq (H1 & H2 & H3). unfold shift_step, shift_body.
  rewrite (list_lookup_lookup_total_lt used) by lia. cbn [mbind option_bind].
  destruct (used !!! j) eqn:Hseen.
  - specialize (Hrow j ltac:(lia) Hseen).
    rewrite (list_lookup_lookup_total_lt p) by lia. cbn [mbind option_bind].
    rewrite (list_lookup_lookup_total_lt u1) by lia. cbn [mbind option_bind].
    rewrite put_lt by lia. cbn [mbind option_bind].
    rewrite (list_lookup_lookup_total_lt v1) by lia. cbn [mbind option_bind].
    rewrite put_lt by lia. by rewrite !length_insert.
  - rewrite (list_lookup_lookup_total_lt mi) by lia. cbn [mbind option_bind].
    rewrite put_lt by lia. by rewrite !length_insert.
Qed.

Lemma read_checked (p a : list nat) n m :
  length p = S m -> length a = n -> (forall j, (1 <= j <= m)%nat -> (p !!! j <= n)%nat) ->
  fold_opt (read_assignment p) a (seq 1 m) = Some (foldl (read_body p) a (seq 1 m)).
Proof.
  intros Hp Ha Hr. apply (fold_opt_foldl _ _ (fun a => length a = n)); [done|].
  intros j b Hj%elem_of_seq Hb. unfold read_assignment, read_body. specialize (Hr j ltac:(lia)).
  rewrite (list_lookup_lookup_total_lt p) by lia. cbn [mbind option_bind].
  destruct (Nat.eqb_spec (p !!! j) 0); [done|].
  rewrite !usize_sub_le by lia. cbn [mbind option_bind].
  rewrite put_lt by lia. by rewrite length_insert.
Qed.

(** ** Closed forms of the two column scans *)

Section Scans.
Context (costs : list (list Z)) (m : nat).
Local Open Scope nat_scope.

(** Reduced cost of a column in the row that [column] is matched with. *)
Definition reduced_cost (s : solver) (column j : nat) : Z :=
  i128_sub (i128_sub (cost costs (column_row s !!! column - 1) (j - 1))
                     (row_potential s !!! (column_row s !!! column)))
           (column_potential s !!! j).

Definition relaxed (s : solver) (minimum : list Z) (column j : nat) : Z :=
  Z.min (reduced_cost s column j) (minimum !!! j).

Lemma scan_spec (s : solver) column (used : list bool) (minimum : list Z) (L : list nat)
    (minimum' : list Z) (previous' : list nat) delta next :
  length minimum = S m -> length (previous s) = S m ->
  (forall j, j <= m -> used !!! j = bool_decide (j ∈ L)) ->
  foldl (scan_body costs s column used) (minimum, previous s, i128_max, O) (seq 1 m)
    = (minimum', previous', delta, next) ->
  length minimum' = S m /\ length previous' = S m /\
  (forall j, 1 <= j <= m -> j ∉ L ->
     minimum' !!! j = relaxed s minimum column j /\
     (previous' !!! j = if (reduced_cost s column j <? minimum !!! j)%Z
                        then column else previous s !!! j) /\
     (delta <= minimum' !!! j)%Z) /\
  (forall j, j ∈ L -> j <= m ->
     minimum' !!! j = minimum !!! j /\ previous' !!! j = previous s !!! j) /\
  (delta = i128_max \/
   (1 <= next <= m /\ next ∉ L /\ minimum' !!! next = delta)).
Proof.
  intros Hlm Hlp Hused.
  set (P := fun k (acc : list Z * list nat * Z * nat) =>
    let '(mi, pr, de, ne) := acc in
    length mi = S m /\ length pr = S m /\ (de <= i128_max)%Z /\
    (forall j, 1 <= j <= m -> j ∉ L ->
       (j < k -> mi !!! j = relaxed s minimum column j /\
          pr !!! j = (if (reduced_cost s column j <? minimum !!! j)%Z
                      then column else previous s !!! j) /\ (de <= mi !!! j)%Z) /\
       (k <= j -> mi !!! j = minimum !!! j /\ pr !!! j = previous s !!! j)) /\
    (forall j, j ∈ L -> j <= m -> mi !!! j = minimum !!! j /\ pr !!! j = previous s !!! j) /\
    (de = i128_max \/ (1 <= ne < k /\ ne ∉ L /\ mi !!! ne = de))).
  assert (P (1 + m) (foldl (scan_body costs s column used)
                           (minimum, previous s, i128_max, O) (seq 1 m))) as HP.
  { apply foldl_seq_inv.
    - cbn. split_and!; auto; [lia|]. intros j Hj HjL. split; [lia|done].
    - intros k [[[mi pr] de] ne] Hk (H1 & H2 & Hde & H3 & H4 & H5).
      unfold scan_body. rewrite Hused by lia. case_bool_decide as HkL.
      + cbn. split_and!; auto.
        * intros j Hj HjL. destruct (H3 j Hj HjL) as [Ha Hb].
          assert (j <> k) by naive_solver. split; intros; [apply Ha|apply Hb]; lia.
        * destruct H5 as [?|(?&?&?)]; [by left|right; split_and!; auto; lia].
      + fold (reduced_cost s column k).
        destruct (H3 k ltac:(lia) HkL) as [_ Hk0]. destruct (Hk0 ltac:(lia)) as [Hmk Hpk].
        clear Hk0. rewrite Hmk.
        set (red := reduced_cost s column k) in *.
        set (mi' := if (red <? minimum !!! k)%Z then <[k:=red]> mi else mi).
        set (pr' := if (red <? minimum !!! k)%Z then <[k:=column]> pr else pr).
        assert ((if (red <? minimum !!! k)%Z
                 then (<[k:=red]> mi, <[k:=column]> pr) else (mi, pr)) = (mi', pr')) as ->.
        { unfold mi', pr'. by case_match. }
        assert (length mi' = S m) as Hl1 by (unfold mi'; case_match; by rewrite ?length_insert).
        assert (length pr' = S m) as Hl2 by (unfold pr'; case_match; by rewrite ?length_insert).
        assert (forall j, j <> k -> mi' !!! j = mi !!! j /\ pr' !!! j = pr !!! j) as Hne.
        { intros j Hj. unfold mi', pr'.
          case_match; rewrite ?list_lookup_total_insert_ne by done; done. }
        assert (mi' !!! k = relaxed s minimum column k) as Hmk'.
        { unfold mi', relaxed. fold red. destruct (Z.ltb_spec red (minimum !!! k)).
          - rewrite list_lookup_total_insert_eq by lia. lia.
          - rewrite Hmk. lia. }
        assert (pr' !!! k = if (red <? minimum !!! k)%Z then column else previous s !!! k) as Hpk'.
        { unfold pr'. destruct (Z.ltb_spec red (minimum !!! k)); [|done].
          by rewrite list_lookup_total_insert_eq by lia. }
        destruct (Z.ltb_spec (mi' !!! k) de) as [Hlt|Hge]; cbn; split_and!; auto; try lia.
        * intros j Hj HjL. destruct (H3 j Hj HjL) as [Ha Hb].
          destruct (decide (j = k)) as [->|Hjk].
          -- split; [|lia]. intros _. split_and!; auto; lia.
          -- destruct (Hne j Hjk) as [-> ->]. split; intros.
             ++ destruct (Ha ltac:(lia)) as (?&?&?). split_and!; auto; lia.
             ++ apply Hb; lia.
        * intros j HjL Hj. assert (j <> k) as Hjk by naive_solver.
          destruct (Hne j Hjk) as [-> ->]. auto.
        * right. split_and!; auto; lia.
        * intros j Hj HjL. destruct (H3 j Hj HjL) as [Ha Hb].
          destruct (decide (j = k)) as [->|Hjk].
          -- split; [|lia]. intros _. split_and!; auto; lia.
          -- destruct (Hne j Hjk) as [-> ->]. split; intros; [apply Ha|apply Hb]; lia.
        * intros j HjL Hj. assert (j <> k) as Hjk by naive_solver.
          destruct (Hne j Hjk) as [-> ->]. auto.
        * destruct H5 as [?|(?&?&?)]; [by left|right].
          assert (ne <> k) as Hnk by lia. destruct (Hne ne Hnk) as [-> _].
          split_and!; auto; lia. }
  intros Heq. rewrite Heq in HP. destruct HP as (H1 & H2 & _ & H3 & H4 & H5).
  split_and!; auto.
  - intros j Hj HjL. apply (H3 j Hj HjL). lia.
  - destruct H5 as [?|(?&?&?)]; [by left|right; split_and!; auto; lia].
Qed.

Lemma shift_spec (p : list nat) (used : list bool) delta (u v minimum : list Z) (L : list nat)
    (u' v' minimum' : list Z) n :
  length u = S n -> length v = S m -> length minimum = S m ->
  (forall j, j <= m -> used !!! j = bool_decide (j ∈ L)) ->
  (forall j, j ∈ L -> j <= m) ->
  (forall j, j ∈ L -> p !!! j <= n) ->
  (forall j1 j2, j1 ∈ L -> j2 ∈ L -> p !!! j1 = p !!! j2 -> j1 = j2) ->
  foldl (shift_body p used delta) (u, v, minimum) (seq 0 (S m)) = (u', v', minimum') ->
  length u' = S n /\ length v' = S m /\ length minimum' = S m /\
  (forall j, j ∈ L -> u' !!! (p !!! j) = i128_add (u !!! (p !!! j)) delta) /\
  (forall i, (forall j, j ∈ L -> p !!! j <> i) -> u' !!! i = u !!! i) /\
  (forall j, j ∈ L -> v' !!! j = i128_sub (v !!! j) delta) /\
  (forall j, j <= m -> j ∉ L -> v' !!! j = v !!! j) /\
  (forall j, j <= m -> j ∉ L -> minimum' !!! j = i128_sub (minimum !!! j) delta).
Proof.
  intros Hlu Hlv Hlm Hused HLm HLn Hinj.
  set (P := fun k (acc : list Z * list Z * list Z) =>
    let '(u', v', mi) := acc in
    length u' = S n /\ length v' = S m /\ length mi = S m /\
    (forall j, j ∈ L -> u' !!! (p !!! j)
       = if j <? k then i128_add (u !!! (p !!! j)) delta else u !!! (p !!! j)) /\
    (forall i, (forall j, j ∈ L -> p !!! j <> i) -> u' !!! i = u !!! i) /\
    (forall j, j ∈ L -> v' !!! j = if j <? k then i128_sub (v !!! j) delta else v !!! j) /\
    (forall j, j ∉ L -> v' !!! j = v !!! j) /\
    (forall j, j <= m -> j ∉ L ->
       mi !!! j = if j <? k then i128_sub (minimum !!! j) delta else minimum !!! j)).
  assert (P (0 + S m) (foldl (shift_body p used delta) (u, v, minimum) (seq 0 (S m)))) as HP.
  { apply foldl_seq_inv; [cbn; split_and!; auto|].
    intros k [[u1 v1] mi] Hk (H1 & H2 & H3 & H4 & H5 & H6 & H7 & H8).
    assert (forall j, j <> k -> (j <? S k) = (j <? k)) as Hb.
    { intros j Hj. destruct (Nat.ltb_spec j (S k)), (Nat.ltb_spec j k); auto; lia. }
    assert ((k <? S k) = true) as Hk1 by (apply Nat.ltb_lt; lia).
    assert ((k <? k) = false) as Hk2 by (apply Nat.ltb_irrefl).
    unfold shift_body. rewrite Hused by lia. case_bool_decide as HkL; cbn -[Nat.ltb].
    - rewrite !length_insert. split_and!; auto.
      + intros j Hj. destruct (decide (j = k)) as [->|Hjk].
        * rewrite list_lookup_total_insert_eq by (rewrite H1; specialize (HLn k HkL); lia).
          rewrite (H4 k HkL), Hk1, Hk2. done.
        * rewrite list_lookup_total_insert_ne by naive_solver. by rewrite Hb, H4.
      + intros i Hi. rewrite list_lookup_total_insert_ne by naive_solver. auto.
      + intros j Hj. destruct (decide (j = k)) as [->|Hjk].
        * rewrite list_lookup_total_insert_eq by lia. by rewrite (H6 k HkL), Hk1, Hk2.
        * rewrite list_lookup_total_insert_ne by done. by rewrite Hb, H6.
      + intros j Hj. rewrite list_lookup_total_insert_ne by naive_solver. auto.
      + intros j Hj HjL. rewrite Hb by naive_solver. auto.
    - rewrite !length_insert. split_and!; auto.
      + intros j Hj. rewrite Hb by naive_solver. auto.
      + intros j Hj. rewrite Hb by naive_solver. auto.
      + intros j Hj HjL. destruct (decide (j = k)) as [->|Hjk].
        * rewrite list_lookup_total_insert_eq by lia. by rewrite (H8 k), Hk1, Hk2.
        * rewrite list_lookup_total_insert_ne by done. by rewrite Hb, H8. }
  intros Heq. rewrite Heq in HP. destruct HP as (H1 & H2 & H3 & H4 & H5 & H6 & H7 & H8).
  assert (forall j, j <= m -> (j <? 0 + S m) = true) as Hlt by (intros; apply Nat.ltb_lt; lia).
  split_and!; auto.
  - intros j Hj. by rewrite H4, Hlt by auto.
  - intros j Hj. by rewrite H6, Hlt by auto.
  - intros j Hj HjL. by rewrite H8, Hlt.
Qed.
End Scans.

(** ** Invariants *)

(** Numbers in range are not wrapped. *)
Lemma i128_id z : - i128_max <= z <= i128_max -> wrap_i 128 z = z.
Proof. intros Hz. apply wrap_i_small; unfold_ints; lia. Qed.

Section Proof.
#[local] Set Default Proof Using "All".
Context (costs : list (list Z)) (n m : nat) (B : Z).
Context (Hn : (0 < n)%nat) (Hnm : (n <= m)%nat).
Context (Hcost : forall i j, (i < n)%nat -> (j < m)%nat -> - B <= cost costs i j <= 0).
Context (Hrows : length costs = n) (Hrect : Forall (fun row => length row = m) costs).
Context (HB : 0 <= B) (Hfit : (Z.of_nat n + 4) * B <= i128_max).

(** Costs of the 1-based rows and columns of the algorithm. *)
Notation c i j := (cost costs (i - 1) (j - 1)).

Definition is_row (r i : nat) : Prop := (1 <= i <= r)%nat.
Definition is_col (j : nat) : Prop := (1 <= j <= m)%nat.

(** After [r] rows: a matching of rows [1..r] that is tight for feasible
    potentials between [-B] and 0. *)
Record Outer (r : nat) (u v : list Z) (p : list nat) : Prop := {
  o_lenu : length u = S n;
  o_lenv : length v = S m;
  o_lenp : length p = S m;
  o_u0 : forall i, (r < i <= n)%nat -> u !!! i = 0;
  o_ub : forall i, is_row r i -> - B <= u !!! i <= 0;
  o_vb : forall j, is_col j -> - B <= v !!! j <= 0;
  o_free : forall j, is_col j -> p !!! j = O -> v !!! j = 0;
  o_range : forall j, is_col j -> (p !!! j <= r)%nat;
  o_inj : forall j1 j2, is_col j1 -> is_col j2 -> p !!! j1 = p !!! j2 -> p !!! j1 <> O -> j1 = j2;
  o_cov : forall i, is_row r i -> exists j, is_col j /\ p !!! j = i;
  o_feas : forall i j, is_row r i -> is_col j -> u !!! i + v !!! j <= c i j;
  o_tight : forall j, is_col j -> p !!! j <> O -> u !!! (p !!! j) + v !!! j = c (p !!! j) j;
  o_v0 : 0 <= v !!! O <= Z.of_nat r * B }.

(** Slack of a column [j] seen from the row of a used column [j']. *)
Definition slack (u v : list Z) (p : list nat) (j' j : nat) : Z :=
  c (p !!! j') j - u !!! (p !!! j') - v !!! j.

(** At the head of the search loop for row [r + 1]: [L] are the used columns,
    latest first, [j0] is [column]. *)
Record Search (r : nat) (V0 : Z) (s : solver) (minimum : list Z) (used : list bool)
    (L : list nat) (j0 : nat) : Prop := {
  s_lenu : length (row_potential s) = S n;
  s_lenv : length (column_potential s) = S m;
  s_lenp : length (column_row s) = S m;
  s_lenw : length (previous s) = S m;
  s_lenm : length minimum = S m;
  s_lenus : length used = S m;
  s_p0 : column_row s !!! O = S r;
  s_u0 : forall i, (S r < i <= n)%nat -> row_potential s !!! i = 0;
  s_ub : forall i, is_row (S r) i -> - B <= row_potential s !!! i <= 0;
  s_vb : forall j, is_col j -> - B <= column_potential s !!! j <= 0;
  s_free : forall j, is_col j -> column_row s !!! j = O -> column_potential s !!! j = 0;
  s_range : forall j, is_col j -> (column_row s !!! j <= r)%nat;
  s_inj : forall j1 j2, is_col j1 -> is_col j2 ->
    column_row s !!! j1 = column_row s !!! j2 -> column_row s !!! j1 <> O -> j1 = j2;
  s_cov : forall i, is_row r i -> exists j, is_col j /\ column_row s !!! j = i;
  s_feas : forall i j, is_row r i -> is_col j ->
    row_potential s !!! i + column_potential s !!! j <= c i j;
  s_feasnew : L <> [] -> forall j, is_col j ->
    row_potential s !!! (S r) + column_potential s !!! j <= c (S r) j;
  s_start : L = [] -> row_potential s !!! (S r) = 0 /\ j0 = O;
  s_tight : forall j, is_col j -> column_row s !!! j <> O ->
    slack (row_potential s) (column_potential s) (column_row s) j j = 0;
  s_v0 : column_potential s !!! O = V0 - row_potential s !!! (S r);
  s_used : forall j, (j <= m)%nat -> used !!! j = bool_decide (j ∈ L);
  s_bound : forall j, j ∈ j0 :: L -> (j <= m)%nat;
  s_nodup : NoDup (j0 :: L);
  s_matched : forall j, j ∈ L -> column_row s !!! j <> O;
  s_zero : O ∈ j0 :: L;
  s_last : forall l1 l2, j0 :: L = l1 ++ O :: l2 -> l2 = [];
  s_chain : forall l1 j l2, j0 :: L = l1 ++ j :: l2 -> j <> O ->
    previous s !!! j ∈ l2 /\
    slack (row_potential s) (column_potential s) (column_row s) (previous s !!! j) j = 0;
  s_lower : forall j j', is_col j -> j ∉ L -> j' ∈ L ->
    minimum !!! j <= slack (row_potential s) (column_potential s) (column_row s) j' j;
  s_attain : forall j, is_col j -> j ∉ L ->
    (L = [] /\ minimum !!! j = i128_max) \/
    (previous s !!! j ∈ L /\
     minimum !!! j = slack (row_potential s) (column_potential s) (column_row s)
                           (previous s !!! j) j) }.

(** Facts about one search state that every part of the loop body needs. *)
Section SearchFacts.
Context {r V0 s minimum used L j0} (HS : Search r V0 s minimum used L j0).
Context (Hr : (S r <= n)%nat).
Notation u := (row_potential s).
Notation v := (column_potential s).
Notation p := (column_row s).

Lemma used_row j : j ∈ L -> is_row (S r) (p !!! j).
Proof.
  intros Hj. pose proof (s_matched _ _ _ _ _ _ _ HS j Hj).
  pose proof (s_bound _ _ _ _ _ _ _ HS j ltac:(by right)).
  unfold is_row. destruct j as [|j].
  - rewrite (s_p0 _ _ _ _ _ _ _ HS). lia.
  - pose proof (s_range _ _ _ _ _ _ _ HS (S j) ltac:(unfold is_col; lia)). lia.
Qed.

(** Distinct columns, column 0 included, carry distinct rows. *)
Lemma rows_injective j1 j2 :
  (j1 <= m)%nat -> (j2 <= m)%nat -> p !!! j1 = p !!! j2 -> p !!! j1 <> O -> j1 = j2.
Proof.
  intros H1 H2 He Hne. destruct j1 as [|j1], j2 as [|j2]; [done| | |].
  - rewrite (s_p0 _ _ _ _ _ _ _ HS) in He.
    pose proof (s_range _ _ _ _ _ _ _ HS (S j2) ltac:(unfold is_col; lia)). lia.
  - rewrite (s_p0 _ _ _ _ _ _ _ HS) in He.
    pose proof (s_range _ _ _ _ _ _ _ HS (S j1) ltac:(unfold is_col; lia)). lia.
  - apply (s_inj _ _ _ _ _ _ _ HS); unfold is_col; auto; lia.
Qed.

(** Fewer than [m] rows are matched, so a column is free. *)
Lemma free_column : exists f, is_col f /\ p !!! f = O /\ f ∉ L.
Proof.
  destruct (decide (Exists (fun j => p !!! j = O) (seq 1 m))) as [He|He].
  - apply Exists_exists in He as (f & Hf & Hp). apply elem_of_seq in Hf.
    exists f. unfold is_col. split_and!; [lia|lia|done|].
    intros HfL. by apply (s_matched _ _ _ _ _ _ _ HS f).
  - exfalso. rewrite <- Forall_Exists_neg in He. rewrite Forall_forall in He.
    assert (forall j, is_col j -> p !!! j <> O) as Hne.
    { intros j Hj. apply He. apply elem_of_seq. unfold is_col in Hj. lia. }
    assert (NoDup ((fun j => p !!! j) <$> seq 1 m)) as Hnd.
    { apply NoDup_fmap_2_strong; [|apply NoDup_seq].
      intros x y Hx%elem_of_seq Hy%elem_of_seq Hxy.
      apply (s_inj _ _ _ _ _ _ _ HS); unfold is_col; auto; try lia.
      apply Hne. unfold is_col. lia. }
    assert (((fun j => p !!! j) <$> seq 1 m) ⊆+ seq 1 r) as Hsub.
    { apply NoDup_submseteq; [done|]. intros x (j & -> & Hj%elem_of_seq)%list_elem_of_fmap.
      apply elem_of_seq. pose proof (Hne j ltac:(unfold is_col; lia)).
      pose proof (s_range _ _ _ _ _ _ _ HS j ltac:(unfold is_col; lia)). lia. }
    apply submseteq_length in Hsub. rewrite length_fmap, !length_seq in Hsub. lia.
Qed.
End SearchFacts.

Lemma cost_range i j : is_row n i -> is_col j -> - B <= c i j <= 0.
Proof. unfold is_row, is_col. intros. apply Hcost; lia. Qed.

Lemma five_B : 5 * B <= i128_max /\ 2 * B < i128_max.
Proof.
  assert (0 < i128_max) by (unfold_ints; lia). assert (5 * B <= i128_max) by nia. lia.
Qed.

(** What scanning from [j0] establishes for the columns outside [j0 :: L]. *)
Record Scanned (s : solver) (L' : list nat) (minimum' : list Z) (previous' : list nat)
    (delta : Z) (next : nat) : Prop := {
  sc_lenm : length minimum' = S m;
  sc_lenw : length previous' = S m;
  sc_next : is_col next /\ next ∉ L';
  sc_delta : delta = minimum' !!! next;
  sc_min : forall j, is_col j -> j ∉ L' -> delta <= minimum' !!! j;
  sc_lower : forall j j', is_col j -> j ∉ L' -> j' ∈ L' ->
    minimum' !!! j <= slack (row_potential s) (column_potential s) (column_row s) j' j;
  sc_attain : forall j, is_col j -> j ∉ L' -> previous' !!! j ∈ L' /\
    minimum' !!! j = slack (row_potential s) (column_potential s) (column_row s)
                           (previous' !!! j) j;
  sc_kept : forall j, j ∈ L' -> (j <= m)%nat -> previous' !!! j = previous s !!! j }.

Section Step.
Context {r V0 s minimum used L j0} (HS : Search r V0 s minimum used L j0).
Context (Hr : (S r <= n)%nat) (HV0 : 0 <= V0 <= Z.of_nat r * B).
Context (Hj0 : column_row s !!! j0 <> O).
Notation u := (row_potential s).
Notation v := (column_potential s).
Notation p := (column_row s).
Notation used' := (<[j0 := true]> used).

Lemma tree_row j : j ∈ j0 :: L -> is_row (S r) (p !!! j).
Proof.
  intros Hj. pose proof (s_bound _ _ _ _ _ _ _ HS j Hj) as Hjm.
  assert (p !!! j <> O) as Hne.
  { apply elem_of_cons in Hj as [->|Hj]; [done|]. by apply (s_matched _ _ _ _ _ _ _ HS). }
  unfold is_row. destruct j as [|j].
  - rewrite (s_p0 _ _ _ _ _ _ _ HS). lia.
  - pose proof (s_range _ _ _ _ _ _ _ HS (S j) ltac:(unfold is_col; lia)). lia.
Qed.

Lemma tree_slack_range j' j : j' ∈ j0 :: L -> is_col j -> - B <= slack u v p j' j <= 2 * B.
Proof.
  intros Hj' Hj. pose proof (tree_row j' Hj') as Hrow.
  pose proof (s_ub _ _ _ _ _ _ _ HS _ Hrow). pose proof (s_vb _ _ _ _ _ _ _ HS _ Hj).
  pose proof (cost_range (p !!! j') j ltac:(unfold is_row in *; lia) Hj).
  unfold slack. lia.
Qed.

Lemma tree_slack_nonneg j' j : L <> [] -> j' ∈ j0 :: L -> is_col j -> 0 <= slack u v p j' j.
Proof.
  intros HL Hj' Hj. pose proof (tree_row j' Hj') as Hrow. unfold slack.
  destruct (decide (p !!! j' = S r)) as [->|Hne].
  - pose proof (s_feasnew _ _ _ _ _ _ _ HS HL j Hj). lia.
  - pose proof (s_feas _ _ _ _ _ _ _ HS (p !!! j') j ltac:(unfold is_row in *; lia) Hj). lia.
Qed.

Lemma reduced_cost_exact j : is_col j -> reduced_cost costs s j0 j = slack u v p j0 j.
Proof.
  intros Hj. assert (j0 ∈ j0 :: L) as Hj0L by left.
  pose proof (tree_row j0 Hj0L) as Hrow. pose proof five_B.
  pose proof (tree_slack_range j0 j Hj0L Hj).
  pose proof (s_ub _ _ _ _ _ _ _ HS _ Hrow).
  pose proof (cost_range (p !!! j0) j ltac:(unfold is_row in *; lia) Hj).
  unfold reduced_cost, i128_sub, slack in *.
  rewrite (i128_id (c (p !!! j0) j - u !!! (p !!! j0))) by lia. apply i128_id. lia.
Qed.

Lemma used_spec j : (j <= m)%nat -> used' !!! j = bool_decide (j ∈ j0 :: L).
Proof.
  intros Hj. destruct (decide (j = j0)) as [->|Hne].
  - rewrite list_lookup_total_insert_eq by (rewrite (s_lenus _ _ _ _ _ _ _ HS); lia).
    symmetry. apply bool_decide_eq_true. left.
  - rewrite list_lookup_total_insert_ne, (s_used _ _ _ _ _ _ _ HS) by done.
    apply bool_decide_ext. rewrite elem_of_cons. naive_solver.
Qed.

(** The scan indexes within bounds. *)
Lemma scan_bounds :
  fold_opt (scan_step costs s j0 (p !!! j0) used') (minimum, previous s, i128_max, O) (seq 1 m)
  = Some (foldl (scan_body costs s j0 used') (minimum, previous s, i128_max, O) (seq 1 m)).
Proof.
  apply (scan_checked costs s j0 used' minimum n m); try done.
  - apply (s_lenu _ _ _ _ _ _ _ HS).
  - apply (s_lenv _ _ _ _ _ _ _ HS).
  - apply (s_lenw _ _ _ _ _ _ _ HS).
  - apply (s_lenm _ _ _ _ _ _ _ HS).
  - by rewrite length_insert, (s_lenus _ _ _ _ _ _ _ HS).
  - pose proof (tree_row j0 ltac:(left)) as Hrow. unfold is_row in Hrow. lia.
Qed.

Lemma scan_establishes minimum' previous' delta next :
  foldl (scan_body costs s j0 used') (minimum, previous s, i128_max, O) (seq 1 m)
    = (minimum', previous', delta, next) ->
  Scanned s (j0 :: L) minimum' previous' delta next.
Proof.
  intros Hscan. pose proof five_B.
  apply (scan_spec costs m s j0 used' minimum (j0 :: L)) in Hscan
    as (Hlm & Hlw & Hout & Hin & Hnext); [|apply (s_lenm _ _ _ _ _ _ _ HS)
      |apply (s_lenw _ _ _ _ _ _ _ HS)|apply used_spec].
  assert (forall j, is_col j -> j ∉ j0 :: L ->
    (forall j', j' ∈ j0 :: L -> minimum' !!! j <= slack u v p j' j) /\
    previous' !!! j ∈ j0 :: L /\ minimum' !!! j = slack u v p (previous' !!! j) j) as Hmain.
  { intros j Hj HjL. destruct (Hout j ltac:(unfold is_col in *; lia) HjL) as (Hmin & Hprev & _).
    unfold relaxed in Hmin. rewrite (reduced_cost_exact j Hj) in Hmin, Hprev.
    pose proof (tree_slack_range j0 j ltac:(left) Hj).
    assert (j ∉ L) as HjL' by set_solver.
    split_and!.
    - intros j' [->|Hj']%elem_of_cons; [lia|].
      pose proof (s_lower _ _ _ _ _ _ _ HS j j' Hj HjL' Hj'). lia.
    - rewrite Hprev. destruct (Z.ltb_spec (slack u v p j0 j) (minimum !!! j)); [left|right].
      destruct (s_attain _ _ _ _ _ _ _ HS j Hj HjL') as [[_ ?]|[? _]]; [lia|done].
    - rewrite Hprev. destruct (Z.ltb_spec (slack u v p j0 j) (minimum !!! j)); [lia|].
      destruct (s_attain _ _ _ _ _ _ _ HS j Hj HjL') as [[_ ?]|[_ ?]]; lia. }
  destruct (free_column HS Hr) as (f & Hf & Hpf & HfL).
  assert (f ∉ j0 :: L) as HfL' by (rewrite not_elem_of_cons; split; [congruence|done]).
  destruct Hnext as [->|(Hnext & HnL & Hdelta)].
  { destruct (Hout f ltac:(unfold is_col in *; lia) HfL') as (_ & _ & Hle).
    destruct (Hmain f Hf HfL') as (Hup & _).
    pose proof (Hup j0 ltac:(left)). pose proof (tree_slack_range j0 f ltac:(left) Hf).
    lia. }
  split; auto.
  - intros j Hj HjL. apply (Hout j ltac:(unfold is_col in *; lia) HjL).
  - intros j j' Hj HjL Hj'. by apply (Hmain j Hj HjL).
  - intros j Hj HjL. by apply (Hmain j Hj HjL).
  - intros j HjL Hj. by apply Hin.
Qed.

(** The potentials after the shift, without wrap-around. *)
Record Shifted (delta : Z) (minimum' u' v' minimum2 : list Z) : Prop := {
  sh_lenu : length u' = S n;
  sh_lenv : length v' = S m;
  sh_lenm : length minimum2 = S m;
  sh_row : forall j, j ∈ j0 :: L -> u' !!! (p !!! j) = u !!! (p !!! j) + delta;
  sh_row_other : forall i, (forall j, j ∈ j0 :: L -> p !!! j <> i) -> u' !!! i = u !!! i;
  sh_col : forall j, j ∈ j0 :: L -> v' !!! j = v !!! j - delta;
  sh_col_other : forall j, (j <= m)%nat -> j ∉ j0 :: L -> v' !!! j = v !!! j;
  sh_min : forall j, is_col j -> j ∉ j0 :: L -> minimum2 !!! j = minimum' !!! j - delta }.

Section AfterScan.
Context {minimum' previous' delta next}
  (Hsc : Scanned s (j0 :: L) minimum' previous' delta next).

Lemma delta_range : - B <= delta <= 2 * B.
Proof.
  destruct (sc_next _ _ _ _ _ _ Hsc) as [Hc HnL].
  destruct (sc_attain _ _ _ _ _ _ Hsc next Hc HnL) as [Hin He].
  pose proof (tree_slack_range _ _ Hin Hc). rewrite (sc_delta _ _ _ _ _ _ Hsc). lia.
Qed.

Lemma delta_nonneg : L <> [] -> 0 <= delta.
Proof.
  intros HL. destruct (sc_next _ _ _ _ _ _ Hsc) as [Hc HnL].
  destruct (sc_attain _ _ _ _ _ _ Hsc next Hc HnL) as [Hin He].
  pose proof (tree_slack_nonneg _ _ HL Hin Hc). rewrite (sc_delta _ _ _ _ _ _ Hsc). lia.
Qed.

Lemma tree_zero : O ∈ j0 :: L.
Proof. apply (s_zero _ _ _ _ _ _ _ HS). Qed.

(** A real column in the tree means the search has already shifted once. *)
Lemma tree_col j : is_col j -> j ∈ j0 :: L -> L <> [].
Proof.
  intros Hj Hin HL. destruct (s_start _ _ _ _ _ _ _ HS HL) as [_ Hz]. rewrite HL in Hin.
  apply list_elem_of_singleton in Hin. unfold is_col in Hj. lia.
Qed.

(** The shift indexes within bounds. *)
Lemma shift_bounds :
  fold_opt (shift_step p used' delta) (u, v, minimum') (seq 0 (S m))
  = Some (foldl (shift_body p used' delta) (u, v, minimum') (seq 0 (S m))).
Proof.
  apply (shift_checked p used' delta u v minimum' n m).
  - apply (s_lenp _ _ _ _ _ _ _ HS).
  - by rewrite length_insert, (s_lenus _ _ _ _ _ _ _ HS).
  - apply (s_lenu _ _ _ _ _ _ _ HS).
  - apply (s_lenv _ _ _ _ _ _ _ HS).
  - apply (sc_lenm _ _ _ _ _ _ Hsc).
  - intros j Hj Hu. rewrite used_spec in Hu by done. apply bool_decide_eq_true in Hu.
    pose proof (tree_row j Hu) as Hrow. unfold is_row in Hrow. lia.
Qed.

Lemma shift_establishes u' v' minimum2 :
  foldl (shift_body p used' delta) (u, v, minimum') (seq 0 (S m)) = (u', v', minimum2) ->
  Shifted delta minimum' u' v' minimum2.
Proof.
  intros Hshift. pose proof five_B. pose proof delta_range.
  apply (shift_spec m p used' delta u v minimum' (j0 :: L) u' v' minimum2 n) in Hshift
    as (H1 & H2 & H3 & H4 & H5 & H6 & H7 & H8).
  - split; auto.
    + intros j Hj. rewrite H4 by done. unfold i128_add.
      pose proof (s_ub _ _ _ _ _ _ _ HS _ (tree_row j Hj)). apply i128_id. lia.
    + intros j Hj. rewrite H6 by done. unfold i128_sub. apply i128_id.
      destruct (decide (j = O)) as [->|Hne].
      * rewrite (s_v0 _ _ _ _ _ _ _ HS).
        pose proof (s_ub _ _ _ _ _ _ _ HS (S r) ltac:(unfold is_row; lia)).
        assert (Z.of_nat r * B <= (Z.of_nat n - 1) * B) by nia.
        assert ((Z.of_nat n + 4) * B = (Z.of_nat n - 1) * B + 5 * B) by lia.
        pose proof (s_ub _ _ _ _ _ _ _ HS (S r) ltac:(unfold is_row; lia)). lia.
      * pose proof (s_bound _ _ _ _ _ _ _ HS j Hj).
        pose proof (s_vb _ _ _ _ _ _ _ HS j ltac:(unfold is_col; lia)). lia.
    + intros j Hj HjL. rewrite H8 by (unfold is_col in *; auto; lia).
      unfold i128_sub. apply i128_id.
      destruct (sc_attain _ _ _ _ _ _ Hsc j Hj HjL) as [Hin ->].
      pose proof (tree_slack_range _ _ Hin Hj). lia.
  - apply (s_lenu _ _ _ _ _ _ _ HS).
  - apply (s_lenv _ _ _ _ _ _ _ HS).
  - apply (sc_lenm _ _ _ _ _ _ Hsc).
  - apply used_spec.
  - apply (s_bound _ _ _ _ _ _ _ HS).
  - intros j Hj. pose proof (tree_row j Hj). unfold is_row in *. lia.
  - intros j1 j2 Hj1 Hj2 He. apply (rows_injective HS Hr); [apply (s_bound _ _ _ _ _ _ _ HS); auto
      ..|done|]. pose proof (tree_row j1 Hj1). unfold is_row in *. lia.
Qed.

Section AfterShift.
Context {u' v' minimum2} (Hsh : Shifted delta minimum' u' v' minimum2).

Lemma slack_in_in j' j :
  j' ∈ j0 :: L -> j ∈ j0 :: L -> slack u' v' p j' j = slack u v p j' j.
Proof.
  intros Hj' Hj. unfold slack. rewrite (sh_row _ _ _ _ _ Hsh j' Hj').
  rewrite (sh_col _ _ _ _ _ Hsh j Hj). lia.
Qed.

Lemma slack_in_out j' j :
  j' ∈ j0 :: L -> is_col j -> j ∉ j0 :: L ->
  slack u' v' p j' j = slack u v p j' j - delta.
Proof.
  intros Hj' Hj HjL. unfold slack. rewrite (sh_row _ _ _ _ _ Hsh j' Hj').
  rewrite (sh_col_other _ _ _ _ _ Hsh j) by (unfold is_col in *; auto; lia). lia.
Qed.

(** Feasibility for every row up to the new one. *)
Lemma shifted_feasible i j : is_row (S r) i -> is_col j -> u' !!! i + v' !!! j <= c i j.
Proof.
  intros Hi Hj.
  destruct (decide (Exists (fun j' => p !!! j' = i) (j0 :: L))) as [He|He].
  - apply Exists_exists in He as (j' & Hj' & <-).
    assert (0 <= slack u' v' p j' j) as Hge; [|unfold slack in Hge; lia].
    destruct (decide (j ∈ j0 :: L)) as [HjL|HjL].
    + rewrite slack_in_in by done. apply tree_slack_nonneg; auto. by eapply tree_col.
    + rewrite slack_in_out by done.
      pose proof (sc_lower _ _ _ _ _ _ Hsc j j' Hj HjL Hj').
      pose proof (sc_min _ _ _ _ _ _ Hsc j Hj HjL). lia.
  - rewrite <- Forall_Exists_neg in He. rewrite Forall_forall in He.
    rewrite (sh_row_other _ _ _ _ _ Hsh i) by auto.
    assert (i <> S r) as Hne.
    { intros ->. apply (He O tree_zero). apply (s_p0 _ _ _ _ _ _ _ HS). }
    pose proof (s_feas _ _ _ _ _ _ _ HS i j ltac:(unfold is_row in *; lia) Hj).
    destruct (decide (j ∈ j0 :: L)) as [HjL|HjL].
    + rewrite (sh_col _ _ _ _ _ Hsh j HjL).
      pose proof (delta_nonneg (tree_col j Hj HjL)). lia.
    + rewrite (sh_col_other _ _ _ _ _ Hsh j) by (unfold is_col in *; auto; lia). lia.
Qed.

Lemma shifted_u_range i : is_row (S r) i -> - B <= u' !!! i <= 0.
Proof.
  intros Hi. pose proof (s_ub _ _ _ _ _ _ _ HS i Hi). split.
  - destruct (decide (Exists (fun j' => p !!! j' = i) (j0 :: L))) as [He|He].
    + apply Exists_exists in He as (j' & Hj' & <-).
      rewrite (sh_row _ _ _ _ _ Hsh j' Hj'). pose proof delta_range.
      destruct (decide (L = [])) as [HL|HL]; [|pose proof (delta_nonneg HL); lia].
      destruct (s_start _ _ _ _ _ _ _ HS HL) as [Hu Hz].
      rewrite HL in Hj'. apply list_elem_of_singleton in Hj' as ->. rewrite Hz.
      rewrite (s_p0 _ _ _ _ _ _ _ HS). lia.
    + rewrite <- Forall_Exists_neg in He. rewrite Forall_forall in He.
      rewrite (sh_row_other _ _ _ _ _ Hsh i) by auto. lia.
  - destruct (free_column HS Hr) as (f & Hf & Hpf & HfL).
    assert (f ∉ j0 :: L) as HfL' by (rewrite not_elem_of_cons; split; [congruence|done]).
    pose proof (shifted_feasible i f Hi Hf) as Hfe.
    rewrite (sh_col_other _ _ _ _ _ Hsh f) in Hfe by (unfold is_col in *; auto; lia).
    rewrite (s_free _ _ _ _ _ _ _ HS f Hf Hpf) in Hfe.
    pose proof (cost_range i f ltac:(unfold is_row in *; lia) Hf). lia.
Qed.

Lemma shifted_tight j : is_col j -> p !!! j <> O -> slack u' v' p j j = 0.
Proof.
  intros Hj Hp. pose proof (s_tight _ _ _ _ _ _ _ HS j Hj Hp) as Ht.
  destruct (decide (j ∈ j0 :: L)) as [HjL|HjL]; [by rewrite slack_in_in|].
  unfold slack. rewrite (sh_col_other _ _ _ _ _ Hsh j) by (unfold is_col in *; auto; lia).
  rewrite (sh_row_other _ _ _ _ _ Hsh (p !!! j)); [apply Ht|].
  intros j' Hj' He. pose proof (tree_row j' Hj') as Hrow.
  apply HjL. replace j with j'; [done|]. apply (rows_injective HS Hr); auto.
  - apply (s_bound _ _ _ _ _ _ _ HS); auto.
  - unfold is_col in Hj. lia.
  - unfold is_row in Hrow. lia.
Qed.

Lemma shifted_v_range j : is_col j -> - B <= v' !!! j <= 0.
Proof.
  intros Hj. pose proof (s_vb _ _ _ _ _ _ _ HS j Hj).
  destruct (decide (j ∈ j0 :: L)) as [HjL|HjL].
  - pose proof (delta_nonneg (tree_col j Hj HjL)). pose proof (tree_row j HjL) as Hrow.
    pose proof (shifted_tight j Hj ltac:(unfold is_row in *; lia)) as Ht.
    pose proof (shifted_u_range _ Hrow).
    pose proof (cost_range (p !!! j) j ltac:(unfold is_row in *; lia) Hj).
    unfold slack in Ht. rewrite (sh_col _ _ _ _ _ Hsh j HjL) in *. lia.
  - rewrite (sh_col_other _ _ _ _ _ Hsh j) by (unfold is_col in *; auto; lia). lia.
Qed.

(** One iteration of the search loop keeps the invariant and adds a column. *)
Lemma search_step :
  Search r V0 (mkSolver u' v' p previous') minimum2 used' (j0 :: L) next.
Proof.
  destruct (sc_next _ _ _ _ _ _ Hsc) as [Hc HnL].
  assert (forall l1 j l2, next :: j0 :: L = l1 ++ j :: l2 -> j <> O ->
    previous' !!! j ∈ l2 /\ slack u' v' p (previous' !!! j) j = 0) as Hchain.
  { intros [|x l1] j l2 He Hj; injection He as He1 H1.
    - rewrite <- He1, <- H1.
      destruct (sc_attain _ _ _ _ _ _ Hsc next Hc HnL) as [Hin He]. split; [done|].
      rewrite slack_in_out by done. rewrite <- He, (sc_delta _ _ _ _ _ _ Hsc). lia.
    - assert (j ∈ j0 :: L) as HjL by (rewrite H1; apply elem_of_app; right; left).
      pose proof (s_bound _ _ _ _ _ _ _ HS j HjL).
      rewrite (sc_kept _ _ _ _ _ _ Hsc j HjL) by lia.
      destruct (s_chain _ _ _ _ _ _ _ HS l1 j l2 H1 Hj) as [Hin Hz].
      split; [done|]. rewrite slack_in_in; [done| |done].
      rewrite H1. apply elem_of_app. right. by right. }
  split; cbn; auto using shifted_u_range, shifted_v_range, shifted_feasible,
    shifted_tight, used_spec.
  - apply (sh_lenu _ _ _ _ _ Hsh).
  - apply (sh_lenv _ _ _ _ _ Hsh).
  - apply (s_lenp _ _ _ _ _ _ _ HS).
  - apply (sc_lenw _ _ _ _ _ _ Hsc).
  - apply (sh_lenm _ _ _ _ _ Hsh).
  - by rewrite length_insert, (s_lenus _ _ _ _ _ _ _ HS).
  - apply (s_p0 _ _ _ _ _ _ _ HS).
  - intros i Hi. rewrite (sh_row_other _ _ _ _ _ Hsh i).
    + apply (s_u0 _ _ _ _ _ _ _ HS). lia.
    + intros j Hj He. pose proof (tree_row j Hj). unfold is_row in *. lia.
  - intros j Hj Hp. rewrite (sh_col_other _ _ _ _ _ Hsh j).
    + by apply (s_free _ _ _ _ _ _ _ HS).
    + unfold is_col in Hj. lia.
    + intros HjL. pose proof (tree_row j HjL). unfold is_row in *. lia.
  - apply (s_range _ _ _ _ _ _ _ HS).
  - apply (s_inj _ _ _ _ _ _ _ HS).
  - apply (s_cov _ _ _ _ _ _ _ HS).
  - intros i j Hi. apply shifted_feasible. unfold is_row in *. lia.
  - intros _ j. apply shifted_feasible. unfold is_row. lia.
  - done.
  - rewrite (sh_col _ _ _ _ _ Hsh O tree_zero).
    rewrite <- (s_p0 _ _ _ _ _ _ _ HS), (sh_row _ _ _ _ _ Hsh O tree_zero).
    rewrite (s_v0 _ _ _ _ _ _ _ HS), (s_p0 _ _ _ _ _ _ _ HS). lia.
  - intros j [->|Hj]%elem_of_cons; [unfold is_col in Hc; lia|].
    by apply (s_bound _ _ _ _ _ _ _ HS).
  - constructor; [done|]. apply (s_nodup _ _ _ _ _ _ _ HS).
  - intros j Hj. pose proof (tree_row j Hj). unfold is_row in *. lia.
  - right. apply tree_zero.
  - intros [|x l1] l2 He; injection He as He1 H1; [unfold is_col in Hc; lia|].
    by eapply (s_last _ _ _ _ _ _ _ HS).
  - intros j j' Hj HjL Hj'. rewrite slack_in_out by done.
    rewrite (sh_min _ _ _ _ _ Hsh j Hj HjL).
    pose proof (sc_lower _ _ _ _ _ _ Hsc j j' Hj HjL Hj'). lia.
  - intros j Hj HjL. right. destruct (sc_attain _ _ _ _ _ _ Hsc j Hj HjL) as [Hin He].
    split; [done|]. rewrite slack_in_out by done.
    rewrite (sh_min _ _ _ _ _ Hsh j Hj HjL). lia.
Qed.
End AfterShift.
End AfterScan.
End Step.

(** The search loop ends at a free column before its fuel does. *)
Lemma search_run r V0 (Hr : (S r <= n)%nat) (HV0 : 0 <= V0 <= Z.of_nat r * B) fuel :
  forall s minimum used L j0,
    Search r V0 s minimum used L j0 -> column_row s !!! j0 <> O ->
    (length (j0 :: L) + fuel = m + 2)%nat ->
    exists s' minimum' used' L' j',
      search costs m fuel s minimum used j0 = Some (s', j') /\
      Search r V0 s' minimum' used' L' j' /\ column_row s' !!! j' = O /\ L' <> [].
Proof.
  induction fuel as [|fuel IH]; intros s minimum used L j0 HS Hj0 Hlen.
  - exfalso. assert ((j0 :: L) ⊆+ seq 0 (S m)) as Hsub.
    { apply NoDup_submseteq; [apply (s_nodup _ _ _ _ _ _ _ HS)|].
      intros x Hx%(s_bound _ _ _ _ _ _ _ HS). apply elem_of_seq. lia. }
    apply submseteq_length in Hsub. rewrite length_seq in Hsub. lia.
  - cbn [search]. pose proof (s_bound _ _ _ _ _ _ _ HS j0 ltac:(left)) as Hj0m.
    rewrite put_lt by (rewrite (s_lenus _ _ _ _ _ _ _ HS); lia). cbn [mbind option_bind].
    rewrite (list_lookup_lookup_total_lt (column_row s) j0)
      by (rewrite (s_lenp _ _ _ _ _ _ _ HS); lia). cbn [mbind option_bind].
    rewrite (scan_bounds HS Hr HV0 Hj0). cbn [mbind option_bind].
    destruct (foldl (scan_body _ _ _ _) _ _) as [[[minimum' previous'] delta] next] eqn:Hscan.
    pose proof (scan_establishes HS Hr HV0 Hj0 _ _ _ _ Hscan) as Hsc.
    rewrite (shift_bounds HS Hr HV0 Hj0 Hsc). cbn [mbind option_bind].
    destruct (foldl (shift_body _ _ _) _ _) as [[u' v'] minimum2] eqn:Hshift.
    pose proof (shift_establishes HS Hr HV0 Hj0 Hsc _ _ _ Hshift) as Hsh.
    pose proof (search_step HS Hr HV0 Hj0 Hsc Hsh) as HS'.
    destruct (sc_next _ _ _ _ _ _ Hsc) as [Hnext _]. cbn [column_row].
    rewrite (list_lookup_lookup_total_lt (column_row s) next)
      by (rewrite (s_lenp _ _ _ _ _ _ _ HS); unfold is_col in Hnext; lia).
    cbn [mbind option_bind].
    destruct (Nat.eqb_spec (column_row s !!! next) 0) as [He|Hne]; cbn [column_row].
    + eexists _, _, _, _, _. split; [done|]. split; [exact HS'|]. done.
    + destruct (IH _ _ _ _ _ HS' Hne) as (s' & mi & us & L' & j' & Hrun & H1 & H2 & H3);
        [cbn in *; lia|].
      by exists s', mi, us, L', j'.
Qed.

(** While the augmenting loop runs, [q] is a tight matching of rows [1..r + 1]
    with a hole at column [h]; the columns of [l2], below [h] in the tree, are
    untouched. *)
Record Hole (r : nat) (s : solver) (q : list nat) (h : nat) (l2 : list nat) : Prop := {
  h_len : length q = S m;
  h_low : forall j, j ∈ l2 -> q !!! j = column_row s !!! j;
  h_zero : h <> O -> q !!! O = S r;
  h_range : forall j, (j <= m)%nat -> (q !!! j <= S r)%nat;
  h_inj : forall j1 j2, (j1 <= m)%nat -> (j2 <= m)%nat -> j1 <> h -> j2 <> h ->
    q !!! j1 = q !!! j2 -> q !!! j1 <> O -> j1 = j2;
  h_cov : forall i, is_row (S r) i -> exists j, (j <= m)%nat /\ j <> h /\ q !!! j = i;
  h_free : forall j, is_col j -> j <> h -> q !!! j = O -> column_potential s !!! j = 0;
  h_tight : forall j, is_col j -> j <> h -> q !!! j <> O ->
    slack (row_potential s) (column_potential s) q j j = 0 }.

Section Augment.
Context {r V0 s minimum used L j0} (HS : Search r V0 s minimum used L j0).
Context (Hr : (S r <= n)%nat) (Hend : column_row s !!! j0 = O) (HL : L <> []).

Lemma initial_hole : Hole r s (column_row s) j0 L.
Proof.
  assert (j0 <> O) as Hj0.
  { intros ->. rewrite (s_p0 _ _ _ _ _ _ _ HS) in Hend. done. }
  split; auto.
  - apply (s_lenp _ _ _ _ _ _ _ HS).
  - intros _. apply (s_p0 _ _ _ _ _ _ _ HS).
  - intros [|j] Hj; [by rewrite (s_p0 _ _ _ _ _ _ _ HS)|].
    pose proof (s_range _ _ _ _ _ _ _ HS (S j) ltac:(unfold is_col; lia)). lia.
  - intros j1 j2 H1 H2 _ _. by apply (rows_injective HS Hr).
  - intros i Hi. destruct (decide (i = S r)) as [->|Hne].
    + exists O. split_and!; [lia|done|]. apply (s_p0 _ _ _ _ _ _ _ HS).
    + destruct (s_cov _ _ _ _ _ _ _ HS i ltac:(unfold is_row in *; lia)) as (j & Hj & Hp).
      exists j. unfold is_col in Hj. split_and!; [lia| |done].
      intros ->. unfold is_row in Hi. lia.
  - intros j Hj _. by apply (s_free _ _ _ _ _ _ _ HS).
  - intros j Hj _. by apply (s_tight _ _ _ _ _ _ _ HS).
Qed.

(** Moving the hole one step down the tree. *)
Lemma move_hole q h l1 l2 :
  j0 :: L = l1 ++ h :: l2 -> h <> O -> Hole r s q h l2 ->
  forall l2a l2b, l2 = l2a ++ previous s !!! h :: l2b ->
  Hole r s (<[h := q !!! (previous s !!! h)]> q) (previous s !!! h) l2b.
Proof.
  intros Hsplit Hh HH l2a l2b Hl2. set (x := previous s !!! h) in *.
  destruct (s_chain _ _ _ _ _ _ _ HS l1 h l2 Hsplit Hh) as [Hx Hslack]. fold x in Hx, Hslack.
  assert (h ∈ j0 :: L) as HhL by (rewrite Hsplit; apply elem_of_app; right; left).
  pose proof (s_bound _ _ _ _ _ _ _ HS h HhL) as Hhm.
  assert (x ∈ L) as HxL.
  { destruct l1 as [|y l1]; injection Hsplit as H1 H2; rewrite H2; [done|].
    apply elem_of_app. right. by right. }
  pose proof (s_bound _ _ _ _ _ _ _ HS x ltac:(by right)) as Hxm.
  pose proof (s_matched _ _ _ _ _ _ _ HS x HxL) as Hpx.
  pose proof (h_low _ _ _ _ _ HH x Hx) as Hqx.
  assert (h ∉ l2) as Hhl2.
  { pose proof (s_nodup _ _ _ _ _ _ _ HS) as Hnd. rewrite Hsplit in Hnd.
    apply NoDup_app in Hnd as (_ & _ & Hnd). by apply NoDup_cons in Hnd as [? _]. }
  assert (x <> h) as Hxh by (intros He; apply Hhl2; by rewrite <- He).
  assert (forall j, j <> h -> <[h := q !!! x]> q !!! j = q !!! j) as Hother
    by (intros; by rewrite list_lookup_total_insert_ne by congruence).
  assert (<[h := q !!! x]> q !!! h = q !!! x) as Hhere.
  { apply list_lookup_total_insert_eq. rewrite (h_len _ _ _ _ _ HH). lia. }
  split.
  - rewrite length_insert. apply HH.
  - intros j Hj. rewrite Hother.
    + apply (h_low _ _ _ _ _ HH). rewrite Hl2. apply elem_of_app. right. by right.
    + intros ->. apply Hhl2. rewrite Hl2. apply elem_of_app. right. by right.
  - intros Hx0. rewrite Hother by congruence. by apply (h_zero _ _ _ _ _ HH).
  - intros j Hj. destruct (decide (j = h)) as [->|Hjh].
    + rewrite Hhere. by apply (h_range _ _ _ _ _ HH).
    + rewrite Hother by done. by apply (h_range _ _ _ _ _ HH).
  - intros j1 j2 H1 H2 Hne1 Hne2.
    destruct (decide (j1 = h)) as [->|Hj1], (decide (j2 = h)) as [->|Hj2]; [done| | |].
    + rewrite Hhere, Hother by done. intros He Hn0. exfalso. apply Hne2. symmetry.
      by apply (h_inj _ _ _ _ _ HH).
    + rewrite Hhere, Hother by done. intros He Hn0. exfalso. apply Hne1.
      by apply (h_inj _ _ _ _ _ HH).
    + rewrite !Hother by done. by apply (h_inj _ _ _ _ _ HH).
  - intros i Hi. destruct (h_cov _ _ _ _ _ HH i Hi) as (j & Hj & Hjh & Hq).
    destruct (decide (j = x)) as [->|Hjx].
    + exists h. by rewrite Hhere.
    + exists j. by rewrite Hother.
  - intros j Hj Hjx. destruct (decide (j = h)) as [->|Hjh].
    + rewrite Hhere, Hqx. done.
    + rewrite Hother by done. by apply (h_free _ _ _ _ _ HH).
  - intros j Hj Hjx. destruct (decide (j = h)) as [->|Hjh].
    + intros _. unfold slack in *. rewrite Hhere, Hqx. apply Hslack.
    + unfold slack. rewrite Hother by done. by apply (h_tight _ _ _ _ _ HH).
Qed.

Lemma augment_run fuel : forall q h l1 l2,
  j0 :: L = l1 ++ h :: l2 -> h <> O -> Hole r s q h l2 -> (length l2 <= fuel)%nat ->
  exists q', augment fuel (previous s) q h = Some q' /\ Hole r s q' O [].
Proof.
  induction fuel as [|fuel IH]; intros q h l1 l2 Hsplit Hh HH Hlen.
  - destruct (s_chain _ _ _ _ _ _ _ HS l1 h l2 Hsplit Hh) as [Hx _].
    destruct l2; [by apply not_elem_of_nil in Hx|cbn in Hlen; lia].
  - destruct (s_chain _ _ _ _ _ _ _ HS l1 h l2 Hsplit Hh) as [Hx _].
    apply list_elem_of_split in Hx as (l2a & l2b & Hl2).
    pose proof (move_hole q h l1 l2 Hsplit Hh HH l2a l2b Hl2) as HH'.
    assert (j0 :: L = (l1 ++ h :: l2a) ++ previous s !!! h :: l2b) as Hsplit'.
    { rewrite Hsplit, Hl2, <- app_assoc. done. }
    assert (h ∈ j0 :: L) as HhL by (rewrite Hsplit; apply elem_of_app; right; left).
    pose proof (s_bound _ _ _ _ _ _ _ HS h HhL) as Hhm.
    assert (previous s !!! h ∈ j0 :: L) as HxL by (rewrite Hsplit'; apply elem_of_app; right; left).
    pose proof (s_bound _ _ _ _ _ _ _ HS _ HxL) as Hxm. pose proof (h_len _ _ _ _ _ HH) as Hq.
    cbn [augment].
    rewrite (list_lookup_lookup_total_lt (previous s)) by (rewrite (s_lenw _ _ _ _ _ _ _ HS); lia).
    cbn [mbind option_bind]. rewrite (list_lookup_lookup_total_lt q) by lia.
    cbn [mbind option_bind]. rewrite put_lt by lia. cbn [mbind option_bind].
    destruct (Nat.eqb_spec (previous s !!! h) 0) as [He|Hne].
    + eexists. split; [by rewrite He|]. rewrite He in *.
      by rewrite (s_last _ _ _ _ _ _ _ HS _ _ Hsplit') in HH'.
    + apply (IH _ _ _ _ Hsplit' Hne HH'). rewrite Hl2, length_app in Hlen. cbn in Hlen. lia.
Qed.

Lemma augmented_outer (HV0 : 0 <= V0 <= Z.of_nat r * B) q :
  Hole r s q O [] -> Outer (S r) (row_potential s) (column_potential s) q.
Proof.
  intros HH. split.
  - apply (s_lenu _ _ _ _ _ _ _ HS).
  - apply (s_lenv _ _ _ _ _ _ _ HS).
  - apply (h_len _ _ _ _ _ HH).
  - apply (s_u0 _ _ _ _ _ _ _ HS).
  - apply (s_ub _ _ _ _ _ _ _ HS).
  - apply (s_vb _ _ _ _ _ _ _ HS).
  - intros j Hj. apply (h_free _ _ _ _ _ HH); [done|]. unfold is_col in Hj. lia.
  - intros j Hj. apply (h_range _ _ _ _ _ HH). unfold is_col in Hj. lia.
  - intros j1 j2 H1 H2. unfold is_col in *. apply (h_inj _ _ _ _ _ HH); lia.
  - intros i Hi. destruct (h_cov _ _ _ _ _ HH i Hi) as (j & Hj & Hne & Hq).
    exists j. unfold is_col. split; [lia|done].
  - intros i j Hi Hj. destruct (decide (i = S r)) as [->|Hne].
    + by apply (s_feasnew _ _ _ _ _ _ _ HS HL).
    + apply (s_feas _ _ _ _ _ _ _ HS); [|done]. unfold is_row in *. lia.
  - intros j Hj Hq. pose proof (h_tight _ _ _ _ _ HH j Hj ltac:(unfold is_col in Hj; lia) Hq).
    unfold slack in *. lia.
  - rewrite (s_v0 _ _ _ _ _ _ _ HS).
    pose proof (s_ub _ _ _ _ _ _ _ HS (S r) ltac:(unfold is_row; lia)). lia.
Qed.
End Augment.

Lemma lookup_total_replicate_lt {A} `{Inhabited A} (x : A) k i :
  (i < k)%nat -> replicate k x !!! i = x.
Proof. intros Hi. apply list_lookup_total_correct. by apply lookup_replicate_2. Qed.

Lemma start_search r u v p w :
  Outer r u v p -> (S r <= n)%nat -> length w = S m ->
  Search r (v !!! O) (mkSolver u v (<[O := S r]> p) w)
         (vec_of i128_max (S m)) (vec_of false (S m)) [] O.
Proof.
  intros HO Hr Hw.
  assert (forall j, is_col j -> <[O := S r]> p !!! j = p !!! j) as Hp.
  { intros j Hj. apply list_lookup_total_insert_ne. unfold is_col in Hj. lia. }
  assert (<[O := S r]> p !!! O = S r) as Hp0.
  { apply list_lookup_total_insert_eq. rewrite (o_lenp _ _ _ _ HO). lia. }
  assert (forall i, is_row (S r) i -> i <> S r -> is_row r i) as Hrow
    by (unfold is_row; intros; lia).
  split; cbn [row_potential column_potential column_row previous].
  - apply HO.
  - apply (o_lenv _ _ _ _ HO).
  - by rewrite length_insert, (o_lenp _ _ _ _ HO).
  - done.
  - apply length_replicate.
  - apply length_replicate.
  - done.
  - intros i Hi. apply (o_u0 _ _ _ _ HO). lia.
  - intros i Hi. destruct (decide (i = S r)) as [->|Hne].
    + rewrite (o_u0 _ _ _ _ HO) by lia. lia.
    + apply (o_ub _ _ _ _ HO). auto.
  - apply (o_vb _ _ _ _ HO).
  - intros j Hj. rewrite Hp by done. by apply (o_free _ _ _ _ HO).
  - intros j Hj. rewrite Hp by done. by apply (o_range _ _ _ _ HO).
  - intros j1 j2 H1 H2. rewrite !Hp by done. by apply (o_inj _ _ _ _ HO).
  - intros i Hi. destruct (o_cov _ _ _ _ HO i Hi) as (j & Hj & He). exists j. by rewrite Hp.
  - apply (o_feas _ _ _ _ HO).
  - done.
  - intros _. split; [|done]. apply (o_u0 _ _ _ _ HO). lia.
  - intros j Hj. unfold slack. rewrite Hp by done. intros Hne.
    pose proof (o_tight _ _ _ _ HO j Hj Hne). lia.
  - rewrite (o_u0 _ _ _ _ HO) by lia. lia.
  - intros j Hj. unfold vec_of. rewrite lookup_total_replicate_lt by lia.
    symmetry. apply bool_decide_eq_false. apply not_elem_of_nil.
  - intros j ->%list_elem_of_singleton. lia.
  - apply NoDup_singleton.
  - intros j Hj. by apply not_elem_of_nil in Hj.
  - left.
  - intros [|x l1] l2 He; injection He; [done|]. intros Hnil _.
    by destruct l1.
  - intros [|x l1] j l2 He; injection He; [intros; congruence|]. intros Hnil _.
    by destruct l1.
  - intros j j' _ _ Hj'. by apply not_elem_of_nil in Hj'.
  - intros j Hj _. left. split; [done|]. unfold vec_of, is_col in *.
    apply lookup_total_replicate_lt. lia.
Qed.

Lemma insert_row_eq cs columns u v p w row s' j q :
  (0 < length p)%nat ->
  search cs columns (S columns) (mkSolver u v (<[O := row]> p) w)
    (vec_of i128_max (S columns)) (vec_of false (S columns)) O = Some (s', j) ->
  augment (S columns) (previous s') (column_row s') j = Some q ->
  insert_row cs columns (mkSolver u v p w) row
    = Some (mkSolver (row_potential s') (column_potential s') q (previous s')).
Proof.
  intros H0 H1 H2. unfold insert_row. cbn [row_potential column_potential column_row previous].
  rewrite put_lt by done. cbn [mbind option_bind]. rewrite H1. cbn [mbind option_bind]. by rewrite H2.
Qed.

Lemma insert_row_outer r u v p w :
  Outer r u v p -> (S r <= n)%nat -> length w = S m ->
  exists u' v' p' w', insert_row costs m (mkSolver u v p w) (S r)
                      = Some (mkSolver u' v' p' w') /\
    Outer (S r) u' v' p' /\ length w' = S m.
Proof.
  intros HO Hr Hw. pose proof (o_v0 _ _ _ _ HO) as HV0.
  pose proof (start_search r u v p w HO Hr Hw) as HS.
  destruct (search_run r (v !!! O) Hr HV0 (S m) _ _ _ _ _ HS) as (s & mi & us & L & j0 & Hrun & HS' & Hend & HL).
  { cbn. rewrite list_lookup_total_insert_eq by (rewrite (o_lenp _ _ _ _ HO); lia). done. }
  { cbn. lia. }
  assert (j0 <> O) as Hj0.
  { intros ->. rewrite (s_p0 _ _ _ _ _ _ _ HS') in Hend. done. }
  assert (length L <= S m)%nat as HlenL.
  { assert ((j0 :: L) ⊆+ seq 0 (S m)) as Hsub.
    { apply NoDup_submseteq; [apply (s_nodup _ _ _ _ _ _ _ HS')|].
      intros x Hx%(s_bound _ _ _ _ _ _ _ HS'). apply elem_of_seq. lia. }
    apply submseteq_length in Hsub. rewrite length_seq in Hsub. cbn in Hsub. lia. }
  destruct (augment_run HS' Hr Hend HL (S m) (column_row s) j0 [] L eq_refl Hj0
              (initial_hole HS' Hr Hend HL) HlenL) as (q & Haug & HH).
  exists (row_potential s), (column_potential s), q, (previous s). split_and!.
  - eapply insert_row_eq; [rewrite (o_lenp _ _ _ _ HO); lia|exact Hrun|exact Haug].
  - by apply (augmented_outer HS' Hr Hend HL HV0).
  - apply (s_lenw _ _ _ _ _ _ _ HS').
Qed.

Lemma outer_start : Outer 0 (vec_of 0 (S n)) (vec_of 0 (S m)) (vec_of O (S m)).
Proof.
  assert (forall (j : nat), is_col j -> vec_of O (S m) !!! j = O) as Hp.
  { intros j Hj. unfold vec_of, is_col in *. apply lookup_total_replicate_lt. lia. }
  split; unfold vec_of in *; rewrite ?length_replicate; auto.
  - intros i Hi. apply lookup_total_replicate_lt. lia.
  - unfold is_row. intros; lia.
  - intros j Hj. unfold is_col in Hj. rewrite lookup_total_replicate_lt by lia. lia.
  - intros j Hj _. unfold is_col in Hj. apply lookup_total_replicate_lt. lia.
  - intros j Hj. rewrite Hp by done. lia.
  - intros j1 j2 H1 H2 _ Hne. by rewrite Hp in Hne.
  - unfold is_row. intros; lia.
  - unfold is_row. intros; lia.
  - intros j Hj Hne. by rewrite Hp in Hne.
  - rewrite lookup_total_replicate_lt by lia. lia.
Qed.

Lemma outer_loop k : (k <= n)%nat ->
  exists u v p w,
    fold_opt (insert_row costs m)
      (mkSolver (vec_of 0 (S n)) (vec_of 0 (S m)) (vec_of O (S m)) (vec_of O (S m)))
      (seq 1 k) = Some (mkSolver u v p w) /\ Outer k u v p /\ length w = S m.
Proof.
  induction k as [|k IH]; intros Hk.
  - eexists _, _, _, _. split; [done|]. split; [apply outer_start|apply length_replicate].
  - destruct (IH ltac:(lia)) as (u & v & p & w & Hrun & HO & Hw).
    rewrite seq_S, fold_opt_app, Hrun.
    destruct (insert_row_outer k u v p w HO ltac:(lia) Hw) as (u' & v' & p' & w' & Hins & HO' & Hw').
    exists u', v', p', w'. split; [|done].
    cbn [mbind option_bind fold_opt]. change (1 + k)%nat with (S k). by rewrite Hins.
Qed.

Lemma read_assignment_spec (p : list nat) :
  (forall j, is_col j -> (p !!! j <= n)%nat) ->
  (forall j1 j2, is_col j1 -> is_col j2 -> p !!! j1 = p !!! j2 -> p !!! j1 <> O -> j1 = j2) ->
  let a := foldl (read_body p) (vec_of m n) (seq 1 m) in
  length a = n /\ forall j, is_col j -> p !!! j <> O -> a !!! (p !!! j - 1)%nat = (j - 1)%nat.
Proof.
  intros Hrange Hinj a.
  set (P := fun k (a : list nat) => length a = n /\
    forall j, is_col j -> (j < k)%nat -> p !!! j <> O -> a !!! (p !!! j - 1)%nat = (j - 1)%nat).
  assert (P (1 + m)%nat a) as [Hl HP].
  { apply foldl_seq_inv; [split; [apply length_replicate|unfold is_col; lia]|].
    intros k b Hk [Hlen Hb]. unfold read_body.
    destruct (Nat.eqb_spec (p !!! k) 0) as [He|Hne].
    - split; [done|]. intros j Hj Hjk Hp. apply Hb; auto.
      assert (j <> k) by congruence. lia.
    - split; [by rewrite length_insert|]. intros j Hj Hjk Hp.
      pose proof (Hrange k ltac:(unfold is_col; lia)). pose proof (Hrange j Hj).
      destruct (decide (j = k)) as [->|Hjne].
      + apply list_lookup_total_insert_eq. lia.
      + rewrite list_lookup_total_insert_ne.
        * apply Hb; auto. lia.
        * intros He. apply Hjne. apply Hinj; auto; [unfold is_col; lia|lia]. }
  split; [done|]. intros j Hj. apply HP; [done|]. unfold is_col in Hj. lia.
Qed.

(** *** Optimality by weak duality *)

Definition total (a : list nat) : Z :=
  sum_Z (map (fun i => cost costs i (a !!! i)) (seq 0 n)).

Definition is_assignment (a : list nat) : Prop :=
  length a = n /\ NoDup a /\ Forall (fun j => (j < m)%nat) a.

Lemma sum_over_columns (v : list Z) (a : list nat) :
  is_assignment a -> (forall j, is_col j -> v !!! j <= 0) ->
  sum_Z (map (fun j => v !!! S j) (seq 0 m))
    <= sum_Z (map (fun i => v !!! S (a !!! i)) (seq 0 n)) /\
  ((forall j, is_col j -> (j - 1)%nat ∉ a -> v !!! j = 0) ->
   sum_Z (map (fun i => v !!! S (a !!! i)) (seq 0 n))
     = sum_Z (map (fun j => v !!! S j) (seq 0 m))).
Proof.
  intros (Hlen & Hnd & Hlt) Hv. rewrite Forall_forall in Hlt.
  assert (map (fun i => v !!! S (a !!! i)) (seq 0 n) = map (fun j => v !!! S j) a) as ->.
  { rewrite <- Hlen. clear -a. induction a as [|x a IH]; [done|].
    cbn [length seq map]. f_equal. rewrite <- seq_shift, map_map. exact IH. }
  destruct (submseteq_Permutation a (seq 0 m)) as [rest Hrest].
  { apply NoDup_submseteq; [done|]. intros j Hj. apply elem_of_seq. specialize (Hlt j Hj). lia. }
  rewrite (sum_Z_Permutation _ _ (Permutation_map (fun j => v !!! S j) Hrest)).
  rewrite map_app, sum_Z_app.
  assert (forall j, j ∈ rest -> is_col (S j) /\ j ∉ a) as Hr.
  { intros j Hj. split.
    - assert (j ∈ seq 0 m) as Hs by (rewrite Hrest; apply elem_of_app; by right).
      apply elem_of_seq in Hs. unfold is_col. lia.
    - assert (NoDup (a ++ rest)) as Hnd' by (rewrite <- Hrest; apply NoDup_seq).
      apply NoDup_app in Hnd' as (_ & Hd & _). intros Ha. by apply (Hd j). }
  split.
  - assert (sum_Z (map (fun j => v !!! S j) rest) <= sum_Z (map (fun _ => 0) rest)) as Hle.
    { apply sum_Z_map_le. intros j Hj. apply Hv. by apply Hr. }
    assert (sum_Z (map (fun _ : nat => 0) rest) = 0) as H0.
    { clear. induction rest; [done|]. cbn [map]. rewrite sum_Z_cons. lia. }
    lia.
  - intros Hfree. assert (sum_Z (map (fun j => v !!! S j) rest) = 0) as ->; [|lia].
    clear Hrest. induction rest as [|j rest IH]; [done|]. cbn [map]. rewrite sum_Z_cons, IH.
    + destruct (Hr j ltac:(left)) as [Hc Ha]. rewrite Hfree; [done|done|].
      replace (S j - 1)%nat with j by lia. done.
    + intros k Hk. apply Hr. by right.
Qed.

Lemma dual_bound u v p b :
  Outer n u v p -> is_assignment b ->
  sum_Z (map (fun i => u !!! S i) (seq 0 n)) + sum_Z (map (fun j => v !!! S j) (seq 0 m))
    <= total b.
Proof.
  intros HO Hb. pose proof (o_vb _ _ _ _ HO) as Hv.
  pose proof (proj1 (sum_over_columns v b Hb ltac:(intros; apply Hv; done))) as Hcols.
  assert (sum_Z (map (fun i => u !!! S i + v !!! S (b !!! i)) (seq 0 n)) <= total b) as Hrow.
  { apply sum_Z_map_le. intros i Hi%elem_of_seq. destruct Hb as (Hlen & _ & Hlt).
    rewrite Forall_forall in Hlt.
    assert (b !!! i < m)%nat by (apply Hlt, list_elem_of_lookup_total_2; lia).
    pose proof (o_feas _ _ _ _ HO (S i) (S (b !!! i)) ltac:(unfold is_row; lia)
                  ltac:(unfold is_col; lia)) as Hf.
    replace (S i - 1)%nat with i in Hf by lia.
    replace (S (b !!! i) - 1)%nat with (b !!! i) in Hf by lia. done. }
  rewrite sum_Z_map_add in Hrow. lia.
Qed.

Lemma matched_assignment u v p a :
  Outer n u v p -> length a = n ->
  (forall j, is_col j -> p !!! j <> O -> a !!! (p !!! j - 1)%nat = (j - 1)%nat) ->
  is_assignment a /\
  total a = sum_Z (map (fun i => u !!! S i) (seq 0 n)) + sum_Z (map (fun j => v !!! S j) (seq 0 m)).
Proof.
  intros HO Hlen Hread.
  assert (forall i, (i < n)%nat -> is_col (S (a !!! i)) /\ p !!! S (a !!! i) = S i) as Ha.
  { intros i Hi. destruct (o_cov _ _ _ _ HO (S i) ltac:(unfold is_row; lia)) as (j & Hj & Hp).
    pose proof (Hread j Hj ltac:(lia)) as Hr. rewrite Hp in Hr.
    replace (S i - 1)%nat with i in Hr by lia. rewrite Hr. unfold is_col in *.
    replace (S (j - 1)) with j by lia. done. }
  assert (is_assignment a) as Hasg.
  { split; [done|split].
    - apply NoDup_alt. intros i1 i2 x H1 H2.
      pose proof (lookup_lt_Some _ _ _ H1). pose proof (lookup_lt_Some _ _ _ H2).
      apply list_lookup_total_correct in H1, H2.
      destruct (Ha i1) as [_ E1]; [lia|]. destruct (Ha i2) as [_ E2]; [lia|].
      rewrite H1 in E1. rewrite H2 in E2. lia.
    - apply Forall_forall. intros x Hx. apply list_elem_of_lookup_total_1 in Hx as (i & Hi & <-).
      destruct (Ha i ltac:(lia)) as [Hc _]. unfold is_col in Hc. lia. }
  split; [done|].
  rewrite <- (proj2 (sum_over_columns v a Hasg ltac:(intros j Hj; apply (o_vb _ _ _ _ HO j Hj)))).
  - rewrite <- sum_Z_map_add. apply sum_Z_map_ext. intros i Hi%elem_of_seq.
    destruct (Ha i ltac:(lia)) as [Hc Hp].
    pose proof (o_tight _ _ _ _ HO _ Hc ltac:(lia)) as Ht. rewrite Hp in Ht.
    replace (S i - 1)%nat with i in Ht by lia.
    replace (S (a !!! i) - 1)%nat with (a !!! i) in Ht by lia. lia.
  - intros j Hj Hout. apply (o_free _ _ _ _ HO); [done|].
    destruct (decide (p !!! j = O)) as [?|Hne]; [done|]. exfalso. apply Hout.
    rewrite <- (Hread j Hj Hne). apply list_elem_of_lookup_total_2.
    pose proof (o_range _ _ _ _ HO j Hj). lia.
Qed.

Lemma hungarian_run :
  exists a, hungarian costs = Some a /\ is_assignment a /\
    forall b, is_assignment b -> total a <= total b.
Proof.
  destruct (outer_loop n ltac:(lia)) as (u & v & p & w & Hrun & HO & _).
  destruct (read_assignment_spec p (o_range _ _ _ _ HO) (o_inj _ _ _ _ HO)) as [Hlen Hread].
  destruct (matched_assignment u v p _ HO Hlen Hread) as [Ha Ht].
  eexists. split; [|split; [exact Ha|]].
  - assert (length (costs !!! O) = m) as Hc.
    { rewrite Forall_forall in Hrect. apply Hrect, list_elem_of_lookup_total_2. lia. }
    unfold hungarian. rewrite (list_lookup_lookup_total_lt costs) by lia. cbn [mbind option_bind].
    rewrite Hrows, Hc, Hrun. cbn [mbind option_bind column_row].
    apply (read_checked p _ n m); [apply (o_lenp _ _ _ _ HO)|apply length_replicate|].
    intros j Hj. by apply (o_range _ _ _ _ HO).
  - intros b Hb. rewrite Ht. by apply (dual_bound u v p).
Qed.
End Proof.

(** A cost matrix the matcher builds: rows of one length, at least as many
    columns as rows, entries that are non-positive [-weight]s, and the magnitude
    leaves room in an [i128]. *)
Definition cost_matrix (costs : list (list Z)) (m : nat) (B : Z) : Prop :=
  costs <> [] /\ (length costs <= m)%nat /\
  Forall (fun row => length row = m /\ Forall (fun c => - B <= c <= 0) row) costs /\
  (Z.of_nat (length costs) + 4) * B <= i128_max.

Section Interface.
Context (costs : list (list Z)) (m : nat) (B : Z) (HM : cost_matrix costs m B).
#[local] Set Default Proof Using "All".

Lemma cost_bounds i j :
  (i < length costs)%nat -> (j < m)%nat -> - B <= cost costs i j <= 0.
Proof.
  intros Hi Hj. destruct HM as (_ & _ & Hrows & _). rewrite Forall_forall in Hrows.
  destruct (Hrows (costs !!! i)) as [Hlen Hb]; [by apply list_elem_of_lookup_total_2|].
  rewrite Forall_forall in Hb. unfold cost. apply Hb. apply list_elem_of_lookup_total_2. lia.
Qed.

(** The form in which the matcher uses the solver. *)
Lemma hungarian_correct :
  exists a, hungarian costs = Some a /\ is_assignment (length costs) m a /\
    forall b, is_assignment (length costs) m b ->
      total costs (length costs) a <= total costs (length costs) b.
Proof.
  pose proof cost_bounds as Hb. destruct HM as (Hne & Hnm & Hrows & Hfit).
  assert (0 < length costs)%nat as Hn by (destruct costs; [done|cbn; lia]).
  assert (0 <= B) as HB by (specialize (Hb O O Hn ltac:(lia)); lia).
  apply (hungarian_run _ _ _ B Hn Hnm Hb eq_refl); [|done|done].
  eapply Forall_impl; [exact Hrows|]. by intros row [Hlen _].
Qed.
End Interface.

(** C28: on every rectangular matrix of non-positive costs that fits the [i128]
    accumulators, [hungarian] terminates, returns one distinct in-range column
    for every row, and no other such choice of columns has a smaller total. *)
Theorem hungarian_optimal costs m B :
  cost_matrix costs m B ->
  exists a, hungarian costs = Some a /\ is_assignment (length costs) m a /\
    forall b, is_assignment (length costs) m b ->
      total costs (length costs) a <= total costs (length costs) b.
Proof. apply hungarian_correct. Qed.

Lemma hungarian_optimal_witness :
  cost_matrix [[-7; -9; 0; 0; 0]; [-3; -9; 0; 0; 0]; [-8; -1; 0; 0; 0]] 5 9 /\
  exists a,
    hungarian [[-7; -9; 0; 0; 0]; [-3; -9; 0; 0; 0]; [-8; -1; 0; 0; 0]] = Some a /\
    is_assignment 3 5 a.
Proof.
  assert (cost_matrix [[-7; -9; 0; 0; 0]; [-3; -9; 0; 0; 0]; [-8; -1; 0; 0; 0]] 5 9) as H.
  { split_and!; [done|cbn; lia| |by vm_compute].
    repeat (apply Forall_cons; split; [split; [done|repeat (apply Forall_cons; split; [lia|])];
                                       apply Forall_nil; exact I|]).
    by apply Forall_nil. }
  split; [exact H|]. destruct (hungarian_optimal _ _ _ H) as (a & Ha & Hasg & _).
  exists a. exact (conj Ha Hasg).
Defined.
