(* ===== verification/Release.v ===== *)
(** Release-name parsing: [crates/sporos-matcher/src/release.rs].

    Names are byte strings; a byte offset is a [nat]; digits of [u32] arithmetic and the
    [as u16]/[as u8] casts are written out.  [normalize_title] works on scalar values and
    takes its Unicode tables from the [Unicode] interface of [Text].  The first part holds
    the definitions in the order of the source, the second their properties: the shape of
    a normalised title, the ranges of every parsed number, the safety of the byte slices,
    and the round trip of the [SxxEyy] form. *)

From S2P Require Import Prelude Model Text.
From stdpp Require Import strings.

Local Open Scope Z_scope.

(** ** [normalize_title] *)

Section Normalize.
Context {U : Unicode}.

(** The loop over characters: [normalized] and [separator]. *)
Definition normalize_step (acc : list Z * bool) (character : Z) : list Z * bool :=
  let '(normalized, separator) := acc in
  if is_alphanumeric character then (normalized ++ [character], false)
  else if negb separator && negb (bool_decide (normalized = [])) then (normalized ++ [32], true)
  else (normalized, separator).

Definition normalize_chars (characters : list Z) : list Z :=
  let '(normalized, separator) := foldl normalize_step ([], true) characters in
  if separator then removelast normalized else normalized.

Definition normalize_title (value : str) : NormalizedTitle :=
  string_of_chars (normalize_chars (flat_map to_lowercase (nfc (chars value)))).
End Normalize.

(** ** Digits and boundaries *)

Definition parse_digits (bytes : str) : Z :=
  foldl (fun value digit => wrap_u 32 (wrap_u 32 (value * 10) + wrap_u 8 (digit - 48))) 0 bytes.

(** [while end < len && end - start < maximum && bytes[end].is_ascii_digit()]; [room] is
    [maximum - (end - start)]. *)
Fixpoint digit_end (bytes : str) (room : nat) (end_ : nat) : nat :=
  match room with
  | O => end_
  | S room =>
      match bytes !! end_ with
      | Some b => if is_ascii_digit b then digit_end bytes room (S end_) else end_
      | None => end_
      end
  end.

(** [&bytes[start..end]] *)
Definition slice {A} (l : list A) (start end_ : nat) : list A := take (end_ - start) (drop start l).

Definition digits (bytes : str) (start minimum maximum : nat) : option (Z * nat) :=
  let end_ := digit_end bytes maximum start in
  if (minimum <=? end_ - start)%nat then Some (parse_digits (slice bytes start end_), end_) else None.

Definition boundary (value : option Z) : bool :=
  match value with None => true | Some value => negb (is_ascii_alphanumeric value) end.

(** [bytes.get(i) == Some(&c)] *)
Definition byte_is (bytes : str) (i : nat) (c : Z) : bool := bool_decide (bytes !! i = Some c).

(** ** Markers *)

Record EpisodeMarker := mkEpisodeMarker {
  em_start : nat; em_season : Z; em_episode : Z; em_episode_end : option Z }.

(** Body of the loop of [find_episode] at [start]. *)
Definition episode_at (bytes : str) (start : nat) : option EpisodeMarker :=
  if negb (byte_is bytes start 83) then None else
  '(season, after_season) ← digits bytes (start + 1) 1 2;
  if negb (byte_is bytes after_season 69) then None else
  '(episode, end_) ← digits bytes (after_season + 1) 1 3;
  let end_ := if byte_is bytes end_ 45 then S end_ else end_ in
  let episode_end :=
    if byte_is bytes end_ 69
    then match digits bytes (end_ + 1) 1 3 with
         | Some (last, _) => Some (wrap_u 16 last)
         | None => None
         end
    else None in
  Some {| em_start := start; em_season := wrap_u 16 season; em_episode := wrap_u 16 episode;
          em_episode_end := episode_end |}.

Definition find_episode (value : str) : option EpisodeMarker :=
  find_map (episode_at value) (seq 0 (length value)).

Definition season_at (bytes : str) (start : nat) : option (nat * Z) :=
  if negb (byte_is bytes start 83) then None else
  '(season, end_) ← digits bytes (start + 1) 1 2;
  if negb (byte_is bytes end_ 69) && boundary (bytes !! end_)
  then Some (start, wrap_u 16 season) else None.

Definition find_season (value : str) : option (nat * Z) :=
  find_map (season_at value) (seq 0 (length value)).

Definition valid_day (year month day : Z) : bool :=
  let leap := (year mod 4 =? 0) && (negb (year mod 100 =? 0) || (year mod 400 =? 0)) in
  let maximum :=
    if month =? 2 then (if leap then 29 else 28)
    else if (month =? 4) || (month =? 6) || (month =? 9) || (month =? 11) then 30 else 31 in
  (1 <=? day) && (day <=? maximum).

Definition all_digits (bytes : str) : bool := forallb is_ascii_digit bytes.

Definition date_at (bytes : str) (start : nat) : option (nat * Date) :=
  let s := slice bytes start (start + 10) in
  if negb (all_digits (slice s 0 4))
     || negb ((s !!! 4%nat =? 46) || (s !!! 4%nat =? 45))
     || negb (all_digits (slice s 5 7))
     || negb (s !!! 7%nat =? s !!! 4%nat)
     || negb (all_digits (drop 8 s))
  then None else
  let year := wrap_u 16 (parse_digits (slice s 0 4)) in
  let month := wrap_u 8 (parse_digits (slice s 5 7)) in
  let day := wrap_u 8 (parse_digits (drop 8 s)) in
  if ((1900 <=? year) && (year <=? 2099)) && ((1 <=? month) && (month <=? 12))
     && valid_day year month day
  then Some (start, mkDate year month day) else None.

Definition find_date (value : str) : option (nat * Date) :=
  find_map (date_at value) (seq 0 (length value - 9)).

Definition absolute_at (bytes : str) (start : nat) : option (nat * Z) :=
  if negb (byte_is bytes start 91) then None else
  '(episode, end_) ← digits bytes (start + 1) 1 4;
  if byte_is bytes end_ 93 then Some (start, episode) else None.

Definition find_absolute_episode (value : str) : option (nat * Z) :=
  find_map (absolute_at value) (seq 0 (length value)).

Definition year_at (bytes : str) (start : nat) : option (nat * Z) :=
  if (0 <? start)%nat && is_ascii_digit (bytes !!! (start - 1)%nat) then None else
  let s := slice bytes start (start + 4) in
  if all_digits s && boundary (bytes !! (start + 4)%nat)
     && ((1900 <=? parse_digits s) && (parse_digits s <=? 2099))
  then Some (start, wrap_u 16 (parse_digits s)) else None.

Definition find_year (value : str) : option (nat * Z) :=
  find_map (year_at value) (seq 0 (length value - 3)).

Definition is_disc (value : str) : bool := contains (lit "BDMV") value || contains (lit "VIDEO_TS") value.

(** ** Leaf, technical metadata *)

(** [value.rsplit(['/', '\\']).next()]: what follows the last separator *)
Definition is_separator (b : Z) : bool := (b =? 47) || (b =? 92).

Fixpoint last_component (s : str) : str :=
  match s with
  | [] => []
  | x :: s' => if existsb is_separator s' then last_component s'
               else if is_separator x then s' else s
  end.

Definition video_extensions : list str :=
  map lit ["mkv"; "mp4"; "m4v"; "avi"; "ts"; "m2ts"; "mov"; "wmv"; "webm"; "iso"; "nfo"; "srt"]%string.

Definition leaf_without_extension (value : str) : str :=
  let leaf := last_component value in
  match rsplit_once 46 leaf with
  | None => leaf
  | Some (stem, extension) =>
      if str_mem (to_ascii_lowercase extension) video_extensions then stem else leaf
  end.

(** [str::is_char_boundary], as the slices [&name[..n]] require *)
Definition is_char_boundary (s : str) (n : nat) : bool :=
  match s !! n with
  | Some b => (b <? 128) || (192 <=? b)
  | None => (n =? length s)%nat
  end.

Definition suffix_markers : list str :=
  map lit ["2160P"; "1080P"; "720P"; "BLURAY"; "WEB-DL"; "WEBRIP"; "HDTV"]%string.

Definition technical_suffix_start (value : str) : nat :=
  default (length value)
    (find_map
       (fun index =>
          let suffix := to_ascii_uppercase (drop index value) in
          if existsb (fun marker => starts_with marker suffix) suffix_markers
          then Some index else None)
       (List.filter (is_char_boundary value) (seq 0 (length value)))).

Definition find_marker (markers : list string) (upper : str) : option str :=
  find (fun marker => contains marker upper) (map lit markers).

Definition release_group (value : str) : option str :=
  '(_, group) ← rsplit_once 45 value;
  let group := trim group in
  if negb (bool_decide (group = [])) && negb (contains_byte 47 group) && negb (contains_byte 92 group)
  then Some group else None.

Definition add_technical_metadata (d : ReleaseDescriptor) (value : str) : ReleaseDescriptor :=
  let upper := to_ascii_uppercase value in
  {| rd_kind := rd_kind d; rd_primary_title := rd_primary_title d;
     rd_alternate_titles := rd_alternate_titles d; rd_year := rd_year d;
     rd_season := rd_season d; rd_episode := rd_episode d; rd_episode_end := rd_episode_end d;
     rd_absolute_episode := rd_absolute_episode d; rd_air_date := rd_air_date d;
     rd_edition := rd_edition d;
     rd_source := find_marker ["WEB-DL"; "WEBRIP"; "BLURAY"; "HDTV"; "DVD"]%string upper;
     rd_resolution := find_marker ["2160P"; "1080P"; "720P"; "576P"; "480P"]%string upper;
     rd_video_codec := find_marker ["X265"; "HEVC"; "X264"; "H264"; "AV1"]%string upper;
     rd_hdr := find_marker ["DOLBY VISION"; "DV"; "HDR10+"; "HDR10"; "HDR"]%string upper;
     rd_audio := find_marker ["TRUEHD"; "DTS-HD"; "DTS"; "DDP"; "AAC"; "FLAC"]%string upper;
     rd_release_group := release_group value;
     rd_arr_identity := rd_arr_identity d |}.

(** ** [parse_release] *)

(** What the marker search of [parse_release] decides: the video kind, the byte offset at
    which the title ends, and the numbers that go with the kind. *)
Record Classified := mkClassified {
  cl_kind : VideoKind; cl_marker : nat; cl_year : option Z; cl_season : option Z;
  cl_episode : option Z; cl_episode_end : option Z; cl_air_date : option Date;
  cl_absolute : option Z }.

Definition classify (name : str) : Classified :=
  let upper := to_ascii_uppercase name in
  let season :=
    match find_episode upper with
    | Some e => Some (em_start e, em_season e, Some (em_episode e), em_episode_end e)
    | None => match find_season upper with
              | Some (start, season) => Some (start, season, None, None)
              | None => None
              end
    end in
  match season with
  | Some (start, season, episode, episode_end) =>
      mkClassified (if episode then Episode else SeasonPack) start None (Some season) episode
        episode_end None None
  | None =>
      match find_date upper with
      | Some (start, date) => mkClassified DateEpisode start None None None None (Some date) None
      | None =>
          match find_absolute_episode name with
          | Some (start, episode) =>
              mkClassified AbsoluteEpisode start None None None None None (Some episode)
          | None =>
              if is_disc upper then mkClassified Disc (length name) None None None None None None
              else match find_year upper with
                   | Some (start, year) => mkClassified Movie start (Some year) None None None None None
                   | None => mkClassified UnknownVideo (technical_suffix_start name)
                               None None None None None None
                   end
          end
      end
  end.

Section Parse.
Context {U : Unicode}.

Definition descriptor (kind : VideoKind) (title : str) : ReleaseDescriptor :=
  let d := unknown (normalize_title title) in
  {| rd_kind := kind; rd_primary_title := rd_primary_title d;
     rd_alternate_titles := rd_alternate_titles d; rd_year := rd_year d;
     rd_season := rd_season d; rd_episode := rd_episode d; rd_episode_end := rd_episode_end d;
     rd_absolute_episode := rd_absolute_episode d; rd_air_date := rd_air_date d;
     rd_edition := rd_edition d; rd_source := rd_source d; rd_resolution := rd_resolution d;
     rd_video_codec := rd_video_codec d; rd_hdr := rd_hdr d; rd_audio := rd_audio d;
     rd_release_group := rd_release_group d; rd_arr_identity := rd_arr_identity d |}.

Definition parse_release (value : str) : ReleaseDescriptor :=
  let name := leaf_without_extension value in
  let c := classify name in
  let d := descriptor (cl_kind c) (take (cl_marker c) name) in
  add_technical_metadata
    {| rd_kind := rd_kind d; rd_primary_title := rd_primary_title d;
       rd_alternate_titles := rd_alternate_titles d; rd_year := cl_year c;
       rd_season := cl_season c; rd_episode := cl_episode c; rd_episode_end := cl_episode_end c;
       rd_absolute_episode := cl_absolute c; rd_air_date := cl_air_date c;
       rd_edition := rd_edition d; rd_source := rd_source d; rd_resolution := rd_resolution d;
       rd_video_codec := rd_video_codec d; rd_hdr := rd_hdr d; rd_audio := rd_audio d;
       rd_release_group := rd_release_group d; rd_arr_identity := rd_arr_identity d |} name.
End Parse.

(** ** Episode keys *)

Inductive EpisodeKey :=
| KeySeason (season episode : Z)
| KeyDate (date : Date)
| KeyAbsolute (episode : Z).
#[export] Instance EpisodeKey_eq_dec : EqDecision EpisodeKey.
Proof. solve_decision. Defined.

(** [first..=last] on [u16] *)
Definition range_inclusive (first last : Z) : list Z :=
  map (fun k => first + Z.of_nat k) (seq 0 (Z.to_nat (last - first + 1))).

Definition episode_keys {U : Unicode} (value : str) : list EpisodeKey :=
  let d := parse_release value in
  match rd_kind d with
  | Episode =>
      match rd_season d, rd_episode d with
      | Some season, Some first =>
          map (KeySeason season) (range_inclusive first (default first (rd_episode_end d)))
      | _, _ => []
      end
  | DateEpisode => match rd_air_date d with Some date => [KeyDate date] | None => [] end
  | AbsoluteEpisode => match rd_absolute_episode d with Some e => [KeyAbsolute e] | None => [] end
  | _ => []
  end.

(** ** Concrete runs, from the test module of the source *)

Definition summary (d : ReleaseDescriptor) :=
  (rd_kind d, rd_primary_title d, rd_season d, rd_episode d, rd_episode_end d).

Example parse_episode_run :
  summary (parse_release (U := ascii_unicode) (lit "Show.Name.S02E03-E04.1080p.WEB-DL-GRP.mkv"))
  = (Episode, lit "show name", Some 2, Some 3, Some 4).
Proof. vm_compute. reflexivity. Qed.
Example parse_season_run :
  summary (parse_release (U := ascii_unicode) (lit "Show Name S02 1080p"))
  = (SeasonPack, lit "show name", Some 2, None, None).
Proof. vm_compute. reflexivity. Qed.
Example parse_movie_run :
  rd_year (parse_release (U := ascii_unicode) (lit "dir/A.Movie.2024.2160p.BluRay.x265-GRP.mkv"))
  = Some 2024.
Proof. vm_compute. reflexivity. Qed.

(** ** The shape of a normalised title *)

Section NormalizeProofs.
Context {U : Unicode}.

(** Maximal runs of alphanumeric characters; [current] is the run being read. *)
Fixpoint runs (current : list Z) (cs : list Z) : list (list Z) :=
  match cs with
  | [] => match current with [] => [] | _ => [current] end
  | c :: cs =>
      if is_alphanumeric c then runs (current ++ [c]) cs
      else match current with [] => runs [] cs | _ => current :: runs [] cs end
  end.

Definition words (cs : list Z) : list (list Z) := runs [] cs.

Let spaced (ws : list (list Z)) : list Z := concat (map (fun w => w ++ [32]) ws).

Lemma spaced_join ws w : spaced ws ++ w = join_on 32 (ws ++ [w]).
Proof.
  induction ws as [|x ws IH]; [done|]. unfold spaced in *. cbn [map concat app].
  rewrite <- !app_assoc, IH. by destruct ws.
Qed.

Lemma removelast_spaced ws : removelast (spaced ws) = join_on 32 ws.
Proof.
  destruct ws as [|w ws _] using rev_ind; [done|].
  rewrite <- spaced_join. unfold spaced. rewrite map_app, concat_app. cbn.
  rewrite app_nil_r, app_assoc. apply removelast_last.
Qed.

Lemma normalize_fold ws current cs :
  (let '(n, s) := foldl normalize_step (spaced ws ++ current, bool_decide (current = [])) cs in
   if s then removelast n else n) = join_on 32 (ws ++ runs current cs).
Proof.
  revert ws current. induction cs as [|c cs IH]; intros ws current; cbn [foldl runs].
  - case_bool_decide as Hc.
    + subst. by rewrite !app_nil_r, removelast_spaced.
    + destruct current; [done|]. by rewrite spaced_join.
  - cbn [normalize_step]. destruct (is_alphanumeric c) eqn:Hc.
    + rewrite <- app_assoc, <- IH. rewrite (bool_decide_eq_false_2 (current ++ [c] = [])); [done|].
      by destruct current.
    + case_bool_decide as Hcur; cbn [negb andb].
      * subst. rewrite <- IH. by rewrite bool_decide_eq_true_2.
      * rewrite bool_decide_eq_false_2 by (by intros [_ ?]%app_nil). cbn [negb andb].
        destruct current as [|x current]; [done|].
        replace (ws ++ (x :: current) :: runs [] cs) with ((ws ++ [x :: current]) ++ runs [] cs)
          by (by rewrite <- app_assoc).
        rewrite <- IH, app_nil_r, bool_decide_eq_true_2 by done.
        assert (spaced (ws ++ [x :: current]) = (spaced ws ++ x :: current) ++ [32]) as ->; [|done].
        unfold spaced. rewrite map_app, concat_app. cbn. by rewrite app_nil_r, <- app_assoc.
Qed.

Lemma normalize_chars_words cs : normalize_chars cs = join_on 32 (words cs).
Proof. exact (normalize_fold [] [] cs). Qed.

Definition word (w : list Z) : Prop := w <> [] /\ Forall (fun c => is_alphanumeric c = true) w.

Lemma runs_words current cs :
  Forall (fun c => is_alphanumeric c = true) current -> Forall word (runs current cs).
Proof.
  revert current. induction cs as [|c cs IH]; intros current Hc; cbn [runs].
  - destruct current; [by apply Forall_nil|]. by apply Forall_singleton.
  - destruct (is_alphanumeric c) eqn:Ha.
    + apply IH, Forall_app. split; [done|by apply Forall_singleton].
    + destruct current as [|x current]; [by apply IH|].
      constructor; [by split|by apply IH].
Qed.

(** Reading back a join of words. *)
Lemma runs_app_word current w cs :
  Forall (fun c => is_alphanumeric c = true) w -> runs current (w ++ cs) = runs (current ++ w) cs.
Proof.
  revert current. induction w as [|c w IH]; intros current Hw; cbn [app runs].
  - by rewrite app_nil_r.
  - apply Forall_cons in Hw as [Hc Hw]. rewrite Hc, IH by done. by rewrite <- app_assoc.
Qed.

Lemma words_join ws :
  is_alphanumeric 32 = false -> Forall word ws -> words (join_on 32 ws) = ws.
Proof.
  intros Hsp. unfold words. induction ws as [|w ws IH]; intros Hws; [done|].
  apply Forall_cons in Hws as [[Hne Hw] Hws]. cbn [join_on]. destruct ws as [|w' ws].
  - rewrite <- (app_nil_r w) at 1. rewrite runs_app_word by done. cbn. by destruct w.
  - rewrite runs_app_word by done. cbn [app runs]. rewrite Hsp, IH by done. by destruct w.
Qed.

Lemma elem_of_join c s ws : c ∈ join_on s ws -> c = s \/ exists w, w ∈ ws /\ c ∈ w.
Proof.
  induction ws as [|w ws IH]; cbn [join_on]; [by intros ?%not_elem_of_nil|].
  destruct ws as [|w' ws]; [intros H; right; exists w; by split; [left|]|].
  rewrite elem_of_app, elem_of_cons. intros [H|[->|H]]; [right; exists w; by split; [left|]|by left|].
  destruct (IH H) as [->|(v & Hv & Hc)]; [by left|right]. exists v. split; [by right|done].
Qed.

Lemma elem_of_runs c w current cs : w ∈ runs current cs -> c ∈ w -> c ∈ current \/ c ∈ cs.
Proof.
  revert current. induction cs as [|x cs IH]; intros current; cbn [runs].
  - destruct current; [by intros ?%not_elem_of_nil|]. intros ->%list_elem_of_singleton. auto.
  - destruct (is_alphanumeric x).
    + intros Hw Hc. destruct (IH _ Hw Hc) as [H|H]; [|right; by right].
      apply elem_of_app in H as [H| ->%list_elem_of_singleton]; [by left|right; left].
    + destruct current as [|y current].
      * intros Hw Hc. destruct (IH _ Hw Hc) as [H|H]; [by apply not_elem_of_nil in H|right; by right].
      * intros [->|Hw]%elem_of_cons Hc; [by left|].
        destruct (IH _ Hw Hc) as [H|H]; [by apply not_elem_of_nil in H|right; by right].
Qed.
End NormalizeProofs.

(** ** ASCII titles *)

Definition ascii (s : list Z) : Prop := Forall (fun c => 0 <= c < 128) s.

Lemma chars_ascii s : ascii s -> chars s = s.
Proof.
  induction 1 as [|c s Hc Hs IH]; [done|]. cbn [chars].
  destruct (Z.ltb_spec c 192); [by rewrite IH|lia].
Qed.

Lemma string_of_chars_ascii s : ascii s -> string_of_chars s = s.
Proof.
  induction 1 as [|c s Hc Hs IH]; [done|].
  unfold string_of_chars in *. cbn [map concat]. rewrite IH. unfold encode_utf8.
  destruct (Z.ltb_spec c 128); [done|lia].
Qed.

Lemma byte_to_ascii_lowercase_idem c :
  byte_to_ascii_lowercase (byte_to_ascii_lowercase c) = byte_to_ascii_lowercase c.
Proof.
  unfold byte_to_ascii_lowercase at 2 3. destruct (is_ascii_upper c) eqn:Hc.
  - unfold byte_to_ascii_lowercase, is_ascii_upper in *. destruct (Z.leb_spec (c + 32) 90); [lia|].
    by rewrite andb_false_r.
  - unfold byte_to_ascii_lowercase. by rewrite Hc.
Qed.

Lemma byte_to_ascii_lowercase_range c : 0 <= c < 128 -> 0 <= byte_to_ascii_lowercase c < 128.
Proof.
  unfold byte_to_ascii_lowercase, is_ascii_upper.
  destruct (Z.leb_spec 65 c), (Z.leb_spec c 90); cbn; lia.
Qed.

Section AsciiTitles.
Context {U : Unicode} {UL : UnicodeLaws U}.
#[local] Set Default Proof Using "All".

Lemma flat_map_lowercase_ascii s :
  ascii s -> flat_map to_lowercase s = to_ascii_lowercase s.
Proof.
  induction 1 as [|c s Hc Hs IH]; [done|]. cbn [flat_map to_ascii_lowercase map].
  rewrite (to_lowercase_ascii c) by done. cbn. by rewrite IH.
Qed.

Lemma to_ascii_lowercase_ascii s : ascii s -> ascii (to_ascii_lowercase s).
Proof.
  unfold ascii, to_ascii_lowercase. rewrite Forall_map. intros H.
  eapply Forall_impl; [exact H|]. apply byte_to_ascii_lowercase_range.
Qed.

Lemma normalize_title_ascii s :
  ascii s -> normalize_title s = join_on 32 (words (to_ascii_lowercase s)).
Proof.
  intros Hs. unfold normalize_title.
  rewrite chars_ascii, nfc_ascii, flat_map_lowercase_ascii, normalize_chars_words by done.
  apply string_of_chars_ascii, Forall_forall. intros c Hc.
  pose proof (to_ascii_lowercase_ascii s Hs) as Hl. unfold ascii in Hl.
  rewrite Forall_forall in Hl. apply elem_of_join in Hc as [->|(w & Hw & Hc)]; [cbn; lia|].
  unfold words in Hw.
  destruct (elem_of_runs _ _ _ _ Hw Hc) as [H|H]; [by apply not_elem_of_nil in H|auto].
Qed.

Lemma normalize_title_ascii_chars s c :
  ascii s -> c ∈ normalize_title s -> 0 <= c < 128 /\ byte_to_ascii_lowercase c = c.
Proof.
  intros Hs Hc. rewrite normalize_title_ascii in Hc by done.
  apply elem_of_join in Hc as [->|(w & Hw & Hc)]; [done|]. unfold words in Hw.
  destruct (elem_of_runs _ _ _ _ Hw Hc) as [H|H]; [by apply not_elem_of_nil in H|].
  unfold to_ascii_lowercase in H. apply list_elem_of_fmap in H as (d & -> & Hd).
  unfold ascii in Hs. rewrite Forall_forall in Hs. split.
  - apply byte_to_ascii_lowercase_range. auto.
  - apply byte_to_ascii_lowercase_idem.
Qed.
End AsciiTitles.

(** ** Digits *)

Lemma is_ascii_digit_spec b : is_ascii_digit b = true <-> 48 <= b <= 57.
Proof. unfold is_ascii_digit. rewrite andb_true_iff, !Z.leb_le. done. Qed.

Lemma parse_digits_value bytes :
  all_digits bytes = true -> (length bytes <= 9)%nat -> 0 <= parse_digits bytes < 10 ^ Z.of_nat (length bytes).
Proof.
  unfold parse_digits, all_digits. intros Hd Hl.
  assert (forall acc k, (k + length bytes <= 9)%nat -> 0 <= acc < 10 ^ Z.of_nat k ->
    0 <= foldl (fun value digit => wrap_u 32 (wrap_u 32 (value * 10) + wrap_u 8 (digit - 48))) acc bytes
      < 10 ^ Z.of_nat (k + length bytes)) as H.
  { clear Hl. induction bytes as [|b bytes IH]; intros acc k Hk Hacc; cbn [foldl length forallb] in *.
    - by rewrite Nat.add_0_r.
    - apply andb_true_iff in Hd as [Hb Hd]. apply is_ascii_digit_spec in Hb.
      replace (k + S (length bytes))%nat with (S k + length bytes)%nat by lia.
      assert (10 ^ Z.of_nat (S k) = 10 * 10 ^ Z.of_nat k) as Hp.
      { rewrite Nat2Z.inj_succ, Z.pow_succ_r; lia. }
      assert (10 ^ Z.of_nat (S k) <= 10 ^ 9) by (apply Z.pow_le_mono_r; lia).
      apply IH; [done|lia|]. rewrite (wrap_u_small 8), (wrap_u_small 32 (acc * 10)) by lia.
      rewrite wrap_u_small by lia. lia. }
  specialize (H 0 O). cbn [Nat.add Z.of_nat] in H. apply H; [done|lia].
Qed.

Lemma digit_end_spec bytes room e :
  (e <= digit_end bytes room e <= e + room)%nat /\
  forall i, (e <= i < digit_end bytes room e)%nat -> exists b, bytes !! i = Some b /\ is_ascii_digit b = true.
Proof.
  revert e. induction room as [|room IH]; intros e; cbn [digit_end]; [split; [lia|intros; lia]|].
  destruct (bytes !! e) as [b|] eqn:Hb; [|split; [lia|intros; lia]].
  destruct (is_ascii_digit b) eqn:Hd; [|split; [lia|intros; lia]].
  destruct (IH (S e)) as [H1 H2]. split; [lia|]. intros i Hi.
  destruct (decide (i = e)) as [->|]; [by exists b|]. apply H2. lia.
Qed.

(** The same run when other bytes follow a byte that is not a digit. *)
Lemma digit_end_stop bytes room e k :
  (forall i, (e <= i < e + k)%nat -> exists b, bytes !! i = Some b /\ is_ascii_digit b = true) ->
  (k <= room)%nat ->
  (k = room \/ match bytes !! (e + k)%nat with Some b => is_ascii_digit b = false | None => True end) ->
  digit_end bytes room e = (e + k)%nat.
Proof.
  revert e k. induction room as [|room IH]; intros e k Hd Hk Hstop; cbn [digit_end]; [lia|].
  destruct k as [|k].
  - rewrite Nat.add_0_r in *. destruct Hstop as [?|Hstop]; [lia|].
    destruct (bytes !! e) as [b|]; [|done]. by rewrite Hstop.
  - destruct (Hd e ltac:(lia)) as (b & -> & ->).
    rewrite (IH (S e) k); [lia| |lia|].
    + intros i Hi. apply Hd. lia.
    + destruct Hstop as [?|Hstop]; [left; lia|right].
      by replace (S e + k)%nat with (e + S k)%nat by lia.
Qed.

Lemma slice_all_digits bytes start e :
  (forall i, (start <= i < e)%nat -> exists b, bytes !! i = Some b /\ is_ascii_digit b = true) ->
  all_digits (slice bytes start e) = true.
Proof.
  intros H. apply forallb_forall. intros x Hx%list_elem_of_In.
  unfold slice in Hx. apply list_elem_of_lookup in Hx as [i Hi].
  apply lookup_take_Some in Hi as [Hi Hlt]. rewrite lookup_drop in Hi.
  destruct (H (start + i)%nat ltac:(lia)) as (b & Hb & Hd). congruence.
Qed.

Lemma length_slice_le {A} (l : list A) start e : (length (slice l start e) <= e - start)%nat.
Proof. unfold slice. rewrite length_take. lia. Qed.

Lemma digits_Some bytes start minimum maximum v e :
  digits bytes start minimum maximum = Some (v, e) -> (maximum <= 9)%nat ->
  (start + minimum <= e <= start + maximum)%nat /\ 0 <= v < 10 ^ Z.of_nat maximum.
Proof.
  unfold digits. destruct (digit_end_spec bytes maximum start) as [Hb Hd].
  destruct (Nat.leb_spec minimum (digit_end bytes maximum start - start)); [|done].
  intros [= <- <-] Hm. split; [lia|].
  pose proof (length_slice_le bytes start (digit_end bytes maximum start)).
  pose proof (parse_digits_value _ (slice_all_digits _ _ _ Hd) ltac:(lia)).
  assert (10 ^ Z.of_nat (length (slice bytes start (digit_end bytes maximum start)))
          <= 10 ^ Z.of_nat maximum) by (apply Z.pow_le_mono_r; lia). lia.
Qed.

(** ** What each marker search returns *)

Definition at_byte (bytes : str) (start : nat) : Prop :=
  exists b, bytes !! start = Some b /\ (b = 83 \/ b = 91 \/ is_ascii_digit b = true).

Lemma byte_is_spec bytes i c : byte_is bytes i c = true <-> bytes !! i = Some c.
Proof. apply bool_decide_eq_true. Qed.

Ltac bind_inv H :=
  match type of H with
  | _ ≫= _ = Some _ => apply bind_Some in H as [[? ?] [? H]]
  end.

Ltac digits_inv H :=
  apply digits_Some in H as [_ H]; [|lia];
  match type of H with
  | context [ 10 ^ Z.of_nat ?k ] =>
      let v := eval vm_compute in (10 ^ Z.of_nat k) in change (10 ^ Z.of_nat k) with v in H
  end.

Lemma episode_at_Some bytes start m :
  episode_at bytes start = Some m ->
  em_start m = start /\ at_byte bytes start /\ 0 <= em_season m <= 99 /\ 0 <= em_episode m <= 999 /\
  (forall last, em_episode_end m = Some last -> 0 <= last <= 999).
Proof.
  unfold episode_at. destruct (byte_is bytes start 83) eqn:Hs; [cbn [negb]|done].
  apply byte_is_spec in Hs. intros H. bind_inv H.
  digits_inv H0.
  destruct (byte_is bytes n 69); [cbn [negb] in H|done]. bind_inv H.
  digits_inv H1.
  injection H as <-. cbn [em_start em_season em_episode em_episode_end].
  rewrite !wrap_u_small by lia.
  split_and!; [done|exists 83; auto|lia|lia|lia|lia|].
  intros last. set (k := if byte_is bytes n0 45 then S n0 else n0).
  destruct (byte_is bytes k 69); [|done]. destruct (digits bytes (k + 1) 1 3) as [[v e]|] eqn:Hd; [|done].
  intros [= <-]. digits_inv Hd.
  rewrite wrap_u_small by lia. lia.
Qed.

Lemma season_at_Some bytes start s season :
  season_at bytes start = Some (s, season) -> s = start /\ at_byte bytes start /\ 0 <= season <= 99.
Proof.
  unfold season_at. destruct (byte_is bytes start 83) eqn:Hs; [cbn [negb]|done].
  apply byte_is_spec in Hs. intros H. bind_inv H.
  digits_inv H0.
  case_match; [|done]. injection H as <- <-.
  split_and!; [done|exists 83; auto| |]; rewrite wrap_u_small by lia; lia.
Qed.

Definition valid_date (d : Date) : Prop :=
  1900 <= date_year d <= 2099 /\ 1 <= date_month d <= 12 /\
  valid_day (date_year d) (date_month d) (date_day d) = true.

Lemma date_at_Some bytes start s d :
  date_at bytes start = Some (s, d) -> s = start /\ at_byte bytes start /\ valid_date d.
Proof.
  unfold date_at. set (w := slice bytes start (start + 10)).
  destruct (all_digits (slice w 0 4)) eqn:H1; [|done]. cbn [negb orb].
  destruct ((w !!! 4%nat =? 46) || (w !!! 4%nat =? 45)) eqn:H2; [|done]. cbn [negb orb].
  destruct (all_digits (slice w 5 7)) eqn:H3; [|done]. cbn [negb orb].
  destruct (w !!! 7%nat =? w !!! 4%nat) eqn:H4; [|done]. cbn [negb orb].
  destruct (all_digits (drop 8 w)) eqn:H5; [|done]. cbn [negb].
  case_match eqn:Hc; [|done]. intros [= <- <-].
  apply andb_true_iff in Hc as [[[Hy1 Hy2]%andb_true_iff [Hm1 Hm2]%andb_true_iff]%andb_true_iff Hv].
  apply Z.leb_le in Hy1, Hy2, Hm1, Hm2.
  split_and!; [done| |unfold valid_date; cbn [date_year date_month date_day]; auto].
  assert (w !! 4%nat = Some (w !!! 4%nat)) as Hw4.
  { apply list_lookup_lookup_total. destruct (w !! 4%nat) eqn:Hn; [done|].
    rewrite list_lookup_total_alt, Hn in H2. done. }
  destruct (w !! 0%nat) as [b|] eqn:Hb.
  - exists b. split.
    + unfold w, slice in Hb. apply lookup_take_Some in Hb as [Hb _].
      by rewrite lookup_drop, Nat.add_0_r in Hb.
    + right; right. destruct w as [|x w']; [done|]. injection Hb as ->.
      cbn in H1. by apply andb_true_iff in H1 as [? _].
  - apply lookup_ge_None in Hb. apply lookup_lt_Some in Hw4. lia.
Qed.

Lemma absolute_at_Some bytes start s e :
  absolute_at bytes start = Some (s, e) -> s = start /\ at_byte bytes start /\ 0 <= e <= 9999.
Proof.
  unfold absolute_at. destruct (byte_is bytes start 91) eqn:Hs; [cbn [negb]|done].
  apply byte_is_spec in Hs. intros H. bind_inv H.
  digits_inv H0.
  case_match; [|done]. injection H as <- <-.
  split_and!; [done|exists 91; auto| |]; lia.
Qed.

Lemma year_at_Some bytes start s y :
  (start + 3 < length bytes)%nat ->
  year_at bytes start = Some (s, y) -> s = start /\ at_byte bytes start /\ 1900 <= y <= 2099.
Proof.
  intros Hlen. unfold year_at. case_match; [done|]. case_match eqn:Hc; [|done]. intros [= <- <-].
  rewrite !andb_true_iff, !Z.leb_le in Hc. destruct Hc as [[Hd _] Hy].
  split_and!; [done| |rewrite wrap_u_small; lia..].
  destruct (lookup_lt_is_Some_2 bytes start ltac:(lia)) as [b Hb].
  exists b. split; [done|right; right].
  unfold slice in Hd. rewrite (drop_S bytes b start Hb) in Hd.
  replace (start + 4 - start)%nat with 4%nat in Hd by lia. cbn in Hd.
  by apply andb_true_iff in Hd as [? _].
Qed.

(** ** Classification: field ranges and slice safety *)

Definition no_numbers (d : ReleaseDescriptor) : Prop :=
  rd_season d = None /\ rd_episode d = None /\ rd_episode_end d = None.

(** The fields that each video kind carries, with the ranges of the parsed numbers. *)
Definition release_invariant (d : ReleaseDescriptor) : Prop :=
  match rd_kind d with
  | Episode =>
      (exists season episode, rd_season d = Some season /\ 0 <= season <= 99 /\
         rd_episode d = Some episode /\ 0 <= episode <= 999) /\
      (forall last, rd_episode_end d = Some last -> 0 <= last <= 999) /\
      rd_year d = None /\ rd_air_date d = None /\ rd_absolute_episode d = None
  | SeasonPack =>
      (exists season, rd_season d = Some season /\ 0 <= season <= 99) /\
      rd_episode d = None /\ rd_episode_end d = None /\
      rd_year d = None /\ rd_air_date d = None /\ rd_absolute_episode d = None
  | DateEpisode =>
      (exists date, rd_air_date d = Some date /\ valid_date date) /\
      no_numbers d /\ rd_year d = None /\ rd_absolute_episode d = None
  | AbsoluteEpisode =>
      (exists episode, rd_absolute_episode d = Some episode /\ 0 <= episode <= 9999) /\
      no_numbers d /\ rd_year d = None /\ rd_air_date d = None
  | Movie =>
      (exists year, rd_year d = Some year /\ 1900 <= year <= 2099) /\
      no_numbers d /\ rd_air_date d = None /\ rd_absolute_episode d = None
  | Disc | UnknownVideo =>
      no_numbers d /\ rd_year d = None /\ rd_air_date d = None /\ rd_absolute_episode d = None
  end.

(** The descriptor with the numbers of a classification. *)
Definition numbered (c : Classified) : ReleaseDescriptor :=
  {| rd_kind := cl_kind c; rd_primary_title := []; rd_alternate_titles := [];
     rd_year := cl_year c; rd_season := cl_season c; rd_episode := cl_episode c;
     rd_episode_end := cl_episode_end c; rd_absolute_episode := cl_absolute c;
     rd_air_date := cl_air_date c; rd_edition := None; rd_source := None;
     rd_resolution := None; rd_video_codec := None; rd_hdr := None; rd_audio := None;
     rd_release_group := None; rd_arr_identity := None |}.

Lemma at_byte_boundary bytes start :
  at_byte bytes start -> is_char_boundary bytes start = true /\ (start <= length bytes)%nat.
Proof.
  intros (b & Hb & Hr). unfold is_char_boundary. rewrite Hb. split.
  - apply orb_true_iff. left. apply Z.ltb_lt.
    destruct Hr as [->|[->|Hd%is_ascii_digit_spec]]; lia.
  - apply lookup_lt_Some in Hb. lia.
Qed.

Lemma upper_boundary name start :
  at_byte (to_ascii_uppercase name) start ->
  is_char_boundary name start = true /\ (start <= length name)%nat.
Proof.
  intros (b & Hb & Hr). unfold to_ascii_uppercase in Hb.
  apply list_lookup_fmap_Some in Hb as (a & -> & Ha).
  unfold is_char_boundary. rewrite Ha. split; [|apply lookup_lt_Some in Ha; lia].
  apply orb_true_iff. left. apply Z.ltb_lt.
  unfold byte_to_ascii_uppercase, is_ascii_lower in Hr.
  destruct (Z.leb_spec 97 a), (Z.leb_spec a 122); cbn in Hr;
    rewrite is_ascii_digit_spec in Hr; lia.
Qed.

Lemma technical_suffix_boundary name :
  is_char_boundary name (technical_suffix_start name) = true /\
  (technical_suffix_start name <= length name)%nat.
Proof.
  unfold technical_suffix_start. destruct (find_map _ _) as [i|] eqn:Hf; cbn [default from_option id]; unfold id in *.
  - apply find_map_elem in Hf as (x & Hx & Hi). apply list_elem_of_In, filter_In in Hx as [Hx Hb].
    case_match; [|done]. injection Hi as <-. split; [done|]. apply in_seq in Hx. lia.
  - split; [|done]. unfold is_char_boundary. rewrite lookup_ge_None_2 by done. apply Nat.eqb_refl.
Qed.

Lemma whole_boundary name : is_char_boundary name (length name) = true /\ (length name <= length name)%nat.
Proof. split; [|done]. unfold is_char_boundary. rewrite lookup_ge_None_2 by done. apply Nat.eqb_refl. Qed.

Lemma classify_ok name :
  (is_char_boundary name (cl_marker (classify name)) = true /\
   (cl_marker (classify name) <= length name)%nat) /\
  release_invariant (numbered (classify name)).
Proof.
  unfold classify. set (upper := to_ascii_uppercase name).
  destruct (find_episode upper) as [e|] eqn:He.
  { apply find_map_elem in He as (start & _ & He).
    apply episode_at_Some in He as (Hs & Hat & H1 & H2 & H3). rewrite Hs in *.
    split; [by apply upper_boundary|]. cbn. naive_solver. }
  destruct (find_season upper) as [[start season]|] eqn:Hs.
  { apply find_map_elem in Hs as (start' & _ & Hs).
    apply season_at_Some in Hs as (-> & Hat & H1).
    split; [by apply upper_boundary|]. cbn. naive_solver. }
  destruct (find_date upper) as [[start date]|] eqn:Hd.
  { apply find_map_elem in Hd as (start' & _ & Hd).
    apply date_at_Some in Hd as (-> & Hat & H1).
    split; [by apply upper_boundary|]. cbn. unfold no_numbers. naive_solver. }
  destruct (find_absolute_episode name) as [[start ep]|] eqn:Ha.
  { apply find_map_elem in Ha as (start' & _ & Ha).
    apply absolute_at_Some in Ha as (-> & Hat & H1).
    split; [by apply at_byte_boundary|]. cbn. unfold no_numbers. naive_solver. }
  destruct (is_disc upper).
  { split; [apply whole_boundary|]. by cbn. }
  destruct (find_year upper) as [[start year]|] eqn:Hy.
  { apply find_map_elem in Hy as (start' & Hin & Hy). apply elem_of_seq in Hin.
    apply year_at_Some in Hy as (-> & Hat & H1); [|lia].
    split; [by apply upper_boundary|]. cbn. unfold no_numbers. naive_solver. }
  split; [apply technical_suffix_boundary|by cbn].
Qed.

(** ** Round trip of the [SxxEyy] marker *)

Definition two_digits (n : Z) : str := [48 + n / 10; 48 + n mod 10].
Definition episode_marker (season episode : Z) : str :=
  lit "S" ++ two_digits season ++ lit "E" ++ two_digits episode.

(** The printed name of an episode: title, marker, container. *)
Definition episode_name (title : str) (season episode : Z) : str :=
  title ++ lit "." ++ episode_marker season episode ++ lit ".mkv".

Lemma two_digits_digit n b : 0 <= n <= 99 -> b ∈ two_digits n -> is_ascii_digit b = true.
Proof.
  intros Hn Hb. apply is_ascii_digit_spec. unfold two_digits in Hb.
  pose proof (Z.div_pos n 10 ltac:(lia) ltac:(lia)).
  pose proof (Z.div_lt_upper_bound n 10 10 ltac:(lia) ltac:(lia)).
  pose proof (Z.mod_pos_bound n 10 ltac:(lia)).
  apply elem_of_cons in Hb as [-> | ->%list_elem_of_singleton]; lia.
Qed.

Lemma parse_two_digits n : 0 <= n <= 99 -> parse_digits (two_digits n) = n.
Proof.
  intros Hn. unfold parse_digits, two_digits. cbn [foldl].
  pose proof (Z.div_pos n 10 ltac:(lia) ltac:(lia)).
  pose proof (Z.div_lt_upper_bound n 10 10 ltac:(lia) ltac:(lia)).
  pose proof (Z.mod_pos_bound n 10 ltac:(lia)). pose proof (Z.div_mod n 10 ltac:(lia)).
  replace (48 + n / 10 - 48) with (n / 10) by lia. replace (48 + n mod 10 - 48) with (n mod 10) by lia.
  rewrite (wrap_u_small 32 (0 * 10)), (wrap_u_small 8 (n / 10)), (wrap_u_small 8 (n mod 10)) by lia.
  rewrite (wrap_u_small 32 (0 * 10 + n / 10)) by lia.
  rewrite (wrap_u_small 32 ((0 * 10 + n / 10) * 10)) by lia. rewrite wrap_u_small by lia. lia.
Qed.

Lemma find_map_first {A B} (f : A -> option B) l1 x l2 b :
  Forall (fun y => f y = None) l1 -> f x = Some b -> find_map f (l1 ++ x :: l2) = Some b.
Proof. induction 1 as [|y l1 Hy _ IH]; intros Hx; cbn; [by rewrite Hx|]. rewrite Hy. auto. Qed.

(** Reading a run of digits that ends in front of [rest]. *)
Lemma digits_run p ds rest maximum :
  ds <> [] -> (length ds <= maximum)%nat -> (forall b, b ∈ ds -> is_ascii_digit b = true) ->
  (length ds = maximum \/ match rest with [] => True | b :: _ => is_ascii_digit b = false end) ->
  digits (p ++ ds ++ rest) (length p) 1 maximum = Some (parse_digits ds, (length p + length ds)%nat).
Proof.
  intros Hne Hlen Hd Hstop. unfold digits.
  rewrite (digit_end_stop _ _ _ (length ds)); [|..|done|].
  - replace (length p + length ds - length p)%nat with (length ds) by lia.
    destruct (Nat.leb_spec 1 (length ds)) as [_|H]; [|destruct ds; [done|cbn in H; lia]].
    unfold slice. replace (length p + length ds - length p)%nat with (length ds) by lia.
    by rewrite drop_app_length, take_app_length.
  - intros i Hi. destruct (lookup_lt_is_Some_2 ds (i - length p) ltac:(lia)) as [b Hb].
    exists b. split; [|by apply Hd; apply (list_elem_of_lookup_2 _ _ _ Hb)].
    rewrite lookup_app_r, lookup_app_l by lia. done.
  - destruct Hstop as [?|Hstop]; [by left|right].
    rewrite lookup_app_r, lookup_app_r by lia.
    replace (length p + length ds - length p - length ds)%nat with O by lia. by destruct rest.
Qed.

(** Two strings that agree up to a [.] find the same markers before it. *)
Section Agree.
Context (l1 l2 : str) (n : nat).
Context (Hagree : forall i, (i <= n)%nat -> l1 !! i = l2 !! i) (Hdot : l2 !! n = Some 46).
#[local] Set Default Proof Using "All".

Lemma digit_end_agree room e :
  (e <= n)%nat -> digit_end l1 room e = digit_end l2 room e /\ (digit_end l2 room e <= n)%nat.
Proof.
  revert e. induction room as [|room IH]; intros e He; cbn [digit_end]; [done|].
  rewrite Hagree by done. destruct (l2 !! e) as [b|] eqn:Hb; [|done].
  destruct (is_ascii_digit b) eqn:Hd; [|done]. apply IH.
  destruct (decide (e = n)) as [->|]; [|lia]. rewrite Hdot in Hb. by simplify_eq.
Qed.

Lemma digits_agree start minimum maximum v e :
  (start <= n)%nat -> digits l1 start minimum maximum = Some (v, e) ->
  (e <= n)%nat /\ exists v', digits l2 start minimum maximum = Some (v', e).
Proof.
  intros Hs. unfold digits. destruct (digit_end_agree maximum start Hs) as [-> Hb].
  case_match; [|done]. intros [= _ <-]. eauto.
Qed.

Lemma byte_is_agree i c : (i <= n)%nat -> byte_is l1 i c = byte_is l2 i c.
Proof. intros Hi. unfold byte_is. by rewrite Hagree. Qed.

Lemma byte_is_before i c : (i <= n)%nat -> c <> 46 -> byte_is l2 i c = true -> (i < n)%nat.
Proof.
  intros Hi Hc Hb%byte_is_spec. destruct (decide (i = n)) as [->|]; [|lia].
  rewrite Hdot in Hb. by simplify_eq.
Qed.

Lemma episode_at_agree start :
  (start <= n)%nat -> episode_at l2 start = None -> episode_at l1 start = None.
Proof.
  intros Hs Hnone. destruct (episode_at l1 start) as [m|] eqn:Hm; [exfalso|done].
  unfold episode_at in Hm, Hnone. rewrite byte_is_agree in Hm by done.
  destruct (byte_is l2 start 83) eqn:HS; [cbn [negb] in *|done].
  pose proof (byte_is_before start 83 Hs ltac:(done) HS).
  apply bind_Some in Hm as [[v1 e1] [Hd1 Hm]].
  destruct (digits_agree (start + 1) _ _ _ _ ltac:(lia) Hd1) as (He1 & v1' & Hd1').
  rewrite Hd1' in Hnone. cbn [mbind option_bind] in Hnone. rewrite byte_is_agree in Hm by done.
  destruct (byte_is l2 e1 69) eqn:HE; [cbn [negb] in *|done].
  pose proof (byte_is_before e1 69 He1 ltac:(done) HE).
  apply bind_Some in Hm as [[v2 e2] [Hd2 Hm]].
  destruct (digits_agree (e1 + 1) _ _ _ _ ltac:(lia) Hd2) as (He2 & v2' & Hd2').
  by rewrite Hd2' in Hnone.
Qed.
End Agree.

Lemma episode_at_marker p season episode :
  0 <= season <= 99 -> 0 <= episode <= 99 ->
  episode_at (p ++ episode_marker season episode) (length p)
    = Some (mkEpisodeMarker (length p) season episode None).
Proof.
  intros Hs He. unfold episode_at, episode_marker.
  set (S1 := lit "S"). set (E1 := lit "E").
  rewrite (proj2 (byte_is_spec _ (length p) 83)) by (rewrite lookup_app_r, Nat.sub_diag by lia; done).
  cbn [negb].
  replace (p ++ S1 ++ two_digits season ++ E1 ++ two_digits episode)
    with ((p ++ S1) ++ two_digits season ++ (E1 ++ two_digits episode)) by (by rewrite <- !app_assoc).
  assert (length p + 1 = length (p ++ S1))%nat as -> by (rewrite length_app; done).
  rewrite digits_run; [|done|cbn; lia| |by left]; [|by intros b; apply two_digits_digit].
  cbn [mbind option_bind].
  replace ((p ++ S1) ++ two_digits season ++ (E1 ++ two_digits episode))
    with ((((p ++ S1) ++ two_digits season) ++ E1) ++ two_digits episode ++ []);
    [|by rewrite app_nil_r, <- !app_assoc].
  set (q := (p ++ S1) ++ two_digits season).
  assert (length (p ++ S1) + length (two_digits season) = length q)%nat as ->
    by (unfold q; by rewrite (length_app (p ++ S1))).
  rewrite (proj2 (byte_is_spec _ (length q) 69))
    by (rewrite <- app_assoc, lookup_app_r, Nat.sub_diag by lia; done).
  cbn [negb].
  assert (length q + 1 = length (q ++ E1))%nat as -> by (rewrite length_app; done).
  rewrite digits_run; [|done|cbn; lia| |by right]; [|by intros b; apply two_digits_digit].
  cbn [mbind option_bind]. rewrite !parse_two_digits by done.
  assert (forall c, byte_is ((q ++ E1) ++ two_digits episode ++ [])
                      (length (q ++ E1) + length (two_digits episode)) c = false) as Hend.
  { intros c. apply bool_decide_eq_false. rewrite lookup_ge_None_2; [done|].
    rewrite !length_app. cbn. lia. }
  rewrite !Hend. rewrite !wrap_u_small by lia. done.
Qed.

Lemma upper_marker season episode :
  0 <= season <= 99 -> 0 <= episode <= 99 ->
  to_ascii_uppercase (episode_marker season episode) = episode_marker season episode.
Proof.
  intros Hs He. unfold episode_marker, to_ascii_uppercase. rewrite !map_app.
  assert (forall n, 0 <= n <= 99 -> map byte_to_ascii_uppercase (two_digits n) = two_digits n) as H.
  { intros n Hn. rewrite <- (map_id (two_digits n)) at 2. apply map_ext_in. intros b Hb.
    apply list_elem_of_In, (two_digits_digit _ _ Hn), is_ascii_digit_spec in Hb.
    unfold byte_to_ascii_uppercase, is_ascii_lower. destruct (Z.leb_spec 97 b); [lia|done]. }
  by rewrite !H.
Qed.

Lemma last_component_id s : Forall (fun b => is_separator b = false) s -> last_component s = s.
Proof.
  induction 1 as [|b s Hb Hs IH]; [done|]. cbn [last_component].
  assert (existsb is_separator s = false) as ->; [|by rewrite Hb].
  clear -Hs. induction Hs as [|c s Hc _ IH]; [done|]. cbn. by rewrite Hc.
Qed.

Lemma rsplit_once_last a c b : c ∉ b -> rsplit_once c (a ++ c :: b) = Some (a, b).
Proof.
  intros Hb. assert (rsplit_once c b = None) as Hn.
  { induction b as [|x b IH]; [done|]. apply not_elem_of_cons in Hb as [Hx Hb]. cbn.
    rewrite IH by done. by destruct (Z.eqb_spec x c). }
  induction a as [|x a IH]; cbn; [by rewrite Hn, Z.eqb_refl|by rewrite IH].
Qed.

Definition plain_title (title : str) : Prop :=
  Forall (fun b => is_separator b = false) title /\
  find_episode (to_ascii_uppercase (title ++ lit ".")) = None.

Lemma episode_name_leaf title season episode :
  0 <= season <= 99 -> 0 <= episode <= 99 -> plain_title title ->
  leaf_without_extension (episode_name title season episode)
    = (title ++ lit ".") ++ episode_marker season episode.
Proof.
  intros Hs He [Hsep _]. unfold leaf_without_extension, episode_name.
  assert (forall n, 0 <= n <= 99 -> Forall (fun b => is_separator b = false) (two_digits n)) as H2.
  { intros n Hn. apply Forall_forall. intros b Hb%(two_digits_digit _ _ Hn)%is_ascii_digit_spec.
    unfold is_separator. apply orb_false_iff. rewrite !Z.eqb_neq. lia. }
  rewrite last_component_id.
  2: { unfold episode_marker. rewrite !Forall_app. split_and!; auto; by apply Forall_forall;
         intros b Hb; repeat (apply elem_of_cons in Hb as [->|Hb]; [done|]); apply not_elem_of_nil in Hb. }
  replace (title ++ lit "." ++ episode_marker season episode ++ lit ".mkv")
    with (((title ++ lit ".") ++ episode_marker season episode) ++ 46 :: lit "mkv")
    by (by rewrite <- !app_assoc).
  rewrite rsplit_once_last; [done|]. cbn. set_solver.
Qed.

Lemma find_episode_name title season episode :
  0 <= season <= 99 -> 0 <= episode <= 99 -> plain_title title ->
  find_episode (to_ascii_uppercase ((title ++ lit ".") ++ episode_marker season episode))
    = Some (mkEpisodeMarker (length (title ++ lit ".")) season episode None).
Proof.
  intros Hs He [_ Hno]. change (lit ".") with [46] in *. unfold to_ascii_uppercase in *.
  rewrite map_app. fold (to_ascii_uppercase (episode_marker season episode)).
  rewrite upper_marker by done. rewrite map_app in *.
  change (map byte_to_ascii_uppercase [46]) with [46] in *.
  set (t := map byte_to_ascii_uppercase title) in *.
  assert (length (title ++ [46]) = length (t ++ [46])) as ->
    by (unfold t; by rewrite !length_app, length_map).
  unfold find_episode in *.
  rewrite (length_app (t ++ [46])), seq_app. cbn [Nat.add].
  change (length (episode_marker season episode)) with 6%nat. cbn [seq].
  apply find_map_first; [|by apply episode_at_marker].
  apply find_map_None in Hno. rewrite Forall_forall in *. intros i Hi.
  apply (episode_at_agree _ (t ++ [46]) (length t)).
  - intros k Hk. rewrite lookup_app_l; [done|]. rewrite length_app. cbn. lia.
  - rewrite lookup_app_r, Nat.sub_diag by lia. done.
  - apply elem_of_seq in Hi. rewrite length_app in Hi. cbn in Hi. lia.
  - by apply Hno.
Qed.

(** ** Properties *)

(** A normalised title is the maximal alphanumeric runs of the lower-cased NFC input
    joined by single spaces: no leading, trailing or doubled separator. *)
Theorem normalize_title_words {U : Unicode} (value : str) :
  let ws := words (flat_map to_lowercase (nfc (chars value))) in
  normalize_title value = string_of_chars (join_on 32 ws) /\ Forall word ws.
Proof.
  cbn zeta. split.
  - unfold normalize_title. by rewrite normalize_chars_words.
  - by apply runs_words.
Qed.

(** Normalising a normalised ASCII title changes nothing, so a title compares equal to
    its stored form however often it is normalised. *)
Theorem normalize_title_idempotent {U : Unicode} (UL : UnicodeLaws U) (value : str) :
  ascii value -> normalize_title (normalize_title value) = normalize_title value.
Proof.
  intros Ha.
  assert (ascii (normalize_title value)) as Hn.
  { apply Forall_forall. intros c Hc. by apply (normalize_title_ascii_chars value c Ha). }
  rewrite (normalize_title_ascii (normalize_title value) Hn).
  assert (to_ascii_lowercase (normalize_title value) = normalize_title value) as ->.
  { rewrite <- (map_id (normalize_title value)) at 2. apply map_ext_in. intros c Hc.
    apply list_elem_of_In in Hc. by apply (normalize_title_ascii_chars value c Ha). }
  rewrite (normalize_title_ascii value Ha). f_equal. apply words_join.
  - by rewrite is_alphanumeric_ascii.
  - by apply runs_words.
Qed.

Lemma normalize_title_idempotent_witness :
  ascii (lit " The.Show (2024)--") /\
  normalize_title (U := ascii_unicode) (lit "the show 2024") = lit "the show 2024".
Proof.
  assert (ascii (lit " The.Show (2024)--")) as Ha by (repeat constructor; lia).
  split; [exact Ha|].
  exact (normalize_title_idempotent ascii_unicode_laws (lit " The.Show (2024)--") Ha).
Defined.

(** C31: every descriptor the parser returns carries exactly the fields of its video kind,
    with season at most 99, episodes at most 999, absolute episodes at most 9999, years in
    1900..2099 and calendar-valid dates. *)
Theorem parse_release_invariant {U : Unicode} (value : str) :
  release_invariant (parse_release value).
Proof. exact (proj2 (classify_ok (leaf_without_extension value))). Qed.

(** The byte offset at which the parser cuts the title never exceeds the name and is a
    character boundary, so the slice [&name[..marker]] cannot panic on any input. *)
Theorem parse_release_slice_safe (value : str) :
  let name := leaf_without_extension value in
  (cl_marker (classify name) <= length name)%nat /\
  is_char_boundary name (cl_marker (classify name)) = true.
Proof. cbn zeta. split; apply classify_ok. Qed.

Lemma parse_episode_name {U : Unicode} title season episode :
  0 <= season <= 99 -> 0 <= episode <= 99 -> plain_title title ->
  let d := parse_release (episode_name title season episode) in
  rd_kind d = Episode /\ rd_season d = Some season /\ rd_episode d = Some episode /\
  rd_episode_end d = None /\ rd_primary_title d = normalize_title (title ++ lit ".").
Proof.
  intros Hs He Ht. cbn zeta. unfold parse_release.
  rewrite episode_name_leaf by done. unfold classify at 1 2 3 4 5 6 7.
  rewrite find_episode_name by done. cbn [em_start em_season em_episode em_episode_end].
  unfold classify. rewrite find_episode_name by done.
  cbn [em_start em_season em_episode em_episode_end cl_kind cl_marker cl_season cl_episode
       cl_episode_end cl_year cl_air_date cl_absolute]. rewrite take_app_length. done.
Qed.

(** C32: parsing a printed episode name recovers title, season and episode, and yields the
    single episode key the matcher compares. *)
Theorem episode_name_roundtrip {U : Unicode} title season episode :
  0 <= season <= 99 -> 0 <= episode <= 99 -> plain_title title ->
  let d := parse_release (episode_name title season episode) in
  rd_kind d = Episode /\ rd_season d = Some season /\ rd_episode d = Some episode /\
  rd_primary_title d = normalize_title (title ++ lit ".") /\
  episode_keys (episode_name title season episode) = [KeySeason season episode].
Proof.
  intros Hs He Ht. destruct (parse_episode_name title season episode Hs He Ht) as (H1 & H2 & H3 & H4 & H5).
  cbn zeta. split_and!; [done..|]. unfold episode_keys. rewrite H1, H2, H3, H4.
  cbn [default from_option]. unfold range_inclusive. replace (episode - episode + 1) with 1 by lia.
  change (seq 0 (Z.to_nat 1)) with [O]. cbn [map]. by rewrite Z.add_0_r.
Qed.

Lemma episode_name_roundtrip_witness :
  plain_title (lit "Silo.Season.Show") /\
  episode_keys (U := ascii_unicode) (lit "Silo.Season.Show.S02E03.mkv") = [KeySeason 2 3].
Proof.
  assert (plain_title (lit "Silo.Season.Show")) as Ht.
  { split; [|vm_compute; reflexivity]. repeat constructor. }
  split; [exact Ht|].
  destruct (episode_name_roundtrip (U := ascii_unicode) (lit "Silo.Season.Show") 2 3
              ltac:(lia) ltac:(lia) Ht) as (_ & _ & _ & _ & H). exact H.
Defined.

Lemma elem_of_range_inclusive first last x :
  x ∈ range_inclusive first last <-> first <= x <= last.
Proof.
  unfold range_inclusive. rewrite list_elem_of_fmap. split.
  - intros (k & -> & Hk%elem_of_seq). lia.
  - intros Hx. exists (Z.to_nat (x - first)). rewrite elem_of_seq. lia.
Qed.

(** The keys of a name are exactly the episodes between its first and last episode
    number, its date, or its absolute number; there are at most a thousand of them. *)
Theorem episode_keys_spec {U : Unicode} (value : str) (key : EpisodeKey) :
  let d := parse_release value in
  (key ∈ episode_keys value <->
   match key with
   | KeySeason season episode =>
       rd_kind d = Episode /\ rd_season d = Some season /\
       exists first, rd_episode d = Some first /\
         first <= episode <= default first (rd_episode_end d)
   | KeyDate date => rd_kind d = DateEpisode /\ rd_air_date d = Some date
   | KeyAbsolute episode => rd_kind d = AbsoluteEpisode /\ rd_absolute_episode d = Some episode
   end) /\ (length (episode_keys value) <= 1000)%nat.
Proof.
  cbn zeta. unfold episode_keys.
  assert (release_invariant (parse_release value)) as Hinv
    by exact (proj2 (classify_ok (leaf_without_extension value))).
  set (d := parse_release value) in *. unfold release_invariant in Hinv.
  assert (forall k, k ∈ @nil EpisodeKey <-> False) as Hnil.
  { intros k. split; [by intros ?%not_elem_of_nil|done]. }
  destruct (rd_kind d); try (split; [rewrite Hnil; destruct key; naive_solver|cbn; lia]).
  - destruct Hinv as ((s & e & -> & Hs & -> & He) & Hend & _). split.
    + rewrite list_elem_of_fmap. setoid_rewrite elem_of_range_inclusive.
      destruct key; naive_solver.
    + unfold range_inclusive. rewrite !length_map, length_seq.
      destruct (rd_episode_end d) as [l|]; cbn; [specialize (Hend l eq_refl)|]; lia.
  - destruct Hinv as ((date & -> & _) & _). split; [|cbn; lia].
    rewrite list_elem_of_singleton. destruct key; naive_solver.
  - destruct Hinv as ((e & -> & _) & _). split; [|cbn; lia].
    rewrite list_elem_of_singleton. destruct key; naive_solver.
Qed.
