(* ===== verification/Assignment.v ===== *)
(** [optimal_assignment] of [crates/sporos-matcher/src/matcher.rs]: maximum-weight matching
    of a component, with or without a banned edge.

    [None] stands for the [assert!]/[expect] panics (and for a run [hungarian] would not
    finish).  The specification side is [matching]: a set of edges, no two of which share a
    row or a column.  [optimal_assignment_spec] refines the code to that specification by
    turning matchings into assignments with one private dummy column per row; [unambiguous]
    is the uniqueness test of [assign_with], and [unambiguous_unique] what it decides. *)

From S2P Require Import Prelude Hungarian.

Local Open Scope Z_scope.

(** ** Definitions *)

Definition u128_add (a b : Z) : Z := wrap_u 128 (a + b).
Definition u128_mul (a b : Z) : Z := wrap_u 128 (a * b).

(** [banned == Some((row, column))] *)
Definition is_banned (banned : option (nat * nat)) (row column : nat) : bool :=
  bool_decide (banned = Some (row, column)).

Section Code.
Context (weights : list (list (option Z))).

(** [weights[row][column]] *)
Definition cell (row column : nat) : option (option Z) :=
  values ← weights !! row;
  values !! column.

(** [weights.first().map_or(0, Vec::len)] *)
Definition source_columns : nat := match weights with [] => O | row :: _ => length row end.

(** What the two nested [iter().enumerate()] yield *)
Definition cells : list (nat * nat * option Z) :=
  concat (imap (fun row values => imap (fun column weight => (row, column, weight)) values) weights).

Definition maximum (banned : option (nat * nat)) : Z :=
  foldl (fun maximum '(row, column, weight) =>
           if is_banned banned row column then maximum
           else Z.max maximum (default 0 weight)) 0 cells.

(** [costs[row][column]]: [-i128::try_from(..).expect(..)], or the initial 0 *)
Definition cost_entry (banned : option (nat * nat)) (row column : nat) : option Z :=
  if (column <? source_columns)%nat && negb (is_banned banned row column) then
    weight ← cell row column;
    let weight := default 0 weight in
    if weight <=? i128_max then Some (- weight) else None
  else Some 0.

Definition cost_rows (banned : option (nat * nat)) : option (list (list Z)) :=
  mapM (fun row => mapM (cost_entry banned row) (seq 0 (source_columns + length weights)))
    (seq 0 (length weights)).

(** [(column < source_columns && banned != .. && weights[row][column].is_some()).then_some(..)] *)
Definition selects (banned : option (nat * nat)) (row column : nat) : option bool :=
  if (column <? source_columns)%nat && negb (is_banned banned row column) then
    weight ← cell row column;
    Some (bool_decide (is_Some weight))
  else Some false.

Fixpoint select_pairs (banned : option (nat * nat)) (assignment : list (nat * nat))
    : option (list (nat * nat)) :=
  match assignment with
  | [] => Some []
  | (row, column) :: assignment =>
      selected ← selects banned row column;
      pairs ← select_pairs banned assignment;
      Some (if (selected : bool) then (row, column) :: pairs else pairs)
  end.

(** [weights[row][column].expect(..)], summed *)
Definition add_weight (total : Z) (edge : nat * nat) : option Z :=
  weight ← cell edge.1 edge.2;
  weight ← weight;
  Some (u128_add total weight).

Definition optimal_assignment (banned : option (nat * nat)) : option (Z * list (nat * nat)) :=
  match weights with
  | [] => Some (0, [])
  | _ =>
      if negb (maximum banned <=? i128_max) then None else
      costs ← cost_rows banned;
      assignment ← hungarian costs;
      pairs ← select_pairs banned (zip (seq 0 (length assignment)) assignment);
      total ← fold_opt add_weight 0 pairs;
      Some (total, pairs)
  end.

(** [selected.iter().any(|e| optimal_assignment(&weights, Some(e)).0 == total)] *)
Fixpoint any_alternative (total : Z) (selected : list (nat * nat)) : option bool :=
  match selected with
  | [] => Some false
  | edge :: selected =>
      '(alternative, _) ← optimal_assignment (Some edge);
      if alternative =? total then Some true else any_alternative total selected
  end.
End Code.

Example optimal_assignment_run :
  optimal_assignment [[Some 10; Some 9]; [Some 9; None]] None = Some (18, [(0, 1); (1, 0)]%nat).
Proof. vm_compute. reflexivity. Qed.
Example any_alternative_run :
  any_alternative [[Some 10; Some 10]] 10 [(0, 0)]%nat = Some true.
Proof. vm_compute. reflexivity. Qed.

(** ** The same without bounds checks *)

Section Unchecked.
Context (weights : list (list (option Z))).

Definition weight_at (row column : nat) : option Z := (weights !!! row) !!! column.

Definition costs (banned : option (nat * nat)) : list (list Z) :=
  map (fun row =>
         map (fun column =>
                if (column <? source_columns weights)%nat && negb (is_banned banned row column)
                then - default 0 (weight_at row column) else 0)
             (seq 0 (source_columns weights + length weights)))
      (seq 0 (length weights)).

Definition picks (banned : option (nat * nat)) (row column : nat) : bool :=
  (column <? source_columns weights)%nat && negb (is_banned banned row column)
  && bool_decide (is_Some (weight_at row column)).
End Unchecked.

(** ** Specification *)

Section Spec.
Context (weights : list (list (option Z))).

(** Edges that may be chosen, one per row and per column. *)
Definition matching (banned : option (nat * nat)) (M : list (nat * nat)) : Prop :=
  NoDup (map fst M) /\ NoDup (map snd M) /\
  forall row column, (row, column) ∈ M ->
    (row < length weights)%nat /\ (column < source_columns weights)%nat /\
    is_Some (weight_at weights row column) /\ banned <> Some (row, column).

Definition weight (M : list (nat * nat)) : Z :=
  sum_Z (map (fun '(row, column) => default 0 (weight_at weights row column)) M).

(** What the matcher builds: a rectangular matrix of positive bounded weights. *)
Definition weight_matrix (W : Z) : Prop :=
  Forall (fun row => length row = source_columns weights /\
                     Forall (fun w => forall x, w = Some x -> 0 < x <= W) row) weights /\
  0 <= W /\ (Z.of_nat (length weights) + 4) * W <= i128_max.
End Spec.

Lemma fold_u128 l acc :
  Forall (fun x => 0 <= x) l -> 0 <= acc -> acc + sum_Z l <= u128_max ->
  foldl u128_add acc l = acc + sum_Z l.
Proof.
  intros Hl. revert acc. induction Hl as [|x l Hx Hl IH]; intros acc Hacc Hs; cbn [foldl].
  - by rewrite Z.add_0_r.
  - rewrite sum_Z_cons in *. pose proof (sum_Z_nonneg l Hl).
    assert (u128_add acc x = acc + x) as ->.
    { unfold u128_add. apply wrap_u_small. unfold u128_max in Hs. lia. }
    rewrite IH; lia.
Qed.

(** ** From matchings to assignments and back *)

Section Proofs.
Context (weights : list (list (option Z))) (W : Z) (HW : weight_matrix weights W).
#[local] Set Default Proof Using "All".

Notation n := (length weights).
Notation k := (source_columns weights).

Lemma weight_bound row column x :
  (row < n)%nat -> (column < k)%nat -> weight_at weights row column = Some x -> 0 < x <= W.
Proof.
  intros Hr Hc Hx. destruct HW as (Hrows & _ & _). rewrite Forall_forall in Hrows.
  destruct (Hrows (weights !!! row)) as [Hlen Hb]; [by apply list_elem_of_lookup_total_2|].
  rewrite Forall_forall in Hb. apply (Hb (weight_at weights row column)); [|done].
  unfold weight_at. apply list_elem_of_lookup_total_2. lia.
Qed.

Lemma default_bound row column :
  (row < n)%nat -> (column < k)%nat -> 0 <= default 0 (weight_at weights row column) <= W.
Proof.
  intros Hr Hc. destruct (weight_at weights row column) as [x|] eqn:Hx; cbn.
  - pose proof (weight_bound _ _ _ Hr Hc Hx). unfold id. lia.
  - destruct HW as (_ & ? & _). lia.
Qed.

Lemma maximum_bound banned : maximum weights banned <= W.
Proof.
  unfold maximum. destruct HW as (Hrows & HW0 & _).
  assert (Forall (fun e : nat * nat * option Z => default 0 e.2 <= W) (cells weights)) as Hcells.
  { apply Forall_concat, Forall_forall. intros l Hl.
    apply elem_of_lookup_imap in Hl as (row & values & -> & Hv).
    apply list_elem_of_lookup_2 in Hv. rewrite Forall_forall in Hrows.
    destruct (Hrows values Hv) as [_ Hb]. apply Forall_forall. intros e He.
    apply elem_of_lookup_imap in He as (column & w & -> & Hw). apply list_elem_of_lookup_2 in Hw.
    rewrite Forall_forall in Hb. cbn. destruct w as [x|]; cbn; [|done].
    destruct (Hb _ Hw x eq_refl). done. }
  enough (forall acc, acc <= W ->
    foldl (fun maximum '(row, column, weight) =>
             if is_banned banned row column then maximum
             else Z.max maximum (default 0 weight)) acc (cells weights) <= W) as H by by apply H.
  induction Hcells as [|[[row column] w] l Hw Hl IH]; intros acc Hacc; cbn [foldl]; [done|].
  apply IH. case_match; [done|]. cbn in Hw. lia.
Qed.

Lemma length_costs banned : length (costs weights banned) = n.
Proof. unfold costs. by rewrite length_map, length_seq. Qed.

Lemma cost_costs banned row column :
  (row < n)%nat -> (column < k + n)%nat ->
  cost (costs weights banned) row column
    = if (column <? k)%nat && negb (is_banned banned row column)
      then - default 0 (weight_at weights row column) else 0.
Proof.
  intros Hr Hc. unfold cost, costs.
  rewrite (list_lookup_total_correct _ row
    (map (fun column => if (column <? k)%nat && negb (is_banned banned row column)
                        then - default 0 (weight_at weights row column) else 0) (seq 0 (k + n)))).
  2: { rewrite list_lookup_fmap, lookup_seq_lt by done. done. }
  apply list_lookup_total_correct. rewrite list_lookup_fmap, lookup_seq_lt by done. done.
Qed.

Lemma cell_weight_at row column :
  (row < n)%nat -> (column < k)%nat ->
  cell weights row column = Some (weight_at weights row column).
Proof.
  intros Hr Hc. destruct HW as (Hrows & _ & _). rewrite Forall_forall in Hrows.
  destruct (Hrows (weights !!! row)) as [Hlen _]; [by apply list_elem_of_lookup_total_2|].
  unfold cell, weight_at. rewrite (list_lookup_lookup_total_lt weights) by done.
  cbn [mbind option_bind]. apply list_lookup_lookup_total_lt. lia.
Qed.

Lemma weight_fits : W <= i128_max.
Proof. destruct HW as (_ & ? & ?); nia. Qed.

Lemma cost_rows_eq banned : cost_rows weights banned = Some (costs weights banned).
Proof.
  apply mapM_Some, Forall2_fmap_r, Forall_Forall2_diag, Forall_forall.
  intros row Hrow%elem_of_seq. unfold compose.
  apply mapM_Some, Forall2_fmap_r, Forall_Forall2_diag, Forall_forall.
  intros column _. unfold compose, cost_entry. destruct (_ && _) eqn:Hb; [|done].
  apply andb_true_iff in Hb as [Hc%Nat.ltb_lt _].
  rewrite (cell_weight_at row column) by lia. cbn [mbind option_bind].
  pose proof (default_bound row column ltac:(lia) Hc). pose proof weight_fits.
  by rewrite (proj2 (Z.leb_le _ _)) by lia.
Qed.

Lemma costs_cost_matrix banned : weights <> [] -> cost_matrix (costs weights banned) (k + n) W.
Proof.
  intros Hne. unfold cost_matrix. rewrite length_costs.
  destruct HW as (_ & HW0 & Hfit). split_and!; [|lia| |done].
  - intros Hnil. apply (f_equal length) in Hnil. rewrite length_costs in Hnil.
    destruct weights; [done|cbn in Hnil; lia].
  - apply Forall_forall. unfold costs. intros row' (row & -> & Hrow%elem_of_seq)%list_elem_of_fmap.
    split; [by rewrite length_map, length_seq|].
    apply Forall_forall. intros c (column & -> & Hcol%elem_of_seq)%list_elem_of_fmap.
    case_match eqn:Hc; [|lia]. apply andb_true_iff in Hc as [Hlt%Nat.ltb_lt _].
    pose proof (default_bound row column ltac:(lia) Hlt). lia.
Qed.

(** The assignment that realises a matching: unmatched rows take their dummy column. *)
Definition partner (M : list (nat * nat)) (row : nat) : nat :=
  match list_find (fun e => fst e = row) M with
  | Some (_, (_, column)) => column
  | None => (k + row)%nat
  end.

Definition assignment_of (M : list (nat * nat)) : list nat := map (partner M) (seq 0 n).

Lemma partner_in M row column :
  NoDup (map fst M) -> (row, column) ∈ M -> partner M row = column.
Proof.
  intros Hnd Hin. unfold partner. destruct (list_find _ M) as [[i [r c]]|] eqn:Hf.
  - apply list_find_Some in Hf as (Hi & Hr & _). cbn in Hr. subst r.
    apply list_elem_of_lookup in Hin as [j Hj].
    assert (i = j) as ->; [|congruence].
    eapply (NoDup_lookup (map fst M)); [done|..];
      rewrite list_lookup_fmap; [rewrite Hi|rewrite Hj]; done.
  - apply list_find_None in Hf. rewrite Forall_forall in Hf. by destruct (Hf _ Hin).
Qed.

Lemma partner_cases M row :
  (row, partner M row) ∈ M \/ (partner M row = (k + row)%nat /\ row ∉ map fst M).
Proof.
  unfold partner. destruct (list_find _ M) as [[i [r c]]|] eqn:Hf.
  - left. apply list_find_Some in Hf as (Hi & Hr & _). cbn in Hr. subst r.
    by apply list_elem_of_lookup_2 in Hi.
  - right. split; [done|]. apply list_find_None in Hf. rewrite Forall_forall in Hf.
    intros ([r c] & -> & Hin)%list_elem_of_fmap. by destruct (Hf _ Hin).
Qed.

Lemma lookup_assignment_of M row : (row < n)%nat -> assignment_of M !!! row = partner M row.
Proof.
  intros Hr. apply list_lookup_total_correct. unfold assignment_of.
  rewrite list_lookup_fmap, lookup_seq_lt by done. done.
Qed.

Lemma assignment_of_ok banned M :
  matching weights banned M -> is_assignment n (k + n) (assignment_of M).
Proof.
  intros (Hfst & Hsnd & Hin). unfold assignment_of. split_and!.
  - by rewrite length_map, length_seq.
  - apply NoDup_fmap_2_strong; [|apply NoDup_seq]. intros r1 r2 H1 H2 He.
    apply elem_of_seq in H1, H2.
    destruct (partner_cases M r1) as [P1|[P1 _]], (partner_cases M r2) as [P2|[P2 _]].
    + rewrite He in P1. apply list_elem_of_lookup in P1 as [i Hi], P2 as [j Hj].
      assert (i = j) as ->; [|congruence].
      eapply (NoDup_lookup (map snd M)); [done|..];
        rewrite list_lookup_fmap; [rewrite Hi|rewrite Hj]; done.
    + apply Hin in P1 as (_ & P1 & _). lia.
    + apply Hin in P2 as (_ & P2 & _). lia.
    + lia.
  - apply Forall_forall. intros c (row & -> & Hr%elem_of_seq)%list_elem_of_fmap.
    destruct (partner_cases M row) as [P|[-> _]]; [apply Hin in P|]; lia.
Qed.

(** Sums over rows and over the edges of a matching. *)
Lemma sum_partner banned M :
  matching weights banned M ->
  total (costs weights banned) n (assignment_of M) = - weight weights M.
Proof.
  intros HM. pose proof HM as (Hfst & Hsnd & Hin). unfold total.
  set (g := fun row : nat => if decide (row ∈ map fst M)
               then - default 0 (weight_at weights row (partner M row)) else 0).
  transitivity (sum_Z (map g (seq 0 n))).
  { apply sum_Z_map_ext. intros row Hr%elem_of_seq. rewrite lookup_assignment_of by lia.
    unfold g. destruct (partner_cases M row) as [P|[P Hni]].
    - pose proof (Hin _ _ P) as (H1 & H2 & H3 & H4). rewrite cost_costs by lia.
      rewrite (proj2 (Nat.ltb_lt _ _) H2). unfold is_banned.
      rewrite bool_decide_eq_false_2 by done. cbn [andb negb].
      rewrite decide_True; [done|]. apply list_elem_of_fmap. by exists (row, partner M row).
    - rewrite P, decide_False, cost_costs by (lia || done).
      destruct (Nat.ltb_spec (k + row) k); [lia|done]. }
  destruct (submseteq_Permutation (map fst M) (seq 0 n)) as [rest Hrest].
  { apply NoDup_submseteq; [done|]. intros row ([r c] & -> & Hrc)%list_elem_of_fmap.
    apply elem_of_seq. destruct (Hin _ _ Hrc). cbn. lia. }
  rewrite (sum_Z_Permutation _ _ (Permutation_map g Hrest)), map_app, sum_Z_app.
  assert (sum_Z (map g rest) = 0) as ->.
  { assert (forall r, r ∈ rest -> r ∉ map fst M) as Hd.
    { assert (NoDup (map fst M ++ rest)) as Hnd by (rewrite <- Hrest; apply NoDup_seq).
      apply NoDup_app in Hnd as (_ & Hd & _). intros r Hr Hf. by apply (Hd r). }
    clear Hrest. induction rest as [|r rest IH]; [done|]. cbn [map]. rewrite sum_Z_cons, IH.
    - unfold g. rewrite decide_False; [done|]. apply Hd. left.
    - intros. apply Hd. by right. }
  unfold weight. rewrite Z.add_0_r, <- sum_Z_map_opp. f_equal. rewrite map_map.
  apply map_ext_in. intros [r c] Hrc%list_elem_of_In. unfold g. cbn [fst].
  rewrite decide_True by (apply list_elem_of_fmap; by exists (r, c)).
  by rewrite (partner_in M r c).
Qed.

(** The edges the code reads off an assignment. *)
Definition pairs_of (banned : option (nat * nat)) (a : list nat) : list (nat * nat) :=
  omap (fun '(row, column) => if picks weights banned row column then Some (row, column) else None)
       (zip (seq 0 (length a)) a).

Lemma selects_eq banned row column :
  (row < n)%nat -> selects weights banned row column = Some (picks weights banned row column).
Proof.
  intros Hr. unfold selects, picks. destruct (_ && _) eqn:Hb; [|done].
  apply andb_true_iff in Hb as [Hc%Nat.ltb_lt _]. by rewrite cell_weight_at.
Qed.

Lemma select_pairs_eq banned a :
  (length a <= n)%nat ->
  select_pairs weights banned (zip (seq 0 (length a)) a) = Some (pairs_of banned a).
Proof.
  intros Ha. unfold pairs_of.
  assert (Forall (fun e : nat * nat => (e.1 < n)%nat) (zip (seq 0 (length a)) a)) as Hl.
  { apply Forall_forall. intros [r c] Hin%elem_of_zip_l%elem_of_seq. cbn. lia. }
  induction Hl as [|[r c] l Hr Hl IH]; [done|]. cbn [select_pairs omap list_omap].
  rewrite selects_eq by exact Hr. cbn [mbind option_bind]. rewrite IH. cbn [mbind option_bind].
  by destruct (picks weights banned r c).
Qed.

Lemma add_weights_eq banned M :
  matching weights banned M ->
  fold_opt (add_weight weights) 0 M
  = Some (foldl u128_add 0 (map (fun '(r, c) => default 0 (weight_at weights r c)) M)).
Proof.
  intros (_ & _ & HM).
  enough (forall acc, fold_opt (add_weight weights) acc M
    = Some (foldl u128_add acc (map (fun '(r, c) => default 0 (weight_at weights r c)) M))) as H
    by apply H.
  induction M as [|[r c] M IH]; intros acc; [done|]. cbn [fold_opt foldl map].
  destruct (HM r c ltac:(left)) as (Hr & Hc & [x Hx] & _).
  unfold add_weight at 1. cbn [fst snd]. rewrite cell_weight_at by done. cbn [mbind option_bind].
  rewrite Hx. cbn [mbind option_bind]. apply IH. intros; apply HM. by right.
Qed.

Lemma elem_of_pairs_of banned a row column :
  (row, column) ∈ pairs_of banned a <-> a !! row = Some column /\ picks weights banned row column = true.
Proof.
  unfold pairs_of. rewrite list_elem_of_omap. split.
  - intros ([r c] & Hz & He). case_match; [|done]. injection He as -> ->. split; [|done].
    apply list_elem_of_lookup in Hz as [i Hi]. rewrite lookup_zip_with in Hi.
    destruct (seq 0 (length a) !! i) as [j|] eqn:Hj; [|done]. cbn in Hi.
    apply lookup_seq in Hj as [-> _]. destruct (a !! i) eqn:Ha; [|done]. cbn in Hi.
    injection Hi as -> ->. done.
  - intros [Ha Hs]. exists (row, column). rewrite Hs. split; [|done].
    apply list_elem_of_lookup. exists row. rewrite lookup_zip_with.
    rewrite lookup_seq_lt by (by eapply lookup_lt_Some). cbn. by rewrite Ha.
Qed.

Lemma pairs_of_matching banned a :
  is_assignment n (k + n) a -> matching weights banned (pairs_of banned a).
Proof.
  intros (Hlen & Hnd & Hlt). split_and!.
  - assert (map fst (pairs_of banned a) `sublist_of` seq 0 (length a)) as Hsub.
    { unfold pairs_of. generalize 0%nat. clear.
      induction a as [|c a IH]; intros i; [done|]. cbn [length seq zip_with zip omap list_omap].
      destruct (picks weights banned i c); [by apply sublist_skip|by apply sublist_cons]. }
    eapply sublist_NoDup; [apply NoDup_seq|exact Hsub].
  - assert (map snd (pairs_of banned a) `sublist_of` a) as Hsub.
    { unfold pairs_of. generalize 0%nat. clear.
      induction a as [|c a IH]; intros i; [done|]. cbn [length seq zip_with zip omap list_omap].
      destruct (picks weights banned i c); [by apply sublist_skip|by apply sublist_cons]. }
    by eapply sublist_NoDup.
  - intros row column [Ha Hs]%elem_of_pairs_of. unfold picks in Hs.
    apply andb_true_iff in Hs as [[H1%Nat.ltb_lt H2]%andb_true_iff H3%bool_decide_eq_true].
    pose proof (lookup_lt_Some _ _ _ Ha). split_and!; [lia|done|done|].
    intros Hb. unfold is_banned in H2. rewrite bool_decide_eq_true_2 in H2 by done. done.
Qed.

Lemma map_zip_seq {B} (h : nat -> nat -> B) (a : list nat) :
  map (fun i => h i (a !!! i)) (seq 0 (length a))
    = map (fun '(i, c) => h i c) (zip (seq 0 (length a)) a).
Proof.
  apply list_eq. intros i. rewrite !list_lookup_fmap, lookup_zip_with.
  destruct (decide (i < length a)%nat) as [Hi|Hi].
  - rewrite lookup_seq_lt by done. destruct (lookup_lt_is_Some_2 a i Hi) as [c Hc].
    cbn. rewrite Hc. cbn. by rewrite (list_lookup_total_correct _ _ _ Hc).
  - rewrite (lookup_ge_None_2 (seq 0 (length a))) by (rewrite length_seq; lia). done.
Qed.

Lemma sum_pairs_of banned a :
  is_assignment n (k + n) a ->
  total (costs weights banned) n a = - weight weights (pairs_of banned a).
Proof.
  intros (Hlen & _ & Hlt). unfold total. rewrite <- Hlen.
  rewrite (map_zip_seq (fun i c => cost (costs weights banned) i c)).
  transitivity (sum_Z (map (fun '(i, c) => if picks weights banned i c
                  then - default 0 (weight_at weights i c) else 0) (zip (seq 0 (length a)) a))).
  - apply sum_Z_map_ext. intros [i c] Hic. apply list_elem_of_lookup in Hic as [j Hj].
    rewrite lookup_zip_with in Hj. destruct (seq 0 (length a) !! j) as [j'|] eqn:Hs; [|done].
    apply lookup_seq in Hs as [-> Hjlt]. cbn in Hj. destruct (a !! j) eqn:Ha; [|done].
    cbn in Hj. injection Hj as <- ->. rewrite Forall_forall in Hlt.
    rewrite cost_costs by (lia || by apply Hlt, (list_elem_of_lookup_2 _ _ _ Ha)).
    unfold picks. destruct (_ && negb _); [|done]. cbn [andb].
    destruct (weight_at weights j c); [done|]. by rewrite bool_decide_eq_false_2 by by intros [].
  - unfold weight, pairs_of. generalize (zip (seq 0 (length a)) a). clear.
    induction l as [|[i c] l IH]; [done|]. cbn [map omap list_omap]. rewrite sum_Z_cons, IH.
    destruct (picks weights banned i c); [|lia]. cbn [map]. rewrite sum_Z_cons. lia.
Qed.

Lemma weight_bounds banned M :
  matching weights banned M -> 0 <= weight weights M <= Z.of_nat n * W.
Proof.
  intros (Hfst & _ & Hin).
  assert (length M <= n)%nat as Hlen.
  { rewrite <- (length_map fst M), <- (length_seq n 0). apply submseteq_length, NoDup_submseteq; [done|].
    intros r ([r' c] & -> & Hrc)%list_elem_of_fmap. apply elem_of_seq. destruct (Hin _ _ Hrc). cbn. lia. }
  assert (0 <= weight weights M <= Z.of_nat (length M) * W) as Hb.
  { unfold weight. clear Hfst Hlen. induction M as [|[r c] M IH]; [cbn; lia|].
    cbn [map length]. rewrite sum_Z_cons.
    destruct (Hin r c ltac:(left)) as (H1 & H2 & _). pose proof (default_bound r c H1 H2).
    specialize (IH ltac:(intros; apply Hin; by right)). lia. }
  destruct HW as (_ & HW0 & _). nia.
Qed.

(** The refinement: the code returns a maximum-weight matching and its weight. *)
Lemma optimal_assignment_spec banned :
  exists pairs, optimal_assignment weights banned = Some (weight weights pairs, pairs) /\
    matching weights banned pairs /\
    forall M, matching weights banned M -> weight weights M <= weight weights pairs.
Proof.
  destruct (decide (weights = [])) as [He|Hne].
  { exists []. rewrite He. split; [done|].
    split; [split_and!; [apply NoDup_nil_2..|intros r c Hrc; by apply not_elem_of_nil in Hrc]|].
    intros M (_ & _ & Hin). destruct M as [|[r c] M]; [done|].
    destruct (Hin r c ltac:(left)) as [Hr _]. cbn in Hr. lia. }
  destruct (hungarian_correct _ _ _ (costs_cost_matrix banned Hne)) as (a & Ha & Hasg & Hopt).
  rewrite length_costs in Hasg, Hopt.
  pose proof (pairs_of_matching banned a Hasg) as HM.
  pose proof (weight_bounds banned _ HM) as Hb.
  exists (pairs_of banned a). split_and!; [|done|].
  - unfold optimal_assignment. pose proof (maximum_bound banned) as Hmax.
    pose proof weight_fits.
    rewrite (proj2 (Z.leb_le (maximum weights banned) i128_max)) by lia. cbn [negb].
    rewrite cost_rows_eq. cbn [mbind option_bind]. rewrite Ha. cbn [mbind option_bind].
    rewrite select_pairs_eq by (destruct Hasg; lia). cbn [mbind option_bind].
    rewrite (add_weights_eq banned) by done. cbn [mbind option_bind].
    rewrite fold_u128; [by destruct weights| |done|].
    + apply Forall_map, Forall_forall. intros [r c] Hrc.
      destruct HM as (_ & _ & HM). destruct (HM r c Hrc) as (H1 & H2 & _). cbn.
      pose proof (default_bound r c H1 H2). lia.
    + fold (weight weights (pairs_of banned a)). destruct HW as (_ & HW0 & Hfit).
      rewrite Z.mul_add_distr_r in Hfit. unfold i128_max, u128_max in *. lia.
  - intros M HM'. pose proof (Hopt _ (assignment_of_ok banned M HM')) as Hle.
    rewrite (sum_partner banned M HM'), (sum_pairs_of banned a Hasg) in Hle. lia.
Qed.

(** ** The uniqueness test *)

Lemma any_alternative_spec w selected :
  (forall e, e ∈ selected -> exists alt pairs,
     optimal_assignment weights (Some e) = Some (alt, pairs)) ->
  exists b, any_alternative weights w selected = Some b /\
    (b = false -> forall e, e ∈ selected -> exists pairs alt,
       optimal_assignment weights (Some e) = Some (alt, pairs) /\ alt <> w) /\
    (b = true -> exists e pairs, e ∈ selected /\
       optimal_assignment weights (Some e) = Some (w, pairs)).
Proof.
  induction selected as [|e selected IH]; intros Hrun; cbn [any_alternative].
  - exists false. split_and!; [done|intros _ e He; by apply not_elem_of_nil in He|done].
  - destruct (Hrun e ltac:(left)) as (alt & pairs & He). rewrite He. cbn [mbind option_bind].
    destruct (Z.eqb_spec alt w) as [->|Hne].
    + exists true. split_and!; [done|done|]. intros _. exists e, pairs. by split; [left|].
    + destruct IH as (b & Hb & Hf & Ht); [intros; apply Hrun; by right|].
      exists b. split_and!; [done| |].
      * intros Hbf e' [->|He']%elem_of_cons; [by exists pairs, alt|by apply Hf].
      * intros Hbt. destruct (Ht Hbt) as (e' & p' & He' & Ho). exists e', p'. by split; [right|].
Qed.

Lemma weight_strict banned M M' :
  matching weights banned M -> (forall e, e ∈ M' -> e ∈ M) -> NoDup M' ->
  weight weights M <= weight weights M' -> forall e, e ∈ M -> e ∈ M'.
Proof.
  intros (Hfst & _ & Hin) Hsub Hnd Hle e He. destruct (decide (e ∈ M')) as [|Hni]; [done|exfalso].
  assert (NoDup (e :: M')) as Hnd' by (by constructor).
  destruct (submseteq_Permutation (e :: M') M) as [rest Hrest].
  { apply NoDup_submseteq; [done|]. intros x [->|Hx]%elem_of_cons; auto. }
  unfold weight in *.
  set (f := fun '(row, column) => default 0 (weight_at weights row column)) in *.
  rewrite (sum_Z_Permutation _ _ (Permutation_map _ Hrest)), map_app, sum_Z_app in Hle.
  cbn [map] in Hle. rewrite sum_Z_cons in Hle. destruct e as [r c].
  destruct (Hin r c He) as (H1 & H2 & [x Hx] & _). pose proof (weight_bound r c x H1 H2 Hx).
  assert (f (r, c) = x) as Hfx by (cbn; by rewrite Hx).
  assert (0 <= sum_Z (map f rest)).
  { apply sum_Z_nonneg, Forall_map, Forall_forall. intros [r' c'] Hrc.
    destruct (Hin r' c') as (H3 & H4 & _); [rewrite Hrest; apply elem_of_app; by right|].
    cbn. pose proof (default_bound r' c' H3 H4). lia. }
  lia.
Qed.

(** If no banned edge gives an alternative of the same weight, the selected matching is
    the only one of maximum weight; otherwise a different one exists. *)
Lemma unambiguous_unique :
  exists pairs b, optimal_assignment weights None = Some (weight weights pairs, pairs) /\
    matching weights None pairs /\
    (forall M, matching weights None M -> weight weights M <= weight weights pairs) /\
    any_alternative weights (weight weights pairs) pairs = Some b /\
    (b = false -> forall M, matching weights None M -> weight weights M = weight weights pairs ->
       forall e, e ∈ M <-> e ∈ pairs) /\
    (b = true -> exists M e, matching weights None M /\ weight weights M = weight weights pairs /\
       e ∈ pairs /\ e ∉ M).
Proof.
  destruct (optimal_assignment_spec None) as (pairs & Hopt & HM & Hmax).
  destruct (any_alternative_spec (weight weights pairs) pairs) as (b & Hb & Hf & Ht).
  { intros e _. destruct (optimal_assignment_spec (Some e)) as (p & Hp & _). eauto. }
  exists pairs, b. split_and!; [done..| |].
  - intros Hbf M HM' Heq.
    assert (forall e, e ∈ pairs -> e ∈ M) as Hsub.
    { intros e He. destruct (decide (e ∈ M)) as [|Hni]; [done|exfalso].
      destruct (Hf Hbf e He) as (p & alt & Ho & Hne).
      destruct (optimal_assignment_spec (Some e)) as (p' & Hp' & Hpm & Hpmax).
      rewrite Ho in Hp'. injection Hp' as -> ->.
      assert (weight weights M <= weight weights p') as H1.
      { apply Hpmax. destruct HM' as (H1 & H2 & H3). split_and!; [done..|].
        intros r c Hrc. destruct (H3 r c Hrc) as (Ha & Hb' & Hc & _). split_and!; [done..|].
        intros [= ->]. done. }
      assert (weight weights p' <= weight weights pairs) as H2.
      { apply Hmax. destruct Hpm as (Ha & Hb' & Hc). split_and!; [done..|].
        intros r c Hrc. destruct (Hc r c Hrc) as (? & ? & ? & _). done. }
      lia. }
    assert (NoDup pairs) as Hnd by (destruct HM as (Hn & _); by apply NoDup_fmap_1 in Hn).
    intros e. split; [|apply Hsub].
    apply (weight_strict None M pairs HM' Hsub Hnd). lia.
  - intros Hbt. destruct (Ht Hbt) as (e & p & He & Ho).
    destruct (optimal_assignment_spec (Some e)) as (p' & Hp' & Hpm & _).
    rewrite Ho in Hp'. injection Hp' as Hw ->. exists p', e.
    destruct Hpm as (Ha & Hb' & Hc). split_and!; [|done|done|].
    + split_and!; [done..|]. intros r c Hrc. destruct (Hc r c Hrc) as (? & ? & ? & _). done.
    + destruct e as [r c]. intros Hin. by destruct (Hc r c Hin) as (_ & _ & _ & Hn).
Qed.
End Proofs.

(** [optimal_assignment] returns, without panicking or overflowing, a set of permitted
    edges that share no row and no column, with its weight, and no other such set avoiding
    the banned edge weighs more. *)
Theorem optimal_assignment_optimal weights W banned :
  weight_matrix weights W ->
  exists pairs, optimal_assignment weights banned = Some (weight weights pairs, pairs) /\
    matching weights banned pairs /\
    forall M, matching weights banned M -> weight weights M <= weight weights pairs.
Proof. intros HW. exact (optimal_assignment_spec weights W HW banned). Qed.

Lemma optimal_assignment_optimal_witness :
  weight_matrix [[Some 10; Some 9]; [Some 9; None]] 10 /\
  exists pairs, optimal_assignment [[Some 10; Some 9]; [Some 9; None]] (Some (0, 1)%nat)
                = Some (weight [[Some 10; Some 9]; [Some 9; None]] pairs, pairs).
Proof.
  assert (weight_matrix [[Some 10; Some 9]; [Some 9; None]] 10) as H.
  { split; [|by vm_compute].
    repeat (apply Forall_cons; split; [split; [done|
      repeat (apply Forall_cons; split; [intros x Hx; try discriminate Hx; injection Hx; lia|])];
      apply Forall_nil; exact I|]). apply Forall_nil. exact I. }
  split; [exact H|].
  destruct (optimal_assignment_optimal _ _ (Some (0, 1)%nat) H) as (pairs & Hp & _).
  exists pairs. exact Hp.
Defined.
