(* ===== verification/Component.v ===== *)
(** Connected components of the file graph: [component] of
    [crates/sporos-matcher/src/matcher.rs], a breadth-first search over candidate and
    source indices that marks what it has seen.

    A node is a pair of a side ([true]: candidate) and an index, as in the queue of the
    code.  [component_spec] says that the search ends, that it returns exactly the nodes
    linked to the start, and that nodes seen before and after are closed under edges, which
    is what makes the components of [assign_with] independent of each other. *)

From S2P Require Import Prelude.

Local Open Scope nat_scope.

Section Code.
Context (edges : list (list (nat * Z))) (reverse : list (list nat)).

(** [if !seen[i] { seen[i] = true; queue.push_back((side, i)) }] *)
Definition visit (side : bool) (acc : list bool * list (bool * nat)) (i : nat)
    : option (list bool * list (bool * nat)) :=
  let '(seen, queue) := acc in
  known ← seen !! i;
  if (known : bool) then Some acc
  else seen ← put i true seen;
       Some (seen, queue ++ [(side, i)]).

Fixpoint search_queue (fuel : nat) (queue : list (bool * nat)) (candidates sources : list nat)
    (candidate_seen source_seen : list bool)
    : option (list nat * list nat * list bool * list bool) :=
  match queue with
  | [] => Some (candidates, sources, candidate_seen, source_seen)
  | (candidate_side, index) :: queue =>
      match fuel with
      | O => None
      | S fuel =>
          if (candidate_side : bool) then
            row_edges ← edges !! index;
            '(source_seen, queue) ← fold_opt (visit false) (source_seen, queue) (map fst row_edges);
            search_queue fuel queue (candidates ++ [index]) sources candidate_seen source_seen
          else
            row ← reverse !! index;
            '(candidate_seen, queue) ← fold_opt (visit true) (candidate_seen, queue) row;
            search_queue fuel queue candidates (sources ++ [index]) candidate_seen source_seen
      end
  end.

Definition component (start : nat) (candidate_seen source_seen : list bool)
    : option (list nat * list nat * list bool * list bool) :=
  seen ← put start true candidate_seen;
  '(candidates, sources, candidate_seen, source_seen) ←
    search_queue (length candidate_seen + length source_seen) [(true, start)] [] []
      seen source_seen;
  Some (sort_by Nat.leb candidates, sort_by Nat.leb sources, candidate_seen, source_seen).
End Code.

Example component_run :
  component [[(0, 5%Z)]; [(1, 5%Z)]; [(0, 7%Z)]] [[0; 2]; [1]] 2 [false; false; false] [false; false]
  = Some ([0; 2], [0], [true; false; true], [true; false]).
Proof. vm_compute. reflexivity. Qed.

Section Proofs.
Context (edges : list (list (nat * Z))) (reverse : list (list nat)) (ncand nsrc : nat).

(** The two adjacency lists describe one graph on indices in range. *)
Record graph : Prop := {
  g_lene : length edges = ncand;
  g_lenr : length reverse = nsrc;
  g_edge : forall c s v, c < ncand -> (s, v) ∈ edges !!! c -> s < nsrc /\ c ∈ reverse !!! s;
  g_reverse : forall s c, s < nsrc -> c ∈ reverse !!! s -> c < ncand /\ exists v, (s, v) ∈ edges !!! c }.

Context (G : graph).

Definition neighbours (side : bool) (i : nat) : list nat :=
  if side then map fst (edges !!! i) else reverse !!! i.

Definition in_range (side : bool) (i : nat) : Prop := if side then i < ncand else i < nsrc.

Lemma neighbours_range side i j :
  in_range side i -> j ∈ neighbours side i -> in_range (negb side) j /\ i ∈ neighbours (negb side) j.
Proof using G.
  destruct side; cbn; intros Hi Hj.
  - apply list_elem_of_fmap in Hj as ([s v] & -> & Hj). apply (g_edge G) in Hj; done.
  - destruct (g_reverse G _ _ Hi Hj) as (Hc & v & Hv). split; [done|].
    apply list_elem_of_fmap. by exists (i, v).
Qed.

(** Reachability from the start of a component. *)
Inductive linked (start : nat) : bool -> nat -> Prop :=
| linked_start : linked start true start
| linked_step side i j :
    linked start side i -> j ∈ neighbours side i -> linked start (negb side) j.

Definition seen_by (cs ss : list bool) (side : bool) (i : nat) : Prop :=
  (if side then cs !!! i else ss !!! i) = true.

Definition closed (cs ss : list bool) : Prop :=
  forall side i j, in_range side i -> seen_by cs ss side i -> j ∈ neighbours side i ->
    seen_by cs ss (negb side) j.

Lemma visit_loop side l seen queue :
  Forall (fun j => j < length seen) l ->
  exists seen' new, fold_opt (visit side) (seen, queue) l = Some (seen', queue ++ map (pair side) new) /\
    length seen' = length seen /\ NoDup new /\
    (forall j, seen' !!! j = true <-> seen !!! j = true \/ j ∈ new) /\
    (forall j, j ∈ new -> j ∈ l /\ seen !!! j = false) /\
    (forall j, j ∈ l -> seen' !!! j = true).
Proof.
  revert seen queue. induction l as [|x l IH]; intros seen queue Hl; cbn [fold_opt].
  - exists seen, []. rewrite app_nil_r. split_and!; try done; [constructor|..];
      intros j; rewrite ?elem_of_nil; naive_solver.
  - apply Forall_cons in Hl as [Hx Hl]. unfold visit at 1.
    rewrite (list_lookup_lookup_total_lt seen) by done. cbn [mbind option_bind].
    destruct (seen !!! x) eqn:Hs; [|rewrite put_lt by done; cbn [mbind option_bind]].
    + destruct (IH seen queue Hl) as (seen' & new & Hrun & H1 & H2 & H3 & H4 & H5).
      exists seen', new. split_and!; [done..| |].
      * intros j Hj. destruct (H4 j Hj). split; [by right|done].
      * intros j [->|Hj]%elem_of_cons; [|auto]. apply H3. by left.
    + destruct (IH (<[x := true]> seen) (queue ++ [(side, x)])) as (seen' & new & Hrun & H1 & H2 & H3 & H4 & H5).
      { rewrite length_insert. done. }
      assert (forall j, <[x := true]> seen !!! j = true <-> seen !!! j = true \/ j = x) as Hins.
      { intros j. destruct (decide (j = x)) as [->|Hj].
        - rewrite list_lookup_total_insert_eq by done. naive_solver.
        - rewrite list_lookup_total_insert_ne by done. naive_solver. }
      exists seen', (x :: new). rewrite length_insert in H1. split_and!; [|done|..].
      * rewrite Hrun. cbn [map]. by rewrite <- app_assoc.
      * constructor; [|done]. intros Hn. destruct (H4 x Hn) as [_ Hf].
        rewrite list_lookup_total_insert_eq in Hf; done.
      * intros j. rewrite H3, Hins, elem_of_cons. naive_solver.
      * intros j [->|Hj]%elem_of_cons; [split; [left|done]|].
        destruct (H4 j Hj) as [Hin Hf]. split; [by right|].
        destruct (seen !!! j) eqn:Hsj; [|done].
        assert (<[x := true]> seen !!! j = true) by (apply Hins; by left). congruence.
      * intros j [->|Hj]%elem_of_cons; [|auto]. apply H3. left. apply Hins. by right.
Qed.

Definition nodes (C S : list nat) : list (bool * nat) := map (pair true) C ++ map (pair false) S.

Lemma elem_of_nodes C S (side : bool) (i : nat) :
  (side, i) ∈ nodes C S <-> (if side then i ∈ C else i ∈ S).
Proof.
  unfold nodes. rewrite elem_of_app, !list_elem_of_fmap. destruct side; naive_solver.
Qed.

Section Search.
Context (start : nat) (cs0 ss0 : list bool).

(** Every node of the search is new, in range and linked to the start; the processed
    nodes have all their neighbours marked. *)
Record Bfs (queue : list (bool * nat)) (C S : list nat) (cs ss : list bool) : Prop := {
  b_lenc : length cs = ncand;
  b_lens : length ss = nsrc;
  b_nodup : NoDup (nodes C S ++ queue);
  b_node : forall side i, (side, i) ∈ nodes C S ++ queue ->
    in_range side i /\ ~ seen_by cs0 ss0 side i /\ linked start side i;
  b_seen : forall side i, seen_by cs ss side i <->
    seen_by cs0 ss0 side i \/ (side, i) ∈ nodes C S ++ queue;
  b_done : forall side i j, (side, i) ∈ nodes C S -> j ∈ neighbours side i ->
    seen_by cs ss (negb side) j }.

Lemma bfs_bound queue C S cs ss :
  Bfs queue C S cs ss -> length (nodes C S ++ queue) <= ncand + nsrc.
Proof using.
  intros HB.
  assert (nodes C S ++ queue ⊆+ nodes (seq 0 ncand) (seq 0 nsrc)) as Hsub.
  { apply NoDup_submseteq; [by apply (b_nodup _ _ _ _ _ HB)|].
    intros [side i] Hi. destruct (b_node _ _ _ _ _ HB side i Hi) as (Hr & _).
    apply elem_of_nodes. destruct side; cbn in Hr; apply elem_of_seq; lia. }
  apply submseteq_length in Hsub. etransitivity; [exact Hsub|].
  unfold nodes. rewrite length_app, !length_map, !length_seq. lia.
Qed.

Definition done_step (side : bool) (C S : list nat) (i : nat) : list nat * list nat :=
  if side then (C ++ [i], S) else (C, S ++ [i]).

Lemma nodes_step side C S i :
  Permutation (nodes (fst (done_step side C S i)) (snd (done_step side C S i)))
              (nodes C S ++ [(side, i)]).
Proof using.
  unfold nodes, done_step. destruct side; cbn [fst snd]; rewrite map_app; cbn [map].
  - rewrite <- !app_assoc. apply Permutation_app_head, Permutation_app_comm.
  - by rewrite app_assoc.
Qed.

(** One turn of the [while let], on either side. *)
Lemma bfs_step side i queue C S cs ss :
  Bfs ((side, i) :: queue) C S cs ss ->
  exists seen' new,
    fold_opt (visit (negb side)) (if side then ss else cs, queue) (neighbours side i)
      = Some (seen', queue ++ map (pair (negb side)) new) /\
    Bfs (queue ++ map (pair (negb side)) new)
        (fst (done_step side C S i)) (snd (done_step side C S i))
        (if side then cs else seen') (if side then seen' else ss).
Proof using G.
  intros HB. destruct (b_node _ _ _ _ _ HB side i) as (Hr & Hn & Hl).
  { apply elem_of_app. right. left. }
  assert (Forall (fun j => j < length (if side then ss else cs)) (neighbours side i)) as Hlt.
  { apply Forall_forall. intros j Hj. destruct (neighbours_range side i j Hr Hj) as [Hjr _].
    destruct side; cbn in Hjr; [rewrite (b_lens _ _ _ _ _ HB)|rewrite (b_lenc _ _ _ _ _ HB)]; done. }
  destruct (visit_loop (negb side) _ _ queue Hlt)
    as (seen' & new & Hrun & Hlen & Hnd & Hseen & Hnew & Hall).
  exists seen', new. split; [done|].
  set (cs' := if side then cs else seen'). set (ss' := if side then seen' else ss).
  assert (forall sd k, seen_by cs' ss' sd k <->
    seen_by cs ss sd k \/ (sd = negb side /\ k ∈ new)) as Hsb.
  { intros sd k. unfold seen_by, cs', ss'. destruct side, sd; cbn; rewrite ?Hseen; naive_solver. }
  assert (Permutation (nodes (fst (done_step side C S i)) (snd (done_step side C S i)) ++
             queue ++ map (pair (negb side)) new)
           ((nodes C S ++ (side, i) :: queue) ++ map (pair (negb side)) new)) as Hperm.
  { rewrite nodes_step, <- !app_assoc. done. }
  assert (forall k, k ∈ new -> ~ seen_by cs ss (negb side) k) as Hfresh.
  { intros k Hk. destruct (Hnew k Hk) as [_ Hf]. unfold seen_by. destruct side; cbn; congruence. }
  split.
  - unfold cs'. destruct side; [|rewrite Hlen]; apply (b_lenc _ _ _ _ _ HB).
  - unfold ss'. destruct side; [rewrite Hlen|]; apply (b_lens _ _ _ _ _ HB).
  - rewrite Hperm. apply NoDup_app. split_and!; [apply (b_nodup _ _ _ _ _ HB)| |].
    + intros [sd k] Hk Hk2. apply list_elem_of_fmap in Hk2 as (k' & [= -> ->] & Hk2).
      apply (Hfresh k' Hk2), (b_seen _ _ _ _ _ HB). by right.
    + apply NoDup_fmap_2; [|done]. intros ? ? [= ->]. done.
  - intros sd k. rewrite Hperm, elem_of_app. intros [Hk|Hk]; [by apply (b_node _ _ _ _ _ HB)|].
    apply list_elem_of_fmap in Hk as (k' & [= -> ->] & Hk). destruct (Hnew k' Hk) as [Hin _].
    destruct (neighbours_range side i k' Hr Hin) as [Hkr _]. split_and!; [done| |by eapply linked_step].
    intros Hs. apply (Hfresh k' Hk), (b_seen _ _ _ _ _ HB). by left.
  - intros sd k. rewrite Hperm, Hsb, (b_seen _ _ _ _ _ HB), (elem_of_app (_ ++ _ :: _)).
    rewrite (list_elem_of_fmap (pair (negb side))). naive_solver.
  - intros sd k j. rewrite nodes_step, elem_of_app. intros [Hk|Hk] Hj.
    + apply Hsb. left. by apply (b_done _ _ _ _ _ HB sd k).
    + apply list_elem_of_singleton in Hk as [= -> ->]. pose proof (Hall j Hj) as Hs.
      unfold seen_by, cs', ss'. by destruct side.
Qed.

Lemma search_queue_run fuel queue C S cs ss :
  Bfs queue C S cs ss -> ncand + nsrc <= fuel + length (nodes C S) ->
  exists C' S' cs' ss', search_queue edges reverse fuel queue C S cs ss = Some (C', S', cs', ss') /\
    Bfs [] C' S' cs' ss' /\ (forall side i, (side, i) ∈ nodes C S ++ queue -> (side, i) ∈ nodes C' S').
Proof using G.
  revert queue C S cs ss. induction fuel as [|fuel IH]; intros queue C S cs ss HB Hfuel.
  - destruct queue as [|[side i] queue].
    + exists C, S, cs, ss. rewrite app_nil_r. done.
    + apply bfs_bound in HB. rewrite length_app in HB. cbn in HB. lia.
  - destruct queue as [|[side i] queue].
    { exists C, S, cs, ss. rewrite app_nil_r. done. }
    destruct (bfs_step side i queue C S cs ss HB) as (seen' & new & Hrun & HB').
    destruct (IH _ _ _ _ _ HB') as (C' & S' & cs' & ss' & Hgo & HE & Hmono).
    { rewrite nodes_step, length_app. cbn. lia. }
    exists C', S', cs', ss'. split_and!; [|done|].
    + destruct (b_node _ _ _ _ _ HB side i) as (Hr & _); [apply elem_of_app; right; left|].
      cbn [search_queue]. destruct side; cbn [negb neighbours done_step fst snd in_range] in *.
      * rewrite list_lookup_lookup_total_lt by (rewrite (g_lene G); lia). cbn [mbind option_bind].
        rewrite Hrun. exact Hgo.
      * rewrite list_lookup_lookup_total_lt by (rewrite (g_lenr G); lia). cbn [mbind option_bind].
        rewrite Hrun. exact Hgo.
    + intros sd k Hk. apply Hmono. rewrite nodes_step, !elem_of_app in *.
      rewrite elem_of_cons in Hk. rewrite list_elem_of_singleton. naive_solver.
Qed.
End Search.

(** The contract the assignment loop relies on. *)
Record component_of (start : nat) (cs ss : list bool) (C S : list nat) (cs' ss' : list bool) : Prop := {
  c_lenc : length cs' = ncand;
  c_lens : length ss' = nsrc;
  c_nodupc : NoDup C;
  c_nodups : NoDup S;
  c_start : start ∈ C;
  c_cand : forall c, c ∈ C <-> c < ncand /\ linked start true c;
  c_src : forall s, s ∈ S <-> s < nsrc /\ linked start false s;
  c_new : forall (side : bool) i, (if side then i ∈ C else i ∈ S) ->
    in_range side i /\ ~ seen_by cs ss side i;
  c_seen : forall (side : bool) i, seen_by cs' ss' side i <->
    seen_by cs ss side i \/ (if side then i ∈ C else i ∈ S);
  c_edge : forall c s v, c ∈ C -> (s, v) ∈ edges !!! c -> s ∈ S;
  c_closed : closed cs' ss' }.

Lemma component_spec start cs ss :
  start < ncand -> length cs = ncand -> length ss = nsrc -> cs !!! start = false -> closed cs ss ->
  exists C S cs' ss', component edges reverse start cs ss = Some (C, S, cs', ss') /\
    component_of start cs ss C S cs' ss'.
Proof using G.
  intros Hstart Hlc Hls Hs Hclosed.
  assert (Bfs start cs ss [(true, start)] [] [] (<[start := true]> cs) ss) as HB.
  { split; cbn [nodes map app].
    - by rewrite length_insert.
    - done.
    - apply NoDup_singleton.
    - intros side i [= -> ->]%list_elem_of_singleton. unfold seen_by. rewrite Hs.
      split_and!; [done|done|constructor].
    - intros side i. rewrite list_elem_of_singleton. unfold seen_by. destruct side; [|naive_solver].
      destruct (decide (i = start)) as [->|Hi].
      + rewrite list_lookup_total_insert_eq by lia. naive_solver.
      + rewrite list_lookup_total_insert_ne by done. naive_solver.
    - intros side i j Hi. by apply not_elem_of_nil in Hi. }
  destruct (search_queue_run start cs ss (length cs + length ss) _ _ _ _ _ HB ltac:(cbn; lia))
    as (C & S & cs' & ss' & Hrun & HE & Hmono).
  assert (forall (side : bool) i, (if side then i ∈ C else i ∈ S) ->
    in_range side i /\ ~ seen_by cs ss side i /\ linked start side i) as Hnode.
  { intros side i Hi. apply (b_node _ _ _ _ _ _ _ _ HE). rewrite app_nil_r. by apply elem_of_nodes. }
  assert (forall side i, seen_by cs' ss' side i <->
    seen_by cs ss side i \/ (if side then i ∈ C else i ∈ S)) as Hseen.
  { intros side i. rewrite (b_seen _ _ _ _ _ _ _ _ HE), app_nil_r, elem_of_nodes. done. }
  assert (closed cs' ss') as Hcl.
  { intros side i j Hr Hsi Hj. apply Hseen in Hsi as [Hsi|Hsi].
    - apply Hseen. left. by apply (Hclosed side i).
    - apply (b_done _ _ _ _ _ _ _ _ HE side i); [by apply elem_of_nodes|done]. }
  assert (start ∈ C) as HsC.
  { apply (elem_of_nodes C S true). apply Hmono. apply elem_of_app. right. left. }
  assert (forall side i, linked start side i -> in_range side i /\ (if side then i ∈ C else i ∈ S)) as Hlink.
  { induction 1 as [|side i j _ [Hr Hin] Hj]; [done|].
    destruct (neighbours_range side i j Hr Hj) as [Hjr Hback]. split; [done|].
    assert (seen_by cs' ss' (negb side) j) as Hsj.
    { apply (Hcl side i); [done| |done]. apply Hseen. by right. }
    apply Hseen in Hsj as [Hsj|Hsj]; [|done]. exfalso.
    apply (Hnode side i Hin). rewrite <- (negb_involutive side). by apply (Hclosed (negb side) j). }
  pose proof (b_nodup _ _ _ _ _ _ _ _ HE) as Hnd. rewrite app_nil_r in Hnd.
  apply NoDup_app in Hnd as (HndC & _ & HndS). apply NoDup_fmap_1 in HndC, HndS.
  exists (sort_by Nat.leb C), (sort_by Nat.leb S), cs', ss'. split.
  { unfold component. rewrite put_lt by lia. cbn [mbind option_bind]. by rewrite Hrun. }
  split.
  - apply (b_lenc _ _ _ _ _ _ _ _ HE).
  - apply (b_lens _ _ _ _ _ _ _ _ HE).
  - by rewrite sort_by_Permutation.
  - by rewrite sort_by_Permutation.
  - by apply elem_of_sort_by.
  - intros c. rewrite elem_of_sort_by. split; [intros Hc; destruct (Hnode true c Hc) as (? & ? & ?); done|].
    intros [_ Hc]. by apply (Hlink true).
  - intros s. rewrite elem_of_sort_by. split; [intros Hc; destruct (Hnode false s Hc) as (? & ? & ?); done|].
    intros [_ Hc]. by apply (Hlink false).
  - intros side i Hi. destruct (Hnode side i) as (? & ? & _); [|done].
    destruct side; by apply elem_of_sort_by in Hi.
  - intros side i. rewrite Hseen. destruct side; by rewrite elem_of_sort_by.
  - intros c s v Hc Hsv. apply elem_of_sort_by in Hc. apply elem_of_sort_by.
    apply (Hlink false). destruct (Hnode true c Hc) as (Hr & _ & Hl).
    apply (linked_step _ true c); [done|]. cbn. apply list_elem_of_fmap. by exists (s, v).
  - done.
Qed.
End Proofs.

(** The search of [component] ends within its fuel and returns, sorted and without
    repetition, exactly the candidate and source files linked to the start by edges; what
    has been seen stays closed under edges. *)
Theorem component_exact edges reverse ncand nsrc start cs ss :
  graph edges reverse ncand nsrc -> start < ncand -> length cs = ncand -> length ss = nsrc ->
  cs !!! start = false -> closed edges reverse ncand nsrc cs ss ->
  exists C S cs' ss', component edges reverse start cs ss = Some (C, S, cs', ss') /\
    NoDup C /\ NoDup S /\
    (forall c, c ∈ C <-> c < ncand /\ linked edges reverse start true c) /\
    (forall s, s ∈ S <-> s < nsrc /\ linked edges reverse start false s) /\
    closed edges reverse ncand nsrc cs' ss'.
Proof.
  intros G Hs Hlc Hls Hn Hcl.
  destruct (component_spec edges reverse ncand nsrc G start cs ss Hs Hlc Hls Hn Hcl)
    as (C & S & cs' & ss' & Hrun & HC).
  exists C, S, cs', ss'. destruct HC. split_and!; done.
Qed.

Lemma component_exact_witness :
  graph [[(0, 5%Z)]; []] [[0]] 2 1 /\
  exists C S cs' ss', component [[(0, 5%Z)]; []] [[0]] 0 [false; false] [false] = Some (C, S, cs', ss').
Proof.
  assert (graph [[(0, 5%Z)]; []] [[0]] 2 1) as G.
  { split; [done|done|..].
    - intros [|[|c]] s v Hc; [|cbn; intros Hsv; by apply not_elem_of_nil in Hsv|lia].
      cbn. intros [= -> ->]%list_elem_of_singleton. split; [lia|left].
    - intros [|s] c Hs; [|lia]. cbn. intros ->%list_elem_of_singleton. split; [lia|].
      exists 5%Z. left. }
  split; [exact G|].
  destruct (component_exact [[(0, 5%Z)]; []] [[0]] 2 1 0 [false; false] [false] G ltac:(lia) eq_refl eq_refl eq_refl)
    as (C & S & cs' & ss' & H & _).
  { intros side i j Hr Hseen. unfold in_range in Hr. exfalso.
    destruct side; [destruct i as [|[|i]]|destruct i as [|i]]; try lia; discriminate Hseen. }
  exists C, S, cs', ss'. exact H.
Defined.
