(* ===== verification/Matcher.v ===== *)
(** The matcher: [crates/sporos-matcher/src/matcher.rs], definitions.

    [option] is the panic monad: [None] is a failed [assert!], [expect] or out-of-range
    index; [MatcherAssign] shows that it does not happen.  File roles and the edge score
    come first, then the bucketed edge list and the component loop of [assign_with], then
    the decisions of [evaluate].  A [Vec] index is a [nat], a [u128] sum or product is
    written with its wrap. *)

From S2P Require Import Prelude Model Text Release Hungarian Assignment Component.
From stdpp Require Import strings.

Local Open Scope Z_scope.

(** ** Scores *)

Definition SCORE_EXACT_PATH : Z := 1000000.
Definition SCORE_EXACT_BASENAME : Z := 100000.
Definition SCORE_EPISODE : Z := 10000.
Definition SCORE_PRIMARY_EXTENSION : Z := 1000.
Definition SCORE_NORMALIZED_BASENAME : Z := 100.
Definition SCORE_DIRECTORY : Z := 10.
Definition SCORE_ROLE : Z := 1.

(** ** Paths and roles *)

Definition basename (path : str) : str := rsplit_next 47 path.

Definition parent_basename (path : str) : option str :=
  match rsplit_once 47 path with Some (parent, _) => Some (rsplit_next 47 parent) | None => None end.

Definition extension (path : str) : option str :=
  match rsplit_once 46 (basename path) with Some (_, extension) => Some extension | None => None end.

Definition stem (path : str) : str :=
  match rsplit_once 46 path with Some (stem, _) => stem | None => path end.

(** [configured.iter().any(|c| c.eq_ignore_ascii_case(x))] *)
Definition any_ignore_case (configured : list str) (x : str) : bool :=
  existsb (fun c => eq_ignore_ascii_case c x) configured.

Definition extension_in (configured : list str) (path : str) : bool :=
  match extension path with Some extension => any_ignore_case configured extension | None => false end.

Definition primary_path (path : str) (policy : MatchingPolicy) : bool :=
  let upper := to_ascii_uppercase path in
  starts_with (lit "BDMV/") upper || contains (lit "/BDMV/") upper
  || starts_with (lit "VIDEO_TS/") upper || contains (lit "/VIDEO_TS/") upper
  || extension_in (mp_primary_video_extensions policy) path.

Definition optional (path : str) (policy : MatchingPolicy) : bool :=
  let stem := stem (basename path) in
  eq_ignore_ascii_case stem (lit "sample")
  || extension_in (mp_optional_extensions policy) path
  || existsb (any_ignore_case (mp_optional_path_components policy)) (split_on 47 path).

Definition required (file : TorrentFile) (policy : MatchingPolicy) : bool :=
  negb (tf_padding file) && negb (optional (tf_path file) policy).

Definition primary (file : TorrentFile) (policy : MatchingPolicy) : bool :=
  negb (tf_padding file) && negb (optional (tf_path file) policy) && primary_path (tf_path file) policy.

(** [u32::from(b) * score] *)
Definition score_if (b : bool) (score : Z) : Z := if b then score else 0.

Section Score.
Context {U : Unicode}.

Definition edge_score (candidate : TorrentFile) (source : LocalSourceFile)
    (policy : MatchingPolicy) (season_mode : bool) : option Z :=
  if negb (tf_size candidate =? lsf_size source) then None else
  let candidate_primary := primary candidate policy in
  let source_primary := primary_path (lsf_path source) policy in
  if negb (eqb candidate_primary source_primary) then None else
  let candidate_extension := extension (tf_path candidate) in
  let source_extension := extension (lsf_path source) in
  if negb candidate_primary && negb (bool_decide (candidate_extension = source_extension))
  then None else
  let candidate_keys := episode_keys (tf_path candidate) in
  let source_keys := episode_keys (lsf_path source) in
  let episode_agreement :=
    negb (bool_decide (candidate_keys = [])) && negb (bool_decide (source_keys = []))
    && existsb (fun key => bool_decide (key ∈ source_keys)) candidate_keys in
  if negb (bool_decide (candidate_keys = [])) && negb (bool_decide (source_keys = []))
     && negb episode_agreement then None else
  if season_mode && candidate_primary && negb episode_agreement then None else
  let exact_path := bool_decide (tf_path candidate = lsf_path source) in
  let candidate_basename := basename (tf_path candidate) in
  let source_basename := basename (lsf_path source) in
  let exact_basename := bool_decide (candidate_basename = source_basename) in
  let normalized_basename :=
    bool_decide (normalize_title (stem candidate_basename)
                 = normalize_title (stem source_basename)) in
  let directory_agreement :=
    match parent_basename (tf_path candidate), parent_basename (lsf_path source) with
    | Some candidate, Some source => bool_decide (normalize_title candidate = normalize_title source)
    | _, _ => false
    end in
  Some (SCORE_ROLE
        + score_if exact_path SCORE_EXACT_PATH
        + score_if exact_basename SCORE_EXACT_BASENAME
        + score_if episode_agreement SCORE_EPISODE
        + score_if (candidate_primary && bool_decide (candidate_extension = source_extension))
            SCORE_PRIMARY_EXTENSION
        + score_if normalized_basename SCORE_NORMALIZED_BASENAME
        + score_if directory_agreement SCORE_DIRECTORY).
End Score.

(** ** Buckets *)

Record BucketKey := mkBucketKey { bk_size : Z; bk_primary : bool; bk_extension : option str }.
#[export] Instance BucketKey_eq_dec : EqDecision BucketKey.
Proof. solve_decision. Defined.
#[export] Instance BucketKey_countable : Countable BucketKey.
Proof.
  refine (inj_countable' (fun k => (bk_size k, bk_primary k, bk_extension k))
            (fun '(s, p, e) => mkBucketKey s p e) _); by intros [].
Defined.

Definition bucket (size : Z) (path : str) (primary : bool) : BucketKey :=
  {| bk_size := size; bk_primary := primary;
     bk_extension := if primary then None
                     else Some (to_ascii_lowercase (default [] (extension path))) |}.

(** ** [assign_with] *)

Inductive AssignmentError := BudgetExceeded.

(** How [assign_with] is left early; [ExitPanic] is an index out of range or a failed
    [expect]. *)
Inductive Exit := ExitBudget | ExitAmbiguous | ExitPanic.

Definition checked {A} (o : option A) : result Exit A := ok_or o ExitPanic.

(** [v[i].push(x)] *)
Definition push {A} (i : nat) (x : A) (v : list (list A)) : option (list (list A)) :=
  row ← v !! i;
  put i (row ++ [x]) v.

Record Assignment := mkAssignment { as_pairs : list (nat * nat * Z); as_ambiguous : bool }.

Section Assign.
Context (candidates : list TorrentFile) (sources : list (SourceId * LocalSourceFile)).
Context (policy : MatchingPolicy).
Context (score : TorrentFile -> LocalSourceFile -> option Z).

(** The file that [iter().enumerate()] yields with index [i] *)
Definition dummy_candidate : TorrentFile := mkTorrentFile 0 [] 0 true.
Definition dummy_source : SourceId * LocalSourceFile := ([], mkLocalSourceFile 0 [] 0 None None).
Definition candidate_at (i : nat) : TorrentFile := nth i candidates dummy_candidate.
Definition source_at (i : nat) : LocalSourceFile := snd (nth i sources dummy_source).

Definition source_key (i : nat) : BucketKey :=
  let source := source_at i in
  bucket (lsf_size source) (lsf_path source) (primary_path (lsf_path source) policy).

Definition candidate_key (i : nat) : BucketKey :=
  let candidate := candidate_at i in
  bucket (tf_size candidate) (tf_path candidate) (primary candidate policy).

(** [source_buckets.entry(key).or_default().push(index)] for every source *)
Definition source_buckets : gmap BucketKey (list nat) :=
  foldl (fun m i => <[source_key i := default [] (m !! source_key i) ++ [i]]> m) ∅
    (seq 0 (length sources)).

Record EdgeState := mkEdgeState {
  es_edges : list (list (nat * Z)); es_reverse : list (list nat); es_count : Z }.

(** [edges[c].push((s, value)); reverse[s].push(c)] behind the two budget guards *)
Definition edge_step (candidate_index : nat) (st : EdgeState) (source_index : nat)
    : result Exit EdgeState :=
  source ← checked (sources !! source_index);
  match score (candidate_at candidate_index) (snd source) with
  | None => Ok st
  | Some value =>
      edge_count ← ok_or (checked_add_u64 (es_count st) 1) ExitBudget;
      _ ← bail_if (mp_max_candidate_edges policy <? edge_count) ExitBudget;
      edges ← checked (push candidate_index (source_index, value) (es_edges st));
      reverse ← checked (push source_index candidate_index (es_reverse st));
      Ok {| es_edges := edges; es_reverse := reverse; es_count := edge_count |}
  end.

Definition candidate_edges (st : EdgeState) (candidate_index : nat) : result Exit EdgeState :=
  try_fold (edge_step candidate_index)
    (default [] (source_buckets !! candidate_key candidate_index)) st.

Definition build_edges : result Exit EdgeState :=
  try_fold candidate_edges (seq 0 (length candidates))
    {| es_edges := replicate (length candidates) [];
       es_reverse := replicate (length sources) []; es_count := 0 |}.

(** *** Weights *)

(** [sum::<u64>() as u128 + 1] *)
Definition score_unit (edges : list (list (nat * Z))) : Z :=
  sum_u64 (map snd (concat edges)) + 1.

Definition primary_bytes : Z :=
  foldl (fun total candidate => u128_add total (tf_size candidate)) 0
    (List.filter (fun candidate => primary candidate policy) candidates).

Definition required_unit (edges : list (list (nat * Z))) : Z :=
  u128_mul (u128_add primary_bytes 1) (score_unit edges).

Definition edge_weight (edges : list (list (nat * Z))) (candidate_index : nat) (value : Z)
    : option Z :=
  candidate ← candidates !! candidate_index;
  Some (u128_add
    (u128_add value
       (if primary candidate policy then u128_mul (tf_size candidate) (score_unit edges) else 0))
    (if required candidate policy then required_unit edges else 0)).

(** [source_positions[&source_index]] *)
Definition source_position (component_sources : list nat) (source_index : nat) : option nat :=
  fst <$> list_find (fun s => s = source_index) component_sources.

(** One row of [raw] or [weights]: [row[column] = Some(f(value))] for each edge. *)
Fixpoint fill_row (component_sources : list nat) (f : Z -> option Z) (row_edges : list (nat * Z))
    (row : list (option Z)) : option (list (option Z)) :=
  match row_edges with
  | [] => Some row
  | (source_index, value) :: row_edges =>
      column ← source_position component_sources source_index;
      entry ← f value;
      row ← put column (Some entry) row;
      fill_row component_sources f row_edges row
  end.

Definition matrix (edges : list (list (nat * Z))) (component_candidates component_sources : list nat)
    (f : nat -> Z -> option Z) : option (list (list (option Z))) :=
  mapM (fun c => row_edges ← edges !! c;
                 fill_row component_sources (f c) row_edges
                   (replicate (length component_sources) None))
    component_candidates.

(** *** The loop over components *)

Record LoopState := mkLoopState {
  ls_candidate_seen : list bool; ls_source_seen : list bool;
  ls_pairs : list (nat * nat * Z); ls_operations : Z }.

(** [alternatives * rows * rows * columns] of a component, in [u128] *)
Definition component_operations (candidates sources : nat) : Z :=
  let rows := Z.of_nat candidates in
  let columns := Z.of_nat (sources + candidates) in
  let alternatives := Z.of_nat (Nat.min candidates sources) + 1 in
  u128_mul (u128_mul (u128_mul alternatives rows) rows) columns.

(** The mappings of one component, once it is within the budgets. *)
Definition solve_component (edges : list (list (nat * Z))) (cc cs : list nat)
    : result Exit (list (nat * nat * Z)) :=
  raw ← checked (matrix edges cc cs (fun _ value => Some value));
  weights ← checked (matrix edges cc cs (edge_weight edges));
  '(total, selected) ← checked (optimal_assignment weights None);
  ambiguous ← checked (any_alternative weights total selected);
  if (ambiguous : bool) then Err ExitAmbiguous else
  collect (fun '(row, column) =>
             c ← checked (cc !! row);
             s ← checked (cs !! column);
             value ← checked (cell raw row column);
             value ← checked value;
             Ok (c, s, value)) selected.

Definition component_step (edges : list (list (nat * Z))) (reverse : list (list nat))
    (st : LoopState) (start : nat) : result Exit LoopState :=
  seen ← checked (ls_candidate_seen st !! start);
  if (seen : bool) then Ok st else
  start_edges ← checked (edges !! start);
  if bool_decide (start_edges = []) then Ok st else
  '(cc, cs, candidate_seen, source_seen) ←
    checked (component edges reverse start (ls_candidate_seen st) (ls_source_seen st));
  let files := Z.of_nat (length cc + length cs) in
  _ ← bail_if ((mp_max_assignment_component_files policy <? files)
               || (mp_max_assignment_files policy <? files)) ExitBudget;
  let operations :=
    Z.min u128_max (ls_operations st + component_operations (length cc) (length cs)) in
  _ ← bail_if (mp_max_assignment_operations policy <? operations) ExitBudget;
  pairs ← solve_component edges cc cs;
  Ok {| ls_candidate_seen := candidate_seen; ls_source_seen := source_seen;
        ls_pairs := ls_pairs st ++ pairs; ls_operations := operations |}.

Definition assign_components (edges : list (list (nat * Z))) (reverse : list (list nat))
    : result Exit LoopState :=
  try_fold (component_step edges reverse) (seq 0 (length candidates))
    {| ls_candidate_seen := replicate (length candidates) false;
       ls_source_seen := replicate (length sources) false;
       ls_pairs := []; ls_operations := 0 |}.

Definition assign_with : option (result AssignmentError Assignment) :=
  let files := Z.of_nat (length candidates) in
  if (mp_max_assignment_files policy <? files)
     || (saturating_sub_u (mp_max_assignment_files policy) files <? Z.of_nat (length sources))
  then Some (Err BudgetExceeded) else
  match (st ← build_edges; assign_components (es_edges st) (es_reverse st)) with
  | Ok st => Some (Ok {| as_pairs := ls_pairs st; as_ambiguous := false |})
  | Err ExitAmbiguous => Some (Ok {| as_pairs := []; as_ambiguous := true |})
  | Err ExitBudget => Some (Err BudgetExceeded)
  | Err ExitPanic => None
  end.
End Assign.

(** ** Requests and manifests *)

Record MatchRequest := mkMatchRequest {
  rq_candidate : TorrentManifest;
  rq_candidate_release : ReleaseDescriptor;
  rq_sources : list LocalSourceManifest;
  rq_policy : MatchingPolicy }.

(** [files.iter().filter(f).map(|file| file.size).sum::<u64>()] *)
Definition file_bytes (f : TorrentFile -> bool) (files : list TorrentFile) : Z :=
  sum_u64 (map tf_size (List.filter f files)).

Definition count {A} (f : A -> bool) (l : list A) : Z := Z.of_nat (length (List.filter f l)).

Definition required_bytes (request : MatchRequest) : Z :=
  file_bytes (fun file => required file (rq_policy request)) (tm_files (rq_candidate request)).

Definition base_evidence (request : MatchRequest) : MatchEvidence :=
  let files := tm_files (rq_candidate request) in
  {| me_candidate_files := Z.of_nat (length files);
     me_required_files := count (fun file => required file (rq_policy request)) files;
     me_primary_files := count (fun file => primary file (rq_policy request)) files;
     me_mapped_files := 0; me_mapped_primary_files := 0; me_mapped_primary_bytes := 0;
     me_exact_path_mappings := 0; me_compatible_sources := 0; me_qbit_sources := 0 |}.

Definition input_budget_exceeded (request : MatchRequest) : bool :=
  let max := mp_max_assignment_files (rq_policy request) in
  let candidate_files :=
    count (fun file => negb (tf_padding file)) (tm_files (rq_candidate request)) in
  if max <? candidate_files then true else
  negb (is_ok
    (try_fold (fun total source =>
                 let files := Z.of_nat (length (lsm_files source)) in
                 total ← ok_or (checked_add_u64 total files) tt;
                 _ ← bail_if (negb ((files <=? saturating_sub_u max candidate_files)
                                    && (total <=? max))) tt;
                 Ok total)
       (List.filter lsm_available (rq_sources request)) candidate_files)).

Section Validate.
Context {U : Unicode}.

Definition dots (component : str) : bool :=
  str_eqb component (lit ".") || str_eqb component (lit "..").

Definition unsafe_path (path : str) : bool :=
  bool_decide (path = []) || starts_with (lit "/") path || starts_with (lit "//") path
  || contains_byte 92 path || contains_byte 0 path || byte_is path 1 58
  || existsb (fun component =>
                bool_decide (component = []) || dots component || dots (nfc_string component))
       (split_on 47 path).

(** First loop: ordinals and normalised paths are pairwise distinct. *)
Definition insert_file (acc : gset Z * gset str) (file : TorrentFile)
    : result MatchReason (gset Z * gset str) :=
  let '(ordinals, paths) := acc in
  _ ← bail_if (bool_decide (tf_ordinal file ∈ ordinals) || unsafe_path (tf_path file))
        UnsafeTorrentPath;
  let normalized := nfc_string (tf_path file) in
  _ ← bail_if (bool_decide (normalized ∈ paths)) UnsafeTorrentPath;
  Ok ({[ tf_ordinal file ]} ∪ ordinals, {[ normalized ]} ∪ paths).

(** Second loop: [prefix] grows by one component; a proper prefix that is a path itself is
    a file used as a directory. *)
Fixpoint prefix_is_path (paths : gset str) (prefix : str) (first : bool) (components : list str)
    : bool :=
  match components with
  | [] => false
  | component :: rest =>
      let prefix := (if first then prefix else prefix ++ [47]) ++ component in
      (negb (bool_decide (rest = [])) && bool_decide (prefix ∈ paths))
      || prefix_is_path paths prefix false rest
  end.

Definition validate_manifest (manifest : TorrentManifest) : option MatchReason :=
  if bool_decide (tm_files manifest = []) || bool_decide (tm_piece_length manifest = Some 0)
  then Some UnsupportedTorrent else
  match try_fold insert_file (tm_files manifest) (∅, ∅) with
  | Err reason => Some reason
  | Ok (_, paths) =>
      if existsb (fun path => prefix_is_path paths [] true (split_on 47 path)) (elements paths)
      then Some UnsafeTorrentPath else None
  end.
End Validate.

(** ** Release compatibility *)

Definition same_identity (candidate source : ArrIdentity) : bool :=
  bool_decide (arr_kind candidate = arr_kind source)
  && str_eqb (arr_instance candidate) (arr_instance source)
  && (arr_entity_id candidate =? arr_entity_id source).

Definition titles_overlap (candidate source : ReleaseDescriptor) : bool :=
  let candidate_titles := rd_primary_title candidate :: rd_alternate_titles candidate in
  existsb (fun title => str_mem title candidate_titles)
    (rd_primary_title source :: rd_alternate_titles source).

(** [if let (Some(a), Some(b)) = (x, y) && a != b] *)
Definition both_differ {A} `{EqDecision A} (x y : option A) : bool :=
  match x, y with Some a, Some b => bool_decide (a <> b) | _, _ => false end.

Definition compatible (candidate source : ReleaseDescriptor) (season_mode : bool)
    : result MatchReason () :=
  let same_arr_identity :=
    match rd_arr_identity candidate, rd_arr_identity source with
    | Some candidate, Some source => same_identity candidate source
    | _, _ => false
    end in
  let other_arr_identity :=
    match rd_arr_identity candidate, rd_arr_identity source with
    | Some candidate, Some source => negb (same_identity candidate source)
    | _, _ => false
    end in
  _ ← bail_if other_arr_identity SeriesConflict;
  _ ← bail_if (bool_decide (rd_kind candidate <> UnknownVideo)
               && bool_decide (rd_kind source <> UnknownVideo)
               && bool_decide (rd_kind candidate <> rd_kind source)
               && negb (season_mode && bool_decide (rd_kind candidate = SeasonPack)
                        && bool_decide (rd_kind source = Episode))) MediaTypeConflict;
  _ ← bail_if (negb same_arr_identity && negb (titles_overlap candidate source)) TitleConflict;
  _ ← bail_if (both_differ (rd_year candidate) (rd_year source)) YearConflict;
  _ ← bail_if (both_differ (rd_season candidate) (rd_season source)) SeasonConflict;
  _ ← bail_if (negb season_mode && bool_decide (rd_kind candidate = Episode)
               && bool_decide (rd_kind source = Episode)
               && bool_decide ((rd_episode candidate, rd_episode_end candidate)
                               <> (rd_episode source, rd_episode_end source))) EpisodeConflict;
  _ ← bail_if (both_differ (rd_air_date candidate) (rd_air_date source)) DateConflict;
  bail_if (both_differ (rd_absolute_episode candidate) (rd_absolute_episode source)) EpisodeConflict.

(** ** Decisions *)

Definition rejection (reason : MatchReason) (evidence : MatchEvidence) : MatchDecision :=
  {| md_outcome := Rejected; md_mode := None; md_reason := reason; md_source_ids := [];
     md_mappings := []; md_mapped_bytes := 0; md_missing_bytes := 0;
     md_present_ratio := Ratio_ZERO; md_requires_recheck := false; md_evidence := evidence |}.

Definition no_match (reason : MatchReason) (evidence : MatchEvidence) (request : MatchRequest)
    : MatchDecision :=
  {| md_outcome := NoMatch; md_mode := None; md_reason := reason; md_source_ids := [];
     md_mappings := []; md_mapped_bytes := 0; md_missing_bytes := required_bytes request;
     md_present_ratio := Ratio_ZERO; md_requires_recheck := false; md_evidence := evidence |}.

Definition best_reason (reasons : list MatchReason) : MatchReason :=
  default NoPlausibleSource
    (find (fun reason => bool_decide (reason ∈ reasons))
       [MatcherBudgetExceeded; SeriesConflict; MediaTypeConflict; SeasonConflict; EpisodeConflict;
        DateConflict; YearConflict; TitleConflict; FileSizeConflict; NoPrimaryVideoOverlap]).

Definition candidate_files (manifest : TorrentManifest) : list TorrentFile :=
  sort_by (fun a b => tf_ordinal a <=? tf_ordinal b)
    (List.filter (fun file => negb (tf_padding file)) (tm_files manifest)).

Definition build_mapping (candidates : list TorrentFile)
    (sources : list (SourceId * LocalSourceFile)) (pair : nat * nat * Z) : option FileMapping :=
  let '(candidate_index, source_index, score) := pair in
  candidate ← candidates !! candidate_index;
  '(source_id, source) ← sources !! source_index;
  Some {| fm_candidate_ordinal := tf_ordinal candidate;
          fm_source_id := source_id; fm_source_file_id := lsf_id source;
          fm_candidate_path := tf_path candidate; fm_source_path := lsf_path source;
          fm_size := tf_size candidate; fm_score := score |}.

Definition build_mappings (candidates : list TorrentFile)
    (sources : list (SourceId * LocalSourceFile)) (pairs : list (nat * nat * Z))
    : option (list FileMapping) :=
  mappings ← mapM (build_mapping candidates sources) pairs;
  Some (sort_by (fun a b => fm_candidate_ordinal a <=? fm_candidate_ordinal b) mappings).

(** [files.iter().find(|f| f.ordinal == mapping.candidate_ordinal).is_some_and(f)] *)
Definition mapped_file (f : TorrentFile -> bool) (files : list TorrentFile) (mapping : FileMapping)
    : bool :=
  match find (fun file => tf_ordinal file =? fm_candidate_ordinal mapping) files with
  | Some file => f file
  | None => false
  end.

Definition exact_path (mapping : FileMapping) : bool :=
  str_eqb (fm_candidate_path mapping) (fm_source_path mapping).

Definition reason_of_mode (mode : MatchMode) : MatchReason :=
  match mode with
  | Strict => MatchStrict
  | Flexible => MatchFlexible
  | Partial => MatchPartial
  | SeasonFromEpisodes => MatchSeasonFromEpisodes
  end.

Definition decision (request : MatchRequest) (mode : MatchMode) (mappings : list FileMapping)
    (compatible_sources : Z) : MatchDecision :=
  let policy := rq_policy request in
  let files := tm_files (rq_candidate request) in
  let mapped_bytes := sum_u64 (map fm_size mappings) in
  let total := required_bytes request in
  let mapped_required :=
    sum_u64 (map fm_size
      (List.filter (mapped_file (fun file => required file policy) files) mappings)) in
  let source_ids := dedup (sort_by str_leb (map fm_source_id mappings)) in
  let mapped_primary :=
    List.filter (mapped_file (fun file => primary file policy) files) mappings in
  let evidence := base_evidence request in
  {| md_outcome := Match; md_mode := Some mode; md_reason := reason_of_mode mode;
     md_source_ids := source_ids; md_mappings := mappings; md_mapped_bytes := mapped_bytes;
     md_missing_bytes := saturating_sub_u total mapped_required;
     md_present_ratio := Ratio_from_bytes mapped_required total;
     md_requires_recheck := true;
     md_evidence :=
       {| me_candidate_files := me_candidate_files evidence;
          me_required_files := me_required_files evidence;
          me_primary_files := me_primary_files evidence;
          me_mapped_files := Z.of_nat (length mappings);
          me_mapped_primary_files := Z.of_nat (length mapped_primary);
          me_mapped_primary_bytes := sum_u64 (map fm_size mapped_primary);
          me_exact_path_mappings := count exact_path mappings;
          me_compatible_sources := compatible_sources;
          me_qbit_sources :=
            count (fun source_id =>
                     existsb (fun source => str_eqb (lsm_id source) source_id
                                            && bool_decide (lsm_kind source = QbittorrentTorrent))
                       (rq_sources request)) source_ids |} |}.

Definition file_failure_reason (candidates : list TorrentFile)
    (sources : list (SourceId * LocalSourceFile)) (policy : MatchingPolicy) : MatchReason :=
  if existsb (fun candidate =>
                required candidate policy
                && existsb (fun '(_, source) =>
                              (str_eqb (tf_path candidate) (lsf_path source)
                               || str_eqb (basename (tf_path candidate)) (basename (lsf_path source)))
                              && negb (tf_size candidate =? lsf_size source)) sources) candidates
  then FileSizeConflict else NoPrimaryVideoOverlap.

(** [quality]: compared lexicographically; a [Reverse] component is negated. *)
Definition quality (decision : MatchDecision) : list Z :=
  [match md_mode decision with
   | Some Strict => 4 | Some Flexible => 3 | Some Partial => 2 | Some SeasonFromEpisodes => 1
   | None => 0
   end;
   me_mapped_primary_bytes (md_evidence decision);
   me_exact_path_mappings (md_evidence decision);
   - Z.of_nat (length (md_source_ids decision));
   me_qbit_sources (md_evidence decision);
   Z.of_nat (length (md_mappings decision))].

(** [sort_by_key(Reverse(quality))], then the tie test on the two best *)
Definition choose (choices : list MatchDecision) : option MatchDecision :=
  match sort_by (fun a b => str_leb (quality b) (quality a)) choices with
  | [] => None
  | first :: rest =>
      let tied :=
        match rest with
        | second :: _ =>
            bool_decide (quality first = quality second)
            && negb (bool_decide (md_mappings first = md_mappings second))
        | [] => false
        end in
      Some (if tied then rejection AmbiguousFileMapping (md_evidence first) else first)
  end.

(** ** Evaluation of one source, of a season, and of the request *)

(** [SourceEvaluation]; [Decided] is its [Decision]. *)
Inductive SourceEvaluation :=
| Decided (decision : MatchDecision)
| Ambiguous
| NoMatchBecause (reason : MatchReason).

Section Evaluate.
Context {U : Unicode}.
Context (request : MatchRequest).

Notation policy := (rq_policy request).
Notation candidate := (rq_candidate request).

Definition source_mode (candidates : list TorrentFile) (mappings : list FileMapping)
    : option MatchMode :=
  let required := List.filter (fun file => required file policy) candidates in
  let mapped_ordinals := map fm_candidate_ordinal mappings in
  let all_required :=
    forallb (fun file => bool_decide (tf_ordinal file ∈ mapped_ordinals)) required in
  let exact_required :=
    forallb (fun file =>
               existsb (fun mapping => (fm_candidate_ordinal mapping =? tf_ordinal file)
                                       && exact_path mapping) mappings) required in
  let mapped_primary :=
    count (mapped_file (fun file => primary file policy) candidates) mappings in
  if all_required && exact_required then Some Strict
  else if all_required && mp_allow_flexible policy then Some Flexible
  else if (0 <? mapped_primary) && mp_allow_partial policy then Some Partial
  else None.

Definition evaluate_source (source : LocalSourceManifest) : option SourceEvaluation :=
  let candidates := candidate_files candidate in
  let sources := map (fun file => (lsm_id source, file)) (lsm_files source) in
  assignment ← assign_with candidates sources policy (fun c s => edge_score c s policy false);
  match assignment with
  | Err BudgetExceeded => Some (NoMatchBecause MatcherBudgetExceeded)
  | Ok assignment =>
      if as_ambiguous assignment then Some Ambiguous else
      mappings ← build_mappings candidates sources (as_pairs assignment);
      Some match source_mode candidates mappings with
      | None => NoMatchBecause (file_failure_reason candidates sources policy)
      | Some mode => Decided (decision request mode mappings 1)
      end
  end.

Definition episode_source (source : LocalSourceManifest) : bool :=
  is_ok (compatible (rq_candidate_release request) (lsm_release source) true)
  && bool_decide (rd_kind (lsm_release source) = Episode)
  && bool_decide (rd_season (lsm_release source) = rd_season (rq_candidate_release request)).

Definition evaluate_season (sources : list LocalSourceManifest) : option SourceEvaluation :=
  let episode_sources :=
    flat_map (fun source => map (fun file => (lsm_id source, file)) (lsm_files source))
      (List.filter episode_source sources) in
  if bool_decide (length episode_sources = O) then Some (NoMatchBecause NoPrimaryVideoOverlap) else
  let candidates := candidate_files candidate in
  assignment ← assign_with candidates episode_sources policy (fun c s => edge_score c s policy true);
  match assignment with
  | Err BudgetExceeded => Some (NoMatchBecause MatcherBudgetExceeded)
  | Ok assignment =>
      if as_ambiguous assignment then Some Ambiguous else
      mappings ← build_mappings candidates episode_sources (as_pairs assignment);
      Some (if negb (existsb (mapped_file (fun file => primary file policy) candidates) mappings)
      then NoMatchBecause NoPrimaryVideoOverlap
      else
        let source_count := Z.of_nat (length (remove_dups (map fm_source_id mappings))) in
        Decided (decision request SeasonFromEpisodes mappings source_count))
  end.

(** [conflicts] and [choices]; an ambiguous source ends the evaluation. *)
Definition evaluate_one (acc : list MatchReason * list MatchDecision) (source : LocalSourceManifest)
    : result (option MatchReason) (list MatchReason * list MatchDecision) :=
  let '(conflicts, choices) := acc in
  match compatible (rq_candidate_release request) (lsm_release source) false with
  | Err reason => Ok (conflicts ++ [reason], choices)
  | Ok tt =>
      match evaluate_source source with
      | None => Err None
      | Some (Decided decision) => Ok (conflicts, choices ++ [decision])
      | Some Ambiguous => Err (Some AmbiguousFileMapping)
      | Some (NoMatchBecause reason) => Ok (conflicts ++ [reason], choices)
      end
  end.

Definition already_present : bool :=
  existsb (fun source =>
             (bool_decide (is_Some (ih_v1 (tm_hashes candidate)))
              && bool_decide (ih_v1 (tm_hashes candidate) = ih_v1 (lsm_hashes source)))
             || (bool_decide (is_Some (ih_v2 (tm_hashes candidate)))
                 && bool_decide (ih_v2 (tm_hashes candidate) = ih_v2 (lsm_hashes source))))
    (rq_sources request).

Definition already_present_decision (evidence : MatchEvidence) : MatchDecision :=
  {| md_outcome := AlreadyPresent; md_mode := None; md_reason := ReasonAlreadyPresent;
     md_source_ids := []; md_mappings := []; md_mapped_bytes := 0;
     md_missing_bytes := required_bytes request; md_present_ratio := Ratio_ZERO;
     md_requires_recheck := false; md_evidence := evidence |}.

(** The available sources, in the order of their ids. *)
Definition ordered_sources : list LocalSourceManifest :=
  sort_by (fun a b => str_leb (lsm_id a) (lsm_id b))
    (List.filter lsm_available (rq_sources request)).

(** [PureMatcher::evaluate]; [None] is a panic. *)
Definition evaluate : option MatchDecision :=
  let evidence := base_evidence request in
  match validate_manifest candidate with
  | Some reason => Some (rejection reason evidence)
  | None =>
      if already_present then Some (already_present_decision evidence)
      else if input_budget_exceeded request
      then Some (rejection MatcherBudgetExceeded evidence)
      else
        let sources := ordered_sources in
        match try_fold evaluate_one sources ([], []) with
        | Err None => None
        | Err (Some reason) => Some (rejection reason evidence)
        | Ok (conflicts, choices) =>
            let finish conflicts choices :=
              match choose choices with
              | Some decision => decision
              | None => no_match (best_reason conflicts) evidence request
              end in
            if mp_allow_season_from_episodes policy
               && bool_decide (rd_kind (rq_candidate_release request) = SeasonPack)
            then
              season ← evaluate_season sources;
              Some match season with
              | Decided decision => finish conflicts (choices ++ [decision])
              | Ambiguous => rejection AmbiguousFileMapping evidence
              | NoMatchBecause reason => finish (conflicts ++ [reason]) choices
              end
            else Some (finish conflicts choices)
        end
  end.
End Evaluate.

(** ** Concrete runs *)

Definition example_request (sources : list LocalSourceManifest) : MatchRequest :=
  {| rq_candidate :=
       {| tm_hashes := no_hashes;
          tm_files := [mkTorrentFile 0 (lit "Show.S01/Show.S01E02.mkv") 2000 false;
                       mkTorrentFile 1 (lit "Show.S01/Show.S01E01.mkv") 2000 false;
                       mkTorrentFile 2 (lit "Show.S01/show.nfo") 7 false];
          tm_piece_length := Some 16384; tm_piece_files := [] |};
     rq_candidate_release := parse_release (U := ascii_unicode) (lit "Show.S01.1080p");
     rq_sources := sources; rq_policy := default_policy |}.

Definition example_source (id : Z) (name : string) : LocalSourceManifest :=
  {| lsm_id := [id]; lsm_kind := QbittorrentTorrent;
     lsm_release := parse_release (U := ascii_unicode) (lit name); lsm_hashes := no_hashes;
     lsm_files := [mkLocalSourceFile 0 (lit name) 2000 None None]; lsm_available := true |}.

Example evaluate_season_run :
  option_map (fun d => (md_mode d, md_source_ids d, map fm_candidate_ordinal (md_mappings d),
                        md_missing_bytes d, md_present_ratio d))
    (evaluate (U := ascii_unicode) (example_request
       [example_source 9 "Show.S01E02.mkv"; example_source 3 "Show.S01E01.mkv"]))
  = Some (Some SeasonFromEpisodes, [[3]; [9]], [0; 1], 0, 1000000).
Proof. vm_compute. reflexivity. Qed.

Example evaluate_no_source_run :
  option_map md_reason (evaluate (U := ascii_unicode) (example_request []))
  = Some NoPrimaryVideoOverlap.
Proof. vm_compute. reflexivity. Qed.
