(* ===== verification/MatcherAssign.v ===== *)
(** Correctness of [assign_with]: the edge list holds exactly the scored pairs, the
    objective never overflows, and the returned pairs are the unique heaviest one-to-one
    mapping of candidate files to source files.

    The proof has the parts of the code: buckets and edges ([build_edges_spec]), the weight
    matrices ([matrix_spec]), one component ([solve_component_spec]) and the loop over
    components ([assign_components_spec]), glued by [filemap], the graph-level notion of a
    matching. *)

From S2P Require Import Prelude Model Text Release Hungarian Assignment Component Matcher.

Local Open Scope Z_scope.

(** The limits that config.rs accepts *)
Definition max_files_limit : Z := 100000.
Definition max_edges_limit : Z := 1000000.

Lemma push_lt {A} i (x : A) v : (i < length v)%nat -> push i x v = Some (<[i := (v !!! i) ++ [x]]> v).
Proof.
  intros Hi. unfold push. rewrite (list_lookup_lookup_total_lt v) by done. cbn [mbind option_bind].
  by apply put_lt.
Qed.

Section Edges.
Context (candidates : list TorrentFile) (sources : list (SourceId * LocalSourceFile)).
Context (policy : MatchingPolicy).
Context (score : TorrentFile -> LocalSourceFile -> option Z).

Notation ncand := (length candidates).
Notation nsrc := (length sources).

Definition score_at (c s : nat) : option Z := score (candidate_at candidates c) (source_at sources s).

Definition same_bucket (c s : nat) : Prop :=
  source_key sources policy s = candidate_key candidates policy c.

Lemma source_buckets_fold l (m : gmap BucketKey (list nat)) key :
  default [] (foldl (fun m i => <[source_key sources policy i :=
                       default [] (m !! source_key sources policy i) ++ [i]]> m) m l !! key)
  = default [] (m !! key) ++ List.filter (fun i => bool_decide (source_key sources policy i = key)) l.
Proof using.
  revert m. induction l as [|i l IH]; intros m; cbn [foldl List.filter].
  - by rewrite app_nil_r.
  - rewrite IH. case_bool_decide as Hk.
    + subst key. rewrite lookup_insert_eq. cbn. by rewrite <- app_assoc.
    + by rewrite lookup_insert_ne.
Qed.

Lemma source_buckets_lookup key :
  default [] (source_buckets sources policy !! key)
  = List.filter (fun i => bool_decide (source_key sources policy i = key)) (seq 0 nsrc).
Proof using. unfold source_buckets. by rewrite source_buckets_fold, lookup_empty. Qed.

Lemma length_concat_insert {A} (ls : list (list A)) i x :
  (i < length ls)%nat ->
  length (concat (<[i := (ls !!! i) ++ [x]]> ls)) = S (length (concat ls)).
Proof using.
  revert i. induction ls as [|l ls IH]; intros i Hi; [cbn in Hi; lia|].
  destruct i as [|i]; cbn [concat insert list_insert].
  - rewrite !length_app. cbn. lia.
  - change ((l :: ls) !!! S i) with (ls !!! i). rewrite length_app.
    fold (<[i := (ls !!! i) ++ [x]]> ls). rewrite IH by (cbn in Hi; lia). rewrite length_app. lia.
Qed.

(** The edge state after the pairs in [P] have been examined. *)
Record Edges (P : nat -> nat -> Prop) (st : EdgeState) : Prop := {
  e_len : length (es_edges st) = ncand;
  e_lenr : length (es_reverse st) = nsrc;
  e_edge : forall c s v, (c < ncand)%nat ->
    ((s, v) ∈ es_edges st !!! c <-> P c s /\ score_at c s = Some v);
  e_rev : forall c s, (s < nsrc)%nat ->
    (c ∈ es_reverse st !!! s <-> P c s /\ is_Some (score_at c s));
  e_nodup : forall c, (c < ncand)%nat -> NoDup (map fst (es_edges st !!! c));
  e_count : es_count st = Z.of_nat (length (concat (es_edges st)));
  e_max : es_count st <= Z.max 0 (mp_max_candidate_edges policy) }.

Lemma Edges_iff P Q st : (forall c s, P c s <-> Q c s) -> Edges P st -> Edges Q st.
Proof using.
  intros HPQ []. split; try done; intros; rewrite <- HPQ; auto.
Qed.

Lemma source_lookup s : (s < nsrc)%nat -> exists id, sources !! s = Some (id, source_at sources s).
Proof using.
  intros Hs. unfold source_at. destruct (lookup_lt_is_Some_2 sources s Hs) as [[id f] Hl].
  exists id. by rewrite Hl, (nth_lookup_Some _ _ _ _ Hl).
Qed.

Lemma candidate_lookup c : (c < ncand)%nat -> candidates !! c = Some (candidate_at candidates c).
Proof using.
  intros Hc. unfold candidate_at. destruct (lookup_lt_is_Some_2 candidates c Hc) as [f Hl].
  by rewrite Hl, (nth_lookup_Some _ _ _ _ Hl).
Qed.

(** Within bounds [edge_step] does not panic. *)
Lemma edge_step_eq P st c s :
  Edges P st -> (c < ncand)%nat -> (s < nsrc)%nat ->
  edge_step candidates sources policy score c st s
  = match score_at c s with
    | None => Ok st
    | Some value =>
        edge_count ← ok_or (checked_add_u64 (es_count st) 1) ExitBudget;
        _ ← bail_if (mp_max_candidate_edges policy <? edge_count) ExitBudget;
        Ok {| es_edges := <[c := (es_edges st !!! c) ++ [(s, value)]]> (es_edges st);
              es_reverse := <[s := (es_reverse st !!! s) ++ [c]]> (es_reverse st);
              es_count := edge_count |}
    end.
Proof using.
  intros HE Hc Hs. pose proof (e_len _ _ HE) as Hlen. pose proof (e_lenr _ _ HE) as Hlenr.
  unfold edge_step, score_at. destruct (source_lookup s Hs) as [id ->].
  cbn [checked ok_or mbind result_bind snd].
  destruct (score _ _) as [value|]; [|done].
  rewrite !push_lt by lia. cbn [checked ok_or mbind result_bind].
  by destruct (checked_add_u64 _ _); [|done].
Qed.

Lemma edge_step_err P st c s e :
  Edges P st -> (c < ncand)%nat -> (s < nsrc)%nat ->
  edge_step candidates sources policy score c st s = Err e ->
  e = ExitBudget /\
  (es_count st + 1 > u64_max \/ mp_max_candidate_edges policy < es_count st + 1).
Proof using.
  intros HE Hc Hs. rewrite (edge_step_eq P) by done. case_match; [|done]. unfold checked_add_u64.
  destruct (Z.leb_spec (es_count st + 1) u64_max); [|intros [= <-]; split; [done|left; lia]].
  cbn [ok_or mbind result_bind]. unfold bail_if.
  destruct (Z.ltb_spec (mp_max_candidate_edges policy) (es_count st + 1)); [|done].
  intros [= <-]. by split; [|right].
Qed.

Lemma edge_step_ok P st c s st' :
  Edges P st -> (c < ncand)%nat -> (s < nsrc)%nat -> ~ P c s ->
  edge_step candidates sources policy score c st s = Ok st' ->
  Edges (fun c' s' => P c' s' \/ (c' = c /\ s' = s)) st'.
Proof using.
  intros HE Hc Hs HnP. rewrite (edge_step_eq P) by done.
  destruct (score_at c s) as [value|] eqn:Hv; unfold score_at in Hv.
  - intros H. apply bind_Ok in H as (n & Hn%ok_or_Ok & H).
    apply bind_Ok in H as (u & Hmax%bail_if_Ok & [= <-]).
    apply checked_add_u64_Some in Hn as [-> _]. apply Z.ltb_ge in Hmax.
    pose proof (e_len _ _ HE) as Hlen. pose proof (e_lenr _ _ HE) as Hlenr.
    split; cbn [es_edges es_reverse es_count].
    + by rewrite length_insert.
    + by rewrite length_insert.
    + intros c' s' v' Hc'. destruct (decide (c' = c)) as [->|Hne].
      * rewrite list_lookup_total_insert_eq by lia. rewrite elem_of_app, list_elem_of_singleton.
        rewrite (e_edge _ _ HE) by done. unfold score_at in *. split.
        -- intros [[? ?]|[= -> ->]]; [auto|]. split; [by right|done].
        -- intros [[?|[_ ->]] Hsc]; [by left|right]. congruence.
      * rewrite list_lookup_total_insert_ne by done. rewrite (e_edge _ _ HE) by done. naive_solver.
    + intros c' s' Hs'. destruct (decide (s' = s)) as [->|Hne].
      * rewrite list_lookup_total_insert_eq by lia. rewrite elem_of_app, list_elem_of_singleton.
        rewrite (e_rev _ _ HE) by done. unfold score_at in *. split.
        -- intros [[? ?]| ->]; [auto|]. split; [by right|by eexists].
        -- intros [[?|[-> _]] Hsc]; [by left|by right].
      * rewrite list_lookup_total_insert_ne by done. rewrite (e_rev _ _ HE) by done. naive_solver.
    + intros c' Hc'. destruct (decide (c' = c)) as [->|Hne].
      * rewrite list_lookup_total_insert_eq by lia. rewrite map_app. cbn [map].
        apply NoDup_app. split_and!; [by apply (e_nodup _ _ HE)| |apply NoDup_singleton].
        intros x ([s' v'] & Hx' & Hx)%list_elem_of_fmap ->%list_elem_of_singleton. cbn in Hx'. subst s'.
        apply (e_edge _ _ HE) in Hx as [Hx _]; done.
      * rewrite list_lookup_total_insert_ne by done. by apply (e_nodup _ _ HE).
    + rewrite length_concat_insert by lia. rewrite (e_count _ _ HE). lia.
    + lia.
  - intros [= <-]. split; try apply HE.
    + intros c' s' v Hc'. rewrite (e_edge _ _ HE) by done. split; [intros [? ?]; auto|].
      intros [[?|[-> ->]] Hsc]; [done|]. unfold score_at in Hsc. congruence.
    + intros c' s' Hs'. rewrite (e_rev _ _ HE) by done. split; [intros [? ?]; auto|].
      intros [[?|[-> ->]] [v Hsc]]; [by split; [|exists v]|]. unfold score_at in Hsc. congruence.
Qed.

Definition bucket_of (c : nat) : list nat :=
  default [] (source_buckets sources policy !! candidate_key candidates policy c).

Lemma elem_of_bucket c s : s ∈ bucket_of c <-> (s < nsrc)%nat /\ same_bucket c s.
Proof using.
  unfold bucket_of. rewrite source_buckets_lookup, list_elem_of_In, filter_In, in_seq,
    bool_decide_eq_true. unfold same_bucket. naive_solver lia.
Qed.

Lemma NoDup_bucket c : NoDup (bucket_of c).
Proof using.
  unfold bucket_of. rewrite source_buckets_lookup.
  apply NoDup_ListNoDup, List.NoDup_filter, seq_NoDup.
Qed.

(** The inner loop after the prefix [pre] of the bucket *)
Lemma bucket_loop P st c pre post st' :
  Edges P st -> (c < ncand)%nat -> (forall s, ~ P c s) -> bucket_of c = pre ++ post ->
  try_fold (edge_step candidates sources policy score c) pre st = Ok st' ->
  Edges (fun c' s' => P c' s' \/ (c' = c /\ s' ∈ pre)) st'.
Proof using.
  intros HE Hc HnP Hb. pose proof (NoDup_bucket c) as Hnd. rewrite Hb in Hnd.
  apply (try_fold_inv _ (fun pre st => Edges (fun c' s' => P c' s' \/ (c' = c /\ s' ∈ pre)) st)).
  - eapply Edges_iff; [|exact HE]. intros c' s'. rewrite elem_of_nil. naive_solver.
  - intros pre' s post' b b' Hsplit HEb Hstep.
    eapply Edges_iff; [|eapply (edge_step_ok _ _ c s); [exact HEb|done| | |exact Hstep]].
    + intros c' s'. cbn beta. rewrite elem_of_app, list_elem_of_singleton. naive_solver.
    + apply (elem_of_bucket c). rewrite Hb, Hsplit. set_solver.
    + intros [Hp|[_ Hp]]; [by apply (HnP s)|]. rewrite Hsplit, <- app_assoc in Hnd.
      apply NoDup_app in Hnd as (_ & Hd & _). apply (Hd s); [done|left].
Qed.

Lemma start_edges :
  Edges (fun c s => c ∈ @nil nat /\ s ∈ bucket_of c)
    {| es_edges := replicate ncand []; es_reverse := replicate nsrc []; es_count := 0 |}.
Proof using.
  assert (forall A k i, (i < k)%nat -> @lookup_total nat (list A) _ _ i (replicate k []) = []) as Hrep.
  { intros A k i Hi. apply list_lookup_total_correct. by apply lookup_replicate_2. }
  split; cbn [es_edges es_reverse es_count]; rewrite ?length_replicate; try done.
  - intros c s v Hc. rewrite Hrep by done. rewrite !elem_of_nil. naive_solver.
  - intros c s Hs. rewrite Hrep by done. rewrite !elem_of_nil. naive_solver.
  - intros c Hc. rewrite Hrep by done. apply NoDup_nil_2.
  - replace (length (concat (replicate ncand (@nil (nat * Z))))) with O; [done|].
    induction ncand; done.
  - lia.
Qed.

(** The outer loop after the candidates in [pre] *)
Lemma candidates_loop pre post st :
  seq 0 ncand = pre ++ post ->
  try_fold (candidate_edges candidates sources policy score) pre
    {| es_edges := replicate ncand []; es_reverse := replicate nsrc []; es_count := 0 |} = Ok st ->
  Edges (fun c s => c ∈ pre /\ s ∈ bucket_of c) st.
Proof using.
  intros Hseq. pose proof (NoDup_seq 0 ncand) as Hnd. rewrite Hseq in Hnd.
  apply (try_fold_inv _ (fun pre st => Edges (fun c s => c ∈ pre /\ s ∈ bucket_of c) st)).
  - apply start_edges.
  - intros pre' c post' b b' Hsplit HEb Hstep.
    assert (c ∈ seq 0 ncand) as Hc by (rewrite Hseq, Hsplit; set_solver). apply elem_of_seq in Hc.
    eapply Edges_iff; [|eapply (bucket_loop _ _ c _ []); [exact HEb|lia| |by rewrite app_nil_r|exact Hstep]].
    + intros c' s'. cbn beta. rewrite elem_of_app, list_elem_of_singleton. naive_solver.
    + intros s [Hp _]. rewrite Hsplit, <- app_assoc in Hnd.
      apply NoDup_app in Hnd as (_ & Hd & _). apply (Hd c); [done|left].
Qed.

(** The edge list: exactly the scored pairs of equal buckets. *)
Definition scored (c s : nat) : Prop := (c < ncand)%nat /\ (s < nsrc)%nat /\ same_bucket c s.

Lemma build_edges_spec st :
  build_edges candidates sources policy score = Ok st -> Edges scored st.
Proof using.
  intros Hrun. eapply Edges_iff; [|apply (candidates_loop (seq 0 ncand) []); [by rewrite app_nil_r|exact Hrun]].
  intros c s. cbn beta. unfold scored. rewrite elem_of_bucket, elem_of_seq. naive_solver lia.
Qed.

Lemma length_concat_le {A} (ls : list (list A)) k :
  (forall l, l ∈ ls -> (length l <= k)%nat) -> (length (concat ls) <= length ls * k)%nat.
Proof using.
  induction ls as [|l ls IH]; intros H; [done|]. cbn [concat length]. rewrite length_app.
  pose proof (H l ltac:(left)). specialize (IH ltac:(intros; apply H; by right)). lia.
Qed.

Lemma length_concat_lt {A} (ls : list (list A)) k c :
  (c < length ls)%nat -> (forall l, l ∈ ls -> (length l <= k)%nat) ->
  (length (ls !!! c) < k)%nat -> (length (concat ls) < length ls * k)%nat.
Proof using.
  revert c. induction ls as [|l ls IH]; intros c Hc H Hlt; [cbn in Hc; lia|].
  cbn [concat length]. rewrite length_app. destruct c as [|c].
  - pose proof (length_concat_le ls k ltac:(intros; apply H; by right)).
    change ((l :: ls) !!! O) with l in Hlt. lia.
  - change ((l :: ls) !!! S c) with (ls !!! c) in Hlt. pose proof (H l ltac:(left)).
    specialize (IH c ltac:(cbn in Hc; lia) ltac:(intros; apply H; by right) Hlt). lia.
Qed.

(** As long as some pair has not been examined, the edge count is below all pairs. *)
Lemma edge_count_room P st c s :
  Edges P st -> (forall c s, P c s -> (s < nsrc)%nat) ->
  (c < ncand)%nat -> (s < nsrc)%nat -> ~ P c s ->
  es_count st < Z.of_nat ncand * Z.of_nat nsrc.
Proof using.
  intros HE HP Hc Hs HnP. rewrite (e_count _ _ HE), <- Nat2Z.inj_mul, <- (e_len _ _ HE).
  apply inj_lt, (length_concat_lt _ _ c).
  - rewrite (e_len _ _ HE). done.
  - intros l Hl. apply list_elem_of_lookup_total_1 in Hl as (i & Hi & <-).
    rewrite (e_len _ _ HE) in Hi. rewrite <- (length_map fst), <- (length_seq nsrc 0).
    apply submseteq_length, NoDup_submseteq; [by apply (e_nodup _ _ HE)|].
    intros x ([x' v] & -> & Hx)%list_elem_of_fmap. apply (e_edge _ _ HE) in Hx as [Hx _]; [|done].
    apply elem_of_seq. apply HP in Hx. cbn. lia.
  - rewrite <- (length_map fst), <- (length_seq nsrc 0). apply Nat.lt_le_trans with
      (length (s :: map fst (es_edges st !!! c))); [cbn; lia|].
    apply submseteq_length, NoDup_submseteq.
    + constructor; [|by apply (e_nodup _ _ HE)].
      intros ([x' v] & Hx' & Hx)%list_elem_of_fmap. cbn in Hx'. subst x'.
      apply (e_edge _ _ HE) in Hx as [Hx _]; done.
    + intros x [->|([x' v] & -> & Hx)%list_elem_of_fmap]%elem_of_cons; apply elem_of_seq; [lia|].
      apply (e_edge _ _ HE) in Hx as [Hx _]; [|done]. apply HP in Hx. cbn. lia.
Qed.

Lemma build_edges_budget e :
  build_edges candidates sources policy score = Err e ->
  mp_max_candidate_edges policy <= max_edges_limit ->
  e = ExitBudget /\ mp_max_candidate_edges policy < Z.of_nat ncand * Z.of_nat nsrc.
Proof using.
  intros Hrun Hmax. apply try_fold_Err in Hrun as (pre & c & post & b & Hsplit & Hpre & Hc).
  pose proof (candidates_loop pre (c :: post) b Hsplit Hpre) as HEb.
  assert (c ∈ seq 0 ncand) as Hcin by (rewrite Hsplit; set_solver). apply elem_of_seq in Hcin.
  assert (forall s, ~ (c ∈ pre /\ s ∈ bucket_of c)) as Hnew.
  { intros s [Hp _]. pose proof (NoDup_seq 0 ncand) as Hnd. rewrite Hsplit in Hnd.
    apply NoDup_app in Hnd as (_ & Hd & _). apply (Hd c); [done|left]. }
  unfold candidate_edges in Hc. fold (bucket_of c) in Hc.
  apply try_fold_Err in Hc as (pre2 & s & post2 & b2 & Hsplit2 & Hpre2 & Hs).
  pose proof (bucket_loop _ _ c pre2 (s :: post2) b2 HEb ltac:(lia) Hnew Hsplit2 Hpre2) as HE2.
  assert (s ∈ bucket_of c) as Hsin by (rewrite Hsplit2; set_solver).
  assert (es_count b2 < Z.of_nat ncand * Z.of_nat nsrc) as Hroom.
  { apply (edge_count_room _ _ c s HE2); [|lia|by apply (elem_of_bucket c)|].
    - intros c' s' [[_ Hb]|[-> Hb]]; [by apply (elem_of_bucket c')|].
      apply (elem_of_bucket c). rewrite Hsplit2. set_solver.
    - intros [[Hp _]|[_ Hp]]; [by apply (Hnew s)|].
      pose proof (NoDup_bucket c) as Hnd. rewrite Hsplit2 in Hnd.
      apply NoDup_app in Hnd as (_ & Hd & _). apply (Hd s); [done|left]. }
  pose proof (e_max _ _ HE2). unfold max_edges_limit in Hmax.
  assert (s < nsrc)%nat as Hsr by by apply (elem_of_bucket c).
  apply (edge_step_err _ _ _ _ _ HE2) in Hs as [-> Hs]; [|lia|done]. split; [done|].
  destruct Hs as [Hs|Hs]; [unfold u64_max in Hs|]; lia.
Qed.

Lemma edges_graph st :
  Edges scored st -> graph (es_edges st) (es_reverse st) ncand nsrc.
Proof using.
  intros HE. split; [apply (e_len _ _ HE)|apply (e_lenr _ _ HE)|..].
  - intros c s v Hc Hsv. apply (e_edge _ _ HE) in Hsv as [(H1 & H2 & H3) Hv]; [|done].
    split; [done|]. apply (e_rev _ _ HE); [done|]. split; [done|by eexists].
  - intros s c Hs Hc. apply (e_rev _ _ HE) in Hc as [(H1 & H2 & H3) [v Hv]]; [|done].
    split; [done|]. exists v. by apply (e_edge _ _ HE).
Qed.
End Edges.

(** ** Matrix rows *)

Lemma cell_in_range (m : list (list (option Z))) r k columns :
  (r < length m)%nat -> Forall (fun row => length row = columns) m -> (k < columns)%nat ->
  cell m r k = Some (weight_at m r k).
Proof.
  intros Hr Hm Hk. unfold cell, weight_at. rewrite (list_lookup_lookup_total_lt m) by done.
  cbn [mbind option_bind]. apply list_lookup_lookup_total_lt.
  rewrite Forall_forall in Hm. rewrite (Hm (m !!! r)); [done|]. by apply list_elem_of_lookup_total_2.
Qed.

(** Positions in a duplicate-free index list *)
Definition pos (l : list nat) (x : nat) : nat := default O (source_position l x).

Lemma source_position_elem l x :
  x ∈ l -> source_position l x = Some (pos l x) /\ (pos l x < length l)%nat /\ l !!! pos l x = x.
Proof.
  intros Hx. unfold pos, source_position. destruct (list_find (fun s => s = x) l) as [[i y]|] eqn:Hf.
  - apply list_find_Some in Hf as (Hi & -> & _). cbn. split_and!; [done| |].
    + by eapply lookup_lt_Some.
    + by apply list_lookup_total_correct.
  - apply list_find_None in Hf. rewrite Forall_forall in Hf. by destruct (Hf x Hx).
Qed.

Lemma pos_lookup l k : NoDup l -> (k < length l)%nat -> pos l (l !!! k) = k.
Proof.
  intros Hnd Hk. destruct (source_position_elem l (l !!! k)) as (_ & Hlt & He).
  { by apply list_elem_of_lookup_total_2. }
  pose proof (list_lookup_lookup_total_lt l _ Hlt) as Hp. rewrite He in Hp.
  eapply (NoDup_lookup l _ _ (l !!! k)); [done|exact Hp|by apply list_lookup_lookup_total_lt].
Qed.

Lemma fill_row_spec (S : list nat) (f : Z -> option Z) (g : Z -> Z) es row :
  NoDup S -> NoDup (map fst es) -> (forall s v, (s, v) ∈ es -> s ∈ S /\ f v = Some (g v)) ->
  length row = length S ->
  exists row', fill_row S f es row = Some row' /\ length row' = length S /\
    (forall k v, (k < length S)%nat -> (S !!! k, v) ∈ es -> row' !!! k = Some (g v)) /\
    (forall k, (k < length S)%nat -> S !!! k ∉ map fst es -> row' !!! k = row !!! k).
Proof.
  intros HS. revert row. induction es as [|[s v] es IH]; intros row Hnd Hin Hlen.
  - exists row. split_and!; [done|done| |done]. intros k v _ Hk. by apply not_elem_of_nil in Hk.
  - cbn [map fst] in Hnd. apply NoDup_cons in Hnd as [Hs Hnd].
    destruct (Hin s v ltac:(left)) as [HsS Hfv].
    destruct (source_position_elem S s HsS) as (Hp & Hlt & Hl).
    destruct (IH (<[pos S s := Some (g v)]> row)) as (row' & Hrun & Hlen' & H1 & H2).
    { done. } { intros s' v' H. apply (Hin s' v'). by right. } { by rewrite length_insert. }
    exists row'. split_and!; [|done| |].
    + cbn [fill_row]. rewrite Hp. cbn [mbind option_bind]. rewrite Hfv. cbn [mbind option_bind].
      rewrite put_lt by lia. exact Hrun.
    + intros k v' Hk [[= Hk1 ->]|Hk2]%elem_of_cons; [|by apply H1].
      assert (k = pos S s) as -> by (rewrite <- Hk1; symmetry; by apply pos_lookup).
      rewrite H2; [|done|by rewrite Hl]. apply list_lookup_total_insert_eq. lia.
    + intros k Hk Hni. cbn [map fst] in Hni. apply not_elem_of_cons in Hni as [Hne Hni].
      rewrite H2 by done. apply list_lookup_total_insert_ne. intros <-. done.
Qed.

(** ** The objective *)

(** The sum of all score constants. *)
Definition max_score : Z := 1111111.

(** Limits under which the [u128] objective cannot wrap: what a configuration may set
    (config.rs), and torrents whose size is a [u64]. *)
Definition policy_in_range (policy : MatchingPolicy) : Prop :=
  0 <= mp_max_assignment_files policy <= max_files_limit /\
  0 <= mp_max_candidate_edges policy <= max_edges_limit.

Definition sizes_u64 (candidates : list TorrentFile) : Prop :=
  Forall (fun file => 0 <= tf_size file) candidates /\ sum_Z (map tf_size candidates) <= u64_max.

Lemma sizes_u64_elem candidates file : sizes_u64 candidates -> file ∈ candidates -> is_u64 (tf_size file).
Proof.
  intros [Hp Hs] Hin. rewrite Forall_forall in Hp. split; [by apply Hp|]. etransitivity; [|exact Hs].
  replace (tf_size file) with (sum_Z (map tf_size [file])) by (cbn; lia).
  apply sum_submseteq; [by apply singleton_submseteq_l|done].
Qed.

Lemma sizes_u64_submseteq l k : l ⊆+ k -> sizes_u64 k -> sizes_u64 l.
Proof.
  intros Hl [Hp Hs]. rewrite Forall_forall in Hp. split.
  - apply Forall_forall. intros file Hin. apply Hp. by eapply elem_of_submseteq.
  - etransitivity; [by apply sum_submseteq|done].
Qed.

Lemma filter_submseteq {A} (f : A -> bool) l : List.filter f l ⊆+ l.
Proof. induction l as [|x l IH]; cbn; [done|]. destruct (f x); by constructor. Qed.

Definition score_bounded (score : TorrentFile -> LocalSourceFile -> option Z) : Prop :=
  forall c s v, score c s = Some v -> 1 <= v <= max_score.

Definition weight_limit : Z := 2^107.

Section Objective.
Context (candidates : list TorrentFile) (sources : list (SourceId * LocalSourceFile)).
Context (policy : MatchingPolicy) (score : TorrentFile -> LocalSourceFile -> option Z).
Context (st : EdgeState) (HE : Edges candidates sources policy score (scored candidates sources policy) st).
Context (Hpolicy : policy_in_range policy) (Hsizes : sizes_u64 candidates).
Context (Hscore : score_bounded score).
Context (Hfiles : Z.of_nat (length candidates) <= mp_max_assignment_files policy).
#[local] Set Default Proof Using "All".

Notation ncand := (length candidates).
Notation nsrc := (length sources).
Notation edges := (es_edges st).

Lemma candidate_at_elem c : (c < ncand)%nat -> candidate_at candidates c ∈ candidates.
Proof using. intros Hc. apply list_elem_of_In, nth_In, Hc. Qed.

Lemma candidate_size c : (c < ncand)%nat -> is_u64 (tf_size (candidate_at candidates c)).
Proof.
  intros Hc. by eapply sizes_u64_elem, candidate_at_elem.
Qed.

Lemma edge_value c s v : (c < ncand)%nat -> (s, v) ∈ edges !!! c -> 1 <= v <= max_score.
Proof. intros Hc Hsv. apply (e_edge _ _ _ _ _ _ HE) in Hsv as [_ Hv]; [|done]. eapply Hscore, Hv. Qed.

Lemma all_values : Forall (fun v => 1 <= v <= max_score) (map snd (concat edges)).
Proof.
  apply Forall_forall. intros v ([s v'] & -> & Hsv)%list_elem_of_fmap.
  apply list_elem_of_In, in_concat in Hsv as (l & Hl & Hsv).
  apply list_elem_of_In in Hl, Hsv. apply list_elem_of_lookup_total_1 in Hl as (c & Hc & <-).
  rewrite (e_len _ _ _ _ _ _ HE) in Hc. by apply (edge_value c s).
Qed.

Definition unit_value : Z := sum_Z (map snd (concat edges)) + 1.

Lemma unit_bound : 1 <= unit_value <= 2^41.
Proof.
  unfold unit_value.
  assert (Forall (fun v => 0 <= v <= max_score) (map snd (concat edges))) as Hf
    by (eapply Forall_impl; [exact all_values|]; cbn; intros; lia).
  pose proof (sum_Z_bounded _ _ Hf) as Hb. rewrite length_map in Hb.
  pose proof (e_count _ _ _ _ _ _ HE). pose proof (e_max _ _ _ _ _ _ HE).
  destruct Hpolicy as [_ [Hm0 Hm]].
  unfold max_edges_limit in Hm. unfold max_score in Hb. lia.
Qed.

Lemma score_unit_eq : score_unit edges = unit_value.
Proof.
  unfold score_unit, unit_value. rewrite sum_u64_small; [done| |].
  - eapply Forall_impl; [exact all_values|]. cbn. lia.
  - pose proof unit_bound. unfold unit_value in *. unfold_ints. lia.
Qed.

Definition primary_total : Z :=
  sum_Z (map tf_size (List.filter (fun candidate => primary candidate policy) candidates)).

Lemma primary_sizes :
  sizes_u64 (List.filter (fun candidate => primary candidate policy) candidates).
Proof. eapply sizes_u64_submseteq; [apply filter_submseteq|exact Hsizes]. Qed.

Lemma primary_total_bound : 0 <= primary_total <= u64_max.
Proof.
  unfold primary_total. destruct primary_sizes as [Hp Hs]. split; [|done].
  apply sum_Z_nonneg. by apply Forall_map.
Qed.

Lemma primary_bytes_eq : primary_bytes candidates policy = primary_total.
Proof.
  pose proof primary_total_bound as Hb. unfold primary_bytes, primary_total in *.
  set (l := List.filter _ candidates) in *.
  transitivity (foldl u128_add 0 (map tf_size l)).
  - clear. generalize 0. induction l as [|x l IH]; intros a; cbn; [done|]. apply IH.
  - rewrite fold_u128; [done| |lia|].
    + apply Forall_map, Forall_forall. intros f Hf. eapply sizes_u64_elem; [apply primary_sizes|exact Hf].
    + unfold u64_max, u128_max in *. lia.
Qed.

Definition required_value : Z := (primary_total + 1) * unit_value.

Lemma required_value_bound : 1 <= required_value <= 2^105.
Proof.
  unfold required_value. pose proof unit_bound. pose proof primary_total_bound.
  unfold u64_max in *. nia.
Qed.

Lemma required_unit_eq : required_unit candidates policy edges = required_value.
Proof.
  unfold required_unit. rewrite primary_bytes_eq, score_unit_eq.
  pose proof required_value_bound. pose proof primary_total_bound.
  unfold u128_mul, u128_add. rewrite (wrap_u_small 128 (primary_total + 1)) by (unfold u64_max in *; lia).
  apply wrap_u_small. unfold required_value in *. lia.
Qed.

(** The weight of an edge without wraps. *)
Definition weight_value (c : nat) (v : Z) : Z :=
  v + (if primary (candidate_at candidates c) policy
       then tf_size (candidate_at candidates c) * unit_value else 0)
    + (if required (candidate_at candidates c) policy then required_value else 0).

Lemma edge_weight_eq c v :
  (c < ncand)%nat -> 1 <= v <= max_score ->
  edge_weight candidates policy edges c v = Some (weight_value c v) /\ 0 < weight_value c v <= weight_limit.
Proof.
  intros Hc Hv. unfold edge_weight, weight_value, weight_limit.
  rewrite (candidate_lookup candidates c Hc). cbn [mbind option_bind].
  rewrite score_unit_eq, required_unit_eq.
  pose proof unit_bound. pose proof required_value_bound.
  pose proof (candidate_size c Hc) as Hs. unfold is_u64, u64_max in Hs.
  set (size := tf_size (candidate_at candidates c)) in *. unfold max_score in *.
  assert (0 <= size * unit_value <= 2^64 * 2^41) as Hp by nia.
  assert (u128_mul size unit_value = size * unit_value) as ->.
  { unfold u128_mul. apply wrap_u_small. lia. }
  set (a := if primary _ _ then _ else _). assert (0 <= a <= 2^64 * 2^41) by (unfold a; case_match; lia).
  set (b := if required _ _ then _ else _). assert (0 <= b <= 2^105) by (unfold b; case_match; lia).
  unfold u128_add. rewrite (wrap_u_small 128 (v + a)) by lia. rewrite wrap_u_small by lia.
  split; [done|lia].
Qed.

(** ** One-to-one mappings between candidate and source files *)

Definition value_at (c s : nat) : Z := default 0 (score_at candidates sources score c s).

Definition filemap (M : list (nat * nat)) : Prop :=
  NoDup (map fst M) /\ NoDup (map snd M) /\
  forall c s, (c, s) ∈ M ->
    scored candidates sources policy c s /\ is_Some (score_at candidates sources score c s).

Definition map_weight (M : list (nat * nat)) : Z :=
  sum_Z (map (fun '(c, s) => weight_value c (value_at c s)) M).

Lemma filemap_edge M c s :
  filemap M -> (c, s) ∈ M -> (c < ncand)%nat /\ (s, value_at c s) ∈ edges !!! c.
Proof.
  intros (_ & _ & HM) Hcs. destruct (HM c s Hcs) as [Hsc [v Hv]]. destruct (Hsc) as (Hc & _).
  split; [done|]. apply (e_edge _ _ _ _ _ _ HE); [done|]. unfold value_at. by rewrite Hv.
Qed.

Lemma edge_scored c s v :
  (c < ncand)%nat -> (s, v) ∈ edges !!! c ->
  scored candidates sources policy c s /\ score_at candidates sources score c s = Some v /\
  value_at c s = v.
Proof.
  intros Hc Hsv. apply (e_edge _ _ _ _ _ _ HE) in Hsv as [Hsc Hv]; [|done].
  unfold value_at. by rewrite Hv.
Qed.

(** ** One component *)

Section Solve.
Context (C S : list nat) (HndC : NoDup C) (HndS : NoDup S) (Hne : C <> []).
Context (HC : forall c, c ∈ C -> (c < ncand)%nat).
Context (HS : forall c s v, c ∈ C -> (s, v) ∈ edges !!! c -> s ∈ S).

Lemma component_at r : (r < length C)%nat -> C !!! r ∈ C /\ (C !!! r < ncand)%nat.
Proof. intros Hr. pose proof (list_elem_of_lookup_total_2 C r Hr). auto. Qed.

Lemma matrix_spec (f : nat -> Z -> option Z) (g : nat -> Z -> Z) :
  (forall c s v, c ∈ C -> (s, v) ∈ edges !!! c -> f c v = Some (g c v)) ->
  exists m, matrix edges C S f = Some m /\ length m = length C /\
    Forall (fun row => length row = length S) m /\
    (forall r k v, (r < length C)%nat -> (k < length S)%nat ->
       (S !!! k, v) ∈ edges !!! (C !!! r) -> weight_at m r k = Some (g (C !!! r) v)) /\
    (forall r k, (r < length C)%nat -> (k < length S)%nat ->
       S !!! k ∉ map fst (edges !!! (C !!! r)) -> weight_at m r k = None).
Proof.
  intros Hf.
  set (P := fun c row => (row_edges ← edges !! c;
                          fill_row S (f c) row_edges (replicate (length S) None)) = Some row /\
    length row = length S /\
    (forall k v, (k < length S)%nat -> (S !!! k, v) ∈ edges !!! c -> row !!! k = Some (g c v)) /\
    (forall k, (k < length S)%nat -> S !!! k ∉ map fst (edges !!! c) -> row !!! k = None)).
  assert (forall c, c ∈ C -> exists row, P c row) as Hrow.
  { intros c Hc. destruct (fill_row_spec S (f c) (g c) (edges !!! c) (replicate (length S) None))
      as (row & H1 & H2 & H3 & H4).
    - done.
    - apply (e_nodup _ _ _ _ _ _ HE). auto.
    - intros s v Hsv. split; [by apply (HS c s v)|by apply (Hf c s v)].
    - apply length_replicate.
    - exists row. split_and!; [|done..|].
      { rewrite (list_lookup_lookup_total_lt edges); [done|]. rewrite (e_len _ _ _ _ _ _ HE). auto. }
       intros k Hk Hni. rewrite H4 by done.
      apply list_lookup_total_correct. by apply lookup_replicate_2. }
  assert (exists m, Forall2 P C m) as (m & Hm).
  { clear -Hrow. induction C as [|c l IH]; [by exists []|].
    destruct (Hrow c ltac:(left)) as (row & Hr).
    destruct IH as (m & Hm); [intros; apply Hrow; by right|]. exists (row :: m). by constructor. }
  exists m. pose proof (Forall2_length _ _ _ Hm) as Hlen.
  assert (forall r, (r < length C)%nat -> P (C !!! r) (m !!! r)) as Hat.
  { intros r Hr. eapply Forall2_lookup_lr; [exact Hm|..]; apply list_lookup_lookup_total_lt; lia. }
  split_and!; [|done| | |].
  - unfold matrix. apply mapM_Some. eapply Forall2_impl; [exact Hm|]. intros c row HP. apply HP.
  - apply Forall_forall. intros row Hr. apply list_elem_of_lookup_total_1 in Hr as (r & Hr & <-).
    apply (Hat r). lia.
  - intros r k v Hr Hk Hv. by apply (Hat r Hr).
  - intros r k Hr Hk Hv. by apply (Hat r Hr).
Qed.

Definition to_global (e : nat * nat) : nat * nat := (C !!! e.1, S !!! e.2).
Definition to_local (e : nat * nat) : nat * nat := (pos C e.1, pos S e.2).

Context (m : list (list (option Z))).
Context (Hlen : length m = length C) (Hrect : Forall (fun row => length row = length S) m).
Context (Hsome : forall r k v, (r < length C)%nat -> (k < length S)%nat ->
  (S !!! k, v) ∈ edges !!! (C !!! r) -> weight_at m r k = Some (weight_value (C !!! r) v)).
Context (Hnone : forall r k, (r < length C)%nat -> (k < length S)%nat ->
  S !!! k ∉ map fst (edges !!! (C !!! r)) -> weight_at m r k = None).

Lemma source_columns_m : source_columns m = length S.
Proof.
  destruct m as [|row rows] eqn:He; [destruct C; done|]. by apply Forall_cons in Hrect as [? _].
Qed.

Lemma weight_at_inv r k x :
  (r < length C)%nat -> (k < length S)%nat -> weight_at m r k = Some x ->
  scored candidates sources policy (C !!! r) (S !!! k) /\
  is_Some (score_at candidates sources score (C !!! r) (S !!! k)) /\
  x = weight_value (C !!! r) (value_at (C !!! r) (S !!! k)) /\
  (S !!! k, value_at (C !!! r) (S !!! k)) ∈ edges !!! (C !!! r).
Proof.
  intros Hr Hk Hx.
  destruct (decide (S !!! k ∈ map fst (edges !!! (C !!! r)))) as [Hin|Hni];
    [|by rewrite Hnone in Hx].
  apply list_elem_of_fmap in Hin as ([s v] & Hs & Hv). cbn in Hs. rewrite <- Hs in Hv.
  rewrite (Hsome r k v) in Hx by done. injection Hx as <-.
  destruct (edge_scored (C !!! r) (S !!! k) v) as (H1 & H2 & H3); [by apply component_at|done|].
  rewrite H3, H2. split_and!; [done|by exists v|done|done].
Qed.

Lemma weight_matrix_m : weight_matrix m weight_limit.
Proof.
  unfold weight_matrix. rewrite source_columns_m. split_and!.
  - apply Forall_forall. intros row Hrow. apply list_elem_of_lookup_total_1 in Hrow as (r & Hr & <-).
    pose proof Hrect as Hrect'. rewrite Forall_forall in Hrect'.
    assert (length (m !!! r) = length S) as Hl by (apply Hrect'; by apply list_elem_of_lookup_total_2).
    split; [done|]. apply Forall_forall. intros w Hw x ->.
    apply list_elem_of_lookup_total_1 in Hw as (k & Hk & Hw). rewrite Hl in Hk.
    fold (weight_at m r k) in Hw. rewrite Hlen in Hr.
    destruct (weight_at_inv r k x Hr Hk Hw) as (_ & _ & -> & Hin).
    destruct (component_at r Hr) as [_ Hc].
    apply edge_weight_eq; [done|]. by apply (edge_value (C !!! r) (S !!! k)).
  - unfold weight_limit. lia.
  - rewrite Hlen. assert (C ⊆+ seq 0 ncand) as Hsub.
    { apply NoDup_submseteq; [done|]. intros c Hc. apply elem_of_seq. apply HC in Hc. lia. }
    apply submseteq_length in Hsub. rewrite length_seq in Hsub.
    destruct Hpolicy as [[Hm0 Hm] _]. unfold max_files_limit in Hm.
    unfold weight_limit, i128_max. lia.
Qed.

Lemma to_local_global r k :
  (r < length C)%nat -> (k < length S)%nat -> to_local (to_global (r, k)) = (r, k).
Proof. intros Hr Hk. unfold to_local, to_global. cbn. by rewrite !pos_lookup. Qed.

Lemma matching_filemap L :
  matching m None L ->
  filemap (map to_global L) /\ (forall c s, (c, s) ∈ map to_global L -> c ∈ C /\ s ∈ S) /\
  map_weight (map to_global L) = weight m L.
Proof.
  intros (Hf & Hs & HL). rewrite source_columns_m, Hlen in HL.
  assert (forall r k, (r, k) ∈ L -> (r < length C)%nat /\ (k < length S)%nat /\
    exists x, weight_at m r k = Some x) as HL'.
  { intros r k Hrk. destruct (HL r k Hrk) as (? & ? & [x ?] & _). eauto. }
  split_and!.
  - unfold filemap. rewrite !map_map. cbn [to_global fst snd].
    rewrite <- (map_map fst (fun r => C !!! r)), <- (map_map snd (fun k => S !!! k)). split_and!.
    + apply NoDup_fmap_2_strong; [|done].
      intros r1 r2 ([? k1] & -> & H1)%list_elem_of_fmap ([? k2] & -> & H2)%list_elem_of_fmap He.
      apply HL' in H1 as (H1 & _), H2 as (H2 & _). cbn in *.
      rewrite <- (pos_lookup C n), <- (pos_lookup C n0) by done. by rewrite He.
    + apply NoDup_fmap_2_strong; [|done].
      intros k1 k2 ([r1 ?] & -> & H1)%list_elem_of_fmap ([r2 ?] & -> & H2)%list_elem_of_fmap He.
      apply HL' in H1 as (_ & H1 & _), H2 as (_ & H2 & _). cbn in *.
      rewrite <- (pos_lookup S n), <- (pos_lookup S n0) by done. by rewrite He.
    + intros c s ([r k] & [= -> ->] & Hrk)%list_elem_of_fmap.
      destruct (HL' r k Hrk) as (Hr & Hk & x & Hx).
      by destruct (weight_at_inv r k x Hr Hk Hx) as (? & ? & _).
  - intros c s ([r k] & [= -> ->] & Hrk)%list_elem_of_fmap.
    destruct (HL' r k Hrk) as (Hr & Hk & _). split; by apply list_elem_of_lookup_total_2.
  - unfold map_weight, weight. rewrite map_map. f_equal. apply map_ext_in.
    intros [r k] Hrk%list_elem_of_In. destruct (HL' r k Hrk) as (Hr & Hk & x & Hx).
    destruct (weight_at_inv r k x Hr Hk Hx) as (_ & _ & -> & _). cbn. by rewrite Hx.
Qed.

Lemma filemap_matching M :
  filemap M -> (forall c s, (c, s) ∈ M -> c ∈ C) ->
  matching m None (map to_local M) /\ weight m (map to_local M) = map_weight M /\
  map to_global (map to_local M) = M.
Proof.
  intros HM HMC.
  assert (forall c s, (c, s) ∈ M -> (pos C c < length C)%nat /\ C !!! pos C c = c /\
    (pos S s < length S)%nat /\ S !!! pos S s = s /\
    weight_at m (pos C c) (pos S s) = Some (weight_value c (value_at c s))) as Hpos.
  { intros c s Hcs. destruct (filemap_edge M c s HM Hcs) as [Hc Hin].
    destruct (source_position_elem C c (HMC c s Hcs)) as (_ & H1 & H2).
    destruct (source_position_elem S s (HS c s _ (HMC c s Hcs) Hin)) as (_ & H3 & H4).
    split_and!; [done..|]. rewrite (Hsome _ _ (value_at c s)); rewrite ?H2, ?H4; done. }
  pose proof HM as (Hf & Hs & _). unfold matching. split_and!.
  - rewrite !map_map. cbn [to_local fst snd].
    rewrite <- (map_map fst (pos C)). apply NoDup_fmap_2_strong; [|done].
    intros c1 c2 ([? s1] & -> & H1)%list_elem_of_fmap ([? s2] & -> & H2)%list_elem_of_fmap He.
    apply Hpos in H1 as (_ & H1 & _), H2 as (_ & H2 & _). cbn in *. congruence.
  - rewrite !map_map. cbn [to_local fst snd].
    rewrite <- (map_map snd (pos S)). apply NoDup_fmap_2_strong; [|done].
    intros s1 s2 ([c1 ?] & -> & H1)%list_elem_of_fmap ([c2 ?] & -> & H2)%list_elem_of_fmap He.
    apply Hpos in H1 as (_ & _ & _ & H1 & _), H2 as (_ & _ & _ & H2 & _). cbn in *. congruence.
  - rewrite Hlen, source_columns_m. intros r k ([c s] & [= -> ->] & Hcs)%list_elem_of_fmap.
    destruct (Hpos c s Hcs) as (H1 & _ & H3 & _ & H5). cbn. split_and!; [done|done| |done].
    rewrite H5. by eexists.
  - unfold map_weight, weight. rewrite map_map. f_equal. apply map_ext_in.
    intros [c s] Hcs%list_elem_of_In. destruct (Hpos c s Hcs) as (_ & _ & _ & _ & H5).
    cbn. by rewrite H5.
  - rewrite map_map. rewrite <- (map_id M) at 2. apply map_ext_in.
    intros [c s] Hcs%list_elem_of_In. destruct (Hpos c s Hcs) as (_ & H2 & _ & H4 & _).
    unfold to_global, to_local. cbn. by rewrite H2, H4.
Qed.
End Solve.

Definition within (C : list nat) (N : list (nat * nat)) : Prop := forall c s, (c, s) ∈ N -> c ∈ C.

(** A heaviest mapping of the candidate files in [C] *)
Definition heaviest (C : list nat) (M : list (nat * nat)) : Prop :=
  filemap M /\ within C M /\
  forall N, filemap N -> within C N -> map_weight N <= map_weight M.

Definition same_edges (M N : list (nat * nat)) : Prop := forall e, e ∈ N <-> e ∈ M.

Definition pairs_edges (P : list (nat * nat * Z)) : list (nat * nat) := map fst P.

Definition pairs_scored (P : list (nat * nat * Z)) : Prop :=
  forall c s v, (c, s, v) ∈ P -> score_at candidates sources score c s = Some v.

Lemma solve_component_spec C S :
  NoDup C -> NoDup S -> C <> [] -> (forall c, c ∈ C -> (c < ncand)%nat) ->
  (forall c s v, c ∈ C -> (s, v) ∈ edges !!! c -> s ∈ S) ->
  (exists P, solve_component candidates policy edges C S = Ok P /\
     heaviest C (pairs_edges P) /\ pairs_scored P /\
     (forall c s, (c, s) ∈ pairs_edges P -> s ∈ S) /\
     forall N, filemap N -> within C N -> map_weight N = map_weight (pairs_edges P) ->
       same_edges (pairs_edges P) N) \/
  (solve_component candidates policy edges C S = Err ExitAmbiguous /\
   exists M1 M2 e, heaviest C M1 /\ heaviest C M2 /\ e ∈ M1 /\ e ∉ M2 /\
     forall c s, (c, s) ∈ M1 ++ M2 -> s ∈ S).
Proof.
  intros HndC HndS Hne HC HS.
  destruct (matrix_spec C S HndC HndS Hne HC HS (fun _ v => Some v) (fun _ v => v))
    as (raw & Hraw & Hrawlen & Hrawrect & Hraw1 & _); [done|].
  destruct (matrix_spec C S HndC HndS Hne HC HS (edge_weight candidates policy edges) weight_value)
    as (m & Hm & Hlen & Hrect & Hsome' & Hnone).
  { intros c s v Hc Hsv. apply edge_weight_eq; [auto|]. apply (edge_value c s); auto. }
  pose proof (weight_matrix_m C S HndC HndS Hne HC HS m Hlen Hrect Hsome' Hnone) as HW.
  pose proof (matching_filemap C S HndC HndS Hne HC HS m Hlen Hrect Hsome' Hnone) as Hglob.
  pose proof (filemap_matching C S HndC HndS Hne HC HS m Hlen Hrect Hsome' Hnone) as Hloc.
  destruct (unambiguous_unique m _ HW) as (sel & b & Hopt & Hsel & Hmax & Hany & Huniq & Hamb).
  assert (forall L, matching m None L -> weight m L = weight m sel ->
    heaviest C (map (to_global C S) L)) as Hheavy.
  { intros L HL Heq. destruct (Hglob L HL) as (H1 & H2 & H3). split_and!; [done| |].
    - intros c s Hcs. by apply (H2 c s).
    - intros N HN HNC. destruct (Hloc N HN HNC) as (HM & HwN & _).
      rewrite H3, <- HwN, Heq. by apply Hmax. }
  unfold solve_component. rewrite Hraw, Hm. cbn [checked ok_or mbind result_bind].
  rewrite Hopt. cbn [checked ok_or mbind result_bind]. rewrite Hany.
  cbn [checked ok_or mbind result_bind].
  destruct b; [right|left].
  - split; [done|]. destruct (Hamb eq_refl) as (M & e & HM & Hw & He & Hne').
    exists (map (to_global C S) sel), (map (to_global C S) M), (to_global C S e).
    split_and!; [by apply Hheavy|by apply Hheavy|by apply list_elem_of_fmap; exists e| |].
    + intros (e' & Hee & He')%list_elem_of_fmap. apply Hne'.
      assert (forall L x, matching m None L -> x ∈ L -> to_local C S (to_global C S x) = x) as Hinv.
      { intros L [r k] (_ & _ & HL) Hx. destruct (HL r k Hx) as (Hr & Hk & _).
        rewrite Hlen in Hr. rewrite (source_columns_m C S HndC HndS Hne HC HS m Hlen Hrect Hsome' Hnone) in Hk.
        by apply (to_local_global C S HndC HndS Hne HC HS m Hlen Hrect Hsome' Hnone). }
      rewrite <- (Hinv sel e) by done. rewrite Hee, (Hinv M e') by done. done.
    + intros c s [Hcs|Hcs]%elem_of_app;
        [apply (Hglob sel Hsel) in Hcs|apply (Hglob M HM) in Hcs]; by destruct Hcs.
  - destruct (Hglob sel Hsel) as (Hfm & Hin & Hw).
    set (g := fun e : nat * nat => (to_global C S e, value_at (C !!! e.1) (S !!! e.2))).
    assert (forall r k, (r, k) ∈ sel -> weight_at raw r k = Some (value_at (C !!! r) (S !!! k)) /\
      score_at candidates sources score (C !!! r) (S !!! k) = Some (value_at (C !!! r) (S !!! k))) as Hval.
    { intros r k Hrk. destruct (filemap_edge _ (C !!! r) (S !!! k) Hfm) as [Hc He].
      { apply list_elem_of_fmap. by exists (r, k). }
      destruct Hsel as (_ & _ & Hsel). destruct (Hsel r k Hrk) as (Hr & Hk & _).
      rewrite Hlen in Hr. rewrite (source_columns_m C S HndC HndS Hne HC HS m Hlen Hrect Hsome' Hnone) in Hk.
      split; [by apply Hraw1|]. apply (edge_scored _ _ _ Hc) in He as (_ & He & _). done. }
    exists (map g sel). split.
    { apply collect_map. intros [r k] Hrk. destruct (Hval r k Hrk) as [Hat _].
      destruct Hsel as (_ & _ & Hsel). destruct (Hsel r k Hrk) as (Hr & Hk & _).
      rewrite Hlen in Hr. rewrite (source_columns_m C S HndC HndS Hne HC HS m Hlen Hrect Hsome' Hnone) in Hk.
      rewrite (list_lookup_lookup_total_lt C r) by done. cbn [checked ok_or mbind result_bind].
      rewrite (list_lookup_lookup_total_lt S k) by done. cbn [checked ok_or mbind result_bind].
      rewrite (cell_in_range raw r k (length S)) by (done || lia).
      cbn [checked ok_or mbind result_bind]. by rewrite Hat. }
    assert (pairs_edges (map g sel) = map (to_global C S) sel) as ->
      by (unfold pairs_edges; by rewrite map_map).
    split_and!; [by apply Hheavy| | |].
    + intros c s v ([r k] & [= -> -> ->] & Hrk)%list_elem_of_fmap. by apply Hval.
    + intros c s Hcs. by apply (Hin c s).
    + intros N HN HNC Heq. destruct (Hloc N HN HNC) as (HM & HwN & Hback).
      intros e. rewrite <- Hback, !list_elem_of_fmap.
      assert (forall x, x ∈ map (to_local C S) N <-> x ∈ sel) as Hiff.
      { apply Huniq; [done|done|]. rewrite HwN, Heq. done. }
      split; intros (x & -> & Hx); exists x; (split; [done|]); by apply Hiff.
Qed.

(** ** The loop over components *)

Notation reverse := (es_reverse st).

(** What one component can cost at most *)
Definition component_cost : Z :=
  (Z.of_nat ncand + 1) * Z.of_nat ncand * Z.of_nat ncand * Z.of_nat (ncand + nsrc).

(** Limits that no input of this size can exceed *)
Definition roomy : Prop :=
  Z.of_nat (ncand + nsrc) <= mp_max_assignment_files policy /\
  Z.of_nat (ncand + nsrc) <= mp_max_assignment_component_files policy /\
  Z.of_nat ncand * component_cost <= mp_max_assignment_operations policy.

Lemma component_operations_bound cc cs :
  roomy -> (cc <= ncand)%nat -> (cs <= nsrc)%nat ->
  0 <= component_operations cc cs <= component_cost.
Proof.
  intros (Hf & _ & _) Hc Hs. destruct Hpolicy as [[_ Hm] _].
  unfold max_files_limit in Hm. unfold component_operations, component_cost.
  set (a := Z.of_nat (Nat.min cc cs) + 1). set (r := Z.of_nat cc). set (k := Z.of_nat (cs + cc)).
  set (n := Z.of_nat ncand). set (t := Z.of_nat (ncand + nsrc)).
  assert (1 <= a <= n + 1) as Ha by lia. assert (0 <= r <= n) as Hr by lia.
  assert (0 <= k <= t) as Hk by lia. assert (n <= 100000) as Hn by lia. assert (t <= 100000) as Ht by lia.
  assert (0 <= a * r <= (n + 1) * n) as H1 by nia.
  assert (0 <= a * r * r <= (n + 1) * n * n) as H2 by nia.
  assert (0 <= a * r * r * k <= (n + 1) * n * n * t) as H3 by nia.
  assert (forall x y, 0 <= x -> 0 <= y <= 2^17 -> forall b, x <= 2^b -> 0 <= b -> x * y <= 2^(b + 17)) as Hpow.
  { intros x y Hx Hy b Hb Hb0. rewrite Z.pow_add_r by lia. apply Z.mul_le_mono_nonneg; lia. }
  assert (n <= 2^17 /\ t <= 2^17 /\ n + 1 <= 2^17) as (Hn17 & Ht17 & Hn1) by (split_and!; lia).
  pose proof (Hpow (n + 1) n ltac:(lia) ltac:(lia) 17 Hn1 ltac:(lia)) as H4.
  pose proof (Hpow ((n + 1) * n) n ltac:(nia) ltac:(lia) _ H4 ltac:(lia)) as H5.
  pose proof (Hpow ((n + 1) * n * n) t ltac:(nia) ltac:(lia) _ H5 ltac:(lia)) as H6.
  clearbody a r k n t. clear Ha Hr Hk Hn Ht Hpow Hn17 Ht17 Hn1 Hf Hc Hs Hm.
  unfold u128_mul. rewrite (wrap_u_small 128 (a * r)) by (split; [lia|]; apply Z.le_lt_trans with (2^(17+17)); [lia|done]).
  rewrite (wrap_u_small 128 (a * r * r)) by (split; [lia|]; apply Z.le_lt_trans with (2^(17+17+17)); [lia|done]).
  rewrite wrap_u_small by (split; [lia|]; apply Z.le_lt_trans with (2^(17+17+17+17)); [lia|done]). exact H3.
Qed.

Record Loop (visited : list nat) (ls : LoopState) : Prop := {
  l_lenc : length (ls_candidate_seen ls) = ncand;
  l_lens : length (ls_source_seen ls) = nsrc;
  l_closed : closed edges reverse ncand nsrc (ls_candidate_seen ls) (ls_source_seen ls);
  l_visited : forall c, c ∈ visited -> edges !!! c <> [] -> ls_candidate_seen ls !!! c = true;
  l_map : filemap (pairs_edges (ls_pairs ls));
  l_seen : forall c s, (c, s) ∈ pairs_edges (ls_pairs ls) ->
    ls_candidate_seen ls !!! c = true /\ ls_source_seen ls !!! s = true;
  l_scored : pairs_scored (ls_pairs ls);
  l_ops : roomy -> 0 <= ls_operations ls <= Z.of_nat (length visited) * component_cost;
  l_best : forall N, filemap N -> (forall c s, (c, s) ∈ N -> ls_candidate_seen ls !!! c = true) ->
    map_weight N <= map_weight (pairs_edges (ls_pairs ls)) /\
    (map_weight N = map_weight (pairs_edges (ls_pairs ls)) ->
     same_edges (pairs_edges (ls_pairs ls)) N) }.

Lemma map_weight_app M N : map_weight (M ++ N) = map_weight M + map_weight N.
Proof. unfold map_weight. by rewrite map_app, sum_Z_app. Qed.

Lemma map_weight_Permutation M N : Permutation M N -> map_weight M = map_weight N.
Proof. intros HP. unfold map_weight. by apply sum_Z_Permutation, Permutation_map. Qed.

Lemma filemap_Permutation M N : Permutation M N -> filemap M -> filemap N.
Proof.
  intros HP (H1 & H2 & H3). split_and!; [by rewrite <- HP..|].
  intros c s Hcs. apply H3. by rewrite HP.
Qed.

Lemma filemap_app M N :
  filemap (M ++ N) <->
  filemap M /\ filemap N /\ (forall c s s', (c, s) ∈ M -> (c, s') ∉ N) /\
  (forall c c' s, (c, s) ∈ M -> (c', s) ∉ N).
Proof.
  unfold filemap. rewrite !map_app, !NoDup_app. setoid_rewrite elem_of_app. split.
  - intros ((H1 & H2 & H3) & (H4 & H5 & H6) & H7). split_and!; auto.
    + intros c s s' Hm Hn. apply (H2 c); apply list_elem_of_fmap; [by exists (c, s)|by exists (c, s')].
    + intros c c' s Hm Hn. apply (H5 s); apply list_elem_of_fmap; [by exists (c, s)|by exists (c', s)].
  - intros ((H1 & H2 & H3) & (H4 & H5 & H6) & H7 & H8). split_and!; auto.
    + intros x ([c s] & -> & Hm)%list_elem_of_fmap ([c' s'] & He & Hn)%list_elem_of_fmap.
      cbn in He. subst c'. by apply (H7 c s s').
    + intros x ([c s] & -> & Hm)%list_elem_of_fmap ([c' s'] & He & Hn)%list_elem_of_fmap.
      cbn in He. subst s'. by apply (H8 c c' s).
    + intros c s [Hm|Hn]; auto.
Qed.

(** Splitting a mapping by a set of candidate files *)
Lemma filemap_split (f : nat -> bool) N :
  filemap N -> exists N1 N2, Permutation N (N1 ++ N2) /\ filemap N1 /\ filemap N2 /\
    (forall c s, (c, s) ∈ N1 -> f c = true /\ (c, s) ∈ N) /\
    (forall c s, (c, s) ∈ N2 -> f c = false /\ (c, s) ∈ N).
Proof.
  intros HN. exists (List.filter (fun e => f e.1) N), (List.filter (fun e => negb (f e.1)) N).
  assert (Permutation N (List.filter (fun e => f e.1) N ++ List.filter (fun e => negb (f e.1)) N)) as HP.
  { clear HN. induction N as [|e N IH]; [done|]. cbn. destruct (f e.1); cbn.
    - by apply perm_skip.
    - by apply Permutation_cons_app. }
  pose proof (filemap_Permutation _ _ HP HN) as H. apply filemap_app in H as (H1 & H2 & _).
  split_and!; [done..| |].
  - intros c s Hcs%list_elem_of_In. apply filter_In in Hcs as [Hcs Hf].
    split; [done|by apply list_elem_of_In].
  - intros c s Hcs%list_elem_of_In. apply filter_In in Hcs as [Hcs Hf].
    split; [by apply negb_true_iff in Hf|by apply list_elem_of_In].
Qed.

Let G : graph edges reverse ncand nsrc := edges_graph _ _ _ _ _ HE.

(** No mapping is the only heaviest one. *)
Definition no_unique_best : Prop :=
  forall N, filemap N -> exists N1 N2 e, filemap N1 /\ filemap N2 /\
    map_weight N <= map_weight N1 /\ map_weight N1 = map_weight N2 /\ e ∈ N1 /\ e ∉ N2.

Section Step.
Context (visited : list nat) (ls : LoopState) (start : nat).
Context (HL : Loop visited ls) (Hstart : (start < ncand)%nat).
Context (C S : list nat) (cs' ss' : list bool).
Context (HCO : component_of edges reverse ncand nsrc start
  (ls_candidate_seen ls) (ls_source_seen ls) C S cs' ss').

Lemma new_candidate c : c ∈ C -> (c < ncand)%nat /\ ls_candidate_seen ls !!! c <> true.
Proof. intros Hc. exact (c_new _ _ _ _ _ _ _ _ _ _ _ HCO true c Hc). Qed.

Lemma new_source s : s ∈ S -> (s < nsrc)%nat /\ ls_source_seen ls !!! s <> true.
Proof. intros Hs. exact (c_new _ _ _ _ _ _ _ _ _ _ _ HCO false s Hs). Qed.

Lemma seen_candidate c : cs' !!! c = true <-> ls_candidate_seen ls !!! c = true \/ c ∈ C.
Proof. exact (c_seen _ _ _ _ _ _ _ _ _ _ _ HCO true c). Qed.

Lemma seen_source s : ss' !!! s = true <-> ls_source_seen ls !!! s = true \/ s ∈ S.
Proof. exact (c_seen _ _ _ _ _ _ _ _ _ _ _ HCO false s). Qed.

Lemma source_back c s : s ∈ S -> scored candidates sources policy c s ->
  is_Some (score_at candidates sources score c s) -> c ∈ C.
Proof.
  intros Hs Hsc [v Hv]. pose proof Hsc as (Hc & Hs' & _).
  apply (c_cand _ _ _ _ _ _ _ _ _ _ _ HCO). split; [done|].
  apply (c_src _ _ _ _ _ _ _ _ _ _ _ HCO) in Hs as [_ Hs].
  apply (linked_step _ _ start false s c Hs). cbn.
  apply (e_rev _ _ _ _ _ _ HE); [done|]. split; [done|by eexists].
Qed.

Lemma component_sizes : (length C <= ncand)%nat /\ (length S <= nsrc)%nat.
Proof.
  assert (C ⊆+ seq 0 ncand) as H1.
  { apply NoDup_submseteq; [apply (c_nodupc _ _ _ _ _ _ _ _ _ _ _ HCO)|].
    intros c [Hc _]%new_candidate. apply elem_of_seq. lia. }
  assert (S ⊆+ seq 0 nsrc) as H2.
  { apply NoDup_submseteq; [apply (c_nodups _ _ _ _ _ _ _ _ _ _ _ HCO)|].
    intros s [Hs _]%new_source. apply elem_of_seq. lia. }
  apply submseteq_length in H1, H2. by rewrite !length_seq in *.
Qed.

Lemma operations_step :
  roomy ->
  0 <= Z.min u128_max (ls_operations ls + component_operations (length C) (length S))
    <= Z.of_nat (length (visited ++ [start])) * component_cost.
Proof.
  intros Hr. pose proof (l_ops _ _ HL Hr). destruct component_sizes as [H1 H2].
  pose proof (component_operations_bound _ _ Hr H1 H2).
  rewrite length_app. cbn [length]. unfold u128_max. lia.
Qed.

Lemma loop_extend P operations :
  (roomy -> 0 <= operations <= Z.of_nat (length (visited ++ [start])) * component_cost) ->
  heaviest C (pairs_edges P) -> pairs_scored P ->
  (forall c s, (c, s) ∈ pairs_edges P -> s ∈ S) ->
  (forall N, filemap N -> within C N -> map_weight N = map_weight (pairs_edges P) ->
     same_edges (pairs_edges P) N) ->
  Loop (visited ++ [start]) (mkLoopState cs' ss' (ls_pairs ls ++ P) operations).
Proof.
  intros Hops (HP & HPC & HPbest) HPs HPS HPuniq.
  assert (pairs_edges (ls_pairs ls ++ P) = pairs_edges (ls_pairs ls) ++ pairs_edges P) as Happ
    by (unfold pairs_edges; by rewrite map_app).
  split; cbn [ls_candidate_seen ls_source_seen ls_pairs ls_operations]; rewrite ?Happ.
  - apply (c_lenc _ _ _ _ _ _ _ _ _ _ _ HCO).
  - apply (c_lens _ _ _ _ _ _ _ _ _ _ _ HCO).
  - apply (c_closed _ _ _ _ _ _ _ _ _ _ _ HCO).
  - intros c [Hc| ->%list_elem_of_singleton]%elem_of_app Hne; apply seen_candidate.
    + left. by apply (l_visited _ _ HL).
    + right. apply (c_start _ _ _ _ _ _ _ _ _ _ _ HCO).
  - apply filemap_app. split_and!; [apply (l_map _ _ HL)|done| |].
    + intros c s s' [Hm _]%(l_seen _ _ HL) Hn%HPC. by destruct (new_candidate c Hn).
    + intros c c' s [_ Hm]%(l_seen _ _ HL) Hn%HPS. by destruct (new_source s Hn).
  - intros c s [[H1 H2]%(l_seen _ _ HL)|H]%elem_of_app.
    + split; [apply seen_candidate|apply seen_source]; by left.
    + split; [apply seen_candidate|apply seen_source]; right; eauto.
  - intros c s v [H|H]%elem_of_app; [by apply (l_scored _ _ HL)|by apply HPs].
  - exact Hops.
  - intros N HN HNseen.
    destruct (filemap_split (fun c => ls_candidate_seen ls !!! c) N HN)
      as (N1 & N2 & HPerm & HN1 & HN2 & H1 & H2).
    destruct (l_best _ _ HL N1 HN1) as [Hle1 Heq1]; [intros c s Hcs; by apply (H1 c s)|].
    assert (within C N2) as HNC.
    { intros c s Hcs. destruct (H2 c s Hcs) as [Hf Hin]. pose proof (HNseen c s Hin) as Hc.
      apply seen_candidate in Hc as [Hc|Hc]; [congruence|done]. }
    pose proof (HPbest N2 HN2 HNC) as Hle2.
    rewrite (map_weight_Permutation _ _ HPerm), !map_weight_app. split; [lia|].
    intros Heq. specialize (Heq1 ltac:(lia)).
    pose proof (HPuniq N2 HN2 HNC ltac:(lia)) as Heq2.
    intros e. rewrite HPerm, !elem_of_app, (Heq1 e), (Heq2 e). done.
Qed.

Lemma ambiguous_evidence M1 M2 e :
  heaviest C M1 -> heaviest C M2 -> e ∈ M1 -> e ∉ M2 ->
  (forall c s, (c, s) ∈ M1 ++ M2 -> s ∈ S) -> no_unique_best.
Proof.
  intros (HM1 & HC1 & Hb1) (HM2 & HC2 & Hb2) He1 He2 HS N HN.
  destruct (filemap_split (fun c => bool_decide (c ∈ C)) N HN)
    as (NC & NO & HPerm & HNC & HNO & H1 & H2).
  assert (forall M, filemap M -> within C M -> (forall c s, (c, s) ∈ M -> s ∈ S) -> filemap (M ++ NO)) as Happ.
  { intros M HM HMC HMS. apply filemap_app. split_and!; [done..| |].
    - intros c s s' Hm Hn. apply HMC in Hm. apply H2 in Hn as [Hn _].
      by rewrite bool_decide_eq_true_2 in Hn.
    - intros c c' s Hm Hn. apply HMS in Hm. pose proof HNO as (_ & _ & HNOs).
      destruct (HNOs c' s Hn) as [Hsc Hv]. pose proof (source_back c' s Hm Hsc Hv) as Hc'.
      apply H2 in Hn as [Hn _]. by rewrite bool_decide_eq_true_2 in Hn. }
  exists (M1 ++ NO), (M2 ++ NO), e. split_and!.
  - apply Happ; [done..|]. intros c s Hcs. apply (HS c s), elem_of_app. by left.
  - apply Happ; [done..|]. intros c s Hcs. apply (HS c s), elem_of_app. by right.
  - rewrite (map_weight_Permutation _ _ HPerm), !map_weight_app.
    assert (within C NC) as HW.
    { intros c s Hcs. destruct (H1 c s Hcs) as [Hc _]. by apply bool_decide_eq_true in Hc. }
    pose proof (Hb1 NC HNC HW). lia.
  - rewrite !map_weight_app. pose proof (Hb1 M2 HM2 HC2). pose proof (Hb2 M1 HM1 HC1). lia.
  - apply elem_of_app. by left.
  - intros [He|He]%elem_of_app; [done|]. destruct e as [c s]. apply HC1 in He1.
    apply H2 in He as [He _]. by rewrite bool_decide_eq_true_2 in He.
Qed.
End Step.

Lemma component_step_spec visited ls start :
  Loop visited ls -> (start < ncand)%nat -> (length visited < ncand)%nat ->
  (exists ls', component_step candidates policy edges reverse ls start = Ok ls' /\
     Loop (visited ++ [start]) ls') \/
  (component_step candidates policy edges reverse ls start = Err ExitBudget /\ ~ roomy) \/
  (component_step candidates policy edges reverse ls start = Err ExitAmbiguous /\ no_unique_best).
Proof.
  intros HL Hstart Hvis.
  assert (component_step candidates policy edges reverse ls start
    = if ls_candidate_seen ls !!! start || bool_decide (edges !!! start = []) then Ok ls
      else component_step candidates policy edges reverse ls start) as ->.
  { unfold component_step.
    rewrite (list_lookup_lookup_total_lt (ls_candidate_seen ls)) by (rewrite (l_lenc _ _ HL); lia).
    cbn [checked ok_or mbind result_bind]. destruct (ls_candidate_seen ls !!! start); [done|].
    rewrite (list_lookup_lookup_total_lt edges) by (rewrite (e_len _ _ _ _ _ _ HE); lia).
    cbn [checked ok_or mbind result_bind orb]. by destruct (bool_decide _). }
  destruct (ls_candidate_seen ls !!! start || bool_decide (edges !!! start = [])) eqn:Hskip.
  { left. exists ls. split; [done|]. destruct HL. split; try done.
    - intros c [Hc| ->%list_elem_of_singleton]%elem_of_app Hne; [by apply l_visited0|].
      apply orb_true_iff in Hskip as [?|?%bool_decide_eq_true]; done.
    - intros Hr. specialize (l_ops0 Hr). rewrite length_app. cbn [length].
      assert (0 <= component_cost) by (unfold component_cost; lia). lia. }
  apply orb_false_iff in Hskip as [Hseen Hedges]. unfold component_step.
  rewrite (list_lookup_lookup_total_lt (ls_candidate_seen ls)) by (rewrite (l_lenc _ _ HL); lia).
  rewrite Hseen. cbn [checked ok_or mbind result_bind].
  rewrite (list_lookup_lookup_total_lt edges) by (rewrite (e_len _ _ _ _ _ _ HE); lia).
  cbn [checked ok_or mbind result_bind]. rewrite Hedges.
  destruct (component_spec edges reverse ncand nsrc G start _ _ Hstart
              (l_lenc _ _ HL) (l_lens _ _ HL) Hseen (l_closed _ _ HL))
    as (C & S & cs' & ss' & Hrun & HCO).
  rewrite Hrun. cbn [checked ok_or mbind result_bind].
  pose proof (component_sizes visited ls start HL Hstart C S cs' ss' HCO) as [Hcc Hcs].
  pose proof (operations_step visited ls start HL Hstart C S cs' ss' HCO) as Hops.
  unfold bail_if. destruct (_ || _) eqn:Hb1.
  { right; left. split; [done|]. intros (H1 & H2 & _).
    apply orb_true_iff in Hb1 as [H|H]; apply Z.ltb_lt in H; lia. }
  cbn [mbind result_bind]. destruct (mp_max_assignment_operations policy <? _) eqn:Hb2.
  { right; left. split; [done|]. intros Hr. specialize (Hops Hr). apply Z.ltb_lt in Hb2.
    destruct Hr as (_ & _ & H3). rewrite length_app in Hops. cbn [length] in Hops.
    assert (0 <= component_cost) by (unfold component_cost; lia).
    assert (Z.of_nat (length visited + 1) * component_cost <= Z.of_nat ncand * component_cost) by nia.
    lia. }
  cbn [mbind result_bind].
  destruct (solve_component_spec C S) as [(P & HP & H1 & H2 & H3 & H4)|(HP & M1 & M2 & e & H1 & H2 & H3 & H4 & H5)].
  - apply (c_nodupc _ _ _ _ _ _ _ _ _ _ _ HCO).
  - apply (c_nodups _ _ _ _ _ _ _ _ _ _ _ HCO).
  - intros ->. pose proof (c_start _ _ _ _ _ _ _ _ _ _ _ HCO) as Hs. by apply not_elem_of_nil in Hs.
  - intros c Hc. by apply (c_new _ _ _ _ _ _ _ _ _ _ _ HCO true c).
  - apply (c_edge _ _ _ _ _ _ _ _ _ _ _ HCO).
  - left. rewrite HP. cbn [mbind result_bind]. eexists. split; [done|].
    by apply (loop_extend visited ls start HL Hstart C S cs' ss' HCO).
  - right; right. rewrite HP. split; [done|].
    by apply (ambiguous_evidence visited ls start HL Hstart C S cs' ss' HCO M1 M2 e).
Qed.

Lemma loop_start :
  Loop [] (mkLoopState (replicate ncand false) (replicate nsrc false) [] 0).
Proof.
  assert (forall k i, (i < k)%nat -> replicate k false !!! i <> true) as Hrep.
  { intros k i Hi. by rewrite (list_lookup_total_correct _ i false) by (by apply lookup_replicate_2). }
  assert (forall e : nat * nat, e ∉ []) as Hnil by (intros e; apply not_elem_of_nil).
  split; cbn [ls_candidate_seen ls_source_seen ls_pairs pairs_edges map].
  - apply length_replicate.
  - apply length_replicate.
  - intros side i j Hi Hs. unfold seen_by in Hs. destruct side; by apply Hrep in Hs.
  - intros c Hc. by apply not_elem_of_nil in Hc.
  - split_and!; [apply NoDup_nil_2..|]. intros c s Hcs. by apply Hnil in Hcs.
  - intros c s Hcs. by apply Hnil in Hcs.
  - intros c s v Hcs. by apply not_elem_of_nil in Hcs.
  - intros _. cbn. lia.
  - intros N HN Hseen. assert (N = []) as ->; [|done].
    destruct N as [|[c s] N]; [done|]. destruct HN as (_ & _ & HN).
    destruct (HN c s ltac:(left)) as [(Hc & _) _]. by destruct (Hrep _ _ Hc (Hseen c s ltac:(left))).
Qed.

Lemma assign_components_spec :
  (exists ls, assign_components candidates sources policy edges reverse = Ok ls /\
     Loop (seq 0 ncand) ls) \/
  (assign_components candidates sources policy edges reverse = Err ExitBudget /\ ~ roomy) \/
  (assign_components candidates sources policy edges reverse = Err ExitAmbiguous /\ no_unique_best).
Proof.
  unfold assign_components.
  assert (forall pre ls, (forall x, x ∈ pre -> (x < ncand)%nat) -> (length pre <= ncand)%nat ->
    try_fold (component_step candidates policy edges reverse) pre
      (mkLoopState (replicate ncand false) (replicate nsrc false) [] 0) = Ok ls -> Loop pre ls) as Hinv.
  { intros pre ls Hpre Hlen. apply (try_fold_inv _ (fun vis ls => Loop vis ls)); [apply loop_start|].
    intros l1 x l2 b b' Hl HL Hstep.
    assert (x < ncand)%nat as Hx by (apply Hpre; rewrite Hl; set_solver).
    assert (length l1 < ncand)%nat as Hl1 by (rewrite Hl, length_app in Hlen; cbn in Hlen; lia).
    destruct (component_step_spec l1 b x HL Hx Hl1) as [(ls' & Hok & HL')|[[Hb _]|[Ha _]]]; congruence. }
  destruct (try_fold _ (seq 0 ncand) _) as [ls|e] eqn:Hrun.
  - left. exists ls. split; [done|]. apply Hinv; [|by rewrite length_seq|done].
    intros x Hx%elem_of_seq. lia.
  - right. apply try_fold_Err in Hrun as (l1 & x & l2 & b & Hl & Hrun & Hx).
    assert (forall y, y ∈ l1 ++ [x] -> (y < ncand)%nat) as Hlt.
    { intros y Hy. assert (y ∈ seq 0 ncand) as Hs by (rewrite Hl; set_solver).
      apply elem_of_seq in Hs. lia. }
    assert (length l1 < ncand)%nat as Hl1.
    { pose proof (f_equal length Hl) as Hlen. rewrite length_seq, length_app in Hlen. cbn in Hlen. lia. }
    destruct (component_step_spec l1 b x) as [(ls' & Hok & _)|[[Hb Hr]|[Ha Hev]]].
    + apply Hinv; [|lia|done]. intros y Hy. apply Hlt, elem_of_app. by left.
    + apply Hlt. set_solver.
    + done.
    + congruence.
    + left. split; [congruence|done].
    + right. split; [congruence|done].
Qed.

(** ** What the weight orders: required files, then primary bytes, then score *)

Definition required_count (M : list (nat * nat)) : Z :=
  sum_Z (map (fun e => if required (candidate_at candidates e.1) policy then 1 else 0) M).
Definition mapped_primary_size (M : list (nat * nat)) : Z :=
  sum_Z (map (fun e => if primary (candidate_at candidates e.1) policy
                       then tf_size (candidate_at candidates e.1) else 0) M).
Definition score_sum (M : list (nat * nat)) : Z := sum_Z (map (fun e => value_at e.1 e.2) M).

Definition objective (M : list (nat * nat)) : Z * Z * Z :=
  (required_count M, mapped_primary_size M, score_sum M).

Lemma map_weight_objective M :
  map_weight M = score_sum M
    + unit_value * (mapped_primary_size M + (primary_total + 1) * required_count M).
Proof.
  unfold map_weight, score_sum, mapped_primary_size, required_count.
  induction M as [|[c s] M IH]; [cbn; lia|]. cbn [map]. rewrite !sum_Z_cons, IH. cbn [fst snd].
  unfold weight_value, required_value. destruct (primary _ _), (required _ _); lia.
Qed.

Lemma filemap_candidates M : filemap M -> map fst M ⊆+ seq 0 ncand.
Proof.
  intros (Hf & _ & HM). apply NoDup_submseteq; [done|].
  intros c ([c' s] & -> & Hcs)%list_elem_of_fmap. destruct (HM _ _ Hcs) as [(Hc & _) _].
  apply elem_of_seq. cbn. lia.
Qed.

Lemma map_seq_list {A} (d : A) (f : A -> Z) (l : list A) :
  map (fun c => f (nth c l d)) (seq 0 (length l)) = map f l.
Proof.
  induction l as [|x l IH]; [done|]. cbn [length seq map nth]. f_equal.
  rewrite <- seq_shift, map_map. exact IH.
Qed.

Lemma mapped_primary_bound M : filemap M -> 0 <= mapped_primary_size M <= primary_total.
Proof.
  intros HM. unfold mapped_primary_size, primary_total.
  set (f := fun x => if primary x policy then tf_size x else 0).
  assert (forall c, (c < ncand)%nat -> 0 <= f (candidate_at candidates c)) as Hf.
  { intros c Hc. unfold f. pose proof (candidate_size c Hc) as Hs. unfold is_u64 in Hs.
    case_match; lia. }
  cut (0 <= sum_Z (map (fun c => f (candidate_at candidates c)) (map fst M))
         <= sum_Z (map tf_size (List.filter (fun x => primary x policy) candidates)));
    [by rewrite map_map|]. split.
  - apply sum_Z_nonneg, Forall_map, Forall_forall. intros c Hc. apply Hf.
    pose proof (elem_of_submseteq _ _ _ Hc (filemap_candidates M HM)) as Hs.
    apply elem_of_seq in Hs. lia.
  - etransitivity; [apply (sum_submseteq (fun c => f (candidate_at candidates c)) _ _ (filemap_candidates M HM))|].
    + intros c Hc%elem_of_seq. apply Hf. lia.
    + unfold candidate_at. rewrite map_seq_list. unfold f. clear.
      induction candidates as [|x l IH]; [done|]. cbn [map List.filter]. rewrite sum_Z_cons.
      destruct (primary x policy); cbn [map]; rewrite ?sum_Z_cons; lia.
Qed.

Lemma sum_concat (ls : list (list (nat * Z))) :
  sum_Z (map snd (concat ls)) = sum_Z (map (fun l => sum_Z (map snd l)) ls).
Proof.
  induction ls as [|l ls IH]; [done|]. cbn [concat map]. by rewrite map_app, sum_Z_app, sum_Z_cons, IH.
Qed.

Lemma score_sum_bound M : filemap M -> 0 <= score_sum M < unit_value.
Proof.
  intros HM.
  set (f := fun c => sum_Z (map snd (edges !!! c))).
  assert (forall c, (c < ncand)%nat -> Forall (fun x => 0 <= x) (map snd (edges !!! c))) as Hnn.
  { intros c Hc. apply Forall_map, Forall_forall. intros [s v] Hsv.
    pose proof (edge_value c s v Hc Hsv). cbn. lia. }
  assert (forall c s, (c, s) ∈ M -> 0 <= value_at c s <= f c) as Hv.
  { intros c s Hcs. destruct (filemap_edge M c s HM Hcs) as [Hc Hin].
    pose proof (edge_value _ _ _ Hc Hin). split; [lia|]. unfold f.
    specialize (Hnn c Hc). apply list_elem_of_split in Hin as (l1 & l2 & Hin).
    rewrite Hin in *. rewrite map_app, sum_Z_app in *. cbn [map snd] in *. rewrite sum_Z_cons in *.
    apply Forall_app in Hnn as [H1 [_ H2]%Forall_cons].
    apply sum_Z_nonneg in H1, H2. lia. }
  unfold score_sum. split.
  { apply sum_Z_nonneg, Forall_map, Forall_forall. intros [c s] Hcs. by apply (Hv c s). }
  apply Z.le_lt_trans with (sum_Z (map f (map fst M))).
  { rewrite map_map. apply sum_Z_map_le. intros [c s] Hcs. by apply (Hv c s). }
  apply Z.le_lt_trans with (sum_Z (map f (seq 0 ncand))).
  { apply sum_submseteq; [by apply filemap_candidates|].
    intros c Hc%elem_of_seq. apply sum_Z_nonneg, Hnn. lia. }
  unfold unit_value. rewrite sum_concat, <- (e_len _ _ _ _ _ _ HE).
  rewrite <- (map_seq_list [] (fun l => sum_Z (map snd l)) edges).
  enough (map f (seq 0 (length edges)) = map (fun c => sum_Z (map snd (nth c edges [])))
            (seq 0 (length edges))) as -> by lia.
  apply map_ext. intros c. unfold f. by rewrite nth_lookup, list_lookup_total_alt.
Qed.

Lemma lex_pair U s1 s2 q1 q2 :
  0 <= s1 < U -> 0 <= s2 < U -> (s1 + U * q1 <= s2 + U * q2 <-> q1 < q2 \/ (q1 = q2 /\ s1 <= s2)).
Proof. clear. intros H1 H2. destruct (Z.lt_trichotomy q1 q2) as [H|[->|H]]; nia. Qed.

Definition lex_le (x y : Z * Z * Z) : Prop :=
  x.1.1 < y.1.1 \/ (x.1.1 = y.1.1 /\ (x.1.2 < y.1.2 \/ (x.1.2 = y.1.2 /\ x.2 <= y.2))).

Lemma objective_lex M N :
  filemap M -> filemap N -> (map_weight M <= map_weight N <-> lex_le (objective M) (objective N)).
Proof.
  intros HM HN. rewrite !map_weight_objective.
  pose proof (score_sum_bound M HM). pose proof (score_sum_bound N HN).
  pose proof (mapped_primary_bound M HM). pose proof (mapped_primary_bound N HN).
  rewrite lex_pair by done. unfold lex_le, objective. cbn [fst snd].
  set (r1 := required_count M) in *. set (r2 := required_count N) in *.
  set (p1 := mapped_primary_size M) in *. set (p2 := mapped_primary_size N) in *.
  set (T := primary_total) in *.
  pose proof (lex_pair (T + 1) p1 p2 r1 r2 ltac:(lia) ltac:(lia)) as Hq1.
  pose proof (lex_pair (T + 1) p2 p1 r2 r1 ltac:(lia) ltac:(lia)) as Hq2. lia.
Qed.

Lemma objective_eq M N :
  filemap M -> filemap N -> (map_weight M = map_weight N <-> objective M = objective N).
Proof.
  intros HM HN. pose proof (objective_lex M N HM HN) as H1. pose proof (objective_lex N M HN HM) as H2.
  unfold lex_le, objective in *. cbn [fst snd] in *. split.
  - intros Heq. assert (required_count M = required_count N) as -> by lia.
    assert (mapped_primary_size M = mapped_primary_size N) as -> by lia.
    assert (score_sum M = score_sum N) as -> by lia. done.
  - intros [= Ha Hb Hc]. lia.
Qed.
End Objective.

(** ** The contract of [assign_with] *)

Section Contract.
Context (candidates : list TorrentFile) (sources : list (SourceId * LocalSourceFile)).
Context (policy : MatchingPolicy) (score : TorrentFile -> LocalSourceFile -> option Z).

Definition n_candidates : Z := Z.of_nat (length candidates).
Definition n_sources : Z := Z.of_nat (length sources).

(** Budgets that no input of this size can exceed *)
Definition within_budget : Prop :=
  n_candidates + n_sources <= mp_max_assignment_files policy /\
  n_candidates * n_sources <= mp_max_candidate_edges policy /\
  n_candidates + n_sources <= mp_max_assignment_component_files policy /\
  n_candidates * ((n_candidates + 1) * n_candidates * n_candidates * (n_candidates + n_sources))
    <= mp_max_assignment_operations policy.

Notation one_to_one := (filemap candidates sources policy score).
Notation goodness := (objective candidates sources policy score).

(** The answer is the only best mapping. *)
Definition unique_best (P : list (nat * nat * Z)) : Prop :=
  one_to_one (pairs_edges P) /\ pairs_scored candidates sources score P /\
  forall N, one_to_one N ->
    lex_le (goodness N) (goodness (pairs_edges P)) /\
    (goodness N = goodness (pairs_edges P) -> same_edges (pairs_edges P) N).

(** Every mapping is matched or beaten by two different mappings of equal goodness. *)
Definition tied_best : Prop :=
  forall N, one_to_one N -> exists N1 N2 e, one_to_one N1 /\ one_to_one N2 /\
    lex_le (goodness N) (goodness N1) /\ goodness N1 = goodness N2 /\ e ∈ N1 /\ e ∉ N2.

Definition assign_contract (r : option (result AssignmentError Assignment)) : Prop :=
  match r with
  | None => False
  | Some (Err BudgetExceeded) => ~ within_budget
  | Some (Ok a) => if as_ambiguous a then as_pairs a = [] /\ tied_best
                   else unique_best (as_pairs a)
  end.

Lemma assign_with_contract :
  policy_in_range policy -> sizes_u64 candidates -> score_bounded score ->
  assign_contract (assign_with candidates sources policy score).
Proof.
  intros Hp Hs Hsc. unfold assign_with.
  destruct (_ || _) eqn:Hguard.
  { cbn. intros (H & _). unfold n_candidates, n_sources in H.
    apply orb_true_iff in Hguard as [Hg|Hg]; apply Z.ltb_lt in Hg; unfold saturating_sub_u in Hg; lia. }
  apply orb_false_iff in Hguard as [Hg1 Hg2]. apply Z.ltb_ge in Hg1, Hg2.
  destruct (build_edges candidates sources policy score) as [st|e] eqn:Hb.
  2: { destruct Hp as [_ [_ Hp]]. destruct (build_edges_budget _ _ _ _ _ Hb Hp) as [-> Hroom].
       cbn. intros (_ & H & _). unfold n_candidates, n_sources in H. lia. }
  cbn [mbind result_bind].
  pose proof (build_edges_spec _ _ _ _ st Hb) as HE.
  pose proof (objective_lex _ _ _ _ st HE Hp Hs Hsc Hg1) as Hlex.
  pose proof (objective_eq _ _ _ _ st HE Hp Hs Hsc Hg1) as Heq.
  destruct (assign_components_spec _ _ _ _ st HE Hp Hs Hsc Hg1)
    as [(ls & -> & HL)|[[-> Hr]|[-> Hamb]]]; cbn.
  - destruct HL as [_ _ _ Hvis Hmap _ Hscored _ Hbest]. split_and!; [done|done|].
    intros N HN. destruct (Hbest N HN) as [Hle Huniq].
    + intros c s Hcs. destruct (filemap_edge _ _ _ _ st HE Hp Hs Hsc Hg1 N c s HN Hcs) as [Hc Hin].
      apply Hvis; [apply elem_of_seq; lia|]. intros Hnil. rewrite Hnil in Hin.
      by apply not_elem_of_nil in Hin.
    + split; [by apply Hlex|]. intros Hg. apply Huniq. by apply Heq.
  - intros (H1 & _ & H2 & H3). apply Hr. unfold roomy, component_cost, n_candidates, n_sources in *.
    rewrite !Nat2Z.inj_add. split_and!; done.
  - split; [done|]. intros N HN. destruct (Hamb N HN) as (N1 & N2 & e & H1 & H2 & H3 & H4 & H5 & H6).
    exists N1, N2, e. split_and!; [done|done|by apply Hlex|by apply Heq|done|done].
Qed.
End Contract.

(** ** The edge scores of the matcher *)

Lemma score_if_bound b x : 0 <= x -> 0 <= score_if b x <= x.
Proof. destruct b; unfold score_if; lia. Qed.

(** Bounds on a sum of [score_if]s *)
Ltac sum_scores :=
  unfold max_score, SCORE_ROLE, SCORE_EXACT_PATH, SCORE_EXACT_BASENAME, SCORE_EPISODE,
    SCORE_PRIMARY_EXTENSION, SCORE_NORMALIZED_BASENAME, SCORE_DIRECTORY;
  repeat match goal with
  | |- context [ score_if ?b ?x ] =>
      pose proof (score_if_bound b x ltac:(lia)); generalize dependent (score_if b x); intros
  end; lia.

Section EdgeScore.
Context {U : Unicode}.

Lemma edge_score_Some candidate source policy season_mode v :
  edge_score candidate source policy season_mode = Some v ->
  tf_size candidate = lsf_size source /\
  primary candidate policy = primary_path (lsf_path source) policy /\
  (primary candidate policy = false -> extension (tf_path candidate) = extension (lsf_path source)) /\
  1 <= v <= max_score.
Proof.
  unfold edge_score. destruct (Z.eqb_spec (tf_size candidate) (lsf_size source)) as [Hsz|]; [|done].
  cbn [negb]. destruct (eqb (primary candidate policy) _) eqn:Hp; [|done]. cbn [negb].
  apply eqb_prop in Hp.
  destruct (negb (primary candidate policy) && _) eqn:Hext; [done|].
  destruct (_ && _ && negb _); [done|]. destruct (season_mode && _ && _); [done|].
  intros [= <-]. split_and!; [done|done| | |].
  - intros Hprim. rewrite Hprim in Hext. cbn in Hext. apply negb_false_iff in Hext.
    by apply bool_decide_eq_true in Hext.
  - sum_scores.
  - sum_scores.
Qed.

Lemma edge_score_bounded policy season_mode :
  score_bounded (fun c s => edge_score c s policy season_mode).
Proof. intros c s v (_ & _ & _ & Hv)%edge_score_Some. exact Hv. Qed.

(** No scored pair is lost by looking only into the bucket of the candidate. *)
Lemma edge_score_bucket candidates sources policy season_mode c s v :
  edge_score (candidate_at candidates c) (source_at sources s) policy season_mode = Some v ->
  same_bucket candidates sources policy c s.
Proof.
  intros (Hsz & Hp & Hext & _)%edge_score_Some. unfold same_bucket, source_key, candidate_key, bucket.
  rewrite Hsz, <- Hp. destruct (primary _ policy) eqn:Hprim; [done|]. by rewrite Hext.
Qed.
End EdgeScore.

