(* ===== verification/MatcherProofs.v ===== *)
(** Properties of the matcher's decisions: [PureMatcher::evaluate] of
    [crates/sporos-matcher/src/matcher.rs].

    [evaluate_total]: no panic; [evaluated]: where a decision comes from; the theorems then
    describe the mappings, the mode, the byte accounting, the manifest checks, and the
    independence of the order in which sources are listed. *)

From S2P Require Import Prelude Model Text Release Hungarian Assignment Component Matcher MatcherAssign.
From stdpp Require Import strings.

Local Open Scope Z_scope.

(** ** Where a decision comes from *)

Section Origin.
Context {U : Unicode} (request : MatchRequest).

Notation policy := (rq_policy request).
Notation files := (tm_files (rq_candidate request)).
Notation candidates := (candidate_files (rq_candidate request)).

(** Input the program can hold: the size of the torrent is a [u64], the limits are what a
    configuration may set. *)
Definition request_in_range : Prop :=
  policy_in_range policy /\ sizes_u64 files.

Definition sources_of (l : list LocalSourceManifest) : list (SourceId * LocalSourceFile) :=
  flat_map (fun source => map (fun file => (lsm_id source, file)) (lsm_files source)) l.

Lemma elem_of_candidates f : f ∈ candidates <-> f ∈ files /\ tf_padding f = false.
Proof.
  unfold candidate_files. rewrite elem_of_sort_by, list_elem_of_In, filter_In, negb_true_iff.
  by rewrite list_elem_of_In.
Qed.

Lemma candidates_sizes : request_in_range -> sizes_u64 candidates.
Proof.
  intros [_ Hs]. eapply sizes_u64_submseteq; [|exact Hs]. unfold candidate_files.
  rewrite sort_by_Permutation. apply filter_submseteq.
Qed.

Lemma assign_request sources season_mode :
  request_in_range ->
  assign_contract candidates sources policy (fun c s => edge_score c s policy season_mode)
    (assign_with candidates sources policy (fun c s => edge_score c s policy season_mode)).
Proof.
  intros Hr. apply assign_with_contract; [apply Hr|by apply candidates_sizes|apply edge_score_bounded].
Qed.

Lemma assign_request_total sources season_mode :
  request_in_range -> exists r,
    assign_with candidates sources policy (fun c s => edge_score c s policy season_mode) = Some r.
Proof.
  intros Hr. pose proof (assign_request sources season_mode Hr) as H.
  destruct (assign_with _ _ _ _) as [r|]; [by exists r|done].
Qed.

(** A decision is built from the mappings of one assignment. *)
Definition produced (season_mode : bool) (used : list LocalSourceManifest) (mode : MatchMode)
    (d : MatchDecision) : Prop :=
  exists pairs mappings count,
    assign_with candidates (sources_of used) policy (fun c s => edge_score c s policy season_mode)
      = Some (Ok {| as_pairs := pairs; as_ambiguous := false |}) /\
    build_mappings candidates (sources_of used) pairs = Some mappings /\
    d = decision request mode mappings count.

Lemma evaluate_source_decision source d :
  evaluate_source request source = Some (Decided d) ->
  exists mode, source_mode request candidates (md_mappings d) = Some mode /\
    produced false [source] mode d.
Proof.
  unfold evaluate_source.
  assert (map (fun file => (lsm_id source, file)) (lsm_files source) = sources_of [source]) as ->
    by (unfold sources_of; cbn; by rewrite app_nil_r).
  intros ([a|[]] & Ha & H)%bind_Some; [|done]. destruct a as [pairs []]; [done|].
  cbn [as_ambiguous as_pairs] in H. apply bind_Some in H as (mappings & Hb & H).
  destruct (source_mode _ _ _) as [mode|] eqn:Hm; [|done]. injection H as <-.
  exists mode. split; [exact Hm|]. by exists pairs, mappings, 1.
Qed.

Lemma evaluate_season_decision sources d :
  evaluate_season request sources = Some (Decided d) ->
  produced true (List.filter (episode_source request) sources) SeasonFromEpisodes d /\
  existsb (mapped_file (fun file => primary file policy) candidates) (md_mappings d) = true.
Proof.
  unfold evaluate_season. fold (sources_of (List.filter (episode_source request) sources)).
  case_bool_decide; [done|].
  intros ([a|[]] & Ha & H1)%bind_Some; [|done]. destruct a as [pairs []]; [done|].
  cbn [as_ambiguous as_pairs] in H1. apply bind_Some in H1 as (mappings & Hb & H1).
  destruct (existsb _ _) eqn:He; [|done]. injection H1 as <-.
  split; [by eexists pairs, mappings, _|exact He].
Qed.

Lemma produced_match season_mode used mode d :
  produced season_mode used mode d -> md_outcome d = Match.
Proof. by intros (pairs & mappings & n & _ & _ & ->). Qed.

(** The two ways to a [Match] decision *)
Definition from_source (d : MatchDecision) : Prop :=
  exists source, source ∈ ordered_sources request /\
    compatible (rq_candidate_release request) (lsm_release source) false = Ok () /\
    evaluate_source request source = Some (Decided d).

Definition from_season (d : MatchDecision) : Prop :=
  mp_allow_season_from_episodes policy = true /\
  rd_kind (rq_candidate_release request) = SeasonPack /\
  evaluate_season request (ordered_sources request) = Some (Decided d).

Lemma evaluate_sources_choices sources acc conflicts choices :
  try_fold (evaluate_one request) sources acc = Ok (conflicts, choices) ->
  forall d, d ∈ choices -> d ∈ acc.2 \/
    exists source, source ∈ sources /\
      compatible (rq_candidate_release request) (lsm_release source) false = Ok () /\
      evaluate_source request source = Some (Decided d).
Proof.
  revert acc. induction sources as [|s sources IH]; intros acc; cbn [try_fold].
  - intros [= ->] d Hd. by left.
  - destruct (evaluate_one request acc s) as [acc'|] eqn:Hs; [|done]. intros Hrun d Hd.
    destruct (IH acc' Hrun d Hd) as [Hacc|(x & Hx & H)].
    + destruct acc as [cf ch]. unfold evaluate_one in Hs.
      destruct (compatible _ _ false) as [[]|r] eqn:Hc; [|injection Hs as <-; by left].
      destruct (evaluate_source request s) as [[d'| |r]|] eqn:He; try done;
        injection Hs as <-; cbn [snd] in *; [|by left].
      apply elem_of_app in Hacc as [?| ->%list_elem_of_singleton]; [by left|right].
      exists s. split; [left|done].
    + right. exists x. split; [by right|done].
Qed.

Lemma choose_Some choices d :
  choose choices = Some d -> d ∈ choices \/ md_outcome d = Rejected.
Proof.
  unfold choose. destruct (sort_by _ choices) as [|first rest] eqn:Hs; [done|].
  intros [= <-]. destruct rest as [|second rest]; cbn.
  - left. rewrite <- (elem_of_sort_by (fun a b => str_leb (quality b) (quality a))), Hs. left.
  - destruct (_ && _); [by right|]. left.
    rewrite <- (elem_of_sort_by (fun a b => str_leb (quality b) (quality a))), Hs. left.
Qed.

Lemma evaluated d :
  evaluate request = Some d ->
  (md_outcome d <> Match /\ md_mappings d = [] /\ md_source_ids d = [] /\
   md_mode d = None /\ md_requires_recheck d = false /\ md_mapped_bytes d = 0) \/
  (validate_manifest (rq_candidate request) = None /\ already_present request = false /\
   input_budget_exceeded request = false /\ (from_source d \/ from_season d)).
Proof.
  unfold evaluate. destruct (validate_manifest _) as [r|] eqn:Hv; [intros [= <-]; by left|].
  destruct (already_present request) eqn:Hp; [intros [= <-]; by left|].
  destruct (input_budget_exceeded request) eqn:Hb; [intros [= <-]; by left|].
  destruct (try_fold _ _ _) as [[conflicts choices]|[r|]] eqn:Hf; [|intros [= <-]; by left|done].
  pose proof (evaluate_sources_choices _ _ _ _ Hf) as Hch.
  assert (forall cf ch,
    (forall d, d ∈ ch -> from_source d \/ from_season d) ->
    forall d, match choose ch with Some d => d | None => no_match (best_reason cf) (base_evidence request) request end = d ->
    (md_outcome d <> Match /\ md_mappings d = [] /\ md_source_ids d = [] /\
     md_mode d = None /\ md_requires_recheck d = false /\ md_mapped_bytes d = 0) \/
    (from_source d \/ from_season d)) as Hfin.
  { intros cf ch Hall x Hx. destruct (choose ch) as [y|] eqn:Hy; subst x; [|by left].
    unfold choose in Hy. destruct (sort_by _ ch) as [|first rest] eqn:Hs; [done|].
    injection Hy as <-.
    assert (first ∈ ch) as Hin.
    { rewrite <- (elem_of_sort_by (fun a b => str_leb (quality b) (quality a))), Hs. left. }
    destruct rest as [|second rest]; [right; by apply Hall|].
    destruct (_ && _); [by left|right; by apply Hall]. }
  assert (forall d, d ∈ choices -> from_source d) as Hsrc.
  { intros x Hx. destruct (Hch x Hx) as [Hn|H]; [by apply not_elem_of_nil in Hn|exact H]. }
  destruct (mp_allow_season_from_episodes policy && _) eqn:Hseason.
  - apply andb_true_iff in Hseason as [Ha Hk%bool_decide_eq_true].
    intros (ev & Hev & H)%bind_Some. injection H as H. destruct ev as [x| |r].
    + destruct (Hfin conflicts (choices ++ [x])) with (d := d) as [?|?]; [|exact H|by left|by right].
      intros y [Hy| ->%list_elem_of_singleton]%elem_of_app; [left; auto|right]. done.
    + subst d. by left.
    + destruct (Hfin (conflicts ++ [r]) choices) with (d := d) as [?|?]; [auto|exact H|by left|by right].
  - intros [= H]. destruct (Hfin conflicts choices) with (d := d) as [?|?]; [auto|exact H|by left|by right].
Qed.

(** Every decision of the matcher is [produced]. *)
Lemma match_produced d :
  from_source d \/ from_season d ->
  (exists source mode, source ∈ ordered_sources request /\
     source_mode request candidates (md_mappings d) = Some mode /\ produced false [source] mode d) \/
  (mp_allow_season_from_episodes policy = true /\
   produced true (List.filter (episode_source request) (ordered_sources request)) SeasonFromEpisodes d /\
   existsb (mapped_file (fun file => primary file policy) candidates) (md_mappings d) = true).
Proof.
  intros [(source & Hin & _ & He)|(Ha & _ & He)].
  - left. destruct (evaluate_source_decision source d He) as (mode & Hm & Hp). by exists source, mode.
  - right. destruct (evaluate_season_decision _ d He). done.
Qed.

Lemma elem_of_ordered_sources source :
  source ∈ ordered_sources request <-> source ∈ rq_sources request /\ lsm_available source = true.
Proof.
  unfold ordered_sources. rewrite elem_of_sort_by, list_elem_of_In, filter_In.
  by rewrite list_elem_of_In.
Qed.
End Origin.

(** ** Manifest validation *)

Section ManifestProofs.
Context {U : Unicode}.

Lemma insert_file_ok acc file acc' :
  insert_file acc file = Ok acc' ->
  tf_ordinal file ∉ acc.1 /\ unsafe_path (tf_path file) = false /\
  nfc_string (tf_path file) ∉ acc.2 /\
  acc' = ({[ tf_ordinal file ]} ∪ acc.1, {[ nfc_string (tf_path file) ]} ∪ acc.2).
Proof.
  destruct acc as [ordinals paths]. unfold insert_file.
  intros (u1 & H1%bail_if_Ok & H)%bind_Ok. apply bind_Ok in H as (u2 & H2%bail_if_Ok & [= <-]).
  apply orb_false_iff in H1 as [H1%bool_decide_eq_false H3]. apply bool_decide_eq_false in H2. done.
Qed.

(** The first loop: distinct ordinals, safe paths, distinct normalised paths. *)
Lemma insert_files_spec files acc :
  try_fold insert_file files (∅, ∅) = Ok acc <->
  NoDup (map tf_ordinal files) /\ Forall (fun f => unsafe_path (tf_path f) = false) files /\
  NoDup (map (fun f => nfc_string (tf_path f)) files) /\
  acc = (list_to_set (map tf_ordinal files), list_to_set (map (fun f => nfc_string (tf_path f)) files)).
Proof.
  assert (forall a0, try_fold insert_file files a0 = Ok acc <->
    NoDup (map tf_ordinal files) /\ (forall o, o ∈ map tf_ordinal files -> o ∉ a0.1) /\
    Forall (fun f => unsafe_path (tf_path f) = false) files /\
    NoDup (map (fun f => nfc_string (tf_path f)) files) /\
    (forall o, o ∈ map (fun f => nfc_string (tf_path f)) files -> o ∉ a0.2) /\
    acc = (list_to_set (map tf_ordinal files) ∪ a0.1,
           list_to_set (map (fun f => nfc_string (tf_path f)) files) ∪ a0.2)) as H.
  { induction files as [|f files IH]; intros [os ps]; cbn [try_fold map].
    - cbn [list_to_set fst snd]. rewrite !(left_id_L ∅ (∪)). split.
      + intros [= <-]. split_and!; try apply NoDup_nil_2; try apply Forall_nil; try done;
          intros o Ho; by apply not_elem_of_nil in Ho.
      + intros (_ & _ & _ & _ & _ & ->). done.
    - destruct (insert_file (os, ps) f) as [a1|e] eqn:Hf.
      + apply insert_file_ok in Hf as (H1 & H2 & H3 & ->). rewrite IH. cbn [fst snd list_to_set] in *.
        rewrite !NoDup_cons, Forall_cons. setoid_rewrite elem_of_cons.
        setoid_rewrite elem_of_union. setoid_rewrite elem_of_singleton.
        assert (forall A (x y z : gset Z), x ∪ ({[A]} ∪ y) = {[A]} ∪ x ∪ y) as Hc1 by set_solver.
        assert (forall A (x y z : gset str), x ∪ ({[A]} ∪ y) = {[A]} ∪ x ∪ y) as Hc2 by set_solver.
        rewrite (Hc1 _ _ _ ∅), (Hc2 _ _ _ ∅). naive_solver.
      + split; [done|]. intros (Hn1 & Ho & Hs & Hn2 & Hp & _). exfalso.
        apply Forall_cons in Hs as [Hs _]. unfold insert_file in Hf. rewrite Hs in Hf.
        specialize (Ho (tf_ordinal f) ltac:(left)). specialize (Hp (nfc_string (tf_path f)) ltac:(left)).
        cbn [fst snd] in Ho, Hp. rewrite bool_decide_eq_false_2 in Hf by done.
        cbn [orb bail_if mbind result_bind] in Hf.
        rewrite bool_decide_eq_false_2 in Hf by done. done. }
  rewrite H. cbn [fst snd]. rewrite !(right_id_L ∅ (∪)). split.
  - naive_solver.
  - intros (H1 & H2 & H3 & H4). split_and!; try done; intros; apply not_elem_of_empty.
Qed.

(** A list of components that properly extends a path in [paths] *)
Lemma prefix_is_path_spec paths prefix first components :
  prefix_is_path paths prefix first components = true <->
  exists l1 l2, components = l1 ++ l2 /\ l1 <> [] /\ l2 <> [] /\
    (if (first : bool) then prefix else prefix ++ [47]) ++ join_on 47 l1 ∈ paths.
Proof.
  revert prefix first. induction components as [|c rest IH]; intros prefix first; cbn [prefix_is_path].
  - split; [done|]. intros (l1 & l2 & He & H1 & _). symmetry in He. by apply app_nil in He as [-> _].
  - set (p := (if first then prefix else prefix ++ [47]) ++ c).
    rewrite orb_true_iff, andb_true_iff, negb_true_iff, bool_decide_eq_false, bool_decide_eq_true, IH.
    split.
    + intros [[Hr Hp]|(l1 & l2 & -> & H1 & H2 & Hp)].
      * exists [c], rest. done.
      * exists (c :: l1), l2. split_and!; [done..|]. unfold p in Hp.
        destruct l1 as [|x l1]; [done|]. cbn [join_on]. by rewrite <- !app_assoc in *.
    + intros ([|c' l1] & l2 & He & H1 & H2 & Hp); [done|]. injection He as <- ->.
      destruct l1 as [|x l1].
      * left. split; [by destruct l2|exact Hp].
      * right. exists (x :: l1), l2. split_and!; [done..|]. unfold p. cbn [join_on] in Hp.
        by rewrite <- !app_assoc in *.
Qed.

(** [q] is a directory of the path [p]: [p] continues [q] after a separator. *)
Definition directory_of (q p : str) : Prop := exists rest, p = q ++ 47 :: rest.

Lemma split_on_app a b : split_on 47 (a ++ 47 :: b) = split_on 47 a ++ split_on 47 b.
Proof.
  induction a as [|x a IH]; cbn [app split_on]; [done|]. rewrite IH.
  destruct (Z.eqb_spec x 47); [done|].
  destruct (split_on 47 a) as [|w ws] eqn:Ha; [by apply split_on_nonempty in Ha|done].
Qed.

Lemma join_on_app l1 l2 : l1 <> [] -> l2 <> [] -> join_on 47 (l1 ++ l2) = join_on 47 l1 ++ 47 :: join_on 47 l2.
Proof.
  intros H1 H2. induction l1 as [|x l1 IH]; [done|]. destruct l1 as [|y l1].
  - cbn. by destruct l2.
  - cbn [app join_on] in *. rewrite IH by done. by rewrite <- app_assoc.
Qed.

Lemma directory_split q p :
  directory_of q p <-> exists l1 l2, split_on 47 p = l1 ++ l2 /\ l1 <> [] /\ l2 <> [] /\ join_on 47 l1 = q.
Proof.
  split.
  - intros (rest & ->). exists (split_on 47 q), (split_on 47 rest).
    rewrite split_on_app, join_split. split_and!; try done; apply split_on_nonempty.
  - intros (l1 & l2 & He & H1 & H2 & <-). exists (join_on 47 l2).
    rewrite <- (join_split 47 p), He. by apply join_on_app.
Qed.

Definition normalized_paths (manifest : TorrentManifest) : list str :=
  map (fun f => nfc_string (tf_path f)) (tm_files manifest).

Definition manifest_safe (manifest : TorrentManifest) : Prop :=
  tm_files manifest <> [] /\ tm_piece_length manifest <> Some 0 /\
  NoDup (map tf_ordinal (tm_files manifest)) /\
  Forall (fun f => unsafe_path (tf_path f) = false) (tm_files manifest) /\
  NoDup (normalized_paths manifest) /\
  forall p q, p ∈ normalized_paths manifest -> q ∈ normalized_paths manifest -> ~ directory_of q p.

Lemma validate_manifest_spec manifest :
  validate_manifest manifest = None <-> manifest_safe manifest.
Proof.
  unfold validate_manifest, manifest_safe.
  destruct (bool_decide (tm_files manifest = [])) eqn:H1.
  { apply bool_decide_eq_true in H1. cbn. split; [done|]. by intros [? _]. }
  destruct (bool_decide (tm_piece_length manifest = Some 0)) eqn:H2.
  { apply bool_decide_eq_true in H2. cbn. split; [done|]. by intros (_ & ? & _). }
  apply bool_decide_eq_false in H1, H2. cbn [orb].
  destruct (try_fold insert_file (tm_files manifest) (∅, ∅)) as [[os ps]|e] eqn:Hf.
  - apply insert_files_spec in Hf as (H3 & H4 & H5 & [= -> ->]).
    fold (normalized_paths manifest). set (ps := list_to_set (normalized_paths manifest)).
    assert (existsb (fun path => prefix_is_path ps [] true (split_on 47 path)) (elements ps) = true <->
      exists p q, p ∈ normalized_paths manifest /\ q ∈ normalized_paths manifest /\ directory_of q p) as He.
    { rewrite existsb_exists. unfold ps. split.
      - intros (p & Hp & Hpre). apply list_elem_of_In, elem_of_elements, elem_of_list_to_set in Hp.
        apply prefix_is_path_spec in Hpre as (l1 & l2 & Hs & Ha & Hb & Hq). cbn in Hq.
        apply elem_of_list_to_set in Hq. exists p, (join_on 47 l1). split_and!; [done..|].
        apply directory_split. by exists l1, l2.
      - intros (p & q & Hp & Hq & Hd). exists p. split.
        + by apply list_elem_of_In, elem_of_elements, elem_of_list_to_set.
        + apply prefix_is_path_spec. apply directory_split in Hd as (l1 & l2 & Hs & Ha & Hb & <-).
          exists l1, l2. split_and!; try done. cbn. by apply elem_of_list_to_set. }
    destruct (existsb _ _) eqn:Hex.
    + split; [done|]. intros (_ & _ & _ & _ & _ & Hno).
      destruct (proj1 He eq_refl) as (p & q & Hp & Hq & Hd). by destruct (Hno p q Hp Hq).
    + split; [|done]. intros _. split_and!; try done. intros p q Hp Hq Hd.
      assert (false = true) as Hft by (apply He; by exists p, q). done.
  - split; [done|]. intros (_ & _ & H3 & H4 & H5 & _).
    assert (try_fold insert_file (tm_files manifest) (∅, ∅) = Ok
      (list_to_set (map tf_ordinal (tm_files manifest)), list_to_set (normalized_paths manifest))) as Hok
      by (by apply insert_files_spec).
    congruence.
Qed.
End ManifestProofs.

(** ** Mappings of a decision *)

Section Mappings.
Context {U : Unicode} (request : MatchRequest).

Notation policy := (rq_policy request).
Notation files := (tm_files (rq_candidate request)).
Notation candidates := (candidate_files (rq_candidate request)).

(** Source ids are distinct, and so are the file ids within a source. *)
Definition sources_distinct : Prop :=
  NoDup (map lsm_id (rq_sources request)) /\
  forall source, source ∈ rq_sources request -> NoDup (map lsf_id (lsm_files source)).

(** A mapping pairs one candidate file with one source file of the same size. *)
Definition mapping_sound (mapping : FileMapping) : Prop :=
  exists f source sf,
    f ∈ files /\ tf_padding f = false /\
    source ∈ rq_sources request /\ lsm_available source = true /\ sf ∈ lsm_files source /\
    fm_candidate_ordinal mapping = tf_ordinal f /\ fm_candidate_path mapping = tf_path f /\
    fm_source_id mapping = lsm_id source /\ fm_source_file_id mapping = lsf_id sf /\
    fm_source_path mapping = lsf_path sf /\
    fm_size mapping = tf_size f /\ tf_size f = lsf_size sf /\ 1 <= fm_score mapping <= max_score.

Definition mapping_of (sources : list (SourceId * LocalSourceFile)) (p : nat * nat * Z) : FileMapping :=
  let '(c, s, v) := p in
  {| fm_candidate_ordinal := tf_ordinal (candidate_at candidates c);
     fm_source_id := fst (nth s sources dummy_source);
     fm_source_file_id := lsf_id (source_at sources s);
     fm_candidate_path := tf_path (candidate_at candidates c);
     fm_source_path := lsf_path (source_at sources s);
     fm_size := tf_size (candidate_at candidates c); fm_score := v |}.

(** Pairs within range are read without a panic. *)
Lemma build_mappings_spec sources pairs :
  (forall c s v, (c, s, v) ∈ pairs -> (c < length candidates)%nat /\ (s < length sources)%nat) ->
  exists mappings, build_mappings candidates sources pairs = Some mappings /\
    Permutation mappings (map (mapping_of sources) pairs).
Proof.
  intros Hin. unfold build_mappings.
  assert (mapM (build_mapping candidates sources) pairs = Some (map (mapping_of sources) pairs)) as ->.
  { apply mapM_Some, Forall2_fmap_r, Forall_Forall2_diag, Forall_forall.
    intros [[c s] v] Hp. unfold compose, build_mapping, mapping_of.
    destruct (Hin c s v Hp) as [Hc Hs]. rewrite (candidate_lookup candidates c Hc).
    cbn [mbind option_bind]. unfold source_at.
    destruct (lookup_lt_is_Some_2 sources s Hs) as [[id f] Hl].
    by rewrite Hl, (nth_lookup_Some _ _ _ _ Hl). }
  cbn [mbind option_bind]. eexists. split; [done|]. apply sort_by_Permutation.
Qed.

Lemma unique_best_range season_mode sources pairs :
  unique_best candidates sources policy (fun c s => edge_score c s policy season_mode) pairs ->
  forall c s v, (c, s, v) ∈ pairs -> (c < length candidates)%nat /\ (s < length sources)%nat.
Proof.
  intros ((_ & _ & Hmap) & _) c s v Hin. destruct (Hmap c s) as [(Hc & Hs & _) _]; [|done].
  unfold pairs_edges. apply list_elem_of_fmap. by exists (c, s, v).
Qed.

Lemma elem_of_sources_of used id sf :
  (id, sf) ∈ sources_of used <-> exists source, source ∈ used /\ id = lsm_id source /\ sf ∈ lsm_files source.
Proof.
  unfold sources_of. rewrite list_elem_of_In, in_flat_map.
  setoid_rewrite in_map_iff. setoid_rewrite <- list_elem_of_In. split.
  - intros (source & Hs & f & [= <- <-] & Hf). eauto.
  - intros (source & Hs & -> & Hf). eauto 6.
Qed.

(** Data of a produced decision, once the input is in range *)
Lemma produced_pairs season_mode used mode d :
  request_in_range request -> produced request season_mode used mode d ->
  exists pairs count,
    unique_best candidates (sources_of used) policy (fun c s => edge_score c s policy season_mode) pairs /\
    Permutation (md_mappings d) (map (mapping_of (sources_of used)) pairs) /\
    d = decision request mode (md_mappings d) count.
Proof.
  intros Hr (pairs & mappings & n & Ha & Hb & Hd). exists pairs, n.
  pose proof (assign_request request (sources_of used) season_mode Hr) as Hc. rewrite Ha in Hc.
  destruct (build_mappings_spec (sources_of used) pairs) as (ms & Hms & Hperm);
    [by apply (unique_best_range season_mode)|].
  rewrite Hb in Hms. injection Hms as <-.
  subst d. split_and!; [exact Hc|exact Hperm|done].
Qed.

Lemma pair_sound season_mode used pairs c s v :
  unique_best candidates (sources_of used) policy (fun c s => edge_score c s policy season_mode) pairs ->
  (c, s, v) ∈ pairs ->
  (c < length candidates)%nat /\ (s < length (sources_of used))%nat /\
  candidate_at candidates c ∈ candidates /\
  edge_score (candidate_at candidates c) (source_at (sources_of used) s) policy season_mode = Some v /\
  (exists source, source ∈ used /\ fst (nth s (sources_of used) dummy_source) = lsm_id source /\
     source_at (sources_of used) s ∈ lsm_files source).
Proof.
  intros ((_ & _ & Hmap) & Hscored & _) Hin.
  destruct (Hmap c s) as [(Hc & Hs & _) _].
  { unfold pairs_edges. apply list_elem_of_fmap. by exists (c, s, v). }
  split_and!; [done|done| | |].
  - apply list_elem_of_In, nth_In, Hc.
  - exact (Hscored c s v Hin).
  - assert (nth s (sources_of used) dummy_source ∈ sources_of used) as Hn
      by (by apply list_elem_of_In, nth_In).
    unfold source_at. destruct (nth s (sources_of used) dummy_source) as [id sf].
    apply elem_of_sources_of in Hn as (source & Hs1 & -> & Hf). by exists source.
Qed.

Lemma produced_sound season_mode used mode d mapping :
  request_in_range request -> produced request season_mode used mode d ->
  (forall source, source ∈ used -> source ∈ ordered_sources request) ->
  mapping ∈ md_mappings d -> mapping_sound mapping.
Proof.
  intros Hr Hp Hused Hm. destruct (produced_pairs _ _ _ _ Hr Hp) as (pairs & n & Hbest & Hperm & _).
  rewrite Hperm in Hm. apply list_elem_of_fmap in Hm as ([[c s] v] & -> & Hin).
  destruct (pair_sound _ _ _ _ _ _ Hbest Hin) as (_ & _ & Hc & Hsc & source & Hsrc & Hid & Hf).
  apply elem_of_candidates in Hc as [Hc Hpad].
  apply Hused, elem_of_ordered_sources in Hsrc as [Hsrc Hav].
  apply edge_score_Some in Hsc as (Hsize & _ & _ & Hv).
  exists (candidate_at candidates c), source, (source_at (sources_of used) s).
  cbn [mapping_of fm_candidate_ordinal fm_candidate_path fm_source_id fm_source_file_id
       fm_source_path fm_size fm_score]. split_and!; done || lia.
Qed.

Lemma candidates_ordinals : NoDup (map tf_ordinal files) -> NoDup (map tf_ordinal candidates).
Proof.
  intros H. unfold candidate_files. rewrite (sort_by_Permutation _ _).
  eapply sublist_NoDup; [exact H|]. clear. induction files as [|f l IH]; [done|].
  cbn [List.filter map]. destruct (negb (tf_padding f)); [by apply sublist_skip|by apply sublist_cons].
Qed.

Lemma nth_eq_of_key {A B} (key : A -> B) (l : list A) d i j :
  NoDup (map key l) -> (i < length l)%nat -> (j < length l)%nat ->
  key (nth i l d) = key (nth j l d) -> i = j.
Proof.
  intros Hnd Hi Hj He.
  apply (NoDup_lookup (map key l) i j (key (nth i l d))); [done|..]; rewrite list_lookup_fmap.
  - destruct (nth_lookup_or_length l i d) as [->|?]; [done|lia].
  - destruct (nth_lookup_or_length l j d) as [->|?]; [by rewrite He|lia].
Qed.

Lemma produced_ordinals season_mode used mode d :
  request_in_range request -> NoDup (map tf_ordinal files) -> produced request season_mode used mode d ->
  NoDup (map fm_candidate_ordinal (md_mappings d)).
Proof.
  intros Hr Hnd Hp. destruct (produced_pairs _ _ _ _ Hr Hp) as (pairs & n & Hbest & Hperm & _).
  rewrite Hperm, map_map. pose proof Hbest as ((Hf & _) & _).
  unfold pairs_edges in Hf. rewrite map_map in Hf.
  assert (map (fun p => fm_candidate_ordinal (mapping_of (sources_of used) p)) pairs
          = map (fun c => tf_ordinal (candidate_at candidates c)) (map (fun p => p.1.1) pairs)) as ->.
  { rewrite map_map. apply map_ext. by intros [[c s] v]. }
  apply NoDup_fmap_2_strong; [|exact Hf].
  intros c1 c2 ([[? s1] v1] & -> & H1)%list_elem_of_fmap ([[? s2] v2] & -> & H2)%list_elem_of_fmap He.
  destruct (pair_sound _ _ _ _ _ _ Hbest H1) as (Hc1 & _).
  destruct (pair_sound _ _ _ _ _ _ Hbest H2) as (Hc2 & _).
  by apply (nth_eq_of_key tf_ordinal candidates dummy_candidate); [apply candidates_ordinals|..].
Qed.

Definition source_file_key (p : SourceId * LocalSourceFile) : SourceId * Z := (p.1, lsf_id p.2).

Lemma sources_of_keys used :
  NoDup (map lsm_id used) -> (forall source, source ∈ used -> NoDup (map lsf_id (lsm_files source))) ->
  NoDup (map source_file_key (sources_of used)).
Proof.
  unfold sources_of. induction used as [|s used IH]; intros Hid Hf; [apply NoDup_nil_2|].
  cbn [map flat_map] in *. apply NoDup_cons in Hid as [Hs Hid]. rewrite map_app.
  apply NoDup_app. split_and!.
  - rewrite map_map. cbn. specialize (Hf s ltac:(left)).
    rewrite <- (map_map lsf_id (fun i => (lsm_id s, i))). apply NoDup_fmap_2; [|done].
    by intros x y [= ->].
  - intros k Hk1 Hk2. rewrite map_map in Hk1.
    apply list_elem_of_fmap in Hk1 as (f & -> & _). apply list_elem_of_fmap in Hk2 as ([id g] & Hk & Hg).
    apply (elem_of_sources_of used) in Hg as (s' & Hs' & -> & _). cbn in Hk. injection Hk as Hk _.
    apply Hs. rewrite Hk. apply list_elem_of_fmap. by exists s'.
  - apply IH; [done|]. intros. apply Hf. by right.
Qed.

Lemma produced_sources season_mode used mode d :
  request_in_range request -> NoDup (map source_file_key (sources_of used)) ->
  produced request season_mode used mode d ->
  NoDup (map (fun m => (fm_source_id m, fm_source_file_id m)) (md_mappings d)).
Proof.
  intros Hr Hnd Hp. destruct (produced_pairs _ _ _ _ Hr Hp) as (pairs & n & Hbest & Hperm & _).
  rewrite Hperm, map_map. pose proof Hbest as ((_ & Hs & _) & _).
  unfold pairs_edges in Hs. rewrite map_map in Hs.
  assert (map (fun p => (fm_source_id (mapping_of (sources_of used) p),
                         fm_source_file_id (mapping_of (sources_of used) p))) pairs
          = map (fun s => source_file_key (nth s (sources_of used) dummy_source))
              (map (fun p => p.1.2) pairs)) as ->.
  { rewrite map_map. apply map_ext. by intros [[c s] v]. }
  apply NoDup_fmap_2_strong; [|exact Hs].
  intros s1 s2 ([[c1 ?] v1] & -> & H1)%list_elem_of_fmap ([[c2 ?] v2] & -> & H2)%list_elem_of_fmap He.
  destruct (pair_sound _ _ _ _ _ _ Hbest H1) as (_ & Hs1 & _).
  destruct (pair_sound _ _ _ _ _ _ Hbest H2) as (_ & Hs2 & _).
  by apply (nth_eq_of_key source_file_key (sources_of used) dummy_source).
Qed.

Lemma ordered_keys used :
  sources_distinct -> used `sublist_of` ordered_sources request ->
  NoDup (map source_file_key (sources_of used)).
Proof.
  intros [Hid Hf] Hsub.
  assert (forall source, source ∈ used -> source ∈ rq_sources request) as Hin.
  { intros source Hs. apply elem_of_submseteq with (k := ordered_sources request) in Hs;
      [|by apply sublist_submseteq]. apply elem_of_ordered_sources in Hs as [Hs _]. done. }
  apply sources_of_keys; [|auto].
  assert (NoDup (map lsm_id (ordered_sources request))) as Hord.
  { unfold ordered_sources. rewrite (sort_by_Permutation _ _).
    eapply sublist_NoDup; [exact Hid|]. clear. induction (rq_sources request) as [|s l IH]; [done|].
    cbn [List.filter map]. destruct (lsm_available s); [by apply sublist_skip|by apply sublist_cons]. }
  eapply sublist_NoDup; [exact Hord|]. clear -Hsub.
  induction Hsub; cbn [map]; [done|by apply sublist_skip|by apply sublist_cons].
Qed.

Lemma filter_sublist {A} (f : A -> bool) l : List.filter f l `sublist_of` l.
Proof.
  induction l as [|x l IH]; [done|]. cbn. destruct (f x); [by apply sublist_skip|by apply sublist_cons].
Qed.

(** The sources a [Match] decision draws on *)
Lemma match_used d :
  from_source request d \/ from_season request d ->
  exists season_mode used mode, produced request season_mode used mode d /\
    used `sublist_of` ordered_sources request.
Proof.
  intros [(source & mode & Hs & _ & Hp)|(_ & Hp & _)]%match_produced.
  - exists false, [source], mode. split; [done|].
    apply list_elem_of_split in Hs as (l1 & l2 & ->).
    apply sublist_inserts_l, sublist_skip, sublist_nil_l.
  - exists true, (List.filter (episode_source request) (ordered_sources request)), SeasonFromEpisodes.
    split; [done|apply filter_sublist].
Qed.
End Mappings.

(** ** Byte accounting *)

Section Bytes.
Context {U : Unicode} (request : MatchRequest).
Context (Hr : request_in_range request).
Context (Hnd : NoDup (map tf_ordinal (tm_files (rq_candidate request)))).
Context (Hfit : sum_Z (map tf_size (tm_files (rq_candidate request))) <= u64_max).
Context (ms : list FileMapping) (Hms : NoDup (map fm_candidate_ordinal ms)).
Context (Hsound : forall m, m ∈ ms -> mapping_sound request m).
#[local] Set Default Proof Using "All".

Notation policy := (rq_policy request).
Notation files := (tm_files (rq_candidate request)).

Definition file_of (ordinal : Z) : option TorrentFile :=
  find (fun file => tf_ordinal file =? ordinal) files.

Lemma file_of_elem f : f ∈ files -> file_of (tf_ordinal f) = Some f.
Proof using Hnd.
  unfold file_of. clear -Hnd. induction files as [|g l IH]; intros Hf; [by apply not_elem_of_nil in Hf|].
  cbn [map find] in *. apply NoDup_cons in Hnd as [Hg Hnd'].
  apply elem_of_cons in Hf as [->|Hf]; [by rewrite Z.eqb_refl|].
  destruct (Z.eqb_spec (tf_ordinal g) (tf_ordinal f)) as [He|_]; [|auto].
  exfalso. apply Hg. rewrite He. apply list_elem_of_fmap. by exists f.
Qed.

Lemma mapped_file_of q m f :
  f ∈ files -> fm_candidate_ordinal m = tf_ordinal f -> mapped_file q files m = q f.
Proof using Hnd.
  intros Hf He. unfold mapped_file. rewrite He. fold (file_of (tf_ordinal f)).
  by rewrite file_of_elem.
Qed.

Definition size_of (ordinal : Z) : Z :=
  match file_of ordinal with Some f => tf_size f | None => 0 end.

Lemma NoDup_map_filter {A B} (g : A -> B) (p : A -> bool) l :
  NoDup (map g l) -> NoDup (map g (List.filter p l)).
Proof using.
  clear. intros H. eapply sublist_NoDup; [exact H|]. induction l as [|x l IH]; [done|].
  cbn. apply NoDup_cons in H as [_ H]. destruct (p x); [by apply sublist_skip; auto|apply sublist_cons; auto].
Qed.

Lemma elem_of_map_filter {A B} (g : A -> B) (p : A -> bool) l y :
  y ∈ map g (List.filter p l) <-> exists x, y = g x /\ x ∈ l /\ p x = true.
Proof using.
  clear. rewrite list_elem_of_fmap. setoid_rewrite list_elem_of_In. setoid_rewrite filter_In.
  done.
Qed.

Lemma size_of_nonneg o : 0 <= size_of o.
Proof using Hr.
  unfold size_of. destruct (file_of o) as [f|] eqn:Hf; [|done]. apply find_some in Hf as [Hf _].
  apply list_elem_of_In in Hf. apply (sizes_u64_elem _ _ (proj2 Hr)) in Hf. unfold is_u64 in Hf. lia.
Qed.

Definition mapped_sizes (q : TorrentFile -> bool) : Z :=
  sum_Z (map fm_size (List.filter (mapped_file q files) ms)).

Lemma mapped_ordinals q o :
  o ∈ map fm_candidate_ordinal (List.filter (mapped_file q files) ms) ->
  o ∈ map tf_ordinal (List.filter q files).
Proof.
  intros (m & -> & Hm & Hq)%elem_of_map_filter.
  destruct (Hsound m Hm) as (f & source & sf & Hf & _ & _ & _ & _ & Ho & _).
  rewrite (mapped_file_of q m f Hf Ho) in Hq. rewrite Ho. apply elem_of_map_filter. by exists f.
Qed.

Lemma mapped_sizes_ordinals q :
  mapped_sizes q = sum_Z (map size_of (map fm_candidate_ordinal (List.filter (mapped_file q files) ms))).
Proof.
  unfold mapped_sizes. rewrite map_map. apply sum_Z_map_ext.
  intros m Hm%list_elem_of_In. apply filter_In in Hm as [Hm _]. apply list_elem_of_In in Hm.
  destruct (Hsound m Hm) as (f & source & sf & Hf & _ & _ & _ & _ & Ho & _ & _ & _ & _ & Hs & _).
  unfold size_of. by rewrite Ho, (file_of_elem f Hf).
Qed.

Lemma file_sizes_ordinals q :
  sum_Z (map tf_size (List.filter q files)) = sum_Z (map size_of (map tf_ordinal (List.filter q files))).
Proof.
  rewrite map_map. apply sum_Z_map_ext. intros f Hf%list_elem_of_In.
  apply filter_In in Hf as [Hf _]. apply list_elem_of_In in Hf.
  unfold size_of. by rewrite (file_of_elem f Hf).
Qed.

Lemma mapped_sizes_le q : 0 <= mapped_sizes q <= sum_Z (map tf_size (List.filter q files)).
Proof.
  rewrite mapped_sizes_ordinals, file_sizes_ordinals. split.
  - apply sum_Z_nonneg, Forall_map, Forall_forall. intros o _. apply size_of_nonneg.
  - apply sum_submseteq; [|intros o _; apply size_of_nonneg].
    apply NoDup_submseteq; [by apply NoDup_map_filter|]. apply mapped_ordinals.
Qed.

Lemma mapped_sizes_all q :
  (forall f, f ∈ files -> q f = true -> tf_ordinal f ∈ map fm_candidate_ordinal ms) ->
  mapped_sizes q = sum_Z (map tf_size (List.filter q files)).
Proof.
  intros Hall. pose proof (mapped_sizes_le q) as [_ Hle].
  apply Z.le_antisymm; [done|]. rewrite mapped_sizes_ordinals, file_sizes_ordinals.
  apply sum_submseteq; [|intros o _; apply size_of_nonneg].
  apply NoDup_submseteq; [by apply NoDup_map_filter|].
  intros o (f & -> & Hf & Hq)%elem_of_map_filter.
  pose proof (Hall f Hf Hq) as Hin. apply list_elem_of_fmap in Hin as (m & Ho & Hm).
  apply elem_of_map_filter. exists m. split_and!; [done|done|].
  by rewrite (mapped_file_of q m f Hf (eq_sym Ho)).
Qed.

Lemma filter_sizes_le q : 0 <= sum_Z (map tf_size (List.filter q files)) <= u64_max.
Proof.
  assert (Forall (fun f => 0 <= tf_size f) files) as Hpos.
  { exact (proj1 (proj2 Hr)). }
  assert (0 <= sum_Z (map tf_size (List.filter q files)) <= sum_Z (map tf_size files)) as H; [|lia].
  clear -Hpos. induction Hpos as [|f l Hf Hl IH]; [cbn; lia|].
  cbn [List.filter map]. rewrite sum_Z_cons. destruct (q f); cbn [map]; rewrite ?sum_Z_cons; lia.
Qed.

Lemma required_bytes_eq :
  required_bytes request
  = sum_Z (map tf_size (List.filter (fun file => required file policy) files)).
Proof.
  unfold required_bytes, file_bytes. apply sum_u64_small; [|apply filter_sizes_le].
  apply Forall_map, Forall_forall. intros f Hf%list_elem_of_In. apply filter_In in Hf as [Hf _].
  apply list_elem_of_In in Hf. apply (sizes_u64_elem _ _ (proj2 Hr)) in Hf. unfold is_u64 in Hf. cbn. lia.
Qed.

Lemma mapping_sizes_nonneg l : (forall m, m ∈ l -> m ∈ ms) -> Forall (fun x => 0 <= x) (map fm_size l).
Proof.
  intros Hl. apply Forall_map, Forall_forall. intros m Hm.
  destruct (Hsound m (Hl m Hm)) as (f & source & sf & Hf & _ & _ & _ & _ & _ & _ & _ & _ & _ & Hs & _).
  apply (sizes_u64_elem _ _ (proj2 Hr)) in Hf. unfold is_u64 in Hf. cbn. lia.
Qed.

Lemma mapped_sizes_u64 q :
  sum_u64 (map fm_size (List.filter (mapped_file q files) ms)) = mapped_sizes q.
Proof.
  apply sum_u64_small.
  - apply mapping_sizes_nonneg. intros m Hm%list_elem_of_In. apply filter_In in Hm as [Hm _].
    by apply list_elem_of_In.
  - fold (mapped_sizes q). pose proof (mapped_sizes_le q). pose proof (filter_sizes_le q). lia.
Qed.

Lemma mapped_bytes_eq : sum_u64 (map fm_size ms) = sum_Z (map fm_size ms).
Proof.
  assert (List.filter (mapped_file (fun _ => true) files) ms = ms) as Hall.
  { assert (forall m, m ∈ ms -> mapped_file (fun _ => true) files m = true) as Ht.
    { intros m Hm. destruct (Hsound m Hm) as (f & source & sf & Hf & _ & _ & _ & _ & Ho & _).
      by rewrite (mapped_file_of _ m f Hf Ho). }
    clear -Ht. induction ms as [|m l IH]; [done|]. cbn. rewrite (Ht m ltac:(left)).
    f_equal. apply IH. intros. apply Ht. by right. }
  pose proof (mapped_sizes_u64 (fun _ => true)) as H. unfold mapped_sizes in H. by rewrite Hall in H.
Qed.

(** The byte fields of a decision over these mappings *)
Lemma decision_bytes mode n :
  let d := decision request mode ms n in
  let mapped := mapped_sizes (fun file => required file policy) in
  md_mapped_bytes d = sum_Z (map fm_size ms) /\
  md_missing_bytes d = required_bytes request - mapped /\ 0 <= md_missing_bytes d /\
  md_present_ratio d = Ratio_from_bytes mapped (required_bytes request) /\
  0 <= md_present_ratio d <= Ratio_ONE /\
  ((forall f, f ∈ files -> required f policy = true -> tf_ordinal f ∈ map fm_candidate_ordinal ms) ->
   md_missing_bytes d = 0 /\ (0 < required_bytes request -> md_present_ratio d = Ratio_ONE)).
Proof.
  cbn zeta. unfold decision. cbn [md_mapped_bytes md_missing_bytes md_present_ratio].
  rewrite mapped_sizes_u64, mapped_bytes_eq.
  pose proof (mapped_sizes_le (fun file => required file policy)) as Hle.
  rewrite <- required_bytes_eq in Hle. unfold saturating_sub_u.
  split; [done|]. split; [lia|]. split; [lia|]. split; [done|].
  split; [apply Ratio_from_bytes_bounded; lia|].
  intros Hall. rewrite (mapped_sizes_all _ Hall), <- required_bytes_eq.
  split; [lia|]. apply Ratio_from_bytes_full.
Qed.
End Bytes.

(** ** Modes *)

Section Modes.
Context {U : Unicode} (request : MatchRequest).

Notation policy := (rq_policy request).
Notation files := (tm_files (rq_candidate request)).
Notation candidates := (candidate_files (rq_candidate request)).

Definition mapped (mappings : list FileMapping) (f : TorrentFile) : Prop :=
  tf_ordinal f ∈ map fm_candidate_ordinal mappings.

Definition mapped_exactly (mappings : list FileMapping) (f : TorrentFile) : Prop :=
  exists m, m ∈ mappings /\ fm_candidate_ordinal m = tf_ordinal f /\
    fm_candidate_path m = fm_source_path m.

Definition maps_primary (mappings : list FileMapping) : Prop :=
  exists m, m ∈ mappings /\
    mapped_file (fun file => primary file policy) candidates m = true.

(** What each mode promises about the mappings *)
Definition mode_promise (mode : MatchMode) (mappings : list FileMapping) : Prop :=
  match mode with
  | Strict => forall f, f ∈ files -> required f policy = true -> mapped_exactly mappings f
  | Flexible => mp_allow_flexible policy = true /\
      forall f, f ∈ files -> required f policy = true -> mapped mappings f
  | Partial => mp_allow_partial policy = true /\ maps_primary mappings
  | SeasonFromEpisodes => mp_allow_season_from_episodes policy = true /\ maps_primary mappings
  end.

Lemma required_candidate f : f ∈ files -> required f policy = true -> f ∈ candidates.
Proof.
  intros Hf Hreq. apply elem_of_candidates. split; [done|].
  unfold required in Hreq. by apply andb_true_iff in Hreq as [?%negb_true_iff _].
Qed.

Lemma forallb_required (p : TorrentFile -> bool) f :
  forallb p (List.filter (fun file => required file policy) candidates) = true ->
  f ∈ files -> required f policy = true -> p f = true.
Proof.
  intros Hall Hf Hreq. rewrite forallb_forall in Hall. apply Hall, filter_In.
  split; [|done]. apply list_elem_of_In. by apply required_candidate.
Qed.

Lemma source_mode_promise mappings mode :
  source_mode request candidates mappings = Some mode -> mode_promise mode mappings.
Proof.
  unfold source_mode. destruct (forallb _ _) eqn:Hall; cbn [andb].
  - destruct (forallb (fun file => existsb _ _) _) eqn:Hexact.
    + intros [= <-] f Hf Hreq. pose proof (forallb_required _ f Hexact Hf Hreq) as He.
      apply existsb_exists in He as (m & Hm & He). apply andb_true_iff in He as [He Hp].
      exists m. split_and!; [by apply list_elem_of_In|by apply Z.eqb_eq|by apply bool_decide_eq_true in Hp].
    + destruct (mp_allow_flexible policy) eqn:Hflex.
      * intros [= <-]. split; [done|]. intros f Hf Hreq.
        pose proof (forallb_required _ f Hall Hf Hreq) as He. by apply bool_decide_eq_true in He.
      * destruct ((0 <? _) && mp_allow_partial policy) eqn:Hpart; [|done]. intros [= <-].
        apply andb_true_iff in Hpart as [Hc Hp]. split; [done|]. apply Z.ltb_lt in Hc.
        unfold count in Hc. destruct (List.filter _ mappings) as [|m l] eqn:Hl; [cbn in Hc; lia|].
        exists m. assert (In m (List.filter (mapped_file (fun file => primary file policy) candidates) mappings))
          as Hin by (rewrite Hl; left; done).
        apply filter_In in Hin as [Hin Hm]. split; [by apply list_elem_of_In|done].
  - destruct ((0 <? _) && mp_allow_partial policy) eqn:Hpart; [|done]. intros [= <-].
    apply andb_true_iff in Hpart as [Hc Hp]. split; [done|]. apply Z.ltb_lt in Hc.
    unfold count in Hc. destruct (List.filter _ mappings) as [|m l] eqn:Hl; [cbn in Hc; lia|].
    exists m. assert (In m (List.filter (mapped_file (fun file => primary file policy) candidates) mappings))
      as Hin by (rewrite Hl; left; done).
    apply filter_In in Hin as [Hin Hm]. split; [by apply list_elem_of_In|done].
Qed.

Lemma match_mode d mode :
  from_source request d \/ from_season request d -> md_mode d = Some mode ->
  mode_promise mode (md_mappings d) /\ md_outcome d = Match /\ md_reason d = reason_of_mode mode /\
  md_requires_recheck d = true.
Proof.
  intros [(source & m & _ & Hm & pairs & ms & n & _ & _ & Hd)|(Ha & (pairs & ms & n & _ & _ & Hd) & He)]%match_produced Hmode;
    rewrite Hd in Hmode; cbn in Hmode; injection Hmode as <-.
  - split; [by apply source_mode_promise|]. by rewrite Hd.
  - split; [split; [done|]|by rewrite Hd].
    apply existsb_exists in He as (x & Hx & Hp). exists x. split; [by apply list_elem_of_In|done].
Qed.
End Modes.

(** ** Totality *)

Section Total.
Context {U : Unicode} (request : MatchRequest) (Hr : request_in_range request).
#[local] Set Default Proof Using "All".

(** The pairs of an assignment index the files they were made from. *)
Lemma assign_mappings sources season_mode pairs :
  assign_with (candidate_files (rq_candidate request)) sources (rq_policy request)
    (fun c s => edge_score c s (rq_policy request) season_mode)
    = Some (Ok {| as_pairs := pairs; as_ambiguous := false |}) ->
  is_Some (build_mappings (candidate_files (rq_candidate request)) sources pairs).
Proof.
  intros Ha. pose proof (assign_request request sources season_mode Hr) as Hc. rewrite Ha in Hc.
  destruct (build_mappings_spec request sources pairs) as (ms & Hms & _);
    [by apply (unique_best_range request season_mode)|]. by exists ms.
Qed.

Lemma evaluate_source_total source : exists e, evaluate_source request source = Some e.
Proof.
  destruct (assign_request_total request (sources_of [source]) false Hr) as [r Ha].
  unfold evaluate_source. unfold sources_of in Ha. cbn [flat_map] in Ha. rewrite app_nil_r in Ha.
  rewrite Ha. cbn [mbind option_bind]. destruct r as [[pairs []]|[]]; [by eexists| |by eexists].
  cbn [as_ambiguous as_pairs]. pose proof (assign_mappings (sources_of [source]) false pairs) as H.
  unfold sources_of in H. cbn [flat_map] in H. rewrite app_nil_r in H.
  destruct (H Ha) as [ms ->]. by eexists.
Qed.

Lemma evaluate_season_total sources : exists e, evaluate_season request sources = Some e.
Proof.
  unfold evaluate_season. case_bool_decide; [by eexists|].
  destruct (assign_request_total request
    (sources_of (List.filter (episode_source request) sources)) true Hr) as [r Ha].
  pose proof (assign_mappings (sources_of (List.filter (episode_source request) sources)) true) as Hm.
  unfold sources_of in Ha, Hm. rewrite Ha. cbn [mbind option_bind].
  destruct r as [[pairs []]|[]]; [by eexists| |by eexists].
  cbn [as_ambiguous as_pairs]. destruct (Hm pairs Ha) as [ms ->]. by eexists.
Qed.

Lemma evaluate_one_total acc source : evaluate_one request acc source <> Err None.
Proof.
  destruct acc as [cf ch]. unfold evaluate_one. destruct (compatible _ _ _) as [[]|r]; [|done].
  destruct (evaluate_source_total source) as [[d| |r] ->]; done.
Qed.

Lemma evaluate_never_panics : exists d, evaluate request = Some d.
Proof.
  unfold evaluate. destruct (validate_manifest _); [by eexists|].
  destruct (already_present request); [by eexists|].
  destruct (input_budget_exceeded request); [by eexists|].
  destruct (try_fold _ _ _) as [[cf ch]|[r|]] eqn:Hf; [|by eexists|].
  - destruct (_ && _); [|by eexists].
    destruct (evaluate_season_total (ordered_sources request)) as [e ->]. by eexists.
  - apply try_fold_Err in Hf as (l1 & x & l2 & b & _ & _ & Hx). by apply evaluate_one_total in Hx.
Qed.
End Total.

(** ** Independence of the order of sources *)

Definition with_sources (request : MatchRequest) (sources : list LocalSourceManifest) : MatchRequest :=
  {| rq_candidate := rq_candidate request; rq_candidate_release := rq_candidate_release request;
     rq_sources := sources; rq_policy := rq_policy request |}.

Section Order.
Context {U : Unicode} (request : MatchRequest) (l1 l2 : list LocalSourceManifest).
Context (Hperm : Permutation l1 l2) (Hid : NoDup (map lsm_id l1)).
#[local] Set Default Proof Using "All".

Notation r1 := (with_sources request l1).
Notation r2 := (with_sources request l2).

Lemma filter_Permutation' {A} (f : A -> bool) k1 k2 :
  Permutation k1 k2 -> Permutation (List.filter f k1) (List.filter f k2).
Proof using.
  clear. intros H. induction H as [|x k1 k2 _ IH|x y k|k1 k2 k3 _ IH1 _ IH2]; cbn.
  - done.
  - destruct (f x); [by apply perm_skip|done].
  - destruct (f x), (f y); try done. apply perm_swap.
  - by rewrite IH1.
Qed.

Lemma ordered_sources_eq : ordered_sources r1 = ordered_sources r2.
Proof.
  unfold ordered_sources. cbn [rq_sources with_sources]. apply sort_by_Permutation_eq.
  - intros. apply str_leb_total.
  - intros x y z. apply str_leb_trans.
  - intros x y Hx Hy H1 H2. apply list_elem_of_In, filter_In in Hx as [Hx _], Hy as [Hy _].
    apply list_elem_of_In, list_elem_of_lookup in Hx as [i Hi], Hy as [j Hj].
    pose proof (str_leb_antisym _ _ H1 H2) as He.
    assert (i = j) as ->; [|congruence].
    apply (NoDup_lookup (map lsm_id l1) i j (lsm_id x)); [done|..]; rewrite list_lookup_fmap;
      [by rewrite Hi|by rewrite Hj, He].
  - by apply filter_Permutation'.
Qed.

Lemma decision_eq mode ms n : decision r1 mode ms n = decision r2 mode ms n.
Proof.
  unfold decision. cbn [rq_sources rq_candidate rq_policy with_sources].
  assert (forall ids,
    count (fun source_id => existsb (fun source => str_eqb (lsm_id source) source_id
                              && bool_decide (lsm_kind source = QbittorrentTorrent)) l1) ids
    = count (fun source_id => existsb (fun source => str_eqb (lsm_id source) source_id
                              && bool_decide (lsm_kind source = QbittorrentTorrent)) l2) ids) as Hc.
  { intros ids. unfold count. do 2 f_equal. apply filter_ext. intros id. by apply existsb_Permutation. }
  by rewrite Hc.
Qed.

Lemma evaluate_source_eq source : evaluate_source r1 source = evaluate_source r2 source.
Proof.
  unfold evaluate_source. cbn [rq_candidate rq_policy with_sources].
  apply option_bind_ext; [|done]. intros [a|[]]; [|done].
  destruct (as_ambiguous a); [done|]. apply option_bind_ext; [|done]. intros ms. f_equal.
  change (source_mode r2) with (source_mode r1).
  destruct (source_mode r1 _ _); [|done]. f_equal. apply decision_eq.
Qed.

Lemma evaluate_season_eq sources : evaluate_season r1 sources = evaluate_season r2 sources.
Proof.
  unfold evaluate_season. cbn [rq_candidate rq_policy with_sources].
  change (episode_source r2) with (episode_source r1). case_bool_decide; [done|].
  apply option_bind_ext; [|done]. intros [a|[]]; [|done].
  destruct (as_ambiguous a); [done|]. apply option_bind_ext; [|done]. intros ms. f_equal.
  destruct (negb _); [done|]. f_equal. apply decision_eq.
Qed.

(** The loop of [input_budget_exceeded] checks each source and the total. *)
Lemma budget_loop (max room : Z) l total :
  is_ok (try_fold (fun total source =>
           let files := Z.of_nat (length (lsm_files source)) in
           total ← ok_or (checked_add_u64 total files) tt;
           _ ← bail_if (negb ((files <=? room) && (total <=? max))) tt;
           Ok total) l total)
  = forallb (fun source => Z.of_nat (length (lsm_files source)) <=? room) l
    && (bool_decide (l = [])
        || (total + sum_Z (map (fun s => Z.of_nat (length (lsm_files s))) l) <=? Z.min u64_max max)).
Proof using.
  clear. revert total. induction l as [|s l IH]; intros total; [done|].
  cbn [try_fold forallb map]. rewrite sum_Z_cons.
  set (n := Z.of_nat (length (lsm_files s))).
  assert (0 <= sum_Z (map (fun s => Z.of_nat (length (lsm_files s))) l)) as Hpos
    by (apply sum_Z_nonneg, Forall_map, Forall_forall; intros; cbn; lia).
  set (rest := sum_Z _) in *. rewrite (bool_decide_eq_false_2 (s :: l = [])) by done. cbn [orb].
  unfold checked_add_u64. destruct (Z.leb_spec (total + n) u64_max) as [Hu|Hu].
  - cbn [ok_or mbind result_bind]. destruct (Z.leb_spec n room) as [Hn|Hn];
      cbn [andb negb bail_if mbind result_bind is_ok]; [|done].
    destruct (Z.leb_spec (total + n) max) as [Hm|Hm]; cbn [negb bail_if mbind result_bind is_ok].
    + rewrite IH. f_equal. fold rest. destruct l as [|s' l].
      * rewrite bool_decide_eq_true_2 by done. cbn [orb].
        subst rest. symmetry. apply Z.leb_le. cbn. lia.
      * rewrite bool_decide_eq_false_2 by done. cbn [orb]. f_equal. lia.
    + destruct (Z.leb_spec (total + (n + rest)) (Z.min u64_max max)); [lia|]. by rewrite andb_false_r.
  - destruct (Z.leb_spec (total + (n + rest)) (Z.min u64_max max)); [lia|]. by rewrite andb_false_r.
Qed.

Lemma forallb_Permutation {A} (f : A -> bool) k1 k2 :
  Permutation k1 k2 -> forallb f k1 = forallb f k2.
Proof using.
  clear. intros H. induction H; cbn; [done|by f_equal| |congruence].
  rewrite !andb_assoc. f_equal. apply andb_comm.
Qed.

Lemma input_budget_eq : input_budget_exceeded r1 = input_budget_exceeded r2.
Proof.
  unfold input_budget_exceeded. cbn [rq_candidate rq_policy rq_sources with_sources].
  destruct (_ <? _); [done|]. rewrite !budget_loop. f_equal.
  pose proof (filter_Permutation' lsm_available _ _ Hperm) as HP.
  rewrite (forallb_Permutation _ _ _ HP). f_equal. f_equal.
  - apply bool_decide_ext. split; intros He; rewrite He in HP; [|symmetry in HP];
      by apply Permutation_nil_l in HP.
  - by rewrite (sum_Z_Permutation _ _ (Permutation_map (fun s => Z.of_nat (length (lsm_files s))) HP)).
Qed.

Lemma evaluate_one_eq acc source : evaluate_one r1 acc source = evaluate_one r2 acc source.
Proof.
  destruct acc as [cf ch]. unfold evaluate_one. rewrite evaluate_source_eq. done.
Qed.

Lemma try_fold_ext {E A B} (f g : B -> A -> result E B) l acc :
  (forall b a, f b a = g b a) -> try_fold f l acc = try_fold g l acc.
Proof using.
  clear. intros H. revert acc. induction l as [|x l IH]; intros acc; cbn; [done|]. rewrite H.
  by destruct (g acc x).
Qed.

Lemma evaluate_eq : evaluate r1 = evaluate r2.
Proof.
  unfold evaluate. rewrite <- ordered_sources_eq, <- input_budget_eq.
  assert (already_present r1 = already_present r2) as <-
    by (unfold already_present; cbn [rq_sources with_sources]; by apply existsb_Permutation).
  rewrite (try_fold_ext (evaluate_one r2) (evaluate_one r1)) by (intros; by rewrite evaluate_one_eq).
  rewrite evaluate_season_eq. done.
Qed.
End Order.

(** ** Choice among sources, and release compatibility *)

Section Choice.
Definition better_eq (a b : MatchDecision) : Prop := str_leb (quality b) (quality a) = true.

Lemma sorted_choices choices :
  StronglySorted (fun a b => Is_true (str_leb (quality b) (quality a)))
    (sort_by (fun a b => str_leb (quality b) (quality a)) choices).
Proof.
  apply (sort_by_sorted (fun a b => str_leb (quality b) (quality a))).
  - intros. apply str_leb_total.
  - intros x y z Hxy Hyz. by apply (str_leb_trans _ (quality y)).
Qed.

Lemma choose_best choices d :
  choose choices = Some d ->
  (d ∈ choices /\ (forall c, c ∈ choices -> better_eq d c) /\
   (NoDup (map md_mappings choices) -> forall c, c ∈ choices -> quality c = quality d -> c = d)) \/
  (md_outcome d = Rejected /\ md_reason d = AmbiguousFileMapping /\
   exists c1 c2, c1 ∈ choices /\ c2 ∈ choices /\ md_mappings c1 <> md_mappings c2 /\
     quality c1 = quality c2 /\ forall c, c ∈ choices -> better_eq c1 c).
Proof.
  pose proof (sorted_choices choices) as Hs. unfold choose.
  pose proof (sort_by_Permutation (fun a b => str_leb (quality b) (quality a)) choices) as HP.
  destruct (sort_by _ choices) as [|first rest]; [done|].
  apply StronglySorted_inv in Hs as [Hs Hf]. rewrite Forall_forall in Hf.
  assert (forall c, c ∈ choices -> better_eq first c) as Hbest.
  { intros c Hc. rewrite <- HP in Hc. apply elem_of_cons in Hc as [->|Hc]; [apply str_leb_refl|].
    apply Is_true_true, (Hf c Hc). }
  assert (first ∈ choices) as Hfirst by (rewrite <- HP; left).
  intros [= <-]. destruct rest as [|second rest].
  - left. split_and!; [done|done|]. intros _ c Hc _. rewrite <- HP in Hc.
    by apply list_elem_of_singleton in Hc.
  - destruct (bool_decide (quality first = quality second)) eqn:Hq; cbn [andb].
    + apply bool_decide_eq_true in Hq.
      destruct (bool_decide (md_mappings first = md_mappings second)) eqn:Hm; cbn [negb].
      * apply bool_decide_eq_true in Hm. left. split_and!; [done|done|]. intros Hnd.
        rewrite <- HP in Hnd. cbn [map] in Hnd. rewrite Hm in Hnd. apply NoDup_cons in Hnd as [Hn _].
        exfalso. apply Hn. left.
      * apply bool_decide_eq_false in Hm. right. split_and!; [done|done|].
        exists first, second. split_and!; try done. rewrite <- HP. right. left.
    + apply bool_decide_eq_false in Hq. left. split_and!; [done|done|].
      intros _ c Hc Heq. rewrite <- HP in Hc. apply elem_of_cons in Hc as [->|Hc]; [done|].
      exfalso. apply Hq. apply str_leb_antisym.
      * apply StronglySorted_inv in Hs as [_ Hs2]. rewrite Forall_forall in Hs2.
        apply elem_of_cons in Hc as [->|Hc]; [rewrite Heq; apply str_leb_refl|].
        rewrite <- Heq. apply Is_true_true, (Hs2 c Hc).
      * apply Is_true_true, (Hf second). left.
Qed.

Lemma same_identity_sym a b : same_identity a b = same_identity b a.
Proof.
  unfold same_identity, str_eqb. rewrite (Z.eqb_sym (arr_entity_id a)).
  f_equal. f_equal; apply bool_decide_ext; done.
Qed.

Lemma titles_overlap_sym a b : titles_overlap a b = titles_overlap b a.
Proof.
  unfold titles_overlap, str_mem. apply eq_true_iff_eq. rewrite !existsb_exists.
  setoid_rewrite bool_decide_eq_true. setoid_rewrite list_elem_of_In. naive_solver.
Qed.

Lemma both_differ_sym {A} `{EqDecision A} (x y : option A) : both_differ x y = both_differ y x.
Proof. destruct x, y; try done. cbn. apply bool_decide_ext. done. Qed.

Lemma is_ok_bail {E} c (e : E) {A} (k : result E A) :
  is_ok (_ ← bail_if c e; k) = negb c && is_ok k.
Proof. by destruct c. Qed.

Lemma compatible_sym a b : is_ok (compatible a b false) = is_ok (compatible b a false).
Proof.
  unfold compatible. rewrite !is_ok_bail.
  assert (match rd_arr_identity a with
          | Some x => match rd_arr_identity b with Some y => same_identity x y | None => false end
          | None => false end
        = match rd_arr_identity b with
          | Some x => match rd_arr_identity a with Some y => same_identity x y | None => false end
          | None => false end) as ->.
  { destruct (rd_arr_identity a), (rd_arr_identity b); try done. apply same_identity_sym. }
  assert (match rd_arr_identity a with
          | Some x => match rd_arr_identity b with Some y => negb (same_identity x y) | None => false end
          | None => false end
        = match rd_arr_identity b with
          | Some x => match rd_arr_identity a with Some y => negb (same_identity x y) | None => false end
          | None => false end) as ->.
  { destruct (rd_arr_identity a), (rd_arr_identity b); try done. by rewrite same_identity_sym. }
  rewrite (titles_overlap_sym a b), (both_differ_sym (rd_year a)), (both_differ_sym (rd_season a)),
    (both_differ_sym (rd_air_date a)), (both_differ_sym (rd_absolute_episode a)).
  cbn [andb negb].
  rewrite (andb_comm (bool_decide (rd_kind a <> UnknownVideo))),
    (andb_comm (bool_decide (rd_kind a = Episode))).
  rewrite (bool_decide_ext (rd_kind a <> rd_kind b) (rd_kind b <> rd_kind a)) by naive_solver.
  by rewrite (bool_decide_ext ((rd_episode a, rd_episode_end a) <> (rd_episode b, rd_episode_end b))
    ((rd_episode b, rd_episode_end b) <> (rd_episode a, rd_episode_end a))) by naive_solver.
Qed.
End Choice.

(** ** Properties *)

(** C27: the assignment of candidate files to source files never panics and never wraps. It
    refuses only inputs that exceed a budget of the policy; otherwise it reports ambiguity
    exactly with evidence that the best mapping is not unique, or returns the one-to-one
    mapping that is strictly best, first by required files, then by primary-video bytes,
    then by score. *)
Theorem assign_files_unique_best {U : Unicode} candidates sources policy season_mode :
  policy_in_range policy -> sizes_u64 candidates ->
  assign_contract candidates sources policy (fun c s => edge_score c s policy season_mode)
    (assign_with candidates sources policy (fun c s => edge_score c s policy season_mode)).
Proof. intros Hp Hs. by apply assign_with_contract; [..|apply edge_score_bounded]. Qed.

Lemma example_policy_in_range : policy_in_range default_policy.
Proof. unfold policy_in_range, max_files_limit, max_edges_limit; cbn; unfold default_max_assignment_files, default_max_candidate_edges; lia. Qed.

Lemma assign_files_unique_best_witness :
  sizes_u64 [mkTorrentFile 0 (lit "a.mkv") 5 false] /\
  assign_contract [mkTorrentFile 0 (lit "a.mkv") 5 false]
    [([1], mkLocalSourceFile 0 (lit "a.mkv") 5 None None)] default_policy
    (fun c s => edge_score (U := ascii_unicode) c s default_policy false)
    (Some (Ok {| as_pairs := [(0%nat, 0%nat, 1101101)]; as_ambiguous := false |})).
Proof.
  assert (sizes_u64 [mkTorrentFile 0 (lit "a.mkv") 5 false]) as Hs.
  { split; [apply Forall_singleton; cbn; lia|vm_compute; discriminate]. }
  split; [exact Hs|].
  exact (assign_files_unique_best (U := ascii_unicode) [mkTorrentFile 0 (lit "a.mkv") 5 false]
    [([1], mkLocalSourceFile 0 (lit "a.mkv") 5 None None)] default_policy false
    example_policy_in_range Hs).
Defined.

(** The bucket index is complete: the edge list built from it holds exactly the pairs
    that the edge score accepts, each once, with its score. *)
Theorem bucketed_edges_complete {U : Unicode} candidates sources policy season_mode st :
  build_edges candidates sources policy (fun c s => edge_score c s policy season_mode) = Ok st ->
  forall c s v, (c < length candidates)%nat -> (s < length sources)%nat ->
    ((s, v) ∈ es_edges st !!! c <->
     edge_score (candidate_at candidates c) (source_at sources s) policy season_mode = Some v) /\
    NoDup (map fst (es_edges st !!! c)).
Proof.
  intros Hb c s v Hc Hs. pose proof (build_edges_spec _ _ _ _ _ Hb) as HE. split.
  - rewrite (e_edge _ _ _ _ _ _ HE) by done. unfold score_at. split; [by intros [_ ?]|].
    intros Hv. split; [|done]. split_and!; [done|done|]. by apply (edge_score_bucket _ _ _ season_mode c s v).
  - by apply (e_nodup _ _ _ _ _ _ HE).
Qed.

Lemma bucketed_edges_complete_witness :
  exists st, build_edges [mkTorrentFile 0 (lit "d/a.mkv") 5 false]
      [([1], mkLocalSourceFile 0 (lit "b.mkv") 5 None None)] default_policy
      (fun c s => edge_score (U := ascii_unicode) c s default_policy false) = Ok st /\
    ((0%nat, 1001) ∈ es_edges st !!! 0%nat <->
     edge_score (U := ascii_unicode) (mkTorrentFile 0 (lit "d/a.mkv") 5 false)
       (mkLocalSourceFile 0 (lit "b.mkv") 5 None None) default_policy false = Some 1001).
Proof.
  eexists. split; [vm_compute; reflexivity|].
  apply (bucketed_edges_complete (U := ascii_unicode) [mkTorrentFile 0 (lit "d/a.mkv") 5 false]
    [([1], mkLocalSourceFile 0 (lit "b.mkv") 5 None None)] default_policy false
    {| es_edges := [[(0%nat, 1001)]]; es_reverse := [[0%nat]]; es_count := 1 |}
    ltac:(vm_compute; reflexivity) 0%nat 0%nat 1001); cbn; lia.
Defined.

(** C30: for every request with [u64] sizes and the limits of a valid configuration the
    matcher returns a decision: it terminates, and no [assert!], [expect] or checked index of
    [hungarian], [component], [optimal_assignment], [assign_with] or [build_mappings] fails. *)
Theorem evaluate_total {U : Unicode} request :
  request_in_range request -> exists d, evaluate request = Some d.
Proof. apply evaluate_never_panics. Qed.

(** The request of [evaluate_season_run] and its decision *)
Definition sample_request : MatchRequest :=
  example_request [example_source 9 "Show.S01E02.mkv"; example_source 3 "Show.S01E01.mkv"].

Definition sample_decision : MatchDecision :=
  match evaluate (U := ascii_unicode) sample_request with
  | Some d => d
  | None => rejection MatcherBudgetExceeded default_evidence
  end.

Lemma sample_evaluated : evaluate (U := ascii_unicode) sample_request = Some sample_decision.
Proof. vm_compute. reflexivity. Qed.

Lemma sample_in_range : request_in_range sample_request.
Proof.
  split; [apply example_policy_in_range|].
  split; [|vm_compute; discriminate]. repeat (apply Forall_cons; split; [cbn; lia|]). apply Forall_nil. exact I.
Qed.

Lemma sample_sources_distinct : sources_distinct sample_request.
Proof.
  split.
  - apply (bool_decide_unpack _). vm_compute. exact I.
  - intros source Hs. repeat (apply elem_of_cons in Hs as [->|Hs]; [apply NoDup_singleton|]).
    by apply not_elem_of_nil in Hs.
Qed.

Lemma evaluate_total_witness :
  request_in_range sample_request /\ exists d, evaluate (U := ascii_unicode) sample_request = Some d.
Proof. exact (conj sample_in_range (evaluate_total (U := ascii_unicode) _ sample_in_range)). Defined.

Lemma match_mappings_spec {U : Unicode} request d :
  request_in_range request -> sources_distinct request ->
  evaluate request = Some d -> md_outcome d = Match ->
  NoDup (map fm_candidate_ordinal (md_mappings d)) /\
  NoDup (map (fun m => (fm_source_id m, fm_source_file_id m)) (md_mappings d)) /\
  forall m, m ∈ md_mappings d -> mapping_sound request m.
Proof.
  intros Hr Hs He Hm. apply evaluated in He as [(Hn & _)|(Hv & _ & _ & Hd)]; [done|].
  destruct (match_used _ _ Hd) as (season_mode & used & mode & Hp & Hused).
  apply validate_manifest_spec in Hv as (_ & _ & Hnd & _). split_and!.
  - by apply (produced_ordinals request season_mode used mode).
  - apply (produced_sources request season_mode used mode); [done| |done]. by apply (ordered_keys request).
  - intros m Hin. apply (produced_sound request season_mode used mode d); try done.
    intros source Hsrc. by apply (elem_of_submseteq _ _ _ Hsrc), sublist_submseteq.
Qed.

(** C29: in every [Match] decision each mapping pairs a real, unpadded file of the candidate
    with a file of an available source of exactly the same size; no candidate file and no
    source file is used twice. *)
Theorem match_mappings_sound {U : Unicode} request d :
  request_in_range request -> sources_distinct request ->
  evaluate request = Some d -> md_outcome d = Match ->
  NoDup (map fm_candidate_ordinal (md_mappings d)) /\
  NoDup (map (fun m => (fm_source_id m, fm_source_file_id m)) (md_mappings d)) /\
  forall m, m ∈ md_mappings d -> mapping_sound request m.
Proof. apply match_mappings_spec. Qed.

Lemma match_mappings_sound_witness :
  md_outcome sample_decision = Match /\ length (md_mappings sample_decision) = 2%nat /\
  NoDup (map fm_candidate_ordinal (md_mappings sample_decision)).
Proof.
  assert (md_outcome sample_decision = Match) as Hm by (vm_compute; reflexivity).
  split; [exact Hm|]. split; [vm_compute; reflexivity|].
  exact (proj1 (match_mappings_sound (U := ascii_unicode) _ _ sample_in_range sample_sources_distinct
                  sample_evaluated Hm)).
Defined.

(** The mode of a decision is truthful: [Strict] maps every required file to the same
    path, [Flexible] maps every required file, [Partial] and [SeasonFromEpisodes] map a
    primary video; each needs its policy switch, and every match asks for a recheck. *)
Theorem match_mode_truthful {U : Unicode} request d mode :
  evaluate request = Some d -> md_mode d = Some mode ->
  mode_promise request mode (md_mappings d) /\ md_outcome d = Match /\
  md_reason d = reason_of_mode mode /\ md_requires_recheck d = true.
Proof.
  intros He Hm. apply evaluated in He as [(_ & _ & _ & Hn & _)|(_ & _ & _ & Hd)]; [congruence|].
  by apply match_mode.
Qed.

Lemma match_mode_truthful_witness :
  md_mode sample_decision = Some SeasonFromEpisodes /\
  mode_promise sample_request SeasonFromEpisodes (md_mappings sample_decision).
Proof.
  assert (md_mode sample_decision = Some SeasonFromEpisodes) as Hm by (vm_compute; reflexivity).
  split; [exact Hm|].
  exact (proj1 (match_mode_truthful (U := ascii_unicode) _ _ _ sample_evaluated Hm)).
Defined.

(** A decision that is not a match carries no mapping, no source and no mode, and asks
    for no recheck. *)
Theorem non_match_is_empty {U : Unicode} request d :
  evaluate request = Some d -> md_outcome d <> Match ->
  md_mappings d = [] /\ md_source_ids d = [] /\ md_mode d = None /\
  md_requires_recheck d = false /\ md_mapped_bytes d = 0.
Proof.
  intros He Hm. apply evaluated in He as [(_ & H1 & H2 & H3 & H4 & H5)|(_ & _ & _ & Hd)]; [done|].
  destruct (match_used _ _ Hd) as (season_mode & used & mode & Hp & _).
  by apply produced_match in Hp.
Qed.

Lemma non_match_is_empty_witness :
  md_outcome (rejection UnsupportedTorrent (base_evidence
    (mkMatchRequest (mkTorrentManifest no_hashes [] None []) (unknown []) [] default_policy))) <> Match /\
  md_mappings (rejection UnsupportedTorrent (base_evidence
    (mkMatchRequest (mkTorrentManifest no_hashes [] None []) (unknown []) [] default_policy))) = [].
Proof.
  assert (md_outcome (rejection UnsupportedTorrent (base_evidence
    (mkMatchRequest (mkTorrentManifest no_hashes [] None []) (unknown []) [] default_policy))) <> Match) as Hn
    by discriminate.
  split; [exact Hn|].
  exact (proj1 (non_match_is_empty (U := ascii_unicode)
    (mkMatchRequest (mkTorrentManifest no_hashes [] None []) (unknown []) [] default_policy) _ eq_refl Hn)).
Defined.

(** The byte fields of a match add up: mapped bytes are the sum of the mapped sizes,
    missing bytes are exactly the required bytes that no mapping covers, the ratio lies
    between 0 and one million, and a [Strict] or [Flexible] match misses nothing. *)
Theorem match_bytes {U : Unicode} request d :
  request_in_range request -> evaluate request = Some d -> md_outcome d = Match ->
  let covered := mapped_sizes request (md_mappings d) (fun file => required file (rq_policy request)) in
  md_mapped_bytes d = sum_Z (map fm_size (md_mappings d)) /\
  md_missing_bytes d = required_bytes request - covered /\ 0 <= md_missing_bytes d /\
  md_present_ratio d = Ratio_from_bytes covered (required_bytes request) /\
  0 <= md_present_ratio d <= Ratio_ONE /\
  (md_mode d = Some Strict \/ md_mode d = Some Flexible ->
   md_missing_bytes d = 0 /\ (0 < required_bytes request -> md_present_ratio d = Ratio_ONE)).
Proof.
  intros Hr He Hm. pose proof (proj2 (proj2 Hr)) as Hfit.
  apply evaluated in He as [(Hn & _)|(Hv & _ & _ & Hd)]; [done|].
  destruct (match_used _ _ Hd) as (season_mode & used & mode & Hp & Hused).
  apply validate_manifest_spec in Hv as (_ & _ & Hnd & _).
  pose proof (produced_ordinals request _ _ _ _ Hr Hnd Hp) as Hord.
  assert (forall m, m ∈ md_mappings d -> mapping_sound request m) as Hsound.
  { intros m Hin. apply (produced_sound request season_mode used mode d); try done.
    intros source Hsrc. by apply (elem_of_submseteq _ _ _ Hsrc), sublist_submseteq. }
  destruct (produced_pairs request _ _ _ _ Hr Hp) as (pairs & n & _ & _ & Heq).
  destruct (decision_bytes request Hr Hnd Hfit (md_mappings d) Hord Hsound mode n)
    as (H1 & H2 & H3 & H4 & H5 & H6).
  rewrite <- Heq in *. split_and!; try done; try apply H5. all: intros Hmode; apply H6.
  all: intros f Hf Hreq; destruct Hmode as [Hmode|Hmode];
    destruct (match_mode request d _ Hd Hmode) as (Hpromise & _).
  - destruct (Hpromise f Hf Hreq) as (m & Hin & Ho & _). rewrite <- Ho. apply list_elem_of_fmap. by exists m.
  - by apply Hpromise.
Qed.

Lemma match_bytes_witness :
  md_missing_bytes sample_decision = 0 /\ md_mapped_bytes sample_decision = 4000 /\
  md_mapped_bytes sample_decision = sum_Z (map fm_size (md_mappings sample_decision)).
Proof.
  split; [vm_compute; reflexivity|]. split; [vm_compute; reflexivity|].
  exact (proj1 (match_bytes (U := ascii_unicode) _ _ sample_in_range
                  sample_evaluated ltac:(vm_compute; reflexivity))).
Defined.

(** [validate_manifest] accepts exactly the manifests whose ordinals and normalised
    paths are distinct, whose paths are all safe, and in which no file is a directory of
    another. *)
Theorem validate_manifest_exact {U : Unicode} manifest :
  validate_manifest manifest = None <-> manifest_safe manifest.
Proof. apply validate_manifest_spec. Qed.

(** The decision does not depend on the order in which the sources are listed. *)
Theorem evaluate_order_independent {U : Unicode} request l1 l2 :
  Permutation l1 l2 -> NoDup (map lsm_id l1) ->
  evaluate (with_sources request l1) = evaluate (with_sources request l2).
Proof. apply evaluate_eq. Qed.

Lemma evaluate_order_independent_witness :
  let a := example_source 9 "Show.S01E02.mkv" in
  let b := example_source 3 "Show.S01E01.mkv" in
  evaluate (U := ascii_unicode) (with_sources sample_request [b; a]) = Some sample_decision.
Proof.
  cbn zeta. rewrite <- sample_evaluated.
  apply (evaluate_order_independent (U := ascii_unicode) sample_request
    [example_source 3 "Show.S01E01.mkv"; example_source 9 "Show.S01E02.mkv"]
    [example_source 9 "Show.S01E02.mkv"; example_source 3 "Show.S01E01.mkv"]).
  - apply perm_swap.
  - apply (bool_decide_unpack _). vm_compute. exact I.
Defined.

(** The choice among decisions returns one of greatest quality; if the choices have
    pairwise different mappings it is the only one of that quality, and a tie between
    different mappings at the top is rejected as ambiguous. *)
Theorem choose_unique_best choices d :
  choose choices = Some d ->
  (d ∈ choices /\ (forall c, c ∈ choices -> better_eq d c) /\
   (NoDup (map md_mappings choices) -> forall c, c ∈ choices -> quality c = quality d -> c = d)) \/
  (md_outcome d = Rejected /\ md_reason d = AmbiguousFileMapping /\
   exists c1 c2, c1 ∈ choices /\ c2 ∈ choices /\ md_mappings c1 <> md_mappings c2 /\
     quality c1 = quality c2 /\ forall c, c ∈ choices -> better_eq c1 c).
Proof. apply choose_best. Qed.

Lemma choose_unique_best_witness :
  choose [sample_decision] = Some sample_decision /\
  (sample_decision ∈ [sample_decision] \/ md_outcome sample_decision = Rejected).
Proof.
  assert (choose [sample_decision] = Some sample_decision) as H by (vm_compute; reflexivity).
  split; [exact H|].
  destruct (choose_unique_best _ _ H) as [(Hd & _)|(Hd & _)]; [left; exact Hd|right; exact Hd].
Defined.

(** Release compatibility is symmetric outside season mode. *)
Theorem compatible_symmetric (a b : ReleaseDescriptor) :
  is_ok (compatible a b false) = is_ok (compatible b a false).
Proof. apply compatible_sym. Qed.
