(* ===== verification/Torrent.v ===== *)
(** Torrent layout: [crates/sporos-service/src/torrent.rs].

    The bencode decoder and the metainfo parser are third-party crates; they appear as
    arguments of [parse], and what they deliver as [MetaInfo], with the fields the code
    reads.  The definitions turn that into file paths, lengths and piece-stream offsets in
    [u64] with the code's checked additions.  Proved: the file checks accept exactly the
    lists of safe, bounded, pairwise prefix-free paths; the v1 offsets are the running sum
    of the lengths; the v2 offsets are piece-aligned and disjoint; a parsed torrent is
    consistent with its metainfo. *)

From S2P Require Import Prelude Text.
From stdpp Require Import strings.

Local Open Scope Z_scope.

(** ** Limits *)

Definition MAX_TORRENT_BYTES : Z := 8 * 1024 * 1024.
Definition MAX_FILES : Z := 100000.
Definition MAX_PATH_COMPONENTS : Z := 64.
Definition MAX_COMPONENT_BYTES : Z := 255.
Definition MAX_PATH_BYTES : Z := 4096.
Definition MAX_MANIFEST_PATH_BYTES : Z := 64 * 1024 * 1024.

(** ** Data *)

Inductive TorrentVersion := V1 | V2 | Hybrid.

Record TorrentFile := mkTorrentFile { t_path : list str; t_length : Z; t_pieces_root : option str }.
Record PieceFile := mkPieceFile { pf_file_ordinal : option Z; pf_offset : Z; pf_length : Z }.
#[export] Instance PieceFile_eq_dec : EqDecision PieceFile.
Proof. solve_decision. Defined.

Record ParsedTorrent := mkParsedTorrent {
  pt_version : TorrentVersion; pt_name : str; pt_info_bytes : str; pt_piece_length : Z;
  pt_v1_hash : option str; pt_v2_hash : option str; pt_v1_pieces : option str;
  pt_files : list TorrentFile; pt_piece_files : list PieceFile }.

Inductive TorrentParseError :=
| LimitExceeded (what : string)
| Bencode | Metainfo | UnsafePath | ConflictingPaths | InconsistentPieces | InconsistentHybrid.

(** What the metainfo crate delivers, as far as this file reads it. *)
Inductive FileListV1 := Single (length : Z) | Multi (files : list (list str * Z)).
Inductive FileTreeNode :=
| FileNode (length : Z) (pieces_root : option str)
| DirNode (children : list (str * FileTreeNode)).
Inductive InfoHash := HashV1 (v1 : str) | HashV2 (v2 : str) | HashHybrid (v1 v2 : str).
Record InfoV1 := mkInfoV1 { v1_pieces : str; v1_file_list : FileListV1 }.
Record MetaInfo := mkMetaInfo {
  mi_name : str; mi_piece_length : Z; mi_v1 : option InfoV1; mi_v2 : option FileTreeNode;
  mi_info_bytes : str; mi_info_hash : InfoHash }.

(** ** Checks on paths *)

Definition validate_component (component : str) : result TorrentParseError () :=
  bail_if (bool_decide (component = []) || (MAX_COMPONENT_BYTES <? Z.of_nat (length component))
           || str_eqb component (lit ".") || str_eqb component (lit "..")
           || contains_byte 47 component || contains_byte 0 component) UnsafePath.

(** [Ord] of [&[&[u8]]] and [slice::starts_with] on components *)
Fixpoint path_leb (a b : list str) : bool :=
  match a, b with
  | [], _ => true
  | _ :: _, [] => false
  | x :: a, y :: b => if str_eqb x y then path_leb a b else str_leb x y
  end.

Fixpoint path_starts_with (p s : list str) : bool :=
  match p, s with
  | [], _ => true
  | _ :: _, [] => false
  | x :: p, y :: s => str_eqb x y && path_starts_with p s
  end.

(** [paths.windows(2)] *)
Fixpoint windows_conflict (paths : list (list str)) : bool :=
  match paths with
  | p :: (q :: _) as rest => path_starts_with p q || windows_conflict rest
  | _ => false
  end.

(** [usize::checked_add] *)
Definition checked_add_usize (a b : Z) : option Z := checked_add_u64 a b.

Definition path_bytes_of (path : list str) : result TorrentParseError Z :=
  try_fold (fun path_bytes component =>
              _ ← validate_component component;
              ok_or (checked_add_usize path_bytes (Z.of_nat (length component)))
                (LimitExceeded "path bytes"))
    path (Z.of_nat (length path) - 1).

Definition validate_file (manifest_path_bytes : Z) (file : TorrentFile) : result TorrentParseError Z :=
  _ ← bail_if (bool_decide (t_path file = [])
               || (MAX_PATH_COMPONENTS <? Z.of_nat (length (t_path file))))
        (LimitExceeded "path components");
  path_bytes ← path_bytes_of (t_path file);
  _ ← bail_if (MAX_PATH_BYTES <? path_bytes) (LimitExceeded "path bytes");
  manifest_path_bytes ← ok_or (checked_add_usize manifest_path_bytes path_bytes)
                          (LimitExceeded "manifest path bytes");
  _ ← bail_if (MAX_MANIFEST_PATH_BYTES <? manifest_path_bytes) (LimitExceeded "manifest path bytes");
  Ok manifest_path_bytes.

Definition validate_files (files : list TorrentFile) : result TorrentParseError () :=
  _ ← bail_if (bool_decide (files = []) || (MAX_FILES <? Z.of_nat (length files)))
        (LimitExceeded "file count");
  _ ← try_fold validate_file files 0;
  bail_if (windows_conflict (sort_by path_leb (map t_path files))) ConflictingPaths.

(** ** Piece-stream layouts *)

Record FileView := mkFileView { fv_files : list TorrentFile; fv_piece_files : list PieceFile }.

(** [u32::try_from(ordinal)] *)
Definition file_ordinal (n : nat) : result TorrentParseError Z :=
  ok_or (u32_try_from (Z.of_nat n)) (LimitExceeded "file count").

(** Path, length and the padding mark of every v1 file *)
Definition v1_raw (name : str) (layout : FileListV1) : list (list str * Z * bool) :=
  match layout with
  | Single length => [([name], length, false)]
  | Multi files =>
      map (fun '(path, length) =>
             (name :: path, length,
              match path with component :: _ => str_eqb component (lit ".pad") | [] => false end))
        files
  end.

Definition v1_step (acc : list TorrentFile * list PieceFile * Z) (file : list str * Z * bool)
    : result TorrentParseError (list TorrentFile * list PieceFile * Z) :=
  let '(files, piece_files, offset) := acc in
  let '(path, len, padding) := file in
  '(files, ordinal) ← (if (padding : bool) then Ok (files, None)
     else ordinal ← file_ordinal (length files);
          Ok (files ++ [mkTorrentFile path len None], Some ordinal));
  next ← ok_or (checked_add_u64 offset len) InconsistentPieces;
  Ok (files, piece_files ++ [mkPieceFile ordinal offset len], next).

Definition v1_files (name : str) (layout : FileListV1) : result TorrentParseError FileView :=
  let raw := v1_raw name layout in
  _ ← validate_files (map (fun '(path, len, _) => mkTorrentFile path len None) raw);
  '(files, piece_files, _) ← try_fold v1_step raw ([], [], 0);
  Ok {| fv_files := files; fv_piece_files := piece_files |}.

Definition align_piece (offset piece_length : Z) : result TorrentParseError Z :=
  let remainder := offset mod piece_length in
  if remainder =? 0 then Ok offset
  else ok_or (checked_add_u64 offset (piece_length - remainder)) InconsistentPieces.

(** [flatten_v2]: depth first; [path] is the stack of directory names *)
Fixpoint flatten_v2 (node : FileTreeNode) (path : list str) : list TorrentFile :=
  match node with
  | FileNode length pieces_root => [mkTorrentFile path length pieces_root]
  | DirNode children =>
      (fix go (children : list (str * FileTreeNode)) : list TorrentFile :=
         match children with
         | [] => []
         | (name, child) :: children => flatten_v2 child (path ++ [name]) ++ go children
         end) children
  end.

Definition v2_step (piece_length : Z) (acc : list PieceFile * Z) (file : TorrentFile)
    : result TorrentParseError (list PieceFile * Z) :=
  let '(piece_files, end_) := acc in
  offset ← align_piece end_ piece_length;
  ordinal ← file_ordinal (length piece_files);
  next ← ok_or (checked_add_u64 offset (t_length file)) InconsistentPieces;
  Ok (piece_files ++ [mkPieceFile (Some ordinal) offset (t_length file)], next).

(** The paths of a v2 tree: under [name] unless the torrent is a single file *)
Definition v2_named (name : str) (files : list TorrentFile) : list TorrentFile :=
  match files with
  | [file] => if (length (t_path file) =? 1)%nat then files
              else [mkTorrentFile (name :: t_path file) (t_length file) (t_pieces_root file)]
  | _ => map (fun file => mkTorrentFile (name :: t_path file) (t_length file) (t_pieces_root file)) files
  end.

Definition v2_files (name : str) (piece_length : Z) (tree : FileTreeNode)
    : result TorrentParseError FileView :=
  let files := v2_named name (flatten_v2 tree []) in
  _ ← validate_files files;
  '(piece_files, _) ← try_fold (v2_step piece_length) files ([], 0);
  Ok {| fv_files := files; fv_piece_files := piece_files |}.

(** ** Whole torrents *)

Definition hybrid_layout_matches (v1 v2 : FileView) : bool :=
  (length (fv_files v1) =? length (fv_files v2))%nat
  && forallb (fun '(a, b) => bool_decide (t_path a = t_path b) && (t_length a =? t_length b))
       (zip (fv_files v1) (fv_files v2))
  && bool_decide (List.filter (fun file => bool_decide (is_Some (pf_file_ordinal file))) (fv_piece_files v1)
                  = fv_piece_files v2).

(** [view.piece_files.last().map_or(0, |f| f.offset.saturating_add(f.length))] *)
Definition stream_length (piece_files : list PieceFile) : Z :=
  match last piece_files with
  | Some file => saturating_add_u64 (pf_offset file) (pf_length file)
  | None => 0
  end.

(** The inner [transpose]d option of a view *)
Definition view_of {A E} (view : option A) (f : A -> result E FileView) : result E (option FileView) :=
  match view with
  | None => Ok None
  | Some v => view ← f v; Ok (Some view)
  end.

(** [parse_metainfo]; [None] is the [unreachable!] of a metainfo without any view. *)
Definition parse_metainfo (metainfo : MetaInfo) : option (result TorrentParseError ParsedTorrent) :=
  match validate_component (mi_name metainfo) with
  | Err e => Some (Err e)
  | Ok _ =>
      match view_of (mi_v1 metainfo) (fun v1 => v1_files (mi_name metainfo) (v1_file_list v1)) with
      | Err e => Some (Err e)
      | Ok v1_view =>
          let pieces_ok :=
            match mi_v1 metainfo, v1_view with
            | Some v1, Some view =>
                div_ceil (stream_length (fv_piece_files view)) (mi_piece_length metainfo)
                =? Z.of_nat (length (v1_pieces v1) / 20)
            | _, _ => true
            end in
          if negb pieces_ok then Some (Err InconsistentPieces) else
          match view_of (mi_v2 metainfo)
                  (fun tree => v2_files (mi_name metainfo) (mi_piece_length metainfo) tree) with
          | Err e => Some (Err e)
          | Ok v2_view =>
              let hybrid_ok :=
                match v1_view, v2_view with
                | Some v1, Some v2 => hybrid_layout_matches v1 v2
                | _, _ => true
                end in
              if negb hybrid_ok then Some (Err InconsistentHybrid) else
              '(view, version) ←
                match v1_view, v2_view with
                | Some v1, Some v2 => Some (mkFileView (fv_files v2) (fv_piece_files v1), Hybrid)
                | Some v1, None => Some (v1, V1)
                | None, Some v2 => Some (v2, V2)
                | None, None => None
                end;
              let '(v1_hash, v2_hash) :=
                match mi_info_hash metainfo with
                | HashV1 v1 => (Some v1, None)
                | HashV2 v2 => (None, Some v2)
                | HashHybrid v1 v2 => (Some v1, Some v2)
                end in
              Some (Ok {| pt_version := version; pt_name := mi_name metainfo;
                          pt_info_bytes := mi_info_bytes metainfo;
                          pt_piece_length := mi_piece_length metainfo;
                          pt_v1_hash := v1_hash; pt_v2_hash := v2_hash;
                          pt_v1_pieces := option_map v1_pieces (mi_v1 metainfo);
                          pt_files := fv_files view; pt_piece_files := fv_piece_files view |})
          end
      end
  end.

(** [TorrentParser::parse] over the two third-party parsers *)
Definition parse (decode_with : str -> bool) (metainfo_parse : str -> option MetaInfo) (input : str)
    : option (result TorrentParseError ParsedTorrent) :=
  if MAX_TORRENT_BYTES <? Z.of_nat (length input) then Some (Err (LimitExceeded "torrent bytes"))
  else if negb (decode_with input) then Some (Err Bencode)
  else match metainfo_parse input with
       | None => Some (Err Metainfo)
       | Some metainfo => parse_metainfo metainfo
       end.

(** ** Concrete runs *)

Example v1_run :
  v1_files (lit "d") (Multi [([lit "a"], 10); ([lit ".pad"; lit "6"], 6); ([lit "b"], 3)])
  = Ok {| fv_files := [mkTorrentFile [lit "d"; lit "a"] 10 None; mkTorrentFile [lit "d"; lit "b"] 3 None];
          fv_piece_files := [mkPieceFile (Some 0) 0 10; mkPieceFile None 10 6; mkPieceFile (Some 1) 16 3] |}.
Proof. vm_compute. reflexivity. Qed.
Example v2_run :
  option_map fv_piece_files (match v2_files (lit "d") 16
      (DirNode [(lit "a", FileNode 10 None); (lit "b", FileNode 3 None)]) with Ok v => Some v | Err _ => None end)
  = Some [mkPieceFile (Some 0) 0 10; mkPieceFile (Some 1) 16 3].
Proof. vm_compute. reflexivity. Qed.
Example conflict_run :
  validate_files [mkTorrentFile [lit "a"; lit "b"] 1 None; mkTorrentFile [lit "c"] 1 None;
                  mkTorrentFile [lit "a"] 1 None] = Err ConflictingPaths.
Proof. vm_compute. reflexivity. Qed.

(** ** Order and prefixes of paths *)

Lemma path_leb_total a b : path_leb a b = true \/ path_leb b a = true.
Proof.
  revert b. induction a as [|x a IH]; intros [|y b]; cbn; auto.
  destruct (str_eqb x y) eqn:Hxy.
  - apply str_eqb_spec in Hxy as ->. rewrite str_eqb_refl. apply IH.
  - destruct (str_eqb y x) eqn:Hyx; [|apply str_leb_total].
    apply str_eqb_spec in Hyx as ->. by rewrite str_eqb_refl in Hxy.
Qed.

Lemma path_leb_antisym a b : path_leb a b = true -> path_leb b a = true -> a = b.
Proof.
  revert b. induction a as [|x a IH]; intros [|y b]; cbn; auto; try done.
  destruct (str_eqb x y) eqn:Hxy.
  - apply str_eqb_spec in Hxy as ->. rewrite str_eqb_refl. intros H1 H2. f_equal. auto.
  - destruct (str_eqb y x) eqn:Hyx; [apply str_eqb_spec in Hyx as ->; by rewrite str_eqb_refl in Hxy|].
    intros H1 H2. pose proof (str_leb_antisym _ _ H1 H2) as ->. by rewrite str_eqb_refl in Hxy.
Qed.

Lemma path_leb_trans a b c : path_leb a b = true -> path_leb b c = true -> path_leb a c = true.
Proof.
  revert b c. induction a as [|x a IH]; intros [|y b] [|z c]; cbn; auto; try done.
  destruct (str_eqb x y) eqn:Hxy.
  - apply str_eqb_spec in Hxy as ->. destruct (str_eqb y z); eauto.
  - destruct (str_eqb y z) eqn:Hyz.
    + apply str_eqb_spec in Hyz as <-. by rewrite Hxy.
    + intros H1 H2. destruct (str_eqb x z) eqn:Hxz; [|by eapply str_leb_trans].
      apply str_eqb_spec in Hxz as <-. pose proof (str_leb_antisym _ _ H1 H2) as ->.
      by rewrite str_eqb_refl in Hxy.
Qed.

Lemma path_starts_with_spec p s : path_starts_with p s = true <-> exists t, s = p ++ t.
Proof.
  revert s. induction p as [|x p IH]; intros s; cbn; [split; [by exists s|done]|].
  destruct s as [|y s]; [split; [done|by intros [t Ht]]|].
  rewrite andb_true_iff, str_eqb_spec, IH. split.
  - intros [-> [t ->]]. by exists t.
  - intros [t [= -> ->]]. split; [done|by exists t].
Qed.

Lemma path_leb_prefix p t : path_leb p (p ++ t) = true.
Proof. induction p as [|x p IH]; cbn; [done|]. by rewrite str_eqb_refl. Qed.

(** A path between a prefix and its extension extends the prefix too. *)
Lemma path_sandwich p x t : path_leb p x = true -> path_leb x (p ++ t) = true -> exists u, x = p ++ u.
Proof.
  revert x. induction p as [|a p IH]; intros x; [by exists x|].
  destruct x as [|b x]; cbn; [done|]. destruct (str_eqb a b) eqn:Hab.
  - apply str_eqb_spec in Hab as ->. rewrite str_eqb_refl. intros H1 H2.
    destruct (IH x H1 H2) as [u ->]. by exists u.
  - destruct (str_eqb b a) eqn:Hba; [apply str_eqb_spec in Hba as ->; by rewrite str_eqb_refl in Hab|].
    intros H1 H2. pose proof (str_leb_antisym _ _ H1 H2) as ->. by rewrite str_eqb_refl in Hab.
Qed.

(** No path equals or continues another. *)
Definition prefix_free (paths : list (list str)) : Prop :=
  NoDup paths /\
  forall p q, p ∈ paths -> q ∈ paths -> path_starts_with p q = true -> p = q.

Lemma windows_conflict_sorted paths :
  StronglySorted path_leb paths -> (windows_conflict paths = false <-> prefix_free paths).
Proof.
  induction 1 as [|p paths Hs IH Hp].
  { split; [|done]. intros _. split; [apply NoDup_nil_2|]. intros ? ? ?%not_elem_of_nil. done. }
  destruct paths as [|q rest].
  { split; [|done]. intros _. split; [apply NoDup_singleton|].
    by intros x y ->%list_elem_of_singleton ->%list_elem_of_singleton. }
  cbn [windows_conflict]. fold (windows_conflict (q :: rest)). rewrite orb_false_iff, IH.
  assert (forall x, x ∈ q :: rest -> path_leb p x = true) as Hle.
  { intros x Hx. rewrite Forall_forall in Hp. apply Is_true_true, (Hp x Hx). }
  assert (forall x, x ∈ q :: rest -> path_leb q x = true) as Hq.
  { intros x [->|Hx]%elem_of_cons; [destruct (path_leb_total q q); done|].
    apply StronglySorted_inv in Hs as [_ Hs]. rewrite Forall_forall in Hs. apply Is_true_true, (Hs x Hx). }
  split.
  - intros [Hpq [Hnd Hfree]].
    assert (forall x, x ∈ q :: rest -> path_starts_with p x = false) as Hno.
    { intros x Hx. destruct (path_starts_with p x) eqn:Hpx; [|done].
      apply path_starts_with_spec in Hpx as [t ->].
      destruct (path_sandwich p q t (Hle q ltac:(left)) (Hq _ Hx)) as [u ->].
      assert (path_starts_with p (p ++ u) = true) as Ht by (apply path_starts_with_spec; by exists u).
      congruence. }
    assert (path_starts_with p p = true) as Hrefl
      by (apply path_starts_with_spec; exists []; by rewrite app_nil_r).
    split.
    + constructor; [|done]. intros Hin. rewrite (Hno p Hin) in Hrefl. done.
    + intros a b [->|Ha]%elem_of_cons [->|Hb]%elem_of_cons Hab; [done| | |auto].
      * rewrite (Hno b Hb) in Hab. done.
      * pose proof Hab as [t ->]%path_starts_with_spec.
        apply path_leb_antisym; [apply path_leb_prefix|by apply Hle].
  - intros [Hnd Hfree]. apply NoDup_cons in Hnd as [Hpn Hnd]. split.
    + destruct (path_starts_with p q) eqn:Hpq; [|done]. exfalso. apply Hpn.
      rewrite (Hfree p q); [left|left|right; left|done].
    + split; [done|]. intros a b Ha Hb. apply Hfree; by right.
Qed.

Lemma prefix_free_Permutation l k : Permutation l k -> prefix_free l <-> prefix_free k.
Proof. intros HP. unfold prefix_free. rewrite HP. setoid_rewrite HP. done. Qed.

Lemma windows_conflict_spec paths :
  windows_conflict (sort_by path_leb paths) = false <-> prefix_free paths.
Proof.
  rewrite windows_conflict_sorted.
  - apply prefix_free_Permutation, sort_by_Permutation.
  - apply sort_by_sorted; [apply path_leb_total|apply path_leb_trans].
Qed.

(** ** The file checks as a predicate *)

Definition component_ok (c : str) : Prop :=
  c <> [] /\ Z.of_nat (length c) <= MAX_COMPONENT_BYTES /\ c <> lit "." /\ c <> lit ".." /\
  47 ∉ c /\ 0 ∉ c.

Definition path_bytes (path : list str) : Z :=
  Z.of_nat (length path) - 1 + sum_Z (map (fun c => Z.of_nat (length c)) path).

Definition file_ok (f : TorrentFile) : Prop :=
  t_path f <> [] /\ Z.of_nat (length (t_path f)) <= MAX_PATH_COMPONENTS /\
  Forall component_ok (t_path f) /\ path_bytes (t_path f) <= MAX_PATH_BYTES.

Lemma validate_component_spec c u : validate_component c = Ok u <-> component_ok c.
Proof.
  unfold validate_component, component_ok. rewrite bail_if_Ok, !orb_false_iff.
  rewrite bool_decide_eq_false, Z.ltb_ge. unfold str_eqb. rewrite !bool_decide_eq_false.
  rewrite <- !not_true_iff_false, !contains_byte_spec. tauto.
Qed.

Lemma sum_lengths_nonneg (l : list str) : 0 <= sum_Z (map (fun c => Z.of_nat (length c)) l).
Proof. apply sum_Z_nonneg, Forall_map, Forall_forall. intros. cbn. lia. Qed.

Lemma path_bytes_loop path acc n :
  0 <= acc ->
  try_fold (fun path_bytes component =>
              _ ← validate_component component;
              ok_or (checked_add_usize path_bytes (Z.of_nat (length component)))
                (LimitExceeded "path bytes")) path acc = Ok n <->
  Forall component_ok path /\ n = acc + sum_Z (map (fun c => Z.of_nat (length c)) path) /\
  (path = [] \/ n <= u64_max).
Proof.
  revert acc. induction path as [|c path IH]; intros acc Hacc; cbn [try_fold map].
  - rewrite sum_Z_nil, Z.add_0_r. split; [intros [= ->]; auto|by intros (_ & -> & _)].
  - rewrite Forall_cons, sum_Z_cons. pose proof (sum_lengths_nonneg path).
    destruct (validate_component c) as [u|e] eqn:Hc.
    + apply validate_component_spec in Hc. cbn [mbind result_bind].
      destruct (checked_add_usize acc (Z.of_nat (length c))) as [m|] eqn:Hm; cbn [ok_or].
      * apply checked_add_u64_Some in Hm as [-> Hm]. rewrite IH by lia. split.
        -- intros (H1 & -> & H2). split_and!; [done|done|lia|]. right. destruct H2 as [->|H2]; [|lia].
           cbn [map]. rewrite sum_Z_nil. lia.
        -- intros ((_ & H1) & -> & H2). split_and!; [done|lia|]. destruct H2 as [|H2]; [done|]. right. lia.
      * split; [done|]. intros (_ & -> & [?|H2]); [done|].
        assert (checked_add_usize acc (Z.of_nat (length c)) = Some (acc + Z.of_nat (length c))) as Hs
          by (apply checked_add_u64_Some; split; [done|lia]). congruence.
    + split; [done|]. intros ((Hok & _) & _). apply (validate_component_spec c tt) in Hok. congruence.
Qed.

Lemma validate_file_spec acc f n :
  0 <= acc ->
  validate_file acc f = Ok n <->
  file_ok f /\ n = acc + path_bytes (t_path f) /\ n <= MAX_MANIFEST_PATH_BYTES.
Proof.
  intros Hacc. unfold validate_file, file_ok.
  destruct (t_path f) as [|c path] eqn:Hp.
  { rewrite bool_decide_eq_true_2 by done. cbn. split; [done|]. by intros ((? & _) & _). }
  rewrite bool_decide_eq_false_2 by done. cbn [orb].
  destruct (Z.ltb_spec MAX_PATH_COMPONENTS (Z.of_nat (length (c :: path)))) as [Hn|Hn].
  { cbn [bail_if mbind result_bind]. split; [done|]. intros ((_ & ? & _) & _). lia. }
  cbn [bail_if mbind result_bind]. unfold path_bytes_of.
  pose proof (sum_lengths_nonneg (c :: path)) as Hpos. unfold path_bytes.
  destruct (try_fold _ (c :: path) _) as [m|e] eqn:Hm.
  - apply path_bytes_loop in Hm as (H1 & -> & H2); [|cbn; lia]. cbn [mbind result_bind].
    unfold MAX_PATH_BYTES, MAX_MANIFEST_PATH_BYTES.
    set (b := Z.of_nat (length (c :: path)) - 1 + _) in *.
    assert (0 <= b) by (unfold b; cbn [length]; lia).
    destruct (Z.ltb_spec 4096 b); cbn [bail_if mbind result_bind].
    { split; [done|]. intros ((_ & _ & _ & ?) & _). lia. }
    unfold checked_add_usize, checked_add_u64. destruct (Z.leb_spec (acc + b) u64_max) as [Hu|Hu];
      cbn [ok_or mbind result_bind].
    + destruct (Z.ltb_spec (64 * 1024 * 1024) (acc + b)); cbn [bail_if mbind result_bind].
      * split; [done|]. intros (_ & -> & ?). lia.
      * split; [intros [= <-]; split_and!; done || lia|by intros (_ & -> & _)].
    + split; [done|]. intros (_ & -> & ?). unfold u64_max in Hu. lia.
  - split; [done|]. intros ((_ & _ & Hok & Hb) & _). unfold MAX_PATH_BYTES in Hb.
    assert (try_fold (fun path_bytes component =>
              _ ← validate_component component;
              ok_or (checked_add_usize path_bytes (Z.of_nat (length component)))
                (LimitExceeded "path bytes")) (c :: path) (Z.of_nat (length (c :: path)) - 1)
            = Ok (path_bytes (c :: path))) as Hs.
    { apply path_bytes_loop; [cbn; lia|]. split_and!; [done|done|right]. unfold path_bytes, u64_max. lia. }
    congruence.
Qed.

Lemma path_bytes_nonneg path : path <> [] -> 0 <= path_bytes path.
Proof.
  intros Hne. unfold path_bytes. pose proof (sum_lengths_nonneg path). destruct path; [done|]. cbn [length]. lia.
Qed.

Lemma validate_file_loop files acc n :
  0 <= acc <= MAX_MANIFEST_PATH_BYTES ->
  try_fold validate_file files acc = Ok n <->
  Forall file_ok files /\ n = acc + sum_Z (map (fun f => path_bytes (t_path f)) files) /\
  n <= MAX_MANIFEST_PATH_BYTES.
Proof.
  revert acc. induction files as [|f files IH]; intros acc Hacc; cbn [try_fold map].
  - rewrite sum_Z_nil, Z.add_0_r. split; [intros [= <-]; split_and!; [by apply Forall_nil|done|lia]|by intros (_ & -> & _)].
  - rewrite Forall_cons, sum_Z_cons. destruct (validate_file acc f) as [m|e] eqn:Hf.
    + apply validate_file_spec in Hf as (H1 & -> & H2); [|lia].
      pose proof (path_bytes_nonneg (t_path f) (proj1 H1)). rewrite IH by lia.
      rewrite Z.add_assoc. tauto.
    + split; [done|]. intros ((H1 & H2) & -> & H3).
      assert (0 <= sum_Z (map (fun f => path_bytes (t_path f)) files)) as Hpos.
      { apply sum_Z_nonneg, Forall_map. eapply Forall_impl; [exact H2|]. intros g Hg. cbn.
        apply path_bytes_nonneg, Hg. }
      assert (validate_file acc f = Ok (acc + path_bytes (t_path f))) as Hs
        by (apply validate_file_spec; [lia|]; split_and!; [done|done|lia]). congruence.
Qed.

(** What an accepted file list satisfies *)
Definition files_ok (files : list TorrentFile) : Prop :=
  files <> [] /\ Z.of_nat (length files) <= MAX_FILES /\ Forall file_ok files /\
  sum_Z (map (fun f => path_bytes (t_path f)) files) <= MAX_MANIFEST_PATH_BYTES /\
  prefix_free (map t_path files).

Lemma validate_files_spec files u : validate_files files = Ok u <-> files_ok files.
Proof.
  assert (0 <= 0 <= MAX_MANIFEST_PATH_BYTES) as H0 by (unfold MAX_MANIFEST_PATH_BYTES; lia).
  unfold validate_files, files_ok. split.
  - intros (u1 & H1%bail_if_Ok & H)%bind_Ok. apply orb_false_iff in H1 as [H1%bool_decide_eq_false H2%Z.ltb_ge].
    apply bind_Ok in H as (n & Hn & H%bail_if_Ok). apply validate_file_loop in Hn as (H3 & -> & H4); [|done].
    apply windows_conflict_spec in H. done.
  - intros (H1 & H2 & H3 & H4 & H5). apply bind_Ok. exists tt. split.
    { apply bail_if_Ok. rewrite bool_decide_eq_false_2 by done. by apply Z.ltb_ge. }
    apply bind_Ok. exists (0 + sum_Z (map (fun f => path_bytes (t_path f)) files)). split.
    { by apply validate_file_loop. }
    by apply bail_if_Ok, windows_conflict_spec.
Qed.

(** ** Layouts *)

(** The pieces follow each other without gap from [start]. *)
Fixpoint contiguous (start : Z) (pieces : list PieceFile) : Prop :=
  match pieces with
  | [] => True
  | p :: pieces => pf_offset p = start /\ contiguous (start + pf_length p) pieces
  end.

(** Each piece starts at the first multiple of [piece_length] not before the end of the
    previous one. *)
Fixpoint aligned (piece_length end_ : Z) (pieces : list PieceFile) : Prop :=
  match pieces with
  | [] => True
  | p :: pieces =>
      pf_offset p mod piece_length = 0 /\ end_ <= pf_offset p < end_ + piece_length /\
      aligned piece_length (pf_offset p + pf_length p) pieces
  end.

Definition ordinals (pieces : list PieceFile) : list Z := omap pf_file_ordinal pieces.

(** Lengths of the pieces that carry a file *)
Definition file_lengths (pieces : list PieceFile) : list Z :=
  map pf_length (List.filter (fun p => bool_decide (is_Some (pf_file_ordinal p))) pieces).

(** The pieces number the files from 0 and repeat their lengths. *)
Definition describes (pieces : list PieceFile) (files : list TorrentFile) : Prop :=
  ordinals pieces = map Z.of_nat (seq 0 (length files)) /\ file_lengths pieces = map t_length files.

Lemma contiguous_app start p q :
  contiguous start (p ++ q) <-> contiguous start p /\ contiguous (start + sum_Z (map pf_length p)) q.
Proof.
  revert start. induction p as [|x p IH]; intros start; cbn [app contiguous map].
  - rewrite sum_Z_nil, Z.add_0_r. tauto.
  - rewrite IH, sum_Z_cons, Z.add_assoc. tauto.
Qed.

Definition pieces_end (end_ : Z) (pieces : list PieceFile) : Z :=
  match last pieces with Some p => pf_offset p + pf_length p | None => end_ end.

Lemma aligned_app pl e p q :
  aligned pl e (p ++ q) <-> aligned pl e p /\ aligned pl (pieces_end e p) q.
Proof.
  revert e. induction p as [|x p IH]; intros e; cbn [app aligned]; [cbn; tauto|].
  rewrite IH. unfold pieces_end. destruct p as [|y p]; [cbn; tauto|].
  change (last (x :: y :: p)) with (last (y :: p)). destruct (last (y :: p)) eqn:Hl; [tauto|].
  by rewrite last_None in Hl.
Qed.

Lemma ordinals_app p q : ordinals (p ++ q) = ordinals p ++ ordinals q.
Proof. apply omap_app. Qed.

Lemma file_lengths_app p q : file_lengths (p ++ q) = file_lengths p ++ file_lengths q.
Proof. unfold file_lengths. by rewrite List.filter_app, map_app. Qed.

Lemma describes_snoc pieces files offset path len root :
  describes pieces files ->
  describes (pieces ++ [mkPieceFile (Some (Z.of_nat (length files))) offset len])
            (files ++ [mkTorrentFile path len root]).
Proof.
  intros [Ho Hl]. unfold describes. rewrite ordinals_app, file_lengths_app, Ho, Hl, !map_app, length_app.
  cbn [length]. rewrite Nat.add_1_r, seq_S, map_app. done.
Qed.

Lemma describes_padding pieces files offset len :
  describes pieces files -> describes (pieces ++ [mkPieceFile None offset len]) files.
Proof.
  intros [Ho Hl]. unfold describes. by rewrite ordinals_app, file_lengths_app, Ho, Hl, !app_nil_r.
Qed.

(** *** Version 1 *)

Definition raw_lengths (raw : list (list str * Z * bool)) : list Z := map (fun '(_, len, _) => len) raw.

Lemma sum_lengths_u64 raw : Forall (fun '(_, len, _) => is_u64 len) raw -> 0 <= sum_Z (raw_lengths raw).
Proof.
  intros H. unfold raw_lengths. apply sum_Z_nonneg, Forall_map. eapply Forall_impl; [exact H|].
  intros [[p l] b] Hl. unfold is_u64 in Hl. lia.
Qed.

(** Invariant of the v1 loop after the files [done] *)
Record V1Layout (done : list (list str * Z * bool)) (files : list TorrentFile)
    (pieces : list PieceFile) (offset : Z) : Prop := {
  v1l_files : files = map (fun '(path, len, _) => mkTorrentFile path len None)
                (List.filter (fun '(_, _, padding) => negb padding) done);
  v1l_lengths : map pf_length pieces = raw_lengths done;
  v1l_padding : map (fun p => bool_decide (pf_file_ordinal p = None)) pieces
                = map (fun '(_, _, padding) => padding) done;
  v1l_describes : describes pieces files;
  v1l_contiguous : contiguous 0 pieces;
  v1l_offset : offset = sum_Z (raw_lengths done);
  v1l_fits : offset <= u64_max }.

Lemma v1_step_layout done files pieces offset x files' pieces' offset' :
  V1Layout done files pieces offset ->
  v1_step (files, pieces, offset) x = Ok (files', pieces', offset') ->
  V1Layout (done ++ [x]) files' pieces' offset'.
Proof.
  intros [H1 H2 H3 H4 H5 H6 H7]. destruct x as [[path len] padding]. unfold v1_step.
  assert (raw_lengths (done ++ [(path, len, padding)]) = raw_lengths done ++ [len]) as Hraw
    by (unfold raw_lengths; by rewrite map_app).
  assert (contiguous 0 (pieces ++ [mkPieceFile None offset len])) as Hcont.
  { apply contiguous_app. split; [done|]. cbn. rewrite H2, <- H6. split; [lia|done]. }
  destruct padding.
  - cbn [mbind result_bind]. intros (next & Hn%ok_or_Ok & [= <- <- <-])%bind_Ok.
    apply checked_add_u64_Some in Hn as [-> Hmax]. split.
    + rewrite List.filter_app, map_app, H1. cbn. by rewrite app_nil_r.
    + by rewrite Hraw, map_app, H2.
    + by rewrite !map_app, H3.
    + by apply describes_padding.
    + done.
    + rewrite Hraw, sum_Z_app, H6. cbn. lia.
    + done.
  - intros ([f o] & Hf & H)%bind_Ok. apply bind_Ok in Hf as (ordinal & Hord%ok_or_Ok & [= <- <-]).
    apply bind_Ok in H as (next & Hn%ok_or_Ok & [= <- <- <-]).
    apply checked_add_u64_Some in Hn as [-> Hmax].
    assert (ordinal = Z.of_nat (length files)) as -> by (unfold u32_try_from in Hord; by case_match; simplify_eq).
    split.
    + rewrite List.filter_app, map_app, H1. done.
    + by rewrite Hraw, map_app, H2.
    + by rewrite !map_app, H3.
    + by apply describes_snoc.
    + apply contiguous_app. apply contiguous_app in Hcont. done.
    + rewrite Hraw, sum_Z_app, H6. cbn. lia.
    + done.
Qed.

Lemma v1_files_layout name layout view :
  v1_files name layout = Ok view ->
  files_ok (map (fun '(path, len, _) => mkTorrentFile path len None) (v1_raw name layout)) /\
  exists total, V1Layout (v1_raw name layout) (fv_files view) (fv_piece_files view) total.
Proof.
  unfold v1_files. intros (u & Hv & H)%bind_Ok. apply validate_files_spec in Hv. split; [done|].
  apply bind_Ok in H as ([[files pieces] total] & Hrun & [= <-]). exists total.
  apply (try_fold_inv v1_step (fun done '(files, pieces, offset) => V1Layout done files pieces offset)
           _ ([], [], 0) (files, pieces, total)); [|intros l1 x l2 [[f p] o] [[f' p'] o'] _; apply v1_step_layout|exact Hrun].
  by split.
Qed.

Lemma stream_length_contiguous pieces :
  contiguous 0 pieces -> sum_Z (map pf_length pieces) <= u64_max ->
  stream_length pieces = sum_Z (map pf_length pieces).
Proof.
  intros Hc Hs. unfold stream_length. destruct pieces as [|p pieces _] using rev_ind; [done|].
  apply contiguous_app in Hc as [_ [Ho _]].
  rewrite last_snoc, map_app, sum_Z_app in *. cbn [map] in *. rewrite sum_Z_cons, sum_Z_nil in *.
  unfold saturating_add_u64. lia.
Qed.

(** *** Version 2 *)

Lemma align_piece_spec offset piece_length r :
  0 < piece_length -> 0 <= offset ->
  align_piece offset piece_length = Ok r ->
  r mod piece_length = 0 /\ offset <= r < offset + piece_length.
Proof.
  intros Hp Ho. unfold align_piece. destruct (Z.eqb_spec (offset mod piece_length) 0) as [He|He].
  - intros [= <-]. lia.
  - intros Hr%ok_or_Ok. apply checked_add_u64_Some in Hr as [-> _].
    pose proof (Z.mod_pos_bound offset piece_length Hp) as Hb.
    pose proof (Z.div_mod offset piece_length ltac:(lia)) as Hd. split; [|lia].
    replace (offset + (piece_length - offset mod piece_length))
      with ((offset / piece_length + 1) * piece_length) by lia.
    apply Z.mod_mul. lia.
Qed.

Record V2Layout (piece_length : Z) (done : list TorrentFile) (pieces : list PieceFile) (end_ : Z) : Prop := {
  v2l_describes : describes pieces done;
  v2l_all : forall p, p ∈ pieces -> is_Some (pf_file_ordinal p);
  v2l_aligned : aligned piece_length 0 pieces;
  v2l_end : end_ = pieces_end 0 pieces;
  v2l_fits : 0 <= end_ <= u64_max }.

Lemma v2_step_layout piece_length done pieces e file pieces' e' :
  0 < piece_length -> is_u64 (t_length file) -> V2Layout piece_length done pieces e ->
  v2_step piece_length (pieces, e) file = Ok (pieces', e') ->
  V2Layout piece_length (done ++ [file]) pieces' e'.
Proof.
  intros Hpl Hlen [H1 H2 H3 H4 H5]. unfold v2_step. intros (offset & Ha & H)%bind_Ok.
  apply bind_Ok in H as (ordinal & Hord%ok_or_Ok & H).
  apply bind_Ok in H as (next & Hn%ok_or_Ok & [= <- <-]).
  apply checked_add_u64_Some in Hn as [-> Hmax].
  apply align_piece_spec in Ha as [Hmod Hb]; [|done|lia].
  assert (length pieces = length done) as Hcount.
  { destruct H1 as [Ho _]. apply (f_equal length) in Ho. rewrite length_map, length_seq in Ho.
    rewrite <- Ho. clear -H2. unfold ordinals. induction pieces as [|p pieces IH]; [done|].
    cbn [omap list_omap]. destruct (H2 p ltac:(left)) as [o ->]. cbn [length]. f_equal.
    apply IH. intros. apply H2. by right. }
  assert (ordinal = Z.of_nat (length done)) as ->
    by (unfold u32_try_from in Hord; case_match; simplify_eq; by rewrite Hcount).
  split.
  - destruct file. by apply describes_snoc.
  - intros p [Hp| ->%list_elem_of_singleton]%elem_of_app; [auto|by eexists].
  - apply aligned_app. split; [done|]. rewrite <- H4. cbn. done.
  - unfold pieces_end. by rewrite last_snoc.
  - unfold is_u64 in Hlen. lia.
Qed.

Lemma v2_files_layout name piece_length tree view :
  0 < piece_length -> Forall (fun f => is_u64 (t_length f)) (v2_named name (flatten_v2 tree [])) ->
  v2_files name piece_length tree = Ok view ->
  fv_files view = v2_named name (flatten_v2 tree []) /\ files_ok (fv_files view) /\
  exists e, V2Layout piece_length (fv_files view) (fv_piece_files view) e.
Proof.
  intros Hpl Hlens. unfold v2_files. intros (u & Hv & H)%bind_Ok. apply validate_files_spec in Hv.
  apply bind_Ok in H as ([pieces e] & Hrun & [= <-]). cbn [fv_files fv_piece_files].
  split; [done|]. split; [done|]. exists e.
  apply (try_fold_inv (v2_step piece_length)
           (fun done '(pieces, e) => V2Layout piece_length done pieces e)
           _ ([], 0) (pieces, e)); [| |exact Hrun].
  - split; try done. by intros p ?%not_elem_of_nil.
  - intros l1 x l2 [p o] [p' o'] Hsplit HL Hstep. apply (v2_step_layout piece_length l1 p o); try done.
    rewrite Forall_forall in Hlens. apply Hlens. rewrite Hsplit. set_solver.
Qed.

(** ** Whole torrents *)

(** What the metainfo parser guarantees: a view, a positive piece length, [u64] lengths. *)
Record metainfo_ok (mi : MetaInfo) : Prop := {
  mo_view : is_Some (mi_v1 mi) \/ is_Some (mi_v2 mi);
  mo_piece_length : 0 < mi_piece_length mi;
  mo_tree : forall tree, mi_v2 mi = Some tree ->
    Forall (fun f => is_u64 (t_length f)) (v2_named (mi_name mi) (flatten_v2 tree [])) }.

Lemma view_of_Ok {A E} (view : option A) (f : A -> result E FileView) r :
  view_of view f = Ok r <->
  match view with None => r = None | Some v => exists fv, r = Some fv /\ f v = Ok fv end.
Proof.
  destruct view as [v|]; cbn.
  - rewrite bind_Ok. split; [intros (fv & H & [= <-]); eauto|intros (fv & -> & H); eauto].
  - split; [by intros [= <-]|by intros ->].
Qed.

Lemma prefix_free_sublist l k : l `sublist_of` k -> prefix_free k -> prefix_free l.
Proof.
  intros Hs [Hnd Hf]. split; [by eapply sublist_NoDup|].
  intros p q Hp Hq. apply Hf; eapply elem_of_submseteq; eauto using sublist_submseteq.
Qed.

Lemma sublist_map {A B} (f : A -> B) l k : l `sublist_of` k -> map f l `sublist_of` map f k.
Proof. induction 1; cbn; [done|by apply sublist_skip|by apply sublist_cons]. Qed.

Lemma hybrid_layout_spec v1 v2 :
  hybrid_layout_matches v1 v2 = true ->
  map t_path (fv_files v1) = map t_path (fv_files v2) /\
  map t_length (fv_files v1) = map t_length (fv_files v2) /\
  length (fv_files v1) = length (fv_files v2).
Proof.
  unfold hybrid_layout_matches. rewrite !andb_true_iff. intros [[Hl%Nat.eqb_eq Hz] _].
  revert Hl Hz. generalize (fv_files v1) (fv_files v2). induction l as [|a l IH]; intros [|b l'] Hl; try done.
  cbn [zip_with zip forallb map length]. rewrite !andb_true_iff, bool_decide_eq_true, Z.eqb_eq.
  intros [[-> ->] Hz]. destruct (IH l' ltac:(cbn in Hl; lia) Hz) as (-> & -> & ?). auto.
Qed.

(** The decomposition of a successful parse *)
Lemma parse_metainfo_Ok mi p :
  parse_metainfo mi = Some (Ok p) ->
  component_ok (mi_name mi) /\
  exists view1 view2,
    view_of (mi_v1 mi) (fun v1 => v1_files (mi_name mi) (v1_file_list v1)) = Ok view1 /\
    view_of (mi_v2 mi) (fun tree => v2_files (mi_name mi) (mi_piece_length mi) tree) = Ok view2 /\
    (forall v1 view, mi_v1 mi = Some v1 -> view1 = Some view ->
       div_ceil (stream_length (fv_piece_files view)) (mi_piece_length mi)
       = Z.of_nat (length (v1_pieces v1) / 20)) /\
    (forall v w, view1 = Some v -> view2 = Some w -> hybrid_layout_matches v w = true) /\
    pt_piece_length p = mi_piece_length mi /\ pt_name p = mi_name mi /\
    match view1, view2 with
    | Some v, Some w => pt_version p = Hybrid /\ pt_files p = fv_files w /\ pt_piece_files p = fv_piece_files v
    | Some v, None => pt_version p = V1 /\ pt_files p = fv_files v /\ pt_piece_files p = fv_piece_files v
    | None, Some w => pt_version p = V2 /\ pt_files p = fv_files w /\ pt_piece_files p = fv_piece_files w
    | None, None => False
    end.
Proof.
  unfold parse_metainfo. destruct (validate_component _) as [u|e] eqn:Hn; [|done].
  apply validate_component_spec in Hn.
  destruct (view_of (mi_v1 mi) _) as [view1|e] eqn:H1; [|done].
  destruct (negb _) eqn:Hp; [done|]. apply negb_false_iff in Hp.
  destruct (view_of (mi_v2 mi) _) as [view2|e] eqn:H2; [|done].
  destruct (negb _) eqn:Hh; [done|]. apply negb_false_iff in Hh.
  intros Hrun. split; [done|]. exists view1, view2. split; [done|]. split; [done|].
  split; [intros v1 view Hv1 ->; rewrite Hv1 in Hp; by apply Z.eqb_eq|].
  split; [by intros v w -> ->|].
  destruct view1 as [v|], view2 as [w|]; cbn [mbind option_bind] in Hrun; [| | |done];
    destruct (mi_info_hash mi); injection Hrun as <-; done.
Qed.

Lemma parse_metainfo_total mi : metainfo_ok mi -> exists r, parse_metainfo mi = Some r.
Proof.
  intros Hok. unfold parse_metainfo. destruct (validate_component _); [|by eexists].
  destruct (view_of (mi_v1 mi) _) as [view1|e] eqn:H1; [|by eexists].
  destruct (negb _); [by eexists|].
  destruct (view_of (mi_v2 mi) _) as [view2|e] eqn:H2; [|by eexists].
  destruct (negb _); [by eexists|].
  apply view_of_Ok in H1, H2. destruct (mo_view _ Hok) as [[v Hv]|[v Hv]]; rewrite Hv in *.
  - destruct H1 as (fv & -> & _). destruct view2; cbn; destruct (mi_info_hash mi); by eexists.
  - destruct H2 as (fv & -> & _). destruct view1; cbn; destruct (mi_info_hash mi); by eexists.
Qed.

Lemma parsed_layout mi p :
  metainfo_ok mi -> parse_metainfo mi = Some (Ok p) ->
  Forall file_ok (pt_files p) /\ prefix_free (map t_path (pt_files p)) /\
  describes (pt_piece_files p) (pt_files p) /\
  match mi_v1 mi with
  | Some v1 => contiguous 0 (pt_piece_files p) /\
      Z.of_nat (length (v1_pieces v1) / 20)
      = div_ceil (sum_Z (map pf_length (pt_piece_files p))) (pt_piece_length p)
  | None => aligned (pt_piece_length p) 0 (pt_piece_files p)
  end.
Proof.
  intros Hok (Hname & view1 & view2 & H1 & H2 & Hp & Hh & -> & _ & Hfin)%parse_metainfo_Ok.
  apply view_of_Ok in H1, H2.
  assert (forall v, view1 = Some v ->
    Forall file_ok (fv_files v) /\ prefix_free (map t_path (fv_files v)) /\
    describes (fv_piece_files v) (fv_files v) /\ contiguous 0 (fv_piece_files v) /\
    stream_length (fv_piece_files v) = sum_Z (map pf_length (fv_piece_files v))) as HV1.
  { intros v ->. destruct (mi_v1 mi) as [v1|]; [|done]. destruct H1 as (fv & [= <-] & H1).
    apply v1_files_layout in H1 as [(_ & _ & Hf & _ & Hpf) [total HL]].
    destruct HL as [Hfiles Hlens _ Hd Hc Ho Hfit].
    assert (fv_files v `sublist_of` map (fun '(path, len, _) => mkTorrentFile path len None)
              (v1_raw (mi_name mi) (v1_file_list v1))) as Hsub.
    { rewrite Hfiles. apply sublist_map. generalize (v1_raw (mi_name mi) (v1_file_list v1)).
      induction l as [|[[a b] c] l IH]; [done|]. cbn. destruct c; [by apply sublist_cons|by apply sublist_skip]. }
    split_and!; [|by eapply prefix_free_sublist; [apply sublist_map, Hsub|]|done..|].
    - rewrite Forall_forall in *. intros f Hin. apply Hf. eapply elem_of_submseteq; [exact Hin|by apply sublist_submseteq].
    - apply stream_length_contiguous; [done|]. by rewrite Hlens, <- Ho. }
  assert (forall w, view2 = Some w ->
    Forall file_ok (fv_files w) /\ prefix_free (map t_path (fv_files w)) /\
    describes (fv_piece_files w) (fv_files w) /\ aligned (mi_piece_length mi) 0 (fv_piece_files w)) as HV2.
  { intros w ->. destruct (mi_v2 mi) as [tree|] eqn:Htree; [|done]. destruct H2 as (fv & [= <-] & H2).
    apply v2_files_layout in H2 as (_ & (_ & _ & Hf & _ & Hpf) & e & HL);
      [|apply Hok|by apply (mo_tree _ Hok)].
    destruct HL. done. }
  destruct view1 as [v|], view2 as [w|]; [| | |done]; destruct Hfin as (_ & -> & ->).
  - destruct (HV1 v eq_refl) as (_ & _ & [Ho Hl] & Hc & Hs). destruct (HV2 w eq_refl) as (Hf & Hpf & _ & _).
    destruct (hybrid_layout_spec v w (Hh _ _ eq_refl eq_refl)) as (_ & Hlen & Hcount).
    destruct (mi_v1 mi) as [v1|]; [|done]. split_and!; try done.
    + unfold describes. by rewrite Ho, Hl, Hcount, Hlen.
    + rewrite <- (Hp v1 v eq_refl eq_refl). by rewrite Hs.
  - destruct (HV1 v eq_refl) as (? & ? & ? & Hc & Hs). destruct (mi_v1 mi) as [v1|]; [|done].
    split_and!; try done. rewrite <- (Hp v1 v eq_refl eq_refl). by rewrite Hs.
  - destruct (HV2 w eq_refl) as (? & ? & ? & ?). destruct (mi_v1 mi) as [v1|]; [|done].
    by destruct H1 as (? & [=] & _).
Qed.

(** ** Properties *)

(** The file checks accept exactly the non-empty, bounded lists of files whose every
    path component is safe and of which no path equals or is a directory of another:
    looking at neighbours in sorted order misses no conflict. *)
Theorem validate_files_exact files : validate_files files = Ok tt <-> files_ok files.
Proof. apply validate_files_spec. Qed.

(** The v1 piece stream is gapless from 0, has the lengths of all files in order with
    padding files unnumbered, numbers the real files from 0 and ends within [u64]. *)
Theorem v1_stream_contiguous name layout view :
  v1_files name layout = Ok view ->
  contiguous 0 (fv_piece_files view) /\
  map pf_length (fv_piece_files view) = raw_lengths (v1_raw name layout) /\
  map (fun p => bool_decide (pf_file_ordinal p = None)) (fv_piece_files view)
    = map (fun '(_, _, padding) => padding) (v1_raw name layout) /\
  describes (fv_piece_files view) (fv_files view) /\
  sum_Z (raw_lengths (v1_raw name layout)) <= u64_max.
Proof. intros [_ [total HL]]%v1_files_layout. destruct HL as [H1 H2 H3 H4 H5 H6 H7]. by rewrite <- H6. Qed.

Lemma v1_stream_contiguous_witness :
  exists view, v1_files (lit "d") (Multi [([lit "a"], 10); ([lit ".pad"; lit "6"], 6); ([lit "b"], 3)]) = Ok view /\
    contiguous 0 (fv_piece_files view).
Proof.
  eexists. split; [vm_compute; reflexivity|].
  exact (proj1 (v1_stream_contiguous (lit "d")
    (Multi [([lit "a"], 10); ([lit ".pad"; lit "6"], 6); ([lit "b"], 3)]) _ ltac:(vm_compute; reflexivity))).
Defined.

(** Every v2 file starts at the first piece boundary after the previous file, so no two
    files share a piece; the files keep their order, numbers and lengths. *)
Theorem v2_stream_aligned name piece_length tree view :
  0 < piece_length -> Forall (fun f => is_u64 (t_length f)) (v2_named name (flatten_v2 tree [])) ->
  v2_files name piece_length tree = Ok view ->
  aligned piece_length 0 (fv_piece_files view) /\
  describes (fv_piece_files view) (fv_files view) /\
  fv_files view = v2_named name (flatten_v2 tree []) /\ files_ok (fv_files view).
Proof.
  intros Hpl Hlens H. destruct (v2_files_layout _ _ _ _ Hpl Hlens H) as (H1 & H2 & e & HL).
  destruct HL. done.
Qed.

Lemma v2_stream_aligned_witness :
  exists view, v2_files (lit "d") 16 (DirNode [(lit "a", FileNode 10 None); (lit "b", FileNode 3 None)]) = Ok view /\
    aligned 16 0 (fv_piece_files view).
Proof.
  eexists. split; [vm_compute; reflexivity|].
  refine (proj1 (v2_stream_aligned (lit "d") 16
    (DirNode [(lit "a", FileNode 10 None); (lit "b", FileNode 3 None)]) _ ltac:(lia) _ ltac:(vm_compute; reflexivity))).
  cbn. repeat (apply Forall_cons; split; [unfold is_u64, u64_max; cbn; lia|]). apply Forall_nil. exact I.
Defined.

(** C39: on any metainfo with a view and a positive piece length the parser returns, and a
    parsed torrent is consistent: safe prefix-free paths, piece files that number and
    measure its files, a v1 stream whose piece count is its length divided by the piece
    length rounded up, or a piece-aligned v2 stream. *)
Theorem parsed_torrent_consistent mi :
  metainfo_ok mi ->
  exists r, parse_metainfo mi = Some r /\
    forall p, r = Ok p ->
      Forall file_ok (pt_files p) /\ prefix_free (map t_path (pt_files p)) /\
      describes (pt_piece_files p) (pt_files p) /\
      match mi_v1 mi with
      | Some v1 => contiguous 0 (pt_piece_files p) /\
          Z.of_nat (length (v1_pieces v1) / 20)
          = div_ceil (sum_Z (map pf_length (pt_piece_files p))) (pt_piece_length p)
      | None => aligned (pt_piece_length p) 0 (pt_piece_files p)
      end.
Proof.
  intros Hok. destruct (parse_metainfo_total mi Hok) as [r Hr]. exists r. split; [done|].
  intros p ->. by apply parsed_layout.
Qed.

Definition sample_metainfo : MetaInfo :=
  {| mi_name := lit "d"; mi_piece_length := 16;
     mi_v1 := Some {| v1_pieces := replicate 40 7;
                      v1_file_list := Multi [([lit "a"], 10); ([lit ".pad"; lit "6"], 6); ([lit "b"], 3)] |};
     mi_v2 := Some (DirNode [(lit "a", FileNode 10 None); (lit "b", FileNode 3 None)]);
     mi_info_bytes := []; mi_info_hash := HashV1 [] |}.

Lemma parsed_torrent_consistent_witness :
  metainfo_ok sample_metainfo /\
  exists p, parse_metainfo sample_metainfo = Some (Ok p) /\ contiguous 0 (pt_piece_files p).
Proof.
  assert (metainfo_ok sample_metainfo) as Hok.
  { split; [left; by eexists|reflexivity|]. intros tree [= <-]. cbn.
    repeat (apply Forall_cons; split; [unfold is_u64, u64_max; cbn; lia|]). apply Forall_nil. exact I. }
  split; [exact Hok|].
  destruct (parsed_torrent_consistent _ Hok) as (r & Hr & H).
  destruct r as [p|e].
  - exists p. split; [exact Hr|]. exact (proj1 (proj2 (proj2 (proj2 (H p eq_refl))))).
  - vm_compute in Hr. discriminate Hr.
Defined.
