(* ===== verification/Retry.v ===== *)
(** Retry backoff (retry.rs): deterministic, jittered exponential delays.

    A [Duration] is its number of nanoseconds; [None] is a panic ([assert!] or
    [expect]).  The wrap-around of unsigned subtraction is written out, so that
    "the jitter never exceeds the delay" is a theorem and not an assumption. *)

From S2P Require Import Prelude.
Local Open Scope Z_scope.

(** ** Definitions *)

Definition JITTER_PERCENT : Z := 20.
Definition NANOS : Z := 1000000000.

(** [Duration::MAX] *)
Definition duration_max : Z := 2^64 * NANOS - 1.
Definition is_duration (d : Z) : Prop := 0 <= d <= duration_max.

(** [Duration::saturating_mul] *)
Definition duration_saturating_mul (d : Z) (k : Z) : Z := Z.min (d * k) duration_max.

Definition mix (value : Z) : Z :=
  let value := wrap_u 64 (value + 0x9e3779b97f4a7c15) in
  let value := wrap_u 64 (Z.lxor value (Z.shiftr value 30) * 0xbf58476d1ce4e5b9) in
  let value := wrap_u 64 (Z.lxor value (Z.shiftr value 27) * 0x94d049bb133111eb) in
  Z.lxor value (Z.shiftr value 31).

(** One step of the FNV-1a loop over the parts of the key. *)
Definition fnv_byte (seed byte : Z) : Z := wrap_u 64 (Z.lxor seed byte * 0x100000001b3).
Definition fnv_key (key : list str) : Z :=
  foldl (fun seed part => foldl fnv_byte seed (part ++ [0])) 0xcbf29ce484222325 key.

(** [1_u32.checked_shl(k)] *)
Definition checked_shl_one (k : Z) : option Z :=
  if k <? 32 then Some (Z.shiftl 1 k) else None.

Definition saturating_mul_u128 (a b : Z) : Z := Z.min (a * b) u128_max.

Definition deterministic (base max attempt : Z) (key : list str) : option Z :=
  let factor := default u32_max (checked_shl_one (Z.min (saturating_sub_u attempt 1) 31)) in
  let delay := Z.min (duration_saturating_mul base factor) max in
  let seed := fnv_key key in
  let random := mix (Z.lxor seed attempt) in
  let delay_nanos := delay in
  let window := saturating_mul_u128 delay_nanos JITTER_PERCENT / 100 in
  let offset := saturating_mul_u128 window random / u64_max in
  let jittered := wrap_u 128 (wrap_u 128 (delay_nanos - window) + offset) in
  seconds ← (let s := jittered / NANOS in if s <=? u64_max then Some s else None);
  nanoseconds ← u32_try_from (jittered mod NANOS);
  Some (seconds * NANOS + nanoseconds).

Record Backoff := mkBackoff { base : Z; max : Z; failures : Z; seed : Z }.

Definition with_seed (b m s : Z) : option Backoff :=
  if b =? 0 then None else if m <? b then None else
  Some {| base := b; max := m; failures := 0; seed := s |}.

Definition fail (self : Backoff) : Backoff * option Z :=
  let failures := Z.min (failures self + 1) u32_max in
  ({| base := base self; max := max self; failures := failures; seed := seed self |},
   deterministic (base self) (max self) failures [le_bytes 8 (seed self)]).

Definition reset (self : Backoff) : Backoff :=
  {| base := base self; max := max self; failures := 0; seed := seed self |}.

(** A client's use of the backoff: failures and resets in any order. *)
Inductive Op := Fail' | Reset'.

Fixpoint run (ops : list Op) (self : Backoff) : Backoff * list (Z * option Z) :=
  match ops with
  | [] => (self, [])
  | Fail' :: ops =>
      let '(self, d) := fail self in
      let '(self', ds) := run ops self in (self', (failures self, d) :: ds)
  | Reset' :: ops => run ops (reset self)
  end.

(** ** Specification: the un-jittered delay of an attempt *)

Definition exponential (base max attempt : Z) : Z :=
  Z.min (base * 2 ^ Z.min (attempt - 1) 31) max.

(** Consecutive failures since the last reset, for every failure of a trace. *)
Fixpoint streaks (n : Z) (ops : list Op) : list Z :=
  match ops with
  | [] => []
  | Fail' :: ops => n + 1 :: streaks (n + 1) ops
  | Reset' :: ops => streaks 0 ops
  end.

(** ** Theorems *)

Lemma Z_lxor_u64 a b : is_u64 a -> is_u64 b -> is_u64 (Z.lxor a b).
Proof.
  unfold_ints. intros Ha Hb.
  assert (0 <= Z.lxor a b) as H0 by (apply Z.lxor_nonneg; lia).
  split; [done|]. destruct (Z.eq_dec (Z.lxor a b) 0) as [->|Hn]; [lia|].
  assert (Z.lxor a b < 2^64); [|lia]. apply Z.log2_lt_pow2; [lia|].
  eapply Z.le_lt_trans; [apply Z.log2_lxor; lia|].
  apply Z.max_lub_lt.
  - destruct (Z.eq_dec a 0) as [->|]; [cbn; lia|]. apply Z.log2_lt_pow2; lia.
  - destruct (Z.eq_dec b 0) as [->|]; [cbn; lia|]. apply Z.log2_lt_pow2; lia.
Qed.

Lemma wrap_u64_u64 z : is_u64 (wrap_u 64 z).
Proof. unfold_ints. unfold wrap_u. pose proof (Z.mod_pos_bound z (2^64)). lia. Qed.

Lemma shiftr_u64 z k : 0 <= k -> is_u64 z -> is_u64 (Z.shiftr z k).
Proof.
  unfold_ints. intros Hk Hz. rewrite Z.shiftr_div_pow2 by lia.
  assert (0 < 2^k) by (apply Z.pow_pos_nonneg; lia). split.
  - apply Z.div_pos; lia.
  - etransitivity; [apply Z.div_le_upper_bound with (q := z); nia|]. lia.
Qed.

Lemma mix_u64 z : is_u64 (mix z).
Proof. unfold mix. apply Z_lxor_u64; [|apply shiftr_u64; [lia|]]; apply wrap_u64_u64. Qed.

(** The jitter arithmetic: the result lies between 80% and 100% of the delay. *)
Lemma jitter_bounds d r :
  is_duration d -> is_u64 r ->
  let window := saturating_mul_u128 d JITTER_PERCENT / 100 in
  let offset := saturating_mul_u128 window r / u64_max in
  window = d / 5 /\ 0 <= offset <= window.
Proof.
  intros Hd Hr window offset. revert Hd Hr. subst offset. subst window.
  set (window := saturating_mul_u128 d JITTER_PERCENT / 100).
  unfold is_duration, duration_max, saturating_mul_u128, JITTER_PERCENT, NANOS in *. unfold_ints.
  intros Hd Hr.
  assert (window = d / 5) as Hw.
  { unfold window. rewrite Z.min_l by lia.
    replace 100 with (5 * 20) by lia. by rewrite Z.div_mul_cancel_r. }
  split; [done|]. rewrite Hw.
  assert (0 <= d / 5) as H0 by (apply Z.div_pos; lia). split.
  - apply Z.div_pos; [|lia]. apply Z.min_glb; nia.
  - apply Z.div_le_upper_bound; [lia|]. etransitivity; [apply Z.le_min_l|]. nia.
Qed.

Lemma deterministic_delay base max attempt :
  0 < base -> base <= max -> is_duration max -> 1 <= attempt ->
  Z.min (duration_saturating_mul base
    (default u32_max (checked_shl_one (Z.min (saturating_sub_u attempt 1) 31)))) max
  = exponential base max attempt.
Proof.
  unfold is_duration, exponential, duration_saturating_mul, saturating_sub_u, checked_shl_one.
  intros Hb Hm Hd Ha. rewrite (Z.max_r 0 (attempt - 1)) by lia.
  destruct (Z.ltb_spec (Z.min (attempt - 1) 31) 32) as [Hlt|]; [|lia].
  cbn [default from_option id]. unfold id. rewrite Z.shiftl_1_l. lia.
Qed.

Lemma exponential_duration base max attempt :
  0 < base -> base <= max -> is_duration max -> 1 <= attempt ->
  base <= exponential base max attempt <= max.
Proof.
  unfold exponential. intros Hb Hm Hd Ha.
  assert (0 < 2 ^ Z.min (attempt - 1) 31) by (apply Z.pow_pos_nonneg; lia). nia.
Qed.

Lemma deterministic_in_bounds base max attempt key :
  0 < base -> base <= max -> is_duration max -> 1 <= attempt ->
  let d := exponential base max attempt in
  exists r, deterministic base max attempt key = Some r /\ d - d / 5 <= r <= d.
Proof.
  intros Hb Hm Hd Ha d. unfold deterministic.
  rewrite deterministic_delay by done. fold d.
  assert (base <= d <= max) as Hdm by (by apply exponential_duration).
  assert (is_duration d) as Hdd by (unfold is_duration in *; lia).
  destruct (jitter_bounds d (mix (Z.lxor (fnv_key key) attempt)) Hdd (mix_u64 _)) as [Hw Ho].
  revert Hw Ho. set (w := saturating_mul_u128 d JITTER_PERCENT / 100).
  set (o := saturating_mul_u128 w _ / u64_max). intros Hw Ho.
  assert (0 <= d / 5 <= d) as H5.
  { split; [apply Z.div_pos; lia|]. apply Z.div_le_upper_bound; lia. }
  unfold is_duration, duration_max, NANOS in Hdd.
  rewrite (wrap_u_small 128 (d - w)) by lia. rewrite (wrap_u_small 128) by lia.
  set (j := d - w + o) in *.
  assert (0 <= j < 2^64 * NANOS) as Hj by (unfold NANOS; lia).
  assert (j / NANOS <= u64_max) as Hs.
  { unfold_ints. assert (j / NANOS < 2^64); [|lia]. apply Z.div_lt_upper_bound; unfold NANOS in *; lia. }
  destruct (Z.leb_spec (j / NANOS) u64_max); [|lia]. simpl.
  unfold u32_try_from. pose proof (Z.mod_pos_bound j NANOS ltac:(unfold NANOS; lia)) as Hmod.
  destruct (Z.leb_spec 0 (j mod NANOS)); [|lia].
  destruct (Z.leb_spec (j mod NANOS) u32_max); [|unfold NANOS in *; unfold_ints; lia]. simpl.
  eexists. split; [done|].
  pose proof (Z.div_mod j NANOS ltac:(unfold NANOS; lia)). lia.
Qed.

Lemma exponential_saturated b m n :
  1 <= n -> exponential b m (Z.min n u32_max) = exponential b m n.
Proof. intros Hn. unfold exponential. unfold_ints. do 3 f_equal. lia. Qed.

Lemma run_spec (ops : list Op) b n :
  0 < base b -> base b <= max b -> is_duration (max b) ->
  0 <= n -> failures b = Z.min n u32_max ->
  Forall2 (fun n (fd : Z * option Z) =>
      exists r, fd = (Z.min n u32_max, Some r) /\
        exponential (base b) (max b) n - exponential (base b) (max b) n / 5 <= r
        <= exponential (base b) (max b) n)
    (streaks n ops) (run ops b).2.
Proof.
  revert b n. induction ops as [|[] ops IH]; intros b n Hb Hm Hd Hn Hf;
    cbn [run streaks]; [constructor| |].
  - destruct (fail b) as [b1 d] eqn:Hfail. unfold fail in Hfail.
    assert (Z.min (failures b + 1) u32_max = Z.min (n + 1) u32_max) as Hmin
      by (unfold_ints; lia).
    rewrite Hmin in Hfail.
    destruct (deterministic_in_bounds (base b) (max b) (Z.min (n + 1) u32_max)
        [le_bytes 8 (seed b)]) as (r & Hr & Hr'); [done..|unfold_ints; lia|].
    rewrite Hr in Hfail. injection Hfail as <- <-. rewrite exponential_saturated in Hr' by lia.
    match goal with |- context [run ops ?b'] =>
      specialize (IH b' (n + 1)); destruct (run ops b') as [b'' ds] end.
    cbn [snd base max failures] in *. constructor; [by exists r|]. apply IH; [done..|lia|done].
  - apply (IH (reset b) 0); [done..|lia|done].
Qed.

(** C40: whatever the order of failures and resets, a backoff built with a
    positive base and a maximum at least that large never panics; the delay of
    the [n]-th consecutive failure since the last reset lies between 80% and
    100% of [min(max, base * 2^min(n-1, 31))], hence never above the maximum. *)
Theorem backoff_schedule (b m s : Z) (self : Backoff) (ops : list Op) :
  is_duration b -> is_duration m ->
  with_seed b m s = Some self ->
  Forall2 (fun n (fd : Z * option Z) =>
      exists r, fd = (Z.min n u32_max, Some r) /\
        exponential b m n - exponential b m n / 5 <= r <= exponential b m n)
    (streaks 0 ops) (run ops self).2.
Proof.
  intros Hb Hm. unfold with_seed.
  destruct (Z.eqb_spec b 0); [done|]. destruct (Z.ltb_spec m b); [done|]. intros [= <-].
  apply (run_spec ops (mkBackoff b m 0 s) 0); cbn; [|done..].
  unfold is_duration in Hb. lia.
Qed.

Lemma backoff_schedule_witness :
  exists self, with_seed NANOS (5 * NANOS) 17 = Some self /\
  Forall2 (fun n (fd : Z * option Z) =>
      exists r, fd = (Z.min n u32_max, Some r) /\
        exponential NANOS (5 * NANOS) n - exponential NANOS (5 * NANOS) n / 5 <= r
        <= exponential NANOS (5 * NANOS) n)
    (streaks 0 [Fail'; Fail'; Fail'; Fail'; Reset'; Fail'])
    (run [Fail'; Fail'; Fail'; Fail'; Reset'; Fail'] self).2.
Proof.
  exists (mkBackoff NANOS (5 * NANOS) 0 17). split; [reflexivity|].
  apply (backoff_schedule NANOS (5 * NANOS) 17).
  - unfold is_duration, duration_max, NANOS. lia.
  - unfold is_duration, duration_max, NANOS. lia.
  - reflexivity.
Defined.
