(* ===== verification/Template.v ===== *)
(** Category and tag templates (template.rs): the template language, its static
    check, the sanitisation of rendered text and the indexer slug. *)

From S2P Require Import Prelude Text.
From stdpp Require Import strings.
Local Open Scope Z_scope.

(** ** Definitions *)

Definition MAX_OUTPUT_BYTES : Z := 128.
Definition VARIABLES : list str :=
  [ lit "trigger"; lit "indexer_id"; lit "indexer_name"; lit "indexer_slug"; lit "match_mode";
    lit "source_category"; lit "source_kind"; lit "video_kind"; lit "year"; lit "season";
    lit "episode" ].

Inductive TemplateError :=
| UnsupportedSyntax
| UnknownVariable (name : str)
| UndefinedVariable (name : str)
| OutputLimit.

(** [TemplateContext]: the [BTreeMap] of variable values. *)
Abbreviation TemplateContext := (gmap str str).

(** One iteration of the [while let Some(start) = rest.find("{{")] loop; [None]
    only when the fuel runs out, which [render] never lets happen. *)
Fixpoint render_loop (fuel : nat) (values : TemplateContext) (rest output : str)
  : option (result TemplateError str) :=
  match fuel with
  | O => None
  | Datatypes.S fuel =>
      match find_sub (lit "{{") rest with
      | None =>
          if contains (lit "}}") rest then Some (Err UnsupportedSyntax)
          else Some (Ok (output ++ rest))
      | Some start =>
          let literal := take start rest in
          if contains (lit "}}") literal then Some (Err UnsupportedSyntax) else
          let output := output ++ literal in
          let rest := drop (start + 2) rest in
          match find_sub (lit "}}") rest with
          | None => Some (Err UnsupportedSyntax)
          | Some end_ =>
              let name := trim (take end_ rest) in
              if bool_decide (name = []) || negb (str_mem name VARIABLES)
              then Some (Err (UnknownVariable name)) else
              match values !! name with
              | None => Some (Err (UndefinedVariable name))
              | Some value => render_loop fuel values (drop (end_ + 2) rest) (output ++ value)
              end
          end
      end
  end.

Definition render (template : str) (values : TemplateContext) : result TemplateError str :=
  if contains (lit "{%") template || contains (lit "{#") template then Err UnsupportedSyntax
  else default (Err UnsupportedSyntax)
         (render_loop (Datatypes.S (length template)) values template []).

Definition validate (template : str) : result TemplateError () :=
  let values : TemplateContext := list_to_map (map (fun name => (name, [])) VARIABLES) in
  r ← render template values; Ok tt.

(** [for character in value.trim().chars()] with its [continue] and [break]. *)
Fixpoint sanitize_loop (tag : bool) (cs : list Z) (output : str) : str :=
  match cs with
  | [] => output
  | c :: cs =>
      if is_control c || (tag && (c =? 44)) then sanitize_loop tag cs output
      else if MAX_OUTPUT_BYTES <? Z.of_nat (length output) + len_utf8 c then output
      else sanitize_loop tag cs (output ++ encode_utf8 c)
  end.

Definition sanitize (value : str) (tag : bool) : result TemplateError str :=
  let output := trim (sanitize_loop tag (chars (trim value)) []) in
  if MAX_OUTPUT_BYTES <? Z.of_nat (length output) then Err OutputLimit else Ok output.

Definition render_category (self : TemplateContext) (template : str) : result TemplateError str :=
  rendered ← render template self; sanitize rendered false.

(** The body of the loop of [render_tags], over rendered templates and
    inherited tags. *)
Definition tag_step (acc : list str * gset str) (value : result TemplateError str)
  : result TemplateError (list str * gset str) :=
  let '(tags, seen) := acc in
  value ← value;
  tag ← sanitize value true;
  if negb (bool_decide (tag = [])) && negb (bool_decide (tag ∈ seen))
  then Ok (tags ++ [tag], {[ tag ]} ∪ seen)
  else Ok (tags, seen).

Definition render_tags (self : TemplateContext) (templates inherited : list str)
  : result TemplateError (list str) :=
  acc ← try_fold tag_step
          (map (fun template => render template self) templates ++ map Ok inherited) ([], ∅);
  Ok acc.1.

Section Slug.
Context `{Unicode}.

Definition slug_step (acc : str * bool) (character : Z) : str * bool :=
  let '(result, separator) := acc in
  if (character <? 128) && is_ascii_alphanumeric character then
    ((if separator && negb (bool_decide (result = [])) then result ++ [45] else result)
       ++ [character], false)
  else (result, true).

Definition slug (value : str) : str :=
  (foldl slug_step ([], false) (concat (map to_lowercase (chars value)))).1.
End Slug.

Example render_example :
  render (lit "{{ trigger }}/{{ indexer_slug }}")
    (<[lit "trigger" := lit "autobrr"]> (<[lit "indexer_slug" := lit "example-indexer"]> ∅))
  = Ok (lit "autobrr/example-indexer").
Proof. reflexivity. Qed.

Example render_unknown : render (lit "{{ now }}") ∅ = Err (UnknownVariable (lit "now")).
Proof. reflexivity. Qed.

Example tags_example :
  render_tags ∅ [lit "sporos"; lit "sporos"] [lit "bad,tag" ++ [10]; []]
  = Ok [lit "sporos"; lit "badtag"].
Proof. vm_compute. reflexivity. Qed.

Example slug_example : slug (lit "  Example / Indexer 2 ") = lit "example-indexer-2".
Proof. reflexivity. Qed.

(** ** The render loop *)

Lemma find_sub_bound p s n : find_sub p s = Some n -> (n + length p <= length s)%nat.
Proof. intros (a & b & -> & <-)%find_sub_Some. rewrite !length_app. lia. Qed.

(** The fuel of [render] is enough: every iteration consumes a delimiter. *)
Lemma render_loop_total fuel values rest output :
  (length rest < fuel)%nat -> render_loop fuel values rest output <> None.
Proof.
  revert rest output. induction fuel as [|fuel IH]; intros rest output Hf; [lia|].
  cbn [render_loop]. destruct (find_sub (lit "{{") rest) as [start|] eqn:Hs.
  2: { by destruct (contains _ _). }
  apply find_sub_bound in Hs. cbn [lit length] in Hs.
  destruct (contains _ _); [done|].
  destruct (find_sub (lit "}}") _) as [end_|] eqn:He; [|done].
  destruct (_ || _); [done|]. destruct (values !! _); [|done].
  apply IH. rewrite !length_drop. lia.
Qed.

Definition all_defined : TemplateContext := list_to_map (map (fun name => (name, [])) VARIABLES).

Lemma all_defined_lookup name : name ∈ VARIABLES -> all_defined !! name = Some [].
Proof.
  intros Hn. unfold VARIABLES in Hn. rewrite !elem_of_cons, elem_of_nil in Hn.
  destruct_or!; subst; done.
Qed.

Definition undefined_in (v : TemplateContext) (r : result TemplateError str) : Prop :=
  exists name, r = Err (UndefinedVariable name) /\ name ∈ VARIABLES /\ v !! name = None.

(** The loop under the check's context and under a real one proceed in step. *)
Lemma render_loop_sync fuel v rest o1 o2 r1 r2 :
  render_loop fuel all_defined rest o1 = Some r1 ->
  render_loop fuel v rest o2 = Some r2 ->
  match r1 with
  | Ok _ => is_ok r2 = true \/ undefined_in v r2
  | Err e => (r2 = Err e /\ (e = UnsupportedSyntax \/ exists n, e = UnknownVariable n))
             \/ undefined_in v r2
  end.
Proof.
  revert rest o1 o2. induction fuel as [|fuel IH]; intros rest o1 o2; [done|].
  cbn [render_loop]. destruct (find_sub (lit "{{") rest) as [start|].
  2: { destruct (contains _ _); intros [= <-] [= <-]; naive_solver. }
  destruct (contains _ _); [intros [= <-] [= <-]; naive_solver|].
  destruct (find_sub (lit "}}") _) as [end_|]; [|intros [= <-] [= <-]; naive_solver].
  set (name := trim _).
  destruct (bool_decide (name = []) || negb (str_mem name VARIABLES)) eqn:Hn.
  { intros [= <-] [= <-]. left. eauto. }
  apply orb_false_iff in Hn as [_ Hn%negb_false_iff].
  unfold str_mem in Hn. apply bool_decide_eq_true in Hn.
  rewrite all_defined_lookup by done. intros H1.
  destruct (v !! name) as [value|] eqn:Hv; [intros H2; exact (IH _ _ _ H1 H2)|].
  intros [= <-]. assert (undefined_in v (Err (UndefinedVariable name))) by (by exists name).
  destruct r1; by right.
Qed.

Lemma render_outcome template v :
  (contains (lit "{%") template || contains (lit "{#") template = true
     /\ render template v = Err UnsupportedSyntax) \/
  (contains (lit "{%") template || contains (lit "{#") template = false /\
   exists r, render_loop (Datatypes.S (length template)) v template [] = Some r
          /\ render template v = r).
Proof.
  unfold render. destruct (_ || _); [by left|]. right. split; [done|].
  pose proof (render_loop_total (Datatypes.S (length template)) v template [] ltac:(lia)).
  destruct (render_loop _ _ _ _) as [r|]; [|done]. by exists r.
Qed.

(** The configuration-time check of a template decides rendering: with any
    context, a template that passed the check renders, and one that failed it
    fails with the same error, unless an allowed variable the template uses is
    missing from the context.  The check itself reports only unsupported syntax
    and unknown variables, and the render loop always ends within its fuel. *)
Theorem validate_predicts_render (template : str) (v : TemplateContext) :
  render_loop (Datatypes.S (length template)) v template [] <> None /\
  (undefined_in v (render template v) \/
   match validate template with
   | Ok _ => is_ok (render template v) = true
   | Err e => render template v = Err e /\
              (e = UnsupportedSyntax \/ exists n, e = UnknownVariable n)
   end).
Proof.
  split; [apply render_loop_total; lia|].
  unfold validate. fold all_defined.
  destruct (render_outcome template all_defined) as [[Hb ->]|(Hb & r1 & H1 & ->)],
    (render_outcome template v) as [[Hb' ->]|(Hb' & r2 & H2 & ->)]; try congruence.
  - right. cbn. eauto.
  - pose proof (render_loop_sync _ _ _ _ _ _ _ H1 H2) as H.
    destruct r1 as [out|e]; cbn.
    + destruct H as [H|H]; [by right|by left].
    + destruct H as [[-> He]|H]; [by right; split|by left].
Qed.

(** ** Sanitisation *)

(** The bytes of a [String]: valid UTF-8. *)
Definition is_utf8 (s : str) : Prop := exists cs, Forall is_scalar cs /\ s = string_of_chars cs.

(** What a sanitised tag (or category) may contain. *)
Definition clean_char (tag : bool) (c : Z) : Prop :=
  is_scalar c /\ is_control c = false /\ (tag = true -> c <> 44).

Definition clean (tag : bool) (s : str) : Prop :=
  exists cs, s = string_of_chars cs /\ Forall (clean_char tag) cs /\
             trim_chars cs = cs /\ Z.of_nat (length s) <= MAX_OUTPUT_BYTES.

Lemma drop_while_head f l : match drop_while f l with [] => True | x :: _ => f x = false end.
Proof. induction l as [|x l IH]; simpl; [done|]. by destruct (f x) eqn:Hx. Qed.

Lemma drop_while_fixed f l :
  match l with [] => True | x :: _ => f x = false end -> drop_while f l = l.
Proof. destruct l; simpl; [done|]. by intros ->. Qed.

Lemma trim_chars_idem l : trim_chars (trim_chars l) = trim_chars l.
Proof.
  unfold trim_chars. set (d := drop_while is_whitespace l).
  set (e := drop_while is_whitespace (rev d)).
  assert (drop_while is_whitespace (rev e) = rev e) as ->.
  { apply drop_while_fixed. destruct (drop_while_suffix is_whitespace (rev d)) as (k & Hk & _).
    fold e in Hk. assert (d = rev e ++ rev k) as Hd.
    { rewrite <- rev_app_distr, <- Hk. by rewrite rev_involutive. }
    pose proof (drop_while_head is_whitespace l) as Hh. fold d in Hh. rewrite Hd in Hh.
    destruct (rev e); [done|exact Hh]. }
  rewrite rev_involutive. f_equal. apply drop_while_fixed. unfold e. apply drop_while_head.
Qed.

Lemma length_string_of_chars_trim cs :
  (length (string_of_chars (trim_chars cs)) <= length (string_of_chars cs))%nat.
Proof.
  destruct (trim_chars_sub cs) as (a & b & H). rewrite H at 2.
  rewrite !string_of_chars_app, !length_app. lia.
Qed.

Lemma sanitize_loop_spec tag cs out :
  Forall is_scalar cs -> Forall (clean_char tag) out ->
  Z.of_nat (length (string_of_chars out)) <= MAX_OUTPUT_BYTES ->
  exists out', sanitize_loop tag cs (string_of_chars out) = string_of_chars out' /\
    Forall (clean_char tag) out' /\
    Z.of_nat (length (string_of_chars out')) <= MAX_OUTPUT_BYTES.
Proof.
  intros Hcs. revert out. induction Hcs as [|c cs Hc _ IH]; intros out Ho Hl; cbn [sanitize_loop].
  - by exists out.
  - destruct (is_control c || (tag && (c =? 44))) eqn:Hskip; [by apply IH|].
    destruct (Z.ltb_spec MAX_OUTPUT_BYTES (Z.of_nat (length (string_of_chars out)) + len_utf8 c));
      [by exists out|].
    apply orb_false_iff in Hskip as [Hctl Hcomma].
    assert (string_of_chars out ++ encode_utf8 c = string_of_chars (out ++ [c])) as Heq.
    { rewrite string_of_chars_app. unfold string_of_chars at 3. cbn. by rewrite app_nil_r. }
    rewrite Heq. apply IH.
    + apply Forall_app. split; [done|]. constructor; [|done]. split; [done|]. split; [done|].
      intros ->. cbn in Hcomma. by apply Z.eqb_neq in Hcomma.
    + rewrite <- Heq, length_app, Nat2Z.inj_add, length_encode_utf8. lia.
Qed.

Lemma Forall_trim_chars (P : Z -> Prop) cs : Forall P cs -> Forall P (trim_chars cs).
Proof.
  intros H. apply Forall_forall. intros x Hx%trim_chars_elem.
  rewrite Forall_forall in H. auto.
Qed.

Lemma clean_scalar tag cs : Forall (clean_char tag) cs -> Forall is_scalar cs.
Proof. intros H. eapply Forall_impl; [exact H|]. by intros c []. Qed.

(** Sanitising never fails: the [OutputLimit] branch is dead. *)
Lemma sanitize_clean tag value :
  is_utf8 value -> exists out, sanitize value tag = Ok out /\ clean tag out.
Proof.
  intros (cs & Hcs & ->). unfold sanitize.
  assert (chars (trim (string_of_chars cs)) = trim_chars cs) as ->.
  { unfold trim. rewrite (chars_string_of_chars cs) by done.
    by rewrite chars_string_of_chars by (by apply Forall_trim_chars). }
  destruct (sanitize_loop_spec tag (trim_chars cs) []) as (out & Ho & Hc & Hl);
    [by apply Forall_trim_chars|done|done|].
  change (string_of_chars []) with (@nil Z) in Ho. rewrite Ho.
  assert (trim (string_of_chars out) = string_of_chars (trim_chars out)) as ->.
  { unfold trim. by rewrite chars_string_of_chars by (by eapply clean_scalar). }
  pose proof (length_string_of_chars_trim out).
  destruct (Z.ltb_spec MAX_OUTPUT_BYTES (Z.of_nat (length (string_of_chars (trim_chars out)))));
    [lia|].
  eexists. split; [done|]. exists (trim_chars out). split; [done|].
  split; [by apply Forall_trim_chars|]. split; [apply trim_chars_idem|lia].
Qed.

(** ** Slicing valid UTF-8 at ASCII delimiters *)

Lemma encode_utf8_bytes c :
  is_scalar c -> (c < 128 /\ encode_utf8 c = [c]) \/ (128 <= c /\ Forall (fun b => 128 <= b) (encode_utf8 c)).
Proof.
  unfold is_scalar, encode_utf8. intros Hc. destruct (Z.ltb_spec c 128); [by left|]. right.
  split; [done|]. pose proof (Z.mod_pos_bound c 64). pose proof (Z.mod_pos_bound (c / 64) 64).
  pose proof (Z.mod_pos_bound (c / 4096) 64).
  assert (0 <= c / 64) by (apply Z.div_pos; lia). assert (0 <= c / 4096) by (apply Z.div_pos; lia).
  assert (0 <= c / 262144) by (apply Z.div_pos; lia).
  repeat case_match; repeat constructor; lia.
Qed.

Lemma utf8_split a x b :
  x < 128 -> is_utf8 (a ++ x :: b) -> is_utf8 a /\ is_utf8 b.
Proof.
  intros Hx (cs & Hcs & Heq). revert a Heq.
  induction Hcs as [|c cs Hc Hcs IH]; intros a Heq; [by destruct a|].
  change (string_of_chars (c :: cs)) with (encode_utf8 c ++ string_of_chars cs) in Heq.
  assert ((exists k, a = encode_utf8 c ++ k) \/ a = [] /\ encode_utf8 c = [x]) as Hcase.
  { destruct (encode_utf8_bytes c Hc) as [[Hlt He]|[Hge Hb]].
    - rewrite He in *. destruct a as [|y a]; cbn in Heq; [right; naive_solver|].
      left. exists a. cbn. naive_solver.
    - left. destruct (app_eq_inv a (x :: b) (encode_utf8 c) (string_of_chars cs) Heq)
        as [(k & Hk & _)|(k & Hk & Hk')]; [by exists k|].
      destruct k as [|y k]; [exists []; by rewrite Hk, !app_nil_r|].
      cbn in Hk'. injection Hk' as <- _. rewrite Hk, Forall_app in Hb.
      destruct Hb as [_ Hb]. inversion Hb; subst. lia. }
  destruct Hcase as [[k ->]|[-> He]].
  - rewrite <- app_assoc in Heq. apply app_inv_head in Heq.
    destruct (IH k Heq) as [(ka & Hka & ->) Hkb]. split; [|done].
    exists (c :: ka). split; [by constructor|done].
  - rewrite He in Heq. injection Heq as ->. split; [by exists []|by exists cs].
Qed.

Lemma utf8_app a b : is_utf8 a -> is_utf8 b -> is_utf8 (a ++ b).
Proof.
  intros (ca & Ha & ->) (cb & Hb & ->). exists (ca ++ cb).
  split; [by apply Forall_app|]. by rewrite string_of_chars_app.
Qed.

(** Splitting at a two-byte ASCII delimiter found by [find]. *)
Lemma utf8_find d x y s n :
  d = [x; y] -> 0 <= x < 128 -> 0 <= y < 128 -> is_utf8 s -> find_sub d s = Some n ->
  is_utf8 (take n s) /\ is_utf8 (drop (n + 2) s).
Proof.
  intros -> Hx Hy Hs (a & b & -> & <-)%find_sub_Some. cbn [app] in *.
  apply utf8_split in Hs as [Ha Hb]; [|lia]. rewrite take_app_length. split; [done|].
  replace (a ++ x :: y :: b) with ((a ++ [x; y]) ++ b) by (by rewrite <- app_assoc).
  replace (length a + 2)%nat with (length (a ++ [x; y])) by (rewrite length_app; cbn; lia).
  rewrite drop_app_length. destruct (utf8_split [] y b ltac:(lia) Hb) as [_ H]. done.
Qed.

Definition utf8_values (v : TemplateContext) : Prop :=
  map_Forall (fun _ value => is_utf8 value) v.

Lemma render_loop_utf8 fuel v rest out s :
  utf8_values v -> is_utf8 rest -> is_utf8 out ->
  render_loop fuel v rest out = Some (Ok s) -> is_utf8 s.
Proof.
  intros Hv. revert rest out. induction fuel as [|fuel IH]; intros rest out Hr Ho; [done|].
  cbn [render_loop]. destruct (find_sub (lit "{{") rest) as [start|] eqn:Hs.
  2: { destruct (contains _ _); [done|]. intros [= <-]. by apply utf8_app. }
  apply (utf8_find _ 123 123) in Hs as [Hl Hd]; [|done|lia..|done].
  destruct (contains _ _); [done|].
  destruct (find_sub (lit "}}") _) as [end_|] eqn:He; [|done].
  apply (utf8_find _ 125 125) in He as [_ Hd']; [|done|lia..|done].
  destruct (_ || _); [done|]. destruct (v !! trim _) as [value|] eqn:Hval; [|done].
  apply IH; [done|]. apply utf8_app; [by apply utf8_app|exact (Hv _ _ Hval)].
Qed.

Lemma render_utf8 template v s :
  utf8_values v -> is_utf8 template -> render template v = Ok s -> is_utf8 s.
Proof.
  intros Hv Ht. destruct (render_outcome template v) as [[_ ->]|(_ & r & Hr & ->)]; [done|].
  intros ->. apply (render_loop_utf8 (Datatypes.S (length template)) v template [] s Hv Ht); [by exists []|done].
Qed.

(** ** Tags *)

Lemma tag_step_Ok tags seen value v acc :
  is_utf8 v -> value = Ok v -> tag_step (tags, seen) value = Ok acc ->
  exists tag, sanitize v true = Ok tag /\ clean true tag /\
    ((tag = [] \/ tag ∈ seen) /\ acc = (tags, seen) \/
     tag <> [] /\ tag ∉ seen /\ acc = (tags ++ [tag], {[ tag ]} ∪ seen)).
Proof.
  intros Hu ->. cbn [tag_step]. destruct (sanitize_clean true v Hu) as (tag & Ht & Hc).
  unfold tag_step. cbn [mbind result_bind]. rewrite Ht. cbn [mbind result_bind]. intros H.
  exists tag. split; [done|]. split; [done|].
  destruct (bool_decide_reflect (tag = [])), (bool_decide_reflect (tag ∈ seen));
    cbn in H; naive_solver.
Qed.

Lemma tags_loop sources acc :
  (forall v, Ok v ∈ sources -> is_utf8 v) ->
  try_fold tag_step sources ([], ∅) = Ok acc ->
  exists values, sources = map Ok values /\
    NoDup acc.1 /\ Forall (fun t => t <> [] /\ clean true t) acc.1 /\
    (forall t, t ∈ acc.1 <-> t <> [] /\ exists v, v ∈ values /\ sanitize v true = Ok t).
Proof.
  intros Hu H.
  apply (try_fold_inv tag_step (fun done acc =>
    exists values, done = map Ok values /\ (forall t, t ∈ acc.1 <-> t ∈ acc.2) /\
    NoDup acc.1 /\ Forall (fun t => t <> [] /\ clean true t) acc.1 /\
    (forall t, t ∈ acc.1 <-> t <> [] /\ exists v, v ∈ values /\ sanitize v true = Ok t)))
    in H; [naive_solver| |].
  - exists []. split; [done|]. split; [set_solver|]. split; [constructor|]. split; [done|].
    set_solver.
  - intros l1 x l2 [tags seen] acc' Hsrc (values & -> & Hseen & Hnd & Hf & Hin) Hstep.
    destruct x as [v|e]; [|done].
    destruct (tag_step_Ok tags seen (Ok v) v acc') as (tag & Ht & Hc & Hcase);
      [apply Hu; rewrite Hsrc; set_solver|done|done|].
    exists (values ++ [v]). split; [by rewrite map_app|]. cbn [fst snd] in *.
    destruct Hcase as [[Hno ->]|(Hne & Hnin & ->)]; cbn [fst snd].
    + split; [done|]. split; [done|]. split; [done|]. intros t. rewrite Hin.
      setoid_rewrite elem_of_app. setoid_rewrite list_elem_of_singleton.
      split; [naive_solver|]. intros (Hne & v' & [Hv'| ->] & Hs); [by eauto|].
      assert (t = tag) as -> by congruence. destruct Hno as [->|Hno]; [done|].
      apply Hseen, Hin in Hno. naive_solver.
    + split; [set_solver|]. split.
      { apply NoDup_app. split; [done|]. split; [|apply NoDup_singleton]. set_solver. }
      split; [apply Forall_app; split; [done|]; constructor; done|].
      intros t. rewrite elem_of_app, list_elem_of_singleton, Hin.
      setoid_rewrite elem_of_app. setoid_rewrite list_elem_of_singleton. split.
      * intros [(H1 & v' & Hv' & Hs)| ->]; [by eauto|]. split; [done|]. exists v. by split; [right|].
      * intros (H1 & v' & [Hv'| ->] & Hs); [left; by eauto|right; congruence].
Qed.

(** Rendering the tags of a torrent either reports the first template that
    does not render, or returns distinct, non-empty, trimmed tags of at most 128
    bytes, without commas or control characters: exactly the sanitised non-empty
    forms of the rendered templates and of the inherited tags.  Sanitising
    itself never fails, so the [OutputLimit] error is unreachable. *)
Theorem render_tags_safe (v : TemplateContext) (templates inherited : list str) :
  utf8_values v -> Forall is_utf8 templates -> Forall is_utf8 inherited ->
  match render_tags v templates inherited with
  | Ok tags =>
      exists rendered, Forall2 (fun t s => render t v = Ok s) templates rendered /\
        NoDup tags /\ Forall (fun t => t <> [] /\ clean true t) tags /\
        (forall t, t ∈ tags <->
           t <> [] /\ exists s, s ∈ rendered ++ inherited /\ sanitize s true = Ok t)
  | Err e =>
      exists before t after, templates = before ++ t :: after /\ render t v = Err e /\
        Forall (fun t' => is_ok (render t' v) = true) before
  end.
Proof.
  intros Hv Ht Hi. unfold render_tags.
  set (sources := map (fun t => render t v) templates ++ map Ok inherited).
  assert (forall s, Ok s ∈ sources -> is_utf8 s) as Hu.
  { intros s [Hs|Hs]%elem_of_app.
    - apply list_elem_of_fmap in Hs as (t & Hs & Hin). rewrite Forall_forall in Ht.
      eapply render_utf8; eauto.
    - apply list_elem_of_fmap in Hs as (t & [= ->] & Hin). rewrite Forall_forall in Hi. auto. }
  destruct (try_fold tag_step sources ([], ∅)) as [acc|e] eqn:Hrun; cbn [mbind result_bind].
  - destruct (tags_loop sources acc Hu Hrun) as (values & Hsrc & Hnd & Hf & Hin).
    unfold sources in Hsrc. symmetry in Hsrc.
    apply fmap_app_inv in Hsrc as (rendered & inh & H1 & H2 & ->).
    assert (inherited = inh) as <-.
    { clear - H2. revert inh H2. induction inherited as [|x l IH]; intros [|y l'] H2;
        cbn in H2; try done. injection H2 as -> H2. f_equal. by apply IH. }
    exists rendered. split; [|done].
    clear - H1. revert rendered H1.
    induction templates as [|t l IH]; intros [|s l'] H1; try done; constructor;
      [by injection H1|]. apply IH. by injection H1.
  - apply try_fold_Err in Hrun as (l1 & x & l2 & [tags seen] & Hsrc & Hok & Hx).
    assert (x = Err e) as ->.
    { destruct x as [s|e']; [|by unfold tag_step in Hx; cbn in Hx; injection Hx as ->].
      assert (is_utf8 s) as Hs by (apply Hu; rewrite Hsrc; set_solver).
      destruct (sanitize_clean true s Hs) as (tag & Htag & _).
      unfold tag_step in Hx. cbn [mbind result_bind] in Hx. rewrite Htag in Hx.
      cbn [mbind result_bind] in Hx. by destruct (_ && _). }
    destruct (tags_loop l1 (tags, seen)) as (values & -> & _);
      [intros s Hs; apply Hu; rewrite Hsrc; set_solver|done|].
    unfold sources in Hsrc.
    assert (exists k, map (fun t => render t v) templates = map Ok values ++ Err e :: k) as [k Hk].
    { apply app_eq_inv in Hsrc as [(k & Hk & Hk')|(k & Hk & Hk')].
      - destruct k as [|x k]; cbn in Hk'; [|exists k; by simplify_eq].
        destruct inherited; cbn in Hk'; done.
      - assert (@Err TemplateError str e ∈ map Ok inherited) as Hin by (rewrite Hk'; set_solver).
        apply list_elem_of_fmap in Hin as (? & ? & _). done. }
    apply fmap_app_inv in Hk as (before & after & H1 & H2 & ->).
    destruct after as [|t after]; [done|]. injection H2 as He _.
    exists before, t, after. split; [done|]. split; [done|].
    apply Forall_forall. intros t' Ht'.
    assert (render t' v ∈ map (@Ok TemplateError str) values) as Hin.
    { rewrite H1. apply (list_elem_of_fmap_2 (fun t => render t v)). exact Ht'. }
    apply list_elem_of_fmap in Hin as (? & -> & _). done.
Qed.

Lemma render_tags_safe_witness :
  exists tags, render_tags ∅ [lit "sporos"; lit "sporos"] [lit "bad,tag"] = Ok tags /\
    (forall t, t ∈ tags <->
       t <> [] /\ exists s, s ∈ [lit "sporos"; lit "sporos"] ++ [lit "bad,tag"]
                         /\ sanitize s true = Ok t).
Proof.
  assert (forall s, Forall is_scalar s -> Forall (fun b => b < 128) s -> is_utf8 s) as Hu.
  { intros s Hs Ha. exists s. split; [done|]. clear Hs. unfold string_of_chars.
    induction Ha as [|b s Hb _ IH]; [done|]. cbn [map concat]. rewrite <- IH.
    unfold encode_utf8. by destruct (Z.ltb_spec b 128); [|lia]. }
  assert (forall l, forallb (fun s => forallb (fun b => (0 <=? b) && (b <? 128)) s) l = true ->
    Forall is_utf8 l) as Hl.
  { intros l Hl. apply Forall_forall. intros s Hs.
    rewrite forallb_forall in Hl. apply list_elem_of_In in Hs. specialize (Hl s Hs).
    rewrite forallb_forall in Hl.
    apply Hu; apply Forall_forall; intros b Hb; apply list_elem_of_In in Hb;
      specialize (Hl b Hb); unfold is_scalar; lia. }
  pose proof (render_tags_safe ∅ [lit "sporos"; lit "sporos"] [lit "bad,tag"]
    (map_Forall_empty _) (Hl [lit "sporos"; lit "sporos"] eq_refl)
    (Hl [lit "bad,tag"] eq_refl)) as H.
  destruct (render_tags ∅ _ _) as [tags|e] eqn:Hr; [|vm_compute in Hr; discriminate Hr].
  exists tags. split; [reflexivity|].
  destruct H as (rendered & Hrend & _ & _ & Hin).
  inversion Hrend as [|? ? ? ? H1 Hrend1]; subst. inversion Hrend1 as [|? ? ? ? H2 Hrend2]; subst.
  inversion Hrend2; subst. vm_compute in H1, H2. injection H1 as <-. injection H2 as <-.
  exact Hin.
Defined.
