(* ===== verification/Hardlink.v ===== *)
(** Hardlink materialisation (hardlink.rs).

    The kernel's [openat2], [fstat], [mkdirat] and [linkat] are an interface,
    [Filesystem], over an abstract file-system state; [FilesystemLaws] states
    what the code relies on (creating calls never replace an entry and report
    [EEXIST] exactly when there is one; opening a path that resolved keeps
    resolving while no entry is removed).  [mem_fs] is an in-memory
    instance.  A handle stands for the inode a descriptor refers to, and a
    [Path] for its components, which is how [Path] compares. *)

From S2P Require Import Prelude Text.
From stdpp Require Import strings.
Local Open Scope Z_scope.

(** ** Paths *)

Inductive Component := RootDir | CurDir | ParentDir | Normal (name : str).
#[export] Instance Component_eq_dec : EqDecision Component.
Proof. solve_decision. Defined.

(** [Path::components]: repeated separators and interior [.] vanish. *)
Definition part_component (part : str) : option Component :=
  if bool_decide (part = []) || bool_decide (part = lit ".") then None
  else if bool_decide (part = lit "..") then Some ParentDir
  else Some (Normal part).

Definition components (path : str) : list Component :=
  let parts := split_on 47 path in
  (if starts_with (lit "/") path then [RootDir]
   else match parts with
        | p :: _ => if bool_decide (p = lit ".") then [CurDir] else []
        | [] => []
        end) ++ omap part_component parts.

Definition is_absolute (path : list Component) : bool :=
  match path with RootDir :: _ => true | _ => false end.

(** [Path::parent], [Path::file_name] *)
Definition parent (path : list Component) : option (list Component) :=
  match rev path with
  | [] | RootDir :: _ => None
  | _ :: rest => Some (rev rest)
  end.
Definition file_name (path : list Component) : option str :=
  match rev path with Normal name :: _ => Some name | _ => None end.

(** ** The file system interface *)

Record Metadata := mkMetadata {
  dev : Z; ino : Z; is_dir : bool; is_file : bool; len : Z }.

(** [O_RDONLY|O_DIRECTORY|O_NOFOLLOW] and [O_PATH|O_NOFOLLOW], always under
    [RESOLVE_NO_SYMLINKS|RESOLVE_NO_MAGICLINKS] and, with a directory
    descriptor, [RESOLVE_BENEATH]. *)
Inductive OFlags := DIRECTORY | PATH.

Class Filesystem := {
  fs : Type;
  handle : Type;
  Errno : Type;
  IoError : Type;
  #[global] handle_eq_dec :: EqDecision handle;
  #[global] Errno_eq_dec :: EqDecision Errno;
  EXIST : Errno;
  INVAL : Errno;
  openat2 : fs -> option handle -> list Component -> OFlags -> result Errno handle;
  metadata : fs -> handle -> result IoError Metadata;
  mkdirat : handle -> str -> fs -> fs * result Errno ();
  linkat : handle -> handle -> str -> fs -> fs * result Errno ();
  entry : fs -> handle -> str -> option handle }.

(** What an observer of an inode sees; directories may change length. *)
Definition same_inode (m m' : Metadata) : Prop :=
  dev m' = dev m /\ ino m' = ino m /\ is_dir m' = is_dir m /\ is_file m' = is_file m /\
  (is_file m = true -> len m' = len m).

Section Materialize.
Context `{Filesystem}.

(** [s'] has every entry and inode of [s]: nothing was removed or replaced. *)
Definition extends (s s' : fs) : Prop :=
  (forall d n h, entry s d n = Some h -> entry s' d n = Some h) /\
  (forall h m, metadata s h = Ok m -> exists m', metadata s' h = Ok m' /\ same_inode m m').

Class FilesystemLaws : Prop := {
  open_mono : forall s s' d p fl h,
    extends s s' -> openat2 s d p fl = Ok h -> openat2 s' d p fl = Ok h;
  open_entry : forall s d n h m,
    entry s d n = Some h -> metadata s h = Ok m -> is_file m = true ->
    openat2 s (Some d) [Normal n] PATH = Ok h;
  entry_open : forall s d n h, openat2 s (Some d) [Normal n] PATH = Ok h -> entry s d n = Some h;
  mkdir_ok : forall s s' d n, mkdirat d n s = (s', Ok ()) ->
    entry s d n = None /\ entry s' d n <> None /\ extends s s' /\
    (forall d' n', entry s' d' n' <> entry s d' n' -> d' = d);
  mkdir_err : forall s s' d n e, mkdirat d n s = (s', Err e) ->
    s' = s /\ (e = EXIST -> entry s d n <> None);
  mkdir_exist : forall s d n, entry s d n <> None -> mkdirat d n s = (s, Err EXIST);
  link_ok : forall s s' h d n, linkat h d n s = (s', Ok ()) ->
    entry s d n = None /\ entry s' d n = Some h /\ extends s s' /\
    (forall d' n', entry s' d' n' <> entry s d' n' -> d' = d);
  link_err : forall s s' h d n e, linkat h d n s = (s', Err e) -> s' = s;
  link_exist : forall s h d n, entry s d n <> None -> linkat h d n s = (s, Err EXIST) }.

(** ** Definitions *)

Record PlannedLink := mkPlannedLink {
  source_root : str;
  source_relative : str;
  destination_relative : str;
  expected_size : Z;
  expected_device : option Z;
  expected_inode : option Z }.

Record MaterializedLink := mkMaterializedLink {
  ml_destination_relative : str;
  device : Z;
  inode : Z;
  size : Z;
  existing : bool }.

Record HardlinkMaterializer := mkHardlinkMaterializer { link_root : handle; link_device : Z }.

Inductive MaterializeError :=
| OpenLinkRoot (e : Errno)
| InspectLinkRoot (e : IoError)
| LinkRootNotDirectory
| UnsafeRelativePath
| CreateDirectory (e : Errno)
| OpenDirectory (e : Errno)
| OpenSourceRoot (e : Errno)
| SourceRootNotDirectory
| OpenSource (e : Errno)
| InspectSource (e : IoError)
| SourceNotRegular
| SourceSizeChanged
| SourceIdentityChanged
| DeviceMismatch
| CreateLink (e : Errno)
| OpenDestination (e : Errno)
| InspectDestination (e : IoError)
| LinkConflict.

Abbreviation IO := (M fs MaterializeError).

(** A system call whose error the caller inspects. *)
Definition attempt {A} (call : fs -> fs * result Errno A) : IO (result Errno A) :=
  fun s => let '(s', r) := call s in (s', Ok r).

Definition is_normal (c : Component) : bool :=
  match c with Normal _ => true | _ => false end.

Definition validate_relative (path : list Component) : result MaterializeError () :=
  if bool_decide (path = []) || is_absolute path || existsb (fun c => negb (is_normal c)) path
  then Err UnsafeRelativePath else Ok ().

Definition open_absolute_directory (s : fs) (path : list Component) : result Errno handle :=
  if negb (is_absolute path) then Err INVAL else openat2 s None path DIRECTORY.

Definition open_directory (root : handle) (path : list Component) : IO handle :=
  reads (fun s => map_err OpenDirectory (openat2 s (Some root) path DIRECTORY)).

(** The loop of [ensure_directory]. *)
Fixpoint ensure_components (current : handle) (relative : list Component) : IO handle :=
  match relative with
  | [] => mret current
  | Normal name :: relative =>
      r ← attempt (mkdirat current name);
      _ ← (liftr match r with
                 | Ok _ => Ok ()
                 | Err e => if decide (e = EXIST) then Ok () else Err (CreateDirectory e)
                 end : IO ());
      current ← open_directory current [Normal name];
      ensure_components current relative
  | _ :: _ => throw UnsafeRelativePath
  end.

Definition ensure_directory (root : handle) (relative : list Component) : IO handle :=
  _ ← (liftr (validate_relative relative) : IO ());
  current ← open_directory root [CurDir];
  ensure_components current relative.

(** [HardlinkMaterializer::open] *)
Definition open (path : str) (s : fs) : result MaterializeError HardlinkMaterializer :=
  root ← map_err OpenLinkRoot (open_absolute_directory s (components path));
  m ← map_err InspectLinkRoot (metadata s root);
  _ ← bail_if (negb (is_dir m)) LinkRootNotDirectory;
  Ok {| link_root := root; link_device := dev m |}.

(** [materialize_one] up to the checks of the source, which change nothing. *)
Definition check_source (self : HardlinkMaterializer) (link : PlannedLink) (s : fs)
  : result MaterializeError (handle * Metadata) :=
  _ ← validate_relative (components (source_relative link));
  _ ← validate_relative (components (destination_relative link));
  root ← map_err OpenSourceRoot (open_absolute_directory s (components (source_root link)));
  root_metadata ← map_err InspectSource (metadata s root);
  _ ← bail_if (negb (is_dir root_metadata)) SourceRootNotDirectory;
  source ← map_err OpenSource
             (openat2 s (Some root) (components (source_relative link)) PATH);
  m ← map_err InspectSource (metadata s source);
  _ ← bail_if (negb (is_file m)) SourceNotRegular;
  _ ← bail_if (negb (len m =? expected_size link)) SourceSizeChanged;
  _ ← bail_if (match expected_device link with Some d => negb (d =? dev m) | None => false end
               || match expected_inode link with Some i => negb (i =? ino m) | None => false end)
        SourceIdentityChanged;
  _ ← bail_if (negb (dev m =? link_device self)) DeviceMismatch;
  Ok (source, m).

(** The [EEXIST] arm: an existing destination must be the same inode. *)
Definition check_existing (par : handle) (name : str) (m : Metadata) (link : PlannedLink) (s : fs)
  : result MaterializeError MaterializedLink :=
  h ← map_err OpenDestination (openat2 s (Some par) [Normal name] PATH);
  e ← map_err InspectDestination (metadata s h);
  if is_file e && (dev e =? dev m) && (ino e =? ino m) && (len e =? len m)
  then Ok {| ml_destination_relative := destination_relative link; device := dev m;
             inode := ino m; size := len m; existing := true |}
  else Err LinkConflict.

Definition materialize_one (self : HardlinkMaterializer) (namespace : handle) (link : PlannedLink)
  : IO MaterializedLink :=
  '(source, m) ← (reads (check_source self link) : IO (handle * Metadata));
  let destination := components (destination_relative link) in
  par ← match parent destination with
        | Some p => if bool_decide (p = []) then mret namespace
                    else ensure_directory namespace p
        | None => mret namespace
        end;
  name ← (liftr (ok_or (file_name destination) UnsafeRelativePath) : IO str);
  r ← attempt (linkat source par name);
  match r with
  | Ok _ =>
      mret {| ml_destination_relative := destination_relative link; device := dev m;
              inode := ino m; size := len m; existing := false |}
  | Err e => if decide (e = EXIST) then reads (check_existing par name m link)
             else throw (CreateLink e)
  end.

Definition materialize (self : HardlinkMaterializer) (namespace_relative : str)
    (links : list PlannedLink) : IO (list MaterializedLink) :=
  namespace ← ensure_directory (link_root self) (components namespace_relative);
  collectM (materialize_one self namespace) links.

(** ** Specification *)

(** [d] is reached from [root] by opening one plain name (or [.]) after another:
    it lies beneath [root], whatever symbolic links exist. *)
Inductive beneath (s : fs) (root : handle) : handle -> Prop :=
| beneath_root : beneath s root root
| beneath_step d p h :
    beneath s root d -> p = [CurDir] \/ (exists n, p = [Normal n]) ->
    openat2 s (Some d) p DIRECTORY = Ok h -> beneath s root h.

(** Nothing is removed or replaced, and entries appear only beneath [root]. *)
Definition grows (root : handle) (s s' : fs) : Prop :=
  extends s s' /\ forall d n, entry s' d n <> entry s d n -> beneath s' root d.

(** A reported link names, beneath the link root, a regular file with the
    identity that the source had when it passed its checks. *)
Definition materialized (self : HardlinkMaterializer) (link : PlannedLink)
    (ml : MaterializedLink) (s : fs) : Prop :=
  exists source m par name h m',
    check_source self link s = Ok (source, m) /\
    beneath s (link_root self) par /\
    file_name (components (destination_relative link)) = Some name /\
    entry s par name = Some h /\ metadata s h = Ok m' /\
    is_file m' = true /\ dev m' = dev m /\ ino m' = ino m /\ len m' = len m /\
    ml_destination_relative ml = destination_relative link /\
    device ml = dev m /\ inode ml = ino m /\ size ml = len m.

(** ** Lemmas *)

Context `{!FilesystemLaws}.
#[local] Set Default Proof Using "All".

Lemma same_inode_refl m : same_inode m m.
Proof. done. Qed.
Lemma same_inode_trans a b c : same_inode a b -> same_inode b c -> same_inode a c.
Proof.
  intros (? & ? & ? & Hf & Hl) (? & ? & ? & ? & Hl'). repeat split; try congruence.
  intros Ha. rewrite Hl', Hl; congruence.
Qed.
(** A regular file keeps its whole metadata. *)
Lemma same_inode_file m m' : same_inode m m' -> is_file m = true -> m' = m.
Proof. intros (? & ? & ? & ? & Hl) Hf. destruct m, m'; cbn in *. f_equal; auto. Qed.

#[export] Instance extends_preorder : PreOrder extends.
Proof.
  split.
  - intros s. split; [done|]. intros h m Hm. exists m. split; [done|apply same_inode_refl].
  - intros s1 s2 s3 [He1 Hm1] [He2 Hm2]. split; [auto|]. intros h m Hm.
    destruct (Hm1 h m Hm) as (m1 & Hm' & Hs1). destruct (Hm2 h m1 Hm') as (m2 & Hm'' & Hs2).
    exists m2. split; [done|by eapply same_inode_trans].
Qed.

Lemma beneath_mono s s' root d : extends s s' -> beneath s root d -> beneath s' root d.
Proof.
  intros He. induction 1 as [|d p h _ IH Hp Ho]; [constructor|].
  eapply beneath_step; [exact IH|exact Hp|]. by eapply open_mono.
Qed.

#[export] Instance grows_preorder root : PreOrder (grows root).
Proof.
  split.
  - intros s. split; [reflexivity|]. congruence.
  - intros s1 s2 s3 [He1 Hn1] [He2 Hn2]. split; [by etransitivity|]. intros d n Hne.
    destruct (decide (entry s3 d n = entry s2 d n)) as [Heq|]; [|by apply (Hn2 d n)].
    eapply beneath_mono; [exact He2|]. apply (Hn1 d n). congruence.
Qed.

Lemma entry_some_extends s s' d n : extends s s' -> entry s d n <> None -> entry s' d n <> None.
Proof. intros [He _]. destruct (entry s d n) as [h|] eqn:Hd; [|done]. by rewrite (He _ _ _ Hd). Qed.

Lemma map_err_Ok {E F A} (f : E -> F) (r : result E A) a : map_err f r = Ok a <-> r = Ok a.
Proof. destruct r; cbn; naive_solver. Qed.

Lemma check_source_facts self link s source m :
  check_source self link s = Ok (source, m) ->
  is_file m = true /\ len m = expected_size link /\ dev m = link_device self /\
  (forall d, expected_device link = Some d -> d = dev m) /\
  (forall i, expected_inode link = Some i -> i = ino m) /\
  metadata s source = Ok m.
Proof.
  unfold check_source. rewrite bind_Ok. intros (? & _ & H1). rewrite bind_Ok in H1.
  destruct H1 as (? & _ & H1). rewrite bind_Ok in H1. destruct H1 as (root & _ & H1).
  rewrite bind_Ok in H1. destruct H1 as (? & _ & H1). rewrite bind_Ok in H1.
  destruct H1 as (? & _ & H1). rewrite bind_Ok in H1. destruct H1 as (src & _ & H1).
  rewrite bind_Ok in H1. destruct H1 as (m1 & Hm%map_err_Ok & H1).
  rewrite bind_Ok in H1. destruct H1 as (? & Hf%bail_if_Ok & H1).
  rewrite bind_Ok in H1. destruct H1 as (? & Hl%bail_if_Ok & H1).
  rewrite bind_Ok in H1. destruct H1 as (? & Hi%bail_if_Ok & H1).
  rewrite bind_Ok in H1. destruct H1 as (? & Hd%bail_if_Ok & [= <- <-]).
  apply negb_false_iff in Hf, Hl, Hd. apply Z.eqb_eq in Hl, Hd.
  apply orb_false_iff in Hi as [Hi1 Hi2].
  split; [done|]. split; [done|]. split; [done|]. split; [|split; [|done]].
  - intros d Hd'. rewrite Hd' in Hi1. apply negb_false_iff, Z.eqb_eq in Hi1. done.
  - intros i Hi'. rewrite Hi' in Hi2. apply negb_false_iff, Z.eqb_eq in Hi2. done.
Qed.

Lemma check_source_mono self link s s' source m :
  extends s s' -> check_source self link s = Ok (source, m) ->
  check_source self link s' = Ok (source, m).
Proof.
  intros He. pose proof He as [_ Hmeta]. unfold check_source.
  intros H1. rewrite bind_Ok in H1 |- *. destruct H1 as (u & Hu & H1). exists u. split; [done|].
  rewrite bind_Ok in H1 |- *. destruct H1 as (? & ? & H1). eexists. split; [done|].
  rewrite bind_Ok in H1 |- *. destruct H1 as (root & Hroot%map_err_Ok & H1).
  exists root. split.
  { apply map_err_Ok. unfold open_absolute_directory in *. destruct (negb _); [done|].
    by eapply open_mono. }
  rewrite bind_Ok in H1 |- *. destruct H1 as (rm & Hrm%map_err_Ok & H1).
  destruct (Hmeta _ _ Hrm) as (rm' & Hrm' & (_ & _ & Hdir & _)).
  exists rm'. split; [by apply map_err_Ok|]. rewrite Hdir.
  rewrite bind_Ok in H1 |- *. destruct H1 as (? & ? & H1). eexists. split; [done|].
  rewrite bind_Ok in H1 |- *. destruct H1 as (src & Hsrc%map_err_Ok & H1).
  exists src. split; [apply map_err_Ok; by eapply open_mono|].
  rewrite bind_Ok in H1 |- *. destruct H1 as (m1 & Hm%map_err_Ok & H1).
  destruct (Hmeta _ _ Hm) as (m' & Hm' & Hsame).
  exists m1. assert (m' = m1) as ->; [|by split; [apply map_err_Ok|]].
  rewrite bind_Ok in H1. destruct H1 as (? & Hf%bail_if_Ok%negb_false_iff & _).
  by apply same_inode_file.
Qed.

(** ** What each step does to the file system *)

Lemma grows_refl root s : grows root s s.
Proof. reflexivity. Qed.

Lemma mkdir_grows root current name s :
  beneath s root current ->
  grows root s (mkdirat current name s).1 /\
  ((mkdirat current name s).2 = Ok () \/ (mkdirat current name s).2 = Err EXIST ->
   entry (mkdirat current name s).1 current name <> None).
Proof.
  intros Hb. destruct (mkdirat current name s) as [s' [[]|e]] eqn:Hm; cbn [fst snd].
  - apply mkdir_ok in Hm as (_ & Hs & He & Hd). split; [|done]. split; [done|].
    intros d n Hne. rewrite (Hd d n Hne). by eapply beneath_mono.
  - apply mkdir_err in Hm as [-> Hx]. split; [apply grows_refl|]. intros [?|[= ->]]; [done|auto].
Qed.

Lemma hoare_ensure_components root current relative :
  hoare (grows root) (fun s => beneath s root current) (ensure_components current relative)
    (fun d s => beneath s root d).
Proof.
  revert current. induction relative as [|c relative IH]; intros current; cbn [ensure_components].
  - intros s Hb. split; [apply grows_refl|exact Hb].
  - destruct c as [| | |name]; try (apply hoare_throw; apply _).
    intros s Hb. unfold mbind, M_bind, attempt.
    destruct (mkdir_grows root current name s Hb) as [Hg _].
    destruct (mkdirat current name s) as [s1 r]. cbn [fst snd liftr] in *.
    destruct (match r with Ok _ => _ | Err _ => _ end) as [[]|e]; cbn [fst snd]; [|done].
    unfold open_directory, reads.
    destruct (map_err OpenDirectory _) as [h|e] eqn:Ho; cbn [fst snd]; [|done].
    apply map_err_Ok in Ho.
    assert (beneath s1 root h) as Hb1.
    { eapply beneath_step; [|by right; eexists|exact Ho]. eapply beneath_mono; [apply Hg|done]. }
    destruct (IH h s1 Hb1) as [Hg2 Hq]. split; [by etransitivity|done].
Qed.

Lemma hoare_ensure_directory root base relative :
  hoare (grows root) (fun s => beneath s root base) (ensure_directory base relative)
    (fun d s => beneath s root d).
Proof.
  unfold ensure_directory. eapply hoare_bind; [apply _|apply hoare_liftr; apply _|].
  intros u. eapply hoare_bind; [apply _|apply hoare_reads; apply _|].
  intros d. eapply hoare_weaken; [apply _| | |apply hoare_ensure_components]; cbn; [|done].
  intros s [Ho%map_err_Ok [_ Hb]]. eapply beneath_step; [done|by left|exact Ho].
Qed.

Lemma check_existing_Ok par name m link s ml :
  check_existing par name m link s = Ok ml ->
  exists h m', entry s par name = Some h /\ metadata s h = Ok m' /\
    is_file m' = true /\ dev m' = dev m /\ ino m' = ino m /\ len m' = len m /\
    ml = {| ml_destination_relative := destination_relative link; device := dev m;
            inode := ino m; size := len m; existing := true |} /\
    openat2 s (Some par) [Normal name] PATH = Ok h.
Proof.
  unfold check_existing. rewrite bind_Ok. intros (h & Ho%map_err_Ok & H1).
  rewrite bind_Ok in H1. destruct H1 as (m' & Hm%map_err_Ok & H1).
  destruct (is_file m' && _ && _ && _) eqn:Hc; [|done]. injection H1 as <-.
  apply andb_true_iff in Hc as [Hc Hl%Z.eqb_eq]. apply andb_true_iff in Hc as [Hc Hi%Z.eqb_eq].
  apply andb_true_iff in Hc as [Hf Hd%Z.eqb_eq].
  exists h, m'. apply entry_open in Ho as He. done.
Qed.

(** The call of [linkat] and the two ways it ends well. *)
Lemma link_step self source m par name link s s' r ml :
  check_source self link s = Ok (source, m) ->
  beneath s (link_root self) par ->
  file_name (components (destination_relative link)) = Some name ->
  linkat source par name s = (s', r) ->
  grows (link_root self) s s' /\
  (match r with
   | Ok _ => ml = {| ml_destination_relative := destination_relative link; device := dev m;
                     inode := ino m; size := len m; existing := false |}
   | Err e => check_existing par name m link s' = Ok ml
   end -> materialized self link ml s').
Proof.
  intros Hc Hb Hn Hl.
  pose proof (check_source_facts _ _ _ _ _ Hc) as (Hf & _ & _ & _ & _ & Hm).
  destruct r as [[]|e].
  - apply link_ok in Hl as (_ & Hent & He & Hd). split.
    { split; [done|]. intros d n Hne. rewrite (Hd d n Hne). by eapply beneath_mono. }
    intros ->. destruct (proj2 He _ _ Hm) as (m' & Hm' & Hs).
    apply same_inode_file in Hs as ->; [|done].
    exists source, m, par, name, source, m. repeat split; try done.
    + by eapply check_source_mono.
    + by eapply beneath_mono.
  - apply link_err in Hl as ->. split; [apply grows_refl|].
    intros (h & m' & He & Hm' & Hf' & Hd & Hi & Hlen & -> & _)%check_existing_Ok.
    exists source, m, par, name, h, m'. done.
Qed.

Lemma hoare_materialize_one self namespace link :
  hoare (grows (link_root self)) (fun s => beneath s (link_root self) namespace)
    (materialize_one self namespace link) (materialized self link).
Proof.
  unfold materialize_one. eapply hoare_bind; [apply _|apply hoare_reads; apply _|].
  intros [source m]. eapply hoare_bind with (Q := fun par s =>
    check_source self link s = Ok (source, m) /\ beneath s (link_root self) par); [apply _| |].
  - intros s [Hc Hb].
    assert (hoare (grows (link_root self)) (fun s => beneath s (link_root self) namespace)
      (match parent (components (destination_relative link)) with
       | Some p => if bool_decide (p = []) then mret namespace else ensure_directory namespace p
       | None => mret namespace end) (fun d s => beneath s (link_root self) d)) as Hh.
    { assert (hoare (grows (link_root self)) (fun s => beneath s (link_root self) namespace)
        (mret namespace : IO handle) (fun d s => beneath s (link_root self) d)).
      { intros s0 Hb0. split; [apply grows_refl|exact Hb0]. }
      destruct (parent _) as [p|]; [|done]. destruct (bool_decide _); [done|].
      apply hoare_ensure_directory. }
    destruct (Hh s Hb) as [Hg Hq]. split; [done|]. destruct (_.2); [|done].
    split; [eapply check_source_mono; [apply Hg|done]|done].
  - intros par. eapply hoare_bind; [apply _|apply hoare_liftr; apply _|].
    intros name s [Hn%ok_or_Ok [Hc Hb]]. unfold mbind, M_bind, attempt.
    destruct (linkat source par name s) as [s1 r] eqn:Hl.
    destruct r as [[]|e].
    + edestruct (link_step self source m par name link s s1 (Ok ())) as [Hg Hq]; [done..|].
      split; [exact Hg|]. by apply Hq.
    + destruct (link_step self source m par name link s s1 (Err e)
        (mkMaterializedLink [] 0 0 0 false)) as [Hg _]; [done..|].
      destruct (decide (e = EXIST)); [|by split].
      split; [exact Hg|]. unfold reads. cbn [fst snd].
      destruct (check_existing par name m link s1) as [ml|] eqn:Hx; [|done].
      by eapply (link_step self source m par name link s s1 (Err e) ml).
Qed.

Lemma materialized_mono self link ml s s' :
  extends s s' -> materialized self link ml s -> materialized self link ml s'.
Proof.
  intros He (source & m & par & name & h & m' & Hc & Hb & Hn & Hent & Hm & Hf & H1).
  destruct (proj2 He _ _ Hm) as (m2 & Hm2 & Hs). apply same_inode_file in Hs as ->; [|done].
  exists source, m, par, name, h, m'.
  split; [by eapply check_source_mono|]. split; [by eapply beneath_mono|].
  split; [done|]. split; [by apply He|]. done.
Qed.

Lemma hoare_materialize self ns links :
  hoare (grows (link_root self)) (fun _ => True) (materialize self ns links)
    (fun mls s => Forall2 (fun link ml => materialized self link ml s) links mls).
Proof.
  unfold materialize. eapply hoare_bind with
    (Q := fun d s => beneath s (link_root self) d); [apply _| |].
  - eapply hoare_weaken; [apply _| | |apply hoare_ensure_directory]; cbn; [|done]. intros s _. constructor.
  - intros namespace. apply (hoare_collect _ _ _ (materialized self)).
    + intros s s' [He _] Hb. by eapply beneath_mono.
    + intros link ml s s' [He _]. by apply materialized_mono.
    + intros link. apply hoare_materialize_one.
Qed.

(** ** Replaying a run *)

(** [m] ended in [s'] with [a]; on any later file system it changes nothing and
    returns [b]. *)
Definition replays {A} (m : IO A) (s s' : fs) (b : A) : Prop :=
  extends s s' /\ forall s2, extends s' s2 -> m s2 = (s2, Ok b).

Lemma mkdir_replay current name s s1 r :
  mkdirat current name s = (s1, r) -> r = Ok () \/ r = Err EXIST ->
  extends s s1 /\ forall s2, extends s1 s2 -> mkdirat current name s2 = (s2, Err EXIST).
Proof.
  intros Hm Hr. assert (extends s s1 /\ entry s1 current name <> None) as [He Hs].
  { destruct r as [[]|e].
    - by apply mkdir_ok in Hm as (_ & ? & ? & _).
    - apply mkdir_err in Hm as [-> Hx]. split; [reflexivity|]. apply Hx.
      by destruct Hr as [|[= ->]]. }
  split; [done|]. intros s2 He2. apply mkdir_exist. by eapply entry_some_extends.
Qed.

Lemma ensure_components_replay current relative s s' d :
  ensure_components current relative s = (s', Ok d) ->
  replays (ensure_components current relative) s s' d.
Proof.
  revert current s. induction relative as [|c relative IH]; intros current s;
    cbn [ensure_components].
  - intros [= -> ->]. split; [reflexivity|done].
  - destruct c as [| | |name]; try done.
    rewrite M_bind_Ok. intros (s1 & r & Hr & H1). unfold attempt in Hr.
    destruct (mkdirat current name s) as [s1' r'] eqn:Hm. injection Hr as -> ->.
    rewrite M_bind_Ok in H1. destruct H1 as (s1' & [] & [= -> Hok] & H1).
    rewrite M_bind_Ok in H1. destruct H1 as (s2 & h & [= -> Ho%map_err_Ok] & H1).
    destruct (IH h s2 H1) as [He Hre].
    assert (r = Ok () \/ r = Err EXIST) as Hcase.
    { destruct r as [[]|e]; [by left|]. destruct (decide (e = EXIST)) as [->|]; [by right|done]. }
    destruct (mkdir_replay _ _ _ _ _ Hm Hcase) as [He1 Hm2].
    split; [by etransitivity|]. intros s3 He3.
    assert (extends s2 s3) by (by etransitivity).
    unfold mbind, M_bind, attempt. rewrite Hm2 by done. cbn [liftr].
    destruct (decide (EXIST = EXIST)); [|done].
    unfold open_directory, reads. rewrite (open_mono _ _ _ _ _ _ H2 Ho). cbn. by apply Hre.
Qed.

Lemma ensure_directory_replay root relative s s' d :
  ensure_directory root relative s = (s', Ok d) ->
  replays (ensure_directory root relative) s s' d.
Proof.
  unfold ensure_directory. rewrite M_bind_Ok. intros (s1 & [] & [= -> Hv] & H1).
  rewrite M_bind_Ok in H1. destruct H1 as (s2 & h & [= -> Ho%map_err_Ok] & H1).
  apply ensure_components_replay in H1 as [He Hre]. split; [done|]. intros s3 He3.
  unfold mbind, M_bind, liftr. rewrite Hv. unfold open_directory, reads.
  assert (extends s2 s3) as He23 by (by etransitivity).
  rewrite (open_mono _ _ _ _ _ _ He23 Ho). cbn. by apply Hre.
Qed.

Definition already (ml : MaterializedLink) : MaterializedLink :=
  {| ml_destination_relative := ml_destination_relative ml; device := device ml;
     inode := inode ml; size := size ml; existing := true |}.

Lemma link_replay self source m par name link s s1 r ml :
  check_source self link s = Ok (source, m) ->
  linkat source par name s = (s1, r) ->
  match r with
  | Ok _ => ml = {| ml_destination_relative := destination_relative link; device := dev m;
                    inode := ino m; size := len m; existing := false |}
  | Err e => e = EXIST /\ check_existing par name m link s1 = Ok ml
  end ->
  extends s s1 /\ forall s2, extends s1 s2 ->
    linkat source par name s2 = (s2, Err EXIST) /\
    check_existing par name m link s2 = Ok (already ml).
Proof.
  intros Hc Hl Hml.
  pose proof (check_source_facts _ _ _ _ _ Hc) as (Hf & _ & _ & _ & _ & Hm).
  assert (extends s s1 /\ exists h m', entry s1 par name = Some h /\ metadata s1 h = Ok m' /\
    is_file m' = true /\ dev m' = dev m /\ ino m' = ino m /\ len m' = len m /\
    already ml = {| ml_destination_relative := destination_relative link; device := dev m;
                    inode := ino m; size := len m; existing := true |})
    as (He & h & m' & Hent & Hm' & Hf' & Hd & Hi & Hlen & Hal).
  { destruct r as [[]|e].
    - apply link_ok in Hl as (_ & Hent & He & _). split; [done|].
      destruct (proj2 He _ _ Hm) as (m' & Hm' & Hs). apply same_inode_file in Hs as ->; [|done].
      exists source, m. subst ml. done.
    - apply link_err in Hl as ->. split; [reflexivity|]. destruct Hml as [_ Hx].
      apply check_existing_Ok in Hx as (h & m' & ? & ? & ? & ? & ? & ? & -> & _).
      exists h, m'. done. }
  split; [done|]. intros s2 He2. split.
  { apply link_exist. eapply entry_some_extends; [done|]. congruence. }
  destruct (proj2 He2 _ _ Hm') as (m2 & Hm2 & Hs). apply same_inode_file in Hs as ->; [|done].
  apply He2 in Hent. unfold check_existing. rewrite (open_entry _ _ _ _ _ Hent Hm2 Hf').
  cbn [map_err mbind result_bind]. rewrite Hm2. cbn [map_err mbind result_bind].
  by rewrite Hf', Hd, Hi, Hlen, !Z.eqb_refl, Hal.
Qed.

Lemma materialize_one_replay self namespace link s s' ml :
  materialize_one self namespace link s = (s', Ok ml) ->
  replays (materialize_one self namespace link) s s' (already ml).
Proof.
  unfold materialize_one. rewrite M_bind_Ok. intros (s1 & [source m] & [= -> Hc] & H1).
  rewrite M_bind_Ok in H1. destruct H1 as (s2 & par & Hpar & H1).
  rewrite M_bind_Ok in H1. destruct H1 as (s3 & name & [= -> Hn] & H1).
  assert (replays (match parent (components (destination_relative link)) with
       | Some p => if bool_decide (p = []) then mret namespace else ensure_directory namespace p
       | None => mret namespace end) s1 s3 par) as [He Hre].
  { assert (forall s' par, (mret namespace : IO handle) s1 = (s', Ok par) ->
      replays (mret namespace) s1 s' par) by (intros ? ? [= <- <-]; by split).
    destruct (parent _) as [p|]; [|by auto]. destruct (bool_decide _); [by auto|].
    by apply ensure_directory_replay. }
  rewrite M_bind_Ok in H1. destruct H1 as (s4 & r & Hr & H1). unfold attempt in Hr.
  destruct (linkat source par name s3) as [s4' r'] eqn:Hl. injection Hr as -> ->.
  assert (s' = s4 /\ match r with
    | Ok _ => ml = {| ml_destination_relative := destination_relative link; device := dev m;
                      inode := ino m; size := len m; existing := false |}
    | Err e => e = EXIST /\ check_existing par name m link s4 = Ok ml
    end) as [-> Hml].
  { destruct r as [[]|e]; [by injection H1 as <- <-|].
    destruct (decide (e = EXIST)); [|done]. injection H1 as <- H1. done. }
  destruct (link_replay self source m par name link s3 s4 r ml) as [He4 Hre4];
    [by eapply check_source_mono|done..|].
  split; [by etransitivity|]. intros s5 He5.
  destruct (Hre4 s5 He5) as [Hlink Hx].
  unfold mbind, M_bind, reads, liftr, attempt.
  rewrite (check_source_mono self link s1 s5 source m) by (done || by repeat (etransitivity; [eassumption|])).
  rewrite Hre by (by etransitivity). rewrite Hn, Hlink.
  destruct (decide (EXIST = EXIST)); [|done]. by rewrite Hx.
Qed.

Lemma collect_replay {A B} (f : A -> IO B) (g : B -> B) l s s' bs :
  (forall a s s' b, f a s = (s', Ok b) -> replays (f a) s s' (g b)) ->
  collectM f l s = (s', Ok bs) -> replays (collectM f l) s s' (map g bs).
Proof.
  intros Hf. revert s bs. induction l as [|x l IH]; intros s bs; cbn [collectM].
  - intros [= -> <-]. by split.
  - rewrite M_bind_Ok. intros (s1 & y & Hy & H1).
    rewrite M_bind_Ok in H1. destruct H1 as (s2 & ys & Hys & [= -> <-]).
    apply Hf in Hy as [He1 Hr1]. apply IH in Hys as [He2 Hr2].
    split; [by etransitivity|]. intros s3 He3. unfold mbind, M_bind.
    rewrite Hr1 by (by etransitivity). by rewrite Hr2.
Qed.

(** ** Properties *)

(** C37: materialising links never removes or replaces a directory entry or a
    file, and creates entries only in directories beneath the link root, whether
    it succeeds or stops at an error; when it succeeds, every planned link has a
    result, whose destination names a regular file with the device, inode and
    size that the source was checked to have. *)
Theorem materialize_never_overwrites (self : HardlinkMaterializer) (ns : str)
    (links : list PlannedLink) (s : fs) :
  let '(s', r) := materialize self ns links s in
  grows (link_root self) s s' /\
  match r with
  | Ok mls => Forall2 (fun link ml => materialized self link ml s' /\
                device ml = link_device self /\ size ml = expected_size link /\
                (forall i, expected_inode link = Some i -> inode ml = i)) links mls
  | Err _ => True
  end.
Proof.
  destruct (hoare_materialize self ns links s I) as [Hg Hq].
  destruct (materialize self ns links s) as [s' [mls|e]]; cbn in *; [|done].
  split; [done|]. eapply Forall2_impl; [exact Hq|]. intros link ml Hm. split; [done|].
  destruct Hm as (source & m & par & name & h & m' & Hc & _ & _ & _ & _ & _ & _ & _ & _ & _ & Hd & Hi & Hs).
  apply check_source_facts in Hc as (_ & Hl & Hdev & _ & Hino & _).
  split; [congruence|]. split; [congruence|]. intros i Hx. rewrite Hi. by rewrite (Hino i Hx).
Qed.

(** Materialisation is idempotent: repeating a successful call, then or after
    anything that only adds to the file system, succeeds, changes nothing and
    returns the same links, all marked as existing. *)
Theorem materialize_retry (self : HardlinkMaterializer) (ns : str) (links : list PlannedLink)
    (s s' s2 : fs) (mls : list MaterializedLink) :
  materialize self ns links s = (s', Ok mls) -> extends s' s2 ->
  materialize self ns links s2 = (s2, Ok (map already mls)).
Proof.
  unfold materialize. rewrite M_bind_Ok. intros (s1 & namespace & Hns & H1) He.
  apply ensure_directory_replay in Hns as [He1 Hr1].
  apply (collect_replay _ already) in H1 as [He2 Hr2]; [|intros; by apply materialize_one_replay].
  unfold mbind, M_bind. rewrite Hr1 by (by etransitivity). by apply Hr2.
Qed.
End Materialize.

(** ** An in-memory file system *)

Module MemFs.

Inductive node := Dir (entries : gmap str nat) | Reg (size : Z).
Inductive errno := EEXIST | EINVAL | ENOENT | ENOTDIR | EPERM.
#[export] Instance errno_eq_dec : EqDecision errno.
Proof. solve_decision. Defined.

Definition mem_entry (s : gmap nat node) (d : nat) (n : str) : option nat :=
  match s !! d with Some (Dir entries) => entries !! n | _ => None end.

Fixpoint walk (s : gmap nat node) (current : nat) (p : list Component) : option nat :=
  match p with
  | [] => Some current
  | CurDir :: p => walk s current p
  | Normal n :: p => next ← mem_entry s current n; walk s next p
  | _ :: _ => None
  end.

Definition mem_open (s : gmap nat node) (base : option nat) (p : list Component) (fl : OFlags)
  : result errno nat :=
  match match base, p with
        | Some d, _ => walk s d p
        | None, RootDir :: p => walk s 0%nat p
        | None, _ => None
        end with
  | None => Err ENOENT
  | Some h =>
      match s !! h, fl with
      | Some (Dir _), _ | Some (Reg _), PATH => Ok h
      | Some (Reg _), DIRECTORY => Err ENOTDIR
      | None, _ => Err ENOENT
      end
  end.

Definition mem_metadata (s : gmap nat node) (h : nat) : result errno Metadata :=
  match s !! h with
  | Some (Dir _) => Ok (mkMetadata 1 (Z.of_nat h) true false 0)
  | Some (Reg size) => Ok (mkMetadata 1 (Z.of_nat h) false true size)
  | None => Err ENOENT
  end.

Definition mem_mkdir (d : nat) (n : str) (s : gmap nat node) : gmap nat node * result errno () :=
  match s !! d with
  | Some (Dir entries) =>
      match entries !! n with
      | Some _ => (s, Err EEXIST)
      | None =>
          let k := fresh (dom s) in
          (<[k := Dir ∅]> (<[d := Dir (<[n := k]> entries)]> s), Ok ())
      end
  | _ => (s, Err ENOTDIR)
  end.

Definition mem_link (h d : nat) (n : str) (s : gmap nat node) : gmap nat node * result errno () :=
  match s !! d with
  | Some (Dir entries) =>
      match entries !! n, s !! h with
      | Some _, _ => (s, Err EEXIST)
      | None, Some (Reg _) => (<[d := Dir (<[n := h]> entries)]> s, Ok ())
      | None, _ => (s, Err EPERM)
      end
  | _ => (s, Err ENOTDIR)
  end.

#[export] Instance mem_fs : Filesystem := {|
  fs := gmap nat node; handle := nat; Errno := errno; IoError := errno;
  EXIST := EEXIST; INVAL := EINVAL; openat2 := mem_open; metadata := mem_metadata;
  mkdirat := mem_mkdir; linkat := mem_link; entry := mem_entry |}.

Lemma walk_mono (s s' : gmap nat node) d p h :
  (forall d n h, mem_entry s d n = Some h -> mem_entry s' d n = Some h) ->
  walk s d p = Some h -> walk s' d p = Some h.
Proof.
  intros He. revert d. induction p as [|[| | |n] p IH]; intros d; cbn [walk]; try done; [apply IH|].
  destruct (mem_entry s d n) as [next|] eqn:Hn; [|done]. rewrite (He _ _ _ Hn). apply IH.
Qed.

(** Adding one entry to a directory, for an inode that may be new. *)
Lemma add_entry_extends (s : gmap nat node) d entries n h :
  s !! d = Some (Dir entries) -> entries !! n = None ->
  extends s (<[d := Dir (<[n := h]> entries)]> s).
Proof.
  intros Hd Hn. split.
  - intros d' n' h'. cbn. unfold mem_entry. destruct (decide (d = d')) as [<-|Hne].
    + rewrite Hd, lookup_insert_eq. intros He. rewrite lookup_insert_ne; congruence.
    + by rewrite lookup_insert_ne.
  - intros h' m. cbn. unfold mem_metadata. destruct (decide (d = h')) as [<-|Hne].
    + rewrite Hd, lookup_insert_eq. intros [= <-]. eexists. split; [done|]. done.
    + rewrite lookup_insert_ne by done. intros Hm. exists m. split; [done|]. done.
Qed.

Lemma add_entry_local (s : gmap nat node) d entries n h d' n' :
  s !! d = Some (Dir entries) ->
  mem_entry (<[d := Dir (<[n := h]> entries)]> s) d' n' <> mem_entry s d' n' -> d' = d.
Proof.
  intros Hd. unfold mem_entry. destruct (decide (d = d')) as [<-|Hne]; [done|].
  by rewrite lookup_insert_ne.
Qed.

Lemma add_node_entry (s : gmap nat node) k d n :
  s !! k = None -> mem_entry (<[k := Dir ∅]> s) d n = mem_entry s d n.
Proof.
  intros Hk. unfold mem_entry. destruct (decide (k = d)) as [<-|Hne].
  - by rewrite lookup_insert_eq, Hk, lookup_empty.
  - by rewrite lookup_insert_ne.
Qed.

Lemma mem_open_mono (s s' : gmap nat node) d p fl h :
  extends s s' -> mem_open s d p fl = Ok h -> mem_open s' d p fl = Ok h.
Proof.
  intros [He Hm]. cbn in *. unfold mem_open.
  set (w := fun s : gmap nat node => match d, p with
    | Some d, _ => walk s d p | None, RootDir :: p => walk s 0%nat p | None, _ => None end).
  change (match w s with None => Err ENOENT | Some h0 =>
    match s !! h0, fl with Some (Dir _), _ | Some (Reg _), PATH => Ok h0
    | Some (Reg _), DIRECTORY => Err ENOTDIR | None, _ => Err ENOENT end end = Ok h ->
    match w s' with None => Err ENOENT | Some h0 =>
    match s' !! h0, fl with Some (Dir _), _ | Some (Reg _), PATH => Ok h0
    | Some (Reg _), DIRECTORY => Err ENOTDIR | None, _ => Err ENOENT end end = Ok h).
  destruct (w s) as [h0|] eqn:Hw; [|done].
  assert (w s' = Some h0) as ->.
  { unfold w in *. destruct d; [by eapply walk_mono|]. destruct p as [|[] p]; try done.
    by eapply walk_mono. }
  specialize (Hm h0). unfold mem_metadata in Hm.
  destruct (s !! h0) as [[es|sz]|]; [| |done].
  + destruct (Hm _ eq_refl) as (m' & Hm' & (_ & _ & Hdir & _)).
    destruct (s' !! h0) as [[]|]; [done| |done]. injection Hm' as <-. done.
  + destruct (Hm _ eq_refl) as (m' & Hm' & (_ & _ & Hdir & Hf & _)).
    destruct (s' !! h0) as [[]|]; [|done|done]. injection Hm' as <-. done.
Qed.

Lemma mem_open_entry s d n h m : mem_entry s d n = Some h -> mem_metadata s h = Ok m -> is_file m = true ->
  mem_open s (Some d) [Normal n] PATH = Ok h.
Proof.
  intros He Hm _. cbn in *. unfold mem_open. cbn [walk]. rewrite He. cbn.
  unfold mem_metadata in Hm. by destruct (s !! h) as [[]|].
Qed.

Lemma mem_entry_open s d n h : mem_open s (Some d) [Normal n] PATH = Ok h -> mem_entry s d n = Some h.
Proof.
  cbn. unfold mem_open. cbn [walk].
  destruct (mem_entry s d n) as [h'|]; [|done]. cbn.
  repeat case_match; congruence.
Qed.

Lemma mem_mkdir_ok (s s' : gmap nat node) d n : mem_mkdir d n s = (s', Ok ()) ->
  mem_entry s d n = None /\ mem_entry s' d n <> None /\ extends s s' /\
  (forall d' n', mem_entry s' d' n' <> mem_entry s d' n' -> d' = d).
Proof.
  cbn. unfold mem_mkdir. destruct (s !! d) as [[entries|]|] eqn:Hd; [|done..].
  destruct (entries !! n) eqn:Hn; [done|]. intros [= <-].
  set (k := fresh (dom s)). assert (s !! k = None) as Hk
    by (apply not_elem_of_dom, is_fresh).
  assert ((<[d := Dir (<[n := k]> entries)]> s) !! k = None) as Hk'.
  { rewrite lookup_insert_ne; [done|]. congruence. }
  split; [unfold mem_entry; by rewrite Hd|]. split; [|split].
  + rewrite add_node_entry by done. unfold mem_entry. by rewrite lookup_insert_eq, lookup_insert_eq.
  + destruct (add_entry_extends s d entries n k Hd Hn) as [He Hm]. split.
    * intros d' n' h' Hent. cbn. rewrite add_node_entry by done. by apply He.
    * intros h m Hmeta. destruct (Hm h m Hmeta) as (m' & Hm' & Hs).
      exists m'. split; [|done]. cbn in *. unfold mem_metadata in *.
      rewrite lookup_insert_ne; [done|]. intros <-. by rewrite Hk' in Hm'.
  + intros d' n'. rewrite add_node_entry by done. by apply add_entry_local.
Qed.

Lemma mem_mkdir_err (s s' : gmap nat node) d n e : mem_mkdir d n s = (s', Err e) ->
  s' = s /\ (e = EEXIST -> mem_entry s d n <> None).
Proof.
  cbn. unfold mem_mkdir, mem_entry.
  destruct (s !! d) as [[entries|]|]; [|by intros [= <- <-]..].
  destruct (entries !! n); [|done]. by intros [= <- <-].
Qed.

Lemma mem_mkdir_exist s d n : mem_entry s d n <> None -> mem_mkdir d n s = (s, Err EEXIST).
Proof.
  cbn. unfold mem_mkdir, mem_entry. destruct (s !! d) as [[entries|]|]; [|done..].
  by destruct (entries !! n).
Qed.

Lemma mem_link_ok (s s' : gmap nat node) h d n : mem_link h d n s = (s', Ok ()) ->
  mem_entry s d n = None /\ mem_entry s' d n = Some h /\ extends s s' /\
  (forall d' n', mem_entry s' d' n' <> mem_entry s d' n' -> d' = d).
Proof.
  cbn. unfold mem_link. destruct (s !! d) as [[entries|]|] eqn:Hd; [|done..].
  destruct (entries !! n) eqn:Hn; [done|]. destruct (s !! h) as [[|sz]|]; [done| |done].
  intros [= <-]. split; [unfold mem_entry; by rewrite Hd|]. split; [|split].
  + unfold mem_entry. by rewrite lookup_insert_eq, lookup_insert_eq.
  + by apply add_entry_extends.
  + intros d' n'. by apply add_entry_local.
Qed.

Lemma mem_link_err (s s' : gmap nat node) h d n e : mem_link h d n s = (s', Err e) -> s' = s.
Proof.
  cbn. unfold mem_link. destruct (s !! d) as [[entries|]|];
    [|by intros [= <- <-]..].
  destruct (entries !! n); [by intros [= <- <-]|].
  by destruct (s !! h) as [[]|]; intros [= <- <-].
Qed.

Lemma mem_link_exist s h d n : mem_entry s d n <> None -> mem_link h d n s = (s, Err EEXIST).
Proof.
  cbn. unfold mem_link, mem_entry. destruct (s !! d) as [[entries|]|]; [|done..].
  by destruct (entries !! n).
Qed.

#[export] Instance mem_fs_laws : FilesystemLaws.
Proof.
  split; [exact mem_open_mono|exact mem_open_entry|exact mem_entry_open|exact mem_mkdir_ok
         |exact mem_mkdir_err|exact mem_mkdir_exist|exact mem_link_ok|exact mem_link_err
         |exact mem_link_exist].
Qed.

(** [/src/a] (inode 2, 10 bytes) and the link root [/links]. *)
Definition disk : gmap nat node :=
  <[0%nat := Dir (<[lit "src" := 1%nat]> (<[lit "links" := 3%nat]> ∅))]>
  (<[1%nat := Dir (<[lit "a" := 2%nat]> ∅)]>
  (<[2%nat := Reg 10]> (<[3%nat := Dir ∅]> ∅))).

Definition plan : PlannedLink :=
  mkPlannedLink (lit "/src") (lit "a") (lit "release/a.mkv") 10 None (Some 2).

Definition materializer : HardlinkMaterializer := mkHardlinkMaterializer 3%nat 1.

Definition first_run : gmap nat node * result MaterializeError (list MaterializedLink) :=
  materialize materializer (lit "ns") [plan] disk.

Lemma materialize_retry_witness :
  first_run.2 = Ok [mkMaterializedLink (lit "release/a.mkv") 1 2 10 false] /\
  materialize materializer (lit "ns") [plan] first_run.1
  = (first_run.1, Ok [mkMaterializedLink (lit "release/a.mkv") 1 2 10 true]).
Proof.
  assert (first_run.2 = Ok [mkMaterializedLink (lit "release/a.mkv") 1 2 10 false]) as H
    by (vm_compute; reflexivity).
  split; [exact H|].
  exact (materialize_retry materializer (lit "ns") [plan] disk first_run.1 first_run.1
    [mkMaterializedLink (lit "release/a.mkv") 1 2 10 false]
    (f_equal (pair first_run.1) H) (@PreOrder_Reflexive fs extends extends_preorder first_run.1)).
Defined.

Lemma materialize_never_overwrites_witness :
  first_run.2 = Ok [mkMaterializedLink (lit "release/a.mkv") 1 2 10 false] /\
  grows 3%nat disk first_run.1.
Proof.
  split; [vm_compute; reflexivity|].
  pose proof (materialize_never_overwrites materializer (lit "ns") [plan] disk) as H.
  unfold first_run. destruct (materialize materializer (lit "ns") [plan] disk) as [s' r].
  exact (proj1 H).
Defined.
End MemFs.
