(* ===== verification/Paths.v ===== *)
(** Path mappings between services (config.rs, [Paths]): an external service names
    files by its own prefixes, and a rewrite maps the longest approved prefix to a
    local one. *)

From S2P Require Import Prelude Text Hardlink.
From stdpp Require Import strings.
Local Open Scope Z_scope.

(** ** Definitions *)

Record PathRewrite := mkPathRewrite {
  pw_name : str; remote : str; local : str; services : list str }.
Record Paths := mkPaths { p_link_root : str; rewrite : list PathRewrite }.

Inductive ConfigError := AbsolutePath | PathRewriteInvalid | AmbiguousPathRewrite.

(** [Path::strip_prefix], component by component *)
Fixpoint strip_prefix (prefix path : list Component) : option (list Component) :=
  match prefix, path with
  | [], _ => Some path
  | p :: prefix, c :: path => if decide (p = c) then strip_prefix prefix path else None
  | _ :: _, [] => None
  end.

(** [Path::join]: an absolute suffix replaces the base, and a leading [.] of the
    suffix vanishes behind a base. *)
Definition join (base suffix : list Component) : list Component :=
  if is_absolute suffix then suffix else
  match base with
  | [] => suffix
  | _ => base ++ filter (fun c => c <> CurDir) suffix
  end.

(** The text of a component, and of a path: canonical, without repeated
    separators; [components] reads it back. *)
Definition component_text (c : Component) : str :=
  match c with
  | RootDir => []
  | CurDir => lit "."
  | ParentDir => lit ".."
  | Normal name => name
  end.
Definition path_text (path : list Component) : str :=
  match path with
  | [RootDir] => lit "/"
  | _ => join_on 47 (map component_text path)
  end.

(** [max_by_key]: the last of the greatest. *)
Definition max_by_key {A} (l : list (nat * A)) : option (nat * A) :=
  foldl (fun best x => match best with
                       | Some b => if (x.1 <? b.1)%nat then Some b else Some x
                       | None => Some x
                       end) None l.

(** The iterator of [rewrite_path] before [max_by_key]. *)
Definition candidates (rewrites : list PathRewrite) (service : str) (path : list Component)
    (direction : PathRewrite -> str * str) : list (nat * list Component) :=
  omap (fun rewrite =>
          let '(from, to) := direction rewrite in
          suffix ← strip_prefix (components from) path;
          Some (length (components from), join (components to) suffix))
    (filter (fun rewrite => str_mem service (services rewrite) = true) rewrites).

Definition rewrite_path (rewrites : list PathRewrite) (service : str) (path : list Component)
    (direction : PathRewrite -> str * str) : option (list Component) :=
  snd <$> max_by_key (candidates rewrites service path direction).

Definition remote_to_local (self : Paths) (service : str) (path : list Component)
  : option (list Component) :=
  rewrite_path (rewrite self) service path (fun rewrite => (remote rewrite, local rewrite)).
Definition local_to_remote (self : Paths) (service : str) (path : list Component)
  : option (list Component) :=
  rewrite_path (rewrite self) service path (fun rewrite => (local rewrite, remote rewrite)).
Definition qbit_link_root (self : Paths) : option (list Component) :=
  local_to_remote self (lit "qbittorrent") (components (p_link_root self)).

(** Two prefixes of a pair are equal and share a service. *)
Definition ambiguous (a b : PathRewrite) : bool :=
  (bool_decide (components (local a) = components (local b))
   || bool_decide (components (remote a) = components (remote b)))
  && existsb (fun service => str_mem service (services b)) (services a).

Fixpoint any_ambiguous (rewrites : list PathRewrite) : bool :=
  match rewrites with
  | [] => false
  | first :: rest => existsb (ambiguous first) rest || any_ambiguous rest
  end.

Definition validate_paths (paths : Paths) : result ConfigError () :=
  _ ← bail_if (negb (is_absolute (components (p_link_root paths)))) AbsolutePath;
  _ ← bail_if (existsb (fun rewrite => bool_decide (pw_name rewrite = [])
                          || negb (is_absolute (components (remote rewrite)))
                          || negb (is_absolute (components (local rewrite)))) (rewrite paths))
        PathRewriteInvalid;
  bail_if (any_ambiguous (rewrite paths)) AmbiguousPathRewrite.

(** ** Lemmas *)

Lemma strip_prefix_Some prefix path suffix :
  strip_prefix prefix path = Some suffix <-> path = prefix ++ suffix.
Proof.
  revert path. induction prefix as [|p prefix IH]; intros path; cbn; [naive_solver|].
  destruct path as [|c path]; [done|]. case_decide as Hc; [rewrite IH; naive_solver|naive_solver].
Qed.

Section MaxByKey.
Context {A : Type}.
Implicit Types (l : list (nat * A)) (x y : nat * A).

Lemma max_by_key_snoc l x :
  max_by_key (l ++ [x]) = match max_by_key l with
                          | Some b => if (x.1 <? b.1)%nat then Some b else Some x
                          | None => Some x
                          end.
Proof. unfold max_by_key. by rewrite foldl_app. Qed.

Lemma max_by_key_Some l x :
  max_by_key l = Some x -> x ∈ l /\ forall y, y ∈ l -> (y.1 <= x.1)%nat.
Proof.
  revert x. induction l as [|z l IH] using rev_ind; intros x; [done|]. rewrite max_by_key_snoc.
  destruct (max_by_key l) as [b|] eqn:Hb.
  - destruct (IH b eq_refl) as [Hin Hmax]. destruct (Nat.ltb_spec z.1 b.1); intros [= <-].
    + split; [set_solver|]. intros y [Hy| ->%list_elem_of_singleton]%elem_of_app; [by apply Hmax|lia].
    + split; [set_solver|]. intros y [Hy| ->%list_elem_of_singleton]%elem_of_app; [|lia].
      specialize (Hmax y Hy). lia.
  - intros [= <-]. assert (l = []) as ->.
    { destruct l as [|y l] using rev_ind; [done|]. rewrite max_by_key_snoc in Hb.
      by destruct (max_by_key l); [destruct (_ <? _)%nat|]. }
    split; [left|]. intros y ->%list_elem_of_singleton. lia.
Qed.

Lemma max_by_key_None l : max_by_key l = None <-> l = [].
Proof.
  split; [|by intros ->]. destruct l as [|y l] using rev_ind; [done|]. rewrite max_by_key_snoc.
  by destruct (max_by_key l); [destruct (_ <? _)%nat|].
Qed.
End MaxByKey.

Lemma any_ambiguous_spec rewrites :
  any_ambiguous rewrites = false ->
  forall i j a b, rewrites !! i = Some a -> rewrites !! j = Some b -> i <> j ->
    ambiguous a b = false \/ ambiguous b a = false.
Proof.
  induction rewrites as [|r rewrites IH]; cbn; [done|].
  intros [Hr Hrest]%orb_false_iff i j a b Hi Hj Hne.
  assert (forall x, x ∈ rewrites -> ambiguous r x = false) as Hall.
  { intros x Hx. destruct (ambiguous r x) eqn:He; [|done].
    assert (existsb (ambiguous r) rewrites = true) by (apply existsb_exists; exists x;
      split; [by apply list_elem_of_In|done]). congruence. }
  destruct i as [|i], j as [|j]; cbn in Hi, Hj; [done| | |].
  - injection Hi as ->. left. apply Hall. by eapply list_elem_of_lookup_2.
  - injection Hj as ->. right. apply Hall. by eapply list_elem_of_lookup_2.
  - apply (IH Hrest i j); [done..|congruence].
Qed.

(** Prefixes of the same path with the same length are the same. *)
Lemma prefix_same_length {A} (a b x y : list A) : a ++ x = b ++ y -> length a = length b -> a = b.
Proof. intros Heq Hlen. by apply app_inj_1 in Heq as [? _]. Qed.

Definition serves (service : str) (r : PathRewrite) : Prop := service ∈ services r.

Lemma same_prefix_same_rewrite rewrites service path a b x y :
  any_ambiguous rewrites = false -> a ∈ rewrites -> b ∈ rewrites ->
  serves service a -> serves service b ->
  path = components (remote a) ++ x -> path = components (remote b) ++ y ->
  length (components (remote a)) = length (components (remote b)) -> a = b.
Proof.
  intros Hamb [i Hi]%list_elem_of_lookup_1 [j Hj]%list_elem_of_lookup_1 Ha Hb Hpa Hpb Hlen.
  destruct (decide (i = j)) as [->|Hne]; [congruence|].
  assert (components (remote a) = components (remote b)) as Heq.
  { eapply prefix_same_length; [|exact Hlen]. by rewrite <- Hpa, <- Hpb. }
  assert (forall u v, components (remote u) = components (remote v) -> serves service u ->
    serves service v -> ambiguous u v = true) as Htrue.
  { intros u v Huv Hu Hv. unfold ambiguous. rewrite (bool_decide_eq_true_2 _ Huv), orb_true_r. cbn.
    apply existsb_exists. exists service. split; [by apply list_elem_of_In|].
    by apply bool_decide_eq_true. }
  destruct (any_ambiguous_spec _ Hamb i j a b Hi Hj Hne) as [H|H];
    rewrite Htrue in H; done.
Qed.

(** What is applicable to a path. *)
Definition applies (service : str) (path : list Component) (r : PathRewrite) (suffix : list Component)
  : Prop := serves service r /\ path = components (remote r) ++ suffix.

Lemma rewrite_candidates_elem (rewrites : list PathRewrite) service path n l :
  (n, l) ∈ candidates rewrites service path (fun rewrite => (remote rewrite, local rewrite)) <->
  exists r suffix, r ∈ rewrites /\ applies service path r suffix /\
    n = length (components (remote r)) /\ l = join (components (local r)) suffix.
Proof.
  unfold candidates. rewrite list_elem_of_omap. split.
  - intros (r & [Hs Hr]%list_elem_of_filter & H). cbn in H.
    destruct (strip_prefix _ path) as [suffix|] eqn:Hp; [|done]. injection H as <- <-.
    apply strip_prefix_Some in Hp. apply bool_decide_eq_true in Hs. by exists r, suffix.
  - intros (r & suffix & Hr & [Hs Hp] & -> & ->). exists r. split.
    + apply list_elem_of_filter. split; [by apply bool_decide_eq_true|done].
    + cbv beta iota. by rewrite (proj2 (strip_prefix_Some _ _ _) Hp).
Qed.

(** With a validated configuration a remote path is mapped by the longest
    approved prefix of its service, which is unique: the result does not depend
    on the order of the rewrites, and a path without an approved prefix is not
    mapped at all. *)
Theorem rewrite_longest_prefix (paths : Paths) (service : str) (path l : list Component) :
  validate_paths paths = Ok () ->
  (remote_to_local paths service path = Some l <->
   exists r suffix, r ∈ rewrite paths /\ applies service path r suffix /\
     l = join (components (local r)) suffix /\
     forall r' suffix', r' ∈ rewrite paths -> applies service path r' suffix' ->
       r' = r \/ (length (components (remote r')) < length (components (remote r)))%nat) /\
  (remote_to_local paths service path = None <->
   forall r suffix, r ∈ rewrite paths -> ~ applies service path r suffix).
Proof.
  intros Hvalid. unfold validate_paths in Hvalid.
  apply bind_Ok in Hvalid as (_ & _ & Hvalid). apply bind_Ok in Hvalid as (_ & _ & Hamb).
  apply bail_if_Ok in Hamb. unfold remote_to_local, rewrite_path.
  set (found := candidates _ _ _ _). split.
  - destruct (max_by_key found) as [[n l0]|] eqn:Hmax; cbn [fmap option_fmap option_map snd].
    + apply max_by_key_Some in Hmax as [Hin Hle].
      apply rewrite_candidates_elem in Hin as (r & suffix & Hr & Hap & -> & ->).
      assert (forall r' suffix', r' ∈ rewrite paths -> applies service path r' suffix' ->
        r' = r \/ (length (components (remote r')) < length (components (remote r)))%nat) as Huniq.
      { intros r' suffix' Hr' Hap'.
        pose proof (Hle (length (components (remote r')), join (components (local r')) suffix')
          (proj2 (rewrite_candidates_elem _ _ _ _ _)
            (ex_intro _ r' (ex_intro _ suffix' (conj Hr' (conj Hap' (conj eq_refl eq_refl))))))) as Hle'.
        cbn [fst] in Hle'. destruct (decide (length (components (remote r')) = length (components (remote r))))
          as [Hlen|]; [left|right; lia].
        destruct Hap as [Hs Hp], Hap' as [Hs' Hp'].
        exact (same_prefix_same_rewrite _ _ _ _ _ _ _ Hamb Hr' Hr Hs' Hs Hp' Hp Hlen). }
      split.
      * intros [= <-]. by exists r, suffix.
      * intros (r2 & suffix2 & Hr2 & Hap2 & -> & Huniq2). f_equal.
        destruct (Huniq r2 suffix2 Hr2 Hap2) as [->|Hlt].
        -- destruct Hap as [_ Hp], Hap2 as [_ Hp2]. rewrite Hp in Hp2. by apply app_inv_head in Hp2 as ->.
        -- destruct (Huniq2 r suffix Hr Hap) as [Heq|Hlt2]; [|lia]. rewrite Heq in Hlt. lia.
    + split; [done|]. intros (r & suffix & Hr & Hap & _). apply max_by_key_None in Hmax.
      assert ((length (components (remote r)), join (components (local r)) suffix) ∈ found) as Hin
        by (apply rewrite_candidates_elem; by exists r, suffix).
      rewrite Hmax in Hin. by apply elem_of_nil in Hin.
  - destruct (max_by_key found) as [[n l0]|] eqn:Hmax; cbn [fmap option_fmap option_map snd].
    + split; [done|]. intros Hno. apply max_by_key_Some in Hmax as [Hin _].
      apply rewrite_candidates_elem in Hin as (r & suffix & Hr & Hap & _). by destruct (Hno r suffix Hr).
    + split; [|done]. intros _ r suffix Hr Hap. apply max_by_key_None in Hmax.
      assert ((length (components (remote r)), join (components (local r)) suffix) ∈ found) as Hin
        by (apply rewrite_candidates_elem; by exists r, suffix).
      rewrite Hmax in Hin. by apply elem_of_nil in Hin.
Qed.

(** ** Examples *)

Definition sample_paths : Paths :=
  mkPaths (lit "/media/links")
    [mkPathRewrite (lit "downloads") (lit "/downloads") (lit "/media/downloads") [lit "qbittorrent"];
     mkPathRewrite (lit "links") (lit "/downloads/sporos") (lit "/media/links") [lit "qbittorrent"]].

Example rewrite_longest :
  path_text <$> remote_to_local sample_paths (lit "qbittorrent") (components (lit "/downloads/sporos//a/./b"))
  = Some (lit "/media/links/a/b").
Proof. vm_compute. reflexivity. Qed.

Lemma rewrite_longest_prefix_witness :
  validate_paths sample_paths = Ok () /\
  forall r suffix, r ∈ rewrite sample_paths -> ~ applies (lit "sonarr") (components (lit "/downloads/a")) r suffix.
Proof.
  split; [vm_compute; reflexivity|].
  exact (proj1 (proj2 (rewrite_longest_prefix sample_paths (lit "sonarr") (components (lit "/downloads/a")) []
    ltac:(vm_compute; reflexivity))) ltac:(vm_compute; reflexivity)).
Defined.

(** A remote path with [..] keeps it: with an approved prefix it is still mapped
    to a path outside the approved local directory. *)
Lemma rewrite_keeps_parent :
  validate_paths sample_paths = Ok () /\
  remote_to_local sample_paths (lit "qbittorrent") (components (lit "/downloads/../secret"))
  = Some [RootDir; Normal (lit "media"); Normal (lit "downloads"); ParentDir; Normal (lit "secret")].
Proof. split; vm_compute; reflexivity. Qed.
