(* ===== verification/Pieces.v ===== *)
(** Piece inspection before a resume (injection.rs, [inspect_pieces] and
    [resume_allowed]; inventory.rs, the piece-state visitor; config.rs, the resume
    policy).

    After a recheck the program reads the state of every piece and decides
    whether the torrent may be started.  It may never be when a piece that
    touches a hardlinked file did not verify: the client would download over a
    file that the source torrent still uses. *)

From S2P Require Import Prelude Model.
From stdpp Require Import sorting.
Local Open Scope Z_scope.

(** ** Definitions *)

Definition MAX_PIECES : Z := 20000000.

Record PieceInspection := mkPieceInspection {
  integrity_safe : bool; missing_bytes : Z; present_ratio_ppm : Z }.

Inductive InventoryParseError := LimitExceeded | Json.

Inductive PieceError :=
| MissingPieceLength
| TorrentSizeOverflow
| PieceCount
| Pieces (e : InventoryParseError).

(** What the JSON reader yields: the [u8] elements before its end, and how it
    ended (a malformed element or tail, or the byte limit). *)
Record PieceReader := mkReader { elements : list Z; ending : result InventoryParseError () }.

(** [PieceStateVisitor::visit_seq] with a closure that never fails. *)
Fixpoint visit_seq {S} (limit : Z) (emit : S -> Z -> S) (sequence : list Z) (count : Z) (s : S)
  : result InventoryParseError (Z * S) :=
  match sequence with
  | [] => Ok (count, s)
  | state :: sequence =>
      if count =? limit then Err Json else
      if 2 <? state then Err Json else
      visit_seq limit emit sequence (count + 1) (emit s state)
  end.

Definition parse_piece_states {S} (reader : PieceReader) (piece_limit : Z) (emit : S -> Z -> S) (s : S)
  : result InventoryParseError (Z * S) :=
  '(count, s) ← visit_seq piece_limit emit (elements reader) 0 s;
  _ ← ending reader;
  Ok (count, s).

Section Layout.
Context (mapped_ordinals : gset Z).

(** The loop over the files of a manifest without a stored piece layout. *)
Definition legacy_step (v2_only : bool) (piece_length : Z) (acc : list (Z * Z) * Z) (file : TorrentFile)
  : result PieceError (list (Z * Z) * Z) :=
  let '(intervals, offset) := acc in
  let offset := if v2_only then saturating_mul_u64 (div_ceil offset piece_length) piece_length
                else offset in
  end_ ← ok_or (checked_add_u64 offset (tf_size file)) TorrentSizeOverflow;
  Ok (if bool_decide (tf_ordinal file ∈ mapped_ordinals) && (0 <? tf_size file)
      then intervals ++ [(offset, end_)] else intervals, end_).

(** The loop over the stored piece layout. *)
Definition layout_step (acc : list (Z * Z) * Z) (file : TorrentPieceFile)
  : result PieceError (list (Z * Z) * Z) :=
  let '(intervals, total) := acc in
  end_ ← ok_or (checked_add_u64 (tpf_offset file) (tpf_size file)) TorrentSizeOverflow;
  Ok (if match tpf_file_ordinal file with
         | Some ordinal => bool_decide (ordinal ∈ mapped_ordinals)
         | None => false
         end && (0 <? tpf_size file)
      then intervals ++ [(tpf_offset file, end_)] else intervals, Z.max total end_).

Definition intervals_of (manifest : TorrentManifest) (piece_length : Z)
  : result PieceError (list (Z * Z) * Z) :=
  match tm_piece_files manifest with
  | [] =>
      let v2_only := bool_decide (ih_v1 (tm_hashes manifest) = None)
                     && bool_decide (is_Some (ih_v2 (tm_hashes manifest))) in
      try_fold (legacy_step v2_only piece_length) (tm_files manifest) ([], 0)
  | piece_files => try_fold layout_step piece_files ([], 0)
  end.
End Layout.

(** The variables of the closure. *)
Record Cursor := mkCursor { index : Z; interval : nat; safe : bool; present : Z }.

(** [while intervals.get(interval).is_some_and(|(_, end)| end <= start)] *)
Fixpoint skip_before (start : Z) (rest : list (Z * Z)) (interval : nat) : nat :=
  match rest with
  | (_, end_) :: rest => if end_ <=? start then skip_before start rest (S interval) else interval
  | [] => interval
  end.

Section Inspect.
Context (intervals : list (Z * Z)) (piece_length total : Z).

Definition emit_piece (c : Cursor) (state : Z) : Cursor :=
  let start := saturating_mul_u64 (index c) piece_length in
  let end_ := Z.min (saturating_add_u64 start piece_length) total in
  let interval := skip_before start (drop (interval c) intervals) (interval c) in
  if state =? 2 then
    mkCursor (index c + 1) interval (safe c)
      (saturating_add_u64 (present c) (saturating_sub_u end_ start))
  else
    let touched := match intervals !! interval with
                   | Some (mapped_start, mapped_end) => (mapped_start <? end_) && (start <? mapped_end)
                   | None => false
                   end in
    mkCursor (index c + 1) interval (if touched then false else safe c) (present c).
End Inspect.

Definition inspect_pieces (manifest : TorrentManifest) (mapped_ordinals : gset Z) (reader : PieceReader)
  : result PieceError PieceInspection :=
  piece_length ← ok_or (tm_piece_length manifest) MissingPieceLength;
  _ ← bail_if (piece_length =? 0) MissingPieceLength;
  '(intervals, total) ← intervals_of mapped_ordinals manifest piece_length;
  let expected := div_ceil total piece_length in
  '(count, c) ← map_err Pieces (parse_piece_states reader MAX_PIECES
                   (emit_piece intervals piece_length total) (mkCursor 0 0 true 0));
  _ ← bail_if (negb (count =? expected)) PieceCount;
  Ok {| integrity_safe := safe c;
        missing_bytes := saturating_sub_u total (present c);
        present_ratio_ppm :=
          if total =? 0 then 0
          else default 1000000 (u32_try_from (present c * 1000000 / total)) |}.

(** *** The resume policy *)

Inductive ThresholdCombination := And | Or.
Inductive ResumePolicy :=
| Never
| CompleteOnly
| Threshold (max_missing_bytes min_present_ratio_ppm : option Z) (combine : ThresholdCombination)
| Always.

Definition resume_allowed (policy : ResumePolicy) (amount_left : Z) (pieces : PieceInspection) : bool :=
  match policy with
  | Never => false
  | CompleteOnly => (amount_left =? 0) && (missing_bytes pieces =? 0)
  | Always => true
  | Threshold max_missing_bytes min_present_ratio_ppm combine =>
      let checks :=
        match max_missing_bytes with
        | Some maximum => [missing_bytes pieces <=? maximum] | None => [] end ++
        match min_present_ratio_ppm with
        | Some minimum => [minimum <=? present_ratio_ppm pieces] | None => [] end in
      match combine with
      | And => forallb (fun check => check) checks
      | Or => existsb (fun check => check) checks
      end
  end.

(** ** Specification *)

(** The bytes of piece [i] are [i * piece_length ... piece_end i]. *)
Definition piece_end (piece_length total i : Z) : Z := Z.min ((i + 1) * piece_length) total.
Definition piece_bytes (piece_length total i : Z) : Z := piece_end piece_length total i - i * piece_length.

(** The byte ranges that a manifest lays its files out in: as stored, or, for
    manifests without a stored layout, one file after another, from a piece
    boundary each when the torrent is v2 only. *)
Fixpoint legacy_ranges (aligned : bool) (piece_length offset : Z) (files : list TorrentFile)
  : list (option Z * Z * Z) :=
  match files with
  | [] => []
  | file :: files =>
      let start := if aligned then div_ceil offset piece_length * piece_length else offset in
      (Some (tf_ordinal file), start, start + tf_size file)
        :: legacy_ranges aligned piece_length (start + tf_size file) files
  end.

Definition v2_only (manifest : TorrentManifest) : bool :=
  bool_decide (ih_v1 (tm_hashes manifest) = None) && bool_decide (is_Some (ih_v2 (tm_hashes manifest))).

Definition ranges (manifest : TorrentManifest) (piece_length : Z) : list (option Z * Z * Z) :=
  match tm_piece_files manifest with
  | [] => legacy_ranges (v2_only manifest) piece_length 0 (tm_files manifest)
  | piece_files => map (fun f => (tpf_file_ordinal f, tpf_offset f, tpf_offset f + tpf_size f)) piece_files
  end.

Definition stream_length (rs : list (option Z * Z * Z)) : Z := foldr Z.max 0 (map snd rs).

(** [a, b) is the range of a mapped file that is not empty. *)
Definition mapped_range (mapped_ordinals : gset Z) (rs : list (option Z * Z * Z)) (a b : Z) : Prop :=
  exists ordinal, (Some ordinal, a, b) ∈ rs /\ ordinal ∈ mapped_ordinals /\ a < b.

(** Sizes and offsets are [u64]s and a stored layout is in stream order. *)
Record manifest_ok (manifest : TorrentManifest) : Prop := {
  mo_files : Forall (fun f => is_u64 (tf_size f)) (tm_files manifest);
  mo_piece_files : Forall (fun f => is_u64 (tpf_offset f) /\ is_u64 (tpf_size f)) (tm_piece_files manifest);
  mo_sorted : StronglySorted (fun f g => tpf_offset f <= tpf_offset g) (tm_piece_files manifest) }.

(** A piece that did not verify touches a mapped byte range. *)
Definition unsafe_piece (states : list Z) (piece_length total a b : Z) : Prop :=
  exists i state, states !! i = Some state /\ state <> 2 /\
    a < piece_end piece_length total (Z.of_nat i) /\ Z.of_nat i * piece_length < b.

(** The bytes of the pieces whose state satisfies [f]. *)
Definition bytes_where (f : Z -> bool) (states : list Z) (piece_length total : Z) : Z :=
  sum_Z (map (fun p : nat * Z => if f p.2 then piece_bytes piece_length total (Z.of_nat p.1) else 0)
           (zip (seq 0 (length states)) states)).

(** ** Lemmas *)

(** *** The closure over the pieces *)

Lemma sorted_lookup {A} (R : relation A) l i j x y :
  StronglySorted R l -> l !! i = Some x -> l !! j = Some y -> (i < j)%nat -> R x y.
Proof.
  intros Hs. revert i j. induction Hs as [|z l Hl IH Hz]; intros i j; [done|].
  destruct i as [|i], j as [|j]; intros Hi Hj Hlt; try lia; cbn in Hi, Hj.
  - injection Hi as ->. rewrite Forall_forall in Hz. by apply Hz, (list_elem_of_lookup_2 _ j).
  - apply (IH i j); [done|done|lia].
Qed.

Lemma visit_seq_Ok {S} limit (emit : S -> Z -> S) sequence count s n s' :
  visit_seq limit emit sequence count s = Ok (n, s') ->
  n = count + Z.of_nat (length sequence) /\ s' = foldl emit s sequence /\
  Forall (fun state => state <= 2) sequence.
Proof.
  revert count s. induction sequence as [|x l IH]; intros count s; cbn [visit_seq].
  - intros [= <- <-]. split; [cbn; lia|]. split; [done|constructor].
  - destruct (Z.eqb_spec count limit); [done|]. destruct (Z.ltb_spec 2 x); [done|].
    intros (-> & -> & Hf)%IH. cbn [length foldl]. split; [lia|]. split; [done|by constructor].
Qed.

Lemma visit_seq_Err {S} limit (emit : S -> Z -> S) sequence count s e :
  visit_seq limit emit sequence count s = Err e -> count <= limit ->
  e = Json /\ (limit < count + Z.of_nat (length sequence) \/ Exists (fun state => 2 < state) sequence).
Proof.
  revert count s. induction sequence as [|x l IH]; intros count s; cbn [visit_seq]; [done|].
  destruct (Z.eqb_spec count limit).
  { intros [= <-] _. cbn [length]. split; [done|]. left. lia. }
  destruct (Z.ltb_spec 2 x) as [Hx|Hx]; [intros [= <-] _; split; [done|]; right; by left|].
  intros Hv Hle. destruct (IH _ _ Hv) as [-> [H|H]]; [lia| |]; (split; [done|]); cbn [length];
    [left; lia|right; by right].
Qed.

Lemma skip_before_spec start (l : list (Z * Z)) k :
  let k' := skip_before start (drop k l) k in
  (k <= k')%nat /\
  (forall j a b, (k <= j < k')%nat -> l !! j = Some (a, b) -> b <= start) /\
  (forall a b, l !! k' = Some (a, b) -> start < b).
Proof.
  remember (drop k l) as rest eqn:Hrest. revert k Hrest.
  induction rest as [|[a b] rest IH]; intros k Hrest; cbn [skip_before].
  - split; [lia|]. split; [lia|]. intros a b Hk. apply lookup_lt_Some in Hk.
    apply (f_equal length) in Hrest. rewrite length_drop in Hrest. cbn in Hrest. lia.
  - assert (l !! k = Some (a, b)) as Hk.
    { rewrite <- (Nat.add_0_r k), <- lookup_drop, <- Hrest. done. }
    destruct (Z.leb_spec b start).
    + destruct (IH (S k)) as (H1 & H2 & H3).
      { rewrite <- Nat.add_1_r, <- drop_drop, <- Hrest. done. }
      split; [lia|]. split; [|done]. intros j a' b' Hj Hl.
      destruct (decide (j = k)) as [->|]; [rewrite Hk in Hl; by injection Hl as <- <-|].
      apply (H2 j a' b'); [lia|done].
    + split; [lia|]. split; [lia|]. intros a' b' Hl. rewrite Hk in Hl. injection Hl as <- <-. lia.
Qed.

Lemma bytes_where_snoc f states x pl total :
  bytes_where f (states ++ [x]) pl total
  = bytes_where f states pl total
    + (if f x then piece_bytes pl total (Z.of_nat (length states)) else 0).
Proof.
  unfold bytes_where. rewrite length_app, seq_app. cbn [length seq].
  rewrite zip_with_app by (by rewrite length_seq). rewrite map_app, sum_Z_app. cbn [zip_with map].
  rewrite sum_Z_cons, sum_Z_nil. cbn [fst snd]. rewrite Nat.add_0_l. lia.
Qed.

Lemma unsafe_piece_snoc states x pl total a b :
  unsafe_piece (states ++ [x]) pl total a b <->
  unsafe_piece states pl total a b \/
  (x <> 2 /\ a < piece_end pl total (Z.of_nat (length states)) /\ Z.of_nat (length states) * pl < b).
Proof.
  unfold unsafe_piece. split.
  - intros (i & st & [Hi|[Hle Hi]]%lookup_app_Some & Hst & Hab); [left; eauto|].
    apply list_lookup_singleton_Some in Hi as [Hz <-]. right.
    replace i with (length states) in Hab by lia. done.
  - intros [(i & st & Hi & Hst)|(Hst & Hab)].
    + exists i, st. split; [by apply lookup_app_l_Some|done].
    + exists (length states), x. split; [by apply list_lookup_middle|done].
Qed.

Section Scan.
Context (ivs : list (Z * Z)) (pl total : Z).
Context (Hpl : 0 < pl) (Htotal : 0 <= total <= u64_max).
Context (Hsorted : StronglySorted (fun x y => x.1 <= y.1) ivs).

Record scanned (states : list Z) (c : Cursor) : Prop := {
  sc_index : index c = Z.of_nat (length states);
  sc_present : present c = bytes_where (fun x => x =? 2) states pl total;
  sc_bound : 0 <= present c <= Z.min (Z.of_nat (length states) * pl) total;
  sc_skip : forall j a b, (j < interval c)%nat -> ivs !! j = Some (a, b) ->
              b <= Z.of_nat (length states) * pl;
  sc_safe : safe c = true <-> forall a b, (a, b) ∈ ivs -> ~ unsafe_piece states pl total a b }.

(** The one interval looked at decides for all of them. *)
Lemma touched_spec k start end_ :
  (forall j a b, (j < k)%nat -> ivs !! j = Some (a, b) -> b <= start) ->
  (forall a b, ivs !! k = Some (a, b) -> start < b) ->
  (match ivs !! k with
   | Some (a, b) => (a <? end_) && (start <? b)
   | None => false
   end = true <-> exists a b, (a, b) ∈ ivs /\ a < end_ /\ start < b).
Proof using Hsorted.
  intros Hbefore Hat. split.
  - destruct (ivs !! k) as [[a b]|] eqn:Hk; [|done]. intros [Ha Hb]%andb_true_iff.
    exists a, b. split; [by eapply list_elem_of_lookup_2|]. lia.
  - intros (a & b & Hin & Ha & Hb). apply list_elem_of_lookup_1 in Hin as [j Hj].
    destruct (decide (j < k)%nat) as [Hlt|Hge]; [specialize (Hbefore j a b Hlt Hj); lia|].
    destruct (ivs !! k) as [[a' b']|] eqn:Hk.
    2: { apply lookup_ge_None in Hk. apply lookup_lt_Some in Hj. lia. }
    specialize (Hat a' b' eq_refl). apply andb_true_iff.
    destruct (decide (j = k)) as [->|Hne]; [rewrite Hk in Hj; injection Hj as -> ->; lia|].
    assert (a' <= a); [|lia].
    apply (sorted_lookup (fun x y : Z * Z => x.1 <= y.1) ivs k j (a', b') (a, b)); [done..|lia].
Qed.

Lemma scan_step states x c :
  scanned states c -> Z.of_nat (length states) * pl < total ->
  scanned (states ++ [x]) (emit_piece ivs pl total c x).
Proof using All.
  intros [Hi Hp Hb Hsk Hsafe] Hlt. set (n := Z.of_nat (length states)) in *.
  unfold emit_piece. rewrite Hi.
  assert (saturating_mul_u64 n pl = n * pl) as ->.
  { unfold saturating_mul_u64. rewrite Z.min_l; [done|]. lia. }
  assert (Z.min (saturating_add_u64 (n * pl) pl) total = piece_end pl total n) as ->.
  { unfold saturating_add_u64, piece_end. lia. }
  assert (saturating_sub_u (piece_end pl total n) (n * pl) = piece_bytes pl total n) as Hbytes.
  { unfold saturating_sub_u, piece_bytes, piece_end. lia. }
  destruct (skip_before_spec (n * pl) ivs (interval c)) as (Hk1 & Hk2 & Hk3).
  set (k := skip_before _ _ _) in *.
  assert (forall j a b, (j < k)%nat -> ivs !! j = Some (a, b) -> b <= n * pl) as Hbefore.
  { intros j a b Hj Hl. destruct (decide (j < interval c)%nat); [by apply (Hsk j a b)|].
    apply (Hk2 j a b); [lia|done]. }
  pose proof (touched_spec k (n * pl) (piece_end pl total n) Hbefore Hk3) as Htouch.
  assert (Z.of_nat (length (states ++ [x])) = n + 1) as Hlen by (rewrite length_app; cbn; lia).
  assert (0 <= piece_bytes pl total n /\
    Z.min (n * pl) total + piece_bytes pl total n <= Z.min ((n + 1) * pl) total) as [Hpb1 Hpb2]
    by (unfold piece_bytes, piece_end; lia).
  destruct (Z.eqb_spec x 2) as [->|Hx].
  - split; cbn [index interval safe present]; rewrite ?Hlen.
    + lia.
    + rewrite bytes_where_snoc, Z.eqb_refl, <- Hp. unfold saturating_add_u64. fold n.
      rewrite Hbytes. lia.
    + unfold saturating_add_u64. rewrite Hbytes. lia.
    + intros j a b Hj Hl. specialize (Hbefore j a b Hj Hl). lia.
    + rewrite Hsafe. split; intros Hno a b Hin; specialize (Hno a b Hin); rewrite unsafe_piece_snoc in *;
        naive_solver.
  - split; cbn [index interval safe present]; rewrite ?Hlen.
    + lia.
    + rewrite bytes_where_snoc, (proj2 (Z.eqb_neq x 2) Hx), <- Hp. lia.
    + lia.
    + intros j a b Hj Hl. specialize (Hbefore j a b Hj Hl). lia.
    + destruct (match ivs !! k with Some _ => _ | None => _ end) eqn:Ht.
      * split; [done|]. intros Hno. destruct (proj1 Htouch eq_refl) as (a & b & Hin & Ha & Hb').
        destruct (Hno a b Hin). apply unsafe_piece_snoc. right. done.
      * rewrite Hsafe. split; intros Hno a b Hin; specialize (Hno a b Hin); rewrite unsafe_piece_snoc in *;
          [|naive_solver].
        intros [Hu|(_ & Ha & Hb')]; [done|]. enough (false = true) by done. apply Htouch. eauto.
Qed.

Lemma scan_all states :
  Z.of_nat (length states) <= div_ceil total pl ->
  scanned states (foldl (emit_piece ivs pl total) (mkCursor 0 0 true 0) states).
Proof using All.
  induction states as [|x states IH] using rev_ind; intros Hlen.
  - split; cbn; try done; try lia. split; [|done]. intros _ a b _ (i & st & Hi & _).
    by rewrite lookup_nil in Hi.
  - rewrite foldl_app. cbn [foldl]. rewrite length_app in Hlen. cbn [length] in Hlen.
    apply scan_step; [apply IH; lia|]. unfold div_ceil in Hlen.
    pose proof (Z.mul_div_le (total + pl - 1) pl Hpl). nia.
Qed.

(** All pieces together make up the stream. *)
Lemma bytes_total f states :
  Z.of_nat (length states) <= div_ceil total pl ->
  bytes_where f states pl total + bytes_where (fun x => negb (f x)) states pl total
  = Z.min (Z.of_nat (length states) * pl) total.
Proof using Hpl Htotal.
  induction states as [|x states IH] using rev_ind; intros Hlen; [cbn; lia|].
  rewrite !bytes_where_snoc. rewrite length_app in *. cbn [length] in *.
  assert (Z.of_nat (length states) * pl < total).
  { unfold div_ceil in Hlen. pose proof (Z.mul_div_le (total + pl - 1) pl Hpl). nia. }
  specialize (IH ltac:(lia)). replace (Z.of_nat (length states + 1)) with (Z.of_nat (length states) + 1) by lia.
  assert (Z.min (Z.of_nat (length states) * pl) total + piece_bytes pl total (Z.of_nat (length states))
    = Z.min ((Z.of_nat (length states) + 1) * pl) total) by (unfold piece_bytes, piece_end; lia).
  destruct (f x); cbn [negb]; lia.
Qed.
End Scan.

(** *** The layout *)

Section LayoutLemmas.
Context (mapped_ordinals : gset Z) (pl : Z) (Hpl : 0 < pl).

Definition is_mapped (ordinal : option Z) : bool :=
  match ordinal with Some ordinal => bool_decide (ordinal ∈ mapped_ordinals) | None => false end.

Definition mapped_of (rs : list (option Z * Z * Z)) : list (Z * Z) :=
  omap (fun '(ordinal, a, b) => if is_mapped ordinal && (a <? b) then Some (a, b) else None) rs.

Lemma mapped_of_elem rs a b : (a, b) ∈ mapped_of rs <-> mapped_range mapped_ordinals rs a b.
Proof using.
  unfold mapped_of, mapped_range. rewrite list_elem_of_omap. split.
  - intros ([[o a'] b'] & Hin & H). destruct (is_mapped o && (a' <? b')) eqn:Ht; [|done].
    injection H as -> ->. apply andb_true_iff in Ht as [Ho Hlt%Z.ltb_lt].
    destruct o as [o|]; [|done]. exists o. apply bool_decide_eq_true in Ho. done.
  - intros (o & Hin & Ho & Hlt). exists (Some o, a, b). split; [done|]. cbn.
    rewrite bool_decide_eq_true_2, (proj2 (Z.ltb_lt _ _)) by done. done.
Qed.

Lemma mapped_of_sorted rs :
  StronglySorted (fun x y : option Z * Z * Z => x.1.2 <= y.1.2) rs ->
  StronglySorted (fun x y : Z * Z => x.1 <= y.1) (mapped_of rs).
Proof using.
  induction 1 as [|[[o a] b] rs Hrs IH Hall]; cbn; [constructor|].
  destruct (_ && _); [|done]. constructor; [done|]. apply Forall_forall. intros [a' b'] Hin.
  apply mapped_of_elem in Hin as (o' & Hin & _). rewrite Forall_forall in Hall.
  by apply (Hall _ Hin).
Qed.

Lemma stream_length_cons r rs : stream_length (r :: rs) = Z.max r.2 (stream_length rs).
Proof using. done. Qed.

Lemma stream_length_nonneg rs : 0 <= stream_length rs.
Proof using. induction rs as [|r rs IH]; [done|]. rewrite stream_length_cons. lia. Qed.

Definition stored_ranges (pf : list TorrentPieceFile) : list (option Z * Z * Z) :=
  map (fun f => (tpf_file_ordinal f, tpf_offset f, tpf_offset f + tpf_size f)) pf.

Lemma layout_run pf acc total :
  Forall (fun f => is_u64 (tpf_offset f) /\ is_u64 (tpf_size f)) pf -> 0 <= total ->
  try_fold (layout_step mapped_ordinals) pf (acc, total) =
  if stream_length (stored_ranges pf) <=? u64_max
  then Ok (acc ++ mapped_of (stored_ranges pf), Z.max total (stream_length (stored_ranges pf)))
  else Err TorrentSizeOverflow.
Proof using.
  intros Hpf. revert acc total. induction Hpf as [|f pf [Ho Hs] _ IH]; intros acc total Ht; cbn [try_fold].
  { cbn. rewrite app_nil_r. by rewrite Z.max_l by lia. }
  change (stored_ranges (f :: pf))
    with ((tpf_file_ordinal f, tpf_offset f, tpf_offset f + tpf_size f) :: stored_ranges pf).
  rewrite stream_length_cons. cbn [snd fst]. unfold layout_step at 1, checked_add_u64.
  destruct (Z.leb_spec (tpf_offset f + tpf_size f) u64_max); cbn [ok_or mbind result_bind].
  2: { destruct (Z.leb_spec (Z.max (tpf_offset f + tpf_size f) (stream_length (stored_ranges pf))) u64_max);
       [lia|done]. }
  rewrite IH by lia.
  assert ((Z.max (tpf_offset f + tpf_size f) (stream_length (stored_ranges pf)) <=? u64_max)
    = (stream_length (stored_ranges pf) <=? u64_max)) as -> by (apply Z.leb_le in H; lia).
  destruct (_ <=? _); [|done]. f_equal. f_equal; [|lia].
  unfold mapped_of at 2. cbn [omap list_omap]. fold (mapped_of (stored_ranges pf)).
  assert ((tpf_offset f <? tpf_offset f + tpf_size f) = (0 <? tpf_size f)) as -> by lia.
  unfold is_mapped. destruct (_ && _); [by rewrite <- app_assoc|done].
Qed.

Lemma aligned_ge offset : 0 <= offset -> offset <= div_ceil offset pl * pl.
Proof using Hpl.
  intros Ho. unfold div_ceil. pose proof (Z.mod_pos_bound (offset + pl - 1) pl Hpl).
  pose proof (Z.div_mod (offset + pl - 1) pl ltac:(lia)). nia.
Qed.

Lemma legacy_ranges_sorted al offset files :
  0 <= offset -> Forall (fun f => is_u64 (tf_size f)) files ->
  Forall (fun r : option Z * Z * Z => offset <= r.1.2 <= r.2) (legacy_ranges al pl offset files) /\
  StronglySorted (fun x y : option Z * Z * Z => x.1.2 <= y.1.2) (legacy_ranges al pl offset files).
Proof using Hpl.
  intros Ho Hf. revert offset Ho. induction Hf as [|f files Hs _ IH]; intros offset Ho;
    cbn [legacy_ranges]; [by split; constructor|].
  set (start := if al then _ else _).
  assert (offset <= start) as Hge by (unfold start; destruct al; [apply aligned_ge; lia|done]).
  assert (0 <= tf_size f) by (unfold_ints; lia).
  destruct (IH (start + tf_size f) ltac:(lia)) as [H1 H2]. split.
  - constructor; [cbn; lia|]. eapply Forall_impl; [exact H1|]. intros r Hr. cbn in *. lia.
  - constructor; [done|]. eapply Forall_impl; [exact H1|]. intros r Hr. cbn in *. lia.
Qed.

Lemma legacy_run al files acc offset :
  Forall (fun f => is_u64 (tf_size f)) files -> 0 <= offset <= u64_max ->
  stream_length (legacy_ranges al pl offset files) <= u64_max ->
  try_fold (legacy_step mapped_ordinals al pl) files (acc, offset) =
  Ok (acc ++ mapped_of (legacy_ranges al pl offset files),
      Z.max offset (stream_length (legacy_ranges al pl offset files))).
Proof using Hpl.
  intros Hf. revert acc offset. induction Hf as [|f files Hs _ IH]; intros acc offset Ho Hmax;
    cbn [try_fold legacy_ranges] in *.
  { cbn. rewrite app_nil_r. by rewrite Z.max_l by lia. }
  set (start := if al then div_ceil offset pl * pl else offset) in *.
  rewrite stream_length_cons in *. cbn [snd] in *.
  assert (0 <= tf_size f) by (unfold_ints; lia).
  assert (offset <= start) as Hge by (unfold start; destruct al; [apply aligned_ge; lia|done]).
  unfold legacy_step at 1.
  assert ((if al then saturating_mul_u64 (div_ceil offset pl) pl else offset) = start) as ->.
  { unfold start. destruct al; [|done]. unfold saturating_mul_u64. rewrite Z.min_l; [done|].
    fold start. lia. }
  unfold checked_add_u64. rewrite (proj2 (Z.leb_le _ _)) by lia. cbn [ok_or mbind result_bind].
  rewrite IH by lia. f_equal. f_equal; [|lia].
  unfold mapped_of at 2. cbn [omap list_omap]. fold (mapped_of (legacy_ranges al pl (start + tf_size f) files)).
  assert ((start <? start + tf_size f) = (0 <? tf_size f)) as -> by lia.
  unfold is_mapped. destruct (_ && _); [by rewrite <- app_assoc|done].
Qed.

Lemma intervals_of_fits m :
  manifest_ok m -> stream_length (ranges m pl) <= u64_max ->
  intervals_of mapped_ordinals m pl = Ok (mapped_of (ranges m pl), stream_length (ranges m pl)) /\
  StronglySorted (fun x y : Z * Z => x.1 <= y.1) (mapped_of (ranges m pl)).
Proof using Hpl.
  intros [Hf Hpf Hs] Hmax. unfold intervals_of, ranges in *. destruct (tm_piece_files m) as [|p pf].
  - split.
    + unfold v2_only in *. rewrite legacy_run; [|done|unfold_ints; lia|done]. cbn [app].
      by rewrite Z.max_r by apply stream_length_nonneg.
    + apply mapped_of_sorted, legacy_ranges_sorted; [lia|done].
  - split.
    + rewrite layout_run by (done || lia). fold (stored_ranges (p :: pf)) in Hmax. apply Z.leb_le in Hmax. rewrite Hmax.
      cbn [app]. by rewrite Z.max_r by apply stream_length_nonneg.
    + apply mapped_of_sorted. clear -Hs. induction Hs as [|f l Hl IH Hall]; cbn [map]; [constructor|].
      constructor; [done|]. apply Forall_map. done.
Qed.

Lemma intervals_of_overflow m :
  manifest_ok m -> u64_max < stream_length (ranges m pl) -> tm_piece_files m <> [] ->
  intervals_of mapped_ordinals m pl = Err TorrentSizeOverflow.
Proof using.
  intros [_ Hpf _] Hmax Hne. unfold intervals_of, ranges in *. destruct (tm_piece_files m) as [|p pf]; [done|].
  fold (stored_ranges (p :: pf)) in Hmax. rewrite layout_run by (done || lia).
  apply Z.leb_gt in Hmax. by rewrite Hmax.
Qed.
End LayoutLemmas.

(** ** Properties *)

(** C26: piece inspection is exact.  It succeeds only on a reader that delivers
    one state of 0, 1 or 2 for every piece of the stream; the result is then safe
    exactly when no piece that did not verify touches a byte of a mapped file,
    whatever the order of files, empty files, padding and the last short piece;
    the missing bytes are those of the pieces that did not verify, and the ratio
    is that of the verified bytes, at most a million.  Each error is reported only
    for the reason it names. *)
Theorem inspect_pieces_exact (m : TorrentManifest) (mapped : gset Z) (reader : PieceReader) (pl : Z) :
  manifest_ok m -> tm_piece_length m = Some pl -> is_u64 pl ->
  let total := stream_length (ranges m pl) in
  let states := elements reader in
  (total <= u64_max ->
   match inspect_pieces m mapped reader with
   | Ok i =>
       ending reader = Ok () /\ Forall (fun state => state <= 2) states /\
       Z.of_nat (length states) = div_ceil total pl /\
       (integrity_safe i = true <->
          forall a b, mapped_range mapped (ranges m pl) a b -> ~ unsafe_piece states pl total a b) /\
       missing_bytes i = bytes_where (fun state => negb (state =? 2)) states pl total /\
       present_ratio_ppm i = bytes_where (fun state => state =? 2) states pl total * 1000000 / total /\
       0 <= present_ratio_ppm i <= 1000000
   | Err MissingPieceLength => pl = 0
   | Err TorrentSizeOverflow => False
   | Err PieceCount => Z.of_nat (length states) <> div_ceil total pl
   | Err (Pieces e) =>
       ending reader = Err e \/ Exists (fun state => 2 < state) states \/
       MAX_PIECES < Z.of_nat (length states)
   end) /\
  (u64_max < total -> pl <> 0 -> tm_piece_files m <> [] ->
   inspect_pieces m mapped reader = Err TorrentSizeOverflow).
Proof.
  intros Hm Hlen Hu. cbv zeta. unfold inspect_pieces. rewrite Hlen. cbn [ok_or mbind result_bind].
  destruct (Z.eqb_spec pl 0) as [->|Hne]; cbn [bail_if]; [done|].
  assert (0 < pl) as Hpl by (unfold_ints; lia). split.
  2: { intros Hmax _ Hpf. by rewrite (intervals_of_overflow mapped pl m Hm Hmax Hpf). }
  intros Hmax. destruct (intervals_of_fits mapped pl Hpl m Hm Hmax) as [-> Hsorted].
  pose proof (stream_length_nonneg (ranges m pl)) as Hnn.
  set (total := stream_length (ranges m pl)) in *. set (ivs := mapped_of mapped (ranges m pl)) in *.
  cbn [mbind result_bind]. unfold parse_piece_states.
  match goal with
  | |- context [visit_seq ?l ?f ?xs ?n ?c] => destruct (visit_seq l f xs n c) as [[n' c']|e] eqn:Hv
  end; cbn [map_err mbind result_bind].
  2: { destruct (visit_seq_Err _ _ _ _ _ _ Hv) as [-> [Hq|Hq]];
       [unfold MAX_PIECES; lia|right; right; lia|right; by left]. }
  apply visit_seq_Ok in Hv as (-> & -> & Hf). rewrite Z.add_0_l.
  destruct (ending reader) as [[]|e]; cbn [map_err mbind result_bind]; [|by left].
  destruct (Z.eqb_spec (Z.of_nat (length (elements reader))) (div_ceil total pl)) as [Hcount|Hcount];
    cbn [negb bail_if map_err mbind result_bind]; [|done].
  destruct (scan_all ivs pl total Hpl (conj Hnn Hmax) Hsorted (elements reader)) as [_ Hp Hb _ Hsafe]; [lia|].
  set (c := foldl _ _ _) in *. cbn [integrity_safe missing_bytes present_ratio_ppm].
  pose proof (bytes_total pl total Hpl (conj Hnn Hmax) (fun x => x =? 2) (elements reader) ltac:(lia)) as Hsum.
  assert (total <= Z.of_nat (length (elements reader)) * pl) as Hfull.
  { rewrite Hcount. by apply aligned_ge. }
  rewrite (Z.min_r _ total) in * by done.
  split; [done|]. split; [done|]. split; [done|]. split.
  { rewrite Hsafe. split; intros Hno a b Hin; apply Hno; by apply mapped_of_elem. }
  split; [unfold saturating_sub_u; rewrite Hp; cbv beta in Hsum; lia|].
  rewrite <- Hp. destruct (Z.eqb_spec total 0) as [Hz|Hnz].
  { rewrite Hz, Zdiv_0_r. lia. }
  assert (0 <= present c * 1000000 / total <= 1000000) as Hr.
  { split; [apply Z.div_pos; lia|]. apply Z.div_le_upper_bound; lia. }
  unfold u32_try_from. rewrite (proj2 (Z.leb_le 0 _)), (proj2 (Z.leb_le _ u32_max)) by (unfold_ints; lia).
  cbn [andb default from_option]. unfold id. done.
Qed.

(** A v1 torrent of two files over three pieces of 4 bytes. *)
Definition example_manifest : TorrentManifest :=
  mkTorrentManifest (mkInfoHashes (Some [1]) None)
    [mkTorrentFile 0 [97] 5 false; mkTorrentFile 1 [98] 5 false] (Some 4)
    [mkTorrentPieceFile (Some 0) 0 5; mkTorrentPieceFile (Some 1) 5 5].

Example inspect_touching : inspect_pieces example_manifest {[0]} (mkReader [2; 0; 2] (Ok ()))
  = Ok (mkPieceInspection false 4 600000).
Proof. vm_compute. reflexivity. Qed.

Example inspect_isolated : inspect_pieces example_manifest {[0]} (mkReader [2; 2; 0] (Ok ()))
  = Ok (mkPieceInspection true 2 800000).
Proof. vm_compute. reflexivity. Qed.

Lemma example_manifest_ok : manifest_ok example_manifest.
Proof.
  split; cbn.
  - repeat constructor; unfold_ints; cbn; lia.
  - repeat constructor; unfold_ints; cbn; lia.
  - repeat constructor; cbn; lia.
Qed.

Lemma inspect_pieces_exact_witness :
  manifest_ok example_manifest /\
  (true = true <-> forall a b, mapped_range {[0]} (ranges example_manifest 4) a b ->
                     ~ unsafe_piece [2; 2; 0] 4 10 a b).
Proof.
  split; [exact example_manifest_ok|].
  pose proof (proj1 (inspect_pieces_exact example_manifest {[0]} (mkReader [2; 2; 0] (Ok ())) 4
    example_manifest_ok eq_refl (conj (proj1 (Z.leb_le 0 4) eq_refl) (proj1 (Z.leb_le 4 u64_max) eq_refl)))
    (proj1 (Z.leb_le 10 u64_max) eq_refl)) as H.
  rewrite inspect_isolated in H. exact (proj1 (proj2 (proj2 (proj2 H)))).
Defined.
