(* ===== verification/Store.v ===== *)
(** The durable store: the SQLite tables that the task protocol uses
    (migrations/0001, 0002, 0003, 0005, 0014) and the statements of the program
    over them.

    A table is a finite map from its primary key to its row; a statement is a
    function on the database, and a transaction a computation in [Tx] that
    [transaction] runs atomically: the changes of a transaction that ends in an
    error are rolled back, as when an uncommitted sqlx transaction is dropped.
    SQLite itself is not under src/: of its behaviour the model has the
    constraints that the schema declares (primary keys, UNIQUE, foreign keys,
    which storage.rs switches on) and that a failed constraint aborts the
    statement.  I/O failures of the database are left out. *)

From S2P Require Import Prelude Text.
From stdpp Require Import strings.
Local Open Scope Z_scope.

(** ** Rows *)

Record PolicyRow := mkPolicyRow {
  pr_config_hash : str; pr_matcher_version : str; pr_payload_json : str; pr_created_at : Z }.

Record TaskRow := mkTaskRow {
  t_kind : str;
  t_state : str;
  projection_generation : Z;
  t_operation_id : option str;
  duroxide_instance_id : str;
  duroxide_execution_id : option str;
  policy_snapshot_id : str;
  t_reason_code : option str;
  last_error_class : option str;
  last_error_message : option str;
  observed_retry_count : Z;
  t_created_at : Z;
  updated_at : Z;
  terminal_at : option Z;
  projection_repair_checked_at : option Z }.

Record EventRow := mkEventRow {
  e_state : str; e_reason_code : option str; e_detail_json : option str; e_created_at : Z }.

Record OutboxRow := mkOutboxRow {
  o_task_id : str;
  o_task_key : str;
  o_orchestration_name : str;
  o_orchestration_version : str;
  o_instance_id : str;
  o_input_json : str;
  visible_at : Z;
  start_delivery_attempt_count : Z;
  lease_token : option str;
  lease_until : option Z;
  dispatched_at : option Z;
  permanent_failure_at : option Z;
  last_error : option str }.

Record OperationRow := mkOperationRow {
  op_kind : str; op_state : str; op_instance_id : str; op_request_json : str;
  op_produced_tasks : Z; op_last_reported_cursor : option str;
  op_created_at : Z; op_updated_at : Z }.

Record CompletionRow := mkCompletionRow {
  c_operation_id : str; c_task_id : str; c_created_at : Z }.

Record Db := mkDb {
  sporos_policy_snapshot : gmap str PolicyRow;
  sporos_task : gmap str TaskRow;
  sporos_task_event : gmap (str * Z) EventRow;
  sporos_outbox : gmap Z OutboxRow;
  sporos_operation : gmap str OperationRow;
  sporos_qbit_completion : gmap (str * Z) CompletionRow }.

Definition empty_db : Db := mkDb ∅ ∅ ∅ ∅ ∅ ∅.

Definition set_policies f (db : Db) : Db :=
  mkDb (f (sporos_policy_snapshot db)) (sporos_task db) (sporos_task_event db)
    (sporos_outbox db) (sporos_operation db) (sporos_qbit_completion db).
Definition set_tasks f (db : Db) : Db :=
  mkDb (sporos_policy_snapshot db) (f (sporos_task db)) (sporos_task_event db)
    (sporos_outbox db) (sporos_operation db) (sporos_qbit_completion db).
Definition set_events f (db : Db) : Db :=
  mkDb (sporos_policy_snapshot db) (sporos_task db) (f (sporos_task_event db))
    (sporos_outbox db) (sporos_operation db) (sporos_qbit_completion db).
Definition set_outbox f (db : Db) : Db :=
  mkDb (sporos_policy_snapshot db) (sporos_task db) (sporos_task_event db)
    (f (sporos_outbox db)) (sporos_operation db) (sporos_qbit_completion db).
Definition set_operations f (db : Db) : Db :=
  mkDb (sporos_policy_snapshot db) (sporos_task db) (sporos_task_event db)
    (sporos_outbox db) (f (sporos_operation db)) (sporos_qbit_completion db).
Definition set_completions f (db : Db) : Db :=
  mkDb (sporos_policy_snapshot db) (sporos_task db) (sporos_task_event db)
    (sporos_outbox db) (sporos_operation db) (f (sporos_qbit_completion db)).

(** ** Statements *)

(** Failures of a statement: a violated constraint, [fetch_one] without a row, or a
    column that does not decode. *)
Inductive SqlError := Constraint | RowNotFound | ColumnDecode.

(** A statement; its value is [rows_affected] or the fetched row. *)
Abbreviation Sql A := (M Db SqlError A).

(** A transaction of a component whose errors are [E]. *)
Abbreviation Tx E A := (M Db E A).

(** [call.await?] in a component that wraps the callee's errors with [wrap]. *)
Definition exec {E F A} (wrap : F -> E) (m : Tx F A) : Tx E A :=
  fun db => let '(db', r) := m db in (db', map_err wrap r).

(** [begin] ... [commit]: the changes of a transaction that fails are undone. *)
Definition transaction {E A} (m : Tx E A) : M Db E A :=
  fun db => match m db with
            | (db', Ok a) => (db', Ok a)
            | (_, Err e) => (db, Err e)
            end.

Definition select {A} (f : Db -> A) : Sql A := reads (fun db => Ok (f db)).
Definition fetch_one {A} (f : Db -> option A) : Sql A :=
  reads (fun db => ok_or (f db) RowNotFound).

(** [INSERT INTO t (...) VALUES (...)] on a map keyed by the primary key. *)
Definition insert_new {K A} `{Countable K} (k : K) (a : A) (t : gmap K A) : option (gmap K A) :=
  match t !! k with Some _ => None | None => Some (<[k := a]> t) end.

Definition insert_policy_ignore (id : str) (row : PolicyRow) : Sql Z := fun db =>
  match insert_new id row (sporos_policy_snapshot db) with
  | None => (db, Ok 0)
  | Some t => (set_policies (fun _ => t) db, Ok 1)
  end.

Definition fresh_task (kind instance_id policy_id : str) (operation_id : option str) (at_ : Z)
  : TaskRow :=
  {| t_kind := kind; t_state := lit "queued"; projection_generation := 0;
     t_operation_id := operation_id; duroxide_instance_id := instance_id;
     duroxide_execution_id := None; policy_snapshot_id := policy_id; t_reason_code := None;
     last_error_class := None; last_error_message := None; observed_retry_count := 0;
     t_created_at := at_; updated_at := at_; terminal_at := None;
     projection_repair_checked_at := None |}.

(** [INSERT INTO sporos_task ... ON CONFLICT(id) DO NOTHING]; the policy is a
    foreign key. *)
Definition insert_task_ignore (id : str) (row : TaskRow) : Sql Z := fun db =>
  match insert_new id row (sporos_task db) with
  | None => (db, Ok 0)
  | Some t =>
      match sporos_policy_snapshot db !! policy_snapshot_id row with
      | None => (db, Err Constraint)
      | Some _ => (set_tasks (fun _ => t) db, Ok 1)
      end
  end.

(** [INSERT INTO sporos_task_event]; [ignore] is [ON CONFLICT DO NOTHING]. *)
Definition insert_event (ignore : bool) (task_id : str) (sequence : Z) (row : EventRow) : Sql Z :=
  fun db =>
  if sequence <? 0 then (db, Err Constraint) else
  match insert_new (task_id, sequence) row (sporos_task_event db) with
  | None => if ignore then (db, Ok 0) else (db, Err Constraint)
  | Some t =>
      match sporos_task db !! task_id with
      | None => (db, Err Constraint)
      | Some _ => (set_events (fun _ => t) db, Ok 1)
      end
  end.

Definition queued_outbox (task_id task_key name version instance_id input_json : str) (at_ : Z)
  : OutboxRow :=
  {| o_task_id := task_id; o_task_key := task_key; o_orchestration_name := name;
     o_orchestration_version := version; o_instance_id := instance_id;
     o_input_json := input_json; visible_at := at_; start_delivery_attempt_count := 0;
     lease_token := None; lease_until := None; dispatched_at := None;
     permanent_failure_at := None; last_error := None |}.

(** The rowid SQLite gives to a new row of an [INTEGER PRIMARY KEY] table. *)
Definition next_rowid {A} (t : gmap Z A) : Z := 1 + foldr Z.max 0 (elements (dom t)).

Definition outbox_with_key (task_key : str) (t : gmap Z OutboxRow) : list (Z * OutboxRow) :=
  filter (fun p => o_task_key p.2 = task_key) (map_to_list t).
Definition outbox_with_instance (instance_id : str) (t : gmap Z OutboxRow)
  : list (Z * OutboxRow) :=
  filter (fun p => o_instance_id p.2 = instance_id) (map_to_list t).

(** [INSERT INTO sporos_outbox]; [ignore] is [ON CONFLICT(task_key) DO NOTHING],
    which SQLite decides before the other constraints. *)
Definition insert_outbox (ignore : bool) (row : OutboxRow) : Sql Z := fun db =>
  match outbox_with_key (o_task_key row) (sporos_outbox db) with
  | _ :: _ => if ignore then (db, Ok 0) else (db, Err Constraint)
  | [] =>
      match outbox_with_instance (o_instance_id row) (sporos_outbox db),
            sporos_task db !! o_task_id row with
      | [], Some _ =>
          (set_outbox (fun t => <[next_rowid t := row]> t) db, Ok 1)
      | _, _ => (db, Err Constraint)
      end
  end.

(** [UPDATE t SET ... WHERE key = ? AND cond]: the number of rows changed. *)
Definition update_where {K A} `{Countable K} (k : K) (cond : A -> bool) (f : A -> A)
    (t : gmap K A) : gmap K A * Z :=
  match t !! k with
  | Some row => if cond row then (<[k := f row]> t, 1) else (t, 0)
  | None => (t, 0)
  end.

Definition update_task (id : str) (cond : TaskRow -> bool) (f : TaskRow -> TaskRow) : Sql Z :=
  fun db => let '(t, n) := update_where id cond f (sporos_task db) in
            (set_tasks (fun _ => t) db, Ok n).
Definition update_outbox (id : Z) (cond : OutboxRow -> bool) (f : OutboxRow -> OutboxRow) : Sql Z :=
  fun db => let '(t, n) := update_where id cond f (sporos_outbox db) in
            (set_outbox (fun _ => t) db, Ok n).

(** ** The invariant of the store

    For every task, its events are numbered without gap from 0 to the projection
    generation of its row, and an outbox row starts the instance it names. *)

Record task_ok (db : Db) (id : str) (row : TaskRow) : Prop := {
  to_generation : 0 <= projection_generation row <= i64_max;
  to_events : forall k, is_Some (sporos_task_event db !! (id, k))
                <-> 0 <= k <= projection_generation row;
  to_outbox : exists oid o, sporos_outbox db !! oid = Some o /\ o_task_id o = id /\
                o_instance_id o = duroxide_instance_id row }.

Record db_ok (db : Db) : Prop := {
  ok_tasks : map_Forall (task_ok db) (sporos_task db);
  ok_events : forall id k, is_Some (sporos_task_event db !! (id, k)) -> is_Some (sporos_task db !! id);
  ok_outbox_task : map_Forall (fun _ o => is_Some (sporos_task db !! o_task_id o)) (sporos_outbox db);
  ok_outbox_key : forall i j a b, sporos_outbox db !! i = Some a -> sporos_outbox db !! j = Some b ->
    o_task_key a = o_task_key b -> i = j;
  ok_outbox_instance : forall i j a b, sporos_outbox db !! i = Some a ->
    sporos_outbox db !! j = Some b -> o_instance_id a = o_instance_id b -> i = j }.

(** ** Lemmas on statements and transactions *)

Lemma transaction_Ok {E A} (m : Tx E A) db db' a :
  transaction m db = (db', Ok a) <-> m db = (db', Ok a).
Proof. unfold transaction. destruct (m db) as [? [?|?]]; naive_solver. Qed.

Lemma transaction_Err {E A} (m : Tx E A) db db' e :
  transaction m db = (db', Err e) -> db' = db /\ (m db).2 = Err e.
Proof. unfold transaction. destruct (m db) as [? [?|?]]; naive_solver. Qed.

Lemma exec_Ok {E F A} (wrap : F -> E) (m : Tx F A) db db' a :
  exec wrap m db = (db', Ok a) <-> m db = (db', Ok a).
Proof. unfold exec. destruct (m db) as [? [?|?]]; cbn; naive_solver. Qed.

Lemma insert_new_Some {K A} `{Countable K} (k : K) (a : A) t t' :
  insert_new k a t = Some t' <-> t !! k = None /\ t' = <[k := a]> t.
Proof. unfold insert_new. destruct (t !! k); naive_solver. Qed.

Lemma next_rowid_fresh {A} (t : gmap Z A) : t !! next_rowid t = None.
Proof.
  apply not_elem_of_dom. intros Hin%elem_of_elements. unfold next_rowid in Hin.
  assert (forall x, x ∈ elements (dom t) -> x <= foldr Z.max 0 (elements (dom t))) as Hle.
  { clear Hin. induction (elements (dom t)) as [|y l IH]; intros x Hx; [by apply elem_of_nil in Hx|].
    cbn. apply elem_of_cons in Hx as [->|Hx]; [lia|]. specialize (IH x Hx). lia. }
  specialize (Hle _ Hin). lia.
Qed.

Lemma outbox_filter_nil (P : OutboxRow -> Prop) `{!forall o, Decision (P o)} t :
  filter (fun p : Z * OutboxRow => P p.2) (map_to_list t) = [] <->
  forall i o, t !! i = Some o -> ~ P o.
Proof.
  split.
  - intros Hf i o Hi HP. assert ((i, o) ∈ filter (fun p : Z * OutboxRow => P p.2) (map_to_list t)) as Hin.
    { apply list_elem_of_filter. split; [done|]. by apply elem_of_map_to_list. }
    rewrite Hf in Hin. by apply elem_of_nil in Hin.
  - intros Hno. destruct (filter _ _) as [|[i o] l] eqn:Hf; [done|].
    assert ((i, o) ∈ filter (fun p : Z * OutboxRow => P p.2) (map_to_list t)) as Hin
      by (rewrite Hf; left).
    apply list_elem_of_filter in Hin as [HP Hin]. apply elem_of_map_to_list in Hin.
    by destruct (Hno i o Hin).
Qed.

Lemma outbox_filter_cons (P : OutboxRow -> Prop) `{!forall o, Decision (P o)} t p l :
  filter (fun p : Z * OutboxRow => P p.2) (map_to_list t) = p :: l ->
  t !! p.1 = Some p.2 /\ P p.2.
Proof.
  intros Hf. assert (p ∈ filter (fun p : Z * OutboxRow => P p.2) (map_to_list t)) as Hin
    by (rewrite Hf; left).
  apply list_elem_of_filter in Hin as [HP Hin]. destruct p as [i o].
  by apply elem_of_map_to_list in Hin.
Qed.

Lemma outbox_with_key_cons k t p l :
  outbox_with_key k t = p :: l -> t !! p.1 = Some p.2 /\ o_task_key p.2 = k.
Proof. exact (outbox_filter_cons (fun o => o_task_key o = k) t p l). Qed.

Lemma outbox_with_instance_cons k t p l :
  outbox_with_instance k t = p :: l -> t !! p.1 = Some p.2 /\ o_instance_id p.2 = k.
Proof. exact (outbox_filter_cons (fun o => o_instance_id o = k) t p l). Qed.

Lemma insert_outbox_Ok ignore row db db' n :
  insert_outbox ignore row db = (db', Ok n) ->
  (n = 0 /\ ignore = true /\ db' = db /\
     exists i o, sporos_outbox db !! i = Some o /\ o_task_key o = o_task_key row) \/
  (n = 1 /\ db' = set_outbox (fun t => <[next_rowid t := row]> t) db /\
   is_Some (sporos_task db !! o_task_id row) /\
   (forall i o, sporos_outbox db !! i = Some o ->
      o_task_key o <> o_task_key row /\ o_instance_id o <> o_instance_id row)).
Proof.
  unfold insert_outbox, outbox_with_key, outbox_with_instance.
  destruct (filter (fun p => o_task_key p.2 = o_task_key row) _) as [|[i o] l] eqn:Hk.
  - destruct (filter (fun p => o_instance_id p.2 = o_instance_id row) _) as [|] eqn:Hi; [|done].
    destruct (sporos_task db !! o_task_id row) eqn:Ht; [|done]. intros [= <- <-]. right.
    split; [done|]. split; [done|]. split; [done|]. intros i o Ho.
    split.
    + exact (proj1 (outbox_filter_nil (fun o => o_task_key o = o_task_key row) _) Hk i o Ho).
    + exact (proj1 (outbox_filter_nil (fun o => o_instance_id o = o_instance_id row) _) Hi i o Ho).
  - destruct ignore; [|done]. intros [= <- <-]. left. split; [done|]. split; [done|].
    split; [done|]. exists i, o.
    exact (outbox_filter_cons (fun o => o_task_key o = o_task_key row) _ (i, o) l Hk).
Qed.

Lemma update_where_spec {K A} `{Countable K} (k : K) cond (f : A -> A) t t' n :
  update_where k cond f t = (t', n) ->
  (n = 0 /\ t' = t /\ (forall row, t !! k = Some row -> cond row = false)) \/
  (n = 1 /\ exists row, t !! k = Some row /\ cond row = true /\ t' = <[k := f row]> t).
Proof.
  unfold update_where. destruct (t !! k) as [row|] eqn:Hk; [|intros [= <- <-]; left; naive_solver].
  destruct (cond row) eqn:Hc; intros [= <- <-]; [right|left]; naive_solver.
Qed.

Lemma insert_policy_tables id row db db' n :
  insert_policy_ignore id row db = (db', Ok n) ->
  sporos_task db' = sporos_task db /\ sporos_task_event db' = sporos_task_event db /\
  sporos_outbox db' = sporos_outbox db.
Proof.
  unfold insert_policy_ignore. destruct (insert_new _ _ _); intros [= <- <-]; done.
Qed.

Lemma insert_task_Ok id row db db' n :
  insert_task_ignore id row db = (db', Ok n) ->
  (is_Some (sporos_task db !! id) /\ db' = db) \/
  (sporos_task db !! id = None /\ db' = set_tasks (fun _ => <[id := row]> (sporos_task db)) db).
Proof.
  unfold insert_task_ignore. destruct (insert_new _ _ _) as [t|] eqn:Hi.
  - apply insert_new_Some in Hi as [Hn ->].
    destruct (sporos_policy_snapshot db !! _); [|done]. intros [= <- <-]. by right.
  - unfold insert_new in Hi. destruct (sporos_task db !! id) eqn:Ht; [|done].
    intros [= <- <-]. by left.
Qed.

Lemma insert_event_Ok ignore id k row db db' n :
  insert_event ignore id k row db = (db', Ok n) ->
  (n = 0 /\ ignore = true /\ is_Some (sporos_task_event db !! (id, k)) /\ db' = db) \/
  (n = 1 /\ 0 <= k /\ sporos_task_event db !! (id, k) = None /\ is_Some (sporos_task db !! id) /\
   db' = set_events (fun _ => <[(id, k) := row]> (sporos_task_event db)) db).
Proof.
  unfold insert_event. destruct (Z.ltb_spec k 0); [done|].
  destruct (insert_new _ _ _) as [t|] eqn:Hi.
  - apply insert_new_Some in Hi as [Hn ->].
    destruct (sporos_task db !! id) eqn:Ht; [|done]. intros [= <- <-]. right. done.
  - unfold insert_new in Hi. destruct (sporos_task_event db !! (id, k)) eqn:He; [|done].
    destruct ignore; [|done]. intros [= <- <-]. left. done.
Qed.

(** ** Preservation of the invariant *)

(** The invariant speaks of three tables only. *)
Lemma db_ok_ext db db' :
  sporos_task db' = sporos_task db -> sporos_task_event db' = sporos_task_event db ->
  sporos_outbox db' = sporos_outbox db -> db_ok db -> db_ok db'.
Proof.
  intros Ht He Ho [H1 H2 H3 H4 H5]. split; rewrite ?Ht, ?He, ?Ho; try done.
  intros id row Hrow. destruct (H1 id row Hrow) as [Ha Hb Hc]. split; rewrite ?He, ?Ho; done.
Qed.

(** A new outbox row for an existing task. *)
Lemma db_ok_insert_outbox db oid o :
  db_ok db -> sporos_outbox db !! oid = None -> is_Some (sporos_task db !! o_task_id o) ->
  (forall i a, sporos_outbox db !! i = Some a ->
     o_task_key a <> o_task_key o /\ o_instance_id a <> o_instance_id o) ->
  db_ok (set_outbox (fun t => <[oid := o]> t) db).
Proof.
  intros [H1 H2 H3 H4 H5] Hnew Ht Hfresh. split; cbn; try done.
  - intros id row Hrow. destruct (H1 id row Hrow) as [Ha Hb (i & a & Hi & Hid & Hinst)].
    split; [done|done|]. exists i, a. cbn. rewrite lookup_insert_ne; [done|]. congruence.
  - by apply map_Forall_insert_2.
  - intros i j a b Hi Hj Hk. apply lookup_insert_Some in Hi as [[<- <-]|[Hne Hi]];
      apply lookup_insert_Some in Hj as [[<- <-]|[Hne' Hj]]; [done| | |by eapply H4].
    + by destruct (Hfresh _ _ Hj) as [[] _].
    + by destruct (Hfresh _ _ Hi) as [[] _].
  - intros i j a b Hi Hj Hk. apply lookup_insert_Some in Hi as [[<- <-]|[Hne Hi]];
      apply lookup_insert_Some in Hj as [[<- <-]|[Hne' Hj]]; [done| | |by eapply H5].
    + by destruct (Hfresh _ _ Hj) as [_ []].
    + by destruct (Hfresh _ _ Hi) as [_ []].
Qed.

(** Lease bookkeeping on an outbox row leaves its identity alone. *)
Lemma db_ok_update_outbox db oid o o' :
  db_ok db -> sporos_outbox db !! oid = Some o ->
  o_task_id o' = o_task_id o -> o_task_key o' = o_task_key o ->
  o_instance_id o' = o_instance_id o ->
  db_ok (set_outbox (fun t => <[oid := o']> t) db).
Proof.
  intros [H1 H2 H3 H4 H5] Ho Ht Hk Hi.
  assert (forall i a, <[oid := o']> (sporos_outbox db) !! i = Some a ->
    exists b, sporos_outbox db !! i = Some b /\ o_task_id a = o_task_id b /\
      o_task_key a = o_task_key b /\ o_instance_id a = o_instance_id b) as Hold.
  { intros i a Ha. apply lookup_insert_Some in Ha as [[<- <-]|[Hne Ha]]; eauto. }
  split; cbn; try done.
  - intros id row Hrow. destruct (H1 id row Hrow) as [Ha Hb (i & a & Hia & Hid & Hinst)].
    split; [done|done|]. cbn. destruct (decide (oid = i)) as [<-|Hne].
    + exists oid, o'. rewrite lookup_insert_eq. split; [done|]. split; congruence.
    + exists i, a. by rewrite lookup_insert_ne.
  - intros i a Ha. destruct (Hold i a Ha) as (b & Hb & -> & _). by apply (H3 i).
  - intros i j a b Ha Hb Heq. destruct (Hold _ _ Ha) as (a' & Ha' & _ & Hka & _).
    destruct (Hold _ _ Hb) as (b' & Hb' & _ & Hkb & _). eapply H4; [done..|congruence].
  - intros i j a b Ha Hb Heq. destruct (Hold _ _ Ha) as (a' & Ha' & _ & _ & Hka).
    destruct (Hold _ _ Hb) as (b' & Hb' & _ & _ & Hkb). eapply H5; [done..|congruence].
Qed.

(** A task update that keeps the generation; the instance may only move to one
    that has an outbox row. *)
Lemma db_ok_update_task db id row row' :
  db_ok db -> sporos_task db !! id = Some row ->
  projection_generation row' = projection_generation row ->
  (exists oid o, sporos_outbox db !! oid = Some o /\ o_task_id o = id /\
     o_instance_id o = duroxide_instance_id row') ->
  db_ok (set_tasks (fun t => <[id := row']> t) db).
Proof.
  intros [H1 H2 H3 H4 H5] Hrow Hg Hi. split; cbn; try done.
  - apply map_Forall_insert_2; cbn.
    + destruct (H1 id row Hrow) as [Ha Hb _]. split; cbn; rewrite ?Hg; done.
    + intros id' r Hr. destruct (H1 id' r Hr) as [Ha Hb Hc]. by split.
  - intros id' k Hk. apply H2 in Hk. destruct (decide (id = id')) as [<-|];
      [by rewrite lookup_insert_eq|by rewrite lookup_insert_ne].
  - intros i o Ho. destruct (H3 i o Ho) as [r Hr].
    destruct (decide (id = o_task_id o)) as [<-|];
      [by rewrite lookup_insert_eq|by rewrite lookup_insert_ne].
Qed.

(** The next event of a task, together with its generation. *)
Lemma db_ok_advance db id row row' ev :
  db_ok db -> sporos_task db !! id = Some row ->
  projection_generation row' = projection_generation row + 1 ->
  projection_generation row' <= i64_max ->
  (exists oid o, sporos_outbox db !! oid = Some o /\ o_task_id o = id /\
     o_instance_id o = duroxide_instance_id row') ->
  db_ok (set_events (fun t => <[(id, projection_generation row') := ev]> t)
           (set_tasks (fun t => <[id := row']> t) db)).
Proof.
  intros [H1 H2 H3 H4 H5] Hrow Hg Hmax Hi. split; cbn; try done.
  - intros id' r Hr. apply lookup_insert_Some in Hr as [[<- <-]|[Hne Hr]].
    + destruct (H1 id row Hrow) as [Ha Hb _]. split; cbn; [lia| |done].
      intros k. destruct (decide (k = projection_generation row')) as [->|Hk].
      * rewrite lookup_insert_eq. split; [lia|done].
      * rewrite lookup_insert_ne by congruence. rewrite Hb. lia.
    + destruct (H1 id' r Hr) as [Ha Hb Hc]. split; cbn; [done| |done].
      intros k. rewrite lookup_insert_ne by congruence. apply Hb.
  - intros id' k Hk. destruct (decide (id = id')) as [<-|Hne];
      [by rewrite lookup_insert_eq|]. rewrite lookup_insert_ne in Hk by congruence.
    rewrite lookup_insert_ne by done.
    by eapply H2.
  - intros i o Ho. destruct (H3 i o Ho) as [r Hr].
    destruct (decide (id = o_task_id o)) as [<-|];
      [by rewrite lookup_insert_eq|by rewrite lookup_insert_ne].
Qed.

(** A new task with its first event and its start. *)
Lemma db_ok_new_task db id row ev oid o :
  db_ok db -> sporos_task db !! id = None -> projection_generation row = 0 ->
  sporos_outbox db !! oid = None -> o_task_id o = id ->
  o_instance_id o = duroxide_instance_id row ->
  (forall i a, sporos_outbox db !! i = Some a ->
     o_task_key a <> o_task_key o /\ o_instance_id a <> o_instance_id o) ->
  db_ok (set_outbox (fun t => <[oid := o]> t)
          (set_events (fun t => <[(id, 0) := ev]> t) (set_tasks (fun t => <[id := row]> t) db))).
Proof.
  intros [H1 H2 H3 H4 H5] Hnew Hg Hoid Hid Hinst Hfresh.
  assert (forall k, sporos_task_event db !! (id, k) = None) as Hnoev.
  { intros k. destruct (sporos_task_event db !! (id, k)) eqn:He; [|done].
    destruct (H2 id k) as [? ?]; [by rewrite He|congruence]. }
  split; cbn.
  - intros id' r Hr. apply lookup_insert_Some in Hr as [[<- <-]|[Hne Hr]].
    + split; cbn; [rewrite Hg; unfold_ints; lia| |exists oid, o; by rewrite lookup_insert_eq].
      intros k. rewrite Hg. destruct (decide (k = 0)) as [->|Hk].
      * rewrite lookup_insert_eq. split; [lia|done].
      * rewrite lookup_insert_ne by congruence. rewrite Hnoev. split; [by intros []|lia].
    + destruct (H1 id' r Hr) as [Ha Hb (i & a & Hi & Hia)]. split; cbn; [done| |].
      * intros k. rewrite lookup_insert_ne by congruence. apply Hb.
      * exists i, a. rewrite lookup_insert_ne; [done|congruence].
  - intros id' k Hk. destruct (decide (id = id')) as [<-|Hne];
      [by rewrite lookup_insert_eq|]. rewrite lookup_insert_ne in Hk by congruence.
    rewrite lookup_insert_ne by done.
    by eapply H2.
  - apply map_Forall_insert_2; [by rewrite Hid, lookup_insert_eq|].
    intros i a Ha. destruct (H3 i a Ha) as [r Hr].
    destruct (decide (id = o_task_id a)) as [<-|];
      [by rewrite lookup_insert_eq|by rewrite lookup_insert_ne].
  - intros i j a b Hi Hj Hk. apply lookup_insert_Some in Hi as [[<- <-]|[Hne Hi]];
      apply lookup_insert_Some in Hj as [[<- <-]|[Hne' Hj]]; [done| | |by eapply H4].
    + by destruct (Hfresh _ _ Hj) as [[] _].
    + by destruct (Hfresh _ _ Hi) as [[] _].
  - intros i j a b Hi Hj Hk. apply lookup_insert_Some in Hi as [[<- <-]|[Hne Hi]];
      apply lookup_insert_Some in Hj as [[<- <-]|[Hne' Hj]]; [done| | |by eapply H5].
    + by destruct (Hfresh _ _ Hj) as [_ []].
    + by destruct (Hfresh _ _ Hi) as [_ []].
Qed.

(** ** What every operation of the protocol does to the store

    Events are only appended and tasks only created or moved to later
    generations; a generation fixes what the task row says, and a new generation
    has its event; the identity of an outbox row is fixed, and a row that was
    delivered or given up is final. *)

Definition same_status (row row' : TaskRow) : Prop :=
  t_state row' = t_state row /\ t_reason_code row' = t_reason_code row /\
  terminal_at row' = terminal_at row /\ duroxide_instance_id row' = duroxide_instance_id row.

Definition logged (db : Db) (id : str) (row : TaskRow) : Prop :=
  exists ev, sporos_task_event db !! (id, projection_generation row) = Some ev /\
             e_state ev = t_state row.

Definition same_start (o o' : OutboxRow) : Prop :=
  o_task_id o' = o_task_id o /\ o_task_key o' = o_task_key o /\
  o_orchestration_name o' = o_orchestration_name o /\
  o_orchestration_version o' = o_orchestration_version o /\
  o_instance_id o' = o_instance_id o /\ o_input_json o' = o_input_json o.

Record advances (db db' : Db) : Prop := {
  adv_events : forall k ev, sporos_task_event db !! k = Some ev -> sporos_task_event db' !! k = Some ev;
  adv_tasks : forall id row, sporos_task db !! id = Some row ->
    exists row', sporos_task db' !! id = Some row' /\ t_kind row' = t_kind row /\
      projection_generation row <= projection_generation row' /\
      (projection_generation row' = projection_generation row -> same_status row row') /\
      (projection_generation row < projection_generation row' -> logged db' id row');
  adv_new : forall id row', sporos_task db !! id = None -> sporos_task db' !! id = Some row' ->
    logged db' id row';
  adv_outbox : forall oid o, sporos_outbox db !! oid = Some o ->
    exists o', sporos_outbox db' !! oid = Some o' /\ same_start o o' /\
      (is_Some (dispatched_at o) \/ is_Some (permanent_failure_at o) -> o' = o) }.

Lemma logged_later db db' id row row' :
  advances db db' -> logged db id row -> same_status row row' ->
  projection_generation row' = projection_generation row -> logged db' id row'.
Proof.
  intros Ha (ev & Hev & Hs) (Hst & _) Hg. exists ev. rewrite Hg. split; [by apply Ha|congruence].
Qed.

#[export] Instance advances_preorder : PreOrder advances.
Proof.
  split.
  - intros db. split; [done| |intros; congruence|by intros oid o Ho; exists o].
    intros id row Hrow. exists row. split; [done|]. split; [done|]. split; [lia|]. split; [done|lia].
  - intros a b c Hab Hbc. split.
    + intros k ev Hk. by apply Hbc, Hab.
    + intros id row Hrow. destruct (adv_tasks _ _ Hab id row Hrow) as (r1 & Hr1 & Hk1 & Hle1 & Hs1 & Hl1).
      destruct (adv_tasks _ _ Hbc id r1 Hr1) as (r2 & Hr2 & Hk2 & Hle2 & Hs2 & Hl2).
      exists r2. split; [done|]. split; [congruence|]. split; [lia|]. split.
      * intros Heq. destruct (Hs1 ltac:(lia)) as (? & ? & ? & ?).
        destruct (Hs2 ltac:(lia)) as (? & ? & ? & ?). repeat split; congruence.
      * intros Hlt. destruct (Z.eq_dec (projection_generation r2) (projection_generation r1)) as [He|Hne].
        -- eapply logged_later; [exact Hbc| |by apply Hs2|done]. apply Hl1. lia.
        -- apply Hl2. lia.
    + intros id r2 Hnone Hr2. destruct (sporos_task b !! id) as [r1|] eqn:Hr1.
      * destruct (adv_tasks _ _ Hbc id r1 Hr1) as (r2' & Hr2' & _ & Hle2 & Hs2 & Hl2).
        rewrite Hr2 in Hr2'. injection Hr2' as <-.
        destruct (Z.eq_dec (projection_generation r2) (projection_generation r1)) as [He|Hne].
        -- eapply logged_later; [exact Hbc| |by apply Hs2|done]. by eapply adv_new.
        -- apply Hl2. lia.
      * by eapply adv_new.
    + intros oid o Ho. destruct (adv_outbox _ _ Hab oid o Ho) as (o1 & Ho1 & Hs1 & Hf1).
      destruct (adv_outbox _ _ Hbc oid o1 Ho1) as (o2 & Ho2 & Hs2 & Hf2). exists o2.
      split; [done|]. split.
      * destruct Hs1 as (? & ? & ? & ? & ? & ?), Hs2 as (? & ? & ? & ? & ? & ?). repeat split; congruence.
      * intros Hd. specialize (Hf1 Hd). subst o1. auto.
Qed.

Lemma same_start_refl o : same_start o o.
Proof. done. Qed.
Lemma same_status_refl row : same_status row row.
Proof. done. Qed.

(** Replacing the row of a task, with its next event when the generation moves. *)
Lemma advances_task db db' id row row' :
  sporos_task db !! id = Some row -> sporos_task db' = <[id := row']> (sporos_task db) ->
  t_kind row' = t_kind row ->
  (forall k ev, sporos_task_event db !! k = Some ev -> sporos_task_event db' !! k = Some ev) ->
  (projection_generation row' = projection_generation row /\ same_status row row' \/
   projection_generation row' = projection_generation row + 1 /\ logged db' id row') ->
  (forall oid o, sporos_outbox db !! oid = Some o -> sporos_outbox db' !! oid = Some o) ->
  advances db db'.
Proof.
  intros Hrow Htasks Hkind Hev Hcase Hout. split; [done| | |].
  - intros i r Hr. rewrite Htasks. destruct (decide (id = i)) as [<-|Hne].
    + rewrite lookup_insert_eq. exists row'. rewrite Hrow in Hr. injection Hr as <-.
      split; [done|]. split; [done|].
      destruct Hcase as [[Hg Hs]|[Hg Hl]]; (split; [lia|]); (split; [|intros; done || lia]); intros; done || lia.
    + rewrite lookup_insert_ne by done. exists r. split; [done|]. split; [done|]. split; [lia|].
      split; [done|lia].
  - intros i r Hnone Hr. rewrite Htasks in Hr. rewrite lookup_insert_ne in Hr by congruence. congruence.
  - intros oid o Ho. exists o. split; [by apply Hout|done].
Qed.

(** Lease and delivery bookkeeping on rows that are not final. *)
Lemma advances_outbox db db' :
  sporos_task db' = sporos_task db -> sporos_task_event db' = sporos_task_event db ->
  (forall oid o, sporos_outbox db !! oid = Some o ->
    exists o', sporos_outbox db' !! oid = Some o' /\ same_start o o' /\
      (is_Some (dispatched_at o) \/ is_Some (permanent_failure_at o) -> o' = o)) ->
  advances db db'.
Proof.
  intros Ht He Ho. split; [by rewrite He| | |done].
  - intros id row Hrow. rewrite Ht. exists row. split; [done|]. split; [done|]. split; [lia|].
    split; [done|lia].
  - intros id row Hn Hs. rewrite Ht in Hs. congruence.
Qed.

(** No row becomes delivered: what is delivered after was so before. *)
Definition quiet (db db' : Db) : Prop :=
  forall oid o, sporos_outbox db' !! oid = Some o ->
    sporos_outbox db !! oid = Some o \/ dispatched_at o = None.

Lemma quiet_same db db' : sporos_outbox db' = sporos_outbox db -> quiet db db'.
Proof. intros Heq oid o. rewrite Heq. by left. Qed.

Lemma quiet_insert db db' row :
  sporos_outbox db' = <[next_rowid (sporos_outbox db) := row]> (sporos_outbox db) ->
  dispatched_at row = None -> quiet db db'.
Proof.
  intros Heq Hd oid o. rewrite Heq. intros [[<- <-]|[_ Ho]]%lookup_insert_Some; [by right|by left].
Qed.

Lemma insert_outbox_keeps (t : gmap Z OutboxRow) row oid o :
  t !! oid = Some o -> <[next_rowid t := row]> t !! oid = Some o.
Proof.
  intros Ho. rewrite lookup_insert_ne; [done|]. intros Heq.
  rewrite <- Heq in Ho. by rewrite next_rowid_fresh in Ho.
Qed.

(** One protocol step that delivers nothing, on a well-formed store. *)
Definition moves (db db' : Db) : Prop := advances db db' /\ quiet db db'.

#[export] Instance moves_preorder : PreOrder moves.
Proof.
  split.
  - intros db. split; [reflexivity|by apply quiet_same].
  - intros a b c [Hab Hqab] [Hbc Hqbc]. split; [by etransitivity|].
    intros oid o Ho. destruct (Hqbc oid o Ho) as [Hb|]; [by apply Hqab|by right].
Qed.

Lemma hoare_exec {E F A} R P (wrap : F -> E) (m : Tx F A) Q :
  hoare R P m Q -> hoare R P (exec wrap m) Q.
Proof.
  intros Hm db HP. specialize (Hm db HP). unfold exec. destruct (m db) as [db' [a|e]]; done.
Qed.

Lemma hoare_transaction {E A} (R : relation Db) `{!PreOrder R} P (m : Tx E A) Q :
  hoare R P m Q -> hoare R P (transaction m) Q.
Proof.
  intros Hm db HP. specialize (Hm db HP). unfold transaction.
  destruct (m db) as [db' [a|e]]; [done|]. cbn. split; [reflexivity|done].
Qed.

Lemma db_ok_empty : db_ok empty_db.
Proof. split; cbn; try (intros; by apply map_Forall_empty); intros *; rewrite ?lookup_empty; by intros []. Qed.

#[export] Hint Resolve db_ok_empty next_rowid_fresh : sporos.
