(* ===== verification/Ingress.v ===== *)
(** Durable ingress (durable_ingress.rs): a task, its first event and the start
    of its workflow are committed together, at most once per identity. *)

From S2P Require Import Prelude Text Store.
From stdpp Require Import strings.
Local Open Scope Z_scope.

(** ** Definitions *)

Record PolicySnapshot := mkPolicySnapshot {
  ps_id : str; config_hash : str; matcher_version : str; payload_json : str; ps_created_at : Z }.

Record NewTask := mkNewTask {
  nt_id : str;
  nt_key : str;
  nt_kind : str;
  nt_policy : PolicySnapshot;
  orchestration_name : str;
  orchestration_version : str;
  instance_id : str;
  input_json : str;
  nt_created_at : Z }.

Record AcceptedTask := mkAcceptedTask { at_id : str; duplicate : bool }.

Inductive DurableIngressError :=
| Database (e : SqlError)
| PolicyIdentityCollision
| TaskIdentityCollision
| TaskKeyCollision
| OutboxIdentityCollision.

Abbreviation Ingress A := (Tx DurableIngressError A).

Definition policy_row (p : PolicySnapshot) : PolicyRow :=
  mkPolicyRow (config_hash p) (matcher_version p) (payload_json p) (ps_created_at p).

Definition verify_policy (expected : PolicySnapshot) : Ingress () :=
  row ← (exec Database (fetch_one (fun db => sporos_policy_snapshot db !! ps_id expected))
         : Ingress PolicyRow);
  if str_eqb (pr_config_hash row) (config_hash expected)
     && str_eqb (pr_matcher_version row) (matcher_version expected)
     && str_eqb (pr_payload_json row) (payload_json expected)
  then mret () else throw PolicyIdentityCollision.

Definition verify_task (expected : NewTask) : Ingress () :=
  row ← (exec Database (fetch_one (fun db => sporos_task db !! nt_id expected))
         : Ingress TaskRow);
  if str_eqb (t_kind row) (nt_kind expected)
     && str_eqb (duroxide_instance_id row) (instance_id expected)
     && str_eqb (policy_snapshot_id row) (ps_id (nt_policy expected))
  then mret () else throw TaskIdentityCollision.

Definition verify_outbox (expected : NewTask) : Ingress () :=
  row ← (exec Database (fetch_one (fun db =>
           snd <$> head (outbox_with_key (nt_key expected) (sporos_outbox db))))
         : Ingress OutboxRow);
  if negb (str_eqb (o_task_id row) (nt_id expected)) then throw TaskKeyCollision else
  if str_eqb (o_orchestration_name row) (orchestration_name expected)
     && str_eqb (o_orchestration_version row) (orchestration_version expected)
     && str_eqb (o_instance_id row) (instance_id expected)
     && str_eqb (o_input_json row) (input_json expected)
  then mret () else throw OutboxIdentityCollision.

Definition new_task_row (task : NewTask) : TaskRow :=
  fresh_task (nt_kind task) (instance_id task) (ps_id (nt_policy task)) None (nt_created_at task).
Definition new_outbox_row (task : NewTask) : OutboxRow :=
  queued_outbox (nt_id task) (nt_key task) (orchestration_name task)
    (orchestration_version task) (instance_id task) (input_json task) (nt_created_at task).

Definition accept_task_in (task : NewTask) : Ingress bool :=
  _ ← exec Database (insert_policy_ignore (ps_id (nt_policy task)) (policy_row (nt_policy task)));
  _ ← verify_policy (nt_policy task);
  _ ← exec Database (insert_task_ignore (nt_id task) (new_task_row task));
  _ ← verify_task task;
  _ ← exec Database (insert_event true (nt_id task) 0
                       (mkEventRow (lit "queued") None None (nt_created_at task)));
  inserted ← exec Database (insert_outbox true (new_outbox_row task));
  _ ← verify_outbox task;
  mret (inserted =? 1).

Definition accept_task (task : NewTask) : Ingress AcceptedTask :=
  transaction (inserted ← accept_task_in task;
               mret (mkAcceptedTask (nt_id task) (negb inserted))).

(** ** Lemmas *)

(** Everything the verification queries compare; the times of the request are
    not part of its identity. *)
Definition same_identity (a b : NewTask) : Prop :=
  nt_id a = nt_id b /\ nt_key a = nt_key b /\ nt_kind a = nt_kind b /\
  ps_id (nt_policy a) = ps_id (nt_policy b) /\
  config_hash (nt_policy a) = config_hash (nt_policy b) /\
  matcher_version (nt_policy a) = matcher_version (nt_policy b) /\
  payload_json (nt_policy a) = payload_json (nt_policy b) /\
  orchestration_name a = orchestration_name b /\
  orchestration_version a = orchestration_version b /\
  instance_id a = instance_id b /\ input_json a = input_json b.

(** The store holds the task: its policy, its row, its first event and its start. *)
Record stored (task : NewTask) (db : Db) : Prop := {
  st_policy : exists p, sporos_policy_snapshot db !! ps_id (nt_policy task) = Some p /\
    pr_config_hash p = config_hash (nt_policy task) /\
    pr_matcher_version p = matcher_version (nt_policy task) /\
    pr_payload_json p = payload_json (nt_policy task);
  st_task : exists t, sporos_task db !! nt_id task = Some t /\ t_kind t = nt_kind task /\
    duroxide_instance_id t = instance_id task /\ policy_snapshot_id t = ps_id (nt_policy task);
  st_event : is_Some (sporos_task_event db !! (nt_id task, 0));
  st_outbox : exists p rest, outbox_with_key (nt_key task) (sporos_outbox db) = p :: rest /\
    o_task_id p.2 = nt_id task /\ o_orchestration_name p.2 = orchestration_name task /\
    o_orchestration_version p.2 = orchestration_version task /\
    o_instance_id p.2 = instance_id task /\ o_input_json p.2 = input_json task }.

Lemma fetch_one_Ok {E A} (wrap : SqlError -> E) (f : Db -> option A) db db' a :
  exec wrap (fetch_one f) db = (db', Ok a) <-> db' = db /\ f db = Some a.
Proof. rewrite exec_Ok. unfold fetch_one, reads. destruct (f db); cbn; naive_solver. Qed.

Lemma verify_policy_Ok expected db db' u :
  verify_policy expected db = (db', Ok u) <->
  db' = db /\ exists p, sporos_policy_snapshot db !! ps_id expected = Some p /\
    pr_config_hash p = config_hash expected /\ pr_matcher_version p = matcher_version expected /\
    pr_payload_json p = payload_json expected.
Proof.
  unfold verify_policy. rewrite M_bind_Ok. setoid_rewrite fetch_one_Ok. split.
  - intros (db1 & p & [-> Hp] & H). destruct (_ && _) eqn:Hc; [|done]. injection H as <- <-.
    rewrite !andb_true_iff, !str_eqb_spec in Hc. naive_solver.
  - intros (-> & p & Hp & H1 & H2 & H3). exists db, p. split; [done|].
    rewrite (proj2 (str_eqb_spec _ _) H1), (proj2 (str_eqb_spec _ _) H2),
      (proj2 (str_eqb_spec _ _) H3). by destruct u.
Qed.

Lemma verify_task_Ok expected db db' u :
  verify_task expected db = (db', Ok u) <->
  db' = db /\ exists t, sporos_task db !! nt_id expected = Some t /\ t_kind t = nt_kind expected /\
    duroxide_instance_id t = instance_id expected /\
    policy_snapshot_id t = ps_id (nt_policy expected).
Proof.
  unfold verify_task. rewrite M_bind_Ok. setoid_rewrite fetch_one_Ok. split.
  - intros (db1 & p & [-> Hp] & H). destruct (_ && _) eqn:Hc; [|done]. injection H as <- <-.
    rewrite !andb_true_iff, !str_eqb_spec in Hc. naive_solver.
  - intros (-> & p & Hp & H1 & H2 & H3). exists db, p. split; [done|].
    rewrite (proj2 (str_eqb_spec _ _) H1), (proj2 (str_eqb_spec _ _) H2),
      (proj2 (str_eqb_spec _ _) H3). by destruct u.
Qed.

Lemma verify_outbox_Ok expected db db' u :
  verify_outbox expected db = (db', Ok u) <->
  db' = db /\ exists p rest, outbox_with_key (nt_key expected) (sporos_outbox db) = p :: rest /\
    o_task_id p.2 = nt_id expected /\ o_orchestration_name p.2 = orchestration_name expected /\
    o_orchestration_version p.2 = orchestration_version expected /\
    o_instance_id p.2 = instance_id expected /\ o_input_json p.2 = input_json expected.
Proof.
  unfold verify_outbox. rewrite M_bind_Ok. setoid_rewrite fetch_one_Ok. split.
  - intros (db1 & o & [-> Ho] & H).
    destruct (outbox_with_key _ _) as [|p rest]; [done|]. injection Ho as <-.
    destruct (negb _) eqn:Hn; [done|]. apply negb_false_iff, str_eqb_spec in Hn.
    destruct (_ && _) eqn:Hc; [|done]. injection H as <- <-.
    rewrite !andb_true_iff, !str_eqb_spec in Hc. split; [done|]. exists p, rest. naive_solver.
  - intros (-> & p & rest & Hp & H0 & H1 & H2 & H3 & H4). exists db, p.2. rewrite Hp.
    split; [done|]. rewrite (proj2 (str_eqb_spec _ _) H0), (proj2 (str_eqb_spec _ _) H1),
      (proj2 (str_eqb_spec _ _) H2), (proj2 (str_eqb_spec _ _) H3),
      (proj2 (str_eqb_spec _ _) H4). by destruct u.
Qed.

Lemma stored_same_identity a b db : same_identity a b -> stored a db -> stored b db.
Proof.
  intros (H1 & H2 & H3 & H4 & H5 & H6 & H7 & H8 & H9 & H10 & H11) [Hp Ht He Ho].
  rewrite ?H1, ?H2, ?H3, ?H4, ?H5, ?H6, ?H7, ?H8, ?H9, ?H10, ?H11 in *. by split.
Qed.

(** A stored task is accepted again without any change. *)
Lemma accept_in_stored task db : stored task db -> accept_task_in task db = (db, Ok false).
Proof.
  intros [Hp Ht He Ho]. unfold accept_task_in, mbind, M_bind.
  assert (exec Database (insert_policy_ignore (ps_id (nt_policy task)) (policy_row (nt_policy task))) db
    = (db, Ok 0)) as ->.
  { destruct Hp as (p & Hp & _). unfold exec, insert_policy_ignore, insert_new. by rewrite Hp. }
  rewrite (proj2 (verify_policy_Ok _ db db tt)) by (split; [done|exact Hp]).
  assert (exec Database (insert_task_ignore (nt_id task) (new_task_row task)) db = (db, Ok 0)) as ->.
  { destruct Ht as (t & Ht & _). unfold exec, insert_task_ignore, insert_new. by rewrite Ht. }
  rewrite (proj2 (verify_task_Ok _ db db tt)) by (split; [done|exact Ht]).
  assert (exec Database (insert_event true (nt_id task) 0
    (mkEventRow (lit "queued") None None (nt_created_at task))) db = (db, Ok 0)) as ->.
  { destruct He as [e He]. unfold exec, insert_event, insert_new. cbn. by rewrite He. }
  assert (exec Database (insert_outbox true (new_outbox_row task)) db = (db, Ok 0)) as ->.
  { destruct Ho as (p & rest & Hp' & _). unfold exec, insert_outbox.
    change (o_task_key (new_outbox_row task)) with (nt_key task). by rewrite Hp'. }
  by rewrite (proj2 (verify_outbox_Ok _ db db tt)) by (split; [done|exact Ho]).
Qed.

(** What a successful acceptance went through. *)
Lemma accept_in_Ok task db db' b :
  db_ok db -> accept_task_in task db = (db', Ok b) ->
  stored task db' /\ db_ok db' /\
  (b = true <-> sporos_task db !! nt_id task = None) /\
  (forall id, id <> nt_id task -> sporos_task db' !! id = sporos_task db !! id) /\
  (forall row, sporos_task db !! nt_id task = Some row -> sporos_task db' !! nt_id task = Some row) /\
  advances db db' /\ quiet db db'.
Proof.
  intros Hok. unfold accept_task_in.
  rewrite M_bind_Ok. intros (db1 & n1 & Hpol%exec_Ok & H1).
  rewrite M_bind_Ok in H1. destruct H1 as (db1' & [] & [-> Hvp]%verify_policy_Ok & H1).
  rewrite M_bind_Ok in H1. destruct H1 as (db2 & n2 & Htask%exec_Ok & H1).
  rewrite M_bind_Ok in H1. destruct H1 as (db2' & [] & [-> Hvt]%verify_task_Ok & H1).
  rewrite M_bind_Ok in H1. destruct H1 as (db3 & n3 & Hev%exec_Ok & H1).
  rewrite M_bind_Ok in H1. destruct H1 as (db4 & n4 & Hout%exec_Ok & H1).
  rewrite M_bind_Ok in H1. destruct H1 as (db4' & [] & [-> Hvo]%verify_outbox_Ok & [= <- <-]).
  apply insert_policy_tables in Hpol as (Ht1 & He1 & Ho1).
  assert (db_ok db1) as Hok1 by (by eapply db_ok_ext).
  assert (advances db db1) as Hadv1.
  { apply advances_outbox; [done..|]. intros oid o Ho. rewrite Ho1. by exists o. }
  assert (quiet db db1) as Hq1 by (by apply quiet_same).
  rewrite <- !Ht1 in *.
  apply insert_task_Ok in Htask as [[[row Hrow] ->]|[Hnone ->]].
  - (* the task was there *)
    destruct Hvt as (t & Ht & Hkind & Hinst & Hpid).
    destruct (ok_tasks _ Hok1 _ _ Ht) as [Hg Hevs (oid & o & Ho & Hoid & Hoi)].
    apply insert_event_Ok in Hev as [(-> & _ & He & ->)|(-> & _ & He & _ & ->)].
    2: { exfalso. specialize (proj2 (Hevs 0)). rewrite He. intros H. destruct H; [lia|done]. }
    apply insert_outbox_Ok in Hout as [(-> & _ & -> & _)|(-> & -> & _ & Hfresh)].
    2: { exfalso. destruct (Hfresh oid o Ho) as [_ Hne]. apply Hne. cbn. congruence. }
    split; [by split; [|exists t| |]|]. split; [done|]. split; [rewrite Ht; done|].
    split; [done|]. done.
  - (* a new task *)
    assert (forall k, sporos_task_event db1 !! (nt_id task, k) = None) as Hnoev.
    { intros k. destruct (sporos_task_event db1 !! (nt_id task, k)) eqn:He; [|done].
      destruct (ok_events _ Hok1 (nt_id task) k) as [? ?]; [by rewrite He|congruence]. }
    apply insert_event_Ok in Hev as [(_ & _ & He & _)|(-> & _ & _ & _ & ->)].
    { cbn in He. rewrite Hnoev in He. by destruct He. }
    apply insert_outbox_Ok in Hout as [(-> & _ & -> & _)|(-> & -> & _ & Hfresh)].
    { exfalso. destruct Hvo as (p & rest & Hp & Hid & _). cbn in Hp.
      apply outbox_with_key_cons in Hp as [Hp _].
      destruct (ok_outbox_task _ Hok1 _ _ Hp) as [r Hr]. congruence. }
    cbn [sporos_outbox set_events set_tasks] in *.
    split; [|split; [|split; [|split; [|split; [|split]]]]].
    + split; [done|exact Hvt| |exact Hvo]. cbn. by rewrite lookup_insert_eq.
    + eapply (db_ok_ext (set_outbox (fun t => <[next_rowid (sporos_outbox db1) := new_outbox_row task]> t)
        (set_events (fun t => <[(nt_id task, 0) := mkEventRow (lit "queued") None None (nt_created_at task)]> t)
          (set_tasks (fun t => <[nt_id task := new_task_row task]> t) db1)))); [done..|].
      apply db_ok_new_task; try done. apply next_rowid_fresh.
    + by rewrite Hnone.
    + intros id Hne. cbn. by rewrite lookup_insert_ne.
    + intros row Hrow. congruence.
    + etransitivity; [exact Hadv1|]. split; cbn.
      * intros k ev Hk. rewrite lookup_insert_ne; [done|]. intros <-. by rewrite Hnoev in Hk.
      * intros id row Hrow. exists row. rewrite lookup_insert_ne by congruence.
        split; [done|]. split; [done|]. split; [lia|]. split; [done|lia].
      * intros id row Hn Hs. apply lookup_insert_Some in Hs as [[<- <-]|[_ Hs]]; [|congruence].
        eexists. cbn. rewrite lookup_insert_eq. done.
      * intros oid o Ho. exists o. split; [by apply insert_outbox_keeps|done].
    + intros oid o Ho. cbn in Ho. apply lookup_insert_Some in Ho as [[_ <-]|[_ Ho]]; [by right|].
      by apply Hq1.
Qed.

Lemma accept_task_step task db :
  db_ok db ->
  db_ok (accept_task task db).1 /\ advances db (accept_task task db).1 /\
  quiet db (accept_task task db).1.
Proof.
  intros Hok. destruct (accept_task task db) as [db' [a|e]] eqn:Ha.
  - unfold accept_task in Ha. rewrite transaction_Ok, M_bind_Ok in Ha.
    destruct Ha as (db1 & b & Hb & [= <- <-]).
    destruct (accept_in_Ok _ _ _ _ Hok Hb) as (_ & Hok' & _ & _ & _ & Hadv & Hq). done.
  - apply transaction_Err in Ha as [-> _]. split; [done|]. split; [reflexivity|by apply quiet_same].
Qed.

Lemma accept_task_ok task db : db_ok db -> db_ok (accept_task task db).1.
Proof. intros Hok. by apply accept_task_step. Qed.

(** Accepting a task is idempotent and atomic.  It either fails and leaves
    the store as it was, or stores the task (its policy, row, first event and
    workflow start), reporting a duplicate exactly when the task row was there
    before; the rows of other tasks, and of the task itself if it existed, are
    untouched.  Accepting the same identity again, whatever the time of the
    request, then reports a duplicate and changes nothing. *)
Theorem accept_task_idempotent (task again : NewTask) (db : Db) :
  db_ok db -> same_identity task again ->
  match accept_task task db with
  | (db', Ok accepted) =>
      at_id accepted = nt_id task /\
      (duplicate accepted = true <-> is_Some (sporos_task db !! nt_id task)) /\
      stored task db' /\
      (forall id row, sporos_task db !! id = Some row -> sporos_task db' !! id = Some row) /\
      accept_task again db' = (db', Ok (mkAcceptedTask (nt_id task) true))
  | (db', Err _) => db' = db
  end.
Proof.
  intros Hok Hsame. destruct (accept_task task db) as [db' [a|e]] eqn:Ha.
  2: { by apply transaction_Err in Ha as [-> _]. }
  unfold accept_task in Ha. rewrite transaction_Ok, M_bind_Ok in Ha.
  destruct Ha as (db1 & b & Hb & [= <- <-]).
  destruct (accept_in_Ok _ _ _ _ Hok Hb) as (Hst & _ & Hdup & Hother & Hself & _).
  split; [done|]. split.
  { cbn. destruct (sporos_task db !! nt_id task) as [row|] eqn:Hrow.
    - destruct b; [|split; [by eexists|done]]. discriminate (proj1 Hdup eq_refl).
    - rewrite (proj2 Hdup eq_refl). cbn. split; [done|by intros []]. }
  split; [done|]. split.
  { intros id row Hrow. destruct (decide (id = nt_id task)) as [->|Hne]; [by apply Hself|].
    by rewrite Hother. }
  assert (nt_id task = nt_id again) as -> by apply Hsame.
  unfold accept_task. rewrite transaction_Ok, M_bind_Ok. exists db1, false. split; [|done].
  apply accept_in_stored. by eapply stored_same_identity.
Qed.

Definition sample_task : NewTask :=
  mkNewTask (lit "task") (lit "key") (lit "process_candidate")
    (mkPolicySnapshot (lit "policy") (lit "hash") (lit "v1") (lit "{}") 5)
    (lit "ProcessCandidate") (lit "1.0.0") (lit "candidate-v1:1") (lit "{}") 5.

Lemma accept_task_idempotent_witness :
  exists db', accept_task sample_task empty_db = (db', Ok (mkAcceptedTask (lit "task") false)) /\
    accept_task sample_task db' = (db', Ok (mkAcceptedTask (lit "task") true)).
Proof.
  pose proof (accept_task_idempotent sample_task sample_task empty_db db_ok_empty
    ltac:(unfold same_identity; tauto)) as H.
  destruct (accept_task sample_task empty_db) as [db' r] eqn:Hr.
  assert (r = Ok (mkAcceptedTask (lit "task") false)) as ->.
  { assert ((accept_task sample_task empty_db).2 = r) as <- by (by rewrite Hr).
    vm_compute. reflexivity. }
  exists db'. split; [reflexivity|]. apply H.
Defined.
