(* ===== verification/Duroxide.v ===== *)
(** The workflow runtime and JSON as the program sees them.

    Duroxide (vendored, third party) and serde_json are interfaces: the types
    below are the parts of Duroxide's public types that the program inspects,
    [Client] is what it calls, [Json] the encoders and decoders it relies on.
    activity_failure.rs, the program's own classification of activity errors, is
    modelled over [Json]. *)

From S2P Require Import Prelude Text.
From stdpp Require Import strings pretty.
Local Open Scope Z_scope.

(** ** Status of an instance *)

Inductive AppErrorKind := ActivityFailed | OrchestrationFailed | Panicked | Cancelled (reason : str).

Inductive ErrorDetails :=
| Infrastructure (message : str)
| Configuration (message : str)
| Application (kind : AppErrorKind) (message : str)
| Poison.

Definition category (d : ErrorDetails) : str :=
  match d with
  | Infrastructure _ => lit "infrastructure"
  | Configuration _ => lit "configuration"
  | Application _ _ => lit "application"
  | Poison => lit "poison"
  end.

Inductive OrchestrationStatus :=
| NotFound
| Running
| Completed (output : str)
| Failed (details : ErrorDetails).

Inductive RootOrchestrationStart := Same | Collision | Missing.

(** What a start names; the identity that Duroxide compares. *)
Record RootStart := mkRootStart {
  rs_instance_id : str; rs_orchestration_name : str; rs_orchestration_version : str;
  rs_input_json : str }.

(** ** The client *)

Class Client := {
  runtime : Type;
  ClientError : Type;
  is_retryable : ClientError -> bool;
  start_orchestration_versioned : RootStart -> runtime -> runtime * result ClientError ();
  inspect_root_orchestration_start : RootStart -> runtime -> result ClientError RootOrchestrationStart;
  get_orchestration_status : str -> runtime -> result ClientError OrchestrationStatus;
  cancel_instance : str -> runtime -> runtime * result ClientError ();
  accepted : runtime -> RootStart -> Prop }.

(** A start that returns [Ok], or that inspection reports as [Same], has been
    accepted; accepting is durable. *)
Class ClientLaws `{Client} : Prop := {
  start_accepted : forall s c c', start_orchestration_versioned s c = (c', Ok ()) -> accepted c' s;
  inspect_accepted : forall s c, inspect_root_orchestration_start s c = Ok Same -> accepted c s;
  start_durable : forall s c s', accepted c s' -> accepted (start_orchestration_versioned s c).1 s';
  cancel_durable : forall i c s', accepted c s' -> accepted (cancel_instance i c).1 s' }.

(** ** JSON and activity failures *)

Inductive FailureClass := Transient | Permanent.
Record ActivityFailure := mkActivityFailure {
  af_class : FailureClass; af_code : str; af_message : str }.

Class Json := {
  json_valid : str -> bool;
  json_get_str : str -> str -> option str;
  json_object : list (str * str) -> str;
  decode_failure : str -> option ActivityFailure;
  encode_failure : ActivityFailure -> str }.

Class JsonLaws `{Json} : Prop := {
  object_valid : forall fields, json_valid (json_object fields) = true;
  failure_roundtrip : forall f, decode_failure (encode_failure f) = Some f }.

Section ActivityFailures.
Context `{Json}.

Definition encode (class : FailureClass) (code message : str) : str :=
  encode_failure (mkActivityFailure class code message).
Definition transient (code message : str) : str := encode Transient code message.
Definition permanent (code message : str) : str := encode Permanent code message.

Definition retryable (raw : str) : bool :=
  match decode_failure raw with
  | Some failure => match af_class failure with Transient => true | Permanent => false end
  | None => false
  end.

Definition permanent_reason (raw : str) : option str :=
  failure ← decode_failure raw;
  match af_class failure with Permanent => Some (af_code failure) | Transient => None end.

Context `{!JsonLaws}.

(** A failure is retried exactly when it was recorded as transient, and only a
    permanent one has a reason to show. *)
Lemma failure_classification code message :
  retryable (transient code message) = true /\ permanent_reason (transient code message) = None /\
  retryable (permanent code message) = false /\
  permanent_reason (permanent code message) = Some code.
Proof using All.
  unfold retryable, permanent_reason, transient, permanent, encode.
  rewrite !failure_roundtrip. done.
Qed.
End ActivityFailures.

(** SHA-256, from the third-party crate [sha2]. *)
Class Digest := { sha256 : str -> str }.

(** [format!("{}", n)] for an integer, [format!("{byte:02x}")] per byte *)
Definition decimal (n : Z) : str := lit (pretty n).
Definition hex_digit (n : Z) : Z := if n <? 10 then 48 + n else 87 + n.
Definition hex (value : str) : str :=
  concat (map (fun byte => [hex_digit (byte / 16); hex_digit (byte mod 16)]) value).

(** ** Concrete instances *)

(** Not a cryptographic hash: the identity, which at least has no collision. *)
#[export] Instance sample_digest : Digest := {| sha256 s := s |}.

(** A runtime that records the starts it accepted; an instance id is used once. *)
Inductive sample_error := Unavailable | Rejected.

#[export] Instance RootStart_eq_dec : EqDecision RootStart.
Proof. solve_decision. Defined.

#[export] Instance sample_client : Client := {|
  runtime := list RootStart;
  ClientError := sample_error;
  is_retryable e := match e with Unavailable => true | Rejected => false end;
  start_orchestration_versioned s c :=
    if bool_decide (rs_instance_id s ∈ map rs_instance_id c) then (c, Err Rejected)
    else (s :: c, Ok ());
  inspect_root_orchestration_start s c :=
    Ok (if bool_decide (s ∈ c) then Same
        else if bool_decide (rs_instance_id s ∈ map rs_instance_id c) then Collision else Missing);
  get_orchestration_status i c :=
    Ok (if bool_decide (i ∈ map rs_instance_id c) then Completed (lit "done") else NotFound);
  cancel_instance _ c := (c, Ok ());
  accepted c s := s ∈ c |}.

#[export] Instance sample_client_laws : ClientLaws.
Proof.
  split; cbn.
  - intros s c c'. case_bool_decide; [done|]. intros [= <-]. left.
  - intros s c. case_bool_decide; [done|]. by case_bool_decide.
  - intros s c s' Hs. case_bool_decide; [done|]. by right.
  - done.
Qed.

(** A toy encoding: fields are length-prefixed. *)
Definition frame (s : str) : str := Z.of_nat (length s) :: s.
Definition unframe (s : str) : option (str * str) :=
  match s with
  | [] => None
  | n :: s => Some (take (Z.to_nat n) s, drop (Z.to_nat n) s)
  end.

#[export] Instance sample_json : Json := {|
  json_valid _ := true;
  json_get_str _ _ := None;
  json_object fields := concat (map (fun p => frame p.1 ++ frame p.2) fields);
  encode_failure f := (match af_class f with Transient => 0 | Permanent => 1 end)
                        :: frame (af_code f) ++ frame (af_message f);
  decode_failure s :=
    match s with
    | [] => None
    | c :: s =>
        '(code, s) ← unframe s;
        '(message, _) ← unframe s;
        Some (mkActivityFailure (if c =? 0 then Transient else Permanent) code message)
    end |}.

#[export] Instance sample_json_laws : JsonLaws.
Proof.
  split; [done|]. intros [c code message]. cbn.
  rewrite Nat2Z.id, take_app_length, drop_app_length. cbn. rewrite Nat2Z.id, firstn_all.
  by destruct c.
Qed.
