(* ===== verification/Projection.v ===== *)
(** Task projection (task_projection.rs): the operator-facing state of a task
    advances by compare-and-swap on its generation, and finished workflows whose
    projection was lost are repaired from the runtime. *)

From S2P Require Import Prelude Text Store Duroxide.
From S2P Require Ingress.
From stdpp Require Import strings sorting.
Local Open Scope Z_scope.

(** ** Definitions *)

Record ProjectionUpdate := mkProjectionUpdate {
  task_id : str;
  expected_generation : Z;
  state : str;
  reason_code : option str;
  execution_id : option str;
  pu_observed_retry_count : Z;
  detail_json : option str;
  occurred_at : Z;
  terminal : bool }.

Inductive ProjectionOutcome :=
| Applied (generation : Z)
| AlreadyApplied (generation : Z)
| Stale (actual_generation : Z)
| Terminal (generation : Z)
| Missing.

Inductive ProjectionError :=
| Database (e : SqlError)
| EmptyState
| InvalidDetail
| GenerationOverflow
| ValueOverflow
| CorruptGeneration.

Record ProjectionRepairReport := mkReport { inspected : Z; repaired : Z }.

Section Projection.
Context `{Json}.

Abbreviation Tx' A := (Tx ProjectionError A).

Definition validate (update : ProjectionUpdate) : result ProjectionError () :=
  if bool_decide (state update = []) then Err EmptyState else
  match detail_json update with
  | Some detail => if json_valid detail then Ok () else Err InvalidDetail
  | None => Ok ()
  end.

Definition to_i64 (value : Z) : result ProjectionError Z := ok_or (i64_try_from value) ValueOverflow.
Definition to_u64 (value : Z) : result ProjectionError Z := ok_or (u64_try_from value) CorruptGeneration.

Definition event_matches (update : ProjectionUpdate) (sequence : Z) : Tx' bool :=
  sequence ← (liftr (to_i64 sequence) : Tx' Z);
  event ← (exec Database (select (fun db => sporos_task_event db !! (task_id update, sequence)))
           : Tx' (option EventRow));
  mret match event with
       | None => false
       | Some event =>
           bool_decide (e_state event = state update)
           && bool_decide (e_reason_code event = reason_code update)
           && bool_decide (e_detail_json event = detail_json update)
       end.

(** Read after the rollback of a transaction that changed nothing. *)
Definition current_outcome (update : ProjectionUpdate) : Tx' ProjectionOutcome :=
  row ← (exec Database (select (fun db => sporos_task db !! task_id update)) : Tx' (option TaskRow));
  match row with
  | None => mret Missing
  | Some row =>
      generation ← (liftr (to_u64 (projection_generation row)) : Tx' Z);
      match terminal_at row with
      | Some _ => mret (Terminal generation)
      | None => mret (Stale generation)
      end
  end.

(** [SET state = ?, projection_generation = ?, ...] *)
Definition projected (update : ProjectionUpdate) (next_generation retry_count : Z) (row : TaskRow)
  : TaskRow :=
  {| t_kind := t_kind row; t_state := state update;
     projection_generation := next_generation; t_operation_id := t_operation_id row;
     duroxide_instance_id := duroxide_instance_id row;
     duroxide_execution_id := execution_id update;
     policy_snapshot_id := policy_snapshot_id row; t_reason_code := reason_code update;
     last_error_class := last_error_class row; last_error_message := last_error_message row;
     observed_retry_count := retry_count; t_created_at := t_created_at row;
     updated_at := occurred_at update;
     terminal_at := if terminal update then Some (occurred_at update) else None;
     projection_repair_checked_at := projection_repair_checked_at row |}.

Definition update_event (update : ProjectionUpdate) : EventRow :=
  mkEventRow (state update) (reason_code update) (detail_json update) (occurred_at update).

Definition project_in (update : ProjectionUpdate) : Tx' ProjectionOutcome :=
  row ← (exec Database (select (fun db => sporos_task db !! task_id update)) : Tx' (option TaskRow));
  match row with
  | None => mret Missing
  | Some row =>
      generation ← (liftr (to_u64 (projection_generation row)) : Tx' Z);
      if negb (generation =? expected_generation update) then
        matches ← (if generation =? saturating_add_u64 (expected_generation update) 1
                   then event_matches update generation else mret false);
        mret (if (matches : bool) then AlreadyApplied generation else Stale generation)
      else
        match terminal_at row with
        | Some _ => mret (Terminal generation)
        | None =>
            next_generation ← (liftr (ok_or (checked_add_u64 generation 1) GenerationOverflow) : Tx' Z);
            next_generation_i64 ← (liftr (to_i64 next_generation) : Tx' Z);
            retry_count ← (liftr (to_i64 (pu_observed_retry_count update)) : Tx' Z);
            expected ← (liftr (to_i64 (expected_generation update)) : Tx' Z);
            changed ← exec Database (update_task (task_id update)
              (fun row => (projection_generation row =? expected)
                          && bool_decide (terminal_at row = None))
              (projected update next_generation_i64 retry_count));
            if negb (changed =? 1) then current_outcome update else
            _ ← exec Database (insert_event false (task_id update) next_generation_i64
                                 (update_event update));
            mret (Applied next_generation)
        end
  end.

Definition project_task (update : ProjectionUpdate) : M Db ProjectionError ProjectionOutcome :=
  _ ← (liftr (validate update) : Tx' ());
  transaction (project_in update).

(** *** Repair *)

Definition repaired_terminal (status : OrchestrationStatus) : option (str * str * str) :=
  match status with
  | Completed output =>
      Some (default (lit "completed") (json_get_str output (lit "state")),
            default (lit "workflow_completed") (json_get_str output (lit "reason_code")),
            json_object [(lit "source", lit "duroxide_projection_repair")])
  | Failed details =>
      let cancelled := match details with Application (Cancelled _) _ => true | _ => false end in
      let classified_reason := match details with
                               | Application _ message => permanent_reason message
                               | _ => None
                               end in
      Some (if cancelled then lit "cancelled" else lit "failed",
            if cancelled then lit "workflow_cancelled"
            else default (lit "workflow_failed") classified_reason,
            json_object [(lit "source", lit "duroxide_projection_repair");
                         (lit "category", category details)])
  | NotFound | Running => None
  end.

Context `{Client}.

Inductive ProjectionRepairError :=
| RepairDatabase (e : SqlError)
| RepairDuroxide (e : ClientError)
| RepairProjection (e : ProjectionError).

(** [ORDER BY projection_repair_checked_at IS NOT NULL, projection_repair_checked_at,
    updated_at, id] *)
Definition repair_leb (a b : str * TaskRow) : bool :=
  match projection_repair_checked_at a.2, projection_repair_checked_at b.2 with
  | None, Some _ => true
  | Some _, None => false
  | ca, cb =>
      let ca := default 0 ca in let cb := default 0 cb in
      if ca <? cb then true else if cb <? ca then false else
      if updated_at a.2 <? updated_at b.2 then true
      else if updated_at b.2 <? updated_at a.2 then false
      else str_leb a.1 b.1
  end.

Definition repair_rows (limit : nat) (db : Db) : list (str * TaskRow) :=
  take limit (sort_by repair_leb
    (filter (fun p => terminal_at p.2 = None) (map_to_list (sporos_task db)))).

Definition checked (at_ : Z) (row : TaskRow) : TaskRow :=
  {| t_kind := t_kind row; t_state := t_state row;
     projection_generation := projection_generation row; t_operation_id := t_operation_id row;
     duroxide_instance_id := duroxide_instance_id row;
     duroxide_execution_id := duroxide_execution_id row;
     policy_snapshot_id := policy_snapshot_id row; t_reason_code := t_reason_code row;
     last_error_class := last_error_class row; last_error_message := last_error_message row;
     observed_retry_count := observed_retry_count row; t_created_at := t_created_at row;
     updated_at := updated_at row; terminal_at := terminal_at row;
     projection_repair_checked_at := Some at_ |}.

(** The transaction that advances the repair cursor before remote inspection. *)
Definition advance_cursor (at_ : Z) (rows : list (str * TaskRow)) : Tx ProjectionRepairError () :=
  _ ← collectM (fun row : str * TaskRow =>
        exec RepairDatabase (update_task row.1 (fun r => bool_decide (terminal_at r = None)) (checked at_)))
      rows;
  mret ().

Definition repair_update (at_ : Z) (row : str * TaskRow) (terminal_state : str * str * str)
  : result ProjectionError ProjectionUpdate :=
  let '(s, reason, detail) := terminal_state in
  generation ← to_u64 (projection_generation row.2);
  retries ← to_u64 (observed_retry_count row.2);
  Ok {| task_id := row.1; expected_generation := generation; state := s;
        reason_code := Some reason; execution_id := duroxide_execution_id row.2;
        pu_observed_retry_count := retries; detail_json := Some detail;
        occurred_at := at_; terminal := true |}.

(** One iteration of the loop over the selected rows. *)
Definition repair_one (c : runtime) (at_ : Z) (report : ProjectionRepairReport)
    (row : str * TaskRow) : M Db ProjectionRepairError ProjectionRepairReport :=
  let report := mkReport (inspected report + 1) (repaired report) in
  status ← (liftr (map_err RepairDuroxide (get_orchestration_status (duroxide_instance_id row.2) c))
            : M Db ProjectionRepairError OrchestrationStatus);
  match repaired_terminal status with
  | None => mret report
  | Some terminal_state =>
      update ← (liftr (map_err RepairProjection (repair_update at_ row terminal_state))
                : M Db ProjectionRepairError ProjectionUpdate);
      outcome ← exec RepairProjection (project_task update);
      mret match outcome with
           | Applied _ => mkReport (inspected report) (repaired report + 1)
           | _ => report
           end
  end.

Fixpoint repair_loop (c : runtime) (at_ : Z) (rows : list (str * TaskRow))
    (report : ProjectionRepairReport) : M Db ProjectionRepairError ProjectionRepairReport :=
  match rows with
  | [] => mret report
  | row :: rows =>
      report ← repair_one c at_ report row;
      repair_loop c at_ rows report
  end.

Definition repair_terminal_task_projections (c : runtime) (limit : nat) (at_ : Z)
  : M Db ProjectionRepairError ProjectionRepairReport :=
  rows ← (reads (fun db => Ok (repair_rows limit db)) : M Db ProjectionRepairError (list (str * TaskRow)));
  _ ← (match rows with
       | [] => mret ()
       | _ => transaction (advance_cursor at_ rows)
       end : M Db ProjectionRepairError ());
  repair_loop c at_ rows (mkReport 0 0).

(** ** Projecting one update *)

Lemma to_i64_Ok v w : to_i64 v = Ok w <-> w = v /\ v <= i64_max.
Proof. unfold to_i64, i64_try_from. destruct (Z.leb_spec v i64_max); cbn; naive_solver lia. Qed.

Lemma to_u64_Ok v w : to_u64 v = Ok w <-> w = v /\ 0 <= v.
Proof. unfold to_u64, u64_try_from. destruct (Z.leb_spec 0 v); cbn; naive_solver lia. Qed.

Definition event_matches_row (update : ProjectionUpdate) (event : EventRow) : bool :=
  bool_decide (e_state event = state update)
  && bool_decide (e_reason_code event = reason_code update)
  && bool_decide (e_detail_json event = detail_json update).

Lemma event_matches_run update g db :
  g <= i64_max ->
  event_matches update g db =
  (db, Ok match sporos_task_event db !! (task_id update, g) with
          | None => false
          | Some event => event_matches_row update event
          end).
Proof.
  intros Hg. unfold event_matches, mbind, M_bind, liftr.
  by rewrite (proj2 (to_i64_Ok g g) (conj eq_refl Hg)).
Qed.

(** The result of [project_task], branch by branch. *)
Definition project_outcome (update : ProjectionUpdate) (db db' : Db)
    (r : result ProjectionError ProjectionOutcome) : Prop :=
  let row := sporos_task db !! task_id update in
  let expected := expected_generation update in
  match r with
  | Ok (Applied g) =>
      exists row0, row = Some row0 /\ projection_generation row0 = expected /\
        terminal_at row0 = None /\ g = expected + 1 /\ g <= i64_max /\
        db' = set_events (fun t => <[(task_id update, g) := update_event update]> t)
                (set_tasks (fun t => <[task_id update :=
                   projected update g (pu_observed_retry_count update) row0]> t) db)
  | Ok (AlreadyApplied g) =>
      db' = db /\ g = expected + 1 /\
      exists row0 event, row = Some row0 /\ projection_generation row0 = g /\
        sporos_task_event db !! (task_id update, g) = Some event /\
        event_matches_row update event = true
  | Ok (Stale g) =>
      db' = db /\ g <> expected /\ exists row0, row = Some row0 /\ projection_generation row0 = g
  | Ok (Terminal g) =>
      db' = db /\ g = expected /\
      exists row0, row = Some row0 /\ projection_generation row0 = g /\ is_Some (terminal_at row0)
  | Ok Missing => db' = db /\ row = None
  | Err e =>
      db' = db /\
      match e with
      | Database _ | CorruptGeneration => False
      | EmptyState => state update = []
      | InvalidDetail => exists d, detail_json update = Some d /\ json_valid d = false
      | GenerationOverflow => False
      | ValueOverflow =>
          pu_observed_retry_count update > i64_max \/ expected_generation update >= i64_max
      end
  end.

Lemma project_in_apply update row db :
  db_ok db -> sporos_task db !! task_id update = Some row ->
  projection_generation row = expected_generation update -> terminal_at row = None ->
  expected_generation update < i64_max -> pu_observed_retry_count update <= i64_max ->
  project_in update db =
  (set_events (fun t => <[(task_id update, expected_generation update + 1) := update_event update]> t)
     (set_tasks (fun t => <[task_id update := projected update (expected_generation update + 1)
        (pu_observed_retry_count update) row]> t) db),
   Ok (Applied (expected_generation update + 1))).
Proof.
  intros Hok Hrow Hg Ht Hmax Hr.
  destruct (ok_tasks _ Hok _ _ Hrow) as [Hgen Hev _].
  unfold project_in, mbind, M_bind, exec, select, reads. cbn [map_err]. rewrite Hrow. unfold liftr.
  rewrite (proj2 (to_u64_Ok _ _) (conj eq_refl (proj1 Hgen))).
  rewrite Hg, Z.eqb_refl, Ht. cbn [negb].
  assert (checked_add_u64 (expected_generation update) 1 = Some (expected_generation update + 1)) as ->.
  { apply checked_add_u64_Some. unfold_ints. lia. }
  cbn [ok_or].
  assert (forall v, v <= i64_max -> to_i64 v = Ok v) as Hi by (intros v Hv; by apply to_i64_Ok).
  rewrite !Hi by lia.
  unfold update_task, update_where. rewrite Hrow, Hg, Z.eqb_refl, Ht.
  rewrite bool_decide_eq_true_2 by done. cbn [andb negb map_err Z.eqb Pos.eqb].
  unfold insert_event, insert_new. cbn [sporos_task_event sporos_task set_tasks].
  destruct (Z.ltb_spec (expected_generation update + 1) 0); [lia|].
  destruct (sporos_task_event db !! (task_id update, expected_generation update + 1)) eqn:He.
  { exfalso. assert (is_Some (sporos_task_event db !! (task_id update, expected_generation update + 1)))
      as Hsome by (by rewrite He). apply Hev in Hsome. lia. }
  rewrite lookup_insert_eq. cbn [map_err mret M_ret]. done.
Qed.

Lemma project_task_spec update db :
  db_ok db -> 0 <= expected_generation update ->
  project_outcome update db (project_task update db).1 (project_task update db).2.
Proof.
  intros Hok Hexp. unfold project_task, mbind, M_bind, liftr.
  destruct (validate update) as [[]|e] eqn:Hval.
  2: { unfold validate in Hval. cbn. split; [done|].
       case_bool_decide; [by injection Hval as <-|].
       destruct (detail_json update) as [d|] eqn:Hd; [|done].
       destruct (json_valid d) eqn:Hj; [done|]. injection Hval as <-. eauto. }
  destruct (sporos_task db !! task_id update) as [row|] eqn:Hrow.
  2: { unfold transaction, project_in, mbind, M_bind, exec, select, reads. cbn [map_err].
       rewrite Hrow. cbn. done. }
  destruct (ok_tasks _ Hok _ _ Hrow) as [Hgen Hev _].
  destruct (Z.eqb_spec (projection_generation row) (expected_generation update)) as [Heq|Hne].
  - destruct (terminal_at row) as [t|] eqn:Ht.
    { unfold transaction, project_in, mbind, M_bind, exec, select, reads. cbn [map_err].
      rewrite Hrow. unfold liftr. rewrite (proj2 (to_u64_Ok _ _) (conj eq_refl (proj1 Hgen))).
      rewrite (proj2 (Z.eqb_eq _ _) Heq), Ht. cbn. split; [done|]. split; [done|].
      exists row. rewrite Ht. done. }
    destruct (decide (expected_generation update < i64_max /\ pu_observed_retry_count update <= i64_max))
      as [[Hm Hr]|Hno].
    + unfold transaction. rewrite (project_in_apply update row) by done. cbn.
      exists row. repeat split; try done. lia.
    + unfold transaction, project_in, mbind, M_bind, exec, select, reads. cbn [map_err].
      rewrite Hrow. unfold liftr. rewrite (proj2 (to_u64_Ok _ _) (conj eq_refl (proj1 Hgen))).
      rewrite (proj2 (Z.eqb_eq _ _) Heq), Ht. cbn [negb].
      assert (checked_add_u64 (projection_generation row) 1 = Some (projection_generation row + 1)) as ->.
      { apply checked_add_u64_Some. unfold_ints. lia. }
      cbn [ok_or]. unfold to_i64, i64_try_from.
      destruct (Z.leb_spec (projection_generation row + 1) i64_max); cbn; [|split; [done|lia]].
      destruct (Z.leb_spec (pu_observed_retry_count update) i64_max); cbn; [lia|].
      split; [done|lia].
  - unfold transaction, project_in.
    unfold mbind, M_bind, exec, select, reads. cbn [map_err].
    rewrite Hrow. unfold liftr. rewrite (proj2 (to_u64_Ok _ _) (conj eq_refl (proj1 Hgen))).
    rewrite (proj2 (Z.eqb_neq _ _) Hne). cbn [negb].
    assert (saturating_add_u64 (expected_generation update) 1 = projection_generation row ->
      projection_generation row = expected_generation update + 1) as Hsat
      by (unfold saturating_add_u64; unfold_ints; lia).
    destruct (Z.eqb_spec (projection_generation row) (saturating_add_u64 (expected_generation update) 1))
      as [Hs|Hs]; [|cbn; split; [done|]; split; [done|]; by exists row].
    rewrite event_matches_run by lia.
    destruct (sporos_task_event db !! (task_id update, projection_generation row)) as [ev|] eqn:He.
    2: { cbn. split; [done|]. split; [done|]. by exists row. }
    destruct (event_matches_row update ev) eqn:Hm; cbn.
    + split; [done|]. split; [by apply Hsat|]. exists row, ev. done.
    + split; [done|]. split; [done|]. by exists row.
Qed.

Lemma project_task_ok update db :
  db_ok db -> 0 <= expected_generation update -> db_ok (project_task update db).1.
Proof.
  intros Hok Hexp. pose proof (project_task_spec update db Hok Hexp) as Hspec.
  unfold project_outcome in Hspec.
  destruct (project_task update db) as [db' [[g|g|g|g|]|e]]; cbn in *; try (destruct Hspec as [-> _]; exact Hok).
  destruct Hspec as (row & Hrow & Hg & _ & -> & Hmax & ->).
  apply (db_ok_advance _ _ row); [done|done|cbn; lia|done|].
  destruct (ok_tasks _ Hok _ _ Hrow) as [_ _ (oid & o & Ho & Hid & Hi)]. by exists oid, o.
Qed.

(** What an applied update makes the row show: the update's own fields, and
    everything else as before. *)
Definition shows (update : ProjectionUpdate) (row row' : TaskRow) : Prop :=
  t_state row' = state update /\ t_reason_code row' = reason_code update /\
  duroxide_execution_id row' = execution_id update /\
  observed_retry_count row' = pu_observed_retry_count update /\
  projection_generation row' = expected_generation update + 1 /\
  updated_at row' = occurred_at update /\
  (is_Some (terminal_at row') <-> terminal update = true) /\
  t_kind row' = t_kind row /\ duroxide_instance_id row' = duroxide_instance_id row /\
  policy_snapshot_id row' = policy_snapshot_id row /\ t_operation_id row' = t_operation_id row /\
  t_created_at row' = t_created_at row.

Lemma projected_shows update row :
  shows update row (projected update (expected_generation update + 1) (pu_observed_retry_count update) row).
Proof.
  do 6 (split; [done|]). split; [|done]. cbn. destruct (terminal update); split; done || by intros [].
Qed.

(** Projecting a task is a compare-and-swap on its generation.  On a
    well-formed store every call ends in one of its documented outcomes, each
    under exactly the conditions its name says; only [Applied] changes the store,
    replacing the task row and appending the event of the next generation, and a
    failed call changes nothing and never violates a constraint. *)
Theorem project_task_cas (update : ProjectionUpdate) (db : Db) :
  db_ok db -> is_u64 (expected_generation update) ->
  db_ok (project_task update db).1 /\
  project_outcome update db (project_task update db).1 (project_task update db).2 /\
  forall g, (project_task update db).2 = Ok (Applied g) ->
    exists row row' ev,
      sporos_task db !! task_id update = Some row /\
      sporos_task (project_task update db).1 !! task_id update = Some row' /\ shows update row row' /\
      sporos_task_event (project_task update db).1 !! (task_id update, g) = Some ev /\
      e_state ev = state update /\ e_reason_code ev = reason_code update /\
      e_detail_json ev = detail_json update.
Proof.
  intros Hok [Hexp _]. pose proof (project_task_spec update db Hok Hexp) as Hspec.
  split; [by apply project_task_ok|]. split; [done|]. intros g Hg. rewrite Hg in Hspec.
  destruct Hspec as (row & Hrow & _ & _ & -> & _ & ->). cbn. rewrite !lookup_insert_eq.
  do 3 eexists. split; [exact Hrow|]. split; [done|]. split; [apply projected_shows|]. done.
Qed.

Lemma project_outcome_applied update db db' g :
  project_outcome update db db' (Ok (Applied g)) ->
  exists row, sporos_task db' !! task_id update = Some row /\ projection_generation row = g /\
    g = expected_generation update + 1 /\ g <= i64_max /\
    sporos_task_event db' !! (task_id update, g) = Some (update_event update).
Proof.
  intros (row & Hrow & _ & _ & Hg & Hmax & ->). eexists. cbn.
  rewrite lookup_insert_eq, lookup_insert_eq. done.
Qed.

(** A later update of the generation that was consumed changes nothing. *)
Lemma project_after_applied update db db' g again :
  project_outcome update db db' (Ok (Applied g)) -> is_u64 (expected_generation update) ->
  task_id again = task_id update -> expected_generation again = expected_generation update ->
  validate again = Ok () ->
  project_task again db' =
    (db', Ok (if event_matches_row again (update_event update) then AlreadyApplied g else Stale g)).
Proof.
  intros (row & Hrow & Hrg & Hg & Hmax & Hev)%project_outcome_applied Hexp Hid Hgen Hval.
  assert (0 <= g) as Hg0 by (unfold_ints; lia).
  unfold project_task, transaction, project_in, mbind, M_bind, exec, select, reads, liftr.
  rewrite Hval. cbn [map_err]. rewrite Hid, Hrow.
  rewrite (proj2 (to_u64_Ok _ _) (conj eq_refl (eq_ind_r (fun x => 0 <= x) Hg0 Hrg))).
  rewrite Hrg, Hgen. rewrite (proj2 (Z.eqb_neq g (expected_generation update))) by lia. cbn [negb].
  assert (g =? saturating_add_u64 (expected_generation update) 1 = true) as ->.
  { apply Z.eqb_eq. unfold saturating_add_u64. unfold_ints. lia. }
  rewrite event_matches_run by done. rewrite Hid, Hev. done.
Qed.

(** Of the updates that compete for one generation of a task exactly one is
    applied.  Once an update is applied, any valid update of the same task that
    expects the same generation leaves the store as it is: it is reported as
    already applied when it states the same state, reason and detail (so a
    replayed activity succeeds), and as stale otherwise. *)
Theorem project_task_once (update again : ProjectionUpdate) (db db' : Db) (g : Z) :
  db_ok db -> is_u64 (expected_generation update) ->
  project_task update db = (db', Ok (Applied g)) ->
  task_id again = task_id update -> expected_generation again = expected_generation update ->
  validate again = Ok () ->
  project_task again db' =
    (db', Ok (if event_matches_row again (update_event update) then AlreadyApplied g else Stale g)).
Proof.
  intros Hok Hexp Hrun. pose proof (project_task_spec update db Hok (proj1 Hexp)) as Hspec.
  rewrite Hrun in Hspec. by apply project_after_applied with (db := db).
Qed.

(** ** Repair *)

Definition finished (c : runtime) (at_ : Z) (row row' : TaskRow) : Prop :=
  exists status s reason detail,
    get_orchestration_status (duroxide_instance_id row) c = Ok status /\
    repaired_terminal status = Some (s, reason, detail) /\
    t_state row' = s /\ t_reason_code row' = Some reason /\ terminal_at row' = Some at_ /\
    projection_generation row' = projection_generation row + 1 /\
    duroxide_instance_id row' = duroxide_instance_id row /\
    projection_repair_checked_at row' = Some at_.

(** What repair did to a row it selected; [ok] says that the run succeeded. *)
Definition selected_outcome (c : runtime) (at_ : Z) (ok : bool) (row row' : TaskRow) : Prop :=
  finished c at_ row row' \/
  row' = checked at_ row /\
  (ok = true -> exists status, get_orchestration_status (duroxide_instance_id row) c = Ok status /\
                               repaired_terminal status = None).

Lemma collect_cursor_run at_ rows db :
  NoDup rows.*1 ->
  (forall p, p ∈ rows -> sporos_task db !! p.1 = Some p.2 /\ terminal_at p.2 = None) ->
  db_ok db ->
  exists db' ns, collectM (fun row : str * TaskRow =>
      exec RepairDatabase (update_task row.1 (fun r => bool_decide (terminal_at r = None)) (checked at_)))
    rows db = (db', Ok ns) /\ db_ok db' /\
    (forall id, id ∉ rows.*1 -> sporos_task db' !! id = sporos_task db !! id) /\
    (forall p, p ∈ rows -> sporos_task db' !! p.1 = Some (checked at_ p.2)).
Proof.
  revert db. induction rows as [|[id row] rows IH]; intros db Hnd Hrows Hok; cbn [collectM].
  { exists db, []. split; [done|]. split; [done|]. split; [done|]. intros p Hp. by apply elem_of_nil in Hp. }
  cbn in Hnd. apply NoDup_cons in Hnd as [Hni Hnd].
  destruct (Hrows (id, row)) as [Hrow Ht]; [left|]. cbn in Hrow, Ht.
  set (db1 := set_tasks (fun _ => <[id := checked at_ row]> (sporos_task db)) db).
  assert (db_ok db1) as Hok1.
  { destruct (ok_tasks _ Hok _ _ Hrow) as [_ _ Hout].
    exact (db_ok_update_task db id row (checked at_ row) Hok Hrow eq_refl Hout). }
  assert (forall p, p ∈ rows -> p.1 <> id) as Hne.
  { intros p Hp <-. apply Hni. by apply (list_elem_of_fmap_2 fst). }
  destruct (IH db1 Hnd) as (db' & ns & Hrun & Hok' & Hother & Hsel); [|done|].
  { intros p Hp. destruct (Hrows p) as [Hp1 Hp2]; [by right|]. split; [|done].
    cbn. rewrite lookup_insert_ne; [done|]. intros ->. by apply (Hne p Hp). }
  exists db', (1 :: ns). split.
  { unfold mbind, M_bind, exec at 1, update_task at 1, update_where. cbn [fst]. rewrite Hrow.
    rewrite bool_decide_eq_true_2 by done. cbn [map_err]. fold db1. rewrite Hrun. done. }
  split; [done|]. split.
  - intros id' Hid'. cbn in Hid'. apply not_elem_of_cons in Hid' as [Hid1 Hid2].
    rewrite Hother by done. cbn. by rewrite lookup_insert_ne.
  - intros p [->|Hp]%elem_of_cons; [|by apply Hsel]. cbn.
    rewrite Hother by done. cbn. by rewrite lookup_insert_eq.
Qed.

Lemma repair_update_Ok at_ row ts u :
  repair_update at_ row ts = Ok u ->
  task_id u = row.1 /\ expected_generation u = projection_generation row.2 /\
  0 <= projection_generation row.2 /\
  state u = ts.1.1 /\ reason_code u = Some ts.1.2 /\ occurred_at u = at_ /\ terminal u = true.
Proof.
  unfold repair_update. destruct ts as [[s reason] detail].
  rewrite bind_Ok. intros (g & [-> Hg]%to_u64_Ok & H1).
  rewrite bind_Ok in H1. destruct H1 as (k & _ & [= <-]). done.
Qed.

Lemma repair_one_spec c at_ report row db :
  db_ok db -> sporos_task db !! row.1 = Some (checked at_ row.2) -> terminal_at row.2 = None ->
  let '(db', r) := repair_one c at_ report row db in
  db_ok db' /\ (forall id, id <> row.1 -> sporos_task db' !! id = sporos_task db !! id) /\
  (exists row', sporos_task db' !! row.1 = Some row' /\ selected_outcome c at_ (is_ok r) row.2 row') /\
  match r with
  | Ok report' => inspected report' = inspected report + 1 /\
                  repaired report <= repaired report' <= repaired report + 1
  | Err _ => True
  end.
Proof.
  intros Hok Hrow Ht. unfold repair_one, mbind, M_bind, liftr.
  destruct (get_orchestration_status _ c) as [status|e] eqn:Hst; cbn [map_err].
  2: { split; [done|]. split; [done|]. split; [|done]. eexists. split; [done|]. right. done. }
  destruct (repaired_terminal status) as [ts|] eqn:Hts.
  2: { cbn. split; [done|]. split; [done|]. split; [|lia]. eexists. split; [done|]. right.
       split; [done|]. intros _. by exists status. }
  destruct (repair_update at_ row ts) as [u|e] eqn:Hu; cbn [map_err].
  2: { split; [done|]. split; [done|]. split; [|done]. eexists. split; [done|]. right. done. }
  apply repair_update_Ok in Hu as (Hid & Hexp & Hge & Hs & Hr & Hat & Hterm).
  destruct (ok_tasks _ Hok _ _ Hrow) as [Hgen _ _]. cbn in Hgen.
  assert (0 <= expected_generation u) as Hu64 by lia.
  pose proof (project_task_spec u db Hok Hu64) as Hspec.
  pose proof (project_task_ok u db Hok Hu64) as Hok'.
  unfold exec. destruct (project_task u db) as [db' r]. cbn [fst snd] in *.
  unfold project_outcome in Hspec. rewrite Hid, Hrow, Hexp in Hspec.
  destruct r as [[g|g|g|g|]|e]; cbn [map_err].
  - destruct Hspec as (row0 & [= <-] & _ & _ & -> & _ & ->). cbn. split; [done|]. split.
    { intros id Hne. by rewrite lookup_insert_ne. }
    split; [|lia]. rewrite lookup_insert_eq. eexists. split; [done|]. left.
    destruct ts as [[s reason] detail]. exists status, s, reason, detail. cbn in *.
    rewrite Hterm, Hat. done.
  - destruct Hspec as (_ & -> & row0 & ev & [= <-] & Hcontra & _). cbn in Hcontra. lia.
  - destruct Hspec as (_ & Hne & row0 & [= <-] & Hcontra). cbn in Hcontra. lia.
  - destruct Hspec as (_ & _ & row0 & [= <-] & _ & [t Hcontra]). cbn in Hcontra. congruence.
  - by destruct Hspec as [_ ?].
  - destruct Hspec as [-> _]. split; [done|]. split; [done|]. split; [|done].
    eexists. split; [done|]. right. done.
Qed.

Lemma repair_loop_spec c at_ rows report db :
  db_ok db -> NoDup rows.*1 ->
  (forall p, p ∈ rows -> sporos_task db !! p.1 = Some (checked at_ p.2) /\ terminal_at p.2 = None) ->
  let '(db', r) := repair_loop c at_ rows report db in
  db_ok db' /\ (forall id, id ∉ rows.*1 -> sporos_task db' !! id = sporos_task db !! id) /\
  (forall p, p ∈ rows -> exists row', sporos_task db' !! p.1 = Some row' /\
     selected_outcome c at_ (is_ok r) p.2 row') /\
  match r with
  | Ok report' => inspected report' = inspected report + Z.of_nat (length rows) /\
                  repaired report <= repaired report' <= repaired report + Z.of_nat (length rows)
  | Err _ => True
  end.
Proof.
  revert report db. induction rows as [|row rows IH]; intros report db Hok Hnd Hrows; cbn [repair_loop].
  { cbn. split; [done|]. split; [done|]. split; [|lia]. intros p Hp. by apply elem_of_nil in Hp. }
  cbn in Hnd. apply NoDup_cons in Hnd as [Hni Hnd].
  destruct (Hrows row) as [Hrow Ht]; [left|].
  pose proof (repair_one_spec c at_ report row db Hok Hrow Ht) as Hone.
  unfold mbind, M_bind. destruct (repair_one c at_ report row db) as [db1 [report1|e]].
  - destruct Hone as (Hok1 & Hother1 & (row1 & Hrow1 & Hout1) & Hi1 & Hr1).
    assert (forall p, p ∈ rows -> p.1 <> row.1) as Hne.
    { intros p Hp Heq. apply Hni. rewrite <- Heq. by apply (list_elem_of_fmap_2 fst). }
    specialize (IH report1 db1 Hok1 Hnd). destruct (repair_loop c at_ rows report1 db1) as [db2 r].
    destruct IH as (Hok2 & Hother2 & Hsel2 & Hcount).
    { intros p Hp. rewrite Hother1 by (by apply Hne). apply Hrows. by right. }
    split; [done|]. split; [|split].
    + intros id [Hid1 Hid2]%not_elem_of_cons. rewrite Hother2 by done. by apply Hother1.
    + intros p [->|Hp]%elem_of_cons; [|by apply Hsel2].
      exists row1. rewrite Hother2 by done. split; [done|].
      destruct Hout1 as [Hf|[-> Hst]]; [by left|]. right. split; [done|]. intros _. by apply Hst.
    + destruct r; [|done]. cbn [length]. lia.
  - destruct Hone as (Hok1 & Hother1 & (row1 & Hrow1 & Hout1) & _).
    split; [done|]. split; [|split; [|done]].
    + intros id [Hid1 Hid2]%not_elem_of_cons. by apply Hother1.
    + intros p [->|Hp]%elem_of_cons; [by exists row1|].
      destruct (Hrows p) as [Hp1 _]; [by right|].
      exists (checked at_ p.2). rewrite Hother1; [split; [done|]; by right|].
      intros Heq. apply Hni. rewrite <- Heq. by apply (list_elem_of_fmap_2 fst).
Qed.

Definition candidates (db : Db) : list (str * TaskRow) :=
  filter (fun p => terminal_at p.2 = None) (map_to_list (sporos_task db)).

Lemma candidates_elem db p :
  p ∈ candidates db <-> sporos_task db !! p.1 = Some p.2 /\ terminal_at p.2 = None.
Proof.
  unfold candidates. rewrite list_elem_of_filter. destruct p as [id row].
  rewrite elem_of_map_to_list. cbn. tauto.
Qed.

Lemma candidates_NoDup db : NoDup (candidates db).*1.
Proof.
  apply (sublist_NoDup _ (map_to_list (sporos_task db)).*1); [apply NoDup_fst_map_to_list|].
  apply fmap_sublist, sublist_filter.
Qed.

Lemma repair_rows_elem limit db p :
  p ∈ repair_rows limit db -> sporos_task db !! p.1 = Some p.2 /\ terminal_at p.2 = None.
Proof.
  intros Hp. apply candidates_elem, (elem_of_sort_by repair_leb).
  rewrite <- (take_drop limit). apply elem_of_app. by left.
Qed.

Lemma repair_rows_NoDup limit db : NoDup (repair_rows limit db).*1.
Proof.
  apply (sublist_NoDup _ (sort_by repair_leb (candidates db)).*1).
  - rewrite (sort_by_Permutation repair_leb). apply candidates_NoDup.
  - apply fmap_sublist, sublist_take.
Qed.

(** One run, whatever the answers of the runtime. *)
Lemma repair_run_spec c limit at_ db :
  db_ok db ->
  let '(db', r) := repair_terminal_task_projections c limit at_ db in
  db_ok db' /\
  (forall id, id ∉ (repair_rows limit db).*1 -> sporos_task db' !! id = sporos_task db !! id) /\
  (forall p, p ∈ repair_rows limit db -> exists row', sporos_task db' !! p.1 = Some row' /\
     selected_outcome c at_ (is_ok r) p.2 row') /\
  match r with
  | Ok report => inspected report = Z.of_nat (length (repair_rows limit db)) /\
                 0 <= repaired report <= inspected report
  | Err _ => True
  end.
Proof.
  intros Hok. unfold repair_terminal_task_projections.
  change (mbind ?f (reads _) db) with (f (repair_rows limit db) db).
  assert (exists db1, (match repair_rows limit db with
      | [] => mret () | _ => transaction (advance_cursor at_ (repair_rows limit db)) end
      : M Db ProjectionRepairError ()) db = (db1, Ok ()) /\ db_ok db1 /\
    (forall id, id ∉ (repair_rows limit db).*1 -> sporos_task db1 !! id = sporos_task db !! id) /\
    (forall p, p ∈ repair_rows limit db -> sporos_task db1 !! p.1 = Some (checked at_ p.2)))
    as (db1 & Hrun & Hok1 & Hother1 & Hsel1).
  { destruct (collect_cursor_run at_ (repair_rows limit db) db) as (db1 & ns & Hrun & Hrest);
      [apply repair_rows_NoDup|apply repair_rows_elem|done|].
    exists db1. split; [|done]. destruct (repair_rows limit db) as [|p rows] eqn:Hrows.
    - injection Hrun as -> _. done.
    - rewrite transaction_Ok. unfold advance_cursor. rewrite M_bind_Ok. by exists db1, ns. }
  unfold mbind, M_bind at 1. rewrite Hrun.
  pose proof (repair_loop_spec c at_ (repair_rows limit db) (mkReport 0 0) db1 Hok1
    (repair_rows_NoDup _ _)) as Hloop.
  destruct (repair_loop c at_ (repair_rows limit db) (mkReport 0 0) db1) as [db' r].
  destruct Hloop as (Hok' & Hother & Hsel & Hcount).
  { intros p Hp. split; [by apply Hsel1|]. by apply repair_rows_elem in Hp as [_ ?]. }
  split; [done|]. split; [intros id Hid; rewrite Hother by done; by apply Hother1|].
  split; [done|]. destruct r; [|done]. cbn in Hcount. lia.
Qed.

(** *** Fairness of the cursor *)

Lemma repair_leb_total a b : repair_leb a b = true \/ repair_leb b a = true.
Proof.
  unfold repair_leb. pose proof (str_leb_total a.1 b.1).
  destruct (projection_repair_checked_at a.2) as [x|], (projection_repair_checked_at b.2) as [y|];
    cbn [default from_option]; unfold id; auto;
    repeat match goal with |- context [?u <? ?v] => destruct (Z.ltb_spec u v) end; auto; lia.
Qed.

Lemma repair_leb_trans a b c : repair_leb a b = true -> repair_leb b c = true -> repair_leb a c = true.
Proof.
  unfold repair_leb. pose proof (str_leb_trans a.1 b.1 c.1).
  destruct (projection_repair_checked_at a.2) as [x|], (projection_repair_checked_at b.2) as [y|],
    (projection_repair_checked_at c.2) as [z|]; cbn [default from_option]; unfold id; auto; try done;
    repeat match goal with |- context [?u <? ?v] => destruct (Z.ltb_spec u v) end; auto; try done; lia.
Qed.

(** The rows that the order of repair puts before [(id, row)]. *)
Definition ahead (id : str) (row : TaskRow) (db : Db) : list (str * TaskRow) :=
  filter (fun p => p.1 <> id /\ repair_leb p (id, row) = true) (candidates db).

Lemma ahead_elem id row db p :
  p ∈ ahead id row db <->
  (p.1 <> id /\ repair_leb p (id, row) = true) /\ sporos_task db !! p.1 = Some p.2 /\ terminal_at p.2 = None.
Proof. unfold ahead. by rewrite list_elem_of_filter, candidates_elem. Qed.

Lemma ahead_NoDup id row db : NoDup (ahead id row db).*1.
Proof.
  apply (sublist_NoDup _ (candidates db).*1); [apply candidates_NoDup|].
  apply fmap_sublist, sublist_filter.
Qed.

(** A run that does not reach [id] uses its whole limit on rows before it. *)
Lemma unselected_rows limit id row db :
  sporos_task db !! id = Some row -> terminal_at row = None ->
  id ∉ (repair_rows limit db).*1 ->
  length (repair_rows limit db) = limit /\
  (forall p, p ∈ repair_rows limit db -> p ∈ ahead id row db).
Proof.
  intros Hrow Ht Hni.
  set (sorted := sort_by repair_leb (candidates db)).
  assert ((id, row) ∈ drop limit sorted) as Hdrop.
  { assert ((id, row) ∈ sorted) as Hin by (by apply elem_of_sort_by, candidates_elem).
    rewrite <- (take_drop limit sorted) in Hin. apply elem_of_app in Hin as [Hin|]; [|done].
    destruct Hni. change id with (fst (id, row)). by apply list_elem_of_fmap_2. }
  split.
  - unfold repair_rows. fold (candidates db). fold sorted. apply length_take_le.
    destruct (decide (limit <= length sorted)%nat) as [|Hlt]; [done|].
    rewrite drop_ge in Hdrop by lia. by apply elem_of_nil in Hdrop.
  - intros p Hp. apply ahead_elem. split; [|by eapply repair_rows_elem].
    split; [intros <-; apply Hni; by apply list_elem_of_fmap_2|].
    assert (StronglySorted repair_leb sorted) as Hs
      by (apply sort_by_sorted; [apply repair_leb_total|apply repair_leb_trans]).
    rewrite <- (take_drop limit sorted) in Hs.
    apply Is_true_true.
    exact (StronglySorted_app_1_elem_of repair_leb _ _ p (id, row) Hs Hp Hdrop).
Qed.

Lemma later_row_not_ahead at_ row' row tid :
  projection_repair_checked_at row' = Some at_ ->
  match projection_repair_checked_at row with Some k => k < at_ | None => True end ->
  forall i, repair_leb (i, row') (tid, row) = false.
Proof.
  intros Hc Hk i. unfold repair_leb. cbn. rewrite Hc.
  destruct (projection_repair_checked_at row) as [k|]; [|done]. cbn. unfold id.
  destruct (Z.ltb_spec at_ k); [lia|]. by destruct (Z.ltb_spec k at_); [|lia].
Qed.

Lemma selected_checked c at_ ok row row' :
  selected_outcome c at_ ok row row' -> projection_repair_checked_at row' = Some at_.
Proof. intros [(? & ? & ? & ? & H1)|[-> _]]; [naive_solver|done]. Qed.

Lemma run_shrinks_ahead c limit at_ id row db :
  db_ok db -> sporos_task db !! id = Some row -> terminal_at row = None ->
  match projection_repair_checked_at row with Some k => k < at_ | None => True end ->
  id ∉ (repair_rows limit db).*1 ->
  (limit + length (ahead id row (repair_terminal_task_projections c limit at_ db).1)
   <= length (ahead id row db))%nat.
Proof.
  intros Hok Hrow Ht Hk Hni.
  pose proof (repair_run_spec c limit at_ db Hok) as Hspec.
  destruct (repair_terminal_task_projections c limit at_ db) as [db' r]. cbn [fst].
  destruct Hspec as (_ & Hother & Hsel & _).
  destruct (unselected_rows limit id row db Hrow Ht Hni) as [Hlen Hin].
  rewrite <- Hlen at 1. rewrite <- !(length_fmap fst), <- length_app.
  apply submseteq_length, NoDup_submseteq.
  - apply NoDup_app. split; [apply repair_rows_NoDup|]. split; [|apply ahead_NoDup].
    intros i (p & -> & Hp)%list_elem_of_fmap (p' & Heq & Hp')%list_elem_of_fmap.
    apply ahead_elem in Hp' as [[_ Hleb] [Hp' _]]. rewrite <- Heq in Hp'.
    destruct (Hsel p Hp) as (row' & Hrow' & Hout). apply selected_checked in Hout.
    rewrite Hrow' in Hp'. injection Hp' as ->. destruct p' as [i' row'']. cbn in *.
    by rewrite (later_row_not_ahead at_) in Hleb.
  - intros i [(p & -> & Hp)%list_elem_of_fmap|(p & -> & Hp)%list_elem_of_fmap]%elem_of_app.
    { apply list_elem_of_fmap_2. by apply Hin. }
    destruct (decide (p.1 ∈ (repair_rows limit db).*1)) as [Hs|Hs].
    { apply list_elem_of_fmap in Hs as (q & -> & Hq). apply list_elem_of_fmap_2. by apply Hin. }
    apply list_elem_of_fmap_2. apply ahead_elem in Hp as [Hp1 [Hp2 Hp3]].
    apply ahead_elem. by rewrite Hother in Hp2.
Qed.

(** A sequence of runs, each with the runtime's answers at that time. *)
Fixpoint repair_runs (limit : nat) (runs : list (runtime * Z)) (db : Db) : Db :=
  match runs with
  | [] => db
  | (c, at_) :: runs => repair_runs limit runs (repair_terminal_task_projections c limit at_ db).1
  end.

(** Every one of these runs returns a report. *)
Fixpoint runs_ok (limit : nat) (runs : list (runtime * Z)) (db : Db) : Prop :=
  match runs with
  | [] => True
  | (c, at_) :: runs =>
      is_ok (repair_terminal_task_projections c limit at_ db).2 = true /\
      runs_ok limit runs (repair_terminal_task_projections c limit at_ db).1
  end.

(** A finished task is not selected again. *)
Lemma runs_keep_terminal limit runs id row db :
  db_ok db -> sporos_task db !! id = Some row -> is_Some (terminal_at row) ->
  sporos_task (repair_runs limit runs db) !! id = Some row.
Proof.
  revert db. induction runs as [|[c at_] runs IH]; intros db Hok Hrow Ht; cbn [repair_runs]; [done|].
  pose proof (repair_run_spec c limit at_ db Hok) as Hspec.
  destruct (repair_terminal_task_projections c limit at_ db) as [db' r].
  destruct Hspec as (Hok' & Hother & _). cbn [fst]. apply IH; [done| |done].
  rewrite Hother; [done|]. intros (p & -> & Hp)%list_elem_of_fmap.
  apply repair_rows_elem in Hp as [Hp Hnone]. rewrite Hrow in Hp. injection Hp as ->.
  rewrite Hnone in Ht. by destruct Ht.
Qed.

(** The runtime, asked in a run, did not report the task's instance as finished. *)
Definition reported_unfinished (c : runtime) (row : TaskRow) : Prop :=
  exists status, get_orchestration_status (duroxide_instance_id row) c = Ok status /\
    repaired_terminal status = None.

Lemma runs_reach limit runs id row db :
  db_ok db -> runs_ok limit runs db -> sporos_task db !! id = Some row -> terminal_at row = None ->
  (forall run, run ∈ runs ->
     match projection_repair_checked_at row with Some k => k < run.2 | None => True end) ->
  (length (ahead id row db) < limit * length runs)%nat ->
  exists run, run ∈ runs /\
    (reported_unfinished run.1 row \/
     exists row', sporos_task (repair_runs limit runs db) !! id = Some row' /\
       finished run.1 run.2 row row').
Proof.
  revert db. induction runs as [|[c at_] runs IH]; intros db Hok Hruns Hrow Ht Hk Hlen;
    [cbn in Hlen; lia|]. cbn [repair_runs]. destruct Hruns as [Hrun Hruns].
  assert (match projection_repair_checked_at row with Some k => k < at_ | None => True end) as Hk0.
  { apply (Hk (c, at_)). left. }
  pose proof (repair_run_spec c limit at_ db Hok) as Hspec.
  pose proof (run_shrinks_ahead c limit at_ id row db Hok Hrow Ht Hk0) as Hshrink.
  destruct (repair_terminal_task_projections c limit at_ db) as [db' r].
  destruct Hspec as (Hok' & Hother & Hsel & _). cbn [fst snd] in *.
  destruct (decide (id ∈ (repair_rows limit db).*1)) as [Hs|Hs].
  - apply list_elem_of_fmap in Hs as (p & -> & Hp). destruct (Hsel p Hp) as (row1 & Hrow1 & Hout).
    apply repair_rows_elem in Hp as [Hp _]. rewrite Hrow in Hp. injection Hp as ->.
    exists (c, at_). split; [left|]. destruct Hout as [Hfin|[_ Hst]]; [right|left; by apply Hst].
    exists row1. split; [|done]. apply runs_keep_terminal; [done|done|].
    destruct Hfin as (? & ? & ? & ? & _ & _ & _ & _ & -> & _). by eexists.
  - destruct (IH db') as (run & Hin & Hres); [done|done|by rewrite Hother|done| | |].
    + intros run Hin. apply Hk. by right.
    + specialize (Hshrink Hs). cbn [length] in Hlen. lia.
    + exists run. split; [by right|done].
Qed.

(** C36: projection repair is fair.  With a positive limit, among any
    [ceil(unfinished / limit)] consecutive runs that return without error, each
    at a time after the task's last inspection, there is one that asked the
    runtime about any given unfinished task and acted on the answer: either the
    runtime did not report its instance as finished, or the task now shows the
    terminal state and reason that the runtime reported, as its next generation,
    and keeps it in the later runs. *)
Theorem repair_fair (limit : nat) (runs : list (runtime * Z)) (db : Db) (id : str) (row : TaskRow) :
  db_ok db -> (0 < limit)%nat -> runs_ok limit runs db ->
  sporos_task db !! id = Some row -> terminal_at row = None ->
  (forall run, run ∈ runs ->
     match projection_repair_checked_at row with Some k => k < run.2 | None => True end) ->
  (length (candidates db) <= limit * length runs)%nat ->
  exists run, run ∈ runs /\
    (reported_unfinished run.1 row \/
     exists row', sporos_task (repair_runs limit runs db) !! id = Some row' /\
       finished run.1 run.2 row row').
Proof.
  intros Hok Hlim Hruns Hrow Ht Hk Hlen.
  assert (length (ahead id row db) < length (candidates db))%nat as Hlt.
  { unfold ahead. apply length_filter_lt with (id, row); [by apply candidates_elem|]. cbn. tauto. }
  apply runs_reach; [done..|lia].
Qed.

(** An error ends a run at its row: the rows after it are stamped by the cursor
    but the runtime is not asked about them. *)
Lemma repair_stops_at_error c limit at_ db first rest e :
  db_ok db -> repair_rows limit db = first :: rest ->
  get_orchestration_status (duroxide_instance_id first.2) c = Err e ->
  let '(db', r) := repair_terminal_task_projections c limit at_ db in
  r = Err (RepairDuroxide e) /\
  forall p, p ∈ first :: rest -> sporos_task db' !! p.1 = Some (checked at_ p.2).
Proof.
  intros Hok Hrows He. unfold repair_terminal_task_projections.
  change (mbind ?f (reads _) db) with (f (repair_rows limit db) db). cbv beta.
  destruct (collect_cursor_run at_ (repair_rows limit db) db) as (db1 & ns & Hrun & _ & _ & Hsel);
    [apply repair_rows_NoDup|apply repair_rows_elem|done|].
  rewrite Hrows in Hrun, Hsel |- *.
  assert (transaction (advance_cursor at_ (first :: rest)) db = (db1, Ok ())) as Hcur.
  { rewrite transaction_Ok. unfold advance_cursor. rewrite M_bind_Ok. by exists db1, ns. }
  unfold mbind at 1, M_bind at 1. rewrite Hcur. cbn [repair_loop].
  unfold mbind at 1, M_bind at 1, repair_one, mbind at 1, M_bind at 1, liftr. rewrite He.
  cbn [map_err]. done.
Qed.

(** Repair only finishes what the runtime finished.  A run preserves the
    store's invariant and leaves every unselected row as it was; each selected
    row gets the run's cursor time and either takes, as its next generation, the
    terminal state that the runtime reports for its instance, or keeps its state;
    in a run without error the latter means that the instance is not terminal.
    The report counts the selected rows. *)
Theorem repair_run_sound (c : runtime) (limit : nat) (at_ : Z) (db : Db) :
  db_ok db ->
  let '(db', r) := repair_terminal_task_projections c limit at_ db in
  db_ok db' /\
  (forall id, id ∉ (repair_rows limit db).*1 -> sporos_task db' !! id = sporos_task db !! id) /\
  (forall p, p ∈ repair_rows limit db -> exists row', sporos_task db' !! p.1 = Some row' /\
     selected_outcome c at_ (is_ok r) p.2 row') /\
  match r with
  | Ok report => inspected report = Z.of_nat (length (repair_rows limit db)) /\
                 0 <= repaired report <= inspected report
  | Err _ => True
  end.
Proof. apply repair_run_spec. Qed.
End Projection.

(** ** Examples *)

Definition sample_db : Db := (Ingress.accept_task Ingress.sample_task empty_db).1.

Lemma sample_db_ok : db_ok sample_db.
Proof. apply Ingress.accept_task_ok, db_ok_empty. Qed.

Definition sample_update : ProjectionUpdate :=
  mkProjectionUpdate (lit "task") 0 (lit "completed") (Some (lit "done")) None 0 None 9 true.

Definition sample_row : TaskRow :=
  fresh_task (lit "process_candidate") (lit "candidate-v1:1") (lit "policy") None 5.

Lemma project_task_cas_witness :
  (project_task sample_update sample_db).2 = Ok (Applied 1) /\
  db_ok (project_task sample_update sample_db).1.
Proof.
  split; [vm_compute; reflexivity|].
  exact (proj1 (project_task_cas sample_update sample_db sample_db_ok
    (conj (Z.le_refl 0) (proj1 (Z.leb_le 0 u64_max) eq_refl)))).
Defined.

Lemma project_task_once_witness :
  exists db', project_task sample_update sample_db = (db', Ok (Applied 1)) /\
    project_task sample_update db' = (db', Ok (AlreadyApplied 1)).
Proof.
  destruct (project_task sample_update sample_db) as [db' r] eqn:Hr.
  assert (r = Ok (Applied 1)) as ->.
  { assert ((project_task sample_update sample_db).2 = r) as <- by (by rewrite Hr).
    vm_compute. reflexivity. }
  exists db'. split; [reflexivity|].
  exact (project_task_once sample_update sample_update sample_db db' 1 sample_db_ok
    (conj (Z.le_refl 0) (proj1 (Z.leb_le 0 u64_max) eq_refl)) Hr eq_refl eq_refl eq_refl).
Defined.

Definition sample_runtime : @runtime sample_client :=
  [mkRootStart (lit "candidate-v1:1") (lit "ProcessCandidate") (lit "1.0.0") (lit "{}")].

Lemma repair_fair_witness :
  sporos_task sample_db !! lit "task" = Some sample_row /\
  exists run, run ∈ [(sample_runtime, 7)] /\
    (reported_unfinished run.1 sample_row \/
     exists row', sporos_task (repair_runs 1 [(sample_runtime, 7)] sample_db) !! lit "task" = Some row' /\
       finished run.1 run.2 sample_row row').
Proof.
  split; [vm_compute; reflexivity|].
  apply (repair_fair 1 [(sample_runtime, 7)] sample_db (lit "task") sample_row sample_db_ok).
  - lia.
  - split; [vm_compute; reflexivity|exact I].
  - vm_compute. reflexivity.
  - reflexivity.
  - intros run _. exact I.
  - vm_compute. lia.
Defined.

(** The comment in the code says that stamping first keeps one unavailable
    instance from hiding later workflows.  It does not when both are in one
    batch: the tasks stay in the same order, and every run ends at the first. *)
Definition unavailable_client : Client := {|
  runtime := ();
  ClientError := sample_error;
  is_retryable e := true;
  start_orchestration_versioned s c := (c, Ok ());
  inspect_root_orchestration_start s c := Ok Same;
  get_orchestration_status i c :=
    if bool_decide (i = lit "a") then Err Unavailable else Ok (Completed (lit "done"));
  cancel_instance _ c := (c, Ok ());
  accepted c s := True |}.

Definition hidden_db : Db :=
  set_tasks (fun _ => <[lit "1" := fresh_task (lit "process_candidate") (lit "a") (lit "policy") None 5]>
    (<[lit "2" := fresh_task (lit "process_candidate") (lit "b") (lit "policy") None 5]> ∅)) empty_db.

Example unavailable_instance_hides :
  let db := @repair_runs _ unavailable_client 8 [((), 10); ((), 11); ((), 12); ((), 13)] hidden_db in
  (@get_orchestration_status unavailable_client (lit "b") () = Ok (Completed (lit "done"))) /\
  (terminal_at <$> sporos_task db !! lit "2") = Some None /\
  (projection_repair_checked_at <$> sporos_task db !! lit "2") = Some (Some 13).
Proof. vm_compute. repeat split. Qed.

Lemma repair_run_sound_witness :
  (repair_terminal_task_projections sample_runtime 5 7 sample_db).2 = Ok (mkReport 1 1) /\
  db_ok (repair_terminal_task_projections sample_runtime 5 7 sample_db).1.
Proof.
  split; [vm_compute; reflexivity|].
  pose proof (repair_run_sound sample_runtime 5 7 sample_db sample_db_ok) as H.
  destruct (repair_terminal_task_projections sample_runtime 5 7 sample_db) as [db' r].
  exact (proj1 H).
Defined.
