(* ===== verification/TaskControl.v ===== *)
(** Operator control of tasks (task_control.rs): retrying a failed or cancelled
    task as a new instance, requesting cancellation, and the workflow that
    reconciles a cancellation with the runtime's verdict. *)

From S2P Require Import Prelude Text Store Duroxide.
From S2P Require Ingress.
From stdpp Require Import strings pretty.
Local Open Scope Z_scope.

(** ** Definitions *)

Record CancellationInput := mkCancellationInput { ci_task_id : str; target_instance : str }.
Record RetryAccepted := mkRetryAccepted { ra_instance_id : str }.
Record CancelAccepted := mkCancelAccepted { ca_target_instance : str; ca_duplicate : bool }.

Definition ORCHESTRATION_NAME : str := lit "ReconcileTaskCancellation".
Definition ORCHESTRATION_VERSION : str := lit "1.0.0".

(** The serde encoding of [CancellationInput]; [None] is a serializer error. *)
Class CancellationCodec := {
  encode_input : CancellationInput -> option str;
  decode_input : str -> option CancellationInput }.

Section TaskControl.
Context `{Json} `{Client} `{Digest} `{CancellationCodec}.

Inductive TaskControlError :=
| Database (e : SqlError)
| Duroxide (e : ClientError)
| TaskNotFound
| TaskTerminal
| TaskNotRetryable
| UnsupportedRetry
| GenerationRange
| EncodeCancellation.

Abbreviation Control A := (Tx TaskControlError A).

(** The activity failure that an error is recorded as; [message] is its report. *)
Definition activity_failure (e : TaskControlError) (message : str) : str :=
  match e with
  | Database _ | Duroxide _ => transient (lit "task_control_dependency_unavailable") message
  | TaskNotFound | TaskTerminal | TaskNotRetryable | UnsupportedRetry | GenerationRange
  | EncodeCancellation => permanent (lit "invalid_task_control_state") message
  end.

Definition retryable_kinds : list str :=
  [lit "process_candidate"; lit "search_source_indexer"; lit "inventory_search"; lit "data_scan"].

(** [SELECT ... FROM sporos_task t JOIN sporos_outbox o
     ON o.instance_id = t.duroxide_instance_id WHERE t.id = ?] *)
Definition task_with_start (task_id : str) (db : Db) : option (TaskRow * OutboxRow) :=
  t ← sporos_task db !! task_id;
  p ← head (outbox_with_instance (duroxide_instance_id t) (sporos_outbox db));
  Some (t, p.2).

Definition retry_key (old_key : str) (generation : Z) : str :=
  sha256 (lit "task-retry-v1" ++ old_key ++ be_bytes 8 generation).

Definition requeued (generation : Z) (instance_id : str) (now : Z) (row : TaskRow) : TaskRow :=
  {| t_kind := t_kind row; t_state := lit "queued"; projection_generation := generation;
     t_operation_id := t_operation_id row; duroxide_instance_id := instance_id;
     duroxide_execution_id := None; policy_snapshot_id := policy_snapshot_id row;
     t_reason_code := None; last_error_class := None; last_error_message := None;
     observed_retry_count := observed_retry_count row + 1; t_created_at := t_created_at row;
     updated_at := now; terminal_at := None;
     projection_repair_checked_at := projection_repair_checked_at row |}.

Definition retry_in (task_id : str) (now : Z) : Control RetryAccepted :=
  joined ← (exec Database (select (task_with_start task_id)) : Control (option (TaskRow * OutboxRow)));
  '(t, o) ← (liftr (ok_or joined TaskNotFound) : Control (TaskRow * OutboxRow));
  if negb (str_mem (t_kind t) retryable_kinds) then throw UnsupportedRetry else
  if bool_decide (terminal_at t = None)
     || negb (str_mem (t_state t) [lit "failed"; lit "cancelled"])
  then throw TaskNotRetryable else
  generation ← (liftr (ok_or (checked_add_i64 (projection_generation t) 1) GenerationRange)
                : Control Z);
  let previous_instance := o_instance_id o in
  let instance_id := previous_instance ++ lit ":retry:" ++ decimal generation in
  _ ← exec Database (insert_outbox false
        (queued_outbox task_id (retry_key (o_task_key o) generation) (o_orchestration_name o)
           (o_orchestration_version o) instance_id (o_input_json o) now));
  _ ← (if observed_retry_count t =? i64_max then throw (Database Constraint) else mret ()
       : Control ());
  _ ← exec Database (update_task task_id (fun _ => true) (requeued generation instance_id now));
  _ ← exec Database (insert_event false task_id generation
        (mkEventRow (lit "queued") (Some (lit "operator_retry"))
           (Some (json_object [(lit "previousInstanceId", previous_instance);
                               (lit "instanceId", instance_id)])) now));
  mret (mkRetryAccepted instance_id).

Definition retry (task_id : str) (now : Z) : Control RetryAccepted :=
  transaction (retry_in task_id now).

Definition cancelling (generation now : Z) (row : TaskRow) : TaskRow :=
  {| t_kind := t_kind row; t_state := lit "cancellation_requested";
     projection_generation := generation;
     t_operation_id := t_operation_id row; duroxide_instance_id := duroxide_instance_id row;
     duroxide_execution_id := duroxide_execution_id row;
     policy_snapshot_id := policy_snapshot_id row; t_reason_code := Some (lit "operator_cancel");
     last_error_class := last_error_class row; last_error_message := last_error_message row;
     observed_retry_count := observed_retry_count row; t_created_at := t_created_at row;
     updated_at := now; terminal_at := terminal_at row;
     projection_repair_checked_at := projection_repair_checked_at row |}.

Definition cancel_key (task_id : str) (generation : Z) : str :=
  sha256 (lit "task-cancellation-v1" ++ task_id ++ be_bytes 8 generation).

Definition cancel_instance_id (task_id : str) (generation : Z) : str :=
  lit "cancel-task:" ++ hex task_id ++ lit ":" ++ decimal generation.

Definition is_cancelling (row : TaskRow) : bool :=
  str_eqb (t_state row) (lit "cancellation_requested").

Definition request_cancel_in (task_id : str) (now : Z) : Control CancelAccepted :=
  found ← (exec Database (select (fun db => sporos_task db !! task_id)) : Control (option TaskRow));
  row ← (liftr (ok_or found TaskNotFound) : Control TaskRow);
  if bool_decide (is_Some (terminal_at row)) then throw TaskTerminal else
  let target := duroxide_instance_id row in
  if is_cancelling row then mret (mkCancelAccepted target true) else
  generation ← (liftr (ok_or (checked_add_i64 (projection_generation row) 1) GenerationRange)
                : Control Z);
  let input := mkCancellationInput task_id target in
  let reconciliation := cancel_instance_id task_id generation in
  changed ← exec Database (update_task task_id
    (fun r => bool_decide (terminal_at r = None) && negb (is_cancelling r))
    (cancelling generation now));
  _ ← (if changed =? 1 then
         input_json ← (liftr (ok_or (encode_input input) EncodeCancellation) : Control str);
         _ ← exec Database (insert_outbox false
               (queued_outbox task_id (cancel_key task_id generation) ORCHESTRATION_NAME
                  ORCHESTRATION_VERSION reconciliation input_json now));
         exec Database (insert_event false task_id generation
               (mkEventRow (lit "cancellation_requested") (Some (lit "operator_cancel"))
                  (Some (json_object [(lit "instanceId", target);
                                      (lit "reconciliationInstanceId", reconciliation)])) now))
       else mret 0 : Control Z);
  mret (mkCancelAccepted target (changed =? 0)).

Definition request_cancel (task_id : str) (now : Z) : Control CancelAccepted :=
  transaction (request_cancel_in task_id now).

Definition ended (state reason : str) (generation now : Z) (row : TaskRow) : TaskRow :=
  {| t_kind := t_kind row; t_state := state; projection_generation := generation;
     t_operation_id := t_operation_id row; duroxide_instance_id := duroxide_instance_id row;
     duroxide_execution_id := duroxide_execution_id row;
     policy_snapshot_id := policy_snapshot_id row; t_reason_code := Some reason;
     last_error_class := last_error_class row; last_error_message := last_error_message row;
     observed_retry_count := observed_retry_count row; t_created_at := t_created_at row;
     updated_at := now; terminal_at := Some now;
     projection_repair_checked_at := projection_repair_checked_at row |}.

Definition record_terminal_in (task_id state reason : str) (now : Z) : Control () :=
  found ← (exec Database (select (fun db =>
             row ← sporos_task db !! task_id;
             if is_cancelling row && bool_decide (terminal_at row = None) then Some row else None))
           : Control (option TaskRow));
  match found with
  | None => mret ()
  | Some row =>
      generation ← (liftr (ok_or (checked_add_i64 (projection_generation row) 1) GenerationRange)
                    : Control Z);
      _ ← exec Database (update_task task_id (fun _ => true) (ended state reason generation now));
      _ ← exec Database (insert_event false task_id generation
            (mkEventRow state (Some reason) None now));
      mret ()
  end.

Definition record_terminal (task_id state reason : str) (now : Z) : Control () :=
  transaction (record_terminal_in task_id state reason now).

Definition cancelled (details : ErrorDetails) : bool :=
  match details with Application (Cancelled _) _ => true | _ => false end.

(** The terminal state and reason that a status stands for; [None] is [Running]. *)
Definition verdict (status : OrchestrationStatus) : option (str * str) :=
  match status with
  | Running => None
  | Completed _ => Some (lit "completed", lit "cancellation_raced_completion")
  | Failed details =>
      if cancelled details then Some (lit "cancelled", lit "cancelled_by_operator")
      else Some (lit "failed", lit "orchestration_failed")
  | NotFound => Some (lit "failed", lit "orchestration_missing")
  end.

(** [reconcile]: inspect, and either ask again or record the verdict. *)
Definition reconcile (input : CancellationInput) (now : Z)
  : M (Db * runtime) TaskControlError bool := fun '(db, c) =>
  match get_orchestration_status (target_instance input) c with
  | Err e => ((db, c), Err (Duroxide e))
  | Ok status =>
      match verdict status with
      | None =>
          let '(c', r) := cancel_instance (target_instance input) c in
          ((db, c'), match r with Ok _ => Ok false | Err e => Err (Duroxide e) end)
      | Some (state, reason) =>
          let '(db', r) := record_terminal (ci_task_id input) state reason now db in
          ((db', c), match r with Ok _ => Ok true | Err e => Err e end)
      end
  end.

(** ** Retry *)

Lemma task_with_start_Some id db t o :
  task_with_start id db = Some (t, o) ->
  sporos_task db !! id = Some t /\
  exists oid, sporos_outbox db !! oid = Some o /\ o_instance_id o = duroxide_instance_id t.
Proof.
  unfold task_with_start. destruct (sporos_task db !! id) as [t'|]; [|done]. cbn.
  destruct (outbox_with_instance _ _) as [|p l] eqn:Hp; [done|]. cbn. intros [= -> <-].
  apply outbox_with_instance_cons in Hp as [Hp Hi]. eauto.
Qed.

(** A successful retry: which task it was, and the next generation it starts. *)
Definition retried (id : str) (now : Z) (db db' : Db) (a : RetryAccepted) : Prop :=
  exists t o g,
    sporos_task db !! id = Some t /\ t_kind t ∈ retryable_kinds /\ is_Some (terminal_at t) /\
    t_state t ∈ [lit "failed"; lit "cancelled"] /\
    g = projection_generation t + 1 /\ g <= i64_max /\
    (exists oid, sporos_outbox db !! oid = Some o) /\
    o_instance_id o = duroxide_instance_id t /\
    ra_instance_id a = o_instance_id o ++ lit ":retry:" ++ decimal g /\
    sporos_task db' = <[id := requeued g (ra_instance_id a) now t]> (sporos_task db) /\
    sporos_task_event db' !! (id, g) =
      Some (mkEventRow (lit "queued") (Some (lit "operator_retry"))
        (Some (json_object [(lit "previousInstanceId", o_instance_id o);
                            (lit "instanceId", ra_instance_id a)])) now) /\
    (forall k, k <> (id, g) -> sporos_task_event db' !! k = sporos_task_event db !! k) /\
    sporos_outbox db' = <[next_rowid (sporos_outbox db) :=
      queued_outbox id (retry_key (o_task_key o) g) (o_orchestration_name o)
        (o_orchestration_version o) (ra_instance_id a) (o_input_json o) now]> (sporos_outbox db) /\
    sporos_policy_snapshot db' = sporos_policy_snapshot db.

Lemma retry_spec id now db :
  db_ok db ->
  match retry id now db with
  | (db', Ok a) => db_ok db' /\ retried id now db db' a
  | (db', Err _) => db' = db
  end.
Proof.
  intros Hok. destruct (retry id now db) as [db' [a|e]] eqn:Hrun; unfold retry in Hrun.
  2: { by apply transaction_Err in Hrun as [-> _]. }
  rewrite transaction_Ok in Hrun. unfold retry_in in Hrun.
  rewrite M_bind_Ok in Hrun. destruct Hrun as (db0 & j & Hj & Hrun). injection Hj as <- <-.
  rewrite M_bind_Ok in Hrun. destruct Hrun as (db0 & [t o] & Hto & Hrun). injection Hto as <- Hto.
  apply ok_or_Ok, task_with_start_Some in Hto as (Ht & oid & Ho & Hoi).
  destruct (negb _) eqn:Hkind; [done|]. apply negb_false_iff, bool_decide_eq_true in Hkind.
  destruct (bool_decide _ || _) eqn:Hstate; [done|]. apply orb_false_iff in Hstate as [Hterm Hstate].
  apply bool_decide_eq_false in Hterm. apply negb_false_iff, bool_decide_eq_true in Hstate.
  rewrite M_bind_Ok in Hrun. destruct Hrun as (db0 & g & Hg & Hrun). injection Hg as <- Hg.
  apply ok_or_Ok in Hg. unfold checked_add_i64 in Hg.
  destruct ((_ <=? _) && (_ <=? _)) eqn:Hrange in Hg; [|done]. injection Hg as <-.
  apply andb_true_iff in Hrange as [_ Hmax%Z.leb_le].
  rewrite M_bind_Ok in Hrun. destruct Hrun as (db1 & n1 & Hout%exec_Ok & Hrun).
  rewrite M_bind_Ok in Hrun. destruct Hrun as (db1' & u & Hguard & Hrun).
  assert (db1' = db1) as -> by (destruct (_ =? _); [done|by injection Hguard as <- _]). clear Hguard.
  rewrite M_bind_Ok in Hrun. destruct Hrun as (db2 & n2 & Hup%exec_Ok & Hrun).
  rewrite M_bind_Ok in Hrun. destruct Hrun as (db3 & n3 & Hev%exec_Ok & Hrun).
  injection Hrun as <- <-.
  apply insert_outbox_Ok in Hout as [(_ & ? & _)|(_ & -> & _ & Hfresh)]; [done|].
  set (o' := queued_outbox _ _ _ _ _ _ _) in *.
  unfold update_task, update_where in Hup. cbn [sporos_task set_outbox] in Hup. rewrite Ht in Hup.
  injection Hup as <- _.
  apply insert_event_Ok in Hev as [(_ & ? & _)|(_ & _ & _ & _ & ->)]; [done|].
  split.
  - pose proof (db_ok_insert_outbox db (next_rowid (sporos_outbox db)) o' Hok
      (next_rowid_fresh _) ltac:(by eexists) Hfresh) as Hok1.
    pose proof (db_ok_advance _ id t (requeued (projection_generation t + 1) (o_instance_id o') now t)
      (mkEventRow (lit "queued") (Some (lit "operator_retry"))
        (Some (json_object [(lit "previousInstanceId", o_instance_id o);
                            (lit "instanceId", o_instance_id o')])) now) Hok1 Ht eq_refl Hmax) as Hok2.
    apply Hok2. exists (next_rowid (sporos_outbox db)), o'. cbn. by rewrite lookup_insert_eq.
  - exists t, o, (projection_generation t + 1). cbn.
    split; [done|]. split; [done|]. split; [by apply not_eq_None_Some|]. split; [done|].
    split; [done|]. split; [done|]. split; [by exists oid|]. split; [done|]. split; [done|].
    split; [done|]. split; [by rewrite lookup_insert_eq|]. split; [|done].
    intros k Hk. by rewrite lookup_insert_ne.
Qed.

(** ** Cancellation *)

(** An accepted cancellation: a duplicate of a pending one, or a new generation of
    the task together with the start of its reconciliation. *)
Definition cancel_requested (id : str) (now : Z) (db db' : Db) (a : CancelAccepted) : Prop :=
  exists row, sporos_task db !! id = Some row /\ terminal_at row = None /\
    ca_target_instance a = duroxide_instance_id row /\
    ((ca_duplicate a = true /\ is_cancelling row = true /\ db' = db) \/
     (ca_duplicate a = false /\ is_cancelling row = false /\
      exists g input_json,
        g = projection_generation row + 1 /\ g <= i64_max /\
        encode_input (mkCancellationInput id (duroxide_instance_id row)) = Some input_json /\
        sporos_task db' = <[id := cancelling g now row]> (sporos_task db) /\
        (exists ev, e_state ev = lit "cancellation_requested" /\
           sporos_task_event db' = <[(id, g) := ev]> (sporos_task_event db)) /\
        sporos_outbox db' = <[next_rowid (sporos_outbox db) :=
          queued_outbox id (cancel_key id g) ORCHESTRATION_NAME ORCHESTRATION_VERSION
            (cancel_instance_id id g) input_json now]> (sporos_outbox db))).

Lemma request_cancel_spec id now db :
  db_ok db ->
  match request_cancel id now db with
  | (db', Ok a) => db_ok db' /\ cancel_requested id now db db' a
  | (db', Err _) => db' = db
  end.
Proof.
  intros Hok. destruct (request_cancel id now db) as [db' [a|e]] eqn:Hrun;
    unfold request_cancel in Hrun.
  2: { by apply transaction_Err in Hrun as [-> _]. }
  rewrite transaction_Ok in Hrun. unfold request_cancel_in in Hrun.
  rewrite M_bind_Ok in Hrun. destruct Hrun as (db0 & j & Hj & Hrun). injection Hj as <- <-.
  rewrite M_bind_Ok in Hrun. destruct Hrun as (db0 & row & Hto & Hrun). injection Hto as <- Hto.
  apply ok_or_Ok in Hto.
  destruct (bool_decide (is_Some _)) eqn:Hterm; [done|].
  apply bool_decide_eq_false in Hterm. rewrite <- eq_None_not_Some in Hterm.
  destruct (is_cancelling row) eqn:Hc.
  { injection Hrun as <- <-. split; [done|]. exists row. naive_solver. }
  rewrite M_bind_Ok in Hrun. destruct Hrun as (db0 & g & Hg & Hrun). injection Hg as <- Hg.
  apply ok_or_Ok in Hg. unfold checked_add_i64 in Hg.
  destruct ((_ <=? _) && (_ <=? _)) eqn:Hrange in Hg; [|done]. injection Hg as <-.
  apply andb_true_iff in Hrange as [_ Hmax%Z.leb_le].
  rewrite M_bind_Ok in Hrun. destruct Hrun as (db1 & n1 & Hup%exec_Ok & Hrun).
  unfold update_task, update_where in Hup. rewrite Hto, Hterm, Hc in Hup.
  rewrite bool_decide_eq_true_2 in Hup by done. injection Hup as <- <-. cbn [Z.eqb Pos.eqb] in Hrun.
  rewrite M_bind_Ok in Hrun. destruct Hrun as (db2 & n2 & Hins & Hrun).
  injection Hrun as <- <-.
  rewrite M_bind_Ok in Hins. destruct Hins as (db1' & json & Hj & Hins). injection Hj as <- Hj.
  apply ok_or_Ok in Hj.
  rewrite M_bind_Ok in Hins. destruct Hins as (db3 & n3 & Hout%exec_Ok & Hev%exec_Ok).
  apply insert_outbox_Ok in Hout as [(_ & ? & _)|(_ & -> & _ & Hfresh)]; [done|].
  apply insert_event_Ok in Hev as [(_ & ? & _)|(_ & _ & _ & _ & ->)]; [done|].
  set (o' := queued_outbox _ _ _ _ _ _ _) in *. cbn [sporos_outbox set_tasks] in *.
  destruct (ok_tasks _ Hok _ _ Hto) as [_ _ (oid & o & Ho & Hoid & Hoi)].
  split.
  - pose proof (db_ok_insert_outbox db (next_rowid (sporos_outbox db)) o' Hok
      (next_rowid_fresh _) ltac:(by eexists) Hfresh) as Hok1.
    refine (db_ok_advance _ id row (cancelling (projection_generation row + 1) now row) _
      Hok1 Hto eq_refl Hmax _).
    exists oid, o. cbn. rewrite lookup_insert_ne; [done|].
    intros Heq. rewrite <- Heq in Ho. by rewrite next_rowid_fresh in Ho.
  - exists row. split; [done|]. split; [done|]. split; [done|]. right. split; [done|].
    split; [done|]. exists (projection_generation row + 1), json.
    split; [done|]. split; [done|]. split; [done|]. split; [done|]. split; [|done].
    eexists. split; [|done]. done.
Qed.

(** Recording the verdict: only for a task whose cancellation is pending. *)
Definition terminal_recorded (id s reason : str) (now : Z) (db db' : Db) : Prop :=
  match sporos_task db !! id with
  | Some row =>
      if is_cancelling row && bool_decide (terminal_at row = None) then
        exists g ev, g = projection_generation row + 1 /\ g <= i64_max /\ e_state ev = s /\
          sporos_task db' = <[id := ended s reason g now row]> (sporos_task db) /\
          sporos_task_event db' = <[(id, g) := ev]> (sporos_task_event db) /\
          sporos_outbox db' = sporos_outbox db
      else db' = db
  | None => db' = db
  end.

Lemma record_terminal_spec id s reason now db :
  db_ok db ->
  match record_terminal id s reason now db with
  | (db', Ok _) => db_ok db' /\ terminal_recorded id s reason now db db'
  | (db', Err _) => db' = db
  end.
Proof.
  intros Hok. destruct (record_terminal id s reason now db) as [db' [a|e]] eqn:Hrun;
    unfold record_terminal in Hrun.
  2: { by apply transaction_Err in Hrun as [-> _]. }
  rewrite transaction_Ok in Hrun. unfold record_terminal_in in Hrun. unfold terminal_recorded.
  rewrite M_bind_Ok in Hrun. destruct Hrun as (db0 & j & Hj & Hrun). injection Hj as <- <-.
  destruct (sporos_task db !! id) as [row|] eqn:Hrow; cbn [mbind option_bind] in Hrun.
  2: { injection Hrun as <- _. done. }
  destruct (is_cancelling row && _) eqn:Hpending.
  2: { injection Hrun as <- _. done. }
  rewrite M_bind_Ok in Hrun. destruct Hrun as (db0 & g & Hg & Hrun). injection Hg as <- Hg.
  apply ok_or_Ok in Hg. unfold checked_add_i64 in Hg.
  destruct ((_ <=? _) && (_ <=? _)) eqn:Hrange in Hg; [|done]. injection Hg as <-.
  apply andb_true_iff in Hrange as [_ Hmax%Z.leb_le].
  rewrite M_bind_Ok in Hrun. destruct Hrun as (db1 & n1 & Hup%exec_Ok & Hrun).
  unfold update_task, update_where in Hup. rewrite Hrow in Hup. injection Hup as <- _.
  rewrite M_bind_Ok in Hrun. destruct Hrun as (db2 & n2 & Hev%exec_Ok & Hrun).
  injection Hrun as <- _.
  apply insert_event_Ok in Hev as [(_ & ? & _)|(_ & _ & _ & _ & ->)]; [done|].
  split.
  - refine (db_ok_advance db id row (ended s reason (projection_generation row + 1) now row) _
      Hok Hrow eq_refl Hmax _).
    destruct (ok_tasks _ Hok _ _ Hrow) as [_ _ (oid & o & Ho & Hoid & Hoi)]. by exists oid, o.
  - eexists _, _. split; [done|]. split; [done|]. split; [|done]. done.
Qed.

Lemma reconcile_ok input now db c : db_ok db -> db_ok (reconcile input now (db, c)).1.1.
Proof.
  intros Hok. unfold reconcile. destruct (get_orchestration_status _ c) as [status|]; [|done].
  destruct (verdict status) as [[s reason]|].
  - pose proof (record_terminal_spec (ci_task_id input) s reason now db Hok) as Hspec.
    destruct (record_terminal _ _ _ _ db) as [db' [|]]; cbn; [by destruct Hspec|by subst].
  - by destruct (cancel_instance _ c).
Qed.

(** What the row of a retried task shows. *)
Definition restarted (row row' : TaskRow) (instance : str) : Prop :=
  t_state row' = lit "queued" /\ terminal_at row' = None /\ duroxide_instance_id row' = instance /\
  projection_generation row' = projection_generation row + 1 /\
  observed_retry_count row' = observed_retry_count row + 1 /\
  duroxide_execution_id row' = None /\ t_reason_code row' = None /\
  last_error_class row' = None /\ last_error_message row' = None /\
  t_kind row' = t_kind row /\ policy_snapshot_id row' = policy_snapshot_id row /\
  t_created_at row' = t_created_at row.

(** An operator retry is accepted only for a failed or cancelled task of a
    supported kind.  It then advances the task to its next generation, in state
    [queued], on a new workflow instance started from the same orchestration,
    version and input, through a fresh undelivered outbox row; it keeps every
    earlier event and preserves the store's invariant.  Otherwise it fails and
    changes nothing. *)
Theorem retry_restarts_task (id : str) (now : Z) (db : Db) :
  db_ok db ->
  match retry id now db with
  | (db', Ok a) =>
      db_ok db' /\ retried id now db db' a /\
      (exists row row', sporos_task db !! id = Some row /\ sporos_task db' !! id = Some row' /\
         restarted row row' (ra_instance_id a)) /\
      (forall k ev, sporos_task_event db !! k = Some ev -> sporos_task_event db' !! k = Some ev)
  | (db', Err _) => db' = db
  end.
Proof.
  intros Hok. pose proof (retry_spec id now db Hok) as Hspec.
  destruct (retry id now db) as [db' [a|e]]; [|done]. destruct Hspec as [Hok' Hr].
  split; [done|]. split; [done|].
  destruct Hr as (t & o & g & Ht & _ & _ & _ & -> & _ & _ & _ & _ & Htasks & _ & Hev & _). split.
  { exists t. eexists. rewrite Htasks, lookup_insert_eq. done. }
  intros k ev Hk.
  rewrite Hev; [done|]. intros ->.
  destruct (ok_tasks _ Hok _ _ Ht) as [_ Hevs _].
  assert (is_Some (sporos_task_event db !! (id, projection_generation t + 1))) as Hsome by (by eexists).
  apply Hevs in Hsome. lia.
Qed.

(** What a pending cancellation, and its end, leave on the row. *)
Definition kept_identity (row row' : TaskRow) : Prop :=
  projection_generation row' = projection_generation row + 1 /\
  duroxide_instance_id row' = duroxide_instance_id row /\ t_kind row' = t_kind row /\
  policy_snapshot_id row' = policy_snapshot_id row /\ t_created_at row' = t_created_at row.

(** Requesting cancellation is idempotent: only an unfinished task can be
    cancelled; the first request moves it to [cancellation_requested], its next
    generation, and enqueues one reconciliation workflow, and repeating the
    request at any time reports a duplicate for the same instance and changes
    nothing. *)
Theorem cancel_requests_once (id : str) (now later : Z) (db : Db) :
  db_ok db ->
  match request_cancel id now db with
  | (db', Ok a) =>
      db_ok db' /\ cancel_requested id now db db' a /\
      (exists row row', sporos_task db !! id = Some row /\ sporos_task db' !! id = Some row' /\
         t_state row' = lit "cancellation_requested" /\ terminal_at row' = None /\
         (ca_duplicate a = false -> kept_identity row row')) /\
      request_cancel id later db' = (db', Ok (mkCancelAccepted (ca_target_instance a) true))
  | (db', Err _) => db' = db
  end.
Proof.
  intros Hok. pose proof (request_cancel_spec id now db Hok) as Hspec.
  destruct (request_cancel id now db) as [db' [a|e]]; [|done]. destruct Hspec as [Hok' Hc].
  split; [done|]. split; [done|]. split.
  { destruct Hc as (row & Hrow & Ht & _ & [(-> & Hcan & ->)|(_ & _ & g & j & -> & _ & _ & Htasks & _)]).
    - exists row, row. unfold is_cancelling in Hcan. apply bool_decide_eq_true in Hcan. done.
    - exists row. eexists. rewrite Htasks, lookup_insert_eq. done. }
  assert (exists row', sporos_task db' !! id = Some row' /\ terminal_at row' = None /\
    is_cancelling row' = true /\ duroxide_instance_id row' = ca_target_instance a)
    as (row' & Hrow' & Ht' & Hc' & Hi').
  { destruct Hc as (row & Hrow & Ht & Hi & [(_ & Hcan & ->)|(_ & _ & g & j & _ & _ & _ & Htasks & _)]).
    - by exists row.
    - rewrite Htasks, lookup_insert_eq. eexists. split; [done|]. done. }
  unfold request_cancel, transaction, request_cancel_in, mbind, M_bind, exec, select, reads, liftr.
  cbn [map_err]. rewrite Hrow'. cbn [ok_or].
  rewrite bool_decide_eq_false_2 by (rewrite Ht'; by intros []). by rewrite Hc', Hi'.
Qed.

(** Reconciling a cancellation never finishes a task the runtime still runs,
    and never touches a task whose cancellation is not pending.  While the
    instance runs it only repeats the cancel request; once the runtime reports
    an end, reconciliation is done, and a pending task is then terminal with the
    state that the runtime's status stands for. *)
Theorem reconcile_follows_runtime (input : CancellationInput) (now : Z) (db : Db) (c : runtime)
    (status : OrchestrationStatus) :
  db_ok db -> get_orchestration_status (target_instance input) c = Ok status ->
  let '((db', c'), r) := reconcile input now (db, c) in
  db_ok db' /\
  match verdict status, r with
  | None, _ => db' = db /\ r <> Ok true
  | Some (s, reason), Ok finished =>
      finished = true /\ c' = c /\ terminal_recorded (ci_task_id input) s reason now db db' /\
      (forall row, sporos_task db !! ci_task_id input = Some row -> is_cancelling row = true ->
         terminal_at row = None ->
         exists row', sporos_task db' !! ci_task_id input = Some row' /\ t_state row' = s /\
           t_reason_code row' = Some reason /\ terminal_at row' = Some now /\ kept_identity row row')
  | Some _, Err _ => db' = db /\ c' = c
  end.
Proof.
  intros Hok Hst. pose proof (reconcile_ok input now db c Hok) as Hok'.
  unfold reconcile in *. rewrite Hst in *.
  destruct (verdict status) as [[s reason]|].
  - pose proof (record_terminal_spec (ci_task_id input) s reason now db Hok) as Hspec.
    destruct (record_terminal _ _ _ _ db) as [db' [[]|e]]; cbn in *; [|by subst].
    destruct Hspec as [_ Hrec]. do 3 (split; [done|]). split; [done|].
    intros row Hrow Hcan Ht. unfold terminal_recorded in Hrec. rewrite Hrow, Hcan, Ht in Hrec.
    rewrite bool_decide_eq_true_2 in Hrec by done. cbn [andb] in Hrec.
    destruct Hrec as (g & ev & -> & _ & _ & Htasks & _). eexists. rewrite Htasks, lookup_insert_eq. done.
  - destruct (cancel_instance _ c) as [c' [[]|e]]; cbn in *; done.
Qed.
End TaskControl.

(** ** Examples *)

#[export] Instance sample_codec : CancellationCodec := {|
  encode_input i := Some (frame (ci_task_id i) ++ frame (target_instance i));
  decode_input s := '(t, s) ← unframe s; '(i, _) ← unframe s; Some (mkCancellationInput t i) |}.

Definition queued_db : Db := (Ingress.accept_task Ingress.sample_task empty_db).1.

Lemma queued_db_ok : db_ok queued_db.
Proof. apply Ingress.accept_task_ok, db_ok_empty. Qed.

Definition pending_db : Db := (request_cancel (lit "task") 6 queued_db).1.

Lemma pending_db_ok : db_ok pending_db.
Proof.
  pose proof (request_cancel_spec (lit "task") 6 queued_db queued_db_ok) as H. unfold pending_db.
  destruct (request_cancel (lit "task") 6 queued_db) as [db [a|e]]; [by destruct H|].
  cbn. rewrite H. apply queued_db_ok.
Qed.

Definition failed_db : Db :=
  (reconcile (mkCancellationInput (lit "task") (lit "candidate-v1:1")) 7
     (pending_db, [] : @runtime sample_client)).1.1.

Lemma failed_db_ok : db_ok failed_db.
Proof. apply reconcile_ok, pending_db_ok. Qed.

Lemma retry_restarts_task_witness :
  (retry (lit "task") 8 failed_db).2
    = Ok (mkRetryAccepted (lit "candidate-v1:1:retry:3")) /\
  exists a, retried (lit "task") 8 failed_db (retry (lit "task") 8 failed_db).1 a.
Proof.
  assert ((retry (lit "task") 8 failed_db).2
    = Ok (mkRetryAccepted (lit "candidate-v1:1:retry:3"))) as Hr by (vm_compute; reflexivity).
  split; [exact Hr|].
  pose proof (retry_restarts_task (lit "task") 8 failed_db failed_db_ok) as H.
  destruct (retry (lit "task") 8 failed_db) as [db' [a|e]]; [|discriminate Hr].
  exists a. apply H.
Defined.

Lemma cancel_requests_once_witness :
  (request_cancel (lit "task") 6 queued_db).2
    = Ok (mkCancelAccepted (lit "candidate-v1:1") false) /\
  (request_cancel (lit "task") 9 pending_db).2 = Ok (mkCancelAccepted (lit "candidate-v1:1") true).
Proof.
  assert ((request_cancel (lit "task") 6 queued_db).2
    = Ok (mkCancelAccepted (lit "candidate-v1:1") false)) as Hr by (vm_compute; reflexivity).
  split; [exact Hr|].
  pose proof (cancel_requests_once (lit "task") 6 9 queued_db queued_db_ok) as H.
  unfold pending_db. destruct (request_cancel (lit "task") 6 queued_db) as [db' [a|e]]; cbn [fst snd] in *;
    [|discriminate Hr].
  injection Hr as ->. destruct H as (_ & _ & _ & ->). reflexivity.
Defined.

Lemma reconcile_follows_runtime_witness :
  (reconcile (mkCancellationInput (lit "task") (lit "candidate-v1:1")) 7
     (pending_db, [] : @runtime sample_client)).2 = Ok true /\
  terminal_recorded (lit "task") (lit "failed") (lit "orchestration_missing") 7 pending_db failed_db.
Proof.
  assert ((reconcile (mkCancellationInput (lit "task") (lit "candidate-v1:1")) 7
     (pending_db, [] : @runtime sample_client)).2 = Ok true) as Hr by (vm_compute; reflexivity).
  split; [exact Hr|].
  pose proof (reconcile_follows_runtime (mkCancellationInput (lit "task") (lit "candidate-v1:1")) 7
    pending_db ([] : @runtime sample_client) NotFound pending_db_ok eq_refl) as H.
  unfold failed_db.
  destruct (reconcile (mkCancellationInput (lit "task") (lit "candidate-v1:1")) 7
     (pending_db, [] : @runtime sample_client)) as [[db' c'] r]. cbn [fst snd] in *.
  subst r. apply H.
Defined.
