(* ===== verification/Outbox.v ===== *)
(** The outbox dispatcher (outbox.rs): committed workflow starts are leased in
    batches, delivered to the runtime, and marked dispatched, for retry, or
    permanently failed.  Delivery is at least once; what a row says about the
    runtime is true because a failed call is reconciled before it is judged. *)

From S2P Require Import Prelude Text Store Duroxide.
From S2P Require Ingress.
From stdpp Require Import strings sorting.
Local Open Scope Z_scope.

(** ** Definitions *)

Definition INITIAL_BACKOFF_MS : Z := 1000.
Definition MAX_BACKOFF_MS : Z := 5 * 60 * 1000.

Record DispatchReport := mkDispatchReport {
  claimed : Z; dispatched : Z; retrying : Z; permanently_failed : Z }.

Record OutboxDispatcher := mkDispatcher { batch_size : Z; lease_duration_ms : Z }.
(** [OutboxDispatcher::new]: leases last 60 seconds. *)
Definition new (batch_size : Z) : OutboxDispatcher := mkDispatcher batch_size 60000.

Record OutboxStart := mkOutboxStart {
  id : Z; orchestration_name : str; orchestration_version : str; instance_id : str;
  input_json : str; attempt_count : Z }.

(** [1_i64.checked_shl(k)] *)
Definition checked_shl_i64 (k : Z) : option Z :=
  if k <? 64 then Some (wrap_i 64 (Z.shiftl 1 k)) else None.

Definition retry_delay (id attempt : Z) : Z :=
  let exponent := Z.min (saturating_sub_u attempt 1) 18 in
  let base := Z.min (saturating_mul_i64 INITIAL_BACKOFF_MS
                       (default i64_max (checked_shl_i64 exponent))) MAX_BACKOFF_MS in
  let jitter_window := Z.max (base / 5) 1 in
  let mixed := Z.lxor (Z.abs id) (wrap_u 64 (attempt * 0x9e3779b97f4a7c15)) in
  Z.min (saturating_add_i64 base (mixed mod jitter_window)) MAX_BACKOFF_MS.

(** [now_ms.to_be_bytes()] followed by the process-wide sequence number. *)
Definition token_of (now_ms sequence : Z) : str :=
  be_bytes 8 (wrap_u 64 now_ms) ++ be_bytes 8 sequence.

Section Outbox.
Context `{Client}.

Inductive DispatchError :=
| Database (e : SqlError)
| ZeroBatchSize
| BatchTooLarge
| TimeOverflow
| AttemptOverflow
| CorruptAttemptCount
| LostLease (id : Z)
| Duroxide (e : ClientError).

Abbreviation Dispatch A := (Tx DispatchError A).

Definition undelivered (o : OutboxRow) : bool :=
  bool_decide (dispatched_at o = None) && bool_decide (permanent_failure_at o = None).
Definition lease_free (now : Z) (o : OutboxRow) : bool :=
  match lease_until o with None => true | Some t => t <=? now end.

(** [WHERE dispatched_at IS NULL AND permanent_failure_at IS NULL AND visible_at <= ?
     AND (lease_until IS NULL OR lease_until <= ?)] *)
Definition eligible (now : Z) (o : OutboxRow) : bool :=
  undelivered o && (visible_at o <=? now) && lease_free now o.

(** [ORDER BY visible_at, id] *)
Definition visible_leb (a b : Z * OutboxRow) : bool :=
  if visible_at a.2 <? visible_at b.2 then true
  else if visible_at b.2 <? visible_at a.2 then false else a.1 <=? b.1.

Definition claim_rows (now : Z) (limit : nat) (db : Db) : list (Z * OutboxRow) :=
  take limit (sort_by visible_leb
    (filter (fun p => eligible now p.2 = true) (map_to_list (sporos_outbox db)))).

Definition set_lease (token : option str) (until : option Z) (o : OutboxRow) : OutboxRow :=
  {| o_task_id := o_task_id o; o_task_key := o_task_key o;
     o_orchestration_name := o_orchestration_name o;
     o_orchestration_version := o_orchestration_version o; o_instance_id := o_instance_id o;
     o_input_json := o_input_json o; visible_at := visible_at o;
     start_delivery_attempt_count := start_delivery_attempt_count o;
     lease_token := token; lease_until := until; dispatched_at := dispatched_at o;
     permanent_failure_at := permanent_failure_at o; last_error := last_error o |}.

Definition start_of (oid : Z) (o : OutboxRow) (attempts : Z) : OutboxStart :=
  mkOutboxStart oid (o_orchestration_name o) (o_orchestration_version o) (o_instance_id o)
    (o_input_json o) attempts.

(** One row of the claiming loop. *)
Definition claim_one (now until : Z) (token : str) (starts : list OutboxStart) (row : Z * OutboxRow)
  : Dispatch (list OutboxStart) :=
  changed ← exec Database (update_outbox row.1 (fun o => undelivered o && lease_free now o)
                             (set_lease (Some token) (Some until)));
  if changed =? 1 then
    attempts ← (liftr (ok_or (u64_try_from (start_delivery_attempt_count row.2)) CorruptAttemptCount)
                : Dispatch Z);
    mret (starts ++ [start_of row.1 row.2 attempts])
  else mret starts.

Fixpoint claim_loop (now until : Z) (token : str) (rows : list (Z * OutboxRow))
    (starts : list OutboxStart) : Dispatch (list OutboxStart) :=
  match rows with
  | [] => mret starts
  | row :: rows =>
      starts ← claim_one now until token starts row;
      claim_loop now until token rows starts
  end.

Definition claim (now until : Z) (token : str) (batch_size : Z) : Dispatch (list OutboxStart) :=
  limit ← (liftr (ok_or (i64_try_from batch_size) BatchTooLarge) : Dispatch Z);
  transaction (rows ← (reads (fun db => Ok (claim_rows now (Z.to_nat limit) db))
                       : Dispatch (list (Z * OutboxRow)));
               claim_loop now until token rows []).

Definition require_lease (changed id : Z) : result DispatchError () :=
  if changed =? 1 then Ok () else Err (LostLease id).

Definition holds (token : str) (o : OutboxRow) : bool := bool_decide (lease_token o = Some token).

(** [SET dispatched_at = ?, last_error = NULL, lease_token = NULL, lease_until = NULL] *)
Definition as_dispatched (now : Z) (o : OutboxRow) : OutboxRow :=
  {| o_task_id := o_task_id o; o_task_key := o_task_key o;
     o_orchestration_name := o_orchestration_name o;
     o_orchestration_version := o_orchestration_version o; o_instance_id := o_instance_id o;
     o_input_json := o_input_json o; visible_at := visible_at o;
     start_delivery_attempt_count := start_delivery_attempt_count o;
     lease_token := None; lease_until := None; dispatched_at := Some now;
     permanent_failure_at := permanent_failure_at o; last_error := None |}.

(** [UPDATE ... WHERE id = ? AND lease_token = ?], then [require_lease]. *)
Definition update_leased (id : Z) (token : str) (f : OutboxRow -> OutboxRow) : Dispatch () :=
  changed ← exec Database (update_outbox id (holds token) f);
  liftr (require_lease changed id).

Definition mark_dispatched (id : Z) (token : str) (now : Z) : Dispatch () :=
  update_leased id token (as_dispatched now).

Definition as_permanent (now : Z) (error : str) (o : OutboxRow) : OutboxRow :=
  {| o_task_id := o_task_id o; o_task_key := o_task_key o;
     o_orchestration_name := o_orchestration_name o;
     o_orchestration_version := o_orchestration_version o; o_instance_id := o_instance_id o;
     o_input_json := o_input_json o; visible_at := visible_at o;
     start_delivery_attempt_count := start_delivery_attempt_count o;
     lease_token := None; lease_until := None; dispatched_at := dispatched_at o;
     permanent_failure_at := Some now; last_error := Some error |}.

Definition mark_permanent (id : Z) (token : str) (now : Z) (error : str) : Dispatch () :=
  update_leased id token (as_permanent now error).

Definition as_retry (attempt visible : Z) (o : OutboxRow) : OutboxRow :=
  {| o_task_id := o_task_id o; o_task_key := o_task_key o;
     o_orchestration_name := o_orchestration_name o;
     o_orchestration_version := o_orchestration_version o; o_instance_id := o_instance_id o;
     o_input_json := o_input_json o; visible_at := visible;
     start_delivery_attempt_count := attempt;
     lease_token := None; lease_until := None; dispatched_at := dispatched_at o;
     permanent_failure_at := permanent_failure_at o;
     last_error := Some (lit "duroxide_start_retryable") |}.

Definition mark_retry (start : OutboxStart) (token : str) (now : Z) : Dispatch () :=
  attempt ← (liftr (ok_or (checked_add_u64 (attempt_count start) 1) AttemptOverflow) : Dispatch Z);
  visible ← (liftr (ok_or (checked_add_i64 now (retry_delay (id start) attempt)) TimeOverflow)
             : Dispatch Z);
  attempt_i64 ← (liftr (ok_or (i64_try_from attempt) AttemptOverflow) : Dispatch Z);
  update_leased (id start) token (as_retry attempt_i64 visible).

Definition root_start (start : OutboxStart) : RootStart :=
  mkRootStart (instance_id start) (orchestration_name start) (orchestration_version start)
    (input_json start).

Definition reconcile (c : runtime) (expected : OutboxStart) : result DispatchError RootOrchestrationStart :=
  map_err Duroxide (inspect_root_orchestration_start (root_start expected) c).

Definition count_dispatched r := mkDispatchReport (claimed r) (dispatched r + 1) (retrying r) (permanently_failed r).
Definition count_retrying r := mkDispatchReport (claimed r) (dispatched r) (retrying r + 1) (permanently_failed r).
Definition count_failed r := mkDispatchReport (claimed r) (dispatched r) (retrying r) (permanently_failed r + 1).

(** How a start ended, before it is written down. *)
Inductive Verdict := Deliver | Retry | Reject (error : str).

Definition verdict (c : runtime) (start : OutboxStart) (error : ClientError)
  : result DispatchError Verdict :=
  existing ← reconcile c start;
  Ok match existing with
     | Same => Deliver
     | Collision => Reject (lit "duroxide_identity_collision")
     | Missing => if is_retryable error then Retry else Reject (lit "duroxide_start_rejected")
     end.

Definition mark (start : OutboxStart) (token : str) (now : Z) (v : Verdict) : Dispatch () :=
  match v with
  | Deliver => mark_dispatched (id start) token now
  | Retry => mark_retry start token now
  | Reject error => mark_permanent (id start) token now error
  end.

Definition count (v : Verdict) (report : DispatchReport) : DispatchReport :=
  match v with
  | Deliver => count_dispatched report
  | Retry => count_retrying report
  | Reject _ => count_failed report
  end.

Abbreviation World A := (M (Db * runtime) DispatchError A).

(** One iteration of the delivery loop. *)
Definition deliver (token : str) (now : Z) (report : DispatchReport) (start : OutboxStart)
  : World DispatchReport := fun '(db, c) =>
  let '(c', r) := start_orchestration_versioned (root_start start) c in
  match match r with Ok _ => Ok Deliver | Err e => verdict c' start e end with
  | Err e => ((db, c'), Err e)
  | Ok v =>
      let '(db', m) := mark start token now v db in
      ((db', c'), match m with Ok _ => Ok (count v report) | Err e => Err e end)
  end.

Fixpoint deliver_loop (token : str) (now : Z) (starts : list OutboxStart) (report : DispatchReport)
  : World DispatchReport :=
  match starts with
  | [] => mret report
  | start :: starts =>
      report ← deliver token now report start;
      deliver_loop token now starts report
  end.

Definition run_once (self : OutboxDispatcher) (now sequence : Z) : World DispatchReport :=
  fun '(db, c) =>
  if batch_size self =? 0 then ((db, c), Err ZeroBatchSize) else
  match i64_try_from (lease_duration_ms self) ≫= checked_add_i64 now with
  | None => ((db, c), Err TimeOverflow)
  | Some until =>
      let token := token_of now sequence in
      match claim now until token (batch_size self) db with
      | (db', Err e) => ((db', c), Err e)
      | (db', Ok starts) =>
          deliver_loop token now starts
            (mkDispatchReport (Z.of_nat (length starts)) 0 0 0) (db', c)
      end
  end.

(** ** Specification of a dispatch round *)

(** What a verdict writes into a claimed row, field by field. *)
Definition outcome_row (now oid : Z) (o o' : OutboxRow) (v : Verdict) : Prop :=
  same_start o o' /\ lease_token o' = None /\ lease_until o' = None /\
  match v with
  | Deliver =>
      dispatched_at o' = Some now /\ permanent_failure_at o' = permanent_failure_at o /\
      last_error o' = None /\ visible_at o' = visible_at o /\
      start_delivery_attempt_count o' = start_delivery_attempt_count o
  | Retry =>
      dispatched_at o' = dispatched_at o /\ permanent_failure_at o' = permanent_failure_at o /\
      last_error o' = Some (lit "duroxide_start_retryable") /\
      visible_at o' = now + retry_delay oid (start_delivery_attempt_count o + 1) /\
      start_delivery_attempt_count o' = start_delivery_attempt_count o + 1
  | Reject error =>
      dispatched_at o' = dispatched_at o /\ permanent_failure_at o' = Some now /\
      last_error o' = Some error /\ visible_at o' = visible_at o /\
      start_delivery_attempt_count o' = start_delivery_attempt_count o
  end.

(** The runtime keeps what it accepted. *)
Definition keeps (c c' : runtime) : Prop := forall s, accepted c s -> accepted c' s.

(** Why a verdict was given: the one attempt to start [s] during the round that
    led from runtime [c0] to [c'], and what inspecting the runtime said after it
    failed. *)
Definition cause (c0 c' : runtime) (s : RootStart) (v : Verdict) : Prop :=
  exists c1 c2 r, keeps c0 c1 /\ start_orchestration_versioned s c1 = (c2, r) /\ keeps c2 c' /\
  match v with
  | Deliver =>
      accepted c' s /\ (r = Ok () \/ inspect_root_orchestration_start s c2 = Ok Same)
  | Retry =>
      exists e, r = Err e /\ is_retryable e = true /\
        inspect_root_orchestration_start s c2 = Ok Missing
  | Reject error =>
      exists e, r = Err e /\
        ((inspect_root_orchestration_start s c2 = Ok Collision /\
          error = lit "duroxide_identity_collision") \/
         (inspect_root_orchestration_start s c2 = Ok Missing /\ is_retryable e = false /\
          error = lit "duroxide_start_rejected"))
  end.

(** A claimed row that was delivered: its contents are those of a verdict, and
    the verdict is what the runtime said. *)
Definition settled (c0 c' : runtime) (now oid : Z) (o o' : OutboxRow) (v : Verdict) : Prop :=
  outcome_row now oid o o' v /\
  cause c0 c' (root_start (start_of oid o (start_delivery_attempt_count o))) v.

Definition settled_row (c0 c' : runtime) (now : Z) (db' : Db) (p : Z * OutboxRow) (v : Verdict)
  : Prop :=
  exists o', sporos_outbox db' !! p.1 = Some o' /\ settled c0 c' now p.1 p.2 o' v.

(** The report of a round whose verdicts were [vs]. *)
Definition tally (f : Verdict -> bool) (vs : list Verdict) : Z :=
  Z.of_nat (length (List.filter f vs)).
Definition report_of (vs : list Verdict) : DispatchReport :=
  mkDispatchReport (Z.of_nat (length vs))
    (tally (fun v => match v with Deliver => true | _ => false end) vs)
    (tally (fun v => match v with Retry => true | _ => false end) vs)
    (tally (fun v => match v with Reject _ => true | _ => false end) vs).

Definition claimed_rows (self : OutboxDispatcher) (now : Z) (db : Db) : list (Z * OutboxRow) :=
  claim_rows now (Z.to_nat (batch_size self)) db.

(** ** Lemmas *)

Lemma visible_leb_total a b : visible_leb a b = true \/ visible_leb b a = true.
Proof.
  unfold visible_leb. destruct (Z.ltb_spec (visible_at a.2) (visible_at b.2)); auto.
  destruct (Z.ltb_spec (visible_at b.2) (visible_at a.2)); auto.
  destruct (Z.leb_spec a.1 b.1), (Z.leb_spec b.1 a.1); auto; lia.
Qed.

Lemma claim_rows_elem now limit db p :
  p ∈ claim_rows now limit db -> sporos_outbox db !! p.1 = Some p.2 /\ eligible now p.2 = true.
Proof.
  intros Hp. assert (p ∈ filter (fun p => eligible now p.2 = true) (map_to_list (sporos_outbox db))) as H1.
  { apply (elem_of_sort_by visible_leb). rewrite <- (take_drop limit). apply elem_of_app. by left. }
  apply list_elem_of_filter in H1 as [He Hin]. destruct p. by apply elem_of_map_to_list in Hin.
Qed.

Lemma claim_rows_NoDup now limit db : NoDup (claim_rows now limit db).*1.
Proof.
  apply (sublist_NoDup _ (sort_by visible_leb (filter (fun p => eligible now p.2 = true)
    (map_to_list (sporos_outbox db)))).*1); [|apply fmap_sublist, sublist_take].
  rewrite (sort_by_Permutation visible_leb).
  apply (sublist_NoDup _ (map_to_list (sporos_outbox db)).*1); [apply NoDup_fst_map_to_list|].
  apply fmap_sublist, sublist_filter.
Qed.

Lemma eligible_free now o : eligible now o = true -> undelivered o && lease_free now o = true.
Proof. unfold eligible. rewrite !andb_true_iff. tauto. Qed.

(** Only the outbox differs, and there only outside the identity of rows. *)
Definition outbox_only (db db' : Db) : Prop :=
  db' = set_outbox (fun _ => sporos_outbox db') db.

Lemma outbox_only_refl db : outbox_only db db.
Proof. by destruct db. Qed.
Lemma outbox_only_trans a b c : outbox_only a b -> outbox_only b c -> outbox_only a c.
Proof. unfold outbox_only. intros Ha Hb. rewrite Hb, Ha. done. Qed.
Lemma outbox_only_set f db : outbox_only db (set_outbox f db).
Proof. by destruct db. Qed.

(** The claiming loop leases its rows, whatever it started from. *)
Lemma claim_loop_spec now until token rows starts db :
  NoDup rows.*1 ->
  (forall p, p ∈ rows -> sporos_outbox db !! p.1 = Some p.2 /\ eligible now p.2 = true) ->
  db_ok db ->
  match claim_loop now until token rows starts db with
  | (db', Ok starts') =>
      db_ok db' /\ outbox_only db db' /\
      starts' = starts ++ map (fun p => start_of p.1 p.2 (start_delivery_attempt_count p.2)) rows /\
      (forall oid, oid ∉ rows.*1 -> sporos_outbox db' !! oid = sporos_outbox db !! oid) /\
      (forall p, p ∈ rows ->
         sporos_outbox db' !! p.1 = Some (set_lease (Some token) (Some until) p.2) /\
         0 <= start_delivery_attempt_count p.2)
  | (_, Err e) => e = CorruptAttemptCount
  end.
Proof.
  revert starts db. induction rows as [|[oid o] rows IH]; intros starts db Hnd Hrows Hok; cbn [claim_loop].
  { cbn. split; [done|]. split; [apply outbox_only_refl|]. rewrite app_nil_r. split; [done|].
    split; [done|]. intros p Hp. by apply elem_of_nil in Hp. }
  cbn in Hnd. apply NoDup_cons in Hnd as [Hni Hnd].
  destruct (Hrows (oid, o)) as [Ho He]; [left|]. cbn in Ho, He. apply eligible_free in He.
  unfold mbind at 1, M_bind at 1, claim_one at 1, mbind at 1, M_bind at 1, exec at 1,
    update_outbox at 1, update_where. cbn [fst snd]. rewrite Ho, He. cbn [map_err Z.eqb Pos.eqb].
  unfold mbind at 1, M_bind at 1, liftr. unfold u64_try_from.
  destruct (Z.leb_spec 0 (start_delivery_attempt_count o)) as [Hc|]; cbn [ok_or]; [|done].
  cbn [mret M_ret].
  set (o1 := set_lease (Some token) (Some until) o).
  set (db1 := set_outbox (fun _ => <[oid := o1]> (sporos_outbox db)) db).
  assert (db_ok db1) as Hok1 by exact (db_ok_update_outbox db oid o o1 Hok Ho eq_refl eq_refl eq_refl).
  assert (forall p, p ∈ rows -> p.1 <> oid) as Hne.
  { intros p Hp <-. apply Hni. by apply (list_elem_of_fmap_2 fst). }
  specialize (IH (starts ++ [start_of oid o (start_delivery_attempt_count o)]) db1 Hnd).
  destruct (claim_loop now until token rows _ db1) as [db' [starts'|e]].
  - destruct IH as (Hok' & Honly & -> & Hother & Hsel); [|done|].
    { intros p Hp. destruct (Hrows p) as [Hp1 Hp2]; [by right|]. split; [|done].
      cbn. rewrite lookup_insert_ne; [done|]. intros ->. by apply (Hne p Hp). }
    split; [done|]. split; [eapply outbox_only_trans; [apply outbox_only_set|exact Honly]|].
    split; [by rewrite <- app_assoc|]. split.
    + intros i [Hi1 Hi2]%not_elem_of_cons. rewrite Hother by done. cbn. by rewrite lookup_insert_ne.
    + intros p [->|Hp]%elem_of_cons; [|by apply Hsel]. cbn. split; [|done].
      rewrite Hother by done. cbn. by rewrite lookup_insert_eq.
  - apply IH; [|done]. intros p Hp. destruct (Hrows p) as [Hp1 Hp2]; [by right|]. split; [|done].
    cbn. rewrite lookup_insert_ne; [done|]. intros ->. by apply (Hne p Hp).
Qed.

(** Marking a row whose lease is held. *)
Lemma update_held db oid o token f :
  sporos_outbox db !! oid = Some o -> lease_token o = Some token ->
  update_outbox oid (holds token) f db
  = (set_outbox (fun _ => <[oid := f o]> (sporos_outbox db)) db, Ok 1).
Proof.
  intros Ho Ht. unfold update_outbox, update_where, holds. rewrite Ho, Ht.
  by rewrite bool_decide_eq_true_2.
Qed.

Lemma as_dispatched_lease now t u o : as_dispatched now (set_lease t u o) = as_dispatched now o.
Proof. done. Qed.

(** Writing a verdict on a leased row succeeds, apart from overflow. *)
Lemma mark_spec start token now until v db o :
  sporos_outbox db !! id start = Some (set_lease (Some token) (Some until) o) ->
  match mark start token now v db with
  | (db', Ok _) =>
      db' = set_outbox (fun _ => <[id start := match v with
                | Deliver => as_dispatched now o
                | Reject error => as_permanent now error o
                | Retry => as_retry (attempt_count start + 1)
                             (now + retry_delay (id start) (attempt_count start + 1)) o
                end]> (sporos_outbox db)) db
  | (db', Err e) => db' = db /\ (e = AttemptOverflow \/ e = TimeOverflow)
  end.
Proof.
  intros Ho. destruct v; cbn [mark].
  - unfold mark_dispatched, update_leased, mbind, M_bind, exec.
    rewrite (update_held _ _ _ token _ Ho eq_refl). done.
  - unfold mark_retry, update_leased, mbind, M_bind, exec, liftr. unfold checked_add_u64.
    destruct (attempt_count start + 1 <=? u64_max); cbn [ok_or]; [|by auto].
    unfold checked_add_i64. destruct (_ && _); cbn [ok_or]; [|by auto].
    unfold i64_try_from. destruct (attempt_count start + 1 <=? i64_max); cbn [ok_or]; [|by auto].
    rewrite (update_held _ _ _ token _ Ho eq_refl). done.
  - unfold mark_permanent, update_leased, mbind, M_bind, exec.
    rewrite (update_held _ _ _ token _ Ho eq_refl). done.
Qed.

Context `{!ClientLaws}.

Lemma keeps_trans a b c : keeps a b -> keeps b c -> keeps a c.
Proof using. intros H1 H2 s Hs. auto. Qed.

Lemma settled_widen c0 c1 c2 c3 now oid o o' v :
  keeps c0 c1 -> keeps c2 c3 -> settled c1 c2 now oid o o' v -> settled c0 c3 now oid o o' v.
Proof using.
  intros H1 H2 [Hrow (a & b & r & Ha & Hs & Hb & Hv)]. split; [done|]. exists a, b, r.
  split; [by eapply keeps_trans|]. split; [done|]. split; [by eapply keeps_trans|].
  destruct v; [|done..]. destruct Hv as [Hacc ?]. split; [by apply H2|done].
Qed.

Definition not_lost (e : DispatchError) : Prop := forall oid, e <> LostLease oid.

(** Delivering and judging: the verdict is the runtime's. *)
Lemma verdict_cause start c c' r v :
  start_orchestration_versioned (root_start start) c = (c', r) -> keeps c c' ->
  match r with Ok _ => Ok Deliver | Err e => verdict c' start e end = Ok v ->
  cause c c' (root_start start) v.
Proof using All.
  intros Hstart Hkeep Hv. exists c, c', r. split; [by intros s|]. split; [done|].
  split; [by intros s|]. destruct r as [[]|e].
  - injection Hv as <-. split; [by eapply start_accepted|by left].
  - unfold verdict, reconcile in Hv.
    destruct (inspect_root_orchestration_start _ c') as [found|] eqn:Hi; [|done].
    cbn in Hv. injection Hv as <-. destruct found.
    + split; [by apply inspect_accepted|by right].
    + exists e. split; [done|]. by left.
    + destruct (is_retryable e) eqn:He; exists e; [done|]. split; [done|]. by right.
Qed.

Lemma deliver_spec token now until report oid o db c :
  db_ok db -> sporos_outbox db !! oid = Some (set_lease (Some token) (Some until) o) ->
  let '((db', c'), r) :=
    deliver token now report (start_of oid o (start_delivery_attempt_count o)) (db, c) in
  db_ok db' /\ outbox_only db db' /\ keeps c c' /\
  (forall i, i <> oid -> sporos_outbox db' !! i = sporos_outbox db !! i) /\
  match r with
  | Ok report' => exists v, report' = count v report /\ settled_row c c' now db' (oid, o) v
  | Err e => db' = db /\ not_lost e
  end.
Proof using All.
  intros Hok Ho. unfold deliver. set (start := start_of oid o (start_delivery_attempt_count o)).
  destruct (start_orchestration_versioned (root_start start) c) as [c' r] eqn:Hstart.
  assert (keeps c c') as Hkeep.
  { intros s Hs. pose proof (start_durable (root_start start) c s Hs) as H1. by rewrite Hstart in H1. }
  pose proof (fun v => verdict_cause start c c' r v Hstart Hkeep) as Hcause.
  destruct (match r with Ok _ => Ok Deliver | Err e => verdict c' start e end) as [v|e] eqn:Hver.
  - pose proof (mark_spec start token now until v db o Ho) as Hmark.
    destruct (mark start token now v db) as [db' [[]|e]].
    + subst db'. split.
      { apply (db_ok_update_outbox db oid _ _ Hok Ho); by destruct v. }
      split; [apply outbox_only_set|]. split; [done|]. split.
      { intros i Hi. cbn. by rewrite lookup_insert_ne. }
      exists v. split; [done|]. eexists. cbn. rewrite lookup_insert_eq. split; [done|].
      split; [by destruct v|by apply Hcause].
    + destruct Hmark as [-> He]. split; [done|]. split; [apply outbox_only_refl|].
      split; [done|]. split; [done|]. split; [done|]. intros i ->. by destruct He.
  - split; [done|]. split; [apply outbox_only_refl|]. split; [done|]. split; [done|]. split; [done|].
    destruct r as [[]|e']; [done|]. unfold verdict, reconcile in Hver.
    destruct (inspect_root_orchestration_start _ c'); [done|]. injection Hver as <-. by intros i.
Qed.

Lemma deliver_loop_spec token now until rows report db c :
  db_ok db -> NoDup rows.*1 ->
  (forall p : Z * OutboxRow, p ∈ rows ->
     sporos_outbox db !! p.1 = Some (set_lease (Some token) (Some until) p.2)) ->
  let '((db', c'), r) := deliver_loop token now
    (map (fun p => start_of p.1 p.2 (start_delivery_attempt_count p.2)) rows) report (db, c) in
  db_ok db' /\ outbox_only db db' /\ keeps c c' /\
  (forall i, i ∉ rows.*1 -> sporos_outbox db' !! i = sporos_outbox db !! i) /\
  exists delivered rest vs, rows = delivered ++ rest /\
    Forall2 (settled_row c c' now db') delivered vs /\
    (forall p, p ∈ rest ->
       sporos_outbox db' !! p.1 = Some (set_lease (Some token) (Some until) p.2)) /\
    match r with
    | Ok report' => rest = [] /\ report' = foldl (fun r v => count v r) report vs
    | Err e => not_lost e
    end.
Proof using All.
  revert report db c. induction rows as [|[oid o] rows IH]; intros report db c Hok Hnd Hrows;
    cbn [map deliver_loop].
  { cbn. split; [done|]. split; [apply outbox_only_refl|]. split; [by intros s|]. split; [done|].
    exists [], [], []. split; [done|]. split; [constructor|]. done. }
  cbn in Hnd. apply NoDup_cons in Hnd as [Hni Hnd].
  pose proof (deliver_spec token now until report oid o db c Hok
    (Hrows (oid, o) ltac:(left))) as Hone.
  unfold mbind, M_bind. cbn [fst snd].
  destruct (deliver _ _ _ _ (db, c)) as [[db1 c1] [report1|e]].
  - destruct Hone as (Hok1 & Honly1 & Hk1 & Hother1 & v & Hreport & o1 & Ho1 & Hs1).
    cbn [fst snd] in Ho1, Hs1.
    assert (forall p, p ∈ rows -> p.1 <> oid) as Hne.
    { intros p Hp <-. apply Hni. by apply (list_elem_of_fmap_2 fst). }
    specialize (IH report1 db1 c1 Hok1 Hnd).
    destruct (deliver_loop _ _ _ report1 (db1, c1)) as [[db2 c2] r].
    destruct IH as (Hok2 & Honly2 & Hk2 & Hother2 & ds & rest & vs & Hsplit & Hds & Hrest & Hend).
    { intros p Hp. rewrite Hother1 by (by apply Hne). apply Hrows. by right. }
    split; [done|]. split; [by eapply outbox_only_trans|]. split; [by eapply keeps_trans|].
    split.
    { intros i [Hi1 Hi2]%not_elem_of_cons. rewrite Hother2 by done. by apply Hother1. }
    exists ((oid, o) :: ds), rest, (v :: vs). split; [by rewrite Hsplit|]. split.
    { constructor.
      - exists o1. cbn. rewrite Hother2 by done. split; [done|].
        apply (settled_widen c c c1 c2); [by intros s|done|exact Hs1].
      - eapply Forall2_impl; [exact Hds|]. intros p w (o' & Ho' & Hs'). exists o'.
        split; [done|]. by apply (settled_widen c c1 c2 c2); [|intros s|]. }
    split; [done|]. destruct r; [|done]. destruct Hend as [-> ->]. by rewrite Hreport.
  - destruct Hone as (Hok1 & Honly1 & Hk1 & Hother1 & -> & Hnl).
    split; [done|]. split; [done|]. split; [done|]. split; [done|].
    exists [], ((oid, o) :: rows), []. split; [done|]. split; [constructor|]. done.
Qed.

Lemma foldl_count vs report :
  foldl (fun r v => count v r) report vs
  = mkDispatchReport (claimed report) (dispatched report + dispatched (report_of vs))
      (retrying report + retrying (report_of vs))
      (permanently_failed report + permanently_failed (report_of vs)).
Proof using.
  revert report. induction vs as [|v vs IH]; intros [cl di re pe]; cbn [foldl].
  - unfold report_of, tally. cbn. by rewrite !Z.add_0_r.
  - rewrite IH. unfold report_of, tally. destruct v; cbn; f_equal; lia.
Qed.

(** What a whole round does, on every path. *)
Lemma run_once_spec (self : OutboxDispatcher) (now sequence : Z) (db : Db) (c : runtime) :
  db_ok db ->
  let '((db', c'), r) := run_once self now sequence (db, c) in
  db_ok db' /\ outbox_only db db' /\ keeps c c' /\
  (forall i, i ∉ (claimed_rows self now db).*1 -> sporos_outbox db' !! i = sporos_outbox db !! i) /\
  exists delivered rest vs, claimed_rows self now db = delivered ++ rest /\
    Forall2 (settled_row c c' now db') delivered vs /\
    (forall p, p ∈ rest ->
       sporos_outbox db' !! p.1 = Some p.2 \/
       sporos_outbox db' !! p.1 = Some (set_lease (Some (token_of now sequence))
                                          (Some (now + lease_duration_ms self)) p.2)) /\
    match r with
    | Ok report => rest = [] /\ report = report_of vs
    | Err e => not_lost e
    end.
Proof using All.
  intros Hok. unfold run_once.
  assert (forall e, not_lost e ->
    db_ok db /\ outbox_only db db /\ keeps c c /\
    (forall i, i ∉ (claimed_rows self now db).*1 -> sporos_outbox db !! i = sporos_outbox db !! i) /\
    exists delivered rest vs, claimed_rows self now db = delivered ++ rest /\
      Forall2 (settled_row c c now db) delivered vs /\
      (forall p, p ∈ rest ->
         sporos_outbox db !! p.1 = Some p.2 \/
         sporos_outbox db !! p.1 = Some (set_lease (Some (token_of now sequence))
                                           (Some (now + lease_duration_ms self)) p.2)) /\
      not_lost e) as Hstop.
  { intros e He. split; [done|]. split; [apply outbox_only_refl|]. split; [by intros s|].
    split; [done|]. exists [], (claimed_rows self now db), [].
    split; [done|]. split; [constructor|]. split; [|done].
    intros p Hp. apply claim_rows_elem in Hp as [Hp _]. by left. }
  destruct (Z.eqb_spec (batch_size self) 0); [by apply Hstop|].
  destruct (i64_try_from (lease_duration_ms self) ≫= checked_add_i64 now) as [until|] eqn:Huntil;
    [|by apply Hstop].
  assert (until = now + lease_duration_ms self) as ->.
  { unfold i64_try_from in Huntil. destruct (_ <=? _); [|done]. cbn in Huntil.
    unfold checked_add_i64 in Huntil. destruct (_ && _); by simplify_eq. }
  set (until := now + lease_duration_ms self) in *.
  set (token := token_of now sequence) in *. unfold claim, mbind at 1, M_bind at 1, liftr.
  destruct (i64_try_from (batch_size self)) as [limit|] eqn:Hlimit; cbn [ok_or]; [|by apply Hstop].
  assert (limit = batch_size self) as ->.
  { unfold i64_try_from in Hlimit. by destruct (_ <=? _); simplify_eq. }
  unfold transaction. change (mbind ?f (reads _) db) with (f (claimed_rows self now db) db).
  cbv beta.
  pose proof (claim_loop_spec now until token (claimed_rows self now db) [] db
    (claim_rows_NoDup _ _ _) (claim_rows_elem _ _ _) Hok) as Hclaim.
  destruct (claim_loop now until token _ [] db) as [db1 [starts|e]].
  2: { subst e. apply (Hstop CorruptAttemptCount). by intros i. }
  destruct Hclaim as (Hok1 & Honly1 & -> & Hother1 & Hsel1). cbn [app].
  rewrite length_map.
  pose proof (deliver_loop_spec token now until (claimed_rows self now db)
    (mkDispatchReport (Z.of_nat (length (claimed_rows self now db))) 0 0 0) db1 c Hok1
    (claim_rows_NoDup _ _ _) ltac:(intros p Hp; by apply Hsel1)) as Hloop.
  destruct (deliver_loop _ _ _ _ (db1, c)) as [[db2 c2] r].
  destruct Hloop as (Hok2 & Honly2 & Hk2 & Hother2 & ds & rest & vs & Hsplit & Hds & Hrest & Hend).
  split; [done|]. split; [by eapply outbox_only_trans|]. split; [done|]. split.
  { intros i Hi. rewrite Hother2 by done. by apply Hother1. }
  exists ds, rest, vs. split; [done|]. split; [done|]. split; [by intros p Hp; right; apply Hrest|].
  destruct r; [|done]. destruct Hend as [-> ->]. split; [done|]. rewrite foldl_count.
  rewrite Hsplit, app_nil_r, (Forall2_length _ _ _ Hds). done.
Qed.

(** The rows of a round one by one. *)
Lemma run_once_rows (self : OutboxDispatcher) (now sequence : Z) (db : Db) (c : runtime) p :
  db_ok db -> p ∈ claimed_rows self now db ->
  let '((db', c'), r) := run_once self now sequence (db, c) in
  exists o', sporos_outbox db' !! p.1 = Some o' /\
    ((exists v, settled c c' now p.1 p.2 o' v) \/ o' = p.2 \/
     o' = set_lease (Some (token_of now sequence)) (Some (now + lease_duration_ms self)) p.2).
Proof using All.
  intros Hok Hp. pose proof (run_once_spec self now sequence db c Hok) as Hspec.
  destruct (run_once self now sequence (db, c)) as [[db' c'] r].
  destruct Hspec as (_ & _ & _ & _ & ds & rest & vs & Hsplit & Hds & Hrest & _).
  rewrite Hsplit in Hp. apply elem_of_app in Hp as [Hp|Hp].
  - apply list_elem_of_lookup in Hp as [i Hi].
    destruct (Forall2_lookup_l _ _ _ _ _ Hds Hi) as (v & _ & o' & Ho' & Hs). exists o'. eauto.
  - destruct (Hrest p Hp) as [?|?]; eexists; split; try done; auto.
Qed.

(** C35: a dispatch round is truthful and loses nothing.  It touches only outbox
    rows it claimed.  The claimed rows, in claiming order, are a delivered part
    and a rest.  Each delivered row carries exactly the outcome of an
    attempt, made in this round, to start it: marked dispatched if the runtime took the start or reports
    it as the same instance (and has accepted exactly that start); due for
    another attempt, with the counted backoff, only if the start failed with a
    retryable error and the runtime reports it missing; failed permanently only
    for a reported collision, or a start that was rejected and is missing, each
    with its own reason.  A round without error delivers every claimed row, and
    its report counts exactly these outcomes.  A round cut short by an error
    leaves the rest pending as it was or leased, to be claimed again when the
    lease ends; it never fails by losing its own lease. *)
Theorem run_once_truthful (self : OutboxDispatcher) (now sequence : Z) (db : Db) (c : runtime) :
  db_ok db ->
  let '((db', c'), r) := run_once self now sequence (db, c) in
  db_ok db' /\ outbox_only db db' /\ keeps c c' /\
  (forall i, i ∉ (claimed_rows self now db).*1 -> sporos_outbox db' !! i = sporos_outbox db !! i) /\
  exists delivered rest vs, claimed_rows self now db = delivered ++ rest /\
    Forall2 (settled_row c c' now db') delivered vs /\
    (forall p, p ∈ rest ->
       sporos_outbox db' !! p.1 = Some p.2 \/
       sporos_outbox db' !! p.1 = Some (set_lease (Some (token_of now sequence))
                                          (Some (now + lease_duration_ms self)) p.2)) /\
    match r with
    | Ok report => rest = [] /\ report = report_of vs
    | Err e => not_lost e
    end.
Proof using All. apply run_once_spec. Qed.

(** ** Leases under interleaving *)

(** The atomic database steps of any number of dispatchers; [sequence] is the
    process-wide number that went into the dispatcher's token. *)
Inductive DbStep :=
| StepClaim (now until sequence batch : Z)
| StepMark (start : OutboxStart) (token_time sequence now : Z) (v : Verdict).

Definition run_step (s : DbStep) (db : Db) : Db :=
  match s with
  | StepClaim now until sequence batch => (claim now until (token_of now sequence) batch db).1
  | StepMark start token_time sequence now v =>
      (mark start (token_of token_time sequence) now v db).1
  end.

Definition run_steps (steps : list DbStep) (db : Db) : Db := foldl (fun db s => run_step s db) db steps.

(** Steps that other dispatchers take before a lease ends. *)
Definition foreign (sequence until : Z) (s : DbStep) : Prop :=
  match s with
  | StepClaim now _ _ _ => now < until
  | StepMark _ _ sequence' _ _ => is_u64 sequence' /\ sequence' <> sequence
  end.

Lemma token_of_inj a b x y : is_u64 x -> is_u64 y -> token_of a x = token_of b y -> x = y.
Proof using.
  intros Hx Hy Heq. unfold token_of in Heq.
  apply app_inj_1 in Heq as [_ Heq]; [|by rewrite !length_be_bytes].
  apply be_bytes_inj in Heq; [done|..]; unfold_ints; cbn; lia.
Qed.

Lemma update_leased_other id token f db oid o :
  sporos_outbox db !! oid = Some o ->
  (id = oid -> lease_token o <> Some token) ->
  sporos_outbox (update_leased id token f db).1 !! oid = Some o /\
  (id = oid -> update_leased id token f db = (db, Err (LostLease id))).
Proof using.
  intros Ho Htok. unfold update_leased, mbind, M_bind, exec, update_outbox, update_where, holds.
  destruct (decide (id = oid)) as [->|Hne].
  - rewrite Ho. rewrite bool_decide_eq_false_2 by auto. cbn. split; [done|]. intros _.
    by destruct db.
  - split; [|done]. destruct (sporos_outbox db !! id) as [o'|]; [|done].
    destruct (bool_decide _); cbn; [|done]. by rewrite lookup_insert_ne.
Qed.

(** Writing a verdict without holding the lease changes nothing and fails. *)
Lemma mark_other start token now v db oid o :
  sporos_outbox db !! oid = Some o -> (id start = oid -> lease_token o <> Some token) ->
  sporos_outbox (mark start token now v db).1 !! oid = Some o /\
  (id start = oid -> (mark start token now v db).1 = db /\ (mark start token now v db).2 <> Ok ()).
Proof using.
  intros Ho Htok.
  assert (forall f, sporos_outbox (update_leased (id start) token f db).1 !! oid = Some o /\
    (id start = oid -> (update_leased (id start) token f db).1 = db /\
       (update_leased (id start) token f db).2 <> Ok ())) as Hupd.
  { intros f. destruct (update_leased_other (id start) token f db oid o Ho Htok) as [H1 H2].
    split; [done|]. intros Heq. by rewrite H2. }
  destruct v; cbn [mark]; [apply Hupd| |apply Hupd].
  unfold mark_retry, mbind, M_bind, liftr.
  destruct (checked_add_u64 _ _) as [attempt|]; cbn [ok_or]; [|done].
  destruct (checked_add_i64 _ _) as [visible|]; cbn [ok_or]; [|done].
  destruct (i64_try_from attempt) as [a|]; cbn [ok_or]; [apply Hupd|done].
Qed.

(** Claiming never takes a row whose lease has not ended. *)
Lemma claim_other now until token batch db oid o t :
  db_ok db -> sporos_outbox db !! oid = Some o -> lease_until o = Some t -> now < t ->
  sporos_outbox (claim now until token batch db).1 !! oid = Some o /\
  db_ok (claim now until token batch db).1.
Proof using.
  intros Hok Ho Ht Hlt. unfold claim, mbind at 1 3, M_bind at 1 3, liftr.
  destruct (i64_try_from batch) as [limit|]; cbn [ok_or]; [|done].
  unfold transaction. change (mbind ?f (reads _) db) with (f (claim_rows now (Z.to_nat limit) db) db).
  cbv beta.
  pose proof (claim_loop_spec now until token (claim_rows now (Z.to_nat limit) db) [] db
    (claim_rows_NoDup _ _ _) (claim_rows_elem _ _ _) Hok) as Hclaim.
  destruct (claim_loop now until token _ [] db) as [db1 [starts|e]]; [|done].
  destruct Hclaim as (Hok1 & _ & _ & Hother & _). cbn [fst]. split; [|done].
  rewrite Hother; [done|]. intros (p & -> & Hp)%list_elem_of_fmap.
  apply claim_rows_elem in Hp as [Hp He]. rewrite Ho in Hp. injection Hp as Hp. rewrite <- Hp in He.
  unfold eligible, lease_free in He. rewrite Ht in He. rewrite !andb_true_iff in He.
  destruct He as [_ He%Z.leb_le]. lia.
Qed.

Lemma claim_ok now until token batch db : db_ok db -> db_ok (claim now until token batch db).1.
Proof using.
  intros Hok. unfold claim, mbind at 1, M_bind at 1, liftr.
  destruct (i64_try_from batch) as [limit|]; cbn [ok_or]; [|done].
  unfold transaction. change (mbind ?f (reads _) db) with (f (claim_rows now (Z.to_nat limit) db) db).
  cbv beta.
  pose proof (claim_loop_spec now until token (claim_rows now (Z.to_nat limit) db) [] db
    (claim_rows_NoDup _ _ _) (claim_rows_elem _ _ _) Hok) as Hclaim.
  destruct (claim_loop now until token _ [] db) as [db1 [starts|e]]; [|done]. by destruct Hclaim.
Qed.

Lemma mark_ok start token now v db : db_ok db -> db_ok (mark start token now v db).1.
Proof using.
  intros Hok.
  assert (forall f, (forall o, o_task_id (f o) = o_task_id o /\ o_task_key (f o) = o_task_key o /\
      o_instance_id (f o) = o_instance_id o) ->
    db_ok (update_leased (id start) token f db).1) as Hupd.
  { intros f Hf. unfold update_leased, mbind, M_bind, exec, update_outbox, update_where.
    destruct (sporos_outbox db !! id start) as [o|] eqn:Ho; [|by apply (db_ok_ext db)].
    destruct (holds token o); [|by apply (db_ok_ext db)].
    destruct (Hf o) as (H1 & H2 & H3). exact (db_ok_update_outbox db _ o (f o) Hok Ho H1 H2 H3). }
  destruct v; cbn [mark]; [by apply Hupd| |by apply Hupd].
  unfold mark_retry, mbind, M_bind, liftr.
  destruct (checked_add_u64 _ _) as [attempt|]; cbn [ok_or]; [|done].
  destruct (checked_add_i64 _ _) as [visible|]; cbn [ok_or]; [|done].
  destruct (i64_try_from attempt) as [a|]; cbn [ok_or]; [by apply Hupd|done].
Qed.

Lemma foreign_steps_keep sequence until t0 steps db oid o :
  is_u64 sequence -> db_ok db -> sporos_outbox db !! oid = Some o ->
  lease_token o = Some (token_of t0 sequence) -> lease_until o = Some until ->
  Forall (foreign sequence until) steps ->
  sporos_outbox (run_steps steps db) !! oid = Some o /\ db_ok (run_steps steps db).
Proof using.
  intros Hseq Hok Ho Htok Huntil Hf. revert db Hok Ho.
  induction Hf as [|s steps Hs _ IH]; intros db Hok Ho; cbn [run_steps foldl]; [done|].
  apply IH.
  - destruct s as [now u sq batch|start tt sq now v]; cbn [foreign run_step] in *.
    + by eapply claim_other.
    + by apply mark_ok.
  - destruct s as [now u sq batch|start tt sq now v]; cbn [foreign run_step] in *.
    + by eapply claim_other.
    + apply mark_other; [done|]. intros _. rewrite Htok. intros Heq.
      destruct Hs as [Hu Hne]. apply Hne. symmetry. apply (inj Some) in Heq. by eapply token_of_inj.
Qed.

(** Leases are exclusive.  While a dispatcher's lease on a row has not ended,
    no interleaving of other dispatchers' claims and markings changes the row:
    none of them can claim it, and none of their markings applies to it.  The
    holder's own marking still goes through afterwards (or overflows, for a
    retry), and any dispatcher that does not hold the lease fails to mark the
    row and changes nothing. *)
Theorem lease_exclusive (oid t0 sequence until : Z) (o : OutboxRow) (db : Db)
    (steps : list DbStep) (start : OutboxStart) (now : Z) (v : Verdict) :
  is_u64 sequence -> db_ok db -> sporos_outbox db !! oid = Some o ->
  lease_token o = Some (token_of t0 sequence) -> lease_until o = Some until ->
  Forall (foreign sequence until) steps -> id start = oid ->
  let db' := run_steps steps db in
  sporos_outbox db' !! oid = Some o /\
  match mark start (token_of t0 sequence) now v db' with
  | (_, Ok _) => True
  | (db'', Err e) => db'' = db' /\ v = Retry /\ (e = AttemptOverflow \/ e = TimeOverflow)
  end /\
  (forall other, other <> token_of t0 sequence ->
     (mark start other now v db').1 = db' /\ (mark start other now v db').2 <> Ok ()).
Proof using.
  intros Hseq Hok Ho Htok Huntil Hf Hid db'.
  destruct (foreign_steps_keep sequence until t0 steps db oid o) as [Hkeep _]; [done..|].
  fold db' in Hkeep. split; [done|]. split.
  - pose proof (mark_spec start (token_of t0 sequence) now until v db' o) as Hmark.
    assert (set_lease (Some (token_of t0 sequence)) (Some until) o = o) as Hsame.
    { destruct o; cbn in *. unfold set_lease; cbn. by rewrite Htok, Huntil. }
    rewrite Hsame, Hid in Hmark. specialize (Hmark Hkeep).
    destruct (mark start _ now v db') as [db'' [[]|e]] eqn:Hm; [done|].
    destruct Hmark as [-> He]. split; [done|]. split; [|done].
    destruct v; [| done|]; cbn [mark] in Hm;
      unfold mark_dispatched, mark_permanent, update_leased, mbind, M_bind, exec in Hm;
      rewrite Hid, (update_held _ _ _ _ _ Hkeep Htok) in Hm; done.
  - intros other Hother. apply mark_other with (oid := oid) (o := o); [done| |done].
    intros _. rewrite Htok. congruence.
Qed.

(** ** Backoff *)

(** A failed start is retried after its exponential delay plus less than a
    fifth of it, never sooner than a second and never later than five minutes,
    whatever the row id and the number of attempts. *)
Theorem retry_delay_bounds (oid attempt : Z) :
  is_i64 oid -> is_u64 attempt -> 1 <= attempt ->
  let base := Z.min (INITIAL_BACKOFF_MS * 2 ^ Z.min (attempt - 1) 18) MAX_BACKOFF_MS in
  INITIAL_BACKOFF_MS <= base <= retry_delay oid attempt /\
  retry_delay oid attempt <= MAX_BACKOFF_MS /\ 5 * retry_delay oid attempt < 6 * base.
Proof using.
  intros Hid Hatt Hge. unfold retry_delay, saturating_sub_u. rewrite Z.max_r by lia.
  set (e := Z.min (attempt - 1) 18).
  assert (0 <= e <= 18) as He by (unfold e; lia).
  assert (1 <= 2 ^ e <= 2 ^ 18) as Hpow.
  { split; [|apply Z.pow_le_mono_r; lia]. change 1 with (2 ^ 0). apply Z.pow_le_mono_r; lia. }
  assert (checked_shl_i64 e = Some (2 ^ e)) as ->.
  { unfold checked_shl_i64. destruct (Z.ltb_spec e 64); [|lia]. rewrite Z.shiftl_1_l.
    f_equal. apply wrap_i_small; lia. }
  cbn [default from_option]. unfold Datatypes.id.
  assert (saturating_mul_i64 INITIAL_BACKOFF_MS (2 ^ e) = INITIAL_BACKOFF_MS * 2 ^ e) as ->.
  { unfold saturating_mul_i64, INITIAL_BACKOFF_MS. unfold_ints. lia. }
  set (base := Z.min (INITIAL_BACKOFF_MS * 2 ^ e) MAX_BACKOFF_MS).
  assert (INITIAL_BACKOFF_MS <= base <= MAX_BACKOFF_MS) as Hb
    by (unfold base, INITIAL_BACKOFF_MS, MAX_BACKOFF_MS; lia).
  assert (200 <= base / 5) as H5.
  { apply Z.div_le_lower_bound; [lia|]. unfold INITIAL_BACKOFF_MS in Hb. lia. }
  rewrite Z.max_l by lia.
  set (mixed := Z.lxor _ _).
  pose proof (Z.mod_pos_bound mixed (base / 5) ltac:(lia)) as Hmod.
  pose proof (Z.mul_div_le base 5 ltac:(lia)) as Hdiv.
  unfold INITIAL_BACKOFF_MS, MAX_BACKOFF_MS in *.
  assert (saturating_add_i64 base (mixed mod (base / 5)) = base + mixed mod (base / 5)) as ->.
  { unfold saturating_add_i64. unfold_ints. lia. }
  lia.
Qed.
End Outbox.

(** ** Examples *)

Definition outbox_db : Db := (Ingress.accept_task Ingress.sample_task empty_db).1.

Lemma outbox_db_ok : db_ok outbox_db.
Proof. apply Ingress.accept_task_ok, db_ok_empty. Qed.

Lemma run_once_truthful_witness :
  (run_once (new 10) 5 1 (outbox_db, [] : @runtime sample_client)).2
    = Ok (mkDispatchReport 1 1 0 0) /\
  db_ok (run_once (new 10) 5 1 (outbox_db, [] : @runtime sample_client)).1.1.
Proof.
  split; [vm_compute; reflexivity|].
  pose proof (run_once_truthful (new 10) 5 1 outbox_db ([] : @runtime sample_client) outbox_db_ok) as H.
  destruct (run_once (new 10) 5 1 (outbox_db, [] : @runtime sample_client)) as [[db c] r].
  exact (proj1 H).
Defined.

Definition leased_db : Db := (@claim sample_client 5 60005 (token_of 5 1) 10 outbox_db).1.

Definition leased_row : OutboxRow :=
  set_lease (Some (token_of 5 1)) (Some 60005) (Ingress.new_outbox_row Ingress.sample_task).

Lemma leased_db_ok : db_ok leased_db.
Proof. apply claim_ok, outbox_db_ok. Qed.

Definition leased_start : OutboxStart :=
  start_of 1 (Ingress.new_outbox_row Ingress.sample_task) 0.

Lemma lease_exclusive_witness :
  sporos_outbox leased_db !! 1 = Some leased_row /\
  sporos_outbox (@run_steps sample_client [StepClaim 6 60006 2 10; StepMark leased_start 6 2 7 Deliver]
    leased_db) !! 1 = Some leased_row.
Proof.
  assert (sporos_outbox leased_db !! 1 = Some leased_row) as Hrow by (vm_compute; reflexivity).
  split; [exact Hrow|].
  assert (Forall (foreign 1 60005) [StepClaim 6 60006 2 10; StepMark leased_start 6 2 7 Deliver]) as Hf.
  { constructor; [cbn; lia|]. constructor; [|constructor]. cbn. unfold_ints. lia. }
  exact (proj1 (@lease_exclusive sample_client 1 5 1 60005 leased_row leased_db
    [StepClaim 6 60006 2 10; StepMark leased_start 6 2 7 Deliver] leased_start 8 Deliver
    ltac:(unfold_ints; lia) leased_db_ok Hrow eq_refl eq_refl Hf eq_refl)).
Defined.

Lemma retry_delay_bounds_witness :
  is_i64 7 /\ 1000 <= retry_delay 7 3 <= 300000.
Proof.
  split; [unfold_ints; lia|].
  pose proof (retry_delay_bounds 7 3 ltac:(unfold_ints; lia) ltac:(unfold_ints; lia) ltac:(lia)) as H.
  unfold INITIAL_BACKOFF_MS, MAX_BACKOFF_MS in H. cbv zeta in H. lia.
Defined.
