(* ===== verification/Protocol.v ===== *)
(** The durable task protocol: ingress, projection, operator control and the
    outbox dispatcher over one store and one runtime, interleaved in any order.

    The components' theorems say what one call does; here the calls are the steps
    of a transition system, and the properties hold of everything it reaches. *)

From S2P Require Import Prelude Text Store Duroxide.
From S2P Require Ingress Projection TaskControl Outbox.
From stdpp Require Import strings pretty.
Local Open Scope Z_scope.

Section Protocol.
Context `{Json} `{Client} `{Digest} `{TaskControl.CancellationCodec}.

(** ** The transition system *)

Inductive Command :=
| Accept (task : Ingress.NewTask)
| Project (update : Projection.ProjectionUpdate)
| Repair (limit : nat) (at_ : Z)
| Retry (id : str) (now : Z)
| RequestCancel (id : str) (now : Z)
| Reconcile (input : TaskControl.CancellationInput) (now : Z)
| Dispatch (self : Outbox.OutboxDispatcher) (now sequence : Z).

Abbreviation World := (Db * runtime)%type.

(** The state after a call, whatever it returned. *)
Definition run_command (cmd : Command) (w : World) : World :=
  let '(db, c) := w in
  match cmd with
  | Accept task => ((Ingress.accept_task task db).1, c)
  | Project update => ((Projection.project_task update db).1, c)
  | Repair limit at_ => ((Projection.repair_terminal_task_projections c limit at_ db).1, c)
  | Retry id now => ((TaskControl.retry id now db).1, c)
  | RequestCancel id now => ((TaskControl.request_cancel id now db).1, c)
  | Reconcile input now => (TaskControl.reconcile input now (db, c)).1
  | Dispatch self now sequence => (Outbox.run_once self now sequence (db, c)).1
  end.

(** What the code passes: [expected_generation] is a [u64]. *)
Definition well_typed (cmd : Command) : Prop :=
  match cmd with
  | Project update => is_u64 (Projection.expected_generation update)
  | _ => True
  end.

(** A step is a call, or the runtime moving by itself: it may do anything except
    forget a start it accepted. *)
Inductive step : World -> World -> Prop :=
| step_command cmd w : well_typed cmd -> step w (run_command cmd w)
| step_runtime db c c' : Outbox.keeps c c' -> step (db, c) (db, c').

Definition reachable (w : World) : Prop := exists c, rtc step (empty_db, c) w.

(** ** Specification *)

Definition start_of_row (o : OutboxRow) : RootStart :=
  mkRootStart (o_instance_id o) (o_orchestration_name o) (o_orchestration_version o) (o_input_json o).

(** A row marked dispatched names a start that the runtime has accepted. *)
Definition deliveries_true (w : World) : Prop :=
  forall oid o, sporos_outbox w.1 !! oid = Some o -> is_Some (dispatched_at o) ->
    accepted w.2 (start_of_row o).

(** The state of every task is that of its latest event. *)
Definition states_logged (db : Db) : Prop :=
  forall id row, sporos_task db !! id = Some row -> logged db id row.

Definition invariant (w : World) : Prop :=
  db_ok w.1 /\ states_logged w.1 /\ deliveries_true w.

(** *** The abstract task log *)

(** The abstract state: for each task, the states it went through. *)
Definition task_log (db : Db) (id : str) : list str :=
  match sporos_task db !! id with
  | None => []
  | Some row =>
      map (fun k => match sporos_task_event db !! (id, Z.of_nat k) with
                    | Some ev => e_state ev
                    | None => []
                    end)
        (seq 0 (Z.to_nat (projection_generation row) + 1))
  end.

(** ** Preservation, call by call *)

Lemma advances_states db db' : advances db db' -> states_logged db -> states_logged db'.
Proof.
  intros Hadv Hlog id row' Hrow'. destruct (sporos_task db !! id) as [row|] eqn:Hrow.
  - destruct (adv_tasks _ _ Hadv id row Hrow) as (r & Hr & _ & Hle & Hsame & Hnew).
    rewrite Hrow' in Hr. injection Hr as <-.
    destruct (Z.eq_dec (projection_generation row') (projection_generation row)) as [He|Hne].
    + eapply logged_later; [exact Hadv|by apply Hlog|by apply Hsame|done].
    + apply Hnew. lia.
  - by eapply adv_new.
Qed.

Lemma quiet_deliveries db db' c :
  advances db db' -> quiet db db' -> deliveries_true (db, c) -> deliveries_true (db', c).
Proof.
  intros Hadv Hq Hd oid o Ho Hdisp. cbn in *. destruct (Hq oid o Ho) as [Hold|Hnone].
  - by apply (Hd oid).
  - rewrite Hnone in Hdisp. by destruct Hdisp.
Qed.

Lemma fresh_event db id row k ev :
  db_ok db -> sporos_task db !! id = Some row ->
  sporos_task_event db !! k = Some ev -> k <> (id, projection_generation row + 1).
Proof.
  intros Hok Hrow Hk ->. destruct (ok_tasks _ Hok _ _ Hrow) as [_ Hevs _].
  assert (is_Some (sporos_task_event db !! (id, projection_generation row + 1))) as Hsome by (by eexists).
  apply Hevs in Hsome. lia.
Qed.

Lemma project_step update db :
  db_ok db -> 0 <= Projection.expected_generation update ->
  advances db (Projection.project_task update db).1 /\ quiet db (Projection.project_task update db).1.
Proof.
  intros Hok Hexp. pose proof (Projection.project_task_spec update db Hok Hexp) as Hspec.
  unfold Projection.project_outcome in Hspec.
  destruct (Projection.project_task update db) as [db' [[g|g|g|g|]|e]]; cbn in *;
    try (destruct Hspec as [-> _]; split; [reflexivity|by apply quiet_same]).
  destruct Hspec as (row & Hrow & Hgen & _ & -> & _ & ->). split; [|by apply quiet_same].
  rewrite <- Hgen. eapply advances_task; [exact Hrow|reflexivity|done| | |done].
  - intros k ev Hk. cbn. rewrite lookup_insert_ne; [done|].
    intros <-. by apply (fresh_event _ _ _ _ _ Hok Hrow) in Hk.
  - right. split; [done|]. eexists. cbn. rewrite lookup_insert_eq. done.
Qed.

Lemma retry_step id now db :
  db_ok db ->
  db_ok (TaskControl.retry id now db).1 /\ advances db (TaskControl.retry id now db).1 /\
  quiet db (TaskControl.retry id now db).1.
Proof.
  intros Hok. pose proof (TaskControl.retry_spec id now db Hok) as Hspec.
  destruct (TaskControl.retry id now db) as [db' [a|e]]; cbn.
  2: { subst. split; [done|]. split; [reflexivity|by apply quiet_same]. }
  destruct Hspec as [Hok' (t & o & g & Ht & _ & _ & _ & -> & _ & _ & _ & _ & Htasks & Hev & Hevs & Hout & _)].
  split; [done|]. split; [|by eapply quiet_insert].
  eapply advances_task; [exact Ht|exact Htasks|done| | |].
  - intros k ev Hk. rewrite Hevs; [done|]. exact (fresh_event _ _ _ _ _ Hok Ht Hk).
  - right. split; [done|]. eexists. split; [exact Hev|done].
  - intros oid o' Ho'. rewrite Hout. by apply insert_outbox_keeps.
Qed.

Lemma cancel_step id now db :
  db_ok db ->
  db_ok (TaskControl.request_cancel id now db).1 /\
  advances db (TaskControl.request_cancel id now db).1 /\
  quiet db (TaskControl.request_cancel id now db).1.
Proof.
  intros Hok. pose proof (TaskControl.request_cancel_spec id now db Hok) as Hspec.
  destruct (TaskControl.request_cancel id now db) as [db' [a|e]]; cbn.
  2: { subst. split; [done|]. split; [reflexivity|by apply quiet_same]. }
  destruct Hspec as [Hok' (row & Hrow & _ & _ & [(_ & _ & ->)|(_ & _ & g & j & -> & _ & _ & Htasks &
    (ev & Hs & Hevs) & Hout)])].
  { split; [done|]. split; [reflexivity|by apply quiet_same]. }
  split; [done|]. split; [|by eapply quiet_insert].
  eapply advances_task; [exact Hrow|exact Htasks|done| | |].
  - intros k ev' Hk. rewrite Hevs, lookup_insert_ne; [done|].
    intros <-. by apply (fresh_event _ _ _ _ _ Hok Hrow) in Hk.
  - right. split; [done|]. exists ev. rewrite Hevs. cbn. by rewrite lookup_insert_eq.
  - intros oid o Ho. rewrite Hout. by apply insert_outbox_keeps.
Qed.

Lemma record_step id s reason now db :
  db_ok db ->
  db_ok (TaskControl.record_terminal id s reason now db).1 /\
  advances db (TaskControl.record_terminal id s reason now db).1 /\
  quiet db (TaskControl.record_terminal id s reason now db).1.
Proof.
  intros Hok. pose proof (TaskControl.record_terminal_spec id s reason now db Hok) as Hspec.
  destruct (TaskControl.record_terminal id s reason now db) as [db' [[]|e]]; cbn.
  2: { subst. split; [done|]. split; [reflexivity|by apply quiet_same]. }
  destruct Hspec as [Hok' Hrec]. unfold TaskControl.terminal_recorded in Hrec.
  split; [done|]. destruct (sporos_task db !! id) as [row|] eqn:Hrow.
  2: { subst. split; [reflexivity|by apply quiet_same]. }
  destruct (_ && _).
  2: { subst. split; [reflexivity|by apply quiet_same]. }
  destruct Hrec as (g & ev & -> & _ & Hs & Htasks & Hevs & Hout). split; [|by apply quiet_same].
  eapply advances_task; [exact Hrow|exact Htasks|done| | |].
  - intros k ev' Hk. rewrite Hevs, lookup_insert_ne; [done|].
    intros <-. by apply (fresh_event _ _ _ _ _ Hok Hrow) in Hk.
  - right. split; [done|]. exists ev. rewrite Hevs. cbn. by rewrite lookup_insert_eq.
  - intros oid o Ho. by rewrite Hout.
Qed.

(** Repair: a composition of cursor moves and projections. *)
Lemma checked_step id at_ db :
  db_ok db -> moves db (update_task id (fun r => bool_decide (terminal_at r = None))
                          (Projection.checked at_) db).1.
Proof.
  intros Hok. unfold update_task, update_where.
  destruct (sporos_task db !! id) as [row|] eqn:Hrow.
  2: { assert (set_tasks (fun _ => sporos_task db) db = db) as -> by (by destruct db). cbn. reflexivity. }
  case_bool_decide.
  2: { assert (set_tasks (fun _ => sporos_task db) db = db) as -> by (by destruct db). cbn. reflexivity. }
  split; [|by apply quiet_same].
  eapply advances_task; [exact Hrow|reflexivity|done|done| |done]. by left.
Qed.

Lemma checked_ok id at_ db :
  db_ok db -> db_ok (update_task id (fun r => bool_decide (terminal_at r = None))
                       (Projection.checked at_) db).1.
Proof.
  intros Hok. unfold update_task, update_where. destruct (sporos_task db !! id) as [r|] eqn:Hr.
  - case_bool_decide; [|by apply (db_ok_ext db)].
    destruct (ok_tasks _ Hok _ _ Hr) as [_ _ Hout].
    exact (db_ok_update_task db id r (Projection.checked at_ r) Hok Hr eq_refl Hout).
  - by apply (db_ok_ext db).
Qed.

Lemma repair_one_step c at_ report row db :
  db_ok db ->
  moves db (Projection.repair_one c at_ report row db).1 /\
  db_ok (Projection.repair_one c at_ report row db).1.
Proof.
  intros Hok. unfold Projection.repair_one, mbind, M_bind, liftr.
  destruct (get_orchestration_status _ c) as [status|e]; cbn [map_err]; [|by split].
  destruct (Projection.repaired_terminal status) as [ts|]; [|by split].
  destruct (Projection.repair_update at_ row ts) as [u|e] eqn:Hu; cbn [map_err]; [|by split].
  apply Projection.repair_update_Ok in Hu as (_ & Hexp & Hge & _).
  unfold exec. pose proof (project_step u db Hok ltac:(lia)) as Hmove.
  pose proof (Projection.project_task_ok u db Hok ltac:(lia)) as Hok'.
  destruct (Projection.project_task u db) as [db' [outcome|e]]; cbn in *; [|done].
  by destruct outcome.
Qed.

Lemma repair_loop_step c at_ rows report db :
  db_ok db -> moves db (Projection.repair_loop c at_ rows report db).1.
Proof.
  revert report db. induction rows as [|row rows IH]; intros report db Hok;
    cbn [Projection.repair_loop]; [reflexivity|].
  unfold mbind, M_bind. destruct (repair_one_step c at_ report row db Hok) as [Hm Hok'].
  destruct (Projection.repair_one c at_ report row db) as [db1 [report1|e]]; [|done].
  etransitivity; [exact Hm|]. by apply IH.
Qed.

Lemma cursor_step at_ rows db :
  db_ok db ->
  moves db (Projection.advance_cursor at_ rows db).1 /\ db_ok (Projection.advance_cursor at_ rows db).1.
Proof.
  intros Hok. unfold Projection.advance_cursor.
  assert (forall (l : list (str * TaskRow)) db0, db_ok db0 ->
    let run := collectM (fun row : str * TaskRow => exec (E := Projection.ProjectionRepairError)
      Projection.RepairDatabase (update_task row.1 (fun r => bool_decide (terminal_at r = None))
        (Projection.checked at_))) l db0 in moves db0 run.1 /\ db_ok run.1) as Hl.
  { induction l as [|row l IH]; intros db0 Hok0; cbn [collectM]; [by split; [reflexivity|]|].
    unfold mbind, M_bind. unfold exec at 1 3. pose proof (checked_step row.1 at_ db0 Hok0) as Hm.
    pose proof (checked_ok row.1 at_ db0 Hok0) as Hok1.
    destruct (update_task _ _ _ db0) as [db1 [n|e]]; [|done]. cbn [map_err fst] in *.
    specialize (IH db1 Hok1). cbv zeta in IH.
    destruct (collectM _ l db1) as [db2 [ns|e]]; destruct IH; (split; [by etransitivity|done]). }
  specialize (Hl rows db Hok). cbv zeta in Hl. unfold mbind, M_bind.
  destruct (collectM _ rows db) as [db1 [ns|e]]; done.
Qed.

Lemma repair_step c limit at_ db :
  db_ok db ->
  db_ok (Projection.repair_terminal_task_projections c limit at_ db).1 /\
  moves db (Projection.repair_terminal_task_projections c limit at_ db).1.
Proof.
  intros Hok. split.
  { pose proof (Projection.repair_run_spec c limit at_ db Hok) as Hspec.
    destruct (Projection.repair_terminal_task_projections c limit at_ db). by destruct Hspec. }
  unfold Projection.repair_terminal_task_projections.
  change (mbind ?f (reads _) db) with (f (Projection.repair_rows limit db) db). cbv beta.
  set (rows := Projection.repair_rows limit db).
  assert (exists db1 r, (match rows with
      | [] => mret () | _ => transaction (Projection.advance_cursor at_ rows) end
      : M Db Projection.ProjectionRepairError ()) db = (db1, r) /\ moves db db1 /\ db_ok db1)
    as (db1 & r & Hrun & Hm & Hok1).
  { destruct (cursor_step at_ rows db Hok) as [Hm Hok1]. destruct rows.
    { exists db, (Ok ()). by split; [|split; [reflexivity|]]. }
    unfold transaction. destruct (Projection.advance_cursor _ _ db) as [db1 [a|e]].
    - by exists db1, (Ok a).
    - exists db, (Err e). by split; [|split; [reflexivity|]]. }
  unfold mbind, M_bind at 1. rewrite Hrun. destruct r as [[]|e]; [|done].
  etransitivity; [exact Hm|]. by apply repair_loop_step.
Qed.

Context `{!ClientLaws}.

(** Dispatch: leases and verdicts on rows that were not final. *)
Lemma settled_final c now oid o o' until token :
  Outbox.undelivered o = true ->
  (exists c0 v, Outbox.settled c0 c now oid o o' v) \/ o' = o \/
    o' = Outbox.set_lease token until o ->
  same_start o o' /\ (is_Some (dispatched_at o') -> accepted c (start_of_row o')).
Proof using.
  unfold Outbox.undelivered. rewrite andb_true_iff, !bool_decide_eq_true. intros [Hd Hp].
  assert (is_Some (dispatched_at o) -> False) as Hno by (rewrite Hd; by intros []).
  intros [(c0 & v & (Hs & _ & _ & Hcase) & (c1 & c2 & res & _ & _ & _ & Hcause))|[->| ->]];
    [|by split; [done|intros Hs; destruct (Hno Hs)]..].
  split; [done|]. intros Hdisp. destruct v; [|destruct Hcase as (Heq & _)..].
  - destruct Hcause as [Ha _]. destruct Hs as (_ & _ & H1' & H2' & H3' & H4'). unfold start_of_row. by rewrite H1', H2', H3', H4'.
  - rewrite Heq in Hdisp. by destruct (Hno Hdisp).
  - rewrite Heq in Hdisp. by destruct (Hno Hdisp).
Qed.

Lemma dispatch_step self now sequence db c :
  db_ok db -> deliveries_true (db, c) ->
  let w := (Outbox.run_once self now sequence (db, c)).1 in
  db_ok w.1 /\ advances db w.1 /\ deliveries_true w.
Proof using All.
  intros Hok Hd. pose proof (Outbox.run_once_spec self now sequence db c Hok) as Hspec.
  pose proof (fun p => Outbox.run_once_rows self now sequence db c p Hok) as Hsel.
  destruct (Outbox.run_once self now sequence (db, c)) as [[db' c'] r]. cbn [fst].
  destruct Hspec as (Hok' & Honly & Hkeep & Hother & _).
  assert (forall oid o, sporos_outbox db !! oid = Some o ->
    sporos_outbox db' !! oid = Some o \/
    exists o', sporos_outbox db' !! oid = Some o' /\ Outbox.undelivered o = true /\
      same_start o o' /\ (is_Some (dispatched_at o') -> accepted c' (start_of_row o'))) as Hrow.
  { intros oid o Ho. destruct (decide (oid ∈ (Outbox.claimed_rows self now db).*1)) as [Hin|Hni];
      [|left; by rewrite Hother].
    right. apply list_elem_of_fmap in Hin as (p & -> & Hp). destruct (Hsel p Hp) as (o' & Ho' & Hout).
    apply Outbox.claim_rows_elem in Hp as [Hp He]. rewrite Ho in Hp. injection Hp as ->.
    unfold Outbox.eligible in He. apply andb_true_iff in He as [[Hu _]%andb_true_iff _].
    exists o'. split; [done|]. split; [done|].
    destruct Hout as [[v ?]|[?|?]]; [| |by eapply (settled_final c' now p.1); eauto];
      eapply (settled_final c' now p.1 p.2 o' None None); eauto. }
  split; [done|]. split.
  - apply advances_outbox; [by rewrite Honly..|]. intros oid o Ho.
    destruct (Hrow oid o Ho) as [Ho'|(o' & Ho' & Hu & Hs & _)]; [by exists o|].
    exists o'. split; [done|]. split; [done|]. unfold Outbox.undelivered in Hu.
    rewrite andb_true_iff, !bool_decide_eq_true in Hu. destruct Hu as [-> ->].
    by intros [[]|[]].
  - intros oid o' Ho' Hdisp. cbn in Ho'.
    destruct (decide (oid ∈ (Outbox.claimed_rows self now db).*1)) as [Hin|Hni].
    2: { rewrite Hother in Ho' by done. by apply Hkeep, (Hd oid). }
    apply list_elem_of_fmap in Hin as (p & -> & Hp). apply Outbox.claim_rows_elem in Hp as [Ho _].
    destruct (Hrow p.1 p.2 Ho) as [Ho2|(o2 & Ho2 & _ & _ & Hacc)]; rewrite Ho' in Ho2; injection Ho2 as ->.
    + by apply Hkeep, (Hd p.1 p.2).
    + by apply Hacc.
Qed.

Lemma reconcile_step input now db c :
  db_ok db -> deliveries_true (db, c) ->
  let w := (TaskControl.reconcile input now (db, c)).1 in
  db_ok w.1 /\ advances db w.1 /\ deliveries_true w.
Proof using All.
  intros Hok Hd. unfold TaskControl.reconcile.
  destruct (get_orchestration_status _ c) as [status|e].
  2: { split; [done|]. split; [reflexivity|done]. }
  destruct (TaskControl.verdict status) as [[s reason]|].
  - destruct (record_step (TaskControl.ci_task_id input) s reason now db Hok) as (Hok' & Hadv & Hq).
    destruct (TaskControl.record_terminal _ _ _ _ db) as [db' r]. cbn in *.
    split; [done|]. split; [done|]. by apply (quiet_deliveries db).
  - pose proof (fun s => cancel_durable (TaskControl.target_instance input) c s) as Hk.
    destruct (cancel_instance _ c) as [c' r]. cbn in *. split; [done|]. split; [reflexivity|].
    intros oid o Ho Hdisp. by apply Hk, (Hd oid).
Qed.

(** What every step does: the store only advances, and deliveries stay true. *)
Lemma step_sound w w' :
  step w w' -> db_ok w.1 -> deliveries_true w ->
  db_ok w'.1 /\ advances w.1 w'.1 /\ deliveries_true w'.
Proof using All.
  intros Hstep. destruct Hstep as [cmd [db c] Hty|db c c' Hk]; intros Hok Hd; cbn [fst] in *.
  2: { split; [done|]. split; [reflexivity|]. intros oid o Ho Hdisp. by apply Hk, (Hd oid). }
  assert (forall db', db_ok db' -> moves db db' ->
    db_ok db' /\ advances db db' /\ deliveries_true (db', c)) as Hmove.
  { intros db' Hok' [Hadv Hq]. split; [done|]. split; [done|]. by apply (quiet_deliveries db). }
  destruct cmd; cbn [run_command fst].
  - apply Hmove; apply Ingress.accept_task_step; done.
  - apply Hmove; [apply Projection.project_task_ok|apply project_step]; try done; apply Hty.
  - apply Hmove; by apply repair_step.
  - apply Hmove; by apply retry_step.
  - apply Hmove; by apply cancel_step.
  - by apply reconcile_step.
  - by apply dispatch_step.
Qed.

Lemma invariant_step w w' : step w w' -> invariant w -> invariant w'.
Proof using All.
  intros Hstep (Hok & Hlog & Hd). destruct (step_sound w w' Hstep Hok Hd) as (Hok' & Hadv & Hd').
  split; [done|]. split; [|done]. by eapply advances_states.
Qed.

Lemma invariant_initial c : invariant (empty_db, c).
Proof using.
  split; [apply db_ok_empty|]. split.
  - intros id row Hrow. cbn in Hrow. by rewrite lookup_empty in Hrow.
  - intros oid o Ho. cbn in Ho. by rewrite lookup_empty in Ho.
Qed.

Lemma invariant_run w w' : rtc step w w' -> invariant w -> invariant w' /\ advances w.1 w'.1.
Proof using All.
  induction 1 as [w|w w1 w' Hstep _ IH]; intros Hinv; [split; [done|reflexivity]|].
  pose proof (invariant_step w w1 Hstep Hinv) as Hinv1. destruct Hinv as (Hok & _ & Hd).
  destruct (IH Hinv1) as [Hinv' Hadv']. split; [done|].
  transitivity w1.1; [|done]. by apply step_sound.
Qed.

(** C1: every state that ingress, projection, repair, operator retries and
    cancellations, their reconciliation, outbox dispatch and moves of the
    runtime reach from the empty store, in any order and with any failures, is
    consistent: the events of a task are numbered without gap up to its
    generation, every task and outbox row has its counterpart, task keys and
    instances are not reused; the state of a task is that of its latest event;
    and a start is marked dispatched only if the runtime has accepted exactly
    that start. *)
Theorem protocol_invariant (w : World) :
  reachable w -> invariant w.
Proof using All.
  intros [c Hrun]. by apply (invariant_run _ _ Hrun), invariant_initial.
Qed.

Lemma task_log_length db id row :
  sporos_task db !! id = Some row ->
  length (task_log db id) = (Z.to_nat (projection_generation row) + 1)%nat.
Proof using. unfold task_log. intros ->. by rewrite length_map, length_seq. Qed.

Lemma task_log_prefix db db' id :
  db_ok db -> advances db db' -> task_log db id `prefix_of` task_log db' id.
Proof using.
  intros Hok Hadv. unfold task_log at 1. destruct (sporos_task db !! id) as [row|] eqn:Hrow;
    [|apply prefix_nil].
  destruct (adv_tasks _ _ Hadv id row Hrow) as (row' & Hrow' & _ & Hle & _).
  destruct (ok_tasks _ Hok _ _ Hrow) as [Hg Hev _]. unfold task_log. rewrite Hrow'.
  replace (Z.to_nat (projection_generation row') + 1)%nat
    with ((Z.to_nat (projection_generation row) + 1)
          + (Z.to_nat (projection_generation row') - Z.to_nat (projection_generation row)))%nat by lia.
  rewrite (seq_app (Z.to_nat (projection_generation row) + 1)), map_app.
  eexists. f_equal. apply map_ext_in.
  intros k Hk%in_seq. destruct (proj2 (Hev (Z.of_nat k)) ltac:(lia)) as [ev He].
  by rewrite He, (adv_events _ _ Hadv _ _ He).
Qed.

Lemma task_log_last db id row :
  db_ok db -> states_logged db -> sporos_task db !! id = Some row ->
  last (task_log db id) = Some (t_state row).
Proof using.
  intros Hok Hlog Hrow. destruct (Hlog id row Hrow) as (ev & He & Hs).
  destruct (ok_tasks _ Hok _ _ Hrow) as [Hg _ _].
  unfold task_log. rewrite Hrow, seq_app, map_app. cbn [map seq Nat.add]. rewrite last_snoc.
  by rewrite Z2Nat.id, He, Hs by lia.
Qed.

(** C2: the store refines an append-only log per task.  Along every run the log
    of a task only grows at its end, its last entry is the state that the task
    row shows, a task that is at the same generation as before is in the same
    state on the same instance, and a start that was delivered or given up is
    never changed again. *)
Theorem protocol_refines_log (w w' : World) (id : str) :
  reachable w -> rtc step w w' ->
  task_log w.1 id `prefix_of` task_log w'.1 id /\
  (forall row', sporos_task w'.1 !! id = Some row' -> last (task_log w'.1 id) = Some (t_state row')) /\
  (forall row, sporos_task w.1 !! id = Some row ->
     exists row', sporos_task w'.1 !! id = Some row' /\ t_kind row' = t_kind row /\
       (length (task_log w'.1 id) = length (task_log w.1 id) -> same_status row row')) /\
  (forall oid o, sporos_outbox w.1 !! oid = Some o ->
     exists o', sporos_outbox w'.1 !! oid = Some o' /\ same_start o o' /\
       (is_Some (dispatched_at o) \/ is_Some (permanent_failure_at o) -> o' = o)).
Proof using All.
  intros [c Hreach] Hrun.
  destruct (invariant_run _ _ Hreach (invariant_initial c)) as [Hinv _].
  destruct (invariant_run _ _ Hrun Hinv) as [(Hok' & Hlog' & _) Hadv]. destruct Hinv as (Hok & _ & _).
  split; [by apply task_log_prefix|]. split; [intros row'; by apply task_log_last|].
  split; [|apply Hadv]. intros row Hrow.
  destruct (adv_tasks _ _ Hadv id row Hrow) as (row' & Hrow' & Hkind & Hle & Hsame & _).
  exists row'. split; [done|]. split; [done|]. rewrite (task_log_length _ _ _ Hrow').
  rewrite (task_log_length _ _ _ Hrow). intros Hlen. apply Hsame.
  destruct (ok_tasks _ Hok _ _ Hrow) as [? _ _]. destruct (ok_tasks _ Hok' _ _ Hrow') as [? _ _]. lia.
Qed.

(** ** Resubmission after an operator retry *)

Lemma longer_ne (a b : str) : b <> [] -> a ++ b <> a.
Proof using. intros Hb Heq%(f_equal length). rewrite length_app in Heq. destruct b; [done|cbn in *; lia]. Qed.

(** C38: after an operator retry the identical request is not a duplicate any
    more: the retry moved the task to a new instance, and ingress, which compares
    the instance it would start with the one of the row, rejects the request as
    an identity collision and changes nothing. *)
Theorem resubmit_after_retry_collides (task : Ingress.NewTask) (now : Z) (db db' : Db)
    (a : TaskControl.RetryAccepted) :
  db_ok db -> Ingress.stored task db ->
  TaskControl.retry (Ingress.nt_id task) now db = (db', Ok a) ->
  Ingress.accept_task task db' = (db', Err Ingress.TaskIdentityCollision).
Proof using.
  intros Hok [Hp Ht _ _] Hretry.
  pose proof (TaskControl.retry_spec (Ingress.nt_id task) now db Hok) as Hspec. rewrite Hretry in Hspec.
  destruct Hspec as [_ (t & o & g & Hrow & _ & _ & _ & _ & _ & _ & Hoi & Ha & Htasks & _ & _ & _ & Hpol)].
  destruct Ht as (t' & Hrow' & _ & Hi & _). rewrite Hrow in Hrow'. injection Hrow' as <-.
  unfold Ingress.accept_task, transaction, Ingress.accept_task_in, mbind, M_bind.
  destruct Hp as (p & Hp & Heq). rewrite <- Hpol in Hp.
  assert (exec Ingress.Database (insert_policy_ignore (Ingress.ps_id (Ingress.nt_policy task))
    (Ingress.policy_row (Ingress.nt_policy task))) db' = (db', Ok 0)) as ->.
  { unfold exec, insert_policy_ignore, insert_new. by rewrite Hp. }
  rewrite (proj2 (Ingress.verify_policy_Ok _ db' db' tt)) by eauto.
  assert (sporos_task db' !! Ingress.nt_id task =
    Some (TaskControl.requeued g (TaskControl.ra_instance_id a) now t)) as Hnew
    by (by rewrite Htasks, lookup_insert_eq).
  assert (exec Ingress.Database (insert_task_ignore (Ingress.nt_id task) (Ingress.new_task_row task)) db'
    = (db', Ok 0)) as ->.
  { unfold exec, insert_task_ignore, insert_new. by rewrite Hnew. }
  unfold Ingress.verify_task, mbind, M_bind, exec, fetch_one, reads. rewrite Hnew. cbn [ok_or map_err].
  assert (str_eqb (duroxide_instance_id (TaskControl.requeued g (TaskControl.ra_instance_id a) now t))
    (Ingress.instance_id task) = false) as ->.
  { apply bool_decide_eq_false. cbn. rewrite Ha, Hoi, Hi. by apply longer_ne. }
  by rewrite andb_false_r.
Qed.
End Protocol.

(** ** Examples *)

#[local] Existing Instance TaskControl.sample_codec.

Definition accepted_world : Db * @runtime sample_client :=
  run_command (Accept Ingress.sample_task) (empty_db, [] : @runtime sample_client).
Definition dispatched_world : Db * @runtime sample_client :=
  run_command (Dispatch (Outbox.new 10) 5 1) accepted_world.

Lemma accepted_reachable : reachable accepted_world.
Proof. exists []. apply rtc_once. by apply (step_command (Accept Ingress.sample_task)). Qed.

Lemma dispatch_run : rtc step accepted_world dispatched_world.
Proof. apply rtc_once. by apply (step_command (Dispatch (Outbox.new 10) 5 1)). Qed.

Lemma protocol_invariant_witness :
  (dispatched_at <$> sporos_outbox dispatched_world.1 !! 1) = Some (Some 5) /\
  deliveries_true dispatched_world.
Proof.
  split; [vm_compute; reflexivity|].
  apply protocol_invariant. destruct accepted_reachable as [c Hc]. exists c.
  by transitivity accepted_world; [|apply dispatch_run].
Defined.

Definition cancelled_world : Db * @runtime sample_client :=
  run_command (RequestCancel (lit "task") 6) dispatched_world.

Lemma cancel_run : rtc step accepted_world cancelled_world.
Proof.
  apply (rtc_r _ _ _ dispatch_run). by apply (step_command (RequestCancel (lit "task") 6)).
Qed.

Lemma protocol_refines_log_witness :
  task_log accepted_world.1 (lit "task") = [lit "queued"] /\
  task_log cancelled_world.1 (lit "task") = [lit "queued"; lit "cancellation_requested"] /\
  task_log accepted_world.1 (lit "task") `prefix_of` task_log cancelled_world.1 (lit "task").
Proof.
  split; [vm_compute; reflexivity|]. split; [vm_compute; reflexivity|].
  exact (proj1 (protocol_refines_log _ _ (lit "task") accepted_reachable cancel_run)).
Defined.

Lemma failed_stored : Ingress.stored Ingress.sample_task TaskControl.failed_db.
Proof.
  split.
  - eexists. split; [vm_compute; reflexivity|]. done.
  - eexists. split; [vm_compute; reflexivity|]. done.
  - eexists. vm_compute. reflexivity.
  - do 2 eexists. split; [vm_compute; reflexivity|]. done.
Qed.

Lemma resubmit_after_retry_collides_witness :
  (TaskControl.retry (lit "task") 8 TaskControl.failed_db).2
    = Ok (TaskControl.mkRetryAccepted (lit "candidate-v1:1:retry:3")) /\
  (Ingress.accept_task Ingress.sample_task
     (TaskControl.retry (lit "task") 8 TaskControl.failed_db).1).2 = Err Ingress.TaskIdentityCollision.
Proof.
  assert ((TaskControl.retry (lit "task") 8 TaskControl.failed_db).2
    = Ok (TaskControl.mkRetryAccepted (lit "candidate-v1:1:retry:3"))) as Hr
    by (vm_compute; reflexivity).
  split; [exact Hr|].
  destruct (TaskControl.retry (lit "task") 8 TaskControl.failed_db) as [db' r] eqn:Hrun.
  cbn [fst snd] in *. subst r.
  rewrite (resubmit_after_retry_collides Ingress.sample_task 8 TaskControl.failed_db db' _
    TaskControl.failed_db_ok failed_stored Hrun). reflexivity.
Defined.
