(* ===== verification/Candidate.v ===== *)
(** What the workflows of a candidate share: the policy a candidate is judged by
    ([CandidatePolicy] of candidate.rs, [SourceFilters] and [Injection] of
    config.rs), the errors of candidate_workflow.rs, and the projection of its
    task. *)

From S2P Require Import Prelude Text Model Store Duroxide.
From S2P Require Paths Pieces Projection.
From stdpp Require Import strings.
Local Open Scope Z_scope.

Definition MATCHER_VERSION : str := lit "sporos-matcher/1".

Record CandidateWorkflowInput := mkInput {
  in_task_id : str; in_candidate_id : str; in_policy_snapshot_id : str }.

(** ** The policy *)

Record SourceFilters := mkSourceFilters {
  include_categories : list str; exclude_categories : list str;
  include_tags : list str; exclude_tags : list str; exclude_sporos_managed : bool }.

(** [config::Injection] *)
Record InjectionConfig := mkInjectionConfig {
  dry_run : bool; category_template : str; tag_templates : list str;
  inherit_source_category : bool; inherit_source_tags : bool; resume_policy : Pieces.ResumePolicy }.

Record CandidatePolicy := mkCandidatePolicy {
  matching : MatchingPolicy; source_filters : SourceFilters; pending_source_timeout_ms : Z;
  injection : InjectionConfig; namespace_local_root : str; save_path_remote_root : str;
  path_rewrites : list Paths.PathRewrite }.

(** ** Errors, without those of a blocking task that panicked *)

Inductive CandidateWorkflowError :=
| CwDatabase (e : SqlError)
| CwJson
| CwProjection (e : Projection.ProjectionError)
| MissingCandidate
| CwMissingManifest
| MissingTask
| CwRange (field : string)
| CwStoredRange (field : string)
| MatchCollision
| PlanCollision
| Template.

Section Candidate.
Context `{Json}.

(** [CandidateWorkflowError::activity_failure]; [message] is the error's report. *)
Definition workflow_failure (e : CandidateWorkflowError) (message : str) : str :=
  match e with
  | CwDatabase _ | CwProjection (Projection.Database _) =>
      transient (lit "candidate_storage_unavailable") message
  | _ => permanent (lit "invalid_candidate_state") message
  end.

(** ** The candidate's task *)

Definition project_candidate_task (task_id state : str) (reason_code : option str) (terminal : bool)
    (detail : str) (now : Z) : M Db CandidateWorkflowError () :=
  found ← (exec CwDatabase (select (fun db => sporos_task db !! task_id))
           : M Db CandidateWorkflowError (option TaskRow));
  match found with
  | None => mret ()
  | Some row =>
      if str_eqb (t_state row) state || bool_decide (is_Some (terminal_at row)) then mret () else
      generation ← (liftr (ok_or (u64_try_from (projection_generation row)) (CwStoredRange "task generation"))
                    : M Db CandidateWorkflowError Z);
      outcome ← exec CwProjection (Projection.project_task
        {| Projection.task_id := task_id; Projection.expected_generation := generation;
           Projection.state := state; Projection.reason_code := reason_code;
           Projection.execution_id := None; Projection.pu_observed_retry_count := 0;
           Projection.detail_json := Some detail; Projection.occurred_at := now;
           Projection.terminal := terminal |});
      match outcome with
      | Projection.Missing => throw MissingTask
      | _ => mret ()
      end
  end.
End Candidate.
