(* ===== verification/Injection.v ===== *)
(** The injection of an accepted plan into qBittorrent (injection.rs;
    [TorrentState] of qbittorrent.rs).

    A torrent is added stopped, its files are hardlinked while it is stopped, it
    is rechecked, and it is started only when no piece that failed the recheck
    touches a linked file and the resume policy allows it.  The stages are
    activities of a workflow: each may run again after a crash or a lost result.

    qBittorrent is the interface [Qbittorrent]; the file system is that of
    Hardlink.v.  [w_calls] is a ghost history of the calls that matter.  Times of
    rows that no query reads are left out, as are log lines and the limiters. *)

From S2P Require Import Prelude Text Float Model Store Duroxide Candidate.
From S2P Require Hardlink Paths Pieces Projection.
From stdpp Require Import strings.
Local Open Scope Z_scope.

(** ** Data *)

Definition MAX_FINAL_VERIFY_ATTEMPTS : Z := 30.
Definition POLL_DELAY_MS : Z := 2000.

Record InjectionInput := mkInjectionInput {
  ii_task_id : str; ii_candidate_id : str; ii_policy_snapshot_id : str; ii_plan_id : str }.

Inductive StepResult :=
| Ready
| Waiting (delay_ms : Z)
| Terminal (state reason_code : str).

Definition waiting : StepResult := Waiting POLL_DELAY_MS.

(** [qbittorrent::TorrentState]; [progress] is an [f64]. *)
Record TorrentState := mkTorrentState {
  hash : str; name : str; state : str; amount_left : Z; progress : spec_float;
  save_path : str; content_path : str; ts_category : str; ts_tags : str; auto_tmm : bool }.

Definition is_stopped (t : TorrentState) : bool := starts_with (lit "stopped") (state t).
Definition is_checking (t : TorrentState) : bool := starts_with (lit "checking") (state t).
Definition is_started (t : TorrentState) : bool :=
  str_mem (state t)
    [lit "downloading"; lit "forcedDL"; lit "queuedDL"; lit "stalledDL"; lit "metaDL";
     lit "uploading"; lit "forcedUP"; lit "queuedUP"; lit "stalledUP"].

Inductive QbittorrentError :=
| Request
| HttpStatus (status : Z)
| ResponseTooLarge
| MalformedResponse
| UnsupportedVersion
| AddRejected.

Definition retryable_qbittorrent (e : QbittorrentError) : bool :=
  match e with
  | Request => true
  | HttpStatus status =>
      ((500 <=? status) && (status <? 600)) || (status =? 408) || (status =? 429)
  | ResponseTooLarge | MalformedResponse | UnsupportedVersion | AddRejected => false
  end.

Record AddTorrentRequest := mkAddTorrentRequest {
  torrent : str; filename : str; ar_save_path : str; ar_category : option str; ar_tags : list str }.

Class Qbittorrent := {
  qbit : Type;
  validate_contract : qbit -> qbit * result QbittorrentError ();
  torrent_state : str -> qbit -> qbit * result QbittorrentError (option TorrentState);
  add_stopped : AddTorrentRequest -> qbit -> qbit * result QbittorrentError ();
  stop : str -> qbit -> qbit * result QbittorrentError ();
  start : str -> qbit -> qbit * result QbittorrentError ();
  force_recheck : str -> qbit -> qbit * result QbittorrentError ();
  piece_states : str -> qbit -> qbit * result QbittorrentError Pieces.PieceReader }.

(** [DirBuilder::new().recursive(true).mode(0o750).create(path)] *)
Class HostDirectories `{Hardlink.Filesystem} := {
  create_dir_all : str -> Hardlink.fs -> Hardlink.fs * result Hardlink.IoError () }.

(** serde's decoders; [None] is an error. *)
Class InjectionCodec := {
  decode_manifest : str -> option TorrentManifest;
  decode_policy : str -> option CandidatePolicy;
  decode_resume : str -> option Pieces.ResumePolicy;
  decode_tags : str -> option (list str);
  decode_input : str -> option InjectionInput }.

(** *** Tables *)

Record PlanRow := mkPlanRow {
  ip_match_id : str; ip_candidate_id : str; ip_namespace_local : str;
  ip_save_path_remote : str; ip_category : str; ip_tags_json : str; ip_resume_policy_json : str }.
Record CandidateRow := mkCandidateRow { c_blob_sha256 : str; c_manifest_json : option str }.
Record MappingRow := mkMappingRow { fm_source_file_id : Z; fm_candidate_path : str }.
Record SourceFileRow := mkSourceFileRow {
  sf_source_id : str; sf_display_path : str; sf_local_path : option str;
  sf_size : Z; sf_device : option Z; sf_inode : option Z }.

(** The rows that matching, ingress and the inventories wrote, as far as the
    injection reads them: it never writes them, and nothing deletes them. *)
Record Catalogue := mkCatalogue {
  sporos_injection_plan : gmap str PlanRow;
  sporos_candidate : gmap str CandidateRow;
  sporos_blob : gmap str str;
  sporos_candidate_task : gmap (str * str) str;
  policy_payload : gmap str str;
  sporos_file_mapping : gmap (str * Z) MappingRow;
  sporos_source_file : gmap Z SourceFileRow;
  sporos_qbit_torrent : gmap str str;
  sporos_data_source : gset str }.

Record InjectionRow := mkInjectionRow {
  i_v1_hash : option str; i_v2_hash : option str; i_qbit_state : str; i_amount_left : Z;
  i_progress_ppm : Z; i_integrity_safe : option bool; i_resume_decision : option str;
  i_state : str; verification_attempts : Z }.
Record LinkRecord := mkLinkRecord {
  l_source_file_id : Z; l_destination : str; l_device : Z; l_inode : Z; l_size : Z }.

(** The tables that the injection writes. *)
Record Tables := mkTables {
  sporos_injection : gmap str InjectionRow;
  plan_state : gmap str str;
  candidate_state : gmap str str;
  sporos_link : gmap (str * Z) LinkRecord }.

Record LinkRow := mkLinkRow {
  candidate_ordinal : Z; candidate_path : str; source_root_remote : str; source_path : str;
  source_service : str; lr_size : Z; lr_device : option Z; lr_inode : option Z; source_file_id : Z }.

Record InjectionPlan := mkInjectionPlan {
  blob : str; manifest : TorrentManifest; policy : CandidatePolicy; namespace_local : str;
  save_path_remote : str; category : str; tags : list str; resume : Pieces.ResumePolicy;
  mappings : list LinkRow; mapped_ordinals : gset Z;
  injection_state : option str; resume_decision : option str }.

(** *** Errors *)

Section Injection.
Context `{Hardlink.Filesystem} `{!HostDirectories} `{Qbittorrent} `{Json} `{InjectionCodec}.

(** Without the errors of a blocking task that panicked. *)
Inductive InjectionError :=
| Database (e : SqlError)
| JsonError
| Qbit (e : QbittorrentError)
| Materialize (e : Hardlink.MaterializeError)
| ProjectionFailed (e : CandidateWorkflowError)
| FilesystemError (e : Hardlink.IoError)
| PiecesError (e : Pieces.InventoryParseError)
| MissingPlan
| MissingManifest
| MissingHash
| MissingPieceLength
| NamespaceOutsideRoot
| UnmappedSourceRoot
| InvalidSourcePath
| TorrentSizeOverflow
| PieceCount
| InvalidProgress
| Range (field : string)
| StoredRange (field : string).

Definition of_piece_error (e : Pieces.PieceError) : InjectionError :=
  match e with
  | Pieces.MissingPieceLength => MissingPieceLength
  | Pieces.TorrentSizeOverflow => TorrentSizeOverflow
  | Pieces.PieceCount => PieceCount
  | Pieces.Pieces e => PiecesError e
  end.

(** [InjectionError::activity_failure]; [message] is the error's report. *)
Definition activity_failure (e : InjectionError) (message : str) : str :=
  match e with
  | Database _ | FilesystemError _ => transient (lit "injection_dependency_unavailable") message
  | Qbit e => if retryable_qbittorrent e then transient (lit "qbittorrent_unavailable") message
              else permanent (lit "invalid_injection_state") message
  | ProjectionFailed e => workflow_failure e message
  | _ => permanent (lit "invalid_injection_state") message
  end.

(** *** The world *)

Inductive Call :=
| CAdd (hashes : list str)
| CStop (h : str)
| CStart (h : str)
| CRecheck (h : str)
| CPieces (h : str) (reader : Pieces.PieceReader)
| CLink (h : str).

Record World := mkWorld {
  w_db : Db; w_tables : Tables; w_fs : Hardlink.fs; w_qbit : qbit; w_calls : list Call }.

Abbreviation Inj A := (M World InjectionError A).

Definition log (calls : list Call) : Inj () := fun w =>
  (mkWorld (w_db w) (w_tables w) (w_fs w) (w_qbit w) (w_calls w ++ calls), Ok ()).
Definition ask {A} (op : qbit -> qbit * result QbittorrentError A) : Inj A := fun w =>
  let '(q, r) := op (w_qbit w) in
  (mkWorld (w_db w) (w_tables w) (w_fs w) q (w_calls w), map_err Qbit r).
Definition on_tables {A} (m : M Tables InjectionError A) : Inj A := fun w =>
  let '(t, r) := m (w_tables w) in
  (mkWorld (w_db w) t (w_fs w) (w_qbit w) (w_calls w), r).
Definition on_fs {A} (m : Hardlink.fs -> Hardlink.fs * A) : Inj A := fun w =>
  let '(s, a) := m (w_fs w) in
  (mkWorld (w_db w) (w_tables w) s (w_qbit w) (w_calls w), Ok a).
Definition on_db {E A} (wrap : E -> InjectionError) (m : M Db E A) : Inj A := fun w =>
  let '(db, r) := m (w_db w) in
  (mkWorld db (w_tables w) (w_fs w) (w_qbit w) (w_calls w), map_err wrap r).

(** ** Numbers *)

Definition to_i64 (value : Z) (field : string) : result InjectionError Z :=
  ok_or (i64_try_from value) (Range field).
Definition to_u64 (value : Z) (field : string) : result InjectionError Z :=
  ok_or (u64_try_from value) (StoredRange field).
Definition to_u32 (value : Z) (field : string) : result InjectionError Z :=
  ok_or (u32_try_from value) (StoredRange field).
Definition optional_u64 (value : option Z) (field : string) : result InjectionError (option Z) :=
  match value with
  | None => Ok None
  | Some value => Some <$> to_u64 value field
  end.

Definition progress_ppm (value : spec_float) : result InjectionError Z :=
  if negb (is_finite value) || negb (unit_contains value) then Err InvalidProgress
  else Ok (millionths value).

(** ** The plan *)

Context (catalogue : Catalogue).

Definition load_link_row (r : Z * MappingRow) (sf : SourceFileRow) : result InjectionError LinkRow :=
  '(root, path, service) ←
    match sporos_qbit_torrent catalogue !! sf_source_id sf with
    | Some qbit_save_path => Ok (qbit_save_path, sf_display_path sf, lit "qbittorrent")
    | None =>
        local_path ← ok_or (sf_local_path sf) InvalidSourcePath;
        let path := Hardlink.components local_path in
        parent ← ok_or (Hardlink.parent path) InvalidSourcePath;
        file ← ok_or (Hardlink.file_name path) InvalidSourcePath;
        Ok (Paths.path_text parent, file, lit "data")
    end;
  ordinal ← to_u32 r.1 "ordinal";
  size ← to_u64 (sf_size sf) "size";
  device ← optional_u64 (sf_device sf) "device";
  inode ← optional_u64 (sf_inode sf) "inode";
  id ← to_u64 (fm_source_file_id r.2) "source file ID";
  Ok {| candidate_ordinal := ordinal; candidate_path := fm_candidate_path r.2;
        source_root_remote := root; source_path := path; source_service := service;
        lr_size := size; lr_device := device; lr_inode := inode; source_file_id := id |}.

(** The rows that join: mappings of the plan's match with a source file of a known
    torrent or data source, by ordinal. *)
Definition mapping_rows (plan_id : str) : list ((Z * MappingRow) * SourceFileRow) :=
  match sporos_injection_plan catalogue !! plan_id with
  | None => []
  | Some ip =>
      take 100000 (omap (fun p : (str * Z) * MappingRow =>
        sf ← sporos_source_file catalogue !! fm_source_file_id p.2;
        if bool_decide (is_Some (sporos_qbit_torrent catalogue !! sf_source_id sf))
           || bool_decide (sf_source_id sf ∈ sporos_data_source catalogue)
        then Some (p.1.2, p.2, sf) else None)
      (sort_by (fun a b => a.1.2 <=? b.1.2)
        (filter (fun p : (str * Z) * MappingRow => p.1.1 = ip_match_id ip)
           (map_to_list (sporos_file_mapping catalogue)))))
  end.

Definition load_link_rows (plan_id : str) : result InjectionError (list LinkRow) :=
  collect (fun p => load_link_row p.1 p.2) (mapping_rows plan_id).

(** [load_injection]: the joined row with what it decodes to, and the injection's
    own state if it has a row. *)
Definition load_injection (input : InjectionInput) (t : Tables) : result InjectionError InjectionPlan :=
  let joined :=
    ip ← sporos_injection_plan catalogue !! ii_plan_id input;
    if negb (str_eqb (ip_candidate_id ip) (ii_candidate_id input)) then None else
    c ← sporos_candidate catalogue !! ii_candidate_id input;
    b ← sporos_blob catalogue !! c_blob_sha256 c;
    task ← sporos_candidate_task catalogue !! (ii_candidate_id input, ii_policy_snapshot_id input);
    if negb (str_eqb task (ii_task_id input)) then None else
    payload ← policy_payload catalogue !! ii_policy_snapshot_id input;
    Some (ip, c, b, payload) in
  '(ip, c, b, payload) ← ok_or joined MissingPlan;
  manifest_json ← ok_or (c_manifest_json c) MissingManifest;
  manifest ← ok_or (decode_manifest manifest_json) JsonError;
  policy ← ok_or (decode_policy payload) JsonError;
  resume ← ok_or (decode_resume (ip_resume_policy_json ip)) JsonError;
  mappings ← load_link_rows (ii_plan_id input);
  tags ← ok_or (decode_tags (ip_tags_json ip)) JsonError;
  Ok {| blob := b; manifest := manifest; policy := policy; namespace_local := ip_namespace_local ip;
        save_path_remote := ip_save_path_remote ip; category := ip_category ip; tags := tags;
        resume := resume; mappings := mappings;
        mapped_ordinals := list_to_set (map candidate_ordinal mappings);
        injection_state := i_state <$> sporos_injection t !! ii_plan_id input;
        resume_decision := sporos_injection t !! ii_plan_id input ≫= i_resume_decision |}.

Definition hashes (plan : InjectionPlan) : result InjectionError (list str) :=
  let hs := match ih_v1 (tm_hashes (manifest plan)) with Some h => [hex h] | None => [] end
            ++ match ih_v2 (tm_hashes (manifest plan)) with Some h => [hex h] | None => [] end in
  if bool_decide (hs = []) then Err MissingHash else Ok hs.

Definition plan_hash (plan : InjectionPlan) : result InjectionError str :=
  hs ← hashes plan;
  ok_or (head hs) MissingHash.

Definition namespace_relative (plan : InjectionPlan) : result InjectionError str :=
  match Paths.strip_prefix (Hardlink.components (namespace_local_root (policy plan)))
          (Hardlink.components (namespace_local plan)) with
  | Some relative => Ok (Paths.path_text relative)
  | None => Err NamespaceOutsideRoot
  end.

Definition planned_link (plan : InjectionPlan) (mapping : LinkRow)
  : result InjectionError Hardlink.PlannedLink :=
  let paths := Paths.mkPaths (namespace_local_root (policy plan)) (path_rewrites (policy plan)) in
  source_root ←
    (if str_eqb (source_service mapping) (lit "data") then Ok (source_root_remote mapping)
     else ok_or (Paths.path_text <$> Paths.remote_to_local paths (source_service mapping)
                   (Hardlink.components (source_root_remote mapping))) UnmappedSourceRoot);
  Ok {| Hardlink.source_root := source_root; Hardlink.source_relative := source_path mapping;
        Hardlink.destination_relative := candidate_path mapping;
        Hardlink.expected_size := lr_size mapping; Hardlink.expected_device := lr_device mapping;
        Hardlink.expected_inode := lr_inode mapping |}.

Definition planned_links (plan : InjectionPlan) : result InjectionError (list Hardlink.PlannedLink) :=
  collect (planned_link plan) (mappings plan).

(** ** Statements on the injection's tables *)

Abbreviation Tab A := (M Tables InjectionError A).

Definition set_injection (f : gmap str InjectionRow -> gmap str InjectionRow) : Tab () := fun t =>
  (mkTables (f (sporos_injection t)) (plan_state t) (candidate_state t) (sporos_link t), Ok ()).

(** [UPDATE sporos_injection SET ... WHERE plan_id = ?] *)
Definition update_injection (plan_id : str) (f : InjectionRow -> InjectionRow) : Tab () :=
  set_injection (fun m => (update_where plan_id (fun _ => true) f m).1).
Definition update_plan_state (plan_id : str) (state : str) : Tab () := fun t =>
  (mkTables (sporos_injection t) (update_where plan_id (fun _ => true) (fun _ => state) (plan_state t)).1
     (candidate_state t) (sporos_link t), Ok ()).
Definition update_candidate_state (candidate_id : str) (state : str) : Tab () := fun t =>
  (mkTables (sporos_injection t) (plan_state t)
     (update_where candidate_id (fun _ => true) (fun _ => state) (candidate_state t)).1
     (sporos_link t), Ok ()).
Definition upsert_link (plan_id : str) (ordinal : Z) (row : LinkRecord) : Tab () := fun t =>
  let row := match sporos_link t !! (plan_id, ordinal) with
             | None => row
             | Some old => mkLinkRecord (l_source_file_id old) (l_destination old)
                             (l_device row) (l_inode row) (l_size row)
             end in
  (mkTables (sporos_injection t) (plan_state t) (candidate_state t)
     (<[(plan_id, ordinal) := row]> (sporos_link t)), Ok ()).

Definition record_injection (input : InjectionInput) (plan : InjectionPlan) (torrent : TorrentState)
    (state : str) (integrity_safe : option bool) (decision : option str) : Tab () :=
  amount ← (liftr (to_i64 (amount_left torrent) "amount left") : Tab Z);
  ppm ← (liftr (progress_ppm (progress torrent)) : Tab Z);
  _ ← (if bool_decide (is_Some (sporos_injection_plan catalogue !! ii_plan_id input)) then mret ()
       else throw (Database Constraint) : Tab ());
  _ ← set_injection (fun m => <[ii_plan_id input :=
        match m !! ii_plan_id input with
        | None => mkInjectionRow (ih_v1 (tm_hashes (manifest plan))) (ih_v2 (tm_hashes (manifest plan)))
                    (Injection.state torrent) amount ppm integrity_safe decision state 0
        | Some old => mkInjectionRow (i_v1_hash old) (i_v2_hash old) (Injection.state torrent) amount ppm
                        integrity_safe decision state (verification_attempts old)
        end]> m);
  update_plan_state (ii_plan_id input) state.

(** One transaction: undone when a value is out of range. *)
Definition persist_links (input : InjectionInput) (plan : InjectionPlan)
    (links : list Hardlink.MaterializedLink) (complete : bool) : Tab () := fun t =>
  let body : Tab () :=
    _ ← collectM (fun p : LinkRow * Hardlink.MaterializedLink =>
          id ← (liftr (to_i64 (source_file_id p.1) "source file ID") : Tab Z);
          device ← (liftr (to_i64 (Hardlink.device p.2) "link device") : Tab Z);
          inode ← (liftr (to_i64 (Hardlink.inode p.2) "link inode") : Tab Z);
          size ← (liftr (to_i64 (Hardlink.size p.2) "link size") : Tab Z);
          upsert_link (ii_plan_id input) (candidate_ordinal p.1)
            (mkLinkRecord id (Hardlink.ml_destination_relative p.2) device inode size))
        (zip (mappings plan) links);
    let state := if complete then lit "links_complete" else lit "links_partial" in
    _ ← update_injection (ii_plan_id input) (fun i => mkInjectionRow (i_v1_hash i) (i_v2_hash i)
          (i_qbit_state i) (i_amount_left i) (i_progress_ppm i) (i_integrity_safe i)
          (i_resume_decision i) state (verification_attempts i));
    update_plan_state (ii_plan_id input) state in
  match body t with
  | (t', Ok u) => (t', Ok u)
  | (_, Err e) => (t, Err e)
  end.

Definition with_state (state : str) (attempts : Z) (i : InjectionRow) : InjectionRow :=
  mkInjectionRow (i_v1_hash i) (i_v2_hash i) (i_qbit_state i) (i_amount_left i) (i_progress_ppm i)
    (i_integrity_safe i) (i_resume_decision i) state attempts.

Definition set_injection_state (input : InjectionInput) (state : str) : Tab () :=
  _ ← update_injection (ii_plan_id input) (fun i => with_state state (verification_attempts i) i);
  if str_eqb state (lit "recheck_requested")
  then update_injection (ii_plan_id input) (fun i => with_state (i_state i) 0 i)
  else mret ().

(** The columns that every observation refreshes. *)
Definition observed (torrent : TorrentState) (amount ppm : Z) (state : str) (attempts : Z)
    (i : InjectionRow) : InjectionRow :=
  mkInjectionRow (i_v1_hash i) (i_v2_hash i) (Injection.state torrent) amount ppm
    (i_integrity_safe i) (i_resume_decision i) state attempts.

Definition update_qbit_observation (input : InjectionInput) (torrent : TorrentState) (state : str)
  : Tab () :=
  amount ← (liftr (to_i64 (amount_left torrent) "amount left") : Tab Z);
  ppm ← (liftr (progress_ppm (progress torrent)) : Tab Z);
  update_injection (ii_plan_id input)
    (fun i => observed torrent amount ppm state (verification_attempts i) i).

Definition record_resume_decision (input : InjectionInput) (torrent : TorrentState)
    (integrity : Pieces.PieceInspection) (resume : bool) : Tab () :=
  amount ← (liftr (to_i64 (amount_left torrent) "amount left") : Tab Z);
  ppm ← (liftr (progress_ppm (progress torrent)) : Tab Z);
  update_injection (ii_plan_id input) (fun i =>
    mkInjectionRow (i_v1_hash i) (i_v2_hash i) (Injection.state torrent) amount ppm
      (Some (Pieces.integrity_safe integrity))
      (Some (if resume then lit "resume" else lit "stop")) (lit "finalizing") 0).

Definition bump_verification (input : InjectionInput) (torrent : TorrentState) : Tab Z :=
  amount ← (liftr (to_i64 (amount_left torrent) "amount left") : Tab Z);
  ppm ← (liftr (progress_ppm (progress torrent)) : Tab Z);
  _ ← update_injection (ii_plan_id input)
        (fun i => observed torrent amount ppm (i_state i) (verification_attempts i + 1) i);
  reads (fun t => ok_or (verification_attempts <$> sporos_injection t !! ii_plan_id input)
                    (Database RowNotFound)).

(** ** Projection of the candidate's task *)

Definition project_candidate_state (input : InjectionInput) (state reason : str) (terminal : bool) (now : Z)
  : Inj () :=
  on_db ProjectionFailed (project_candidate_task (ii_task_id input) state (Some reason) terminal
    (json_object [(lit "planId", hex (ii_plan_id input))]) now).

Definition fail_injection (input : InjectionInput) (reason : str) (now : Z) : Inj () :=
  _ ← on_tables (update_plan_state (ii_plan_id input) (lit "failed"));
  _ ← on_tables (update_injection (ii_plan_id input)
        (fun i => with_state (lit "failed") (verification_attempts i) i));
  _ ← on_tables (update_candidate_state (ii_candidate_id input) (lit "failed"));
  project_candidate_state input (lit "failed") reason true now.

Definition finish_injection (input : InjectionInput) (torrent : TorrentState) (resumed : bool) (now : Z)
  : Inj () :=
  _ ← on_tables (amount ← (liftr (to_i64 (amount_left torrent) "amount left") : Tab Z);
                 ppm ← (liftr (progress_ppm (progress torrent)) : Tab Z);
                 update_injection (ii_plan_id input) (fun i =>
                   observed torrent amount ppm (lit "completed") (verification_attempts i) i));
  _ ← on_tables (update_plan_state (ii_plan_id input) (lit "completed"));
  _ ← on_tables (update_candidate_state (ii_candidate_id input) (lit "completed"));
  project_candidate_state input (lit "completed")
    (if resumed then lit "resumed" else lit "left_stopped") true now.

(** ** The activities *)

(** [self.qbit.is_some()] *)
Context (configured : bool).

Definition fail (input : InjectionInput) (reason : str) (now : Z) : Inj StepResult :=
  _ ← fail_injection input reason now;
  mret (Terminal (lit "failed") reason).

Definition load (input : InjectionInput) : Inj InjectionPlan :=
  on_tables (reads (load_injection input)).

Definition materializing {A} (m : M Hardlink.fs Hardlink.MaterializeError A)
  : Inj (result Hardlink.MaterializeError A) := on_fs m.

Definition open_root (root : str) : Inj Hardlink.HardlinkMaterializer :=
  r ← materializing (reads (Hardlink.open root));
  liftr (map_err Materialize r).

Definition ensure_namespace (plan : InjectionPlan) : Inj () :=
  let root := namespace_local_root (policy plan) in
  r ← on_fs (create_dir_all root);
  _ ← (liftr (map_err FilesystemError r) : Inj ());
  materializer ← open_root root;
  relative ← (liftr (namespace_relative plan) : Inj str);
  r ← materializing (Hardlink.materialize materializer relative []);
  _ ← (liftr (map_err Materialize r) : Inj (list Hardlink.MaterializedLink));
  mret ().

Definition same_save_path (actual expected : str) : bool :=
  str_eqb (trim_end_matches 47 actual) (trim_end_matches 47 expected).

(** The loop over the hashes; [None] is an identity conflict. *)
Fixpoint find_torrent (hs : list str) (found : option TorrentState) : Inj (option (option TorrentState)) :=
  match hs with
  | [] => mret (Some found)
  | h :: hs =>
      t ← ask (torrent_state h);
      match t with
      | None => find_torrent hs found
      | Some t =>
          if match found with Some existing => negb (str_eqb (hash existing) (hash t)) | None => false end
          then mret None else find_torrent hs (Some t)
      end
  end.

Definition prepare (input : InjectionInput) (now : Z) : Inj StepResult :=
  plan ← load input;
  if negb configured then fail input (lit "qbittorrent_unconfigured") now else
  _ ← ask validate_contract;
  _ ← ensure_namespace plan;
  hs ← (liftr (hashes plan) : Inj (list str));
  found ← find_torrent hs None;
  match found with
  | None => fail input (lit "qbittorrent_identity_conflict") now
  | Some (Some t) =>
      if negb (same_save_path (save_path t) (save_path_remote plan)) || auto_tmm t
      then fail input (lit "qbittorrent_identity_conflict") now else
      if negb (is_stopped t) then
        _ ← log [CStop (hash t)];
        _ ← ask (stop (hash t));
        mret waiting
      else
        _ ← on_tables (record_injection input plan t (lit "added_stopped") None None);
        mret Ready
  | Some None =>
      _ ← log [CAdd hs];
      _ ← ask (add_stopped {| torrent := blob plan;
              filename := lit "cand_" ++ hex (ii_candidate_id input) ++ lit ".torrent";
              ar_save_path := save_path_remote plan;
              ar_category := if bool_decide (category plan = []) then None else Some (category plan);
              ar_tags := tags plan |});
      mret waiting
  end.

Definition materialize_reason (error : Hardlink.MaterializeError) : str :=
  match error with
  | Hardlink.DeviceMismatch => lit "hardlink_device_mismatch"
  | Hardlink.LinkConflict => lit "link_conflict"
  | Hardlink.SourceIdentityChanged | Hardlink.SourceSizeChanged => lit "source_changed"
  | _ => lit "hardlink_materialization_failed"
  end.

(** One link at a time, so that what was linked before an error is known. *)
Fixpoint link_each (materializer : Hardlink.HardlinkMaterializer) (namespace : str)
    (links : list Hardlink.PlannedLink) (materialized : list Hardlink.MaterializedLink) (s : Hardlink.fs)
  : Hardlink.fs * (list Hardlink.MaterializedLink * result Hardlink.MaterializeError ()) :=
  match links with
  | [] => (s, (materialized, Ok ()))
  | link :: links =>
      match Hardlink.materialize materializer namespace [link] s with
      | (s, Ok r) => link_each materializer namespace links (materialized ++ r) s
      | (s, Err e) => (s, (materialized, Err e))
      end
  end.

Definition materialize (input : InjectionInput) (now : Z) : Inj StepResult :=
  plan ← load input;
  if negb configured then fail input (lit "qbittorrent_unconfigured") now else
  h ← (liftr (plan_hash plan) : Inj str);
  t ← ask (torrent_state h);
  match t with
  | None => fail input (lit "injected_torrent_missing") now
  | Some t =>
      if negb (is_stopped t) || auto_tmm t || negb (same_save_path (save_path t) (save_path_remote plan))
      then fail input (lit "qbittorrent_not_stopped") now else
      namespace ← (liftr (namespace_relative plan) : Inj str);
      match planned_links plan with
      | Err UnmappedSourceRoot => fail input (lit "unmapped_source_root") now
      | Err e => throw e
      | Ok links =>
          r ← materializing (reads (Hardlink.open (namespace_local_root (policy plan))));
          match r with
          | Err e => fail input (materialize_reason e) now
          | Ok materializer =>
              _ ← log [CLink h];
              linked ← on_fs (link_each materializer namespace links []);
              let '(results, outcome) := linked in
              _ ← on_tables (persist_links input plan results (is_ok outcome));
              match outcome with
              | Err e => fail input (materialize_reason e) now
              | Ok _ => mret Ready
              end
          end
      end
  end.

Definition recheck (input : InjectionInput) (now : Z) : Inj StepResult :=
  plan ← load input;
  if negb configured then fail input (lit "qbittorrent_unconfigured") now else
  h ← (liftr (plan_hash plan) : Inj str);
  _ ← log [CRecheck h];
  _ ← ask (force_recheck h);
  _ ← on_tables (set_injection_state input (lit "recheck_requested"));
  mret waiting.

Inductive RecheckObservation := Checking | Settling | WaitingForQueue | Inspect.

Definition recheck_observation (injection_state : option str) (t : TorrentState) : RecheckObservation :=
  if is_checking t then Checking else
  if str_mem (state t) [lit "queuedDL"; lit "queuedUP"] then WaitingForQueue else
  match injection_state with
  | Some s => if str_eqb s (lit "recheck_requested") then Settling
              else if str_mem s [lit "recheck_settling"; lit "checking"] then Inspect
              else WaitingForQueue
  | None => WaitingForQueue
  end.

(** Count one more inconclusive observation; [retry] continues while some are left. *)
Definition bump_or_fail (input : InjectionInput) (t : TorrentState) (now : Z) (retry : Inj StepResult)
  : Inj StepResult :=
  attempts ← on_tables (bump_verification input t);
  if MAX_FINAL_VERIFY_ATTEMPTS <=? attempts
  then fail input (lit "ambiguous_qbittorrent_state") now else retry.

(** [qbit.start] or [qbit.stop], as decided. *)
Definition apply_decision (resume : bool) (h : str) : Inj StepResult :=
  _ ← log [if resume then CStart h else CStop h];
  _ ← ask (if resume then start h else stop h);
  mret waiting.

Definition verify_final (input : InjectionInput) (plan : InjectionPlan) (t : TorrentState) (now : Z)
  : Inj StepResult :=
  let resume := match resume_decision plan with
                | Some d => str_eqb d (lit "resume")
                | None => false
                end in
  if (resume && is_started t) || (negb resume && is_stopped t) then
    _ ← finish_injection input t resume now;
    mret (Terminal (lit "completed") (if resume then lit "resumed" else lit "left_stopped"))
  else
    bump_or_fail input t now (h ← (liftr (plan_hash plan) : Inj str); apply_decision resume h).

Definition read_pieces (h : str) : Inj Pieces.PieceReader :=
  reader ← ask (piece_states h);
  _ ← log [CPieces h reader];
  mret reader.

(** The arm that decides. *)
Definition decide_resume (input : InjectionInput) (plan : InjectionPlan) (h : str) (t : TorrentState)
  : Inj StepResult :=
  reader ← read_pieces h;
  integrity ← (liftr (map_err of_piece_error
                  (Pieces.inspect_pieces (manifest plan) (mapped_ordinals plan) reader))
               : Inj Pieces.PieceInspection);
  let go := Pieces.integrity_safe integrity
            && Pieces.resume_allowed (resume plan) (amount_left t) integrity in
  _ ← on_tables (record_resume_decision input t integrity go);
  apply_decision go h.

Definition observe (input : InjectionInput) (now : Z) : Inj StepResult :=
  plan ← load input;
  if negb configured then fail input (lit "qbittorrent_unconfigured") now else
  h ← (liftr (plan_hash plan) : Inj str);
  t ← ask (torrent_state h);
  match t with
  | None => fail input (lit "injected_torrent_missing") now
  | Some t =>
      if match injection_state plan with Some s => str_eqb s (lit "finalizing") | None => false end
      then verify_final input plan t now else
      match recheck_observation (injection_state plan) t with
      | Checking => _ ← on_tables (update_qbit_observation input t (lit "checking")); mret waiting
      | Settling => _ ← on_tables (update_qbit_observation input t (lit "recheck_settling")); mret waiting
      | WaitingForQueue => bump_or_fail input t now (mret waiting)
      | Inspect => decide_resume input plan h t
      end
  end.

Inductive Stage := Prepare | MaterializeLinks | Recheck | Observe.

Definition perform (stage : Stage) (input : InjectionInput) (now : Z) : Inj StepResult :=
  match stage with
  | Prepare => prepare input now
  | MaterializeLinks => materialize input now
  | Recheck => recheck input now
  | Observe => observe input now
  end.

(** [activity]: decode, perform, and classify the error for the retry policy. *)
Definition activity (report : InjectionError -> str) (raw : str) (stage : Stage) (now : Z) (w : World)
  : World * result str StepResult :=
  match decode_input raw with
  | None => (w, Err (permanent (lit "invalid_injection_input") []))
  | Some input =>
      let '(w', r) := perform stage input now w in
      (w', map_err (fun e => activity_failure e (report e)) r)
  end.

(** *** The workflow [run] *)

Inductive Phase := Running (stage : Stage) | Ended (outcome : result str (str * str)).

(** How [run] goes on after a stage's result. *)
Definition next (stage : Stage) (r : StepResult) : Phase :=
  match r with
  | Terminal state reason => Ended (Ok (state, reason))
  | Ready =>
      match stage with
      | Prepare => Running MaterializeLinks
      | MaterializeLinks => Running Recheck
      | Recheck => Running Observe
      | Observe => Ended (Err (lit "observer returned a non-terminal ready state"))
      end
  | Waiting _ =>
      match stage with
      | Prepare => Running Prepare
      | MaterializeLinks => Ended (Err (lit "materializer returned a wait state"))
      | Recheck => Running Observe
      | Observe => Running Observe
      end
  end.
(** [run] for [fuel] activities, the clock standing still. *)
Fixpoint run (fuel : nat) (input : InjectionInput) (message : InjectionError -> str) (now : Z)
    (stage : Stage) (w : World) : Phase * World :=
  match fuel with
  | O => (Running stage, w)
  | S fuel =>
      match perform stage input now w with
      | (w, Ok r) =>
          match next stage r with
          | Running stage => run fuel input message now stage w
          | Ended outcome => (Ended outcome, w)
          end
      | (w, Err e) => (Ended (Err (activity_failure e (message e))), w)
      end
  end.

(** One step of a run, of its activities' retries, and of what goes on around it.
    An activity that crashes or whose result is lost is performed again; a call
    that qBittorrent receives and whose answer is lost is an [Err] of [Qbittorrent].
    Other components change the database, the file system and qBittorrent at any
    time; an operator may retry a run that ended. *)
Inductive run_step (input : InjectionInput) : Phase * World -> Phase * World -> Prop :=
| step_done stage now w w' r :
    perform stage input now w = (w', Ok r) ->
    run_step input (Running stage, w) (next stage r, w')
| step_lost stage now w :
    run_step input (Running stage, w) (Running stage, (perform stage input now w).1)
| step_failed stage now w w' e message :
    perform stage input now w = (w', Err e) ->
    run_step input (Running stage, w) (Ended (Err (activity_failure e message)), w')
| step_outside p w w' :
    w_tables w' = w_tables w -> w_calls w' = w_calls w ->
    run_step input (p, w) (p, w')
| step_again outcome w :
    run_step input (Ended outcome, w) (Running Prepare, w).

(** *** What a start must rest on *)

(** [h] is the hash of the plan as it is loaded. *)
Definition planned (input : InjectionInput) (h : str) : Prop :=
  exists t plan, load_injection input t = Ok plan /\ plan_hash plan = Ok h.

(** The integrity gate and the resume policy of the plan both pass on these pieces. *)
Definition passes (input : InjectionInput) (h : str) (reader : Pieces.PieceReader) : Prop :=
  exists t plan i amount,
    load_injection input t = Ok plan /\ plan_hash plan = Ok h /\
    Pieces.inspect_pieces (manifest plan) (mapped_ordinals plan) reader = Ok i /\
    Pieces.integrity_safe i = true /\
    Pieces.resume_allowed (resume plan) amount i = true.

(** The history has a recheck of [h], and after the last one a look at its pieces
    that passes. *)
Definition authorised (input : InjectionInput) (h : str) (calls : list Call) : Prop :=
  exists a reader b,
    calls = a ++ CPieces h reader :: b /\ CRecheck h ∈ a /\ CRecheck h ∉ b /\
    passes input h reader.

(** *** Runs of the observer *)

(** Whether an observation made now finds the torrent being checked. *)
Definition sees_checking (input : InjectionInput) (w : World) : bool :=
  match load_injection input (w_tables w) with
  | Err _ => false
  | Ok plan =>
      match plan_hash plan with
      | Err _ => false
      | Ok h => match (torrent_state h (w_qbit w)).2 with
                | Ok (Some t) => is_checking t
                | _ => false
                end
      end
  end.

(** [n] observations in a row that all wait, of which [c] find a check going on;
    anything but the injection's tables changes between them. *)
Inductive observations (input : InjectionInput) : nat -> nat -> World -> World -> Prop :=
| observations_none w : observations input 0 0 w w
| observations_more c n w w1 w2 w3 now d :
    w_tables w1 = w_tables w ->
    perform Observe input now w1 = (w2, Ok (Waiting d)) ->
    observations input c n w2 w3 ->
    observations input (if sees_checking input w1 then S c else c) (S n) w w3.
End Injection.
