(* ===== verification/InjectionProofs.v ===== *)
(** The injection's guarantees: what a start of the torrent rests on, when links
    are made, and how long a run observes. *)

From S2P Require Import Prelude Text Model Store Duroxide Candidate Injection.
From S2P Require Hardlink Paths Pieces Projection.
From stdpp Require Import strings.
From Stdlib Require Import SpecFloat.
Local Open Scope Z_scope.

Section Safety.
Context `{Hardlink.Filesystem} `{!HostDirectories} `{Qbittorrent} `{Json} `{InjectionCodec}.
Context (catalogue : Catalogue) (configured : bool) (input : InjectionInput).

Abbreviation load_ t := (load_injection catalogue input t).
Abbreviation planned := (planned catalogue input).
Abbreviation authorised := (authorised catalogue input).

Definition decision_of (t : Tables) : option str :=
  sporos_injection t !! ii_plan_id input ≫= i_resume_decision.

Definition decision (w : World) : option str := decision_of (w_tables w).

Definition quiet_call (c : Call) : Prop :=
  match c with CStart _ | CRecheck _ => False | _ => True end.

Definition keeps {A} (m : M Tables InjectionError A) : Prop :=
  forall t, decision_of (m t).1 = decision_of t.

(** Steps that neither start nor recheck, and at most clear the decision. *)
Definition quiet (w w' : World) : Prop :=
  (exists l, w_calls w' = w_calls w ++ l /\ Forall quiet_call l) /\
  (decision w' = decision w \/ decision w' = None).

#[local] Instance quiet_preorder : PreOrder quiet.
Proof.
  split.
  - intros w. split; [exists []; by rewrite app_nil_r|by left].
  - intros w1 w2 w3 [(l & Hl & Fl) Hd] [(l' & Hl' & Fl') Hd']. split.
    + exists (l ++ l'). rewrite Hl', Hl, app_assoc, Forall_app. done.
    + destruct Hd as [Hd|Hd], Hd' as [Hd'|Hd']; rewrite Hd', ?Hd; auto.
Qed.

Abbreviation anywhere := (fun _ : World => True).
Abbreviation calm m := (hoare quiet anywhere m (fun _ _ => True)).

(** ** The ways an activity acts *)

Lemma hoare_any {A} P (m : M World InjectionError A) : calm m -> hoare quiet P m (fun _ _ => True).
Proof. intros Hm w _. by apply Hm. Qed.

Lemma calm_bind {A B} (m : M World InjectionError A) (f : A -> M World InjectionError B) T :
  calm m -> (forall a, hoare quiet anywhere (f a) T) -> hoare quiet anywhere (m ≫= f) T.
Proof. intros Hm Hf. eapply hoare_bind; [apply _|exact Hm|exact Hf]. Qed.

Lemma calm_liftr {A} (r : result InjectionError A) : calm (liftr r).
Proof. intros w _. cbn. split; [reflexivity|]. by destruct r. Qed.

Lemma calm_log l : Forall quiet_call l -> calm (log l).
Proof. intros Hl w _. cbn. split; [|done]. split; [by exists l|by left]. Qed.

Lemma calm_tables {A} (m : M Tables InjectionError A) :
  keeps m -> calm (on_tables m).
Proof.
  intros Hm w _. unfold on_tables. specialize (Hm (w_tables w)).
  destruct (m (w_tables w)) as [t r]. cbn in *. split; [|by destruct r].
  split; [exists []; by rewrite app_nil_r|by left].
Qed.

Lemma calm_ask {A} (op : qbit -> qbit * result QbittorrentError A) : calm (ask op).
Proof.
  intros w _. unfold ask. destruct (op (w_qbit w)) as [q r]. cbn. split; [|by destruct r].
  split; [exists []; by rewrite app_nil_r|by left].
Qed.

Lemma calm_fs {A} (m : Hardlink.fs -> Hardlink.fs * A) : calm (on_fs m).
Proof.
  intros w _. unfold on_fs. destruct (m (w_fs w)) as [s r]. cbn. split; [|done].
  split; [exists []; by rewrite app_nil_r|by left].
Qed.

Lemma calm_db {E A} wrap (m : M Db E A) : calm (on_db wrap m).
Proof.
  intros w _. unfold on_db. destruct (m (w_db w)) as [s r]. cbn. split; [|by destruct r].
  split; [exists []; by rewrite app_nil_r|by left].
Qed.

(** ** Statements that keep the decision *)

Lemma decision_update plan_id f t :
  (forall i, i_resume_decision (f i) = i_resume_decision i) ->
  decision_of (update_injection plan_id f t).1 = decision_of t.
Proof.
  intros Hf. unfold decision_of, update_injection, set_injection, update_where. cbn.
  destruct (sporos_injection t !! plan_id) as [i|] eqn:Hi; cbn; [|done].
  destruct (decide (plan_id = ii_plan_id input)) as [<-|Hne].
  - rewrite lookup_insert_eq, Hi. cbn. apply Hf.
  - by rewrite lookup_insert_ne.
Qed.
Lemma keeps_bind {A B} (m : M Tables InjectionError A) (f : A -> M Tables InjectionError B) :
  keeps m -> (forall a, keeps (f a)) -> keeps (m ≫= f).
Proof.
  intros Hm Hf t. unfold mbind, M_bind. specialize (Hm t).
  destruct (m t) as [t' [a|e]]; cbn in *; [|done]. by rewrite Hf.
Qed.

Lemma keeps_pure {A} (f : Tables -> result InjectionError A) : keeps (reads f).
Proof. by intros t. Qed.
Lemma keeps_liftr {A} (r : result InjectionError A) : keeps (liftr r).
Proof. by intros t. Qed.
Lemma keeps_plan_state id st : keeps (update_plan_state id st).
Proof. by intros t. Qed.
Lemma keeps_candidate_state id st : keeps (update_candidate_state id st).
Proof. by intros t. Qed.
Lemma keeps_upsert_link id n row : keeps (upsert_link id n row).
Proof. by intros t. Qed.
Lemma keeps_update id f :
  (forall i, i_resume_decision (f i) = i_resume_decision i) -> keeps (update_injection id f).
Proof. intros Hf t. by apply decision_update. Qed.
Lemma keeps_collect {A B} (f : A -> M Tables InjectionError B) l :
  (forall a, keeps (f a)) -> keeps (collectM f l).
Proof.
  intros Hf. induction l as [|x l IH]; cbn [collectM]; [by intros t|].
  apply keeps_bind; [done|]. intros y. apply keeps_bind; [done|]. by intros ys t.
Qed.
#[local] Hint Resolve keeps_bind keeps_pure keeps_liftr keeps_plan_state keeps_candidate_state
  keeps_upsert_link keeps_update keeps_collect : keeps.

Ltac keep := repeat first
  [ apply keeps_bind; [|intros ?] | apply keeps_update; by intros | by intros ? | eauto with keeps ].

Lemma keeps_persist plan links complete : keeps (persist_links input plan links complete).
Proof.
  intros t. unfold persist_links.
  match goal with |- decision_of (match ?m t with _ => _ end).1 = _ => assert (keeps m) as Hm end.
  { apply keeps_bind; [apply keeps_collect; intros [? ?]|intros _]; cbn; [keep|].
    apply keeps_bind; [by apply keeps_update|intros _; apply keeps_plan_state]. }
  specialize (Hm t). match type of Hm with decision_of (?x).1 = _ => destruct x as [t' [u|e]] end; done.
Qed.
Lemma keeps_set_state st : keeps (set_injection_state input st).
Proof. unfold set_injection_state. destruct (str_eqb _ _); keep. Qed.
Lemma keeps_observation torrent st : keeps (update_qbit_observation input torrent st).
Proof. unfold update_qbit_observation. keep. Qed.
Lemma keeps_bump torrent : keeps (bump_verification input torrent).
Proof. unfold bump_verification. keep. Qed.
#[local] Hint Resolve keeps_persist keeps_set_state keeps_observation keeps_bump : keeps.

(** ** Calm parts of the activities *)

Ltac calm := repeat first
  [ apply calm_bind; [|intros ?]
  | apply calm_liftr | apply calm_ask | apply calm_fs | apply calm_db
  | apply calm_log; repeat constructor
  | apply calm_tables; keep
  | by intros ? ?; cbn; split; [reflexivity|] ].

Lemma calm_fail reason now : calm (fail input reason now).
Proof. unfold fail, fail_injection, project_candidate_state. calm. Qed.
Lemma calm_load : calm (load catalogue input).
Proof. unfold load. calm. Qed.
Lemma calm_ensure_namespace plan : calm (ensure_namespace plan).
Proof. unfold ensure_namespace, open_root, materializing. calm. Qed.
Lemma calm_find hs found : calm (find_torrent hs found).
Proof.
  revert found. induction hs as [|h hs IH]; intros found; cbn [find_torrent]; [calm|].
  apply calm_bind; [calm|]. intros [t|]; [|apply IH].
  destruct found as [t'|]; [destruct (negb _)|]; try apply IH. calm.
Qed.
Lemma calm_materialize now : calm (materialize catalogue configured input now).
Proof.
  unfold materialize. apply calm_bind; [apply calm_load|]. intros plan.
  destruct (negb configured); [apply calm_fail|].
  apply calm_bind; [calm|]. intros h. apply calm_bind; [calm|]. intros [t|]; [|apply calm_fail].
  destruct (_ || _); [apply calm_fail|].
  apply calm_bind; [calm|]. intros namespace.
  destruct (planned_links plan) as [links|e]; [|destruct e; try apply calm_fail; calm].
  apply calm_bind; [unfold materializing; calm|]. intros [m|e]; [|apply calm_fail].
  apply calm_bind; [calm|]. intros _. apply calm_bind; [calm|]. intros [results outcome].
  apply calm_bind; [calm|]. intros _. destruct outcome; [calm|apply calm_fail].
Qed.

(** ** Prepare clears the decision *)

Lemma hoare_fail_terminal P reason now :
  hoare quiet P (fail input reason now) (fun r _ => exists s c, r = Terminal s c).
Proof.
  intros w _. destruct (calm_fail reason now w I) as [Hq _]. split; [done|].
  unfold fail, mbind, M_bind. destruct (fail_injection input reason now w) as [w' [u|e]]; cbn; eauto.
Qed.

Lemma decision_record plan torrent t t' :
  record_injection catalogue input plan torrent (lit "added_stopped") None None t = (t', Ok tt) ->
  decision_of t' = None.
Proof.
  unfold record_injection. intros Hr.
  apply M_bind_Ok in Hr as (t1 & amount & [= <- _] & Hr).
  apply M_bind_Ok in Hr as (t2 & ppm & [= <- _] & Hr).
  apply M_bind_Ok in Hr as (t3 & [] & Hg & Hr).
  destruct (bool_decide _) in Hg; [|done]. injection Hg as <-.
  apply M_bind_Ok in Hr as (t4 & [] & [= <-] & [= <-]).
  unfold decision_of. cbn. rewrite lookup_insert_eq. by destruct (_ !! _).
Qed.

Lemma record_quiet plan torrent :
  hoare quiet anywhere
    (on_tables (record_injection catalogue input plan torrent (lit "added_stopped") None None))
    (fun _ w => decision w = None).
Proof.
  intros w _. unfold on_tables.
  destruct (record_injection _ _ _ _ _ _ _ (w_tables w)) as [t [[]|e]] eqn:E; cbn.
  - assert (decision_of t = None) by (by eapply decision_record).
    split; [|done]. split; [exists []; by rewrite app_nil_r|by right].
  - split; [|done]. split; [exists []; by rewrite app_nil_r|].
    unfold record_injection in E. cbn in E.
    destruct (to_i64 _ _); cbn in E; [|injection E as <- _; by left].
    destruct (progress_ppm _); cbn in E; [|injection E as <- _; by left].
    destruct (bool_decide _); cbn in E; [done|injection E as <- _; by left].
Qed.

Definition ready_cleared (r : StepResult) (w : World) : Prop := r = Ready -> decision w = None.

Lemma fail_ready reason now : hoare quiet anywhere (fail input reason now) ready_cleared.
Proof.
  eapply hoare_weaken; [apply _|by intros w Hw; exact Hw| |apply (hoare_fail_terminal anywhere)].
  by intros r w (? & ? & ->).
Qed.

Lemma waiting_ready : 
  hoare quiet anywhere (mret waiting : M World InjectionError StepResult) ready_cleared.
Proof. by intros w _. Qed.

Lemma prepare_clears now :
  hoare quiet anywhere (prepare catalogue configured input now) ready_cleared.
Proof.
  unfold prepare. apply calm_bind; [apply calm_load|]. intros plan.
  destruct (negb configured); [apply fail_ready|].
  apply calm_bind; [calm|]. intros _. apply calm_bind; [apply calm_ensure_namespace|]. intros _.
  apply calm_bind; [calm|]. intros hs. apply calm_bind; [apply calm_find|].
  intros [[t|]|]; [| |apply fail_ready].
  - destruct (_ || _); [apply fail_ready|]. destruct (negb _).
    + apply calm_bind; [calm|]. intros _. apply calm_bind; [calm|]. intros _. apply waiting_ready.
    + eapply hoare_bind; [apply _|apply record_quiet|]. intros _ w Hw.
      split; [reflexivity|]. by intros _.
  - apply calm_bind; [calm|]. intros _. apply calm_bind; [calm|]. intros _. apply waiting_ready.
Qed.

(** ** What the observer relies on *)

Lemma load_static t1 t2 p1 p2 :
  load_ t1 = Ok p1 -> load_ t2 = Ok p2 -> plan_hash p1 = plan_hash p2.
Proof.
  unfold load_injection. intros H1' H2'.
  apply bind_Ok in H1' as ([[[ip c] b] payload] & E1 & H1').
  apply bind_Ok in H2' as ([[[ip' c'] b'] payload'] & E2 & H2').
  rewrite E1 in E2. simplify_eq. cbv beta iota in H1', H2'.
  repeat match goal with
  | H : (?m ≫= _) = Ok _, H' : (?m ≫= _) = Ok _ |- _ =>
      let E := fresh "E" in let E' := fresh "E" in
      apply bind_Ok in H as (? & E & H); apply bind_Ok in H' as (? & E' & H');
      rewrite E in E'; simplify_eq
  end.
  done.
Qed.

Lemma planned_unique h h' : planned h -> planned h' -> h = h'.
Proof.
  intros (t & p & Hl & Hh) (t' & p' & Hl' & Hh').
  pose proof (load_static _ _ _ _ Hl Hl'). congruence.
Qed.

(** Every start so far was authorised. *)
Definition safe (calls : list Call) : Prop :=
  forall l1 h l2, calls = l1 ++ CStart h :: l2 -> authorised h l1.

Lemma safe_snoc calls c :
  safe calls -> (forall h, c = CStart h -> authorised h calls) -> safe (calls ++ [c]).
Proof.
  intros Hs Hc l1 h l2 Hl. destruct (decide (l2 = [])) as [->|Hne].
  - apply app_inj_tail in Hl as [<- ->]. by apply Hc.
  - destruct (exists_last Hne) as (l2' & c' & ->).
    rewrite app_comm_cons, app_assoc in Hl. apply app_inj_tail in Hl as [Hl _]. by eapply Hs.
Qed.

Lemma safe_quiet calls l : safe calls -> Forall quiet_call l -> safe (calls ++ l).
Proof.
  intros Hs Hl. revert calls Hs. induction Hl as [|c l Hc _ IH]; intros calls Hs.
  - by rewrite app_nil_r.
  - rewrite cons_middle, app_assoc. apply IH, safe_snoc; [done|]. by intros h ->.
Qed.

Lemma quiet_no_recheck l h : Forall quiet_call l -> CRecheck h ∉ l.
Proof. intros Hl Hin. rewrite Forall_forall in Hl. by specialize (Hl _ Hin). Qed.

Lemma authorised_app calls l h : authorised h calls -> CRecheck h ∉ l -> authorised h (calls ++ l).
Proof.
  intros (a & reader & b & -> & Ha & Hb & Hp) Hl. exists a, reader, (b ++ l).
  rewrite <- app_assoc. split; [done|]. split; [done|]. split; [|done].
  rewrite elem_of_app. tauto.
Qed.

Lemma quiet_safe w w' : quiet w w' -> safe (w_calls w) -> safe (w_calls w').
Proof. intros [(l & -> & Hl) _] Hs. by apply safe_quiet. Qed.

Record observing (w : World) : Prop := {
  ob_safe : safe (w_calls w);
  ob_rechecked : forall h, planned h -> CRecheck h ∈ w_calls w;
  ob_decided : forall h, decision w = Some (lit "resume") -> planned h -> authorised h (w_calls w) }.

Definition observes_on (w w' : World) : Prop := observing w -> observing w'.
#[local] Instance observes_on_preorder : PreOrder observes_on.
Proof. split; [by intros w Hw|]. intros w1 w2 w3 Hab Hbc Hw. apply Hbc, Hab, Hw. Qed.

Lemma quiet_observes w w' : quiet w w' -> observes_on w w'.
Proof.
  intros Hq [Hs Hr Hd]. destruct (Hq) as [(l & Hl & Fl) He]. constructor.
  - by eapply quiet_safe.
  - intros h Hh. rewrite Hl, elem_of_app. left. by apply Hr.
  - intros h Hdec Hh. rewrite Hl. apply authorised_app; [|by apply quiet_no_recheck].
    apply Hd; [|done]. destruct He; congruence.
Qed.

(** A calm part of the observer keeps what it relies on. *)
Lemma observe_calm {A} (m : M World InjectionError A) Q :
  hoare quiet anywhere m Q -> hoare observes_on observing m (fun a w => Q a w /\ observing w).
Proof.
  intros Hm w Hw. destruct (Hm w I) as [Hq HQ]. pose proof (quiet_observes _ _ Hq) as Ho.
  split; [done|]. destruct (m w).2; auto.
Qed.

Lemma observe_bind {A B} (m : M World InjectionError A) (f : A -> M World InjectionError B) T :
  calm m -> (forall a, hoare observes_on observing (f a) T) ->
  hoare observes_on observing (m ≫= f) T.
Proof.
  intros Hm Hf. eapply hoare_bind; [apply _|by apply observe_calm|]. cbn.
  intros a w [_ Hw]. by apply Hf.
Qed.

Lemma observe_weaken {A} P (m : M World InjectionError A) :
  calm m -> (forall w, P w -> observing w) -> hoare observes_on P m (fun _ _ => True).
Proof.
  intros Hm HP w Hw. destruct (observe_calm m _ Hm w (HP _ Hw)) as [Hq _].
  split; [done|]. by destruct (m w).2.
Qed.

(** ** The observer *)

Abbreviation observed_by m := (hoare observes_on observing m (fun _ _ => True)).

Lemma observed_fail reason now : observed_by (fail input reason now).
Proof. apply observe_weaken; [apply calm_fail|done]. Qed.

Lemma observed_apply go h :
  hoare observes_on (fun w => observing w /\ (go = true -> authorised h (w_calls w)))
    (apply_decision go h) (fun _ _ => True).
Proof.
  unfold apply_decision. eapply (hoare_bind _ _ _ _ (fun _ w => observing w)).
  - intros w [[Hs Hr Hd] Hgo]. cbn.
    enough (observing (mkWorld (w_db w) (w_tables w) (w_fs w) (w_qbit w)
              (w_calls w ++ [if go then CStart h else CStop h])))
      by (split; [by intros _|done]).
    constructor; cbn.
    + apply safe_snoc; [done|]. intros h' Hc. destruct go; [|done]. injection Hc as <-. by apply Hgo.
    + intros h' Hh. rewrite elem_of_app. left. by apply Hr.
    + intros h' Hdec Hh. apply authorised_app; [by apply Hd|].
      intros Hin%list_elem_of_singleton. by destruct go.
  - intros _. apply observe_weaken; [calm|done].
Qed.

Definition inspecting (h : str) (reader : Pieces.PieceReader) (w : World) : Prop :=
  observing w /\ exists a, w_calls w = a ++ [CPieces h reader] /\ CRecheck h ∈ a.

Lemma observed_read h :
  planned h -> hoare observes_on observing (read_pieces h) (inspecting h).
Proof.
  intros Hp. unfold read_pieces. eapply hoare_bind; [apply _|apply observe_calm; calm|].
  cbn. intros reader. eapply (hoare_bind _ _ _ _ (fun _ => inspecting h reader)).
  - intros w [_ Hw].
    assert (quiet w (log [CPieces h reader] w).1) as Hq by (apply (calm_log [_]); [by repeat constructor|done]).
    pose proof (quiet_observes _ _ Hq) as Ho. split; [done|]. cbn. split; [by apply Ho|].
    exists (w_calls w). split; [done|]. by apply Hw.
  - intros _ w Hw. cbn. split; [reflexivity|done].
Qed.

Lemma record_decision torrent integrity go t t' r :
  record_resume_decision input torrent integrity go t = (t', r) ->
  decision_of t' = decision_of t \/ decision_of t' = Some (if go then lit "resume" else lit "stop").
Proof.
  unfold record_resume_decision. unfold mbind, M_bind, liftr.
  destruct (to_i64 _ _); [|intros [= <- _]; by left].
  destruct (progress_ppm _); [|intros [= <- _]; by left].
  unfold update_injection, set_injection, update_where, decision_of. intros [= <- _].
  destruct (sporos_injection t !! ii_plan_id input) as [row|] eqn:Hi; cbn [fst sporos_injection].
  - right. by rewrite lookup_insert_eq.
  - left. by rewrite Hi.
Qed.

Lemma observed_record h torrent integrity go reader :
  (go = true -> passes catalogue input h reader) -> planned h ->
  hoare observes_on (inspecting h reader)
    (on_tables (record_resume_decision input torrent integrity go))
    (fun _ w => observing w /\ (go = true -> authorised h (w_calls w))).
Proof.
  intros Hgo Hp w [[Hs Hr Hd] (a & Hl & Ha)]. unfold on_tables.
  destruct (record_resume_decision _ _ _ _ (w_tables w)) as [t r] eqn:E. cbn.
  assert (go = true -> authorised h (w_calls w)) as Hauth.
  { intros Hg. exists a, reader, []. rewrite Hl. split; [done|]. split; [done|].
    split; [by intros Hin; inversion Hin|by apply Hgo]. }
  assert (observing (mkWorld (w_db w) t (w_fs w) (w_qbit w) (w_calls w))) as Ho.
  { constructor; cbn; [done|done|]. intros h' Hdec Hh. apply record_decision in E.
    change (decision_of t = Some (lit "resume")) in Hdec. destruct E as [E|E]; [apply Hd; [unfold decision; by rewrite <- E|done]|].
    rewrite (planned_unique h' h); [|done|done]. apply Hauth.
    destruct go; [done|]. rewrite Hdec in E. by injection E. }
  split; [by intros _|]. by destruct r.
Qed.

Lemma observed_decide t plan h torrent :
  load_ t = Ok plan -> plan_hash plan = Ok h ->
  observed_by (decide_resume input plan h torrent).
Proof.
  intros Hl Hh. assert (planned h) as Hp by (by exists t, plan).
  unfold decide_resume. eapply hoare_bind; [apply _|by apply observed_read|].
  intros reader. eapply hoare_bind; [apply _|apply hoare_liftr; apply _|]. cbn.
  intros i w [Hi Hw]. revert w Hw.
  set (go := Pieces.integrity_safe i && _).
  change (hoare observes_on (inspecting h reader)
    (_ ← on_tables (record_resume_decision input torrent i go); apply_decision go h)
    (fun _ _ => True)).
  apply (hoare_bind _ _ _ _ (fun _ w => observing w /\ (go = true -> authorised h (w_calls w))));
    [|intros _; apply observed_apply].
  apply (observed_record h torrent i go reader); [|done].
  intros [Hsafe Hres]%andb_true_iff. exists t, plan, i, (amount_left torrent).
  destruct (Pieces.inspect_pieces _ _ _) as [i'|e]; [|done]. injection Hi as ->. done.
Qed.

Lemma observed_bump torrent now retry :
  observed_by retry -> observed_by (bump_or_fail input torrent now retry).
Proof.
  intros Hr. unfold bump_or_fail. apply observe_bind; [calm|]. intros attempts.
  destruct (_ <=? _); [apply observed_fail|done].
Qed.

Lemma bump_hoare torrent now retry P :
  (forall w, P w -> observing w) -> (forall w w', quiet w w' -> P w -> P w') ->
  hoare observes_on P retry (fun _ _ => True) ->
  hoare observes_on P (bump_or_fail input torrent now retry) (fun _ _ => True).
Proof.
  intros HP Hst Hr. unfold bump_or_fail. eapply (hoare_bind _ _ _ _ (fun _ => P)).
  - intros w Hw. assert (calm (on_tables (bump_verification input torrent))) as Hc by calm.
    destruct (Hc w I) as [Hq _]. split; [by apply quiet_observes|]. destruct (_.2); [by eapply Hst|done].
  - intros attempts. destruct (_ <=? _); [|done]. apply observe_weaken; [apply calm_fail|done].
Qed.

(** What an earlier look at the pieces allowed, is allowed still. *)
Definition resuming (plan : InjectionPlan) (resume : bool) (w : World) : Prop :=
  observing w /\ (resume = true -> forall h, plan_hash plan = Ok h -> authorised h (w_calls w)).

Lemma resuming_quiet plan resume w w' :
  quiet w w' -> resuming plan resume w -> resuming plan resume w'.
Proof.
  intros Hq [Ho Ha]. split; [by eapply quiet_observes|]. intros Hr h Hh.
  destruct Hq as [(l & -> & Hl) _]. apply authorised_app; [by apply Ha|by apply quiet_no_recheck].
Qed.

Lemma observed_final plan torrent now :
  hoare observes_on
    (resuming plan (match Injection.resume_decision plan with
                    | Some d => str_eqb d (lit "resume") | None => false end))
    (verify_final input plan torrent now) (fun _ _ => True).
Proof.
  unfold verify_final. set (resume := match Injection.resume_decision plan with Some _ => _ | None => _ end).
  destruct (_ || _).
  - apply observe_weaken; [|by intros w [Hw _]].
    unfold finish_injection, project_candidate_state. calm.
  - apply bump_hoare; [by intros w [Hw _]|by intros *; apply resuming_quiet|].
    eapply (hoare_bind _ _ _ _ (fun h w => plan_hash plan = Ok h /\ resuming plan resume w)).
    { apply hoare_liftr; apply _. }
    intros h w [Hh [Hw Ha]]. apply observed_apply. split; [done|]. intros Hr. by apply Ha.
Qed.

Lemma observed_load :
  hoare observes_on observing (load catalogue input) (fun plan w =>
    load_ (w_tables w) = Ok plan /\ observing w).
Proof.
  intros [db t s q calls] Hw. unfold load, on_tables, reads. cbn.
  split; [by intros _|]. by destruct (load_ t).
Qed.

Lemma load_decision t plan :
  load_ t = Ok plan -> Injection.resume_decision plan = decision_of t.
Proof.
  unfold load_injection. intros Hl. apply bind_Ok in Hl as ([[[ip c] b] payload] & _ & Hl).
  cbv beta iota in Hl.
  repeat match type of Hl with (?m ≫= _) = Ok _ => apply bind_Ok in Hl as (? & _ & Hl) end.
  by injection Hl as <-.
Qed.

Lemma load_resuming w plan :
  load_ (w_tables w) = Ok plan -> observing w ->
  resuming plan (match Injection.resume_decision plan with
                 | Some d => str_eqb d (lit "resume") | None => false end) w.
Proof.
  intros Hl Hw. split; [done|]. rewrite (load_decision _ _ Hl). intros Hr h Hh.
  apply Hw; [|by exists (w_tables w), plan]. unfold decision.
  destruct (decision_of (w_tables w)) as [d|]; [|done]. f_equal. by apply str_eqb_spec in Hr.
Qed.

Lemma observe_keeps now : hoare observes_on observing (observe catalogue configured input now) (fun _ _ => True).
Proof.
  unfold observe. eapply hoare_bind; [apply _|apply observed_load|]. cbn. intros plan.
  set (resume := match Injection.resume_decision plan with Some d => str_eqb d (lit "resume") | None => false end).
  apply (hoare_weaken _ _ (fun w => (exists t, load_ t = Ok plan) /\ resuming plan resume w) _ _ (fun _ _ => True));
    [intros w [Hl Hw]; split; [eauto|by apply load_resuming]|done|].
  destruct (negb configured); [by apply observe_weaken; [apply calm_fail|intros w [_ [Hw _]]]|].
  apply (hoare_bind _ _ _ _ (fun h w => plan_hash plan = Ok h /\ (exists t, load_ t = Ok plan) /\ resuming plan resume w)).
  { apply hoare_liftr; apply _. }
  intros h. apply (hoare_bind _ _ _ _ (fun _ w => plan_hash plan = Ok h /\ (exists t, load_ t = Ok plan) /\ resuming plan resume w)).
  { intros w (Hh & Hl & Hw). assert (calm (ask (torrent_state h))) as Hc by calm.
    destruct (Hc w I) as [Hq _]. split; [by apply quiet_observes|].
    destruct (_.2); [|done]. split; [done|]. split; [done|]. by eapply resuming_quiet. }
  intros [t|]; [|by apply observe_weaken; [apply calm_fail|intros w (_ & _ & Hw & _)]].
  destruct (match injection_state plan with Some _ => _ | None => _ end).
  { intros w (_ & _ & Hw). by apply observed_final. }
  destruct (recheck_observation _ _).
  - apply observe_weaken; [calm|by intros w (_ & _ & Hw & _)].
  - apply observe_weaken; [calm|by intros w (_ & _ & Hw & _)].
  - intros w (_ & _ & Hw & _). apply observed_bump; [|done]. apply observe_weaken; [calm|done].
  - intros w (Hh & (t' & Hl) & Hw & _). by eapply observed_decide.
Qed.

(** ** The recheck *)

Definition rechecks (w w' : World) : Prop :=
  (safe (w_calls w) -> safe (w_calls w')) /\ (decision w = None -> decision w' = None).
#[local] Instance rechecks_preorder : PreOrder rechecks.
Proof. split; [by intros w|]. intros w1 w2 w3 [? ?] [? ?]. split; auto. Qed.

Lemma quiet_rechecks w w' : quiet w w' -> rechecks w w'.
Proof.
  intros Hq. split; [by apply quiet_safe|]. destruct Hq as [_ [Hd|Hd]]; congruence.
Qed.

Lemma recheck_calm {A} P (m : M World InjectionError A) (Q : A -> World -> Prop) :
  calm m -> (forall a w w', P w -> quiet w w' -> Q a w') ->
  hoare rechecks P m Q.
Proof.
  intros Hm HQ w Hw. destruct (Hm w I) as [Hq _]. split; [by apply quiet_rechecks|].
  destruct (m w).2; [by eapply HQ|done].
Qed.

Definition asked (r : StepResult) (w : World) : Prop :=
  (forall s c, r <> Terminal s c) -> forall h, planned h -> CRecheck h ∈ w_calls w.

Lemma recheck_asks now :
  hoare rechecks anywhere (recheck catalogue configured input now) asked.
Proof.
  unfold recheck. apply (hoare_bind _ _ _ _ (fun plan _ => exists t, load_ t = Ok plan)).
  { intros w _. split; [apply quiet_rechecks, calm_load; done|]. unfold load, on_tables, reads.
    cbn. destruct (load_ _) eqn:E; cbn; eauto. }
  intros plan. destruct (negb configured).
  { intros w _. destruct (hoare_fail_terminal anywhere (lit "qbittorrent_unconfigured") now w I) as [Hq Ht].
    split; [by apply quiet_rechecks|]. destruct (_.2); [|done].
    destruct Ht as (s & c & ->). intros Hne. by destruct (Hne s c). }
  apply (hoare_bind _ _ _ _ (fun h _ => planned h)).
  { intros w (t & Hl). cbn. split; [reflexivity|]. destruct (plan_hash plan) eqn:Hh; [|done].
    by exists t, plan. }
  intros h. apply (hoare_bind _ _ _ _ (fun _ w => planned h /\ CRecheck h ∈ w_calls w)).
  { intros w Hp. cbn. split; [split; [|done]|].
    - cbn. intros Hs. apply safe_snoc; [done|]. by intros h' [=].
    - split; [done|]. rewrite elem_of_app, list_elem_of_singleton. by right. }
  intros _. apply recheck_calm; [calm|]. intros r w w' [Hp Hin] [(l & Hl & _) _] _ h' Hp'.
  rewrite Hl, elem_of_app, (planned_unique h' h Hp' Hp). by left.
Qed.

(** ** Runs *)

Definition run_inv (s : Phase * World) : Prop :=
  safe (w_calls s.2) /\
  match s.1 with
  | Running MaterializeLinks | Running Recheck => decision s.2 = None
  | Running Observe => observing s.2
  | _ => True
  end.

(** What performing a stage once keeps, and what its result promises the next. *)
Lemma perform_inv stage now w :
  run_inv (Running stage, w) ->
  run_inv (Running stage, (perform catalogue configured stage input now w).1) /\
  forall r, (perform catalogue configured stage input now w).2 = Ok r ->
    run_inv (next stage r, (perform catalogue configured stage input now w).1).
Proof.
  intros [Hs Hi]. destruct stage; cbn [fst snd perform] in *.
  - destruct (prepare_clears now w I) as [Hq Hr].
    assert (Hs' := quiet_safe _ _ Hq Hs). split; [done|]. intros r E. rewrite E in Hr. split; [by destruct r|].
    destruct r; [by apply Hr|done..].
  - destruct (calm_materialize now w I) as [Hq _].
    assert (Hs' := quiet_safe _ _ Hq Hs). apply quiet_rechecks in Hq as [_ Hd].
    split; [split; [done|by apply Hd]|]. intros r _. split; [by destruct r|].
    destruct r; [by apply Hd|done..].
  - destruct (recheck_asks now w I) as [[Hq Hd] Ha].
    specialize (Hq Hs). specialize (Hd Hi). split; [done|]. intros r Hr. rewrite Hr in Ha.
    destruct r; (split; [done|]); cbn [fst snd next]; [| |done].
    all: constructor; [done|by apply Ha|congruence].
  - destruct (observe_keeps now w Hi) as [Ho _]. specialize (Ho Hi).
    split; [split; [apply Ho|done]|]. intros r _.
    destruct r; cbn [fst snd next]; (split; [apply Ho|done]).
Qed.

Lemma run_inv_step s s' : run_step catalogue configured input s s' -> run_inv s -> run_inv s'.
Proof.
  intros Hstep Hi. destruct Hstep as [stage now w w' r Hp|stage now w|stage now w w' e m Hp|p w w' Ht Hc|o w].
  - destruct (perform_inv stage now w Hi) as [_ Hn]. rewrite Hp in Hn. by apply Hn.
  - by apply perform_inv.
  - destruct (perform_inv stage now w Hi) as [[Hs _] _]. rewrite Hp in Hs. done.
  - destruct Hi as [Hs Hi]. unfold run_inv, safe, decision in *. cbn [fst snd] in *.
    rewrite Ht, Hc. split; [done|].
    destruct p as [[]|]; [done..| |done]. destruct Hi as [Hos Hor Hod].
    unfold decision in *. by constructor; unfold decision; rewrite ?Ht, Hc.
  - destruct Hi as [Hs _]. done.
Qed.

Lemma run_steps fuel message now stage w :
  rtc (run_step catalogue configured input) (Running stage, w)
    (run catalogue configured fuel input message now stage w).
Proof.
  revert stage w. induction fuel as [|fuel IH]; intros stage w; cbn [run]; [done|].
  destruct (perform catalogue configured stage input now w) as [w' [r|e]] eqn:Hp.
  - eapply rtc_l; [by econstructor|]. destruct (next stage r); [apply IH|done].
  - eapply rtc_l; [by apply (step_failed _ _ _ stage now w w' e (message e))|done].
Qed.

(** C3: The injection never starts a torrent over linked files that failed the recheck.
    Whatever happens around a run (results lost and activities performed again,
    errors of qBittorrent whose effect took place, changes by other components,
    later runs of the same task), every start of [h] in its history comes after a
    recheck of [h], and the look at the pieces made since the last recheck passed
    both the integrity gate and the resume policy of the plan. *)
Theorem never_resumes_over_linked_files w0 p w l1 h l2 :
  w_calls w0 = [] ->
  rtc (run_step catalogue configured input) (Running Prepare, w0) (p, w) ->
  w_calls w = l1 ++ CStart h :: l2 ->
  exists a reader b,
    l1 = a ++ CPieces h reader :: b /\ CRecheck h ∈ a /\ CRecheck h ∉ b /\
    passes catalogue input h reader.
Proof.
  intros Hw0 Hrun Hl. enough (run_inv (p, w)) as [Hs _] by (by apply (Hs _ _ _ Hl)).
  assert (run_inv (Running Prepare, w0)) as Hi.
  { split; [|done]. cbn. rewrite Hw0. intros [|] ? ?; done. }
  revert Hi. induction Hrun as [|s1 s2 s3 Hstep _ IH]; [done|].
  intros Hi. by apply IH, (run_inv_step _ _ Hstep).
Qed.
End Safety.

(** ** How long a run observes *)

Section Waits.
Context `{Hardlink.Filesystem} `{!HostDirectories} `{Qbittorrent} `{Json} `{InjectionCodec}.
Context (catalogue : Catalogue) (configured : bool) (input : InjectionInput).

Definition the_row (t : Tables) : option InjectionRow := sporos_injection t !! ii_plan_id input.

(** The observations that may still find nothing conclusive: each state of the row
    has its own attempts, and each is left once. *)
Definition waits_left (row : InjectionRow) : Z :=
  let left := MAX_FINAL_VERIFY_ATTEMPTS - 1 - verification_attempts row in
  if str_eqb (i_state row) (lit "finalizing") then left else
  if str_eqb (i_state row) (lit "recheck_requested") then left + 31 else left + 30.

Record watched (row : InjectionRow) : Prop := {
  wa_state : i_state row ∈ [lit "recheck_requested"; lit "recheck_settling"; lit "checking"; lit "finalizing"];
  wa_attempts : 0 <= verification_attempts row < MAX_FINAL_VERIFY_ATTEMPTS }.

Lemma update_row f t row :
  the_row t = Some row ->
  the_row (update_injection (ii_plan_id input) f t).1 = Some (f row).
Proof.
  unfold the_row, update_injection, set_injection, update_where. intros Hr. rewrite Hr. cbn.
  by rewrite lookup_insert_eq.
Qed.

Lemma load_state t plan :
  load_injection catalogue input t = Ok plan -> injection_state plan = i_state <$> the_row t.
Proof.
  unfold load_injection. intros Hl. apply bind_Ok in Hl as ([[[ip c] b] payload] & _ & Hl).
  cbv beta iota in Hl.
  repeat match type of Hl with (?m ≫= _) = Ok _ => apply bind_Ok in Hl as (? & _ & Hl) end.
  by injection Hl as <-.
Qed.

Lemma on_tables_Ok {A} (m : M Tables InjectionError A) w w' a :
  on_tables m w = (w', Ok a) ->
  exists t, m (w_tables w) = (t, Ok a) /\ w_tables w' = t /\ w_qbit w' = w_qbit w.
Proof. unfold on_tables. destruct (m (w_tables w)) as [t r]. intros [= <- ->]. eauto. Qed.

(** The two values that every observation converts first. *)
Lemma observation_Ok {A} torrent (k : Z -> Z -> M Tables InjectionError A) t t' a :
  (amount ← liftr (to_i64 (amount_left torrent) "amount left");
   ppm ← liftr (progress_ppm (progress torrent)); k amount ppm) t = (t', Ok a) ->
  exists amount ppm, k amount ppm t = (t', Ok a).
Proof.
  unfold mbind, M_bind, liftr. destruct (to_i64 _ _); [|done].
  destruct (progress_ppm _); [|done]. eauto.
Qed.

Lemma fail_not_waiting reason now w w' d : fail input reason now w <> (w', Ok (Waiting d)).
Proof.
  unfold fail, mbind, M_bind. by destruct (fail_injection input reason now w) as [? [?|?]].
Qed.

Lemma bump_waits torrent now retry w w' d row :
  the_row (w_tables w) = Some row -> watched row ->
  (forall w1 w2 r, retry w1 = (w2, Ok r) -> w_tables w2 = w_tables w1) ->
  bump_or_fail input torrent now retry w = (w', Ok (Waiting d)) ->
  exists row', the_row (w_tables w') = Some row' /\ watched row' /\
    waits_left row' = waits_left row - 1.
Proof.
  intros Hr [Hs Ha] Hretry Hb. unfold bump_or_fail in Hb.
  apply M_bind_Ok in Hb as (w1 & attempts & Ht & Hb).
  apply on_tables_Ok in Ht as (t1 & Ht & Hw1 & _).
  unfold bump_verification in Ht. apply observation_Ok in Ht as (amount & ppm & Ht).
  apply M_bind_Ok in Ht as (t2 & [] & Hu & Hq). unfold reads in Hq. injection Hq as -> Hq.
  pose proof (update_row (fun i => observed torrent amount ppm (i_state i) (verification_attempts i + 1) i) _ _ Hr) as Hr1.
  rewrite Hu in Hr1. cbn [fst] in Hr1. unfold the_row in Hr1. rewrite Hr1 in Hq. injection Hq as <-.
  cbn [verification_attempts observed] in Hb.
  destruct (Z.leb_spec MAX_FINAL_VERIFY_ATTEMPTS (verification_attempts row + 1)) as [|Hlt];
    [by apply fail_not_waiting in Hb|].
  apply Hretry in Hb. exists (observed torrent amount ppm (i_state row) (verification_attempts row + 1) row).
  rewrite Hb, Hw1. split; [done|]. split; [split; cbn; [done|lia]|].
  unfold waits_left. cbn [i_state verification_attempts observed]. repeat case_match; lia.
Qed.

Lemma observation_row st torrent t t' row u :
  the_row t = Some row -> update_qbit_observation input torrent st t = (t', Ok u) ->
  exists row', the_row t' = Some row' /\ i_state row' = st /\
    verification_attempts row' = verification_attempts row.
Proof.
  intros Hr Hu. unfold update_qbit_observation in Hu.
  apply observation_Ok in Hu as (amount & ppm & Hu).
  pose proof (update_row (fun i => observed torrent amount ppm st (verification_attempts i) i) _ _ Hr) as Hr'.
  rewrite Hu in Hr'. eauto.
Qed.

Lemma decision_row torrent integrity go t t' row u :
  the_row t = Some row -> record_resume_decision input torrent integrity go t = (t', Ok u) ->
  exists row', the_row t' = Some row' /\ i_state row' = lit "finalizing" /\
    verification_attempts row' = 0.
Proof.
  intros Hr Hu. unfold record_resume_decision in Hu.
  apply observation_Ok in Hu as (amount & ppm & Hu). cbv beta in Hu.
  match type of Hu with update_injection _ ?f _ = _ => pose proof (update_row f _ _ Hr) as Hr' end.
  rewrite Hu in Hr'. eauto.
Qed.

Lemma apply_tables go h w w' r : apply_decision go h w = (w', Ok r) -> w_tables w' = w_tables w.
Proof.
  unfold apply_decision, mbind, M_bind, log, ask. cbn.
  destruct ((if go then start h else stop h) _) as [q [?|?]]; cbn; [|done]. by intros [= <- _].
Qed.

Lemma ask_Ok {A} (op : qbit -> qbit * result QbittorrentError A) w w' a :
  ask op w = (w', Ok a) -> w_tables w' = w_tables w /\ (op (w_qbit w)).2 = Ok a.
Proof. unfold ask. destruct (op (w_qbit w)) as [q [?|?]]; cbn; [|done]. by intros [= <- <-]. Qed.

Lemma decide_waits plan h torrent w w' d row :
  the_row (w_tables w) = Some row ->
  decide_resume input plan h torrent w = (w', Ok (Waiting d)) ->
  exists row', the_row (w_tables w') = Some row' /\ watched row' /\ waits_left row' = 29.
Proof.
  intros Hr Hd. unfold decide_resume, read_pieces in Hd.
  apply M_bind_Ok in Hd as (w1 & reader & Hq & Hd).
  apply M_bind_Ok in Hq as (w2 & reader' & Hq & Hlog). apply ask_Ok in Hq as [Hq _].
  cbn in Hlog. injection Hlog as <- <-.
  apply M_bind_Ok in Hd as (w3 & i & Hi & Hd). unfold liftr in Hi. injection Hi as <- _.
  apply M_bind_Ok in Hd as (w4 & [] & Ht & Hd). apply on_tables_Ok in Ht as (t & Ht & Hw4 & _).
  cbn [w_tables] in Ht. rewrite Hq in Ht. apply (decision_row _ _ _ _ _ _ _ Hr) in Ht as (row' & Hr' & Hs & Ha).
  apply apply_tables in Hd. exists row'. rewrite Hd, Hw4. split; [done|].
  unfold waits_left. rewrite Hs, Ha. split; [|done]. split; [rewrite Hs|rewrite Ha; done].
  do 3 right. by left.
Qed.

Lemma final_waits plan torrent now w w' d row :
  the_row (w_tables w) = Some row -> watched row ->
  verify_final input plan torrent now w = (w', Ok (Waiting d)) ->
  exists row', the_row (w_tables w') = Some row' /\ watched row' /\
    waits_left row' = waits_left row - 1.
Proof.
  intros Hr Hw Hf. unfold verify_final in Hf. destruct (_ || _).
  - unfold mbind, M_bind in Hf. by destruct (finish_injection _ _ _ _ w) as [? [?|?]].
  - eapply bump_waits; [done|done| |done]. intros w1 w2 r Hret.
    apply M_bind_Ok in Hret as (w3 & h & Hh & Hret). unfold liftr in Hh. injection Hh as <- _.
    by eapply apply_tables.
Qed.

Lemma queue_waits torrent now w w' d row :
  the_row (w_tables w) = Some row -> watched row ->
  bump_or_fail input torrent now (mret waiting) w = (w', Ok (Waiting d)) ->
  exists row', the_row (w_tables w') = Some row' /\ watched row' /\
    waits_left row' = waits_left row - 1.
Proof. intros Hr Hw. apply bump_waits; [done|done|]. by intros w1 w2 r [= <- _]. Qed.

(** What a waiting observation of a torrent that is not being checked uses up. *)
Lemma look_waits plan h t now w w' d row :
  the_row (w_tables w) = Some row -> watched row ->
  injection_state plan = Some (i_state row) -> str_eqb (i_state row) (lit "finalizing") = false ->
  (match recheck_observation (injection_state plan) t with
   | Checking => _ ← on_tables (update_qbit_observation input t (lit "checking")); mret waiting
   | Settling => _ ← on_tables (update_qbit_observation input t (lit "recheck_settling")); mret waiting
   | WaitingForQueue => bump_or_fail input t now (mret waiting)
   | Inspect => decide_resume input plan h t
   end) w = (w', Ok (Waiting d)) ->
  exists row', the_row (w_tables w') = Some row' /\ watched row' /\
    waits_left row' + (if is_checking t then 0 else 1) <= waits_left row.
Proof.
  intros Hr Hw Hst Hf Hl. destruct (Hw) as [Hin Ha]. unfold MAX_FINAL_VERIFY_ATTEMPTS in Ha.
  rewrite Hst in Hl. unfold recheck_observation in Hl.
  destruct (is_checking t) eqn:Hc; [|destruct (str_mem (state t) _);
    [|destruct (str_eqb (i_state row) (lit "recheck_requested")) eqn:Hs]].
  - apply M_bind_Ok in Hl as (w1 & [] & Hu & [= <- _]). apply on_tables_Ok in Hu as (t1 & Hu & Hw1 & _).
    destruct (observation_row _ _ _ _ _ _ Hr Hu) as (row' & Hr' & Hs' & Ha').
    exists row'. rewrite Hw1. split; [done|]. split; [split; [rewrite Hs'; do 2 right; by left|by rewrite Ha']|].
    unfold waits_left. rewrite Hs', Ha', Hf. change (str_eqb (lit "checking") (lit "finalizing")) with false.
    change (str_eqb (lit "checking") (lit "recheck_requested")) with false. cbv iota.
    case_match; lia.
  - destruct (queue_waits _ _ _ _ _ _ Hr Hw Hl) as (row' & Hr' & Hw' & Hl').
    exists row'. split; [done|]. split; [done|]. lia.
  - apply M_bind_Ok in Hl as (w1 & [] & Hu & [= <- _]). apply on_tables_Ok in Hu as (t1 & Hu & Hw1 & _).
    destruct (observation_row _ _ _ _ _ _ Hr Hu) as (row' & Hr' & Hs' & Ha').
    exists row'. rewrite Hw1. split; [done|]. split; [split; [rewrite Hs'; do 1 right; by left|by rewrite Ha']|].
    unfold waits_left. rewrite Hs', Ha', Hf, Hs.
    change (str_eqb (lit "recheck_settling") (lit "finalizing")) with false.
    change (str_eqb (lit "recheck_settling") (lit "recheck_requested")) with false. cbv iota. lia.
  - destruct (str_mem (i_state row) _).
    + destruct (decide_waits _ _ _ _ _ _ _ Hr Hl) as (row' & Hr' & Hw' & Hl').
      exists row'. split; [done|]. split; [done|]. rewrite Hl'. unfold waits_left. rewrite Hf, Hs.
      unfold MAX_FINAL_VERIFY_ATTEMPTS. lia.
    + destruct (queue_waits _ _ _ _ _ _ Hr Hw Hl) as (row' & Hr' & Hw' & Hl').
      exists row'. split; [done|]. split; [done|]. lia.
Qed.

Lemma observe_waits now w w' d row :
  the_row (w_tables w) = Some row -> watched row ->
  observe catalogue configured input now w = (w', Ok (Waiting d)) ->
  exists row', the_row (w_tables w') = Some row' /\ watched row' /\
    waits_left row' + (if sees_checking catalogue input w then 0 else 1) <= waits_left row.
Proof.
  intros Hr Hw Ho. unfold observe in Ho.
  apply M_bind_Ok in Ho as (w1 & plan & Hl & Ho). apply on_tables_Ok in Hl as (t1 & Hl & Hw1 & Hq1).
  injection Hl as <- Hl. pose proof (load_state _ _ Hl) as Hst. rewrite Hr in Hst. cbn in Hst.
  destruct (negb configured); [by apply fail_not_waiting in Ho|].
  apply M_bind_Ok in Ho as (w2 & h & Hh & Ho). unfold liftr in Hh. injection Hh as <- Hh.
  apply M_bind_Ok in Ho as (w3 & t & Ht & Ho). apply ask_Ok in Ht as [Hw3 Ht].
  destruct t as [t|]; [|by apply fail_not_waiting in Ho].
  assert (sees_checking catalogue input w = is_checking t) as ->.
  { unfold sees_checking. rewrite Hl, Hh, <- Hq1, Ht. done. }
  rewrite Hw1 in Hw3. rewrite <- Hw3 in Hr. rewrite Hst in Ho.
  destruct (str_eqb (i_state row) (lit "finalizing")) eqn:Hf.
  - destruct (final_waits _ _ _ _ _ _ _ Hr Hw Ho) as (row' & Hr' & Hw' & Hl').
    exists row'. split; [done|]. split; [done|]. destruct (is_checking t); lia.
  - rewrite <- Hst in Ho. by eapply look_waits.
Qed.

Lemma observations_left c n w w' row :
  observations catalogue configured input c n w w' ->
  the_row (w_tables w) = Some row -> watched row ->
  0 <= waits_left row -> Z.of_nat n <= Z.of_nat c + waits_left row.
Proof.
  intros Hobs. revert row. induction Hobs as [w|c n w w1 w2 w3 now d Ht Ho _ IH]; intros row Hr Hw Hp; [lia|].
  rewrite <- Ht in Hr. destruct (observe_waits _ _ _ _ _ Hr Hw Ho) as (row' & Hr' & Hw' & Hl).
  assert (0 <= waits_left row') as Hp'.
  { destruct Hw' as [_ Ha]. unfold waits_left. repeat case_match; lia. }
  specialize (IH _ Hr' Hw' Hp'). destruct (sees_checking _ _ _); lia.
Qed.

Lemma recheck_watched now w w' d :
  is_Some (the_row (w_tables w)) ->
  recheck catalogue configured input now w = (w', Ok (Waiting d)) ->
  exists row, the_row (w_tables w') = Some row /\ watched row /\ waits_left row = 60.
Proof.
  intros [row Hr] Hp. unfold recheck in Hp.
  apply M_bind_Ok in Hp as (w1 & plan & Hl & Hp). apply on_tables_Ok in Hl as (t1 & Hl & Hw1 & _).
  injection Hl as <- _. destruct (negb configured); [by apply fail_not_waiting in Hp|].
  apply M_bind_Ok in Hp as (w2 & h & Hh & Hp). unfold liftr in Hh. injection Hh as <- _.
  apply M_bind_Ok in Hp as (w3 & [] & [= <-] & Hp).
  apply M_bind_Ok in Hp as (w4 & [] & Hq & Hp). apply ask_Ok in Hq as [Hq _]. cbn in Hq.
  apply M_bind_Ok in Hp as (w5 & [] & Hs & [= <- _]). apply on_tables_Ok in Hs as (t & Hs & Hw5 & _).
  rewrite Hq, Hw1 in Hs. unfold set_injection_state in Hs.
  apply M_bind_Ok in Hs as (t2 & [] & Hu & Hs).
  pose proof (update_row (fun i => with_state (lit "recheck_requested") (verification_attempts i) i) _ _ Hr) as Hr1.
  rewrite Hu in Hr1. cbn [fst] in Hr1. rewrite str_eqb_refl in Hs.
  pose proof (update_row (fun i => with_state (i_state i) 0 i) _ _ Hr1) as Hr2.
  rewrite Hs in Hr2. cbn [fst] in Hr2. rewrite Hw5. eexists. split; [exact Hr2|].
  split; [split; cbn [with_state i_state verification_attempts]; [by left|by split]|done].
Qed.

(** C34: Once the recheck is requested, a run does not observe forever.  Of the
    observations that end in another wait, at most sixty find the torrent not being
    checked, whatever qBittorrent answers and whatever else changes in between:
    the next one ends in an outcome or in an error. *)
Theorem observation_is_bounded now w0 w1 d c n w2 :
  is_Some (sporos_injection (w_tables w0) !! ii_plan_id input) ->
  perform catalogue configured Recheck input now w0 = (w1, Ok (Waiting d)) ->
  observations catalogue configured input c n w1 w2 ->
  (n <= c + 60)%nat.
Proof.
  intros Hr Hp Hobs. destruct (recheck_watched _ _ _ _ Hr Hp) as (row & Hrow & Hw & Hl).
  assert (Z.of_nat n <= Z.of_nat c + waits_left row) by (eapply observations_left; eauto; lia). lia.
Qed.
End Waits.

(** ** When links are made *)

Section Links.
Context `{Hardlink.FilesystemLaws} `{!HostDirectories} `{Qbittorrent} `{Json} `{InjectionCodec}.
Context (catalogue : Catalogue) (configured : bool) (input : InjectionInput).
#[local] Existing Instances Hardlink.grows_preorder Hardlink.extends_preorder.
#[local] Set Default Proof Using "All".

Lemma link_each_made m ns links acc s s' acc' r :
  link_each m ns links acc s = (s', (acc', r)) ->
  Hardlink.grows (Hardlink.link_root m) s s' /\
  (r = Ok () -> exists mls, acc' = acc ++ mls /\
     Forall2 (fun l ml => Hardlink.materialized m l ml s') links mls).
Proof.
  revert acc s. induction links as [|l links IH]; intros acc s; cbn [link_each].
  - intros [= <- <- <-]. split; [reflexivity|]. exists []. by rewrite app_nil_r.
  - destruct (Hardlink.hoare_materialize m ns [l] s I) as [Hg Hq].
    destruct (Hardlink.materialize m ns [l] s) as [s1 [mls|e]]; cbn in *.
    + intros Hl. destruct (IH _ _ Hl) as [Hg' Hr]. split; [by etransitivity|].
      intros Hok. destruct (Hr Hok) as (mls' & -> & Hall).
      apply Forall2_cons_inv_l in Hq as (ml & ? & Hml & Hnil & ->).
      apply Forall2_nil_inv_l in Hnil as ->. exists (ml :: mls'). rewrite <- app_assoc.
      split; [done|]. constructor; [|done]. destruct Hg' as [He _].
      by eapply Hardlink.materialized_mono.
    + by intros [= <- _ <-].
Qed.

Definition keeps_fs {A} (m : M World InjectionError A) : Prop :=
  forall w, w_fs (m w).1 = w_fs w.

Lemma on_tables_fs {A} (m : M Tables InjectionError A) : keeps_fs (on_tables m).
Proof. intros w. unfold on_tables. by destruct (m (w_tables w)). Qed.
Lemma on_tables_same_fs {A} (m : M Tables InjectionError A) w w' r :
  on_tables m w = (w', r) -> w_fs w' = w_fs w.
Proof. intros Hm. pose proof (on_tables_fs m w) as Hf. by rewrite Hm in Hf. Qed.
Lemma on_db_fs {E A} wrap (m : M Db E A) : keeps_fs (on_db wrap m).
Proof. intros w. unfold on_db. by destruct (m (w_db w)). Qed.
Lemma bind_fs {A B} (m : M World InjectionError A) (f : A -> M World InjectionError B) :
  keeps_fs m -> (forall a, keeps_fs (f a)) -> keeps_fs (m ≫= f).
Proof.
  intros Hm Hf w. unfold mbind, M_bind. specialize (Hm w).
  destruct (m w) as [w1 [a|e]]; cbn in *; [|done]. by rewrite Hf.
Qed.

Lemma fail_fs reason now : keeps_fs (fail input reason now).
Proof.
  unfold fail, fail_injection, project_candidate_state.
  repeat (apply bind_fs; [|intros ?]); try apply on_tables_fs; [apply on_db_fs|by intros w].
Qed.

Lemma fail_not_ready reason now w : (fail input reason now w).2 <> Ok Ready.
Proof.
  unfold fail, mbind, M_bind. by destruct (fail_injection input reason now w) as [? [?|?]].
Qed.

Lemma bind_cases {A B} (P : World * result InjectionError B -> Prop)
    (m : M World InjectionError A) (f : A -> M World InjectionError B) w :
  (forall w1 e, m w = (w1, Err e) -> P (w1, Err e)) ->
  (forall w1 a, m w = (w1, Ok a) -> P (f a w1)) -> P ((m ≫= f) w).
Proof. intros He Ho. unfold mbind, M_bind. destruct (m w) as [w1 [a|e]]; auto. Qed.

(** The torrent [t] may have links made under it. *)
Definition held (plan : InjectionPlan) (t : TorrentState) : Prop :=
  is_stopped t = true /\ auto_tmm t = false /\ same_save_path (save_path t) (save_path_remote plan) = true.

(** The next computation changes nothing that the file system shows. *)
Ltac unchanged errors := apply bind_cases; [by intros w1 e [= <- _]; apply errors|].

(** C33: The injection touches the file system only while the torrent is held: it was
    just seen stopped, not managed automatically, with the save path of the plan.
    Then nothing is removed or replaced and entries appear only beneath the link
    root of the plan's policy, also when linking stops half-way.  The stage is
    ready only when every mapped file of the plan is linked to an inode with the
    identity its source had. *)
Theorem links_only_while_stopped now w :
  let '(w', r) := perform catalogue configured MaterializeLinks input now w in
  (w_fs w' = w_fs w /\ r <> Ok Ready) \/
  exists plan h t links materializer,
    load_injection catalogue input (w_tables w) = Ok plan /\ plan_hash plan = Ok h /\
    (torrent_state h (w_qbit w)).2 = Ok (Some t) /\ held plan t /\
    planned_links plan = Ok links /\
    Hardlink.open (namespace_local_root (policy plan)) (w_fs w) = Ok materializer /\
    Hardlink.grows (Hardlink.link_root materializer) (w_fs w) (w_fs w') /\
    (r = Ok Ready -> exists mls,
       Forall2 (fun l ml => Hardlink.materialized materializer l ml (w_fs w')) links mls).
Proof.
  pattern (perform catalogue configured MaterializeLinks input now w).
  match goal with |- ?P0 _ => set (P := P0) end.
  assert (forall w1 e, w_fs w1 = w_fs w -> P (w1, Err e)) as Herr by (intros w1 e Hw1; by left).
  assert (forall reason w1, w_fs w1 = w_fs w -> P (fail input reason now w1)) as Hfail.
  { intros reason w1 Hw1. pose proof (fail_fs reason now w1) as Hf.
    pose proof (fail_not_ready reason now w1) as Hr. unfold P.
    destruct (fail input reason now w1) as [w2 r]. left. cbn in *. by rewrite Hf. }
  cbn [perform]. unfold materialize.
  unchanged Herr. intros w1 plan [= <- Hl].
  destruct (negb configured); [by apply Hfail|].
  unchanged Herr. intros w1 h [= <- Hh].
  apply bind_cases; unfold ask; cbn [w_qbit];
    destruct (torrent_state h (w_qbit w)) as [q t] eqn:Ht; [by intros w1 e [= <- _]; apply Herr|].
  intros w1 t' [= <- Ht']. destruct t as [t|]; [|done]. injection Ht' as ->.
  destruct t' as [t|]; [|by apply Hfail].
  destruct (_ || _ || _) eqn:Hheld; [by apply Hfail|].
  assert (held plan t) as Hh'.
  { apply orb_false_iff in Hheld as [[Hs Ha]%orb_false_iff Hp].
    by apply negb_false_iff in Hs, Hp. }
  unchanged Herr. intros w1 ns [= <- Hns].
  destruct (planned_links plan) as [links|e] eqn:Hlinks;
    [|by destruct e; first [by apply Hfail | by apply Herr]].
  unchanged Herr. intros w1 m [= <- Hm].
  destruct m as [m|e]; [|by apply Hfail].
  unchanged Herr. intros w1 [] [= <-].
  unfold on_fs at 1. apply bind_cases; cbn [w_fs].
  { intros w1 e. by destruct (link_each m ns links [] (w_fs w)). }
  destruct (link_each m ns links [] (w_fs w)) as [s1 [acc outcome]] eqn:Hlink.
  intros w1 ? [= <- <-]. destruct (link_each_made _ _ _ _ _ _ _ _ Hlink) as [Hg Hr].
  assert (forall w2 r, w_fs w2 = s1 -> (r = Ok Ready -> outcome = Ok ()) -> P (w2, r)) as Hmade.
  { intros w2 r Hw2 Hok. right. exists plan, h, t, links, m. rewrite Hw2, Ht.
    do 7 (split; [done|]). intros Hready. destruct (Hr (Hok Hready)) as (mls & _ & Hall). by exists mls. }
  apply bind_cases.
  { intros w2 e Hp. apply Hmade; [|done]. by apply on_tables_same_fs in Hp. }
  intros w2 [] Hp. apply on_tables_same_fs in Hp as Hw2.
  destruct outcome as [[]|e]; [by apply Hmade|].
  pose proof (fail_not_ready (materialize_reason e) now w2) as Hnr.
  pose proof (fail_fs (materialize_reason e) now w2) as Hfs.
  destruct (fail input _ now w2) as [w3 r]. cbn in *. apply Hmade; [by rewrite Hfs|done].
Qed.
End Links.

(** ** A run on sample components *)

Module Sample.
Import Hardlink.MemFs.

(** qBittorrent with one torrent and its pieces. *)
#[export] Instance sample_qbit : Qbittorrent := {|
  qbit := option TorrentState * Pieces.PieceReader;
  validate_contract q := (q, Ok ());
  torrent_state h q := (q, Ok q.1);
  add_stopped r q :=
    ((Some (mkTorrentState (lit "01") (filename r) (lit "stoppedDL") 0 (S754_zero false)
              (ar_save_path r) (ar_save_path r) [] [] false), q.2), Ok ());
  stop h q := (q, Ok ());
  start h q :=
    ((option_map (fun t => mkTorrentState (hash t) (name t) (lit "stalledUP") (amount_left t) (progress t)
        (save_path t) (content_path t) [] [] false) q.1, q.2), Ok ());
  force_recheck h q := (q, Ok ());
  piece_states h q := (q, Ok q.2) |}.

#[export] Instance sample_directories : HostDirectories :=
  {| create_dir_all path s := (s, Ok ()) |}.

Definition sample_manifest : TorrentManifest :=
  mkTorrentManifest (mkInfoHashes (Some [1]) None) [mkTorrentFile 0 (lit "a.mkv") 10 false]
    (Some 4) [mkTorrentPieceFile (Some 0) 0 10].

Definition sample_input : InjectionInput :=
  mkInjectionInput (lit "task") (lit "cand") (lit "policy") (lit "plan").

#[export] Instance sample_codec : InjectionCodec := {|
  decode_manifest _ := Some sample_manifest;
  decode_policy _ := Some (mkCandidatePolicy default_policy (mkSourceFilters [] [] [] [] true) 1000
    (mkInjectionConfig false [] [] false false Pieces.CompleteOnly) (lit "/links") (lit "/remote") []);
  decode_resume _ := Some Pieces.CompleteOnly;
  decode_tags _ := Some [];
  decode_input _ := Some sample_input |}.

Definition sample_catalogue : Catalogue := {|
  sporos_injection_plan := {[lit "plan" := mkPlanRow (lit "match") (lit "cand") (lit "/links/ns")
    (lit "/remote/ns") [] [] []]};
  sporos_candidate := {[lit "cand" := mkCandidateRow (lit "sha") (Some [])]};
  sporos_blob := {[lit "sha" := []]};
  sporos_candidate_task := {[(lit "cand", lit "policy") := lit "task"]};
  policy_payload := {[lit "policy" := []]};
  sporos_file_mapping := {[(lit "match", 0) := mkMappingRow 7 (lit "release/a.mkv")]};
  sporos_source_file := {[7 := mkSourceFileRow (lit "data") (lit "a") (Some (lit "/src/a")) 10 None (Some 2)]};
  sporos_qbit_torrent := ∅;
  sporos_data_source := {[lit "data"]} |}.

Definition sample_world : World :=
  mkWorld empty_db
    (mkTables ∅ {[lit "plan" := lit "planned"]} {[lit "cand" := lit "accepted"]} ∅)
    disk (None, Pieces.mkReader [2; 2; 2] (Ok ())) [].

Definition sample_run (fuel : nat) : Phase * World :=
  run sample_catalogue true fuel sample_input (fun _ => []) 5 Prepare sample_world.

Definition h01 : str := lit "01".
Definition good_pieces : Pieces.PieceReader := Pieces.mkReader [2; 2; 2] (Ok ()).

Lemma sample_run_calls :
  w_calls (sample_run 8).2
  = [CAdd [h01]; CLink h01; CRecheck h01; CPieces h01 good_pieces] ++ CStart h01 :: [].
Proof. vm_compute. reflexivity. Qed.

Lemma sample_run_reaches :
  rtc (run_step sample_catalogue true sample_input) (Running Prepare, sample_world)
    ((sample_run 8).1, (sample_run 8).2).
Proof. rewrite <- (surjective_pairing (sample_run 8)). apply run_steps. Qed.

Lemma never_resumes_over_linked_files_witness :
  w_calls (sample_run 8).2
  = [CAdd [h01]; CLink h01; CRecheck h01; CPieces h01 good_pieces] ++ CStart h01 :: [] /\
  exists a reader b,
    [CAdd [h01]; CLink h01; CRecheck h01; CPieces h01 good_pieces] = a ++ CPieces h01 reader :: b /\
    CRecheck h01 ∈ a /\ CRecheck h01 ∉ b /\ passes sample_catalogue sample_input h01 reader.
Proof.
  split; [exact sample_run_calls|].
  exact (never_resumes_over_linked_files sample_catalogue true sample_input sample_world
    (sample_run 8).1 (sample_run 8).2 _ h01 [] eq_refl sample_run_reaches sample_run_calls).
Defined.

Definition requested : World := (perform sample_catalogue true Recheck sample_input 5 (sample_run 3).2).1.
Definition settled : World := (perform sample_catalogue true Observe sample_input 5 requested).1.
Definition decided : World := (perform sample_catalogue true Observe sample_input 5 settled).1.

Definition is_result (expected : StepResult) (r : result InjectionError StepResult) : bool :=
  match r, expected with
  | Ok (Waiting d), Waiting d' => d =? d'
  | Ok Ready, Ready => true
  | _, _ => false
  end.

Lemma is_result_Ok expected r : is_result expected r = true -> r = Ok expected.
Proof. destruct r as [[|d|]|], expected as [|d'|]; try done. cbn. by intros ->%Z.eqb_eq. Qed.

Lemma observation_step w c n w3 :
  is_result waiting (perform sample_catalogue true Observe sample_input 5 w).2 = true ->
  sees_checking sample_catalogue sample_input w = false ->
  observations sample_catalogue true sample_input c n
    (perform sample_catalogue true Observe sample_input 5 w).1 w3 ->
  observations sample_catalogue true sample_input c (S n) w w3.
Proof.
  intros Hp Hs Ho. replace c with (if sees_checking sample_catalogue sample_input w then S c else c)
    by (by rewrite Hs).
  apply (observations_more _ _ _ c n w w
    (perform sample_catalogue true Observe sample_input 5 w).1 w3 5 POLL_DELAY_MS eq_refl); [|exact Ho].
  rewrite (surjective_pairing (perform _ _ _ _ _ w)). by rewrite (is_result_Ok _ _ Hp).
Qed.

Lemma sample_observations : observations sample_catalogue true sample_input 0 2 requested decided.
Proof.
  apply observation_step; [vm_compute; reflexivity..|].
  apply observation_step; [vm_compute; reflexivity..|]. apply observations_none.
Qed.

Lemma sample_row : is_Some (sporos_injection (w_tables (sample_run 3).2) !! ii_plan_id sample_input).
Proof. vm_compute. by eexists. Qed.

Lemma sample_recheck :
  perform sample_catalogue true Recheck sample_input 5 (sample_run 3).2 = (requested, Ok (Waiting POLL_DELAY_MS)).
Proof.
  rewrite (surjective_pairing (perform _ _ _ _ _ (sample_run 3).2)).
  apply (f_equal (pair requested)), is_result_Ok. vm_compute. reflexivity.
Qed.

Lemma observation_is_bounded_witness :
  observations sample_catalogue true sample_input 0 2 requested decided /\ (2 <= 0 + 60)%nat.
Proof.
  split; [exact sample_observations|].
  exact (observation_is_bounded sample_catalogue true sample_input 5 (sample_run 3).2 requested POLL_DELAY_MS
    0 2 decided sample_row sample_recheck sample_observations).
Defined.

Lemma links_only_while_stopped_witness :
  (perform sample_catalogue true MaterializeLinks sample_input 5 (sample_run 2).2).2 = Ok Ready /\
  exists materializer, Hardlink.grows (Hardlink.link_root materializer) (w_fs (sample_run 2).2)
    (w_fs (perform sample_catalogue true MaterializeLinks sample_input 5 (sample_run 2).2).1).
Proof.
  assert ((perform sample_catalogue true MaterializeLinks sample_input 5 (sample_run 2).2).2 = Ok Ready)
    as Hready by (apply is_result_Ok; vm_compute; reflexivity).
  split; [exact Hready|].
  pose proof (links_only_while_stopped sample_catalogue true sample_input 5 (sample_run 2).2) as Hl.
  destruct (perform sample_catalogue true MaterializeLinks sample_input 5 (sample_run 2).2) as [w' r].
  cbn [fst snd] in *. destruct Hl as [[_ Hne]|(plan & h & t & links & m & _ & _ & _ & _ & _ & _ & Hg & _)].
  - by destruct (Hne Hready).
  - by exists m.
Defined.
End Sample.
