(* ===== verification/Library.v ===== *)
(** The tables of the library (migrations/0003, 0004, 0007, 0008, 0009, 0013): the
    torrents and data directories that the program knows, their files and facts, the
    candidates, and the decisions and plans made on them.

    The database of the task protocol (Store.v) is the field [tasks].  Columns that
    nothing modelled reads are left out.  A column of JSON that only this program
    writes is kept as what it encodes ([qt_tags]).  The codecs of the other JSON
    columns are the interface [CandidateCodec]. *)

From S2P Require Import Prelude Text Model Store Candidate.
From stdpp Require Import strings.
Local Open Scope Z_scope.

(** ** Rows *)

Record CandidateRow := mkCandidateRow {
  cd_blob_sha256 : str; cd_v1_hash : option str; cd_v2_hash : option str;
  cd_manifest_digest : str; cd_display_name : str; cd_release_json : str; cd_state : str;
  cd_created_at : Z; cd_updated_at : Z; cd_manifest_json : option str }.

Record ProvenanceRow := mkProvenanceRow {
  pv_candidate_id : str; pv_trigger : str; pv_indexer_id : option Z; pv_indexer_name : option str;
  pv_announcement_name : option str; pv_request_id : str; pv_received_at : Z; pv_detail_json : str }.

(** The columns derived from the release name. *)
Record ReleaseColumns := mkReleaseColumns {
  rc_normalized_title : str; rc_video_kind : str; rc_release_year : option Z;
  rc_season : option Z; rc_episode : option Z; rc_episode_end : option Z;
  rc_absolute_episode : option Z; rc_air_date : option str }.

Record QbitRow := mkQbitRow {
  qt_qbit_id : option str; qt_v1_hash : option str; qt_v2_hash : option str;
  qt_name : str; qt_total_size : Z; qt_amount_left : Z; qt_progress_ppm : Z; qt_state : str;
  qt_save_path : str; qt_content_path : str; qt_category : str; qt_tags : list str;
  qt_is_complete : bool; qt_available : bool; qt_manifest_version : Z; qt_manifest_state : str;
  qt_fingerprint : option str; qt_added_at : option Z; qt_completed_at : option Z;
  qt_release_json : option str; qt_release : option ReleaseColumns;
  qt_generation : Z; qt_updated_at : Z }.

Record DataSourceRow := mkDataSourceRow {
  dt_root_name : str; dt_relative_path : str; dt_kind : str; dt_name : str; dt_total_size : Z;
  dt_release_json : option str; dt_normalized_title : option str; dt_available : bool;
  dt_generation : Z; dt_updated_at : Z }.

Record SourceFileRow := mkSourceFileRow {
  sf_source_id : str; sf_manifest_version : Z; sf_ordinal : Z; sf_display_path : str;
  sf_local_path : option str; sf_size : Z; sf_device : option Z; sf_inode : option Z;
  sf_available : bool }.

Record MatchRow := mkMatchRow {
  mt_candidate_id : str; mt_mode : option str; mt_outcome : str; mt_reason_code : str;
  mt_mapped_bytes : Z; mt_missing_bytes : Z; mt_present_ratio_ppm : Z; mt_evidence_json : str;
  mt_decision_digest : str; mt_created_at : Z }.

Record MappingRow := mkMappingRow {
  mp_source_id : str; mp_source_file_id : Z; mp_candidate_path : str; mp_size : Z; mp_score : Z }.

Record PlanRow := mkPlanRow {
  pl_match_id : str; pl_candidate_id : str; pl_namespace_local : str; pl_save_path_remote : str;
  pl_category : str; pl_tags_json : str; pl_resume_policy_json : str; pl_digest : str;
  pl_state : str; pl_created_at : Z }.

(** The row of [sporos_qbit_inventory_state]. *)
Record InventoryRow := mkInventoryRow {
  iv_response_id : option Z; iv_generation : Z; iv_baseline_at : option Z;
  iv_last_success_at : option Z; iv_last_full_reconcile_at : option Z;
  iv_reconcile_requested_at : option Z; iv_application_version : option str;
  iv_web_api_version : option str }.

#[export] Instance ReleaseColumns_eq_dec : EqDecision ReleaseColumns.
Proof. solve_decision. Defined.
#[export] Instance QbitRow_eq_dec : EqDecision QbitRow.
Proof. solve_decision. Defined.

(** ** The library *)

Record Library := mkLibrary {
  tasks : Db;
  sporos_blob : gmap str str;
  sporos_candidate : gmap str CandidateRow;
  sporos_candidate_task : gmap (str * str) str;
  sporos_candidate_provenance : gmap Z ProvenanceRow;
  sporos_qbit_torrent : gmap str QbitRow;
  sporos_qbit_inventory_state : InventoryRow;
  sporos_data_source : gmap str DataSourceRow;
  sporos_source_file : gmap Z SourceFileRow;
  sporos_source_title : gset (str * str * str);
  sporos_source_external_id : gset (str * str * (str * str));
  sporos_waiting_source : gmap (str * str) Z;
  sporos_match : gmap str MatchRow;
  sporos_file_mapping : gmap (str * Z) MappingRow;
  sporos_injection_plan : gmap str PlanRow }.

(** What the acceptance of a candidate writes, apart from its task. *)
Record Intake := mkIntake {
  k_blob : gmap str str; k_candidate : gmap str CandidateRow;
  k_candidate_task : gmap (str * str) str; k_provenance : gmap Z ProvenanceRow }.

(** What a decision writes, apart from its task. *)
Record Verdict := mkVerdict {
  v_candidate : gmap str CandidateRow; v_waiting : gmap (str * str) Z; v_match : gmap str MatchRow;
  v_mapping : gmap (str * Z) MappingRow; v_plan : gmap str PlanRow }.

(** What the projection of an inventory writes. *)
Record Inventory := mkInventory {
  n_torrent : gmap str QbitRow; n_state : InventoryRow; n_data : gmap str DataSourceRow;
  n_file : gmap Z SourceFileRow; n_title : gset (str * str * str);
  n_external : gset (str * str * (str * str)) }.

Definition intake (db : Library) : Intake :=
  mkIntake (sporos_blob db) (sporos_candidate db) (sporos_candidate_task db)
    (sporos_candidate_provenance db).
Definition verdict (db : Library) : Verdict :=
  mkVerdict (sporos_candidate db) (sporos_waiting_source db) (sporos_match db)
    (sporos_file_mapping db) (sporos_injection_plan db).
Definition inventory (db : Library) : Inventory :=
  mkInventory (sporos_qbit_torrent db) (sporos_qbit_inventory_state db) (sporos_data_source db)
    (sporos_source_file db) (sporos_source_title db) (sporos_source_external_id db).

Definition with_intake (k : Intake) (db : Library) : Library :=
  mkLibrary (tasks db) (k_blob k) (k_candidate k) (k_candidate_task k) (k_provenance k)
    (sporos_qbit_torrent db) (sporos_qbit_inventory_state db) (sporos_data_source db)
    (sporos_source_file db) (sporos_source_title db) (sporos_source_external_id db)
    (sporos_waiting_source db) (sporos_match db) (sporos_file_mapping db)
    (sporos_injection_plan db).
Definition with_verdict (v : Verdict) (db : Library) : Library :=
  mkLibrary (tasks db) (sporos_blob db) (v_candidate v) (sporos_candidate_task db)
    (sporos_candidate_provenance db) (sporos_qbit_torrent db) (sporos_qbit_inventory_state db)
    (sporos_data_source db) (sporos_source_file db) (sporos_source_title db)
    (sporos_source_external_id db) (v_waiting v) (v_match v) (v_mapping v) (v_plan v).
Definition with_tasks (t : Db) (db : Library) : Library :=
  mkLibrary t (sporos_blob db) (sporos_candidate db) (sporos_candidate_task db)
    (sporos_candidate_provenance db) (sporos_qbit_torrent db) (sporos_qbit_inventory_state db)
    (sporos_data_source db) (sporos_source_file db) (sporos_source_title db)
    (sporos_source_external_id db) (sporos_waiting_source db) (sporos_match db)
    (sporos_file_mapping db) (sporos_injection_plan db).
Definition with_inventory (n : Inventory) (db : Library) : Library :=
  mkLibrary (tasks db) (sporos_blob db) (sporos_candidate db) (sporos_candidate_task db)
    (sporos_candidate_provenance db) (n_torrent n) (n_state n) (n_data n) (n_file n) (n_title n)
    (n_external n) (sporos_waiting_source db) (sporos_match db) (sporos_file_mapping db)
    (sporos_injection_plan db).
Definition with_torrents (q : gmap str QbitRow) (db : Library) : Library :=
  with_inventory (mkInventory q (sporos_qbit_inventory_state db) (sporos_data_source db)
    (sporos_source_file db) (sporos_source_title db) (sporos_source_external_id db)) db.

(** [UPDATE sporos_qbit_torrent SET file_manifest_state = ?] *)
Definition with_manifest_state (state : str) (row : QbitRow) : QbitRow :=
  mkQbitRow (qt_qbit_id row) (qt_v1_hash row) (qt_v2_hash row) (qt_name row) (qt_total_size row)
    (qt_amount_left row) (qt_progress_ppm row) (qt_state row) (qt_save_path row)
    (qt_content_path row) (qt_category row) (qt_tags row) (qt_is_complete row) (qt_available row)
    (qt_manifest_version row) state (qt_fingerprint row) (qt_added_at row) (qt_completed_at row)
    (qt_release_json row) (qt_release row) (qt_generation row) (qt_updated_at row).

(** [UPDATE sporos_candidate SET state = ?, updated_at = ?] *)
Definition with_candidate_state (state : str) (now : Z) (row : CandidateRow) : CandidateRow :=
  mkCandidateRow (cd_blob_sha256 row) (cd_v1_hash row) (cd_v2_hash row) (cd_manifest_digest row)
    (cd_display_name row) (cd_release_json row) state (cd_created_at row) now
    (cd_manifest_json row).

(** A transaction: [begin], the statements, and [commit]; an early return rolls back. *)
Definition atomically {S E A} (m : M S E A) : M S E A := fun db =>
  match m db with
  | (db', Ok a) => (db', Ok a)
  | (_, Err e) => (db, Err e)
  end.

(** ** The codecs of its JSON columns (serde); [None] is an error *)

Class CandidateCodec := {
  encode_manifest : TorrentManifest -> str;
  decode_manifest : str -> option TorrentManifest;
  encode_release : ReleaseDescriptor -> str;
  decode_release : str -> option ReleaseDescriptor;
  encode_policy : CandidatePolicy -> str;
  decode_policy : str -> option CandidatePolicy }.

(** What was written is read back. *)
Class CandidateCodecLaws `{CandidateCodec} : Prop := {
  manifest_roundtrip : forall m, decode_manifest (encode_manifest m) = Some m;
  release_roundtrip : forall r, decode_release (encode_release r) = Some r;
  policy_roundtrip : forall p, decode_policy (encode_policy p) = Some p }.

(** ** Identifiers: the first bytes of a digest *)

Definition first_16 (digest : str) : str := take 16 digest.

(** ** The invariant of the library

    The inventories name different sources; mappings belong to matches, provenance and
    tasks to candidates (foreign keys). *)
Record library_ok (db : Library) : Prop := {
  lo_sources : dom (sporos_qbit_torrent db) ## dom (sporos_data_source db);
  lo_mappings : forall mid o m, sporos_file_mapping db !! (mid, o) = Some m ->
                  is_Some (sporos_match db !! mid);
  lo_provenance : forall i p, sporos_candidate_provenance db !! i = Some p ->
                  is_Some (sporos_candidate db !! pv_candidate_id p);
  lo_candidate_task : forall c p t, sporos_candidate_task db !! (c, p) = Some t ->
                  is_Some (sporos_candidate db !! c) }.

Lemma with_intake_id db : with_intake (intake db) db = db.
Proof. by destruct db. Qed.
Lemma with_verdict_id db : with_verdict (verdict db) db = db.
Proof. by destruct db. Qed.
Lemma with_inventory_id db : with_inventory (inventory db) db = db.
Proof. by destruct db. Qed.
Lemma with_tasks_id db : with_tasks (tasks db) db = db.
Proof. by destruct db. Qed.
#[export] Hint Rewrite with_intake_id with_verdict_id with_inventory_id with_tasks_id : sporos.

Lemma atomically_Ok {S E A} (m : M S E A) db db' a :
  atomically m db = (db', Ok a) <-> m db = (db', Ok a).
Proof. unfold atomically. destruct (m db) as [? [?|?]]; naive_solver. Qed.

Lemma atomically_Err {S E A} (m : M S E A) db db' e :
  atomically m db = (db', Err e) -> db' = db.
Proof. unfold atomically. destruct (m db) as [? [?|?]]; naive_solver. Qed.

Lemma hoare_atomically {S E A} (R : relation S) `{!PreOrder R} P (m : M S E A) Q :
  hoare R P m Q -> hoare R P (atomically m) Q.
Proof.
  intros Hm db Hdb. specialize (Hm db Hdb). unfold atomically. destruct (m db) as [db' [a|e]]; [done|].
  cbn. split; [reflexivity|done].
Qed.
