(* ===== verification/Codec.v ===== *)
(** A concrete codec of the library's JSON columns, which shows that the laws of
    [CandidateCodec] can hold: every value is written as a list of numbers with the
    lengths it needs to be read back.  It stands in for serde_json in examples. *)

From S2P Require Import Prelude Text Float Model Store Candidate Library.
From S2P Require Paths Pieces.
Local Open Scope Z_scope.

(** ** Values that are written and read back *)

Class Serial (A : Type) := {
  put : A -> list Z;
  get : list Z -> option (A * list Z);
  get_put : forall a s, get (put a ++ s) = Some (a, s) }.

#[export] Program Instance serial_Z : Serial Z := {|
  put z := [z]; get s := match s with z :: s => Some (z, s) | [] => None end |}.
Next Obligation. done. Qed.

#[export] Program Instance serial_bool : Serial bool := {|
  put b := [if b then 1 else 0];
  get s := match s with z :: s => Some (z =? 1, s) | [] => None end |}.
Next Obligation. by intros []. Qed.

#[export] Program Instance serial_pair {A B} `{Serial A, Serial B} : Serial (A * B) := {|
  put p := put p.1 ++ put p.2;
  get s := '(a, s) ← get s; '(b, s) ← get s; Some ((a, b), s) |}.
Next Obligation.
  intros A B SA SB [a b] s. cbn [fst snd]. rewrite <- app_assoc, get_put. cbn. by rewrite get_put.
Qed.

#[export] Program Instance serial_option {A} `{Serial A} : Serial (option A) := {|
  put o := match o with None => [0] | Some a => 1 :: put a end;
  get s := match s with
           | [] => None
           | z :: s => if z =? 0 then Some (None, s) else '(a, s) ← get s; Some (Some a, s)
           end |}.
Next Obligation. intros A S [a|] s; [|done]. cbn. by rewrite get_put. Qed.

Fixpoint get_list {A} `{Serial A} (n : nat) (s : list Z) : option (list A * list Z) :=
  match n with
  | O => Some ([], s)
  | S n => '(a, s) ← get s; '(l, s) ← get_list n s; Some (a :: l, s)
  end.

#[export] Program Instance serial_list {A} `{Serial A} : Serial (list A) := {|
  put l := Z.of_nat (length l) :: concat (map put l);
  get s := match s with [] => None | n :: s => get_list (Z.to_nat n) s end |}.
Next Obligation.
  intros A S l s. cbn. rewrite Nat2Z.id. induction l as [|a l IH]; [done|]. cbn.
  rewrite <- app_assoc, get_put. cbn. by rewrite IH.
Qed.

(** A type that is a part of another one *)
Definition serial_via {A B} `{Serial B} (f : A -> B) (g : B -> A) (Hgf : forall a, g (f a) = a) : Serial A.
Proof.
  refine {| put a := put (f a); get s := '(b, s) ← get s; Some (g b, s) |}.
  intros a s. rewrite get_put. cbn. by rewrite Hgf.
Defined.

(** ** The types of the columns *)

#[export] Instance serial_kind : Serial VideoKind.
Proof.
  refine (serial_via
    (fun k => match k with Movie => 0 | Episode => 1 | SeasonPack => 2 | DateEpisode => 3
                      | AbsoluteEpisode => 4 | Disc => 5 | UnknownVideo => 6 end)
    (fun z => if z =? 0 then Movie else if z =? 1 then Episode else if z =? 2 then SeasonPack else
              if z =? 3 then DateEpisode else if z =? 4 then AbsoluteEpisode else
              if z =? 5 then Disc else UnknownVideo) _).
  by intros [].
Defined.

#[export] Instance serial_date : Serial Date.
Proof.
  refine (serial_via (fun d => (date_year d, date_month d, date_day d))
            (fun '(y, m, d) => mkDate y m d) _). by intros [].
Defined.

#[export] Instance serial_arr : Serial ArrIdentity.
Proof.
  refine (serial_via
    (fun a => (match arr_kind a with ArrMovie => true | ArrSeries => false end, arr_instance a,
               arr_entity_id a, arr_tvdb_id a, arr_tmdb_id a, arr_imdb_id a))
    (fun '(k, i, e, tv, tm, im) => mkArrIdentity (if k : bool then ArrMovie else ArrSeries) i e tv tm im) _).
  by intros [[] ? ? ? ? ?].
Defined.

#[export] Instance serial_release : Serial ReleaseDescriptor.
Proof.
  refine (serial_via
    (fun r => ((rd_kind r, rd_primary_title r : str, rd_alternate_titles r : list str, rd_year r,
                rd_season r, rd_episode r, rd_episode_end r, rd_absolute_episode r, rd_air_date r),
               (rd_edition r, rd_source r, rd_resolution r, rd_video_codec r, rd_hdr r, rd_audio r,
                rd_release_group r, rd_arr_identity r)))
    (fun '((a, b, c, d, e, f, g, h, i), (j, k, l, m, n, o, p, q)) =>
       mkReleaseDescriptor a b c d e f g h i j k l m n o p q) _). by intros [].
Defined.

#[export] Instance serial_hashes : Serial InfoHashes.
Proof.
  refine (serial_via (fun h => (ih_v1 h, ih_v2 h)) (fun '(a, b) => mkInfoHashes a b) _). by intros [].
Defined.
#[export] Instance serial_torrent_file : Serial TorrentFile.
Proof.
  refine (serial_via (fun f => (tf_ordinal f, tf_path f, tf_size f, tf_padding f))
            (fun '(a, b, c, d) => mkTorrentFile a b c d) _). by intros [].
Defined.
#[export] Instance serial_piece_file : Serial TorrentPieceFile.
Proof.
  refine (serial_via (fun f => (tpf_file_ordinal f, tpf_offset f, tpf_size f))
            (fun '(a, b, c) => mkTorrentPieceFile a b c) _). by intros [].
Defined.
#[export] Instance serial_manifest : Serial TorrentManifest.
Proof.
  refine (serial_via (fun m => (tm_hashes m, tm_files m, tm_piece_length m, tm_piece_files m))
            (fun '(a, b, c, d) => mkTorrentManifest a b c d) _). by intros [].
Defined.

#[export] Instance serial_float : Serial spec_float.
Proof.
  refine (serial_via
    (fun f => match f with
              | S754_zero s => (0, s, 1, 0) | S754_infinity s => (1, s, 1, 0) | S754_nan => (2, true, 1, 0)
              | S754_finite s m e => (3, s, Z.pos m, e) end)
    (fun '(k, s, m, e) => if k =? 0 then S754_zero s else if k =? 1 then S754_infinity s else
       if k =? 2 then S754_nan else S754_finite s (Z.to_pos m) e) _).
  by intros [].
Defined.
#[export] Instance serial_matching : Serial MatchingPolicy.
Proof.
  refine (serial_via
    (fun p => (mp_allow_flexible p, mp_allow_partial p, mp_allow_season_from_episodes p,
               mp_primary_video_extensions p, mp_optional_extensions p, mp_optional_path_components p,
               mp_max_assignment_files p, mp_max_candidate_edges p, mp_max_assignment_component_files p,
               mp_max_assignment_operations p))
    (fun '(a, b, c, d, e, f, g, h, i, j) => mkMatchingPolicy a b c d e f g h i j) _). by intros [].
Defined.
#[export] Instance serial_filters : Serial SourceFilters.
Proof.
  refine (serial_via
    (fun f => (include_categories f, exclude_categories f, include_tags f, exclude_tags f,
               exclude_sporos_managed f))
    (fun '(a, b, c, d, e) => mkSourceFilters a b c d e) _). by intros [].
Defined.
#[export] Instance serial_resume : Serial Pieces.ResumePolicy.
Proof.
  refine (serial_via
    (fun r => match r with
              | Pieces.Never => (0, None, None, true)
              | Pieces.CompleteOnly => (1, None, None, true)
              | Pieces.Threshold b p c =>
                  (2, b, p, match c with Pieces.And => true | Pieces.Or => false end)
              | Pieces.Always => (3, None, None, true)
              end)
    (fun '(k, b, p, c) =>
       if k =? 0 then Pieces.Never else if k =? 1 then Pieces.CompleteOnly else
       if k =? 2 then Pieces.Threshold b p (if c : bool then Pieces.And else Pieces.Or)
       else Pieces.Always) _).
  by intros [| |? ? []|].
Defined.
#[export] Instance serial_injection : Serial InjectionConfig.
Proof.
  refine (serial_via
    (fun c => (dry_run c, category_template c, tag_templates c, inherit_source_category c,
               inherit_source_tags c, resume_policy c))
    (fun '(a, b, c, d, e, f) => mkInjectionConfig a b c d e f) _). by intros [].
Defined.
#[export] Instance serial_rewrite : Serial Paths.PathRewrite.
Proof.
  refine (serial_via
    (fun r => (Paths.pw_name r, Paths.remote r, Paths.local r, Paths.services r))
    (fun '(a, b, c, d) => Paths.mkPathRewrite a b c d) _). by intros [].
Defined.
#[export] Instance serial_policy : Serial CandidatePolicy.
Proof.
  refine (serial_via
    (fun p => (matching p, source_filters p, pending_source_timeout_ms p, injection p,
               namespace_local_root p, save_path_remote_root p, path_rewrites p))
    (fun '(a, b, c, d, e, f, g) => mkCandidatePolicy a b c d e f g) _). by intros [].
Defined.

(** ** The codec *)

#[export] Instance sample_candidate_codec : CandidateCodec := {|
  encode_manifest := put; decode_manifest s := fst <$> get s;
  encode_release := put; decode_release s := fst <$> get s;
  encode_policy := put; decode_policy s := fst <$> get s |}.

#[export] Instance sample_candidate_codec_laws : CandidateCodecLaws.
Proof.
  split; intros x; cbn [encode_manifest decode_manifest encode_release decode_release encode_policy
    decode_policy sample_candidate_codec]; by rewrite <- (app_nil_r (put x)), get_put.
Qed.
