(* ===== verification/Accept.v ===== *)
(** The acceptance of a candidate (candidate.rs): a torrent file is parsed and
    described, and its bytes, its description, its policy, its task and where it came
    from are stored in one transaction.  The identifiers are digests of the content, so
    the same torrent under the same policy is the same candidate and the same task.

    The bencode decoder and the metainfo parser are third-party crates and parameters,
    as in Torrent.v.  Log lines are left out. *)

From S2P Require Import Prelude Text Float Model Store Duroxide Candidate Library.
From S2P Require Release Torrent Ingress Retry Paths.
From stdpp Require Import strings.
Local Open Scope Z_scope.

(** ** Data *)

Definition ORCHESTRATION_NAME : str := lit "ProcessCandidate".
Definition ORCHESTRATION_VERSION : str := lit "1.0.0".

(** [config::Matching]; the timeout is a [Duration] in nanoseconds. *)
Record Matching := mkMatching {
  mt_policy : MatchingPolicy; preflight_size_tolerance : spec_float; max_torrent_bytes : Z;
  max_files_per_torrent : Z; max_path_bytes : Z; pending_source_timeout : Z }.

Record CandidateSubmission := mkSubmission {
  cs_bytes : str; announcement_name : option str; indexer : option str; indexer_id : option Z;
  trigger : str; release_hint : option ReleaseDescriptor; cs_category : option str;
  cs_tags : list str; request_id : str; cs_dry_run : bool; received_at : Z }.

Record AcceptedCandidate := mkAccepted { ac_candidate_id : str; ac_task_id : str; ac_duplicate : bool }.

Record CandidateIngress := mkCandidateIngress {
  ci_matching : Matching; ci_source_filters : SourceFilters; ci_injection : InjectionConfig;
  ci_paths : Paths.Paths }.

Inductive CandidateError :=
| TorrentTooLarge
| TooManyFiles
| PathTooLong
| InvalidUtf8Name
| InvalidUtf8Path
| TorrentError (e : Torrent.TorrentParseError)
| CaDatabase (e : SqlError)
| CaIngress (e : Ingress.DurableIngressError)
| BlobCollision
| CandidateCollision
| CandidateTaskCollision
| UnmappedLinkRoot.

(** serde's encoders of what only the acceptance writes *)
Class IntakeCodec := {
  encode_input : CandidateWorkflowInput -> str;
  (** [json!] of [category] and [tags] *)
  encode_detail : option str -> list str -> str }.

(** A submission as it will be stored. *)
Record Prepared := mkPrepared {
  pp_manifest : TorrentManifest; pp_display_name : str; pp_release : ReleaseDescriptor;
  pp_policy : CandidatePolicy; pp_blob_hash : str; pp_candidate_id : str;
  pp_manifest_digest : str; pp_task : Ingress.NewTask }.

Section Accept.
Context `{Unicode} `{Json} `{Digest} `{CandidateCodec} `{IntakeCodec}.
Context (decode_with : str -> bool) (metainfo_parse : str -> option Torrent.MetaInfo).

(** ** The description of a torrent *)

(** The body of the loop over the files. *)
Definition candidate_file (matching : Matching) (p : nat * Torrent.TorrentFile)
  : result CandidateError TorrentFile :=
  components ← collect (fun component => ok_or (from_utf8 component) InvalidUtf8Path)
                 (Torrent.t_path p.2);
  let path := join_on 47 components in
  if max_path_bytes matching <? Z.of_nat (length path) then Err PathTooLong else
  ordinal ← ok_or (u32_try_from (Z.of_nat p.1)) TooManyFiles;
  Ok (mkTorrentFile ordinal path (Torrent.t_length p.2) (str_mem (lit ".pad") components)).

Definition candidate_manifest (matching : Matching) (parsed : Torrent.ParsedTorrent)
  : result CandidateError TorrentManifest :=
  files ← collect (candidate_file matching) (imap pair (Torrent.pt_files parsed));
  Ok {| tm_hashes := mkInfoHashes (Torrent.pt_v1_hash parsed) (Torrent.pt_v2_hash parsed);
        tm_files := files;
        tm_piece_length := Some (Torrent.pt_piece_length parsed);
        tm_piece_files := map (fun file => mkTorrentPieceFile (Torrent.pf_file_ordinal file)
                                 (Torrent.pf_offset file) (Torrent.pf_length file))
                            (Torrent.pt_piece_files parsed) |}.

Definition display_name (submission : CandidateSubmission) (torrent_name : str) : str :=
  match announcement_name submission with
  | Some name => if bool_decide (name = []) then torrent_name else name
  | None => torrent_name
  end.

(** The loop over the titles of a hint. *)
Definition add_title (release : ReleaseDescriptor) (title : str) : ReleaseDescriptor :=
  if negb (str_eqb title (rd_primary_title release)) && negb (str_mem title (rd_alternate_titles release))
  then mkReleaseDescriptor (rd_kind release) (rd_primary_title release)
         (rd_alternate_titles release ++ [title]) (rd_year release) (rd_season release)
         (rd_episode release) (rd_episode_end release) (rd_absolute_episode release)
         (rd_air_date release) (rd_edition release) (rd_source release) (rd_resolution release)
         (rd_video_codec release) (rd_hdr release) (rd_audio release) (rd_release_group release)
         (rd_arr_identity release)
  else release.

Definition with_identity (identity : option ArrIdentity) (release : ReleaseDescriptor) : ReleaseDescriptor :=
  mkReleaseDescriptor (rd_kind release) (rd_primary_title release) (rd_alternate_titles release)
    (rd_year release) (rd_season release) (rd_episode release) (rd_episode_end release)
    (rd_absolute_episode release) (rd_air_date release) (rd_edition release) (rd_source release)
    (rd_resolution release) (rd_video_codec release) (rd_hdr release) (rd_audio release)
    (rd_release_group release) identity.

(** A hint is believed when it names the same title. *)
Definition apply_hint (release : ReleaseDescriptor) (hint : option ReleaseDescriptor) : ReleaseDescriptor :=
  match hint with
  | None => release
  | Some hint =>
      if str_eqb (rd_primary_title hint) (rd_primary_title release)
         || str_mem (rd_primary_title release) (rd_alternate_titles hint)
      then foldl add_title (with_identity (rd_arr_identity hint) release)
             (rd_alternate_titles hint ++ [rd_primary_title hint])
      else release
  end.

Definition candidate_policy (self : CandidateIngress) (submission : CandidateSubmission)
  : result CandidateError CandidatePolicy :=
  let config := ci_injection self in
  save_path_remote_root ← ok_or (Paths.path_text <$> Paths.qbit_link_root (ci_paths self)) UnmappedLinkRoot;
  Ok {| matching := mt_policy (ci_matching self); source_filters := ci_source_filters self;
        pending_source_timeout_ms :=
          default u64_max (u64_try_from (pending_source_timeout (ci_matching self) / 1000000));
        injection := mkInjectionConfig (dry_run config || cs_dry_run submission)
          (category_template config) (tag_templates config) (inherit_source_category config)
          (inherit_source_tags config) (resume_policy config);
        namespace_local_root := Paths.p_link_root (ci_paths self);
        save_path_remote_root := save_path_remote_root;
        path_rewrites := Paths.rewrite (ci_paths self) |}.

(** ** Identity *)

Definition task_digest (candidate_id policy_id : str) : str :=
  sha256 (lit "candidate-task-v1:" ++ candidate_id ++ policy_id).

Definition candidate_task (candidate_id : str) (policy_json : str) (at_ : Z) : Ingress.NewTask :=
  let config_hash := sha256 policy_json in
  let policy_id := first_16 config_hash in
  let digest := task_digest candidate_id policy_id in
  let task_id := first_16 digest in
  {| Ingress.nt_id := task_id; Ingress.nt_key := digest; Ingress.nt_kind := lit "process_candidate";
     Ingress.nt_policy :=
       {| Ingress.ps_id := policy_id; Ingress.config_hash := config_hash;
          Ingress.matcher_version := MATCHER_VERSION; Ingress.payload_json := policy_json;
          Ingress.ps_created_at := at_ |};
     Ingress.orchestration_name := ORCHESTRATION_NAME;
     Ingress.orchestration_version := ORCHESTRATION_VERSION;
     Ingress.instance_id := lit "candidate-v1:" ++ hex candidate_id ++ lit ":" ++ hex policy_id;
     Ingress.input_json := encode_input (mkInput task_id candidate_id policy_id);
     Ingress.nt_created_at := at_ |}.

(** [accept] before its transaction; [None] is a panic of the parser. *)
Definition prepare (self : CandidateIngress) (submission : CandidateSubmission)
  : option (result CandidateError Prepared) :=
  let limits := ci_matching self in
  if max_torrent_bytes limits <? Z.of_nat (length (cs_bytes submission)) then Some (Err TorrentTooLarge) else
  parsed ← Torrent.parse decode_with metainfo_parse (cs_bytes submission);
  Some
    (parsed ← map_err TorrentError parsed;
     if max_files_per_torrent limits <? Z.of_nat (length (Torrent.pt_files parsed))
     then Err TooManyFiles else
     manifest ← candidate_manifest limits parsed;
     torrent_name ← ok_or (from_utf8 (Torrent.pt_name parsed)) InvalidUtf8Name;
     let name := display_name submission torrent_name in
     let release := apply_hint (Release.parse_release name) (release_hint submission) in
     policy ← candidate_policy self submission;
     let blob_hash := sha256 (cs_bytes submission) in
     let candidate_id := first_16 blob_hash in
     Ok {| pp_manifest := manifest; pp_display_name := name; pp_release := release;
           pp_policy := policy; pp_blob_hash := blob_hash; pp_candidate_id := candidate_id;
           pp_manifest_digest := sha256 (encode_manifest manifest);
           pp_task := candidate_task candidate_id (encode_policy policy) (received_at submission) |}).

(** ** The transaction *)

Abbreviation Act A := (M Library CandidateError A).
Abbreviation Stmt A := (M Intake CandidateError A).

Definition on_tasks {A} (m : M Db Ingress.DurableIngressError A) : Act A := fun db =>
  let '(t, r) := m (tasks db) in (with_tasks t db, map_err CaIngress r).
Definition on_intake {A} (m : Library -> Stmt A) : Act A := fun db =>
  let '(k, r) := m db (intake db) in (with_intake k db, r).

(** [INSERT INTO sporos_blob ... ON CONFLICT DO NOTHING], then [verify_blob].  The table
    checks that [size] is the length of [data]. *)
Definition insert_blob (hash bytes : str) : Stmt () := fun k =>
  (mkIntake (default (k_blob k) (insert_new hash bytes (k_blob k))) (k_candidate k)
     (k_candidate_task k) (k_provenance k), Ok ()).

Definition verify_blob (hash expected : str) : Stmt () :=
  data ← (reads (fun k => ok_or (k_blob k !! hash) (CaDatabase RowNotFound)) : Stmt str);
  if (Z.of_nat (length data) =? default i64_max (i64_try_from (Z.of_nat (length expected))))
     && str_eqb data expected
  then mret () else throw BlobCollision.

(** A candidate has an info hash, and its blob exists. *)
Definition insert_candidate (id : str) (row : CandidateRow) : Stmt () := fun k =>
  if bool_decide (cd_v1_hash row = None /\ cd_v2_hash row = None) then (k, Err (CaDatabase Constraint)) else
  match insert_new id row (k_candidate k) with
  | None => (k, Ok ())
  | Some t =>
      if bool_decide (is_Some (k_blob k !! cd_blob_sha256 row))
      then (mkIntake (k_blob k) t (k_candidate_task k) (k_provenance k), Ok ())
      else (k, Err (CaDatabase Constraint))
  end.

Definition verify_candidate (id blob_hash manifest_digest : str) : Stmt () :=
  row ← (reads (fun k => ok_or (k_candidate k !! id) (CaDatabase RowNotFound)) : Stmt CandidateRow);
  if str_eqb (cd_blob_sha256 row) blob_hash && str_eqb (cd_manifest_digest row) manifest_digest
  then mret () else throw CandidateCollision.

(** A task belongs to one candidate and policy ([UNIQUE]). *)
Definition insert_candidate_task (db : Library) (candidate_id policy_id task_id : str) : Stmt () := fun k =>
  match insert_new (candidate_id, policy_id) task_id (k_candidate_task k) with
  | None => (k, Ok ())
  | Some t =>
      if bool_decide (map_Forall (fun _ other => other <> task_id) (k_candidate_task k)
                      /\ is_Some (k_candidate k !! candidate_id)
                      /\ is_Some (sporos_policy_snapshot (tasks db) !! policy_id)
                      /\ is_Some (sporos_task (tasks db) !! task_id))
      then (mkIntake (k_blob k) (k_candidate k) t (k_provenance k), Ok ())
      else (k, Err (CaDatabase Constraint))
  end.

Definition verify_candidate_task (candidate_id policy_id task_id : str) : Stmt () :=
  stored_task ← (reads (fun k => ok_or (k_candidate_task k !! (candidate_id, policy_id)) (CaDatabase RowNotFound))
                 : Stmt str);
  if negb (str_eqb stored_task task_id) then throw CandidateTaskCollision else mret ().

Definition provenance_row (candidate_id : str) (submission : CandidateSubmission) : ProvenanceRow :=
  mkProvenanceRow candidate_id (trigger submission) (indexer_id submission) (indexer submission)
    (announcement_name submission) (request_id submission) (received_at submission)
    (encode_detail (cs_category submission) (cs_tags submission)).

Definition insert_provenance (row : ProvenanceRow) : Stmt () := fun k =>
  if bool_decide (is_Some (k_candidate k !! pv_candidate_id row))
  then (mkIntake (k_blob k) (k_candidate k) (k_candidate_task k)
          (<[next_rowid (k_provenance k) := row]> (k_provenance k)), Ok ())
  else (k, Err (CaDatabase Constraint)).

Definition candidate_row (submission : CandidateSubmission) (p : Prepared) : CandidateRow :=
  {| cd_blob_sha256 := pp_blob_hash p; cd_v1_hash := ih_v1 (tm_hashes (pp_manifest p));
     cd_v2_hash := ih_v2 (tm_hashes (pp_manifest p)); cd_manifest_digest := pp_manifest_digest p;
     cd_display_name := pp_display_name p; cd_release_json := encode_release (pp_release p);
     cd_state := lit "received"; cd_created_at := received_at submission;
     cd_updated_at := received_at submission;
     cd_manifest_json := Some (encode_manifest (pp_manifest p)) |}.

Definition policy_id_of (p : Prepared) : str := Ingress.ps_id (Ingress.nt_policy (pp_task p)).

Definition store (submission : CandidateSubmission) (p : Prepared) : Act bool :=
  let task_id := Ingress.nt_id (pp_task p) in
  _ ← (liftr (ok_or (i64_try_from (Z.of_nat (length (cs_bytes submission)))) TorrentTooLarge) : Act Z);
  _ ← on_intake (fun _ => insert_blob (pp_blob_hash p) (cs_bytes submission));
  _ ← on_intake (fun _ => verify_blob (pp_blob_hash p) (cs_bytes submission));
  _ ← on_intake (fun _ => insert_candidate (pp_candidate_id p) (candidate_row submission p));
  _ ← on_intake (fun _ => verify_candidate (pp_candidate_id p) (pp_blob_hash p) (pp_manifest_digest p));
  inserted ← on_tasks (Ingress.accept_task_in (pp_task p));
  _ ← on_intake (fun db => insert_candidate_task db (pp_candidate_id p) (policy_id_of p) task_id);
  _ ← on_intake (fun _ => verify_candidate_task (pp_candidate_id p) (policy_id_of p) task_id);
  _ ← on_intake (fun _ => insert_provenance (provenance_row (pp_candidate_id p) submission));
  mret inserted.

(** [CandidateIngress::accept]; [None] is a panic of the parser. *)
Definition accept (self : CandidateIngress) (submission : CandidateSubmission)
    (db : Library) : option (Library * result CandidateError AcceptedCandidate) :=
  prepared ← prepare self submission;
  Some match prepared with
       | Err e => (db, Err e)
       | Ok p =>
           atomically (inserted ← store submission p;
                       mret (mkAccepted (pp_candidate_id p) (Ingress.nt_id (pp_task p)) (negb inserted))) db
       end.
End Accept.
