(* ===== verification/Decision.v ===== *)
(** The decision on a candidate (candidate_workflow.rs): its plausible sources are
    read from the inventories, the matcher judges them, and the verdict is stored:
    the candidate waits for a source to complete, or is decided for good, with a
    plan when it matched.

    Log lines are left out. *)

From S2P Require Import Prelude Text Model Store Duroxide Candidate Library.
From S2P Require Matcher Template Pieces Projection.
From stdpp Require Import strings.
Local Open Scope Z_scope.

Definition MAX_PLAUSIBLE_SOURCES : nat := 64.
Definition MAX_ALTERNATE_TITLES : nat := 32.
Definition MAX_WAITERS_PER_COMPLETION : nat := 1024.
Definition RECONCILE_INTERVAL_MS : Z := 5 * 60 * 1000.

Inductive EvaluationResult :=
| Waiting (delay_ms : Z) (source_ids : list str)
| Terminal (state reason_code match_id : str) (plan_id : option str).

(** serde's encoders of what a decision writes *)
Class DecisionCodec := {
  encode_decision : MatchDecision -> str;
  encode_evidence : MatchEvidence -> str;
  encode_tags : list str -> str;
  encode_resume : Pieces.ResumePolicy -> str;
  (** [json!] of a plan: match, candidate, namespace, save path, category, tags,
      resume policy, mappings *)
  encode_material : str -> str -> str -> str -> str -> list str -> str -> list FileMapping -> str;
  (** [json!] of [sourceCount] and [deadlineMs]; of [matchId] and [planId] *)
  encode_waiting : Z -> Z -> str;
  encode_ids : str -> option str -> str }.

Record LoadedCandidate := mkLoadedCandidate {
  lc_manifest : TorrentManifest; lc_release : ReleaseDescriptor; lc_policy : CandidatePolicy;
  lc_created_at : Z; lc_trigger : str; lc_indexer_id : option Z; lc_indexer_name : option str }.

Record LoadedSource := mkLoadedSource {
  ls_complete : bool; ls_manifest_loaded : bool; ls_manifest_version : Z; ls_file_count : Z;
  ls_manifest : LocalSourceManifest }.

Inductive CandidateSources := Loaded (sources : list LoadedSource) | BudgetExceeded.

Record SourceTemplateData := mkSourceTemplateData {
  st_category : str; st_tags : list str; st_kind : str }.

(** An evaluation that does not return: an error, or a panic of the matcher. *)
Inductive Halt := Failed (e : CandidateWorkflowError) | Panicked.

(** ** Names that serde derives ([rename_all = "snake_case"]) *)

Definition outcome_text (o : MatchOutcome) : str :=
  match o with
  | Match => lit "match" | NoMatch => lit "no_match"
  | AlreadyPresent => lit "already_present" | Model.Rejected => lit "rejected"
  end.
Definition mode_text (m : MatchMode) : str :=
  match m with
  | Strict => lit "strict" | Flexible => lit "flexible" | Partial => lit "partial"
  | SeasonFromEpisodes => lit "season_from_episodes"
  end.
Definition reason_text (r : MatchReason) : str :=
  match r with
  | MatchStrict => lit "match_strict" | MatchFlexible => lit "match_flexible"
  | MatchPartial => lit "match_partial" | MatchSeasonFromEpisodes => lit "match_season_from_episodes"
  | ReasonAlreadyPresent => lit "already_present" | NoPlausibleSource => lit "no_plausible_source"
  | MediaTypeConflict => lit "media_type_conflict" | TitleConflict => lit "title_conflict"
  | YearConflict => lit "year_conflict" | SeriesConflict => lit "series_conflict"
  | SeasonConflict => lit "season_conflict" | EpisodeConflict => lit "episode_conflict"
  | DateConflict => lit "date_conflict" | NoPrimaryVideoOverlap => lit "no_primary_video_overlap"
  | FileSizeConflict => lit "file_size_conflict" | AmbiguousFileMapping => lit "ambiguous_file_mapping"
  | UnsupportedTorrent => lit "unsupported_torrent" | UnsafeTorrentPath => lit "unsafe_torrent_path"
  | HardlinkDeviceMismatch => lit "hardlink_device_mismatch"
  | MatcherBudgetExceeded => lit "matcher_budget_exceeded"
  end.
Definition kind_text (k : VideoKind) : str :=
  match k with
  | Movie => lit "movie" | Episode => lit "episode" | SeasonPack => lit "season_pack"
  | DateEpisode => lit "date_episode" | AbsoluteEpisode => lit "absolute_episode"
  | Disc => lit "disc" | UnknownVideo => lit "unknown_video"
  end.

(** ** Small functions *)

Definition same_identity (candidate : TorrentManifest) (source : LocalSourceManifest) : bool :=
  let same (a b : option str) := bool_decide (is_Some a) && bool_decide (a = b) in
  same (ih_v1 (tm_hashes candidate)) (ih_v1 (lsm_hashes source))
  || same (ih_v2 (tm_hashes candidate)) (ih_v2 (lsm_hashes source)).

Definition rejected_source_timeout (d : MatchDecision) : MatchDecision :=
  mkMatchDecision Model.Rejected (md_mode d) NoPlausibleSource (md_source_ids d) (md_mappings d)
    (md_mapped_bytes d) (md_missing_bytes d) (md_present_ratio d) (md_requires_recheck d)
    (md_evidence d).

Definition candidate_files (manifest : TorrentManifest) : list TorrentFile :=
  filter (fun file => tf_padding file = false) (tm_files manifest).

(** [sum()] of [u64]s wraps in release builds. *)
Definition matcher_budget_rejection (loaded : LoadedCandidate) : MatchDecision :=
  let files := candidate_files (lc_manifest loaded) in
  {| md_outcome := Model.Rejected; md_mode := None; md_reason := MatcherBudgetExceeded;
     md_source_ids := []; md_mappings := []; md_mapped_bytes := 0;
     md_missing_bytes := wrap_u 64 (sum_Z (map tf_size files)); md_present_ratio := Ratio_ZERO;
     md_requires_recheck := false;
     md_evidence := mkMatchEvidence (Z.of_nat (length files)) 0 0 0 0 0 0 0 0 |}.

Definition terminal_state (d : MatchDecision) (dry_run : bool) : str :=
  match md_outcome d with
  | Match => if dry_run then lit "dry_run_complete" else lit "planned"
  | AlreadyPresent => lit "already_present"
  | NoMatch | Model.Rejected => lit "rejected"
  end.

Definition cw_to_i64 (value : Z) (field : string) : result CandidateWorkflowError Z :=
  ok_or (i64_try_from value) (CwRange field).
Definition cw_to_u64 (value : Z) (field : string) : result CandidateWorkflowError Z :=
  ok_or (u64_try_from value) (CwStoredRange field).
Definition cw_optional_u64 (value : option Z) (field : string) : result CandidateWorkflowError (option Z) :=
  match value with
  | None => Ok None
  | Some value => Some <$> cw_to_u64 value field
  end.

Definition deadline (loaded : LoadedCandidate) : result CandidateWorkflowError Z :=
  timeout ← cw_to_i64 (pending_source_timeout_ms (lc_policy loaded)) "pending source timeout";
  Ok (saturating_add_i64 (lc_created_at loaded) timeout).

(** [Path::new(base).join(name)] for a relative [name] *)
Definition path_join (base name : str) : str :=
  if bool_decide (base = []) || bool_decide (last base = Some 47) then base ++ name
  else base ++ [47] ++ name.

Definition reduction_titles (release : ReleaseDescriptor) : list str :=
  rd_primary_title release :: take MAX_ALTERNATE_TITLES (rd_alternate_titles release).

Definition reduction_external_ids (release : ReleaseDescriptor) : list (str * str) :=
  match rd_arr_identity release with
  | None => []
  | Some identity =>
      let kind := match arr_kind identity with ArrMovie => lit "movie" | ArrSeries => lit "series" end in
      (lit "arr:" ++ kind ++ lit ":" ++ arr_instance identity, decimal (arr_entity_id identity))
      :: omap (fun p : str * option str => (fun value => (p.1, value)) <$> p.2)
           [(lit "tvdb", decimal <$> arr_tvdb_id identity);
            (lit "tmdb", decimal <$> arr_tmdb_id identity);
            (lit "imdb", arr_imdb_id identity)]
  end.

Section Decision.
Context `{Unicode} `{Json} `{Digest} `{CandidateCodec} `{DecisionCodec}.

Abbreviation Act A := (M Library Halt A).

(** [call?] with an error of this component; a statement on the task tables. *)
Definition fallible {A} (r : result CandidateWorkflowError A) : result Halt A := map_err Failed r.
Definition fetch {A} (f : Library -> result CandidateWorkflowError A) : Act A :=
  reads (fun db => fallible (f db)).
Definition on_tasks {A} (m : M Db CandidateWorkflowError A) : Act A := fun db =>
  let '(t, r) := m (tasks db) in (with_tasks t db, fallible r).

(** ** Loading the candidate *)

(** The row of [MIN(id)]. *)
Definition first_provenance (db : Library) (candidate_id : str) : option ProvenanceRow :=
  snd <$> head (sort_by (fun a b : Z * ProvenanceRow => a.1 <=? b.1)
    (filter (fun p : Z * ProvenanceRow => pv_candidate_id p.2 = candidate_id)
       (map_to_list (sporos_candidate_provenance db)))).

Definition load_candidate (input : CandidateWorkflowInput) (db : Library)
  : result CandidateWorkflowError LoadedCandidate :=
  let joined :=
    c ← sporos_candidate db !! in_candidate_id input;
    task ← sporos_candidate_task db !! (in_candidate_id input, in_policy_snapshot_id input);
    if negb (str_eqb task (in_task_id input)) then None else
    p ← sporos_policy_snapshot (tasks db) !! in_policy_snapshot_id input;
    cp ← first_provenance db (in_candidate_id input);
    Some (c, p, cp) in
  '(c, p, cp) ← ok_or joined MissingCandidate;
  manifest_json ← ok_or (cd_manifest_json c) CwMissingManifest;
  manifest ← ok_or (decode_manifest manifest_json) CwJson;
  release ← ok_or (decode_release (cd_release_json c)) CwJson;
  policy ← ok_or (decode_policy (pr_payload_json p)) CwJson;
  Ok {| lc_manifest := manifest; lc_release := release; lc_policy := policy;
        lc_created_at := cd_created_at c; lc_trigger := pv_trigger cp;
        lc_indexer_id := pv_indexer_id cp; lc_indexer_name := pv_indexer_name cp |}.

(** ** Plausible sources *)

(** [push_source_reduction] *)
Definition plausible (db : Library) (source_type : str) (titles : list str) (ids : list (str * str))
    (source_id : str) : bool :=
  existsb (fun title => bool_decide ((source_id, source_type, title) ∈ sporos_source_title db)) titles
  || existsb (fun id => bool_decide ((source_id, source_type, id) ∈ sporos_source_external_id db)) ids.

(** [value = 'sporos' OR value LIKE 'sporos:%']; SQLite's LIKE ignores ASCII case. *)
Definition sporos_tag (tag : str) : bool :=
  str_eqb tag (lit "sporos") || starts_with (lit "sporos:") (to_ascii_lowercase tag).

Definition admitted (filters : SourceFilters) (row : QbitRow) : bool :=
  let none (l : list str) := bool_decide (l = []) in
  let tagged := fun l => existsb (fun tag => str_mem tag l) (qt_tags row) in
  (none (include_categories filters) || str_mem (qt_category row) (include_categories filters))
  && (none (exclude_categories filters) || negb (str_mem (qt_category row) (exclude_categories filters)))
  && (none (include_tags filters) || tagged (include_tags filters))
  && (none (exclude_tags filters) || negb (tagged (exclude_tags filters)))
  && (negb (exclude_sporos_managed filters) || negb (existsb sporos_tag (qt_tags row))).

(** The available files of one version of a source's manifest, by ordinal. *)
Definition manifest_rows (db : Library) (source_id : str) (version : Z) : list (Z * SourceFileRow) :=
  sort_by (fun a b => sf_ordinal a.2 <=? sf_ordinal b.2)
    (filter (fun p : Z * SourceFileRow =>
        sf_source_id p.2 = source_id /\ sf_manifest_version p.2 = version /\ sf_available p.2 = true)
      (map_to_list (sporos_source_file db))).

Definition file_count (db : Library) (source_id : str) (version : Z) : Z :=
  Z.of_nat (length (manifest_rows db source_id version)).

Definition release_of (json : option str) : result CandidateWorkflowError ReleaseDescriptor :=
  json ← ok_or json (CwDatabase ColumnDecode);
  ok_or (decode_release json) CwJson.

Definition qbit_source (db : Library) (p : str * QbitRow) : result CandidateWorkflowError LoadedSource :=
  let '(id, row) := p in
  release ← release_of (qt_release_json row);
  Ok {| ls_complete := qt_is_complete row;
        ls_manifest_loaded := (0 <? qt_manifest_version row) && str_eqb (qt_manifest_state row) (lit "loaded");
        ls_manifest_version := qt_manifest_version row;
        ls_file_count := file_count db id (qt_manifest_version row);
        ls_manifest :=
          {| lsm_id := id; lsm_kind := QbittorrentTorrent; lsm_release := release;
             lsm_hashes := mkInfoHashes (qt_v1_hash row) (qt_v2_hash row); lsm_files := [];
             lsm_available := true |} |}.

Definition data_source (db : Library) (p : str * DataSourceRow) : result CandidateWorkflowError LoadedSource :=
  let '(id, row) := p in
  release ← release_of (dt_release_json row);
  Ok {| ls_complete := true; ls_manifest_loaded := true; ls_manifest_version := dt_generation row;
        ls_file_count := file_count db id (dt_generation row);
        ls_manifest :=
          {| lsm_id := id;
             lsm_kind := if str_eqb (dt_kind row) (lit "file") then DataDirectoryFile else DataDirectoryRelease;
             lsm_release := release; lsm_hashes := no_hashes; lsm_files := []; lsm_available := true |} |}.

(** [ORDER BY is_complete DESC, id] *)
Definition complete_first (a b : str * QbitRow) : bool :=
  if eqb (qt_is_complete a.2) (qt_is_complete b.2) then str_leb a.1 b.1 else qt_is_complete a.2.

(** The [WHERE] clause over the torrents. *)
Definition selected (db : Library) (release : ReleaseDescriptor) (filters : SourceFilters)
    (p : str * QbitRow) : bool :=
  qt_available p.2 && plausible db (lit "qbittorrent") (reduction_titles release)
                        (reduction_external_ids release) p.1
  && admitted filters p.2.

Definition qbit_rows (db : Library) (release : ReleaseDescriptor) (filters : SourceFilters)
  : list (str * QbitRow) :=
  take MAX_PLAUSIBLE_SOURCES (sort_by complete_first
    (filter (fun p => selected db release filters p = true) (map_to_list (sporos_qbit_torrent db)))).

Definition data_rows (db : Library) (release : ReleaseDescriptor) (remaining : nat)
  : list (str * DataSourceRow) :=
  take remaining (sort_by (fun a b => str_leb a.1 b.1)
    (filter (fun p : str * DataSourceRow =>
        dt_available p.2 && plausible db (lit "data") (reduction_titles release)
                              (reduction_external_ids release) p.1 = true)
      (map_to_list (sporos_data_source db)))).

(** Sources whose files the matcher needs. *)
Definition needs_files (candidate : TorrentManifest) (source : LoadedSource) : bool :=
  ls_complete source && ls_manifest_loaded source && negb (same_identity candidate (ls_manifest source)).

Definition admit_files (candidate : TorrentManifest) (max candidate_count total : Z) (source : LoadedSource)
  : result () Z :=
  if negb (needs_files candidate source) then Ok total else
  if saturating_sub_u max candidate_count <? ls_file_count source then Err tt else
  total ← ok_or (checked_add_u64 total (ls_file_count source)) tt;
  if max <? total then Err tt else Ok total.

Definition source_file (p : Z * SourceFileRow) : result CandidateWorkflowError LocalSourceFile :=
  id ← cw_to_u64 p.1 "source file ID";
  size ← cw_to_u64 (sf_size p.2) "source file size";
  device ← cw_optional_u64 (sf_device p.2) "source device";
  inode ← cw_optional_u64 (sf_inode p.2) "source inode";
  Ok (mkLocalSourceFile id (sf_display_path p.2) size device inode).

Definition source_files (db : Library) (source_id : str) (version : Z) (limit : Z)
  : result CandidateWorkflowError (option (list LocalSourceFile)) :=
  let rows := take (Z.to_nat (limit + 1)) (manifest_rows db source_id version) in
  if limit <? Z.of_nat (length rows) then Ok None else Some <$> collect source_file rows.

(** The files of a source that needs them; [None] when there are too many. *)
Definition fill_source (db : Library) (candidate : TorrentManifest) (source : LoadedSource)
  : result (option CandidateWorkflowError) LoadedSource :=
  if negb (needs_files candidate source) then Ok source else
  let m := ls_manifest source in
  match source_files db (lsm_id m) (ls_manifest_version source) (ls_file_count source) with
  | Err e => Err (Some e)
  | Ok None => Err None
  | Ok (Some files) =>
      Ok (mkLoadedSource (ls_complete source) (ls_manifest_loaded source) (ls_manifest_version source)
            (ls_file_count source)
            (mkLocalSourceManifest (lsm_id m) (lsm_kind m) (lsm_release m) (lsm_hashes m) files
               (lsm_available m)))
  end.

Definition candidate_sources (candidate : TorrentManifest) (release : ReleaseDescriptor)
    (policy : CandidatePolicy) (db : Library) : result CandidateWorkflowError CandidateSources :=
  qbit ← collect (qbit_source db) (qbit_rows db release (source_filters policy));
  data ← collect (data_source db) (data_rows db release (MAX_PLAUSIBLE_SOURCES - length qbit));
  let sources := qbit ++ data in
  let candidate_count := Z.of_nat (length (candidate_files candidate)) in
  let max := mp_max_assignment_files (matching policy) in
  match try_fold (admit_files candidate max candidate_count) sources candidate_count with
  | Err _ => Ok BudgetExceeded
  | Ok _ =>
      match collect (fill_source db candidate) sources with
      | Ok sources => Ok (Loaded sources)
      | Err None => Ok BudgetExceeded
      | Err (Some e) => Err e
      end
  end.

(** ** Statements *)

Abbreviation Stmt A := (M Verdict CandidateWorkflowError A).

(** One transaction over what a decision writes: undone when it fails. *)
Definition atomically {A} (body : Library -> Stmt A) : Act A := fun db =>
  match body db (verdict db) with
  | (v, Ok a) => (with_verdict v db, Ok a)
  | (_, Err e) => (db, Err (Failed e))
  end.

Definition require (condition : bool) : Stmt () := guard_ok condition (CwDatabase Constraint).

Definition request_manifest (source_id : str) : Act () := fun db =>
  (with_torrents (update_where source_id (fun row => str_eqb (qt_manifest_state row) (lit "unloaded"))
     (with_manifest_state (lit "stale")) (sporos_qbit_torrent db)).1 db, Ok ()).

Definition delete_waiting (task_id : str) : Stmt () := fun v =>
  (mkVerdict (v_candidate v)
     (filter (fun p : (str * str) * Z => p.1.1 <> task_id) (v_waiting v))
     (v_match v) (v_mapping v) (v_plan v), Ok ()).

Definition insert_waiting (db : Library) (task_id : str) (now : Z) (source_id : str) : Stmt () :=
  _ ← (require (bool_decide (is_Some (sporos_task (tasks db) !! task_id))) : Stmt ());
  ((fun v => match insert_new (task_id, source_id) now (v_waiting v) with
            | None => (v, Err (CwDatabase Constraint))
            | Some t => (mkVerdict (v_candidate v) t (v_match v) (v_mapping v) (v_plan v), Ok ())
            end) : Stmt ()).

Definition set_candidate_state (candidate_id state : str) (now : Z) : Stmt () := fun v =>
  (mkVerdict (update_where candidate_id (fun _ => true)
       (with_candidate_state state now) (v_candidate v)).1
     (v_waiting v) (v_match v) (v_mapping v) (v_plan v), Ok ()).

(** [INSERT ... ON CONFLICT DO NOTHING] *)
Definition insert_match (match_id : str) (row : MatchRow) : Stmt () := fun v =>
  (mkVerdict (v_candidate v) (v_waiting v) (default (v_match v) (insert_new match_id row (v_match v)))
     (v_mapping v) (v_plan v), Ok ()).

Definition insert_mapping (db : Library) (match_id : str) (mapping : FileMapping) : Stmt () :=
  file_id ← (liftr (cw_to_i64 (fm_source_file_id mapping) "source file ID") : Stmt Z);
  size ← (liftr (cw_to_i64 (fm_size mapping) "mapping size") : Stmt Z);
  ((fun v => match insert_new (match_id, fm_candidate_ordinal mapping)
                    (mkMappingRow (fm_source_id mapping) file_id (fm_candidate_path mapping) size
                       (fm_score mapping)) (v_mapping v) with
            | None => (v, Ok ())
            | Some t =>
                if bool_decide (is_Some (sporos_source_file db !! file_id))
                then (mkVerdict (v_candidate v) (v_waiting v) (v_match v) t (v_plan v), Ok ())
                else (v, Err (CwDatabase Constraint))
            end) : Stmt ()).

(** The digest of a plan is unique. *)
Definition insert_plan (plan_id : str) (row : PlanRow) : Stmt () := fun v =>
  match insert_new plan_id row (v_plan v) with
  | None => (v, Ok ())
  | Some t =>
      if bool_decide (map_Forall (fun _ other => pl_digest other <> pl_digest row) (v_plan v))
      then (mkVerdict (v_candidate v) (v_waiting v) (v_match v) (v_mapping v) t, Ok ())
      else (v, Err (CwDatabase Constraint))
  end.

Definition persist_waiting (input : CandidateWorkflowInput) (source_ids : list str) (now : Z) : Act () :=
  atomically (fun db =>
    _ ← delete_waiting (in_task_id input);
    _ ← collectM (insert_waiting db (in_task_id input) now) source_ids;
    set_candidate_state (in_candidate_id input) (lit "waiting_for_source") now).

(** ** The plan *)

(** The loop over the sorted source ids. *)
Definition template_step (db : Library) (data : SourceTemplateData) (source_id : str) : SourceTemplateData :=
  match sporos_qbit_torrent db !! source_id with
  | None => data
  | Some row =>
      mkSourceTemplateData (if bool_decide (st_category data = []) then qt_category row else st_category data)
        (st_tags data ++ qt_tags row) (lit "qbittorrent_torrent")
  end.

Definition source_template_data (db : Library) (source_ids : list str) : SourceTemplateData :=
  foldl (template_step db) (mkSourceTemplateData [] [] (lit "data_directory_release"))
    (sort_by str_leb source_ids).

Definition opt_decimal (value : option Z) : str := default [] (decimal <$> value).

Definition template_context (loaded : LoadedCandidate) (d : MatchDecision) (source : SourceTemplateData)
  : Template.TemplateContext :=
  list_to_map
    [(lit "trigger", lc_trigger loaded);
     (lit "indexer_id", opt_decimal (lc_indexer_id loaded));
     (lit "indexer_name", default [] (lc_indexer_name loaded));
     (lit "indexer_slug", Template.slug (default [] (lc_indexer_name loaded)));
     (lit "match_mode", default [] (mode_text <$> md_mode d));
     (lit "source_category", st_category source);
     (lit "source_kind", st_kind source);
     (lit "video_kind", kind_text (rd_kind (lc_release loaded)));
     (lit "year", opt_decimal (rd_year (lc_release loaded)));
     (lit "season", opt_decimal (rd_season (lc_release loaded)));
     (lit "episode", opt_decimal (rd_episode (lc_release loaded)))].

Definition of_template {A} (r : result Template.TemplateError A) : result CandidateWorkflowError A :=
  map_err (fun _ => Candidate.Template) r.

Definition plan_category (loaded : LoadedCandidate) (source : SourceTemplateData)
    (context : Template.TemplateContext) : result CandidateWorkflowError str :=
  let config := injection (lc_policy loaded) in
  if inherit_source_category config && negb (bool_decide (st_category source = []))
  then Ok (st_category source)
  else of_template (Template.render_category context (category_template config)).

Definition plan_tags (loaded : LoadedCandidate) (source : SourceTemplateData)
    (context : Template.TemplateContext) : result CandidateWorkflowError (list str) :=
  let config := injection (lc_policy loaded) in
  let inherited := if inherit_source_tags config then st_tags source else [] in
  tags ← of_template (Template.render_tags context (tag_templates config) inherited);
  Ok (if existsb (fun tag => str_eqb tag (lit "sporos")) tags then tags else lit "sporos" :: tags).

Definition persist_plan (db : Library) (input : CandidateWorkflowInput) (loaded : LoadedCandidate)
    (d : MatchDecision) (match_id : str) (now : Z) : Stmt str :=
  let candidate_key := lit "cand_" ++ hex (in_candidate_id input) in
  let shard := hex (take 2 (in_candidate_id input)) in
  let policy := lc_policy loaded in
  let namespace_local := path_join (path_join (namespace_local_root policy) shard) candidate_key in
  let save_path_remote := path_join (path_join (save_path_remote_root policy) shard) candidate_key in
  let source := source_template_data db (md_source_ids d) in
  let context := template_context loaded d source in
  category ← (liftr (plan_category loaded source context) : Stmt str);
  tags ← (liftr (plan_tags loaded source context) : Stmt (list str));
  let tags_json := encode_tags tags in
  let resume_policy_json := encode_resume (resume_policy (injection policy)) in
  let plan_digest := sha256 (encode_material (hex match_id) (hex (in_candidate_id input)) namespace_local
                       save_path_remote category tags resume_policy_json (md_mappings d)) in
  let plan_id := first_16 plan_digest in
  _ ← insert_plan plan_id
        (mkPlanRow match_id (in_candidate_id input) namespace_local save_path_remote category tags_json
           resume_policy_json plan_digest
           (if dry_run (injection policy) then lit "dry_run_complete" else lit "planned") now);
  stored_digest ← (reads (fun v => ok_or (pl_digest <$> v_plan v !! plan_id) (CwDatabase RowNotFound))
                   : Stmt str);
  if negb (str_eqb stored_digest plan_digest) then throw PlanCollision else mret plan_id.

(** ** The verdict *)

Definition match_digest (input : CandidateWorkflowInput) (d : MatchDecision) : str :=
  sha256 (lit "candidate-match-v1:" ++ in_candidate_id input ++ in_policy_snapshot_id input
            ++ sha256 (encode_decision d)).

(** The transaction of [persist_terminal]. *)
Definition record_decision (input : CandidateWorkflowInput) (loaded : LoadedCandidate)
    (d : MatchDecision) (now : Z) (db : Library) : Stmt (option str) :=
  let decision_digest := sha256 (encode_decision d) in
  let match_id := first_16 (match_digest input d) in
  _ ← delete_waiting (in_task_id input);
  mapped_bytes ← (liftr (cw_to_i64 (md_mapped_bytes d) "mapped bytes") : Stmt Z);
  missing_bytes ← (liftr (cw_to_i64 (md_missing_bytes d) "missing bytes") : Stmt Z);
  _ ← insert_match match_id
        (mkMatchRow (in_candidate_id input) (mode_text <$> md_mode d) (outcome_text (md_outcome d))
           (reason_text (md_reason d)) mapped_bytes missing_bytes (md_present_ratio d)
           (encode_evidence (md_evidence d)) decision_digest now);
  stored_digest ← (reads (fun v => ok_or (mt_decision_digest <$> v_match v !! match_id) (CwDatabase RowNotFound))
                   : Stmt str);
  _ ← (if negb (str_eqb stored_digest decision_digest) then throw MatchCollision else mret () : Stmt ());
  _ ← collectM (insert_mapping db match_id) (md_mappings d);
  plan_id ← (if bool_decide (md_outcome d = Match)
             then plan_id ← persist_plan db input loaded d match_id now; mret (Some plan_id)
             else mret None : Stmt (option str));
  _ ← set_candidate_state (in_candidate_id input)
        (terminal_state d (dry_run (injection (lc_policy loaded)))) now;
  mret plan_id.

Definition persist_terminal (input : CandidateWorkflowInput) (loaded : LoadedCandidate)
    (d : MatchDecision) (now : Z) : Act EvaluationResult :=
  let match_id := first_16 (match_digest input d) in
  let state := terminal_state d (dry_run (injection (lc_policy loaded))) in
  plan_id ← atomically (record_decision input loaded d now);
  _ ← on_tasks (project_candidate_task (in_task_id input) state (Some (reason_text (md_reason d)))
        (negb (str_eqb state (lit "planned"))) (encode_ids (hex match_id) (hex <$> plan_id)) now);
  mret (Terminal state (reason_text (md_reason d)) match_id plan_id).

(** ** The evaluation *)

(** The loop over the sources: what can be matched, and what must be waited for. *)
Fixpoint sort_sources (candidate : TorrentManifest) (sources : list LoadedSource)
    (waiting : list str) (available : list LocalSourceManifest)
  : Act (list str * list LocalSourceManifest) :=
  match sources with
  | [] => mret (waiting, available)
  | source :: sources =>
      let m := ls_manifest source in
      if negb (ls_complete source) then sort_sources candidate sources (waiting ++ [lsm_id m]) available else
      if ls_manifest_loaded source || same_identity candidate m
      then sort_sources candidate sources waiting (available ++ [m])
      else
        _ ← request_manifest (lsm_id m);
        sort_sources candidate sources (waiting ++ [lsm_id m]) available
  end.

Definition wait (input : CandidateWorkflowInput) (waiting : list str) (deadline now : Z) : Act EvaluationResult :=
  let waiting := dedup (sort_by str_leb waiting) in
  _ ← persist_waiting input waiting now;
  _ ← on_tasks (project_candidate_task (in_task_id input) (lit "waiting_for_source") None false
        (encode_waiting (Z.of_nat (length waiting)) deadline) now);
  mret (Waiting (Z.min (default u64_max (u64_try_from (Z.max i64_min (Z.min i64_max (deadline - now)))))
                   RECONCILE_INTERVAL_MS) waiting).

Definition request (loaded : LoadedCandidate) (available : list LocalSourceManifest) : Matcher.MatchRequest :=
  {| Matcher.rq_candidate := lc_manifest loaded; Matcher.rq_candidate_release := lc_release loaded;
     Matcher.rq_sources := available; Matcher.rq_policy := matching (lc_policy loaded) |}.

Definition evaluate_candidate (input : CandidateWorkflowInput) (now : Z) : Act EvaluationResult :=
  loaded ← fetch (load_candidate input);
  sources ← fetch (candidate_sources (lc_manifest loaded) (lc_release loaded) (lc_policy loaded));
  match sources with
  | BudgetExceeded => persist_terminal input loaded (matcher_budget_rejection loaded) now
  | Loaded sources =>
      '(waiting, available) ← sort_sources (lc_manifest loaded) sources [] [];
      d ← (liftr (ok_or (Matcher.evaluate (request loaded available)) Panicked) : Act MatchDecision);
      if bool_decide (md_outcome d = NoMatch) && negb (bool_decide (waiting = [])) then
        limit ← (liftr (fallible (deadline loaded)) : Act Z);
        if now <? limit then wait input waiting limit now
        else persist_terminal input loaded (rejected_source_timeout d) now
      else persist_terminal input loaded d now
  end.

(** ** The workflow *)

Inductive WorkflowStep := Inject (plan_id : str) | Finished | SleepUntilEvent (delay_ms : Z).

(** How [workflow] goes on after an evaluation. *)
Definition workflow_step (r : EvaluationResult) : WorkflowStep :=
  match r with
  | Terminal state _ _ (Some plan_id) => if str_eqb state (lit "planned") then Inject plan_id else Finished
  | Terminal _ _ _ None => Finished
  | Waiting delay_ms _ => SleepUntilEvent delay_ms
  end.

(** The instances to wake when a source completes. *)
Definition waiting_candidate_instances (db : Library) (source_id : str) : list str :=
  take MAX_WAITERS_PER_COMPLETION (sort_by str_leb (remove_dups
    (omap (fun p : (str * str) * Z =>
        if negb (str_eqb p.1.2 source_id) then None else
        t ← sporos_task (tasks db) !! p.1.1;
        if bool_decide (terminal_at t = None) then Some (duroxide_instance_id t) else None)
      (map_to_list (sporos_waiting_source db))))).
End Decision.
