(* ===== verification/DecisionProofs.v ===== *)
(** The decision on a candidate: how long it waits, what a plan rests on, and that
    an evaluation may be repeated. *)

From S2P Require Import Prelude Text Model Store Duroxide Candidate Library Codec Decision.
From S2P Require Matcher MatcherProofs Template Pieces Projection.
From stdpp Require Import strings.
Local Open Scope Z_scope.

Section Waits.
Context `{Unicode} `{Json} `{Digest} `{CandidateCodec} `{DecisionCodec}.

Abbreviation Act A := (M Library Halt A).
Abbreviation Stmt A := (M Verdict CandidateWorkflowError A).

(** ** Sorted lists without repetition *)

Definition str_ltb (a b : str) : Prop := str_leb a b = true /\ a <> b.

Lemma dedup_sorted l : StronglySorted str_leb l -> StronglySorted str_ltb (dedup l).
Proof.
  induction l as [|a [|b l] IH]; intros Hs; [constructor|repeat constructor|].
  apply StronglySorted_inv in Hs as [Hs Ha]. specialize (IH Hs). cbn [dedup] in *.
  case_decide as Hab; [done|]. constructor; [done|].
  rewrite Forall_forall in Ha. apply Forall_forall. intros x Hx.
  change (x ∈ dedup (b :: l)) in Hx. rewrite elem_of_dedup in Hx.
  split; [by apply Is_true_true, Ha|]. intros <-. apply Hab.
  apply StronglySorted_inv in Hs as [_ Hb]. rewrite Forall_forall in Hb.
  apply str_leb_antisym; [apply Is_true_true, Ha; by left|].
  apply elem_of_cons in Hx as [->|Hx]; [apply str_leb_refl|by apply Is_true_true, Hb].
Qed.

(** ** Statements *)

Lemma decision_atomically_Ok {A} (body : Library -> Stmt A) db db' a :
  atomically body db = (db', Ok a) <->
  exists v, body db (verdict db) = (v, Ok a) /\ db' = with_verdict v db.
Proof. unfold atomically. destruct (body db (verdict db)) as [v [x|e]]; naive_solver. Qed.

Lemma fetch_Ok {A} (f : Library -> result CandidateWorkflowError A) db db' a :
  fetch f db = (db', Ok a) <-> db' = db /\ f db = Ok a.
Proof. unfold fetch, reads, fallible. destruct (f db); cbn; naive_solver. Qed.

Lemma on_tasks_Ok {A} (m : M Db CandidateWorkflowError A) db db' a :
  on_tasks m db = (db', Ok a) <-> exists t, m (tasks db) = (t, Ok a) /\ db' = with_tasks t db.
Proof. unfold on_tasks, fallible. destruct (m (tasks db)) as [t [x|e]]; cbn; naive_solver. Qed.

Lemma delete_waiting_lookup task v task' s :
  v_waiting (delete_waiting task v).1 !! (task', s)
  = if decide (task' = task) then None else v_waiting v !! (task', s).
Proof.
  cbn. rewrite map_lookup_filter. cbn. destruct (v_waiting v !! (task', s)) as [n|]; cbn;
    case_decide; subst; try done; by rewrite ?option_guard_True, ?option_guard_False by (naive_solver).
Qed.

Lemma insert_waiting_all db task now ids v v' l :
  collectM (insert_waiting db task now) ids v = (v', Ok l) ->
  NoDup ids /\ (forall s, s ∈ ids -> v_waiting v !! (task, s) = None) /\
  v_candidate v' = v_candidate v /\ v_match v' = v_match v /\ v_mapping v' = v_mapping v /\
  v_plan v' = v_plan v /\
  forall k, v_waiting v' !! k
    = if decide (k.1 = task /\ k.2 ∈ ids) then Some now else v_waiting v !! k.
Proof.
  revert v v' l. induction ids as [|id ids IH]; intros v v' l; cbn [collectM].
  - intros [= <- _]. split; [constructor|]. repeat (split; [set_solver || done|]).
    intros k. rewrite decide_False; [done|]. set_solver.
  - intros Hc. apply M_bind_Ok in Hc as (v1 & [] & Hi & Hc).
    apply M_bind_Ok in Hc as (v2 & us & Hc & [= <- _]).
    unfold insert_waiting in Hi. apply M_bind_Ok in Hi as (v0 & [] & Hg & Hi).
    unfold require, guard_ok, liftr in Hg. injection Hg as <- _.
    destruct (insert_new _ _ _) as [t|] eqn:Hn; [|done]. injection Hi as <-.
    unfold insert_new in Hn. destruct (v_waiting v !! (task, id)) eqn:Hid; [done|]. injection Hn as <-.
    destruct (IH _ _ _ Hc) as (Hnd & Hnew & Hcd & Hm & Hmp & Hp & Hw). cbn in *.
    assert (id ∉ ids) as Hni.
    { intros Hin. specialize (Hnew id Hin). by rewrite lookup_insert_eq in Hnew. }
    split; [by constructor|]. split.
    + intros s [->|Hs]%elem_of_cons; [done|]. specialize (Hnew s Hs).
      by apply lookup_insert_None in Hnew as [? _].
    + do 4 (split; [done|]). intros [t' s]. rewrite Hw. cbn.
      destruct (decide (t' = task /\ s ∈ ids)) as [[-> Hs]|Hno].
      * rewrite decide_True; [done|]. split; [done|by right].
      * destruct (decide ((task, id) = (t', s))) as [[= <- <-]|Hne].
        -- rewrite lookup_insert_eq, decide_True; [done|]. split; [done|by left].
        -- rewrite lookup_insert_ne by done. rewrite decide_False; [done|].
           intros [-> [->|Hs]%elem_of_cons]; [done|]. naive_solver.
Qed.

Lemma persist_waiting_spec input ids now db db' :
  persist_waiting input ids now db = (db', Ok tt) ->
  exists v, db' = with_verdict v db /\
    forall s, v_waiting v !! (in_task_id input, s) = if decide (s ∈ ids) then Some now else None.
Proof.
  unfold persist_waiting. rewrite decision_atomically_Ok. intros (v & Hv & ->). exists v. split; [done|].
  apply M_bind_Ok in Hv as (v1 & [] & Hd & Hv). apply M_bind_Ok in Hv as (v2 & us & Hi & [= <-]).
  intros s. cbn. apply insert_waiting_all in Hi as (_ & _ & _ & _ & _ & _ & Hw). rewrite Hw. cbn.
  replace v1 with (delete_waiting (in_task_id input) (verdict db)).1 by (by rewrite Hd).
  rewrite delete_waiting_lookup, (decide_True _ _ (eq_refl (in_task_id input))).
  destruct (decide (s ∈ ids)) as [Hs|Hs]; [by rewrite decide_True|rewrite decide_False; naive_solver].
Qed.

(** ** What an evaluation may do to the inventory: ask for manifests *)

Definition asked : QbitRow -> QbitRow := with_manifest_state (lit "stale").

Definition asks (q q' : gmap str QbitRow) : Prop :=
  forall id, q' !! id = q !! id \/
    exists row, q !! id = Some row /\ qt_manifest_state row = lit "unloaded" /\ q' !! id = Some (asked row).

#[local] Instance asks_preorder : PreOrder asks.
Proof.
  split; [intros q id; by left|]. intros q1 q2 q3 H12 H23 id.
  destruct (H12 id) as [E|(row & Hr & Hs & E)], (H23 id) as [E'|(row' & Hr' & Hs' & E')].
  - left. congruence.
  - right. exists row'. split; [congruence|done].
  - right. exists row. split; [done|]. split; [done|congruence].
  - rewrite E in Hr'. injection Hr' as <-. done.
Qed.

Lemma request_manifest_spec id db db' :
  request_manifest id db = (db', Ok tt) ->
  exists q, db' = with_torrents q db /\ asks (sporos_qbit_torrent db) q /\
    forall row, q !! id = Some row -> qt_manifest_state row <> lit "unloaded".
Proof.
  unfold request_manifest. intros [= <-].
  destruct (update_where _ _ _ _) as [q n] eqn:Hu. exists q. split; [done|].
  apply update_where_spec in Hu as [(_ & -> & Hno)|(_ & row & Hr & Hc & ->)].
  - split; [reflexivity|]. intros row Hr He. specialize (Hno row Hr).
    by rewrite He, str_eqb_refl in Hno.
  - apply str_eqb_spec in Hc. split.
    + intros id'. destruct (decide (id = id')) as [<-|Hne]; [|left; by apply lookup_insert_ne].
      right. exists row. by rewrite lookup_insert_eq.
    + intros row'. rewrite lookup_insert_eq. by intros [= <-].
Qed.

Definition ready (candidate : TorrentManifest) (source : LoadedSource) : bool :=
  ls_complete source && (ls_manifest_loaded source || same_identity candidate (ls_manifest source)).

Definition id_of (source : LoadedSource) : str := lsm_id (ls_manifest source).

(** The sources that are not ready are waited for, and those that are complete
    have been asked for their manifest. *)
Lemma sort_sources_spec candidate sources w a db db' r :
  sort_sources candidate sources w a db = (db', r) ->
  exists q, db' = with_torrents q db /\ asks (sporos_qbit_torrent db) q /\
    r = Ok (w ++ map id_of (filter (fun s => ready candidate s = false) sources),
            a ++ map ls_manifest (filter (fun s => ready candidate s = true) sources)) /\
    forall s, s ∈ sources -> ready candidate s = false -> ls_complete s = true ->
      forall row, q !! id_of s = Some row -> qt_manifest_state row <> lit "unloaded".
Proof.
  revert w a db. induction sources as [|s sources IH]; intros w a db; cbn [sort_sources].
  - intros [= <- <-]. exists (sporos_qbit_torrent db). rewrite !app_nil_r.
    split; [by destruct db|]. split; [reflexivity|]. split; [done|]. set_solver.
  - destruct (ready candidate s) eqn:Hrd.
    + pose proof Hrd as Hrd'. unfold ready in Hrd'. apply andb_true_iff in Hrd' as [-> ->]. cbn [negb].
      intros Hs. destruct (IH _ _ _ Hs) as (q & -> & Hq & -> & Hall). exists q.
      do 2 (split; [done|]). split.
      * rewrite filter_cons_False, filter_cons_True by congruence.
        cbn [map]. by rewrite <- app_assoc.
      * intros s' [->|Hin]%elem_of_cons; [congruence|by apply Hall].
    + destruct (ls_complete s) eqn:Hc; cbn [negb].
      * unfold ready in Hrd. rewrite Hc in Hrd. cbn in Hrd. rewrite Hrd. intros Hs.
        unfold mbind, M_bind in Hs. destruct (request_manifest (lsm_id (ls_manifest s)) db) as [db1 [[]|e]] eqn:Hreq;
          [|done].
        apply request_manifest_spec in Hreq as (q1 & -> & Hq1 & Hst).
        destruct (IH _ _ _ Hs) as (q & -> & Hq & -> & Hall). exists q.
        split; [done|]. split; [by etransitivity|]. split.
        -- rewrite filter_cons_True, filter_cons_False by (unfold ready; rewrite Hc, Hrd; done).
           cbn [map]. by rewrite <- app_assoc.
        -- intros s' [->|Hin]%elem_of_cons; [|by apply Hall]. intros _ _ row Hrow.
           destruct (Hq (id_of s)) as [E|(row' & _ & _ & E)]; cbn in E.
           ++ apply Hst. unfold id_of in *. congruence.
           ++ rewrite Hrow in E. by injection E as ->.
      * intros Hs. destruct (IH _ _ _ Hs) as (q & -> & Hq & -> & Hall). exists q.
        do 2 (split; [done|]). split.
        -- rewrite filter_cons_True, filter_cons_False by (unfold ready; rewrite Hc; done).
           cbn [map]. by rewrite <- app_assoc.
        -- intros s' [->|Hin]%elem_of_cons; [congruence|by apply Hall].
Qed.

(** ** Where the sources come from *)

(** A file of a source's manifest is a stored, available file of that source. *)
Definition stored_file (db : Library) (source_id : str) (f : LocalSourceFile) : Prop :=
  exists row, sporos_source_file db !! lsf_id f = Some row /\ sf_source_id row = source_id /\
    sf_available row = true /\ sf_size row = lsf_size f /\ sf_display_path row = lsf_path f /\
    sf_device row = lsf_device_id f /\ sf_inode row = lsf_inode f.

Definition stored_source (db : Library) (s : LoadedSource) : Prop :=
  (exists row, sporos_qbit_torrent db !! id_of s = Some row /\ qt_available row = true /\
     ls_complete s = qt_is_complete row /\
     ls_manifest_loaded s = (0 <? qt_manifest_version row) && str_eqb (qt_manifest_state row) (lit "loaded") /\
     lsm_hashes (ls_manifest s) = mkInfoHashes (qt_v1_hash row) (qt_v2_hash row)) \/
  (exists row, sporos_data_source db !! id_of s = Some row /\ dt_available row = true /\
     ls_complete s = true /\ ls_manifest_loaded s = true).

Lemma cw_to_u64_Ok z f a : cw_to_u64 z f = Ok a <-> a = z /\ 0 <= z.
Proof.
  unfold cw_to_u64, u64_try_from. destruct (Z.leb_spec 0 z); cbn; [naive_solver|].
  split; [done|]. intros [_ ?]. lia.
Qed.

Lemma cw_optional_Ok o f a : cw_optional_u64 o f = Ok a -> a = o.
Proof.
  destruct o as [z|]; cbn; [|by intros [= <-]]. destruct (cw_to_u64 z f) as [b|] eqn:E; cbn; [|done].
  apply cw_to_u64_Ok in E as [-> _]. by intros [= <-].
Qed.

Lemma source_file_stored db p f :
  sporos_source_file db !! p.1 = Some p.2 -> sf_available p.2 = true -> source_file p = Ok f ->
  lsf_id f = p.1 /\ stored_file db (sf_source_id p.2) f.
Proof.
  intros Hp Ha Hf. unfold source_file in Hf.
  apply bind_Ok in Hf as (id & [-> _]%cw_to_u64_Ok & Hf).
  apply bind_Ok in Hf as (size & [-> _]%cw_to_u64_Ok & Hf).
  apply bind_Ok in Hf as (device & ->%cw_optional_Ok & Hf).
  apply bind_Ok in Hf as (inode & ->%cw_optional_Ok & [= <-]). cbn.
  split; [done|]. exists p.2. done.
Qed.

Lemma manifest_rows_elem db id version p :
  p ∈ manifest_rows db id version ->
  sporos_source_file db !! p.1 = Some p.2 /\ sf_source_id p.2 = id /\ sf_available p.2 = true.
Proof.
  unfold manifest_rows. rewrite elem_of_sort_by, list_elem_of_filter.
  intros [(? & ? & ?) Hin]. destruct p as [k row]. by apply elem_of_map_to_list in Hin.
Qed.

Lemma manifest_rows_NoDup db id version : NoDup (map fst (manifest_rows db id version)).
Proof.
  unfold manifest_rows. rewrite sort_by_Permutation.
  eapply sublist_NoDup; [apply (NoDup_fst_map_to_list (sporos_source_file db))|].
  apply (fmap_sublist fst), sublist_filter.
Qed.

Lemma source_files_stored db id version limit files :
  source_files db id version limit = Ok (Some files) ->
  NoDup (map lsf_id files) /\ Forall (stored_file db id) files.
Proof.
  unfold source_files. destruct (_ <? _); [done|].
  set (rows := take _ (manifest_rows db id version)).
  assert (forall p, p ∈ rows -> p ∈ manifest_rows db id version) as Hsub.
  { intros p Hp. by eapply elem_of_submseteq; [exact Hp|apply submseteq_take]. }
  assert (NoDup (map fst rows)) as Hnd.
  { unfold rows. rewrite <- firstn_map. eapply sublist_NoDup; [|apply sublist_take].
    apply manifest_rows_NoDup. }
  destruct (collect source_file rows) as [files'|e] eqn:Hc; cbn; [|done]. intros [= <-].
  apply collect_Forall2 in Hc.
  assert (map lsf_id files' = map fst rows /\ Forall (stored_file db id) files') as [-> Hf]; [|done].
  clear Hnd. clearbody rows. induction Hc as [|p f rows files' Hp _ IH]; [done|].
  destruct IH as [IHm IHf]; [intros q Hq; apply Hsub; by right|].
  destruct (manifest_rows_elem db id version p) as (Hrow & Hid & Hav); [apply Hsub; by left|].
  destruct (source_file_stored db p f Hrow Hav Hp) as [Hlsf Hst]. rewrite Hid in Hst.
  cbn [map]. rewrite Hlsf, IHm. split; [done|]. by constructor.
Qed.

(** A source as the decision uses it: taken from an inventory, with its files when
    they are needed. *)
Definition loaded_source (db : Library) (candidate : TorrentManifest) (s : LoadedSource) : Prop :=
  stored_source db s /\ lsm_available (ls_manifest s) = true /\
  NoDup (map lsf_id (lsm_files (ls_manifest s))) /\
  Forall (stored_file db (id_of s)) (lsm_files (ls_manifest s)).

Lemma fill_source_loaded db candidate s s' :
  stored_source db s -> lsm_available (ls_manifest s) = true -> lsm_files (ls_manifest s) = [] ->
  fill_source db candidate s = Ok s' -> loaded_source db candidate s' /\ id_of s' = id_of s.
Proof.
  intros Hst Hav Hno Hf. unfold fill_source in Hf. destruct (negb (needs_files candidate s)).
  - injection Hf as <-. split; [|done]. split; [done|]. split; [done|].
    rewrite Hno. split; constructor.
  - destruct (source_files _ _ _ _) as [[files|]|] eqn:E; try done. injection Hf as <-.
    split; [|done]. split; [done|]. split; [done|]. by eapply source_files_stored.
Qed.

Lemma qbit_source_stored db p s :
  sporos_qbit_torrent db !! p.1 = Some p.2 -> qt_available p.2 = true -> qbit_source db p = Ok s ->
  stored_source db s /\ lsm_available (ls_manifest s) = true /\ lsm_files (ls_manifest s) = [] /\ id_of s = p.1.
Proof.
  destruct p as [id row]. intros Hp Ha Hs. unfold qbit_source in Hs.
  apply bind_Ok in Hs as (release & _ & [= <-]). split; [|done]. left. by exists row.
Qed.

Lemma data_source_stored db p s :
  sporos_data_source db !! p.1 = Some p.2 -> dt_available p.2 = true -> data_source db p = Ok s ->
  stored_source db s /\ lsm_available (ls_manifest s) = true /\ lsm_files (ls_manifest s) = [] /\ id_of s = p.1.
Proof.
  destruct p as [id row]. intros Hp Ha Hs. unfold data_source in Hs.
  apply bind_Ok in Hs as (release & _ & [= <-]). split; [|done]. right. by exists row.
Qed.

Lemma qbit_rows_elem db release filters p :
  p ∈ qbit_rows db release filters ->
  sporos_qbit_torrent db !! p.1 = Some p.2 /\ qt_available p.2 = true.
Proof.
  unfold qbit_rows. intros Hp. eapply elem_of_submseteq in Hp; [|apply submseteq_take].
  apply elem_of_sort_by, list_elem_of_filter in Hp as [Ht Hin]. destruct p as [id row].
  apply elem_of_map_to_list in Hin. split; [done|]. unfold selected in Ht.
  by apply andb_true_iff in Ht as [[? _]%andb_true_iff _].
Qed.

Lemma data_rows_elem db release n p :
  p ∈ data_rows db release n ->
  sporos_data_source db !! p.1 = Some p.2 /\ dt_available p.2 = true.
Proof.
  unfold data_rows. intros Hp. eapply elem_of_submseteq in Hp; [|apply submseteq_take].
  apply elem_of_sort_by, list_elem_of_filter in Hp as [Ht Hin]. destruct p as [id row].
  apply elem_of_map_to_list in Hin. split; [done|]. by apply andb_true_iff in Ht as [? _].
Qed.

(** A page of a sorted selection of a table has every key once. *)
Lemma page_NoDup {A} (P : str * A -> Prop) `{!forall x, Decision (P x)}
    (leb : str * A -> str * A -> bool) (n : nat) (t : gmap str A) :
  NoDup (map fst (take n (sort_by leb (filter P (map_to_list t))))).
Proof.
  rewrite <- firstn_map. eapply sublist_NoDup; [|apply sublist_take].
  rewrite sort_by_Permutation. eapply sublist_NoDup; [apply (NoDup_fst_map_to_list t)|].
  apply (fmap_sublist fst), sublist_filter.
Qed.

Lemma collect_sources {A} db (f : str * A -> result CandidateWorkflowError LoadedSource) rows sources :
  (forall p s, p ∈ rows -> f p = Ok s ->
     stored_source db s /\ lsm_available (ls_manifest s) = true /\ lsm_files (ls_manifest s) = [] /\
     id_of s = p.1) ->
  collect f rows = Ok sources ->
  map id_of sources = map fst rows /\
  Forall (fun s => stored_source db s /\ lsm_available (ls_manifest s) = true /\
                   lsm_files (ls_manifest s) = []) sources.
Proof.
  intros Hf Hc. apply collect_Forall2 in Hc. induction Hc as [|p s rows sources Hp _ IH]; [done|].
  destruct IH as [IHm IHf]; [intros q q' Hq; apply Hf; by right|].
  destruct (Hf p s) as (Hst & Hav & Hno & Hid); [by left|done|]. cbn [map]. rewrite Hid, IHm.
  split; [done|]. by constructor.
Qed.

Lemma candidate_sources_loaded candidate release policy db sources :
  candidate_sources candidate release policy db = Ok (Loaded sources) ->
  Forall (loaded_source db candidate) sources /\
  (dom (sporos_qbit_torrent db) ## dom (sporos_data_source db) -> NoDup (map id_of sources)).
Proof.
  unfold candidate_sources. intros Hs.
  apply bind_Ok in Hs as (qbit & Hq & Hs). apply bind_Ok in Hs as (data & Hd & Hs).
  apply (collect_sources db) in Hq as [Hqi Hqf].
  2: { intros p s Hp. destruct (qbit_rows_elem _ _ _ _ Hp). by apply qbit_source_stored. }
  apply (collect_sources db) in Hd as [Hdi Hdf].
  2: { intros p s Hp. destruct (data_rows_elem _ _ _ _ Hp). by apply data_source_stored. }
  destruct (try_fold _ _ _); [|done].
  destruct (collect (fill_source db candidate) _) as [filled|[|]] eqn:Hfill; [|done..]. injection Hs as <-.
  apply collect_Forall2 in Hfill. assert (map id_of filled = map id_of (qbit ++ data) /\
    Forall (loaded_source db candidate) filled) as [Hids Hall].
  { pose proof (Forall_app_2 _ _ _ Hqf Hdf) as Hf. clear Hqf Hdf Hqi Hdi.
    induction Hfill as [|s s' l l' Hss _ IH]; [done|]. apply Forall_cons in Hf as [(Hst & Hav & Hno) Hf].
    destruct (IH Hf) as [IHm IHf]. destruct (fill_source_loaded _ _ _ _ Hst Hav Hno Hss) as [Hl Hid].
    cbn [map]. rewrite Hid, IHm. split; [done|]. by constructor. }
  split; [done|]. intros Hdisj. rewrite Hids, map_app, Hqi, Hdi.
  apply NoDup_app. split; [apply page_NoDup|]. split; [|apply page_NoDup].
  intros id Hid1 Hid2. apply list_elem_of_fmap in Hid1 as (p & -> & Hp).
  apply list_elem_of_fmap in Hid2 as (p' & Heq & Hp').
  apply qbit_rows_elem in Hp as [Hp _]. apply data_rows_elem in Hp' as [Hp' _]. rewrite <- Heq in Hp'.
  apply (Hdisj p.1); apply elem_of_dom; eauto.
Qed.

(** ** Waiting *)

Lemma persist_terminal_Ok input loaded d now db db' r :
  persist_terminal input loaded d now db = (db', Ok r) ->
  exists v t plan_id,
    record_decision input loaded d now db (verdict db) = (v, Ok plan_id) /\
    project_candidate_task (in_task_id input)
      (terminal_state d (dry_run (injection (lc_policy loaded)))) (Some (reason_text (md_reason d)))
      (negb (str_eqb (terminal_state d (dry_run (injection (lc_policy loaded)))) (lit "planned")))
      (encode_ids (hex (first_16 (match_digest input d))) (hex <$> plan_id)) now (tasks db) = (t, Ok ()) /\
    db' = with_tasks t (with_verdict v db) /\
    r = Terminal (terminal_state d (dry_run (injection (lc_policy loaded)))) (reason_text (md_reason d))
          (first_16 (match_digest input d)) plan_id.
Proof.
  unfold persist_terminal. intros Hp. apply M_bind_Ok in Hp as (db1 & plan_id & Ha & Hp).
  apply decision_atomically_Ok in Ha as (v & Hv & ->).
  apply M_bind_Ok in Hp as (db2 & [] & Ht & [= <- <-]). apply on_tasks_Ok in Ht as (t & Ht & ->).
  exists v, t, plan_id. done.
Qed.

(** The source [id] cannot be matched yet, and has been asked for what it lacks. *)
Definition pending (db : Library) (id : str) : Prop :=
  exists row, sporos_qbit_torrent db !! id = Some row /\ qt_available row = true /\
    (qt_is_complete row = false \/
     qt_manifest_state row <> lit "unloaded" /\
     (0 <? qt_manifest_version row) && str_eqb (qt_manifest_state row) (lit "loaded") = false).

Lemma unready_pending candidate db q s :
  stored_source db s -> asks (sporos_qbit_torrent db) q -> ready candidate s = false ->
  (ls_complete s = true -> forall row, q !! id_of s = Some row -> qt_manifest_state row <> lit "unloaded") ->
  pending (with_torrents q db) (id_of s).
Proof.
  intros [(row & Hrow & Hav & Hc & Hl & _)|(row & _ & _ & Hc & Hl)] Hq Hr Hst.
  2: { unfold ready in Hr. by rewrite Hc, Hl in Hr. }
  destruct (Hq (id_of s)) as [E|(row' & Hrow' & _ & E)].
  - exists row. cbn [sporos_qbit_torrent with_torrents with_inventory n_torrent]. rewrite E. split; [done|]. split; [done|].
    destruct (qt_is_complete row) eqn:Hqc; [right|by left]. split; [by apply Hst; [|congruence]|].
    rewrite <- Hl. unfold ready in Hr. rewrite Hc in Hr. cbn in Hr.
    by apply orb_false_iff in Hr as [? _].
  - exists (asked row'). cbn [sporos_qbit_torrent with_torrents with_inventory n_torrent]. assert (row' = row) as -> by congruence. split; [done|]. split; [done|].
    right. split; [done|]. by rewrite andb_comm.
Qed.

(** C6: A candidate waits only while that can help and only until its deadline.  When
    an evaluation ends in a wait, the deadline has not passed, the wait ends at the
    deadline or after five minutes, the sources waited for are not empty, listed
    once each and recorded for the task, and each is an available torrent that is
    incomplete or whose file list has been asked for.  From the deadline on every
    evaluation decides. *)
Theorem waits_only_for_pending_sources input now db db' delay ids :
  evaluate_candidate input now db = (db', Ok (Waiting delay ids)) ->
  exists loaded limit,
    load_candidate input db = Ok loaded /\ deadline loaded = Ok limit /\ now < limit /\
    delay = Z.min (limit - now) RECONCILE_INTERVAL_MS /\
    ids <> [] /\ StronglySorted str_ltb ids /\
    (forall s, sporos_waiting_source db' !! (in_task_id input, s)
               = if decide (s ∈ ids) then Some now else None) /\
    forall id, id ∈ ids -> pending db' id.
Proof.
  intros He. unfold evaluate_candidate in He.
  apply M_bind_Ok in He as (db1 & loaded & Hl & He). apply fetch_Ok in Hl as [-> Hl].
  apply M_bind_Ok in He as (db1 & sources & Hs & He). apply fetch_Ok in Hs as [-> Hs].
  destruct sources as [sources|]; [|by apply persist_terminal_Ok in He as (? & ? & ? & _ & _ & _ & [=])].
  apply candidate_sources_loaded in Hs as [Hsrc _].
  apply M_bind_Ok in He as (db1 & [waiting available] & Hsort & He).
  apply sort_sources_spec in Hsort as (q & -> & Hq & [= -> ->] & Hasked). cbn [app] in *.
  apply M_bind_Ok in He as (db1 & d & Hd & He). unfold liftr in Hd. injection Hd as <- Hd.
  destruct (_ && _) eqn:Hcond; [|by apply persist_terminal_Ok in He as (? & ? & ? & _ & _ & _ & [=])].
  apply M_bind_Ok in He as (db1 & limit & Hlim & He). unfold liftr, fallible in Hlim. injection Hlim as <- Hlim.
  destruct (deadline loaded) as [limit'|] eqn:Hdl; [|done]. injection Hlim as ->.
  destruct (Z.ltb_spec now limit); [|by apply persist_terminal_Ok in He as (? & ? & ? & _ & _ & _ & [=])].
  apply andb_true_iff in Hcond as [_ Hne%negb_true_iff%bool_decide_eq_false].
  unfold wait in He. set (ids' := dedup _) in He.
  apply M_bind_Ok in He as (db1 & [] & Hp & He). apply persist_waiting_spec in Hp as (v & -> & Hw).
  apply M_bind_Ok in He as (db1 & [] & Ht & [= <- <- <-]). apply on_tasks_Ok in Ht as (t & Ht & ->).
  assert (forall s, s ∈ ids' <-> s ∈ map id_of (filter (fun s => ready (lc_manifest loaded) s = false) sources)) as Hids.
  { intros s. unfold ids'. by rewrite elem_of_dedup, elem_of_sort_by. }
  exists loaded, limit. split; [done|]. split; [done|]. split; [done|]. split.
  { rewrite (Z.max_r i64_min) by (unfold i64_min, i64_max; lia).
    unfold u64_try_from. rewrite (proj2 (Z.leb_le 0 _)) by (unfold i64_max; lia). cbn.
    unfold id, RECONCILE_INTERVAL_MS, i64_max. lia. }
  split.
  { intros Hnil. apply Hne. apply elem_of_nil_inv. intros s. rewrite <- Hids, Hnil. apply not_elem_of_nil. }
  split; [apply dedup_sorted, sort_by_sorted; eauto with sporos|]. split; [exact Hw|].
  intros id Hid. apply Hids, list_elem_of_fmap in Hid as (s & -> & [Hr Hin]%list_elem_of_filter).
  rewrite Forall_forall in Hsrc. destruct (Hsrc s Hin) as [Hst _].
  change (pending (with_torrents q db) (id_of s)).
  apply (unready_pending (lc_manifest loaded)); [done|done|done|]. intros Hc. by apply (Hasked s Hin Hr Hc).
Qed.
End Waits.

(** ** What a plan rests on *)

Section Plans.
Context `{Unicode} `{Json} `{Digest} `{CandidateCodec} `{DecisionCodec}.

Abbreviation Stmt A := (M Verdict CandidateWorkflowError A).

Definition mapping_row (fm : FileMapping) : MappingRow :=
  mkMappingRow (fm_source_id fm) (fm_source_file_id fm) (fm_candidate_path fm) (fm_size fm) (fm_score fm).

Lemma cw_to_i64_Ok z f a : cw_to_i64 z f = Ok a -> a = z.
Proof. unfold cw_to_i64, i64_try_from. destruct (_ <=? _); cbn; [by intros [= <-]|done]. Qed.

Lemma insert_mapping_spec db mid fm v v' :
  insert_mapping db mid fm v = (v', Ok ()) ->
  v_match v' = v_match v /\ v_plan v' = v_plan v /\ v_mapping v ⊆ v_mapping v' /\
  is_Some (v_mapping v' !! (mid, fm_candidate_ordinal fm)) /\
  forall k m, v_mapping v' !! k = Some m -> v_mapping v !! k = Some m \/
    k = (mid, fm_candidate_ordinal fm) /\ m = mapping_row fm /\
    is_Some (sporos_source_file db !! fm_source_file_id fm).
Proof.
  unfold insert_mapping. intros Hi. apply M_bind_Ok in Hi as (v1 & id & [= <- Hid%cw_to_i64_Ok] & Hi).
  apply M_bind_Ok in Hi as (v1 & size & [= <- Hsz%cw_to_i64_Ok] & Hi). subst.
  unfold insert_new in Hi. destruct (v_mapping v !! _) as [old|] eqn:Hold.
  - injection Hi as <-. do 3 (split; [done|]). split; [by rewrite Hold|]. by left.
  - destruct (bool_decide _) eqn:Hfk; [|done]. injection Hi as <-. cbn.
    split; [done|]. split; [done|]. split; [by apply insert_subseteq|].
    split; [by rewrite lookup_insert_eq|].
    intros k m. destruct (decide ((mid, fm_candidate_ordinal fm) = k)) as [<-|Hne].
    + rewrite lookup_insert_eq. intros [= <-]. right. split; [done|]. split; [done|].
      by apply bool_decide_eq_true in Hfk.
    + rewrite lookup_insert_ne by done. by left.
Qed.

Lemma insert_mappings_spec db mid fms v v' l :
  collectM (insert_mapping db mid) fms v = (v', Ok l) ->
  v_match v' = v_match v /\ v_plan v' = v_plan v /\ v_mapping v ⊆ v_mapping v' /\
  (forall fm, fm ∈ fms -> is_Some (v_mapping v' !! (mid, fm_candidate_ordinal fm))) /\
  forall k m, v_mapping v' !! k = Some m -> v_mapping v !! k = Some m \/
    exists fm, fm ∈ fms /\ k = (mid, fm_candidate_ordinal fm) /\ m = mapping_row fm /\
      is_Some (sporos_source_file db !! fm_source_file_id fm).
Proof.
  revert v l. induction fms as [|fm fms IH]; intros v l; cbn [collectM].
  - intros [= <- _]. do 3 (split; [done|]). split; [set_solver|]. by left.
  - intros Hc. apply M_bind_Ok in Hc as (v1 & [] & Hi & Hc).
    apply M_bind_Ok in Hc as (v2 & us & Hc & [= <- _]).
    destruct (insert_mapping_spec _ _ _ _ _ Hi) as (Hm1 & Hp1 & Hsub1 & Hin1 & Hrows1).
    destruct (IH _ _ Hc) as (Hm & Hp & Hsub & Hall & Hrows).
    split; [congruence|]. split; [congruence|]. split; [by etransitivity|]. split.
    + intros fm' [->|Hfm]%elem_of_cons; [|auto].
      destruct Hin1 as [m Hk]. exists m. by eapply lookup_weaken.
    + intros k m Hk. destruct (Hrows k m Hk) as [Hk1|(fm' & Hfm' & Heq)].
      * destruct (Hrows1 k m Hk1) as [?|(? & ? & ?)]; [by left|]. right. exists fm. split; [by left|done].
      * right. exists fm'. split; [by right|done].
Qed.

(** A plan as the decision describes it. *)
Definition plan_of (input : CandidateWorkflowInput) (loaded : LoadedCandidate) (mid : str) (row : PlanRow) : Prop :=
  pl_match_id row = mid /\ pl_candidate_id row = in_candidate_id input /\
  pl_resume_policy_json row = encode_resume (resume_policy (injection (lc_policy loaded))) /\
  pl_namespace_local row
  = path_join (path_join (namespace_local_root (lc_policy loaded)) (hex (take 2 (in_candidate_id input))))
      (lit "cand_" ++ hex (in_candidate_id input)) /\
  pl_state row = (if dry_run (injection (lc_policy loaded)) then lit "dry_run_complete" else lit "planned").

Lemma persist_plan_spec db input loaded d mid now v v' pid :
  persist_plan db input loaded d mid now v = (v', Ok pid) ->
  v_match v' = v_match v /\ v_mapping v' = v_mapping v /\
  exists row, v_plan v' !! pid = Some row /\ pid = first_16 (pl_digest row) /\
    (v_plan v' = v_plan v \/ v_plan v !! pid = None /\ plan_of input loaded mid row).
Proof.
  unfold persist_plan. intros Hp.
  apply M_bind_Ok in Hp as (v1 & category & [= <- _] & Hp).
  apply M_bind_Ok in Hp as (v1 & tags & [= <- _] & Hp).
  apply M_bind_Ok in Hp as (v1 & [] & Hi & Hp). apply M_bind_Ok in Hp as (v2 & stored & [= <- Hst] & Hp).
  destruct (str_eqb stored _) eqn:Hs; [|done]. cbn [negb] in Hp. injection Hp as <- <-.
  apply str_eqb_spec in Hs as ->. apply ok_or_Ok in Hst.
  destruct (v_plan v1 !! _) as [row|] eqn:Hrow; [|done]. injection Hst as Hdig.
  unfold insert_plan, insert_new in Hi. destruct (v_plan v !! _) as [old|] eqn:Hold.
  - injection Hi as <-. do 2 (split; [done|]). exists row. split; [done|]. rewrite Hdig. split; [done|by left].
  - destruct (bool_decide _); [|done]. injection Hi as <-. cbn in *. do 2 (split; [done|]).
    exists row. split; [done|]. rewrite Hdig. split; [done|]. right. split; [done|].
    rewrite lookup_insert_eq in Hrow. by injection Hrow as <-.
Qed.

Lemma record_decision_spec input loaded d now db v v' plan_id :
  record_decision input loaded d now db v = (v', Ok plan_id) ->
  let mid := first_16 (match_digest input d) in
  v_mapping v ⊆ v_mapping v' /\
  (forall fm, fm ∈ md_mappings d -> is_Some (v_mapping v' !! (mid, fm_candidate_ordinal fm))) /\
  (forall k m, v_mapping v' !! k = Some m -> v_mapping v !! k = Some m \/
    exists fm, fm ∈ md_mappings d /\ k = (mid, fm_candidate_ordinal fm) /\ m = mapping_row fm /\
      is_Some (sporos_source_file db !! fm_source_file_id fm)) /\
  (exists row, v_match v' !! mid = Some row /\ mt_decision_digest row = sha256 (encode_decision d)) /\
  (is_Some plan_id <-> md_outcome d = Match) /\
  forall pid, plan_id = Some pid -> exists row, v_plan v' !! pid = Some row /\
    (v_plan v !! pid = Some row \/ v_plan v !! pid = None /\ plan_of input loaded mid row).
Proof.
  unfold record_decision. intros Hr. cbv zeta. set (mid := first_16 (match_digest input d)) in *.
  apply M_bind_Ok in Hr as (v1 & [] & Hd & Hr).
  assert (v_mapping v1 = v_mapping v /\ v_match v1 = v_match v /\ v_plan v1 = v_plan v) as (Hmp1 & _ & Hp1)
    by (by injection Hd as <-). clear Hd.
  apply M_bind_Ok in Hr as (v2 & mb & [= <- _] & Hr). apply M_bind_Ok in Hr as (v2 & xb & [= <- _] & Hr).
  apply M_bind_Ok in Hr as (v2 & [] & Hi & Hr).
  assert (v_mapping v2 = v_mapping v /\ v_plan v2 = v_plan v) as [Hmp2 Hp2] by (by injection Hi as <-). clear Hi.
  apply M_bind_Ok in Hr as (v3 & stored & [= <- Hst] & Hr).
  apply M_bind_Ok in Hr as (v3 & [] & Hc & Hr).
  destruct (str_eqb stored _) eqn:Hs; cbn in Hc; [|done]. injection Hc as <-. apply str_eqb_spec in Hs as ->.
  apply ok_or_Ok in Hst. destruct (v_match v2 !! mid) as [row|] eqn:Hrow; [|done]. injection Hst as Hdig.
  apply M_bind_Ok in Hr as (v4 & us & Hms & Hr).
  destruct (insert_mappings_spec _ _ _ _ _ _ Hms) as (Hm4 & Hp4 & Hsub & Hall & Hrows).
  apply M_bind_Ok in Hr as (v5 & plan & Hplan & Hr). injection Hr as <- <-. cbn.
  assert (v_match v5 = v_match v4 /\ v_mapping v5 = v_mapping v4 /\ (is_Some plan <-> md_outcome d = Match) /\
    forall pid, plan = Some pid -> exists row, v_plan v5 !! pid = Some row /\
      (v_plan v4 !! pid = Some row \/ v_plan v4 !! pid = None /\ plan_of input loaded mid row))
    as (Hm5 & Hmp5 & Hiff & Hpl).
  { destruct (bool_decide (md_outcome d = Match)) eqn:Ho.
    - apply bool_decide_eq_true in Ho. apply M_bind_Ok in Hplan as (v6 & pid & Hp & [= <- <-]).
      apply persist_plan_spec in Hp as (Hm & Hmp & prow & Hprow & _ & Hcase).
      do 2 (split; [done|]). split; [naive_solver|]. intros pid' [= <-]. exists prow. split; [done|].
      destruct Hcase as [<-|?]; [by left|by right].
    - apply bool_decide_eq_false in Ho. injection Hplan as <- <-. do 2 (split; [done|]).
      split; [split; [by intros []|done]|done]. }
  rewrite Hmp5. rewrite Hmp2 in Hsub, Hrows. rewrite Hp4, Hp2 in Hpl.
  do 3 (split; [done|]). split; [exists row; by rewrite Hm5, Hm4|]. done.
Qed.

(** What the sources at hand decide, if they do. *)
Definition ready_manifests (loaded : LoadedCandidate) (sources : list LoadedSource) : list LocalSourceManifest :=
  map ls_manifest (filter (fun s => ready (lc_manifest loaded) s = true) sources).
Definition unready (loaded : LoadedCandidate) (sources : list LoadedSource) : list str :=
  map id_of (filter (fun s => ready (lc_manifest loaded) s = false) sources).

Definition decides (loaded : LoadedCandidate) (db : Library) (now : Z) (d : MatchDecision) : Prop :=
  match candidate_sources (lc_manifest loaded) (lc_release loaded) (lc_policy loaded) db with
  | Err _ => False
  | Ok BudgetExceeded => d = matcher_budget_rejection loaded
  | Ok (Loaded sources) =>
      exists d0, Matcher.evaluate (request loaded (ready_manifests loaded sources)) = Some d0 /\
        if bool_decide (md_outcome d0 = NoMatch) && negb (bool_decide (unready loaded sources = []))
        then exists limit, deadline loaded = Ok limit /\ limit <= now /\ d = rejected_source_timeout d0
        else d = d0
  end.

(** Every source that must be waited for and is complete has been asked for its
    manifest. *)
Definition all_asked (loaded : LoadedCandidate) (db : Library) (q : gmap str QbitRow) : Prop :=
  forall sources,
    candidate_sources (lc_manifest loaded) (lc_release loaded) (lc_policy loaded) db = Ok (Loaded sources) ->
    forall s, s ∈ sources -> ready (lc_manifest loaded) s = false -> ls_complete s = true ->
    forall row, q !! id_of s = Some row -> qt_manifest_state row <> lit "unloaded".

Lemma evaluate_terminal input now db db' state reason mid plan_id :
  evaluate_candidate input now db = (db', Ok (Terminal state reason mid plan_id)) ->
  exists loaded d q v t,
    load_candidate input db = Ok loaded /\ decides loaded db now d /\ asks (sporos_qbit_torrent db) q /\
    record_decision input loaded d now (with_torrents q db) (verdict db) = (v, Ok plan_id) /\
    db' = with_tasks t (with_verdict v (with_torrents q db)) /\
    state = terminal_state d (dry_run (injection (lc_policy loaded))) /\
    reason = reason_text (md_reason d) /\ mid = first_16 (match_digest input d) /\
    project_candidate_task (in_task_id input) state (Some reason)
      (negb (str_eqb state (lit "planned"))) (encode_ids (hex mid) (hex <$> plan_id)) now (tasks db) = (t, Ok ()) /\
    all_asked loaded db q.
Proof.
  intros He. unfold evaluate_candidate in He.
  apply M_bind_Ok in He as (db1 & loaded & Hl & He). apply fetch_Ok in Hl as [-> Hl].
  apply M_bind_Ok in He as (db1 & sources & Hs & He). apply fetch_Ok in Hs as [-> Hs].
  assert (forall q d, asks (sporos_qbit_torrent db) q -> all_asked loaded db q -> decides loaded db now d ->
    persist_terminal input loaded d now (with_torrents q db) = (db', Ok (Terminal state reason mid plan_id)) ->
    exists loaded d q v t,
    load_candidate input db = Ok loaded /\ decides loaded db now d /\ asks (sporos_qbit_torrent db) q /\
    record_decision input loaded d now (with_torrents q db) (verdict db) = (v, Ok plan_id) /\
    db' = with_tasks t (with_verdict v (with_torrents q db)) /\
    state = terminal_state d (dry_run (injection (lc_policy loaded))) /\
    reason = reason_text (md_reason d) /\ mid = first_16 (match_digest input d) /\
    project_candidate_task (in_task_id input) state (Some reason)
      (negb (str_eqb state (lit "planned"))) (encode_ids (hex mid) (hex <$> plan_id)) now (tasks db) = (t, Ok ()) /\
    all_asked loaded db q)
    as Hend.
  { intros q d Hq Haq Hd Hp. apply persist_terminal_Ok in Hp as (v & t & pid & Hv & Ht & -> & [= -> -> -> ->]).
    by exists loaded, d, q, v, t. }
  destruct sources as [sources|].
  2: { apply (Hend (sporos_qbit_torrent db) (matcher_budget_rejection loaded)); [by intros id; left|intros ?; by rewrite Hs| |].
       - unfold decides. by rewrite Hs.
       - by destruct db. }
  apply M_bind_Ok in He as (db1 & [waiting available] & Hsort & He).
  apply sort_sources_spec in Hsort as (q & -> & Hq & [= -> ->] & Hasked). cbn [app] in *.
  assert (all_asked loaded db q) as Haq by (intros ?; rewrite Hs; by intros [= <-]).
  apply M_bind_Ok in He as (db1 & d & Hd & He). unfold liftr in Hd. injection Hd as <- Hd.
  apply ok_or_Ok in Hd. fold (ready_manifests loaded sources) in Hd. fold (unready loaded sources) in He.
  destruct (_ && _) eqn:Hcond.
  - apply M_bind_Ok in He as (db1 & limit & Hlim & He). unfold liftr, fallible in Hlim. injection Hlim as <- Hlim.
    destruct (deadline loaded) as [limit'|] eqn:Hdl; [|done]. injection Hlim as ->.
    destruct (Z.ltb_spec now limit).
    { unfold wait in He. apply M_bind_Ok in He as (db1 & u & _ & He). by apply M_bind_Ok in He as (? & ? & _ & [=]). }
    eapply (Hend q); [done|done| |exact He]. unfold decides. rewrite Hs. exists d. split; [done|]. rewrite Hcond.
    by exists limit.
  - apply (Hend q d); [done|done| |done]. unfold decides. rewrite Hs. exists d. split; [done|]. by rewrite Hcond.
Qed.

Lemma ready_sources_distinct loaded db sources :
  candidate_sources (lc_manifest loaded) (lc_release loaded) (lc_policy loaded) db = Ok (Loaded sources) ->
  library_ok db -> MatcherProofs.sources_distinct (request loaded (ready_manifests loaded sources)).
Proof.
  intros Hs Hok. apply candidate_sources_loaded in Hs as [Hall Hnd]. specialize (Hnd (lo_sources _ Hok)).
  rewrite Forall_forall in Hall. split; cbn.
  - unfold ready_manifests. rewrite map_map. change (NoDup (map id_of (filter (fun s => ready (lc_manifest loaded) s = true) sources))).
    eapply sublist_NoDup; [exact Hnd|]. apply (fmap_sublist id_of), sublist_filter.
  - intros m Hm. apply list_elem_of_fmap in Hm as (s & -> & [_ Hin]%list_elem_of_filter). by apply Hall.
Qed.

(** The file that a mapping of a plan links, and the file of the candidate it is for. *)
Definition links_real_file (db : Library) (manifest : TorrentManifest) (ordinal : Z) (m : MappingRow) : Prop :=
  exists f row, f ∈ tm_files manifest /\ tf_padding f = false /\ tf_ordinal f = ordinal /\
    mp_candidate_path m = tf_path f /\ mp_size m = tf_size f /\
    sporos_source_file db !! mp_source_file_id m = Some row /\ sf_source_id row = mp_source_id m /\
    sf_available row = true /\ sf_size row = tf_size f.

Lemma match_links db loaded sources d fm :
  MatcherProofs.request_in_range (request loaded []) ->
  candidate_sources (lc_manifest loaded) (lc_release loaded) (lc_policy loaded) db = Ok (Loaded sources) ->
  library_ok db ->
  Matcher.evaluate (request loaded (ready_manifests loaded sources)) = Some d -> md_outcome d = Match ->
  fm ∈ md_mappings d ->
  links_real_file db (lc_manifest loaded) (fm_candidate_ordinal fm) (mapping_row fm).
Proof.
  intros Hr Hs Hok Hd Hm Hfm.
  destruct (MatcherProofs.match_mappings_spec (request loaded (ready_manifests loaded sources)) d Hr (ready_sources_distinct _ _ _ Hs Hok) Hd Hm) as (_ & _ & Hsound).
  destruct (Hsound fm Hfm) as (f & src & sf & Hf & Hpad & Hsrc & _ & Hsf & Ho & Hp & Hid & Hfid & _ & Hsz & Heq & _).
  apply candidate_sources_loaded in Hs as [Hall _]. rewrite Forall_forall in Hall.
  apply list_elem_of_fmap in Hsrc as (s & -> & [_ Hin]%list_elem_of_filter).
  destruct (Hall s Hin) as (_ & _ & _ & Hfiles). rewrite Forall_forall in Hfiles.
  destruct (Hfiles sf Hsf) as (row & Hrow & Hsid & Hav & Hsize & _).
  exists f, row. cbn. rewrite Hfid, Hid. split_and!; try done. congruence.
Qed.

(** C4: A plan links real files.  When a candidate is decided for the first time with
    a plan, the plan is stored for it, under the match, and the stored mappings of
    the match are those of the matcher's decision: each is for a file of the
    candidate's torrent, at its path, and names an available file of the library of
    the same size; no two share a library file. *)
Theorem plan_maps_real_files input now db db' state reason mid pid loaded :
  library_ok db -> load_candidate input db = Ok loaded ->
  MatcherProofs.request_in_range (request loaded []) ->
  sporos_match db !! mid = None -> sporos_injection_plan db !! pid = None ->
  evaluate_candidate input now db = (db', Ok (Terminal state reason mid (Some pid))) ->
  (exists row, sporos_injection_plan db' !! pid = Some row /\ plan_of input loaded mid row /\ pl_state row = state) /\
  (forall o m, sporos_file_mapping db' !! (mid, o) = Some m -> links_real_file db' (lc_manifest loaded) o m) /\
  (forall o o' m m', sporos_file_mapping db' !! (mid, o) = Some m ->
     sporos_file_mapping db' !! (mid, o') = Some m' -> mp_source_file_id m = mp_source_file_id m' -> o = o').
Proof.
  intros Hok Hload Hrange Hmid Hpid He.
  apply evaluate_terminal in He as (loaded' & d & q & v & t & Hl & Hdec & Hq & Hrec & -> & -> & -> & -> & _).
  assert (loaded' = loaded) as -> by congruence.
  apply record_decision_spec in Hrec as (_ & _ & Hrows & _ & Hiff & Hplan).
  cbn [sporos_injection_plan sporos_file_mapping sporos_source_file with_tasks with_verdict with_torrents with_inventory n_torrent n_file verdict v_plan v_mapping] in *.
  assert (md_outcome d = Match) as Hm by (apply Hiff; by eexists).
  assert (exists sources, candidate_sources (lc_manifest loaded) (lc_release loaded) (lc_policy loaded) db = Ok (Loaded sources) /\
    Matcher.evaluate (request loaded (ready_manifests loaded sources)) = Some d) as (sources & Hs & Hd).
  { unfold decides in Hdec. destruct (candidate_sources _ _ _ _) as [[sources|]|]; [|by subst d|done].
    exists sources. split; [done|]. destruct Hdec as (d0 & Hd & Hcase).
    destruct (_ && _); [by destruct Hcase as (? & _ & _ & ->)|by subst]. }
  assert (forall o m, v_mapping v !! (first_16 (match_digest input d), o) = Some m ->
    exists fm, fm ∈ md_mappings d /\ o = fm_candidate_ordinal fm /\ m = mapping_row fm) as Hrow.
  { intros o m Ho. destruct (Hrows _ _ Ho) as [Hold|(fm & Hfm & [= ->] & -> & _)]; [|eauto].
    apply (lo_mappings _ Hok) in Hold as [? Hold]. congruence. }
  split; [|split].
  - destruct (Hplan pid eq_refl) as (row & Hrow' & [Hold|[_ Hof]]); [congruence|].
    exists row. split; [done|]. split; [done|]. destruct Hof as (_ & _ & _ & _ & ->).
    unfold terminal_state. rewrite Hm. by destruct (dry_run _).
  - intros o m Ho. destruct (Hrow o m Ho) as (fm & Hfm & -> & ->).
    exact (match_links db loaded sources d fm Hrange Hs Hok Hd Hm Hfm).
  - intros o o' m m' Ho Ho' Heq.
    destruct (Hrow o m Ho) as (fm & Hfm & -> & ->). destruct (Hrow o' m' Ho') as (fm' & Hfm' & -> & ->).
    destruct (MatcherProofs.match_mappings_spec (request loaded (ready_manifests loaded sources)) d Hrange (ready_sources_distinct _ _ _ Hs Hok) Hd Hm) as (_ & Hnd & _).
    destruct (match_links db loaded sources d fm Hrange Hs Hok Hd Hm Hfm) as (f & row & _ & _ & _ & _ & _ & Hr & Hid & _).
    destruct (match_links db loaded sources d fm' Hrange Hs Hok Hd Hm Hfm') as (f' & row' & _ & _ & _ & _ & _ & Hr' & Hid' & _).
    cbn in *. assert (fm = fm') as ->; [|done].
    apply list_elem_of_lookup in Hfm as [i Hi]. apply list_elem_of_lookup in Hfm' as [j Hj].
    assert (i = j) as ->; [|congruence].
    eapply NoDup_lookup; [exact Hnd| |]; rewrite list_lookup_fmap; [by rewrite Hi|rewrite Hj; cbn; f_equal; f_equal; congruence].
Qed.
End Plans.

(** ** Evaluating again *)

Section Again.
Context `{Unicode} `{JsonLaws} `{Digest} `{CandidateCodec} `{DecisionCodec}.

(** Lists whose elements are changed where nobody looks. *)
Lemma filter_map_same {A} (P Q : A -> Prop) `{!forall x, Decision (P x)} `{!forall x, Decision (Q x)}
    (g : A -> A) l :
  (forall x, P (g x) <-> Q x) -> filter P (map g l) = map g (filter Q l).
Proof.
  intros Hg. induction l as [|x l IH]; [done|]. cbn [map]. destruct (decide (Q x)) as [Hx|Hx].
  - assert (P (g x)) by (by apply Hg). rewrite !filter_cons_True by done. cbn [map]. by rewrite IH.
  - assert (~ P (g x)) by (by intros Hp%Hg). by rewrite !filter_cons_False.
Qed.

Lemma collect_map_in {A B C} (f : B -> result C A) (f' : B -> result C A) g l :
  (forall x, f (g x) = f' x) -> collect f (map g l) = collect f' l.
Proof. intros Hg. induction l as [|x l IH]; [done|]. cbn. by rewrite Hg, IH. Qed.

(** What a row has become after manifests were asked for. *)
Definition now_asked (q : gmap str QbitRow) (p : str * QbitRow) : str * QbitRow :=
  (p.1, if bool_decide (q !! p.1 = Some (asked p.2) /\ qt_manifest_state p.2 = lit "unloaded")
        then asked p.2 else p.2).

Lemma now_asked_spec t q id row :
  asks t q -> t !! id = Some row -> q !! id = Some (now_asked q (id, row)).2.
Proof.
  intros Ha Hr. unfold now_asked. cbn. case_bool_decide as Hb; [by destruct Hb|].
  destruct (Ha id) as [E|(row' & Hr' & Hs & E)]; [congruence|].
  assert (row' = row) as -> by congruence. by destruct Hb.
Qed.

Lemma map_to_list_asks t q :
  asks t q -> Permutation (map_to_list q) (map (now_asked q) (map_to_list t)).
Proof.
  intros Ha. apply NoDup_Permutation.
  - apply NoDup_map_to_list.
  - apply (NoDup_fmap_1 fst). rewrite <- list_fmap_compose. apply (NoDup_fst_map_to_list t).
  - intros [id row]. rewrite elem_of_map_to_list. split.
    + intros Hr. destruct (t !! id) as [row0|] eqn:Ht.
      * apply list_elem_of_fmap. exists (id, row0). split; [|by apply elem_of_map_to_list].
        pose proof (now_asked_spec t q id row0 Ha Ht) as Hn. rewrite Hr in Hn.
        injection Hn as ->. done.
      * destruct (Ha id) as [E|(? & ? & _)]; congruence.
    + intros (p & Hp & Hin)%list_elem_of_fmap. destruct p as [id0 row0].
      apply elem_of_map_to_list in Hin. injection Hp as -> ->. by apply now_asked_spec with t.
Qed.

(** The parts of the library that the sources depend on. *)
Record same_library (db db' : Library) : Prop := {
  sl_torrents : asks (sporos_qbit_torrent db) (sporos_qbit_torrent db');
  sl_data : sporos_data_source db' = sporos_data_source db;
  sl_files : sporos_source_file db' = sporos_source_file db;
  sl_titles : sporos_source_title db' = sporos_source_title db;
  sl_ids : sporos_source_external_id db' = sporos_source_external_id db }.

Lemma complete_first_total a b : complete_first a b = true \/ complete_first b a = true.
Proof.
  unfold complete_first. destruct (qt_is_complete a.2), (qt_is_complete b.2); cbn; auto; apply str_leb_total.
Qed.
Lemma complete_first_trans a b c :
  complete_first a b = true -> complete_first b c = true -> complete_first a c = true.
Proof.
  unfold complete_first. destruct (qt_is_complete a.2), (qt_is_complete b.2), (qt_is_complete c.2); cbn; auto;
    try done; apply str_leb_trans.
Qed.

Lemma qbit_rows_asked db db' release filters :
  same_library db db' ->
  qbit_rows db' release filters = map (now_asked (sporos_qbit_torrent db')) (qbit_rows db release filters).
Proof.
  intros [Ha Hd Hf Ht Hi]. unfold qbit_rows. set (g := now_asked (sporos_qbit_torrent db')).
  assert (forall p, (g p).1 = p.1 /\ qt_available (g p).2 = qt_available p.2 /\
    qt_is_complete (g p).2 = qt_is_complete p.2 /\ qt_category (g p).2 = qt_category p.2 /\
    qt_tags (g p).2 = qt_tags p.2) as Hg.
  { intros p. unfold g, now_asked. cbn. by case_bool_decide. }
  rewrite <- firstn_map, <- (sort_by_map g complete_first complete_first).
  2: { intros a b. unfold complete_first. destruct (Hg a) as (-> & _ & -> & _), (Hg b) as (-> & _ & -> & _). done. }
  f_equal. apply sort_by_Permutation_eq; [apply complete_first_total|apply complete_first_trans| |].
  - intros [id row] [id' row'] Hx Hy Hab Hba.
    apply list_elem_of_filter in Hx as [_ Hx], Hy as [_ Hy]. apply elem_of_map_to_list in Hx, Hy.
    unfold complete_first in *. cbn in *.
    assert (id = id') as <-; [|congruence].
    destruct (qt_is_complete row), (qt_is_complete row'); cbn in *; try done; by apply str_leb_antisym.
  - rewrite <- (filter_map_same (fun p => selected db' release filters p = true)
      (fun p => selected db release filters p = true) g).
    + apply filter_Permutation. by apply map_to_list_asks.
    + intros p. unfold selected. destruct (Hg p) as (-> & -> & _ & Hc & Htg). unfold plausible, admitted.
      by rewrite Ht, Hi, Hc, Htg.
Qed.

Lemma manifest_rows_same db db' id version :
  same_library db db' -> manifest_rows db' id version = manifest_rows db id version.
Proof. intros [_ _ Hf _ _]. unfold manifest_rows. by rewrite Hf. Qed.

Lemma candidate_sources_same candidate release policy db db' :
  same_library db db' ->
  candidate_sources candidate release policy db' = candidate_sources candidate release policy db.
Proof.
  intros Hs. unfold candidate_sources. rewrite (qbit_rows_asked db db') by done.
  rewrite (collect_map_in (qbit_source db') (qbit_source db)).
  2: { intros [id row]. unfold qbit_source, now_asked, file_count. cbn [fst snd].
       case_bool_decide as Hb; cbn [qt_release_json qt_is_complete qt_manifest_version qt_manifest_state
         qt_v1_hash qt_v2_hash asked]; rewrite (manifest_rows_same db db') by done; [|done].
       destruct Hb as [_ ->]. done. }
  destruct (collect (qbit_source db) _) as [qbit|e]; [|done]. cbn [mbind result_bind].
  assert (data_rows db' release (MAX_PLAUSIBLE_SOURCES - length qbit)
          = data_rows db release (MAX_PLAUSIBLE_SOURCES - length qbit)) as ->.
  { destruct Hs as [_ Hd _ Ht Hi]. unfold data_rows, plausible. by rewrite Hd, Ht, Hi. }
  assert (forall rows, collect (data_source db') rows = collect (data_source db) rows) as ->.
  { intros rows. rewrite <- (map_id rows) at 1. apply collect_map_in. intros [id row].
    unfold data_source, file_count. by rewrite (manifest_rows_same db db'). }
  destruct (collect (data_source db) _) as [data|e]; [|done]. cbn [mbind result_bind].
  destruct (try_fold _ _ _); [|done].
  assert (forall l, collect (fill_source db' candidate) l = collect (fill_source db candidate) l) as ->; [|done].
  intros l. rewrite <- (map_id l) at 1. apply collect_map_in. intros s.
  unfold fill_source, source_files. by rewrite (manifest_rows_same db db').
Qed.

(** ** Recording again *)

(** Each statement, run again where its part of the verdict is as it left it, does
    nothing. *)
Lemma delete_waiting_again task v v' w :
  delete_waiting task v = (v', Ok ()) -> v_waiting w = v_waiting v' -> delete_waiting task w = (w, Ok ()).
Proof.
  intros [= <-] Hw. unfold delete_waiting. cbn in *. rewrite map_filter_id; [by destruct w|].
  rewrite Hw. by intros k n [_ ?]%map_lookup_filter_Some.
Qed.

Lemma insert_match_again mid row w :
  is_Some (v_match w !! mid) -> insert_match mid row w = (w, Ok ()).
Proof. intros [r Hr]. unfold insert_match, insert_new. rewrite Hr. by destruct w. Qed.

(** What writing the state of a candidate again does write: when. *)
Definition touched_row (now : Z) (row : CandidateRow) : CandidateRow :=
  mkCandidateRow (cd_blob_sha256 row) (cd_v1_hash row) (cd_v2_hash row) (cd_manifest_digest row)
    (cd_display_name row) (cd_release_json row) (cd_state row) (cd_created_at row) now
    (cd_manifest_json row).

Definition touched_verdict (id : str) (now : Z) (v : Verdict) : Verdict :=
  mkVerdict (alter (touched_row now) id (v_candidate v)) (v_waiting v) (v_match v) (v_mapping v) (v_plan v).

(** The database with nothing changed but the candidate's [updated_at]. *)
Definition touched (id : str) (now : Z) (db : Library) : Library :=
  with_verdict (touched_verdict id now (verdict db)) db.

Lemma set_state_again id st now now' v v' w :
  set_candidate_state id st now v = (v', Ok ()) -> v_candidate w = v_candidate v' ->
  set_candidate_state id st now' w = (touched_verdict id now' w, Ok ()).
Proof.
  unfold set_candidate_state, update_where, touched_verdict. intros [= <-] Hw. cbn in Hw. rewrite Hw.
  destruct (v_candidate v !! id) as [c|] eqn:Hc; cbn in *.
  - rewrite lookup_insert_eq. cbn. by rewrite insert_insert_eq, alter_insert_eq.
  - rewrite Hc. cbn. by rewrite alter_id by (intros y Hy; congruence).
Qed.

Lemma insert_mapping_again db db' mid fm v v' w :
  sporos_source_file db' = sporos_source_file db ->
  insert_mapping db mid fm v = (v', Ok ()) -> is_Some (v_mapping w !! (mid, fm_candidate_ordinal fm)) ->
  insert_mapping db' mid fm w = (w, Ok ()).
Proof.
  intros Hf Hi [m Hw]. unfold insert_mapping, mbind, M_bind, liftr in *.
  destruct (cw_to_i64 (fm_source_file_id fm) _); [|done]. destruct (cw_to_i64 (fm_size fm) _); [|done].
  unfold insert_new. by rewrite Hw.
Qed.

Lemma insert_mappings_again db db' mid fms v v' l w :
  sporos_source_file db' = sporos_source_file db ->
  collectM (insert_mapping db mid) fms v = (v', Ok l) ->
  (forall fm, fm ∈ fms -> is_Some (v_mapping w !! (mid, fm_candidate_ordinal fm))) ->
  exists l', collectM (insert_mapping db' mid) fms w = (w, Ok l').
Proof.
  intros Hf. revert v l. induction fms as [|fm fms IH]; intros v l; cbn [collectM]; [by exists []|].
  intros Hc Hw. apply M_bind_Ok in Hc as (v1 & [] & Hi & Hc). apply M_bind_Ok in Hc as (v2 & us & Hc & [= <- _]).
  destruct (IH _ _ Hc) as [l' Hl']; [intros fm' Hfm'; apply Hw; by right|].
  exists (() :: l'). unfold mbind, M_bind. rewrite (insert_mapping_again db db' mid fm v v1 w) by (try done; apply Hw; by left).
  by rewrite Hl'.
Qed.

Lemma persist_plan_again db db' input loaded d mid now now' v v' pid w :
  (forall ids, source_template_data db' ids = source_template_data db ids) ->
  persist_plan db input loaded d mid now v = (v', Ok pid) -> v_plan w = v_plan v' ->
  persist_plan db' input loaded d mid now' w = (w, Ok pid).
Proof.
  intros Hdata Hp Hw. unfold persist_plan in *. rewrite Hdata.
  apply M_bind_Ok in Hp as (v1 & category & [= <- Hcat] & Hp).
  apply M_bind_Ok in Hp as (v1 & tags & [= <- Htags] & Hp).
  apply M_bind_Ok in Hp as (v1 & [] & _ & Hp). apply M_bind_Ok in Hp as (v2 & stored & [= <- Hst] & Hp).
  destruct (str_eqb stored _) eqn:Hs; [|done]. cbn [negb] in Hp. injection Hp as <- <-.
  apply M_bind_Ok. exists w, category. split; [by rewrite Hcat|].
  apply M_bind_Ok. exists w, tags. split; [by rewrite Htags|].
  apply M_bind_Ok. exists w, (). split.
  - unfold insert_plan, insert_new. rewrite Hw. apply ok_or_Ok in Hst. by destruct (v_plan v1 !! _).
  - apply M_bind_Ok. exists w, stored. split; [unfold reads; rewrite Hw; exact (f_equal (pair w) Hst)|]. by rewrite Hs.
Qed.

(** What a statement leaves alone. *)
Lemma insert_mappings_frame db mid fms v v' l :
  collectM (insert_mapping db mid) fms v = (v', Ok l) ->
  v_candidate v' = v_candidate v /\ v_waiting v' = v_waiting v /\ v_match v' = v_match v.
Proof.
  revert v l. induction fms as [|fm fms IH]; intros v l; cbn [collectM]; [by intros [= <- _]|].
  intros Hc. apply M_bind_Ok in Hc as (v1 & [] & Hi & Hc). apply M_bind_Ok in Hc as (v2 & us & Hc & [= <- _]).
  destruct (IH _ _ Hc) as (-> & -> & ->). unfold insert_mapping in Hi.
  apply M_bind_Ok in Hi as (v0 & id & [= <- _] & Hi). apply M_bind_Ok in Hi as (v0 & size & [= <- _] & Hi).
  destruct (insert_new _ _ _); [|by injection Hi as <-]. destruct (bool_decide _); [|done]. by injection Hi as <-.
Qed.

Lemma persist_plan_frame db input loaded d mid now v v' pid :
  persist_plan db input loaded d mid now v = (v', Ok pid) ->
  v_candidate v' = v_candidate v /\ v_waiting v' = v_waiting v.
Proof.
  unfold persist_plan. intros Hp.
  apply M_bind_Ok in Hp as (v1 & category & [= <- _] & Hp).
  apply M_bind_Ok in Hp as (v1 & tags & [= <- _] & Hp).
  apply M_bind_Ok in Hp as (v1 & [] & Hi & Hp). apply M_bind_Ok in Hp as (v2 & stored & [= <- Hst] & Hp).
  destruct (str_eqb stored _); [|done]. injection Hp as <- _. unfold insert_plan in Hi.
  destruct (insert_new _ _ _); [|by injection Hi as <-]. destruct (bool_decide _); [|done]. by injection Hi as <-.
Qed.

Lemma record_decision_again input loaded d now now' db db' v v' plan_id :
  sporos_source_file db' = sporos_source_file db ->
  (forall ids, source_template_data db' ids = source_template_data db ids) ->
  record_decision input loaded d now db v = (v', Ok plan_id) ->
  record_decision input loaded d now' db' v'
    = (touched_verdict (in_candidate_id input) now' v', Ok plan_id) /\
  v_candidate v' = v_candidate (set_candidate_state (in_candidate_id input)
                     (terminal_state d (dry_run (injection (lc_policy loaded)))) now v).1.
Proof.
  intros Hf Hdata Hr. unfold record_decision in *. set (mid := first_16 (match_digest input d)) in *.
  apply M_bind_Ok in Hr as (v1 & [] & Hd & Hr).
  apply M_bind_Ok in Hr as (v2 & mb & [= <- Hmb] & Hr). apply M_bind_Ok in Hr as (v2 & xb & [= <- Hxb] & Hr).
  apply M_bind_Ok in Hr as (v2 & [] & Hi & Hr).
  assert (v_candidate v2 = v_candidate v /\ v_waiting v2 = v_waiting v1) as [Hcd2 Hw2]
    by (injection Hi as <-; injection Hd as <-; done).
  apply M_bind_Ok in Hr as (v3 & stored & [= <- Hst] & Hr). apply M_bind_Ok in Hr as (v3 & [] & Hc & Hr).
  destruct (str_eqb stored _) eqn:Hs; cbn in Hc; [|done]. injection Hc as <-.
  apply M_bind_Ok in Hr as (v4 & us & Hms & Hr).
  destruct (insert_mappings_spec _ _ _ _ _ _ Hms) as (_ & _ & _ & Hall & _).
  destruct (insert_mappings_frame _ _ _ _ _ _ Hms) as (Hcd4 & Hw4 & Hm4).
  apply M_bind_Ok in Hr as (v5 & plan & Hplan & Hr). apply M_bind_Ok in Hr as (v6 & [] & Hset & [= <- <-]).
  assert (v_waiting v6 = v_waiting v5 /\ v_match v6 = v_match v5 /\ v_mapping v6 = v_mapping v5 /\
          v_plan v6 = v_plan v5) as (Hw6 & Hm6 & Hmp6 & Hp6) by (by injection Hset as <-).
  assert (v_candidate v5 = v_candidate v4 /\ v_waiting v5 = v_waiting v4 /\ v_match v5 = v_match v4 /\
          v_mapping v5 = v_mapping v4) as (Hcd5 & Hw5 & Hm5 & Hmp5).
  { destruct (bool_decide (md_outcome d = Match)); [|by injection Hplan as <-].
    apply M_bind_Ok in Hplan as (v7 & pid & Hp & [= <- _]).
    by destruct (persist_plan_frame _ _ _ _ _ _ _ _ _ Hp) as [-> ->],
      (persist_plan_spec _ _ _ _ _ _ _ _ _ Hp) as (-> & -> & _). }
  split; cycle 1.
  { injection Hset as <-. cbn. by rewrite Hcd5, Hcd4, Hcd2. }
  apply M_bind_Ok. exists v6, (). split; [eapply delete_waiting_again; [exact Hd|congruence]|].
  apply M_bind_Ok. exists v6, mb. split; [by rewrite Hmb|]. apply M_bind_Ok. exists v6, xb. split; [by rewrite Hxb|].
  apply M_bind_Ok. exists v6, ().
  assert (v_match v6 = v_match v2) as Hm26 by congruence.
  split; [apply insert_match_again; rewrite Hm26; apply ok_or_Ok in Hst; by destruct (v_match v2 !! mid); [eexists|]|].
  apply M_bind_Ok. exists v6, stored. split; [unfold reads; rewrite Hm26; exact (f_equal (pair v6) Hst)|].
  apply M_bind_Ok. exists v6, (). split; [by rewrite Hs|].
  destruct (insert_mappings_again db db' mid (md_mappings d) v2 v4 us v6 Hf Hms) as [us' Hms'].
  { intros fm Hfm. rewrite Hmp6, Hmp5. by apply Hall. }
  apply M_bind_Ok. exists v6, us'. split; [done|].
  apply M_bind_Ok. exists v6, plan. split.
  { destruct (bool_decide (md_outcome d = Match)); [|by injection Hplan as <- <-].
    apply M_bind_Ok in Hplan as (v7 & pid & Hp & [= <- <-]). apply M_bind_Ok. exists v6, pid. split; [|done].
    by eapply persist_plan_again. }
  apply M_bind_Ok. exists (touched_verdict (in_candidate_id input) now' v6), (). split; [|done].
  by eapply set_state_again.
Qed.

Lemma candidate_task_again task st r term det now now' t t' :
  db_ok t -> project_candidate_task task st r term det now t = (t', Ok ()) ->
  project_candidate_task task st r term det now' t' = (t', Ok ()) /\
  sporos_policy_snapshot t' = sporos_policy_snapshot t.
Proof.
  intros Hok Hp.
  assert (forall u, (forall row, sporos_task u !! task = Some row -> t_state row = st \/ is_Some (terminal_at row)) ->
    project_candidate_task task st r term det now' u = (u, Ok ())) as Hskip.
  { intros u Hu. unfold project_candidate_task, mbind, M_bind, exec, select, reads. cbn [map_err].
    destruct (sporos_task u !! task) as [row|] eqn:Hrow; [|done].
    destruct (Hu row eq_refl) as [->|Ht]; [by rewrite str_eqb_refl|].
    by rewrite (bool_decide_eq_true_2 _ Ht), orb_true_r. }
  unfold project_candidate_task in Hp. apply M_bind_Ok in Hp as (t1 & found & Hsel & Hp).
  injection Hsel as <- <-. destruct (sporos_task t !! task) as [row|] eqn:Hrow.
  2: { injection Hp as <-. split; [|done]. apply Hskip. congruence. }
  destruct (str_eqb _ _ || _) eqn:Hdone.
  { injection Hp as <-. split; [|done]. apply Hskip. intros row'. rewrite Hrow. intros [= <-].
    apply orb_true_iff in Hdone as [?%str_eqb_spec|?%bool_decide_eq_true]; auto. }
  apply M_bind_Ok in Hp as (t1 & g & [= <- Hg] & Hp).
  assert (g = projection_generation row /\ 0 <= g) as [-> Hge].
  { unfold u64_try_from in Hg. destruct (Z.leb_spec 0 (projection_generation row)); [|done].
    injection Hg as <-. done. }
  set (u := {| Projection.task_id := task |}) in Hp.
  apply M_bind_Ok in Hp as (t1 & outcome & Hpr & Hp).
  pose proof (Projection.project_task_spec u t Hok Hge) as Hspec. unfold exec in Hpr.
  destruct (Projection.project_task u t) as [t2 [o|e]]; [|done]. injection Hpr as -> ->. cbn [fst snd] in Hspec.
  assert (t' = t1) as -> by (by destruct outcome; injection Hp as <-).
  destruct outcome as [g|g|g|g|]; [| | | |done].
  - destruct Hspec as (row0 & _ & _ & _ & _ & _ & ->). split; [|done]. apply Hskip. cbn.
    rewrite lookup_insert_eq. intros row' [= <-]. by left.
  - destruct Hspec as (_ & Hg1 & row0 & ev & Hr0 & Hg0 & _). cbn in *.
    assert (row0 = row) as -> by congruence. lia.
  - destruct Hspec as (_ & Hne & row0 & Hr0 & Hg0). cbn in *. by assert (row0 = row) as -> by congruence.
  - destruct Hspec as (-> & _ & row0 & Hr0 & _ & Ht). cbn in *. split; [|done]. apply Hskip.
    intros row'. rewrite Hr0. intros [= <-]. by right.
Qed.

(** ** The same sources, sorted again *)

Lemma request_manifest_idle id db :
  (forall row, sporos_qbit_torrent db !! id = Some row -> qt_manifest_state row <> lit "unloaded") ->
  request_manifest id db = (db, Ok ()).
Proof.
  intros Hid. unfold request_manifest, update_where.
  destruct (sporos_qbit_torrent db !! id) as [row|] eqn:Hrow; [|by destruct db].
  destruct (str_eqb (qt_manifest_state row) (lit "unloaded")) eqn:He; [|by destruct db].
  apply str_eqb_spec in He. by destruct (Hid row eq_refl).
Qed.

Lemma sort_sources_idle candidate sources w a db :
  (forall s, s ∈ sources -> ready candidate s = false -> ls_complete s = true ->
     forall row, sporos_qbit_torrent db !! id_of s = Some row -> qt_manifest_state row <> lit "unloaded") ->
  (sort_sources candidate sources w a db).1 = db.
Proof.
  revert w a. induction sources as [|s sources IH]; intros w a Hs; [done|]. cbn [sort_sources].
  assert (forall w a, (sort_sources candidate sources w a db).1 = db) as IH'
    by (intros; apply IH; intros s' Hs'; apply Hs; by right). clear IH.
  destruct (ls_complete s) eqn:Hc; cbn [negb]; [|apply IH'].
  destruct (_ || _) eqn:Hl; [apply IH'|].
  unfold mbind, M_bind. rewrite request_manifest_idle; [apply IH'|].
  apply (Hs s); [by left| |done]. unfold ready. by rewrite Hc, Hl.
Qed.

Lemma decides_again loaded db db' now now' d :
  same_library db db' -> now <= now' -> decides loaded db now d -> decides loaded db' now' d.
Proof.
  intros Hs Hn. unfold decides. rewrite (candidate_sources_same _ _ _ db db' Hs).
  destruct (candidate_sources _ _ _ db) as [[sources|]|]; [|done..].
  intros (d0 & Hd & Hcase). exists d0. split; [done|]. destruct (_ && _); [|done].
  destruct Hcase as (limit & Hl & Hle & ->). exists limit. split; [done|]. split; [lia|done].
Qed.

Lemma evaluate_decides input loaded now d db :
  load_candidate input db = Ok loaded -> decides loaded db now d -> all_asked loaded db (sporos_qbit_torrent db) ->
  evaluate_candidate input now db = persist_terminal input loaded d now db.
Proof.
  intros Hl Hd Ha. unfold evaluate_candidate, fetch, mbind at 1, M_bind at 1, reads, fallible at 1.
  rewrite Hl. cbn [map_err]. unfold decides in Hd. unfold mbind at 1, M_bind at 1.
  unfold all_asked in Ha. destruct (candidate_sources _ _ _ db) as [[sources|]|e]; cbn [fallible map_err]; [|by subst|done].
  specialize (Ha sources eq_refl). destruct Hd as (d0 & Hd & Hcase).
  unfold mbind at 1, M_bind at 1.
  pose proof (sort_sources_idle (lc_manifest loaded) sources [] [] db Ha) as Hidle.
  destruct (sort_sources (lc_manifest loaded) sources [] [] db) as [db1 r] eqn:Hs. cbn in Hidle. subst db1.
  apply sort_sources_spec in Hs as (q & _ & _ & -> & _). cbn [app].
  fold (ready_manifests loaded sources) (unready loaded sources).
  unfold mbind at 1, M_bind at 1, liftr. rewrite Hd. cbn [ok_or].
  destruct (_ && _) eqn:Hc; [|by subst].
  destruct Hcase as (limit & Hlim & Hle & ->). unfold mbind, M_bind. rewrite Hlim. cbn [fallible map_err].
  by rewrite (proj2 (Z.ltb_ge _ _)).
Qed.

Lemma template_data_same db db' ids :
  same_library db db' -> source_template_data db' ids = source_template_data db ids.
Proof.
  intros [Ha _ _ _ _]. unfold source_template_data. generalize (sort_by str_leb ids).
  intros l. generalize (mkSourceTemplateData [] [] (lit "data_directory_release")).
  induction l as [|id l IH]; intros data; [done|]. cbn [foldl]. rewrite IH. f_equal.
  unfold template_step. destruct (Ha id) as [->|(row & -> & _ & ->)]; done.
Qed.

Lemma load_candidate_same input db db' :
  (forall c', sporos_candidate db' !! in_candidate_id input = c' ->
     exists st at_, c' = with_candidate_state st at_ <$> sporos_candidate db !! in_candidate_id input) ->
  sporos_candidate_task db' = sporos_candidate_task db ->
  sporos_candidate_provenance db' = sporos_candidate_provenance db ->
  sporos_policy_snapshot (tasks db') = sporos_policy_snapshot (tasks db) ->
  load_candidate input db' = load_candidate input db.
Proof.
  intros Hc Ht Hp Hs. destruct (Hc _ eq_refl) as (st & at_ & Hst). unfold load_candidate, first_provenance.
  rewrite Hst, Ht, Hp, Hs. destruct (sporos_candidate db !! _) as [c|]; [|done]. cbn.
  destruct (sporos_candidate_task db !! _); [|done]. cbn. destruct (negb _); [done|]. cbn.
  destruct (sporos_policy_snapshot _ !! _); [|done]. cbn. destruct (head _); done.
Qed.

(** C5: An evaluation may be repeated.  The runtime may deliver the evaluation of a
    candidate again after it has stored its verdict: at any later time the second
    run reaches the same verdict, match and plan, and the only thing it changes in
    the database is the candidate's [updated_at]: no second match, mapping or plan
    row, no event, no other column. *)
Theorem evaluation_repeats input now now' db db' state reason mid plan_id :
  db_ok (tasks db) -> now <= now' ->
  evaluate_candidate input now db = (db', Ok (Terminal state reason mid plan_id)) ->
  evaluate_candidate input now' db'
    = (touched (in_candidate_id input) now' db', Ok (Terminal state reason mid plan_id)).
Proof.
  intros Hok Hn He.
  apply evaluate_terminal in He as (loaded & d & q & v & t & Hl & Hdec & Hq & Hrec & -> & -> & -> & -> & Ht & Hall).
  set (db' := with_tasks t (with_verdict v (with_torrents q db))).
  destruct (candidate_task_again _ _ _ _ _ now now' _ _ Hok Ht) as [Ht' Hpol].
  assert (same_library db db') as Hsame by done.
  assert (same_library (with_torrents q db) db') as Hsame' by (split; cbn; [intros ?; by left|done..]).
  destruct (record_decision_again input loaded d now now' (with_torrents q db) db' (verdict db) v plan_id)
    as [Hrec' Hcand]; [done|intros; by apply template_data_same|done|].
  rewrite (evaluate_decides input loaded now' d).
  - unfold persist_terminal. apply M_bind_Ok. exists (touched (in_candidate_id input) now' db'), plan_id. split.
    { apply decision_atomically_Ok. eexists. split; [exact Hrec'|done]. }
    apply M_bind_Ok. exists (touched (in_candidate_id input) now' db'), (). split; [|done].
    apply on_tasks_Ok. exists t. done.
  - rewrite (load_candidate_same input db db'); [done| |done|done|exact Hpol].
    intros c' <-. cbn. rewrite Hcand. unfold set_candidate_state, update_where. cbn.
    destruct (sporos_candidate db !! in_candidate_id input) as [c|] eqn:Hc; cbn.
    + eexists _, _. by rewrite lookup_insert_eq.
    + exists [], 0. by rewrite Hc.
  - by apply (decides_again loaded db db' now).
  - intros sources. rewrite (candidate_sources_same _ _ _ db db' Hsame). apply Hall.
Qed.
End Again.

(** ** A concrete library *)

Module Sample.

Definition sample_manifest : TorrentManifest := Matcher.rq_candidate MatcherProofs.sample_request.
Definition sample_release : ReleaseDescriptor := Matcher.rq_candidate_release MatcherProofs.sample_request.

Definition sample_policy : CandidatePolicy :=
  mkCandidatePolicy default_policy (mkSourceFilters [] [] [] [] true) 1000
    (mkInjectionConfig false (lit "cross-seed") [lit "sporos"] false false Pieces.CompleteOnly)
    (lit "/links") (lit "/remote") [].

#[local] Instance sample_codec : DecisionCodec := {|
  encode_decision _ := lit "decision";
  encode_evidence _ := [];
  encode_tags _ := [];
  encode_resume _ := [];
  encode_material _ _ _ _ _ _ _ _ := lit "material";
  encode_waiting _ _ := [];
  encode_ids _ _ := [] |}.
#[local] Existing Instance ascii_unicode.

Definition release_text (name : string) : str := encode_release (Release.parse_release (lit name)).

Definition sample_title : str := rd_primary_title sample_release.

(** Two data directories that hold the two episodes, and a torrent that may still
    turn out to match. *)
Definition sample_library (complete : bool) : Library := {|
  tasks := set_policies (alter (fun p => mkPolicyRow (pr_config_hash p) (pr_matcher_version p)
             (encode_policy sample_policy) (pr_created_at p)) (lit "policy")) Projection.sample_db;
  sporos_blob := {[lit "sha" := lit "torrent"]};
  sporos_candidate := {[lit "cand" := mkCandidateRow (lit "sha") None None [] [] (encode_release sample_release)
    (lit "accepted") 10 10 (Some (encode_manifest sample_manifest))]};
  sporos_candidate_task := {[(lit "cand", lit "policy") := lit "task"]};
  sporos_candidate_provenance :=
    {[1 := mkProvenanceRow (lit "cand") (lit "announce") None None None (lit "req") 10 []]};
  sporos_qbit_torrent :=
    {[lit "torrent" := mkQbitRow None None None (lit "Show.S01.720p") 5 5 0 (lit "downloading") (lit "/d")
       (lit "/d/Show") [] [] false true 0 (lit "unloaded") None None None
       (Some (release_text "Show.S01.720p")) None 1 1]};
  sporos_qbit_inventory_state := mkInventoryRow None 1 None None None None None None;
  sporos_data_source :=
    if complete then
      {[lit "e1" := mkDataSourceRow (lit "root") (lit "e1") (lit "file") (lit "Show.S01E01.mkv") 2000
          (Some (release_text "Show.S01E01.mkv")) None true 1 1;
        lit "e2" := mkDataSourceRow (lit "root") (lit "e2") (lit "file") (lit "Show.S01E02.mkv") 2000
          (Some (release_text "Show.S01E02.mkv")) None true 1 1]}
    else ∅;
  sporos_source_file :=
    {[1 := mkSourceFileRow (lit "e1") 1 0 (lit "Show.S01E01.mkv") None 2000 None None true;
      2 := mkSourceFileRow (lit "e2") 1 0 (lit "Show.S01E02.mkv") None 2000 None None true]};
  sporos_source_title :=
    {[(lit "e1", lit "data", sample_title); (lit "e2", lit "data", sample_title);
      (lit "torrent", lit "qbittorrent", sample_title)]};
  sporos_source_external_id := ∅;
  sporos_waiting_source := ∅;
  sporos_match := ∅;
  sporos_file_mapping := ∅;
  sporos_injection_plan := ∅ |}.

Lemma sample_tasks_ok complete : db_ok (tasks (sample_library complete)).
Proof. apply (db_ok_ext Projection.sample_db); [done..|apply Projection.sample_db_ok]. Qed.

Definition sample_input : CandidateWorkflowInput := mkInput (lit "task") (lit "cand") (lit "policy").

Definition sample_run (complete : bool) : Library * result Halt EvaluationResult :=
  evaluate_candidate sample_input 500 (sample_library complete).

Definition planned_result : EvaluationResult :=
  Terminal (lit "planned") (lit "match_season_from_episodes") (lit "candidate-match-") (Some (lit "material")).

Lemma sample_plans :
  sample_run true = ((sample_run true).1, Ok planned_result).
Proof. rewrite (surjective_pairing (sample_run true)) at 1.
  apply (f_equal2 pair eq_refl). vm_compute. reflexivity. Qed.

Lemma sample_waits :
  sample_run false = ((sample_run false).1, Ok (Waiting 510 [lit "torrent"])).
Proof. rewrite (surjective_pairing (sample_run false)) at 1.
  apply (f_equal2 pair eq_refl). vm_compute. reflexivity. Qed.

Definition sample_loaded : LoadedCandidate :=
  mkLoadedCandidate sample_manifest sample_release sample_policy 10 (lit "announce") None None.

Lemma sample_loads : load_candidate sample_input (sample_library true) = Ok sample_loaded.
Proof. vm_compute. reflexivity. Qed.

Lemma sample_library_ok : library_ok (sample_library true).
Proof.
  split; [apply (bool_decide_unpack _); vm_compute; exact I|by intros mid o m [=]| |].
  - intros i p. cbn [sporos_candidate_provenance sample_library]. rewrite lookup_singleton_Some. intros [_ <-].
    cbn [pv_candidate_id]. by eexists.
  - intros c p t. cbn [sporos_candidate_task sample_library]. rewrite lookup_singleton_Some. intros [[= <- _] _].
    by eexists.
Qed.

Lemma waits_only_for_pending_sources_witness :
  exists limit, deadline sample_loaded = Ok limit /\ 500 < limit /\
    pending (sample_run false).1 (lit "torrent").
Proof.
  destruct (waits_only_for_pending_sources sample_input 500 (sample_library false) _ _ _ sample_waits)
    as (loaded & limit & Hl & Hd & Hlt & _ & _ & _ & _ & Hp).
  exists limit. assert (loaded = sample_loaded) as -> by (vm_compute in Hl; by injection Hl as <-).
  split; [done|]. split; [done|]. apply Hp. by left.
Defined.

Lemma plan_maps_real_files_witness :
  exists row, sporos_injection_plan (sample_run true).1 !! lit "material" = Some row /\
    plan_of sample_input sample_loaded (lit "candidate-match-") row.
Proof.
  destruct (plan_maps_real_files sample_input 500 (sample_library true) _ _ _ _ _ sample_loaded
    sample_library_ok sample_loads MatcherProofs.sample_in_range eq_refl eq_refl sample_plans)
    as ((row & Hrow & Hplan & _) & _ & _).
  exists row. exact (conj Hrow Hplan).
Defined.

Lemma evaluation_repeats_witness :
  evaluate_candidate sample_input 900 (sample_run true).1
    = (touched (lit "cand") 900 (sample_run true).1, Ok planned_result).
Proof.
  apply (evaluation_repeats sample_input 500 900 (sample_library true));
    [exact (sample_tasks_ok true)|lia|exact sample_plans].
Defined.
End Sample.
