(* ===== verification/AcceptProofs.v ===== *)
(** What the acceptance of a candidate guarantees: it is one transaction, it can be
    repeated, and its candidate is the one that the decision loads. *)

From S2P Require Import Prelude Text Float Model Store Duroxide Candidate Library Codec Accept.
From S2P Require Release Torrent Ingress Paths Decision.
From stdpp Require Import strings.
Local Open Scope Z_scope.

Section AcceptProofs.
Context `{Unicode} `{Json} `{Digest} `{CandidateCodec} `{IntakeCodec}.
Context (decode_with : str -> bool) (metainfo_parse : str -> option Torrent.MetaInfo).

Abbreviation accept := (accept decode_with metainfo_parse).
Abbreviation prepare := (prepare decode_with metainfo_parse).
Abbreviation Act A := (M Library CandidateError A).
Abbreviation Stmt A := (M Intake CandidateError A).

(** ** Statements *)

Lemma on_intake_Ok {A} (m : Library -> Stmt A) db db' a :
  on_intake m db = (db', Ok a) <-> exists k, m db (intake db) = (k, Ok a) /\ db' = with_intake k db.
Proof. unfold on_intake. destruct (m db (intake db)) as [k [x|e]]; naive_solver. Qed.

Lemma accept_on_tasks_Ok {A} (m : M Db Ingress.DurableIngressError A) db db' a :
  on_tasks m db = (db', Ok a) <-> exists t, m (tasks db) = (t, Ok a) /\ db' = with_tasks t db.
Proof. unfold on_tasks. destruct (m (tasks db)) as [t [x|e]]; cbn; naive_solver. Qed.

Lemma default_insert_new {K A} `{Countable K} (k : K) (a : A) t :
  default t (insert_new k a t) !! k = Some (default a (t !! k)).
Proof. unfold insert_new. destruct (t !! k) eqn:E; cbn; [done|by rewrite lookup_insert_eq]. Qed.

Lemma default_insert_new_ne {K A} `{Countable K} (k k' : K) (a : A) t :
  k <> k' -> default t (insert_new k a t) !! k' = t !! k'.
Proof. intros Hne. unfold insert_new. destruct (t !! k); cbn; [done|by rewrite lookup_insert_ne]. Qed.

(** ** What is stored *)

Record held (bytes : str) (p : Prepared) (db : Library) : Prop := {
  h_size : i64_try_from (Z.of_nat (length bytes)) = Some (Z.of_nat (length bytes));
  h_hashes : ~ (ih_v1 (tm_hashes (pp_manifest p)) = None /\ ih_v2 (tm_hashes (pp_manifest p)) = None);
  h_blob : sporos_blob db !! pp_blob_hash p = Some bytes;
  h_candidate : exists c, sporos_candidate db !! pp_candidate_id p = Some c /\
    cd_blob_sha256 c = pp_blob_hash p /\ cd_manifest_digest c = pp_manifest_digest p;
  h_task : Ingress.stored (pp_task p) (tasks db);
  h_candidate_task : sporos_candidate_task db !! (pp_candidate_id p, policy_id_of p)
                     = Some (Ingress.nt_id (pp_task p)) }.

Definition with_provenance (row : ProvenanceRow) (db : Library) : Library :=
  with_intake (mkIntake (sporos_blob db) (sporos_candidate db) (sporos_candidate_task db)
    (<[next_rowid (sporos_candidate_provenance db) := row]> (sporos_candidate_provenance db))) db.

(** What a stored submission changes. *)
Record stores (submission : CandidateSubmission) (p : Prepared) (db db' : Library) : Prop := {
  s_candidate : sporos_candidate db' = default (sporos_candidate db)
    (insert_new (pp_candidate_id p) (candidate_row submission p) (sporos_candidate db));
  s_candidate_task : sporos_candidate_task db' = default (sporos_candidate_task db)
    (insert_new (pp_candidate_id p, policy_id_of p) (Ingress.nt_id (pp_task p)) (sporos_candidate_task db));
  s_provenance : sporos_candidate_provenance db'
    = <[next_rowid (sporos_candidate_provenance db) := provenance_row (pp_candidate_id p) submission]>
        (sporos_candidate_provenance db);
  s_rest : inventory db' = inventory db /\ sporos_match db' = sporos_match db /\
    sporos_file_mapping db' = sporos_file_mapping db }.

Lemma verify_blob_Ok hash expected k k' u :
  verify_blob hash expected k = (k', Ok u) ->
  k' = k /\ k_blob k !! hash = Some expected /\
  i64_try_from (Z.of_nat (length expected)) = Some (Z.of_nat (length expected)) \/
  i64_try_from (Z.of_nat (length expected)) = None.
Proof.
  unfold verify_blob. intros Hv. apply M_bind_Ok in Hv as (k1 & data & [= <- Hd%ok_or_Ok] & Hv).
  unfold i64_try_from in *. destruct (Z.leb_spec (Z.of_nat (length expected)) i64_max); [left|by right].
  destruct (_ && _) eqn:Hc; [|done]. injection Hv as <-.
  apply andb_true_iff in Hc as [_ ->%str_eqb_spec]. done.
Qed.

Lemma insert_candidate_Ok id row k k' u :
  insert_candidate id row k = (k', Ok u) ->
  ~ (cd_v1_hash row = None /\ cd_v2_hash row = None) /\
  k' = mkIntake (k_blob k) (default (k_candidate k) (insert_new id row (k_candidate k)))
         (k_candidate_task k) (k_provenance k).
Proof.
  unfold insert_candidate. case_bool_decide; [done|].
  destruct (insert_new id row (k_candidate k)) as [t|].
  - case_bool_decide; [|done]. by intros [= <- _].
  - intros [= <- _]. cbn. by destruct k.
Qed.

Lemma verify_candidate_Ok id hash digest k k' u :
  verify_candidate id hash digest k = (k', Ok u) <->
  k' = k /\ exists c, k_candidate k !! id = Some c /\ cd_blob_sha256 c = hash /\ cd_manifest_digest c = digest.
Proof.
  destruct u. unfold verify_candidate. rewrite M_bind_Ok. split.
  - intros (k1 & c & [= <- Hc%ok_or_Ok] & H'). destruct (_ && _) eqn:Hb; [|done]. injection H' as <-.
    apply andb_true_iff in Hb as [?%str_eqb_spec ?%str_eqb_spec]. eauto.
  - intros (-> & c & Hc & E1 & E2). exists k, c. split; [unfold reads; by rewrite Hc|].
    by rewrite (proj2 (str_eqb_spec _ _) E1), (proj2 (str_eqb_spec _ _) E2).
Qed.

Lemma insert_candidate_task_Ok db cid pid tid k k' u :
  insert_candidate_task db cid pid tid k = (k', Ok u) ->
  k' = mkIntake (k_blob k) (k_candidate k)
         (default (k_candidate_task k) (insert_new (cid, pid) tid (k_candidate_task k))) (k_provenance k).
Proof.
  unfold insert_candidate_task. destruct (insert_new _ _ _) as [t|].
  - case_bool_decide; [|done]. by intros [= <- _].
  - intros [= <- _]. cbn. by destruct k.
Qed.

Lemma verify_candidate_task_Ok cid pid tid k k' u :
  verify_candidate_task cid pid tid k = (k', Ok u) <->
  k' = k /\ k_candidate_task k !! (cid, pid) = Some tid.
Proof.
  destruct u. unfold verify_candidate_task. rewrite M_bind_Ok. split.
  - intros (k1 & t & [= <- Ht%ok_or_Ok] & H'). destruct (str_eqb t tid) eqn:He; [|done].
    injection H' as <-. by apply str_eqb_spec in He as <-.
  - intros [-> Ht]. exists k, tid. split; [unfold reads; by rewrite Ht|]. by rewrite str_eqb_refl.
Qed.

Lemma insert_provenance_Ok row k k' u :
  insert_provenance row k = (k', Ok u) <->
  is_Some (k_candidate k !! pv_candidate_id row) /\
  k' = mkIntake (k_blob k) (k_candidate k) (k_candidate_task k)
         (<[next_rowid (k_provenance k) := row]> (k_provenance k)).
Proof. destruct u. unfold insert_provenance. case_bool_decide; naive_solver. Qed.

(** A stored submission. *)
Lemma store_Ok submission p db db' b :
  db_ok (tasks db) -> store submission p db = (db', Ok b) ->
  held (cs_bytes submission) p db' /\ stores submission p db db' /\ db_ok (tasks db') /\
  (b = true <-> sporos_task (tasks db) !! Ingress.nt_id (pp_task p) = None) /\
  (forall id row, sporos_task (tasks db) !! id = Some row -> sporos_task (tasks db') !! id = Some row).
Proof.
  intros Hok Hs. unfold store in Hs.
  apply M_bind_Ok in Hs as (db0 & size & [= <- Hsize%ok_or_Ok] & Hs).
  apply M_bind_Ok in Hs as (db1 & [] & (k1 & [= <-] & ->)%on_intake_Ok & Hs).
  apply M_bind_Ok in Hs as (db2 & [] & (k2 & Hb & ->)%on_intake_Ok & Hs).
  apply M_bind_Ok in Hs as (db3 & [] & (k3 & Hc & ->)%on_intake_Ok & Hs).
  apply M_bind_Ok in Hs as (db4 & [] & (k4 & Hvc & ->)%on_intake_Ok & Hs).
  apply M_bind_Ok in Hs as (db5 & ins & (t & Ht & ->)%accept_on_tasks_Ok & Hs).
  apply M_bind_Ok in Hs as (db6 & [] & (k6 & Hct & ->)%on_intake_Ok & Hs).
  apply M_bind_Ok in Hs as (db7 & [] & (k7 & Hvt & ->)%on_intake_Ok & Hs).
  apply M_bind_Ok in Hs as (db8 & [] & (k8 & Hpv & ->)%on_intake_Ok & [= <- <-]).
  assert (i64_try_from (Z.of_nat (length (cs_bytes submission))) = Some (Z.of_nat (length (cs_bytes submission))))
    as Hlen by (unfold i64_try_from in *; by destruct (_ <=? _)).
  apply verify_blob_Ok in Hb as [(-> & Hblob & _)|Hno]; [|congruence].
  apply insert_candidate_Ok in Hc as [Hhash ->].
  apply verify_candidate_Ok in Hvc as (-> & c & Hcand & Hcb & Hcd).
  apply insert_candidate_task_Ok in Hct as ->. apply verify_candidate_task_Ok in Hvt as [-> Htask].
  apply insert_provenance_Ok in Hpv as [_ ->]. cbn in *.
  destruct (Ingress.accept_in_Ok _ _ _ _ Hok Ht) as (Hst & Hok' & Hb & Hother & Hself & _).
  split; [by split; [..|exists c| |]|]. split; [by split|]. split; [done|]. split; [done|].
  intros id row Hrow. destruct (decide (id = Ingress.nt_id (pp_task p))) as [->|Hne]; [by apply Hself|].
  by rewrite Hother.
Qed.

(** A submission that is held is stored again by noting where it came from. *)
Lemma store_held submission p db :
  held (cs_bytes submission) p db ->
  store submission p db = (with_provenance (provenance_row (pp_candidate_id p) submission) db, Ok false).
Proof.
  intros [Hsize Hhash Hblob (c & Hc & Hcb & Hcd) Hst Hct]. unfold store.
  apply M_bind_Ok. exists db, (Z.of_nat (length (cs_bytes submission))). split; [unfold liftr; by rewrite Hsize|].
  assert (forall (m : Library -> Stmt ()), m db (intake db) = (intake db, Ok ()) ->
    on_intake m db = (db, Ok ())) as Hidle.
  { intros m Hm. apply on_intake_Ok. exists (intake db). split; [done|]. by rewrite with_intake_id. }
  apply M_bind_Ok. exists db, (). split.
  { apply Hidle. unfold insert_blob, insert_new. cbn. by rewrite Hblob. }
  apply M_bind_Ok. exists db, (). split.
  { apply Hidle. unfold verify_blob. apply M_bind_Ok. exists (intake db), (cs_bytes submission).
    split; [unfold reads; cbn; by rewrite Hblob|]. rewrite Hsize. cbn. by rewrite Z.eqb_refl, str_eqb_refl. }
  apply M_bind_Ok. exists db, (). split.
  { apply Hidle. unfold insert_candidate, insert_new. cbn. rewrite bool_decide_eq_false_2 by done. by rewrite Hc. }
  apply M_bind_Ok. exists db, (). split; [apply Hidle, verify_candidate_Ok; eauto|].
  apply M_bind_Ok. exists db, false. split.
  { apply accept_on_tasks_Ok. exists (tasks db). split; [by apply Ingress.accept_in_stored|]. by rewrite with_tasks_id. }
  apply M_bind_Ok. exists db, (). split.
  { apply Hidle. unfold insert_candidate_task, insert_new. cbn. by rewrite Hct. }
  apply M_bind_Ok. exists db, (). split; [by apply Hidle, verify_candidate_task_Ok|].
  apply M_bind_Ok. eexists _, (). split; [|done]. apply on_intake_Ok. eexists. split; [|done].
  apply insert_provenance_Ok. split; [cbn; by rewrite Hc|done].
Qed.

(** ** What is prepared *)

Definition limits (self : CandidateIngress) : Matching := ci_matching self.

(** A prepared submission describes the parsed torrent, within the limits. *)
Record prepares (self : CandidateIngress) (submission : CandidateSubmission) (p : Prepared)
    (parsed : Torrent.ParsedTorrent) (torrent_name : str) : Prop := {
  pr_size : Z.of_nat (length (cs_bytes submission)) <= max_torrent_bytes (limits self);
  pr_parsed : Torrent.parse decode_with metainfo_parse (cs_bytes submission) = Some (Ok parsed);
  pr_count : Z.of_nat (length (Torrent.pt_files parsed)) <= max_files_per_torrent (limits self);
  pr_manifest : candidate_manifest (limits self) parsed = Ok (pp_manifest p);
  pr_name : from_utf8 (Torrent.pt_name parsed) = Some torrent_name;
  pr_display : pp_display_name p = display_name submission torrent_name;
  pr_release : pp_release p
               = apply_hint (Release.parse_release (pp_display_name p)) (release_hint submission);
  pr_policy : candidate_policy self submission = Ok (pp_policy p);
  pr_blob : pp_blob_hash p = sha256 (cs_bytes submission);
  pr_candidate : pp_candidate_id p = first_16 (pp_blob_hash p);
  pr_digest : pp_manifest_digest p = sha256 (encode_manifest (pp_manifest p));
  pr_task : pp_task p = candidate_task (pp_candidate_id p) (encode_policy (pp_policy p)) (received_at submission) }.

Lemma prepare_Ok self submission p :
  prepare self submission = Some (Ok p) <-> exists parsed name, prepares self submission p parsed name.
Proof.
  unfold Accept.prepare. split.
  - destruct (Z.ltb_spec (max_torrent_bytes (ci_matching self)) (Z.of_nat (length (cs_bytes submission)))); [done|].
    destruct (Torrent.parse _ _ _) as [r|] eqn:Hp; [|done]. cbn. intros [= Hr].
    apply bind_Ok in Hr as (parsed & Hparsed & Hr). destruct r as [q|e]; [|done]. injection Hparsed as ->.
    destruct (Z.ltb_spec (max_files_per_torrent (ci_matching self)) (Z.of_nat (length (Torrent.pt_files parsed)))); [done|].
    apply bind_Ok in Hr as (manifest & Hm & Hr). apply bind_Ok in Hr as (name & Hn%ok_or_Ok & Hr).
    apply bind_Ok in Hr as (policy & Hpol & [= <-]). by exists parsed, name.
  - intros (parsed & name & [E1 E2 E3 E4 E5 E6 E7 E8 E9 E10 E11 E12]).
    destruct (Z.ltb_spec (max_torrent_bytes (ci_matching self)) (Z.of_nat (length (cs_bytes submission))));
      [unfold limits in *; lia|].
    rewrite E2. cbn. f_equal.
    destruct (Z.ltb_spec (max_files_per_torrent (ci_matching self)) (Z.of_nat (length (Torrent.pt_files parsed))));
      [unfold limits in *; lia|].
    unfold limits in *. rewrite E4. cbn. rewrite E5. cbn. rewrite E8. cbn.
    destruct p. cbn in *. by rewrite E12, E11, E10, E9, E7, E6.
Qed.

(** The bytes and the policy determine the identity of a submission. *)
Lemma prepare_again self s1 s2 p1 :
  cs_bytes s2 = cs_bytes s1 ->
  dry_run (ci_injection self) || cs_dry_run s2 = dry_run (ci_injection self) || cs_dry_run s1 ->
  prepare self s1 = Some (Ok p1) ->
  exists p2, prepare self s2 = Some (Ok p2) /\
    pp_manifest p2 = pp_manifest p1 /\ pp_blob_hash p2 = pp_blob_hash p1 /\
    pp_candidate_id p2 = pp_candidate_id p1 /\ pp_manifest_digest p2 = pp_manifest_digest p1 /\
    policy_id_of p2 = policy_id_of p1 /\ Ingress.same_identity (pp_task p1) (pp_task p2).
Proof.
  intros Hb Hd (parsed & name & Hp)%prepare_Ok. destruct Hp as [E1 E2 E3 E4 E5 E6 E7 E8 E9 E10 E11 E12].
  exists (mkPrepared (pp_manifest p1) (display_name s2 name)
    (apply_hint (Release.parse_release (display_name s2 name)) (release_hint s2)) (pp_policy p1)
    (pp_blob_hash p1) (pp_candidate_id p1) (pp_manifest_digest p1)
    (candidate_task (pp_candidate_id p1) (encode_policy (pp_policy p1)) (received_at s2))).
  cbn. split; [|unfold policy_id_of; cbn; by rewrite E12].
  apply prepare_Ok. exists parsed, name. split; cbn; try done; rewrite ?Hb; try done.
  unfold candidate_policy in *. by rewrite Hd.
Qed.

Lemma accept_Ok self submission db db' a :
  accept self submission db = Some (db', Ok a) ->
  exists p inserted, prepare self submission = Some (Ok p) /\
    store submission p db = (db', Ok inserted) /\
    a = mkAccepted (pp_candidate_id p) (Ingress.nt_id (pp_task p)) (negb inserted).
Proof.
  unfold Accept.accept. fold prepare. destruct (prepare self submission) as [[p|e]|]; cbn; [|done..].
  intros [= Ha]. apply atomically_Ok, M_bind_Ok in Ha as (db1 & inserted & Hs & [= <- <-]).
  by exists p, inserted.
Qed.

Lemma held_same bytes p1 p2 db :
  pp_manifest p2 = pp_manifest p1 -> pp_blob_hash p2 = pp_blob_hash p1 ->
  pp_candidate_id p2 = pp_candidate_id p1 -> pp_manifest_digest p2 = pp_manifest_digest p1 ->
  policy_id_of p2 = policy_id_of p1 -> Ingress.same_identity (pp_task p1) (pp_task p2) ->
  held bytes p1 db -> held bytes p2 db.
Proof.
  intros Hm Hb Hc Hd Hpi Hsame [E1 E2 E3 E4 E5 E6].
  split; rewrite ?Hm, ?Hb, ?Hc, ?Hd, ?Hpi; try done; [by eapply Ingress.stored_same_identity|].
  rewrite E6. f_equal. apply Hsame.
Qed.

(** Accepting again what was accepted *)
Lemma accepted_again self s1 s2 db db1 a :
  db_ok (tasks db) -> cs_bytes s2 = cs_bytes s1 ->
  dry_run (ci_injection self) || cs_dry_run s2 = dry_run (ci_injection self) || cs_dry_run s1 ->
  accept self s1 db = Some (db1, Ok a) ->
  accept self s2 db1
  = Some (with_provenance (provenance_row (ac_candidate_id a) s2) db1,
          Ok (mkAccepted (ac_candidate_id a) (ac_task_id a) true)).
Proof.
  intros Hok Hb Hd (p1 & ins & Hp1 & Hs & ->)%accept_Ok.
  apply store_Ok in Hs as (Hheld & _ & _); [|done].
  destruct (prepare_again self s1 s2 p1 Hb Hd Hp1) as (p2 & Hp2 & Hm & Hbl & Hc & Hdg & Hpi & Hsame).
  pose proof (held_same _ p1 p2 db1 Hm Hbl Hc Hdg Hpi Hsame Hheld) as Hheld2. rewrite <- Hb in Hheld2.
  unfold Accept.accept. fold prepare. rewrite Hp2. cbn. f_equal. apply atomically_Ok, M_bind_Ok.
  eexists _, false. split; [by apply store_held|].
  destruct Hsame as [Hid _]. cbn. by rewrite Hc, Hid.
Qed.

Lemma accepted_task self submission db db' a :
  db_ok (tasks db) -> accept self submission db = Some (db', Ok a) ->
  is_Some (sporos_task (tasks db') !! ac_task_id a).
Proof.
  intros Hok (p & ins & Hp & Hs & ->)%accept_Ok. apply store_Ok in Hs as (Hheld & _); [|done].
  destruct (Ingress.st_task _ _ (h_task _ _ _ Hheld)) as (row & Hrow & _). by exists row.
Qed.

(** A torrent is accepted once.  When a torrent was accepted, the same torrent under
    the same policy, from whatever other announcement, is reported as a duplicate with
    the same candidate and the same task, and only where it came from is added. *)
Theorem accept_once self s1 s2 db db1 a :
  db_ok (tasks db) -> cs_bytes s2 = cs_bytes s1 ->
  dry_run (ci_injection self) || cs_dry_run s2 = dry_run (ci_injection self) || cs_dry_run s1 ->
  accept self s1 db = Some (db1, Ok a) ->
  accept self s2 db1
  = Some (with_provenance (provenance_row (ac_candidate_id a) s2) db1,
          Ok (mkAccepted (ac_candidate_id a) (ac_task_id a) true)).
Proof. exact (accepted_again self s1 s2 db db1 a). Qed.

(** Accepting is one transaction that keeps the invariants.  It either fails and
    changes nothing, or stores a candidate and its task: well-formed stores stay
    well-formed, candidates, tasks and sources that were there stay as they were, and
    the task is a duplicate exactly when it was there. *)
Theorem accept_atomic self submission db db' r :
  library_ok db -> db_ok (tasks db) -> accept self submission db = Some (db', r) ->
  match r with
  | Err _ => db' = db
  | Ok a =>
      library_ok db' /\ db_ok (tasks db') /\
      (ac_duplicate a = true <-> is_Some (sporos_task (tasks db) !! ac_task_id a)) /\
      is_Some (sporos_candidate db' !! ac_candidate_id a) /\
      sporos_candidate db ⊆ sporos_candidate db' /\ sporos_candidate_task db ⊆ sporos_candidate_task db' /\
      sporos_candidate_provenance db ⊆ sporos_candidate_provenance db' /\
      sporos_task (tasks db) ⊆ sporos_task (tasks db') /\ inventory db' = inventory db
  end.
Proof.
  intros Hlib Hok Ha. destruct r as [a|e].
  2: { unfold Accept.accept in Ha. destruct (Accept.prepare _ _ _ _) as [[p|e']|]; cbn in Ha; [|by injection Ha|done].
       injection Ha as Ha. by apply atomically_Err in Ha. }
  apply accept_Ok in Ha as (p & ins & Hp & Hs & ->).
  apply store_Ok in Hs as (Hheld & [Hc Hct Hpv (Hin & Hma & Hmp)] & Hok' & Hdup & Hkeep); [|done].
  assert (sporos_candidate db ⊆ sporos_candidate db') as Hcsub.
  { rewrite Hc. unfold insert_new. destruct (sporos_candidate db !! _) eqn:E; cbn; [done|by apply insert_subseteq]. }
  assert (sporos_candidate_task db ⊆ sporos_candidate_task db') as Hctsub.
  { rewrite Hct. unfold insert_new. destruct (sporos_candidate_task db !! _) eqn:E; cbn; [done|by apply insert_subseteq]. }
  assert (is_Some (sporos_candidate db' !! pp_candidate_id p)) as Hcand
    by (destruct (h_candidate _ _ _ Hheld) as (c & Hc' & _); by exists c).
  assert (forall c, is_Some (sporos_candidate db !! c) -> is_Some (sporos_candidate db' !! c)) as Hcmono
    by (intros c [row Hrow]; exists row; by eapply lookup_weaken).
  destruct Hlib as [L1 L2 L3 L4]. unfold inventory in Hin. injection Hin as Hq Hst Hda Hfi Hti Hex.
  split.
  { split; rewrite ?Hq, ?Hda, ?Hma, ?Hmp; try done.
    - intros i row. rewrite Hpv. intros [[_ <-]|[_ Hrow]]%lookup_insert_Some; [done|]. apply Hcmono. by eapply L3.
    - intros c pid t. rewrite Hct. unfold insert_new. destruct (sporos_candidate_task db !! _) eqn:E; cbn.
      + intros Ht. apply Hcmono. by eapply L4.
      + intros [[[= <- <-] _]|[_ Ht]]%lookup_insert_Some; [done|]. apply Hcmono. by eapply L4. }
  split; [done|]. split.
  { cbn. destruct ins; cbn.
    - rewrite (proj1 Hdup eq_refl). split; [done|by intros []].
    - destruct (sporos_task (tasks db) !! _); [|by discriminate (proj2 Hdup eq_refl)]. split; [by eexists|done]. }
  split; [done|]. split; [done|]. split; [done|]. split.
  { rewrite Hpv. apply insert_subseteq, next_rowid_fresh. }
  split; [by apply map_subseteq_spec, Hkeep|]. unfold inventory. by rewrite Hq, Hst, Hda, Hfi, Hti, Hex.
Qed.

(** ** The decision loads what was accepted *)

Lemma first_provenance_new db db' cid row k :
  (forall i p, sporos_candidate_provenance db !! i = Some p -> pv_candidate_id p <> cid) ->
  sporos_candidate_provenance db !! k = None -> pv_candidate_id row = cid ->
  sporos_candidate_provenance db' = <[k := row]> (sporos_candidate_provenance db) ->
  Decision.first_provenance db' cid = Some row.
Proof.
  intros Hno Hk Hrow Hdb. unfold Decision.first_provenance. rewrite Hdb.
  assert (filter (fun p : Z * ProvenanceRow => pv_candidate_id p.2 = cid)
    (map_to_list (<[k := row]> (sporos_candidate_provenance db))) = [(k, row)]) as ->; [|done].
  apply Permutation_singleton_r. rewrite map_to_list_insert by done.
  rewrite filter_cons_True by done. f_equiv.
  destruct (filter _ (map_to_list (sporos_candidate_provenance db))) as [|[i p] l] eqn:Hf; [done|]. exfalso.
  assert ((i, p) ∈ filter (fun p : Z * ProvenanceRow => pv_candidate_id p.2 = cid)
            (map_to_list (sporos_candidate_provenance db))) as Hin by (rewrite Hf; by left).
  apply list_elem_of_filter in Hin as [Hp Hin]. apply elem_of_map_to_list in Hin. by apply (Hno i p).
Qed.

(** C12: The decision loads what was accepted.  When the candidate is new, the workflow
    that an accepted submission starts is given the identifiers under which the decision
    then finds the torrent as it was parsed, within the limits, the release that its
    announcement names, the policy of the submission and where it came from.  When the
    candidate was there before, an accepted submission leaves its row as it is: later
    decisions load the metadata of the first submission, not of this one. *)
Theorem accepted_candidate_loads `{!CandidateCodecLaws} self submission db db' a :
  library_ok db -> db_ok (tasks db) -> accept self submission db = Some (db', Ok a) ->
  (forall c, sporos_candidate db !! ac_candidate_id a = Some c ->
     sporos_candidate db' !! ac_candidate_id a = Some c) /\
  (sporos_candidate db !! ac_candidate_id a = None ->
  exists parsed torrent_name manifest policy,
    Torrent.parse decode_with metainfo_parse (cs_bytes submission) = Some (Ok parsed) /\
    Z.of_nat (length (cs_bytes submission)) <= max_torrent_bytes (limits self) /\
    Z.of_nat (length (Torrent.pt_files parsed)) <= max_files_per_torrent (limits self) /\
    candidate_manifest (limits self) parsed = Ok manifest /\
    from_utf8 (Torrent.pt_name parsed) = Some torrent_name /\
    candidate_policy self submission = Ok policy /\
    let input := mkInput (ac_task_id a) (ac_candidate_id a) (first_16 (sha256 (encode_policy policy))) in
    Decision.load_candidate input db' = Ok {|
      Decision.lc_manifest := manifest;
      Decision.lc_release := apply_hint (Release.parse_release (display_name submission torrent_name))
                               (release_hint submission);
      Decision.lc_policy := policy; Decision.lc_created_at := received_at submission;
      Decision.lc_trigger := trigger submission; Decision.lc_indexer_id := indexer_id submission;
      Decision.lc_indexer_name := indexer submission |} /\
    exists oid o, sporos_outbox (tasks db') !! oid = Some o /\ o_task_id o = ac_task_id a /\
      o_orchestration_name o = ORCHESTRATION_NAME /\ o_input_json o = encode_input input).
Proof.
  intros Hlib Hok (p & ins & Hp & Hs & ->)%accept_Ok. cbn [ac_candidate_id ac_task_id] in *.
  split.
  { intros c Hc. apply store_Ok in Hs as (_ & [Hcand _ _ _] & _); [|done].
    rewrite Hcand. unfold insert_new. by rewrite Hc. }
  intros Hnew.
  apply prepare_Ok in Hp as (parsed & name & [E1 E2 E3 E4 E5 E6 E7 E8 E9 E10 E11 E12]).
  apply store_Ok in Hs as ([_ _ _ _ [Hpol _ _ Hout] Hct] & [Hc _ Hpv _] & _); [|done].
  exists parsed, name, (pp_manifest p), (pp_policy p). do 6 (split; [done|]).
  assert (policy_id_of p = first_16 (sha256 (encode_policy (pp_policy p)))) as Hpid
    by (unfold policy_id_of; by rewrite E12).
  split.
  - unfold Decision.load_candidate. cbn [in_task_id in_candidate_id in_policy_snapshot_id].
    rewrite Hc. unfold insert_new. rewrite Hnew. cbn. rewrite lookup_insert_eq. cbn.
    rewrite <- Hpid, Hct. cbn. rewrite str_eqb_refl. cbn.
    destruct Hpol as (pol & Hpol & _ & _ & Hpay). unfold policy_id_of in *. rewrite Hpol. cbn.
    rewrite (first_provenance_new db db' (pp_candidate_id p) (provenance_row (pp_candidate_id p) submission)
      (next_rowid (sporos_candidate_provenance db))); [|..|done|exact Hpv].
    + cbn. rewrite manifest_roundtrip, release_roundtrip, Hpay. cbn. rewrite E12. cbn.
      rewrite policy_roundtrip. cbn. by rewrite E7, E6.
    + intros i row Hrow He. apply (lo_provenance _ Hlib) in Hrow as [? Hrow]. congruence.
    + apply next_rowid_fresh.
  - destruct Hout as (q & rest & Hq & Ht & Hn & _ & _ & Hi). apply outbox_with_key_cons in Hq as [Hq _].
    exists q.1, q.2. split; [done|]. split; [done|]. rewrite Hn, Hi, E12. split; [done|]. cbn.
    do 2 f_equal.
Qed.
End AcceptProofs.

(** ** A concrete submission *)

Module Sample.
#[local] Instance sample_intake_codec : IntakeCodec :=
  {| encode_input i := in_task_id i ++ in_candidate_id i ++ in_policy_snapshot_id i;
     encode_detail _ _ := [] |}.

Definition sample_ingress : CandidateIngress :=
  mkCandidateIngress (mkMatching default_policy f64_zero 100 10 100 5000000)
    (mkSourceFilters [] [] [] [] true) (mkInjectionConfig false [] [] false false Pieces.CompleteOnly)
    (Paths.mkPaths (lit "/links") [Paths.mkPathRewrite (lit "all") (lit "/remote") (lit "/links") [lit "qbittorrent"]]).

Definition submission (name : string) (at_ : Z) : CandidateSubmission :=
  mkSubmission (lit "bytes of a torrent file") (Some (lit name)) (Some (lit "indexer")) None
    (lit "announce") None None [] (lit "req") false at_.

Definition empty_library : Library :=
  mkLibrary empty_db ∅ ∅ ∅ ∅ ∅ (mkInventoryRow None 0 None None None None None None) ∅ ∅ ∅ ∅ ∅ ∅ ∅ ∅.

Definition accept_sample (s : CandidateSubmission) (db : Library) :=
  accept (H := ascii_unicode) (fun _ => true) (fun _ => Some Torrent.sample_metainfo) sample_ingress s db.

Definition sample_db : Library :=
  match accept_sample (submission "Show.S01E01" 5) empty_library with
  | Some (db, _) => db
  | None => empty_library
  end.

Definition sample_accepted : AcceptedCandidate :=
  mkAccepted (lit "bytes of a torre") (lit "candidate-task-v") false.

Lemma sample_accepts :
  accept_sample (submission "Show.S01E01" 5) empty_library = Some (sample_db, Ok sample_accepted).
Proof.
  assert ((snd <$> accept_sample (submission "Show.S01E01" 5) empty_library) = Some (Ok sample_accepted)) as Hr
    by (vm_compute; reflexivity).
  unfold sample_db. destruct (accept_sample _ _) as [[db r]|]; [|discriminate Hr].
  cbn in Hr. by injection Hr as ->.
Qed.

Lemma empty_library_ok : library_ok empty_library.
Proof. by split; try (intros ? ? ? [=]); [apply disjoint_empty_r|intros ? ? [=]]. Qed.

(** The same torrent, announced by another name. *)
Lemma accept_once_witness :
  (snd <$> accept_sample (submission "Show.S01E01.repost" 9) sample_db)
  = Some (Ok (mkAccepted (lit "bytes of a torre") (lit "candidate-task-v") true)).
Proof.
  pose proof (accept_once (H := ascii_unicode) _ _ sample_ingress (submission "Show.S01E01" 5)
    (submission "Show.S01E01.repost" 9) empty_library sample_db sample_accepted db_ok_empty eq_refl eq_refl
    sample_accepts) as Hagain.
  exact (f_equal (fmap snd) Hagain).
Defined.

Lemma accept_atomic_witness : library_ok sample_db /\ db_ok (tasks sample_db).
Proof.
  destruct (accept_atomic (H := ascii_unicode) _ _ sample_ingress (submission "Show.S01E01" 5) empty_library
    sample_db (Ok sample_accepted) empty_library_ok db_ok_empty sample_accepts) as (Hlib & Hok & _).
  exact (conj Hlib Hok).
Defined.

Lemma accepted_candidate_loads_witness :
  exists input loaded, Decision.load_candidate input sample_db = Ok loaded /\
    Decision.lc_created_at loaded = 5.
Proof.
  destruct (accepted_candidate_loads (H := ascii_unicode) _ _ sample_ingress (submission "Show.S01E01" 5)
    empty_library sample_db sample_accepted empty_library_ok db_ok_empty sample_accepts)
    as [_ Hnew]. destruct (Hnew eq_refl) as (parsed & name & manifest & policy & _ & _ & _ & _ & _ & _ & Hload & _).
  eexists _, _. split; [exact Hload|reflexivity].
Defined.
End Sample.
