(* ===== verification/Facts.v ===== *)
(** The facts by which sources are found (source_facts.rs): the titles and external
    identifiers of a source, replaced when its release is read again.

    [replace] is the writer of the two tables that the selection of plausible sources
    reads (Decision.v).  The theorem joins the writer, the reader and the matcher: the
    selection by facts loses no source that the matcher would take. *)

From S2P Require Import Prelude Text Model Matcher Duroxide Store Candidate Library Decision.
From stdpp Require Import strings.
Local Open Scope Z_scope.

Definition MAX_ALTERNATE_TITLES : nat := 32.

(** ** Definitions *)

(** [INSERT ... ON CONFLICT DO NOTHING]: the primary key is the whole fact. *)
Definition insert_title (source_id source_type : str) (n : Inventory) (title : str) : Inventory :=
  mkInventory (n_torrent n) (n_state n) (n_data n) (n_file n)
    ({[ (source_id, source_type, title) ]} ∪ n_title n) (n_external n).

Definition insert_external (source_id source_type : str) (n : Inventory) (id : str * str) : Inventory :=
  mkInventory (n_torrent n) (n_state n) (n_data n) (n_file n) (n_title n)
    ({[ (source_id, source_type, id) ]} ∪ n_external n).

(** The two [DELETE]s. *)
Definition forget (source_id source_type : str) (n : Inventory) : Inventory :=
  mkInventory (n_torrent n) (n_state n) (n_data n) (n_file n)
    (filter (fun p => ~ (p.1.1 = source_id /\ p.1.2 = source_type)) (n_title n))
    (filter (fun p => ~ (p.1.1 = source_id /\ p.1.2 = source_type)) (n_external n)).

(** The external identifiers of a source, in the order of insertion. *)
Definition external_ids (identity : ArrIdentity) : list (str * str) :=
  let kind := match arr_kind identity with ArrMovie => lit "movie" | ArrSeries => lit "series" end in
  (lit "arr:" ++ kind ++ lit ":" ++ arr_instance identity, decimal (arr_entity_id identity))
  :: omap (fun p : str * option str => (fun value => (p.1, value)) <$> p.2)
       [(lit "tvdb", decimal <$> arr_tvdb_id identity);
        (lit "tmdb", decimal <$> arr_tmdb_id identity);
        (lit "imdb", arr_imdb_id identity)].

Definition replace (source_id source_type : str) (release : ReleaseDescriptor) (n : Inventory)
  : Inventory :=
  let n := insert_title source_id source_type (forget source_id source_type n) (rd_primary_title release) in
  let n := foldl (insert_title source_id source_type) n
             (take MAX_ALTERNATE_TITLES (rd_alternate_titles release)) in
  match rd_arr_identity release with
  | None => n
  | Some identity => foldl (insert_external source_id source_type) n (external_ids identity)
  end.

(** The titles and identifiers that are recorded. *)
Definition fact_titles (release : ReleaseDescriptor) : list str :=
  rd_primary_title release :: take MAX_ALTERNATE_TITLES (rd_alternate_titles release).
Definition fact_ids (release : ReleaseDescriptor) : list (str * str) :=
  default [] (external_ids <$> rd_arr_identity release).

(** ** What [replace] writes *)

Lemma insert_titles_spec id ty titles n :
  let n' := foldl (insert_title id ty) n titles in
  n_torrent n' = n_torrent n /\ n_state n' = n_state n /\ n_data n' = n_data n /\ n_file n' = n_file n /\
  n_external n' = n_external n /\
  forall p, p ∈ n_title n' <-> p ∈ n_title n \/ (p.1 = (id, ty) /\ p.2 ∈ titles).
Proof.
  revert n. induction titles as [|title titles IH]; intros n; cbn.
  - repeat (split; [done|]). intros p. rewrite elem_of_nil. tauto.
  - destruct (IH (insert_title id ty n title)) as (E1 & E2 & E3 & E4 & E5 & E6).
    repeat (split; [done|]). intros [[i t] x]. rewrite E6. cbn.
    rewrite elem_of_union, elem_of_singleton, elem_of_cons. naive_solver.
Qed.

Lemma insert_externals_spec id ty ids n :
  let n' := foldl (insert_external id ty) n ids in
  n_torrent n' = n_torrent n /\ n_state n' = n_state n /\ n_data n' = n_data n /\ n_file n' = n_file n /\
  n_title n' = n_title n /\
  forall p, p ∈ n_external n' <-> p ∈ n_external n \/ (p.1 = (id, ty) /\ p.2 ∈ ids).
Proof.
  revert n. induction ids as [|x ids IH]; intros n; cbn.
  - repeat (split; [done|]). intros p. rewrite elem_of_nil. tauto.
  - destruct (IH (insert_external id ty n x)) as (E1 & E2 & E3 & E4 & E5 & E6).
    repeat (split; [done|]). intros [[i t] y]. rewrite E6. cbn.
    rewrite elem_of_union, elem_of_singleton, elem_of_cons. naive_solver.
Qed.

(** The facts of the source are those of the release, those of others are untouched. *)
Lemma replace_spec id ty release n :
  let n' := replace id ty release n in
  n_torrent n' = n_torrent n /\ n_state n' = n_state n /\ n_data n' = n_data n /\ n_file n' = n_file n /\
  (forall p, p ∈ n_title n' <->
     if bool_decide (p.1 = (id, ty)) then p.2 ∈ fact_titles release else p ∈ n_title n) /\
  (forall p, p ∈ n_external n' <->
     if bool_decide (p.1 = (id, ty)) then p.2 ∈ fact_ids release else p ∈ n_external n).
Proof.
  unfold replace.
  pose proof (insert_titles_spec id ty (fact_titles release) (forget id ty n)) as (E1 & E2 & E3 & E4 & E5 & E6).
  cbn [fact_titles foldl] in E1, E2, E3, E4, E5, E6.
  set (n1 := foldl _ _ (take _ _)) in *.
  assert (forall p, p ∈ n_title n1 <->
     if bool_decide (p.1 = (id, ty)) then p.2 ∈ fact_titles release else p ∈ n_title n) as Ht.
  { intros [[i t] x]. rewrite E6. cbn [forget n_title fst snd]. rewrite elem_of_filter. cbn.
    case_bool_decide as E; [naive_solver|]. split; [naive_solver|]. intros Hp. left. split; [|done].
    intros [-> ->]. by apply E. }
  unfold fact_ids. destruct (rd_arr_identity release) as [identity|]; cbv beta iota zeta.
  - change (default [] (external_ids <$> Some identity)) with (external_ids identity).
    pose proof (insert_externals_spec id ty (external_ids identity) n1) as (F1 & F2 & F3 & F4 & F5 & F6).
    cbv zeta in F1, F2, F3, F4, F5, F6. set (n2 := foldl _ _ (external_ids identity)) in *.
    rewrite F1, F2, F3, F4. repeat (split; [done|]). split; [by intros p; rewrite F5|].
    intros [[i t] x]. rewrite F6, E5. cbn [forget n_external fst snd]. rewrite elem_of_filter. cbn.
    case_bool_decide as E; [naive_solver|]. split; [naive_solver|]. intros Hp. left. split; [|done].
    intros [-> ->]. by apply E.
  - change (default [] (external_ids <$> None)) with ([] : list (str * str)).
    repeat (split; [done|]).
    intros [[i t] x]. rewrite E5. cbn [forget n_external fst snd]. rewrite elem_of_filter. cbn.
    case_bool_decide as E; [by rewrite elem_of_nil; naive_solver|]. split; [naive_solver|]. intros Hp.
    split; [|done]. intros [-> ->]. by apply E.
Qed.

(** ** Finding a source *)

Lemma existsb_bool_decide {A} (P : A -> Prop) `{!forall a, Decision (P a)} l :
  existsb (fun a => bool_decide (P a)) l = true <-> exists a, a ∈ l /\ P a.
Proof.
  rewrite existsb_exists. split; intros (a & Ha%list_elem_of_In & HP); exists a; split; try done.
  - by eapply bool_decide_eq_true_1.
  - by apply bool_decide_eq_true_2.
Qed.

(** The release of a source after [replace]: the source is selected for exactly the
    candidates that share a recorded title or identifier with it. *)
Lemma plausible_replaced db id ty release titles ids :
  Decision.plausible (with_inventory (replace id ty release (inventory db)) db) ty titles ids id = true <->
  (exists title, title ∈ titles /\ title ∈ fact_titles release) \/
  (exists x, x ∈ ids /\ x ∈ fact_ids release).
Proof.
  destruct (replace_spec id ty release (inventory db)) as (_ & _ & _ & _ & Ht & He).
  unfold Decision.plausible. rewrite orb_true_iff, !existsb_bool_decide.
  cbn [sporos_source_title sporos_source_external_id with_inventory].
  setoid_rewrite Ht. setoid_rewrite He. cbn [fst snd]. by rewrite (bool_decide_true ((id, ty) = (id, ty))).
Qed.

(** The other sources are found as before. *)
Lemma plausible_others db id ty release titles ids other ty' :
  (other, ty') <> (id, ty) ->
  Decision.plausible (with_inventory (replace id ty release (inventory db)) db) ty' titles ids other
  = Decision.plausible db ty' titles ids other.
Proof.
  intros Hne. destruct (replace_spec id ty release (inventory db)) as (_ & _ & _ & _ & Ht & He).
  apply eq_true_iff_eq. unfold Decision.plausible. rewrite !orb_true_iff, !existsb_bool_decide.
  cbn [sporos_source_title sporos_source_external_id with_inventory].
  setoid_rewrite Ht. setoid_rewrite He. cbn [fst snd]. by rewrite bool_decide_false by congruence.
Qed.

Lemma compatible_shares candidate source mode :
  compatible candidate source mode = Ok tt ->
  (exists c s, rd_arr_identity candidate = Some c /\ rd_arr_identity source = Some s /\
     Matcher.same_identity c s = true) \/ titles_overlap candidate source = true.
Proof.
  unfold compatible. intros Hc. apply bind_Ok in Hc as (? & _ & Hc). apply bind_Ok in Hc as (? & _ & Hc).
  apply bind_Ok in Hc as (? & Hb%bail_if_Ok & _). apply andb_false_iff in Hb as [Hb|Hb].
  - left. destruct (rd_arr_identity candidate), (rd_arr_identity source); try done. eexists _, _.
    split_and!; [done..|]. by apply negb_false_iff in Hb.
  - right. by apply negb_false_iff in Hb.
Qed.

Lemma titles_overlap_spec candidate source :
  titles_overlap candidate source = true <->
  exists title, title ∈ rd_primary_title candidate :: rd_alternate_titles candidate /\
                title ∈ rd_primary_title source :: rd_alternate_titles source.
Proof.
  unfold titles_overlap, str_mem. rewrite existsb_bool_decide. naive_solver.
Qed.

Lemma same_identity_id c s : Matcher.same_identity c s = true ->
  exists x rest rest', external_ids c = x :: rest /\ external_ids s = x :: rest'.
Proof.
  unfold Matcher.same_identity. rewrite !andb_true_iff. intros [[Hk%bool_decide_eq_true Hi%str_eqb_spec] He%Z.eqb_eq].
  unfold external_ids. rewrite Hk, Hi, He. by eexists _, _, _.
Qed.

(** Compatible releases share a recorded fact. *)
Lemma compatible_facts candidate source mode :
  compatible candidate source mode = Ok tt ->
  (length (rd_alternate_titles source) <= MAX_ALTERNATE_TITLES)%nat ->
  (length (rd_alternate_titles candidate) <= MAX_ALTERNATE_TITLES)%nat ->
  (exists title, title ∈ Decision.reduction_titles candidate /\ title ∈ fact_titles source) \/
  (exists x, x ∈ Decision.reduction_external_ids candidate /\ x ∈ fact_ids source).
Proof.
  intros Hcomp Hs Hc. unfold Decision.reduction_titles, fact_titles.
  change Decision.MAX_ALTERNATE_TITLES with MAX_ALTERNATE_TITLES. rewrite !take_ge by done.
  apply compatible_shares in Hcomp as [(c & s & Hci & Hsi & Hid)|Hov].
  - right. apply same_identity_id in Hid as (x & rest & rest' & Ec & Es). exists x.
    unfold fact_ids. rewrite Hsi.
    assert (Decision.reduction_external_ids candidate = external_ids c) as ->
      by (unfold Decision.reduction_external_ids; by rewrite Hci).
    change (default [] (external_ids <$> Some s)) with (external_ids s). rewrite Ec, Es.
    split; apply list_elem_of_here.
  - left. apply titles_overlap_spec in Hov as (title & Ht & Ht'). by exists title.
Qed.

(** The index of sources misses nothing.  When the facts of a source are replaced by
    those of its release, every candidate whose release the matcher finds compatible
    with it selects it, as long as neither has more alternate titles than are
    recorded; and no other source is selected differently than before. *)
Theorem index_is_complete db id ty source candidate mode :
  (length (rd_alternate_titles source) <= MAX_ALTERNATE_TITLES)%nat ->
  (length (rd_alternate_titles candidate) <= MAX_ALTERNATE_TITLES)%nat ->
  compatible candidate source mode = Ok tt ->
  let db' := with_inventory (replace id ty source (inventory db)) db in
  let titles := Decision.reduction_titles candidate in
  let ids := Decision.reduction_external_ids candidate in
  Decision.plausible db' ty titles ids id = true /\
  forall other ty', (other, ty') <> (id, ty) ->
    Decision.plausible db' ty' titles ids other = Decision.plausible db ty' titles ids other.
Proof.
  intros Hs Hc Hcomp db' titles ids. split; [|intros; by apply plausible_others].
  apply plausible_replaced. by eapply compatible_facts.
Qed.

Module Sample.

Definition source : ReleaseDescriptor :=
  mkReleaseDescriptor Movie (lit "the film") [lit "le film"] None None None None None None None None
    None None None None None None.
Definition candidate : ReleaseDescriptor :=
  mkReleaseDescriptor Movie (lit "le film") [] (Some 1999) None None None None None None None None
    None None None None None.

Definition db : Library :=
  mkLibrary empty_db ∅ ∅ ∅ ∅ ∅ (mkInventoryRow None 0 None None None None None None) ∅ ∅ ∅ ∅ ∅ ∅ ∅ ∅.

Lemma index_is_complete_witness :
  compatible candidate source false = Ok tt /\
  Decision.plausible (with_inventory (replace (lit "a") (lit "data") source (inventory db)) db) (lit "data")
    (Decision.reduction_titles candidate) (Decision.reduction_external_ids candidate) (lit "a") = true.
Proof.
  split; [by vm_compute|].
  refine (proj1 (index_is_complete db (lit "a") (lit "data") source candidate false _ _ _)).
  - unfold MAX_ALTERNATE_TITLES. cbn. lia.
  - unfold MAX_ALTERNATE_TITLES. cbn. lia.
  - by vm_compute.
Defined.

End Sample.
