(* ===== verification/Completion.v ===== *)
(** Completed downloads (completion.rs): the operation, task and start that are
    recorded when a torrent is first seen complete, and the activity that finishes them.

    [accept] runs inside the transaction that projects the torrent (QbitProjection.v), so it
    works on the whole library; [project_completion] is an activity with a transaction of
    its own on the task tables. *)

From S2P Require Import Prelude Text Store Duroxide Library Codec.
From stdpp Require Import strings.
Local Open Scope Z_scope.

Definition ORCHESTRATION_NAME : str := lit "QbittorrentCompletion".
Definition ORCHESTRATION_VERSION : str := lit "1.0.0".
(** A JSON object: its quotes are the byte 34. *)
Definition quoted (s : string) : str := [34] ++ lit s ++ [34].
Definition POLICY_PAYLOAD : str :=
  lit "{" ++ quoted "kind" ++ lit ":" ++ quoted "qbittorrent_completion" ++ lit "," ++
  quoted "version" ++ lit ":1}".

Record CompletionInput := mkCompletionInput {
  ci_operation_id : str; ci_task_id : str; ci_source_id : str; ci_completed_at : Z;
  ci_observed_at : Z }.

Record AcceptedCompletion := mkAcceptedCompletion {
  acm_operation_id : str; acm_task_id : str; acm_duplicate : bool }.

(** [Serialize] is an error of serde, which encodes these types without one. *)
Inductive CompletionError := CompletionDatabase (e : SqlError).

(** serde's encoding of the input and of [json!({sourceId, completedAt})]. *)
Class CompletionCodec := {
  encode_completion : CompletionInput -> str;
  decode_completion : str -> option CompletionInput;
  encode_completed : str -> Z -> str }.

Class CompletionCodecLaws `{CompletionCodec} : Prop := {
  completion_roundtrip : forall i, decode_completion (encode_completion i) = Some i }.

(** ** Identity *)

Section Completion.
Context `{Digest} `{CompletionCodec}.

Definition identity (namespace : string) (source_id : str) (completed_at : Z) : str :=
  sha256 (be_bytes 8 (Z.of_nat (length (lit namespace))) ++ lit namespace ++ source_id
          ++ be_bytes 8 completed_at).
Definition id16 (namespace : string) (source_id : str) (completed_at : Z) : str :=
  first_16 (identity namespace source_id completed_at).
Definition id32 (namespace : string) (source_id : str) (completed_at : Z) : str :=
  identity namespace source_id completed_at.

Definition operation_id (source_id : str) (completed_at : Z) : str :=
  id16 "qbit-completion-operation" source_id completed_at.
Definition completion_task_id (source_id : str) (completed_at : Z) : str :=
  id16 "qbit-completion-task" source_id completed_at.
Definition task_key (source_id : str) (completed_at : Z) : str :=
  id32 "qbit-completion-key" source_id completed_at.
Definition policy_id : str := id16 "qbit-completion-policy" (replicate 16 0) 1.
Definition instance_id (source_id : str) (completed_at : Z) : str :=
  lit "qbit-completion:" ++ hex (operation_id source_id completed_at).
Definition input (source_id : str) (completed_at observed_at : Z) : CompletionInput :=
  mkCompletionInput (operation_id source_id completed_at) (completion_task_id source_id completed_at)
    source_id completed_at observed_at.

(** ** Statements *)

(** [INSERT INTO sporos_operation ... ON CONFLICT(id) DO NOTHING] *)
Definition insert_operation_ignore (id : str) (row : OperationRow) : Sql Z := fun db =>
  match insert_new id row (sporos_operation db) with
  | None => (db, Ok 0)
  | Some t => (set_operations (fun _ => t) db, Ok 1)
  end.

(** [INSERT INTO sporos_qbit_completion ... ON CONFLICT(source_id, completed_at) DO
    NOTHING]: operation and task are unique, and the three references exist. *)
Definition insert_completion_ignore (source_exists : bool) (source_id : str) (completed_at : Z)
    (row : CompletionRow) : Sql Z := fun db =>
  match insert_new (source_id, completed_at) row (sporos_qbit_completion db) with
  | None => (db, Ok 0)
  | Some t =>
      if bool_decide (map_Forall (fun _ other => c_operation_id other <> c_operation_id row
                                     /\ c_task_id other <> c_task_id row) (sporos_qbit_completion db)
                      /\ is_Some (sporos_operation db !! c_operation_id row)
                      /\ is_Some (sporos_task db !! c_task_id row)) && source_exists
      then (set_completions (fun _ => t) db, Ok 1)
      else (db, Err Constraint)
  end.

Definition update_operation (id : str) (f : OperationRow -> OperationRow) : Sql Z := fun db =>
  let '(t, n) := update_where id (fun _ => true) f (sporos_operation db) in
  (set_operations (fun _ => t) db, Ok n).

(** ** Accepting a completion *)

(** The statements of [accept], on the task tables. *)
Definition record (source_exists : bool) (source_id : str) (completed_at observed_at : Z)
  : Tx CompletionError bool :=
  let op := operation_id source_id completed_at in
  let task := completion_task_id source_id completed_at in
  let instance := instance_id source_id completed_at in
  _ ← exec CompletionDatabase (insert_policy_ignore policy_id
              (mkPolicyRow (sha256 POLICY_PAYLOAD) (lit "not_applicable") POLICY_PAYLOAD 0));
  _ ← exec CompletionDatabase (insert_operation_ignore op
              (mkOperationRow (lit "qbittorrent_completion") (lit "queued") instance
                 (encode_completed (hex source_id) completed_at) 0 None observed_at observed_at));
  _ ← exec CompletionDatabase (insert_task_ignore task
              (fresh_task (lit "qbittorrent_completion") instance policy_id (Some op) observed_at));
  _ ← exec CompletionDatabase (insert_event true task 0 (mkEventRow (lit "queued") None None observed_at));
  _ ← exec CompletionDatabase (insert_outbox true
              (queued_outbox task (task_key source_id completed_at) ORCHESTRATION_NAME
                 ORCHESTRATION_VERSION instance
                 (encode_completion (input source_id completed_at observed_at)) observed_at));
  inserted ← (exec CompletionDatabase (insert_completion_ignore source_exists source_id completed_at
                        (mkCompletionRow op task observed_at)) : Tx CompletionError Z);
  mret (inserted =? 1).

Definition accept (source_id : str) (completed_at observed_at : Z)
  : M Library CompletionError AcceptedCompletion := fun db =>
  let '(t, r) := record (bool_decide (is_Some (sporos_qbit_torrent db !! source_id)))
                   source_id completed_at observed_at (tasks db) in
  (with_tasks t db,
   inserted ← r;
   Ok (mkAcceptedCompletion (operation_id source_id completed_at)
         (completion_task_id source_id completed_at) (negb inserted))).

(** ** Finishing it *)

Definition completed_task (at_ : Z) (row : TaskRow) : TaskRow :=
  {| t_kind := t_kind row; t_state := lit "completed"; projection_generation := 1;
     t_operation_id := t_operation_id row; duroxide_instance_id := duroxide_instance_id row;
     duroxide_execution_id := duroxide_execution_id row; policy_snapshot_id := policy_snapshot_id row;
     t_reason_code := t_reason_code row; last_error_class := last_error_class row;
     last_error_message := last_error_message row;
     observed_retry_count := observed_retry_count row; t_created_at := t_created_at row;
     updated_at := at_; terminal_at := Some at_;
     projection_repair_checked_at := projection_repair_checked_at row |}.

Definition completed_operation (at_ : Z) (row : OperationRow) : OperationRow :=
  mkOperationRow (op_kind row) (lit "completed") (op_instance_id row) (op_request_json row)
    (op_produced_tasks row) (op_last_reported_cursor row) (op_created_at row) at_.

Definition project_completion (i : CompletionInput) : M Db CompletionError () :=
  transaction
    (_ ← exec CompletionDatabase (update_task (ci_task_id i) (fun row => projection_generation row =? 0)
                 (completed_task (ci_observed_at i)));
     _ ← exec CompletionDatabase (insert_event true (ci_task_id i) 1
                 (mkEventRow (lit "completed") None
                    (Some (encode_completed (hex (ci_source_id i)) (ci_completed_at i)))
                    (ci_observed_at i)));
     _ ← exec CompletionDatabase (update_operation (ci_operation_id i) (completed_operation (ci_observed_at i)));
     mret ()).
End Completion.

(** ** Lemmas *)

Section Proofs.
Context `{Digest} `{CompletionCodec}.

(** The store holds a completion: its policy, operation, task, first event and start. *)
Record recorded (source_id : str) (completed_at : Z) (db : Db) : Prop := {
  rd_policy : is_Some (sporos_policy_snapshot db !! policy_id);
  rd_operation : is_Some (sporos_operation db !! operation_id source_id completed_at);
  rd_task : is_Some (sporos_task db !! completion_task_id source_id completed_at);
  rd_event : is_Some (sporos_task_event db !! (completion_task_id source_id completed_at, 0));
  rd_outbox : exists i o, sporos_outbox db !! i = Some o /\ o_task_key o = task_key source_id completed_at;
  rd_completion : is_Some (sporos_qbit_completion db !! (source_id, completed_at)) }.

(** No row of the task tables is lost. *)
Record keeps (db db' : Db) : Prop := {
  kp_policy : sporos_policy_snapshot db ⊆ sporos_policy_snapshot db';
  kp_operation : sporos_operation db ⊆ sporos_operation db';
  kp_task : sporos_task db ⊆ sporos_task db';
  kp_event : sporos_task_event db ⊆ sporos_task_event db';
  kp_outbox : sporos_outbox db ⊆ sporos_outbox db';
  kp_completion : sporos_qbit_completion db ⊆ sporos_qbit_completion db' }.

#[export] Instance keeps_preorder : PreOrder keeps.
Proof.
  split; [by split|]. intros a b c [A1 A2 A3 A4 A5 A6] [B1 B2 B3 B4 B5 B6].
  split; by etrans.
Qed.

Lemma keeps_recorded source_id completed_at db db' :
  keeps db db' -> recorded source_id completed_at db -> recorded source_id completed_at db'.
Proof.
  intros [K1 K2 K3 K4 K5 K6] [R1 R2 R3 R4 (i & o & R5 & R5') R6].
  split; try by eapply lookup_weaken_is_Some. exists i, o. split; [|done]. by eapply lookup_weaken.
Qed.

Lemma insert_new_subseteq {K A} `{Countable K} (k : K) (a : A) t t' :
  insert_new k a t = Some t' -> t ⊆ t'.
Proof. intros [Hn ->]%insert_new_Some. by apply insert_subseteq. Qed.

Lemma insert_new_here {K A} `{Countable K} (k : K) (a : A) (t : gmap K A) :
  insert_new k a t = None -> is_Some (t !! k).
Proof. unfold insert_new. destruct (t !! k); [done|discriminate]. Qed.

(** ... and the completions are untouched. *)
Definition grows (db db' : Db) : Prop :=
  keeps db db' /\ sporos_qbit_completion db' = sporos_qbit_completion db.

#[export] Instance grows_preorder : PreOrder grows.
Proof. split; [done|]. intros a b c [A1 A2] [B1 B2]. split; [by etrans|congruence]. Qed.

Lemma keeps_insert_policy id row db db' n :
  insert_policy_ignore id row db = (db', Ok n) ->
  grows db db' /\ is_Some (sporos_policy_snapshot db' !! id).
Proof.
  unfold insert_policy_ignore. destruct (insert_new _ _ _) as [t|] eqn:Hi; intros [= <- <-].
  - split; [split; [split|]; cbn; try done; by eapply insert_new_subseteq|].
    apply insert_new_Some in Hi as [_ ->]. cbn. by rewrite lookup_insert_eq.
  - split; [done|]. by apply insert_new_here in Hi.
Qed.

Lemma keeps_insert_operation id row db db' n :
  insert_operation_ignore id row db = (db', Ok n) ->
  grows db db' /\ is_Some (sporos_operation db' !! id).
Proof.
  unfold insert_operation_ignore. destruct (insert_new _ _ _) as [t|] eqn:Hi; intros [= <- <-].
  - split; [split; [split|]; cbn; try done; by eapply insert_new_subseteq|].
    apply insert_new_Some in Hi as [_ ->]. cbn. by rewrite lookup_insert_eq.
  - split; [done|]. by apply insert_new_here in Hi.
Qed.

Lemma keeps_insert_task id row db db' n :
  insert_task_ignore id row db = (db', Ok n) -> grows db db' /\ is_Some (sporos_task db' !! id).
Proof.
  unfold insert_task_ignore. destruct (insert_new _ _ _) as [t|] eqn:Hi.
  - destruct (sporos_policy_snapshot db !! _); [|done]. intros [= <- <-].
    split; [split; [split|]; cbn; try done; by eapply insert_new_subseteq|].
    apply insert_new_Some in Hi as [_ ->]. cbn. by rewrite lookup_insert_eq.
  - intros [= <- <-]. split; [done|]. by apply insert_new_here in Hi.
Qed.

Lemma keeps_insert_event id k row db db' n :
  insert_event true id k row db = (db', Ok n) ->
  grows db db' /\ is_Some (sporos_task_event db' !! (id, k)).
Proof.
  unfold insert_event. destruct (k <? 0); [done|]. destruct (insert_new _ _ _) as [t|] eqn:Hi.
  - destruct (sporos_task db !! _); [|done]. intros [= <- <-].
    split; [split; [split|]; cbn; try done; by eapply insert_new_subseteq|].
    apply insert_new_Some in Hi as [_ ->]. cbn. by rewrite lookup_insert_eq.
  - intros [= <- <-]. split; [done|]. by apply insert_new_here in Hi.
Qed.

Lemma keeps_insert_outbox row db db' n :
  insert_outbox true row db = (db', Ok n) ->
  grows db db' /\ exists i o, sporos_outbox db' !! i = Some o /\ o_task_key o = o_task_key row.
Proof.
  intros [(_ & _ & -> & Hx)|(_ & -> & _)]%insert_outbox_Ok; [done|]. split.
  - split; [split|]; cbn; try done. apply insert_subseteq, next_rowid_fresh.
  - exists (next_rowid (sporos_outbox db)), row. cbn. by rewrite lookup_insert_eq.
Qed.

Lemma keeps_insert_completion se source_id completed_at row db db' n :
  insert_completion_ignore se source_id completed_at row db = (db', Ok n) ->
  keeps db db' /\ is_Some (sporos_qbit_completion db' !! (source_id, completed_at)) /\
  (n =? 1) = bool_decide (sporos_qbit_completion db !! (source_id, completed_at) = None) /\
  (forall key, key <> (source_id, completed_at) ->
     sporos_qbit_completion db' !! key = sporos_qbit_completion db !! key).
Proof.
  unfold insert_completion_ignore. destruct (insert_new _ _ _) as [t|] eqn:Hi.
  - destruct (_ && _); [|done]. intros [= <- <-]. split.
    { split; cbn; try done; by eapply insert_new_subseteq. }
    apply insert_new_Some in Hi as [Hn ->]. cbn. rewrite lookup_insert_eq.
    split; [done|]. split; [by rewrite bool_decide_true|]. intros key Hne. by rewrite lookup_insert_ne.
  - intros [= <- <-]. apply insert_new_here in Hi. split; [done|]. split; [done|]. split; [|done].
    symmetry. apply bool_decide_eq_false. by intros Hn; rewrite Hn in Hi; destruct Hi.
Qed.

(** What is recorded stays, and a completion is new exactly when its row was not there. *)
Lemma record_Ok se source_id completed_at observed_at db db' b :
  record se source_id completed_at observed_at db = (db', Ok b) ->
  keeps db db' /\ recorded source_id completed_at db' /\
  b = bool_decide (sporos_qbit_completion db !! (source_id, completed_at) = None) /\
  (forall key, key <> (source_id, completed_at) ->
     sporos_qbit_completion db' !! key = sporos_qbit_completion db !! key).
Proof.
  unfold record. intros (d1 & ? & H1%exec_Ok & Hr)%M_bind_Ok.
  apply M_bind_Ok in Hr as (d2 & ? & H2%exec_Ok & Hr). apply M_bind_Ok in Hr as (d3 & ? & H3%exec_Ok & Hr).
  apply M_bind_Ok in Hr as (d4 & ? & H4%exec_Ok & Hr). apply M_bind_Ok in Hr as (d5 & ? & H5%exec_Ok & Hr).
  apply M_bind_Ok in Hr as (d6 & n & H6%exec_Ok & Hr). injection Hr as <- <-.
  apply keeps_insert_policy in H1 as [K1 P1]. apply keeps_insert_operation in H2 as [K2 P2].
  apply keeps_insert_task in H3 as [K3 P3]. apply keeps_insert_event in H4 as [K4 P4].
  apply keeps_insert_outbox in H5 as [K5 P5]. apply keeps_insert_completion in H6 as (K6 & P6 & -> & Hkeys).
  assert (grows db d5) as [K05 Hc5] by (do 4 (etrans; [eassumption|]); done).
  assert (keeps d4 d6) as K46 by (etrans; [apply K5|done]).
  assert (keeps d3 d6) as K36 by (etrans; [apply K4|done]).
  assert (keeps d2 d6) as K26 by (etrans; [apply K3|done]).
  assert (keeps d1 d6) as K16 by (etrans; [apply K2|done]).
  rewrite Hc5 in Hkeys |- *. split; [by etrans|]. split; [|done]. destruct K16, K26, K36, K46, K6.
  split; try by eapply lookup_weaken_is_Some. destruct P5 as (i & o & P5 & P5').
  exists i, o. split; [by eapply lookup_weaken|done].
Qed.

Lemma record_again se source_id completed_at observed_at db :
  recorded source_id completed_at db -> record se source_id completed_at observed_at db = (db, Ok false).
Proof.
  intros [[p R1] [op R2] [t R3] [e R4] (i & o & R5 & R5') [c R6]]. unfold record.
  apply M_bind_Ok. exists db, 0. split; [apply exec_Ok; unfold insert_policy_ignore, insert_new; by rewrite R1|].
  apply M_bind_Ok. exists db, 0. split; [apply exec_Ok; unfold insert_operation_ignore, insert_new; by rewrite R2|].
  apply M_bind_Ok. exists db, 0. split; [apply exec_Ok; unfold insert_task_ignore, insert_new; by rewrite R3|].
  apply M_bind_Ok. exists db, 0. split; [apply exec_Ok; unfold insert_event, insert_new; by rewrite R4|].
  apply M_bind_Ok. exists db, 0. split.
  { apply exec_Ok. unfold insert_outbox. cbn [o_task_key queued_outbox].
    destruct (outbox_with_key _ _) eqn:Hk; [|done].
    by destruct (proj1 (outbox_filter_nil (fun o => o_task_key o = task_key source_id completed_at) _) Hk i o R5). }
  apply M_bind_Ok. exists db, 0.
  split; [apply exec_Ok; unfold insert_completion_ignore, insert_new; by rewrite R6|done].
Qed.

(** The key of the completion starts no other task. *)
Definition own_key (source_id : str) (completed_at : Z) (db : Db) : Prop :=
  sporos_task db !! completion_task_id source_id completed_at = None ->
  forall i o, sporos_outbox db !! i = Some o -> o_task_key o <> task_key source_id completed_at.

Definition queued_task (source_id : str) (completed_at observed_at : Z) : TaskRow :=
  fresh_task (lit "qbittorrent_completion") (instance_id source_id completed_at) policy_id
    (Some (operation_id source_id completed_at)) observed_at.
Definition queued_start (source_id : str) (completed_at observed_at : Z) : OutboxRow :=
  queued_outbox (completion_task_id source_id completed_at) (task_key source_id completed_at)
    ORCHESTRATION_NAME ORCHESTRATION_VERSION (instance_id source_id completed_at)
    (encode_completion (input source_id completed_at observed_at)) observed_at.

Lemma operation_tables id row db db' n :
  insert_operation_ignore id row db = (db', Ok n) ->
  sporos_task db' = sporos_task db /\ sporos_task_event db' = sporos_task_event db /\
  sporos_outbox db' = sporos_outbox db.
Proof. unfold insert_operation_ignore. destruct (insert_new _ _ _); intros [= <- <-]; done. Qed.

Lemma completion_tables se source_id completed_at row db db' n :
  insert_completion_ignore se source_id completed_at row db = (db', Ok n) ->
  sporos_task db' = sporos_task db /\ sporos_task_event db' = sporos_task_event db /\
  sporos_outbox db' = sporos_outbox db.
Proof.
  unfold insert_completion_ignore. destruct (insert_new _ _ _); [destruct (_ && _)|]; intros [= <- <-]; done.
Qed.

(** The store stays well-formed; a task that was not there is queued with its start. *)
Lemma record_store se source_id completed_at observed_at db db' b :
  db_ok db -> own_key source_id completed_at db ->
  record se source_id completed_at observed_at db = (db', Ok b) ->
  db_ok db' /\
  (sporos_task db !! completion_task_id source_id completed_at = None ->
   sporos_task db' !! completion_task_id source_id completed_at
     = Some (queued_task source_id completed_at observed_at) /\
   exists i, sporos_outbox db' !! i = Some (queued_start source_id completed_at observed_at)).
Proof.
  unfold record, own_key. intros Hok Hown (d1 & ? & H1%exec_Ok & Hr)%M_bind_Ok.
  apply M_bind_Ok in Hr as (d2 & ? & H2%exec_Ok & Hr). apply M_bind_Ok in Hr as (d3 & ? & H3%exec_Ok & Hr).
  apply M_bind_Ok in Hr as (d4 & ? & H4%exec_Ok & Hr). apply M_bind_Ok in Hr as (d5 & ? & H5%exec_Ok & Hr).
  apply M_bind_Ok in Hr as (d6 & n & H6%exec_Ok & Hr). injection Hr as <- _.
  apply insert_policy_tables in H1 as (T1 & E1 & O1). apply operation_tables in H2 as (T2 & E2 & O2).
  apply completion_tables in H6 as (T6 & E6 & O6).
  rewrite <- T1, <- T2 in Hown |- *. rewrite <- O1, <- O2 in Hown.
  assert (db_ok d2) as Hok2 by (eapply (db_ok_ext db); congruence).
  assert (forall Q : Prop, db_ok d5 /\ Q -> db_ok d6 /\ Q) as Hlast
    by (intros Q [Hok5 HQ]; split; [by eapply (db_ok_ext d5)|done]).
  rewrite T6, O6. apply Hlast. clear Hlast.
  fold (queued_task source_id completed_at observed_at) in H3.
  fold (queued_start source_id completed_at observed_at) in H5.
  apply insert_task_Ok in H3 as [[[row Hrow] ->]|[Hnone ->]].
  - split; [|congruence].
    assert (d4 = d2) as ->.
    { apply insert_event_Ok in H4 as [(_ & _ & _ & ->)|(_ & _ & Hev & _)]; [done|].
      destruct (ok_tasks _ Hok2 _ _ Hrow) as [Hg Hevs _]. destruct (proj2 (Hevs 0)) as [? ?]; [lia|congruence]. }
    apply insert_outbox_Ok in H5 as [(_ & _ & -> & _)|(_ & -> & Ht & Hfresh)]; [done|].
    eapply (db_ok_insert_outbox d2); [done|apply next_rowid_fresh|done|done].
  - assert (forall k, sporos_task_event d2 !! (completion_task_id source_id completed_at, k) = None) as Hnoev.
    { intros k. destruct (sporos_task_event d2 !! _) eqn:He; [|done].
      destruct (ok_events _ Hok2 (completion_task_id source_id completed_at) k) as [? ?]; [by rewrite He|congruence]. }
    apply insert_event_Ok in H4 as [(_ & _ & He & _)|(_ & _ & _ & _ & ->)].
    { cbn in He. rewrite Hnoev in He. by destruct He. }
    apply insert_outbox_Ok in H5 as [(_ & _ & _ & i & o & Ho & Hk)|(_ & -> & _ & Hfresh)].
    { by destruct (Hown Hnone i o Ho). }
    cbn [sporos_outbox set_events set_tasks] in *. split.
    + eapply (db_ok_ext (set_outbox (fun t => <[next_rowid (sporos_outbox d2)
          := queued_start source_id completed_at observed_at]> t)
        (set_events (fun t => <[(completion_task_id source_id completed_at, 0)
          := mkEventRow (lit "queued") None None observed_at]> t)
          (set_tasks (fun t => <[completion_task_id source_id completed_at
             := queued_task source_id completed_at observed_at]> t) d2)))); [done..|].
      apply db_ok_new_task; try done. apply next_rowid_fresh.
    + intros _. cbn. rewrite lookup_insert_eq. split; [done|]. eexists. by rewrite lookup_insert_eq.
Qed.

Lemma completion_accept_Ok source_id completed_at observed_at db db' a :
  accept source_id completed_at observed_at db = (db', Ok a) ->
  exists t, db' = with_tasks t db /\ keeps (tasks db) t /\ recorded source_id completed_at t /\
    record (bool_decide (is_Some (sporos_qbit_torrent db !! source_id))) source_id completed_at
      observed_at (tasks db) = (t, Ok (negb (acm_duplicate a))) /\
    a = mkAcceptedCompletion (operation_id source_id completed_at)
          (completion_task_id source_id completed_at)
          (bool_decide (is_Some (sporos_qbit_completion (tasks db) !! (source_id, completed_at)))) /\
    (forall key, key <> (source_id, completed_at) ->
       sporos_qbit_completion t !! key = sporos_qbit_completion (tasks db) !! key).
Proof.
  unfold accept. destruct (record _ _ _ _ _) as [t r] eqn:Hr. intros [= <- Ha].
  apply bind_Ok in Ha as (b & -> & [= <-]). destruct (record_Ok _ _ _ _ _ _ _ Hr) as (K & R & Hb & Hkeys).
  exists t. split; [done|]. split; [done|]. split; [done|]. cbn. rewrite negb_involutive.
  split; [done|]. split; [|done]. f_equal. rewrite Hb.
  destruct (sporos_qbit_completion (tasks db) !! (source_id, completed_at)); done.
Qed.

Lemma accept_again source_id completed_at observed_at db :
  recorded source_id completed_at (tasks db) ->
  accept source_id completed_at observed_at db
  = (db, Ok (mkAcceptedCompletion (operation_id source_id completed_at)
               (completion_task_id source_id completed_at) true)).
Proof. intros R. unfold accept. rewrite record_again by done. cbn. by rewrite with_tasks_id. Qed.

(** [project_completion] keeps the store well-formed, whatever it is asked to finish. *)
Lemma project_completion_ok i db : db_ok db -> db_ok (project_completion i db).1.
Proof.
  intros Hok. unfold project_completion.
  destruct (transaction _ db) as [db' [u|e]] eqn:Ht; cbn.
  2: { by apply transaction_Err in Ht as [-> _]. }
  apply transaction_Ok, M_bind_Ok in Ht as (d1 & n1 & H1%exec_Ok & Ht).
  apply M_bind_Ok in Ht as (d2 & n2 & H2%exec_Ok & Ht). apply M_bind_Ok in Ht as (d3 & n3 & H3%exec_Ok & Ht).
  injection Ht as <- _.
  eapply (db_ok_ext d2); unfold update_operation in H3; destruct (update_where _ _ _ _);
    injection H3 as <- _; try done.
  unfold update_task in H1. destruct (update_where _ _ _ _) as [t n] eqn:Hu. injection H1 as <- _.
  apply update_where_spec in Hu as [(_ & -> & Hc)|(_ & row & Hrow & Hg & ->)].
  - assert (db_ok (set_tasks (fun _ => sporos_task db) db)) as Hok1 by by eapply (db_ok_ext db).
    apply insert_event_Ok in H2 as [(_ & _ & _ & ->)|(_ & _ & Hev & [row Hrow] & _)]; [done|].
    cbn in Hrow, Hev. destruct (ok_tasks _ Hok _ _ Hrow) as [Hgen Hevs _].
    specialize (Hc row Hrow). apply Z.eqb_neq in Hc.
    destruct (proj2 (Hevs 1)) as [? ?]; [lia|congruence].
  - apply Z.eqb_eq in Hg. destruct (ok_tasks _ Hok _ _ Hrow) as [Hgen Hevs Hout].
    apply insert_event_Ok in H2 as [(_ & _ & Hev & _)|(_ & _ & _ & _ & ->)].
    + cbn in Hev. apply Hevs in Hev. lia.
    + exact (db_ok_advance db (ci_task_id i) row (completed_task (ci_observed_at i) row) _ Hok Hrow
               ltac:(cbn; lia) ltac:(cbn; unfold i64_max; lia) Hout).
Qed.

(** The activity on a task that still is as it was queued, and again afterwards. *)
Lemma project_completion_runs i db row op :
  db_ok db -> sporos_task db !! ci_task_id i = Some row -> projection_generation row = 0 ->
  sporos_operation db !! ci_operation_id i = Some op ->
  exists db', project_completion i db = (db', Ok tt) /\
    sporos_task db' !! ci_task_id i = Some (completed_task (ci_observed_at i) row) /\
    sporos_operation db' !! ci_operation_id i = Some (completed_operation (ci_observed_at i) op) /\
    project_completion i db' = (db', Ok tt).
Proof.
  intros Hok Hrow Hg Hop. destruct (ok_tasks _ Hok _ _ Hrow) as [_ Hevs _].
  assert (sporos_task_event db !! (ci_task_id i, 1) = None) as Hev.
  { destruct (sporos_task_event db !! (ci_task_id i, 1)) eqn:E; [|done].
    assert (is_Some (sporos_task_event db !! (ci_task_id i, 1))) as Hs by (by rewrite E).
    apply Hevs in Hs. lia. }
  eexists. split; [|split; [|split]].
  - unfold project_completion. apply transaction_Ok, M_bind_Ok. eexists _, _. split.
    { apply exec_Ok. unfold update_task, update_where. rewrite Hrow, Hg. reflexivity. }
    apply M_bind_Ok. eexists _, _. split.
    { apply exec_Ok. unfold insert_event, insert_new. cbn. rewrite Hev, lookup_insert_eq. reflexivity. }
    apply M_bind_Ok. eexists _, _. split; [|reflexivity].
    apply exec_Ok. unfold update_operation, update_where. cbn. rewrite Hop. reflexivity.
  - cbn. by rewrite lookup_insert_eq.
  - cbn. by rewrite lookup_insert_eq.
  - unfold project_completion. apply transaction_Ok, M_bind_Ok. eexists _, _. split.
    { apply exec_Ok. unfold update_task, update_where. cbn. rewrite lookup_insert_eq. reflexivity. }
    apply M_bind_Ok. eexists _, _. split.
    { apply exec_Ok. unfold insert_event, insert_new. cbn. rewrite lookup_insert_eq. reflexivity. }
    apply M_bind_Ok. eexists _, _. split.
    { apply exec_Ok. unfold update_operation, update_where. cbn. rewrite lookup_insert_eq. reflexivity. }
    cbn. f_equal. destruct db; cbn. f_equal. by rewrite insert_insert_eq.
Qed.

(** A completed download is worked on once.  When a completion is accepted whose
    task is not there yet, its task is queued with a start whose input is read back as
    the completion; accepting it again, at any time, changes nothing and reports a
    duplicate.  The activity run on that input finishes the task and the operation, a
    second run changes nothing, and the store stays well-formed throughout. *)
Theorem completion_runs_once `{!CompletionCodecLaws} source_id completed_at observed_at later db db1 a :
  db_ok (tasks db) -> own_key source_id completed_at (tasks db) ->
  sporos_task (tasks db) !! completion_task_id source_id completed_at = None ->
  accept source_id completed_at observed_at db = (db1, Ok a) ->
  db_ok (tasks db1) /\
  accept source_id completed_at later db1
    = (db1, Ok (mkAcceptedCompletion (acm_operation_id a) (acm_task_id a) true)) /\
  exists i start work row,
    sporos_outbox (tasks db1) !! i = Some start /\ o_task_id start = acm_task_id a /\
    sporos_task (tasks db1) !! acm_task_id a = Some row /\ t_state row = lit "queued" /\
    o_instance_id start = duroxide_instance_id row /\
    decode_completion (o_input_json start) = Some work /\
    ci_source_id work = source_id /\ ci_completed_at work = completed_at /\
    exists t2, project_completion work (tasks db1) = (t2, Ok tt) /\
      sporos_task t2 !! acm_task_id a = Some (completed_task observed_at row) /\
      (exists op, sporos_operation t2 !! acm_operation_id a = Some op /\ op_state op = lit "completed") /\
      db_ok t2 /\ project_completion work t2 = (t2, Ok tt).
Proof.
  intros Hok Hown Hnone Ha. apply completion_accept_Ok in Ha as (t & -> & K & R & Hrec & -> & _).
  destruct (record_store _ _ _ _ _ _ _ Hok Hown Hrec) as [Hok' Hnew].
  destruct (Hnew Hnone) as [Hrow [i Hi]].
  cbn [tasks with_tasks acm_operation_id acm_task_id]. split; [done|]. split; [by apply accept_again|].
  destruct R as [_ [op Hop] _ _ _ _].
  destruct (project_completion_runs (input source_id completed_at observed_at) t _ op Hok' Hrow eq_refl Hop)
    as (t2 & Hp & Ht2 & Ho2 & Hp2).
  exists i, (queued_start source_id completed_at observed_at), (input source_id completed_at observed_at),
    (queued_task source_id completed_at observed_at).
  do 5 (split; [done|]). split; [apply completion_roundtrip|]. do 2 (split; [done|]).
  exists t2. split; [done|]. split; [done|]. split; [by eexists|].
  split; [|done]. pose proof (project_completion_ok (input source_id completed_at observed_at) t Hok') as Hf.
  by rewrite Hp in Hf.
Qed.
End Proofs.

(** ** A concrete codec, and an example *)

#[export] Instance serial_completion : Serial CompletionInput.
Proof.
  refine (serial_via
    (fun i => (ci_operation_id i, ci_task_id i, ci_source_id i, ci_completed_at i, ci_observed_at i))
    (fun '(a, b, c, d, e) => mkCompletionInput a b c d e) _). by intros [].
Defined.

#[export] Instance sample_completion_codec : CompletionCodec := {|
  encode_completion := put; decode_completion s := fst <$> get s;
  encode_completed source_id completed_at := put (source_id, completed_at) |}.

#[export] Instance sample_completion_codec_laws : CompletionCodecLaws.
Proof.
  split; intros x. cbn [encode_completion decode_completion sample_completion_codec].
  by rewrite <- (app_nil_r (put x)), get_put.
Qed.

Module Sample.

(** A digest of 32 bytes whose first half depends on the whole input. *)
#[local] Instance digest : Digest := {|
  sha256 s := let n := foldl (fun h b => (h * 31 + b + 1) mod 2^61) 7 s in be_bytes 16 n ++ be_bytes 16 (n + 1) |}.

Definition torrent : QbitRow :=
  mkQbitRow (Some (lit "aa")) (Some (replicate 20 1)) None (lit "film") 4 0 1000000 (lit "uploading")
    (lit "/data") (lit "/data/film") [] [] true true 0 (lit "unloaded") None None None None None 1 10.

Definition db : Library :=
  mkLibrary empty_db ∅ ∅ ∅ ∅ {[ lit "source" := torrent ]}
    (mkInventoryRow None 0 None None None None None None) ∅ ∅ ∅ ∅ ∅ ∅ ∅ ∅.

Definition accepted : Library * result CompletionError AcceptedCompletion :=
  accept (lit "source") 12 20 db.

Lemma completion_runs_once_witness :
  exists a, accept (lit "source") 12 20 db = (accepted.1, Ok a) /\ acm_duplicate a = false /\
    db_ok (tasks accepted.1).
Proof.
  assert (accept (lit "source") 12 20 db
    = (accepted.1, Ok (mkAcceptedCompletion (operation_id (lit "source") 12)
                         (completion_task_id (lit "source") 12) false))) as Ha
    by (rewrite (surjective_pairing (accept _ _ _ db)); apply (f_equal2 pair eq_refl); vm_compute; reflexivity).
  eexists. split; [exact Ha|]. split; [reflexivity|].
  refine (proj1 (completion_runs_once (lit "source") 12 20 30 db accepted.1 _ _ _ _ Ha)).
  - exact db_ok_empty.
  - intros _ i o Ho. discriminate Ho.
  - reflexivity.
Defined.

End Sample.
