(* ===== verification/QbitInventory.v ===== *)
(** What qBittorrent answers (inventory.rs): the torrents, changes and files of an
    inventory, their checks, and the visitors that stream them to a closure.

    The JSON reader is serde_json's, which is not under src/: a visitor is given the
    elements that the reader yields and how it ended.  A closure is a computation that
    may fail.  Piece states are in Pieces.v. *)

From S2P Require Import Prelude Text Float.
From S2P Require Pieces.
From stdpp Require Import strings.
Local Open Scope Z_scope.

Definition MAX_HASH_BYTES : Z := 64.
Definition MAX_NAME_BYTES : Z := 4096.
Definition MAX_PATH_BYTES : Z := 16384.
Definition MAX_LABEL_BYTES : Z := 4096.
Definition MAX_STATE_BYTES : Z := 64.

(** ** Data *)

Record InventoryTorrent := mkInventoryTorrent {
  it_hash : str; it_infohash_v1 : str; it_infohash_v2 : str; it_name : str; it_total_size : Z;
  it_amount_left : Z; it_progress : spec_float; it_state : str; it_save_path : str;
  it_content_path : str; it_category : str; it_tags : str; it_added_on : Z; it_completion_on : Z }.

#[export] Instance InventoryTorrent_eq_dec : EqDecision InventoryTorrent.
Proof. solve_decision. Defined.

Record InventoryDelta := mkInventoryDelta {
  d_infohash_v1 : option str; d_infohash_v2 : option str; d_name : option str;
  d_total_size : option Z; d_amount_left : option Z; d_progress : option spec_float;
  d_state : option str; d_save_path : option str; d_content_path : option str;
  d_category : option str; d_tags : option str; d_added_on : option Z; d_completion_on : option Z }.

Inductive InventoryChange :=
| Upsert (qbit_id : str) (delta : InventoryDelta)
| Removed (qbit_id : str).

Record MainData := mkMainData {
  response_id : Z; full_update : bool; changed : Z; removed : Z }.

Record InventoryFile := mkInventoryFile {
  fl_index : Z; fl_name : str; fl_size : Z; fl_progress : spec_float }.

(** ** Checks *)

Definition all_hex (value : str) : bool := forallb is_ascii_hexdigit value.

Definition validate_id (value : str) : result str () :=
  if bool_decide (value = []) || (MAX_HASH_BYTES <? Z.of_nat (length value)) || negb (all_hex value)
  then Err (lit "invalid qBittorrent torrent ID") else Ok tt.

Definition validate_hash (value : str) (bytes : Z) : result str () :=
  if negb (bool_decide (value = []))
     && (negb (Z.of_nat (length value) =? bytes) || negb (all_hex value))
  then Err (lit "invalid infohash") else Ok tt.

Definition invalid_progress (value : spec_float) : bool :=
  negb (is_finite value) || negb (unit_contains value).

(** The loop over the lengths of the texts. *)
Definition within (field : str * Z * str) : result str () :=
  let '(value, limit, name) := field in bail_if (limit <? Z.of_nat (length value)) name.

Definition texts (name state save_path content_path category tags : str) : list (str * Z * str) :=
  [(name, MAX_NAME_BYTES, lit "name"); (state, MAX_STATE_BYTES, lit "state");
   (save_path, MAX_PATH_BYTES, lit "save path"); (content_path, MAX_PATH_BYTES, lit "content path");
   (category, MAX_LABEL_BYTES, lit "category"); (tags, MAX_LABEL_BYTES, lit "tags")].

Definition validate (torrent : InventoryTorrent) : result str () :=
  _ ← validate_id (it_hash torrent);
  _ ← validate_hash (it_infohash_v1 torrent) 40;
  _ ← validate_hash (it_infohash_v2 torrent) 64;
  if invalid_progress (it_progress torrent) then Err (lit "invalid progress") else
  _ ← collect within (texts (it_name torrent) (it_state torrent) (it_save_path torrent)
                        (it_content_path torrent) (it_category torrent) (it_tags torrent));
  Ok tt.

(** A text that a delta does not have is within every limit. *)
Definition validate_delta (delta : InventoryDelta) : result str () :=
  _ ← match d_infohash_v1 delta with Some value => validate_hash value 40 | None => Ok tt end;
  _ ← match d_infohash_v2 delta with Some value => validate_hash value 64 | None => Ok tt end;
  if match d_progress delta with Some value => invalid_progress value | None => false end
  then Err (lit "invalid progress") else
  let text := default [] in
  _ ← collect within (texts (text (d_name delta)) (text (d_state delta)) (text (d_save_path delta))
                        (text (d_content_path delta)) (text (d_category delta)) (text (d_tags delta)));
  Ok tt.

(** ** Streams *)

(** The elements that a reader yields before its end, and how it ended. *)
Record Stream (A : Type) := mkStream {
  items : list A; ending : result Pieces.InventoryParseError () }.
Arguments mkStream {A}.
Arguments items {A}.
Arguments ending {A}.

(** The fields of a main-data object. *)
Inductive MainEntry :=
| Rid (value : Z)
| FullUpdate (value : bool)
| Torrents (torrents : Stream (str * InventoryDelta))
| TorrentsRemoved (ids : Stream str)
| OtherField.

(** [mr_tail]: what follows the object. *)
Record MainReader := mkMainReader {
  mr_entries : Stream MainEntry; mr_tail : result Pieces.InventoryParseError () }.

(** ** Visitors *)

Section Visitors.
Context {S : Type}.
Abbreviation Parse A := (M S Pieces.InventoryParseError A).

(** [map_err(Error::custom)] *)
Definition custom {E A} (r : result E A) : Parse A := liftr (map_err (fun _ => Pieces.Json) r).
Definition call {A} (m : M S str A) : Parse A := fun s => let '(s, r) := m s in (s, map_err (fun _ => Pieces.Json) r).

Definition count_item (count : Z) : Parse Z := custom (ok_or (checked_add_u64 count 1) tt).

(** [visit_seq]: check an element, hand it over, count it. *)
Fixpoint visit {A} (step : A -> Parse ()) (sequence : list A) (count : Z) : Parse Z :=
  match sequence with
  | [] => mret count
  | a :: sequence =>
      _ ← step a;
      count ← count_item count;
      visit step sequence count
  end.

Definition torrent_step (emit : InventoryTorrent -> M S str ()) (torrent : InventoryTorrent) : Parse () :=
  _ ← custom (validate torrent);
  call (emit torrent).

Definition parse_inventory (emit : InventoryTorrent -> M S str ()) (reader : Stream InventoryTorrent)
  : Parse Z :=
  count ← visit (torrent_step emit) (items reader) 0;
  _ ← liftr (ending reader);
  mret count.

Definition delta_step (emit : InventoryChange -> M S str ()) (entry : str * InventoryDelta) : Parse () :=
  _ ← custom (validate_id entry.1);
  _ ← custom (validate_delta entry.2);
  call (emit (Upsert entry.1 entry.2)).

Definition removed_step (emit : InventoryChange -> M S str ()) (qbit_id : str) : Parse () :=
  _ ← custom (validate_id qbit_id);
  call (emit (Removed qbit_id)).

(** [FileVisitor::visit_seq] *)
Fixpoint visit_files (limit : Z) (emit : InventoryFile -> M S str ()) (sequence : list InventoryFile)
    (count : Z) : Parse Z :=
  match sequence with
  | [] => mret count
  | file :: sequence =>
      if count =? limit then throw Pieces.Json else
      if (MAX_PATH_BYTES <? Z.of_nat (length (fl_name file))) || invalid_progress (fl_progress file)
      then throw Pieces.Json else
      _ ← call (emit file);
      visit_files limit emit sequence (count + 1)
  end.

Definition parse_files (limit : Z) (emit : InventoryFile -> M S str ()) (reader : Stream InventoryFile)
  : Parse Z :=
  count ← visit_files limit emit (items reader) 0;
  _ ← liftr (ending reader);
  mret count.

(** The variables of [MainDataVisitor::visit_map]. *)
Record MainState := mkMainState {
  ms_response_id : option Z; ms_full_update : bool; ms_emitted : bool; ms_changed : Z; ms_removed : Z }.

Context (emit_header : MainData -> M S str ()) (emit : InventoryChange -> M S str ()).

Definition emit_main_data_header (st : MainState) : Parse MainState :=
  if ms_emitted st then mret st else
  rid ← liftr (ok_or (ms_response_id st) Pieces.Json);
  _ ← call (emit_header (mkMainData rid (ms_full_update st) 0 0));
  mret (mkMainState (ms_response_id st) (ms_full_update st) true (ms_changed st) (ms_removed st)).

Definition main_step (st : MainState) (entry : MainEntry) : Parse MainState :=
  match entry with
  | Rid value =>
      if ms_emitted st && bool_decide (ms_response_id st <> Some value) then throw Pieces.Json else
      mret (mkMainState (Some value) (ms_full_update st) (ms_emitted st) (ms_changed st) (ms_removed st))
  | FullUpdate value =>
      if ms_emitted st && negb (eqb (ms_full_update st) value) then throw Pieces.Json else
      mret (mkMainState (ms_response_id st) value (ms_emitted st) (ms_changed st) (ms_removed st))
  | Torrents torrents =>
      st ← emit_main_data_header st;
      changed ← visit (delta_step emit) (items torrents) 0;
      _ ← liftr (ending torrents);
      mret (mkMainState (ms_response_id st) (ms_full_update st) (ms_emitted st) changed (ms_removed st))
  | TorrentsRemoved ids =>
      st ← emit_main_data_header st;
      removed ← visit (removed_step emit) (items ids) 0;
      _ ← liftr (ending ids);
      mret (mkMainState (ms_response_id st) (ms_full_update st) (ms_emitted st) (ms_changed st) removed)
  | OtherField => mret st
  end.

Fixpoint visit_main (entries : list MainEntry) (st : MainState) : Parse MainState :=
  match entries with
  | [] => mret st
  | entry :: entries => st ← main_step st entry; visit_main entries st
  end.

Definition parse_main_data_with_header (reader : MainReader) : Parse MainData :=
  st ← visit_main (items (mr_entries reader)) (mkMainState None false false 0 0);
  _ ← liftr (ending (mr_entries reader));
  st ← emit_main_data_header st;
  rid ← liftr (ok_or (ms_response_id st) Pieces.Json);
  _ ← liftr (mr_tail reader);
  mret (mkMainData rid (ms_full_update st) (ms_changed st) (ms_removed st)).
End Visitors.

(** ** The byte limit *)

(** A reader that has [lr_inner] left, delivered in chunks of its own. *)
Record LimitedReader := mkLimitedReader { lr_inner : list str; lr_remaining : Z }.

(** The inner [read] into a buffer of [size] bytes: nothing only at the end. *)
Definition inner_read (size : nat) (chunks : list str) : str * list str :=
  match chunks with
  | [] => ([], [])
  | chunk :: rest =>
      (take size chunk, if bool_decide (drop size chunk = []) then rest else drop size chunk :: rest)
  end.

Definition read (size : nat) (r : LimitedReader) : result Pieces.InventoryParseError (str * LimitedReader) :=
  if bool_decide (size = 0%nat) then Ok ([], r) else
  if lr_remaining r =? 0 then
    match (inner_read 1 (lr_inner r)).1 with
    | [] => Ok ([], r)
    | _ => Err Pieces.LimitExceeded
    end
  else
    let allowed := Z.to_nat (Z.min (lr_remaining r) (Z.of_nat size)) in
    let '(bytes, rest) := inner_read allowed (lr_inner r) in
    Ok (bytes, mkLimitedReader rest (lr_remaining r - Z.of_nat (length bytes))).
