(* ===== verification/QbitProjection.v ===== *)
(** The projection of qBittorrent's inventory (qbit_projection.rs): how a change reported
    by qBittorrent becomes a row of the library, with its facts and, when a download has
    just completed, its completion; how a synchronisation ends; and how the files of a
    torrent are loaded next to the ones in use and then published. *)

From S2P Require Import Prelude Text Float Model Store Duroxide Library QbitInventory.
From S2P Require Release Facts Completion.
From stdpp Require Import strings.
Local Open Scope Z_scope.

(** ** Data *)

Record InventoryState := mkInventoryState {
  is_response_id : option Z; is_generation : Z; has_baseline : bool; is_last_success_at : option Z;
  is_last_full_reconcile_at : option Z; is_reconcile_requested_at : option Z }.

Record CompletionTransition := mkCompletionTransition {
  ct_source_id : str; ct_completed_at : Z; ct_operation_id : str; ct_task_id : str }.

Record ProjectionBatch := mkProjectionBatch {
  pb_changed : Z; pb_completions : list CompletionTransition; pb_manifests_needed : list str }.

Record ManifestTarget := mkManifestTarget { tg_source_id : str; tg_qbit_id : str; tg_version : Z }.

(** Encoding tags and releases does not fail. *)
Inductive ProjectionError :=
| QpDatabase (e : SqlError)
| MissingField (field : string)
| QpRange (field : string)
| QpStoredRange (field : string)
| InvalidHash (field : string)
| QpInvalidProgress
| MissingSource
| QpCompletion (e : Completion.CompletionError).

Abbreviation Act A := (M Library ProjectionError A).

(** ** Small functions *)

Definition to_i64 (value : Z) (field : string) : result ProjectionError Z :=
  ok_or (i64_try_from value) (QpRange field).
Definition required_u64 (value : Z) (field : string) : result ProjectionError Z :=
  ok_or (u64_try_from value) (QpStoredRange field).
Definition optional_u64 (value : option Z) (field : string) : result ProjectionError (option Z) :=
  match value with
  | None => Ok None
  | Some value => Some <$> required_u64 value field
  end.

Definition hex_digit (value : Z) : option Z :=
  if (48 <=? value) && (value <=? 57) then Some (value - 48) else
  if (97 <=? value) && (value <=? 102) then Some (value - 97 + 10) else
  if (65 <=? value) && (value <=? 70) then Some (value - 65 + 10) else None.

Fixpoint hex_pairs (value : str) : option str :=
  match value with
  | a :: b :: rest =>
      high ← hex_digit a; low ← hex_digit b; bytes ← hex_pairs rest;
      Some (Z.lor (Z.shiftl high 4) low :: bytes)
  | _ => Some []
  end.

Definition decode_hex (value : str) (bytes : nat) (field : string) : result ProjectionError str :=
  if negb (length value =? bytes * 2)%nat then Err (InvalidHash field) else
  ok_or (hex_pairs value) (InvalidHash field).

Definition optional_hash (value : option str) (bytes : nat) (field : string)
  : result ProjectionError (option str) :=
  match value with
  | Some ((_ :: _) as value) => Some <$> decode_hex value bytes field
  | _ => Ok None
  end.

Definition or_else {A} (a b : option A) : option A := match a with Some _ => a | None => b end.

(** The value of the change, or that of the row. *)
Definition text (value existing : option str) (field : string) : result ProjectionError str :=
  ok_or (or_else value existing) (MissingField field).

Definition integer (value existing : option Z) (field : string) : result ProjectionError Z :=
  match value with
  | Some value => to_i64 value field
  | None => ok_or existing (MissingField field)
  end.

Definition positive_time (value : option Z) : option Z :=
  match value with Some value => if 0 <? value then Some value else None | None => None end.

Definition timestamp (value existing : option Z) : option Z := or_else (positive_time value) existing.

Definition progress_ppm (value : spec_float) : result ProjectionError Z :=
  if negb (is_finite value) || negb (unit_contains value) then Err QpInvalidProgress
  else Ok (millionths value).

(** [tags_json]: the tags that the column holds. *)
Definition tags_of (value : str) : list str :=
  filter (fun tag => tag <> []) (map trim (split_on 44 value)).

Definition complete (amount_left progress_ppm : Z) (state : str) : bool :=
  (amount_left =? 0) && (progress_ppm =? 1000000)
  && str_mem state [lit "uploading"; lit "stoppedUP"; lit "queuedUP"; lit "stalledUP";
                    lit "checkingUP"; lit "forcedUP"].

Definition video_kind (kind : VideoKind) : str :=
  match kind with
  | Movie => lit "movie" | Episode => lit "episode" | SeasonPack => lit "season_pack"
  | DateEpisode => lit "date_episode" | AbsoluteEpisode => lit "absolute_episode"
  | Disc => lit "disc" | UnknownVideo => lit "unknown_video"
  end.

(** [format!("{n:0width}")] for a natural [n] *)
Definition padded (width : nat) (n : Z) : str :=
  replicate (width - length (decimal n)) 48 ++ decimal n.

Definition air_date_text (date : Date) : str :=
  padded 4 (date_year date) ++ lit "-" ++ padded 2 (date_month date) ++ lit "-" ++ padded 2 (date_day date).

(** ** The state of the inventory *)

Definition with_state (f : InventoryRow -> InventoryRow) (db : Library) : Library :=
  let n := inventory db in
  with_inventory (mkInventory (n_torrent n) (f (n_state n)) (n_data n) (n_file n) (n_title n) (n_external n)) db.

Definition qbit_inventory_state (db : Library) : result ProjectionError InventoryState :=
  let row := sporos_qbit_inventory_state db in
  response_id ← optional_u64 (iv_response_id row) "response_id";
  generation ← required_u64 (iv_generation row) "generation";
  Ok {| is_response_id := response_id; is_generation := generation;
        has_baseline := bool_decide (is_Some (iv_baseline_at row));
        is_last_success_at := iv_last_success_at row;
        is_last_full_reconcile_at := iv_last_full_reconcile_at row;
        is_reconcile_requested_at := iv_reconcile_requested_at row |}.

Definition record_qbit_versions (application web_api : str) : Act () := fun db =>
  (with_state (fun s =>
     mkInventoryRow (iv_response_id s) (iv_generation s) (iv_baseline_at s) (iv_last_success_at s)
       (iv_last_full_reconcile_at s) (iv_reconcile_requested_at s) (Some application) (Some web_api)) db, Ok ()).

Definition request_qbit_reconcile (now : Z) : Act bool := fun db =>
  match iv_reconcile_requested_at (sporos_qbit_inventory_state db) with
  | Some _ => (db, Ok false)
  | None =>
      (with_state (fun s =>
         mkInventoryRow (iv_response_id s) (iv_generation s) (iv_baseline_at s) (iv_last_success_at s)
           (iv_last_full_reconcile_at s) (Some now) (iv_application_version s) (iv_web_api_version s)) db,
       Ok true)
  end.

(** [UPDATE sporos_qbit_torrent SET ... WHERE cond] *)
Definition update_torrents (cond : QbitRow -> bool) (f : QbitRow -> QbitRow) (db : Library) : Library :=
  with_torrents ((fun row => if cond row then f row else row) <$> sporos_qbit_torrent db) db.

(** [SET available = 0, updated_at = ?] *)
Definition absent (now : Z) (row : QbitRow) : QbitRow :=
  mkQbitRow (qt_qbit_id row) (qt_v1_hash row) (qt_v2_hash row) (qt_name row) (qt_total_size row)
    (qt_amount_left row) (qt_progress_ppm row) (qt_state row) (qt_save_path row)
    (qt_content_path row) (qt_category row) (qt_tags row) (qt_is_complete row) false
    (qt_manifest_version row) (qt_manifest_state row) (qt_fingerprint row) (qt_added_at row)
    (qt_completed_at row) (qt_release_json row) (qt_release row) (qt_generation row) now.

(** The torrents that a complete inventory of a generation did not show. *)
Definition unseen (generation : Z) (row : QbitRow) : bool :=
  qt_available row && negb (qt_generation row =? generation).

Definition finish_qbit_sync (response_id : Z) (full_generation : option Z) (now : Z) : Act () := fun db =>
  match to_i64 response_id "response ID" with
  | Err e => (db, Err e)
  | Ok response_id =>
      match full_generation with
      | Some generation =>
          match to_i64 generation "generation" with
          | Err e => (db, Err e)
          | Ok generation =>
              (with_state (fun s =>
                 mkInventoryRow (Some response_id) generation (or_else (iv_baseline_at s) (Some now))
                   (Some now) (Some now) (iv_reconcile_requested_at s) (iv_application_version s)
                   (iv_web_api_version s))
                 (update_torrents (unseen generation) (absent now) db), Ok ())
          end
      | None =>
          (with_state (fun s =>
             mkInventoryRow (Some response_id) (iv_generation s) (iv_baseline_at s) (Some now)
               (iv_last_full_reconcile_at s) (iv_reconcile_requested_at s) (iv_application_version s)
               (iv_web_api_version s)) db, Ok ())
      end
  end.

Definition finish_qbit_reconcile (generation now : Z) : Act () := fun db =>
  match to_i64 generation "generation" with
  | Err e => (db, Err e)
  | Ok generation =>
      (with_state (fun s =>
         mkInventoryRow (iv_response_id s) generation (or_else (iv_baseline_at s) (Some now))
           (Some now) (Some now) None (iv_application_version s) (iv_web_api_version s))
         (update_torrents (unseen generation) (absent now) db), Ok ())
  end.

(** ** Projecting a change *)

Section Project.
Context `{Unicode} `{Digest} `{CandidateCodec} `{Completion.CompletionCodec}.

Definition source_id (qbit_id : str) : str := first_16 (sha256 (lit "qbit:" ++ qbit_id)).

Definition fingerprint (v1 v2 : option str) (name : str) (total_size : Z) (save_path content_path : str)
  : str :=
  sha256 (concat (map (fun value => be_bytes 8 (Z.of_nat (length value)) ++ value)
    [default [] v1; default [] v2; name; be_bytes 8 total_size; save_path; content_path])).

(** The row of [qbit_id]. *)
Definition by_qbit_id (qbit_id : str) (t : gmap str QbitRow) : option (str * QbitRow) :=
  head (filter (fun p : str * QbitRow => qt_qbit_id p.2 = Some qbit_id) (map_to_list t)).

Definition release_columns (release : ReleaseDescriptor) : ReleaseColumns :=
  mkReleaseColumns (rd_primary_title release) (video_kind (rd_kind release)) (rd_year release)
    (rd_season release) (rd_episode release) (rd_episode_end release) (rd_absolute_episode release)
    (air_date_text <$> rd_air_date release).

(** The row that a change makes of the row that was there, whether the torrent became
    complete, and whether its files have to be loaded. *)
Definition merge_row (existing : option QbitRow) (qbit_id : str) (delta : InventoryDelta)
    (generation : Z) (detect_completions : bool) (now : Z) : result ProjectionError (QbitRow * bool * bool) :=
  v1 ← optional_hash (d_infohash_v1 delta) 20 "infohash_v1";
  let v1 := or_else v1 (existing ≫= qt_v1_hash) in
  v2 ← optional_hash (d_infohash_v2 delta) 32 "infohash_v2";
  let v2 := or_else v2 (existing ≫= qt_v2_hash) in
  _ ← bail_if (bool_decide (v1 = None) && bool_decide (v2 = None)) (MissingField "infohash");
  name ← text (d_name delta) (qt_name <$> existing) "name";
  let release := Release.parse_release name in
  total_size ← integer (d_total_size delta) (qt_total_size <$> existing) "total_size";
  amount_left ← integer (d_amount_left delta) (qt_amount_left <$> existing) "amount_left";
  progress ← match d_progress delta with
             | Some value => Some <$> progress_ppm value
             | None => Ok None
             end;
  progress_ppm ← ok_or (or_else progress (qt_progress_ppm <$> existing)) (MissingField "progress");
  state ← text (d_state delta) (qt_state <$> existing) "state";
  save_path ← text (d_save_path delta) (qt_save_path <$> existing) "save_path";
  content_path ← text (d_content_path delta) (qt_content_path <$> existing) "content_path";
  category ← text (d_category delta) (qt_category <$> existing) "category";
  tags ← ok_or (or_else (tags_of <$> d_tags delta) (qt_tags <$> existing)) (MissingField "tags");
  let added_at := timestamp (d_added_on delta) (existing ≫= qt_added_at) in
  let observed_completion := positive_time (d_completion_on delta) in
  let was_complete := default false (qt_is_complete <$> existing) in
  let is_complete := complete amount_left progress_ppm state in
  let completed_at :=
    if is_complete then or_else (or_else observed_completion (existing ≫= qt_completed_at)) (Some now)
    else existing ≫= qt_completed_at in
  let print := fingerprint v1 v2 name total_size save_path content_path in
  let fingerprint_changed :=
    match existing with Some row => bool_decide (qt_fingerprint row <> Some print) | None => false end in
  let manifest_version := default 0 (qt_manifest_version <$> existing) in
  let prior_manifest_state := default (lit "unloaded") (qt_manifest_state <$> existing) in
  let became_complete :=
    detect_completions && bool_decide (is_Some existing) && negb was_complete && is_complete in
  let manifest_needed := became_complete || (fingerprint_changed && (0 <? manifest_version)) in
  let manifest_state := if manifest_needed then lit "stale" else prior_manifest_state in
  Ok ({| qt_qbit_id := Some qbit_id; qt_v1_hash := v1; qt_v2_hash := v2; qt_name := name;
         qt_total_size := total_size; qt_amount_left := amount_left; qt_progress_ppm := progress_ppm;
         qt_state := state; qt_save_path := save_path; qt_content_path := content_path;
         qt_category := category; qt_tags := tags; qt_is_complete := is_complete;
         qt_available := true; qt_manifest_version := manifest_version;
         qt_manifest_state := manifest_state; qt_fingerprint := Some print; qt_added_at := added_at;
         qt_completed_at := completed_at; qt_release_json := Some (encode_release release);
         qt_release := Some (release_columns release); qt_generation := generation;
         qt_updated_at := now |}, became_complete, manifest_needed).

(** The [CHECK]s of the table, and the unique info hashes among the [others]. *)
Definition torrent_valid (others : gmap str QbitRow) (row : QbitRow) : bool :=
  let fits (n : nat) (h : option str) := match h with Some h => (length h =? n)%nat | None => true end in
  fits 20%nat (qt_v1_hash row) && fits 32%nat (qt_v2_hash row)
  && negb (bool_decide (qt_v1_hash row = None) && bool_decide (qt_v2_hash row = None))
  && (0 <=? qt_total_size row) && (0 <=? qt_amount_left row)
  && (0 <=? qt_progress_ppm row) && (qt_progress_ppm row <=? 1000000)
  && (0 <=? qt_manifest_version row) && (0 <=? qt_generation row)
  && bool_decide (map_Forall (fun _ other =>
       (qt_v1_hash row = None \/ qt_v1_hash other <> qt_v1_hash row) /\
       (qt_v2_hash row = None \/ qt_v2_hash other <> qt_v2_hash row)) others).

(** [INSERT INTO sporos_qbit_torrent ... ON CONFLICT(qbit_id) DO UPDATE]; the conflict
    is decided before the other constraints. *)
Definition upsert_torrent (existing : option str) (id : str) (row : QbitRow) : Act () := fun db =>
  let t := sporos_qbit_torrent db in
  match existing with
  | Some key =>
      if torrent_valid (delete key t) row then (with_torrents (<[key := row]> t) db, Ok ())
      else (db, Err (QpDatabase Constraint))
  | None =>
      if bool_decide (t !! id = None) && torrent_valid t row
      then (with_torrents (<[id := row]> t) db, Ok ())
      else (db, Err (QpDatabase Constraint))
  end.

Definition replace_facts (id : str) (release : ReleaseDescriptor) : Act () := fun db =>
  (with_inventory (Facts.replace id (lit "qbittorrent") release (inventory db)) db, Ok ()).

Definition accept_completion (id : str) (completed_at now : Z) : Act (option CompletionTransition) :=
  fun db =>
  let '(db, r) := Completion.accept id completed_at now db in
  (db, accepted ← map_err QpCompletion r;
       Ok (if Completion.acm_duplicate accepted then None
           else Some (mkCompletionTransition id completed_at (Completion.acm_operation_id accepted)
                        (Completion.acm_task_id accepted)))).

(** [TorrentOutcome] *)
Record TorrentOutcome := mkTorrentOutcome {
  to_source_id : str; to_completion : option CompletionTransition; to_manifest_needed : bool }.

(** A complete torrent has a completion time ([expect]). *)
Definition project_torrent (qbit_id : str) (delta : InventoryDelta) (generation : Z)
    (detect_completions : bool) (now : Z) : Act TorrentOutcome :=
  existing ← (reads (fun db => Ok (by_qbit_id qbit_id (sporos_qbit_torrent db)))
              : Act (option (str * QbitRow)));
  let id := source_id qbit_id in
  '(row, became_complete, manifest_needed) ←
    (liftr (merge_row (snd <$> existing) qbit_id delta generation detect_completions now)
     : Act (QbitRow * bool * bool));
  _ ← upsert_torrent (fst <$> existing) id row;
  _ ← replace_facts id (Release.parse_release (qt_name row));
  completion ← match became_complete, qt_completed_at row with
               | true, Some completed_at => accept_completion id completed_at now
               | _, _ => mret None
               end;
  mret (mkTorrentOutcome id completion manifest_needed).

(** The body of the loop over the changes. *)
Definition project_change (generation : Z) (detect_completions : bool) (now : Z)
    (result : ProjectionBatch) (change : InventoryChange) : Act ProjectionBatch :=
  match change with
  | Upsert qbit_id delta =>
      outcome ← project_torrent qbit_id delta generation detect_completions now;
      mret (mkProjectionBatch (pb_changed result + 1)
              (pb_completions result ++ option_list (to_completion outcome))
              (pb_manifests_needed result
               ++ (if to_manifest_needed outcome then [to_source_id outcome] else [])))
  | Removed qbit_id => fun db =>
      (update_torrents (fun row => bool_decide (qt_qbit_id row = Some qbit_id)) (absent now) db,
       Ok (mkProjectionBatch (pb_changed result + 1) (pb_completions result) (pb_manifests_needed result)))
  end.

Fixpoint project_changes (generation : Z) (detect_completions : bool) (now : Z)
    (result : ProjectionBatch) (changes : list InventoryChange) : Act ProjectionBatch :=
  match changes with
  | [] => mret result
  | change :: changes =>
      result ← project_change generation detect_completions now result change;
      project_changes generation detect_completions now result changes
  end.

Definition project_qbit_batch (changes : list InventoryChange) (generation : Z)
    (detect_completions : bool) (now : Z) : Act ProjectionBatch :=
  generation ← (liftr (to_i64 generation "generation") : Act Z);
  atomically (project_changes generation detect_completions now (mkProjectionBatch 0 [] []) changes).
End Project.

(** [From<InventoryTorrent>] *)
Definition change_of (torrent : InventoryTorrent) : InventoryChange :=
  Upsert (it_hash torrent)
    {| d_infohash_v1 := Some (it_infohash_v1 torrent); d_infohash_v2 := Some (it_infohash_v2 torrent);
       d_name := Some (it_name torrent); d_total_size := Some (it_total_size torrent);
       d_amount_left := Some (it_amount_left torrent); d_progress := Some (it_progress torrent);
       d_state := Some (it_state torrent); d_save_path := Some (it_save_path torrent);
       d_content_path := Some (it_content_path torrent); d_category := Some (it_category torrent);
       d_tags := Some (it_tags torrent); d_added_on := Some (it_added_on torrent);
       d_completion_on := Some (it_completion_on torrent) |}.

(** ** Manifests *)

(** [ORDER BY updated_at, id] *)
Definition oldest_first (a b : str * QbitRow) : bool :=
  if qt_updated_at a.2 =? qt_updated_at b.2 then str_leb a.1 b.1 else qt_updated_at a.2 <? qt_updated_at b.2.

Definition stale_qbit_manifests (limit : Z) (db : Library) : result ProjectionError (list str) :=
  limit ← to_i64 limit "manifest limit";
  Ok (map fst (take (Z.to_nat limit) (sort_by oldest_first
    (filter (fun p : str * QbitRow => qt_available p.2 = true /\
               qt_manifest_state p.2 ∈ [lit "stale"; lit "loading"])
       (map_to_list (sporos_qbit_torrent db)))))).

(** [UPDATE sporos_qbit_torrent SET ... WHERE id = ?] *)
Definition update_torrent (id : str) (f : QbitRow -> QbitRow) (db : Library) : Library :=
  with_torrents (alter f id (sporos_qbit_torrent db)) db.

(** [UPDATE sporos_source_file SET available = ? WHERE cond] *)
Definition set_available (available : bool) (row : SourceFileRow) : SourceFileRow :=
  mkSourceFileRow (sf_source_id row) (sf_manifest_version row) (sf_ordinal row) (sf_display_path row)
    (sf_local_path row) (sf_size row) (sf_device row) (sf_inode row) available.

Definition with_files (f : gmap Z SourceFileRow -> gmap Z SourceFileRow) (db : Library) : Library :=
  let n := inventory db in
  with_inventory (mkInventory (n_torrent n) (n_state n) (n_data n) (f (n_file n)) (n_title n) (n_external n)) db.

Definition update_files (cond : SourceFileRow -> bool) (f : SourceFileRow -> SourceFileRow) (db : Library)
  : Library :=
  with_files (fun t => (fun row => if cond row then f row else row) <$> t) db.

(** The files of one version of a source. *)
Definition of_version (source_id : str) (version : Z) (row : SourceFileRow) : bool :=
  str_eqb (sf_source_id row) source_id && (sf_manifest_version row =? version).

(** [checked_add] of a [u64]; a row that nobody gave a name cannot be loaded. *)
Definition prepare_qbit_manifest (source_id : str) : Act ManifestTarget :=
  atomically (
    row ← (reads (fun db =>
             match sporos_qbit_torrent db !! source_id with
             | Some row => if qt_available row then Ok row else Err MissingSource
             | None => Err MissingSource
             end) : Act QbitRow);
    qbit_id ← (liftr (ok_or (qt_qbit_id row) (QpDatabase ColumnDecode)) : Act str);
    current ← (liftr (required_u64 (qt_manifest_version row) "file_manifest_version") : Act Z);
    version ← (liftr (ok_or (checked_add_u64 current 1) (QpRange "manifest version")) : Act Z);
    _ ← ((fun db => (update_torrent source_id (with_manifest_state (lit "loading")) db, Ok ())) : Act ());
    version64 ← (liftr (to_i64 version "manifest version") : Act Z);
    _ ← ((fun db => (update_files (of_version source_id version64) (set_available false) db, Ok ())) : Act ());
    mret (mkManifestTarget source_id qbit_id version)).

(** The row that holds a file. *)
Definition file_row (source_id : str) (version ordinal : Z) (t : gmap Z SourceFileRow)
  : option (Z * SourceFileRow) :=
  head (filter (fun p : Z * SourceFileRow =>
    sf_source_id p.2 = source_id /\ sf_manifest_version p.2 = version /\ sf_ordinal p.2 = ordinal)
    (map_to_list t)).

(** [INSERT ... ON CONFLICT(source_id, manifest_version, ordinal) DO UPDATE]; an update
    keeps the other columns. *)
Definition upsert_file (source_id : str) (version ordinal : Z) (name : str) (size : Z) : Act () := fun db =>
  if (version <? 0) || (ordinal <? 0) || (size <? 0) then (db, Err (QpDatabase Constraint)) else
  (with_files (fun t =>
     match file_row source_id version ordinal t with
     | Some (key, row) =>
         <[key := mkSourceFileRow source_id version ordinal name (sf_local_path row) size
                    (sf_device row) (sf_inode row) false]> t
     | None =>
         <[next_rowid t := mkSourceFileRow source_id version ordinal name None size None None false]> t
     end) db, Ok ()).

Fixpoint upsert_files (source_id : str) (version : Z) (files : list InventoryFile) : Act () :=
  match files with
  | [] => mret ()
  | file :: files =>
      ordinal ← (liftr (ok_or (i64_try_from (fl_index file)) (QpRange "file ordinal")) : Act Z);
      size ← (liftr (to_i64 (fl_size file) "file size") : Act Z);
      _ ← upsert_file source_id version ordinal (fl_name file) size;
      upsert_files source_id version files
  end.

Definition project_qbit_files (target : ManifestTarget) (files : list InventoryFile) : Act () :=
  version ← (liftr (to_i64 (tg_version target) "manifest version") : Act Z);
  atomically (upsert_files (tg_source_id target) version files).

(** [SET file_manifest_version = ?, file_manifest_state = 'loaded'] *)
Definition loaded (version : Z) (row : QbitRow) : QbitRow :=
  mkQbitRow (qt_qbit_id row) (qt_v1_hash row) (qt_v2_hash row) (qt_name row) (qt_total_size row)
    (qt_amount_left row) (qt_progress_ppm row) (qt_state row) (qt_save_path row)
    (qt_content_path row) (qt_category row) (qt_tags row) (qt_is_complete row) (qt_available row)
    version (lit "loaded") (qt_fingerprint row) (qt_added_at row) (qt_completed_at row)
    (qt_release_json row) (qt_release row) (qt_generation row) (qt_updated_at row).

(** The three [UPDATE]s of [finish_qbit_manifest] *)
Definition publish (id : str) (version file_count : Z) (db : Library) : Library :=
  update_torrent id (loaded version)
    (update_files (fun row => of_version id version row && (sf_ordinal row <? file_count)) (set_available true)
       (update_files (fun row => str_eqb (sf_source_id row) id) (set_available false) db)).

Definition finish_qbit_manifest (target : ManifestTarget) (file_count : Z) : Act () :=
  version ← (liftr (to_i64 (tg_version target) "manifest version") : Act Z);
  file_count ← (liftr (ok_or (i64_try_from file_count) (QpRange "manifest file count")) : Act Z);
  ((fun db => (publish (tg_source_id target) version file_count db, Ok ())) : Act ()).

Definition fail_qbit_manifest (source_id : str) : Act () := fun db =>
  (update_torrent source_id (with_manifest_state (lit "stale")) db, Ok ()).
