(* ===== verification/QbitSync.v ===== *)
(** The synchronisation with qBittorrent (qbit_sync.rs): a main-data response applied in
    batches while it is parsed, the paging of a full reconciliation, and the loading of
    the files of a torrent.

    The HTTP client is an interface: what it answers to each request.  The parser runs in
    a thread of its own and hands over what it finds through a channel; the projection
    takes all of it, in order, before it looks at how the parser ended, so the pair is
    the list of messages followed by the parser's result.  A projection that fails first
    drops the parser. *)

From S2P Require Import Prelude Text Float Model Store Duroxide Library QbitInventory QbitProjection.
From S2P Require Release Completion Pieces.
From stdpp Require Import strings.
Local Open Scope Z_scope.

Definition MAX_FILES_PER_TORRENT : Z := 100000.

Record SyncReport := mkSyncReport {
  sr_changed : Z; sr_completions : list CompletionTransition; sr_manifests_needed : list str;
  sr_full_update : bool }.

Definition empty_report (full_update : bool) : SyncReport := mkSyncReport 0 [] [] full_update.

(** What the synchroniser asks of qBittorrent. *)
Class QbitClient := {
  QbittorrentError : Type;
  sync_main_data : Z -> result QbittorrentError MainReader;
  inventory_page : Z -> Z -> result QbittorrentError (Stream InventoryTorrent);
  torrent_files : str -> result QbittorrentError (Stream InventoryFile) }.

(** [InventorySynchronizer], without its storage and client. *)
Record InventorySynchronizer := mkSynchronizer {
  inventory_batch_size : Z; database_batch_size : nat }.

Inductive MainDataMessage := Header (header : MainData) | Change (change : InventoryChange).

Section Sync.
Context `{Unicode} `{Digest} `{CandidateCodec} `{Completion.CompletionCodec} `{QbitClient}.

Inductive SyncError :=
| SyQbittorrent (e : QbittorrentError)
| SyProjection (e : ProjectionError)
| SyParse (e : Pieces.InventoryParseError)
| InitialUpdateNotFull
| MetadataChanged
| GenerationOverflow
| OffsetOverflow
| ZeroBatchSize
| NonContiguousFileIndex (expected actual : Z)
| FileCountChanged.

Abbreviation Sync A := (M Library SyncError A).

(** [call.await?] on the storage *)
Definition store {A} (m : M Library ProjectionError A) : Sync A := fun db =>
  let '(db, r) := m db in (db, map_err SyProjection r).

(** ** Main data *)

(** [sender.blocking_send] of a parser whose receiver is there. *)
Definition send {A} (message : A) : M (list A) str () := fun sent => (sent ++ [message], Ok tt).

Definition project_batch (report : SyncReport) (batch : list InventoryChange) (generation : Z)
    (detect_completions : bool) (now : Z) : Sync SyncReport :=
  projected ← store (project_qbit_batch batch generation detect_completions now);
  mret (mkSyncReport (sr_changed report + pb_changed projected)
          (sr_completions report ++ pb_completions projected)
          (sr_manifests_needed report ++ pb_manifests_needed projected) (sr_full_update report)).

(** The variables of the loop: header, generation, report and batch. *)
Record Applying := mkApplying {
  ap_header : option MainData; ap_generation : option Z; ap_report : SyncReport;
  ap_batch : list InventoryChange }.

Definition apply_message (batch_size : nat) (has_baseline : bool) (current_generation now : Z)
    (st : Applying) (message : MainDataMessage) : Sync Applying :=
  match message with
  | Header value =>
      if bool_decide (is_Some (ap_header st)) then throw MetadataChanged else
      if negb has_baseline && negb (full_update value) then throw InitialUpdateNotFull else
      generation ← (if full_update value
                    then liftr (ok_or (checked_add_u64 current_generation 1) GenerationOverflow)
                    else mret current_generation : Sync Z);
      mret (mkApplying (Some value) (Some generation)
              (mkSyncReport (sr_changed (ap_report st)) (sr_completions (ap_report st))
                 (sr_manifests_needed (ap_report st)) (full_update value)) (ap_batch st))
  | Change change =>
      generation ← (liftr (ok_or (ap_generation st) MetadataChanged) : Sync Z);
      let batch := ap_batch st ++ [change] in
      if (length batch =? batch_size)%nat then
        report ← project_batch (ap_report st) batch generation has_baseline now;
        mret (mkApplying (ap_header st) (ap_generation st) report [])
      else mret (mkApplying (ap_header st) (ap_generation st) (ap_report st) batch)
  end.

Fixpoint apply_messages (batch_size : nat) (has_baseline : bool) (current_generation now : Z)
    (messages : list MainDataMessage) (st : Applying) : Sync Applying :=
  match messages with
  | [] => mret st
  | message :: messages =>
      st ← apply_message batch_size has_baseline current_generation now st message;
      apply_messages batch_size has_baseline current_generation now messages st
  end.

Definition apply_main_data_reader (body : MainReader) (batch_size : nat) (has_baseline : bool)
    (current_generation now : Z) : Sync SyncReport :=
  if (batch_size =? 0)%nat then throw ZeroBatchSize else
  let '(messages, parsed) :=
    parse_main_data_with_header (fun header => send (Header header)) (fun change => send (Change change))
      body [] in
  st ← apply_messages batch_size has_baseline current_generation now messages
         (mkApplying None None (empty_report false) []);
  header ← (liftr (ok_or (ap_header st) MetadataChanged) : Sync MainData);
  generation ← (liftr (ok_or (ap_generation st) MetadataChanged) : Sync Z);
  report ← (if bool_decide (ap_batch st = []) then mret (ap_report st)
            else project_batch (ap_report st) (ap_batch st) generation has_baseline now : Sync SyncReport);
  parsed ← (liftr (map_err SyParse parsed) : Sync MainData);
  if negb (response_id parsed =? response_id header) || negb (eqb (full_update parsed) (full_update header))
  then throw MetadataChanged else
  _ ← store (finish_qbit_sync (response_id parsed)
               (if full_update parsed then Some generation else None) now);
  mret report.

Definition state : Sync InventoryState := reads (fun db => map_err SyProjection (qbit_inventory_state db)).

Definition sync_once (self : InventorySynchronizer) (now : Z) : Sync SyncReport :=
  state ← state;
  body ← (liftr (map_err SyQbittorrent (sync_main_data (default 0 (is_response_id state)))) : Sync MainReader);
  apply_main_data_reader body (database_batch_size self) (has_baseline state) (is_generation state) now.

Definition reconcile_requested : Sync bool :=
  state ← state;
  mret (bool_decide (is_Some (is_reconcile_requested_at state))).

(** ** Reconciliation *)

(** [page.chunks(size)]: panics when the size is zero. *)
Fixpoint chunks {A} (fuel size : nat) (l : list A) : list (list A) :=
  match fuel, l with
  | S fuel, _ :: _ => take size l :: chunks fuel size (drop size l)
  | _, _ => []
  end.

Fixpoint project_chunks (batches : list (list InventoryChange)) (generation : Z) (has_baseline : bool)
    (now : Z) (report : SyncReport) : Sync SyncReport :=
  match batches with
  | [] => mret report
  | batch :: batches =>
      report ← project_batch report batch generation has_baseline now;
      project_chunks batches generation has_baseline now report
  end.

(** The loop over the pages; [None]: out of fuel. *)
Fixpoint reconcile_pages (self : InventorySynchronizer) (fuel : nat) (generation : Z)
    (has_baseline : bool) (now offset : Z) (report : SyncReport) : Sync (option SyncReport) :=
  match fuel with
  | O => mret None
  | S fuel =>
      body ← (liftr (map_err SyQbittorrent (inventory_page offset (inventory_batch_size self)))
              : Sync (Stream InventoryTorrent));
      let '(page, count) := parse_inventory (fun torrent => send (change_of torrent)) body [] in
      count ← (liftr (map_err SyParse count) : Sync Z);
      report ← project_chunks (chunks (length page) (database_batch_size self) page) generation
                 has_baseline now report;
      if count <? inventory_batch_size self then mret (Some report) else
      offset ← (liftr (ok_or (checked_add_u64 offset count) OffsetOverflow) : Sync Z);
      reconcile_pages self fuel generation has_baseline now offset report
  end.

Definition reconcile (self : InventorySynchronizer) (fuel : nat) (now : Z) : Sync (option SyncReport) :=
  state ← state;
  generation ← (liftr (ok_or (checked_add_u64 (is_generation state) 1) GenerationOverflow) : Sync Z);
  report ← reconcile_pages self fuel generation (has_baseline state) now 0 (empty_report true);
  match report with
  | None => mret None
  | Some report =>
      _ ← store (finish_qbit_reconcile generation now);
      mret (Some report)
  end.

(** ** Manifests *)

(** The loop over the received files: the batch and how many were received. *)
Fixpoint receive_files (batch_size : nat) (target : ManifestTarget) (files : list InventoryFile)
    (batch : list InventoryFile) (count : Z) : Sync (list InventoryFile * Z) :=
  match files with
  | [] => mret (batch, count)
  | file :: files =>
      if negb (fl_index file =? count) then throw (NonContiguousFileIndex count (fl_index file)) else
      let batch := batch ++ [file] in
      if (length batch =? batch_size)%nat then
        _ ← store (project_qbit_files target batch);
        receive_files batch_size target files [] (count + 1)
      else receive_files batch_size target files batch (count + 1)
  end.

Definition load_manifest_inner (self : InventorySynchronizer) (source_id : str) : Sync Z :=
  target ← store (prepare_qbit_manifest source_id);
  body ← (liftr (map_err SyQbittorrent (torrent_files (tg_qbit_id target))) : Sync (Stream InventoryFile));
  let '(files, parsed) := parse_files MAX_FILES_PER_TORRENT send body [] in
  '(batch, count) ← receive_files (database_batch_size self) target files [] 0;
  _ ← (if bool_decide (batch = []) then mret () else store (project_qbit_files target batch) : Sync ());
  parsed ← (liftr (map_err SyParse parsed) : Sync Z);
  if negb (parsed =? count) then throw FileCountChanged else
  _ ← store (finish_qbit_manifest target count);
  mret count.

Definition load_manifest (self : InventorySynchronizer) (source_id : str) : Sync Z := fun db =>
  match load_manifest_inner self source_id db with
  | (db, Ok count) => (db, Ok count)
  | (db, Err e) =>
      match store (fail_qbit_manifest source_id) db with
      | (db, Ok _) => (db, Err e)
      | (db, Err e) => (db, Err e)
      end
  end.

Fixpoint load_manifests (self : InventorySynchronizer) (sources : list str) : Sync () :=
  match sources with
  | [] => mret ()
  | source_id :: sources =>
      _ ← load_manifest self source_id;
      load_manifests self sources
  end.

Definition refresh_manifests (self : InventorySynchronizer) (limit : Z) : Sync Z :=
  sources ← (reads (fun db => map_err SyProjection (stale_qbit_manifests limit db)) : Sync (list str));
  _ ← load_manifests self sources;
  mret (Z.of_nat (length sources)).
End Sync.
