(* ===== verification/ManifestProofs.v ===== *)
(** Loading the files of a torrent (QbitSync.v, QbitProjection.v): the files of the next
    version are staged out of sight of the decisions, and take the place of the ones in
    use in one transaction, when all of them have been received. *)

From S2P Require Import Prelude Text Float Model Store Duroxide Library QbitInventory QbitProjection QbitSync.
From S2P Require Release Completion Pieces Decision Codec.
From stdpp Require Import strings.
From stdpp Require sorting.
Local Open Scope Z_scope.

(** ** The table of files *)

(** Its [CHECK] and [UNIQUE] constraints. *)
Record files_ok (t : gmap Z SourceFileRow) : Prop := {
  fo_ordinal : forall k row, t !! k = Some row -> 0 <= sf_ordinal row;
  fo_unique : forall i j a b, t !! i = Some a -> t !! j = Some b -> sf_source_id a = sf_source_id b ->
    sf_manifest_version a = sf_manifest_version b -> sf_ordinal a = sf_ordinal b -> i = j }.

Lemma of_version_spec id v row :
  of_version id v row = true <-> sf_source_id row = id /\ sf_manifest_version row = v.
Proof. unfold of_version. by rewrite andb_true_iff, str_eqb_spec, Z.eqb_eq. Qed.

Lemma file_row_Some id v o t k row :
  file_row id v o t = Some (k, row) ->
  t !! k = Some row /\ of_version id v row = true /\ sf_ordinal row = o.
Proof.
  unfold file_row. intros Hh. assert ((k, row) ∈ filter (fun p : Z * SourceFileRow =>
    sf_source_id p.2 = id /\ sf_manifest_version p.2 = v /\ sf_ordinal p.2 = o) (map_to_list t)) as Hin.
  { destruct (filter _ _) as [|p l]; [done|]. injection Hh as ->. by left. }
  apply list_elem_of_filter in Hin as [(E1 & E2 & E3) Hin%elem_of_map_to_list].
  by rewrite of_version_spec.
Qed.

Lemma file_row_None id v o t k row :
  file_row id v o t = None -> t !! k = Some row -> of_version id v row = true -> sf_ordinal row <> o.
Proof.
  unfold file_row. intros Hh Hk [E1 E2]%of_version_spec E3.
  assert ((k, row) ∈ filter (fun p : Z * SourceFileRow =>
    sf_source_id p.2 = id /\ sf_manifest_version p.2 = v /\ sf_ordinal p.2 = o) (map_to_list t)) as Hin
    by (apply list_elem_of_filter; split; [done|by apply elem_of_map_to_list]).
  destruct (filter _ _); [by apply elem_of_nil in Hin|done].
Qed.

(** A version under way: nobody sees its files, and the other files of [t0] are as they
    were. *)
Record hidden (id : str) (v : Z) (t0 t : gmap Z SourceFileRow) : Prop := {
  hd_ok : files_ok t;
  hd_hidden : forall k row, t !! k = Some row -> of_version id v row = true -> sf_available row = false;
  hd_others : forall k row, of_version id v row = false -> (t !! k = Some row <-> t0 !! k = Some row) }.

(** The version holds these files. *)
Definition holds (id : str) (v : Z) (files : list InventoryFile) (t : gmap Z SourceFileRow) : Prop :=
  forall f, f ∈ files -> exists k row, t !! k = Some row /\ of_version id v row = true /\
    sf_ordinal row = fl_index f /\ sf_display_path row = fl_name f /\ sf_size row = fl_size f.

(** The row that [upsert_file] writes, and where. *)
Lemma upsert_file_spec id v o name size db db' t0 :
  upsert_file id v o name size db = (db', Ok tt) ->
  db' = with_files (fun _ => sporos_source_file db') db /\
  exists key row, sporos_source_file db' = <[key := row]> (sporos_source_file db) /\
    of_version id v row = true /\ sf_ordinal row = o /\ sf_display_path row = name /\
    sf_size row = size /\
    (hidden id v t0 (sporos_source_file db) -> hidden id v t0 (sporos_source_file db')) /\
    (forall k r, sporos_source_file db !! k = Some r -> of_version id v r = true -> sf_ordinal r <> o ->
       sporos_source_file db' !! k = Some r).
Proof.
  unfold upsert_file. destruct (_ || _) eqn:Hc; [done|]. intros [= <-].
  apply orb_false_iff in Hc as [[Hv Ho]%orb_false_iff Hs]. apply Z.ltb_ge in Ho.
  split; [by destruct db|]. cbn [sporos_source_file with_files with_inventory n_file inventory].
  set (t := sporos_source_file db). destruct (file_row id v o t) as [[key old]|] eqn:Hf.
  - apply file_row_Some in Hf as (Hk & Hver & Hold).
    eexists key, _. split; [reflexivity|]. split; [by apply of_version_spec|].
    do 3 (split; [done|]). split.
    + intros [[O1 O2] H2 H3]. split; [split| |].
      * intros k row [[_ <-]|[_ Hr]]%lookup_insert_Some; [done|by eapply O1].
      * apply of_version_spec in Hver as [V1 V2].
        intros i j a b [[<- <-]|[Hi Ha]]%lookup_insert_Some [[<- <-]|[Hj Hb]]%lookup_insert_Some E1 E2 E3;
          cbn in *; [done| | |by eapply O2].
        -- eapply (O2 key j old b); congruence.
        -- eapply (O2 i key a old); congruence.
      * intros k row [[_ <-]|[_ Hr]]%lookup_insert_Some; [done|by eapply H2].
      * intros k row Hrow. rewrite <- H3 by done. split.
        -- intros [[_ <-]|[_ Hr]]%lookup_insert_Some; [|done].
           by rewrite (proj2 (of_version_spec id v _)) in Hrow.
        -- intros Hr. rewrite lookup_insert_ne; [done|]. intros ->. congruence.
    + intros k r Hr Hrv Hro. rewrite lookup_insert_ne; [done|]. intros ->. congruence.
  - eexists (next_rowid t), _. split; [reflexivity|]. split; [by apply of_version_spec|].
    do 3 (split; [done|]). pose proof (next_rowid_fresh t) as Hfresh. split.
    + intros [[O1 O2] H2 H3]. split; [split| |].
      * intros k row [[_ <-]|[_ Hr]]%lookup_insert_Some; [done|by eapply O1].
      * assert (forall k r, t !! k = Some r -> sf_source_id r = id -> sf_manifest_version r = v ->
                  sf_ordinal r = o -> False) as Hno.
        { intros k r Hr E1 E2 E3. eapply file_row_None; [done..| |done]. by apply of_version_spec. }
        intros i j a b [[<- <-]|[Hi Ha]]%lookup_insert_Some [[<- <-]|[Hj Hb]]%lookup_insert_Some E1 E2 E3;
          cbn in *; [done|exfalso|exfalso|by eapply O2]; eauto.
      * intros k row [[_ <-]|[_ Hr]]%lookup_insert_Some; [done|by eapply H2].
      * intros k row Hrow. rewrite <- H3 by done. split.
        -- intros [[_ <-]|[_ Hr]]%lookup_insert_Some; [|done].
           by rewrite (proj2 (of_version_spec id v _)) in Hrow.
        -- intros Hr. rewrite lookup_insert_ne; [done|]. intros <-. fold t in Hr. congruence.
    + intros k r Hr Hrv Hro. rewrite lookup_insert_ne; [done|]. intros <-. fold t in Hr. congruence.
Qed.

(** ** Staging *)

Definition moves (id : str) (v : Z) (t0 : gmap Z SourceFileRow) (db db' : Library) : Prop :=
  db' = with_files (fun _ => sporos_source_file db') db /\
  (hidden id v t0 (sporos_source_file db) -> hidden id v t0 (sporos_source_file db')).

#[export] Instance moves_preorder id v t0 : PreOrder (moves id v t0).
Proof.
  split.
  - intros db. split; [by destruct db|done].
  - intros a b c [E1 H1] [E2 H2]. split; [|auto]. rewrite E2, E1. by destruct a.
Qed.

Definition staged (id : str) (v : Z) (t0 : gmap Z SourceFileRow) (files : list InventoryFile)
    (db : Library) : Prop :=
  hidden id v t0 (sporos_source_file db) /\ holds id v files (sporos_source_file db).

Lemma holds_snoc id v files f t t' :
  (forall g, g ∈ files -> fl_index g <> fl_index f) ->
  (forall k r, t !! k = Some r -> of_version id v r = true -> sf_ordinal r <> fl_index f -> t' !! k = Some r) ->
  (exists k row, t' !! k = Some row /\ of_version id v row = true /\
    sf_ordinal row = fl_index f /\ sf_display_path row = fl_name f /\ sf_size row = fl_size f) ->
  holds id v files t -> holds id v (files ++ [f]) t'.
Proof.
  intros Hne Hkeep Hnew Hold g [Hg|Hg%list_elem_of_singleton]%elem_of_app; [|by subst g].
  destruct (Hold g Hg) as (k & row & Hk & Hv & Ho & Hp). exists k, row. split; [|done].
  apply Hkeep; [done..|]. rewrite Ho. by apply Hne.
Qed.

Lemma stage_files id v t0 files before :
  NoDup (map fl_index (before ++ files)) ->
  hoare (moves id v t0) (staged id v t0 before) (upsert_files id v files)
    (fun _ => staged id v t0 (before ++ files)).
Proof.
  revert before. induction files as [|f files IH]; intros before Hnd; cbn [upsert_files].
  - rewrite app_nil_r. intros db Hdb. split; [reflexivity|done].
  - intros db [Hh Hd]. unfold mbind, M_bind, liftr, to_i64.
    unfold i64_try_from. destruct (fl_index f <=? i64_max); [|split; [reflexivity|done]]. cbn [ok_or fst snd].
    destruct (fl_size f <=? i64_max); [|split; [reflexivity|done]]. cbn [ok_or fst snd].
    destruct (upsert_file id v (fl_index f) (fl_name f) (fl_size f) db) as [db1 [[]|e]] eqn:Hu.
    2: { unfold upsert_file in Hu. destruct (_ || _); [|done]. injection Hu as <- _. split; [reflexivity|done]. }
    destruct (upsert_file_spec _ _ _ _ _ _ _ t0 Hu) as (Hdb1 & key & row & Hf & Hv & Ho & Hp & Hs & Hhid & Hkeep).
    assert (moves id v t0 db db1) as Hmv by (split; auto).
    replace (before ++ f :: files) with ((before ++ [f]) ++ files) in * by (by rewrite <- app_assoc).
    destruct (IH (before ++ [f]) Hnd db1) as [HR HQ].
    { split; [auto|]. eapply holds_snoc; [|exact Hkeep| |done].
      - intros g Hg Heq. rewrite <- app_assoc, map_app in Hnd. apply NoDup_app in Hnd as (_ & Hd2 & _).
        apply (Hd2 (fl_index g)); [by apply list_elem_of_fmap_2|]. rewrite Heq. left.
      - exists key, row. rewrite Hf, lookup_insert_eq. done. }
    split; [by etransitivity|done].
Qed.

Lemma stage_batch target t0 files before :
  NoDup (map fl_index (before ++ files)) ->
  let id := tg_source_id target in let v := tg_version target in
  hoare (moves id v t0) (staged id v t0 before) (project_qbit_files target files)
    (fun _ => staged id v t0 (before ++ files)).
Proof.
  intros Hnd id v db Hdb. unfold project_qbit_files, mbind, M_bind, liftr, to_i64, i64_try_from.
  destruct (tg_version target <=? i64_max); [|split; [reflexivity|done]]. cbn [ok_or fst snd].
  by apply (hoare_atomically _ _ _ _ (stage_files id v t0 files before Hnd)).
Qed.

Section Load.
Context `{QbitClient}.

Lemma hoare_store {A} (R : relation Library) P (m : M Library ProjectionError A) Q :
  hoare R P m Q -> hoare R P (store m) Q.
Proof.
  intros Hm db Hdb. specialize (Hm db Hdb). unfold store. by destruct (m db) as [db' [a|e]].
Qed.

(** The files handed over are staged, but for a batch that is not full. *)
Lemma receive_staged n target t0 files before batch count :
  map fl_index (before ++ batch) = seqZ 0 count -> 0 <= count ->
  let id := tg_source_id target in let v := tg_version target in
  hoare (moves id v t0) (staged id v t0 before) (receive_files n target files batch count)
    (fun r db => exists done', staged id v t0 done' db /\
       done' ++ r.1 = (before ++ batch) ++ files /\
       map fl_index (done' ++ r.1) = seqZ 0 r.2 /\ r.2 = count + Z.of_nat (length files)).
Proof.
  intros Hidx Hc id v. revert before batch count Hidx Hc.
  induction files as [|f files IH]; intros before batch count Hidx Hc; cbn [receive_files].
  - intros db Hdb. split; [reflexivity|]. exists before. cbn. rewrite app_nil_r.
    split; [done|]. split; [done|]. split; [done|lia].
  - destruct (Z.eqb_spec (fl_index f) count) as [Hf|]; cbn [negb]; [|intros db Hdb; split; [reflexivity|done]].
    assert (map fl_index ((before ++ batch) ++ [f]) = seqZ 0 (count + 1)) as Hidx'.
    { rewrite map_app, Hidx, seqZ_app by lia. cbn. by rewrite Hf. }
    rewrite <- app_assoc in Hidx'.
    destruct (length (batch ++ [f]) =? n)%nat.
    + eapply hoare_bind; [typeclasses eauto| |intros []].
      * apply hoare_store, stage_batch. rewrite Hidx'. apply NoDup_seqZ.
      * eapply hoare_weaken; [typeclasses eauto|intros s Hs; exact Hs| |eapply (IH (before ++ batch ++ [f]) [])];
          [|by rewrite app_nil_r|lia].
        intros r db (done' & E1 & E2 & E3 & E4). exists done'. split; [done|].
        split; [by rewrite E2, app_nil_r, <- !app_assoc|]. split; [done|]. rewrite E4. cbn. lia.
    + eapply hoare_weaken; [typeclasses eauto|intros s Hs; exact Hs| |eapply (IH before (batch ++ [f]))]; [|done|lia].
      intros r db (done' & E1 & E2 & E3 & E4). exists done'. split; [done|].
      split; [by rewrite E2, <- !app_assoc|]. split; [done|]. rewrite E4. cbn. lia.
Qed.
End Load.

(** ** What the decisions see *)

(** A file as the decisions read it. *)
Definition entry (p : Z * SourceFileRow) : Z * str * Z :=
  (sf_ordinal p.2, sf_display_path p.2, sf_size p.2).
Definition entry_leb (a b : Z * str * Z) : bool := a.1.1 <=? b.1.1.
Definition manifest (db : Library) (id : str) (v : Z) : list (Z * str * Z) :=
  map entry (Decision.manifest_rows db id v).

Definition visible (id : str) (v : Z) (t : gmap Z SourceFileRow) (p : Z * SourceFileRow) : Prop :=
  t !! p.1 = Some p.2 /\ of_version id v p.2 = true /\ sf_available p.2 = true.

Lemma visible_rows_elem db id v p :
  p ∈ Decision.manifest_rows db id v <-> visible id v (sporos_source_file db) p.
Proof.
  unfold Decision.manifest_rows, visible. rewrite elem_of_sort_by, list_elem_of_filter, of_version_spec.
  destruct p as [k row]. rewrite elem_of_map_to_list. cbn. naive_solver.
Qed.

Lemma visible_rows_same db db' id v :
  (forall p, visible id v (sporos_source_file db') p <-> visible id v (sporos_source_file db) p) ->
  files_ok (sporos_source_file db) ->
  Decision.manifest_rows db' id v = Decision.manifest_rows db id v.
Proof.
  intros Hv [_ Hu]. unfold Decision.manifest_rows. apply sort_by_Permutation_eq.
  - intros x y. destruct (Z.leb_spec (sf_ordinal x.2) (sf_ordinal y.2)); [by left|].
    right. apply Z.leb_le. lia.
  - intros x y z H1%Z.leb_le H2%Z.leb_le. apply Z.leb_le. lia.
  - intros [i a] [j b] [(A1 & A2 & A3) A4%elem_of_map_to_list]%list_elem_of_filter
      [(B1 & B2 & B3) B4%elem_of_map_to_list]%list_elem_of_filter H1%Z.leb_le H2%Z.leb_le. cbn in *.
    assert (i = j) as ->.
    { assert (visible id v (sporos_source_file db') (i, a)) as (? & _)%Hv
        by (split; [done|]; split; [by apply of_version_spec|done]).
      assert (visible id v (sporos_source_file db') (j, b)) as (? & _)%Hv
        by (split; [done|]; split; [by apply of_version_spec|done]).
      cbn in *. eapply (Hu i j a b); [done|done| | |lia]; congruence. }
    f_equal. congruence.
  - apply NoDup_Permutation; [apply NoDup_filter, NoDup_map_to_list..|].
    intros [k row]. rewrite !list_elem_of_filter, !elem_of_map_to_list.
    specialize (Hv (k, row)). unfold visible in Hv. rewrite of_version_spec in Hv. cbn in *. tauto.
Qed.

Lemma entry_leb_total x y : entry_leb x y = true \/ entry_leb y x = true.
Proof. unfold entry_leb. rewrite !Z.leb_le. lia. Qed.
Lemma entry_leb_trans x y z : entry_leb x y = true -> entry_leb y z = true -> entry_leb x z = true.
Proof. unfold entry_leb. rewrite !Z.leb_le. lia. Qed.

Lemma sorted_from {A} (key : A -> Z) l a :
  map key l = seqZ a (Z.of_nat (length l)) -> StronglySorted (fun x y => key x <=? key y) l.
Proof.
  revert a. induction l as [|x l IH]; intros a Hl; [constructor|]. cbn [map length] in Hl.
  rewrite seqZ_cons in Hl by lia. injection Hl as Hx Hl.
  replace (Z.pred (Z.of_nat (S (length l)))) with (Z.of_nat (length l)) in Hl by lia.
  constructor; [by eapply IH|]. apply Forall_forall. intros y Hy.
  assert (key y ∈ map key l) as Hk by by apply list_elem_of_fmap_2.
  rewrite Hl in Hk. apply elem_of_seqZ in Hk. apply Is_true_true, Z.leb_le. lia.
Qed.

(** A manifest is known from its entries when they are numbered from 0. *)
Lemma manifest_known db id v target :
  files_ok (sporos_source_file db) ->
  map (fun e : Z * str * Z => e.1.1) target = seqZ 0 (Z.of_nat (length target)) ->
  (forall e, e ∈ target <-> exists p, visible id v (sporos_source_file db) p /\ e = entry p) ->
  manifest db id v = target.
Proof.
  intros [_ Hu] Hidx Hin. unfold manifest.
  assert (forall x y, x ∈ Decision.manifest_rows db id v -> y ∈ Decision.manifest_rows db id v ->
    entry x = entry y -> x = y) as Hinj.
  { intros [i a] [j b] (Ha & [A1 A2]%of_version_spec & _)%visible_rows_elem
      (Hb & [B1 B2]%of_version_spec & _)%visible_rows_elem He. cbn in *.
    injection He as E1 _ _. assert (i = j) as -> by (eapply Hu; [done|done|..]; congruence).
    f_equal. congruence. }
  assert (NoDup (Decision.manifest_rows db id v)) as Hnd.
  { unfold Decision.manifest_rows. rewrite sort_by_Permutation. apply NoDup_filter, NoDup_map_to_list. }
  assert (NoDup target) as Hndt.
  { apply (NoDup_fmap_1 (fun e : Z * str * Z => e.1.1)). change (fmap (M := list)) with (@map (Z * str * Z) Z).
    rewrite Hidx. apply NoDup_seqZ. }
  symmetry. apply (sorted_unique entry_leb).
  - intros x y Hx Hy H1%Z.leb_le H2%Z.leb_le.
    apply list_elem_of_lookup in Hx as [i Hi]. apply list_elem_of_lookup in Hy as [j Hj].
    assert (map (fun e : Z * str * Z => e.1.1) target !! i = Some x.1.1) as Ei by (by rewrite list_lookup_fmap, Hi).
    assert (map (fun e : Z * str * Z => e.1.1) target !! j = Some y.1.1) as Ej by (by rewrite list_lookup_fmap, Hj).
    rewrite Hidx in Ei, Ej. apply lookup_seqZ in Ei as [Ei _]. apply lookup_seqZ in Ej as [Ej _].
    assert (i = j) by lia. congruence.
  - by eapply (sorted_from (fun e : Z * str * Z => e.1.1)).
  - apply (sorting.StronglySorted_fmap entry (fun a b => sf_ordinal a.2 <=? sf_ordinal b.2)); [done|].
    apply sort_by_sorted.
    + intros x y. cbv beta. rewrite !Z.leb_le. lia.
    + intros x y z. cbv beta. rewrite !Z.leb_le. lia.
  - apply NoDup_Permutation; [done|by apply NoDup_fmap_2_strong|]. intros e. rewrite Hin.
    change (map entry) with (fmap (M := list) entry). rewrite list_elem_of_fmap.
    setoid_rewrite visible_rows_elem. naive_solver.
Qed.

(** ** The steps of a load *)

Lemma visit_files_sent limit files count sent sent' r :
  visit_files limit send files count sent = (sent', r) ->
  match r with
  | Ok n => sent' = sent ++ files /\ n = count + Z.of_nat (length files)
  | Err _ => exists k, sent' = sent ++ take k files
  end.
Proof.
  revert count sent. induction files as [|f files IH]; intros count sent; cbn [visit_files].
  - intros [= <- <-]. rewrite app_nil_r. split; [done|cbn; lia].
  - destruct (count =? limit).
    { intros [= <- <-]. exists 0%nat. by rewrite app_nil_r. }
    destruct (_ || _).
    { intros [= <- <-]. exists 0%nat. by rewrite app_nil_r. }
    cbn [mbind M_bind call send]. intros Hv. apply IH in Hv. destruct r as [n|e].
    + destruct Hv as [-> ->]. rewrite <- app_assoc. split; [done|cbn; lia].
    + destruct Hv as [k ->]. exists (S k). by rewrite <- app_assoc.
Qed.

Lemma parse_files_sent limit (body : Stream InventoryFile) sent r :
  parse_files limit send body [] = (sent, r) ->
  match r with
  | Ok n => sent = items body /\ n = Z.of_nat (length (items body)) /\ ending body = Ok tt
  | Err _ => True
  end.
Proof.
  unfold parse_files, mbind, M_bind.
  destruct (visit_files limit send (items body) 0 []) as [s [n|e]] eqn:Hv; cbn; [|by intros [= <- <-]].
  apply visit_files_sent in Hv as [-> ->]. cbn [liftr].
  destruct (ending body) as [[]|e]; cbn; intros [= <- <-]; done.
Qed.

Definition fade (id : str) (v : Z) (db : Library) : Library :=
  update_files (of_version id v) (set_available false) (update_torrent id (with_manifest_state (lit "loading")) db).

Lemma prepare_spec id db db1 r :
  prepare_qbit_manifest id db = (db1, r) ->
  match r with
  | Ok target => exists row q, sporos_qbit_torrent db !! id = Some row /\ qt_qbit_id row = Some q /\
      target = mkManifestTarget id q (qt_manifest_version row + 1) /\
      qt_manifest_version row + 1 <= i64_max /\
      db1 = fade id (qt_manifest_version row + 1) db
  | Err _ => db1 = db
  end.
Proof.
  unfold prepare_qbit_manifest, atomically, mbind, M_bind. cbn [reads liftr].
  destruct (sporos_qbit_torrent db !! id) as [row|] eqn:Hrow; [|by intros [= <- <-]].
  destruct (qt_available row); [|by intros [= <- <-]].
  destruct (qt_qbit_id row) as [q|] eqn:Hq; cbn [ok_or]; [|by intros [= <- <-]].
  destruct (required_u64 _ _) as [current|] eqn:Hc; [|by intros [= <- <-]].
  destruct (checked_add_u64 current 1) as [version|] eqn:Hv; cbn [ok_or]; [|by intros [= <- <-]].
  unfold to_i64, i64_try_from. destruct (Z.leb_spec version i64_max); cbn [ok_or]; [|by intros [= <- <-]].
  intros [= <- <-]. unfold required_u64 in Hc. apply ok_or_Ok in Hc. unfold u64_try_from in Hc.
  destruct (0 <=? qt_manifest_version row); [|done]. injection Hc as <-.
  apply checked_add_u64_Some in Hv as [-> _]. by exists row, q.
Qed.

Lemma fade_hidden id v db : files_ok (sporos_source_file db) ->
  hidden id v (sporos_source_file db) (sporos_source_file (fade id v db)).
Proof.
  intros [O1 O2]. cbn. set (t := sporos_source_file db) in *.
  set (g := fun row => if of_version id v row then set_available false row else row).
  assert (forall row, of_version id v (g row) = of_version id v row /\ sf_ordinal (g row) = sf_ordinal row /\
    sf_source_id (g row) = sf_source_id row /\ sf_manifest_version (g row) = sf_manifest_version row) as Hg
    by (intros row; unfold g; by destruct (of_version id v row) eqn:E; rewrite ?E).
  split; [split| |].
  - intros k row Hr. apply lookup_fmap_Some in Hr as (r & <- & Hr). destruct (Hg r) as (_ & -> & _). by eapply O1.
  - intros i j a b (a' & <- & Ha)%lookup_fmap_Some (b' & <- & Hb)%lookup_fmap_Some.
    destruct (Hg a') as (_ & -> & -> & ->), (Hg b') as (_ & -> & -> & ->). by eapply O2.
  - intros k row (r & <- & Hr)%lookup_fmap_Some. destruct (Hg r) as [E _]. unfold g in *.
    destruct (of_version id v r) eqn:Er; [done|congruence].
  - intros k row Hrow. split.
    + intros (r & <- & Hr)%lookup_fmap_Some. destruct (Hg r) as [E _]. rewrite E in Hrow.
      unfold g. by rewrite Hrow.
    + intros Hr. apply lookup_fmap_Some. exists row. split; [|done]. unfold g. by rewrite Hrow.
Qed.

(** Staging is out of sight of every other version. *)
Lemma hidden_manifest id v db db' other v' :
  files_ok (sporos_source_file db) -> hidden id v (sporos_source_file db) (sporos_source_file db') ->
  (other, v') <> (id, v) -> Decision.manifest_rows db' other v' = Decision.manifest_rows db other v'.
Proof.
  intros Hok [_ _ Ho] Hne. apply visible_rows_same; [|done]. intros [k row]. unfold visible. cbn.
  destruct (of_version other v' row) eqn:E; [|naive_solver]. rewrite Ho; [done|].
  apply of_version_spec in E as [<- <-]. apply not_true_iff_false. rewrite of_version_spec.
  intros [E1 E2]. by rewrite E1, E2 in Hne.
Qed.

(** Publishing shows the staged files, numbered from 0, in place of all others. *)
Lemma publish_spec id v files t0 db :
  staged id v t0 files db -> map fl_index files = seqZ 0 (Z.of_nat (length files)) ->
  let db' := publish id v (Z.of_nat (length files)) db in
  files_ok (sporos_source_file db') /\
  manifest db' id v = map (fun f => (fl_index f, fl_name f, fl_size f)) files /\
  (forall v', v' <> v -> manifest db' id v' = []) /\
  (forall other v', other <> id -> Decision.manifest_rows db' other v' = Decision.manifest_rows db other v').
Proof.
  intros [[[O1 O2] Hh _] Hholds] Hidx db'. set (n := Z.of_nat (length files)) in *.
  set (t := sporos_source_file db) in *.
  set (g := fun row => let row := if str_eqb (sf_source_id row) id then set_available false row else row in
    if of_version id v row && (sf_ordinal row <? n) then set_available true row else row).
  assert (sporos_source_file db' = g <$> t) as Ht.
  { cbn. fold t. rewrite <- map_fmap_compose. done. }
  assert (forall row, sf_source_id (g row) = sf_source_id row /\ sf_manifest_version (g row) = sf_manifest_version row
    /\ sf_ordinal (g row) = sf_ordinal row /\ entry (0, g row) = entry (0, row)) as Hg.
  { intros row. unfold g. destruct (str_eqb (sf_source_id row) id); cbn;
      by destruct (_ && _). }
  assert (forall row, sf_source_id row = id ->
    sf_available (g row) = of_version id v row && (sf_ordinal row <? n)) as Hav.
  { intros row <-. unfold g. rewrite str_eqb_refl. cbv zeta.
    change (of_version (sf_source_id row) v (set_available false row)) with (of_version (sf_source_id row) v row).
    change (sf_ordinal (set_available false row)) with (sf_ordinal row). by destruct (_ && _). }
  assert (files_ok (sporos_source_file db')) as Hok.
  { rewrite Ht. split.
    - intros k row (r & <- & Hr)%lookup_fmap_Some. destruct (Hg r) as (_ & _ & -> & _). by eapply O1.
    - intros i j a b (a' & <- & Ha)%lookup_fmap_Some (b' & <- & Hb)%lookup_fmap_Some.
      destruct (Hg a') as (-> & -> & -> & _), (Hg b') as (-> & -> & -> & _). by eapply O2. }
  split; [done|]. split; [|split].
  - apply manifest_known; [done| |].
    + rewrite map_map, length_map. exact Hidx.
    + intros e. split.
      * intros (f & -> & Hf)%list_elem_of_fmap. destruct (Hholds f Hf) as (k & row & Hk & Hv & Eo & Ep & Es).
        exists (k, g row). destruct (Hg row) as (G1 & G2 & G3 & G4). split.
        -- split; [cbn [fst snd]; by rewrite Ht, lookup_fmap, Hk|]. cbn [fst snd].
           split; [apply of_version_spec; rewrite G1, G2; by apply of_version_spec|].
           assert (sf_source_id row = id) by by apply of_version_spec in Hv as [].
           rewrite Hav, Hv by done. cbn. apply Z.ltb_lt.
           assert (fl_index f ∈ map fl_index files) as Hi by by apply list_elem_of_fmap_2.
           rewrite Hidx in Hi. apply elem_of_seqZ in Hi. lia.
        -- change (entry (k, g row)) with (entry (0, g row)). rewrite G4. unfold entry. cbn. congruence.
      * intros ([k row'] & (Hk & Hv & Ha) & ->). cbn [fst snd] in *. rewrite Ht in Hk.
        apply lookup_fmap_Some in Hk as (row & <- & Hk). destruct (Hg row) as (G1 & G2 & G3 & G4).
        assert (of_version id v row = true) as Hv'
          by (apply of_version_spec; rewrite <- G1, <- G2; by apply of_version_spec).
        assert (sf_source_id row = id) as Hid by by apply of_version_spec in Hv' as [].
        rewrite Hav, Hv' in Ha by done. cbn in Ha. apply Z.ltb_lt in Ha.
        pose proof (O1 k row Hk) as Hnn.
        assert (sf_ordinal row ∈ map fl_index files) as (f & Hf & Hin)%list_elem_of_fmap
          by (rewrite Hidx; apply elem_of_seqZ; lia).
        destruct (Hholds f Hin) as (k' & row' & Hk' & Hv2 & Eo & Ep & Es).
        assert (sf_source_id row' = id /\ sf_manifest_version row' = v) as [I1 I2] by by apply of_version_spec.
        assert (sf_manifest_version row = v) as I3 by by apply of_version_spec in Hv' as [].
        assert (k' = k) as -> by (eapply O2; [done|done|congruence..]).
        assert (row' = row) as -> by congruence.
        apply list_elem_of_fmap. exists f. split; [|done].
        change (entry (k, g row)) with (entry (0, g row)). rewrite G4. unfold entry. cbn. congruence.
  - intros v' Hne. unfold manifest. destruct (Decision.manifest_rows db' id v') as [|[k row'] l] eqn:E; [done|].
    exfalso. assert (visible id v' (sporos_source_file db') (k, row')) as (Hk & [V1 V2]%of_version_spec & Ha)
      by (apply visible_rows_elem; rewrite E; by left).
    cbn [fst snd] in *. rewrite Ht in Hk. apply lookup_fmap_Some in Hk as (row & <- & Hk).
    destruct (Hg row) as (G1 & G2 & _). rewrite G1 in V1. rewrite G2 in V2.
    rewrite Hav in Ha by done. apply andb_true_iff in Ha as [[_ Hv]%of_version_spec _]. congruence.
  - intros other v' Hne. apply visible_rows_same; [|by split]. intros [k row']. unfold visible. cbn [fst snd].
    rewrite Ht, lookup_fmap_Some.
    assert (forall row, sf_source_id row = other -> g row = row) as Hsame.
    { intros row Hrow. unfold g. destruct (str_eqb _ _) eqn:E; [apply str_eqb_spec in E; congruence|].
      destruct (of_version id v row) eqn:Ev; [|done]. apply of_version_spec in Ev as [? _]. congruence. }
    split.
    + intros ((row & <- & Hk) & [V1 V2]%of_version_spec & Ha). destruct (Hg row) as (G1 & G2 & _).
      rewrite G1 in V1. rewrite Hsame in * by done. split; [done|]. split; [|done]. by apply of_version_spec.
    + intros (Hk & Hv & Ha). split; [|done]. exists row'. split; [|done]. apply Hsame.
      by apply of_version_spec in Hv as [].
Qed.

(** ** Loading a manifest *)

Section Publish.
Context `{QbitClient}.

Lemma update_torrent_again id f g t db :
  update_torrent id f (with_files (fun _ => t) (update_torrent id g db))
  = with_files (fun _ => t) (update_torrent id (f ∘ g) db).
Proof.
  unfold with_files, update_torrent, with_torrents. cbn. by rewrite alter_alter_eq.
Qed.

Lemma with_files_again t t' db : with_files (fun _ => t) (with_files (fun _ => t') db) = with_files (fun _ => t) db.
Proof. done. Qed.

Lemma publish_tables id v n db :
  publish id v n db = with_files (fun _ => sporos_source_file (publish id v n db)) (update_torrent id (loaded v) db).
Proof. by destruct db. Qed.

(** Between the preparation and the publication only the files of the table change. *)
Definition staging (id : str) (v : Z) (db db' : Library) : Prop :=
  hidden id v (sporos_source_file db) (sporos_source_file db') /\
  db' = with_files (fun _ => sporos_source_file db') (update_torrent id (with_manifest_state (lit "loading")) db).

Lemma staging_moves id v db db1 db2 :
  staging id v db db1 -> moves id v (sporos_source_file db) db1 db2 -> staging id v db db2.
Proof. intros [H1 E1] [E2 H2]. split; [auto|]. rewrite E2, E1. by destruct db. Qed.

Lemma load_inner_spec self id db db' r :
  files_ok (sporos_source_file db) -> load_manifest_inner self id db = (db', r) ->
  match r with
  | Ok n => exists row q body db1, sporos_qbit_torrent db !! id = Some row /\ qt_qbit_id row = Some q /\
      torrent_files q = Ok body /\ ending body = Ok tt /\ n = Z.of_nat (length (items body)) /\
      map fl_index (items body) = seqZ 0 n /\
      let v := qt_manifest_version row + 1 in
      staging id v db db1 /\ staged id v (sporos_source_file db) (items body) db1 /\ db' = publish id v n db1
  | Err _ => db' = db \/ exists row, sporos_qbit_torrent db !! id = Some row /\
      staging id (qt_manifest_version row + 1) db db'
  end.
Proof.
  intros Hok. unfold load_manifest_inner, mbind, M_bind, store.
  destruct (prepare_qbit_manifest id db) as [db0 [target|e]] eqn:Hp; apply prepare_spec in Hp; cbn [map_err].
  2: { intros [= <- <-]. by left. }
  destruct Hp as (row & q & Hrow & Hq & -> & Hv & ->). set (v := qt_manifest_version row + 1) in *.
  assert (staging id v db (fade id v db)) as Hst by (split; [by apply fade_hidden|by destruct db]).
  cbn [tg_qbit_id tg_source_id tg_version]. unfold liftr.
  destruct (torrent_files q) as [body|e] eqn:Hbody; cbn [map_err].
  2: { intros [= <- <-]. right. by exists row. }
  destruct (parse_files MAX_FILES_PER_TORRENT send body []) as [files parsed] eqn:Hparse.
  apply parse_files_sent in Hparse.
  destruct (receive_staged (database_batch_size self) (mkManifestTarget id q v) (sporos_source_file db)
    files [] [] 0 eq_refl ltac:(lia) (fade id v db)) as [HR HQ].
  { split; [by apply fade_hidden|]. intros f Hf. by apply elem_of_nil in Hf. }
  cbn [tg_source_id tg_version] in HR, HQ.
  destruct (receive_files _ _ _ _ _ _) as [db2 [[batch count]|e]]; cbn [fst snd] in *.
  2: { intros [= <- <-]. right. exists row. split; [done|]. by eapply staging_moves. }
  destruct HQ as (before & Hbefore & Happ & Hidx & ->). cbn [app length] in *.
  assert (staging id v db db2) as Hst2 by by eapply staging_moves.
  assert (exists db3, (if bool_decide (batch = []) then mret () else store (project_qbit_files (mkManifestTarget id q v) batch)
      : M Library SyncError ()) db2 = db3 /\ staging id v db db3.1 /\
      match db3.2 with Ok _ => staged id v (sporos_source_file db) files db3.1 | Err _ => True end) as (db3 & E3 & Hst3 & Hs3).
  { case_bool_decide as Hb.
    - exists (db2, Ok ()). split; [done|]. split; [done|]. cbn. subst batch. rewrite app_nil_r in Happ. by subst before.
    - assert (NoDup (map fl_index (before ++ batch))) as Hnd by (rewrite Hidx; apply NoDup_seqZ).
      destruct (hoare_store _ _ _ _ (stage_batch (mkManifestTarget id q v) (sporos_source_file db) batch before Hnd)
        db2 Hbefore) as [HR3 HQ3].
      eexists. split; [reflexivity|]. split; [by eapply staging_moves|]. destruct (_.2); [|done].
      by rewrite Happ in HQ3. }
  unfold store in E3. rewrite E3. destruct db3 as [db3 [[]|e]]; cbn [fst snd] in *.
  2: { intros [= <- <-]. right. by exists row. }
  destruct parsed as [n|e]; cbn [map_err].
  2: { intros [= <- <-]. right. by exists row. }
  destruct Hparse as (-> & -> & Hend). rewrite Z.add_0_l, Z.eqb_refl. cbn [negb].
  rewrite Happ, Z.add_0_l in Hidx.
  unfold finish_qbit_manifest, mbind, M_bind, liftr, to_i64, i64_try_from. cbn [tg_version tg_source_id].
  destruct (v <=? i64_max); cbn [ok_or map_err]; [|intros [= <- <-]; right; by exists row].
  destruct (_ <=? i64_max); cbn [ok_or map_err]; [|intros [= <- <-]; right; by exists row].
  intros [= <- <-]. exists row, q, body, db3. done.
Qed.

(** C11: The files of a torrent are replaced as a whole.  When loading a manifest
    succeeds, the decisions see under its new version exactly the files that
    qBittorrent reported, numbered from 0, and none of its earlier versions; when it
    fails, because of the client, of the answer or of a file out of order, the torrent
    is marked stale and every version that could be in use reads as before.  Either way
    the files of other sources read as before, nothing but the files and the torrent's
    manifest changes, and the table stays consistent. *)
Theorem load_manifest_publishes self id row db db' r :
  files_ok (sporos_source_file db) -> sporos_qbit_torrent db !! id = Some row ->
  load_manifest self id db = (db', r) ->
  files_ok (sporos_source_file db') /\
  (forall other v, other <> id -> Decision.manifest_rows db' other v = Decision.manifest_rows db other v) /\
  match r with
  | Ok n =>
      let v := qt_manifest_version row + 1 in
      exists q body, qt_qbit_id row = Some q /\ torrent_files q = Ok body /\ ending body = Ok tt /\
        n = Z.of_nat (length (items body)) /\ map fl_index (items body) = seqZ 0 n /\
        manifest db' id v = map (fun f => (fl_index f, fl_name f, fl_size f)) (items body) /\
        (forall old, old <> v -> manifest db' id old = []) /\
        db' = with_files (fun _ => sporos_source_file db') (update_torrent id (loaded v) db)
  | Err _ =>
      (forall v, v <= qt_manifest_version row -> Decision.manifest_rows db' id v = Decision.manifest_rows db id v) /\
      db' = with_files (fun _ => sporos_source_file db') (update_torrent id (with_manifest_state (lit "stale")) db)
  end.
Proof.
  intros Hok Hrow. unfold load_manifest.
  destruct (load_manifest_inner self id db) as [db1 r1] eqn:Hi. apply load_inner_spec in Hi; [|done].
  destruct r1 as [n|e].
  - intros [= <- <-]. destruct Hi as (row' & q & body & db2 & Hrow' & Hq & Hb & He & -> & Hidx & Hst & Hs & ->).
    assert (row' = row) as -> by congruence. set (v := qt_manifest_version row + 1) in *.
    destruct (publish_spec _ _ _ _ _ Hs Hidx) as (Hok' & Hm & Hold & Hoth).
    split; [done|]. split.
    { intros other v' Hne. rewrite Hoth by done. destruct Hst as [Hh _].
      eapply hidden_manifest; [done..|congruence]. }
    exists q, body. do 7 (split; [done|]). destruct Hst as [_ E]. etrans; [apply publish_tables|].
    assert (update_torrent id (loaded v) db2
      = with_files (fun _ => sporos_source_file db2) (update_torrent id (loaded v) db)) as ->; [|done].
    etrans; [exact (f_equal _ E)|]. apply update_torrent_again.
  - unfold store, fail_qbit_manifest. cbn [map_err]. intros [= <- <-].
    destruct Hi as [->|(row' & Hrow' & [Hh E])].
    + split; [done|]. split; [done|]. split; [done|]. by destruct db.
    + assert (row' = row) as -> by congruence. pose proof (hd_ok _ _ _ _ Hh) as Hok'.
      split; [done|]. split; [|split].
      * intros other v Hne. change (Decision.manifest_rows db1 other v = Decision.manifest_rows db other v).
        eapply hidden_manifest; [done..|congruence].
      * intros v Hle. change (Decision.manifest_rows db1 id v = Decision.manifest_rows db id v).
        eapply hidden_manifest; [done..|]. intros [= ->]. lia.
      * etrans; [exact (f_equal _ E)|]. apply update_torrent_again.
Qed.
End Publish.

Module Sample.

(** A torrent of two files, loaded one file at a time. *)
Definition files : list InventoryFile :=
  [mkInventoryFile 0 (lit "film/a.mkv") 3 f64_one; mkInventoryFile 1 (lit "film/a.srt") 1 f64_one].

#[local] Instance client : QbitClient := {|
  QbittorrentError := ();
  sync_main_data _ := Err tt;
  inventory_page _ _ := Err tt;
  torrent_files q := if str_eqb q (lit "aa") then Ok (mkStream files (Ok tt)) else Err tt |}.

Definition self : InventorySynchronizer := mkSynchronizer 10 1.
Definition db : Library := Completion.Sample.db.
Definition loaded_db : Library := (load_manifest self (lit "source") db).1.

Lemma load_manifest_publishes_witness :
  manifest loaded_db (lit "source") 1 = [(0, lit "film/a.mkv", 3); (1, lit "film/a.srt", 1)] /\
  files_ok (sporos_source_file loaded_db).
Proof.
  assert (load_manifest self (lit "source") db = (loaded_db, Ok 2)) as Hl
    by (rewrite (surjective_pairing (load_manifest _ _ db)); apply (f_equal2 pair eq_refl); vm_compute; reflexivity).
  assert (files_ok (sporos_source_file db)) as Hok by (split; intros; discriminate).
  destruct (load_manifest_publishes self (lit "source") Completion.Sample.torrent db loaded_db (Ok 2) Hok
    eq_refl Hl) as (Hok' & _ & q & body & Hq & Hb & _ & _ & _ & Hm & _).
  split; [|exact Hok']. injection Hq as <-. vm_compute in Hb. injection Hb as <-. exact Hm.
Defined.

End Sample.
