(* ===== verification/SyncProofs.v ===== *)
(** The synchronisation of the inventory (QbitProjection.v, QbitSync.v): what a response
    makes of each torrent, that the library then mirrors qBittorrent, and that every
    completed download is recorded, once.

    A torrent's row is looked at on its own ([row_of]): a change of one torrent does not
    touch the row of another, so the effect of a response on a torrent is the fold of
    its own changes ([evolve]), however they are batched. *)

From S2P Require Import Prelude Text Float Model Store Duroxide Library QbitInventory QbitProjection QbitSync.
From S2P Require Release Facts Completion Pieces Candidate Decision Matcher Codec.
From stdpp Require Import strings.
Local Open Scope Z_scope.

#[local] Existing Instance Completion.keeps_preorder.

Section Rows.
Context `{Unicode} `{Digest} `{CandidateCodec} `{Completion.CompletionCodec}.

(** ** The row of a torrent *)

(** Rows are stored under the identity of their torrent. *)
Definition ids_ok (t : gmap str QbitRow) : Prop :=
  forall id row q, t !! id = Some row -> qt_qbit_id row = Some q -> id = source_id q.

Definition row_of (q : str) (t : gmap str QbitRow) : option QbitRow := snd <$> by_qbit_id q t.

Lemma by_qbit_id_Some q t id row : by_qbit_id q t = Some (id, row) ->
  t !! id = Some row /\ qt_qbit_id row = Some q.
Proof.
  unfold by_qbit_id. intros Hh.
  assert ((id, row) ∈ filter (fun p : str * QbitRow => qt_qbit_id p.2 = Some q) (map_to_list t)) as Hin.
  { destruct (filter _ _) as [|p l]; [done|]. injection Hh as ->. by left. }
  apply list_elem_of_filter in Hin as [Hq Hin%elem_of_map_to_list]. done.
Qed.

Lemma by_qbit_id_None q t id row : by_qbit_id q t = None -> t !! id = Some row -> qt_qbit_id row <> Some q.
Proof.
  unfold by_qbit_id. intros Hh Hrow Hq.
  assert ((id, row) ∈ filter (fun p : str * QbitRow => qt_qbit_id p.2 = Some q) (map_to_list t)) as Hin
    by (apply list_elem_of_filter; split; [done|by apply elem_of_map_to_list]).
  destruct (filter _ _); [by apply elem_of_nil in Hin|done].
Qed.

Lemma row_of_Some q t row : ids_ok t ->
  row_of q t = Some row <-> t !! source_id q = Some row /\ qt_qbit_id row = Some q.
Proof.
  intros Hids. unfold row_of. destruct (by_qbit_id q t) as [[id r]|] eqn:Hb; cbn.
  - apply by_qbit_id_Some in Hb as [Hr Hq]. rewrite <- (Hids _ _ _ Hr Hq). naive_solver.
  - split; [done|]. intros [Hr Hq]. by destruct (by_qbit_id_None _ _ _ _ Hb Hr).
Qed.

Lemma by_qbit_id_ids q t : ids_ok t -> by_qbit_id q t = pair (source_id q) <$> row_of q t.
Proof.
  intros Hids. unfold row_of. destruct (by_qbit_id q t) as [[id r]|] eqn:Hb; [|done]. cbn.
  apply by_qbit_id_Some in Hb as [Hr Hq]. by rewrite (Hids _ _ _ Hr Hq).
Qed.

(** A row put under the identity of its torrent is that torrent's row, and no other's. *)
Lemma row_of_insert q t row :
  ids_ok t -> qt_qbit_id row = Some q ->
  (row_of q t = None -> t !! source_id q = None) ->
  let t' := <[source_id q := row]> t in
  ids_ok t' /\ row_of q t' = Some row /\ forall q', q' <> q -> row_of q' t' = row_of q' t.
Proof.
  intros Hids Hq Hfree t'. assert (ids_ok t') as Hids'.
  { intros id r q' [[<- <-]|[_ Hr]]%lookup_insert_Some Hq'; [congruence|by eapply Hids]. }
  split; [done|]. split; [apply row_of_Some; [done|]; unfold t'; by rewrite lookup_insert_eq|].
  intros q' Hne. apply option_eq. intros r. rewrite !row_of_Some by done. unfold t'.
  destruct (decide (source_id q' = source_id q)) as [Heq|Hd].
  - rewrite Heq, lookup_insert_eq. split; [intros [[= ->] ?]; congruence|]. intros [Hr Hq'].
    destruct (row_of q t) as [r0|] eqn:E; [|rewrite Hfree in Hr; done].
    apply row_of_Some in E as [E1 E2]; [congruence|done].
  - rewrite lookup_insert_ne by done. done.
Qed.

(** An update of the rows that keeps their names. *)
Lemma row_of_fmap q t f : ids_ok t -> (forall row, qt_qbit_id (f row) = qt_qbit_id row) ->
  ids_ok (f <$> t) /\ row_of q (f <$> t) = f <$> row_of q t.
Proof.
  intros Hids Hf. assert (ids_ok (f <$> t)) as Hids'.
  { intros id r q' (r0 & <- & Hr)%lookup_fmap_Some Hq. rewrite Hf in Hq. by eapply Hids. }
  split; [done|]. apply option_eq. intros r. rewrite row_of_Some, lookup_fmap_Some, fmap_Some by done. split.
  - intros [(r0 & <- & Hr) Hq]. rewrite Hf in Hq. exists r0. by rewrite row_of_Some.
  - intros (r0 & [Hr Hq]%row_of_Some & ->); [|done]. rewrite Hf. eauto.
Qed.

(** ** What a change makes of a row *)

Record merged (ex : option QbitRow) (q : str) (d : InventoryDelta) (g : Z) (detect : bool) (now : Z)
    (row : QbitRow) (became needed : bool) : Prop := {
  mg_id : qt_qbit_id row = Some q;
  mg_available : qt_available row = true;
  mg_generation : qt_generation row = g;
  mg_v1 : exists v1, optional_hash (d_infohash_v1 d) 20 "infohash_v1" = Ok v1 /\
            qt_v1_hash row = or_else v1 (ex ≫= qt_v1_hash);
  mg_v2 : exists v2, optional_hash (d_infohash_v2 d) 32 "infohash_v2" = Ok v2 /\
            qt_v2_hash row = or_else v2 (ex ≫= qt_v2_hash);
  mg_name : or_else (d_name d) (qt_name <$> ex) = Some (qt_name row);
  mg_total_size : or_else (d_total_size d) (qt_total_size <$> ex) = Some (qt_total_size row);
  mg_amount_left : or_else (d_amount_left d) (qt_amount_left <$> ex) = Some (qt_amount_left row);
  mg_progress : match d_progress d with
                | Some value => progress_ppm value = Ok (qt_progress_ppm row)
                | None => qt_progress_ppm <$> ex = Some (qt_progress_ppm row)
                end;
  mg_state : or_else (d_state d) (qt_state <$> ex) = Some (qt_state row);
  mg_save_path : or_else (d_save_path d) (qt_save_path <$> ex) = Some (qt_save_path row);
  mg_content_path : or_else (d_content_path d) (qt_content_path <$> ex) = Some (qt_content_path row);
  mg_category : or_else (d_category d) (qt_category <$> ex) = Some (qt_category row);
  mg_tags : or_else (tags_of <$> d_tags d) (qt_tags <$> ex) = Some (qt_tags row);
  mg_complete : qt_is_complete row = complete (qt_amount_left row) (qt_progress_ppm row) (qt_state row);
  mg_completed_at : qt_is_complete row = true -> is_Some (qt_completed_at row);
  mg_release : qt_release_json row = Some (encode_release (Release.parse_release (qt_name row)));
  mg_became : became = detect && bool_decide (is_Some ex) && negb (default false (qt_is_complete <$> ex))
                       && qt_is_complete row }.

Lemma integer_Ok v ex f z : integer v ex f = Ok z -> or_else v ex = Some z.
Proof.
  unfold integer, to_i64, i64_try_from. destruct v as [v|]; [|by intros ->%ok_or_Ok].
  destruct (v <=? i64_max); cbn; [by intros [= ->]|done].
Qed.

Lemma merge_Ok ex q d g detect now row became needed :
  merge_row ex q d g detect now = Ok (row, became, needed) -> merged ex q d g detect now row became needed.
Proof.
  unfold merge_row. intros (v1 & Hv1 & Hm)%bind_Ok. apply bind_Ok in Hm as (v2 & Hv2 & Hm).
  apply bind_Ok in Hm as (? & _ & Hm). apply bind_Ok in Hm as (name & Hname%ok_or_Ok & Hm).
  apply bind_Ok in Hm as (ts & Hts%integer_Ok & Hm). apply bind_Ok in Hm as (al & Hal%integer_Ok & Hm).
  apply bind_Ok in Hm as (pr & Hpr & Hm). apply bind_Ok in Hm as (ppm & Hppm%ok_or_Ok & Hm).
  apply bind_Ok in Hm as (st & Hst%ok_or_Ok & Hm). apply bind_Ok in Hm as (sp & Hsp%ok_or_Ok & Hm).
  apply bind_Ok in Hm as (cp & Hcp%ok_or_Ok & Hm). apply bind_Ok in Hm as (ca & Hca%ok_or_Ok & Hm).
  apply bind_Ok in Hm as (tg & Htg%ok_or_Ok & [= <- <- <-]).
  split; try done; cbn.
  - by exists v1.
  - by exists v2.
  - destruct (d_progress d) as [v|].
    + destruct (progress_ppm v) as [p|]; [|done]. injection Hpr as <-. by injection Hppm as ->.
    + by injection Hpr as <-.
  - intros ->. destruct (or_else (positive_time _) _); by eexists.
Qed.

(** ** Projecting one torrent *)

(** What a projection leaves alone, or only adds to. *)
Record projects (db db' : Library) : Prop := {
  pj_state : sporos_qbit_inventory_state db' = sporos_qbit_inventory_state db;
  pj_files : sporos_source_file db' = sporos_source_file db;
  pj_data : sporos_data_source db' = sporos_data_source db;
  pj_tasks : Completion.keeps (tasks db) (tasks db');
  pj_ids : ids_ok (sporos_qbit_torrent db) -> ids_ok (sporos_qbit_torrent db');
  pj_rows : ids_ok (sporos_qbit_torrent db) -> forall q,
    is_Some (row_of q (sporos_qbit_torrent db)) -> is_Some (row_of q (sporos_qbit_torrent db')) }.

#[export] Instance projects_preorder : PreOrder projects.
Proof.
  split; [by split|]. intros a b c [A1 A2 A3 A4 A5 A6] [B1 B2 B3 B4 B5 B6]. split; try congruence.
  - by etrans.
  - auto.
  - auto.
Qed.

Definition completions (db : Library) := sporos_qbit_completion (tasks db).

(** The decisions find the torrent by the facts of its name. *)
Definition indexed (q : str) (db : Library) : Prop :=
  forall row titles ids, row_of q (sporos_qbit_torrent db) = Some row ->
    (Decision.plausible db (lit "qbittorrent") titles ids (source_id q) = true <->
     (exists title, title ∈ titles /\ title ∈ Facts.fact_titles (Release.parse_release (qt_name row))) \/
     (exists x, x ∈ ids /\ x ∈ Facts.fact_ids (Release.parse_release (qt_name row)))).

(** What is reported of a torrent that became complete, or did not. *)
Definition reported (became : bool) (q : str) (row : QbitRow) (db db' : Library)
    (completion : option CompletionTransition) : Prop :=
  if became then exists completed_at, qt_completed_at row = Some completed_at /\
      Completion.recorded (source_id q) completed_at (tasks db') /\
      (forall key, key <> (source_id q, completed_at) -> completions db' !! key = completions db !! key) /\
      completion = (if bool_decide (is_Some (completions db !! (source_id q, completed_at))) then None
        else Some (mkCompletionTransition (source_id q) completed_at
                     (Completion.operation_id (source_id q) completed_at)
                     (Completion.completion_task_id (source_id q) completed_at)))
  else tasks db' = tasks db /\ completion = None.

Lemma accept_completion_Ok id at_ now db db' c :
  accept_completion id at_ now db = (db', Ok c) ->
  exists t, db' = with_tasks t db /\ Completion.keeps (tasks db) t /\ Completion.recorded id at_ t /\
    (forall key, key <> (id, at_) -> sporos_qbit_completion t !! key = completions db !! key) /\
    c = (if bool_decide (is_Some (completions db !! (id, at_))) then None
         else Some (mkCompletionTransition id at_ (Completion.operation_id id at_)
                      (Completion.completion_task_id id at_))).
Proof.
  unfold accept_completion. destruct (Completion.accept id at_ now db) as [d r] eqn:Ha. intros [= <- Hc].
  apply bind_Ok in Hc as (a & Hr & [= <-]). destruct r as [a'|]; [|done]. injection Hr as ->.
  apply Completion.completion_accept_Ok in Ha as (t & -> & K & R & _ & -> & Hkeys). cbn.
  exists t. repeat (split; [done|]). by destruct (bool_decide _).
Qed.

Lemma upsert_torrent_Ok ex q row db db' :
  ids_ok (sporos_qbit_torrent db) -> qt_qbit_id row = Some q ->
  by_qbit_id q (sporos_qbit_torrent db) = ex ->
  upsert_torrent (fst <$> ex) (source_id q) row db = (db', Ok tt) ->
  db' = with_torrents (<[source_id q := row]> (sporos_qbit_torrent db)) db /\
  (row_of q (sporos_qbit_torrent db) = None -> sporos_qbit_torrent db !! source_id q = None).
Proof.
  intros Hids Hq Hex. rewrite by_qbit_id_ids in Hex by done. unfold upsert_torrent.
  destruct (row_of q _) as [r|] eqn:Hr; cbn in Hex; subst ex; cbn.
  - destruct (torrent_valid _ _); [|done]. intros [= <-]. done.
  - case_bool_decide as Hn; [|done]. cbn. destruct (torrent_valid _ _); [|done]. intros [= <-]. done.
Qed.

Lemma project_torrent_Ok q d g detect now db db' out :
  ids_ok (sporos_qbit_torrent db) ->
  project_torrent q d g detect now db = (db', Ok out) ->
  exists row became needed,
    merge_row (row_of q (sporos_qbit_torrent db)) q d g detect now = Ok (row, became, needed) /\
    projects db db' /\ row_of q (sporos_qbit_torrent db') = Some row /\
    (forall q', q' <> q -> row_of q' (sporos_qbit_torrent db') = row_of q' (sporos_qbit_torrent db)) /\
    indexed q db' /\ (forall q', q' <> q -> indexed q' db -> indexed q' db') /\
    to_source_id out = source_id q /\ reported became q row db db' (to_completion out).
Proof.
  intros Hids. unfold project_torrent. intros (d0 & ex & [= <- Hex] & Hp)%M_bind_Ok.
  apply M_bind_Ok in Hp as (d0 & [[row became] needed] & [= <- Hm] & Hp).
  apply M_bind_Ok in Hp as (d1 & [] & Hu & Hp). apply M_bind_Ok in Hp as (d2 & [] & Hf & Hp).
  apply M_bind_Ok in Hp as (d3 & c & Hc & [= <- <-]).
  assert (snd <$> ex = row_of q (sporos_qbit_torrent db)) as Hexrow by (by rewrite <- Hex).
  rewrite Hexrow in Hm. exists row, became, needed. split; [done|].
  pose proof (merge_Ok _ _ _ _ _ _ _ _ _ Hm) as Hmg.
  apply (upsert_torrent_Ok _ q) in Hu as [-> Hfree]; [|done|apply Hmg|done].
  destruct (row_of_insert q (sporos_qbit_torrent db) row Hids ltac:(apply Hmg) Hfree) as (Hids' & Hrow & Hoth).
  unfold replace_facts in Hf. injection Hf as <-.
  set (dr := with_torrents (<[source_id q := row]> (sporos_qbit_torrent db)) db) in *.
  set (df := with_inventory _ dr) in *.
  pose proof (Facts.replace_spec (source_id q) (lit "qbittorrent") (Release.parse_release (qt_name row)) (inventory dr))
    as (F1 & F2 & F3 & F4 & F5 & F6).
  assert (sporos_qbit_torrent df = <[source_id q := row]> (sporos_qbit_torrent db)) as Ht by exact F1.
  assert (forall q', is_Some (row_of q' (sporos_qbit_torrent db)) -> is_Some (row_of q' (sporos_qbit_torrent df)))
    as Hrows.
  { intros q' Hq'. rewrite Ht. destruct (decide (q' = q)) as [->|Hne]; [by rewrite Hrow|by rewrite Hoth]. }
  assert (exists t, d3 = with_tasks t df /\ Completion.keeps (tasks db) t /\
            reported became q row db (with_tasks t df) c) as (t & -> & Hk & Hrep).
  { destruct became.
    - destruct (qt_completed_at row) as [at_|] eqn:Hat.
      + apply accept_completion_Ok in Hc as (t & -> & K & R & Hkeys & ->). exists t. split; [done|].
        split; [done|]. by exists at_.
      + exfalso. destruct Hmg as [_ _ _ _ _ _ _ _ _ _ _ _ _ _ _ Hca _ Hb]. symmetry in Hb.
        rewrite !andb_true_iff in Hb. destruct (Hca (proj2 Hb)) as [? ?]. congruence.
    - assert (d3 = df /\ c = None) as [-> ->] by (destruct (qt_completed_at row); by injection Hc as <- <-).
      exists (tasks df). split; [by rewrite with_tasks_id|]. split; [done|]. split; done. }
  split.
  { split; [exact F2|exact F4|exact F3|exact Hk| |intros _; exact Hrows].
    intros _. change (ids_ok (sporos_qbit_torrent df)). by rewrite Ht. }
  change (sporos_qbit_torrent (with_tasks t df)) with (sporos_qbit_torrent df). rewrite Ht.
  split; [done|]. split; [done|]. unfold indexed.
  change (sporos_qbit_torrent (with_tasks t df)) with (sporos_qbit_torrent df). rewrite Ht.
  split; [|split; [|done]].
  - intros row' titles ids Hrow'. rewrite Hrow in Hrow'. injection Hrow' as <-.
    exact (Facts.plausible_replaced dr (source_id q) (lit "qbittorrent") (Release.parse_release (qt_name row)) titles ids).
  - intros q' Hne Hi row' titles ids Hrow'.
    assert (row_of q' (sporos_qbit_torrent db) = Some row') as Hold by (by rewrite <- Hoth).
    apply row_of_Some in Hrow' as [R1 R2]; [|done].
    assert (source_id q' <> source_id q) as Hid.
    { intros E. rewrite E, lookup_insert_eq in R1. injection R1 as <-.
      pose proof (mg_id _ _ _ _ _ _ _ _ _ Hmg). congruence. }
    rewrite <- (Hi row' titles ids Hold).
    change (Decision.plausible df (lit "qbittorrent") titles ids (source_id q') = true <->
            Decision.plausible dr (lit "qbittorrent") titles ids (source_id q') = true).
    unfold df. by rewrite Facts.plausible_others by congruence.
Qed.

(** ** Projecting a list of changes *)

(** The changes of one torrent, folded over its row. *)
Fixpoint evolve (q : str) (g : Z) (detect : bool) (now : Z) (changes : list InventoryChange)
    (r : option QbitRow) : result ProjectionError (option QbitRow) :=
  match changes with
  | [] => Ok r
  | Upsert q' d :: changes =>
      if bool_decide (q' = q) then
        '(row, _, _) ← merge_row r q d g detect now;
        evolve q g detect now changes (Some row)
      else evolve q g detect now changes r
  | Removed q' :: changes =>
      evolve q g detect now changes (if bool_decide (q' = q) then absent now <$> r else r)
  end.

Lemma evolve_app q g detect now l1 l2 r :
  evolve q g detect now (l1 ++ l2) r = (r ← evolve q g detect now l1 r; evolve q g detect now l2 r).
Proof.
  revert r. induction l1 as [|[q' d|q'] l1 IH]; intros r; cbn; [done| |apply IH].
  case_bool_decide; [|apply IH]. destruct (merge_row _ _ _ _ _ _) as [[[row ?] ?]|e]; [apply IH|done].
Qed.

Definition key_of (c : CompletionTransition) : str * Z := (ct_source_id c, ct_completed_at c).

(** The completions reported between two states are those recorded in between, and no
    torrent became complete unnoticed. *)
Record detects (detect : bool) (db db' : Library) (cs : list CompletionTransition) : Prop := {
  dt_once : NoDup (map key_of cs);
  dt_new : forall c, c ∈ cs -> completions db !! key_of c = None /\
    Completion.recorded (ct_source_id c) (ct_completed_at c) (tasks db') /\
    ct_operation_id c = Completion.operation_id (ct_source_id c) (ct_completed_at c) /\
    ct_task_id c = Completion.completion_task_id (ct_source_id c) (ct_completed_at c);
  dt_all : forall key, completions db !! key = None -> is_Some (completions db' !! key) -> key ∈ map key_of cs;
  dt_noticed : detect = true -> forall q r r', row_of q (sporos_qbit_torrent db) = Some r -> qt_is_complete r = false ->
    row_of q (sporos_qbit_torrent db') = Some r' -> qt_is_complete r' = true ->
    exists completed_at, Completion.recorded (source_id q) completed_at (tasks db');
  dt_silent : detect = false -> tasks db' = tasks db /\ cs = [] }.

Lemma detects_refl detect db : detects detect db db [].
Proof.
  split; cbn; [constructor|by intros c Hc%elem_of_nil| | |done].
  - intros key X3 [x X4]. congruence.
  - intros _ q r r' X3 X4 X5 X6. congruence.
Qed.

Lemma detects_trans detect db db1 db2 cs1 cs2 :
  ids_ok (sporos_qbit_torrent db) -> projects db db1 -> projects db1 db2 ->
  detects detect db db1 cs1 -> detects detect db1 db2 cs2 -> detects detect db db2 (cs1 ++ cs2).
Proof.
  intros Hids P1 P2 [O1 N1 A1 T1 S1] [O2 N2 A2 T2 S2].
  pose proof (Completion.kp_completion _ _ (pj_tasks _ _ P1)) as K1.
  split.
  - rewrite map_app. apply NoDup_app. split; [done|]. split; [|done].
    intros key (c & -> & Hc)%list_elem_of_fmap (c' & Heq & Hc')%list_elem_of_fmap.
    destruct (N1 c Hc) as (_ & R1 & _). destruct (N2 c' Hc') as (X4 & _). rewrite <- Heq in X4.
    destruct (Completion.rd_completion _ _ _ R1) as [? Hx]. unfold completions, key_of in X4. congruence.
  - intros c [Hc|Hc]%elem_of_app.
    + destruct (N1 c Hc) as (X3 & R1 & E). split; [done|]. split; [|done].
      eapply Completion.keeps_recorded; [apply P2|done].
    + destruct (N2 c Hc) as (X4 & R2 & E). split; [|done]. destruct (completions db !! key_of c) eqn:E0; [|done].
      unfold completions in E0. eapply lookup_weaken in E0; [|exact K1]. unfold completions in X4. congruence.
  - intros key X0 X2. rewrite map_app. apply elem_of_app.
    destruct (completions db1 !! key) eqn:E1; [left; apply A1; [done|by rewrite E1]|right; by apply A2].
  - intros Hd q r r' Hr Hc Hr' Hc'.
    destruct (pj_rows _ _ P1 Hids q ltac:(by rewrite Hr)) as [r1 Hr1].
    destruct (qt_is_complete r1) eqn:E1.
    + destruct (T1 Hd q r r1 Hr Hc Hr1 E1) as [at_ R1]. exists at_. eapply Completion.keeps_recorded; [apply P2|done].
    + by eapply (T2 Hd q r1 r').
  - intros Hd. destruct (S1 Hd) as [E1 ->], (S2 Hd) as [E2 ->]. split; [congruence|done].
Qed.

Lemma project_torrent_detects q d g detect now db db' out :
  ids_ok (sporos_qbit_torrent db) -> project_torrent q d g detect now db = (db', Ok out) ->
  detects detect db db' (option_list (to_completion out)).
Proof.
  intros Hids Hp. apply project_torrent_Ok in Hp as (row & became & needed & Hm & P & Hrow & Hoth & _ & _ & _ & Hrep);
    [|done].
  pose proof (merge_Ok _ _ _ _ _ _ _ _ _ Hm) as Hmg. pose proof (mg_became _ _ _ _ _ _ _ _ _ Hmg) as Hb.
  unfold reported in Hrep. destruct became.
  - destruct Hrep as (at_ & Hat & R & Hkeys & Hc). symmetry in Hb. rewrite !andb_true_iff in Hb.
    destruct Hb as [[[-> _] _] Hcomp]. split; [| | | |done].
    + rewrite Hc. case_bool_decide; cbn; [constructor|apply NoDup_singleton].
    + rewrite Hc. case_bool_decide as Hn; cbn; [by intros c Hx%elem_of_nil|].
      intros c ->%list_elem_of_singleton. split; [|done]. change (completions db !! (source_id q, at_) = None).
      destruct (completions db !! (source_id q, at_)); [destruct Hn; by eexists|done].
    + intros key X0 X1. rewrite Hc. destruct (decide (key = (source_id q, at_))) as [->|Hne].
      * rewrite bool_decide_false; [by left|]. rewrite X0. by intros [].
      * rewrite Hkeys, X0 in X1 by done. by destruct X1.
    + intros _ q' r r' Hr Hcr Hr' Hcr'. destruct (decide (q' = q)) as [->|Hne]; [by exists at_|].
      rewrite Hoth in Hr' by done. congruence.
  - destruct Hrep as [Ht ->]. cbn. split; [constructor|by intros c Hc%elem_of_nil| | |done].
    + intros key X0 [x X1]. unfold completions in *. rewrite Ht in X1. congruence.
    + intros -> q' r r' Hr Hcr Hr' Hcr'. exfalso. destruct (decide (q' = q)) as [->|Hne].
      * rewrite Hrow in Hr'. injection Hr' as ->. rewrite Hr, Hcr' in Hb. cbn in Hb. by rewrite Hcr in Hb.
      * rewrite Hoth in Hr' by done. congruence.
Qed.

(** What a list of changes does to the library, however it is cut into transactions. *)
Record applied (g : Z) (detect : bool) (now : Z) (changes : list InventoryChange) (db db' : Library)
    (cs : list CompletionTransition) : Prop := {
  ad_projects : projects db db';
  ad_evolve : forall q, evolve q g detect now changes (row_of q (sporos_qbit_torrent db))
                        = Ok (row_of q (sporos_qbit_torrent db'));
  ad_detects : detects detect db db' cs;
  ad_kept : forall q, indexed q db -> indexed q db';
  ad_indexed : forall q d, Upsert q d ∈ changes -> indexed q db' }.

Lemma applied_nil g detect now db : applied g detect now [] db db [].
Proof. split; [done|done|apply detects_refl|done|]. by intros q d Hd%elem_of_nil. Qed.

Lemma applied_app g detect now l1 l2 db db1 db2 cs1 cs2 :
  ids_ok (sporos_qbit_torrent db) ->
  applied g detect now l1 db db1 cs1 -> applied g detect now l2 db1 db2 cs2 ->
  applied g detect now (l1 ++ l2) db db2 (cs1 ++ cs2).
Proof.
  intros Hids [P1 E1 D1 K1 I1] [P2 E2 D2 K2 I2]. split.
  - by etrans.
  - intros q. rewrite evolve_app, E1. apply E2.
  - by eapply detects_trans.
  - auto.
  - intros q d [Hd|Hd]%elem_of_app; [by eapply K2, I1|by eapply I2].
Qed.

Lemma applied_upsert g detect now q d db db' out :
  ids_ok (sporos_qbit_torrent db) -> project_torrent q d g detect now db = (db', Ok out) ->
  applied g detect now [Upsert q d] db db' (option_list (to_completion out)).
Proof.
  intros Hids Hp. pose proof (project_torrent_detects _ _ _ _ _ _ _ _ Hids Hp) as Hd.
  apply project_torrent_Ok in Hp as (row & became & needed & Hm & P & Hrow & Hoth & Hi & Hi' & _); [|done].
  split; [done| |done| |].
  - intros q'. cbn. case_bool_decide as Hq; [subst q'|by rewrite Hoth].
    rewrite Hm. cbn. by rewrite Hrow.
  - intros q' Hq'. destruct (decide (q' = q)) as [->|Hne]; [done|by apply Hi'].
  - intros q' d' [= -> ->]%list_elem_of_singleton. done.
Qed.

Definition remove (q : str) (now : Z) : Library -> Library :=
  update_torrents (fun row => bool_decide (qt_qbit_id row = Some q)) (absent now).

(** An update of the rows that keeps their names and their state of completion. *)
Lemma row_of_update q cond f db :
  ids_ok (sporos_qbit_torrent db) -> (forall row, qt_qbit_id (f row) = qt_qbit_id row) ->
  ids_ok (sporos_qbit_torrent (update_torrents cond f db)) /\
  row_of q (sporos_qbit_torrent (update_torrents cond f db))
  = (fun row => if cond row then f row else row) <$> row_of q (sporos_qbit_torrent db).
Proof.
  intros Hids Hf. apply row_of_fmap; [done|]. intros row. by destruct (cond row).
Qed.

Lemma indexed_update q cond f db :
  ids_ok (sporos_qbit_torrent db) -> (forall row, qt_qbit_id (f row) = qt_qbit_id row) ->
  (forall row, qt_name (f row) = qt_name row) ->
  indexed q db -> indexed q (update_torrents cond f db).
Proof.
  intros Hids Hf Hn Hi row titles ids. rewrite (proj2 (row_of_update q cond f db Hids Hf)).
  intros (r & Hr & ->)%fmap_Some. assert (qt_name (if cond r then f r else r) = qt_name r) as ->
    by by destruct (cond r).
  exact (Hi r titles ids Hr).
Qed.

Lemma detects_update detect cond f db :
  ids_ok (sporos_qbit_torrent db) -> (forall row, qt_qbit_id (f row) = qt_qbit_id row) ->
  (forall row, qt_is_complete (f row) = qt_is_complete row) ->
  detects detect db (update_torrents cond f db) [].
Proof.
  intros Hids Hf Hc. split; cbn; [constructor|by intros c Hx%elem_of_nil| | |done].
  - intros key X1 [x X2]. unfold completions in *. cbn in X2. congruence.
  - intros _ q r r' Hr Hcr. change (_ <$> sporos_qbit_torrent db) with (sporos_qbit_torrent (update_torrents cond f db)).
    rewrite (proj2 (row_of_update q cond f db Hids Hf)), Hr. cbn. intros [= <-].
    destruct (cond r); rewrite ?Hc; congruence.
Qed.

Lemma projects_update cond f db :
  (forall row, qt_qbit_id (f row) = qt_qbit_id row) -> projects db (update_torrents cond f db).
Proof.
  intros Hf. split; try done.
  - intros Hids. exact (proj1 (row_of_update [] cond f db Hids Hf)).
  - intros Hids q Hq. rewrite (proj2 (row_of_update q cond f db Hids Hf)). by apply fmap_is_Some.
Qed.

Lemma applied_removed g detect now q db :
  ids_ok (sporos_qbit_torrent db) -> applied g detect now [Removed q] db (remove q now db) [].
Proof.
  intros Hids. unfold remove. split.
  - by apply projects_update.
  - intros q'. cbn [evolve]. f_equal.
    rewrite (proj2 (row_of_update q' _ (absent now) db Hids ltac:(done))).
    destruct (row_of q' (sporos_qbit_torrent db)) as [r|] eqn:Hr; [|by destruct (bool_decide _)].
    apply row_of_Some in Hr as [_ Hr]; [|done]. cbn. rewrite Hr.
    destruct (decide (q = q')) as [->|Hne]; [by rewrite !bool_decide_true|].
    rewrite !bool_decide_false by congruence. done.
  - by apply detects_update.
  - intros q'. by apply indexed_update.
  - intros q' d Hd%list_elem_of_singleton. done.
Qed.

Lemma project_changes_Ok g detect now changes res db db' res' :
  ids_ok (sporos_qbit_torrent db) -> project_changes g detect now res changes db = (db', Ok res') ->
  exists cs, pb_completions res' = pb_completions res ++ cs /\ applied g detect now changes db db' cs.
Proof.
  revert res db. induction changes as [|change changes IH]; intros res db Hids; cbn [project_changes].
  - intros [= <- <-]. exists []. split; [by rewrite app_nil_r|apply applied_nil].
  - intros (db1 & res1 & Hc & Hr)%M_bind_Ok.
    assert (exists cs, pb_completions res1 = pb_completions res ++ cs /\
              applied g detect now [change] db db1 cs) as (cs1 & E1 & A1).
    { destruct change as [q d|q]; cbn [project_change] in Hc.
      - apply M_bind_Ok in Hc as (db2 & out & Hp & [= -> <-]). eexists. split; [reflexivity|].
        by apply applied_upsert.
      - injection Hc as <- <-. exists []. split; [by rewrite app_nil_r|by apply applied_removed]. }
    apply IH in Hr as (cs2 & E2 & A2); [|by apply (pj_ids _ _ (ad_projects _ _ _ _ _ _ _ A1))].
    exists (cs1 ++ cs2). split; [by rewrite E2, E1, app_assoc|]. by eapply (applied_app _ _ _ [change]).
Qed.

(** A batch is one transaction. *)
Lemma project_batch_spec changes g detect now db db' r :
  ids_ok (sporos_qbit_torrent db) -> project_qbit_batch changes g detect now db = (db', r) ->
  match r with
  | Ok batch => applied g detect now changes db db' (pb_completions batch)
  | Err _ => db' = db
  end.
Proof.
  intros Hids. unfold project_qbit_batch, mbind, M_bind, liftr, to_i64, i64_try_from.
  destruct (g <=? i64_max); cbn [ok_or]; [|by intros [= <- <-]].
  unfold atomically. destruct (project_changes _ _ _ _ _ _) as [d [batch|e]] eqn:Hp; intros [= <- <-]; [|done].
  apply project_changes_Ok in Hp as (cs & E & A); [|done]. cbn in E. by rewrite E.
Qed.
End Rows.

(** ** What the parser hands over *)

(** The changes of a response, in order. *)
Definition entry_changes (entry : MainEntry) : list InventoryChange :=
  match entry with
  | Torrents torrents => map (fun p => Upsert p.1 p.2) (items torrents)
  | TorrentsRemoved ids => map Removed (items ids)
  | _ => []
  end.
Definition body_changes (body : MainReader) : list InventoryChange :=
  concat (map entry_changes (items (mr_entries body))).

(** Whether a response replaces the inventory: the last value of its field. *)
Definition entry_full (entry : MainEntry) : option bool :=
  match entry with FullUpdate value => Some value | _ => None end.
Definition entries_full (entries : list MainEntry) (b : bool) : bool :=
  default b (last (omap entry_full entries)).
Definition body_full (body : MainReader) : bool := entries_full (items (mr_entries body)) false.

Definition messages (h : MainData) (changes : list InventoryChange) : list MainDataMessage :=
  Header h :: map Change changes.

Definition parse (body : MainReader) : list MainDataMessage * result Pieces.InventoryParseError MainData :=
  parse_main_data_with_header (fun header => send (Header header)) (fun change => send (Change change)) body [].

Lemma visit_sent {A B} (step : A -> M (list B) Pieces.InventoryParseError ()) (f : A -> B) l n s s' r :
  (forall a s, step a s = (s ++ [f a], Ok tt) \/ exists e, step a s = (s, Err e)) ->
  visit step l n s = (s', r) ->
  exists k, s' = s ++ map f (take k l) /\ match r with Ok _ => take k l = l | Err _ => True end.
Proof.
  intros Hstep. revert n s. induction l as [|a l IH]; intros n s; cbn [visit].
  - intros [= <- <-]. exists 0%nat. by rewrite app_nil_r.
  - unfold mbind, M_bind. destruct (Hstep a s) as [->|[e ->]].
    2: { intros [= <- <-]. exists 0%nat. by rewrite app_nil_r. }
    unfold count_item, custom, liftr. destruct (map_err _ _) as [n'|e].
    2: { intros [= <- <-]. exists 1%nat. cbn. by rewrite take_0. }
    intros (k & -> & Hk)%IH. exists (S k). cbn. rewrite <- app_assoc. split; [done|].
    destruct r; [by rewrite Hk|done].
Qed.

Lemma delta_step_sent a s :
  delta_step (fun change => send (Change change)) a s = (s ++ [Change (Upsert a.1 a.2)], Ok tt) \/
  exists e, delta_step (fun change => send (Change change)) a s = (s, Err e).
Proof.
  unfold delta_step, mbind, M_bind, custom, liftr.
  destruct (validate_id a.1); cbn; [|by right; eexists]. destruct (validate_delta a.2); cbn; [by left|by right; eexists].
Qed.
Lemma removed_step_sent a s :
  removed_step (fun change => send (Change change)) a s = (s ++ [Change (Removed a)], Ok tt) \/
  exists e, removed_step (fun change => send (Change change)) a s = (s, Err e).
Proof.
  unfold removed_step, mbind, M_bind, custom, liftr.
  destruct (validate_id a); cbn; [by left|by right; eexists].
Qed.

(** The header is handed over first, and names the response for good. *)
Definition header_sent (st : MainState) (changes : list InventoryChange) (sent : list MainDataMessage) : Prop :=
  if ms_emitted st then exists h, sent = messages h changes /\ ms_response_id st = Some (response_id h) /\
                          ms_full_update st = full_update h
  else sent = [] /\ changes = [].

Lemma emit_header_sent st changes sent sent' r :
  header_sent st changes sent -> emit_main_data_header (fun header => send (Header header)) st sent = (sent', r) ->
  match r with
  | Ok st' => header_sent st' changes sent' /\ ms_emitted st' = true /\ ms_full_update st' = ms_full_update st
  | Err _ => sent' = sent
  end.
Proof.
  unfold emit_main_data_header, header_sent. intros Hs. destruct (ms_emitted st) eqn:He.
  - intros [= <- <-]. by rewrite He.
  - unfold mbind, M_bind, liftr. destruct (ms_response_id st) as [rid|] eqn:Hr; cbn; [|by intros [= <- <-]].
    intros [= <- <-]. cbn. destruct Hs as [-> ->]. split; [|done]. eexists. split; [reflexivity|]. by cbn.
Qed.

Lemma main_step_sent st entry changes sent sent' r :
  header_sent st changes sent ->
  main_step (fun header => send (Header header)) (fun change => send (Change change)) st entry sent = (sent', r) ->
  match r with
  | Ok st' => header_sent st' (changes ++ entry_changes entry) sent' /\
      ms_full_update st' = default (ms_full_update st) (entry_full entry)
  | Err _ => sent' = [] \/ exists h changes', sent' = messages h changes'
  end.
Proof.
  intros Hs. assert (sent = [] \/ exists h changes', sent = messages h changes') as Hshape.
  { unfold header_sent in Hs. destruct (ms_emitted st); [right|by left; apply Hs].
    destruct Hs as (h & -> & _). by eexists _, _. }
  destruct entry as [v|v|ts|ids|]; cbn [main_step entry_changes entry_full default].
  - destruct (ms_emitted st && _) eqn:Hc; [by intros [= <- <-]|]. intros [= <- <-].
    rewrite app_nil_r. split; [|done]. unfold header_sent in *. cbn. destruct (ms_emitted st); [|done].
    destruct Hs as (h & -> & Hr & Hf). exists h. split; [done|]. split; [|done].
    cbn in Hc. apply bool_decide_eq_false in Hc. apply dec_stable in Hc. congruence.
  - destruct (ms_emitted st && _) eqn:Hc; [by intros [= <- <-]|]. intros [= <- <-].
    rewrite app_nil_r. split; [|done]. unfold header_sent in *. cbn. destruct (ms_emitted st); [|done].
    destruct Hs as (h & -> & Hr & Hf). exists h. split; [done|]. split; [done|].
    cbn in Hc. apply negb_false_iff, eqb_prop in Hc. congruence.
  - unfold mbind, M_bind. destruct (emit_main_data_header _ _ _) as [s1 [st1|e]] eqn:Hh.
    2: { apply (emit_header_sent _ _ _ _ _ Hs) in Hh. intros [= <- <-]. by rewrite Hh. }
    apply (emit_header_sent _ _ _ _ _ Hs) in Hh as (Hs1 & He1 & Hf1).
    unfold header_sent in Hs1. rewrite He1 in Hs1. destruct Hs1 as (h & -> & Hr & Hf).
    destruct (visit _ _ _ _) as [s2 [n|e]] eqn:Hv;
      apply (visit_sent _ (fun p => Change (Upsert p.1 p.2)) _ _ _ _ _ delta_step_sent) in Hv as (k & -> & Hk).
    2: { intros [= <- <-]. right. exists h, (changes ++ map (fun p => Upsert p.1 p.2) (take k (items ts))).
         unfold messages. by rewrite map_app, map_map. }
    rewrite Hk. unfold liftr. destruct (ending ts) as [[]|e]; intros [= <- <-].
    + split; [|done]. unfold header_sent. cbn. rewrite He1. exists h. split; [|done].
      unfold messages. by rewrite map_app, map_map.
    + right. exists h, (changes ++ map (fun p => Upsert p.1 p.2) (items ts)). unfold messages. by rewrite map_app, map_map.
  - unfold mbind, M_bind. destruct (emit_main_data_header _ _ _) as [s1 [st1|e]] eqn:Hh.
    2: { apply (emit_header_sent _ _ _ _ _ Hs) in Hh. intros [= <- <-]. by rewrite Hh. }
    apply (emit_header_sent _ _ _ _ _ Hs) in Hh as (Hs1 & He1 & Hf1).
    unfold header_sent in Hs1. rewrite He1 in Hs1. destruct Hs1 as (h & -> & Hr & Hf).
    destruct (visit _ _ _ _) as [s2 [n|e]] eqn:Hv;
      apply (visit_sent _ (fun a => Change (Removed a)) _ _ _ _ _ removed_step_sent) in Hv as (k & -> & Hk).
    2: { intros [= <- <-]. right. exists h, (changes ++ map Removed (take k (items ids))).
         unfold messages. by rewrite map_app, map_map. }
    rewrite Hk. unfold liftr. destruct (ending ids) as [[]|e]; intros [= <- <-].
    + split; [|done]. unfold header_sent. cbn. rewrite He1. exists h. split; [|done].
      unfold messages. by rewrite map_app, map_map.
    + right. exists h, (changes ++ map Removed (items ids)). unfold messages. by rewrite map_app, map_map.
  - intros [= <- <-]. by rewrite app_nil_r.
Qed.

Lemma entries_full_cons entry entries b :
  entries_full (entry :: entries) b = entries_full entries (default b (entry_full entry)).
Proof.
  unfold entries_full. destruct (entry_full entry) as [v|] eqn:E; cbn; rewrite E; [|done].
  rewrite last_cons. by destruct (last (omap entry_full entries)).
Qed.

Lemma visit_main_sent entries st changes sent sent' r :
  header_sent st changes sent ->
  visit_main (fun header => send (Header header)) (fun change => send (Change change)) entries st sent = (sent', r) ->
  match r with
  | Ok st' => header_sent st' (changes ++ concat (map entry_changes entries)) sent' /\
      ms_full_update st' = entries_full entries (ms_full_update st)
  | Err _ => sent' = [] \/ exists h changes', sent' = messages h changes'
  end.
Proof.
  revert st changes sent. induction entries as [|entry entries IH]; intros st changes sent Hs; cbn [visit_main].
  - intros [= <- <-]. by rewrite app_nil_r.
  - unfold mbind, M_bind. destruct (main_step _ _ _ _ _) as [s1 [st1|e]] eqn:Hm;
      apply (main_step_sent _ _ _ _ _ _ Hs) in Hm; [|by intros [= <- <-]].
    destruct Hm as [Hs1 Hf1]. intros Hv. apply (IH _ _ _ Hs1) in Hv. destruct r; [|done].
    cbn [map concat]. rewrite app_assoc, entries_full_cons, <- Hf1. done.
Qed.

(** The messages are a header and changes of the response; a response that parses is
    handed over in full. *)
Lemma parse_sent body sent r :
  parse body = (sent, r) ->
  match r with
  | Ok parsed => exists h, sent = messages h (body_changes body) /\ response_id h = response_id parsed /\
      full_update h = full_update parsed /\ full_update parsed = body_full body
  | Err _ => sent = [] \/ exists h changes, sent = messages h changes
  end.
Proof.
  unfold parse, parse_main_data_with_header, mbind, M_bind.
  destruct (visit_main _ _ _ _ _) as [s1 [st1|e]] eqn:Hv;
    (apply (visit_main_sent _ _ []) in Hv; [|done]); [|by intros [= <- <-]].
  cbn [app] in Hv. fold (body_changes body) in Hv. destruct Hv as [Hs Hf].
  assert (s1 = [] \/ exists h changes, s1 = messages h changes) as Hshape.
  { unfold header_sent in Hs. destruct (ms_emitted st1); [right|by left; apply Hs].
    destruct Hs as (h & -> & _). by eexists _, _. }
  unfold liftr. destruct (ending (mr_entries body)) as [[]|e]; cbn [fst snd]; [|by intros [= <- <-]].
  destruct (emit_main_data_header _ _ _) as [s2 [st2|e]] eqn:He; apply (emit_header_sent _ _ _ _ _ Hs) in He.
  2: { intros [= <- <-]. by rewrite He. }
  destruct He as (Hs2 & He2 & Hf2). unfold header_sent in Hs2. rewrite He2 in Hs2.
  destruct Hs2 as (h & -> & Hrid & Hfull). rewrite Hrid. cbn [ok_or].
  destruct (mr_tail body) as [[]|e]; intros [= <- <-].
  - exists h. cbn. split; [done|]. split; [done|]. cbn in Hf. unfold body_full. split; congruence.
  - right. by eexists _, _.
Qed.

(** ** Applying a response *)

Definition next_generation (full : bool) (cur : Z) : Z := if full then cur + 1 else cur.

Section Apply.
Context `{Unicode} `{Digest} `{CandidateCodec} `{Completion.CompletionCodec} `{QbitClient}.

Lemma batch_spec report changes g detect now db db' r :
  ids_ok (sporos_qbit_torrent db) -> project_batch report changes g detect now db = (db', r) ->
  match r with
  | Ok report' => exists cs, applied g detect now changes db db' cs /\
      sr_completions report' = sr_completions report ++ cs /\ sr_full_update report' = sr_full_update report
  | Err _ => db' = db
  end.
Proof.
  intros Hids. unfold project_batch, store, mbind, M_bind.
  destruct (project_qbit_batch changes g detect now db) as [d [b|e]] eqn:Hp;
    apply project_batch_spec in Hp; try done; cbn [map_err]; intros [= <- <-]; [|done].
  by exists (pb_completions b).
Qed.

(** The changes of a response, handed over one by one. *)
Lemma apply_changes n detect cur now g changes st db db' r :
  ids_ok (sporos_qbit_torrent db) -> ap_generation st = Some g ->
  apply_messages n detect cur now (map Change changes) st db = (db', r) ->
  projects db db' /\
  match r with
  | Ok st' => exists before cs, before ++ ap_batch st' = ap_batch st ++ changes /\
      applied g detect now before db db' cs /\
      sr_completions (ap_report st') = sr_completions (ap_report st) ++ cs /\
      sr_full_update (ap_report st') = sr_full_update (ap_report st) /\
      ap_header st' = ap_header st /\ ap_generation st' = Some g
  | Err _ => True
  end.
Proof.
  revert st db. induction changes as [|change changes IH]; intros st db Hids Hg; cbn [map apply_messages].
  - intros [= <- <-]. split; [done|]. exists [], []. rewrite !app_nil_r. split; [done|].
    split; [apply applied_nil|done].
  - cbn [apply_message]. rewrite Hg. unfold mbind, M_bind, liftr. cbn [ok_or].
    destruct (length (ap_batch st ++ [change]) =? n)%nat.
    + destruct (project_batch (ap_report st) (ap_batch st ++ [change]) g detect now db) as [d [report|e]] eqn:Hb;
        apply batch_spec in Hb; try done; [|by intros [= <- <-]; subst d].
      destruct Hb as (cs & A & Ecs & Ef). pose proof (ad_projects _ _ _ _ _ _ _ A) as P.
      intros Hr. apply IH in Hr as [P2 Hr]; [|by apply (pj_ids _ _ P)|done].
      split; [by etrans|]. destruct r as [st'|]; [|done]. cbn [ap_batch ap_report ap_header ap_generation] in Hr.
      destruct Hr as (before & cs2 & E & A2 & Ecs2 & Ef2 & Eh & Eg).
      exists ((ap_batch st ++ [change]) ++ before), (cs ++ cs2). cbn [app] in E.
      split; [by rewrite <- app_assoc, E, <- app_assoc|]. split; [by eapply applied_app|].
      split; [by rewrite Ecs2, Ecs, app_assoc|]. split; [congruence|done].
    + intros Hr. apply IH in Hr as [P2 Hr]; [|done|done]. split; [done|].
      destruct r as [st'|]; [|done]. cbn [ap_batch ap_report ap_header ap_generation] in Hr.
      destruct Hr as (before & cs2 & E & Hrest). exists before, cs2. split; [|done]. by rewrite E, <- app_assoc.
Qed.

(** A response is applied in full, and the synchronisation is then finished, or it fails
    and the state of the inventory is what it was. *)
Lemma apply_main_spec body n detect cur now db db' r :
  ids_ok (sporos_qbit_torrent db) -> apply_main_data_reader body n detect cur now db = (db', r) ->
  match r with
  | Ok report => exists parsed db1, (parse body).2 = Ok parsed /\ (detect = false -> body_full body = true) /\
      sr_full_update report = body_full body /\
      let g := next_generation (body_full body) cur in
      applied g detect now (body_changes body) db db1 (sr_completions report) /\
      finish_qbit_sync (response_id parsed) (if body_full body then Some g else None) now db1 = (db', Ok tt)
  | Err _ => projects db db'
  end.
Proof.
  intros Hids. unfold apply_main_data_reader. destruct (n =? 0)%nat; [by intros [= <- <-]|].
  change (parse_main_data_with_header _ _ body []) with (parse body).
  destruct (parse body) as [sent parsed] eqn:Hparse. apply parse_sent in Hparse.
  assert ((exists h changes, sent = messages h changes) \/ (sent = [] /\ exists e, parsed = Err e)) as Hshape.
  { destruct parsed as [p|e]; [left; destruct Hparse as (h & -> & _); by eexists _, _|].
    destruct Hparse as [->|Hp]; [right; eauto|by left]. }
  destruct Hshape as [(h & changes & ->)|[-> [e ->]]].
  2: { cbn [apply_messages]. unfold mbind, M_bind, liftr. cbn. by intros [= <- <-]. }
  unfold messages. cbn [apply_messages apply_message ap_header]. unfold mbind, M_bind.
  rewrite bool_decide_false by by intros []. destruct (negb detect && negb (full_update h)) eqn:Hinit.
  { by intros [= <- <-]. }
  set (g0 := if full_update h then _ else _).
  assert (g0 db = (db, Ok (next_generation (full_update h) cur)) \/ exists e, g0 db = (db, Err e)) as [->|[e ->]].
  { unfold g0, next_generation, liftr. destruct (full_update h); [|by left].
    unfold checked_add_u64. destruct (_ <=? _); cbn; [by left|by right; eexists]. }
  2: { by intros [= <- <-]. }
  unfold mret, M_ret. cbv beta iota.
  match goal with |- context [apply_messages n detect cur now _ ?st0 db] =>
    destruct (apply_messages n detect cur now (map Change changes) st0 db) as [d1 [st|e]] eqn:Ha end;
    apply (apply_changes _ _ _ _ (next_generation (full_update h) cur)) in Ha as [P1 Ha]; try done.
  2: { by intros [= <- <-]. }
  cbn [ap_batch ap_report ap_header ap_generation] in Ha.
  destruct Ha as (before & cs & E & A & Ecs & Ef & -> & ->). unfold liftr at 1 2. cbn [ok_or]. cbv beta iota.
  match goal with |- context [match ?m d1 with _ => _ end] => set (final := m) end.
  assert (exists d2 r2, final d1 = (d2, r2) /\ projects db d2 /\
    match r2 with
    | Ok report => applied (next_generation (full_update h) cur) detect now changes db d2 (sr_completions report) /\
                   sr_full_update report = full_update h
    | Err _ => True
    end) as (d2 & r2 & -> & P2 & H2').
  { unfold final. case_bool_decide as Hb.
    - rewrite Hb, app_nil_r in E. cbn in E. subst before. exists d1, (Ok (ap_report st)). by rewrite Ecs, Ef.
    - destruct (project_batch _ _ _ _ _ d1) as [d2 [report|e]] eqn:Hp; apply batch_spec in Hp;
        try by apply (pj_ids _ _ P1).
      + destruct Hp as (cs2 & A2 & Ecs2 & Ef2). exists d2, (Ok report). split; [done|].
        split; [etrans; [done|by apply (ad_projects _ _ _ _ _ _ _ A2)]|].
        rewrite Ecs2, Ecs, Ef2, Ef. split; [|done]. cbn [app] in E. rewrite <- E. by eapply applied_app.
      + exists d2, (Err e). subst d2. done. }
  destruct r2 as [report|e]; [|by intros [= <- <-]]. destruct H2' as [A2 Ef2]. unfold liftr at 1.
  destruct parsed as [p|e]; cbn [map_err]; [|by intros [= <- <-]].
  destruct Hparse as (h' & Hm & Hrid & Hfull & Hbody). injection Hm as <- Hch.
  assert (changes = body_changes body) as ->.
  { apply (list_fmap_eq_inj Change); [by intros ?? [=]|done]. }
  rewrite Hrid, Z.eqb_refl, Hfull, eqb_reflx. cbn [negb orb]. rewrite Hfull in *.
  unfold store. destruct (finish_qbit_sync _ _ _ d2) as [d3 [[]|e]] eqn:Hfin; cbn [map_err]; intros [= <- <-].
  - exists p, d2. rewrite <- Hbody. split; [done|]. split; [|done]. intros ->. by destruct (full_update p).
  - unfold finish_qbit_sync in Hfin. destruct (to_i64 _ _); [|by injection Hfin as <- _].
    destruct (if full_update p then _ else _) as [g|]; [|done]. destruct (to_i64 g _); [done|by injection Hfin as <- _].
Qed.
End Apply.

(** ** qBittorrent's side *)

(** A torrent as qBittorrent has it, and its row. *)
Record shows (row : QbitRow) (t : InventoryTorrent) : Prop := {
  sh_name : qt_name row = it_name t;
  sh_total_size : qt_total_size row = it_total_size t;
  sh_amount_left : qt_amount_left row = it_amount_left t;
  sh_progress : progress_ppm (it_progress t) = Ok (qt_progress_ppm row);
  sh_state : qt_state row = it_state t;
  sh_save_path : qt_save_path row = it_save_path t;
  sh_content_path : qt_content_path row = it_content_path t;
  sh_category : qt_category row = it_category t;
  sh_tags : qt_tags row = tags_of (it_tags t);
  sh_v1 : it_infohash_v1 t <> [] ->
    optional_hash (Some (it_infohash_v1 t)) 20 "infohash_v1" = Ok (qt_v1_hash row);
  sh_v2 : it_infohash_v2 t <> [] ->
    optional_hash (Some (it_infohash_v2 t)) 32 "infohash_v2" = Ok (qt_v2_hash row) }.

(** A field of a change: the new value, or nothing when it is the old one. *)
Definition field_described {A} (get : InventoryTorrent -> A) (old : option InventoryTorrent)
    (new : InventoryTorrent) (value : option A) : Prop :=
  match value with
  | Some value => value = get new
  | None => exists o, old = Some o /\ get o = get new
  end.

Record describes (old : option InventoryTorrent) (new : InventoryTorrent) (d : InventoryDelta) : Prop := {
  ds_v1 : field_described it_infohash_v1 old new (d_infohash_v1 d);
  ds_v2 : field_described it_infohash_v2 old new (d_infohash_v2 d);
  ds_name : field_described it_name old new (d_name d);
  ds_total_size : field_described it_total_size old new (d_total_size d);
  ds_amount_left : field_described it_amount_left old new (d_amount_left d);
  ds_progress : field_described it_progress old new (d_progress d);
  ds_state : field_described it_state old new (d_state d);
  ds_save_path : field_described it_save_path old new (d_save_path d);
  ds_content_path : field_described it_content_path old new (d_content_path d);
  ds_category : field_described it_category old new (d_category d);
  ds_tags : field_described it_tags old new (d_tags d) }.

(** Changes that take the inventory [old] to [new]: in full, or by what has changed. *)
Record answers (old new : gmap str InventoryTorrent) (full : bool) (changes : list InventoryChange) : Prop := {
  an_upsert : forall q d, Upsert q d ∈ changes ->
    exists t, new !! q = Some t /\ describes (if full then None else old !! q) t d;
  an_removed : forall q, Removed q ∈ changes -> new !! q = None;
  an_new : forall q t, new !! q = Some t -> full = true \/ old !! q <> Some t -> exists d, Upsert q d ∈ changes;
  an_gone : forall q, full = false -> is_Some (old !! q) -> new !! q = None -> Removed q ∈ changes }.

Section Mirror.
Context `{Unicode} `{Digest} `{CandidateCodec} `{Completion.CompletionCodec}.

(** The row of every torrent that qBittorrent has shows it; of the others, no row is
    available. *)
Definition mirrors (db : Library) (remote : gmap str InventoryTorrent) : Prop :=
  forall q, match remote !! q with
            | Some t => exists row, row_of q (sporos_qbit_torrent db) = Some row /\
                          qt_available row = true /\ shows row t
            | None => forall row, row_of q (sporos_qbit_torrent db) = Some row -> qt_available row = false
            end.

(** No torrent was seen in a generation later than the finished one. *)
Definition settled (db : Library) : Prop :=
  forall q row, row_of q (sporos_qbit_torrent db) = Some row ->
    qt_generation row <= iv_generation (sporos_qbit_inventory_state db).

(** The row that a change starts from: it shows the new torrent already, or the old. *)
Definition starts (old : option InventoryTorrent) (ex : option QbitRow) (t : InventoryTorrent) : Prop :=
  (exists row, ex = Some row /\ shows row t) \/
  (forall o, old = Some o -> exists row, ex = Some row /\ shows row o).

Lemma started {A B} (get : InventoryTorrent -> A) (field : QbitRow -> B) (conv : A -> B) old ex t (value : option A) row :
  starts old ex t -> field_described get old t value ->
  (forall r s, shows r s -> field r = conv (get s)) ->
  or_else (conv <$> value) (field <$> ex) = Some (field row) -> field row = conv (get t).
Proof.
  intros Hs Hf Hconv. destruct value as [v|]; cbn in *; [subst v; by intros [= ->]|].
  destruct Hf as (o & -> & Ho). destruct Hs as [(r & -> & Hr)|Hs].
  - cbn. intros [= <-]. by apply Hconv.
  - destruct (Hs o eq_refl) as (r & -> & Hr). cbn. intros [= <-]. rewrite <- Ho. by apply Hconv.
Qed.

(** An info hash that qBittorrent shows. *)
Lemma started_hash get (field : QbitRow -> option str) n name old ex t value h row :
  starts old ex t -> field_described get old t value ->
  (forall r s, shows r s -> get s <> [] -> optional_hash (Some (get s)) n name = Ok (field r)) ->
  optional_hash value n name = Ok h -> field row = or_else h (ex ≫= field) ->
  get t <> [] -> optional_hash (Some (get t)) n name = Ok (field row).
Proof.
  intros Hs Hf Hconv Hv Hrow Hne. destruct value as [v|]; cbn in Hf.
  - subst v. rewrite Hv. destruct (get t) as [|b l] eqn:E; [done|]. unfold optional_hash in Hv.
    destruct (decode_hex (b :: l) n name) as [x|]; [|done]. injection Hv as <-. by rewrite Hrow.
  - injection Hv as <-. cbn in Hrow. destruct Hf as (o & -> & Ho). destruct Hs as [(r & -> & Hr)|Hs].
    + rewrite Hrow. cbn. by apply Hconv.
    + destruct (Hs o eq_refl) as (r & -> & Hr). rewrite Hrow. cbn. rewrite <- Ho in *. by apply Hconv.
Qed.

Lemma merged_shows ex q d g detect now row became needed old t :
  merged ex q d g detect now row became needed -> describes old t d -> starts old ex t -> shows row t.
Proof.
  intros M D S. assert (forall A (o : option A), id <$> o = o) as Hid by by intros A [].
  split.
  - eapply (started it_name qt_name id); [done|apply D|by intros r s []|]. rewrite Hid. apply M.
  - eapply (started it_total_size qt_total_size id); [done|apply D|by intros r s []|]. rewrite Hid. apply M.
  - eapply (started it_amount_left qt_amount_left id); [done|apply D|by intros r s []|]. rewrite Hid. apply M.
  - pose proof (mg_progress _ _ _ _ _ _ _ _ _ M) as Hp. pose proof (ds_progress _ _ _ D) as Hd.
    destruct (d_progress d) as [v|]; cbn in Hd; [by subst v|]. destruct Hd as (o & -> & Ho).
    destruct S as [(r & -> & Hr)|S].
    + injection Hp as <-. apply Hr.
    + destruct (S o eq_refl) as (r & -> & Hr). injection Hp as <-. rewrite <- Ho. apply Hr.
  - eapply (started it_state qt_state id); [done|apply D|by intros r s []|]. rewrite Hid. apply M.
  - eapply (started it_save_path qt_save_path id); [done|apply D|by intros r s []|]. rewrite Hid. apply M.
  - eapply (started it_content_path qt_content_path id); [done|apply D|by intros r s []|]. rewrite Hid. apply M.
  - eapply (started it_category qt_category id); [done|apply D|by intros r s []|]. rewrite Hid. apply M.
  - eapply (started it_tags qt_tags tags_of); [done|apply D|by intros r s []|]. apply M.
  - destruct (mg_v1 _ _ _ _ _ _ _ _ _ M) as (h & Hh & Hr).
    eapply (started_hash it_infohash_v1 qt_v1_hash); [done|apply D|by intros r s []|done|done].
  - destruct (mg_v2 _ _ _ _ _ _ _ _ _ M) as (h & Hh & Hr).
    eapply (started_hash it_infohash_v2 qt_v2_hash); [done|apply D|by intros r s []|done|done].
Qed.

Lemma upserted_or_not q (changes : list InventoryChange) :
  (exists d, Upsert q d ∈ changes) \/ (forall d, Upsert q d ∉ changes).
Proof.
  induction changes as [|[q' d|q'] changes IH].
  - right. by intros d Hx%elem_of_nil.
  - destruct (decide (q' = q)) as [->|Hne]; [left; exists d; by left|].
    destruct IH as [[d' Hd']|Hno]; [left; exists d'; by right|]. right. intros d'.
    apply not_elem_of_cons. split; [congruence|done].
  - destruct IH as [[d' Hd']|Hno]; [left; exists d'; by right|]. right. intros d'.
    by apply not_elem_of_cons.
Qed.

(** A torrent that a response describes, and one that it only removes. *)
Lemma evolve_described q g detect now changes old t r r' :
  (forall d, Upsert q d ∈ changes -> describes old t d) -> Removed q ∉ changes ->
  starts old r t -> evolve q g detect now changes r = Ok r' ->
  ((exists d, Upsert q d ∈ changes) ->
     exists row, r' = Some row /\ shows row t /\ qt_available row = true /\ qt_generation row = g) /\
  ((forall d, Upsert q d ∉ changes) -> r' = r).
Proof.
  revert r. induction changes as [|change changes IH]; intros r Hd Hnr Hs; cbn [evolve].
  - intros [= <-]. split; [|done]. by intros (d & Hx%elem_of_nil).
  - apply not_elem_of_cons in Hnr as [Hne Hnr].
    assert (forall d, Upsert q d ∈ changes -> describes old t d) as Hd' by (intros; apply Hd; by right).
    destruct change as [q' d|q'].
    + case_bool_decide as Hq.
      * subst q'. intros ([[row became] needed] & Hm & He)%bind_Ok.
        pose proof (merge_Ok _ _ _ _ _ _ _ _ _ Hm) as M.
        assert (shows row t) as Hrow by (eapply merged_shows; [done|apply Hd; by left|done]).
        apply IH in He as [H1' H2']; [|done..|left; by exists row]. split.
        -- intros _. destruct (upserted_or_not q changes) as [Hex|Hno]; [by apply H1'|].
           assert (r' = Some row) as -> by by apply H2'.
           exists row. split; [done|]. split; [done|]. split; apply M.
        -- intros Hno. destruct (Hno d). by left.
      * intros He. apply IH in He as [H1' H2']; [|done..]. split.
        -- intros (d' & [[= -> ->]|Hd2]%elem_of_cons); [done|]. apply H1'. by exists d'.
        -- intros Hno. apply H2'. intros d' Hd2. apply (Hno d'). by right.
    + rewrite bool_decide_false by congruence. intros He. apply IH in He as [H1' H2']; [|done..]. split.
      * intros (d' & [Hx|Hd2]%elem_of_cons); [done|]. apply H1'. by exists d'.
      * intros Hno. apply H2'. intros d' Hd2. apply (Hno d'). by right.
Qed.

Lemma evolve_removed q g detect now changes r r' :
  (forall d, Upsert q d ∉ changes) -> evolve q g detect now changes r = Ok r' ->
  (Removed q ∈ changes -> forall row, r' = Some row -> qt_available row = false) /\
  (forall row, r' = Some row -> exists row0, r = Some row0 /\ qt_generation row = qt_generation row0 /\
     (qt_available row0 = false -> qt_available row = false)).
Proof.
  revert r. induction changes as [|change changes IH]; intros r Hno; cbn [evolve].
  - intros [= <-]. split; [by intros Hx%elem_of_nil|]. intros row ->. by exists row.
  - assert (forall d, Upsert q d ∉ changes) as Hno' by (intros d Hd; apply (Hno d); by right).
    destruct change as [q' d|q'].
    + rewrite bool_decide_false; [|intros ->; apply (Hno d); by left].
      intros He. apply IH in He as [H1' H2']; [|done]. split; [|done].
      intros [Hx|Hx]%elem_of_cons; [done|by apply H1'].
    + intros He. apply IH in He as [H1' H2']; [|done]. split.
      * intros [[= ->]|Hx]%elem_of_cons; [|by apply H1']. rewrite bool_decide_true in H2' by done.
        intros row Hrow. destruct (H2' row Hrow) as (row0 & Hr0 & _ & Hav).
        apply Hav. apply fmap_Some in Hr0 as (r0 & _ & ->). done.
      * intros row Hrow. destruct (H2' row Hrow) as (row0 & Hr0 & Hg & Hav).
        case_bool_decide; [|by exists row0]. apply fmap_Some in Hr0 as (r0 & -> & ->).
        exists r0. split; [done|]. split; [done|]. intros _. by apply Hav.
Qed.
End Mirror.

(** ** One synchronisation *)

Section Between.
Context `{Unicode} `{Digest} `{CandidateCodec} `{Completion.CompletionCodec}.

Definition generation_of (db : Library) : Z := iv_generation (sporos_qbit_inventory_state db).

(** After the changes and before the end: what is there is shown, and what is not there
    was last seen before, when the inventory is replaced, or is not available. *)
Definition between (full : bool) (cur g : Z) (new : gmap str InventoryTorrent) (db : Library) : Prop :=
  forall q, match new !! q with
    | Some t => exists row, row_of q (sporos_qbit_torrent db) = Some row /\ shows row t /\
                  qt_available row = true /\ (full = true -> qt_generation row = g) /\ qt_generation row <= g
    | None => forall row, row_of q (sporos_qbit_torrent db) = Some row ->
                qt_generation row <= cur /\ (full = true \/ qt_available row = false)
    end.

Lemma changes_mirror full cur detect now changes db db1 old new :
  (forall q row, row_of q (sporos_qbit_torrent db) = Some row -> qt_generation row <= cur) ->
  (full = false -> mirrors db old) -> answers old new full changes ->
  (forall q, evolve q (next_generation full cur) detect now changes (row_of q (sporos_qbit_torrent db))
             = Ok (row_of q (sporos_qbit_torrent db1))) ->
  between full cur (next_generation full cur) new db1.
Proof.
  intros Hset Hmir Hans Hev q. specialize (Hev q). set (g := next_generation full cur) in *.
  assert (cur <= g) as Hg by (unfold g, next_generation; destruct full; lia).
  destruct (new !! q) as [t|] eqn:Hq.
  - assert (Removed q ∉ changes) as Hnr
      by (intros Hr; pose proof (an_removed _ _ _ _ Hans q Hr); congruence).
    assert (forall d, Upsert q d ∈ changes -> describes (if full then None else old !! q) t d) as Hd.
    { intros d Hd. destruct (an_upsert _ _ _ _ Hans q d Hd) as (t' & Ht & Hdes). by replace t with t' by congruence. }
    assert (starts (if full then None else old !! q) (row_of q (sporos_qbit_torrent db)) t) as Hst.
    { right. intros o Ho. destruct full; [done|]. specialize (Hmir eq_refl q). rewrite Ho in Hmir.
      destruct Hmir as (row & ? & _ & ?). by exists row. }
    destruct (evolve_described _ _ _ _ _ _ _ _ _ Hd Hnr Hst Hev) as [Hup Hno].
    destruct (upserted_or_not q changes) as [Hex|Hnone].
    + destruct (Hup Hex) as (row & Hr & Hsh & Hav & Hgr). exists row. do 4 (split; [done|]). lia.
    + assert (full = false /\ old !! q = Some t) as [Hfull Hold].
      { destruct full eqn:Ef.
        - destruct (an_new _ _ _ _ Hans q t Hq) as [d Hd2]; [by left|by destruct (Hnone d)].
        - split; [done|]. destruct (decide (old !! q = Some t)) as [|Hne]; [done|].
          destruct (an_new _ _ _ _ Hans q t Hq) as [d Hd2]; [by right|by destruct (Hnone d)]. }
      specialize (Hmir Hfull q). rewrite Hold in Hmir. destruct Hmir as (row & Hr & Hav & Hsh).
      exists row. rewrite (Hno Hnone), Hr. do 3 (split; [done|]). split; [by rewrite Hfull|].
      specialize (Hset q row Hr). lia.
  - assert (forall d, Upsert q d ∉ changes) as Hno.
    { intros d Hd. destruct (an_upsert _ _ _ _ Hans q d Hd) as (t & Ht & _). congruence. }
    destruct (evolve_removed _ _ _ _ _ _ _ Hno Hev) as [Hrem Hkeep]. intros row Hr.
    destruct (Hkeep row Hr) as (row0 & Hr0 & Hgr & Hav). rewrite Hgr. split; [by apply (Hset q)|].
    destruct full eqn:Ef; [by left|right]. specialize (Hmir eq_refl q). destruct (old !! q) as [o|] eqn:Ho.
    + apply Hrem; [|done]. apply (an_gone _ _ _ _ Hans q); [done|by rewrite Ho|done].
    + apply Hav. by apply Hmir.
Qed.

Lemma finished_mirrors full cur g now new db1 db' :
  between full cur g new db1 -> cur <= g /\ (full = true -> cur < g) -> generation_of db' = g ->
  (forall q, row_of q (sporos_qbit_torrent db')
     = if full then (fun row => if unseen g row then absent now row else row) <$> row_of q (sporos_qbit_torrent db1)
       else row_of q (sporos_qbit_torrent db1)) ->
  mirrors db' new /\ settled db'.
Proof.
  intros Hmid [Hg Hlt] Hgen Hrow. split.
  - intros q. specialize (Hmid q). rewrite Hrow. destruct (new !! q) as [t|].
    + destruct Hmid as (row & Hr & Hsh & Hav & Hgr & _). exists row. rewrite Hr.
      destruct full; [|done]. cbn. unfold unseen. rewrite (Hgr eq_refl), Z.eqb_refl, andb_false_r. done.
    + intros row Hr. destruct full eqn:Ef.
      * apply fmap_Some in Hr as (r0 & Hr0 & ->). destruct (Hmid r0 Hr0) as [Hg0 _]. unfold unseen.
        assert (qt_generation r0 =? g = false) as -> by (apply Z.eqb_neq; specialize (Hlt eq_refl); lia).
        destruct (qt_available r0) eqn:Ea; [done|exact Ea].
      * destruct (Hmid row Hr) as [_ [?|?]]; done.
  - intros q row Hr. fold (generation_of db'). rewrite Hgen. rewrite Hrow in Hr. specialize (Hmid q).
    assert (forall r0, row_of q (sporos_qbit_torrent db1) = Some r0 -> qt_generation r0 <= g) as Hle.
    { intros r0 Hr0. destruct (new !! q).
      - destruct Hmid as (row1 & Hr1 & _ & _ & _ & Hle). congruence.
      - destruct (Hmid r0 Hr0). lia. }
    destruct full; [|by apply Hle]. apply fmap_Some in Hr as (r0 & Hr0 & ->).
    destruct (unseen g r0); exact (Hle r0 Hr0).
Qed.
End Between.

Section Synchronise.
Context `{Unicode} `{Digest} `{CandidateCodec} `{Completion.CompletionCodec} `{QbitClient}.

Definition cursor (db : Library) : Z := default 0 (iv_response_id (sporos_qbit_inventory_state db)).
Definition baseline (db : Library) : bool := bool_decide (is_Some (iv_baseline_at (sporos_qbit_inventory_state db))).

Lemma detects_with_state detect db db' f cs : detects detect db db' cs -> detects detect db (with_state f db') cs.
Proof. intros [D1 D2 D3 D4 D5]. by split. Qed.

Lemma finish_sync_tables rid full now db db' :
  ids_ok (sporos_qbit_torrent db) -> finish_qbit_sync rid full now db = (db', Ok tt) ->
  ids_ok (sporos_qbit_torrent db') /\ tasks db' = tasks db /\
  iv_response_id (sporos_qbit_inventory_state db') = Some rid /\
  generation_of db' = default (generation_of db) full /\
  (forall q, row_of q (sporos_qbit_torrent db') =
     match full with
     | Some g => (fun row => if unseen g row then absent now row else row) <$> row_of q (sporos_qbit_torrent db)
     | None => row_of q (sporos_qbit_torrent db)
     end) /\
  (forall q, indexed q db -> indexed q db') /\ (forall detect, detects detect db db' []) /\ projects (with_state (fun _ => sporos_qbit_inventory_state db') db) db'.
Proof.
  intros Hids. unfold finish_qbit_sync, to_i64, i64_try_from. destruct (rid <=? i64_max); cbn [ok_or]; [|done].
  destruct full as [g|].
  - destruct (g <=? i64_max); cbn [ok_or]; [|done]. intros [= <-].
    assert (forall q, row_of q (sporos_qbit_torrent (update_torrents (unseen g) (absent now) db))
      = (fun row => if unseen g row then absent now row else row) <$> row_of q (sporos_qbit_torrent db)) as Hrow
      by (intros q; exact (proj2 (row_of_update q _ (absent now) db Hids ltac:(done)))).
    split; [exact (proj1 (row_of_update [] (unseen g) (absent now) db Hids ltac:(done)))|].
    do 3 (split; [done|]). split; [exact Hrow|]. split.
    { intros q Hi. exact (indexed_update q (unseen g) (absent now) db Hids ltac:(done) ltac:(done) Hi). }
    split; [intros detect; apply detects_with_state, detects_update; done|].
    destruct (projects_update (unseen g) (absent now) db ltac:(done)). by split.
  - intros [= <-]. split; [done|]. do 3 (split; [done|]). split; [done|]. split; [done|].
    split; [intros detect; apply detects_with_state, detects_refl|by split].
Qed.

Lemma sync_once_spec self now db db' r :
  ids_ok (sporos_qbit_torrent db) -> sync_once self now db = (db', r) ->
  match r with
  | Ok report => exists body rid db1, sync_main_data (cursor db) = Ok body /\
      (baseline db = false -> body_full body = true) /\
      let g := next_generation (body_full body) (generation_of db) in
      applied g (baseline db) now (body_changes body) db db1 (sr_completions report) /\
      finish_qbit_sync rid (if body_full body then Some g else None) now db1 = (db', Ok tt)
  | Err _ => projects db db'
  end.
Proof.
  intros Hids. unfold sync_once, state, reads, mbind, M_bind, qbit_inventory_state.
  destruct (optional_u64 _ _) as [rid|e] eqn:Hrid; cbn; [|by intros [= <- <-]].
  destruct (required_u64 _ _) as [g|e] eqn:Hg; cbn; [|by intros [= <- <-]].
  assert (rid = iv_response_id (sporos_qbit_inventory_state db)) as ->.
  { unfold optional_u64 in Hrid. destruct (iv_response_id _) as [v|]; [|by injection Hrid as <-].
    unfold required_u64, u64_try_from in Hrid. destruct (0 <=? v); [|done]. by injection Hrid as <-. }
  assert (g = generation_of db) as ->.
  { unfold required_u64, u64_try_from in Hg. destruct (0 <=? _); [|done]. by injection Hg as <-. }
  unfold liftr. fold (cursor db). destruct (sync_main_data (cursor db)) as [body|e]; cbn [map_err]; [|by intros [= <- <-]].
  intros Ha. apply apply_main_spec in Ha; [|done]. destruct r as [report|]; [|done].
  destruct Ha as (parsed & db1 & _ & Hb & _ & A & Hfin). by exists body, (response_id parsed), db1.
Qed.

(** C7: The library mirrors qBittorrent.  Suppose the library mirrors the inventory at its
    cursor and the last full inventory was finished ([settled]: no row carries a generation
    beyond the library's, as rows of an interrupted full inventory do; after one of those
    the claim is false, see [interrupted_inventory_keeps_deleted]).  When qBittorrent answers the cursor
    with what takes that inventory to the present one, in full or by its changes, in
    whatever order and number of pieces, and the synchronisation succeeds, then the
    library mirrors the present inventory: every torrent has an available row that shows
    it, and no other torrent is available.  When the synchronisation fails, the cursor is
    where it was. *)
Theorem sync_mirrors_qbittorrent self now db db' r old new :
  ids_ok (sporos_qbit_torrent db) -> settled db -> mirrors db old ->
  (forall body, sync_main_data (cursor db) = Ok body -> answers old new (body_full body) (body_changes body)) ->
  sync_once self now db = (db', r) ->
  ids_ok (sporos_qbit_torrent db') /\
  match r with
  | Ok _ => mirrors db' new /\ settled db'
  | Err _ => sporos_qbit_inventory_state db' = sporos_qbit_inventory_state db
  end.
Proof.
  intros Hids Hset Hmir Hans Hs. apply sync_once_spec in Hs; [|done]. destruct r as [report|e].
  2: { split; [by apply (pj_ids _ _ Hs)|apply Hs]. }
  destruct Hs as (body & rid & db1 & Hbody & _ & A & Hfin). specialize (Hans body Hbody).
  destruct A as [P E _ _ _]. pose proof (pj_ids _ _ P Hids) as Hids1.
  apply finish_sync_tables in Hfin as (Hids' & _ & _ & Hgen & Hrow & _); [|done].
  split; [done|]. set (full := body_full body) in *. set (cur := generation_of db) in *.
  set (g := next_generation full cur) in *.
  assert (generation_of db1 = cur) as Hcur by (unfold generation_of, cur; by rewrite (pj_state _ _ P)).
  assert (cur <= g <= cur + 1 /\ generation_of db' = g) as [Hg Hgen'].
  { rewrite Hgen, Hcur. unfold g, next_generation. destruct full; cbn; lia. }
  assert (forall q row, row_of q (sporos_qbit_torrent db) = Some row -> qt_generation row <= cur) as Hset' by exact Hset.
  eapply (finished_mirrors full cur); [| |exact Hgen'|].
  - eapply changes_mirror; [exact Hset'|by intros _|exact Hans|exact E].
  - unfold g, next_generation. destruct full; lia.
  - intros q. rewrite Hrow. by destruct full.
Qed.

(** ** Reconciliation *)

Lemma parse_inventory_sent (body : Stream InventoryTorrent) sent r :
  parse_inventory (fun torrent => send (change_of torrent)) body [] = (sent, r) ->
  match r with
  | Ok n => sent = map change_of (items body) /\ n = Z.of_nat (length (items body))
  | Err _ => True
  end.
Proof.
  unfold parse_inventory, mbind, M_bind. destruct (visit _ _ _ _) as [s [n|e]] eqn:Hv; [|by intros [= <- <-]].
  assert (forall l k s0 s1 m, visit (torrent_step (fun torrent => send (change_of torrent))) l k s0 = (s1, Ok m) ->
    m = k + Z.of_nat (length l)) as Hcount.
  { induction l as [|a l IH]; intros k s0 s1 m; cbn [visit]; [intros [= _ <-]; cbn; lia|].
    unfold mbind, M_bind. destruct (torrent_step _ a s0) as [s2 [[]|e]]; [|done].
    unfold count_item, custom, liftr. destruct (checked_add_u64 k 1) as [k'|] eqn:Hk; cbn; [|done].
    apply checked_add_u64_Some in Hk as [-> _]. intros ->%IH. cbn. lia. }
  pose proof (Hcount _ _ _ _ _ Hv) as ->. apply (visit_sent _ change_of) in Hv as (k & -> & Hk).
  - unfold liftr. destruct (ending body); intros [= <- <-]; [|done]. by rewrite Hk.
  - intros a s0. unfold torrent_step, mbind, M_bind, custom, liftr.
    destruct (validate a); cbn; [by left|by right; eexists].
Qed.

Lemma concat_chunks {A} (fuel size : nat) (l : list A) :
  (0 < size)%nat -> (length l <= fuel)%nat -> concat (chunks fuel size l) = l.
Proof.
  intros Hs. revert l. induction fuel as [|fuel IH]; intros l Hl; [by destruct l; cbn in *; [|lia]|].
  destruct l as [|a l]; [done|]. cbn [chunks concat]. rewrite IH.
  - apply take_drop.
  - rewrite length_drop. cbn in *. lia.
Qed.

Lemma chunks_spec batches g detect now report db db' r :
  ids_ok (sporos_qbit_torrent db) -> project_chunks batches g detect now report db = (db', r) ->
  projects db db' /\
  match r with
  | Ok report' => exists cs, applied g detect now (concat batches) db db' cs /\
      sr_completions report' = sr_completions report ++ cs
  | Err _ => True
  end.
Proof.
  revert report db. induction batches as [|batch batches IH]; intros report db Hids; cbn [project_chunks].
  - intros [= <- <-]. split; [done|]. exists []. split; [apply applied_nil|by rewrite app_nil_r].
  - unfold mbind, M_bind. destruct (project_batch report batch g detect now db) as [d [report1|e]] eqn:Hb;
      apply batch_spec in Hb; try done; [|by intros [= <- <-]; subst d].
    destruct Hb as (cs & A & Ecs & _). pose proof (ad_projects _ _ _ _ _ _ _ A) as P.
    intros Hr. apply IH in Hr as [P2 Hr]; [|by apply (pj_ids _ _ P)]. split; [by etrans|].
    destruct r as [report'|]; [|done]. destruct Hr as (cs2 & A2 & Ecs2). exists (cs ++ cs2).
    split; [by eapply applied_app|]. by rewrite Ecs2, Ecs, app_assoc.
Qed.

(** qBittorrent pages through a fixed inventory. *)
Definition serves (all : list InventoryTorrent) : Prop :=
  forall offset limit, 0 <= offset -> 0 <= limit ->
    inventory_page offset limit = Ok (mkStream (take (Z.to_nat limit) (drop (Z.to_nat offset) all)) (Ok tt)).

Lemma pages_spec self fuel g detect now all offset report db db' r :
  serves all -> 0 < inventory_batch_size self -> (0 < database_batch_size self)%nat -> 0 <= offset ->
  ids_ok (sporos_qbit_torrent db) ->
  reconcile_pages self fuel g detect now offset report db = (db', r) ->
  projects db db' /\
  match r with
  | Ok (Some report') => exists cs,
      applied g detect now (map change_of (drop (Z.to_nat offset) all)) db db' cs /\
      sr_completions report' = sr_completions report ++ cs
  | Ok None => Z.of_nat fuel * inventory_batch_size self <= Z.of_nat (length all) - offset \/ fuel = O
  | Err _ => True
  end.
Proof.
  intros Hserve Hlim Hbatch. revert offset report db. set (limit := inventory_batch_size self) in *.
  induction fuel as [|fuel IH]; intros offset report db Ho Hids; cbn [reconcile_pages].
  - intros [= <- <-]. split; [done|by right].
  - fold limit. rewrite (Hserve offset limit) by lia. unfold mbind, M_bind, liftr. cbn [map_err].
    set (page := take (Z.to_nat limit) (drop (Z.to_nat offset) all)).
    destruct (parse_inventory _ _ []) as [sent [count|e]] eqn:Hp; apply parse_inventory_sent in Hp; cbn [map_err];
      [|by intros [= <- <-]].
    destruct Hp as [-> ->]. cbn [items]. rewrite length_map.
    destruct (project_chunks _ g detect now report db) as [d [report1|e]] eqn:Hc;
      apply chunks_spec in Hc as [P Hc]; try done; [|by intros [= <- <-]].
    destruct Hc as (cs & A & Ecs). rewrite concat_chunks in A; [|done|by rewrite length_map].
    fold page. assert (Z.of_nat (length page) <= limit) as Hle.
    { unfold page. rewrite length_take. lia. }
    destruct (Z.ltb_spec (Z.of_nat (length page)) limit) as [Hlt|Hge].
    + intros [= <- <-]. split; [done|]. exists cs. split; [|done].
      assert (drop (Z.to_nat offset) all = page) as ->; [|done]. unfold page in *. symmetry. apply take_ge.
      rewrite length_take in Hlt. lia.
    + destruct (checked_add_u64 offset _) as [offset'|] eqn:Hadd; cbn [ok_or]; [|by intros [= <- <-]].
      apply checked_add_u64_Some in Hadd as [-> _].
      assert (Z.of_nat (length page) = limit) as Hlen by lia. rewrite Hlen.
      intros Hr. apply IH in Hr as [P2 Hr]; [|lia|by apply (pj_ids _ _ P)]. split; [by etrans|].
      destruct r as [[report'|]|]; [| |done].
      * destruct Hr as (cs2 & A2 & Ecs2). exists (cs ++ cs2). rewrite Ecs2, Ecs, app_assoc. split; [|done].
        assert (map change_of (drop (Z.to_nat offset) all)
          = map change_of page ++ map change_of (drop (Z.to_nat (offset + limit)) all)) as ->.
        { rewrite <- map_app. f_equal. unfold page. rewrite Z2Nat.inj_add by lia.
          rewrite <- drop_drop. symmetry. apply take_drop. }
        by eapply applied_app.
      * left. assert (limit <= Z.of_nat (length all) - offset) as Hrem.
        { unfold page in Hlen. rewrite length_take, length_drop in Hlen. lia. }
        destruct Hr as [Hr| ->]; [|lia]. nia.
Qed.

(** The inventory of a list of torrents. *)
Definition inventory_of (all : list InventoryTorrent) : gmap str InventoryTorrent :=
  list_to_map (map (fun t => (it_hash t, t)) all).

Lemma inventory_answers all old :
  NoDup (map it_hash all) -> answers old (inventory_of all) true (map change_of all).
Proof.
  intros Hnd. assert (forall t, t ∈ all -> inventory_of all !! it_hash t = Some t) as Hin.
  { intros t Ht. apply elem_of_list_to_map_1.
    - change (NoDup ((fun p : str * InventoryTorrent => p.1) <$> map (fun t => (it_hash t, t)) all)).
      by rewrite <- list_fmap_compose.
    - by apply (list_elem_of_fmap_2 (fun t => (it_hash t, t))). }
  split.
  - intros q d (t & [= -> ->] & Ht)%list_elem_of_fmap. exists t. split; [by apply Hin|]. by split.
  - intros q (t & [=] & _)%list_elem_of_fmap.
  - intros q t Hq _. unfold inventory_of in Hq. apply elem_of_list_to_map_2 in Hq.
    apply list_elem_of_fmap in Hq as (t' & [= -> ->] & Ht).
    assert (change_of t' ∈ map change_of all) as Hc by by apply list_elem_of_fmap_2.
    eexists. exact Hc.
  - done.
Qed.

(** C8: A reconciliation ends and leaves the library mirroring the inventory.  Take a
    qBittorrent whose inventory is a fixed list of torrents, and a library whose last full
    inventory, if any, was finished ([settled]: an interrupted one leaves rows under the
    generation that this one uses again, and they would not be withdrawn), whatever else it
    holds.  For any positive sizes of pages and batches the paging ends within one
    page more than the inventory fills; when it succeeds, the library mirrors exactly
    that list and the request for a reconciliation is cleared, and when it fails, the
    state of the inventory is what it was. *)
Theorem reconcile_mirrors self fuel now db db' r all :
  serves all -> NoDup (map it_hash all) ->
  0 < inventory_batch_size self -> (0 < database_batch_size self)%nat ->
  Z.of_nat (length all) < Z.of_nat fuel * inventory_batch_size self ->
  ids_ok (sporos_qbit_torrent db) -> settled db ->
  reconcile self fuel now db = (db', r) ->
  ids_ok (sporos_qbit_torrent db') /\
  match r with
  | Ok (Some _) => mirrors db' (inventory_of all) /\ settled db' /\
      iv_reconcile_requested_at (sporos_qbit_inventory_state db') = None
  | Ok None => False
  | Err _ => sporos_qbit_inventory_state db' = sporos_qbit_inventory_state db
  end.
Proof.
  intros Hserve Hnd Hlim Hbatch Hfuel Hids Hset. unfold reconcile, state, reads, mbind, M_bind, qbit_inventory_state.
  destruct (optional_u64 _ _) as [rid|e]; cbn; [|by intros [= <- <-]].
  destruct (required_u64 _ _) as [g|e] eqn:Hg; cbn; [|by intros [= <- <-]].
  assert (g = generation_of db) as ->.
  { unfold required_u64, u64_try_from in Hg. destruct (0 <=? _); [|done]. by injection Hg as <-. }
  unfold liftr. destruct (checked_add_u64 _ 1) as [g|] eqn:Hadd; cbn [ok_or]; [|by intros [= <- <-]].
  apply checked_add_u64_Some in Hadd as [-> _]. change (generation_of db + 1) with (next_generation true (generation_of db)).
  destruct (reconcile_pages _ _ _ _ _ _ _ db) as [db1 [[report|]|e]] eqn:Hp;
    apply (pages_spec _ _ _ _ _ all) in Hp as [P Hp]; try done; try lia.
  2: { intros [= <- <-]. split; [by apply (pj_ids _ _ P)|apply P]. }
  destruct Hp as (cs & [_ Hev _ _ _] & _). cbn [drop Z.to_nat] in Hev. pose proof (pj_ids _ _ P Hids) as Hids1.
  unfold store. destruct (finish_qbit_reconcile _ _ db1) as [db2 [[]|e]] eqn:Hfin; cbn [map_err].
  2: { unfold finish_qbit_reconcile in Hfin. destruct (to_i64 _ _); [done|]. injection Hfin as <- _.
       intros [= <- <-]. split; [done|apply P]. }
  unfold finish_qbit_reconcile, to_i64, i64_try_from in Hfin.
  set (g := next_generation true (generation_of db)) in *. destruct (g <=? i64_max); cbn [ok_or] in Hfin; [|done].
  injection Hfin as <-. intros [= <- <-].
  split; [exact (proj1 (row_of_update [] (unseen g) (absent now) db1 Hids1 ltac:(done)))|].
  apply and_assoc. split; [|done]. eapply (finished_mirrors true (generation_of db) g now _ db1).
  - eapply changes_mirror; [exact Hset|by intros|apply (inventory_answers all ∅); done|exact Hev].
  - unfold g, next_generation. lia.
  - done.
  - intros q. exact (proj2 (row_of_update q (unseen g) (absent now) db1 Hids1 ltac:(done))).
Qed.

(** C9: Every completed download is reported once.  When a synchronisation succeeds, the
    completions that it reports are distinct, were not recorded before, and are recorded
    now with their operation, task and start; they are all that were recorded meanwhile.
    Once there is a baseline, every torrent that was known to be incomplete and now is
    complete has a recorded completion; before there is one, no task is created. *)
Theorem completions_reported_once self now db db' report :
  ids_ok (sporos_qbit_torrent db) -> sync_once self now db = (db', Ok report) ->
  detects (baseline db) db db' (sr_completions report).
Proof.
  intros Hids Hs. apply sync_once_spec in Hs; [|done]. destruct Hs as (body & rid & db1 & _ & _ & A & Hfin).
  pose proof (ad_projects _ _ _ _ _ _ _ A) as P.
  apply finish_sync_tables in Hfin as (_ & Ht & _ & _ & Hrow & _ & D & P2); [|by apply (pj_ids _ _ P)].
  rewrite <- (app_nil_r (sr_completions report)). destruct A as [_ _ A _ _].
  destruct A as [A1 A2 A3 A4 A5], (D (baseline db)) as [B1 B2 B3 B4 B5].
  assert (forall c, c ∈ sr_completions report ++ [] -> c ∈ sr_completions report) as Hnil by (intros c; by rewrite app_nil_r).
  assert (completions db' = completions db1) as Hc by (unfold completions; by rewrite Ht).
  split.
  - by rewrite app_nil_r.
  - intros c Hin. rewrite Ht. by apply A2, Hnil.
  - intros key. rewrite Hc, app_nil_r. apply A3.
  - intros Hd q r r' Hr Hcr Hr' Hcr'. rewrite Ht.
    destruct (pj_rows _ _ P Hids q ltac:(by rewrite Hr)) as [r1 Hr1].
    destruct (qt_is_complete r1) eqn:E1; [by eapply (A4 Hd q r r1)|].
    destruct (B4 Hd q r1 r' Hr1 E1 Hr' Hcr') as [at_ Hat]. exists at_. by rewrite <- Ht.
  - intros Hd. rewrite app_nil_r, Ht. by apply A5.
Qed.

(** A torrent among the rows that a decision may take is among its sources. *)
Lemma selected_torrent_is_source db manifest release policy sources id row :
  sporos_qbit_torrent db !! id = Some row ->
  Decision.selected db release (Candidate.source_filters policy) (id, row) = true ->
  (length (filter (fun p => Decision.selected db release (Candidate.source_filters policy) p = true)
             (map_to_list (sporos_qbit_torrent db))) <= Decision.MAX_PLAUSIBLE_SOURCES)%nat ->
  Decision.candidate_sources manifest release policy db = Ok (Decision.Loaded sources) ->
  exists s, s ∈ sources /\ lsm_id (Decision.ls_manifest s) = id /\
    lsm_kind (Decision.ls_manifest s) = QbittorrentTorrent /\
    Decision.ls_complete s = qt_is_complete row.
Proof.
  intros Hrow Hsel Hlen Hs. unfold Decision.candidate_sources in Hs.
  set (rows := filter _ _) in Hlen.
  assert ((id, row) ∈ Decision.qbit_rows db release (Candidate.source_filters policy)) as Hin.
  { unfold Decision.qbit_rows. fold rows. rewrite take_ge.
    - apply elem_of_sort_by, list_elem_of_filter. split; [done|by apply elem_of_map_to_list].
    - by rewrite (Permutation_length (sort_by_Permutation _ _)). }
  destruct (collect (Decision.qbit_source db) _) as [qbit|e] eqn:Hq; [|done].
  apply collect_Forall2 in Hq. apply list_elem_of_lookup in Hin as [i Hi].
  destruct (Forall2_lookup_l _ _ _ _ _ Hq Hi) as (s & Hsi & Hsrc).
  cbn [mbind result_bind] in Hs. destruct (collect (Decision.data_source db) _) as [data|e]; [|done].
  cbn [mbind result_bind] in Hs. destruct (try_fold _ _ _); [|done].
  destruct (collect (Decision.fill_source db manifest) _) as [filled|[e|]] eqn:Hf; [|done..].
  injection Hs as ->. apply collect_Forall2 in Hf.
  destruct (Forall2_lookup_l _ _ _ i s Hf) as (s' & Hsi' & Hfill).
  { apply lookup_app_l_Some. exact Hsi. }
  exists s'. split; [by eapply list_elem_of_lookup_2|].
  assert (lsm_id (Decision.ls_manifest s) = id /\
          lsm_kind (Decision.ls_manifest s) = QbittorrentTorrent /\
          Decision.ls_complete s = qt_is_complete row) as Hfacts.
  { unfold Decision.qbit_source in Hsrc. apply bind_Ok in Hsrc as (r & _ & [= <-]). done. }
  unfold Decision.fill_source in Hfill. destruct (negb _); [by injection Hfill as <-|].
  destruct (Decision.source_files _ _ _ _) as [[files|]|e]; [|done..]. by injection Hfill as <-.
Qed.

(** C10: What was synchronised is found.  After a synchronisation that succeeded, take a
    torrent that it reported and that is available, and a candidate whose release the
    matcher finds compatible with the release that the torrent's name announces.  If the
    source filters of the candidate's policy admit the torrent, neither release has more
    alternate titles than are recorded (32), and no more torrents than a decision may take
    (64) are plausible, then the torrent is among the sources that the decision loads for
    the candidate, unless it gives up on loading any for its file budget or an error. *)
Theorem synchronised_torrents_are_found self now db db' report body q d row candidate mode
    manifest policy sources :
  ids_ok (sporos_qbit_torrent db) -> sync_once self now db = (db', Ok report) ->
  sync_main_data (cursor db) = Ok body -> Upsert q d ∈ body_changes body ->
  row_of q (sporos_qbit_torrent db') = Some row -> qt_available row = true ->
  Decision.admitted (Candidate.source_filters policy) row = true ->
  let source := Release.parse_release (qt_name row) in
  (length (rd_alternate_titles source) <= Facts.MAX_ALTERNATE_TITLES)%nat ->
  (length (rd_alternate_titles candidate) <= Facts.MAX_ALTERNATE_TITLES)%nat ->
  Matcher.compatible candidate source mode = Ok tt ->
  (length (filter (fun p => Decision.selected db' candidate (Candidate.source_filters policy) p = true)
             (map_to_list (sporos_qbit_torrent db'))) <= Decision.MAX_PLAUSIBLE_SOURCES)%nat ->
  Decision.candidate_sources manifest candidate policy db' = Ok (Decision.Loaded sources) ->
  exists s, s ∈ sources /\ lsm_id (Decision.ls_manifest s) = source_id q /\
    lsm_kind (Decision.ls_manifest s) = QbittorrentTorrent /\
    Decision.ls_complete s = qt_is_complete row.
Proof.
  intros Hids Hs Hbody Hd Hrow Hav Hadm source H1' H2' Hcomp Hlen. apply sync_once_spec in Hs; [|done].
  destruct Hs as (body' & rid & db1 & Hbody' & _ & A & Hfin). assert (body' = body) as -> by congruence.
  pose proof (ad_projects _ _ _ _ _ _ _ A) as P.
  apply finish_sync_tables in Hfin as (Hids' & _ & _ & _ & _ & Hi & _); [|by apply (pj_ids _ _ P)].
  pose proof Hrow as [Hlook _]%row_of_Some; [|done].
  apply (selected_torrent_is_source db' manifest candidate policy sources (source_id q) row); [done| |done].
  unfold Decision.selected. cbn [fst snd]. rewrite Hav, Hadm, andb_true_r. cbn [andb].
  apply (Hi q (ad_indexed _ _ _ _ _ _ _ A q d Hd) row); [done|]. by apply Facts.compatible_facts in Hcomp.
Qed.
End Synchronise.

Module Sample.

#[local] Existing Instance ascii_unicode.
#[local] Existing Instance Completion.Sample.digest.
#[local] Existing Instance Codec.sample_candidate_codec.
#[local] Existing Instance Completion.sample_completion_codec.

Definition torrent (byte : Z) (left : Z) (progress : spec_float) (state : string) : InventoryTorrent :=
  {| it_hash := replicate 40 byte; it_infohash_v1 := replicate 40 byte; it_infohash_v2 := [];
     it_name := lit "the.film.1999"; it_total_size := 4; it_amount_left := left; it_progress := progress;
     it_state := lit state; it_save_path := lit "/data"; it_content_path := lit "/data/film";
     it_category := lit "video"; it_tags := lit "one, two"; it_added_on := 1; it_completion_on := 0 |}.

Definition loading : InventoryTorrent := torrent 97 4 f64_zero "stoppedDL".
Definition finished : InventoryTorrent := torrent 97 0 f64_one "uploading".
Definition other : InventoryTorrent := torrent 98 4 f64_zero "stoppedDL".

Definition delta_of (t : InventoryTorrent) : InventoryDelta :=
  match change_of t with Upsert _ d => d | Removed _ => mkInventoryDelta None None None None None None None None None None None None None end.

(** The end of a download, as qBittorrent reports it. *)
Definition completed : InventoryDelta :=
  {| d_infohash_v1 := None; d_infohash_v2 := None; d_name := None; d_total_size := None;
     d_amount_left := Some 0; d_progress := Some f64_one; d_state := Some (lit "uploading");
     d_save_path := None; d_content_path := None; d_category := None; d_tags := None;
     d_added_on := None; d_completion_on := Some 12 |}.

Definition body (rid : Z) (full : bool) (entries : list (str * InventoryDelta))
    (ending : result Pieces.InventoryParseError ()) : MainReader :=
  mkMainReader (mkStream [Rid rid; FullUpdate full; Torrents (mkStream entries ending)] (Ok tt)) (Ok tt).

Definition first : MainReader := body 5 true [(it_hash loading, delta_of loading)] (Ok tt).
Definition second : MainReader := body 6 false [(it_hash finished, completed)] (Ok tt).

Definition client : QbitClient := {|
  QbittorrentError := ();
  sync_main_data rid := if rid =? 0 then Ok first else if rid =? 5 then Ok second else Err tt;
  inventory_page offset limit :=
    Ok (mkStream (take (Z.to_nat limit) (drop (Z.to_nat offset) [loading; other])) (Ok tt));
  torrent_files _ := Err tt |}.
#[local] Existing Instance client.

Definition self : InventorySynchronizer := mkSynchronizer 1 1.
Definition db : Library :=
  mkLibrary empty_db ∅ ∅ ∅ ∅ ∅ (mkInventoryRow None 0 None None None None None None) ∅ ∅ ∅ ∅ ∅ ∅ ∅ ∅.
Definition db1 : Library := (sync_once self 10 db).1.
Definition db2 : Library := (sync_once self 20 db1).1.
Definition db3 : Library := (reconcile self 3 30 db).1.

Lemma ids_empty : ids_ok (sporos_qbit_torrent db).
Proof. intros id row q Hrow. discriminate Hrow. Qed.
Lemma settled_empty : settled db.
Proof. intros q row Hrow. apply row_of_Some in Hrow as [Hrow _]; [discriminate Hrow|apply ids_empty]. Qed.

Lemma first_answers : answers ∅ {[ it_hash loading := loading ]} true (body_changes first).
Proof.
  split.
  - intros q d Hd. change (Upsert q d ∈ [Upsert (it_hash loading) (delta_of loading)]) in Hd.
    apply list_elem_of_singleton in Hd. injection Hd as -> ->. exists loading.
    rewrite lookup_singleton_eq. split; [done|by split].
  - intros q Hr. change (Removed q ∈ [Upsert (it_hash loading) (delta_of loading)]) in Hr.
    apply list_elem_of_singleton in Hr. discriminate Hr.
  - intros q t Hq _. apply lookup_singleton_Some in Hq as [<- <-]. exists (delta_of loading). by left.
  - done.
Qed.

Lemma ran now d d' n cs ms full :
  (sync_once self now d).1 = d' -> (sync_once self now d).2 = Ok (mkSyncReport n cs ms full) ->
  sync_once self now d = (d', Ok (mkSyncReport n cs ms full)).
Proof. intros <- <-. apply surjective_pairing. Qed.

Lemma sync_mirrors_qbittorrent_witness :
  exists report, sync_once self 10 db = (db1, Ok report) /\ mirrors db1 {[ it_hash loading := loading ]} /\ settled db1.
Proof.
  assert (sync_once self 10 db = (db1, Ok (mkSyncReport 1 [] [] true))) as Hs
    by (apply ran; [done|vm_compute; reflexivity]).
  eexists. split; [exact Hs|].
  refine (proj2 (sync_mirrors_qbittorrent self 10 db db1 (Ok _) ∅ {[ it_hash loading := loading ]}
    ids_empty settled_empty _ _ Hs)).
  - intros q. rewrite lookup_empty. intros row Hrow. apply row_of_Some in Hrow as [Hrow _]; [discriminate Hrow|apply ids_empty].
  - intros b Hb. assert (first = b) as <- by (vm_compute in Hb |- *; by injection Hb). exact first_answers.
Defined.

Lemma ids_db1 : ids_ok (sporos_qbit_torrent db1).
Proof.
  pose proof (sync_once_spec self 10 db db1 (Ok (mkSyncReport 1 [] [] true)) ids_empty
    ltac:(apply ran; [done|vm_compute; reflexivity])) as (b & rid & d & _ & _ & A & Hfin).
  by apply finish_sync_tables in Hfin as [? _]; [|apply (pj_ids _ _ (ad_projects _ _ _ _ _ _ _ A)), ids_empty].
Qed.

Lemma completions_reported_once_witness :
  exists c report, sync_once self 20 db1 = (db2, Ok report) /\ sr_completions report = [c] /\
    ct_completed_at c = 12 /\ Completion.recorded (ct_source_id c) 12 (tasks db2).
Proof.
  set (c := mkCompletionTransition (source_id (it_hash loading)) 12
              (Completion.operation_id (source_id (it_hash loading)) 12)
              (Completion.completion_task_id (source_id (it_hash loading)) 12)).
  assert (sync_once self 20 db1 = (db2, Ok (mkSyncReport 1 [c] [source_id (it_hash loading)] false))) as Hs
    by (apply ran; [done|vm_compute; reflexivity]).
  exists c. eexists. split; [exact Hs|]. split; [done|]. split; [done|].
  destruct (completions_reported_once self 20 db1 db2 _ ids_db1 Hs) as [_ Hnew _ _ _].
  exact (proj1 (proj2 (Hnew c ltac:(by left)))).
Defined.

Definition film : ReleaseDescriptor :=
  mkReleaseDescriptor UnknownVideo (lit "the film") [] None None None None None None None None
    None None None None None None.
Definition film_policy : Candidate.CandidatePolicy :=
  Candidate.mkCandidatePolicy default_policy (Candidate.mkSourceFilters [lit "video"] [] [] [] true) 1000
    (Candidate.mkInjectionConfig false [] [] false false Pieces.CompleteOnly) [] [] [].
Definition film_manifest : TorrentManifest := mkTorrentManifest no_hashes [] None [].

Definition film_sources : list Decision.LoadedSource :=
  match Decision.candidate_sources film_manifest film film_policy db1 with
  | Ok (Decision.Loaded sources) => sources
  | _ => []
  end.

Lemma synchronised_torrents_are_found_witness :
  exists s, s ∈ film_sources /\ lsm_id (Decision.ls_manifest s) = source_id (it_hash loading).
Proof.
  assert (sync_once self 10 db = (db1, Ok (mkSyncReport 1 [] [] true))) as Hs
    by (apply ran; [done|vm_compute; reflexivity]).
  destruct (row_of (it_hash loading) (sporos_qbit_torrent db1)) as [row|] eqn:Hrow.
  2: { exfalso. vm_compute in Hrow. discriminate Hrow. }
  assert (qt_name row = lit "the.film.1999") as Hname
    by (apply (f_equal (fmap qt_name)) in Hrow; vm_compute in Hrow; by injection Hrow).
  assert (qt_available row = true) as Hav.
  { assert (qt_available <$> row_of (it_hash loading) (sporos_qbit_torrent db1) = Some true) as E
      by (vm_compute; reflexivity). rewrite Hrow in E. exact (inj Some _ _ E). }
  assert (Decision.admitted (Candidate.source_filters film_policy) row = true) as Hadm.
  { assert (Decision.admitted (Candidate.source_filters film_policy)
      <$> row_of (it_hash loading) (sporos_qbit_torrent db1) = Some true) as E
      by (vm_compute; reflexivity). rewrite Hrow in E. exact (inj Some _ _ E). }
  destruct (synchronised_torrents_are_found self 10 db db1 (mkSyncReport 1 [] [] true) first
    (it_hash loading) (delta_of loading) row film false film_manifest film_policy film_sources
    ids_empty Hs) as (s & Hs1 & Hs2 & _).
  - vm_compute. reflexivity.
  - by left.
  - exact Hrow.
  - exact Hav.
  - exact Hadm.
  - rewrite Hname. vm_compute. lia.
  - vm_compute. lia.
  - rewrite Hname. vm_compute. reflexivity.
  - vm_compute. lia.
  - vm_compute. reflexivity.
  - exists s. exact (conj Hs1 Hs2).
Defined.

Lemma reconcile_mirrors_witness :
  exists report, reconcile self 3 30 db = (db3, Ok (Some report)) /\
    mirrors db3 (inventory_of [loading; other]) /\ settled db3.
Proof.
  assert (reconcile self 3 30 db = (db3, Ok (Some (mkSyncReport 2 [] [] true)))) as Hr
    by (rewrite (surjective_pairing (reconcile _ _ _ db)); apply (f_equal2 pair eq_refl); vm_compute; reflexivity).
  eexists. split; [exact Hr|].
  destruct (reconcile_mirrors self 3 30 db db3 _ [loading; other]
    ltac:(by intros offset limit _ _)
    ltac:(apply (bool_decide_unpack (NoDup (map it_hash [loading; other]))); vm_compute; exact I)
    ltac:(done) ltac:(cbn; lia) ltac:(done) ids_empty settled_empty Hr) as (_ & Hm & Hs & _).
  split; [exact Hm|exact Hs].
Defined.

(** ** An interrupted inventory *)

Definition broken : MainReader := body 5 true [(it_hash loading, delta_of loading)] (Err Pieces.Json).
Definition whole : MainReader := body 6 true [(it_hash other, delta_of other)] (Ok tt).
Definition answering (main : MainReader) : QbitClient := {|
  QbittorrentError := (); sync_main_data _ := Ok main; inventory_page _ _ := Err tt; torrent_files _ := Err tt |}.

(** An inventory that is interrupted leaves torrents available that are gone.  A
    generation is used again when the synchronisation that began it fails: a full
    inventory shows one torrent and is cut off, and the full inventory that succeeds
    after it, under the same generation, does not show it; its row still is available,
    although the row of no other torrent should be. *)
Theorem interrupted_inventory_keeps_deleted :
  exists db1 db2 e report row,
    sync_once (H3 := answering broken) self 10 db = (db1, Err e) /\
    sync_once (H3 := answering whole) self 20 db1 = (db2, Ok report) /\
    body_full whole = true /\ (forall d, Upsert (it_hash loading) d ∉ body_changes whole) /\
    row_of (it_hash loading) (sporos_qbit_torrent db2) = Some row /\ qt_available row = true.
Proof.
  set (d1 := (sync_once (H3 := answering broken) self 10 db).1).
  set (d2 := (sync_once (H3 := answering whole) self 20 d1).1).
  assert (exists row, row_of (it_hash loading) (sporos_qbit_torrent d2) = Some row /\ qt_available row = true)
    as (row & Hrow & Hav).
  { destruct (row_of (it_hash loading) (sporos_qbit_torrent d2)) as [row|] eqn:E.
    - exists row. split; [reflexivity|]. apply (f_equal (fmap qt_available)) in E. vm_compute in E. by injection E.
    - vm_compute in E. discriminate E. }
  exists d1, d2, (SyParse Pieces.Json), (mkSyncReport 1 [] [] true), row.
  split; [rewrite (surjective_pairing (sync_once _ _ db)); apply (f_equal2 pair eq_refl); vm_compute; reflexivity|].
  split; [rewrite (surjective_pairing (sync_once _ _ d1)); apply (f_equal2 pair eq_refl); vm_compute; reflexivity|].
  split; [reflexivity|]. split; [|exact (conj Hrow Hav)].
  intros d Hd. change (Upsert (it_hash loading) d ∈ [Upsert (it_hash other) (delta_of other)]) in Hd.
  apply list_elem_of_singleton in Hd. discriminate Hd.
Qed.
End Sample.
