(* ===== verification/Catalogue.v ===== *)
(** The tables of searches and scans (migrations/0003, 0006, 0011, 0012) around the library:
    indexers, the searches made of them and the limits of their rates, how far the scan of a
    data directory has come, and what Sonarr and Radarr said of torrents. *)

From S2P Require Import Prelude Text Store Library.
From stdpp Require Import strings.
Local Open Scope Z_scope.

(** ** Rows *)

Record IndexerRow := mkIndexerRow {
  ix_name : str; ix_protocol : str; ix_enabled : bool; ix_supports_search : bool; ix_redirect : bool;
  ix_priority : Z; ix_tags : list Z; ix_capabilities_json : str; ix_eligible : bool;
  ix_ineligible_reason : option str; ix_status_json : option str; ix_refreshed_at : Z }.

Record AttemptRow := mkAttemptRow {
  sa_source_id : str; sa_indexer_id : Z; sa_query_fingerprint : str; sa_policy_snapshot_id : str;
  sa_trigger : str; sa_state : str; sa_results_seen : Z; sa_results_downloaded : Z;
  sa_next_eligible_at : option Z; sa_reason_code : option str; sa_created_at : Z;
  sa_completed_at : option Z; sa_task_id : option str; sa_dependency_attempts : Z }.

Record RateRow := mkRateRow { rl_next_eligible_at : Z; rl_updated_at : Z }.

Record SummaryRow := mkSummaryRow {
  sm_fingerprint : str; sm_title : str; sm_size : option Z; sm_state : str;
  sm_candidate_id : option str }.

Record ScanStateRow := mkScanStateRow {
  ss_root_name : str; ss_generation : Z; ss_observed_releases : Z; ss_state : str;
  ss_reason_code : option str; ss_updated_at : Z }.

Record DirectoryRow := mkDirectoryRow {
  dd_depth : Z; dd_cursor_name : option str; dd_state : str }.

(** What an instance of Sonarr or Radarr said of a torrent, by source, kind and instance *)
Record EnrichmentRow := mkEnrichmentRow {
  en_source_hash : str; en_identity_json : option str; en_fetched_at : Z; en_negative_expires_at : option Z }.

(** ** The whole database *)

Record Catalogue := mkCatalogue {
  library : Library;
  sporos_indexer : gmap Z IndexerRow;
  sporos_search_attempt : gmap str AttemptRow;
  sporos_indexer_rate_limit : gmap Z RateRow;
  sporos_search_result_summary : gmap (str * Z) SummaryRow;
  sporos_data_scan_state : gmap str ScanStateRow;
  sporos_data_scan_directory : gmap (str * str) DirectoryRow;
  sporos_arr_enrichment_cache : gmap (str * str * str) EnrichmentRow }.

Definition with_library (l : Library) (c : Catalogue) : Catalogue :=
  mkCatalogue l (sporos_indexer c) (sporos_search_attempt c) (sporos_indexer_rate_limit c)
    (sporos_search_result_summary c) (sporos_data_scan_state c) (sporos_data_scan_directory c)
    (sporos_arr_enrichment_cache c).
Definition with_indexers (t : gmap Z IndexerRow) (c : Catalogue) : Catalogue :=
  mkCatalogue (library c) t (sporos_search_attempt c) (sporos_indexer_rate_limit c)
    (sporos_search_result_summary c) (sporos_data_scan_state c) (sporos_data_scan_directory c)
    (sporos_arr_enrichment_cache c).
Definition with_attempts (t : gmap str AttemptRow) (c : Catalogue) : Catalogue :=
  mkCatalogue (library c) (sporos_indexer c) t (sporos_indexer_rate_limit c)
    (sporos_search_result_summary c) (sporos_data_scan_state c) (sporos_data_scan_directory c)
    (sporos_arr_enrichment_cache c).
Definition with_rates (t : gmap Z RateRow) (c : Catalogue) : Catalogue :=
  mkCatalogue (library c) (sporos_indexer c) (sporos_search_attempt c) t
    (sporos_search_result_summary c) (sporos_data_scan_state c) (sporos_data_scan_directory c)
    (sporos_arr_enrichment_cache c).
Definition with_summaries (t : gmap (str * Z) SummaryRow) (c : Catalogue) : Catalogue :=
  mkCatalogue (library c) (sporos_indexer c) (sporos_search_attempt c) (sporos_indexer_rate_limit c)
    t (sporos_data_scan_state c) (sporos_data_scan_directory c)
    (sporos_arr_enrichment_cache c).
Definition with_scans (t : gmap str ScanStateRow) (c : Catalogue) : Catalogue :=
  mkCatalogue (library c) (sporos_indexer c) (sporos_search_attempt c) (sporos_indexer_rate_limit c)
    (sporos_search_result_summary c) t (sporos_data_scan_directory c)
    (sporos_arr_enrichment_cache c).
Definition with_directories (t : gmap (str * str) DirectoryRow) (c : Catalogue) : Catalogue :=
  mkCatalogue (library c) (sporos_indexer c) (sporos_search_attempt c) (sporos_indexer_rate_limit c)
    (sporos_search_result_summary c) (sporos_data_scan_state c) t (sporos_arr_enrichment_cache c).
Definition with_enrichments (t : gmap (str * str * str) EnrichmentRow) (c : Catalogue) : Catalogue :=
  mkCatalogue (library c) (sporos_indexer c) (sporos_search_attempt c) (sporos_indexer_rate_limit c)
    (sporos_search_result_summary c) (sporos_data_scan_state c) (sporos_data_scan_directory c) t.

Definition empty_catalogue (l : Library) : Catalogue := mkCatalogue l ∅ ∅ ∅ ∅ ∅ ∅ ∅.

(** A statement on the task tables, or on the library *)
Definition on_library {E A} (m : M Library E A) : M Catalogue E A := fun c =>
  let '(l, r) := m (library c) in (with_library l c, r).
Definition on_tasks {E A} (m : M Db E A) : M Catalogue E A :=
  on_library (fun l => let '(t, r) := m (tasks l) in (with_tasks t l, r)).

(** [UPDATE t SET ... WHERE key = ?] *)
Definition update_row {K A} `{Countable K} (k : K) (f : A -> A) (t : gmap K A) : gmap K A := alter f k t.

(** The indexers of a search: the eligible ones by priority, or those asked for that are
    eligible. *)
Definition indexer_leb (a b : Z * IndexerRow) : bool :=
  (ix_priority a.2 <? ix_priority b.2)
  || ((ix_priority a.2 =? ix_priority b.2) && (a.1 <=? b.1)).
Definition is_eligible (c : Catalogue) (id : Z) : bool :=
  match sporos_indexer c !! id with Some row => ix_eligible row | None => false end.
Definition all_eligible (c : Catalogue) : list Z :=
  map fst (sort_by indexer_leb
    (filter (fun p : Z * IndexerRow => ix_eligible p.2 = true) (map_to_list (sporos_indexer c)))).
Definition eligible_indexers (c : Catalogue) (selected : list Z) : list Z :=
  match selected with
  | [] => all_eligible c
  | _ => filter (fun id => is_eligible c id = true) selected
  end.

(** ** Updates of the rows that a search or a scan owns *)

(** [UPDATE sporos_task SET operation_id = ?] *)
Definition with_operation_id (operation_id : option str) (row : TaskRow) : TaskRow :=
  {| t_kind := t_kind row; t_state := t_state row; projection_generation := projection_generation row;
     t_operation_id := operation_id; duroxide_instance_id := duroxide_instance_id row;
     duroxide_execution_id := duroxide_execution_id row; policy_snapshot_id := policy_snapshot_id row;
     t_reason_code := t_reason_code row; last_error_class := last_error_class row;
     last_error_message := last_error_message row; observed_retry_count := observed_retry_count row;
     t_created_at := t_created_at row; updated_at := updated_at row; terminal_at := terminal_at row;
     projection_repair_checked_at := projection_repair_checked_at row |}.

(** [UPDATE sporos_task SET state, reason_code, observed_retry_count, updated_at,
    terminal_at] *)
Definition with_progress (state : str) (reason : option str) (retries at_ : Z) (terminal : option Z)
    (row : TaskRow) : TaskRow :=
  {| t_kind := t_kind row; t_state := state; projection_generation := projection_generation row;
     t_operation_id := t_operation_id row; duroxide_instance_id := duroxide_instance_id row;
     duroxide_execution_id := duroxide_execution_id row; policy_snapshot_id := policy_snapshot_id row;
     t_reason_code := reason; last_error_class := last_error_class row;
     last_error_message := last_error_message row; observed_retry_count := retries;
     t_created_at := t_created_at row; updated_at := at_; terminal_at := terminal;
     projection_repair_checked_at := projection_repair_checked_at row |}.

Definition with_operation_state (state : str) (produced : Z) (cursor : option str) (at_ : Z)
    (row : OperationRow) : OperationRow :=
  mkOperationRow (op_kind row) state (op_instance_id row) (op_request_json row) produced cursor
    (op_created_at row) at_.

Definition update_tasks (f : gmap str TaskRow -> gmap str TaskRow) (c : Catalogue) : Catalogue :=
  with_library (with_tasks (set_tasks f (tasks (library c))) (library c)) c.
Definition update_operations (f : gmap str OperationRow -> gmap str OperationRow) (c : Catalogue)
  : Catalogue :=
  with_library (with_tasks (set_operations f (tasks (library c))) (library c)) c.

Lemma with_library_id c : with_library (library c) c = c.
Proof. by destruct c. Qed.
#[export] Hint Rewrite with_library_id : sporos.
