(* ===== verification/Torznab.v ===== *)
(** Torznab responses (torznab.rs): the items of a feed, from the events of an XML reader.

    The reader is the third-party crate quick_xml: a response is the list of its events, of
    which each may be an error, and [Eof] is the end of the list.  [parse_torznab] and
    [parse_torznab_async] have the same loop; they differ in what they read from. *)

From S2P Require Import Prelude Text.
From stdpp Require Import strings.
Local Open Scope Z_scope.

Definition MAX_DEPTH : Z := 32.
Definition MAX_FIELD_BYTES : nat := 16 * 1024.

Record TorznabResult := mkTorznabResult {
  tr_title : str; tr_guid : option str; tr_download_url : str; tr_size : option Z }.

(** ** The reader *)

(** [is_too_large] is an I/O error of the kind [FileTooLarge]. *)
Class Xml := { XmlError : Type; is_too_large : XmlError -> bool }.

Section Torznab.
Context `{Xml}.

(** An attribute: its local name and its normalised value.  A reference that is not one of
    XML's own is resolved as a character, if it is one. *)
Definition Attribute : Type := result XmlError (str * result XmlError str).
Inductive XmlEvent :=
| Start (local_name : str)
| Empty (local_name : str) (attributes : list Attribute)
| EText (content : str)
| CData (content : str)
| GeneralRef (name : str) (char_ref : result XmlError (option Z))
| End (local_name : str)
| DocType
| PI
| Other.

Inductive TorznabParseError :=
| LimitExceeded
| DepthExceeded
| ProhibitedXml
| XmlInvalid (e : XmlError)
| Consumer (message : str).

Definition classify_error (e : XmlError) : TorznabParseError :=
  if is_too_large e then LimitExceeded else XmlInvalid e.

(** ** Items *)

Inductive Field := Title | Guid | Link.

Record Item := mkItem {
  it_title : str; it_guid : str; it_url : str; it_size : option Z; it_invalid : bool }.
Definition default_item : Item := mkItem [] [] [] None false.

Definition invalidate (i : Item) : Item :=
  mkItem (it_title i) (it_guid i) (it_url i) (it_size i) true.
Definition set_size (size : Z) (i : Item) : Item :=
  mkItem (it_title i) (it_guid i) (it_url i) (Some size) (it_invalid i).

Definition set_url (value : str) (i : Item) : Item :=
  if (MAX_FIELD_BYTES <? length value)%nat then invalidate i
  else mkItem (it_title i) (it_guid i) value (it_size i) (it_invalid i).

Definition append (i : Item) (field : Field) (value : str) : Item :=
  let target := match field with Title => it_title i | Guid => it_guid i | Link => it_url i end in
  if (MAX_FIELD_BYTES <? length target + length value)%nat then invalidate i else
  match field with
  | Title => mkItem (target ++ value) (it_guid i) (it_url i) (it_size i) (it_invalid i)
  | Guid => mkItem (it_title i) (target ++ value) (it_url i) (it_size i) (it_invalid i)
  | Link => mkItem (it_title i) (it_guid i) (target ++ value) (it_size i) (it_invalid i)
  end.

Definition finish (i : Item) : option TorznabResult :=
  let title := trim (it_title i) in
  let guid := trim (it_guid i) in
  let download_url := trim (it_url i) in
  if it_invalid i || bool_decide (title = []) || bool_decide (download_url = []) then None else
  Some (mkTorznabResult title (if bool_decide (guid = []) then None else Some guid) download_url
          (it_size i)).

Fixpoint attribute (attributes : list Attribute) (name : str) : result TorznabParseError (option str) :=
  match attributes with
  | [] => Ok None
  | Err e :: _ => Err (classify_error e)
  | Ok (key, value) :: attributes =>
      if str_eqb key name then Some <$> map_err classify_error value
      else attribute attributes name
  end.

(** A character, as its bytes *)
Definition resolve_reference (name : str) (char_ref : result XmlError (option Z))
  : result TorznabParseError str :=
  if str_eqb name (lit "lt") then Ok (lit "<") else
  if str_eqb name (lit "gt") then Ok (lit ">") else
  if str_eqb name (lit "amp") then Ok (lit "&") else
  if str_eqb name (lit "apos") then Ok (lit "'") else
  if str_eqb name (lit "quot") then Ok [34] else
  c ← map_err classify_error char_ref;
  c ← ok_or c ProhibitedXml;
  Ok (encode_utf8 c).

(** ** The loop *)

Record Parsing := mkParsing { ps_depth : Z; ps_item : option Item; ps_field : option Field }.

(** What an event is to an open item *)
Definition empty_element (name : str) (attributes : list Attribute) (item : Item)
  : result TorznabParseError Item :=
  if str_eqb name (lit "enclosure") then
    url ← attribute attributes (lit "url");
    Ok (match url with Some value => set_url value item | None => item end)
  else if str_eqb name (lit "attr") then
    which ← attribute attributes (lit "name");
    if bool_decide (which = Some (lit "size")) then
      value ← attribute attributes (lit "value");
      Ok (match value ≫= parse_u64 with Some size => set_size size item | None => invalidate item end)
    else Ok item
  else Ok item.

Definition add_text (s : Parsing) (content : str) : Parsing :=
  match ps_item s, ps_field s with
  | Some item, Some field => mkParsing (ps_depth s) (Some (append item field content)) (ps_field s)
  | _, _ => s
  end.

Definition start_element (s : Parsing) (name : str) : result TorznabParseError Parsing :=
  let depth := ps_depth s + 1 in
  if MAX_DEPTH <? depth then Err DepthExceeded else
  let item := if str_eqb name (lit "item") then Some default_item else ps_item s in
  let field :=
    match ps_item s with
    | None => ps_field s
    | Some _ =>
        if str_eqb name (lit "item") then ps_field s else
        if str_eqb name (lit "title") then Some Title else
        if str_eqb name (lit "guid") then Some Guid else
        if str_eqb name (lit "link") then Some Link else ps_field s
    end in
  Ok (mkParsing depth item field).

(** The end of an element, and the result that it completes *)
Definition end_element (s : Parsing) (name : str) : Parsing * option TorznabResult :=
  let field := if str_mem name [lit "title"; lit "guid"; lit "link"] then None else ps_field s in
  let depth := Z.max 0 (ps_depth s - 1) in
  if str_eqb name (lit "item") then (mkParsing depth None field, ps_item s ≫= finish)
  else (mkParsing depth (ps_item s) field, None).

Definition step (s : Parsing) (event : XmlEvent)
  : result TorznabParseError (Parsing * option TorznabResult) :=
  match event with
  | Start name => s ← start_element s name; Ok (s, None)
  | Empty name attributes =>
      match ps_item s with
      | None => Ok (s, None)
      | Some item =>
          item ← empty_element name attributes item;
          Ok (mkParsing (ps_depth s) (Some item) (ps_field s), None)
      end
  | EText content | CData content => Ok (add_text s content, None)
  | GeneralRef name char_ref =>
      value ← resolve_reference name char_ref;
      Ok (add_text s value, None)
  | End name => Ok (end_element s name)
  | DocType | PI => Err ProhibitedXml
  | Other => Ok (s, None)
  end.

(** [emit] is the caller's closure, on a state of its own. *)
Fixpoint parse_loop {T} (emit : T -> TorznabResult -> result str T) (result_limit : Z)
    (events : list (result XmlError XmlEvent)) (s : Parsing) (emitted : Z) (t : T)
  : T * result TorznabParseError Z :=
  match events with
  | [] => (t, Ok emitted)
  | Err e :: _ => (t, Err (classify_error e))
  | Ok event :: events =>
      match step s event with
      | Err e => (t, Err e)
      | Ok (s, None) => parse_loop emit result_limit events s emitted t
      | Ok (s, Some found) =>
          match emit t found with
          | Err message => (t, Err (Consumer message))
          | Ok t =>
              if emitted + 1 =? result_limit then (t, Ok (emitted + 1))
              else parse_loop emit result_limit events s (emitted + 1) t
          end
      end
  end.

Definition parse_torznab_async {T} (emit : T -> TorznabResult -> result str T) (result_limit : Z)
    (events : list (result XmlError XmlEvent)) (t : T) : T * result TorznabParseError Z :=
  if result_limit =? 0 then (t, Ok 0)
  else parse_loop emit result_limit events (mkParsing 0 None None) 0 t.

(** The closure of prowlarr.rs *)
Definition collect_results (results : list TorznabResult) (found : TorznabResult)
  : result str (list TorznabResult) := Ok (results ++ [found]).

(** ** What is delivered *)

Definition fits (s : str) : Prop := (length s <= MAX_FIELD_BYTES)%nat.
Definition size_ok (size : option Z) : Prop :=
  match size with Some n => 0 <= n <= u64_max | None => True end.
Record item_ok (i : Item) : Prop := {
  io_title : fits (it_title i); io_guid : fits (it_guid i); io_url : fits (it_url i);
  io_size : size_ok (it_size i) }.

(** A text that is the trimmed content of a field within its limit *)
Definition trimmed (s : str) : Prop := s <> [] /\ exists raw, s = trim raw /\ fits raw.
Record result_ok (r : TorznabResult) : Prop := {
  ro_title : trimmed (tr_title r); ro_url : trimmed (tr_download_url r);
  ro_guid : forall guid, tr_guid r = Some guid -> trimmed guid; ro_size : size_ok (tr_size r) }.

Definition state_ok (s : Parsing) : Prop :=
  0 <= ps_depth s <= MAX_DEPTH /\ forall i, ps_item s = Some i -> item_ok i.

Lemma append_ok i field value : item_ok i -> item_ok (append i field value).
Proof.
  intros [A B C D]. unfold append. destruct (Nat.ltb_spec MAX_FIELD_BYTES
    (length (match field with Title => it_title i | Guid => it_guid i | Link => it_url i end) + length value)).
  - by split.
  - destruct field; split; try done; unfold fits; cbn [it_title it_guid it_url]; rewrite length_app; lia.
Qed.

Lemma empty_element_ok name attributes i i' :
  item_ok i -> empty_element name attributes i = Ok i' -> item_ok i'.
Proof.
  intros Hi. unfold empty_element. destruct (str_eqb name (lit "enclosure")).
  - intros (url & _ & [= <-])%bind_Ok. destruct url as [value|]; [|done]. unfold set_url.
    destruct (Nat.ltb_spec MAX_FIELD_BYTES (length value)); destruct Hi; by split.
  - destruct (str_eqb name (lit "attr")); [|by intros [= <-]].
    intros (which & _ & Hr)%bind_Ok. case_bool_decide; [|by injection Hr as <-].
    apply bind_Ok in Hr as (value & _ & [= <-]).
    destruct (value ≫= parse_u64) as [size|] eqn:Hs; [|destruct Hi; by split].
    destruct Hi; split; try done. cbn. destruct value; [|done]. by eapply parse_u64_range.
Qed.

Lemma finish_ok i found : item_ok i -> finish i = Some found -> result_ok found.
Proof.
  intros [A B C D]. unfold finish. destruct (it_invalid i); [done|].
  case_bool_decide as Ht; [done|]. case_bool_decide as Hu; [done|]. intros [= <-]. split; cbn.
  - split; [done|by eexists].
  - split; [done|by eexists].
  - intros guid. case_bool_decide as Hg; [done|]. intros [= <-]. split; [done|by eexists].
  - done.
Qed.

Lemma default_ok : item_ok default_item.
Proof. split; unfold fits; cbn; done || lia. Qed.

Lemma add_text_ok s content : state_ok s -> state_ok (add_text s content).
Proof.
  intros Hs. unfold add_text. destruct (ps_item s) as [i|] eqn:E; [|done].
  destruct (ps_field s); [|done]. destruct Hs as [Hd Hi]. split; [done|].
  intros i' [= <-]. by apply append_ok, Hi.
Qed.

Lemma step_ok s event s' found :
  state_ok s -> step s event = Ok (s', found) ->
  state_ok s' /\ forall r, found = Some r -> result_ok r.
Proof.
  intros [Hd Hi]. destruct event as [name|name attributes|content|content|name char_ref|name| | |]; cbn [step].
  - intros (s1 & Hs & [= <- <-])%bind_Ok. split; [|done]. unfold start_element in Hs.
    destruct (Z.ltb_spec MAX_DEPTH (ps_depth s + 1)); [done|]. injection Hs as <-.
    split; cbn [ps_depth ps_item]; [lia|]. intros i. destruct (str_eqb _ _); [|apply Hi]. intros [= <-]. apply default_ok.
  - destruct (ps_item s) as [i|] eqn:Hs; [|intros [= <- <-]; split; [by split; [|rewrite Hs]|done]].
    intros (i' & Hi' & [= <- <-])%bind_Ok. split; [|done]. split; [done|]. intros i'' [= <-].
    eapply empty_element_ok; [by apply Hi|exact Hi'].
  - intros [= <- <-]. split; [|done]. by apply add_text_ok.
  - intros [= <- <-]. split; [|done]. by apply add_text_ok.
  - intros (value & _ & [= <- <-])%bind_Ok. split; [|done]. by apply add_text_ok.
  - intros [= He]. unfold end_element in He. destruct (str_eqb name (lit "item")); injection He as <- <-.
    + split; [by split; [cbn; lia|]|]. intros r Hr. destruct (ps_item s) as [i|]; [|done].
      eapply finish_ok; [by apply Hi|exact Hr].
    + split; [|done]. split; [cbn; lia|exact Hi].
  - done.
  - done.
  - by intros [= <- <-].
Qed.

(** The results of a feed are bounded.  Whatever the events of a response, as many
    results are delivered as are reported and no more than asked for; each has a title and
    a download URL, which like its identifier are the trimmed contents of fields of at
    most 16 KiB, and a size that fits 64 bits. *)
Theorem feed_results_bounded result_limit events results r :
  0 <= result_limit ->
  parse_torznab_async collect_results result_limit events [] = (results, r) ->
  Z.of_nat (length results) <= result_limit /\ Forall result_ok results /\
  forall n, r = Ok n -> n = Z.of_nat (length results).
Proof.
  intros Hlimit. unfold parse_torznab_async. destruct (Z.eqb_spec result_limit 0) as [->|Hne].
  { intros [= <- <-]. split; [done|]. split; [done|]. by intros n [= <-]. }
  assert (state_ok (mkParsing 0 None None)) as Hs by (by split).
  assert (forall emitted t, emitted = Z.of_nat (length t) -> emitted < result_limit -> Forall result_ok t ->
    parse_loop collect_results result_limit events (mkParsing 0 None None) emitted t = (results, r) ->
    Z.of_nat (length results) <= result_limit /\ Forall result_ok results /\
    forall n, r = Ok n -> n = Z.of_nat (length results)) as Hgen.
  2: { apply Hgen; [done|cbn; lia|done]. }
  revert Hs. generalize (mkParsing 0 None None) as s.
  induction events as [|[event|e] events IH]; intros s Hs emitted t Hn Hlt Ht; cbn [parse_loop].
  - intros [= <- <-]. split; [lia|]. split; [done|]. by intros n [= <-].
  - destruct (step s event) as [[s' [found|]]|e] eqn:Hstep.
    + destruct (step_ok _ _ _ _ Hs Hstep) as [Hs' Hf]. unfold collect_results at 1.
      assert (Z.of_nat (length (t ++ [found])) = emitted + 1) as Hl by (rewrite length_app; cbn; lia).
      assert (Forall result_ok (t ++ [found])) as Ht'.
      { rewrite Forall_app, Forall_singleton. split; [done|by apply Hf]. }
      destruct (Z.eqb_spec (emitted + 1) result_limit) as [Heq|Hne'].
      * intros [= <- <-]. split; [lia|]. split; [done|]. intros n [= <-]. lia.
      * apply IH; [done|lia|lia|done].
    + destruct (step_ok _ _ _ _ Hs Hstep) as [Hs' _]. by apply IH.
    + intros [= <- <-]. split; [lia|]. by split.
  - intros [= <- <-]. split; [lia|]. by split.
Qed.

(** ** Feeds that are read back *)

Definition element (name content : str) : list (result XmlError XmlEvent) :=
  [Ok (Start name); Ok (EText content); Ok (End name)].

(** An item as indexers write it; [size_text] prints a size. *)
Definition item_events (size_text : Z -> str) (r : TorznabResult) : list (result XmlError XmlEvent) :=
  [Ok (Start (lit "item"))]
  ++ element (lit "title") (tr_title r)
  ++ match tr_guid r with Some guid => element (lit "guid") guid | None => [] end
  ++ [Ok (Empty (lit "enclosure") [Ok (lit "url", Ok (tr_download_url r))])]
  ++ match tr_size r with
     | Some size => [Ok (Empty (lit "attr") [Ok (lit "name", Ok (lit "size"));
                                              Ok (lit "value", Ok (size_text size))])]
     | None => []
     end
  ++ [Ok (End (lit "item"))].

Definition feed_events (size_text : Z -> str) (results : list TorznabResult)
  : list (result XmlError XmlEvent) :=
  [Ok Other; Ok (Start (lit "rss")); Ok (Start (lit "channel"))]
  ++ concat (map (item_events size_text) results) ++ [Ok (End (lit "channel")); Ok (End (lit "rss"))].

(** A result whose fields are trimmed, present and within their limits *)
Definition clean (s : str) : Prop := trim s = s /\ s <> [] /\ fits s.
Record printable (size_text : Z -> str) (r : TorznabResult) : Prop := {
  pr_title : clean (tr_title r); pr_url : clean (tr_download_url r);
  pr_guid : forall guid, tr_guid r = Some guid -> clean guid;
  pr_size : forall size, tr_size r = Some size -> parse_u64 (size_text size) = Some size }.

Lemma append_fits i field value :
  match field with Title => it_title i | Guid => it_guid i | Link => it_url i end = [] -> fits value ->
  append i field value =
    match field with
    | Title => mkItem value (it_guid i) (it_url i) (it_size i) (it_invalid i)
    | Guid => mkItem (it_title i) value (it_url i) (it_size i) (it_invalid i)
    | Link => mkItem (it_title i) (it_guid i) value (it_size i) (it_invalid i)
    end.
Proof.
  unfold append, fits. intros -> Hf. cbn [length Nat.add app].
  destruct (Nat.ltb_spec MAX_FIELD_BYTES (length value)); [lia|done].
Qed.

(** The field of an element's name *)
Definition field_named (field : Field) : str :=
  match field with Title => lit "title" | Guid => lit "guid" | Link => lit "link" end.

Lemma element_run {T} (emit : T -> TorznabResult -> result str T) limit field content rest d i emitted t :
  0 <= d < MAX_DEPTH ->
  parse_loop emit limit (element (field_named field) content ++ rest) (mkParsing d (Some i) None) emitted t
  = parse_loop emit limit rest (mkParsing d (Some (append i field content)) None) emitted t.
Proof.
  intros Hd. unfold element. cbn [app parse_loop].
  assert (step (mkParsing d (Some i) None) (Start (field_named field))
          = Ok (mkParsing (d + 1) (Some i) (Some field), None)) as ->.
  { cbn [step]. unfold start_element. cbn [ps_depth ps_item ps_field].
    destruct (Z.ltb_spec MAX_DEPTH (d + 1)); [lia|]. by destruct field. }
  cbn [step]. unfold add_text. cbn [ps_depth ps_item ps_field].
  assert (end_element (mkParsing (d + 1) (Some (append i field content)) (Some field)) (field_named field)
          = (mkParsing d (Some (append i field content)) None, None)) as ->; [|done].
  unfold end_element. cbn [ps_depth ps_item ps_field]. replace (Z.max 0 (d + 1 - 1)) with d by lia.
  by destruct field.
Qed.

Lemma item_run {T} (emit : T -> TorznabResult -> result str T) size_text limit r rest d emitted t :
  0 <= d < MAX_DEPTH - 1 -> printable size_text r ->
  parse_loop emit limit (item_events size_text r ++ rest) (mkParsing d None None) emitted t
  = match emit t r with
    | Err message => (t, Err (Consumer message))
    | Ok t => if emitted + 1 =? limit then (t, Ok (emitted + 1))
              else parse_loop emit limit rest (mkParsing d None None) (emitted + 1) t
    end.
Proof.
  intros Hd [(Ht1 & Ht2 & Ht3) (Hu1 & Hu2 & Hu3) Hg Hs]. unfold item_events. cbn [app parse_loop].
  assert (step (mkParsing d None None) (Start (lit "item")) = Ok (mkParsing (d + 1) (Some default_item) None, None)) as ->.
  { cbn [step]. unfold start_element. cbn [ps_depth ps_item ps_field].
    destruct (Z.ltb_spec MAX_DEPTH (d + 1)); [lia|done]. }
  cbn [app]. rewrite <- !app_assoc. rewrite (element_run emit limit Title) by lia.
  rewrite append_fits by done. cbn [it_title it_guid it_url it_size it_invalid default_item].
  set (guid := default [] (tr_guid r)).
  assert (forall tail,
    parse_loop emit limit (match tr_guid r with Some guid => element (lit "guid") guid | None => [] end ++ tail)
      (mkParsing (d + 1) (Some (mkItem (tr_title r) [] [] None false)) None) emitted t
    = parse_loop emit limit tail (mkParsing (d + 1) (Some (mkItem (tr_title r) guid [] None false)) None) emitted t) as ->.
  { intros tail. unfold guid. destruct (tr_guid r) as [g|]; [|done].
    rewrite (element_run emit limit Guid) by lia. by rewrite append_fits by (done || by apply Hg). }
  cbn [app parse_loop].
  assert (step (mkParsing (d + 1) (Some (mkItem (tr_title r) guid [] None false)) None)
            (Empty (lit "enclosure") [Ok (lit "url", Ok (tr_download_url r))])
          = Ok (mkParsing (d + 1) (Some (mkItem (tr_title r) guid (tr_download_url r) None false)) None, None)) as ->.
  { cbn [step ps_item]. unfold empty_element.
    change (str_eqb (lit "enclosure") (lit "enclosure")) with true. cbn [attribute].
    change (str_eqb (lit "url") (lit "url")) with true. cbn. unfold set_url.
    destruct (Nat.ltb_spec MAX_FIELD_BYTES (length (tr_download_url r))); [unfold fits in Hu3; lia|done]. }
  cbn [app]. rewrite <- app_assoc.
  assert (forall tail,
    parse_loop emit limit (match tr_size r with
      | Some size => [Ok (Empty (lit "attr") [Ok (lit "name", Ok (lit "size")); Ok (lit "value", Ok (size_text size))])]
      | None => [] end ++ tail)
      (mkParsing (d + 1) (Some (mkItem (tr_title r) guid (tr_download_url r) None false)) None) emitted t
    = parse_loop emit limit tail
        (mkParsing (d + 1) (Some (mkItem (tr_title r) guid (tr_download_url r) (tr_size r) false)) None) emitted t) as ->.
  { intros tail. destruct (tr_size r) as [size|]; [|done]. cbn [app parse_loop].
    assert (step (mkParsing (d + 1) (Some (mkItem (tr_title r) guid (tr_download_url r) None false)) None)
              (Empty (lit "attr") [Ok (lit "name", Ok (lit "size")); Ok (lit "value", Ok (size_text size))])
            = Ok (mkParsing (d + 1) (Some (mkItem (tr_title r) guid (tr_download_url r) (Some size) false)) None, None)) as ->;
      [|done].
    cbn [step ps_item]. unfold empty_element.
    change (str_eqb (lit "attr") (lit "enclosure")) with false. change (str_eqb (lit "attr") (lit "attr")) with true.
    cbn [attribute]. change (str_eqb (lit "name") (lit "name")) with true.
    change (str_eqb (lit "name") (lit "value")) with false. change (str_eqb (lit "value") (lit "value")) with true.
    cbn [map_err fmap result_fmap mbind result_bind]. rewrite bool_decide_true by done.
    cbn [option_bind mbind]. by rewrite Hs. }
  cbn [app parse_loop step]. unfold end_element. cbn [ps_item ps_depth ps_field].
  change (str_eqb (lit "item") (lit "item")) with true. cbn [mbind option_bind].
  assert (finish (mkItem (tr_title r) guid (tr_download_url r) (tr_size r) false) = Some r) as ->.
  { unfold finish. cbn [it_title it_guid it_url it_size it_invalid]. rewrite Ht1, Hu1.
    rewrite !bool_decide_false by done. cbn [orb]. f_equal. destruct r as [title g url size].
    cbn [tr_title tr_guid tr_download_url tr_size] in *. f_equal. unfold guid. cbn [tr_guid]. destruct g as [g|]; cbn [default from_option id].
    - destruct (Hg g eq_refl) as (-> & Hne & _). by rewrite bool_decide_false.
    - done. }
  replace (Z.max 0 (d + 1 - 1)) with d by lia.
  change (str_mem (lit "item") [lit "title"; lit "guid"; lit "link"]) with false. done.
Qed.

(** C18: A feed is read back.  The results printed as the items of a feed are delivered in
    order, up to as many as are asked for. *)
Theorem feed_roundtrip size_text limit results :
  0 < limit -> Forall (printable size_text) results ->
  parse_torznab_async collect_results limit (feed_events size_text results) []
  = (take (Z.to_nat limit) results, Ok (Z.min limit (Z.of_nat (length results)))).
Proof.
  intros Hlimit Hr. unfold parse_torznab_async, feed_events. rewrite (proj2 (Z.eqb_neq limit 0)) by lia.
  change (parse_loop collect_results limit
    (concat (map (item_events size_text) results) ++ [Ok (End (lit "channel")); Ok (End (lit "rss"))])
    (mkParsing 2 None None) 0 []
    = (take (Z.to_nat limit) results, Ok (Z.min limit (Z.of_nat (length results))))).
  assert (forall t, Z.of_nat (length t) < limit ->
    parse_loop collect_results limit
      (concat (map (item_events size_text) results) ++ [Ok (End (lit "channel")); Ok (End (lit "rss"))])
      (mkParsing 2 None None) (Z.of_nat (length t)) t
    = (t ++ take (Z.to_nat limit - length t) results,
       Ok (Z.min limit (Z.of_nat (length t) + Z.of_nat (length results))))) as Hgen.
  2: { specialize (Hgen [] ltac:(cbn; lia)). cbn [app length] in Hgen. by rewrite Nat.sub_0_r in Hgen. }
  induction Hr as [|r results Hp Hr IH]; intros t Ht; cbn [map concat app].
  - rewrite take_nil, app_nil_r. cbn. do 2 f_equal. lia.
  - rewrite <- app_assoc, item_run by (done || (unfold MAX_DEPTH; lia)). unfold collect_results at 1.
    assert (Z.of_nat (length t) + 1 = Z.of_nat (length (t ++ [r]))) as Hl by (rewrite length_app; cbn; lia).
    destruct (Z.eqb_spec (Z.of_nat (length t) + 1) limit) as [Heq|Hne].
    + replace (Z.to_nat limit - length t)%nat with 1%nat by lia. cbn [take length].
      f_equal. f_equal. lia.
    + rewrite Hl, IH by lia. rewrite <- app_assoc. cbn [app].
      replace (Z.to_nat limit - length t)%nat with (S (Z.to_nat limit - length (t ++ [r])))%nat
        by (rewrite length_app in *; cbn in *; lia).
      cbn [take length]. do 2 f_equal. rewrite length_app. cbn. lia.
Qed.
End Torznab.

Module Sample.

#[local] Instance xml : Xml := {| XmlError := (); is_too_large _ := false |}.

Definition first : TorznabResult :=
  mkTorznabResult (lit "The Film 1999") (Some (lit "one")) (lit "http://indexer/1") (Some 42).
Definition second : TorznabResult := mkTorznabResult (lit "Other") None (lit "http://indexer/2") None.
Definition size_text (size : Z) : str := if size =? 42 then lit "+042" else [].

Lemma clean_text s : bool_decide (trim s = s) && negb (bool_decide (s = [])) && (length s <=? MAX_FIELD_BYTES)%nat = true ->
  clean s.
Proof.
  intros [[H1%bool_decide_eq_true H2%negb_true_iff%bool_decide_eq_false]%andb_prop H3%Nat.leb_le]%andb_prop.
  split; [done|]. by split.
Qed.

Lemma both_printable : Forall (printable size_text) [first; second].
Proof.
  apply Forall_cons. split; [|apply Forall_singleton].
  - split; [apply clean_text; vm_compute; reflexivity..| |].
    + intros guid [= <-]. apply clean_text. vm_compute. reflexivity.
    + intros size [= <-]. vm_compute. reflexivity.
  - split; [apply clean_text; vm_compute; reflexivity..| |]; done.
Qed.

Lemma feed_roundtrip_witness :
  Forall (printable size_text) [first; second] /\
  parse_torznab_async collect_results 1 (feed_events size_text [first; second]) [] = ([first], Ok 1).
Proof.
  exact (conj both_printable (feed_roundtrip size_text 1 [first; second] eq_refl both_printable)).
Defined.

Lemma feed_results_bounded_witness :
  let out := parse_torznab_async collect_results 5 (feed_events size_text [first; second]) [] in
  Z.of_nat (length out.1) <= 5 /\ Forall result_ok out.1 /\ forall n, out.2 = Ok n -> n = Z.of_nat (length out.1).
Proof.
  apply (feed_results_bounded 5 (feed_events size_text [first; second])); [lia|].
  by destruct (parse_torznab_async _ _ _ _).
Defined.

(** An item whose link follows its enclosure *)
Definition link_last : list (result XmlError XmlEvent) :=
  [Ok (Start (lit "item"))] ++ element (lit "title") (lit "The Film")
  ++ [Ok (Empty (lit "enclosure") [Ok (lit "url", Ok (lit "http://indexer/1"))])]
  ++ element (lit "link") (lit "http://indexer/1") ++ [Ok (End (lit "item"))].

(** The order of the elements of an item matters: a link that follows the enclosure is
    appended to the enclosure's URL. *)
Lemma link_after_enclosure_is_appended :
  parse_torznab_async collect_results 5 link_last []
  = ([mkTorznabResult (lit "The Film") None (lit "http://indexer/1http://indexer/1") None], Ok 1).
Proof. vm_compute. reflexivity. Qed.
End Sample.
