(* ===== verification/Prowlarr.v ===== *)
(** The client of Prowlarr (prowlarr.rs): which indexers may be searched, the query that a
    release becomes, and the responses and downloads that are believed.

    HTTP, URLs and JSON values are third-party and the interface [Http]; the response to a
    request is what [get] answers.  Limiters and log lines are left out. *)

From S2P Require Import Prelude Text Model Store Duroxide Library Catalogue Torznab.
From stdpp Require Import strings.
Local Open Scope Z_scope.

Definition MAX_INDEXER_BYTES : Z := 8 * 1024 * 1024.
Definition MAX_TAG_BYTES : Z := 1024 * 1024.
Definition MAX_TORZNAB_BYTES : Z := 8 * 1024 * 1024.

(** ** The interfaces *)

Class Http := {
  HttpError : Type;
  Url : Type;
  parse_url : str -> option Url;
  join : Url -> str -> Url;
  scheme : Url -> str;
  host_str : Url -> option str;
  port_or_known_default : Url -> option Z;
  url_path : Url -> str;
  JsonValue : Type;
  JsonError : Type;
  empty_object : JsonValue;
  encode_value : JsonValue -> str;
  decode_value : str -> option JsonValue;
  (** [value.get(field)] as an array, and the strings of it *)
  strings_of : JsonValue -> str -> option (list str);
  (** [value.get(field)] is there and not null. *)
  present : JsonValue -> str -> bool }.

(** The events of the bytes of a stream; [None] is the error [FileTooLarge]. *)
Class XmlReader `{Http} `{Xml} := {
  xml_events : list (result (option HttpError) str) -> list (result XmlError XmlEvent) }.

Record Response `{Http} := mkResponse {
  rs_status : Z; rs_content_length : option Z; rs_retry_after : option str;
  rs_chunks : list (result HttpError str) }.

Record IndexerResource `{Http} := mkIndexerResource {
  ir_id : Z; ir_name : option str; ir_enable : bool; ir_redirect : bool; ir_supports_search : bool;
  ir_protocol : str; ir_priority : Z; ir_tags : option (list Z); ir_capabilities : option JsonValue;
  ir_status : option JsonValue }.

Record TagResource := mkTagResource { tg_id : Z; tg_label : str }.

(** What Prowlarr answers, and serde on its bodies *)
Class Prowlarr `{Http} := {
  get : Url -> list (str * str) -> result HttpError Response;
  decode_indexers : str -> result JsonError (list IndexerResource);
  decode_tags : str -> result JsonError (list TagResource) }.

Record ProjectedIndexer `{Http} := mkProjectedIndexer {
  pi_id : Z; pi_name : str; pi_protocol : str; pi_enabled : bool; pi_supports_search : bool;
  pi_redirect : bool; pi_priority : Z; pi_tags : list Z; pi_capabilities : JsonValue;
  pi_eligible : bool; pi_ineligible_reason : option str; pi_status : option JsonValue }.

(** Without the errors of building the client *)
Inductive ProwlarrError `{Http} `{Xml} :=
| Request (e : HttpError)
| HttpStatus (status : Z)
| RateLimited (retry_after : option Z)
| ResponseTooLarge (limit : Z)
| Malformed (what : string) (e : JsonError)
| MalformedField (what : string)
| UnknownTag (label : str)
| AmbiguousTag (label : str)
| UnsafeDownloadUrl
| RedirectRejected
| TorznabError (e : TorznabParseError)
| PwDatabase (e : SqlError)
| PwJson.

Record ProwlarrClient `{Http} := mkProwlarrClient {
  base_url : Url; pc_include_tags : list str; pc_exclude_tags : list str; require_proxy_downloads : bool;
  max_results : Z; pc_max_torrent_bytes : Z }.

Arguments mkResponse {_}.
Arguments mkIndexerResource {_}.
Arguments mkProwlarrClient {_}.

Section Prowlarr.
Context `{Http} `{Xml} `{!XmlReader} `{!Prowlarr}.

Abbreviation Answer A := (result ProwlarrError A).

(** ** Responses *)

(** A header's duration is in seconds. *)
Definition checked_response (response : Response) (limit : Z) : Answer Response :=
  let status := rs_status response in
  if status =? 429 then Err (RateLimited (rs_retry_after response ≫= parse_u64)) else
  if negb ((200 <=? status) && (status <? 300)) then Err (HttpStatus status) else
  if match rs_content_length response with Some length => limit <? length | None => false end
  then Err (ResponseTooLarge limit) else Ok response.

Definition add_chunk (limit : Z) (body : str) (chunk : result HttpError str) : Answer str :=
  chunk ← map_err Request chunk;
  if limit <? Z.of_nat (length body + length chunk) then Err (ResponseTooLarge limit)
  else Ok (body ++ chunk).
Definition checked_body (response : Response) (limit : Z) : Answer str :=
  response ← checked_response response limit;
  try_fold (add_chunk limit) (rs_chunks response) [].

(** ** Tags *)

(** The identifiers of a label, in the order of the catalogue *)
Definition ids_by_label (resources : list TagResource) (label : str) : list Z :=
  map tg_id (filter (fun r => tg_label r = label) resources).

Definition resolve_tag_ids (labels : list str) (resources : list TagResource) : Answer (list Z) :=
  collect (fun label =>
             match ids_by_label resources label with
             | [id] => Ok id
             | [] => Err (UnknownTag label)
             | _ => Err (AmbiguousTag label)
             end) labels.

Definition tag_ids (self : ProwlarrClient) : Answer (list Z * list Z) :=
  match pc_include_tags self, pc_exclude_tags self with
  | [], [] => Ok ([], [])
  | _, _ =>
      response ← map_err Request (get (join (base_url self) (lit "api/v1/tag")) []);
      body ← checked_body response MAX_TAG_BYTES;
      resources ← map_err (Malformed "tag catalogue") (decode_tags body);
      included ← resolve_tag_ids (pc_include_tags self) resources;
      excluded ← resolve_tag_ids (pc_exclude_tags self) resources;
      Ok (included, excluded)
  end.

(** ** Indexers *)

Definition mem_Z (x : Z) (l : list Z) : bool := bool_decide (x ∈ l).
Definition to_set (l : list Z) : list Z := sort_by Z.leb (remove_dups l).

(** Why an indexer is not searched *)
Definition ineligible (self : ProwlarrClient) (resource : IndexerResource) (tags included excluded : list Z)
  : option str :=
  if negb (ir_enable resource) then Some (lit "disabled") else
  if negb (str_eqb (ir_protocol resource) (lit "torrent")) then Some (lit "unsupported_protocol") else
  if negb (ir_supports_search resource) then Some (lit "search_unsupported") else
  if require_proxy_downloads self && ir_redirect resource then Some (lit "redirect_enabled") else
  if existsb (fun tag => mem_Z tag excluded) tags then Some (lit "excluded_tag") else
  if negb (bool_decide (included = [])) && negb (existsb (fun tag => mem_Z tag included) tags)
  then Some (lit "missing_include_tag") else
  if match ir_status resource with Some status => present status (lit "disabledTill") | None => false end
  then Some (lit "temporarily_disabled") else None.

Definition project (self : ProwlarrClient) (included excluded : list Z) (resource : IndexerResource)
  : Answer ProjectedIndexer :=
  name ← ok_or (match ir_name resource with Some [] | None => None | Some name => Some name end)
           (MalformedField "indexer name");
  let tags := to_set (default [] (ir_tags resource)) in
  let reason := ineligible self resource tags included excluded in
  Ok {| pi_id := ir_id resource; pi_name := name; pi_protocol := ir_protocol resource;
        pi_enabled := ir_enable resource; pi_supports_search := ir_supports_search resource;
        pi_redirect := ir_redirect resource; pi_priority := ir_priority resource; pi_tags := tags;
        pi_capabilities := default empty_object (ir_capabilities resource);
        pi_eligible := bool_decide (reason = None); pi_ineligible_reason := reason;
        pi_status := ir_status resource |}.

Definition indexers (self : ProwlarrClient) : Answer (list ProjectedIndexer) :=
  '(included, excluded) ← tag_ids self;
  response ← map_err Request (get (join (base_url self) (lit "api/v1/indexer")) []);
  body ← checked_body response MAX_INDEXER_BYTES;
  resources ← map_err (Malformed "indexer projection") (decode_indexers body);
  collect (project self included excluded) resources.

(** ** The table of indexers *)

Definition not_observed (row : IndexerRow) : IndexerRow :=
  mkIndexerRow (ix_name row) (ix_protocol row) (ix_enabled row) (ix_supports_search row)
    (ix_redirect row) (ix_priority row) (ix_tags row) (ix_capabilities_json row) false
    (Some (lit "not_observed")) (ix_status_json row) (ix_refreshed_at row).
Definition indexer_row (now : Z) (indexer : ProjectedIndexer) : IndexerRow :=
  mkIndexerRow (pi_name indexer) (pi_protocol indexer) (pi_enabled indexer)
    (pi_supports_search indexer) (pi_redirect indexer) (pi_priority indexer) (pi_tags indexer)
    (encode_value (pi_capabilities indexer)) (pi_eligible indexer) (pi_ineligible_reason indexer)
    (encode_value <$> pi_status indexer) now.

Definition project_indexers (indexers : list ProjectedIndexer) (now : Z)
  : M Catalogue ProwlarrError () := fun c =>
  (with_indexers
     (foldl (fun t indexer => <[pi_id indexer := indexer_row now indexer]> t)
        (not_observed <$> sporos_indexer c) indexers) c, Ok ()).

(** ** Queries *)

Definition SearchQuery : Type := list (str * str).

(** [SearchQuery::for_release] *)
Definition kind_and_field (kind : VideoKind) : str * str :=
  match kind with
  | Movie => (lit "movie", lit "movieSearchParams")
  | Episode | SeasonPack | DateEpisode | AbsoluteEpisode => (lit "tvsearch", lit "tvSearchParams")
  | _ => (lit "search", lit "searchParams")
  end.
Definition external_id (supported : list str) (identity : ArrIdentity) : option (str * str) :=
  find_map (fun p : str * option str =>
              if str_mem p.1 supported then (fun value => (p.1, value)) <$> p.2 else None)
    [(lit "imdbid", arr_imdb_id identity); (lit "tvdbid", decimal <$> arr_tvdb_id identity);
     (lit "tmdbid", decimal <$> arr_tmdb_id identity)].
Definition optional_parameters (supported : list str) (release : ReleaseDescriptor) : list (str * str) :=
  omap (fun p : str * option Z =>
          if str_mem p.1 supported then (fun value => (p.1, decimal value)) <$> p.2 else None)
    [(lit "year", rd_year release); (lit "season", rd_season release); (lit "ep", rd_episode release)].

Definition for_release (release : ReleaseDescriptor) (capabilities : JsonValue) : option SearchQuery :=
  let '(kind, field) := kind_and_field (rd_kind release) in
  let supported := default [] (strings_of capabilities field) in
  let external := rd_arr_identity release ≫= external_id supported in
  if bool_decide (external = None) && negb (str_mem (lit "q") supported) then None else
  Some ([(lit "t", kind)]
        ++ [default (lit "q", rd_primary_title release) external]
        ++ optional_parameters supported release
        ++ [(lit "extended", lit "1")]).

Definition indexer_query (indexer_id : Z) (release : ReleaseDescriptor) (c : Catalogue)
  : Answer (option SearchQuery) :=
  match sporos_indexer c !! indexer_id with
  | Some row =>
      if ix_eligible row then
        capabilities ← ok_or (decode_value (ix_capabilities_json row)) PwJson;
        Ok (for_release release capabilities)
      else Ok None
  | None => Ok None
  end.

(** The chunks of a stream that fit its limit; the count is of those that did. *)
Fixpoint limit_chunks (received : Z) (chunks : list (result HttpError str))
  : list (result (option HttpError) str) :=
  match chunks with
  | [] => []
  | Err e :: chunks => Err (Some e) :: limit_chunks received chunks
  | Ok bytes :: chunks =>
      let received' := saturating_add_u64 received (Z.of_nat (length bytes)) in
      if received' <=? MAX_TORZNAB_BYTES then Ok bytes :: limit_chunks received' chunks
      else Err None :: limit_chunks received chunks
  end.

Definition search (self : ProwlarrClient) (indexer_id : Z) (query : SearchQuery)
  : Answer (list TorznabResult) :=
  let url := join (base_url self) (lit "api/v1/indexer/" ++ decimal indexer_id ++ lit "/newznab") in
  response ← map_err Request (get url query);
  response ← checked_response response MAX_TORZNAB_BYTES;
  let '(results, parsed) := parse_torznab_async collect_results (max_results self)
                              (xml_events (limit_chunks 0 (rs_chunks response))) [] in
  _ ← map_err TorznabError parsed;
  Ok results.

(** ** Downloads *)

Definition same_origin (left right : Url) : bool :=
  str_eqb (scheme left) (scheme right)
  && bool_decide (host_str left = host_str right)
  && bool_decide (port_or_known_default left = port_or_known_default right).

Definition download (self : ProwlarrClient) (indexer_id : Z) (raw_url : str) : Answer str :=
  url ← ok_or (parse_url raw_url) UnsafeDownloadUrl;
  let api_path := join (base_url self) (lit "api/v1/indexer/" ++ decimal indexer_id ++ lit "/download") in
  let legacy_path := join (base_url self) (decimal indexer_id ++ lit "/download") in
  if negb (same_origin url (base_url self))
     || (negb (str_eqb (url_path url) (url_path api_path))
         && negb (str_eqb (url_path url) (url_path legacy_path)))
  then Err UnsafeDownloadUrl else
  response ← map_err Request (get url []);
  if (300 <=? rs_status response) && (rs_status response <? 400) then Err RedirectRejected else
  checked_body response (pc_max_torrent_bytes self).

(** ** Theorems *)

(** What Prowlarr reports of an indexer allows it to be searched. *)
Record searchable (self : ProwlarrClient) (included excluded : list Z) (resource : IndexerResource)
  : Prop := {
  sb_enabled : ir_enable resource = true;
  sb_protocol : ir_protocol resource = lit "torrent";
  sb_search : ir_supports_search resource = true;
  sb_redirect : require_proxy_downloads self = true -> ir_redirect resource = false;
  sb_excluded : forall tag, tag ∈ default [] (ir_tags resource) -> tag ∉ excluded;
  sb_included : included <> [] -> exists tag, tag ∈ default [] (ir_tags resource) /\ tag ∈ included;
  sb_status : forall status, ir_status resource = Some status -> present status (lit "disabledTill") = false }.

Lemma elem_of_to_set x l : x ∈ to_set l <-> x ∈ l.
Proof. unfold to_set. by rewrite elem_of_sort_by, elem_of_remove_dups. Qed.

Lemma mem_Z_exists l tags :
  existsb (fun tag => mem_Z tag l) tags = true <-> exists tag, tag ∈ tags /\ tag ∈ l.
Proof.
  rewrite existsb_exists. unfold mem_Z. setoid_rewrite bool_decide_eq_true. by setoid_rewrite list_elem_of_In.
Qed.

Lemma ineligible_None self resource included excluded :
  ineligible self resource (to_set (default [] (ir_tags resource))) included excluded = None
  <-> searchable self included excluded resource.
Proof.
  unfold ineligible. split.
  - destruct (ir_enable resource) eqn:E1; cbn [negb]; [|done].
    destruct (str_eqb (ir_protocol resource) (lit "torrent")) eqn:E2; cbn [negb]; [|done].
    destruct (ir_supports_search resource) eqn:E3; cbn [negb]; [|done].
    destruct (require_proxy_downloads self && ir_redirect resource) eqn:E4; [done|].
    destruct (existsb (fun tag => mem_Z tag excluded) _) eqn:E5; [done|].
    destruct (negb (bool_decide (included = [])) && negb (existsb (fun tag => mem_Z tag included) _)) eqn:E6; [done|].
    intros E7. split; try done.
    + by apply str_eqb_spec.
    + intros Hr. by rewrite Hr in E4.
    + intros tag Hin He. apply not_true_iff_false in E5. apply E5, mem_Z_exists. exists tag.
      by rewrite elem_of_to_set.
    + intros Hne. rewrite bool_decide_false in E6 by done. cbn [negb andb] in E6.
      apply negb_false_iff, mem_Z_exists in E6 as (tag & Ht & Hi). exists tag. by rewrite elem_of_to_set in Ht.
    + intros status Hs. rewrite Hs in E7. by destruct (present status _).
  - intros [-> -> -> Hr He Hi Hs]. cbn [negb]. rewrite str_eqb_refl. cbn [negb].
    destruct (require_proxy_downloads self && ir_redirect resource) eqn:E4.
    { apply andb_prop in E4 as [E4 E5]. rewrite Hr in E5 by done. done. }
    destruct (existsb (fun tag => mem_Z tag excluded) _) eqn:E5.
    { apply mem_Z_exists in E5 as (tag & Ht & Hx). rewrite elem_of_to_set in Ht. by destruct (He tag Ht). }
    case_bool_decide as Hn; cbn [negb andb].
    + destruct (ir_status resource) as [status|]; [|done]. by rewrite (Hs status eq_refl).
    + destruct (Hi Hn) as (tag & Ht & Hx).
      replace (existsb (fun tag => mem_Z tag included) (to_set (default [] (ir_tags resource)))) with true.
      2: { symmetry. apply mem_Z_exists. exists tag. by rewrite elem_of_to_set. }
      cbn [negb]. destruct (ir_status resource) as [status|]; [|done]. by rewrite (Hs status eq_refl).
Qed.

Lemma project_Ok self included excluded resource indexer :
  project self included excluded resource = Ok indexer ->
  pi_id indexer = ir_id resource /\ (pi_eligible indexer = true <-> searchable self included excluded resource).
Proof.
  unfold project. intros (name & _ & [= <-])%bind_Ok. cbn [pi_id pi_eligible]. split; [done|].
  rewrite bool_decide_eq_true. apply ineligible_None.
Qed.

Lemma rows_lookup now projected (t : gmap Z IndexerRow) id :
  NoDup (map pi_id projected) ->
  foldl (fun t indexer => <[pi_id indexer := indexer_row now indexer]> t) t projected !! id
  = match head (filter (fun i => pi_id i = id) projected) with
    | Some indexer => Some (indexer_row now indexer)
    | None => t !! id
    end.
Proof.
  revert t. induction projected as [|i projected IH]; intros t; [done|]. cbn [map foldl].
  intros [Hi Hnd]%NoDup_cons. rewrite IH by done. rewrite filter_cons.
  destruct (decide (pi_id i = id)) as [<-|Hne]; cbn [head].
  - destruct (head (filter (fun j => pi_id j = pi_id i) projected)) as [j|] eqn:Hj.
    + exfalso. apply Hi. apply head_Some_elem_of, list_elem_of_filter in Hj as [Hj Hin].
      rewrite <- Hj. change (map pi_id projected) with (pi_id <$> projected). by apply list_elem_of_fmap_2.
    + by rewrite lookup_insert_eq.
  - by rewrite lookup_insert_ne.
Qed.

(** The eligible indexers are those that Prowlarr reports as searchable.  After the
    indexers were projected, whatever the table held before, an indexer is eligible exactly
    when it is among those reported, enabled, for torrents and searchable, without
    redirects where downloads must be proxied, with no excluded tag, with an included one
    if any is asked for, and not disabled for the time being. *)
Theorem eligible_indexers_are_searchable self included excluded resources projected now c c' id :
  NoDup (map ir_id resources) ->
  collect (project self included excluded) resources = Ok projected ->
  project_indexers projected now c = (c', Ok ()) ->
  is_eligible c' id = true <->
  exists resource, resource ∈ resources /\ ir_id resource = id /\ searchable self included excluded resource.
Proof.
  intros Hnd Hp%collect_Forall2 [= <-].
  assert (map pi_id projected = map ir_id resources) as Hids.
  { clear Hnd. induction Hp as [|r i rs ids Hri Hp IH]; [done|]. cbn. f_equal; [by apply project_Ok in Hri as [Hi _]|done]. }
  unfold is_eligible. cbn [sporos_indexer with_indexers]. rewrite rows_lookup by (by rewrite Hids).
  destruct (head (filter _ projected)) as [indexer|] eqn:Hh.
  - apply head_Some_elem_of, list_elem_of_filter in Hh as [Hid Hin]. cbn [ix_eligible indexer_row].
    apply list_elem_of_lookup in Hin as [k Hk].
    destruct (Forall2_lookup_r _ _ _ _ _ Hp Hk) as (resource & Hr & Hpr).
    apply project_Ok in Hpr as [Hrid ->]. split.
    + intros Hs. exists resource. split; [by eapply list_elem_of_lookup_2|]. split; [congruence|done].
    + intros (other & Ho & Hoid & Hs). enough (other = resource) as -> by done.
      apply list_elem_of_lookup in Ho as [j Hj]. enough (j = k) by congruence.
      apply (NoDup_lookup (map ir_id resources) j k id Hnd).
      * change (map ir_id resources) with (ir_id <$> resources). rewrite list_lookup_fmap, Hj. cbn. by f_equal.
      * change (map ir_id resources) with (ir_id <$> resources). rewrite list_lookup_fmap, Hr. cbn. f_equal. congruence.
  - rewrite lookup_fmap. split; [by destruct (sporos_indexer c !! id)|].
    intros (resource & Hr & Hid & _). exfalso.
    apply list_elem_of_lookup in Hr as [k Hk]. destruct (Forall2_lookup_l _ _ _ _ _ Hp Hk) as (indexer & Hi & Hpr).
    apply project_Ok in Hpr as [Hpid _].
    assert (indexer ∈ filter (fun i => pi_id i = id) projected) as Hin.
    { apply list_elem_of_filter. split; [congruence|by eapply list_elem_of_lookup_2]. }
    destruct (filter _ projected); [by apply elem_of_nil in Hin|done].
Qed.

Lemma checked_body_bounded response limit body :
  0 <= limit -> checked_body response limit = Ok body -> Z.of_nat (length body) <= limit.
Proof.
  intros Hl (r & _ & Hf)%bind_Ok. apply (try_fold_inv _ (fun _ b => Z.of_nat (length b) <= limit)) in Hf; [done|cbn; lia|].
  intros l1 chunk l2 b b' _ Hb (bytes & _ & Hadd)%bind_Ok.
  destruct (Z.ltb_spec limit (Z.of_nat (length b + length bytes))); [done|]. injection Hadd as <-.
  rewrite length_app. lia.
Qed.

(** C17: Downloads are confined.  A torrent is requested only from a URL of Prowlarr's own
    origin whose path is one of the two download paths of the indexer: any other URL is
    refused whatever it would answer; and what is downloaded is within the limit. *)
Theorem downloads_are_confined self indexer_id raw_url r :
  0 <= pc_max_torrent_bytes self -> download self indexer_id raw_url = r ->
  r <> Err UnsafeDownloadUrl ->
  (exists url, parse_url raw_url = Some url /\ scheme url = scheme (base_url self) /\
     host_str url = host_str (base_url self) /\
     port_or_known_default url = port_or_known_default (base_url self) /\
     (url_path url = url_path (join (base_url self) (lit "api/v1/indexer/" ++ decimal indexer_id ++ lit "/download"))
      \/ url_path url = url_path (join (base_url self) (decimal indexer_id ++ lit "/download")))) /\
  forall body, r = Ok body -> Z.of_nat (length body) <= pc_max_torrent_bytes self.
Proof.
  intros Hl <-. unfold download. destruct (parse_url raw_url) as [url|]; cbn [ok_or mbind result_bind]; [|done].
  destruct (negb (same_origin url (base_url self)) || _) eqn:Hc; [done|]. intros _.
  apply orb_false_iff in Hc as [Ho Hp]. apply negb_false_iff in Ho. unfold same_origin in Ho.
  apply andb_prop in Ho as [[Hs%str_eqb_spec Hh%bool_decide_eq_true]%andb_prop Hport%bool_decide_eq_true].
  apply andb_false_iff in Hp. split.
  - exists url. split_and!; try done. destruct Hp as [Hp|Hp]; apply negb_false_iff, str_eqb_spec in Hp; auto.
  - intros body (response & _ & Hb)%bind_Ok. destruct (_ && _); [done|]. by apply checked_body_bounded in Hb.
Qed.
End Prowlarr.

Module Sample.

#[local] Existing Instance Torznab.Sample.xml.

(** A URL is an origin and a path; a JSON value lists the strings of its fields. *)
#[export] Instance http : Http := {|
  HttpError := ();
  Url := str * str;
  parse_url s := if starts_with (lit "http://prowlarr") s then Some (lit "prowlarr", drop 15 s)
                 else Some (lit "elsewhere", s);
  join u path := (u.1, lit "/" ++ path);
  scheme _ := lit "http"; host_str u := Some u.1; port_or_known_default _ := Some 80;
  url_path u := u.2;
  JsonValue := list (str * list str); JsonError := (); empty_object := [];
  encode_value v := concat (map fst v); decode_value _ := Some [(lit "movieSearchParams", [lit "q"; lit "year"])];
  strings_of v field := snd <$> head (filter (fun p => p.1 = field) v);
  present v field := existsb (fun p => str_eqb p.1 field) v |}.
#[export] Instance xml_reader : XmlReader := {| xml_events _ := [] |}.
#[export] Instance prowlarr : Prowlarr := {|
  get _ _ := Ok (mkResponse 200 (Some 3) None [Ok [1; 2]; Ok [3]]);
  decode_indexers _ := Ok []; decode_tags _ := Ok [] |}.

Definition client : ProwlarrClient := mkProwlarrClient (lit "prowlarr", lit "/") [lit "tv"] [] true 100 10.
Definition resource (id : Z) (status : option (list (str * list str))) : IndexerResource :=
  mkIndexerResource id (Some (lit "indexer")) true false true (lit "torrent") 25 (Some [7; 3]) None status.
Definition reported : list IndexerResource :=
  [resource 1 None; resource 2 (Some [(lit "disabledTill", [])])].
Definition projected : list ProjectedIndexer :=
  match collect (project client [3] [9]) reported with Ok l => l | Err _ => [] end.
Definition before : Catalogue :=
  with_indexers {[ 5 := mkIndexerRow (lit "gone") (lit "torrent") true true false 1 [] [] true None None 0 ]}
    (empty_catalogue (mkLibrary empty_db ∅ ∅ ∅ ∅ ∅ (mkInventoryRow None 0 None None None None None None)
       ∅ ∅ ∅ ∅ ∅ ∅ ∅ ∅)).

Lemma eligible_indexers_are_searchable_witness :
  let c := (project_indexers projected 10 before).1 in
  (is_eligible c 1 = true <-> exists r, r ∈ reported /\ ir_id r = 1 /\ searchable client [3] [9] r) /\
  (is_eligible c 5 = true <-> exists r, r ∈ reported /\ ir_id r = 5 /\ searchable client [3] [9] r) /\
  all_eligible c = [1].
Proof.
  assert (NoDup (map ir_id reported)) as Hnd.
  { apply NoDup_cons_2; [by intros ?%list_elem_of_singleton|apply NoDup_singleton]. }
  assert (collect (project client [3] [9]) reported = Ok projected) as Hp by (vm_compute; reflexivity).
  intros c. assert (project_indexers projected 10 before = (c, Ok ())) as Hc by reflexivity.
  split; [exact (eligible_indexers_are_searchable client [3] [9] reported projected 10 before c 1 Hnd Hp Hc)|].
  split; [exact (eligible_indexers_are_searchable client [3] [9] reported projected 10 before c 5 Hnd Hp Hc)|].
  vm_compute. reflexivity.
Defined.

Definition link : str := lit "http://prowlarr/4/download".

Lemma downloads_are_confined_witness :
  (exists url, parse_url link = Some url /\ host_str url = Some (lit "prowlarr")) /\
  download client 4 link = Ok [1; 2; 3] /\ Z.of_nat (length [1; 2; 3]) <= 10.
Proof.
  assert (download client 4 link = Ok [1; 2; 3]) as Hd by (vm_compute; reflexivity).
  assert (0 <= pc_max_torrent_bytes client) as Hmax by discriminate.
  destruct (downloads_are_confined client 4 link _ Hmax Hd ltac:(discriminate)) as [(url & Hurl & _ & Hhost & _) Hlen].
  split; [exists url; exact (conj Hurl Hhost)|]. split; [exact Hd|exact (Hlen _ eq_refl)].
Defined.
End Sample.
