(* ===== verification/Search.v ===== *)
(** Searches (search.rs): the tasks that search an indexer for the release of a source,
    how they are asked for by a completed download, a scan or a backfill of the inventory,
    and the activity that performs one: it keeps to the rate of the indexer, filters the
    results, downloads the torrents that remain and hands them to the acceptance of
    candidates.

    [enrich_source] (arr.rs) only refines a source and cannot fail a search: it is an
    argument, an operation on the database.  [display] is the text of an error.  Log lines
    and limiters are left out; scheduling is done by Duroxide. *)

From S2P Require Import Prelude Text Model Store Duroxide Candidate Library Catalogue Torznab Prowlarr.
From S2P Require Release Ingress Retry Torrent Paths Accept Completion.
From stdpp Require Import strings.
Local Open Scope Z_scope.

Definition ORCHESTRATION_NAME : str := lit "SearchSourceIndexer".
Definition ORCHESTRATION_VERSION : str := lit "1.0.0".
Definition BACKFILL_ORCHESTRATION_NAME : str := lit "ProduceInventorySearch".
Definition BACKFILL_ORCHESTRATION_VERSION : str := lit "1.0.0".
Definition BACKFILL_PAGE_SIZE : nat := 100.
Definition MATCHER_VERSION : str := lit "sporos-matcher/1".
Definition MIN_REQUEST_GAP_MS : Z := 1000.
(** Durations in nanoseconds *)
Definition RETRY_BASE : Z := 1 * Retry.NANOS.
Definition RETRY_MAX : Z := 5 * 60 * Retry.NANOS.

Record SearchPolicy := mkSearchPolicy {
  sp_matching : Accept.Matching; sp_source_filters : SourceFilters; sp_injection : InjectionConfig;
  sp_paths : Paths.Paths }.

(** [SearchPolicy::with_dry_run] *)
Definition with_dry_run (dry : bool) (p : SearchPolicy) : SearchPolicy :=
  let i := sp_injection p in
  mkSearchPolicy (sp_matching p) (sp_source_filters p)
    (mkInjectionConfig (dry_run i || dry) (category_template i) (tag_templates i)
       (inherit_source_category i) (inherit_source_tags i) (resume_policy i)) (sp_paths p).

Record SearchInput := mkSearchInput {
  si_task_id : str; si_attempt_id : str; si_source_id : str; si_indexer_id : Z;
  si_policy_snapshot_id : str; si_trigger : str }.

Inductive SearchOutcome :=
| Complete
| Waiting (next_eligible_at delay_ms : Z)
| Failed (reason : str).

Record BackfillSelection := mkBackfillSelection {
  bs_hashes : list str; bs_include_categories : list str; bs_exclude_categories : list str;
  bs_include_tags : list str; bs_exclude_tags : list str }.

Record BackfillInput := mkBackfillInput {
  bi_operation_id : str; bi_task_id : str; bi_policy_snapshot_id : str;
  bi_selection : BackfillSelection; bi_indexer_ids : list Z; bi_cursor : option str }.

Record BackfillPage := mkBackfillPage { bp_next_cursor : option str; bp_done : bool }.

Record AcceptedBackfill := mkAcceptedBackfill {
  ab_operation_id : str; ab_task_id : str; ab_duplicate : bool }.

(** serde's encodings *)
Class SearchCodec := {
  encode_search_policy : SearchPolicy -> str;
  decode_search_policy : str -> option SearchPolicy;
  encode_search_input : SearchInput -> str;
  decode_search_input : str -> option SearchInput;
  encode_backfill_input : BackfillInput -> str;
  (** [json!] of [source], [indexerIds] and [force] *)
  encode_backfill_request : BackfillSelection -> list Z -> bool -> str;
  (** [json!] of [sourceId], [completedAt] and [searchTasks] *)
  encode_search_completed : str -> Z -> Z -> str }.

Class SearchCodecLaws `{SearchCodec} : Prop := {
  search_policy_roundtrip : forall p, decode_search_policy (encode_search_policy p) = Some p;
  search_input_roundtrip : forall i, decode_search_input (encode_search_input i) = Some i }.

(** [SePanic] ends the activity: the torrent parser panicked. *)
Inductive SearchError `{Http} `{Xml} :=
| SeDatabase (e : SqlError)
| SeJson
| SeProwlarr (e : ProwlarrError)
| SeCandidate (e : Accept.CandidateError)
| SeIngress (e : Ingress.DurableIngressError)
| SourceUnavailable
| InvalidStoredId
| SeStoredRange
| SePanic.

Section Search.
Context `{Unicode} `{Json} `{Digest} `{CandidateCodec} `{!Accept.IntakeCodec} `{SearchCodec}.
Context `{Http} `{Xml} `{!XmlReader} `{!Prowlarr}.

Abbreviation Act A := (M Catalogue SearchError A).

Definition ask {A} (f : Catalogue -> result SearchError A) : Act A := reads f.

(** ** Asking for a search *)

Definition identity (source_id : str) (indexer_id : Z) (policy_id trigger : str) : str :=
  sha256 (lit "search-attempt-v1" ++ source_id ++ be_bytes 8 indexer_id ++ policy_id ++ trigger).

(** The release that a source announces: of an available complete torrent, or else of an
    available entry of a data directory *)
Definition release_json_of (l : Library) (source_id : str) : option str :=
  let torrent :=
    row ← sporos_qbit_torrent l !! source_id;
    if qt_available row && qt_is_complete row then qt_release_json row else None in
  match torrent with
  | Some json => Some json
  | None => row ← sporos_data_source l !! source_id;
            if dt_available row then dt_release_json row else None
  end.

Definition search_policy_id (policy : SearchPolicy) : str := first_16 (sha256 (encode_search_policy policy)).
Definition attempt_id (source_id : str) (indexer_id : Z) (policy : SearchPolicy) (trigger : str) : str :=
  first_16 (identity source_id indexer_id (search_policy_id policy) trigger).
Definition search_task_id (source_id : str) (indexer_id : Z) (policy : SearchPolicy) (trigger : str) : str :=
  first_16 (sha256 (lit "search-task-v1" ++ identity source_id indexer_id (search_policy_id policy) trigger)).

Definition search_input (source_id : str) (indexer_id : Z) (policy : SearchPolicy) (trigger : str)
  : SearchInput :=
  mkSearchInput (search_task_id source_id indexer_id policy trigger)
    (attempt_id source_id indexer_id policy trigger) source_id indexer_id (search_policy_id policy) trigger.

Definition search_task (source_id : str) (indexer_id : Z) (policy : SearchPolicy) (trigger : str) (now : Z)
  : Ingress.NewTask :=
  let policy_json := encode_search_policy policy in
  let attempt := attempt_id source_id indexer_id policy trigger in
  {| Ingress.nt_id := search_task_id source_id indexer_id policy trigger;
     Ingress.nt_key := identity source_id indexer_id (search_policy_id policy) trigger;
     Ingress.nt_kind := lit "search_source_indexer";
     Ingress.nt_policy :=
       {| Ingress.ps_id := search_policy_id policy; Ingress.config_hash := sha256 policy_json;
          Ingress.matcher_version := MATCHER_VERSION; Ingress.payload_json := policy_json;
          Ingress.ps_created_at := now |};
     Ingress.orchestration_name := ORCHESTRATION_NAME;
     Ingress.orchestration_version := ORCHESTRATION_VERSION;
     Ingress.instance_id := lit "search-v1:" ++ hex attempt;
     Ingress.input_json := encode_search_input (search_input source_id indexer_id policy trigger);
     Ingress.nt_created_at := now |}.

(** [INSERT INTO sporos_search_attempt ... ON CONFLICT(id) DO NOTHING], with its two unique
    indexes and its foreign keys *)
Definition same_logical (a b : AttemptRow) : Prop :=
  sa_source_id a = sa_source_id b /\ sa_indexer_id a = sa_indexer_id b /\
  sa_query_fingerprint a = sa_query_fingerprint b /\
  sa_policy_snapshot_id a = sa_policy_snapshot_id b /\ sa_trigger a = sa_trigger b.
#[export] Instance same_logical_dec a b : Decision (same_logical a b).
Proof. unfold same_logical. apply _. Defined.

Definition insert_attempt (id task_id : str) (row : AttemptRow) : Act () := fun c =>
  match sporos_search_attempt c !! id with
  | Some _ => (c, Ok ())
  | None =>
      if bool_decide (map_Forall (fun _ other => ~ same_logical other row
                                     /\ sa_task_id other <> Some task_id) (sporos_search_attempt c)
                      /\ is_Some (sporos_indexer c !! sa_indexer_id row)
                      /\ is_Some (sporos_policy_snapshot (tasks (library c)) !! sa_policy_snapshot_id row)
                      /\ is_Some (sporos_task (tasks (library c)) !! task_id))
      then (with_attempts (<[id := row]> (sporos_search_attempt c)) c, Ok ())
      else (c, Err (SeDatabase Constraint))
  end.

(** [UPDATE sporos_task SET operation_id = ? WHERE id = ? AND operation_id IS NULL] *)
Definition adopt (operation_id : option str) (row : TaskRow) : TaskRow :=
  match t_operation_id row with None => with_operation_id operation_id row | Some _ => row end.

Definition accept_in (source_id : str) (indexer_id : Z) (policy : SearchPolicy) (trigger : str)
    (operation_id : option str) (now : Z) : Act bool :=
  release_json ← ask (fun c => ok_or (release_json_of (library c) source_id) SourceUnavailable);
  let task := search_task source_id indexer_id policy trigger now in
  inserted ← (on_tasks (exec SeIngress (Ingress.accept_task_in task)) : Act bool);
  _ ← ((fun c => (update_tasks (update_row (Ingress.nt_id task) (adopt operation_id)) c, Ok ())) : Act ());
  _ ← insert_attempt (attempt_id source_id indexer_id policy trigger) (Ingress.nt_id task)
        (mkAttemptRow source_id indexer_id (sha256 release_json) (search_policy_id policy) trigger
           (lit "queued") 0 0 None None now None (Some (Ingress.nt_id task)) 0);
  mret inserted.

(** One search per indexer; the number that was not there before. *)
Fixpoint accept_all (source_id : str) (indexers : list Z) (policy : SearchPolicy) (trigger : str)
    (operation_id : option str) (now : Z) (produced : Z) : Act Z :=
  match indexers with
  | [] => mret produced
  | indexer_id :: indexers =>
      inserted ← accept_in source_id indexer_id policy trigger operation_id now;
      accept_all source_id indexers policy trigger operation_id now (if inserted : bool then produced + 1 else produced)
  end.

(** ** After a completed download *)

Definition project_completion_in (i : Completion.CompletionInput) (produced : Z) : Act () :=
  let at_ := Completion.ci_observed_at i in
  _ ← (on_tasks (exec SeDatabase (update_task (Completion.ci_task_id i)
         (fun row => projection_generation row =? 0) (Completion.completed_task at_))) : Act Z);
  _ ← (on_tasks (exec SeDatabase (insert_event true (Completion.ci_task_id i) 1
         (mkEventRow (lit "completed") None
            (Some (encode_search_completed (hex (Completion.ci_source_id i)) (Completion.ci_completed_at i) produced))
            at_))) : Act Z);
  ((fun c => (update_operations (update_row (Completion.ci_operation_id i)
               (fun row => with_operation_state (lit "completed") (Z.max (op_produced_tasks row) produced)
                             (op_last_reported_cursor row) at_ row)) c, Ok ())) : Act ()).

Definition project_completion (policy : SearchPolicy) (i : Completion.CompletionInput) : Act () :=
  atomically (
    indexers ← ask (fun c => Ok (all_eligible c));
    produced ← accept_all (Completion.ci_source_id i) indexers policy (lit "completion")
                 (Some (Completion.ci_operation_id i)) (Completion.ci_observed_at i) 0;
    project_completion_in i produced).

(** ** Backfill *)

Definition backfill_operation_id (request policy_id : str) (force_nonce : option str) : str :=
  first_16 (sha256 (lit "inventory-search-operation-v1" ++ request ++ policy_id ++ default [] force_nonce)).

(** [INSERT INTO sporos_operation ... ON CONFLICT(id) DO NOTHING] and [UPDATE sporos_task SET
    operation_id = ?] *)
Definition record_operation (operation_id task_id : str) (row : OperationRow) : Act () :=
  _ ← (on_tasks (exec SeDatabase (Completion.insert_operation_ignore operation_id row)) : Act Z);
  ((fun c => (update_tasks (update_row task_id (with_operation_id (Some operation_id))) c, Ok ())) : Act ()).

Definition accept_backfill (policy : SearchPolicy) (selection : BackfillSelection) (indexer_ids : list Z)
    (force_nonce : option str) (now : Z) : Act AcceptedBackfill :=
  let request := encode_backfill_request selection indexer_ids (bool_decide (is_Some force_nonce)) in
  let policy_json := encode_search_policy policy in
  let policy_id := search_policy_id policy in
  let operation_id := backfill_operation_id request policy_id force_nonce in
  let task_digest := sha256 (lit "inventory-search-task-v1" ++ operation_id) in
  let task_id := first_16 task_digest in
  let instance_id := lit "inventory-search-v1:" ++ hex operation_id in
  let task :=
    {| Ingress.nt_id := task_id; Ingress.nt_key := task_digest; Ingress.nt_kind := lit "inventory_search";
       Ingress.nt_policy :=
         {| Ingress.ps_id := policy_id; Ingress.config_hash := sha256 policy_json;
            Ingress.matcher_version := MATCHER_VERSION; Ingress.payload_json := policy_json;
            Ingress.ps_created_at := now |};
       Ingress.orchestration_name := BACKFILL_ORCHESTRATION_NAME;
       Ingress.orchestration_version := BACKFILL_ORCHESTRATION_VERSION;
       Ingress.instance_id := instance_id;
       Ingress.input_json :=
         encode_backfill_input (mkBackfillInput operation_id task_id policy_id selection indexer_ids None);
       Ingress.nt_created_at := now |} in
  atomically (
    inserted ← (on_tasks (exec SeIngress (Ingress.accept_task_in task)) : Act bool);
    _ ← record_operation operation_id task_id
          (mkOperationRow (lit "inventory_search") (lit "queued") instance_id request 0 None now now);
    mret (mkAcceptedBackfill operation_id task_id (negb inserted))).

Definition backfill_selected (row : QbitRow) (selection : BackfillSelection) : bool :=
  let tags := qt_tags row in
  (bool_decide (bs_hashes selection = [])
   || existsb (fun hash => str_mem (hex hash) (bs_hashes selection))
        (option_list (qt_v1_hash row) ++ option_list (qt_v2_hash row)))
  && (bool_decide (bs_include_categories selection = [])
      || str_mem (qt_category row) (bs_include_categories selection))
  && negb (str_mem (qt_category row) (bs_exclude_categories selection))
  && (bool_decide (bs_include_tags selection = [])
      || existsb (fun tag => str_mem tag tags) (bs_include_tags selection))
  && negb (existsb (fun tag => str_mem tag tags) (bs_exclude_tags selection))
  && negb (existsb (starts_with (lit "sporos")) tags).

(** The page of available complete torrents after the cursor *)
Definition backfill_rows (l : Library) (cursor : option str) : list (str * QbitRow) :=
  take BACKFILL_PAGE_SIZE (sort_by (fun a b => str_leb a.1 b.1)
    (filter (fun p : str * QbitRow =>
       qt_available p.2 && qt_is_complete p.2
       && match cursor with None => true | Some c => negb (str_leb p.1 c) end = true)
       (map_to_list (sporos_qbit_torrent l)))).

Definition load_policy (id : str) : Act SearchPolicy :=
  json ← ask (fun c => ok_or (pr_payload_json <$> sporos_policy_snapshot (tasks (library c)) !! id)
                         (SeDatabase RowNotFound));
  liftr (ok_or (decode_search_policy json) SeJson).

Fixpoint produce_rows (rows : list (str * QbitRow)) (selection : BackfillSelection) (indexers : list Z)
    (policy : SearchPolicy) (trigger : str) (operation_id : str) (now : Z) (produced : Z) : Act Z :=
  match rows with
  | [] => mret produced
  | (source_id, row) :: rows =>
      produced ← (if backfill_selected row selection
                  then accept_all source_id indexers policy trigger (Some operation_id) now produced
                  else (mret produced : Act Z));
      produce_rows rows selection indexers policy trigger operation_id now produced
  end.

Definition produce_page (input : BackfillInput) (now : Z) : Act BackfillPage :=
  rows ← ask (fun c => Ok (backfill_rows (library c) (bi_cursor input)));
  let finished := (length rows <? BACKFILL_PAGE_SIZE)%nat in
  let next_cursor := fst <$> last rows in
  policy ← load_policy (bi_policy_snapshot_id input);
  indexers ← ask (fun c => Ok (eligible_indexers c (bi_indexer_ids input)));
  let trigger := lit "manual:" ++ hex (bi_operation_id input) in
  let state := if finished then lit "completed" else lit "running" in
  atomically (
    produced ← produce_rows rows (bi_selection input) indexers policy trigger (bi_operation_id input) now 0;
    _ ← ((fun c => (update_operations (update_row (bi_operation_id input)
           (fun row => with_operation_state state (op_produced_tasks row + produced) next_cursor now row)) c,
         Ok ())) : Act ());
    _ ← ((fun c => (update_tasks (update_row (bi_task_id input)
           (fun row => with_progress state (t_reason_code row) (observed_retry_count row) now
                         (if finished then Some now else None) row)) c, Ok ())) : Act ());
    mret (mkBackfillPage next_cursor finished)).
End Search.
