(* ===== verification/SearchSample.v ===== *)
(** A concrete codec of the values of searches, which shows that the laws of [SearchCodec] can
    hold, with a digest and a policy for the examples. *)

From S2P Require Import Prelude Text Float Model Duroxide Candidate Library Catalogue Search.
From S2P Require Import Codec.
From stdpp Require Import strings.
From S2P Require Accept Paths Pieces.
Local Open Scope Z_scope.

(** Not a cryptographic hash, but one that tells the strings below apart. *)
#[export] Instance search_digest : Digest := {|
  sha256 s := let h := be_bytes 16 (foldl (fun h b => (h * 1000003 + b) mod 2^127) 7 s) in h ++ h |}.
#[export] Instance search_intake : Accept.IntakeCodec :=
  {| Accept.encode_input i := in_task_id i; Accept.encode_detail _ _ := [] |}.
#[export] Instance serial_search_policy : Serial SearchPolicy.
Proof.
  refine (serial_via
    (fun p => (Accept.mt_policy (sp_matching p), Accept.preflight_size_tolerance (sp_matching p),
               Accept.max_torrent_bytes (sp_matching p),
               Accept.max_files_per_torrent (sp_matching p), Accept.max_path_bytes (sp_matching p),
               Accept.pending_source_timeout (sp_matching p), sp_source_filters p, sp_injection p,
               Paths.p_link_root (sp_paths p), Paths.rewrite (sp_paths p)))
    (fun '(a, t, b, c, d, e, f, g, h, i) =>
       mkSearchPolicy (Accept.mkMatching a t b c d e) f g (Paths.mkPaths h i)) _). by intros [[] ? ? []].
Defined.
#[export] Instance search_codec : SearchCodec := {|
  encode_search_policy := put; decode_search_policy s := fst <$> get s;
  encode_search_input i := put (si_task_id i, si_attempt_id i, si_source_id i, si_indexer_id i,
                                      si_policy_snapshot_id i, si_trigger i);
  decode_search_input s := '(a, b, c, d, e, f, _) ← get s; Some (mkSearchInput a b c d e f);
  encode_backfill_input _ := []; encode_backfill_request _ _ _ := []; encode_search_completed _ _ _ := [] |}.
#[export] Instance search_codec_laws : SearchCodecLaws.
Proof.
  split; intros x.
  - cbn [encode_search_policy decode_search_policy search_codec].
    by rewrite <- (app_nil_r (put x)), get_put.
  - cbn [encode_search_input decode_search_input search_codec].
    rewrite <- (app_nil_r (put _)), get_put. by destruct x.
Qed.

Definition policy : SearchPolicy :=
  mkSearchPolicy (Accept.mkMatching default_policy f64_zero 100 10 100 5000000) (mkSourceFilters [] [] [] [] true)
    (mkInjectionConfig false [] [] false false Pieces.CompleteOnly) (Paths.mkPaths (lit "/links") []).
