(* ===== verification/SearchRun.v ===== *)
(** The activity that performs a search (search.rs, [SearchExecutor::execute]): it claims a
    request from the rate limit of the indexer, searches, filters the results, downloads
    the torrents that remain and submits them as candidates; what goes wrong with a
    dependency makes it wait and begin again.

    [enrich_source] (arr.rs) is an argument, [display] the text of an error, [clock] the
    time that [wait] reads.  The torrent parsers are parameters as in Accept.v. *)

From S2P Require Import Prelude Text Model Store Duroxide Candidate Library Catalogue Torznab Prowlarr Search.
From S2P Require Release Ingress Retry Torrent Paths Accept.
From stdpp Require Import strings.
Local Open Scope Z_scope.

Definition saturating_sub_i64 (a b : Z) : Z := Z.max i64_min (Z.min i64_max (a - b)).

(** ** The filters of sources and results *)

Definition source_allowed (category : str) (tags : list str) (filters : SourceFilters) : bool :=
  (bool_decide (include_categories filters = []) || str_mem category (include_categories filters))
  && negb (str_mem category (exclude_categories filters))
  && (bool_decide (include_tags filters = [])
      || existsb (fun value => str_mem value tags) (include_tags filters))
  && negb (existsb (fun value => str_mem value tags) (exclude_tags filters))
  && (negb (exclude_sporos_managed filters) || negb (existsb (starts_with (lit "sporos")) tags)).

Record SearchSource := mkSearchSource {
  so_release : ReleaseDescriptor; so_total_size : Z; so_indexer_name : str }.

Section SearchRun.
Context `{Unicode} `{Json} `{Digest} `{CandidateCodec} `{!Accept.IntakeCodec} `{SearchCodec}.
Context `{Http} `{Xml} `{!XmlReader} `{!Prowlarr}.
Context (decode_with : str -> bool) (metainfo_parse : str -> option Torrent.MetaInfo).
Context (enrich_source : option (str -> Z -> Catalogue -> Catalogue)) (display : ProwlarrError -> str).
Context (client : ProwlarrClient) (clock : Z).

Abbreviation Act A := (M Catalogue SearchError A).

Definition plausibility (source : ReleaseDescriptor) (source_size : Z) (found : TorznabResult)
  : result str () :=
  if bool_decide (tr_size found = Some 0) then Err (lit "empty_result") else
  if match tr_size found with Some size => size <? source_size / 20 | None => false end
  then Err (lit "result_too_small") else
  let candidate := Release.parse_release (tr_title found) in
  if negb (str_eqb (rd_primary_title candidate) (rd_primary_title source)) then Err (lit "title_mismatch") else
  match rd_year candidate, rd_year source with
  | Some a, Some b => if a =? b then Ok () else Err (lit "year_mismatch")
  | _, _ => Ok ()
  end.

Definition result_fingerprint (found : TorznabResult) : str :=
  sha256 (tr_title found ++ [0] ++ default [] (tr_guid found) ++ be_bytes 8 (default 0 (tr_size found))).

Definition candidate_rejected (e : Accept.CandidateError) : bool :=
  match e with
  | Accept.TorrentTooLarge | Accept.TooManyFiles | Accept.PathTooLong | Accept.InvalidUtf8Name
  | Accept.InvalidUtf8Path | Accept.TorrentError _ => true
  | _ => false
  end.

(** A status is [is_server_error], REQUEST_TIMEOUT or TOO_MANY_REQUESTS. *)
Definition retryable_status (status : Z) : bool :=
  ((500 <=? status) && (status <? 600)) || (status =? 408) || (status =? 429).
Definition retryable_prowlarr (e : ProwlarrError) : bool :=
  match e with
  | Request _ | RateLimited _ | PwDatabase _ => true
  | HttpStatus status => retryable_status status
  | _ => false
  end.

(** [SearchError::activity_failure]; [message] is the error's report. *)
Definition search_failure (e : SearchError) (message : str) : str :=
  match e with
  | SeDatabase _ | SeIngress _ | SeCandidate _ => transient (lit "search_storage_unavailable") message
  | SeProwlarr error =>
      if retryable_prowlarr error then transient (lit "prowlarr_unavailable") message
      else permanent (lit "invalid_search_state") message
  | _ => permanent (lit "invalid_search_state") message
  end.

(** ** Its source *)

Definition source_of (indexer_name json : str) (size : Z) : Act SearchSource :=
  release ← (liftr (ok_or (decode_release json) SeJson) : Act ReleaseDescriptor);
  mret (mkSearchSource release (default u64_max (u64_try_from size)) indexer_name).

(** The source that a row names by its release, if it has one *)
Definition source_row (indexer_name : str) (release_json : option str) (size : Z)
  : Act (option SearchSource) :=
  match release_json with
  | None => mret None
  | Some json => source ← source_of indexer_name json size; mret (Some source)
  end.

Definition load_source (input : SearchInput) : Act (option SearchSource) :=
  name ← ask (fun c => Ok (indexer ← sporos_indexer c !! si_indexer_id input;
                           if ix_eligible indexer then Some (ix_name indexer) else None));
  match name with
  | None => mret None
  | Some name =>
      policy ← load_policy (si_policy_snapshot_id input);
      torrent ← ask (fun c => Ok (row ← sporos_qbit_torrent (library c) !! si_source_id input;
                                  if qt_available row && qt_is_complete row then Some row else None));
      match torrent with
      | Some row =>
          if negb (source_allowed (qt_category row) (qt_tags row) (sp_source_filters policy))
          then mret None
          else source_row name (qt_release_json row) (qt_total_size row)
      | None =>
          data ← ask (fun c => Ok (row ← sporos_data_source (library c) !! si_source_id input;
                                   if dt_available row then Some row else None));
          match data with
          | None => mret None
          | Some row => source_row name (dt_release_json row) (dt_total_size row)
          end
      end
  end.

(** ** The rate of an indexer *)

Definition upsert_rate (indexer_id : Z) (row : RateRow) (c : Catalogue) : result SearchError Catalogue :=
  if bool_decide (is_Some (sporos_indexer c !! indexer_id))
  then Ok (with_rates (<[indexer_id := row]> (sporos_indexer_rate_limit c)) c)
  else Err (SeDatabase Constraint).
Definition write (f : Catalogue -> result SearchError Catalogue) : Act () := fun c =>
  match f c with Ok c' => (c', Ok ()) | Err e => (c, Err e) end.

(** The time until which the indexer must not be asked, or a claim on it *)
Definition claim_indexer (indexer_id now : Z) : Act (option Z) :=
  next ← ask (fun c => Ok (rl_next_eligible_at <$> sporos_indexer_rate_limit c !! indexer_id));
  if match next with Some next => now <? next | None => false end then mret next else
  _ ← write (upsert_rate indexer_id (mkRateRow (saturating_add_i64 now MIN_REQUEST_GAP_MS) now));
  mret None.

(** [next_eligible_at = max(next_eligible_at, excluded.next_eligible_at)] *)
Definition postpone_indexer (indexer_id next now : Z) : Act () :=
  write (fun c =>
    let prior := rl_next_eligible_at <$> sporos_indexer_rate_limit c !! indexer_id in
    upsert_rate indexer_id (mkRateRow (match prior with Some p => Z.max p next | None => next end) now) c).

(** ** The rows of the search *)

Definition update_attempt (id : str) (f : AttemptRow -> AttemptRow) : Act () := fun c =>
  (with_attempts (update_row id f (sporos_search_attempt c)) c, Ok ()).
Definition with_attempt (state : str) (seen downloaded : Z) (next : option Z) (reason : option str)
    (completed_at : option Z) (attempts : Z) (row : AttemptRow) : AttemptRow :=
  mkAttemptRow (sa_source_id row) (sa_indexer_id row) (sa_query_fingerprint row)
    (sa_policy_snapshot_id row) (sa_trigger row) state seen downloaded next reason
    (sa_created_at row) completed_at (sa_task_id row) attempts.
Definition set_task (id : str) (f : TaskRow -> TaskRow) : Act () := fun c =>
  (update_tasks (update_row id f) c, Ok ()).
(** [AND terminal_at IS NULL] *)
Definition unless_terminal (f : TaskRow -> TaskRow) (row : TaskRow) : TaskRow :=
  match terminal_at row with None => f row | Some _ => row end.

Definition mark_searching (input : SearchInput) (now : Z) : Act () :=
  _ ← set_task (si_task_id input) (unless_terminal (fun row =>
        with_progress (lit "searching") (t_reason_code row) (observed_retry_count row) now (terminal_at row) row));
  update_attempt (si_attempt_id input) (fun row =>
    with_attempt (lit "searching") (sa_results_seen row) (sa_results_downloaded row)
      (sa_next_eligible_at row) (sa_reason_code row) (sa_completed_at row) (sa_dependency_attempts row) row).

Definition wait (input : SearchInput) (next : Z) (reason : str) : Act () :=
  _ ← update_attempt (si_attempt_id input) (fun row =>
        with_attempt (lit "waiting") (sa_results_seen row) (sa_results_downloaded row) (Some next)
          (Some reason) (sa_completed_at row) (sa_dependency_attempts row + 1) row);
  set_task (si_task_id input) (unless_terminal (fun row =>
    with_progress (lit "waiting_dependency") (Some reason) (observed_retry_count row + 1) clock
      (terminal_at row) row)).

Definition finish (input : SearchInput) (now : Z) (reason : str) (failed : bool) (seen downloaded : Z) : Act () :=
  let state := if failed then lit "failed" else lit "completed" in
  _ ← update_attempt (si_attempt_id input) (fun row =>
        with_attempt state (Z.max (sa_results_seen row) seen) (Z.max (sa_results_downloaded row) downloaded)
          None (Some reason) (Some now) (sa_dependency_attempts row) row);
  set_task (si_task_id input) (fun row =>
    with_progress state (Some reason) (observed_retry_count row) now (Some now) row).

(** [INSERT INTO sporos_search_result_summary ... ON CONFLICT(search_attempt_id, ordinal) DO
    UPDATE]: a row that is there keeps its title. *)
Definition summarize (input : SearchInput) (ordinal : nat) (found : TorznabResult) (state : str)
    (candidate_id : option str) : Act () :=
  write (fun c =>
    let key := (si_attempt_id input, Z.of_nat ordinal) in
    if bool_decide (is_Some (sporos_search_attempt c !! si_attempt_id input))
       && match candidate_id with
          | Some id => bool_decide (is_Some (sporos_candidate (library c) !! id))
          | None => true
          end
    then Ok (with_summaries
      (<[key := match sporos_search_result_summary c !! key with
                | Some row => mkSummaryRow (sm_fingerprint row) (sm_title row) (sm_size row) state
                                (match candidate_id with Some id => Some id | None => sm_candidate_id row end)
                | None => mkSummaryRow (result_fingerprint found) (tr_title found)
                            (tr_size found ≫= i64_try_from) state candidate_id
                end]> (sporos_search_result_summary c)) c)
    else Err (SeDatabase Constraint)).

(** ** A dependency that fails *)

Definition failed_search (input : SearchInput) (now : Z) (reason : str) (shown : str) : Act SearchOutcome :=
  _ ← finish input now reason true 0 0;
  mret (Failed shown).

Definition wait_until (input : SearchInput) (now next : Z) (reason : str) : Act SearchOutcome :=
  _ ← wait input next reason;
  mret (Waiting next (default u64_max (u64_try_from (saturating_sub_i64 next now)))).

Definition dependency_error (input : SearchInput) (now : Z) (error : ProwlarrError) : Act SearchOutcome :=
  attempts ← ask (fun c => ok_or (sa_dependency_attempts <$> sporos_search_attempt c !! si_attempt_id input)
                             (SeDatabase RowNotFound));
  attempts ← (liftr (ok_or (u32_try_from attempts) SeStoredRange) : Act Z);
  let attempt := Z.min (attempts + 1) u32_max in
  calculated ← (liftr (ok_or (Retry.deterministic RETRY_BASE RETRY_MAX attempt
                  [si_attempt_id input; le_bytes 8 (si_indexer_id input)]) SePanic) : Act Z);
  let calculated_ms := calculated / 1000000 in
  let delay :=
    match error with
    | RateLimited retry_after =>
        Some (match retry_after ≫= (fun seconds => i64_try_from (seconds * 1000)) with
              | Some delay => Z.max delay calculated_ms
              | None => calculated_ms
              end)
    | Request _ => Some calculated_ms
    | HttpStatus status => if retryable_status status then Some calculated_ms else None
    | _ => None
    end in
  match delay with
  | None => failed_search input now (lit "invalid_search_response") (display error)
  | Some delay =>
      let next := saturating_add_i64 now (Z.max delay MIN_REQUEST_GAP_MS) in
      _ ← postpone_indexer (si_indexer_id input) next now;
      wait_until input now next (lit "dependency_unavailable")
  end.

(** ** The results *)

Definition submission (input : SearchInput) (source : SearchSource) (found : TorznabResult) (bytes : str)
    (ordinal : nat) (now : Z) : Accept.CandidateSubmission :=
  {| Accept.cs_bytes := bytes; Accept.announcement_name := Some (tr_title found);
     Accept.indexer := Some (so_indexer_name source); Accept.indexer_id := Some (si_indexer_id input);
     Accept.trigger := si_trigger input; Accept.release_hint := Some (so_release source);
     Accept.cs_category := None; Accept.cs_tags := [];
     Accept.request_id := lit "search:" ++ hex (si_attempt_id input) ++ lit ":" ++ decimal (Z.of_nat ordinal);
     Accept.cs_dry_run := false; Accept.received_at := now |}.

(** [CandidateIngress::accept], whose error is examined *)
Definition submit (policy : SearchPolicy) (s : Accept.CandidateSubmission)
  : Act (result Accept.CandidateError Accept.AcceptedCandidate) := fun c =>
  let ingress := Accept.mkCandidateIngress (sp_matching policy) (sp_source_filters policy)
                   (sp_injection policy) (sp_paths policy) in
  match Accept.accept decode_with metainfo_parse ingress s (library c) with
  | None => (c, Err SePanic)
  | Some (l, r) => (with_library l c, Ok r)
  end.

(** ** The requests of a run

    A run keeps, beside the tables, the requests that it has made of Prowlarr, in their
    order. *)

Inductive Call :=
| Searched (indexer_id : Z) (query : SearchQuery)
| Downloaded (indexer_id : Z) (url : str).

Abbreviation Run A := (M (Catalogue * list Call) SearchError A).

Definition tx {A} (m : Act A) : Run A := fun s => let '(c, r) := m s.1 in ((c, s.2), r).
(** A request, whose answer is examined *)
Definition ask_prowlarr {A} (call : Call) (answer : result ProwlarrError A) : Run (result ProwlarrError A) :=
  fun s => ((s.1, s.2 ++ [call]), Ok answer).

Definition search_indexer (indexer_id : Z) (query : SearchQuery)
  : Run (result ProwlarrError (list TorznabResult)) :=
  ask_prowlarr (Searched indexer_id query) (search client indexer_id query).
Definition download_torrent (indexer_id : Z) (url : str) : Run (result ProwlarrError str) :=
  ask_prowlarr (Downloaded indexer_id url) (download client indexer_id url).

(** What one result leads to: how many candidates were accepted, or the end of the run *)
Definition process_result (input : SearchInput) (source : SearchSource) (now : Z) (ordinal : nat)
    (found : TorznabResult) : Run (SearchOutcome + Z) :=
  let eligible := is_ok (plausibility (so_release source) (so_total_size source) found) in
  _ ← tx (summarize input ordinal found (if eligible then lit "eligible" else lit "filtered") None);
  if negb eligible then mret (inr 0) else
  answer ← download_torrent (si_indexer_id input) (tr_download_url found);
  match answer with
  | Err error =>
      match error with
      | RateLimited _ => outcome ← tx (dependency_error input now error); mret (inl outcome)
      | UnsafeDownloadUrl | RedirectRejected =>
          _ ← tx (summarize input ordinal found (lit "unsafe_download") None); mret (inr 0)
      | _ =>
          if retryable_prowlarr error
          then outcome ← tx (dependency_error input now error); mret (inl outcome)
          else _ ← tx (summarize input ordinal found (lit "download_failed") None); mret (inr 0)
      end
  | Ok bytes =>
      policy ← tx (load_policy (si_policy_snapshot_id input));
      accepted ← tx (submit policy (submission input source found bytes ordinal now));
      match accepted with
      | Ok accepted =>
          _ ← tx (summarize input ordinal found (lit "candidate_accepted") (Some (Accept.ac_candidate_id accepted)));
          mret (inr 1)
      | Err error =>
          if candidate_rejected error
          then _ ← tx (summarize input ordinal found (lit "invalid_torrent") None); mret (inr 0)
          else throw (SeCandidate error)
      end
  end.

Fixpoint process_results (input : SearchInput) (source : SearchSource) (now : Z) (ordinal : nat)
    (downloaded : Z) (results : list TorznabResult) : Run (SearchOutcome + Z) :=
  match results with
  | [] => mret (inr downloaded)
  | found :: results =>
      step ← process_result input source now ordinal found;
      match step with
      | inl outcome => mret (inl outcome)
      | inr accepted => process_results input source now (S ordinal) (downloaded + accepted) results
      end
  end.

Definition enrich (source_id : str) (now : Z) : Act () := fun c =>
  (match enrich_source with Some f => f source_id now c | None => c end, Ok ()).

Definition execute (input : SearchInput) (now : Z) : Run SearchOutcome :=
  _ ← tx (enrich (si_source_id input) now);
  source ← tx (load_source input);
  match source with
  | None => tx (failed_search input now (lit "source_unavailable") (lit "source_unavailable"))
  | Some source =>
      query ← tx (ask (fun c => map_err SeProwlarr (indexer_query (si_indexer_id input) (so_release source) c)));
      match query with
      | None => tx (failed_search input now (lit "indexer_ineligible") (lit "indexer_ineligible"))
      | Some query =>
          next ← tx (claim_indexer (si_indexer_id input) now);
          match next with
          | Some next => tx (wait_until input now next (lit "indexer_rate_limit"))
          | None =>
              _ ← tx (mark_searching input now);
              answer ← search_indexer (si_indexer_id input) query;
              match answer with
              | Err error => tx (dependency_error input now error)
              | Ok results =>
                  step ← process_results input source now 0 0 results;
                  match step with
                  | inl outcome => mret outcome
                  | inr downloaded =>
                      _ ← tx (finish input now (lit "completed") false (Z.of_nat (length results)) downloaded);
                      mret Complete
                  end
              end
          end
      end
  end.
End SearchRun.
