(* ===== verification/SearchProofs.v ===== *)
(** Searches (SearchRun.v): an indexer is asked at most once in the gap between requests. *)

From S2P Require Import Prelude Text Model Store Duroxide Candidate Library Catalogue Torznab Prowlarr Search SearchRun.
From S2P Require Codec SearchSample Release Ingress Retry Torrent Accept.
From stdpp Require Import strings.
From stdpp Require sorting.
Local Open Scope Z_scope.

(** ** The rate of the indexers *)

(** No indexer may be asked earlier than before. *)
Definition closes (c c' : Catalogue) : Prop :=
  forall i row, sporos_indexer_rate_limit c !! i = Some row ->
    exists row', sporos_indexer_rate_limit c' !! i = Some row' /\
      rl_next_eligible_at row <= rl_next_eligible_at row'.

#[export] Instance closes_preorder : PreOrder closes.
Proof.
  split; [intros c i row Hr; exists row; split; [done|lia]|].
  intros a b c Hab Hbc i row Hr. destruct (Hab i row Hr) as (r & Hr1 & Hle).
  destruct (Hbc i r Hr1) as (r' & Hr2 & Hle'). exists r'. split; [done|lia].
Qed.

Lemma closes_same c c' : sporos_indexer_rate_limit c' = sporos_indexer_rate_limit c -> closes c c'.
Proof. intros E i row Hr. rewrite E. exists row. split; [done|lia]. Qed.

Lemma closes_upsert c i row :
  (forall old, sporos_indexer_rate_limit c !! i = Some old -> rl_next_eligible_at old <= rl_next_eligible_at row) ->
  closes c (with_rates (<[i := row]> (sporos_indexer_rate_limit c)) c).
Proof.
  intros Hi j old Hj. cbn. destruct (decide (i = j)) as [->|Hne].
  - exists row. rewrite lookup_insert_eq. auto.
  - exists old. rewrite lookup_insert_ne by done. split; [done|lia].
Qed.

Abbreviation always := (fun _ => True).

Lemma closing {E A} (m : M Catalogue E A) : (forall c, closes c (m c).1) -> hoare closes always m (fun _ => always).
Proof. intros Hm c _. split; [apply Hm|by destruct (m c).2]. Qed.

Lemma closing_reads {E A} (f : Catalogue -> result E A) : hoare closes always (reads f) (fun _ => always).
Proof. apply closing. intros c. reflexivity. Qed.
Lemma closing_liftr {E A} (r : result E A) : hoare closes always (liftr r) (fun _ => always).
Proof. apply closing. intros c. reflexivity. Qed.
Lemma closing_ret {E A} (a : A) : hoare closes always (mret a : M Catalogue E A) (fun _ => always).
Proof. apply closing. intros c. reflexivity. Qed.
Lemma closing_throw {E A} (e : E) : hoare closes always (throw e : M Catalogue E A) (fun _ => always).
Proof. apply closing. intros c. reflexivity. Qed.
Lemma closing_bind {E A B} (m : M Catalogue E A) (f : A -> M Catalogue E B) :
  hoare closes always m (fun _ => always) -> (forall a, hoare closes always (f a) (fun _ => always)) ->
  hoare closes always (m ≫= f) (fun _ => always).
Proof. intros Hm Hf. eapply hoare_bind; [typeclasses eauto|exact Hm|exact Hf]. Qed.

Create HintDb closing.
#[export] Hint Resolve closing_reads closing_liftr closing_ret closing_throw : closing.

(** Binds and case distinctions, down to statements that are known not to open an indexer *)
Ltac closing :=
  repeat first
    [ solve [auto with closing]
    | apply closing_bind; [|intros ?]
    | match goal with
      | |- hoare _ _ (match ?x with _ => _ end) _ => destruct x
      | |- hoare _ _ (let '(_, _) := ?x in _) _ => destruct x
      end ].

Section SearchRun.
Context `{Unicode} `{Json} `{Digest} `{CandidateCodec} `{!Accept.IntakeCodec} `{SearchCodec}.
Context `{Http} `{Xml} `{!XmlReader}.
Context (decode_with : str -> bool) (metainfo_parse : str -> option Torrent.MetaInfo).
Context (enrich_source : option (str -> Z -> Catalogue -> Catalogue)) (display : ProwlarrError -> str).
Context (client : ProwlarrClient) (clock : Z).

(** Enrichment writes its own cache. *)
Context (Henrich : forall f id now c, enrich_source = Some f ->
  sporos_indexer_rate_limit (f id now c) = sporos_indexer_rate_limit c).

Lemma closing_enrich id now : hoare closes always (enrich enrich_source id now : M _ SearchError _) (fun _ => always).
Proof using Henrich.
  apply closing. intros c. unfold enrich. destruct enrich_source as [f|] eqn:E; [|reflexivity].
  by apply closes_same, Henrich.
Qed.

Lemma closing_attempt id f : hoare closes always (update_attempt id f : M _ SearchError _) (fun _ => always).
Proof. apply closing. intros c. by apply closes_same. Qed.
Lemma closing_task id f : hoare closes always (set_task id f : M _ SearchError _) (fun _ => always).
Proof. apply closing. intros c. by apply closes_same. Qed.
#[local] Hint Resolve closing_attempt closing_task : closing.

Lemma closing_load_source input : hoare closes always (load_source input) (fun _ => always).
Proof. unfold load_source, load_policy, source_row, source_of, ask. closing. Qed.

Lemma closing_postpone i next now : hoare closes always (postpone_indexer i next now) (fun _ => always).
Proof.
  apply closing. intros c. unfold postpone_indexer, write, upsert_rate.
  case_bool_decide; [|reflexivity]. apply closes_upsert. intros old ->. cbn. lia.
Qed.
#[local] Hint Resolve closing_postpone : closing.

Lemma closing_dependency input now e : hoare closes always (dependency_error display clock input now e) (fun _ => always).
Proof. unfold dependency_error, failed_search, wait_until, finish, wait, ask. closing. Qed.
#[local] Hint Resolve closing_dependency : closing.

Lemma closing_summarize input ordinal found state id :
  hoare closes always (summarize input ordinal found state id) (fun _ => always).
Proof.
  apply closing. intros c. unfold summarize, write. destruct (_ && _); [|reflexivity]. by apply closes_same.
Qed.
Lemma closing_submit policy s : hoare closes always (submit decode_with metainfo_parse policy s) (fun _ => always).
Proof.
  apply closing. intros c. unfold submit. destruct (Accept.accept _ _ _ _ _) as [[l r]|]; by apply closes_same.
Qed.
#[local] Hint Resolve closing_summarize closing_submit : closing.

(** What follows a request of an indexer: it may be told to wait longer, and only torrents
    are downloaded. *)
Definition is_download (i : Z) (call : Call) : Prop := exists url, call = Downloaded i url.

Definition downloads (i : Z) (s s' : Catalogue * list Call) : Prop :=
  closes s.1 s'.1 /\ exists calls, s'.2 = s.2 ++ calls /\ Forall (is_download i) calls.

#[local] Instance downloads_preorder i : PreOrder (downloads i).
Proof.
  split; [intros s; split; [done|]; exists []; by rewrite app_nil_r|].
  intros s1 s2 s3 (H12 & l & E & Hl) (H23 & l' & E' & Hl'). split; [by etrans|].
  exists (l ++ l'). rewrite E', E, app_assoc. split; [done|by apply Forall_app].
Qed.

Abbreviation downloading i m := (hoare (downloads i) always m (fun _ => always)).

Lemma downloading_tx i {A} (m : M Catalogue SearchError A) :
  hoare closes always m (fun _ => always) -> downloading i (tx m).
Proof.
  intros Hm [c calls] _. destruct (Hm c I) as [Hc _]. unfold tx. cbn [fst snd] in *. destruct (m c) as [c' [a|e]];
    (split; [split; [exact Hc|exists []; by rewrite app_nil_r]|done]).
Qed.
Lemma downloading_ret i {A} (a : A) : downloading i (mret a : M _ SearchError A).
Proof. intros s _. by split. Qed.
Lemma downloading_throw i {A} e : downloading i (throw e : M _ SearchError A).
Proof. intros s _. by split. Qed.
Lemma downloading_bind i {A B} (m : M _ SearchError A) (f : A -> M _ SearchError B) :
  downloading i m -> (forall a, downloading i (f a)) -> downloading i (m ≫= f).
Proof. intros Hm Hf. eapply hoare_bind; [typeclasses eauto|exact Hm|exact Hf]. Qed.
Lemma downloading_torrent (P : Prowlarr) i url : downloading i (download_torrent client i url).
Proof.
  intros s _. split; [|done]. split; [done|]. exists [Downloaded i url]. split; [done|].
  apply Forall_singleton. by exists url.
Qed.
#[local] Hint Resolve downloading_ret downloading_throw downloading_torrent : closing.

(** As [closing], for what follows a request *)
Ltac downloading :=
  repeat first
    [ solve [auto with closing]
    | apply downloading_tx; solve [closing]
    | apply downloading_bind; [|intros ?]
    | match goal with |- hoare _ _ (match ?x with _ => _ end) _ => destruct x end ].

Lemma downloading_results (P : Prowlarr) input source now ordinal downloaded results :
  downloading (si_indexer_id input)
    (process_results decode_with metainfo_parse display client clock input source now ordinal downloaded results).
Proof.
  revert ordinal downloaded. induction results as [|found results IH]; intros ordinal downloaded;
    cbn [process_results]; [downloading|].
  apply downloading_bind; [|intros [outcome|accepted]; [downloading|apply IH]].
  unfold process_result, load_policy, ask. downloading.
Qed.

(** ** The gap between requests *)

(** A run of the activity, for what Prowlarr answers, and the requests it makes of it *)
Definition run (P : Prowlarr) (input : SearchInput) (now : Z) : M (Catalogue * list Call) SearchError SearchOutcome :=
  execute decode_with metainfo_parse enrich_source display client clock input now.

(** Until when the indexer is closed *)
Definition closed_until (c : Catalogue) (i : Z) : option Z :=
  rl_next_eligible_at <$> sporos_indexer_rate_limit c !! i.

(** The result of a run that ends early *)
Definition then_inl {A B} (m : M Catalogue SearchError A) : M Catalogue SearchError (A + B) :=
  a ← m; mret (inl a).

(** What a run does before its request: it ends, or has claimed one for this query. *)
Definition before_request (input : SearchInput) (now : Z)
  : M Catalogue SearchError (SearchOutcome + SearchSource * SearchQuery) :=
  _ ← enrich enrich_source (si_source_id input) now;
  source ← load_source input;
  match source with
  | None => then_inl (failed_search input now (lit "source_unavailable") (lit "source_unavailable"))
  | Some source =>
      query ← ask (fun c => map_err SeProwlarr (indexer_query (si_indexer_id input) (so_release source) c));
      match query with
      | None => then_inl (failed_search input now (lit "indexer_ineligible") (lit "indexer_ineligible"))
      | Some query =>
          next ← claim_indexer (si_indexer_id input) now;
          match next with
          | Some next => then_inl (wait_until clock input now next (lit "indexer_rate_limit"))
          | None => mret (inr (source, query))
          end
      end
  end.

(** What it does then *)
Definition request (P : Prowlarr) (input : SearchInput) (now : Z) (source : SearchSource) (query : SearchQuery)
  : M (Catalogue * list Call) SearchError SearchOutcome :=
  _ ← tx (mark_searching input now);
  answer ← search_indexer client (si_indexer_id input) query;
  match answer with
  | Err error => tx (dependency_error display clock input now error)
  | Ok results =>
      step ← process_results decode_with metainfo_parse display client clock input source now 0 0 results;
      match step with
      | inl outcome => mret outcome
      | inr downloaded =>
          _ ← tx (finish input now (lit "completed") false (Z.of_nat (length results)) downloaded);
          mret Complete
      end
  end.

Lemma run_eq P input now c calls :
  run P input now (c, calls)
  = match before_request input now c with
    | (c', Ok (inl outcome)) => ((c', calls), Ok outcome)
    | (c', Ok (inr (source, query))) => request P input now source query (c', calls)
    | (c', Err e) => ((c', calls), Err e)
    end.
Proof.
  unfold run, execute, before_request, then_inl, mbind, M_bind, tx. cbn [fst snd].
  destruct (enrich enrich_source (si_source_id input) now c) as [c1 [[]|e]]; [|done].
  cbn [fst snd]. destruct (load_source input c1) as [c2 [[source|]|e]]; [| |done].
  2: by cbn [fst snd]; destruct (failed_search _ _ _ _ c2) as [c3 [o|e]].
  cbn [fst snd]. destruct (ask _ c2) as [c3 [[query|]|e]]; [| |done].
  2: by cbn [fst snd]; destruct (failed_search _ _ _ _ c3) as [c4 [o|e]].
  cbn [fst snd]. destruct (claim_indexer _ _ c3) as [c4 [[next|]|e]]; [|done..].
  by cbn [fst snd]; destruct (wait_until _ _ _ _ _ c4) as [c5 [o|e]].
Qed.

Lemma closing_claim i now : is_i64 (now + MIN_REQUEST_GAP_MS) ->
  hoare closes always (claim_indexer i now) (fun _ => always).
Proof.
  intros Hnow. apply closing. intros c. unfold claim_indexer, ask, mbind, M_bind, reads, write, upsert_rate.
  destruct (sporos_indexer_rate_limit c !! i) as [row|] eqn:Hr; cbn [fmap option_fmap option_map].
  - destruct (Z.ltb_spec now (rl_next_eligible_at row)); [reflexivity|].
    case_bool_decide; [|reflexivity]. apply closes_upsert. intros old Ho. assert (old = row) as -> by congruence.
    cbn. unfold is_i64, saturating_add_i64, MIN_REQUEST_GAP_MS in *. lia.
  - case_bool_decide; [|reflexivity]. apply closes_upsert. intros old Ho. congruence.
Qed.

Lemma closing_before input now : is_i64 (now + MIN_REQUEST_GAP_MS) ->
  hoare closes always (before_request input now) (fun _ => always).
Proof using All.
  intros Hnow. pose proof (closing_enrich (si_source_id input) now) as H1'.
  pose proof (closing_load_source input) as H2'. pose proof (closing_claim (si_indexer_id input) now Hnow) as H3'.
  unfold before_request, then_inl, failed_search, wait_until, finish, wait, ask. closing.
Qed.

(** One search of the indexer, and then only downloads *)
Lemma request_searches_once P input now source query c s' r :
  request P input now source query (c, []) = (s', r) ->
  closes c s'.1 /\
  exists calls, s'.2 = Searched (si_indexer_id input) query :: calls /\ Forall (is_download (si_indexer_id input)) calls.
Proof.
  intros Hr.
  assert (downloading (si_indexer_id input) (
    match search client (si_indexer_id input) query with
    | Err error => tx (dependency_error display clock input now error)
    | Ok results =>
        step ← process_results decode_with metainfo_parse display client clock input source now 0 0 results;
        match step with
        | inl outcome => mret outcome
        | inr downloaded =>
            _ ← tx (finish input now (lit "completed") false (Z.of_nat (length results)) downloaded);
            mret Complete
        end
    end)) as Hrest.
  { pose proof (fun results => downloading_results P input source now 0 0 results) as Hres.
    unfold finish. downloading. }
  assert (hoare closes always (mark_searching input now) (fun _ => always)) as Hm.
  { unfold mark_searching. closing. }
  destruct (Hm c I) as [Hc _]. unfold request in Hr. revert Hr.
  unfold mbind at 1, M_bind at 1, tx at 1. cbn [fst snd].
  destruct (mark_searching input now c) as [c1 r1] eqn:E. cbn [fst] in Hc.
  assert (exists u, r1 = Ok u) as [u ->].
  { unfold mark_searching, mbind, M_bind, set_task, update_attempt in E. injection E as _ <-. by eexists. }
  unfold mbind at 1, M_bind at 1, search_indexer, ask_prowlarr. cbn [fst snd app]. intros Hr.
  destruct (Hrest (c1, [Searched (si_indexer_id input) query]) I) as [[Hc1 (calls & Hcalls & Hd)] _].
  rewrite Hr in Hc1, Hcalls. cbn [fst snd] in *. split; [by etrans|]. by exists calls.
Qed.

(** A request is claimed when the indexer is open, and closes it. *)
Lemma before_request_claims input now c c' source query :
  is_i64 (now + MIN_REQUEST_GAP_MS) ->
  before_request input now c = (c', Ok (inr (source, query))) ->
  (forall time, closed_until c (si_indexer_id input) = Some time -> time <= now) /\
  closed_until c' (si_indexer_id input) = Some (now + MIN_REQUEST_GAP_MS).
Proof using Henrich.
  intros Hnow. unfold before_request. rewrite M_bind_Ok. intros (c1 & [] & He & Hr).
  assert (closed_until c1 (si_indexer_id input) = closed_until c (si_indexer_id input)) as <-.
  { unfold enrich in He. unfold closed_until. destruct enrich_source as [f|] eqn:E; injection He as <-; [|done].
    by rewrite Henrich. }
  rewrite M_bind_Ok in Hr. destruct Hr as (c2 & found & Hl & Hr).
  assert (c2 = c1) as ->.
  { unfold load_source, load_policy, source_row, source_of, ask, mbind, M_bind, reads, liftr, mret, M_ret in Hl.
    repeat (case_match; simplify_eq; try done). }
  destruct found as [found|].
  2: { unfold then_inl in Hr. rewrite M_bind_Ok in Hr. by destruct Hr as (? & ? & _ & [=]). }
  rewrite M_bind_Ok in Hr. destruct Hr as (c3 & q & [= <- _] & Hr). destruct q as [q|].
  2: { unfold then_inl in Hr. rewrite M_bind_Ok in Hr. by destruct Hr as (? & ? & _ & [=]). }
  rewrite M_bind_Ok in Hr. destruct Hr as (c4 & next & Hc & Hr). destruct next as [next|].
  { unfold then_inl in Hr. rewrite M_bind_Ok in Hr. by destruct Hr as (? & ? & _ & [=]). }
  injection Hr as <- <- <-. revert Hc. unfold claim_indexer, ask, mbind, M_bind, reads, write, upsert_rate, closed_until.
  destruct (_ <$> _) as [time|] eqn:Hu.
  - destruct (Z.ltb_spec now time); [done|]. case_bool_decide; [|done]. intros [= <-]. cbn.
    rewrite lookup_insert_eq. cbn. split; [by intros ? [= <-]|]. f_equal. unfold is_i64, saturating_add_i64 in *. lia.
  - case_bool_decide; [|done]. intros [= <-]. cbn. rewrite lookup_insert_eq. cbn. split; [done|].
    f_equal. unfold is_i64, saturating_add_i64 in *. lia.
Qed.

(** ** Histories

    Runs side by side: each begins, up to its claim, and makes its requests later, while
    others begin and end; the rest of the service, which never writes the rates, may do
    anything that leaves them as they are or closes an indexer for longer. *)

(** A claimed request that has not been made: the run's input, its time and what it asks *)
Definition Claim : Type := SearchInput * Z * SearchSource * SearchQuery.

Record History := mkHistory {
  h_tables : Catalogue; h_claimed : list Claim;
  (** the searches made of Prowlarr: the indexer, and the time of the run *)
  h_searches : list (Z * Z) }.

Definition searches (now : Z) (calls : list Call) : list (Z * Z) :=
  omap (fun call => match call with Searched i _ => Some (i, now) | Downloaded _ _ => None end) calls.

Definition claimed (input : SearchInput) (now : Z)
    (r : result SearchError (SearchOutcome + SearchSource * SearchQuery)) : list Claim :=
  match r with Ok (inr (source, query)) => [(input, now, source, query)] | _ => [] end.

Inductive step : History -> History -> Prop :=
| run_begins input now c c' r claims log :
    is_i64 (now + MIN_REQUEST_GAP_MS) -> before_request input now c = (c', r) ->
    step (mkHistory c claims log) (mkHistory c' (claimed input now r ++ claims) log)
| run_asks P input now source query c c' calls r before after log :
    request P input now source query (c, []) = ((c', calls), r) ->
    step (mkHistory c (before ++ (input, now, source, query) :: after) log)
         (mkHistory c' (before ++ after) (searches now calls ++ log))
| rest_of_service c c' claims log :
    closes c c' -> step (mkHistory c claims log) (mkHistory c' claims log).

(** Two searches that are not of the same indexer within the gap *)
Definition apart (a b : Z * Z) : Prop := a.1 = b.1 -> MIN_REQUEST_GAP_MS <= Z.abs (a.2 - b.2).

Lemma apart_sym a b : apart a b -> apart b a.
Proof. unfold apart. intros Hab E. specialize (Hab (eq_sym E)). lia. Qed.

Lemma apart_permutation l l' : l ≡ₚ l' -> ForallOrdPairs apart l -> ForallOrdPairs apart l'.
Proof.
  induction 1 as [|x l l' Hp IH|x y l|l l' l'' _ IH1 _ IH2]; intros Hl; [done| | |by auto].
  - inversion Hl as [|? ? Hx Hl']; subst. constructor; [by rewrite <- Hp|by apply IH].
  - inversion Hl as [|? ? Hy Hl']; subst. inversion Hl' as [|? ? Hx Hl'']; subst.
    inversion Hy as [|? ? Hyx Hy']; subst. constructor; [|by constructor].
    constructor; [by apply apart_sym|done].
Qed.

Lemma ordpairs_app_r {A} (R : A -> A -> Prop) l l' : ForallOrdPairs R (l ++ l') -> ForallOrdPairs R l'.
Proof. induction l as [|x l IH]; [done|]. cbn. intros Hl. inversion Hl; subst. by apply IH. Qed.

(** The claims that are open and those that have become searches *)
Definition all_claims (s : History) : list (Z * Z) :=
  ((fun '(input, now, _, _) => (si_indexer_id input, now)) <$> h_claimed s) ++ h_searches s.

(** They are spaced, and the indexer is closed until the gap after the last of them. *)
Definition spaced (s : History) : Prop :=
  ForallOrdPairs apart (all_claims s) /\
  Forall (fun '(i, t) => exists time, closed_until (h_tables s) i = Some time /\ t + MIN_REQUEST_GAP_MS <= time)
    (all_claims s).

Lemma closes_until c c' i time : closes c c' -> closed_until c i = Some time ->
  exists time', closed_until c' i = Some time' /\ time <= time'.
Proof.
  intros Hc. unfold closed_until. destruct (_ !! i) as [row|] eqn:Hr; [|done]. intros [= <-].
  destruct (Hc i row Hr) as (row' & -> & Hle). by eexists.
Qed.

Lemma spaced_same s s' : closes (h_tables s) (h_tables s') -> all_claims s ≡ₚ all_claims s' -> spaced s -> spaced s'.
Proof.
  intros Hc Hp [Ho Hf]. split; [by eapply apart_permutation|]. rewrite <- Hp.
  eapply Forall_impl; [exact Hf|]. intros [i t] (time & Hu & Hle).
  destruct (closes_until _ _ _ _ Hc Hu) as (time' & Hu' & Hle'). exists time'. split; [done|lia].
Qed.

Lemma searches_request now i query calls :
  Forall (is_download i) calls -> searches now (Searched i query :: calls) = [(i, now)].
Proof.
  intros Hd. unfold searches. cbn. f_equal. induction Hd as [|call calls (url & ->) _ IH]; [done|exact IH].
Qed.

Lemma step_spaced s s' : step s s' -> spaced s -> spaced s'.
Proof using All.
  intros Hs. destruct Hs as [input now c c' r claims log Hnow Hb|P input now source query c c' calls r before after log Hr|].
  - pose proof (closing_before input now Hnow c I) as [Hc _]. rewrite Hb in Hc. cbn [fst] in Hc.
    destruct r as [[o|[source query]]|e]; [by apply spaced_same| |by apply spaced_same].
    destruct (before_request_claims _ _ _ _ _ _ Hnow Hb) as [Hopen Hclosed]. intros Hsp.
    destruct (spaced_same (mkHistory c claims log) (mkHistory c' claims log) Hc (reflexivity _) Hsp) as [Ho' Hf'].
    destruct Hsp as [Ho Hf]. unfold all_claims in *. cbn [claimed app h_claimed h_tables h_searches fmap list_fmap] in *.
    split; constructor; [|done| |done].
    + eapply Forall_impl; [exact Hf|]. intros [i t] (time & Hu & Hle) E. cbn in *. subst i.
      specialize (Hopen time Hu). lia.
    + exists (now + MIN_REQUEST_GAP_MS). split; [done|lia].
  - destruct (request_searches_once _ _ _ _ _ _ _ _ Hr) as (Hc & ds & Hcalls & Hd).
    cbn in Hc, Hcalls. subst calls. rewrite searches_request by done.
    apply spaced_same; [done|]. unfold all_claims. cbn [h_claimed h_searches]. rewrite !fmap_app, fmap_cons.
    rewrite <- !app_assoc. apply Permutation_app_head. cbn. rewrite app_comm_cons. apply Permutation_middle.
  - by apply spaced_same.
Qed.

(** A run is the steps of its claim and of its requests. *)
Lemma run_is_steps P input now c c' calls r claims log :
  is_i64 (now + MIN_REQUEST_GAP_MS) -> run P input now (c, []) = ((c', calls), r) ->
  rtc step (mkHistory c claims log) (mkHistory c' claims (searches now calls ++ log)).
Proof.
  intros Hnow. rewrite run_eq. destruct (before_request input now c) as [c1 r1] eqn:Hb.
  pose proof (run_begins input now c c1 r1 claims log Hnow Hb) as Hbegin.
  destruct r1 as [[o|[source query]]|e]; [intros [= -> <- _]; by apply rtc_once| |intros [= -> <- _]; by apply rtc_once].
  intros Hr. eapply rtc_l; [exact Hbegin|]. apply rtc_once.
  exact (run_asks P input now source query c1 c' calls r [] claims log Hr).
Qed.

(** C14: An indexer is searched at most once per second.  A run searches its indexer once,
    or makes no request at all; after the search it only downloads torrents of that
    indexer.  It makes no request when the indexer is closed at its time, and one that it
    makes closes the indexer for at least a second; no run opens one.  However runs
    begin, wait and make their requests beside each other, whatever Prowlarr answers and
    however they end, the times of any two runs that have searched the same indexer are at
    least a second apart.  The time of a run is the one that it claims its request with,
    which is read when the activity begins and lies within an [i64] with the gap; downloads
    are not spaced.  Enrichment and the rest of the service do not write the rates, as in
    the code. *)
Theorem requests_are_spaced :
  (forall P input now c c' calls r, is_i64 (now + MIN_REQUEST_GAP_MS) ->
     run P input now (c, []) = ((c', calls), r) ->
     closes c c' /\
     (forall claims log, rtc step (mkHistory c claims log) (mkHistory c' claims (searches now calls ++ log))) /\
     (calls = [] \/
      (forall time, closed_until c (si_indexer_id input) = Some time -> time <= now) /\
      (exists time, closed_until c' (si_indexer_id input) = Some time /\ now + MIN_REQUEST_GAP_MS <= time) /\
      exists query downloads, calls = Searched (si_indexer_id input) query :: downloads /\
        Forall (is_download (si_indexer_id input)) downloads)) /\
  (forall c s, rtc step (mkHistory c [] []) s ->
     forall j k i t t', (j < k)%nat -> h_searches s !! j = Some (i, t) -> h_searches s !! k = Some (i, t') ->
       MIN_REQUEST_GAP_MS <= Z.abs (t - t')).
Proof using All.
  split.
  - intros P input now c c' calls r Hnow Hrun. pose proof Hrun as Hsteps. revert Hrun. rewrite run_eq.
    pose proof (closing_before input now Hnow c I) as [Hc _].
    destruct (before_request input now c) as [c1 r1] eqn:Hb. cbn [fst] in Hc.
    destruct r1 as [[o|[source query]]|e];
      [intros [= -> -> _]; split; [done|]; split; [intros; by eapply run_is_steps|by left]| |
       intros [= -> -> _]; split; [done|]; split; [intros; by eapply run_is_steps|by left]].
    intros Hr. destruct (before_request_claims _ _ _ _ _ _ Hnow Hb) as [Hopen Hclosed].
    destruct (request_searches_once _ _ _ _ _ _ _ _ Hr) as (Hc' & ds & Hcalls & Hd). cbn in Hc', Hcalls.
    split; [by etrans|]. split; [intros; by eapply run_is_steps|]. right. split; [exact Hopen|].
    split; [by eapply closes_until|]. by exists query, ds.
  - intros c s Hs. assert (spaced s) as [Ho _].
    { enough (spaced (mkHistory c [] [])) as Hnone by (induction Hs; [done|eauto using step_spaced]).
      split; constructor. }
    unfold all_claims in Ho. clear Hs. apply ordpairs_app_r in Ho. induction Ho as [|x l Hx Ho IH]; intros j k i t t' Hjk Hj Hk; [done|].
    destruct k as [|k]; [lia|]. destruct j as [|j]; [|apply (IH j k i t t'); [lia|done|done]].
    cbn in Hj, Hk. injection Hj as ->. rewrite Forall_lookup in Hx. exact (Hx k (i, t') Hk eq_refl).
Qed.
End SearchRun.

(** ** Example: an indexer that is open, and one that is closed *)

Module Sample.
#[local] Existing Instance Torznab.Sample.xml.
#[local] Existing Instance Prowlarr.Sample.http.
#[local] Existing Instance Prowlarr.Sample.xml_reader.

(** Prowlarr answers with a status and an empty body. *)
Definition answers (status : Z) : Prowlarr := {|
  get _ _ := Ok (mkResponse status None None []);
  decode_indexers _ := Ok []; decode_tags _ := Ok [] |}.

Import Codec SearchSample.

Definition indexer : IndexerRow :=
  mkIndexerRow (lit "indexer") (lit "torrent") true true false 1 [] [] true None None 0.
Definition source : QbitRow :=
  mkQbitRow (Some (lit "aa")) None None (lit "film") 4 0 1000000 (lit "uploading") (lit "/data")
    (lit "/data/film") [] [] true true 1 (lit "loaded") None None None
    (Some (encode_release (Release.parse_release (lit "The.Film.1999.1080p.mkv")))) None 1 10.
Definition input : SearchInput :=
  mkSearchInput (lit "task") (lit "attempt") (lit "source") 1 (lit "policy") (lit "completion").
Definition catalogue (rates : gmap Z RateRow) : Catalogue :=
  with_attempts {[ lit "attempt" := mkAttemptRow (lit "source") 1 [] (lit "policy") (lit "completion") (lit "queued")
                                      0 0 None None 5 None (Some (lit "task")) 0 ]}
    (with_rates rates (with_indexers {[ 1 := indexer ]} (empty_catalogue
       (mkLibrary (set_policies (fun _ => {[ lit "policy" :=
                     mkPolicyRow [] MATCHER_VERSION (encode_search_policy policy) 0 ]}) empty_db)
          ∅ ∅ ∅ ∅ {[ lit "source" := source ]} (mkInventoryRow None 0 None None None None None None)
          ∅ ∅ ∅ ∅ ∅ ∅ ∅ ∅)))).

Definition sample_run (P : Prowlarr) (now : Z) :=
  run (fun _ => true) (fun _ => None) None (fun _ => []) Prowlarr.Sample.client 0 P input now.
Definition opened : Catalogue := catalogue ∅.
(** The tables after a search at 100, which found nothing, after a run at 600, which waits,
    and after one at 1100, which Prowlarr refuses to answer *)
Definition searched := sample_run (answers 200) 100 (opened, []).
Definition waited := sample_run (answers 200) 600 (searched.1.1, []).
Definition refused := sample_run (answers 404) 1100 (waited.1.1, []).

Lemma requests_are_spaced_witness :
  (searched.2 = Ok Complete /\ length searched.1.2 = 1%nat) /\
  (waited.2 = Ok (Waiting 1100 500) /\ waited.1.2 = []) /\
  (refused.2 = Ok (Failed []) /\ length refused.1.2 = 1%nat) /\
  exists s, rtc (step (fun _ => true) (fun _ => None) None (fun _ => []) Prowlarr.Sample.client 0)
                (mkHistory opened [] []) s /\
    h_searches s = [(1, 1100); (1, 100)] /\ MIN_REQUEST_GAP_MS <= Z.abs (1100 - 100).
Proof.
  assert (forall f id now c, None = Some f ->
    sporos_indexer_rate_limit ((f : str -> Z -> Catalogue -> Catalogue) id now c) = sporos_indexer_rate_limit c) as Henrich by done.
  destruct (requests_are_spaced (fun _ => true) (fun _ => None) None (fun _ => []) Prowlarr.Sample.client 0 Henrich)
    as [Hrun Hspaced].
  split; [split; vm_compute; reflexivity|]. split; [split; vm_compute; reflexivity|].
  split; [split; vm_compute; reflexivity|].
  assert (forall P now (s : Catalogue * list Call * result SearchError SearchOutcome) c log,
    is_i64 (now + MIN_REQUEST_GAP_MS) -> sample_run P now (c, []) = s ->
    rtc (step (fun _ => true) (fun _ => None) None (fun _ => []) Prowlarr.Sample.client 0)
      (mkHistory c [] log) (mkHistory s.1.1 [] (searches now s.1.2 ++ log))) as Hsteps.
  { intros P now [[c' calls] r] c log Hnow Hr. destruct (Hrun P input now c c' calls r Hnow Hr) as (_ & Hs & _). apply Hs. }
  pose proof (Hsteps (answers 200) 100 searched opened [] ltac:(split; discriminate) eq_refl) as H1.
  pose proof (Hsteps (answers 200) 600 waited searched.1.1
    (searches 100 searched.1.2 ++ []) ltac:(split; discriminate) eq_refl) as H2.
  pose proof (Hsteps (answers 404) 1100 refused waited.1.1
    (searches 600 waited.1.2 ++ searches 100 searched.1.2 ++ []) ltac:(split; discriminate) eq_refl) as H3.
  pose proof (transitivity H1 (transitivity H2 H3)) as Hall.
  assert (searches 1100 refused.1.2 ++ searches 600 waited.1.2 ++ searches 100 searched.1.2 ++ []
          = [(1, 1100); (1, 100)]) as Hlog by (vm_compute; reflexivity).
  exists (mkHistory refused.1.1 [] (searches 1100 refused.1.2 ++ searches 600 waited.1.2 ++ searches 100 searched.1.2 ++ [])).
  split; [exact Hall|]. split; [exact Hlog|].
  apply (Hspaced _ _ Hall 0%nat 1%nat 1 1100 100); [lia| |]; cbn [h_searches]; rewrite Hlog; reflexivity.
Defined.
End Sample.
