(* ===== verification/DataScan.v ===== *)
(** The file system part of a data scan (data_scan.rs): one page of a directory, the
    test for a release, and the files of a release.

    A path is its bytes, and [components] (Hardlink.v) is how Rust reads them.  What
    [read_dir] and [symlink_metadata] answer is the interface [DataFiles]: a scan of a page
    only reads, and the interface is what the file system holds while it does.  The loop
    over the directories of a release takes fuel; DataScanProofs.v proves that there is
    enough for every file system. *)

From S2P Require Import Prelude Text Model Hardlink.
From S2P Require Paths.
From stdpp Require Import strings.
Local Open Scope Z_scope.

Definition PAGE_SIZE : nat := 100.
Definition MAX_FILE_DEPTH : nat := 16.

(** [config::DataRoot] *)
Record DataRoot := mkDataRoot {
  dr_path : str; max_depth : Z; max_releases : Z; max_files_per_release : Z }.

(** ** The file system *)

Inductive FileType := Directory | Regular | Symlink | Special.
#[export] Instance FileType_eq_dec : EqDecision FileType.
Proof. solve_decision. Defined.

Record Stat := mkStat {
  st_type : FileType; st_len : Z; st_dev : Z; st_ino : Z; st_mtime : Z }.

(** [read_dir] yields the name of each entry, or an error in its place. *)
Class DataFiles := {
  IoError : Type;
  is_not_found : IoError -> bool;
  symlink_metadata : str -> result IoError Stat;
  read_dir : str -> result IoError (list (result IoError str)) }.

Inductive ScanFsError `{DataFiles} :=
| ScIo (e : IoError)
| ScUnsafePath
| NonUtf8
| FileLimit
| FileDepth
| SizeOverflow.

Definition is_symlink (m : Stat) : bool := bool_decide (st_type m = Symlink).
Definition is_directory (m : Stat) : bool := bool_decide (st_type m = Directory).
Definition is_regular (m : Stat) : bool := bool_decide (st_type m = Regular).

(** ** Paths of bytes *)

(** [Path::join] *)
Definition push (base path : str) : str :=
  if starts_with (lit "/") path then path else
  match last base with
  | None => path
  | Some c => if c =? 47 then base ++ path else base ++ [47] ++ path
  end.

(** [path.file_name()], [path.extension()]: [rsplitn(2, '.')] of a name that is not [..] *)
Definition name_of (path : str) : option str := file_name (components path).
Definition extension (path : str) : option str :=
  name ← name_of path;
  '(before, after) ← rsplit_once 46 name;
  if bool_decide (before = []) then None else Some after.

(** The text of the last [n] components of a path, from its parts in reverse. *)
Fixpoint last_parts (n : nat) (parts : list str) : list str :=
  match n, parts with
  | S m, part :: parts =>
      match part_component part with
      | Some _ => last_parts m parts ++ [part]
      | None => match last_parts n parts with [] => [] | kept => kept ++ [part] end
      end
  | _, _ => []
  end.
Definition is_part (part : str) : bool := bool_decide (is_Some (part_component part)).
Fixpoint skip_empty (parts : list str) : list str :=
  match parts with
  | part :: rest => if is_part part then parts else skip_empty rest
  | [] => []
  end.
Definition tail_text (n : nat) (path : str) : str :=
  join_on 47 (last_parts n (skip_empty (rev (split_on 47 path)))).

(** [path.strip_prefix(prefix)] and its bytes, for a prefix that is not empty *)
Definition strip (prefix path : str) : option str :=
  rest ← Paths.strip_prefix (components prefix) (components path);
  Some (tail_text (length rest) path).

Definition append_component (parent name : str) : str :=
  match parent with [] => name | _ => parent ++ [47] ++ name end.

Definition primary_video (path : str) (extensions : list str) : bool :=
  match extension path ≫= from_utf8 with
  | Some ext => existsb (fun allowed => eq_ignore_ascii_case allowed ext) extensions
  | None => false
  end.

(** A name with the letters of VIDEO_TS is UTF-8. *)
Definition disc_video (relative : str) : bool :=
  existsb (fun c => match c with
                    | Normal name => eq_ignore_ascii_case name (lit "VIDEO_TS")
                    | _ => false
                    end) (components relative)
  && match extension relative ≫= from_utf8 with
     | Some ext => eq_ignore_ascii_case ext (lit "vob")
     | None => false
     end.

Section Scan.
Context `{DataFiles}.

Definition io {A} (r : result IoError A) : result ScanFsError A := map_err ScIo r.

Definition join_bytes (root relative : str) : result ScanFsError str :=
  match relative with
  | [] => Ok root
  | _ => if is_absolute (components relative)
            || existsb (fun c => negb (is_normal c)) (components relative)
         then Err ScUnsafePath else Ok (push root relative)
  end.

(** ** Releases *)

Record ScannedFile := mkScannedFile {
  sn_relative_path : str; sn_display_path : str; sn_local_path : str; sn_size : Z; sn_video : bool;
  sn_device : Z; sn_inode : Z; sn_modified_at : Z }.

(** [kind] is [directory] or [file]. *)
Record ScannedRelease := mkScannedRelease {
  sr_relative_path : str; sr_kind : str; sr_name : str; sr_total_size : Z; sr_device : Z;
  sr_inode : Z; sr_modified_at : Z; sr_files : list ScannedFile }.

Record DirectoryPage := mkDirectoryPage {
  pg_releases : list ScannedRelease; pg_children : list str; pg_last_name : option str;
  pg_has_more : bool }.

(** The loop of [looks_like_release] *)
Fixpoint any_release (path : str) (entries : list (result IoError str)) (primary_extensions : list str)
  : result ScanFsError bool :=
  match entries with
  | [] => Ok false
  | entry :: entries =>
      name ← io entry;
      let child := push path name in
      metadata ← io (symlink_metadata child);
      if is_symlink metadata then any_release path entries primary_extensions else
      if is_regular metadata && primary_video child primary_extensions then Ok true else
      if is_directory metadata
         && str_mem (to_ascii_uppercase name) [lit "BDMV"; lit "VIDEO_TS"] then Ok true else
      any_release path entries primary_extensions
  end.
Definition looks_like_release (path : str) (primary_extensions : list str) : result ScanFsError bool :=
  entries ← io (read_dir path);
  any_release path entries primary_extensions.

Definition standalone_release (root relative_path path : str) (metadata : Stat)
  : result ScanFsError (option ScannedRelease) :=
  match name_of path ≫= from_utf8 with
  | None => Ok None
  | Some name =>
      local_path ← ok_or (from_utf8 path) NonUtf8;
      relative_file ← ok_or (strip root path) ScUnsafePath;
      Ok (Some (mkScannedRelease relative_path (lit "file") name (st_len metadata) (st_dev metadata)
                  (st_ino metadata) (st_mtime metadata)
                  [mkScannedFile relative_file name local_path (st_len metadata) true
                     (st_dev metadata) (st_ino metadata) (st_mtime metadata)]))
  end.

(** One entry of a directory at [depth]: the files so far and the directories to visit, the
    next one first. *)
Definition walk_entry (root path : str) (max_files : Z) (primary_extensions : list str)
    (directory : str) (depth : nat) (acc : list ScannedFile * list (str * nat))
    (entry : result IoError str) : result ScanFsError (list ScannedFile * list (str * nat)) :=
  let '(files, pending) := acc in
  name ← io entry;
  let child := push directory name in
  metadata ← io (symlink_metadata child);
  if is_symlink metadata then Ok (files, pending) else
  if is_directory metadata then Ok (files, (child, S depth) :: pending) else
  if negb (is_regular metadata) then Ok (files, pending) else
  if Z.of_nat (length files) =? max_files then Err FileLimit else
  display ← ok_or (strip path child) ScUnsafePath;
  match from_utf8 display, from_utf8 child with
  | Some display_path, Some local_path =>
      relative_file ← ok_or (strip root child) ScUnsafePath;
      let primary := primary_video child primary_extensions || disc_video display in
      Ok (files ++ [mkScannedFile relative_file display_path local_path (st_len metadata) primary
                      (st_dev metadata) (st_ino metadata) (st_mtime metadata)], pending)
  | _, _ => Ok (files, pending)
  end.

(** [while let Some((directory, depth)) = pending.pop()]; [None] is out of fuel. *)
Fixpoint walk (root path : str) (max_files : Z) (primary_extensions : list str) (fuel : nat)
    (files : list ScannedFile) (pending : list (str * nat))
  : option (result ScanFsError (list ScannedFile)) :=
  match pending with
  | [] => Some (Ok files)
  | (directory, depth) :: pending =>
      match fuel with
      | O => None
      | S fuel =>
          match (if (MAX_FILE_DEPTH <? depth)%nat then Err FileDepth else
                 entries ← io (read_dir directory);
                 try_fold (walk_entry root path max_files primary_extensions directory depth)
                   entries (files, pending)) with
          | Ok (files, pending) => walk root path max_files primary_extensions fuel files pending
          | Err e => Some (Err e)
          end
      end
  end.

Definition file_leb (a b : ScannedFile) : bool := str_leb (sn_relative_path a) (sn_relative_path b).

(** What follows the loop: [files] in order, with their sizes added up *)
Definition gather (relative_path name : str) (metadata : Stat) (files : list ScannedFile)
  : result ScanFsError (option ScannedRelease) :=
  let files := sort_by file_leb files in
  if negb (existsb sn_video files) then Ok None else
  total_size ← try_fold (fun total file => ok_or (checked_add_u64 total (sn_size file)) SizeOverflow)
                 files 0;
  Ok (Some (mkScannedRelease relative_path (lit "directory") name total_size (st_dev metadata)
              (st_ino metadata) (st_mtime metadata) files)).

Definition directory_release (fuel : nat) (root relative_path path : str) (metadata : Stat)
    (max_files : Z) (primary_extensions : list str)
  : option (result ScanFsError (option ScannedRelease)) :=
  match name_of path ≫= from_utf8 with
  | None => Some (Ok None)
  | Some name =>
      files ← walk root path max_files primary_extensions fuel [] [(path, O)];
      Some (files ← files; gather relative_path name metadata files)
  end.

(** ** A page of a directory *)

Definition entry_leb (a b : str * str) : bool := str_leb a.1 b.1.

(** An entry after the cursor is kept if it is among the first [PAGE_SIZE] so far. *)
Definition select_entry (directory : str) (cursor : option str) (acc : list (str * str) * bool)
    (entry : result IoError str) : result ScanFsError (list (str * str) * bool) :=
  let '(selected, has_more) := acc in
  name ← io entry;
  if match cursor with Some c => str_leb name c | None => false end then Ok (selected, has_more) else
  let selected := sort_by entry_leb (selected ++ [(name, push directory name)]) in
  if (PAGE_SIZE <? length selected)%nat then Ok (removelast selected, true)
  else Ok (selected, has_more).

(** What a selected entry adds to the page. *)
Definition scan_entry (fuel : nat) (root relative : str) (depth : Z) (settings : DataRoot)
    (primary_extensions : list str) (acc : list ScannedRelease * list str) (entry : str * str)
  : option (result ScanFsError (list ScannedRelease * list str)) :=
  let '(releases, children) := acc in
  let '(name, path) := entry in
  match io (symlink_metadata path) with
  | Err e => Some (Err e)
  | Ok metadata =>
      if is_symlink metadata then Some (Ok acc) else
      let child_relative := append_component relative name in
      let add (release : result ScanFsError (option ScannedRelease)) :=
        (fun release => (releases ++ option_list release, children)) <$> release in
      if is_regular metadata && primary_video path primary_extensions then
        Some (add (standalone_release root child_relative path metadata))
      else if is_directory metadata then
        match looks_like_release path primary_extensions with
        | Err e => Some (Err e)
        | Ok true =>
            add <$> directory_release fuel root child_relative path metadata
                      (max_files_per_release settings) primary_extensions
        | Ok false => Some (Ok (if depth <? max_depth settings
                                then (releases, children ++ [child_relative]) else acc))
        end
      else Some (Ok acc)
  end.

Fixpoint scan_entries (fuel : nat) (root relative : str) (depth : Z) (settings : DataRoot)
    (primary_extensions : list str) (acc : list ScannedRelease * list str) (entries : list (str * str))
  : option (result ScanFsError (list ScannedRelease * list str)) :=
  match entries with
  | [] => Some (Ok acc)
  | entry :: entries =>
      match scan_entry fuel root relative depth settings primary_extensions acc entry with
      | Some (Ok acc) => scan_entries fuel root relative depth settings primary_extensions acc entries
      | stopped => stopped
      end
  end.

Definition select_page (directory : str) (cursor : option str) (entries : list (result IoError str))
  : result ScanFsError (list (str * str) * bool) :=
  try_fold (select_entry directory cursor) entries ([], false).

Definition scan_directory (fuel : nat) (root relative : str) (depth : Z) (cursor : option str)
    (settings : DataRoot) (primary_extensions : list str)
  : option (result ScanFsError DirectoryPage) :=
  match (directory ← join_bytes root relative;
         metadata ← io (symlink_metadata directory);
         if negb (is_directory metadata) || is_symlink metadata then Err ScUnsafePath else
         entries ← io (read_dir directory);
         select_page directory cursor entries) with
  | Err e => Some (Err e)
  | Ok (selected, has_more) =>
      page ← scan_entries fuel root relative depth settings primary_extensions ([], []) selected;
      Some ('(releases, children) ← page;
            Ok (mkDirectoryPage releases children (fst <$> last selected) has_more))
  end.

(** ** The root *)

(** [Path::ancestors]: the path, its parent, and so on. *)
Fixpoint parents (n : nat) (path : list Component) : list (list Component) :=
  match n, parent path with
  | S n, Some above => above :: parents n above
  | _, _ => []
  end.
Definition ancestors (path : str) : list str :=
  path :: map Paths.path_text (parents (length (components path)) (components path)).

(** Neither the root nor a directory above it is a symbolic link. *)
Definition safe_root (root : str) : result ScanFsError () :=
  _ ← collect (fun ancestor =>
                 metadata ← io (symlink_metadata ancestor);
                 bail_if (is_symlink metadata) ScUnsafePath) (ancestors root);
  metadata ← io (symlink_metadata root);
  bail_if (negb (is_directory metadata)) ScUnsafePath.

(** [ScanFsError::reason_code] *)
Definition reason_code (e : ScanFsError) : str :=
  match e with
  | ScIo _ => lit "filesystem_error"
  | ScUnsafePath => lit "unsafe_path"
  | NonUtf8 => lit "non_utf8_path"
  | FileLimit => lit "file_limit"
  | FileDepth => lit "file_depth_limit"
  | SizeOverflow => lit "size_overflow"
  end.
End Scan.

(** ** Examples *)

Example push_separates : push (lit "/media/tv") (lit "a.mkv") = lit "/media/tv/a.mkv".
Proof. reflexivity. Qed.
Example strip_text : strip (lit "/media/tv/") (lit "/media//tv/x//a.mkv") = Some (lit "x//a.mkv").
Proof. reflexivity. Qed.
Example strip_other : strip (lit "/media/tv") (lit "/media/movies/a.mkv") = None.
Proof. reflexivity. Qed.
Example hidden_has_no_extension : extension (lit "/media/.mkv") = None.
Proof. reflexivity. Qed.
Example last_extension : extension (lit "/media/a.b.mkv") = Some (lit "mkv").
Proof. reflexivity. Qed.
Example above_root : ancestors (lit "/media/tv") = [lit "/media/tv"; lit "/media"; lit "/"].
Proof. reflexivity. Qed.
