(* ===== verification/DataScanProofs.v ===== *)
(** The scan of a data directory: pages cover a directory, and the files of a release are
    all the files below its directory.  The loops end. *)

From S2P Require Import Prelude Text Model Hardlink DataScan.
From S2P Require Paths.
From stdpp Require Import strings.
From stdpp Require sorting.
Local Open Scope Z_scope.

(** ** Selecting a page *)

(** A name that comes after the cursor *)
Definition after (cursor : option str) (name : str) : Prop :=
  match cursor with Some c => str_leb name c = false | None => True end.
#[export] Instance after_dec cursor name : Decision (after cursor name).
Proof. destruct cursor; cbn; apply _. Defined.

Section Scan.
Context `{DataFiles}.

Notation named directory := (fun name : str => (name, push directory name)).

Lemma select_entry_spec directory cursor l more name :
  select_entry directory cursor
    (map (named directory) (take PAGE_SIZE (sort_by str_leb l)), more) (Ok name)
  = Ok (if decide (after cursor name)
        then (map (named directory) (take PAGE_SIZE (sort_by str_leb (l ++ [name]))),
              more || (PAGE_SIZE <=? length l)%nat)
        else (map (named directory) (take PAGE_SIZE (sort_by str_leb l)), more)).
Proof.
  unfold select_entry. cbn [io map_err mbind result_bind].
  destruct (decide (after cursor name)) as [Ha|Ha].
  2: { by replace (match cursor with Some c => str_leb name c | None => false end) with true
         by (destruct cursor as [c|]; [unfold after in Ha; by destruct (str_leb name c)|by destruct (Ha I)]). }
  replace (match cursor with Some c => str_leb name c | None => false end) with false
    by (destruct cursor; [symmetry; exact Ha|done]).
  replace (map (named directory) (take PAGE_SIZE (sort_by str_leb l)) ++ [(name, push directory name)])
    with (map (named directory) (take PAGE_SIZE (sort_by str_leb l) ++ [name])) by apply map_app.
  rewrite (sort_by_map (named directory) str_leb) by done.
  rewrite !sort_by_snoc by eauto with sporos.
  set (s := sort_by str_leb l).
  assert (sort_by str_leb (take PAGE_SIZE s) = take PAGE_SIZE s) as ->.
  { apply (sorted_unique str_leb).
    - intros x y _ _. apply str_leb_antisym.
    - apply sort_by_sorted; eauto with sporos.
    - apply (sorting.StronglySorted_app_1_l _ _ (drop PAGE_SIZE s)). rewrite take_drop.
      apply sort_by_sorted; eauto with sporos.
    - apply sort_by_Permutation. }
  rewrite (take_insert_sorted str_leb _ _ s).
  assert (length (insert_sorted str_leb name (take PAGE_SIZE s)) = S (length s `min` PAGE_SIZE)) as Hl.
  { rewrite (Permutation_length (insert_sorted_Permutation _ _ _)). cbn [length]. rewrite length_take. lia. }
  rewrite length_map, Hl. assert (length s = length l) as Hs by apply length_sort_by.
  destruct (Nat.ltb_spec PAGE_SIZE (S (length s `min` PAGE_SIZE))) as [Hn|Hn].
  - rewrite (removelast_take _ PAGE_SIZE) by (rewrite length_map, Hl; lia).
    rewrite firstn_map. destruct (Nat.leb_spec PAGE_SIZE (length l)); [by rewrite orb_true_r|lia].
  - rewrite (take_ge (insert_sorted _ _ _)) by lia. f_equal. f_equal.
    destruct (Nat.leb_spec PAGE_SIZE (length l)); [lia|by rewrite orb_false_r].
Qed.


(** A page holds the first entries after the cursor, in order, whatever the order in which
    the directory is read. *)
Lemma select_page_spec directory cursor names :
  let rest := filter (after cursor) names in
  select_page directory cursor (map Ok names)
  = Ok (map (named directory) (take PAGE_SIZE (sort_by str_leb rest)), (PAGE_SIZE <? length rest)%nat).
Proof.
  unfold select_page.
  assert (forall l names, let rest := l ++ filter (after cursor) names in
    try_fold (select_entry directory cursor) (map Ok names)
      (map (named directory) (take PAGE_SIZE (sort_by str_leb l)), (PAGE_SIZE <? length l)%nat)
    = Ok (map (named directory) (take PAGE_SIZE (sort_by str_leb rest)), (PAGE_SIZE <? length rest)%nat)) as Hl.
  2: exact (Hl [] names).
  clear names. intros l names. revert l. induction names as [|name names IH]; intros l; cbn zeta.
  - by rewrite app_nil_r.
  - cbn [map try_fold]. rewrite select_entry_spec, filter_cons. destruct (decide (after cursor name)) as [Ha|Ha].
    + specialize (IH (l ++ [name])). cbn zeta in IH. rewrite <- app_assoc in IH.
      etrans; [|exact IH]. f_equal. f_equal.
      rewrite length_app. cbn [length].
      destruct (Nat.ltb_spec PAGE_SIZE (length l)), (Nat.leb_spec PAGE_SIZE (length l)),
        (Nat.ltb_spec PAGE_SIZE (length l + 1)); try done; lia.
    + apply IH.
Qed.

(** ** The files below a directory: the reference *)

Section Below.
Context (root path : str) (max_files : Z) (primary_extensions : list str).

(** What is recorded of a file; nothing if its path is not text. *)
Definition file_of (child : str) (metadata : Stat) : result ScanFsError (option ScannedFile) :=
  display ← ok_or (strip path child) ScUnsafePath;
  match from_utf8 display, from_utf8 child with
  | Some display_path, Some local_path =>
      relative_file ← ok_or (strip root child) ScUnsafePath;
      Ok (Some (mkScannedFile relative_file display_path local_path (st_len metadata)
                  (primary_video child primary_extensions || disc_video display)
                  (st_dev metadata) (st_ino metadata) (st_mtime metadata)))
  | _, _ => Ok None
  end.

(** The regular files and the directories among the entries of a directory *)
Fixpoint contents (directory : str) (entries : list (result IoError str))
  : option (list (option ScannedFile) * list str) :=
  match entries with
  | [] => Some ([], [])
  | Err _ :: _ => None
  | Ok name :: entries =>
      match symlink_metadata (push directory name) with
      | Err _ => None
      | Ok metadata =>
          match st_type metadata with
          | Directory =>
              '(files, directories) ← contents directory entries;
              Some (files, push directory name :: directories)
          | Regular =>
              match file_of (push directory name) metadata with
              | Err _ => None
              | Ok file =>
                  '(files, directories) ← contents directory entries;
                  Some (file :: files, directories)
              end
          | _ => contents directory entries
          end
      end
  end.

(** The files of a directory and of the directories below it, [n] levels deep *)
Fixpoint below (n : nat) (directory : str) : option (list (option ScannedFile)) :=
  match n, read_dir directory with
  | S n, Ok entries =>
      '(files, directories) ← contents directory entries;
      deeper ← mapM (below n) directories;
      Some (files ++ concat deeper)
  | _, _ => None
  end.

Definition belows (pending : list (str * nat)) : option (list (option ScannedFile)) :=
  lists ← mapM (fun p : str * nat => below (S MAX_FILE_DEPTH - p.2) p.1) pending;
  Some (concat lists).

Abbreviation visit directory depth :=
  (try_fold (walk_entry root path max_files primary_extensions directory depth)).

(** ** One directory of the walk *)

Lemma walk_entry_eq directory depth files pending name :
  let child := push directory name in
  walk_entry root path max_files primary_extensions directory depth (files, pending) (Ok name)
  = match symlink_metadata child with
    | Err e => Err (ScIo e)
    | Ok metadata =>
        match st_type metadata with
        | Directory => Ok (files, (child, S depth) :: pending)
        | Regular =>
            if Z.of_nat (length files) =? max_files then Err FileLimit
            else (fun file => (files ++ option_list file, pending)) <$> file_of child metadata
        | _ => Ok (files, pending)
        end
    end.
Proof.
  cbn zeta. unfold walk_entry. cbn [io map_err mbind result_bind]. destruct (symlink_metadata _) as [m|e]; [|done].
  cbn [io map_err mbind result_bind]. unfold is_symlink, is_directory, is_regular.
  destruct (st_type m); try reflexivity. unfold file_of.
  change (bool_decide (Regular = Symlink)) with false. change (bool_decide (Regular = Directory)) with false.
  change (bool_decide (Regular = Regular)) with true. cbn [negb].
  destruct (_ =? _); [done|].
  destruct (strip path _) as [display|]; cbn [ok_or mbind result_bind]; [|done].
  destruct (from_utf8 display), (from_utf8 (push directory name));
    try destruct (strip root _); cbn; by rewrite ?app_nil_r.
Qed.

Lemma visit_Ok directory depth entries files pending files' pending' :
  visit directory depth entries (files, pending) = Ok (files', pending') ->
  exists new dirs, contents directory entries = Some (new, dirs) /\
    files' = files ++ omap id new /\ pending' = map (fun d => (d, S depth)) (rev dirs) ++ pending /\
    (Z.of_nat (length files) <= max_files -> Z.of_nat (length files') <= max_files).
Proof.
  revert files pending. induction entries as [|[name|e] entries IH]; intros files pending; [|..|done].
  - intros [= <- <-]. exists [], []. cbn. by rewrite app_nil_r.
  - cbn [try_fold]. rewrite walk_entry_eq. cbn [contents].
    destruct (symlink_metadata _) as [metadata|e]; [|done].
    destruct (st_type metadata).
    + intros (new & dirs & -> & -> & -> & Hmax)%IH. exists new, (push directory name :: dirs).
      cbn [mbind option_bind]. cbn [rev]. by rewrite map_app, <- app_assoc.
    + destruct (Z.eqb_spec (Z.of_nat (length files)) max_files); [done|].
      destruct (file_of _ _) as [file|e]; [|done]. cbn [fmap result_fmap].
      intros (new & dirs & -> & -> & -> & Hmax)%IH. exists (file :: new), dirs.
      split; [done|]. split; [destruct file; cbn; by rewrite <- ?app_assoc, ?app_nil_r|]. split; [done|].
      intros Hle. apply Hmax. rewrite length_app. destruct file; cbn; lia.
    + apply IH.
    + apply IH.
Qed.

Lemma visit_total directory depth entries files pending new dirs :
  contents directory entries = Some (new, dirs) ->
  Z.of_nat (length files) + Z.of_nat (length new) <= max_files ->
  is_ok (visit directory depth entries (files, pending)) = true.
Proof.
  revert files pending new dirs. induction entries as [|[name|e] entries IH]; intros files pending new dirs; [done| |done].
  cbn [try_fold contents]. rewrite walk_entry_eq. destruct (symlink_metadata _) as [metadata|e]; [|done].
  destruct (st_type metadata); [| |apply IH..].
  - destruct (contents directory entries) as [[new' dirs']|]; [|done]. intros [= <- <-]. by eapply IH.
  - destruct (file_of _ _) as [file|e]; [|done].
    destruct (contents directory entries) as [[new' dirs']|]; [|done].
    intros [= <- <-] Hle. cbn [length] in Hle.
    destruct (Z.eqb_spec (Z.of_nat (length files)) max_files) as [Heq|Hne]; [lia|].
    cbn [fmap result_fmap]. eapply IH; [done|]. rewrite length_app. destruct file; cbn; lia.
Qed.

Lemma visit_contents directory depth entries files pending :
  contents directory entries = None -> is_ok (visit directory depth entries (files, pending)) = false.
Proof.
  intros Hnone. destruct (visit _ _ _ _) as [[files' pending']|e] eqn:Hv; [|done].
  apply visit_Ok in Hv as (? & ? & ? & _). congruence.
Qed.

(** ** The whole walk *)

Lemma belows_cons directory depth pending l :
  belows ((directory, depth) :: pending) = Some l <->
  exists mine theirs, below (S MAX_FILE_DEPTH - depth) directory = Some mine /\
    belows pending = Some theirs /\ l = mine ++ theirs.
Proof.
  unfold belows. cbn [mapM fst snd mbind option_bind].
  destruct (below (S MAX_FILE_DEPTH - depth) directory) as [mine|]; cbn; [|naive_solver].
  destruct (mapM _ pending) as [lists|]; cbn; naive_solver.
Qed.

Lemma belows_app p q l :
  belows (p ++ q) = Some l <-> exists l1 l2, belows p = Some l1 /\ belows q = Some l2 /\ l = l1 ++ l2.
Proof.
  revert l. induction p as [|[d k] p IH]; intros l; cbn [app].
  - change (belows []) with (Some (@nil (option ScannedFile))). naive_solver.
  - rewrite belows_cons. setoid_rewrite IH. setoid_rewrite belows_cons.
    split; [intros (mine & ? & ? & (l1 & l2 & ? & ? & ->) & ->)|
            intros (? & l2 & (mine & l1 & ? & ? & ->) & ? & ->)].
    + exists (mine ++ l1), l2. rewrite app_assoc. naive_solver.
    + exists mine, (l1 ++ l2). rewrite app_assoc. naive_solver.
Qed.

(** The directories are visited in reverse, which permutes the files. *)
Lemma belows_children dirs depth l :
  (depth <= MAX_FILE_DEPTH)%nat ->
  belows (map (fun d => (d, S depth)) (rev dirs)) = Some l <->
  exists deeper, mapM (below (MAX_FILE_DEPTH - depth)) dirs = Some deeper /\ l = concat (rev deeper).
Proof.
  intros Hd. revert l. induction dirs as [|d dirs IH]; intros l.
  - split; [intros [= <-]; by exists []|by intros (? & [= <-] & ->)].
  - cbn [rev]. rewrite map_app, belows_app. cbn [map]. setoid_rewrite belows_cons. setoid_rewrite IH.
    replace (S MAX_FILE_DEPTH - S depth)%nat with (MAX_FILE_DEPTH - depth)%nat by lia.
    cbn [mapM mbind option_bind].
    split.
    + intros (? & l2 & (deeper & Hm & ->) & (mine & theirs & -> & [= <-] & ->) & ->).
      rewrite Hm. exists (mine :: deeper). split; [done|]. cbn [rev]. rewrite concat_app. cbn.
      by rewrite !app_nil_r.
    + intros (deeper & Hm & ->). destruct (below _ d) as [mine|]; [|done]. cbn [option_bind] in Hm.
      destruct (mapM _ dirs) as [ls|]; [|done]. injection Hm as <-. cbn [rev]. rewrite concat_app. cbn.
      exists (concat (rev ls)), mine. rewrite app_nil_r. split_and!; [naive_solver| |done].
      exists mine, []. by rewrite app_nil_r.
Qed.

Abbreviation walk := (walk root path max_files primary_extensions).

(** What a walk that succeeds returns are the files below the pending directories. *)
Lemma walk_Ok fuel files pending out :
  walk fuel files pending = Some (Ok out) ->
  exists l, belows pending = Some l /\ out ≡ₚ files ++ omap id l /\
    (Z.of_nat (length files) <= max_files -> Z.of_nat (length out) <= max_files).
Proof.
  revert files pending. induction fuel as [|fuel IH]; intros files [|[directory depth] pending]; cbn [DataScan.walk];
    try done; try (intros [= <-]; exists []; by rewrite app_nil_r).
  destruct (Nat.ltb_spec MAX_FILE_DEPTH depth) as [|Hd]; [done|].
  destruct (read_dir directory) as [entries|e] eqn:Hread; [|done]. cbn [io map_err mbind result_bind].
  destruct (visit _ _ _ _) as [[files' pending']|e] eqn:Hv; [|done].
  apply visit_Ok in Hv as (new & dirs & Hc & -> & -> & Hmax).
  intros (l & Hl & Hout & Hmax')%IH. apply belows_app in Hl as (l1 & l2 & H1' & H2' & ->).
  apply belows_children in H1' as (deeper & Hm & ->); [|done].
  exists ((new ++ concat deeper) ++ l2). split; [|split; [|tauto]].
  - apply belows_cons. exists (new ++ concat deeper), l2. split; [|done].
    replace (S MAX_FILE_DEPTH - depth)%nat with (S (MAX_FILE_DEPTH - depth)) by lia.
    cbn [below]. rewrite Hread, Hc. cbn [mbind option_bind]. by rewrite Hm.
  - rewrite Hout, !omap_app, <- !app_assoc. f_equiv. f_equiv. f_equiv.
    assert (concat (rev deeper) ≡ₚ concat deeper) as Hp by (by rewrite <- Permutation_rev).
    by rewrite Hp.
Qed.

(** It succeeds when the directories can be read and hold few enough files. *)
Lemma walk_succeeds fuel files pending l r :
  belows pending = Some l -> Z.of_nat (length files) + Z.of_nat (length l) <= max_files ->
  walk fuel files pending = Some r -> is_ok r = true.
Proof.
  revert files pending l. induction fuel as [|fuel IH]; intros files [|[directory depth] pending] l Hl Hmax;
    cbn [DataScan.walk]; try done; try (by intros [= <-]).
  apply belows_cons in Hl as (mine & theirs & Hmine & Htheirs & ->).
  destruct (Nat.ltb_spec MAX_FILE_DEPTH depth) as [Hd|Hd].
  { by replace (S MAX_FILE_DEPTH - depth)%nat with O in Hmine by lia. }
  replace (S MAX_FILE_DEPTH - depth)%nat with (S (MAX_FILE_DEPTH - depth)) in Hmine by lia.
  cbn [below] in Hmine. destruct (read_dir directory) as [entries|e]; [|done]. cbn [io map_err mbind result_bind].
  destruct (contents directory entries) as [[new dirs]|] eqn:Hc; [|done]. cbn [mbind option_bind] in Hmine.
  destruct (mapM _ dirs) as [deeper|] eqn:Hm; [|done]. injection Hmine as <-.
  rewrite !length_app in Hmax.
  pose proof (visit_total directory depth entries files pending new dirs Hc ltac:(lia)) as Hok.
  destruct (visit _ _ _ _) as [[files' pending']|e] eqn:Hv; [|done].
  apply visit_Ok in Hv as (new' & dirs' & Hc' & -> & -> & _). rewrite Hc in Hc'. injection Hc' as <- <-.
  apply (IH _ _ (concat (rev deeper) ++ theirs)).
  - apply belows_app. exists (concat (rev deeper)), theirs. split; [|done]. apply belows_children; naive_solver.
  - assert (concat (rev deeper) ≡ₚ concat deeper) as Hp by (by rewrite <- Permutation_rev).
    apply Permutation_length in Hp. rewrite !length_app, Hp.
    pose proof (length_omap_le id new). lia.
Qed.

(** ** The walk ends *)

Definition ends (pending : list (str * nat)) : Prop :=
  exists enough, forall fuel files, (enough <= fuel)%nat -> is_Some (walk fuel files pending).

Lemma ends_visit directory depth pending :
  (forall dirs, ends (map (fun d => (d, S depth)) dirs ++ pending)) ->
  ends ((directory, depth) :: pending).
Proof.
  intros Hends.
  destruct (read_dir directory) as [entries|e] eqn:Hread;
    [destruct (contents directory entries) as [[new dirs]|] eqn:Hc|].
  - destruct (Hends (rev dirs)) as [enough Henough]. exists (S enough). intros [|fuel] files Hle; [lia|].
    cbn [DataScan.walk]. destruct (_ <? _)%nat; [by eexists|]. rewrite Hread. cbn [io map_err mbind result_bind].
    destruct (visit _ _ _ _) as [[files' pending']|e] eqn:Hv; [|by eexists].
    apply visit_Ok in Hv as (new' & dirs' & Hc' & -> & -> & _). rewrite Hc in Hc'. injection Hc' as <- <-.
    apply Henough. lia.
  - exists 1%nat. intros [|fuel] files Hle; [lia|]. cbn [DataScan.walk]. destruct (_ <? _)%nat; [by eexists|].
    rewrite Hread. cbn [io map_err mbind result_bind].
    pose proof (visit_contents directory depth entries files pending Hc) as Hv.
    destruct (visit _ _ _ _); [done|by eexists].
  - exists 1%nat. intros [|fuel] files Hle; [lia|]. cbn [DataScan.walk]. destruct (_ <? _)%nat; [by eexists|].
    rewrite Hread. by eexists.
Qed.

Lemma ends_level n : forall depth dirs pending,
  (S MAX_FILE_DEPTH - depth <= n)%nat -> ends pending ->
  ends (map (fun d => (d, depth)) dirs ++ pending).
Proof.
  induction n as [|n IH]; intros depth dirs pending Hn Hp.
  - destruct dirs as [|d dirs]; [done|]. exists 1%nat. intros [|fuel] files Hle; [lia|].
    cbn [map app DataScan.walk]. destruct (Nat.ltb_spec MAX_FILE_DEPTH depth); [by eexists|lia].
  - induction dirs as [|d dirs IHdirs]; [done|]. apply ends_visit. intros children. apply IH; [lia|done].
Qed.

Lemma walk_ends pending : ends pending.
Proof.
  induction pending as [|[d depth] pending IH].
  - exists O. intros [|fuel] files _; by eexists.
  - by apply (ends_level (S MAX_FILE_DEPTH - depth) depth [d] pending).
Qed.
End Below.

(** ** A release *)

Lemma total_size_spec files total :
  Forall (fun f => 0 <= sn_size f) files -> 0 <= total <= u64_max ->
  try_fold (fun total file => ok_or (checked_add_u64 total (sn_size file)) SizeOverflow) files total
  = (if total + sum_Z (map sn_size files) <=? u64_max then Ok (total + sum_Z (map sn_size files))
     else Err SizeOverflow).
Proof.
  intros Hf. revert total. induction Hf as [|f files Hf0 Hf IH]; intros total Ht; cbn [map].
  - rewrite sum_Z_nil, Z.add_0_r. cbn. by replace (total <=? u64_max) with true by (symmetry; lia).
  - rewrite sum_Z_cons. cbn [try_fold]. unfold checked_add_u64.
    assert (0 <= sum_Z (map sn_size files)) as Hs by (apply sum_Z_nonneg; by apply Forall_fmap).
    destruct (Z.leb_spec (total + sn_size f) u64_max) as [Hle|Hgt]; cbn [ok_or].
    + rewrite IH by lia. by rewrite Z.add_assoc.
    + by rewrite (proj2 (Z.leb_gt (total + _) _)) by lia.
Qed.

Lemma gather_spec relative_path name metadata files :
  Forall (fun f => 0 <= sn_size f) files ->
  match gather relative_path name metadata files with
  | Ok None => existsb sn_video files = false
  | Ok (Some release) =>
      existsb sn_video files = true /\
      sr_files release ≡ₚ files /\ StronglySorted file_leb (sr_files release) /\
      sr_relative_path release = relative_path /\ sr_kind release = lit "directory" /\
      sr_name release = name /\ sr_total_size release = sum_Z (map sn_size files) /\
      sr_total_size release <= u64_max /\ sr_device release = st_dev metadata /\
      sr_inode release = st_ino metadata /\ sr_modified_at release = st_mtime metadata
  | Err e => e = SizeOverflow /\ existsb sn_video files = true /\ u64_max < sum_Z (map sn_size files)
  end.
Proof.
  intros Hf. unfold gather.
  pose proof (sort_by_Permutation file_leb files) as Hp.
  rewrite (existsb_Permutation sn_video _ _ Hp).
  destruct (existsb sn_video files); cbn [negb]; [|done].
  rewrite (total_size_spec _ 0) by (rewrite ?Hp; done || lia).
  replace (sum_Z (map sn_size (sort_by file_leb files))) with (sum_Z (map sn_size files))
    by (apply sum_Z_Permutation; by rewrite Hp).
  rewrite Z.add_0_l. destruct (Z.leb_spec (sum_Z (map sn_size files)) u64_max); cbn.
  - split_and!; try done. apply sort_by_sorted; unfold file_leb; eauto with sporos.
  - done.
Qed.

Lemma contents_sizes root path exts directory entries files dirs :
  (forall p m, symlink_metadata p = Ok m -> 0 <= st_len m) ->
  contents root path exts directory entries = Some (files, dirs) ->
  Forall (fun f => 0 <= sn_size f) (omap id files).
Proof.
  intros Hlen. revert files dirs. induction entries as [|[name|e] entries IH]; intros files dirs; [by intros [= <- <-]| |done].
  cbn [contents]. destruct (symlink_metadata _) as [m|e] eqn:Hm; [|done].
  destruct (st_type m); [| |apply IH..].
  - destruct (contents _ _ _ _ entries) as [[fs ds]|]; [|done]. intros [= <- <-]. by eapply IH.
  - destruct (file_of _ _ _ _ m) as [file|e] eqn:Hf; [|done].
    destruct (contents _ _ _ _ entries) as [[fs ds]|]; [|done]. intros [= <- <-].
    assert (Forall (fun f => 0 <= sn_size f) (omap id fs)) as IH' by (by eapply IH).
    destruct file as [file|]; [|done]. constructor; [|done]. revert Hf. unfold file_of.
    destruct (strip path (push directory name)) as [display|]; [|done]. cbn [ok_or mbind result_bind].
    destruct (from_utf8 display); [|done]. destruct (from_utf8 (push directory name)); [|done].
    destruct (strip root (push directory name)); [|done]. intros [= <-]. by eapply Hlen.
Qed.

Lemma below_sizes root path exts n directory listing :
  (forall p m, symlink_metadata p = Ok m -> 0 <= st_len m) ->
  below root path exts n directory = Some listing -> Forall (fun f => 0 <= sn_size f) (omap id listing).
Proof.
  intros Hlen. revert directory listing. induction n as [|n IH]; intros directory listing; [done|].
  cbn [below]. destruct (read_dir directory) as [entries|e]; [|done].
  destruct (contents _ _ _ _ entries) as [[files dirs]|] eqn:Hc; [|done]. cbn [mbind option_bind].
  destruct (mapM _ dirs) as [deeper|] eqn:Hm; [|done]. intros [= <-].
  rewrite omap_app, Forall_app. split; [by eapply contents_sizes|].
  apply mapM_Some in Hm. clear Hc. induction Hm as [|d l ds ls Hd Hm IHm]; [done|].
  cbn. rewrite omap_app, Forall_app. split; [by eapply IH|done].
Qed.

(** C16: The files of a release are the files below its directory.  The walk over a
    directory ends.  When it succeeds, the files are those of the reference [below]: every
    regular file with a textual path, at any depth up to the limit, without following
    symbolic links, in the order of their paths and no more than the limit; there is a
    release exactly when one of them is a video, and its size is their sum.  It fails only
    when a directory cannot be read or lies too deep, or there are too many files, or
    their sizes overflow. *)
Theorem release_holds_files_below root relative_path path metadata max_files exts name :
  (forall p m, symlink_metadata p = Ok m -> 0 <= st_len m) -> 0 <= max_files ->
  name_of path ≫= from_utf8 = Some name ->
  exists enough, forall fuel, (enough <= fuel)%nat -> exists r,
  directory_release fuel root relative_path path metadata max_files exts = Some r /\
  match r with
  | Ok found =>
      exists listing files, below root path exts (S MAX_FILE_DEPTH) path = Some listing /\
        files ≡ₚ omap id listing /\ Z.of_nat (length files) <= max_files /\
        match found with
        | None => existsb sn_video files = false
        | Some release =>
            sr_files release = files /\ StronglySorted file_leb files /\ existsb sn_video files = true /\
            sr_relative_path release = relative_path /\ sr_name release = name /\
            sr_total_size release = sum_Z (map sn_size files) /\ sr_total_size release <= u64_max
        end
  | Err _ =>
      below root path exts (S MAX_FILE_DEPTH) path = None \/
      exists listing, below root path exts (S MAX_FILE_DEPTH) path = Some listing /\
        (max_files < Z.of_nat (length listing) \/ u64_max < sum_Z (map sn_size (omap id listing)))
  end.
Proof.
  intros Hlen Hmax Hname. destruct (walk_ends root path max_files exts [(path, O)]) as [enough Henough].
  exists enough. intros fuel Hfuel. unfold directory_release. rewrite Hname.
  destruct (Henough fuel [] Hfuel) as [r Hr]. rewrite Hr. cbn [mbind option_bind].
  eexists. split; [done|].
  assert (forall l, belows root path exts [(path, O)] = Some l <-> below root path exts (S MAX_FILE_DEPTH) path = Some l) as Hone.
  { intros l. rewrite belows_cons. cbn [Nat.sub]. change (belows root path exts []) with (Some (@nil (option ScannedFile))).
    split; [intros (? & ? & ? & [= <-] & ->); by rewrite app_nil_r|].
    intros Hl. exists l, []. by rewrite app_nil_r. }
  destruct r as [files|e].
  - destruct (walk_Ok _ _ _ _ _ _ _ _ Hr) as (listing & Hl & Hp & Hn). apply Hone in Hl. cbn [app] in Hp.
    cbn [mbind result_bind].
    assert (Forall (fun f => 0 <= sn_size f) files) as Hs by (rewrite Hp; by eapply below_sizes).
    pose proof (gather_spec relative_path name metadata files Hs) as Hg.
    destruct (gather _ _ _ _) as [[release|]|e].
    + destruct Hg as (Hv & Hperm & Hsort & -> & _ & -> & -> & Hle & _).
      exists listing, (sr_files release). split; [done|].
      split; [by rewrite Hperm|]. split; [rewrite (Permutation_length Hperm); by apply Hn|]. split_and!; try done.
      * by rewrite (existsb_Permutation _ _ _ Hperm).
      * apply sum_Z_Permutation. by rewrite Hperm.
    + exists listing, files. split_and!; try done. by apply Hn.
    + right. exists listing. split; [done|]. right. destruct Hg as (_ & _ & Hg).
      by rewrite <- (sum_Z_Permutation _ _ (Permutation_map sn_size Hp)).
  - cbn [mbind result_bind]. destruct (below root path exts (S MAX_FILE_DEPTH) path) as [listing|] eqn:Hb; [|by left].
    right. exists listing. split; [done|]. left. apply Z.lt_nge. intros Hle.
    pose proof (proj2 (Hone listing) eq_refl) as Hb'.
    by pose proof (walk_succeeds _ _ _ _ fuel [] [(path, O)] listing _ Hb' Hle Hr).
Qed.
End Scan.

(** ** Example *)

Module Sample.
Definition stat (kind : FileType) (len ino : Z) : Stat := mkStat kind len 1 ino 100.
Definition entries (path : str) : option (list str) :=
  if str_eqb path (lit "/m/rel") then Some [lit "sub"; lit "a.mkv"; lit "link.mkv"] else
  if str_eqb path (lit "/m/rel/sub") then Some [lit "b.mkv"] else None.
Definition stats (path : str) : option Stat :=
  if str_eqb path (lit "/m/rel") then Some (stat Directory 0 2) else
  if str_eqb path (lit "/m/rel/sub") then Some (stat Directory 0 3) else
  if str_eqb path (lit "/m/rel/a.mkv") then Some (stat Regular 5 4) else
  if str_eqb path (lit "/m/rel/sub/b.mkv") then Some (stat Regular 7 5) else
  if str_eqb path (lit "/m/rel/link.mkv") then Some (stat Symlink 9 6) else None.
#[export] Instance files : DataFiles := {|
  IoError := (); is_not_found _ := true;
  symlink_metadata path := ok_or (stats path) ();
  read_dir path := map Ok <$> ok_or (entries path) () |}.

Lemma sizes path m : symlink_metadata path = Ok m -> 0 <= st_len m.
Proof.
  cbn. unfold stats. repeat (destruct (str_eqb _ _); [by intros [= <-]|]). done.
Qed.

(** Both files are found, the symbolic link is not. *)
Lemma release_holds_files_below_witness :
  exists enough, forall fuel, (enough <= fuel)%nat -> exists release,
    directory_release fuel (lit "/m") (lit "rel") (lit "/m/rel") (stat Directory 0 2) 10 [lit "mkv"]
    = Some (Ok (Some release)) /\
    map sn_display_path (sr_files release) ≡ₚ [lit "a.mkv"; lit "sub/b.mkv"] /\
    sr_total_size release = 12.
Proof.
  destruct (release_holds_files_below (lit "/m") (lit "rel") (lit "/m/rel") (stat Directory 0 2) 10
              [lit "mkv"] (lit "rel") sizes ltac:(lia) eq_refl) as [enough Henough].
  exists enough. intros fuel Hfuel. destruct (Henough fuel Hfuel) as (r & Hr & Hspec).
  assert (exists listing, below (lit "/m") (lit "/m/rel") [lit "mkv"] (S MAX_FILE_DEPTH) (lit "/m/rel") = Some listing
    /\ map sn_display_path (omap id listing) = [lit "a.mkv"; lit "sub/b.mkv"]
    /\ map sn_size (omap id listing) = [5; 7] /\ map sn_video (omap id listing) = [true; true]
    /\ length listing = 2%nat) as (listing & Hl & Hd & Hs & Hv & Hn).
  { eexists. vm_compute. repeat split. }
  destruct r as [found|e].
  - destruct Hspec as (listing' & files & Hl' & Hp & _ & Hfound). rewrite Hl in Hl'. injection Hl' as <-.
    destruct found as [release|].
    + destruct Hfound as (<- & _ & _ & _ & _ & Htotal & _). exists release. split; [done|].
      rewrite Hp, Hd. split; [done|]. rewrite Htotal, (sum_Z_Permutation _ _ (Permutation_map sn_size Hp)), Hs.
      reflexivity.
    + exfalso. rewrite (existsb_Permutation _ _ _ Hp) in Hfound.
      destruct (omap id listing) as [|f fs]; [done|]. injection Hv as Hv _. cbn in Hfound. by rewrite Hv in Hfound.
  - exfalso. destruct Hspec as [Hnone|(listing' & Hl' & Hlimit)]; [by rewrite Hl in Hnone|].
    rewrite Hl in Hl'. injection Hl' as <-. rewrite Hn, Hs in Hlimit. unfold sum_Z in Hlimit.
    destruct Hlimit as [Hlimit|Hlimit]; vm_compute in Hlimit; done.
Defined.
End Sample.
