(* ===== verification/Scan.v ===== *)
(** Scans of data directories (data_scan.rs): the operation that asks for one, the activity
    that reads a page of one directory and records what it finds, and the end of the scan.

    The file system part is DataScan.v.  The loop over the files of a release takes fuel
    there; [OutOfFuel] is the model's, and DataScanProofs.v shows that the loop ends.  The
    episode key of a file, which nothing modelled reads, log lines, limiters and the failure
    to join the thread that reads are left out; scheduling is done by Duroxide. *)

From S2P Require Import Prelude Text Model Store Duroxide Candidate Library Catalogue Torznab Prowlarr Search DataScan.
From S2P Require Release Ingress Torrent Accept Completion Facts QbitProjection.
From stdpp Require Import strings.
Local Open Scope Z_scope.

Definition ORCHESTRATION_NAME : str := lit "ScanDataRoot".
Definition ORCHESTRATION_VERSION : str := lit "1.0.0".

Record ScanInput := mkScanInput {
  sci_operation_id : str; sci_task_id : str; sci_root_name : str; sci_generation : Z;
  sci_policy_snapshot_id : str; sci_indexer_ids : list Z }.

Record ScanStep := mkScanStep { sc_done : bool; sc_reason : option str }.

Record AcceptedScan := mkAcceptedScan { as_operation_id : str; as_task_id : str; as_duplicate : bool }.

(** serde's encodings *)
Class ScanCodec := {
  encode_scan_input : ScanInput -> str;
  (** [json!] of [root], [indexerIds] and [force] *)
  encode_scan_request : str -> list Z -> bool -> str }.

(** Without [Join], the panic of a thread *)
Inductive DataScanError `{Http} `{Xml} `{DataFiles} :=
| DsDatabase (e : SqlError)
| DsJson
| DsIngress (e : Ingress.DurableIngressError)
| DsSearch (e : SearchError)
| DsFilesystem (e : ScanFsError)
| DsRange
| DsStoredRange
| OutOfFuel.

Section Scan.
Context `{Unicode} `{Json} `{Digest} `{CandidateCodec} `{!Accept.IntakeCodec} `{SearchCodec} `{ScanCodec}.
Context `{Http} `{Xml} `{DataFiles}.

Abbreviation Act A := (M Catalogue DataScanError A).
Abbreviation Store A := (M Library DataScanError A).

Definition to_i64 (value : Z) : result DataScanError Z := ok_or (i64_try_from value) DsRange.

(** [DataScanError::activity_failure]; [message] is the error's report. *)
Definition scan_failure (e : DataScanError) (message : str) : str :=
  match e with
  | DsDatabase _ | DsIngress _ | DsSearch _ | DsFilesystem _ =>
      transient (lit "data_scan_dependency_unavailable") message
  | _ => permanent (lit "invalid_data_scan_state") message
  end.

(** ** Identity *)

Definition data_source_id (root_name relative : str) : str :=
  first_16 (sha256 (lit "data-source-v1" ++ root_name ++ [0] ++ relative)).

(** [i64::from_be_bytes(..) & i64::MAX] of the first eight bytes *)
Definition generation (operation_id : str) : Z :=
  Z.land (foldl (fun value byte => value * 256 + byte) 0 (take 8 operation_id)) i64_max.

Definition scan_operation_id (request policy_id : str) (force_nonce : option str) : str :=
  first_16 (sha256 (lit "data-scan-operation-v1" ++ request ++ policy_id ++ default [] force_nonce)).

(** ** Asking for a scan *)

Definition with_scan (id : str) (row : ScanStateRow) : Act () := fun c =>
  match sporos_data_scan_state c !! id with
  | Some _ => (c, Ok ())
  | None =>
      if bool_decide (is_Some (sporos_operation (tasks (library c)) !! id)) && (0 <=? ss_generation row)
      then (with_scans (<[id := row]> (sporos_data_scan_state c)) c, Ok ())
      else (c, Err (DsDatabase Constraint))
  end.

(** [INSERT INTO sporos_data_scan_directory ... ON CONFLICT DO NOTHING] *)
Definition queue_directory (operation_id relative : str) (depth : Z) : Act () := fun c =>
  match sporos_data_scan_directory c !! (operation_id, relative) with
  | Some _ => (c, Ok ())
  | None =>
      if bool_decide (is_Some (sporos_operation (tasks (library c)) !! operation_id)) && (0 <=? depth)
      then (with_directories (<[(operation_id, relative) := mkDirectoryRow depth None (lit "queued")]>
                                (sporos_data_scan_directory c)) c, Ok ())
      else (c, Err (DsDatabase Constraint))
  end.

Definition scan_input (root_name policy_id operation_id : str) (indexer_ids : list Z) : ScanInput :=
  mkScanInput operation_id (first_16 (sha256 (lit "data-scan-task-v1" ++ operation_id))) root_name
    (generation operation_id) policy_id indexer_ids.

Definition scan_task (policy : SearchPolicy) (input : ScanInput) (now : Z) : Ingress.NewTask :=
  let policy_json := encode_search_policy policy in
  {| Ingress.nt_id := sci_task_id input;
     Ingress.nt_key := sha256 (lit "data-scan-task-v1" ++ sci_operation_id input);
     Ingress.nt_kind := lit "data_scan";
     Ingress.nt_policy :=
       {| Ingress.ps_id := sci_policy_snapshot_id input; Ingress.config_hash := sha256 policy_json;
          Ingress.matcher_version := MATCHER_VERSION; Ingress.payload_json := policy_json;
          Ingress.ps_created_at := now |};
     Ingress.orchestration_name := ORCHESTRATION_NAME;
     Ingress.orchestration_version := ORCHESTRATION_VERSION;
     Ingress.instance_id := lit "data-scan-v1:" ++ hex (sci_operation_id input) ++ lit ":" ++ sci_root_name input;
     Ingress.input_json := encode_scan_input input;
     Ingress.nt_created_at := now |}.

Definition accept (root_name : str) (policy : SearchPolicy) (indexer_ids : list Z)
    (force_nonce : option str) (now : Z) : Act AcceptedScan :=
  let request := encode_scan_request root_name indexer_ids (bool_decide (is_Some force_nonce)) in
  let policy_id := search_policy_id policy in
  let operation_id := scan_operation_id request policy_id force_nonce in
  let input := scan_input root_name policy_id operation_id indexer_ids in
  let task := scan_task policy input now in
  atomically (
    inserted ← (on_tasks (exec DsIngress (Ingress.accept_task_in task)) : Act bool);
    _ ← (on_tasks (exec DsDatabase (Completion.insert_operation_ignore operation_id
           (mkOperationRow (lit "data_scan") (lit "queued") (Ingress.instance_id task) request 0 None now now)))
         : Act Z);
    _ ← ((fun c => (update_tasks (update_row (sci_task_id input) (with_operation_id (Some operation_id))) c,
                    Ok ())) : Act ());
    _ ← with_scan operation_id
          (mkScanStateRow root_name (sci_generation input) 0 (lit "queued") None now);
    _ ← queue_directory operation_id [] 0;
    mret (mkAcceptedScan operation_id (sci_task_id input) (negb inserted))).

(** ** Recording a release *)

Definition with_sources (t : gmap str DataSourceRow) (db : Library) : Library :=
  let n := inventory db in
  with_inventory (mkInventory (n_torrent n) (n_state n) t (n_file n) (n_title n) (n_external n)) db.

Definition by_path (root_name relative : str) (t : gmap str DataSourceRow) : option (str * DataSourceRow) :=
  head (filter (fun p : str * DataSourceRow =>
                  dt_root_name p.2 = root_name /\ dt_relative_path p.2 = relative) (map_to_list t)).

(** [INSERT INTO sporos_data_source ... ON CONFLICT(root_name, relative_path) DO UPDATE]; an
    update keeps the title. *)
Definition upsert_source (id : str) (row : DataSourceRow) : Store () := fun db =>
  let t := sporos_data_source db in
  if (dt_total_size row <? 0) || (dt_generation row <? 0) then (db, Err (DsDatabase Constraint)) else
  match by_path (dt_root_name row) (dt_relative_path row) t with
  | Some (key, old) =>
      (with_sources (<[key := mkDataSourceRow (dt_root_name row) (dt_relative_path row) (dt_kind row)
                                (dt_name row) (dt_total_size row) (dt_release_json row)
                                (dt_normalized_title old) (dt_available row) (dt_generation row)
                                (dt_updated_at row)]> t) db, Ok ())
  | None =>
      if bool_decide (is_Some (t !! id)) then (db, Err (DsDatabase Constraint))
      else (with_sources (<[id := row]> t) db, Ok ())
  end.

(** [UPDATE sporos_data_source SET normalized_title = ?] *)
Definition with_title (title : str) (row : DataSourceRow) : DataSourceRow :=
  mkDataSourceRow (dt_root_name row) (dt_relative_path row) (dt_kind row) (dt_name row)
    (dt_total_size row) (dt_release_json row) (Some title) (dt_available row) (dt_generation row)
    (dt_updated_at row).

(** [INSERT INTO sporos_source_file ... ON CONFLICT(source_id, manifest_version, ordinal) DO
    UPDATE] *)
Definition upsert_file (row : SourceFileRow) : Store () := fun db =>
  if (sf_manifest_version row <? 0) || (sf_ordinal row <? 0) || (sf_size row <? 0)
  then (db, Err (DsDatabase Constraint)) else
  (QbitProjection.with_files (fun t =>
     match QbitProjection.file_row (sf_source_id row) (sf_manifest_version row) (sf_ordinal row) t with
     | Some (key, _) => <[key := row]> t
     | None => <[next_rowid t := row]> t
     end) db, Ok ()).

Fixpoint persist_files (source_id : str) (generation : Z) (ordinal : nat) (files : list ScannedFile)
  : Store () :=
  match files with
  | [] => mret ()
  | file :: files =>
      size ← (liftr (to_i64 (sn_size file)) : Store Z);
      device ← (liftr (to_i64 (sn_device file)) : Store Z);
      inode ← (liftr (to_i64 (sn_inode file)) : Store Z);
      ordinal64 ← (liftr (to_i64 (Z.of_nat ordinal)) : Store Z);
      _ ← upsert_file (mkSourceFileRow source_id generation ordinal64 (sn_display_path file)
                         (Some (sn_local_path file)) size (Some device) (Some inode) true);
      persist_files source_id generation (S ordinal) files
  end.

Definition persist_release (root_name : str) (generation : Z) (release : ScannedRelease) (now : Z)
  : Store str :=
  let source_id := data_source_id root_name (sr_relative_path release) in
  let descriptor := Release.parse_release (sr_name release) in
  total_size ← (liftr (to_i64 (sr_total_size release)) : Store Z);
  _ ← (liftr (to_i64 (sr_device release)) : Store Z);
  _ ← (liftr (to_i64 (sr_inode release)) : Store Z);
  _ ← upsert_source source_id
        (mkDataSourceRow root_name (sr_relative_path release) (sr_kind release) (sr_name release) total_size
           (Some (encode_release descriptor)) None true generation now);
  _ ← ((fun db =>
          let db := with_sources (alter (with_title (rd_primary_title descriptor)) source_id
                                    (sporos_data_source db)) db in
          let db := with_inventory (Facts.replace source_id (lit "data") descriptor (inventory db)) db in
          (QbitProjection.update_files (fun row => str_eqb (sf_source_id row) source_id)
             (QbitProjection.set_available false) db, Ok ())) : Store ());
  _ ← persist_files source_id generation 0 (sr_files release);
  mret source_id.

(** ** A page *)

(** [UPDATE sporos_data_source SET available = 0, updated_at = ?] *)
Definition unavailable (now : Z) (row : DataSourceRow) : DataSourceRow :=
  mkDataSourceRow (dt_root_name row) (dt_relative_path row) (dt_kind row) (dt_name row)
    (dt_total_size row) (dt_release_json row) (dt_normalized_title row) false (dt_generation row) now.
Definition withdraw (cond : DataSourceRow -> bool) (now : Z) : Act () := fun c =>
  (with_library (with_sources ((fun row => if cond row then unavailable now row else row)
                                 <$> sporos_data_source (library c)) (library c)) c, Ok ()).
Definition of_root (root_name : str) (row : DataSourceRow) : bool := str_eqb (dt_root_name row) root_name.
(** [WHERE root_name = ? AND last_seen_generation != ?] *)
Definition unseen (root_name : str) (generation : Z) (row : DataSourceRow) : bool :=
  of_root root_name row && negb (dt_generation row =? generation).

Definition with_scan_state (observed : Z) (state : str) (reason : option str) (now : Z) (row : ScanStateRow)
  : ScanStateRow :=
  mkScanStateRow (ss_root_name row) (ss_generation row) observed state reason now.

Definition finish (input : ScanInput) (now : Z) (reason : str) (failed : bool) : Act ScanStep := fun c =>
  let state := if failed then lit "failed" else lit "completed" in
  let c := with_scans (update_row (sci_operation_id input)
             (fun row => with_scan_state (ss_observed_releases row) state (Some reason) now row)
             (sporos_data_scan_state c)) c in
  let c := update_operations (update_row (sci_operation_id input)
             (fun row => with_operation_state state (op_produced_tasks row) (op_last_reported_cursor row) now row)) c in
  let c := update_tasks (update_row (sci_task_id input)
             (fun row => with_progress state (Some reason) (observed_retry_count row) now (Some now) row)) c in
  (c, Ok (mkScanStep true (Some reason))).

(** The directories that are not completed, in order *)
Definition open_directories (operation_id : str) (c : Catalogue) : list (str * DirectoryRow) :=
  sort_by (fun a b => str_leb a.1 b.1)
    (omap (fun p : str * str * DirectoryRow =>
             if bool_decide (p.1.1 = operation_id) && str_mem (dd_state p.2) [lit "queued"; lit "running"]
             then Some (p.1.2, p.2) else None)
       (map_to_list (sporos_data_scan_directory c))).

Definition read {A} (f : Catalogue -> result DataScanError A) : Act A := reads f.

Definition load_policy (id : str) : Act SearchPolicy :=
  json ← read (fun c => ok_or (pr_payload_json <$> sporos_policy_snapshot (tasks (library c)) !! id)
                          (DsDatabase RowNotFound));
  liftr (ok_or (decode_search_policy json) DsJson).

(** Inside the transaction of a page, [None] is more releases than the root may have. *)
Abbreviation Page A := (M Catalogue (option DataScanError) A).
Definition or_fail {A} (m : Act A) : Page A := fun c => let '(c, r) := m c in (c, map_err Some r).
Definition search_act {A} (m : M Catalogue SearchError A) : Page A := fun c =>
  let '(c, r) := m c in (c, map_err (fun e => Some (DsSearch e)) r).

Fixpoint persist_releases (input : ScanInput) (settings : DataRoot) (policy : SearchPolicy) (trigger : str)
    (indexers : list Z) (now : Z) (releases : list ScannedRelease) (observed produced : Z) : Page (Z * Z) :=
  match releases with
  | [] => mret (observed, produced)
  | release :: releases =>
      let observed := saturating_add_i64 observed 1 in
      if default i64_max (i64_try_from (max_releases settings)) <? observed then throw None else
      source_id ← or_fail (on_library (persist_release (sci_root_name input) (sci_generation input) release now));
      produced ← search_act (accept_all source_id indexers policy trigger (Some (sci_operation_id input)) now produced);
      persist_releases input settings policy trigger indexers now releases observed produced
  end.

Fixpoint queue_children (operation_id : str) (depth : Z) (children : list str) : Act () :=
  match children with
  | [] => mret ()
  | child :: children =>
      _ ← queue_directory operation_id child (saturating_add_i64 depth 1);
      queue_children operation_id depth children
  end.

(** [cursor_name] and [state] of the directory after a page *)
Definition after_page (page : DirectoryPage) (row : DirectoryRow) : DirectoryRow :=
  if pg_has_more page then mkDirectoryRow (dd_depth row) (pg_last_name page) (lit "running")
  else mkDirectoryRow (dd_depth row) None (lit "completed").

Definition record_progress (input : ScanInput) (relative : str) (page : DirectoryPage) (observed produced now : Z)
  : Page () := fun c =>
  let c := with_directories (update_row (sci_operation_id input, relative) (after_page page)
             (sporos_data_scan_directory c)) c in
  let c := with_scans (update_row (sci_operation_id input)
             (fun row => with_scan_state observed (lit "running") (ss_reason_code row) now row)
             (sporos_data_scan_state c)) c in
  let c := update_operations (update_row (sci_operation_id input)
             (fun row => with_operation_state (lit "running") (op_produced_tasks row + produced)
                           (op_last_reported_cursor row) now row)) c in
  let c := update_tasks (update_row (sci_task_id input)
             (fun row => with_progress (lit "running") (t_reason_code row) (observed_retry_count row) now
                           (terminal_at row) row)) c in
  (c, Ok ()).

(** The transaction of a page *)
Definition record_page (input : ScanInput) (settings : DataRoot) (policy : SearchPolicy) (indexers : list Z)
    (relative : str) (depth : Z) (page : DirectoryPage) (now : Z) : Page () :=
  let trigger := lit "data_scan:" ++ hex (sci_operation_id input) in
  observed ← or_fail (read (fun c => ok_or (ss_observed_releases <$> sporos_data_scan_state c !! sci_operation_id input)
                                       (DsDatabase RowNotFound)));
  '(observed, produced) ← persist_releases input settings policy trigger indexers now (pg_releases page) observed 0;
  _ ← or_fail (queue_children (sci_operation_id input) depth (pg_children page));
  record_progress input relative page observed produced now.

(** Its outcome: [false] if there were too many releases *)
Definition commit_page (m : Page ()) : Act bool := fun c =>
  match atomically m c with
  | (c, Ok ()) => (c, Ok true)
  | (c, Err None) => (c, Ok false)
  | (c, Err (Some e)) => (c, Err e)
  end.

(** No directory is left: what this scan has not seen is gone. *)
Definition complete (input : ScanInput) (now : Z) : Act ScanStep :=
  _ ← withdraw (unseen (sci_root_name input) (sci_generation input)) now;
  finish input now (lit "completed") false.

Definition scan_next (fuel : nat) (settings : DataRoot) (input : ScanInput) (relative : str)
    (row : DirectoryRow) (now : Z) : Act ScanStep :=
  depth ← (liftr (ok_or (u64_try_from (dd_depth row)) DsStoredRange) : Act Z);
  policy ← load_policy (sci_policy_snapshot_id input);
  page ← (liftr (ok_or (scan_directory fuel (dr_path settings) relative depth (dd_cursor_name row) settings
                          (mp_primary_video_extensions (Accept.mt_policy (sp_matching policy)))) OutOfFuel)
          : Act (result ScanFsError DirectoryPage));
  match page with
  | Err e => finish input now (reason_code e) true
  | Ok page =>
      indexers ← read (fun c => Ok (eligible_indexers c (sci_indexer_ids input)));
      committed ← commit_page (record_page input settings policy indexers relative depth page now);
      if negb committed then finish input now (lit "release_limit") true else
      remaining ← read (fun c => Ok (open_directories (sci_operation_id input) c));
      match remaining with
      | [] => complete input now
      | _ => mret (mkScanStep false None)
      end
  end.

Definition scan_page (fuel : nat) (roots : gmap str DataRoot) (input : ScanInput) (now : Z) : Act ScanStep :=
  match roots !! sci_root_name input with
  | None => finish input now (lit "root_not_configured") true
  | Some settings =>
      match safe_root (dr_path settings) with
      | Err e =>
          if match e with ScIo error => is_not_found error | _ => false end then
            _ ← withdraw (of_root (sci_root_name input)) now;
            finish input now (lit "root_unavailable") false
          else finish input now (lit "unsafe_root") true
      | Ok _ =>
          directories ← read (fun c => Ok (open_directories (sci_operation_id input) c));
          match directories with
          | [] => complete input now
          | (relative, row) :: _ => scan_next fuel settings input relative row now
          end
      end
  end.
End Scan.
