(* ===== verification/ScanProofs.v ===== *)
(** Scans of data directories (Scan.v): what recording a release does to the tables of
    sources and files, and that decisions read it. *)

From S2P Require Import Prelude Text Model Store Duroxide Candidate Library Catalogue Torznab Prowlarr Search DataScan DataScanProofs Scan.
From S2P Require Release Ingress Torrent Accept Completion Facts Decision QbitProjection ManifestProofs.
From stdpp Require Import strings.
Local Open Scope Z_scope.

Section Scan.
Context `{Unicode} `{Json} `{Digest} `{CandidateCodec} `{!Accept.IntakeCodec} `{SearchCodec} `{ScanCodec}.
Context `{Http} `{Xml} `{DataFiles}.

(** ** The table of data sources *)

Definition key_of (row : DataSourceRow) : str := data_source_id (dt_root_name row) (dt_relative_path row).

(** Its rows are named by what they are; [UNIQUE (root_name, relative_path)] follows. *)
Definition sources_ok (t : gmap str DataSourceRow) : Prop :=
  forall key row, t !! key = Some row -> key = key_of row.

Lemma by_path_Some root_name relative t key row :
  by_path root_name relative t = Some (key, row) ->
  t !! key = Some row /\ dt_root_name row = root_name /\ dt_relative_path row = relative.
Proof.
  unfold by_path. intros Hh. assert ((key, row) ∈ filter (fun p : str * DataSourceRow =>
    dt_root_name p.2 = root_name /\ dt_relative_path p.2 = relative) (map_to_list t)) as Hin.
  { destruct (filter _ _) as [|p l]; [done|]. injection Hh as ->. by left. }
  by apply list_elem_of_filter in Hin as [Hs Hin%elem_of_map_to_list].
Qed.

(** The row of a source, with its title from before if it had one *)
Definition upserted (t : gmap str DataSourceRow) (row : DataSourceRow) : DataSourceRow :=
  mkDataSourceRow (dt_root_name row) (dt_relative_path row) (dt_kind row) (dt_name row)
    (dt_total_size row) (dt_release_json row)
    (match by_path (dt_root_name row) (dt_relative_path row) t with
     | Some (_, old) => dt_normalized_title old
     | None => dt_normalized_title row
     end) (dt_available row) (dt_generation row) (dt_updated_at row).

Lemma upsert_source_Ok row db db' :
  sources_ok (sporos_data_source db) -> upsert_source (key_of row) row db = (db', Ok tt) ->
  db' = with_sources (<[key_of row := upserted (sporos_data_source db) row]> (sporos_data_source db)) db /\
  forall old, sporos_data_source db !! key_of row = Some old ->
    dt_root_name old = dt_root_name row /\ dt_relative_path old = dt_relative_path row.
Proof.
  intros Hok. unfold upsert_source, upserted. destruct (_ || _); [done|].
  destruct (by_path _ _ _) as [[key old]|] eqn:Hp.
  - intros [= <-]. apply by_path_Some in Hp as (Hk & Hr & Hrel).
    replace (key_of row) with key by (rewrite (Hok _ _ Hk); unfold key_of; congruence).
    split; [done|]. intros o Ho. by replace o with old by congruence.
  - case_bool_decide as Hn; [done|]. intros [= <-]. split; [by destruct row|].
    intros old Ho. by destruct Hn.
Qed.

Lemma sources_ok_insert t row row' :
  key_of row' = key_of row -> sources_ok t -> sources_ok (<[key_of row := row']> t).
Proof. intros Heq Hok key r [[<- <-]|[_ Hr]]%lookup_insert_Some; [done|by apply Hok]. Qed.

(** The scan with this generation has recorded a release at this path. *)
Definition seen (root_name : str) (generation : Z) (t : gmap str DataSourceRow) (relative : str) : Prop :=
  exists row, t !! data_source_id root_name relative = Some row /\ dt_root_name row = root_name /\
    dt_relative_path row = relative /\ dt_generation row = generation /\ dt_available row = true.

(** ** The files of a release *)

(** The row of the file with this ordinal *)
Definition file_row_of (source_id : str) (generation : Z) (ordinal : nat) (file : ScannedFile) : SourceFileRow :=
  mkSourceFileRow source_id generation (Z.of_nat ordinal) (sn_display_path file) (Some (sn_local_path file))
    (sn_size file) (Some (sn_device file)) (Some (sn_inode file)) true.

(** The files so far, and no others of the source, are available; other sources are as in
    [t0]. *)
Record recorded (source_id : str) (generation : Z) (files : list ScannedFile) (t0 t : gmap Z SourceFileRow)
  : Prop := {
  rc_ok : ManifestProofs.files_ok t;
  rc_files : forall i f, files !! i = Some f ->
    exists key, t !! key = Some (file_row_of source_id generation i f);
  rc_only : forall key row, t !! key = Some row -> sf_source_id row = source_id -> sf_available row = true ->
    exists i f, files !! i = Some f /\ row = file_row_of source_id generation i f;
  rc_others : forall key row, sf_source_id row <> source_id -> t !! key = Some row <-> t0 !! key = Some row }.

Lemma recorded_insert source_id generation files f t0 t key :
  recorded source_id generation files t0 t ->
  (forall old, t !! key = Some old -> sf_source_id old = source_id /\ sf_manifest_version old = generation /\
     sf_ordinal old = Z.of_nat (length files)) ->
  (forall k row, t !! k = Some row -> sf_source_id row = source_id -> sf_manifest_version row = generation ->
     sf_ordinal row = Z.of_nat (length files) -> k = key) ->
  recorded source_id generation (files ++ [f]) t0
    (<[key := file_row_of source_id generation (length files) f]> t).
Proof.
  intros [[Ho Hu] Hf Hn Hx] Hold Hkey. split.
  - split.
    + intros k row [[<- <-]|[_ Hk]]%lookup_insert_Some; [cbn; lia|by eapply Ho].
    + intros i j a b [[<- <-]|[Hi Ha]]%lookup_insert_Some [[<- <-]|[Hj Hb]]%lookup_insert_Some E1 E2 E3; cbn in *;
        [done| | |by eapply Hu]; [symmetry|]; eapply Hkey; done || congruence.
  - intros i g [Hi|[Hlen Hi]]%lookup_app_Some.
    + destruct (Hf i g Hi) as [k Hk]. exists k. rewrite lookup_insert_ne; [done|]. intros <-.
      destruct (Hold _ Hk) as (_ & _ & E). cbn in E. apply lookup_lt_Some in Hi. lia.
    + apply list_lookup_singleton_Some in Hi as [Hi <-]. exists key. rewrite lookup_insert_eq.
      by replace i with (length files) by lia.
  - intros k row [[<- <-]|[_ Hk]]%lookup_insert_Some E1 E2.
    + exists (length files), f. by rewrite lookup_app_r, Nat.sub_diag by lia.
    + destruct (Hn k row Hk E1 E2) as (i & g & Hi & ->). exists i, g. split; [|done]. by apply lookup_app_l_Some.
  - intros k row Hne. rewrite <- Hx by done. split.
    + intros [[<- <-]|[_ Hk]]%lookup_insert_Some; [by destruct Hne|done].
    + intros Hk. rewrite lookup_insert_ne; [done|]. intros <-. by destruct (Hold row Hk).
Qed.

Lemma persist_files_Ok source_id generation files before t0 db db' :
  recorded source_id generation before t0 (sporos_source_file db) ->
  persist_files source_id generation (length before) files db = (db', Ok tt) ->
  db' = QbitProjection.with_files (fun _ => sporos_source_file db') db /\
  recorded source_id generation (before ++ files) t0 (sporos_source_file db').
Proof.
  revert before db. induction files as [|f files IH]; intros before db Hrec.
  - intros [= <-]. rewrite app_nil_r. split; [by destruct db|done].
  - cbn [persist_files]. unfold to_i64, i64_try_from, mbind, M_bind, liftr.
    repeat (destruct (_ <=? i64_max); cbn [ok_or]; [|done]).
    destruct (upsert_file _ db) as [db1 [[]|e]] eqn:Hu; [|done]. intros Hrest.
    assert (db1 = QbitProjection.with_files (fun _ => sporos_source_file db1) db /\
      recorded source_id generation (before ++ [f]) t0 (sporos_source_file db1)) as [Hdb1 Hrec1].
    { unfold upsert_file in Hu. destruct (_ || _); [done|]. injection Hu as <-. split; [by destruct db|].
      cbn [sporos_source_file QbitProjection.with_files with_inventory n_file inventory sf_source_id
           sf_manifest_version sf_ordinal].
      destruct (QbitProjection.file_row _ _ _ _) as [[key old]|] eqn:Hr.
      - pose proof (ManifestProofs.file_row_Some _ _ _ _ _ _ Hr) as (Hk & [V1 V2]%ManifestProofs.of_version_spec & Ho).
        apply (recorded_insert _ _ _ f _ _ _ Hrec); [intros o Hok; by replace o with old by congruence|].
        intros k row Hrow E1 E2 E3. eapply (ManifestProofs.fo_unique _ (rc_ok _ _ _ _ _ Hrec)); [done|done|congruence..].
      - apply (recorded_insert _ _ _ f _ _ _ Hrec); [by rewrite next_rowid_fresh|].
        intros k row Hrow E1 E2 E3. exfalso. eapply (ManifestProofs.file_row_None _ _ _ _ _ _ Hr Hrow); [|done].
        by apply ManifestProofs.of_version_spec. }
    replace (S (length before)) with (length (before ++ [f])) in Hrest by (rewrite length_app; cbn; lia).
    destruct (IH _ _ Hrec1 Hrest) as [E Hrec']. rewrite <- app_assoc in Hrec'. split; [|exact Hrec'].
    rewrite E, Hdb1. by destruct db.
Qed.

Lemma recorded_nothing source_id generation db :
  ManifestProofs.files_ok (sporos_source_file db) ->
  recorded source_id generation [] (sporos_source_file db)
    (sporos_source_file (QbitProjection.update_files (fun row => str_eqb (sf_source_id row) source_id)
       (QbitProjection.set_available false) db)).
Proof.
  intros [Ho Hu].
  set (g := fun row => if str_eqb (sf_source_id row) source_id then QbitProjection.set_available false row else row).
  assert (forall row, sf_source_id (g row) = sf_source_id row /\ sf_ordinal (g row) = sf_ordinal row /\
    sf_manifest_version (g row) = sf_manifest_version row) as Hg
    by (intros row; unfold g; by destruct (str_eqb _ _)).
  cbn [sporos_source_file QbitProjection.update_files QbitProjection.with_files with_inventory n_file inventory].
  fold g. set (t := sporos_source_file db) in *.
  assert (forall k row, (g <$> t) !! k = Some row -> exists old, t !! k = Some old /\ row = g old) as Hold.
  { intros k row. rewrite lookup_fmap. destruct (t !! k) as [old|]; [|done]. intros [= <-]. by exists old. }
  split.
  - split.
    + intros k row (old & Hk & ->)%Hold. destruct (Hg old) as (_ & -> & _). by eapply Ho.
    + intros i j a b (a' & Ha & ->)%Hold (b' & Hb & ->)%Hold E1 E2 E3.
      destruct (Hg a') as (A1 & A2 & A3), (Hg b') as (B1 & B2 & B3). eapply Hu; [done|done|congruence..].
  - done.
  - intros k row (old & Hk & ->)%Hold E1 E2. destruct (Hg old) as (A1 & _). rewrite A1 in E1. unfold g in E2.
    rewrite (proj2 (str_eqb_spec _ _) E1) in E2. done.
  - intros k row Hne. split.
    + intros (old & Hk & ->)%Hold. destruct (Hg old) as (A1 & _). rewrite A1 in Hne. unfold g.
      destruct (str_eqb (sf_source_id old) source_id) eqn:E; [by apply str_eqb_spec in E|done].
    + intros Hk. rewrite lookup_fmap, Hk. cbn. f_equal. unfold g.
      destruct (str_eqb (sf_source_id row) source_id) eqn:E; [by apply str_eqb_spec in E|done].
Qed.

(** The row of a release *)
Definition release_row (root_name : str) (generation : Z) (release : ScannedRelease) (now : Z) : DataSourceRow :=
  let descriptor := Release.parse_release (sr_name release) in
  mkDataSourceRow root_name (sr_relative_path release) (sr_kind release) (sr_name release)
    (sr_total_size release) (Some (encode_release descriptor)) (Some (rd_primary_title descriptor)) true
    generation now.

Lemma persist_release_Ok root_name generation release now db db' id :
  sources_ok (sporos_data_source db) -> ManifestProofs.files_ok (sporos_source_file db) ->
  persist_release root_name generation release now db = (db', Ok id) ->
  let row := release_row root_name generation release now in
  let db1 := with_sources (<[id := row]> (sporos_data_source db)) db in
  id = key_of row /\
  (forall old, sporos_data_source db !! id = Some old ->
     dt_root_name old = root_name /\ dt_relative_path old = sr_relative_path release) /\
  recorded id generation (sr_files release) (sporos_source_file db) (sporos_source_file db') /\
  db' = QbitProjection.with_files (fun _ => sporos_source_file db')
          (with_inventory (Facts.replace id (lit "data") (Release.parse_release (sr_name release))
             (inventory db1)) db1).
Proof.
  intros Hok Hfiles. unfold persist_release, to_i64, i64_try_from. unfold mbind at 1 2 3, M_bind at 1 2 3, liftr.
  repeat (destruct (_ <=? i64_max); cbn [ok_or]; [|done]).
  set (descriptor := Release.parse_release (sr_name release)).
  set (row0 := mkDataSourceRow root_name _ _ _ _ _ None true generation now).
  change (data_source_id root_name (sr_relative_path release)) with (key_of row0).
  rewrite M_bind_Ok. intros (db1 & [] & Hu & Hr). apply upsert_source_Ok in Hu as [-> Hold]; [|done].
  rewrite M_bind_Ok in Hr. destruct Hr as (db2 & [] & [= <-] & Hr).
  rewrite M_bind_Ok in Hr. destruct Hr as (db3 & [] & Hp & [= <- <-]).
  set (db0 := with_sources (<[key_of row0 := upserted (sporos_data_source db) row0]> (sporos_data_source db)) db) in *.
  replace (with_sources (alter (with_title (rd_primary_title descriptor)) (key_of row0) (sporos_data_source db0)) db0)
    with (with_sources (<[key_of row0 := release_row root_name generation release now]> (sporos_data_source db)) db) in Hp.
  2: { unfold db0. cbn [sporos_data_source with_sources with_inventory n_data].
       rewrite alter_insert_eq. by destruct db. }
  set (db1 := with_sources (<[_ := release_row _ _ _ _]> _) db) in *.
  set (db2 := with_inventory (Facts.replace _ _ _ _) db1) in *.
  assert (sporos_source_file db2 = sporos_source_file db) as Hf2.
  { unfold db2. cbn [sporos_source_file with_inventory].
    destruct (Facts.replace_spec (key_of row0) (lit "data") descriptor (inventory db1)) as (_ & _ & _ & E & _).
    exact E. }
  apply (persist_files_Ok _ _ _ [] (sporos_source_file db)) in Hp as [E Hrec].
  2: { rewrite <- Hf2. apply recorded_nothing. by rewrite Hf2. }
  split; [done|]. split; [exact Hold|]. split; [exact Hrec|].
  etransitivity; [exact E|]. by destruct db2.
Qed.

(** The tables of sources and files after a release is recorded *)
Lemma persist_release_tables root_name generation release now db db' id :
  sources_ok (sporos_data_source db) -> ManifestProofs.files_ok (sporos_source_file db) ->
  persist_release root_name generation release now db = (db', Ok id) ->
  sporos_data_source db' = <[id := release_row root_name generation release now]> (sporos_data_source db) /\
  sources_ok (sporos_data_source db') /\ ManifestProofs.files_ok (sporos_source_file db').
Proof.
  intros Hok Hfiles Hp. destruct (persist_release_Ok _ _ _ _ _ _ _ Hok Hfiles Hp) as (Hid & _ & Hrec & Hdb).
  cbv zeta in *. assert (sporos_data_source db' = <[id := release_row root_name generation release now]>
    (sporos_data_source db)) as Hd.
  { rewrite Hdb. match goal with |- context [Facts.replace ?i ?k ?d ?n] =>
      destruct (Facts.replace_spec i k d n) as (_ & _ & E & _) end. exact E. }
  split; [done|]. split; [|by destruct Hrec]. rewrite Hd, Hid. by apply sources_ok_insert.
Qed.

Lemma imap_ordinals source_id generation files :
  map sf_ordinal (imap (file_row_of source_id generation) files) = seqZ 0 (Z.of_nat (length files)).
Proof.
  apply list_eq. intros i. change (map sf_ordinal) with (fmap (M := list) sf_ordinal).
  rewrite list_lookup_fmap, list_lookup_imap. destruct (files !! i) as [f|] eqn:Hi; cbn.
  - symmetry. apply lookup_seqZ. apply lookup_lt_Some in Hi. lia.
  - apply lookup_ge_None in Hi. destruct (seqZ _ _ !! i) as [x|] eqn:E; [|done]. apply lookup_seqZ in E. lia.
Qed.

(** The manifest that decisions read *)
Lemma recorded_manifest source_id generation files t0 db :
  recorded source_id generation files t0 (sporos_source_file db) ->
  map snd (Decision.manifest_rows db source_id generation) = imap (file_row_of source_id generation) files.
Proof.
  intros [Hok Hf Hn _]. set (target := imap (file_row_of source_id generation) files).
  set (entry := fun row => (sf_ordinal row, sf_display_path row, sf_size row)).
  assert (forall row, row ∈ target <-> exists i f, files !! i = Some f /\ row = file_row_of source_id generation i f) as Ht.
  { intros row. unfold target. rewrite elem_of_lookup_imap. naive_solver. }
  assert (ManifestProofs.manifest db source_id generation = map entry target) as Hm.
  { apply ManifestProofs.manifest_known; [done| |].
    - rewrite map_map. change (map (fun row => (entry row).1.1) target) with (map sf_ordinal target).
      unfold target. rewrite length_map, length_imap. apply imap_ordinals.
    - intros e. change (map entry target) with (entry <$> target). rewrite list_elem_of_fmap. split.
      + intros (row & -> & Hrow). apply Ht in Hrow as (i & f & Hi & ->). destruct (Hf i f Hi) as [key Hk].
        exists (key, file_row_of source_id generation i f). split; [|done]. split; [done|].
        split; [by apply ManifestProofs.of_version_spec|done].
      + intros ([key row] & (Hk & [V1 V2]%ManifestProofs.of_version_spec & Ha) & ->). exists row. split; [done|].
        apply Ht. by eapply Hn. }
  unfold ManifestProofs.manifest in Hm. apply list_eq. intros j.
  apply (f_equal (fun l => l !! j)) in Hm.
  change (map ManifestProofs.entry) with (fmap (M := list) ManifestProofs.entry) in Hm.
  change (map entry target) with (entry <$> target) in Hm.
  change (map snd) with (fmap (M := list) (@snd Z SourceFileRow)).
  rewrite !list_lookup_fmap in *. destruct (Decision.manifest_rows _ _ _ !! j) as [[key row]|] eqn:Hj; cbn in Hm.
  2: { by destruct (target !! j). }
  destruct (target !! j) as [row'|] eqn:Hr; [|done]. cbn in Hm. injection Hm as E1 E2 E3.
  assert ((key, row) ∈ Decision.manifest_rows db source_id generation) as Hin by by eapply list_elem_of_lookup_2.
  apply ManifestProofs.visible_rows_elem in Hin as (Hk & [V1 V2]%ManifestProofs.of_version_spec & Ha).
  destruct (Hn key row Hk V1 Ha) as (i & f & Hi & ->). cbn in E1 |- *. f_equal.
  unfold target in Hr. rewrite list_lookup_imap in Hr. destruct (files !! j) as [g|] eqn:Hg; [|done].
  injection Hr as <-. cbn in E1. assert (i = j) as -> by lia. congruence.
Qed.

Lemma manifest_others source_id generation files t0 db db0 other version :
  recorded source_id generation files t0 (sporos_source_file db) -> t0 = sporos_source_file db0 ->
  ManifestProofs.files_ok (sporos_source_file db0) -> other <> source_id ->
  Decision.manifest_rows db other version = Decision.manifest_rows db0 other version.
Proof.
  intros [_ _ _ Hx] -> Hok Hne. apply ManifestProofs.visible_rows_same; [|done]. intros [key row].
  unfold ManifestProofs.visible. rewrite ManifestProofs.of_version_spec. cbn [fst snd].
  split; intros (Hk & [V1 V2] & Ha); (split; [|done]); apply (Hx key row); done || congruence.
Qed.

(** C15: A release that a scan records is what decisions read.  Its row is available and
    carries the generation of the scan, the files read for that generation are exactly
    those of the release in their order, with their paths, sizes and identities, and it is
    found by exactly the titles of its name.  Other sources and their files are untouched,
    and the tables stay well formed. *)
Theorem recorded_release_is_read root_name generation release now db db' id :
  sources_ok (sporos_data_source db) -> ManifestProofs.files_ok (sporos_source_file db) ->
  persist_release root_name generation release now db = (db', Ok id) ->
  sporos_data_source db' !! id = Some (release_row root_name generation release now) /\
  map snd (Decision.manifest_rows db' id generation) = imap (file_row_of id generation) (sr_files release) /\
  (forall titles ids, Decision.plausible db' (lit "data") titles ids id = true <->
     (exists title, title ∈ titles /\ title ∈ Facts.fact_titles (Release.parse_release (sr_name release))) \/
     (exists x, x ∈ ids /\ x ∈ Facts.fact_ids (Release.parse_release (sr_name release)))) /\
  (forall other, other <> id ->
     sporos_data_source db' !! other = sporos_data_source db !! other /\
     forall version, Decision.manifest_rows db' other version = Decision.manifest_rows db other version) /\
  sources_ok (sporos_data_source db') /\ ManifestProofs.files_ok (sporos_source_file db').
Proof.
  intros Hok Hfiles Hp. destruct (persist_release_tables _ _ _ _ _ _ _ Hok Hfiles Hp) as (Hd & Hs & Hf).
  destruct (persist_release_Ok _ _ _ _ _ _ _ Hok Hfiles Hp) as (_ & _ & Hrec & Hdb). cbv zeta in Hdb.
  split; [by rewrite Hd, lookup_insert_eq|]. split; [by eapply recorded_manifest|]. split; [|split; [|done]].
  - intros titles ids. rewrite <- (Facts.plausible_replaced
      (with_sources (<[id := release_row root_name generation release now]> (sporos_data_source db)) db)
      id (lit "data") (Release.parse_release (sr_name release)) titles ids). by rewrite Hdb.
  - intros other Hne. split; [by rewrite Hd, lookup_insert_ne|]. intros version. by eapply manifest_others.
Qed.
End Scan.
