(* ===== verification/ScanTree.v ===== *)
(** A whole scan (Scan.v): whatever the pages in which the directories are read, a scan that
    completes leaves available exactly the releases of the directory tree. *)

From S2P Require Import Prelude Text Model Store Duroxide Candidate Library Catalogue Torznab Prowlarr Search SearchSample DataScan DataScanProofs Scan ScanProofs.
From S2P Require Codec Release Ingress Hardlink Torrent Accept Completion Facts Decision QbitProjection ManifestProofs.
From stdpp Require Import strings.
From stdpp Require sorting.
Local Open Scope Z_scope.

(** ** Entries, whatever has been found before them *)

Section Tree.
Context `{DataFiles} (settings : DataRoot) (exts : list str).

Abbreviation root := (dr_path settings).

Lemma walk_more path max_files fuel fuel' files pending r :
  walk root path max_files exts fuel files pending = Some r -> (fuel <= fuel')%nat ->
  walk root path max_files exts fuel' files pending = Some r.
Proof.
  revert fuel' files pending. induction fuel as [|fuel IH]; intros [|fuel'] files [|[d n] pending]; cbn [walk];
    try done; try lia.
  intros Hw Hle. match type of Hw with match ?v with _ => _ end = _ => destruct v as [[f p]|e] end; [|done].
  apply IH; [done|lia].
Qed.

Lemma directory_release_more fuel fuel' relative path metadata max_files r :
  directory_release fuel root relative path metadata max_files exts = Some r -> (fuel <= fuel')%nat ->
  directory_release fuel' root relative path metadata max_files exts = Some r.
Proof.
  unfold directory_release. destruct (name_of path ≫= from_utf8) as [name|]; [|done].
  destruct (walk _ _ _ _ fuel _ _) as [w|] eqn:Hw; [|done]. cbn [mbind option_bind]. intros Hr Hle.
  by rewrite (walk_more _ _ _ _ _ _ _ Hw Hle).
Qed.

Lemma scan_entry_more fuel fuel' relative depth acc entry r :
  scan_entry fuel root relative depth settings exts acc entry = Some r -> (fuel <= fuel')%nat ->
  scan_entry fuel' root relative depth settings exts acc entry = Some r.
Proof.
  unfold scan_entry. destruct acc as [releases children], entry as [name path].
  destruct (io (symlink_metadata path)) as [m|e]; [|done].
  destruct (is_symlink m); [done|]. destruct (_ && _); [done|]. destruct (is_directory m); [|done].
  destruct (looks_like_release path exts) as [[]|e]; [|done..].
  destruct (directory_release fuel _ _ _ _ _ _) as [d|] eqn:Hd; [|done]. intros Hr Hle.
  by rewrite (directory_release_more _ _ _ _ _ _ _ Hd Hle).
Qed.

(** Lists found before are kept. *)
Definition append_found (acc out : list ScannedRelease * list str) : list ScannedRelease * list str :=
  (acc.1 ++ out.1, acc.2 ++ out.2).

Lemma scan_entry_found fuel relative depth acc entry :
  scan_entry fuel root relative depth settings exts acc entry
  = fmap (M := option) (fmap (M := result ScanFsError) (append_found acc))
      (scan_entry fuel root relative depth settings exts ([], []) entry).
Proof.
  unfold scan_entry, append_found. destruct acc as [releases children], entry as [name path].
  destruct (io (symlink_metadata path)) as [m|e]; [|done]. cbn.
  destruct (is_symlink m); [cbn; by rewrite !app_nil_r|].
  destruct (_ && _); [destruct (standalone_release _ _ _ _) as [r|e]; cbn; by rewrite ?app_nil_r|].
  destruct (is_directory m); [|cbn; by rewrite !app_nil_r].
  destruct (looks_like_release path exts) as [[]|e]; [| |done].
  - destruct (directory_release _ _ _ _ _ _ _) as [[r|e]|]; cbn; by rewrite ?app_nil_r.
  - destruct (depth <? max_depth settings); cbn; by rewrite !app_nil_r.
Qed.

Lemma scan_entries_found fuel relative depth acc entries out :
  scan_entries fuel root relative depth settings exts acc entries = Some (Ok out) ->
  exists outs, Forall2 (fun e o => scan_entry fuel root relative depth settings exts ([], []) e = Some (Ok o)) entries outs /\
    out = append_found acc (concat (map fst outs), concat (map snd outs)).
Proof.
  revert acc. induction entries as [|e entries IH]; intros acc; cbn [scan_entries].
  - intros [= <-]. exists []. split; [constructor|]. unfold append_found. cbn. rewrite !app_nil_r. by destruct acc.
  - rewrite scan_entry_found. destruct (scan_entry _ _ _ _ _ _ _ e) as [[o|err]|] eqn:He; [|done..]. cbn.
    intros (outs & Ho & ->)%IH. exists (o :: outs). split; [by constructor|].
    unfold append_found. cbn. by rewrite <- !app_assoc.
Qed.

(** ** The tree: the reference *)

(** The depth of a directory is in its path. *)
Definition depth_of (relative : str) : Z :=
  match relative with [] => 0 | _ => 1 + Z.of_nat (length (filter (fun b => b = 47) relative)) end.

(** The directory with this path beneath the root holds these names. *)
Definition listing (relative : str) (names : list str) : Prop :=
  exists directory metadata, join_bytes root relative = Ok directory /\
    symlink_metadata directory = Ok metadata /\ is_directory metadata = true /\ is_symlink metadata = false /\
    read_dir directory = Ok (map Ok names).

(** What an entry of a directory is: releases, or a directory to be searched *)
Definition outcome (relative name : str) (out : list ScannedRelease * list str) : Prop :=
  exists fuel directory, join_bytes root relative = Ok directory /\
    scan_entry fuel root relative (depth_of relative) settings exts ([], []) (name, push directory name)
    = Some (Ok out).

(** The directories of the tree, and its releases *)
Inductive reached : str -> Prop :=
| reached_root : reached []
| reached_child relative names name out child :
    reached relative -> listing relative names -> name ∈ names -> outcome relative name out ->
    child ∈ out.2 -> reached child.

Definition in_tree (release : ScannedRelease) : Prop :=
  exists relative names name out, reached relative /\ listing relative names /\ name ∈ names /\
    outcome relative name out /\ release ∈ out.1.

Lemma listing_unique relative names names' : listing relative names -> listing relative names' -> names = names'.
Proof.
  intros (d & m & Hd & _ & _ & _ & Hn) (d' & m' & Hd' & _ & _ & _ & Hn').
  rewrite Hd in Hd'. injection Hd' as <-. rewrite Hn in Hn'. injection Hn' as Hn'.
  revert names' Hn'. clear. induction names as [|x l IH]; intros [|y l']; [done..|]. intros [= -> E].
  f_equal. auto.
Qed.

Lemma outcome_unique relative name out out' : outcome relative name out -> outcome relative name out' -> out = out'.
Proof.
  intros (f & d & Hd & Ho) (f' & d' & Hd' & Ho'). rewrite Hd in Hd'. injection Hd' as <-.
  apply (scan_entry_more f (f `max` f')) in Ho; [|lia]. apply (scan_entry_more f' (f `max` f')) in Ho'; [|lia].
  congruence.
Qed.

(** ** A page *)

Lemma select_page_names directory cursor entries r :
  select_page directory cursor entries = Ok r -> exists names, entries = map Ok names.
Proof.
  unfold select_page. generalize (@nil (str * str), false). induction entries as [|[name|e] entries IH]; intros acc.
  - by exists [].
  - cbn [try_fold]. destruct (select_entry _ _ _ _) as [acc'|]; [|done].
    intros (names & ->)%IH. by exists (name :: names).
  - by destruct acc.
Qed.

(** The names of a page *)
Definition page_names (cursor : option str) (names : list str) : list str :=
  take PAGE_SIZE (sort_by str_leb (filter (after cursor) names)).

Lemma scan_directory_Ok fuel relative cursor page :
  scan_directory fuel root relative (depth_of relative) cursor settings exts = Some (Ok page) ->
  exists names outs, listing relative names /\
    Forall2 (outcome relative) (page_names cursor names) outs /\
    pg_releases page = concat (map fst outs) /\ pg_children page = concat (map snd outs) /\
    pg_last_name page = last (page_names cursor names) /\
    pg_has_more page = (PAGE_SIZE <? length (filter (after cursor) names))%nat.
Proof.
  unfold scan_directory. destruct (join_bytes root relative) as [directory|e] eqn:Hj; [|done].
  cbn [mbind result_bind]. destruct (symlink_metadata directory) as [m|e] eqn:Hm; [|done].
  cbn [io map_err mbind result_bind]. destruct (negb (is_directory m) || is_symlink m) eqn:Hk; [done|].
  apply orb_false_iff in Hk as [Hk1%negb_false_iff Hk2].
  destruct (read_dir directory) as [entries|e] eqn:Hr; [|done]. cbn [io map_err mbind result_bind].
  destruct (select_page directory cursor entries) as [[selected more]|e] eqn:Hs; [|done].
  destruct (select_page_names _ _ _ _ Hs) as [names ->].
  rewrite select_page_spec in Hs. injection Hs as <- <-. fold (page_names cursor names).
  destruct (scan_entries _ _ _ _ _ _ _ _) as [[out|e]|] eqn:Hse; [|done..]. cbn [mbind option_bind].
  apply scan_entries_found in Hse as (outs & Ho & ->). unfold append_found. cbn.
  intros [= <-]. exists names, outs. split; [by exists directory, m|].
  split; [|split; [done|split; [done|split; [|done]]]].
  - change (map (fun name => (name, push directory name)) (page_names cursor names))
      with ((fun name => (name, push directory name)) <$> page_names cursor names) in Ho.
    apply Forall2_fmap_l in Ho. eapply Forall2_impl; [exact Ho|]. intros name o He. by exists fuel, directory.
  - change (map (fun name => (name, push directory name)) (page_names cursor names))
      with ((fun name => (name, push directory name)) <$> page_names cursor names).
    rewrite fmap_last. by destruct (last _).
Qed.

Lemma page_names_elem cursor names name : name ∈ page_names cursor names -> name ∈ names.
Proof.
  intros Hn. assert (name ∈ sort_by str_leb (filter (after cursor) names)) as Hs.
  { rewrite <- (take_drop PAGE_SIZE). apply elem_of_app. by left. }
  rewrite elem_of_sort_by, list_elem_of_filter in Hs. tauto.
Qed.

(** Whether the pages so far have covered a name *)
Definition covered (row : DirectoryRow) (name : str) : Prop :=
  dd_state row = lit "completed" \/ ~ after (dd_cursor_name row) name.

Lemma page_covers row page names name :
  pg_last_name page = last (page_names (dd_cursor_name row) names) ->
  pg_has_more page = (PAGE_SIZE <? length (filter (after (dd_cursor_name row)) names))%nat ->
  name ∈ names -> covered (after_page page row) name ->
  covered row name \/ name ∈ page_names (dd_cursor_name row) names.
Proof.
  intros Hlast Hmore Hname Hc. destruct (decide (after (dd_cursor_name row) name)) as [Ha|Ha]; [|by left; right].
  right. unfold page_names in *. set (rest := filter (after (dd_cursor_name row)) names) in *.
  assert (name ∈ sort_by str_leb rest) as Hin by (unfold rest; by rewrite elem_of_sort_by, list_elem_of_filter).
  assert (length (sort_by str_leb rest) = length rest) as Hlen by apply length_sort_by.
  unfold after_page in Hc. rewrite Hmore in Hc.
  destruct (Nat.ltb_spec PAGE_SIZE (length rest)) as [Hn|Hn]; [|by rewrite take_ge by lia].
  set (s := sort_by str_leb rest) in *.
  apply list_elem_of_lookup in Hin as [j Hj].
  destruct (decide (j < PAGE_SIZE)%nat) as [Hjn|Hjn].
  { eapply list_elem_of_lookup_2. by rewrite lookup_take_lt. }
  assert (is_Some (s !! pred PAGE_SIZE)) as [cut Hcut] by (apply lookup_lt_is_Some; unfold PAGE_SIZE in *; lia).
  assert (last (take PAGE_SIZE s) = Some cut) as El.
  { rewrite last_lookup, length_take, Nat.min_l by lia. by rewrite lookup_take_lt by (unfold PAGE_SIZE; lia). }
  rewrite El in Hlast. rewrite Hlast in Hc. destruct Hc as [Hc|Hc]; [done|]. cbn [dd_cursor_name after] in Hc.
  apply not_false_iff_true in Hc.
  assert (str_leb cut name = true) as Hle.
  { assert (StronglySorted str_leb s) as Hsort by (apply sort_by_sorted; eauto with sporos).
    apply Is_true_true. rewrite <- (take_drop PAGE_SIZE s) in Hsort.
    apply (sorting.StronglySorted_app_1_elem_of str_leb _ _ _ _ Hsort).
    - apply (list_elem_of_lookup_2 _ (pred PAGE_SIZE)). by rewrite lookup_take_lt by (unfold PAGE_SIZE; lia).
    - apply (list_elem_of_lookup_2 _ (j - PAGE_SIZE)). rewrite lookup_drop.
      by replace (PAGE_SIZE + (j - PAGE_SIZE))%nat with j by lia. }
  assert (name = cut) as -> by (by apply str_leb_antisym).
  apply (list_elem_of_lookup_2 _ (pred PAGE_SIZE)). by rewrite lookup_take_lt by (unfold PAGE_SIZE; lia).
Qed.

(** ** Depth *)

(** [read_dir] yields names: not empty, and without separators. *)
Definition names_ok : Prop :=
  forall path entries name, read_dir path = Ok entries -> Ok name ∈ entries -> name <> [] /\ 47 ∉ name.

Lemma depth_of_child relative name :
  name <> [] -> 47 ∉ name -> depth_of (append_component relative name) = depth_of relative + 1.
Proof.
  intros Hne Hsep.
  assert (filter (fun b => b = 47) name = []) as Hf.
  { clear Hne. induction name as [|b name IH]; [done|]. rewrite filter_cons_False, IH; [done| |].
    - intros Hin. apply Hsep. by right.
    - intros ->. apply Hsep. left. }
  destruct relative as [|b relative]; cbn [append_component].
  - destruct name as [|c name]; [done|]. unfold depth_of. rewrite Hf. done.
  - unfold depth_of. cbn [app]. rewrite app_comm_cons, filter_app, length_app.
    change ([47] ++ name) with (47 :: name). rewrite (filter_cons_True _ 47 name) by done. rewrite Hf. cbn. lia.
Qed.

Lemma outcome_child relative name out child :
  outcome relative name out -> child ∈ out.2 ->
  child = append_component relative name /\ depth_of relative < max_depth settings.
Proof.
  intros (fuel & directory & _ & Ho). revert Ho. unfold scan_entry.
  destruct (io (symlink_metadata _)) as [m|e]; [|done].
  destruct (is_symlink m); [intros [= <-] Hc; by apply elem_of_nil in Hc|].
  destruct (_ && _).
  { destruct (standalone_release _ _ _ _) as [r|e]; [|done]. intros [= <-] Hc. by apply elem_of_nil in Hc. }
  destruct (is_directory m); [|intros [= <-] Hc; by apply elem_of_nil in Hc].
  destruct (looks_like_release _ exts) as [[]|e]; [| |done].
  - destruct (directory_release _ _ _ _ _ _ _) as [[r|e]|]; [|done..]. intros [= <-] Hc. by apply elem_of_nil in Hc.
  - destruct (Z.ltb_spec (depth_of relative) (max_depth settings)); intros [= <-] Hc; [|by apply elem_of_nil in Hc].
    by apply list_elem_of_singleton in Hc as ->.
Qed.

Lemma listing_names relative names name :
  names_ok -> listing relative names -> name ∈ names -> name <> [] /\ 47 ∉ name.
Proof.
  intros Hok (d & m & _ & _ & _ & _ & Hr) Hin. eapply Hok; [exact Hr|].
  change (map Ok names) with (Ok (E := IoError) <$> names). by apply list_elem_of_fmap_2.
Qed.

Lemma reached_depth relative :
  names_ok -> 0 <= max_depth settings -> reached relative -> 0 <= depth_of relative <= max_depth settings.
Proof.
  intros Hok Hmax. induction 1 as [|relative names name out child Hr IH Hl Hn Ho Hc]; [cbn; lia|].
  destruct (outcome_child _ _ _ _ Ho Hc) as [-> Hlt]. destruct (listing_names _ _ _ Hok Hl Hn).
  rewrite depth_of_child by done. lia.
Qed.
End Tree.

(** ** What a page writes *)

Section Pages.
Context `{Unicode} `{Json} `{Digest} `{CandidateCodec} `{!Accept.IntakeCodec} `{SearchCodec} `{!SearchCodecLaws} `{ScanCodec}.
Context `{Http} `{Xml} `{DataFiles}.

(** Starting searches does not touch the tables of the scan. *)
Record keeps (c c' : Catalogue) : Prop := {
  ke_sources : sporos_data_source (library c') = sporos_data_source (library c);
  ke_files : sporos_source_file (library c') = sporos_source_file (library c);
  ke_directories : sporos_data_scan_directory c' = sporos_data_scan_directory c;
  ke_policies : forall id p, sporos_policy_snapshot (tasks (library c)) !! id = Some p ->
    sporos_policy_snapshot (tasks (library c')) !! id = Some p }.

#[local] Instance keeps_preorder : PreOrder keeps.
Proof.
  split; [intros c; by split|]. intros a b c [A1 A2 A3 A4] [B1 B2 B3 B4]. split; [congruence..|auto].
Qed.

Definition keeps_policies (db db' : Db) : Prop :=
  forall id p, sporos_policy_snapshot db !! id = Some p -> sporos_policy_snapshot db' !! id = Some p.

#[local] Instance keeps_policies_preorder : PreOrder keeps_policies.
Proof. split; [by intros db id p|]. intros a b c Hab Hbc id p Hp. by apply Hbc, Hab. Qed.

Abbreviation always := (fun _ => True).

Lemma hoare_always {S E A} (R : relation S) (m : M S E A) :
  (forall s, R s (m s).1) -> hoare R always m (fun _ => always).
Proof. intros Hm s _. split; [apply Hm|by destruct (m s).2]. Qed.

Lemma accept_task_keeps_policies task :
  hoare keeps_policies always (Ingress.accept_task_in task) (fun _ => always).
Proof.
  assert (forall db db' : Db, sporos_policy_snapshot db' = sporos_policy_snapshot db -> keeps_policies db db') as Hsame
    by (intros db db' E id p; by rewrite E).
  assert (forall {A} (m : M Db SqlError A), (forall db, keeps_policies db (m db).1) ->
    hoare keeps_policies always (exec (E := Ingress.DurableIngressError) Ingress.Database m) (fun _ => always)) as Hexec.
  { intros A m Hm. apply hoare_always. intros db. unfold exec. specialize (Hm db).
    by destruct (m db) as [db' [a|e]]. }
  unfold Ingress.accept_task_in, Ingress.verify_policy, Ingress.verify_task, Ingress.verify_outbox.
  repeat first
    [ eapply hoare_bind; [typeclasses eauto| |intros ?]
    | apply Hexec; intros db
    | match goal with |- hoare _ _ (if ?b then _ else _) _ => destruct b end
    | apply hoare_always; intros db id p Hp; exact Hp ].
  - unfold insert_policy_ignore, insert_new. destruct (sporos_policy_snapshot db !! _) eqn:E; [by apply Hsame|].
    intros id p Hp. cbn. rewrite lookup_insert_ne; [done|]. intros <-. congruence.
  - apply Hsame. unfold fetch_one, reads. by destruct (sporos_policy_snapshot db !! _).
  - apply Hsame. unfold insert_task_ignore. destruct (insert_new _ _ _); [|done]. by destruct (_ !! _).
  - apply Hsame. unfold fetch_one, reads. by destruct (sporos_task db !! _).
  - apply Hsame. unfold insert_event. by repeat case_match.
  - apply Hsame. unfold insert_outbox. by repeat case_match.
  - apply Hsame. unfold fetch_one, reads. by repeat case_match.
Qed.

Lemma keeps_tasks c t :
  keeps_policies (tasks (library c)) t -> keeps c (with_library (with_tasks t (library c)) c).
Proof. by split. Qed.

Lemma on_tasks_keeps {E A} (m : M Db E A) :
  hoare keeps_policies always m (fun _ => always) -> hoare keeps always (on_tasks m) (fun _ => always).
Proof.
  intros Hm. apply hoare_always. intros c. unfold on_tasks, on_library.
  destruct (Hm (tasks (library c)) I) as [Hk _]. destruct (m (tasks (library c))) as [t r].
  by apply keeps_tasks.
Qed.

Lemma accept_in_keeps source_id indexer_id policy trigger operation_id now :
  hoare keeps always (accept_in source_id indexer_id policy trigger operation_id now) (fun _ => always).
Proof.
  unfold accept_in. eapply hoare_bind; [typeclasses eauto|apply hoare_always; intros c; reflexivity|intros json].
  eapply hoare_bind; [typeclasses eauto| |intros inserted].
  { refine (on_tasks_keeps _ _). apply hoare_always. intros db. unfold exec.
    destruct (accept_task_keeps_policies (search_task source_id indexer_id policy trigger now) db I) as [Hk _].
    by destruct (Ingress.accept_task_in _ db) as [db' [b|e]]. }
  eapply hoare_bind; [typeclasses eauto| |intros ?].
  { apply hoare_always. intros c. by split. }
  eapply hoare_bind; [typeclasses eauto| |intros ?]; apply hoare_always; intros c; [|reflexivity].
  unfold insert_attempt. destruct (sporos_search_attempt c !! _); [reflexivity|].
  case_bool_decide; [by split|reflexivity].
Qed.

Lemma accept_all_keeps source_id indexers policy trigger operation_id now produced :
  hoare keeps always (accept_all source_id indexers policy trigger operation_id now produced) (fun _ => always).
Proof.
  revert produced. induction indexers as [|indexer_id indexers IH]; intros produced; cbn [accept_all].
  - apply hoare_always. intros c. reflexivity.
  - eapply hoare_bind; [typeclasses eauto|apply accept_in_keeps|intros inserted; apply IH].
Qed.

(** ** Recording the releases of a page *)

Abbreviation data_of c := (sporos_data_source (library c)).

(** What recording writes, seen from the tables of the scan *)
Record recording (root_name : str) (generation : Z) (releases : list ScannedRelease) (c c' : Catalogue) : Prop := {
  rg_sources : sources_ok (data_of c) -> sources_ok (data_of c');
  rg_files : ManifestProofs.files_ok (sporos_source_file (library c)) ->
    ManifestProofs.files_ok (sporos_source_file (library c'));
  rg_seen : forall relative, seen root_name generation (data_of c') relative <->
    seen root_name generation (data_of c) relative \/ exists r, r ∈ releases /\ sr_relative_path r = relative;
  rg_rows : forall key row, data_of c' !! key = Some row -> data_of c !! key = Some row \/
    exists r now, r ∈ releases /\ row = release_row root_name generation r now;
  rg_directories : sporos_data_scan_directory c' = sporos_data_scan_directory c;
  rg_policies : keeps_policies (tasks (library c)) (tasks (library c')) }.

Lemma keeps_recording root_name generation c c' : keeps c c' -> recording root_name generation [] c c'.
Proof.
  intros [E1 E2 E3 Hp]. split; [by rewrite E1|by rewrite E2| |by rewrite E1; left|done|exact Hp].
  intros relative. rewrite E1. split; [by left|].
  intros [?|(r & Hr & _)]; [done|by apply elem_of_nil in Hr].
Qed.

Lemma recording_app root_name generation l1 l2 a b c :
  recording root_name generation l1 a b -> recording root_name generation l2 b c ->
  recording root_name generation (l1 ++ l2) a c.
Proof.
  intros [A1 A2 A3 A4 A5 A6] [B1 B2 B3 B4 B5 B6]. split; [auto..| | |congruence|].
  - intros relative. rewrite B3, A3. setoid_rewrite elem_of_app. naive_solver.
  - intros key row Hrow. setoid_rewrite elem_of_app. destruct (B4 _ _ Hrow) as [Hb|?]; [|naive_solver].
    destruct (A4 _ _ Hb); naive_solver.
  - by transitivity (tasks (library b)).
Qed.

Lemma persist_release_recording root_name generation release now c c' id :
  sources_ok (data_of c) -> ManifestProofs.files_ok (sporos_source_file (library c)) ->
  on_library (persist_release root_name generation release now) c = (c', Ok id) ->
  recording root_name generation [release] c c'.
Proof.
  intros Hok Hfiles. unfold on_library.
  destruct (persist_release _ _ _ _ _) as [l [i|e]] eqn:Hp; [|done]. intros [= <- <-].
  destruct (persist_release_Ok _ _ _ _ _ _ _ Hok Hfiles Hp) as (Hid & Hold & Hrec & Hl). cbv zeta in *.
  destruct (persist_release_tables _ _ _ _ _ _ _ Hok Hfiles Hp) as (Hd & Hs & Hf).
  set (row := release_row root_name generation release now) in *.
  split; [done|done| | |done|].
  2: { intros key r. cbn [library with_library]. rewrite Hd.
       intros [[_ <-]|[_ Hr]]%lookup_insert_Some; [right|by left]. exists release, now. split; [by left|done]. }
  - intros relative. cbn [library with_library]. rewrite Hd, Hid. unfold seen. split.
    + intros (r & Hr & E). apply lookup_insert_Some in Hr as [[Hk <-]|[Hne Hr]].
      * right. exists release. split; [by left|]. apply E.
      * left. by exists r.
    + intros [(r & Hr & E)|(r & ->%list_elem_of_singleton & <-)].
      * destruct (decide (key_of row = data_source_id root_name relative)) as [Hk|Hk].
        -- destruct (Hold r) as [_ E2]; [by rewrite Hid, Hk|]. destruct E as (_ & <- & _).
           exists row. rewrite Hk, lookup_insert_eq. done.
        -- exists r. by rewrite lookup_insert_ne.
      * exists row. by rewrite lookup_insert_eq.
  - intros j p Hj. cbn [library with_library]. rewrite Hl.
    match goal with |- context [Facts.replace ?i ?k ?d ?n] => set (n' := Facts.replace i k d n) end. exact Hj.
Qed.

Lemma persist_releases_recording input settings policy trigger indexers now releases observed produced c c' out :
  sources_ok (data_of c) -> ManifestProofs.files_ok (sporos_source_file (library c)) ->
  persist_releases input settings policy trigger indexers now releases observed produced c = (c', Ok out) ->
  recording (sci_root_name input) (sci_generation input) releases c c'.
Proof.
  revert observed produced c. induction releases as [|release releases IH]; intros observed produced c Hok Hfiles.
  { intros [= <- _]. apply keeps_recording. reflexivity. }
  cbn [persist_releases]. destruct (_ <? _); [done|]. rewrite M_bind_Ok.
  intros (c1 & id & Hp & Hr). unfold or_fail in Hp.
  destruct (on_library _ c) as [c1' [id'|e]] eqn:Hl; [|done]. injection Hp as -> ->.
  pose proof (persist_release_recording _ _ _ _ _ _ _ Hok Hfiles Hl) as H1'.
  rewrite M_bind_Ok in Hr. destruct Hr as (c2 & n & Ha & Hr). unfold search_act in Ha.
  destruct (accept_all_keeps id indexers policy trigger (Some (sci_operation_id input)) now produced c1 I) as [Hk _].
  destruct (accept_all _ _ _ _ _ _ _ c1) as [c2' [n'|e]]; [|done]. injection Ha as -> ->.
  apply (keeps_recording (sci_root_name input) (sci_generation input)) in Hk.
  pose proof (recording_app _ _ _ _ _ _ _ H1' Hk) as H2'. rewrite app_nil_r in H2'.
  apply (recording_app _ _ _ _ _ _ _ H2'), (IH _ _ _ (rg_sources _ _ _ _ _ H2' Hok) (rg_files _ _ _ _ _ H2' Hfiles) Hr).
Qed.

(** ** The queue of directories *)

(** The rows of a scan's directories *)
Abbreviation row_of op c relative := (sporos_data_scan_directory c !! (op, relative)).

(** Everything but the queue stays. *)
Definition only_directories (c c' : Catalogue) : Prop :=
  library c' = library c.

Lemma queue_children_Ok op depth children c c' :
  0 <= depth < i64_max ->
  queue_children op depth children c = (c', Ok tt) ->
  only_directories c c' /\
  forall relative, row_of op c' relative
    = match row_of op c relative with
      | Some row => Some row
      | None => if decide (relative ∈ children) then Some (mkDirectoryRow (depth + 1) None (lit "queued")) else None
      end.
Proof.
  intros Hdepth. revert c. induction children as [|child children IH]; intros c.
  { intros [= <-]. split; [reflexivity|]. intros relative. destruct (row_of op c relative); [done|].
    by rewrite decide_False by apply not_elem_of_nil. }
  cbn [queue_children]. rewrite M_bind_Ok. intros (c1 & [] & Hq & Hr).
  replace (saturating_add_i64 depth 1) with (depth + 1) in Hq
    by (unfold saturating_add_i64, i64_min, i64_max in *; lia).
  destruct (IH _ Hr) as [Hl Hrows]. clear IH Hr.
  assert (only_directories c c1 /\ forall relative, row_of op c1 relative
    = match row_of op c relative with
      | Some row => Some row
      | None => if decide (relative = child) then Some (mkDirectoryRow (depth + 1) None (lit "queued")) else None
      end) as [Hl1 H1'].
  { unfold queue_directory in Hq. destruct (row_of op c child) as [row|] eqn:Hc.
    - injection Hq as <-. split; [reflexivity|]. intros relative. destruct (row_of op c relative) eqn:E; [done|].
      by rewrite decide_False by congruence.
    - destruct (_ && _); [|done]. injection Hq as <-. split; [reflexivity|]. intros relative.
      cbn [sporos_data_scan_directory with_directories]. destruct (decide (relative = child)) as [->|Hne].
      + by rewrite lookup_insert_eq, Hc.
      + rewrite lookup_insert_ne by congruence. by destruct (row_of op c relative). }
  split; [unfold only_directories in *; congruence|]. intros relative. rewrite Hrows, H1'.
  destruct (row_of op c relative) as [row|]; [done|]. destruct (decide (relative = child)) as [->|Hne].
  - by rewrite decide_True by left.
  - destruct (decide (relative ∈ children)); [by rewrite decide_True by by right|].
    by rewrite decide_False by (rewrite elem_of_cons; naive_solver).
Qed.

(** ** A page that is committed *)

Lemma record_page_Ok input settings policy indexers relative depth page now c c' :
  sources_ok (data_of c) -> ManifestProofs.files_ok (sporos_source_file (library c)) -> 0 <= depth < i64_max ->
  record_page input settings policy indexers relative depth page now c = (c', Ok tt) ->
  let op := sci_operation_id input in
  exists c1, recording (sci_root_name input) (sci_generation input) (pg_releases page) c c1 /\
    data_of c' = data_of c1 /\ sporos_source_file (library c') = sporos_source_file (library c1) /\
    sporos_policy_snapshot (tasks (library c')) = sporos_policy_snapshot (tasks (library c1)) /\
    forall d, row_of op c' d =
      let row := match row_of op c d with
                 | Some row => Some row
                 | None => if decide (d ∈ pg_children page) then Some (mkDirectoryRow (depth + 1) None (lit "queued")) else None
                 end in
      if decide (d = relative) then after_page page <$> row else row.
Proof.
  intros Hok Hfiles Hdepth. unfold record_page. rewrite M_bind_Ok. intros (c0 & observed & Hr & Hrest).
  unfold or_fail, read, reads in Hr. injection Hr as -> _.
  rewrite M_bind_Ok in Hrest. destruct Hrest as (c1 & [seen produced] & Hp & Hrest).
  pose proof (persist_releases_recording _ _ _ _ _ _ _ _ _ _ _ _ Hok Hfiles Hp) as Hrec.
  rewrite M_bind_Ok in Hrest. destruct Hrest as (c2 & [] & Hq & [= <-]).
  unfold or_fail in Hq. destruct (queue_children _ _ _ c1) as [c2' [[]|e]] eqn:Hqc; [|done]. injection Hq as ->.
  apply queue_children_Ok in Hqc as [Hl Hrows]; [|done]. exists c1. split; [done|]. unfold only_directories in Hl.
  cbn [library update_tasks update_operations with_library with_scans with_directories with_tasks
       sporos_data_source sporos_source_file sporos_policy_snapshot tasks set_tasks set_operations
       sporos_data_scan_directory]. rewrite Hl.
  split; [done|split; [done|split; [done|]]]. intros d.
  rewrite <- (rg_directories _ _ _ _ _ Hrec). rewrite <- Hrows. unfold update_row.
  destruct (decide (d = relative)) as [->|Hne]; [by rewrite lookup_alter_eq|by rewrite lookup_alter_ne by congruence].
Qed.

(** ** The invariant of a scan *)

Section Run.
Context (input : ScanInput) (settings : DataRoot) (exts : list str).

Abbreviation op := (sci_operation_id input).
Abbreviation saw c relative := (seen (sci_root_name input) (sci_generation input) (data_of c) relative).
Abbreviation listed relative names := (listing settings relative names).
Abbreviation yields relative name out := (outcome settings exts relative name out).

Record scanning (c : Catalogue) : Prop := {
  sg_sources : sources_ok (data_of c);
  sg_files : ManifestProofs.files_ok (sporos_source_file (library c));
  sg_policy : exists row policy, sporos_policy_snapshot (tasks (library c)) !! sci_policy_snapshot_id input = Some row /\
    decode_search_policy (pr_payload_json row) = Some policy /\
    mp_primary_video_extensions (Accept.mt_policy (sp_matching policy)) = exts;
  sg_root : is_Some (row_of op c []);
  sg_rows : forall relative row, row_of op c relative = Some row ->
    reached settings exts relative /\ dd_depth row = depth_of relative /\
    dd_state row ∈ [lit "queued"; lit "running"; lit "completed"];
  sg_done : forall relative row names name out,
    row_of op c relative = Some row -> listed relative names -> name ∈ names -> covered row name ->
    yields relative name out ->
    (forall r, r ∈ out.1 -> saw c (sr_relative_path r)) /\ (forall child, child ∈ out.2 -> is_Some (row_of op c child));
  sg_seen : forall key row, data_of c !! key = Some row -> dt_root_name row = sci_root_name input ->
    dt_generation row = sci_generation input ->
    exists r now, in_tree settings exts r /\ row = release_row (sci_root_name input) (sci_generation input) r now }.

Lemma open_directories_spec c p :
  p ∈ open_directories op c <->
  row_of op c p.1 = Some p.2 /\ dd_state p.2 ∈ [lit "queued"; lit "running"].
Proof.
  unfold open_directories. rewrite elem_of_sort_by, list_elem_of_omap. split.
  - intros ([[o d] row] & Hin & Hp). cbn [fst snd] in Hp.
    destruct (bool_decide (o = op) && _) eqn:E; [|done]. injection Hp as <-.
    apply andb_prop in E as [->%bool_decide_eq_true Hs]. apply elem_of_map_to_list in Hin. split; [done|].
    by apply bool_decide_eq_true in Hs.
  - intros [Hr Hs]. exists (op, p.1, p.2). split; [by apply elem_of_map_to_list|]. cbn [fst snd].
    rewrite bool_decide_true by done. unfold str_mem. rewrite bool_decide_true by done. by destruct p.
Qed.

(** Nothing is left to be read. *)
Lemma completed_rows c relative row :
  scanning c -> open_directories op c = [] -> row_of op c relative = Some row -> dd_state row = lit "completed".
Proof.
  intros Hc Ho Hr. destruct (sg_rows _ Hc _ _ Hr) as (_ & _ & Hs).
  destruct (decide (dd_state row ∈ [lit "queued"; lit "running"])) as [Hopen|Hclosed].
  - assert ((relative, row) ∈ open_directories op c) as Hin by by apply open_directories_spec.
    rewrite Ho in Hin. by apply elem_of_nil in Hin.
  - apply elem_of_cons in Hs as [Hs|Hs]; [destruct Hclosed; rewrite Hs; left|].
    apply elem_of_cons in Hs as [Hs|Hs]; [destruct Hclosed; rewrite Hs; right; left|].
    by apply list_elem_of_singleton in Hs.
Qed.

Lemma all_reached c relative :
  scanning c -> open_directories op c = [] -> reached settings exts relative -> is_Some (row_of op c relative).
Proof.
  intros Hc Ho. induction 1 as [|relative names name out child Hr [row Hrow] Hl Hn Hout Hchild]; [by apply sg_root|].
  eapply (sg_done _ Hc); [exact Hrow|done|done| |done|done]. left. by eapply completed_rows.
Qed.

Lemma all_seen c release :
  scanning c -> open_directories op c = [] -> in_tree settings exts release -> saw c (sr_relative_path release).
Proof.
  intros Hc Ho (relative & names & name & out & Hr & Hl & Hn & Hout & Hrel).
  destruct (all_reached c relative Hc Ho Hr) as [row Hrow].
  eapply (sg_done _ Hc); [exact Hrow|done|done| |done|done]. left. by eapply completed_rows.
Qed.

Context (Hnames : names_ok) (Hmax : 0 <= max_depth settings < i64_max).

(** A page that is committed keeps the invariant. *)
Lemma page_scanning c c' relative row fuel page policy indexers now :
  scanning c -> row_of op c relative = Some row -> dd_state row ∈ [lit "queued"; lit "running"] ->
  scan_directory fuel (dr_path settings) relative (depth_of relative) (dd_cursor_name row) settings exts = Some (Ok page) ->
  record_page input settings policy indexers relative (depth_of relative) page now c = (c', Ok tt) ->
  scanning c'.
Proof using All.
  intros Hc Hrow Hopen Hscan Hrec.
  destruct (sg_rows _ Hc _ _ Hrow) as (Hreach & Hdepth & _).
  destruct (reached_depth settings exts relative Hnames ltac:(lia) Hreach) as [Hd0 Hd1].
  apply scan_directory_Ok in Hscan as (names & outs & Hl & Houts & Hrel & Hchildren & Hlast & Hmore).
  assert (0 <= depth_of relative < i64_max) as Hbound by lia.
  destruct (record_page_Ok _ _ _ _ _ _ _ _ _ _ (sg_sources _ Hc) (sg_files _ Hc) Hbound Hrec)
    as (c1 & [R1 R2 R3 R0 R4 R5] & D1 & D2 & D3 & Hrows). cbv zeta in Hrows.
  assert (forall name, name ∈ page_names (dd_cursor_name row) names ->
    exists out, yields relative name out /\ (forall r, r ∈ out.1 -> r ∈ pg_releases page) /\
      (forall child, child ∈ out.2 -> child ∈ pg_children page)) as Hnew.
  { intros name Hn. apply list_elem_of_lookup in Hn as [i Hi].
    destruct (Forall2_lookup_l _ _ _ _ _ Houts Hi) as (out & Ho & Hyield). exists out. split; [done|].
    rewrite Hrel, Hchildren. split; intros x Hx; apply list_elem_of_In, in_concat.
    - exists out.1. split; [apply in_map; by apply list_elem_of_In; eapply list_elem_of_lookup_2|by apply list_elem_of_In].
    - exists out.2. split; [apply in_map; by apply list_elem_of_In; eapply list_elem_of_lookup_2|by apply list_elem_of_In]. }
  assert (forall d old, row_of op c d = Some old -> exists r, row_of op c' d = Some r) as Hmono.
  { intros d old Hd. rewrite Hrows, Hd. case_decide; eauto. }
  assert (forall d, saw c d -> saw c' d) as Hseen by (intros d Hd; rewrite D1; apply R3; by left).
  assert (forall child, child ∈ pg_children page -> is_Some (row_of op c' child)) as Hqueued.
  { intros child Hchild. rewrite Hrows. destruct (row_of op c child); cbv zeta;
      [|rewrite (decide_True (P := child ∈ _)) by done]; case_decide; by eexists. }
  split.
  - rewrite D1. auto using sg_sources.
  - rewrite D2. auto using sg_files.
  - rewrite D3. destruct (sg_policy _ Hc) as (p & q & Hp & Hq). exists p, q. split; [by apply R5|done].
  - destruct (sg_root _ Hc) as [r Hr]. by eapply Hmono.
  - intros d r. rewrite Hrows. destruct (row_of op c d) as [old|] eqn:Hd; cbv zeta.
    + destruct (sg_rows _ Hc _ _ Hd) as (H1' & H2' & H3'). case_decide; [|by intros [= <-]].
      intros [= <-]. unfold after_page. destruct (pg_has_more page); cbn; (split; [done|split; [done|]]); set_solver.
    + case_decide as Hdr; [congruence|]. case_decide as Hch; [|done]. intros [= <-]. cbn [dd_depth dd_state].
      rewrite Hchildren in Hch. apply list_elem_of_In, in_concat in Hch as (l & Hl' & Hin).
      apply in_map_iff in Hl' as (out & <- & Hout). apply list_elem_of_In, list_elem_of_lookup in Hout as [i Hi].
      destruct (Forall2_lookup_r _ _ _ _ _ Houts Hi) as (name & Hname & Hyield). apply list_elem_of_In in Hin.
      assert (name ∈ names) as Hn.
      { eapply page_names_elem, list_elem_of_lookup_2, Hname. }
      split; [by eapply reached_child|]. destruct (outcome_child settings exts _ _ _ _ Hyield Hin) as [-> _].
      destruct (listing_names settings _ _ _ Hnames Hl Hn). rewrite depth_of_child by done. split; [done|left].
  - intros d r names' name out Hd Hl' Hn Hcov Hyield. rewrite Hrows in Hd.
    destruct (row_of op c d) as [old|] eqn:Hold; cbv zeta in Hd.
    + assert (covered old name \/ (d = relative /\ name ∈ page_names (dd_cursor_name row) names)) as [Hco|[-> Hpn]].
      { case_decide as Hdr; [|injection Hd as <-; by left]. subst d. rewrite Hrow in Hold. injection Hold as <-.
        injection Hd as <-. rewrite (listing_unique _ _ _ _ Hl' Hl) in Hn.
        destruct (page_covers row page names name); auto. }
      * destruct (sg_done _ Hc _ _ _ _ _ Hold Hl' Hn Hco Hyield) as [E1 E2]. split; [auto|].
        intros child Hchild. destruct (E2 child Hchild) as [o Ho]. by eapply Hmono.
      * destruct (Hnew name Hpn) as (out' & Hy' & Hr' & Hc').
        rewrite (outcome_unique _ _ _ _ _ _ Hyield Hy'). split; [|auto].
        intros x Hx. rewrite D1. apply R3. right. exists x. auto.
    + exfalso. case_decide as Hdr; [congruence|]. case_decide as Hch; [|done]. injection Hd as <-.
      destruct Hcov as [Hs|Hs]; [done|by apply Hs].
  - intros key r0. rewrite D1. intros Hr0 Hroot Hgen.
    destruct (R0 key r0 Hr0) as [Hd|(r & time & Hr & ->)]; [by eapply (sg_seen _ Hc)|]. exists r, time. split; [|done].
    rewrite Hrel in Hr. apply list_elem_of_In, in_concat in Hr as (l & Hl' & Hin).
    apply in_map_iff in Hl' as (out & <- & Hout). apply list_elem_of_In, list_elem_of_lookup in Hout as [i Hi].
    destruct (Forall2_lookup_r _ _ _ _ _ Houts Hi) as (name & Hname & Hyield). apply list_elem_of_In in Hin.
    exists relative, names, name, out. split; [done|]. split; [done|]. split; [|done].
    eapply page_names_elem, list_elem_of_lookup_2, Hname.
Qed.

(** One activity of the scan: an error leaves everything as it was, a page that is not the
    last keeps the invariant, and a scan that says that it is completed has withdrawn what
    it has not seen from a state where every directory was read. *)
Lemma scan_page_step roots fuel now c c' r :
  roots !! sci_root_name input = Some settings -> scanning c ->
  scan_page fuel roots input now c = (c', r) ->
  match r with
  | Err _ => c' = c
  | Ok step =>
      (sc_done step = false -> scanning c') /\
      (sc_reason step = Some (lit "completed") -> exists c1, scanning c1 /\ open_directories op c1 = [] /\
         data_of c' = (fun row => if unseen (sci_root_name input) (sci_generation input) row
                                  then unavailable now row else row) <$> data_of c1)
  end.
Proof using All.
  intros Hroot Hc. unfold scan_page. rewrite Hroot.
  assert (forall reason failed c0 c1 r1, finish input now reason failed c0 = (c1, r1) ->
    reason <> lit "completed" ->
    match r1 with Err _ => c1 = c | Ok step => (sc_done step = false -> scanning c1) /\
      (sc_reason step = Some (lit "completed") -> exists c2, scanning c2 /\ open_directories op c2 = [] /\
         data_of c1 = (fun row => if unseen (sci_root_name input) (sci_generation input) row
                                  then unavailable now row else row) <$> data_of c2) end) as Hfinish.
  { intros reason failed c0 c1 r1 [= <- <-] Hne. split; [done|]. cbn [sc_reason]. congruence. }
  assert (forall c0 c1 r1, scanning c0 -> open_directories op c0 = [] -> complete input now c0 = (c1, r1) ->
    match r1 with Err _ => c1 = c | Ok step => (sc_done step = false -> scanning c1) /\
      (sc_reason step = Some (lit "completed") -> exists c2, scanning c2 /\ open_directories op c2 = [] /\
         data_of c1 = (fun row => if unseen (sci_root_name input) (sci_generation input) row
                                  then unavailable now row else row) <$> data_of c2) end) as Hcomplete.
  { intros c0 c1 r1 Hc0 Ho [= <- <-]. split; [done|]. intros _. by exists c0. }
  destruct (safe_root (dr_path settings)) as [u|e].
  2: { destruct (match e with ScIo error => is_not_found error | _ => false end); [|intros Hf; by eapply Hfinish].
       unfold mbind, M_bind, withdraw. intros Hf. by eapply Hfinish. }
  unfold mbind at 1, M_bind at 1, read at 1, reads at 1.
  destruct (open_directories op c) as [|[relative row] rest] eqn:Ho; [intros Hf; by eapply Hcomplete|].
  assert ((relative, row) ∈ open_directories op c) as Hin by (rewrite Ho; left).
  apply open_directories_spec in Hin as [Hrow Hopen]. cbn [fst snd] in *.
  destruct (sg_rows _ Hc _ _ Hrow) as (Hreach & Hdepth & _).
  destruct (reached_depth settings exts relative Hnames ltac:(lia) Hreach) as [Hd0 Hd1].
  destruct (sg_policy _ Hc) as (p & policy & Hp & Hdecode & Hexts).
  unfold scan_next. rewrite Hdepth. unfold u64_try_from. rewrite (proj2 (Z.leb_le 0 _) Hd0). cbn [ok_or].
  unfold load_policy, read, mbind, M_bind, liftr, reads. rewrite Hp. cbn [fmap option_fmap option_map ok_or].
  rewrite Hdecode. cbn [ok_or]. rewrite Hexts.
  destruct (scan_directory _ _ _ _ _ _ _) as [[page|e]|] eqn:Hscan; cbn [ok_or].
  3: by intros [= <- <-].
  2: { intros Hf. eapply Hfinish; [exact Hf|]. by destruct e. }
  destruct (commit_page _ c) as [c1 [committed|e]] eqn:Hcommit.
  2: { intros [= <- <-]. unfold commit_page in Hcommit.
       destruct (atomically _ c) as [c2 [[]|[e'|]]] eqn:Ha; [done| |done]. injection Hcommit as <- _.
       by apply atomically_Err in Ha. }
  destruct committed; cbn [negb]; [|intros Hf; by eapply Hfinish].
  unfold commit_page in Hcommit. destruct (atomically _ c) as [c2 [[]|[e'|]]] eqn:Ha; [|done..].
  injection Hcommit as <-. rewrite atomically_Ok in Ha.
  assert (scanning c2) as Hc2
    by (eapply page_scanning; [exact Hc|exact Hrow|exact Hopen|exact Hscan|exact Ha]).
  destruct (open_directories op c2) as [|d ds] eqn:Ho2; [intros Hf; by eapply Hcomplete|].
  by intros [= <- <-].
Qed.
End Run.

(** The scan that [accept] records starts with nothing read. *)
Lemma accept_scanning root_name policy indexer_ids force_nonce now settings c c' accepted :
  db_ok (tasks (library c)) -> sources_ok (data_of c) -> ManifestProofs.files_ok (sporos_source_file (library c)) ->
  Scan.accept root_name policy indexer_ids force_nonce now c = (c', Ok accepted) ->
  let input := scan_input root_name (search_policy_id policy) (as_operation_id accepted) indexer_ids in
  (forall relative, row_of (as_operation_id accepted) c relative = None) ->
  (forall key row, data_of c !! key = Some row -> dt_root_name row = root_name ->
     dt_generation row <> sci_generation input) ->
  scanning input settings (mp_primary_video_extensions (Accept.mt_policy (sp_matching policy))) c'.
Proof using All.
  intros Hdb Hok Hfiles. unfold Scan.accept. rewrite atomically_Ok.
  set (request := encode_scan_request _ _ _). set (op := scan_operation_id _ _ _).
  set (input := scan_input root_name (search_policy_id policy) op indexer_ids).
  rewrite M_bind_Ok. intros (c1 & inserted & Ha & Hr).
  assert (keeps c c1 /\ Ingress.stored (scan_task policy input now) (tasks (library c1))) as [K1 [(p & Hp & _ & _ & Hpay) _ _ _]].
  { unfold on_tasks, on_library in Ha. destruct (exec _ _ (tasks (library c))) as [db [b|e]] eqn:Hx; [|done].
    injection Ha as <- <-. rewrite exec_Ok in Hx.
    destruct (accept_task_keeps_policies (scan_task policy input now) (tasks (library c)) I) as [Hk _].
    destruct (Ingress.accept_in_Ok _ _ _ _ Hdb Hx) as [Hs _]. rewrite Hx in Hk. split; [by apply keeps_tasks|exact Hs]. }
  rewrite M_bind_Ok in Hr. destruct Hr as (c2 & n & Hi & Hr).
  assert (keeps c1 c2) as K2.
  { unfold on_tasks, on_library in Hi. destruct (exec _ _ (tasks (library c1))) as [db [b|e]] eqn:Hx; [|done].
    injection Hi as <- <-. rewrite exec_Ok in Hx. apply keeps_tasks. unfold Completion.insert_operation_ignore in Hx.
    destruct (insert_new _ _ _); injection Hx as <- _; by intros id q. }
  rewrite M_bind_Ok in Hr. destruct Hr as (c3 & [] & [= <-] & Hr).
  rewrite M_bind_Ok in Hr. destruct Hr as (c4 & [] & Hs & Hr).
  assert (keeps (update_tasks (update_row (sci_task_id input) (with_operation_id (Some op))) c2) c4) as K4.
  { unfold with_scan in Hs. destruct (_ !! op); [by injection Hs as <-|]. destruct (_ && _); [|done].
    injection Hs as <-. by split. }
  rewrite M_bind_Ok in Hr. destruct Hr as (c5 & [] & Hq & [= <- <-]).
  assert (keeps c c4) as K.
  { etransitivity; [exact K1|]. etransitivity; [exact K2|]. etransitivity; [|exact K4]. by split. }
  cbn [as_operation_id]. fold input. intros Hnone Hgen.
  unfold queue_directory in Hq. rewrite (ke_directories _ _ K), Hnone in Hq. destruct (_ && _); [|done]. injection Hq as <-.
  assert (forall d row, row_of op (with_directories (<[(op, []) := mkDirectoryRow 0 None (lit "queued")]>
    (sporos_data_scan_directory c)) c4) d = Some row -> d = [] /\ row = mkDirectoryRow 0 None (lit "queued")) as Hrows.
  { intros d row. cbn [sporos_data_scan_directory with_directories].
    intros [[[= <-] <-]|[_ Hd]]%lookup_insert_Some; [done|]. by rewrite Hnone in Hd. }
  split; cbn [library with_directories].
  - by rewrite (ke_sources _ _ K).
  - by rewrite (ke_files _ _ K).
  - exists p, policy. split; [|split; [|done]].
    + apply (ke_policies _ _ K4). apply (ke_policies _ _ K2). exact Hp.
    + rewrite Hpay. apply search_policy_roundtrip.
  - cbn [sporos_data_scan_directory with_directories]. by rewrite lookup_insert_eq.
  - intros d row [-> ->]%Hrows. split; [constructor|]. split; [done|left].
  - intros d row names name out [-> ->]%Hrows _ _ [Hc|Hc]; [done|by destruct Hc].
  - intros key row. rewrite (ke_sources _ _ K). intros Hrow Hroot Hg. by destruct (Hgen key row Hrow Hroot).
Qed.

(** The activities of a scan, as the workflow repeats them: one that fails is tried again, one
    that has more to do is followed by another.  Each has its own time. *)
Inductive activities (roots : gmap str DataRoot) (input : ScanInput) : Catalogue -> Catalogue -> Prop :=
| activities_none c : activities roots input c c
| activities_more c c1 c2 fuel now r :
    scan_page fuel roots input now c = (c1, r) ->
    match r with Ok step => sc_done step = false | Err _ => True end ->
    activities roots input c1 c2 -> activities roots input c c2.

(** C13: A scan leaves available exactly the releases of the directory tree.  When a scan that
    was accepted says, after any number of activities, failed ones included, that it is
    completed, then the available sources of its root are releases of the tree, recorded
    with what the tree says of them, and every release of the tree is available: the pages
    in which the directories are read lose nothing and what is gone is withdrawn.  The tree
    is everything reached from the root through directories that are not releases, down to
    the configured depth. *)
Theorem scan_leaves_the_tree root_name policy indexer_ids force_nonce now roots settings c0 c1 c2 c3 accepted
    fuel time :
  let input := scan_input root_name (search_policy_id policy) (as_operation_id accepted) indexer_ids in
  let exts := mp_primary_video_extensions (Accept.mt_policy (sp_matching policy)) in
  names_ok -> 0 <= max_depth settings < i64_max -> roots !! root_name = Some settings ->
  db_ok (tasks (library c0)) -> sources_ok (data_of c0) -> ManifestProofs.files_ok (sporos_source_file (library c0)) ->
  (forall relative, sporos_data_scan_directory c0 !! (as_operation_id accepted, relative) = None) ->
  (forall key row, data_of c0 !! key = Some row -> dt_root_name row = root_name ->
     dt_generation row <> sci_generation input) ->
  Scan.accept root_name policy indexer_ids force_nonce now c0 = (c1, Ok accepted) ->
  activities roots input c1 c2 ->
  scan_page fuel roots input time c2 = (c3, Ok (mkScanStep true (Some (lit "completed")))) ->
  (forall key row, data_of c3 !! key = Some row -> dt_root_name row = root_name -> dt_available row = true ->
     exists r t, in_tree settings exts r /\ row = release_row root_name (sci_generation input) r t) /\
  (forall r, in_tree settings exts r -> exists row,
     data_of c3 !! data_source_id root_name (sr_relative_path r) = Some row /\
     dt_root_name row = root_name /\ dt_relative_path row = sr_relative_path r /\ dt_available row = true).
Proof using All.
  intros input exts Hnames Hmax Hroot Hdb Hok Hfiles Hnone Hgen Ha Hrun Hlast.
  assert (scanning input settings exts c1) as Hc1 by (by eapply accept_scanning).
  assert (scanning input settings exts c2) as Hc2.
  { clear Hlast Ha. induction Hrun as [|c c' c'' f t r Hp Hr Hrun IH]; [done|]. apply IH.
    pose proof (scan_page_step input settings exts Hnames Hmax roots f t c c' r Hroot Hc1 Hp) as Hstep.
    destruct r as [step|e]; [by apply Hstep|by subst c']. }
  destruct (scan_page_step input settings exts Hnames Hmax roots fuel time c2 c3 _ Hroot Hc2 Hlast) as [_ Hdone].
  destruct (Hdone eq_refl) as (c & Hc & Ho & Hd). split.
  - intros key row Hrow Hr Hav. rewrite Hd, lookup_fmap in Hrow. destruct (data_of c !! key) as [old|] eqn:Hold; [|done].
    injection Hrow as Hrow. destruct (unseen _ _ old) eqn:Hu; [by subst row|]. subst row.
    unfold unseen, of_root in Hu. change (sci_root_name input) with root_name in Hu.
    rewrite Hr, str_eqb_refl in Hu. apply negb_false_iff, Z.eqb_eq in Hu.
    by eapply (sg_seen _ _ _ _ Hc).
  - intros r Hr. destruct (all_seen input settings exts c r Hc Ho Hr) as (row & Hrow & E1 & E2 & E3 & E4).
    exists row. rewrite Hd, lookup_fmap. change (sci_root_name input) with root_name in *. rewrite Hrow. cbn.
    unfold unseen. by rewrite E3, Z.eqb_refl, andb_false_r.
Qed.
End Pages.

(** ** Example: a root with a file, a release in a directory, and a source that is gone *)

Module Sample.
#[local] Existing Instance Torznab.Sample.xml.
#[local] Existing Instance Prowlarr.Sample.http.
Import Codec.

#[local] Instance scan_codec : ScanCodec := {|
  encode_scan_input i := sci_operation_id i; encode_scan_request root ids force := Codec.put (root, ids, force) |}.

Definition stat (kind : FileType) (len ino : Z) : Stat := mkStat kind len 1 ino 100.
Definition entries (path : str) : option (list str) :=
  if str_eqb path (lit "/m") then Some [lit "tv"; lit "Movie.2020.mkv"; lit "notes.txt"] else
  if str_eqb path (lit "/m/tv") then Some [lit "Show.S01"] else
  if str_eqb path (lit "/m/tv/Show.S01") then Some [lit "e2.mkv"; lit "e1.mkv"] else None.
Definition stats (path : str) : option Stat :=
  if str_eqb path (lit "/") then Some (stat Directory 0 1) else
  if str_eqb path (lit "/m") then Some (stat Directory 0 2) else
  if str_eqb path (lit "/m/tv") then Some (stat Directory 0 3) else
  if str_eqb path (lit "/m/tv/Show.S01") then Some (stat Directory 0 4) else
  if str_eqb path (lit "/m/Movie.2020.mkv") then Some (stat Regular 5 5) else
  if str_eqb path (lit "/m/notes.txt") then Some (stat Regular 9 6) else
  if str_eqb path (lit "/m/tv/Show.S01/e1.mkv") then Some (stat Regular 6 7) else
  if str_eqb path (lit "/m/tv/Show.S01/e2.mkv") then Some (stat Regular 7 8) else None.
#[local] Instance files : DataFiles := {|
  IoError := (); is_not_found _ := true;
  symlink_metadata path := ok_or (stats path) ();
  read_dir path := map Ok <$> ok_or (entries path) () |}.

Definition settings : DataRoot := mkDataRoot (lit "/m") 2 100 100.
Definition roots : gmap str DataRoot := {[ lit "media" := settings ]}.
(** A source that an earlier scan has seen, with generation 1 *)
Definition gone : DataSourceRow :=
  mkDataSourceRow (lit "media") (lit "Old.mkv") (lit "file") (lit "Old.mkv") 1 None None true 1 0.
Definition c0 : Catalogue :=
  empty_catalogue (with_sources {[ key_of gone := gone ]}
    (mkLibrary empty_db ∅ ∅ ∅ ∅ ∅ (mkInventoryRow None 0 None None None None None None) ∅ ∅ ∅ ∅ ∅ ∅ ∅ ∅)).

Definition started := Scan.accept (lit "media") policy [] None 10 c0.
Definition accepted : AcceptedScan :=
  match started.2 with Ok a => a | Err _ => mkAcceptedScan [] [] true end.
Definition input : ScanInput := scan_input (lit "media") (search_policy_id policy) (as_operation_id accepted) [].
Definition page1 := scan_page (H := ascii_unicode) 10 roots input 20 started.1.
Definition page2 := scan_page (H := ascii_unicode) 10 roots input 30 page1.1.

Lemma sample_names_ok : names_ok.
Proof.
  intros path es name. cbn. unfold entries. intros Hr Hin.
  assert (exists names, es = map Ok names /\ Forall (fun n : str => n <> [] /\ 47 ∉ n) names) as (names & -> & Hn).
  { destruct (str_eqb path (lit "/m")); [exists [lit "tv"; lit "Movie.2020.mkv"; lit "notes.txt"]|
      destruct (str_eqb path (lit "/m/tv")); [exists [lit "Show.S01"]|
      destruct (str_eqb path (lit "/m/tv/Show.S01")); [exists [lit "e2.mkv"; lit "e1.mkv"]|discriminate Hr]]];
      injection Hr as <-; (split; [reflexivity|]); apply (bool_decide_eq_true_1 _); vm_compute; reflexivity. }
  change (map Ok names) with (Ok (E := IoError) <$> names) in Hin.
  apply list_elem_of_fmap in Hin as (n & [= ->] & Hin). by eapply Forall_forall in Hn.
Qed.

Lemma c0_table key row : sporos_data_source (library c0) !! key = Some row -> key = key_of gone /\ row = gone.
Proof.
  change (sporos_data_source (library c0)) with ({[ key_of gone := gone ]} : gmap str DataSourceRow).
  rewrite lookup_singleton_Some. by intros [<- <-].
Qed.
Lemma c0_sources : sources_ok (sporos_data_source (library c0)).
Proof. intros key row [-> ->]%c0_table. reflexivity. Qed.
Lemma c0_files : ManifestProofs.files_ok (sporos_source_file (library c0)).
Proof. by split. Qed.

(** Two pages are enough; the source that is gone is withdrawn. *)
Lemma scan_leaves_the_tree_witness :
  let exts := mp_primary_video_extensions default_policy in
  (forall key row, sporos_data_source (library page2.1) !! key = Some row -> dt_root_name row = lit "media" ->
     dt_available row = true ->
     exists r t, in_tree settings exts r /\ row = release_row (lit "media") (sci_generation input) r t) /\
  (forall r, in_tree settings exts r -> exists row,
     sporos_data_source (library page2.1) !! data_source_id (lit "media") (sr_relative_path r) = Some row /\
     dt_root_name row = lit "media" /\ dt_relative_path row = sr_relative_path r /\ dt_available row = true) /\
  map (fun p : str * DataSourceRow => (dt_relative_path p.2, dt_available p.2))
    (map_to_list (sporos_data_source (library page2.1)))
  = [(lit "Movie.2020.mkv", true); (lit "Old.mkv", false); (lit "tv/Show.S01", true)].
Proof.
  intros exts.
  assert (Scan.accept (lit "media") policy [] None 10 c0 = (started.1, Ok accepted)) as Ha.
  { change (started = (started.1, Ok accepted)). assert (started.2 = Ok accepted) as E by (vm_compute; reflexivity).
    rewrite <- E. apply surjective_pairing. }
  assert (scan_page (H := ascii_unicode) 10 roots input 20 started.1 = (page1.1, Ok (mkScanStep false None))) as H1'.
  { change (page1 = (page1.1, Ok (mkScanStep false None))).
    assert (page1.2 = Ok (mkScanStep false None)) as E by (vm_compute; reflexivity).
    rewrite <- E. apply surjective_pairing. }
  assert (scan_page (H := ascii_unicode) 10 roots input 30 page1.1
    = (page2.1, Ok (mkScanStep true (Some (lit "completed"))))) as H2'.
  { change (page2 = (page2.1, Ok (mkScanStep true (Some (lit "completed"))))).
    assert (page2.2 = Ok (mkScanStep true (Some (lit "completed")))) as E by (vm_compute; reflexivity).
    rewrite <- E. apply surjective_pairing. }
  assert (activities (H := ascii_unicode) roots input started.1 page1.1) as Hrun
    by exact (activities_more _ _ _ _ _ _ _ _ H1' eq_refl (activities_none _ _ _)).
  assert (0 <= max_depth settings < i64_max) as Hmax by (split; [discriminate|reflexivity]).
  assert (roots !! lit "media" = Some settings) as Hroot by apply lookup_singleton_eq.
  assert (forall relative, sporos_data_scan_directory c0 !! (as_operation_id accepted, relative) = None) as Hnone
    by (intros relative; apply lookup_empty).
  assert (forall key row, sporos_data_source (library c0) !! key = Some row -> dt_root_name row = lit "media" ->
    dt_generation row <> sci_generation input) as Hgen.
  { intros key row [_ ->]%c0_table _. vm_compute. discriminate. }
  destruct (scan_leaves_the_tree (H := ascii_unicode) (lit "media") policy [] None 10 roots settings
              c0 started.1 page1.1 page2.1 accepted 10 30 sample_names_ok Hmax Hroot db_ok_empty c0_sources c0_files
              Hnone Hgen Ha Hrun H2') as [Honly Hall].
  split; [exact Honly|]. split; [exact Hall|]. vm_compute. reflexivity.
Defined.

Definition show : ScannedRelease :=
  mkScannedRelease (lit "tv/Show.S01") (lit "directory") (lit "Show.S01") 13 1 4 100
    [mkScannedFile (lit "tv/Show.S01/e1.mkv") (lit "e1.mkv") (lit "/m/tv/Show.S01/e1.mkv") 6 true 1 7 100;
     mkScannedFile (lit "tv/Show.S01/e2.mkv") (lit "e2.mkv") (lit "/m/tv/Show.S01/e2.mkv") 7 true 1 8 100].
Definition show_id : str := data_source_id (lit "media") (lit "tv/Show.S01").
Definition recorded_show := persist_release (H := ascii_unicode) (lit "media") 7 show 20 (library c0).

Lemma recorded_release_is_read_witness :
  sporos_data_source recorded_show.1 !! show_id = Some (release_row (H := ascii_unicode) (lit "media") 7 show 20) /\
  map snd (Decision.manifest_rows recorded_show.1 show_id 7) = imap (file_row_of show_id 7) (sr_files show) /\
  map snd (Decision.manifest_rows recorded_show.1 show_id 7)
  = [mkSourceFileRow show_id 7 0 (lit "e1.mkv") (Some (lit "/m/tv/Show.S01/e1.mkv")) 6 (Some 1) (Some 7) true;
     mkSourceFileRow show_id 7 1 (lit "e2.mkv") (Some (lit "/m/tv/Show.S01/e2.mkv")) 7 (Some 1) (Some 8) true].
Proof.
  assert (persist_release (H := ascii_unicode) (lit "media") 7 show 20 (library c0) = (recorded_show.1, Ok show_id)) as Hp.
  { change (recorded_show = (recorded_show.1, Ok show_id)).
    assert (recorded_show.2 = Ok show_id) as E by (vm_compute; reflexivity). rewrite <- E. apply surjective_pairing. }
  destruct (recorded_release_is_read (H := ascii_unicode) (lit "media") 7 show 20 (library c0) recorded_show.1 show_id
              c0_sources c0_files Hp) as (Hrow & Hfiles & _).
  split; [exact Hrow|]. split; [exact Hfiles|]. vm_compute. reflexivity.
Defined.
End Sample.
