(* ===== verification/Config.v ===== *)
(** The configuration (config.rs): the defaults, the file and the environment become one
    tree of TOML values, which is read, checked and turned into the settings of the parts.

    TOML, serde and URLs are third-party: [Toml] reads and writes trees, [Http] and
    [BaseUrl] read URLs.  A tree is a table or something that has no fields.  [usize] and
    [u64] are [Z], a [Duration] is its nanoseconds, and a socket address its text.  The
    checks of paths are in Paths.v, the resume policy is that of Pieces.v. *)

From S2P Require Import Prelude Text Float Model.
From S2P Require Duroxide Template Hardlink Paths Pieces Candidate Accept DataScan Prowlarr.
From stdpp Require Import strings.
Local Open Scope Z_scope.

Definition DEFAULT_PATH : str := lit "/config/sporos.toml".
Definition MAX_SECRET_BYTES : Z := 64 * 1024.

(** ** Durations *)

Definition NANOS : Z := 1000000000.
Definition from_secs (secs : Z) : Z := secs * NANOS.
Definition from_millis (millis : Z) : Z := millis * 1000000.

Definition format_duration (value : Z) : str :=
  if value mod NANOS =? 0 then Duroxide.decimal (value / NANOS) ++ lit "s"
  else Duroxide.decimal (value / 1000000) ++ lit "ms".

(** [value.find(|character| !character.is_ascii_digit())] and [split_at]; the continuation
    bytes of a character are no digits. *)
Fixpoint split_digits (value : str) : option (str * str) :=
  match value with
  | [] => None
  | b :: rest =>
      if is_ascii_digit b then '(number, unit) ← split_digits rest; Some (b :: number, unit)
      else Some ([], value)
  end.

Definition checked_mul_u64 (a b : Z) : option Z := if a * b <=? u64_max then Some (a * b) else None.

Definition parse_duration (value : str) : result string Z :=
  '(number, unit) ← ok_or (split_digits value) "duration requires a unit"%string;
  number ← ok_or (parse_u64 number) "invalid duration"%string;
  let scaled seconds := ok_or (checked_mul_u64 number seconds) "duration overflow"%string in
  if str_eqb unit (lit "ms") then Ok (from_millis number) else
  seconds ← (if str_eqb unit (lit "s") then Ok number else
             if str_eqb unit (lit "m") then scaled 60 else
             if str_eqb unit (lit "h") then scaled (60 * 60) else
             if str_eqb unit (lit "d") then scaled (24 * 60 * 60) else
             Err "unsupported duration unit"%string);
  Ok (from_secs seconds).

(** ** Trees of values *)

(** [toml::Value]: the values that are not tables are those of the third-party type. *)
Class Scalars := { Scalar : Type; text : str -> Scalar }.

Inductive Value `{Scalars} := Table (fields : gmap str Value) | Leaf (value : Scalar).

Section Values.
Context `{Scalars}.

(** The loop over the entries of the overlay meets each key once. *)
Fixpoint merge (base overlay : Value) : Value :=
  match base, overlay with
  | Table base, Table overlay =>
      Table (union_with (fun existing value => Some (merge existing value)) base overlay)
  | _, overlay => overlay
  end.

(** [None] is the error of an unknown key; [path] is not empty. *)
Fixpoint set_path (root : Value) (path : list str) (value : Value) : option Value :=
  match root, path with
  | Table fields, [leaf] => Some (Table (<[leaf := value]> fields))
  | Table fields, segment :: path =>
      current ← set_path (default (Table ∅) (fields !! segment)) path value;
      Some (Table (<[segment := current]> fields))
  | _, _ => None
  end.
End Values.

(** [path.split("__")] *)
Fixpoint split_double (s : str) : list str :=
  match s with
  | [] => [[]]
  | [c] => [[c]]
  | c :: (d :: rest) as tail =>
      if (c =? 95) && (d =? 95) then [] :: split_double rest else
      match split_double tail with
      | [] => [[c]]
      | word :: words => (c :: word) :: words
      end
  end.

(** ** The settings *)

Inductive ArrKind := Sonarr | Radarr.
Inductive LogFormat := LogJson | LogPretty.

Record Server := mkServer {
  sv_bind : str; sv_request_timeout : Z; sv_shutdown_grace : Z;
  sv_autobrr_body_limit_bytes : Z; sv_admin_body_limit_bytes : Z }.
Record Runtime := mkRuntime {
  rt_data_dir : str; rt_database_path : str; rt_lock_path : str; rt_lock_wait : Z }.
Record Limits := mkLimits {
  max_http_requests : Z; max_candidate_workflows : Z; max_search_workflows : Z;
  max_indexer_requests : Z; max_filesystem_operations : Z; max_uploads : Z;
  outbox_batch_size : Z; internal_channel_capacity : Z }.
Record Logging := mkLogging { lg_format : LogFormat; lg_level : str }.
Record Metrics := mkMetrics { mx_enabled : bool }.

Definition default_server : Server :=
  mkServer (lit "0.0.0.0:8080") (from_secs 30) (from_secs 30) (12 * 1024 * 1024) (1024 * 1024).
Definition default_runtime : Runtime :=
  mkRuntime (lit "/data") (lit "/data/sporos.db") (lit "/data/sporos.lock") 0.
Definition default_limits : Limits := mkLimits 16 8 4 4 4 4 32 128.
Definition default_logging : Logging := mkLogging LogJson (lit "info").
Definition default_metrics : Metrics := mkMetrics true.

(** ** The tree as it is read *)

Record RawQbittorrent := mkRawQbittorrent {
  rq_url : str; rq_api_key : option str; rq_request_timeout : Z; rq_sync_interval : Z;
  rq_full_reconcile_interval : Z; rq_inventory_batch_size : Z; rq_database_batch_size : Z;
  rq_inventory_stale_after : Z }.
Record RawProwlarr := mkRawProwlarr {
  rp_url : str; rp_api_key : option str; rp_request_timeout : Z; rp_refresh_interval : Z;
  rp_include_tags : list str; rp_exclude_tags : list str; rp_require_proxy_downloads : bool;
  rp_max_results_per_query : Z }.
Record ServiceConfig `{Scalars} := mkServiceConfig {
  sc_url : str; sc_api_key : option str; sc_request_timeout : Z; sc_options : gmap str Value }.
Record ArrConfig `{Scalars} := mkArrConfig {
  ac_sonarr : gmap str ServiceConfig; ac_radarr : gmap str ServiceConfig }.
Record PathsConfig := mkPathsConfig { pc_link_root : option str; pc_rewrite : list Paths.PathRewrite }.
Record MatchingConfig := mkMatchingConfig {
  mc_mode : str; mc_season_from_episodes : bool; mc_preflight_size_tolerance : spec_float;
  mc_max_torrent_bytes : Z; mc_max_files_per_torrent : Z; mc_max_path_bytes : Z;
  mc_max_assignment_files : Z; mc_max_candidate_edges : Z; mc_max_assignment_component_files : Z;
  mc_max_assignment_operations : Z; mc_pending_source_timeout : Z;
  mc_video_extensions : list str; mc_optional_extensions : list str }.
Record ResumeConfig := mkResumeConfig {
  rc_mode : str; rc_combine : str; rc_max_missing_bytes : option Z; rc_min_present_ratio : option spec_float }.
Record InjectionConfig := mkInjectionConfig {
  ic_dry_run : bool; ic_category_template : str; ic_tag_templates : list str;
  ic_inherit_source_category : bool; ic_inherit_source_tags : bool; ic_resume : ResumeConfig }.

Record RawConfig `{Scalars} := mkRawConfig {
  rw_server : Server; rw_auth_api_key : option str; rw_runtime : Runtime; rw_limits : Limits;
  rw_logging : Logging; rw_metrics : Metrics; rw_qbittorrent : option RawQbittorrent;
  rw_prowlarr : option RawProwlarr; rw_arr : ArrConfig; rw_paths : PathsConfig;
  rw_sources : Candidate.SourceFilters; rw_matching : MatchingConfig; rw_injection : InjectionConfig;
  rw_data_roots : gmap str DataScan.DataRoot }.

Definition default_filters : Candidate.SourceFilters :=
  Candidate.mkSourceFilters [] [] [] [lit "no-sporos"] true.
(** 0.02, the nearest binary64 *)
Definition two_percent : spec_float := S754_finite false 5764607523034235 (-58).
Definition default_matching : MatchingConfig :=
  mkMatchingConfig (lit "partial") true two_percent (8 * 1024 * 1024) 100000 4096 4096 100000 128 50000000
    (from_secs (7 * 24 * 60 * 60)) [] [].
Definition default_resume : ResumeConfig := mkResumeConfig (lit "complete_only") (lit "and") None None.
Definition default_injection : InjectionConfig :=
  mkInjectionConfig false (lit "sporos") [] false false default_resume.
Definition default_paths : PathsConfig := mkPathsConfig (Some (lit "/data/links")) [].
(** What the fields of a table of qBittorrent and Prowlarr that are not given become *)
Definition default_qbittorrent : RawQbittorrent :=
  mkRawQbittorrent [] None (from_secs 30) (from_secs 10) (from_secs (6 * 60 * 60)) 500 200 (from_secs (5 * 60)).
Definition default_prowlarr : RawProwlarr :=
  mkRawProwlarr [] None (from_secs 30) (from_secs (5 * 60)) [] [] true 100.
Definition default_raw `{Scalars} : RawConfig :=
  mkRawConfig _ default_server None default_runtime default_limits default_logging default_metrics None None
    (mkArrConfig _ ∅ ∅) default_paths default_filters default_matching default_injection ∅.

(** ** The settings as they are used *)

(** The parts of a URL that [Http] does not have *)
Class BaseUrl `{Prowlarr.Http} := {
  cannot_be_a_base : Prowlarr.Url -> bool; username : Prowlarr.Url -> str; password : Prowlarr.Url -> option str;
  query : Prowlarr.Url -> option str; fragment : Prowlarr.Url -> option str;
  set_url_path : Prowlarr.Url -> str -> Prowlarr.Url }.

(** What url says of adding the last slash: nothing else changes. *)
Class BaseUrlLaws `{BaseUrl} : Prop := {
  set_path_path : forall url, Prowlarr.url_path (set_url_path url (Prowlarr.url_path url ++ lit "/"))
                         = Prowlarr.url_path url ++ lit "/";
  set_path_rest : forall url path, let url' := set_url_path url path in
    Prowlarr.scheme url' = Prowlarr.scheme url /\ cannot_be_a_base url' = cannot_be_a_base url /\
    username url' = username url /\ password url' = password url /\ query url' = query url /\
    fragment url' = fragment url }.

Record ArrInstance `{Prowlarr.Http} := mkArrInstance {
  ai_kind : ArrKind; ai_name : str; ai_url : Prowlarr.Url; ai_api_key : str; ai_request_timeout : Z }.
Record Qbittorrent `{Prowlarr.Http} := mkQbittorrent {
  qb_url : Prowlarr.Url; qb_api_key : option str; qb_request_timeout : Z; qb_sync_interval : Z;
  qb_full_reconcile_interval : Z; qb_inventory_batch_size : Z; qb_database_batch_size : Z;
  qb_inventory_stale_after : Z }.
(** [config::Prowlarr] *)
Record ProwlarrSettings `{Prowlarr.Http} := mkProwlarrSettings {
  pr_url : Prowlarr.Url; pr_api_key : str; pr_request_timeout : Z; pr_refresh_interval : Z;
  pr_include_tags : list str; pr_exclude_tags : list str; pr_require_proxy_downloads : bool;
  pr_max_results_per_query : Z }.

Record Config `{Prowlarr.Http} := mkConfig {
  cf_server : Server; cf_auth_api_key : option str; cf_runtime : Runtime; cf_limits : Limits;
  cf_logging : Logging; cf_metrics : Metrics; cf_qbittorrent : option Qbittorrent;
  cf_prowlarr : option ProwlarrSettings; cf_arr : list ArrInstance; cf_sources : Candidate.SourceFilters;
  cf_matching : Accept.Matching; cf_injection : Candidate.InjectionConfig; cf_paths : Paths.Paths;
  cf_data_roots : gmap str DataScan.DataRoot }.

(** ** Errors *)

Inductive IoFailure := NotFound | OtherIo.
#[export] Instance IoFailure_eq_dec : EqDecision IoFailure.
Proof. solve_decision. Defined.

(** Errors of serde are opaque, [InvalidToml] is [Toml], and [Panicked] stands for the two
    [expect]s of [load]. *)
Inductive ConfigError :=
| ReadConfig (path : str) (source : IoFailure)
| InvalidToml
| Serialize
| InvalidEnvironmentKey (key : str)
| UnknownEnvironmentKey (key : str)
| InvalidEnvironmentValue (key : str)
| ZeroLimit (field : string)
| LimitTooLarge (field : string) (maximum : Z)
| QbittorrentUrl
| ProwlarrUrl
| MatchingMode
| PreflightTolerance
| MatcherBudget
| FileExtension
| InvalidPaths (e : Paths.ConfigError)
| DataRootName (name : str)
| DataRootPath (name : str)
| DataRootLimits (name : str)
| TemplateLimit
| TemplateSyntax
| ResumeMode
| ThresholdCombination
| PresentRatio
| EmptyThreshold
| ArrUrl (kind name : str)
| TooManyArrInstances
| ArrName (kind name : str)
| MissingSecret (field : str)
| EmptySecret (field : str)
| SecretTooLarge (field : str)
| Panicked.

(** ** Checks *)

Definition first_Err {E A} (check : A -> result E ()) (l : list A) : result E () :=
  try_fold (fun _ a => check a) l tt.

Definition secret (field value : str) : result ConfigError str :=
  if bool_decide (value = []) then Err (EmptySecret field) else
  if MAX_SECRET_BYTES <? Z.of_nat (length value) then Err (SecretTooLarge field) else Ok value.
Definition optional_secret (field : str) (value : option str) : result ConfigError (option str) :=
  match value with None => Ok None | Some value => value ← secret field value; Ok (Some value) end.
Definition required_secret (field : str) (value : option str) : result ConfigError str :=
  value ← optional_secret field value; ok_or value (MissingSecret field).

(** The names of data roots and of instances *)
Definition safe_name (name : str) : bool :=
  negb (bool_decide (name = [])) && (Z.of_nat (length name) <=? 64)
  && forallb (fun byte => is_ascii_alphanumeric byte || (byte =? 45) || (byte =? 95)) name.

(** The iteration of a [BTreeMap] *)
Definition entries {A} (m : gmap str A) : list (str * A) :=
  sort_by (fun a b => str_leb a.1 b.1) (map_to_list m).

Definition within (low high value : Z) : bool := (low <=? value) && (value <=? high).

Definition validate_data_root (entry : str * DataScan.DataRoot) : result ConfigError () :=
  let '(name, root) := entry in
  _ ← bail_if (negb (safe_name name)) (DataRootName name);
  _ ← bail_if (negb (Hardlink.is_absolute (Hardlink.components (DataScan.dr_path root)))) (DataRootPath name);
  bail_if ((16 <? DataScan.max_depth root) || negb (within 1 1000000 (DataScan.max_releases root))
           || negb (within 1 100000 (DataScan.max_files_per_release root))) (DataRootLimits name).
Definition validate_data_roots (roots : gmap str DataScan.DataRoot) : result ConfigError () :=
  first_Err validate_data_root (entries roots).

(** [(ratio * 1_000_000.0).round() as u32] *)
Definition ratio_ppm (ratio : spec_float) : Z := Z.max 0 (Z.min u32_max (millionths ratio)).

Definition resume_policy (config : ResumeConfig) : result ConfigError Pieces.ResumePolicy :=
  combine ← (if str_eqb (rc_combine config) (lit "and") then Ok Pieces.And else
             if str_eqb (rc_combine config) (lit "or") then Ok Pieces.Or else Err ThresholdCombination);
  ratio ← (match rc_min_present_ratio config with
           | None => Ok None
           | Some ratio => if is_finite ratio && unit_contains ratio then Ok (Some (ratio_ppm ratio))
                           else Err PresentRatio
           end);
  let mode := rc_mode config in
  if str_eqb mode (lit "never") then Ok Pieces.Never else
  if str_eqb mode (lit "complete_only") then Ok Pieces.CompleteOnly else
  if str_eqb mode (lit "always") then Ok Pieces.Always else
  if str_eqb mode (lit "threshold")
  then match rc_max_missing_bytes config, ratio with
       | None, None => Err EmptyThreshold
       | missing, ratio => Ok (Pieces.Threshold missing ratio combine)
       end
  else Err ResumeMode.

Definition too_long (template : str) : bool := 256 <? Z.of_nat (length template).

Definition injection (config : InjectionConfig) : result ConfigError Candidate.InjectionConfig :=
  let category := ic_category_template config in
  let tags := ic_tag_templates config in
  _ ← bail_if (too_long category || (64 <? Z.of_nat (length tags)) || existsb too_long tags) TemplateLimit;
  _ ← bail_if (negb (is_ok (Template.validate category))
               || existsb (fun template => negb (is_ok (Template.validate template))) tags) TemplateSyntax;
  resume ← resume_policy (ic_resume config);
  Ok (Candidate.mkInjectionConfig (ic_dry_run config) category tags (ic_inherit_source_category config)
        (ic_inherit_source_tags config) resume).

Definition normalize_extension (normalized : list str) (value : str) : result ConfigError (list str) :=
  let value := match value with b :: rest => if b =? 46 then rest else value | [] => value end in
  let value := to_ascii_lowercase value in
  _ ← bail_if (bool_decide (value = []) || (16 <? Z.of_nat (length value))
               || negb (forallb (fun byte => is_ascii_alphanumeric byte || (byte =? 45)) value)) FileExtension;
  Ok (if str_mem value normalized then normalized else normalized ++ [value]).
Definition normalized_extensions (values : list str) : result ConfigError (list str) :=
  try_fold normalize_extension values [].
Definition extensions_or (defaults values : list str) : result ConfigError (list str) :=
  if bool_decide (values = []) then Ok defaults else normalized_extensions values.

Definition matcher_budget (config : MatchingConfig) : bool :=
  (mc_max_assignment_files config =? 0) || (100000 <? mc_max_assignment_files config)
  || (mc_max_candidate_edges config =? 0) || (1000000 <? mc_max_candidate_edges config)
  || (mc_max_assignment_component_files config =? 0) || (1024 <? mc_max_assignment_component_files config)
  || (mc_max_assignment_files config <? mc_max_assignment_component_files config)
  || (mc_max_assignment_operations config =? 0) || (1000000000 <? mc_max_assignment_operations config).

Definition matching (config : MatchingConfig) : result ConfigError Accept.Matching :=
  let mode := mc_mode config in
  '(flexible, partial) ← (if str_eqb mode (lit "strict") then Ok (false, false) else
                          if str_eqb mode (lit "flexible") then Ok (true, false) else
                          if str_eqb mode (lit "partial") then Ok (true, true) else Err MatchingMode);
  _ ← bail_if (negb (unit_contains (mc_preflight_size_tolerance config))) PreflightTolerance;
  _ ← bail_if (matcher_budget config) MatcherBudget;
  video ← extensions_or (mp_primary_video_extensions default_policy) (mc_video_extensions config);
  optional ← extensions_or (mp_optional_extensions default_policy) (mc_optional_extensions config);
  Ok (Accept.mkMatching
        (mkMatchingPolicy flexible partial (mc_season_from_episodes config) video optional
           (mp_optional_path_components default_policy) (mc_max_assignment_files config)
           (mc_max_candidate_edges config) (mc_max_assignment_component_files config)
           (mc_max_assignment_operations config))
        (mc_preflight_size_tolerance config) (mc_max_torrent_bytes config) (mc_max_files_per_torrent config)
        (mc_max_path_bytes config) (mc_pending_source_timeout config)).

Definition not_zero (entry : string * Z) : result ConfigError () := bail_if (entry.2 =? 0) (ZeroLimit entry.1).
Definition at_most (entry : string * Z * Z) : result ConfigError () :=
  let '(field, value, maximum) := entry in bail_if (maximum <? value) (LimitTooLarge field maximum).

Section Load.
Context `{Scalars} `{Prowlarr.Http} `{!BaseUrl}.

Definition validate_qbittorrent (config : RawQbittorrent) : result ConfigError () :=
  _ ← first_Err at_most
        [("qbittorrent.inventory_batch_size"%string, rq_inventory_batch_size config, 500);
         ("qbittorrent.database_batch_size"%string, rq_database_batch_size config, 500)];
  first_Err not_zero
    [("qbittorrent.request_timeout"%string, rq_request_timeout config);
     ("qbittorrent.sync_interval"%string, rq_sync_interval config);
     ("qbittorrent.full_reconcile_interval"%string, rq_full_reconcile_interval config);
     ("qbittorrent.inventory_stale_after"%string, rq_inventory_stale_after config)].

Definition validate_prowlarr (config : RawProwlarr) : result ConfigError () :=
  _ ← not_zero ("prowlarr.max_results_per_query"%string, rp_max_results_per_query config);
  _ ← at_most ("prowlarr.max_results_per_query"%string, rp_max_results_per_query config, 1000);
  first_Err not_zero
    [("prowlarr.request_timeout"%string, rp_request_timeout config);
     ("prowlarr.refresh_interval"%string, rp_refresh_interval config)].

Definition validate_positive (config : RawConfig) : result ConfigError () :=
  let limits := rw_limits config in
  let matching := rw_matching config in
  let values :=
    [("server.autobrr_body_limit_bytes"%string, sv_autobrr_body_limit_bytes (rw_server config));
     ("server.admin_body_limit_bytes"%string, sv_admin_body_limit_bytes (rw_server config));
     ("limits.max_http_requests"%string, max_http_requests limits);
     ("limits.max_candidate_workflows"%string, max_candidate_workflows limits);
     ("limits.max_search_workflows"%string, max_search_workflows limits);
     ("limits.max_indexer_requests"%string, max_indexer_requests limits);
     ("limits.max_filesystem_operations"%string, max_filesystem_operations limits);
     ("limits.max_uploads"%string, max_uploads limits);
     ("limits.outbox_batch_size"%string, outbox_batch_size limits);
     ("limits.internal_channel_capacity"%string, internal_channel_capacity limits);
     ("matching.max_torrent_bytes"%string, mc_max_torrent_bytes matching);
     ("matching.max_files_per_torrent"%string, mc_max_files_per_torrent matching);
     ("matching.max_path_bytes"%string, mc_max_path_bytes matching)]
    ++ match rw_qbittorrent config with
       | None => []
       | Some qbittorrent =>
           [("qbittorrent.inventory_batch_size"%string, rq_inventory_batch_size qbittorrent);
            ("qbittorrent.database_batch_size"%string, rq_database_batch_size qbittorrent)]
       end in
  _ ← (match rw_qbittorrent config with Some qbittorrent => validate_qbittorrent qbittorrent | None => Ok tt end);
  _ ← (match rw_prowlarr config with Some prowlarr => validate_prowlarr prowlarr | None => Ok tt end);
  _ ← first_Err at_most
        [("matching.max_torrent_bytes"%string, mc_max_torrent_bytes matching, 8 * 1024 * 1024);
         ("matching.max_files_per_torrent"%string, mc_max_files_per_torrent matching, 1000000);
         ("matching.max_path_bytes"%string, mc_max_path_bytes matching, 16384)];
  first_Err not_zero values.

(** What [service_url] and the clients of qBittorrent, Sonarr and Radarr ask of a base URL *)
Definition http_base (url : Prowlarr.Url) : bool :=
  str_mem (Prowlarr.scheme url) [lit "http"; lit "https"] && negb (cannot_be_a_base url)
  && bool_decide (username url = []) && bool_decide (password url = None)
  && bool_decide (query url = None) && bool_decide (fragment url = None).
Definition with_slash (url : Prowlarr.Url) : Prowlarr.Url :=
  if bool_decide (last (Prowlarr.url_path url) = Some 47) then url
  else set_url_path url (Prowlarr.url_path url ++ lit "/").
Definition service_url (value : str) : option Prowlarr.Url :=
  url ← Prowlarr.parse_url value; if http_base url then Some (with_slash url) else None.
End Load.

(** ** Loading *)

(** [toml] and serde on the whole configuration: serde calls [duration::serialize] and
    [duration::deserialize] for the durations. *)
Class Toml `{Scalars} := {
  from_str : str -> option (gmap str Value);
  try_from : (Z -> str) -> RawConfig -> option Value;
  try_into : (str -> result string Z) -> Value -> option RawConfig }.

Section LoadTree.
Context `{Toml}.

(** The path of the key of an environment variable, if it is one of Sporos *)
Definition PREFIX : str := lit "SPOROS__".
Definition environment_path (key : str) : option (list str) :=
  if starts_with PREFIX key
  then Some (map to_ascii_lowercase (split_double (drop (length PREFIX) key))) else None.

Definition is_api_key (path : list str) : bool := bool_decide (last path = Some (lit "api_key")).

Definition environment_value (key raw : str) (path : list str) : result ConfigError Value :=
  if is_api_key path then Ok (Leaf (text raw)) else
  table ← ok_or (from_str (lit "value = " ++ raw)) (InvalidEnvironmentValue key);
  ok_or (table !! lit "value") Panicked.

Definition apply_variable (value : Value) (variable : str * str) : result ConfigError Value :=
  let '(key, raw) := variable in
  match environment_path key with
  | None => Ok value
  | Some path =>
      if existsb (fun segment => bool_decide (segment = [])) path then Err (InvalidEnvironmentKey key) else
      parsed ← environment_value key raw path;
      ok_or (set_path value path parsed) (UnknownEnvironmentKey key)
  end.

(** The defaults, over them the file, over both the environment *)
Definition load_tree (contents : result IoFailure str) (path : str) (required : bool)
    (environment : list (str * str)) : result ConfigError Value :=
  value ← ok_or (try_from format_duration default_raw) Serialize;
  value ← (match contents with
           | Ok contents => table ← ok_or (from_str contents) InvalidToml; Ok (merge value (Table table))
           | Err e => if bool_decide (e = NotFound) && negb required then Ok value else Err (ReadConfig path e)
           end);
  try_fold apply_variable environment value.
End LoadTree.

Section LoadConfig.
Context `{Toml} `{Prowlarr.Http} `{!BaseUrl}.

Definition load_qbittorrent (service : RawQbittorrent) : result ConfigError Qbittorrent :=
  url ← ok_or (Prowlarr.parse_url (rq_url service)) QbittorrentUrl;
  api_key ← optional_secret (lit "qbittorrent.api_key") (rq_api_key service);
  Ok (mkQbittorrent _ url api_key (rq_request_timeout service) (rq_sync_interval service)
        (rq_full_reconcile_interval service) (rq_inventory_batch_size service)
        (rq_database_batch_size service) (rq_inventory_stale_after service)).

Definition load_prowlarr (service : RawProwlarr) : result ConfigError ProwlarrSettings :=
  url ← ok_or (service_url (rp_url service)) ProwlarrUrl;
  api_key ← required_secret (lit "prowlarr.api_key") (rp_api_key service);
  Ok (mkProwlarrSettings _ url api_key (rp_request_timeout service) (rp_refresh_interval service)
        (rp_include_tags service) (rp_exclude_tags service) (rp_require_proxy_downloads service)
        (rp_max_results_per_query service)).

Definition load_arr (kind_name : str) (kind : ArrKind) (service : str * ServiceConfig)
  : result ConfigError ArrInstance :=
  let '(name, service) := service in
  _ ← bail_if (negb (safe_name name)) (ArrName kind_name name);
  url ← ok_or (Prowlarr.parse_url (sc_url service)) (ArrUrl kind_name name);
  api_key ← required_secret (lit "arr." ++ kind_name ++ lit "." ++ name ++ lit ".api_key") (sc_api_key service);
  Ok (mkArrInstance _ kind name url api_key (sc_request_timeout service)).

Definition transpose {A B} (f : A -> result ConfigError B) (o : option A) : result ConfigError (option B) :=
  match o with None => Ok None | Some a => b ← f a; Ok (Some b) end.

Definition load (contents : result IoFailure str) (path : str) (required : bool)
    (environment : list (str * str)) : result ConfigError Config :=
  value ← load_tree contents path required environment;
  raw ← ok_or (try_into parse_duration value) InvalidToml;
  _ ← validate_positive raw;
  matching ← matching (rw_matching raw);
  injection ← injection (rw_injection raw);
  link_root ← ok_or (pc_link_root (rw_paths raw)) Panicked;
  let paths := Paths.mkPaths link_root (pc_rewrite (rw_paths raw)) in
  _ ← map_err InvalidPaths (Paths.validate_paths paths);
  _ ← validate_data_roots (rw_data_roots raw);
  api_key ← optional_secret (lit "auth.api_key") (rw_auth_api_key raw);
  qbittorrent ← transpose load_qbittorrent (rw_qbittorrent raw);
  prowlarr ← transpose load_prowlarr (rw_prowlarr raw);
  let sonarr := ac_sonarr (rw_arr raw) in
  let radarr := ac_radarr (rw_arr raw) in
  _ ← bail_if (32 <? Z.of_nat (size sonarr) + Z.of_nat (size radarr)) TooManyArrInstances;
  series ← collect (load_arr (lit "sonarr") Sonarr) (entries sonarr);
  movies ← collect (load_arr (lit "radarr") Radarr) (entries radarr);
  Ok (mkConfig _ (rw_server raw) api_key (rw_runtime raw) (rw_limits raw) (rw_logging raw) (rw_metrics raw)
        qbittorrent prowlarr (series ++ movies) (rw_sources raw) matching injection paths (rw_data_roots raw)).

(** [Config::load]: [read] is the file system and [environment] the process's variables. *)
Definition Config_load (read : str -> result IoFailure str) (environment : list (str * str))
  : result ConfigError Config :=
  let configured := snd <$> head (filter (fun variable => variable.1 = lit "SPOROS_CONFIG") environment) in
  let path := default DEFAULT_PATH configured in
  load (read path) path (bool_decide (is_Some configured)) environment.
End LoadConfig.
