(* ===== verification/ConfigProofs.v ===== *)
(** The configuration (Config.v): what is set where, that durations are read back, and that a
    configuration that loads is what the parts of the program assume. *)

From stdpp Require Import strings pretty.
From S2P Require Import Prelude Text Float Model Config.
From S2P Require Duroxide Template Hardlink Paths Pieces Candidate Library Accept Decision DataScan Prowlarr MatcherAssign.
Local Open Scope Z_scope.

(** ** Durations *)

Lemma digit_char x : (x < 10)%N ->
  Z.of_N (Ascii.N_of_ascii (pretty_N_char x)) = 48 + Z.of_N x.
Proof.
  intros Hx. unfold pretty_N_char. destruct x as [|p]; [done|].
  do 4 (destruct p as [p|p|]; try done; try lia).
Qed.

Lemma digits_value_pretty x s :
  Z.of_N x <= u64_max ->
  digits_value (lit (pretty_N_go x s)) 0 = digits_value (lit s) (Z.of_N x).
Proof.
  revert s. induction (N.lt_wf_0 x) as [x _ IH]. intros s Hx.
  destruct (decide (x = 0)%N) as [->|Hne]; [by rewrite pretty_N_go_0|].
  rewrite pretty_N_go_step by lia. assert (x mod 10 < 10)%N as Hm by (apply N.mod_lt; lia).
  pose proof (N.div_mod x 10 ltac:(lia)) as Hdm. pose proof (N.div_lt x 10 ltac:(lia) ltac:(lia)) as Hlt.
  set (m := (x mod 10)%N) in *. set (q := (x / 10)%N) in *. clearbody m q.
  rewrite IH by lia. cbn [lit digits_value]. rewrite digit_char by done.
  assert (is_ascii_digit (48 + Z.of_N m) = true) as ->.
  { unfold is_ascii_digit. apply andb_true_intro. split; apply Z.leb_le; lia. }
  replace (Z.of_N q * 10 + (48 + Z.of_N m - 48)) with (Z.of_N x) by lia.
  by rewrite (proj2 (Z.leb_le _ _) Hx).
Qed.

Lemma pretty_digits x s :
  forallb is_ascii_digit (lit s) = true -> forallb is_ascii_digit (lit (pretty_N_go x s)) = true.
Proof.
  revert s. induction (N.lt_wf_0 x) as [x _ IH]. intros s Hs.
  destruct (decide (x = 0)%N) as [->|Hne]; [by rewrite pretty_N_go_0|].
  assert (x mod 10 < 10)%N as Hm by (apply N.mod_lt; lia).
  rewrite pretty_N_go_step by lia. apply IH; [apply N.div_lt; lia|].
  set (m := (x mod 10)%N) in *. clearbody m. cbn [lit forallb]. rewrite digit_char, Hs, andb_true_r by done.
  unfold is_ascii_digit. apply andb_true_intro. split; apply Z.leb_le; lia.
Qed.

(** The digits of a number are read back. *)
Lemma decimal_digits n :
  0 <= n <= u64_max ->
  forallb is_ascii_digit (Duroxide.decimal n) = true /\ parse_u64 (Duroxide.decimal n) = Some n.
Proof.
  intros Hn. unfold Duroxide.decimal. destruct n as [|p|p]; [done| |lia].
  assert (forallb is_ascii_digit (lit (pretty_N_go (N.pos p) "")) = true) as Hd by by apply pretty_digits.
  pose proof (digits_value_pretty (N.pos p) "" ltac:(cbn; lia)) as Hv.
  change (pretty (Z.pos p)) with (pretty_N_go (N.pos p) ""). split; [done|].
  destruct (lit (pretty_N_go (N.pos p) "")) as [|b rest] eqn:E.
  - cbn in Hv. injection Hv as Hv. done.
  - cbn [forallb] in Hd. apply andb_prop in Hd as [Hb _]. cbn [parse_u64].
    destruct (Z.eqb_spec b 43) as [->|_]; [done|]. exact Hv.
Qed.

Lemma split_digits_app number unit :
  forallb is_ascii_digit number = true ->
  match unit with b :: _ => is_ascii_digit b = false | [] => False end ->
  split_digits (number ++ unit) = Some (number, unit).
Proof.
  intros Hn Hu. induction number as [|b number IH].
  - destruct unit as [|b unit]; [done|]. cbn. by rewrite Hu.
  - cbn [forallb] in Hn. apply andb_prop in Hn as [Hb Hn]. cbn [app split_digits]. by rewrite Hb, IH.
Qed.

(** A duration that is written to the tree of defaults is read back: up to its
    milliseconds, which is all that a duration read from a configuration has, and which a
    duration without a fraction of a second keeps for any number of seconds.  What is read
    is never negative. *)
Theorem duration_roundtrip d :
  0 <= d ->
  (d mod NANOS = 0 -> d / NANOS <= u64_max -> parse_duration (format_duration d) = Ok d) /\
  (d / 1000000 <= u64_max ->
   parse_duration (format_duration d) = Ok (from_millis (d / 1000000))) /\
  forall text value, parse_duration text = Ok value -> 0 <= value /\ value mod 1000000 = 0.
Proof.
  intros Hd.
  assert (forall number unit, 0 <= number <= u64_max ->
    match unit with b :: _ => is_ascii_digit b = false | [] => False end ->
    parse_duration (Duroxide.decimal number ++ unit)
    = if str_eqb unit (lit "ms") then Ok (from_millis number) else
      seconds ← (if str_eqb unit (lit "s") then Ok number else
        if str_eqb unit (lit "m") then ok_or (checked_mul_u64 number 60) "duration overflow"%string else
        if str_eqb unit (lit "h") then ok_or (checked_mul_u64 number (60 * 60)) "duration overflow"%string else
        if str_eqb unit (lit "d") then ok_or (checked_mul_u64 number (24 * 60 * 60)) "duration overflow"%string else
        Err "unsupported duration unit"%string);
      Ok (from_secs seconds)) as Hparse.
  { intros number unit Hn Hu. destruct (decimal_digits number Hn) as [Hdig Hval].
    unfold parse_duration. rewrite split_digits_app by done. cbn [ok_or mbind result_bind]. rewrite Hval. done. }
  pose proof (Z.div_mod d NANOS ltac:(done)) as Hdm. pose proof (Z.div_pos d NANOS Hd ltac:(done)) as Hdp.
  assert (d mod NANOS = 0 -> d / NANOS <= u64_max -> parse_duration (format_duration d) = Ok d) as Hsecs.
  { intros H0 Hmax. unfold format_duration. rewrite H0. cbn [Z.eqb]. rewrite Hparse by done.
    change (Ok (from_secs (d / NANOS)) = (Ok d : result string Z)). unfold from_secs. f_equal. lia. }
  split; [done|]. split.
  - intros Hmax. pose proof (Z.div_pos d 1000000 Hd ltac:(done)) as Hmp.
    destruct (Z.eqb_spec (d mod NANOS) 0) as [E|E].
    + assert (d = from_millis (d / 1000000)) as Hm.
      { unfold from_millis. unfold NANOS in *. pose proof (Z.div_mod d 1000000 ltac:(done)).
        enough (d mod 1000000 = 0) by lia. rewrite Hdm, E, Z.add_0_r.
        replace (1000000000 * (d / 1000000000)) with (1000 * (d / 1000000000) * 1000000) by lia. by apply Z.mod_mul. }
      rewrite Hsecs; [by rewrite <- Hm|done|]. etransitivity; [|exact Hmax].
      unfold NANOS. apply Z.div_le_compat_l; lia.
    + unfold format_duration. apply Z.eqb_neq in E. rewrite E. rewrite Hparse by done. done.
  - intros text value. unfold parse_duration.
    destruct (split_digits text) as [[number unit]|]; cbn [ok_or mbind result_bind]; [|done].
    destruct (parse_u64 number) as [n|] eqn:Hn; cbn [ok_or mbind result_bind]; [|done].
    apply parse_u64_range in Hn.
    assert (forall k, 0 <= k -> 0 <= from_secs k /\ from_secs k mod 1000000 = 0) as Hs.
    { intros k Hk. unfold from_secs, NANOS. split; [lia|].
      replace (k * 1000000000) with (k * 1000 * 1000000) by lia. by apply Z.mod_mul. }
    destruct (str_eqb unit (lit "ms")).
    { intros [= <-]. unfold from_millis. split; [lia|]. by apply Z.mod_mul. }
    unfold checked_mul_u64. repeat case_match; cbn [ok_or mbind result_bind]; intros [= <-] || intros; try done;
      apply Hs; lia.
Qed.

Lemma duration_roundtrip_witness :
  parse_duration (format_duration (from_secs 86400)) = Ok (from_secs 86400) /\
  parse_duration (format_duration 1500000000) = Ok 1500000000 /\ parse_duration (lit "7d") = Ok (from_secs 604800).
Proof.
  destruct (duration_roundtrip (from_secs 86400) ltac:(done)) as [H1 _].
  destruct (duration_roundtrip 1500000000 ltac:(done)) as [_ [H2 _]].
  split; [apply H1; vm_compute; done|]. split; [apply H2; vm_compute; discriminate|]. vm_compute. reflexivity.
Defined.

(** ** What is set where *)

Section Tree.
Context `{Scalars}.

(** The value at a path *)
Fixpoint at_path (value : Value) (path : list str) : option Value :=
  match path with
  | [] => Some value
  | segment :: path =>
      match value with
      | Table fields => fields !! segment ≫= fun value => at_path value path
      | Leaf _ => None
      end
  end.

Definition comparable (p q : list str) : Prop := p `prefix_of` q \/ q `prefix_of` p.

(** Something that is no table lies on the way. *)
Definition cut_off (value : Value) (path : list str) : Prop :=
  exists p l, p `prefix_of` path /\ at_path value p = Some (Leaf l).

Lemma at_path_merge base overlay path :
  match at_path overlay path with
  | Some o => at_path (merge base overlay) path
              = Some (match at_path base path with Some b => merge b o | None => o end)
  | None => ~ cut_off overlay path -> at_path (merge base overlay) path = at_path base path
  end.
Proof.
  revert base overlay. induction path as [|segment path IH]; intros base overlay; [done|].
  destruct overlay as [overlay|o].
  2: { cbn. intros []. exists [], o. split; [apply prefix_nil|done]. }
  destruct base as [base|b]; cbn [at_path merge].
  2: { destruct (overlay !! segment ≫= _); [done|]. intros _. cbn. done. }
  rewrite lookup_union_with. destruct (overlay !! segment) as [o|] eqn:Ho; cbn [mbind option_bind].
  2: { intros _. by destruct (base !! segment). }
  destruct (base !! segment) as [b|]; cbn [union_with option_union_with mbind option_bind].
  2: { by destruct (at_path o path). }
  specialize (IH b o). destruct (at_path o path); [done|]. intros Hcut. apply IH.
  intros (p & l & Hp & Hl). apply Hcut. exists (segment :: p), l. split; [by apply prefix_cons|].
  cbn. by rewrite Ho.
Qed.

Lemma set_path_same root path value root' :
  set_path root path value = Some root' -> at_path root' path = Some value.
Proof.
  revert root root'. induction path as [|segment path IH]; intros [fields|l] root'; try done.
  destruct path as [|next path].
  - intros [= <-]. cbn. by rewrite lookup_insert_eq.
  - cbn [set_path]. rewrite bind_Some. intros (current & Hc & [= <-]). cbn [at_path].
    rewrite lookup_insert_eq. by apply IH in Hc.
Qed.

Lemma set_path_other root path value root' p :
  set_path root path value = Some root' -> ~ comparable p path -> at_path root' p = at_path root p.
Proof.
  revert root root' p. induction path as [|segment path IH]; intros [fields|l] root' p; try done.
  destruct p as [|s p]; [intros _ []; left; apply prefix_nil|].
  destruct path as [|next path].
  - intros [= <-] Hc. cbn. rewrite lookup_insert_ne; [done|]. intros ->. apply Hc. right.
    apply prefix_cons, prefix_nil.
  - cbn [set_path]. rewrite bind_Some. intros (current & Hs & [= <-]) Hc. cbn [at_path].
    destruct (decide (segment = s)) as [->|Hne]; [|by rewrite lookup_insert_ne].
    rewrite lookup_insert_eq. cbn [mbind option_bind].
    assert (~ comparable p (next :: path)) as Hc'.
    { intros [Hp|Hp]; apply Hc; [left|right]; by apply prefix_cons. }
    rewrite (IH _ _ _ Hs Hc'). destruct (fields !! s); [done|]. cbn.
    destruct p as [|s' p]; [|done]. destruct Hc'. left. apply prefix_nil.
Qed.
End Tree.

Section Precedence.
Context `{Toml}.

(** No variable sets the path, a part of it, or something in it. *)
Definition untouched (environment : list (str * str)) (p : list str) : Prop :=
  forall key raw q, (key, raw) ∈ environment -> environment_path key = Some q -> ~ comparable p q.

Lemma apply_variable_Ok value key raw value' :
  apply_variable value (key, raw) = Ok value' ->
  match environment_path key with
  | None => value' = value
  | Some path => exists parsed, environment_value key raw path = Ok parsed /\ set_path value path parsed = Some value'
  end.
Proof.
  unfold apply_variable. destruct (environment_path key) as [path|]; [|by intros [= ->]].
  destruct (existsb _ path); [done|]. rewrite bind_Ok. intros (parsed & Hp & Hs).
  exists parsed. split; [done|]. by apply ok_or_Ok in Hs.
Qed.

Lemma untouched_variables environment value value' p :
  try_fold apply_variable environment value = Ok value' -> untouched environment p ->
  at_path value' p = at_path value p.
Proof.
  revert value. induction environment as [|[key raw] environment IH]; intros value; [by intros [= ->]|].
  cbn [try_fold]. destruct (apply_variable value (key, raw)) as [v|e] eqn:Ha; [|done]. intros Hr Hu.
  rewrite (IH v Hr) by (intros k r q Hin; apply (Hu k r q); by right).
  apply apply_variable_Ok in Ha. destruct (environment_path key) as [q|] eqn:Hq; [|by rewrite Ha].
  destruct Ha as (parsed & _ & Hs). eapply set_path_other; [exact Hs|]. apply (Hu key raw q); [by left|done].
Qed.

(** C25: The environment overrides the file, and the file the defaults.  In the tree that a
    configuration is read from, a path that a variable sets has the value of that variable,
    unless a later one touches it; a path that no variable touches has what the file says
    of it, where a table of the file is merged with the one of the defaults; and what the
    file says nothing of has its default. *)
Theorem environment_over_file_over_defaults contents path required environment value :
  load_tree contents path required environment = Ok value ->
  exists defaults, try_from format_duration default_raw = Some defaults /\
  (forall before key raw after p,
     environment = before ++ (key, raw) :: after -> environment_path key = Some p -> untouched after p ->
     exists parsed, environment_value key raw p = Ok parsed /\ at_path value p = Some parsed) /\
  (forall p, untouched environment p ->
     match contents with
     | Err _ => at_path value p = at_path defaults p
     | Ok text => exists file, from_str text = Some file /\
         match at_path (Table file) p with
         | Some v => at_path value p
                     = Some (match at_path defaults p with Some d => merge d v | None => v end)
         | None => ~ cut_off (Table file) p -> at_path value p = at_path defaults p
         end
     end).
Proof.
  unfold load_tree. rewrite bind_Ok. intros (defaults & Hd%ok_or_Ok & Hr). exists defaults. split; [done|].
  apply bind_Ok in Hr as (v & Hv & Hr). split.
  - intros before key raw after p -> Hp Hu. rewrite try_fold_app in Hr.
    apply bind_Ok in Hr as (v1 & Hb & Hr). cbn [try_fold] in Hr.
    destruct (apply_variable v1 (key, raw)) as [v2|e] eqn:Ha; [|done].
    apply apply_variable_Ok in Ha. rewrite Hp in Ha. destruct Ha as (parsed & Hval & Hs).
    exists parsed. split; [done|]. rewrite (untouched_variables _ _ _ _ Hr Hu). by eapply set_path_same.
  - intros p Hu. rewrite (untouched_variables _ _ _ _ Hr Hu). destruct contents as [text|e].
    + apply bind_Ok in Hv as (file & Hf%ok_or_Ok & [= <-]). exists file. split; [done|]. apply at_path_merge.
    + destruct (_ && _); [by injection Hv as ->|done].
Qed.
End Precedence.

(** ** What a configuration that loads has *)

Lemma first_Err_Ok {E A} (check : A -> result E ()) l :
  first_Err check l = Ok tt <-> Forall (fun a => check a = Ok tt) l.
Proof.
  unfold first_Err. induction l as [|a l IH]; [done|]. cbn [try_fold].
  rewrite Forall_cons. destruct (check a) as [[]|e] eqn:Ha; [rewrite IH; naive_solver|naive_solver].
Qed.

Lemma entries_elem {A} (m : gmap str A) k x : (k, x) ∈ entries m <-> m !! k = Some x.
Proof. unfold entries. by rewrite elem_of_sort_by, elem_of_map_to_list. Qed.

Lemma length_entries {A} (m : gmap str A) : length (entries m) = size m.
Proof. unfold entries. by rewrite length_sort_by, length_map_to_list. Qed.

Lemma within_spec low high value : within low high value = true <-> low <= value <= high.
Proof. unfold within. rewrite andb_true_iff, !Z.leb_le. done. Qed.

Definition secret_ok (value : str) : Prop := value <> [] /\ Z.of_nat (length value) <= MAX_SECRET_BYTES.

Lemma secret_Ok field value key : secret field value = Ok key -> key = value /\ secret_ok value.
Proof.
  unfold secret, secret_ok. case_bool_decide as Hn; [done|]. destruct (Z.ltb_spec MAX_SECRET_BYTES (Z.of_nat (length value))); [done|].
  intros [= ->]. done.
Qed.

Lemma optional_secret_Ok field value key :
  optional_secret field value = Ok key -> key = value /\ forall k, key = Some k -> secret_ok k.
Proof.
  destruct value as [value|]; [|by intros [= <-]]. cbn. rewrite bind_Ok. intros (k & Hk & [= <-]).
  apply secret_Ok in Hk as [-> Hok]. split; [done|]. by intros k [= <-].
Qed.

Lemma required_secret_Ok field value key : required_secret field value = Ok key -> secret_ok key.
Proof.
  unfold required_secret. rewrite bind_Ok. intros (k & Hk & Hr%ok_or_Ok).
  apply optional_secret_Ok in Hk as [_ Hok]. by apply Hok.
Qed.

(** A name that cannot leave the directory or the URL that it is part of *)
Definition name_ok (name : str) : Prop :=
  name <> [] /\ Z.of_nat (length name) <= 64 /\
  forall b, b ∈ name -> is_ascii_alphanumeric b = true \/ b = 45 \/ b = 95.

Lemma safe_name_spec name : safe_name name = true -> name_ok name.
Proof.
  unfold safe_name. rewrite !andb_true_iff, negb_true_iff, bool_decide_eq_false, Z.leb_le, forallb_forall.
  intros [[Hn Hl] Hb]. split; [done|]. split; [done|]. intros b Hin%list_elem_of_In.
  apply Hb in Hin. rewrite !orb_true_iff, !Z.eqb_eq in Hin. naive_solver.
Qed.

(** *** Extensions *)

Definition extension_ok (value : str) : Prop :=
  value <> [] /\ Z.of_nat (length value) <= 16 /\ to_ascii_lowercase value = value /\ 46 ∉ value /\ 47 ∉ value.
Definition extensions_ok (l : list str) : Prop := NoDup l /\ Forall extension_ok l /\ l <> [].

Lemma lowercase_idem value : to_ascii_lowercase (to_ascii_lowercase value) = to_ascii_lowercase value.
Proof.
  unfold to_ascii_lowercase. rewrite map_map. apply map_ext. intros b.
  unfold byte_to_ascii_lowercase, is_ascii_upper. repeat case_match; lia.
Qed.

Lemma normalized_extensions_ok values l :
  normalized_extensions values = Ok l -> NoDup l /\ Forall extension_ok l /\ (values <> [] -> l <> []).
Proof.
  unfold normalized_extensions.
  apply (try_fold_inv normalize_extension (fun seen l => NoDup l /\ Forall extension_ok l /\ (seen <> [] -> l <> []))).
  { split; [constructor|]. split; [constructor|done]. }
  intros l1 x l2 b b' _ (Hnd & Hall & _). unfold normalize_extension.
  set (value := to_ascii_lowercase _). rewrite bind_Ok. intros (_ & Hc%bail_if_Ok & [= <-]).
  rewrite !orb_false_iff, bool_decide_eq_false, Z.ltb_ge, negb_false_iff, forallb_forall in Hc.
  destruct Hc as [[Hne Hlen] Hb]. unfold str_mem. case_bool_decide as Hin.
  { split; [done|]. split; [done|]. intros _ ->. by apply not_elem_of_nil in Hin. }
  split; [|split; [|intros _ []%app_nil; done]].
  - apply NoDup_app. split; [done|]. split; [|apply NoDup_singleton].
    intros y Hy ->%list_elem_of_singleton. done.
  - apply Forall_app. split; [done|]. apply Forall_singleton.
    split; [done|]. split; [done|]. split; [apply lowercase_idem|].
    assert (forall c, c ∈ value -> is_ascii_alphanumeric c = true \/ c = 45) as Hc.
    { intros c Hin'%list_elem_of_In. apply Hb in Hin'. rewrite orb_true_iff, Z.eqb_eq in Hin'. done. }
    split; intros H%Hc; by destruct H.
Qed.

Lemma extensions_or_ok defaults values l :
  extensions_ok defaults -> extensions_or defaults values = Ok l -> extensions_ok l.
Proof.
  unfold extensions_or. intros Hd. case_bool_decide as Hv; [by intros [= <-]|].
  intros Hl%normalized_extensions_ok. unfold extensions_ok. naive_solver.
Qed.

(** *** Matching *)

(** The budgets of the matcher *)
Record matching_ok (m : Accept.Matching) : Prop := {
  ma_range : MatcherAssign.policy_in_range (Accept.mt_policy m);
  ma_files : 1 <= mp_max_assignment_files (Accept.mt_policy m);
  ma_edges : 1 <= mp_max_candidate_edges (Accept.mt_policy m);
  ma_component : 1 <= mp_max_assignment_component_files (Accept.mt_policy m) <= 1024 /\
    mp_max_assignment_component_files (Accept.mt_policy m) <= mp_max_assignment_files (Accept.mt_policy m);
  ma_operations : 1 <= mp_max_assignment_operations (Accept.mt_policy m) <= 1000000000;
  ma_video : extensions_ok (mp_primary_video_extensions (Accept.mt_policy m));
  ma_optional : extensions_ok (mp_optional_extensions (Accept.mt_policy m));
  ma_partial : mp_allow_partial (Accept.mt_policy m) = true -> mp_allow_flexible (Accept.mt_policy m) = true;
  ma_tolerance : unit_contains (Accept.preflight_size_tolerance m) = true }.

Definition unsigned_matching (config : MatchingConfig) : Prop :=
  0 <= mc_max_assignment_files config /\ 0 <= mc_max_candidate_edges config /\
  0 <= mc_max_assignment_component_files config /\ 0 <= mc_max_assignment_operations config /\
  0 <= mc_max_torrent_bytes config /\ 0 <= mc_max_files_per_torrent config /\ 0 <= mc_max_path_bytes config.

Lemma default_extensions_ok :
  extensions_ok (mp_primary_video_extensions default_policy) /\ extensions_ok (mp_optional_extensions default_policy).
Proof.
  split; (split; [apply (bool_decide_unpack _); vm_compute; exact I|]; split; [|done]);
    repeat (apply Forall_cons; split; [|]); try apply Forall_nil; try exact I;
    unfold extension_ok; (split; [done|]; split; [done|]; split; [done|]); split;
    apply (bool_decide_unpack _); vm_compute; exact I.
Qed.

Lemma matching_Ok config m : unsigned_matching config -> matching config = Ok m -> matching_ok m /\
  Accept.max_torrent_bytes m = mc_max_torrent_bytes config /\
  Accept.max_files_per_torrent m = mc_max_files_per_torrent config /\
  Accept.max_path_bytes m = mc_max_path_bytes config.
Proof.
  intros (U1 & U2 & U3 & U4 & _). unfold matching. rewrite bind_Ok. intros ([flexible partial] & Hmode & Hr).
  apply bind_Ok in Hr as (_ & Ht%bail_if_Ok%negb_false_iff & Hr).
  apply bind_Ok in Hr as (_ & Hb%bail_if_Ok & Hr). unfold matcher_budget in Hb.
  rewrite !orb_false_iff, !Z.eqb_neq, !Z.ltb_ge in Hb.
  apply bind_Ok in Hr as (video & Hv & Hr). apply bind_Ok in Hr as (optional & Ho & [= <-]).
  split; [|done]. destruct default_extensions_ok as [D1 D2].
  split; cbn [Accept.mt_policy mp_max_assignment_files mp_max_candidate_edges mp_max_assignment_component_files
    mp_max_assignment_operations mp_primary_video_extensions mp_optional_extensions mp_allow_partial mp_allow_flexible
    Accept.preflight_size_tolerance]; try lia; try done.
  - unfold MatcherAssign.policy_in_range, MatcherAssign.max_files_limit, MatcherAssign.max_edges_limit. cbn. lia.
  - exact (extensions_or_ok _ _ _ D1 Hv).
  - exact (extensions_or_ok _ _ _ D2 Ho).
  - intros ->. by destruct (str_eqb (mc_mode config) (lit "strict")), (str_eqb (mc_mode config) (lit "flexible")),
      (str_eqb (mc_mode config) (lit "partial")); simplify_eq/=.
Qed.

(** *** Templates and the resume policy *)

Section Templates.
Context `{U : Unicode}.

Lemma context_defines loaded d source :
  Forall (fun name => is_Some (Decision.template_context loaded d source !! name)) Template.VARIABLES.
Proof.
  unfold Decision.template_context, Template.VARIABLES. cbn [list_to_map foldr fst snd].
  repeat (apply Forall_cons; split;
    [repeat (rewrite lookup_insert_ne by (vm_compute; discriminate)); rewrite lookup_insert_eq; by eexists|]).
  by apply Forall_nil.
Qed.

(** A template that passed the check renders in the context of every decision. *)
Lemma template_renders template loaded d source :
  is_ok (Template.validate template) = true ->
  is_ok (Template.render template (Decision.template_context loaded d source)) = true.
Proof.
  intros Hv. destruct (Template.validate_predicts_render template (Decision.template_context loaded d source))
    as [_ [(name & _ & Hin & Hnone)|H]].
  - pose proof (context_defines loaded d source) as Hall. rewrite Forall_forall in Hall.
    destruct (Hall name Hin) as [v Hs]. discriminate (eq_trans (eq_sym Hs) Hnone).
  - by destruct (Template.validate template).
Qed.

Record injection_ok (i : Candidate.InjectionConfig) : Prop := {
  in_templates : forall template loaded d source,
    template ∈ Candidate.category_template i :: Candidate.tag_templates i ->
    Z.of_nat (length template) <= 256 /\
    is_ok (Template.render template (Decision.template_context loaded d source)) = true;
  in_tags : Z.of_nat (length (Candidate.tag_templates i)) <= 64;
  in_resume : forall missing ratio combine,
    Candidate.resume_policy i = Pieces.Threshold missing ratio combine ->
    (missing <> None \/ ratio <> None) /\ forall ppm, ratio = Some ppm -> is_u32 ppm }.

Lemma resume_policy_Ok config missing ratio combine :
  resume_policy config = Ok (Pieces.Threshold missing ratio combine) ->
  (missing <> None \/ ratio <> None) /\ forall ppm, ratio = Some ppm -> is_u32 ppm.
Proof.
  unfold resume_policy. rewrite bind_Ok. intros (c & _ & Hr). apply bind_Ok in Hr as (r & Hratio & Hr).
  assert (forall ppm, r = Some ppm -> is_u32 ppm) as Hppm.
  { intros ppm ->. destruct (rc_min_present_ratio config) as [f|]; [|done].
    destruct (_ && _); [|done]. injection Hratio as <-. unfold ratio_ppm, is_u32, u32_max. lia. }
  destruct (str_eqb _ (lit "never")); [done|]. destruct (str_eqb _ (lit "complete_only")); [done|].
  destruct (str_eqb _ (lit "always")); [done|]. destruct (str_eqb _ (lit "threshold")); [|done].
  destruct (rc_max_missing_bytes config) as [n|].
  - injection Hr as <- <- <-. split; [by left|done].
  - destruct r as [n|]; [|done]. injection Hr as <- <- <-. split; [by right|done].
Qed.

Lemma injection_Ok config i : injection config = Ok i -> injection_ok i.
Proof.
  unfold injection. rewrite bind_Ok. intros (_ & Hlen%bail_if_Ok & Hr).
  apply bind_Ok in Hr as (_ & Hsyntax%bail_if_Ok & Hr). apply bind_Ok in Hr as (resume & Hresume & [= <-]).
  rewrite !orb_false_iff in *. rewrite negb_false_iff in Hsyntax.
  destruct Hlen as [[Hc Ht] Hts], Hsyntax as [Hvc Hvt].
  assert (forall f l, existsb f l = false -> forall x : str, x ∈ l -> f x = false) as Hex.
  { intros f l Hf x Hx. destruct (f x) eqn:E; [|done]. rewrite <- Hf. symmetry. apply existsb_exists.
    exists x. split; [by apply list_elem_of_In|done]. }
  split; cbn [Candidate.category_template Candidate.tag_templates Candidate.resume_policy].
  - intros template loaded d source [->|Hin]%elem_of_cons.
    + split; [by apply Z.ltb_ge in Hc|by apply template_renders].
    + split; [by apply Z.ltb_ge, (Hex _ _ Hts)|]. apply template_renders.
      by apply negb_false_iff, (Hex (fun t => negb (is_ok (Template.validate t))) _ Hvt).
  - by apply Z.ltb_ge in Ht.
  - intros missing ratio combine ->. by eapply resume_policy_Ok.
Qed.
End Templates.

(** *** The whole configuration *)

Section Valid.
Context `{Toml} `{Prowlarr.Http} `{!BaseUrl} `{HL : !BaseUrlLaws} `{Unicode}.

(** [usize] and [u64] have no negative values. *)
Record unsigned (raw : RawConfig) : Prop := {
  un_matching : unsigned_matching (rw_matching raw);
  un_roots : forall name root, rw_data_roots raw !! name = Some root -> 0 <= DataScan.max_depth root;
  un_qbittorrent : forall q, rw_qbittorrent raw = Some q ->
    0 <= rq_inventory_batch_size q /\ 0 <= rq_database_batch_size q;
  un_prowlarr : forall p, rw_prowlarr raw = Some p -> 0 <= rp_max_results_per_query p }.

(** A base URL to which the paths of requests are joined *)
Definition base_ok (url : Prowlarr.Url) : Prop :=
  http_base url = true /\ last (Prowlarr.url_path url) = Some 47.

Record qbittorrent_ok (q : Qbittorrent) : Prop := {
  qo_batches : 1 <= qb_inventory_batch_size q <= 500 /\ 1 <= qb_database_batch_size q <= 500;
  qo_times : qb_request_timeout q <> 0 /\ qb_sync_interval q <> 0 /\ qb_full_reconcile_interval q <> 0 /\
    qb_inventory_stale_after q <> 0;
  qo_key : forall key, qb_api_key q = Some key -> secret_ok key }.
Record prowlarr_ok (p : ProwlarrSettings) : Prop := {
  po_url : base_ok (pr_url p); po_key : secret_ok (pr_api_key p);
  po_results : 1 <= pr_max_results_per_query p <= 1000;
  po_times : pr_request_timeout p <> 0 /\ pr_refresh_interval p <> 0 }.
Definition root_ok (name : str) (root : DataScan.DataRoot) : Prop :=
  name_ok name /\ Hardlink.is_absolute (Hardlink.components (DataScan.dr_path root)) = true /\
  0 <= DataScan.max_depth root <= 16 /\ 1 <= DataScan.max_releases root <= 1000000 /\
  1 <= DataScan.max_files_per_release root <= 100000.
Definition limits_ok (l : Limits) : Prop :=
  max_http_requests l <> 0 /\ max_candidate_workflows l <> 0 /\ max_search_workflows l <> 0 /\
  max_indexer_requests l <> 0 /\ max_filesystem_operations l <> 0 /\ max_uploads l <> 0 /\
  outbox_batch_size l <> 0 /\ internal_channel_capacity l <> 0.

Record valid (c : Config) : Prop := {
  va_limits : limits_ok (cf_limits c);
  va_matching : matching_ok (cf_matching c);
  va_torrents : 1 <= Accept.max_torrent_bytes (cf_matching c) <= 8 * 1024 * 1024 /\
    1 <= Accept.max_files_per_torrent (cf_matching c) <= 1000000 /\
    1 <= Accept.max_path_bytes (cf_matching c) <= 16384;
  va_injection : injection_ok (cf_injection c);
  va_paths : Paths.validate_paths (cf_paths c) = Ok tt;
  va_roots : forall name root, cf_data_roots c !! name = Some root -> root_ok name root;
  va_key : forall key, cf_auth_api_key c = Some key -> secret_ok key;
  va_qbittorrent : forall q, cf_qbittorrent c = Some q -> qbittorrent_ok q;
  va_prowlarr : forall p, cf_prowlarr c = Some p -> prowlarr_ok p;
  va_arr : Z.of_nat (length (cf_arr c)) <= 32 /\
    forall i, i ∈ cf_arr c -> name_ok (ai_name i) /\ secret_ok (ai_api_key i) }.

Lemma service_url_ok value url : service_url value = Some url -> base_ok url.
Proof using HL.
  unfold service_url. rewrite bind_Some. intros (u & _ & Hu).
  destruct (http_base u) eqn:Hb; [|done]. injection Hu as <-. unfold base_ok, with_slash.
  case_bool_decide as Hl; [done|]. rewrite set_path_path. change (lit "/") with [47] at 2.
  rewrite last_snoc. split; [|done].
  unfold http_base in *. destruct (set_path_rest u (Prowlarr.url_path u ++ lit "/")) as (-> & -> & -> & -> & -> & ->).
  done.
Qed.

Lemma validate_data_roots_Ok roots :
  (forall name root, roots !! name = Some root -> 0 <= DataScan.max_depth root) ->
  validate_data_roots roots = Ok tt -> forall name root, roots !! name = Some root -> root_ok name root.
Proof using.
  unfold validate_data_roots. rewrite first_Err_Ok, Forall_forall. intros Hun Hall name root Hr.
  specialize (Hall (name, root) (proj2 (entries_elem _ _ _) Hr)). cbn in Hall.
  apply bind_Ok in Hall as (_ & Hn%bail_if_Ok%negb_false_iff & Hall).
  apply bind_Ok in Hall as (_ & Hp%bail_if_Ok%negb_false_iff & Hl%bail_if_Ok).
  rewrite !orb_false_iff, !negb_false_iff, !within_spec, Z.ltb_ge in Hl.
  split; [by apply safe_name_spec|]. split; [done|]. specialize (Hun name root Hr). lia.
Qed.

Lemma load_arr_Ok kind_name kind services l :
  collect (load_arr kind_name kind) services = Ok l ->
  length l = length services /\ forall i, i ∈ l -> name_ok (ai_name i) /\ secret_ok (ai_api_key i).
Proof using.
  rewrite collect_Forall2. intros Hall. split; [by symmetry; eapply Forall2_length|].
  intros i Hi. apply list_elem_of_lookup in Hi as [k Hk].
  destruct (Forall2_lookup_r _ _ _ _ _ Hall Hk) as ([name service] & _ & Hi). cbn in Hi.
  apply bind_Ok in Hi as (_ & Hn%bail_if_Ok%negb_false_iff & Hi).
  apply bind_Ok in Hi as (url & _ & Hi). apply bind_Ok in Hi as (key & Hkey & [= <-]).
  split; [by apply safe_name_spec|]. by eapply required_secret_Ok.
Qed.

(** The checks of a list of fields *)
Ltac fields H :=
  rewrite first_Err_Ok in H; unfold not_zero, at_most in H;
  repeat setoid_rewrite Forall_cons in H; repeat setoid_rewrite bail_if_Ok in H; cbn [fst snd] in H;
  repeat setoid_rewrite Z.eqb_neq in H; repeat setoid_rewrite Z.ltb_ge in H.

Lemma validate_positive_Ok raw : unsigned raw -> validate_positive raw = Ok tt ->
  limits_ok (rw_limits raw) /\
  (1 <= mc_max_torrent_bytes (rw_matching raw) <= 8 * 1024 * 1024 /\
   1 <= mc_max_files_per_torrent (rw_matching raw) <= 1000000 /\ 1 <= mc_max_path_bytes (rw_matching raw) <= 16384) /\
  (forall q, rw_qbittorrent raw = Some q ->
     1 <= rq_inventory_batch_size q <= 500 /\ 1 <= rq_database_batch_size q <= 500 /\ rq_request_timeout q <> 0 /\
     rq_sync_interval q <> 0 /\ rq_full_reconcile_interval q <> 0 /\ rq_inventory_stale_after q <> 0) /\
  (forall p, rw_prowlarr raw = Some p ->
     1 <= rp_max_results_per_query p <= 1000 /\ rp_request_timeout p <> 0 /\ rp_refresh_interval p <> 0).
Proof using.
  intros [(_ & _ & _ & _ & U1 & U2 & U3) _ Uq Up]. unfold validate_positive. rewrite bind_Ok.
  intros ([] & Hq & Hr). apply bind_Ok in Hr as ([] & Hp & Hr). apply bind_Ok in Hr as ([] & Hmax & Hz).
  rewrite first_Err_Ok, Forall_app, <- !first_Err_Ok in Hz. destruct Hz as [Hz Hzq].
  fields Hmax. fields Hz. split; [unfold limits_ok; tauto|]. split; [lia|]. split.
  - intros q Hraw. rewrite Hraw in *. specialize (Uq q eq_refl).
    apply bind_Ok in Hq as ([] & Hb & Ht). fields Hb. fields Ht. fields Hzq. lia.
  - intros p Hraw. rewrite Hraw in *. specialize (Up p eq_refl).
    apply bind_Ok in Hp as ([] & Hmin%bail_if_Ok%Z.eqb_neq & Hp).
    apply bind_Ok in Hp as ([] & Hlim%bail_if_Ok%Z.ltb_ge & Hp). cbn [fst snd] in *. fields Hp. lia.
Qed.

(** C22: A configuration that loads is what the parts of the program assume.  The limits of
    the matcher are those under which its objective cannot wrap, the extensions are
    distinct, short and lower case without dots, every template renders in the context of
    every decision, a threshold always has a bound, path rewrites are unambiguous under an
    absolute link root, data roots have safe names, absolute paths and depths of at most
    sixteen, batches and limits are within their ranges, keys are there and bounded, and
    the base URL of Prowlarr has no credentials and ends where paths are joined to it. *)
Theorem loaded_config_is_valid contents path required environment config :
  (forall value raw, try_into parse_duration value = Some raw -> unsigned raw) ->
  load contents path required environment = Ok config -> valid config.
Proof using All.
  intros Hun. unfold load. rewrite bind_Ok. intros (value & _ & Hr).
  apply bind_Ok in Hr as (raw & Hraw%ok_or_Ok & Hr). apply Hun in Hraw as Hu. destruct Hu as [Um Ur Uq Up].
  apply bind_Ok in Hr as ([] & Hpos & Hr). apply bind_Ok in Hr as (matching & Hm & Hr).
  apply bind_Ok in Hr as (injection & Hi & Hr). apply bind_Ok in Hr as (link_root & _ & Hr).
  apply bind_Ok in Hr as ([] & Hpaths & Hr). apply bind_Ok in Hr as ([] & Hroots & Hr).
  apply bind_Ok in Hr as (api_key & Hkey & Hr). apply bind_Ok in Hr as (qbittorrent & Hq & Hr).
  apply bind_Ok in Hr as (prowlarr & Hp & Hr). apply bind_Ok in Hr as (_ & Harr%bail_if_Ok & Hr).
  apply bind_Ok in Hr as (series & Hs & Hr). apply bind_Ok in Hr as (movies & Hv & [= <-]).
  destruct (validate_positive_Ok raw (Hun _ _ Hraw) Hpos) as (Hlimits & Htorrents & Hpq & Hpp).
  destruct (matching_Ok _ _ Um Hm) as (Hmok & E1 & E2 & E3).
  apply load_arr_Ok in Hs as [Ls Hs], Hv as [Lv Hv]. rewrite length_entries in Ls, Lv. apply Z.ltb_ge in Harr.
  split; cbn [cf_limits cf_matching cf_injection cf_paths cf_data_roots cf_auth_api_key cf_qbittorrent cf_prowlarr cf_arr].
  - done.
  - done.
  - by rewrite E1, E2, E3.
  - by eapply injection_Ok.
  - by destruct (Paths.validate_paths _) as [[]|].
  - by apply validate_data_roots_Ok.
  - by apply optional_secret_Ok in Hkey as [_ Hkey].
  - intros q ->. destruct (rw_qbittorrent raw) as [rq|]; [|done].
    apply bind_Ok in Hq as (q' & Hq & [= <-]). apply bind_Ok in Hq as (url & _ & Hq).
    apply bind_Ok in Hq as (key & Hk & [= <-]). apply optional_secret_Ok in Hk as [_ Hk].
    destruct (Hpq rq eq_refl) as (? & ? & ?). by split.
  - intros p ->. destruct (rw_prowlarr raw) as [rp|]; [|done].
    apply bind_Ok in Hp as (p' & Hp & [= <-]). apply bind_Ok in Hp as (url & Hurl%ok_or_Ok & Hp).
    apply bind_Ok in Hp as (key & Hk%required_secret_Ok & [= <-]). apply service_url_ok in Hurl.
    destruct (Hpp rp eq_refl) as (? & ?). by split.
  - split; [rewrite length_app; lia|]. intros i [Hin|Hin]%elem_of_app; [by apply Hs|by apply Hv].
Qed.
End Valid.

(** ** Example: a file with the URL of Prowlarr, and its key in the environment *)

Module Sample.
#[local] Existing Instance Prowlarr.Sample.http.

#[local] Instance base_url : BaseUrl := {|
  cannot_be_a_base _ := false; username _ := []; password _ := None; query _ := None; fragment _ := None;
  set_url_path u path := (u.1, path) |}.
#[local] Instance base_url_laws : BaseUrlLaws.
Proof. by split. Qed.

#[local] Instance scalars : Scalars := {| Scalar := str; text s := s |}.
Definition text_at (value : Value) (path : list str) : option str :=
  match at_path value path with Some (Leaf s) => Some s | _ => None end.

(** A document is a single value, or the URL of Prowlarr. *)
#[local] Instance toml : Toml := {|
  from_str s := Some (if starts_with (lit "value = ") s then {[ lit "value" := Leaf (drop 8 s) ]}
                      else {[ lit "prowlarr" := Table {[ lit "url" := Leaf s ]} ]});
  try_from format raw := Some (Table (list_to_map
    [(lit "server", Table {[ lit "request_timeout" := Leaf (format (sv_request_timeout (rw_server raw))) ]});
     (lit "paths", Table {[ lit "link_root" := Leaf (default [] (pc_link_root (rw_paths raw))) ]})]));
  try_into parse value := Some
    (mkRawConfig _ default_server None default_runtime default_limits default_logging default_metrics None
       (Some (mkRawProwlarr (default [] (text_at value [lit "prowlarr"; lit "url"]))
                (text_at value [lit "prowlarr"; lit "api_key"])
                (match parse (default [] (text_at value [lit "server"; lit "request_timeout"])) with
                 | Ok d => d | Err _ => 0 end) (from_secs 60) [] [] true 100))
       (mkArrConfig _ ∅ ∅) (mkPathsConfig (text_at value [lit "paths"; lit "link_root"]) [])
       default_filters default_matching default_injection
       {[ lit "media" := DataScan.mkDataRoot (lit "/media") 8 1000 100 ]}) |}.

Definition contents : result IoFailure str := Ok (lit "http://prowlarr/base").
Definition environment : list (str * str) :=
  [(lit "PATH", lit "/bin"); (lit "SPOROS__PROWLARR__API_KEY", lit "k");
   (lit "SPOROS__PATHS__LINK_ROOT", lit "/links")].
Definition tree : Value :=
  match load_tree contents DEFAULT_PATH false environment with Ok value => value | Err _ => Table ∅ end.
Definition loaded : option Config :=
  match load contents DEFAULT_PATH false environment with Ok config => Some config | Err _ => None end.

Lemma loads : exists config, loaded = Some config /\ load contents DEFAULT_PATH false environment = Ok config.
Proof. vm_compute. eexists. split; reflexivity. Defined.

Lemma loaded_config_is_valid_witness :
  exists config, loaded = Some config /\ valid config /\ Paths.p_link_root (cf_paths config) = lit "/links" /\
    (pr_api_key <$> cf_prowlarr config) = Some (lit "k").
Proof.
  destruct loads as (config & Hl & Hc). exists config. split; [exact Hl|]. split.
  - refine (loaded_config_is_valid (H3 := ascii_unicode) contents DEFAULT_PATH false environment config _ Hc).
    intros value raw [= <-]. split.
    + unfold unsigned_matching. cbn. lia.
    + intros name root Hroot. cbn [rw_data_roots] in Hroot. apply lookup_singleton_Some in Hroot as [<- <-]. cbn. lia.
    + done.
    + intros p [= <-]. cbn. lia.
  - revert Hl. vm_compute. intros [= <-]. split; reflexivity.
Defined.

Lemma environment_over_file_over_defaults_witness :
  load_tree contents DEFAULT_PATH false environment = Ok tree /\
  at_path tree [lit "paths"; lit "link_root"] = Some (Leaf (lit "/links")) /\
  at_path tree [lit "prowlarr"; lit "url"] = Some (Leaf (lit "http://prowlarr/base")) /\
  at_path tree [lit "server"; lit "request_timeout"] = Some (Leaf (lit "30s")).
Proof.
  assert (load_tree contents DEFAULT_PATH false environment = Ok tree) as Ht by (vm_compute; reflexivity).
  split; [exact Ht|].
  destruct (environment_over_file_over_defaults contents DEFAULT_PATH false environment tree Ht)
    as (defaults & Hd & Henv & Hfile). injection Hd as <-.
  assert (forall p, p ∈ [[lit "prowlarr"; lit "url"]; [lit "server"; lit "request_timeout"]] ->
    untouched environment p) as Hu.
  { intros p Hp key raw q Hin Hq Hc.
    repeat (apply elem_of_cons in Hin as [[= -> ->]|Hin]; [vm_compute in Hq; simplify_eq|]);
      [..|by apply not_elem_of_nil in Hin];
      repeat (apply elem_of_cons in Hp as [->|Hp]; [destruct Hc as [[r Hr]|[r Hr]]; by vm_compute in Hr|]);
      by apply not_elem_of_nil in Hp. }
  split; [|split].
  - destruct (Henv [(lit "PATH", lit "/bin"); (lit "SPOROS__PROWLARR__API_KEY", lit "k")]
      (lit "SPOROS__PATHS__LINK_ROOT") (lit "/links") [] [lit "paths"; lit "link_root"] eq_refl)
      as (parsed & Hval & Hat); [vm_compute; reflexivity|by intros ? ? ? ?%not_elem_of_nil|].
    vm_compute in Hval. injection Hval as <-. exact Hat.
  - destruct (Hfile [lit "prowlarr"; lit "url"]) as (file & Hf & Hat); [apply Hu; by left|].
    injection Hf as <-. exact Hat.
  - destruct (Hfile [lit "server"; lit "request_timeout"]) as (file & Hf & Hat); [apply Hu; right; by left|].
    destruct (at_path (Table file) [lit "server"; lit "request_timeout"]) eqn:E; injection Hf as <-;
      [vm_compute in E; discriminate|].
    rewrite Hat; [vm_compute; reflexivity|]. intros (p & l & [r Hp] & Hl).
    destruct p as [|s1 [|s2 p]]; [done| |]; cbn in Hp; injection Hp as <-; vm_compute in Hl; by simplify_eq.
Defined.
End Sample.
