(* ===== verification/Preflight.v ===== *)
(** The check of an announcement (preflight.rs): is there a source in the library that a
    release with this name and size could be made of?

    The statements are read from the tables of Library.v: a condition of a [WHERE] clause is
    a test of a row, where a column that is null passes [IS NULL OR].  [serde] is the
    decoder of the releases of data sources; a null in that column would be a panic, which
    is [PfNull]. *)

From S2P Require Import Prelude Text Float Model Store Duroxide Candidate Library.
From S2P Require Release Matcher Decision DecisionProofs QbitProjection.
From stdpp Require Import strings.
Local Open Scope Z_scope.

Definition MAX_PLAUSIBLE_ROWS : nat := 32.

Inductive SourceState := Complete | Downloading.
#[export] Instance SourceState_eq_dec : EqDecision SourceState.
Proof. solve_decision. Defined.

Inductive PreflightError := PfJson | PfNull | SizeRange.

(** [AND (column IS NULL OR ? IS NULL OR column = ?)] *)
Definition optional_equal {A} `{EqDecision A} (column value : option A) : bool :=
  match column, value with Some c, Some v => bool_decide (c = v) | _, _ => true end.

(** [push_identity]: [video_kind IN (...)] and the numbers of the kind *)
Definition identity_kinds (release : ReleaseDescriptor) (allow_season_from_episodes : bool) : list VideoKind :=
  match rd_kind release with
  | Movie | Disc => [Movie; Disc; UnknownVideo]
  | Episode => [Episode; UnknownVideo]
  | SeasonPack => if allow_season_from_episodes then [SeasonPack; Episode; UnknownVideo] else [SeasonPack; UnknownVideo]
  | DateEpisode => [DateEpisode; UnknownVideo]
  | AbsoluteEpisode => [AbsoluteEpisode; UnknownVideo]
  | UnknownVideo => []
  end.
Definition identity_numbers (release : ReleaseDescriptor) (c : ReleaseColumns) : bool :=
  match rd_kind release with
  | Movie | Disc => optional_equal (rc_release_year c) (rd_year release)
  | Episode => optional_equal (rc_season c) (rd_season release) && optional_equal (rc_episode c) (rd_episode release)
  | SeasonPack => optional_equal (rc_season c) (rd_season release)
  | DateEpisode => optional_equal (rc_air_date c) (QbitProjection.air_date_text <$> rd_air_date release)
  | AbsoluteEpisode => optional_equal (rc_absolute_episode c) (rd_absolute_episode release)
  | UnknownVideo => true
  end.
Definition push_identity (release : ReleaseDescriptor) (allow_season_from_episodes : bool) (c : ReleaseColumns)
  : bool :=
  bool_decide (rd_kind release = UnknownVideo)
  || str_mem (rc_video_kind c) (map QbitProjection.video_kind (identity_kinds release allow_season_from_episodes))
     && identity_numbers release c.

Definition compatible {A} `{EqDecision A} (left right : option A) : bool :=
  bool_decide (left = None) || bool_decide (right = None) || bool_decide (left = right).

Definition plausible_identity (candidate source : ReleaseDescriptor) (allow_season_from_episodes : bool) : bool :=
  let kind := bool_decide (rd_kind candidate = UnknownVideo) || bool_decide (rd_kind source = UnknownVideo)
    || bool_decide (rd_kind candidate = rd_kind source)
    || (allow_season_from_episodes && bool_decide (rd_kind candidate = SeasonPack)
        && bool_decide (rd_kind source = Episode)) in
  kind && compatible (rd_year candidate) (rd_year source) && compatible (rd_season candidate) (rd_season source)
  && (bool_decide (rd_kind candidate = SeasonPack) || compatible (rd_episode candidate) (rd_episode source))
  && compatible (rd_absolute_episode candidate) (rd_absolute_episode source)
  && compatible (rd_air_date candidate) (rd_air_date source).

Definition to_i64 (value : Z) : result PreflightError Z := ok_or (i64_try_from value) SizeRange.

(** [total_size BETWEEN ? AND ?], if a size was announced *)
Definition size_range (announced_size : option Z) (size_tolerance : spec_float)
  : result PreflightError (option (Z * Z)) :=
  match announced_size with
  | Some size =>
      if 0 <? size then
        let delta := ceil_scaled size size_tolerance in
        low ← to_i64 (saturating_sub_u size delta);
        high ← to_i64 (saturating_add_u64 size delta);
        Ok (Some (low, high))
      else Ok None
  | None => Ok None
  end.
Definition in_range (range : option (Z * Z)) (total_size : Z) : bool :=
  match range with Some (low, high) => (low <=? total_size) && (total_size <=? high) | None => true end.

Section Preflight.
Context `{CandidateCodec}.

(** The condition on a torrent: its title, its identity, its size and the filters *)
Definition torrent_plausible (release : ReleaseDescriptor) (range : option (Z * Z))
    (allow_season_from_episodes : bool) (filters : SourceFilters) (row : QbitRow) : bool :=
  qt_available row
  && match qt_release row with
     | Some c => str_eqb (rc_normalized_title c) (rd_primary_title release)
                 && push_identity release allow_season_from_episodes c
     | None => false
     end
  && in_range range (qt_total_size row) && Decision.admitted filters row.

Definition data_titled (release : ReleaseDescriptor) (range : option (Z * Z)) (row : DataSourceRow) : bool :=
  dt_available row && bool_decide (dt_normalized_title row = Some (rd_primary_title release))
  && in_range range (dt_total_size row).

(** [ORDER BY id LIMIT ?] *)
Definition data_rows (db : Library) (release : ReleaseDescriptor) (range : option (Z * Z))
  : list (str * DataSourceRow) :=
  take MAX_PLAUSIBLE_ROWS (sort_by (fun a b => str_leb a.1 b.1)
    (filter (fun p : str * DataSourceRow => data_titled release range p.2 = true)
       (map_to_list (sporos_data_source db)))).

(** The loop over the rows of the data sources *)
Fixpoint first_plausible (release : ReleaseDescriptor) (allow_season_from_episodes : bool)
    (rows : list (str * DataSourceRow)) : result PreflightError (option SourceState) :=
  match rows with
  | [] => Ok None
  | (_, row) :: rows =>
      json ← ok_or (dt_release_json row) PfNull;
      source ← ok_or (decode_release json) PfJson;
      if plausible_identity release source allow_season_from_episodes then Ok (Some Complete)
      else first_plausible release allow_season_from_episodes rows
  end.

Definition preflight_source (release : ReleaseDescriptor) (announced_size : option Z) (size_tolerance : spec_float)
    (allow_season_from_episodes : bool) (filters : SourceFilters) (db : Library)
  : result PreflightError (option SourceState) :=
  range ← size_range announced_size size_tolerance;
  let torrents := take MAX_PLAUSIBLE_ROWS (sort_by Decision.complete_first
    (filter (fun p : str * QbitRow =>
               torrent_plausible release range allow_season_from_episodes filters p.2 = true)
       (map_to_list (sporos_qbit_torrent db)))) in
  match head torrents with
  | Some (_, row) => Ok (Some (if qt_is_complete row then Complete else Downloading))
  | None => first_plausible release allow_season_from_episodes (data_rows db release range)
  end.

End Preflight.

(** ** What is refused *)

(** What it takes for the matcher not to refuse a source *)
Lemma compatible_kinds candidate source season :
  Matcher.compatible candidate source season = Ok tt ->
  (rd_kind candidate = UnknownVideo \/ rd_kind source = UnknownVideo \/ rd_kind candidate = rd_kind source \/
   (season = true /\ rd_kind candidate = SeasonPack /\ rd_kind source = Episode)) /\
  Matcher.both_differ (rd_year candidate) (rd_year source) = false /\
  Matcher.both_differ (rd_season candidate) (rd_season source) = false /\
  (season = true \/ rd_kind candidate <> Episode \/ rd_kind source <> Episode \/
   rd_episode candidate = rd_episode source) /\
  Matcher.both_differ (rd_air_date candidate) (rd_air_date source) = false /\
  Matcher.both_differ (rd_absolute_episode candidate) (rd_absolute_episode source) = false.
Proof.
  unfold Matcher.compatible. rewrite bind_Ok. intros (_ & _ & Hr).
  apply bind_Ok in Hr as (_ & Hk%bail_if_Ok & Hr). apply bind_Ok in Hr as (_ & _ & Hr).
  apply bind_Ok in Hr as (_ & Hy%bail_if_Ok & Hr). apply bind_Ok in Hr as (_ & Hs%bail_if_Ok & Hr).
  apply bind_Ok in Hr as (_ & He%bail_if_Ok & Hr). apply bind_Ok in Hr as (_ & Hd%bail_if_Ok & Ha%bail_if_Ok).
  split_and!; try done.
  - destruct season, (rd_kind candidate), (rd_kind source); cbn in Hk; try done; auto; repeat right; done.
  - rewrite !andb_false_iff, negb_false_iff, !bool_decide_eq_false in He.
    destruct He as [[[He|He]|He]|He]; [by left|by right; left|by right; right; left|].
    right; right; right. apply dec_stable in He. congruence.
Qed.

Lemma both_differ_compatible {A} `{EqDecision A} (x y : option A) :
  Matcher.both_differ x y = false -> optional_equal y x = true /\ compatible x y = true.
Proof.
  unfold Matcher.both_differ, optional_equal, compatible. destruct x, y; try done.
  intros Hd%bool_decide_eq_false. apply dec_stable in Hd as ->. split; [by apply bool_decide_eq_true_2|].
  apply orb_true_intro. right. by apply bool_decide_eq_true_2.
Qed.

Lemma no_episode d : Release.release_invariant d -> rd_kind d <> Episode -> rd_episode d = None.
Proof. unfold Release.release_invariant, Release.no_numbers. intros Hd Hk. destruct (rd_kind d); naive_solver. Qed.

Lemma no_number {A} `{EqDecision A} (x : option A) :
  (optional_equal None x = true /\ compatible x None = true) /\ optional_equal x None = true /\ compatible None x = true.
Proof. unfold optional_equal, compatible. by destruct x. Qed.

(** The identity that the check asks for is weaker than that of the matcher. *)
Lemma identity_superset release r season allow :
  Release.release_invariant release -> Release.release_invariant r ->
  (season = true -> allow = true /\ rd_kind release = SeasonPack) ->
  Matcher.compatible release r season = Ok tt ->
  push_identity release allow (QbitProjection.release_columns r) = true /\
  plausible_identity release r allow = true.
Proof.
  intros Hi Hr Hs (Hk & Hy & Hse & He & Hd & Ha)%compatible_kinds.
  destruct (both_differ_compatible _ _ Hy) as [Y1 Y2], (both_differ_compatible _ _ Hse) as [S1 S2],
    (both_differ_compatible _ _ Hd) as [_ D2], (both_differ_compatible _ _ Ha) as [A1 A2].
  assert (optional_equal (QbitProjection.air_date_text <$> rd_air_date r)
    (QbitProjection.air_date_text <$> rd_air_date release) = true) as D1.
  { destruct (rd_air_date r), (rd_air_date release); try done. cbn in Hd |- *.
    apply bool_decide_eq_false in Hd. apply dec_stable in Hd as ->. by apply bool_decide_eq_true_2. }
  assert (optional_equal (rd_episode r) (rd_episode release) = true /\
    compatible (rd_episode release) (rd_episode r) = true \/ rd_kind release = SeasonPack) as HE.
  { destruct (decide (rd_kind r = Episode)) as [K2|K2]; [|left; rewrite (no_episode r) by done; apply no_number].
    destruct (decide (rd_kind release = Episode)) as [K1|K1];
      [|left; rewrite (no_episode release) by done; apply no_number].
    destruct He as [Ht|[?|[?|E]]]; try done; [right; by apply Hs|left]. rewrite E.
    apply both_differ_compatible. unfold Matcher.both_differ. destruct (rd_episode r); [|done].
    apply bool_decide_eq_false_2. intros Hn. by apply Hn. }
  split.
  - unfold push_identity. case_bool_decide as Hu; [done|]. cbn [orb]. apply andb_true_intro. split.
    + apply bool_decide_eq_true_2. change (rc_video_kind _) with (QbitProjection.video_kind (rd_kind r)).
      apply (list_elem_of_fmap_2 QbitProjection.video_kind). unfold identity_kinds.
      destruct Hk as [?|[->|[<-|(Ht & -> & ->)]]]; [done|..].
      * destruct (rd_kind release); destruct allow; set_solver.
      * destruct (rd_kind release); destruct allow; set_solver.
      * destruct (Hs Ht) as [-> _]. set_solver.
    + unfold identity_numbers. cbn. destruct (rd_kind release) eqn:K; try done.
      rewrite S1. by destruct HE as [[-> _]|?].
  - unfold plausible_identity. rewrite Y2, S2, A2, D2, !andb_true_r. apply andb_true_intro. split.
    + rewrite !orb_true_iff, !andb_true_iff, !bool_decide_eq_true.
      destruct Hk as [?|[?|[?|(Ht & ? & ?)]]]; try destruct (Hs Ht); auto 7.
    + rewrite orb_true_iff, bool_decide_eq_true. destruct HE as [[_ ?]|?]; auto.
Qed.

Section Refused.
Context `{CandidateCodec}.

Lemma first_sorted {A} (leb : A -> A -> bool) n l :
  (forall x y, leb x y = true \/ leb y x = true) ->
  (forall x y z, leb x y = true -> leb y z = true -> leb x z = true) ->
  match head (take (S n) (sort_by leb l)) with
  | None => l = []
  | Some x => x ∈ l /\ forall y, y ∈ l -> leb x y = true
  end.
Proof.
  intros Htotal Htrans. pose proof (sort_by_sorted leb Htotal Htrans l) as Hs.
  assert (forall y, y ∈ sort_by leb l <-> y ∈ l) as He by (intros; apply elem_of_sort_by). pose proof (length_sort_by leb l) as Hlen.
  destruct (sort_by leb l) as [|x sorted]; cbn; [by destruct l|].
  split; [apply He; by left|]. intros y Hy%He. apply StronglySorted_inv in Hs as [_ Hall].
  apply elem_of_cons in Hy as [->|Hy]; [by destruct (Htotal x x)|]. rewrite Forall_forall in Hall. by apply Is_true_true, Hall.
Qed.

Lemma first_plausible_None release allow rows :
  first_plausible release allow rows = Ok None ->
  forall id row json source, (id, row) ∈ rows -> dt_release_json row = Some json ->
    decode_release json = Some source -> plausible_identity release source allow = false.
Proof.
  induction rows as [|[i r] rows IH]; [by intros _ ? ? ? ? ?%not_elem_of_nil|]. cbn. rewrite bind_Ok.
  intros (json' & Hj%ok_or_Ok & Hr). apply bind_Ok in Hr as (source' & Hs%ok_or_Ok & Hr).
  destruct (plausible_identity release source' allow) eqn:Hp; [done|].
  intros id row json source [[= -> ->]|Hin]%elem_of_cons Hjson Hdec; [|by eapply IH].
  by simplify_eq.
Qed.

Lemma first_plausible_Some release allow rows state :
  first_plausible release allow rows = Ok (Some state) ->
  state = Complete /\ exists id row json source, (id, row) ∈ rows /\ dt_release_json row = Some json /\
    decode_release json = Some source /\ plausible_identity release source allow = true.
Proof.
  induction rows as [|[i r] rows IH]; [done|]. cbn. rewrite bind_Ok.
  intros (json & Hj%ok_or_Ok & Hr). apply bind_Ok in Hr as (source & Hs%ok_or_Ok & Hr).
  destruct (plausible_identity release source allow) eqn:Hp.
  - injection Hr as <-. split; [done|]. exists i, r, json, source. split; [by left|done].
  - destruct (IH Hr) as (? & id & row & j & s & Hin & ?). split; [done|]. exists id, row, j, s. split; [by right|done].
Qed.

(** C23: When the check finds nothing, then no available torrent that the filters admit,
    with the title of the release and a size in the tolerance, has a release that the
    matcher takes for it, alone or as an episode of a season pack.  Nor has any data source
    of that title and size, as long as there are at most 32 of them: the check reads the
    first 32 only, and beyond them a source that the matcher takes may be missed
    ([long_season_is_refused]).  When the check finds a source, there is a plausible one: a
    torrent, complete if any is, or else a data source. *)
Theorem refused_only_without_source release announced tolerance allow filters db range found :
  Release.release_invariant release -> size_range announced tolerance = Ok range ->
  preflight_source release announced tolerance allow filters db = Ok found ->
  match found with
  | None =>
      forall r season, Release.release_invariant r -> rd_primary_title r = rd_primary_title release ->
        (season = true -> allow = true /\ rd_kind release = SeasonPack) ->
        Matcher.compatible release r season = Ok tt ->
        (forall id row, sporos_qbit_torrent db !! id = Some row -> qt_available row = true ->
           Decision.admitted filters row = true -> in_range range (qt_total_size row) = true ->
           qt_release row <> Some (QbitProjection.release_columns r)) /\
        ((length (filter (fun p : str * DataSourceRow => data_titled release range p.2 = true)
                    (map_to_list (sporos_data_source db))) <= MAX_PLAUSIBLE_ROWS)%nat ->
         forall id row json, sporos_data_source db !! id = Some row -> data_titled release range row = true ->
           dt_release_json row = Some json -> decode_release json <> Some r)
  | Some state =>
      (exists id row, sporos_qbit_torrent db !! id = Some row /\
         torrent_plausible release range allow filters row = true /\
         (state = Complete <-> qt_is_complete row = true) /\
         (state = Downloading -> forall id' row', sporos_qbit_torrent db !! id' = Some row' ->
            torrent_plausible release range allow filters row' = true -> qt_is_complete row' = false)) \/
      state = Complete /\ exists id row json source, sporos_data_source db !! id = Some row /\
        data_titled release range row = true /\ dt_release_json row = Some json /\
        decode_release json = Some source /\ plausible_identity release source allow = true
  end.
Proof.
  intros Hi Hrange. unfold preflight_source. rewrite Hrange. cbn [mbind result_bind].
  set (cond := fun p : str * QbitRow => torrent_plausible release range allow filters p.2 = true).
  set (torrents := filter cond (map_to_list (sporos_qbit_torrent db))).
  assert (forall id row, (id, row) ∈ torrents <-> sporos_qbit_torrent db !! id = Some row /\
    torrent_plausible release range allow filters row = true) as Hin.
  { intros id row. unfold torrents. rewrite list_elem_of_filter, elem_of_map_to_list. unfold cond. cbn. tauto. }
  pose proof (first_sorted Decision.complete_first 31 torrents DecisionProofs.complete_first_total
    DecisionProofs.complete_first_trans) as Hhead.
  change (S 31) with MAX_PLAUSIBLE_ROWS in Hhead.
  destruct (head (take MAX_PLAUSIBLE_ROWS (sort_by Decision.complete_first torrents))) as [[id row]|].
  - intros [= <-]. destruct Hhead as [[Hrow Hp]%Hin Hmin]. left. exists id, row. split; [done|]. split; [done|].
    destruct (qt_is_complete row) eqn:Hc; (split; [done|]); [done|]. intros _ id' row' Hrow' Hp'.
    specialize (Hmin (id', row') (proj2 (Hin _ _) (conj Hrow' Hp'))). unfold Decision.complete_first in Hmin.
    cbn in Hmin. rewrite Hc in Hmin. by destruct (qt_is_complete row').
  - intros Hf. destruct found as [state|].
    + right. apply first_plausible_Some in Hf as (-> & id & row & json & source & Hrow & Hrest). split; [done|].
      exists id, row, json, source. apply elem_of_take in Hrow as (i & Hrow & _). apply list_elem_of_lookup_2 in Hrow.
      rewrite elem_of_sort_by, list_elem_of_filter, elem_of_map_to_list in Hrow. naive_solver.
    + intros r season Hr Htitle Hseason Hc.
      destruct (identity_superset release r season allow Hi Hr Hseason Hc) as [Hid Hplausible]. split.
      * intros id row Hrow Hav Hadm Hsize Hrel.
        assert ((id, row) ∈ torrents) as Hn; [|rewrite Hhead in Hn; by apply not_elem_of_nil in Hn].
        apply Hin. split; [done|]. unfold torrent_plausible. rewrite Hav, Hadm, Hsize, Hrel, Hid. cbn.
        by rewrite Htitle, str_eqb_refl.
      * intros Hfew id row json Hrow Htitled Hjson Hdec.
        assert (plausible_identity release r allow = false) as Hno; [|congruence].
        refine (first_plausible_None _ _ _ Hf id row json r _ Hjson Hdec).
        unfold data_rows. rewrite take_ge by (by rewrite length_sort_by).
        rewrite elem_of_sort_by, list_elem_of_filter, elem_of_map_to_list. done.
Qed.
End Refused.

(** ** Examples *)

Module Sample.
Import Codec.

Definition release_named (name : string) : ReleaseDescriptor := Release.parse_release (lit name).
Definition no_filters : SourceFilters := mkSourceFilters [] [] [] [] true.

Lemma named_invariant name : Release.release_invariant (release_named name).
Proof. exact (proj2 (Release.classify_ok (Release.leaf_without_extension (lit name)))). Qed.

Definition torrent (name : string) (size : Z) (complete : bool) : QbitRow :=
  mkQbitRow (Some (lit name)) None None (lit name) size 0 1000000 (lit "uploading") (lit "/d") (lit "/d")
    [] [] complete true 0 (lit "unloaded") None None None (Some (encode_release (release_named name)))
    (Some (QbitProjection.release_columns (release_named name))) 1 0.
Definition source (name : string) (size : Z) : DataSourceRow :=
  mkDataSourceRow (lit "media") (lit name) (lit "file") (lit name) size
    (Some (encode_release (release_named name))) (Some (rd_primary_title (release_named name))) true 1 0.
Definition library (torrents : list QbitRow) (sources : list (str * DataSourceRow)) : Library :=
  mkLibrary empty_db ∅ ∅ ∅ ∅ (list_to_map (imap (fun i row => ([Z.of_nat i], row)) torrents))
    (mkInventoryRow None 0 None None None None None None) (list_to_map sources) ∅ ∅ ∅ ∅ ∅ ∅ ∅.

Definition check (name : string) (size : option Z) (db : Library) : result PreflightError (option SourceState) :=
  preflight_source (release_named name) size (S754_finite false 5764607523034235 (-58)) true no_filters db.

Definition show : Library :=
  library [torrent "Show.S01E02.mkv" 1000 true; torrent "Show.S01E03.mkv" 2000 false] [].

(** A file of the first season, and its name *)
Definition episode (n : nat) : str := lit "Show.S01E" ++ QbitProjection.padded 2 (Z.of_nat n) ++ lit ".mkv".
Definition season (episodes : nat) : Library :=
  library [] (map (fun n => ([Z.of_nat n],
    let release := Release.parse_release (episode n) in
    mkDataSourceRow (lit "media") (episode n) (lit "file") (episode n) 1000
      (Some (encode_release release)) (Some (rd_primary_title release)) true 1 0)) (seq 1 episodes)).

Lemma refused_only_without_source_witness :
  check "Show.S01E02.1080p" (Some 1010) show = Ok (Some Complete) /\
  check "Show.S01E03.1080p" None show = Ok (Some Downloading) /\
  check "Show.S01E04.1080p" None show = Ok None /\
  Matcher.compatible (release_named "Show.S01E04.1080p") (release_named "Show.S01E02.mkv") false <> Ok tt.
Proof.
  split; [vm_compute; reflexivity|]. split; [vm_compute; reflexivity|].
  assert (check "Show.S01E04.1080p" None show = Ok None) as Hnone by (vm_compute; reflexivity).
  split; [exact Hnone|]. intros Hc.
  destruct (refused_only_without_source (release_named "Show.S01E04.1080p") None
    (S754_finite false 5764607523034235 (-58)) true no_filters show None None
    (named_invariant _) eq_refl Hnone (release_named "Show.S01E02.mkv") false (named_invariant _)
    ltac:(vm_compute; reflexivity) ltac:(discriminate) Hc) as [Htorrents _].
  apply (Htorrents [0] (torrent "Show.S01E02.mkv" 1000 true)); vm_compute; reflexivity.
Defined.

(** More than 32 data sources with a title hide the later ones: the limit is applied before
    the identities are compared, so that an episode that is there is refused. *)
Lemma long_season_is_refused :
  check "Show.S01E33.1080p" None (season 33) = Ok None /\
  Matcher.compatible (release_named "Show.S01E33.1080p") (Release.parse_release (episode 33)) false = Ok tt /\
  check "Show.S01E32.1080p" None (season 33) = Ok (Some Complete).
Proof. split_and!; vm_compute; reflexivity. Qed.

(** The size that is announced for a season is compared with that of each episode: a season
    that could be made of its episodes is refused when its size is known. *)
Lemma season_with_size_is_refused :
  check "Show.S01.1080p" None (season 3) = Ok (Some Complete) /\
  check "Show.S01.1080p" (Some 3000) (season 3) = Ok None.
Proof. split_and!; vm_compute; reflexivity. Qed.
End Sample.
