(* ===== verification/Arr.v ===== *)
(** The enrichment of a torrent by Sonarr and Radarr (arr.rs): what an instance knows of the
    download becomes an identity and more titles of the release, and answers are kept in a
    cache, those without a match for an hour.

    HTTP, URLs and JSON are third-party: a response is what [history] answers, and the
    codecs are serde's.  The column [arr_identity_json], which nothing reads, and log lines
    are left out. *)

From S2P Require Import Prelude Text Model Store Duroxide Library Catalogue Torznab Prowlarr.
From S2P Require Release Facts QbitProjection Config.
From stdpp Require Import strings.
Local Open Scope Z_scope.

Definition MAX_HISTORY_BYTES : Z := 2 * 1024 * 1024.
Definition HISTORY_PAGE_SIZE : nat := 100.
Definition NEGATIVE_CACHE_MS : Z := 60 * 60 * 1000.

(** [arr::ArrIdentity], which is not the [ArrIdentity] of a release *)
Record ArrIdentity := mkIdentity {
  id_source_title : str; id_event_type : str; id_series_id : option Z; id_episode_id : option Z;
  id_movie_id : option Z; id_title : option str; id_tvdb_id : option Z; id_tmdb_id : option Z;
  id_imdb_id : option str }.
#[export] Instance ArrIdentity_eq_dec : EqDecision ArrIdentity.
Proof. solve_decision. Defined.

Record Entity := mkEntity {
  et_title : option str; et_tvdb_id : option Z; et_tmdb_id : option Z; et_imdb_id : option str }.
Record HistoryRecord := mkHistoryRecord {
  hr_download_id : option str; hr_source_title : str; hr_event_type : str; hr_series_id : option Z;
  hr_episode_id : option Z; hr_movie_id : option Z; hr_series : option Entity; hr_movie : option Entity }.

Record EnrichmentReport := mkReport {
  er_queried : nat; er_cache_hits : nat; er_failed : nat; er_applied : bool }.
Definition no_report : EnrichmentReport := mkReport 0 0 0 false.

Record ArrClient `{Http} := mkArrClient { base_url : Url; api_key : str }.
Record EnrichmentInstance `{Http} := mkInstance {
  in_kind : Config.ArrKind; in_name : str; in_client : ArrClient }.
Arguments mkArrClient {_}. Arguments mkInstance {_}.

(** What the instances answer, and serde on their answers and on the cache *)
Class ArrService `{Http} := {
  history : Url -> str -> list (str * str) -> result HttpError Response;
  decode_history : str -> option (list HistoryRecord);
  (** [HeaderValue::from_str] accepts the key *)
  header_value : str -> bool }.
Class IdentityCodec := {
  encode_identity : ArrIdentity -> str;
  decode_identity : str -> option ArrIdentity }.
Class IdentityCodecLaws `{IdentityCodec} : Prop := {
  decode_encode_identity : forall i, decode_identity (encode_identity i) = Some i }.

Inductive ArrConfigError := InvalidBaseUrl | InvalidApiKey.
Inductive ArrError `{Http} :=
| ArRequest (e : HttpError)
| ArHttpStatus (status : Z)
| ArResponseTooLarge
| ArMalformed
| TooManyRecords
| ArSerialize
| ArNoTorrent.

Inductive CacheState := Hit (identity : option ArrIdentity) | Miss.

Definition kind_text (kind : Config.ArrKind) : str :=
  match kind with Config.Sonarr => lit "sonarr" | Config.Radarr => lit "radarr" end.

Definition relevant (kind : Config.ArrKind) (video : VideoKind) : bool :=
  match video, kind with
  | (Movie | Disc), Config.Radarr => true
  | (Episode | SeasonPack | DateEpisode | AbsoluteEpisode), Config.Sonarr => true
  | UnknownVideo, _ => true
  | _, _ => false
  end.

(** [HistoryRecord::identity] *)
Definition identity (self : HistoryRecord) : ArrIdentity :=
  let entity := match hr_series self with Some series => Some series | None => hr_movie self end in
  mkIdentity (hr_source_title self) (hr_event_type self) (hr_series_id self) (hr_episode_id self)
    (hr_movie_id self) (entity ≫= et_title) (entity ≫= et_tvdb_id) (entity ≫= et_tmdb_id)
    (entity ≫= et_imdb_id).

Section Arr.
Context `{Unicode} `{CandidateCodec} `{IdentityCodec} `{Http} `{!Config.BaseUrl} `{!ArrService}.

Abbreviation Answer A := (result ArrError A).
Abbreviation Act A := (M Catalogue ArrError A).

(** ** The client *)

Definition ApiKey_new (value : str) : result ArrConfigError str :=
  _ ← bail_if (negb (header_value value)) InvalidApiKey;
  _ ← bail_if (bool_decide (value = [])) InvalidApiKey;
  Ok value.
Definition ArrClient_new (url : Url) (key : str) : result ArrConfigError ArrClient :=
  if Config.http_base url then Ok (mkArrClient (Config.with_slash url) key) else Err InvalidBaseUrl.

(** [ArrEnricher::new] *)
Definition new_instance (instance : Config.ArrInstance) : result ArrConfigError EnrichmentInstance :=
  key ← ApiKey_new (Config.ai_api_key instance);
  client ← ArrClient_new (Config.ai_url instance) key;
  Ok (mkInstance (Config.ai_kind instance) (Config.ai_name instance) client).
Definition ArrEnricher_new (instances : list Config.ArrInstance)
  : result ArrConfigError (list EnrichmentInstance) := collect new_instance instances.

Definition add_chunk (body : str) (chunk : result HttpError str) : Answer str :=
  bytes ← map_err ArRequest chunk;
  if MAX_HISTORY_BYTES <? Z.of_nat (length body + length bytes) then Err ArResponseTooLarge
  else Ok (body ++ bytes).
Definition checked_body (response : Response) : Answer str :=
  let status := rs_status response in
  if negb ((200 <=? status) && (status <? 300)) then Err (ArHttpStatus status) else
  if match rs_content_length response with Some length => MAX_HISTORY_BYTES <? length | None => false end
  then Err ArResponseTooLarge else
  try_fold add_chunk (rs_chunks response) [].

Definition of_download (download_id : str) (record : HistoryRecord) : bool :=
  match hr_download_id record with Some value => eq_ignore_ascii_case value download_id | None => false end.

Definition history_by_download_id (self : ArrClient) (download_id : str) : Answer (option ArrIdentity) :=
  response ← map_err ArRequest
    (history (Prowlarr.join (base_url self) (lit "api/v3/history")) (api_key self)
       [(lit "page", lit "1"); (lit "pageSize", lit "100"); (lit "sortKey", lit "date");
        (lit "sortDirection", lit "descending"); (lit "downloadId", download_id)]);
  body ← checked_body response;
  records ← ok_or (decode_history body) ArMalformed;
  if (HISTORY_PAGE_SIZE <? length records)%nat then Err TooManyRecords else
  Ok (identity <$> List.find (of_download download_id) records).

(** ** The cache *)

Definition cache_key (source_id : str) (instance : EnrichmentInstance) : str * str * str :=
  (source_id, kind_text (in_kind instance), in_name instance).

(** The row is there if the source is: the table refers to it. *)
Definition cache_arr_identity (source_id : str) (instance : EnrichmentInstance) (source_hash : str)
    (found : option ArrIdentity) (now : Z) : Act () := fun c =>
  let row := mkEnrichmentRow source_hash (encode_identity <$> found) now
    (match found with None => Some (saturating_add_i64 now NEGATIVE_CACHE_MS) | Some _ => None end) in
  if bool_decide (is_Some (sporos_qbit_torrent (library c) !! source_id))
  then (with_enrichments (<[cache_key source_id instance := row]> (sporos_arr_enrichment_cache c)) c, Ok tt)
  else (c, Err ArNoTorrent).

Definition cached (c : Catalogue) (source_id : str) (instance : EnrichmentInstance) (source_hash : str) (now : Z)
  : Answer CacheState :=
  match sporos_arr_enrichment_cache c !! cache_key source_id instance with
  | None => Ok Miss
  | Some row =>
      if negb (str_eqb (en_source_hash row) source_hash) then Ok Miss else
      match en_identity_json row with
      | Some json => found ← ok_or (decode_identity json) ArSerialize; Ok (Hit (Some found))
      | None =>
          if match en_negative_expires_at row with Some expires => now <? expires | None => false end
          then Ok (Hit None) else Ok Miss
      end
  end.

(** ** The enrichment *)

Definition model_identity (instance : EnrichmentInstance) (found : ArrIdentity) : option Model.ArrIdentity :=
  '(kind, entity_id) ← match in_kind instance with
                       | Config.Sonarr => pair ArrSeries <$> id_series_id found
                       | Config.Radarr => pair ArrMovie <$> id_movie_id found
                       end;
  Some (mkArrIdentity kind (in_name instance) entity_id (id_tvdb_id found) (id_tmdb_id found) (id_imdb_id found)).

Definition Selected : Type := option (ArrIdentity * Model.ArrIdentity).

(** [if selected.is_none() && let Some(identity) = identity && let Some(model) = ...] *)
Definition select (instance : EnrichmentInstance) (selected : Selected) (found : option ArrIdentity) : Selected :=
  match selected with
  | Some _ => selected
  | None => found ← found; model ← model_identity instance found; Some (found, model)
  end.

(** The body of the loop *)
Definition ask_instance (source_id source_hash : str) (now : Z) (acc : EnrichmentReport * Selected)
    (instance : EnrichmentInstance) : Act (EnrichmentReport * Selected) :=
  let '(report, selected) := acc in
  state ← reads (fun c => cached c source_id instance source_hash now);
  match state with
  | Hit found =>
      mret (mkReport (er_queried report) (S (er_cache_hits report)) (er_failed report) (er_applied report),
            select instance selected found)
  | Miss =>
      let queried := S (er_queried report) in
      match history_by_download_id (in_client instance) source_hash with
      | Ok found =>
          _ ← cache_arr_identity source_id instance source_hash found now;
          mret (mkReport queried (er_cache_hits report) (er_failed report) (er_applied report),
                select instance selected found)
      | Err _ =>
          mret (mkReport queried (er_cache_hits report) (S (er_failed report)) (er_applied report), selected)
      end
  end.

Fixpoint ask_instances (source_id source_hash : str) (now : Z) (acc : EnrichmentReport * Selected)
    (instances : list EnrichmentInstance) : Act (EnrichmentReport * Selected) :=
  match instances with
  | [] => mret acc
  | instance :: instances =>
      acc ← ask_instance source_id source_hash now acc instance;
      ask_instances source_id source_hash now acc instances
  end.

(** The release with the titles that the instance knows, and its identity *)
Definition add_title (release : ReleaseDescriptor) (title : str) : ReleaseDescriptor :=
  let title := rd_primary_title (Release.parse_release title) in
  if negb (str_eqb title (rd_primary_title release)) && negb (str_mem title (rd_alternate_titles release))
  then {| rd_kind := rd_kind release; rd_primary_title := rd_primary_title release;
          rd_alternate_titles := rd_alternate_titles release ++ [title]; rd_year := rd_year release;
          rd_season := rd_season release; rd_episode := rd_episode release;
          rd_episode_end := rd_episode_end release; rd_absolute_episode := rd_absolute_episode release;
          rd_air_date := rd_air_date release; rd_edition := rd_edition release; rd_source := rd_source release;
          rd_resolution := rd_resolution release; rd_video_codec := rd_video_codec release;
          rd_hdr := rd_hdr release; rd_audio := rd_audio release; rd_release_group := rd_release_group release;
          rd_arr_identity := rd_arr_identity release |}
  else release.
Definition with_identity (model : Model.ArrIdentity) (release : ReleaseDescriptor) : ReleaseDescriptor :=
  {| rd_kind := rd_kind release; rd_primary_title := rd_primary_title release;
     rd_alternate_titles := rd_alternate_titles release; rd_year := rd_year release;
     rd_season := rd_season release; rd_episode := rd_episode release; rd_episode_end := rd_episode_end release;
     rd_absolute_episode := rd_absolute_episode release; rd_air_date := rd_air_date release;
     rd_edition := rd_edition release; rd_source := rd_source release; rd_resolution := rd_resolution release;
     rd_video_codec := rd_video_codec release; rd_hdr := rd_hdr release; rd_audio := rd_audio release;
     rd_release_group := rd_release_group release; rd_arr_identity := Some model |}.
Definition enriched (release : ReleaseDescriptor) (found : ArrIdentity) (model : Model.ArrIdentity)
  : ReleaseDescriptor :=
  with_identity model
    (foldl add_title release (omap id [id_title found; Some (id_source_title found)])).

Definition with_release_json (json : str) (row : QbitRow) : QbitRow :=
  mkQbitRow (qt_qbit_id row) (qt_v1_hash row) (qt_v2_hash row) (qt_name row) (qt_total_size row)
    (qt_amount_left row) (qt_progress_ppm row) (qt_state row) (qt_save_path row) (qt_content_path row)
    (qt_category row) (qt_tags row) (qt_is_complete row) (qt_available row) (qt_manifest_version row)
    (qt_manifest_state row) (qt_fingerprint row) (qt_added_at row) (qt_completed_at row) (Some json)
    (qt_release row) (qt_generation row) (qt_updated_at row).

(** The transaction that stores the release and its facts *)
Definition apply_release (source_id : str) (release : ReleaseDescriptor) (l : Library) : Library :=
  let n := inventory l in
  let n := mkInventory (alter (with_release_json (encode_release release)) source_id (n_torrent n)) (n_state n)
             (n_data n) (n_file n) (n_title n) (n_external n) in
  with_inventory (Facts.replace source_id (lit "qbittorrent") release n) l.

Definition with_applied (report : EnrichmentReport) : EnrichmentReport :=
  mkReport (er_queried report) (er_cache_hits report) (er_failed report) true.

Definition finish (source_id : str) (release : ReleaseDescriptor) (acc : EnrichmentReport * Selected)
  : Act EnrichmentReport := fun c =>
  match acc.2 with
  | None => (c, Ok acc.1)
  | Some (found, model) =>
      (with_library (apply_release source_id (enriched release found model) (library c)) c,
       Ok (with_applied acc.1))
  end.

(** The part after the torrent was found *)
Definition enrich_release (instances : list EnrichmentInstance) (source_id source_hash release_json : str) (now : Z)
  : Act EnrichmentReport :=
  release ← (liftr (ok_or (decode_release release_json) ArSerialize) : Act ReleaseDescriptor);
  acc ← ask_instances source_id source_hash now (no_report, None)
          (filter (fun instance => relevant (in_kind instance) (rd_kind release) = true) instances);
  finish source_id release acc.

Definition enrich_source (instances : list EnrichmentInstance) (source_id : str) (now : Z)
  : Act EnrichmentReport := fun c =>
  match sporos_qbit_torrent (library c) !! source_id with
  | None => (c, Ok no_report)
  | Some row =>
      if negb (qt_available row) then (c, Ok no_report) else
      match qt_qbit_id row, qt_release_json row with
      | Some source_hash, Some release_json =>
          enrich_release instances source_id source_hash release_json now c
      | _, _ => (c, Ok no_report)
      end
  end.
End Arr.
