(* ===== verification/ArrProofs.v ===== *)
(** The enrichment of torrents (Arr.v): what the instances answered is kept, and a torrent that
    was enriched is not asked about again. *)

From stdpp Require Import strings.
From S2P Require Import Prelude Text Model Store Duroxide Library Catalogue Torznab Prowlarr Arr.
From S2P Require Release Facts Config Codec.
Local Open Scope Z_scope.

Section Arr.
Context `{Unicode} `{CandidateCodec} `{!CandidateCodecLaws} `{IdentityCodec} `{!IdentityCodecLaws} `{Http}.
#[local] Set Default Proof Using "All".

(** The operations when [S] answers *)
Definition asks (S : ArrService) source_id source_hash now acc instances :=
  ask_instances source_id source_hash now acc instances.
Definition enrich (S : ArrService) instances source_id now := enrich_source instances source_id now.

Implicit Types (c : Catalogue) (instance : EnrichmentInstance).

Definition keeps c source_id instance source_hash now (found : option ArrIdentity) : Prop :=
  cached c source_id instance source_hash now = Ok (Hit found).

(** If the instance knew of no match, that is still valid. *)
Definition fresh c (source_id : str) (now : Z) instance : Prop :=
  forall row expires, sporos_arr_enrichment_cache c !! cache_key source_id instance = Some row ->
    en_negative_expires_at row = Some expires -> now < expires.

Definition selection (instances : list EnrichmentInstance) (founds : list (option ArrIdentity)) (selected : Selected)
  : Selected := foldl (fun selected p => select p.1 selected p.2) selected (zip instances founds).

Definition same_entry source_id instance c c' : Prop :=
  sporos_arr_enrichment_cache c' !! cache_key source_id instance
  = sporos_arr_enrichment_cache c !! cache_key source_id instance.

Lemma keeps_same source_id instance source_hash now found c c' :
  same_entry source_id instance c c' -> keeps c source_id instance source_hash now found ->
  keeps c' source_id instance source_hash now found.
Proof. unfold keeps, cached, same_entry. by intros ->. Qed.

(** One question: the answer is kept, and nothing else changes. *)
Lemma ask_instance_keeps (S : ArrService) source_id source_hash now later report selected instance c c' report' selected' :
  ask_instance source_id source_hash now (report, selected) instance c = (c', Ok (report', selected')) ->
  library c' = library c /\ (er_failed report <= er_failed report')%nat /\ er_applied report' = er_applied report /\
  (forall other, cache_key source_id other <> cache_key source_id instance -> same_entry source_id other c c') /\
  (er_failed report' = er_failed report -> fresh c' source_id later instance ->
   exists found, keeps c' source_id instance source_hash later found /\ selected' = select instance selected found).
Proof using All.
  unfold ask_instance. rewrite M_bind_Ok. intros (c1 & state & Hs & Hr). unfold reads in Hs.
  injection Hs as <- Hs. destruct state as [found|].
  - injection Hr as <- <- <-. split_and!; try done. intros _ Hf. exists found. split; [|done].
    unfold keeps, cached in *. destruct (sporos_arr_enrichment_cache c !! _) as [row|] eqn:Hrow; [|done].
    destruct (negb _); [done|]. destruct (en_identity_json row) as [json|]; [done|].
    destruct (en_negative_expires_at row) as [expires|] eqn:He; [|done].
    specialize (Hf _ _ Hrow He). destruct (Z.ltb_spec now expires); [|done].
    destruct (Z.ltb_spec later expires); [done|lia].
  - destruct (history_by_download_id _ _) as [found|e].
    2: { injection Hr as <- <- <-. cbn. split_and!; try done; lia. }
    rewrite M_bind_Ok in Hr. destruct Hr as (c1 & [] & Hc & [= <- <- <-]). unfold cache_arr_identity in Hc.
    case_bool_decide as Hid; [|done]. injection Hc as <-. cbn. split_and!; try done.
    + intros other Hne. unfold same_entry. cbn. by rewrite lookup_insert_ne.
    + intros _ Hf. exists found. split; [|done]. unfold keeps, cached. cbn. rewrite lookup_insert_eq. cbn.
      rewrite str_eqb_refl. cbn. destruct found as [found|]; cbn; [by rewrite decode_encode_identity|].
      specialize (Hf _ _ (lookup_insert_eq _ _ _) eq_refl). by rewrite (proj2 (Z.ltb_lt _ _) Hf).
Qed.

Definition keys_distinct source_id (instances : list EnrichmentInstance) : Prop :=
  NoDup (map (cache_key source_id) instances).

Lemma asks_keep (S : ArrService) source_id source_hash now later instances : forall report selected c c' report' selected',
  keys_distinct source_id instances ->
  ask_instances source_id source_hash now (report, selected) instances c = (c', Ok (report', selected')) ->
  library c' = library c /\ (er_failed report <= er_failed report')%nat /\ er_applied report' = er_applied report /\
  (forall other, cache_key source_id other ∉ map (cache_key source_id) instances -> same_entry source_id other c c') /\
  (er_failed report' = er_failed report -> Forall (fresh c' source_id later) instances ->
   exists founds, Forall2 (fun instance found => keeps c' source_id instance source_hash later found) instances founds /\
     selected' = selection instances founds selected).
Proof.
  induction instances as [|instance instances IH]; intros report selected c c' report' selected' Hnd.
  { intros [= <- <- <-]. split_and!; try done. intros _ _. by exists []. }
  cbn [ask_instances]. apply NoDup_cons in Hnd as [Hni Hnd]. rewrite M_bind_Ok.
  intros (c1 & [report1 selected1] & Ha & Hr).
  destruct (ask_instance_keeps S source_id source_hash now later _ _ _ _ _ _ _ Ha) as (L1 & F1 & A1 & O1 & K1).
  destruct (IH _ _ _ _ _ _ Hnd Hr) as (L2 & F2 & A2 & O2 & K2). split_and!.
  - by rewrite L2.
  - lia.
  - by rewrite A2.
  - intros other [Hne Hno]%not_elem_of_cons. unfold same_entry in *. rewrite O2 by done. by apply O1.
  - intros Hfail [Hf Hfs]%Forall_cons. destruct (K2 ltac:(lia) Hfs) as (founds & Hall & ->).
    assert (same_entry source_id instance c1 c') as Hsame by (by apply O2).
    destruct K1 as (found & Hk & ->); [lia| |].
    { intros row expires Hrow. apply Hf. by rewrite Hsame. }
    exists (found :: founds). split; [|done]. constructor; [|done]. by eapply keeps_same.
Qed.

(** Answers that are kept are used, whoever would answer. *)
Lemma asks_kept (S : ArrService) source_id source_hash now c instances founds : forall report selected,
  Forall2 (fun instance found => keeps c source_id instance source_hash now found) instances founds ->
  exists report', ask_instances source_id source_hash now (report, selected) instances c
    = (c, Ok (report', selection instances founds selected)) /\
    er_queried report' = er_queried report /\ er_failed report' = er_failed report /\
    er_applied report' = er_applied report.
Proof using All.
  revert founds. induction instances as [|instance instances IH]; intros founds report selected Hall.
  { apply Forall2_nil_inv_l in Hall as ->. by exists report. }
  apply Forall2_cons_inv_l in Hall as (found & founds' & Hk & Hall & ->). cbn [ask_instances].
  unfold keeps in Hk. unfold mbind, M_bind, ask_instance, mbind, M_bind, reads. rewrite Hk. cbn.
  destruct (IH founds' (mkReport (er_queried report) (Datatypes.S (er_cache_hits report)) (er_failed report) (er_applied report))
    (select instance selected found) Hall) as (report' & -> & Hq & Hf & Happ). by exists report'.
Qed.

(** *** The release *)

Lemma add_title_keeps release title :
  let r := add_title release title in
  rd_kind r = rd_kind release /\ rd_primary_title r = rd_primary_title release /\
  (exists more, rd_alternate_titles r = rd_alternate_titles release ++ more) /\
  let t := rd_primary_title (Release.parse_release title) in
  (t = rd_primary_title r \/ t ∈ rd_alternate_titles r).
Proof using.
  unfold add_title. set (t := rd_primary_title _). destruct (str_eqb t _) eqn:Ht; cbn [negb andb].
  { apply str_eqb_spec in Ht. split_and!; auto. exists []. by rewrite app_nil_r. }
  unfold str_mem. case_bool_decide as Hm; cbn.
  { split_and!; auto. exists []. by rewrite app_nil_r. }
  split_and!; auto; [by eexists|]. right. apply elem_of_app. right. by left.
Qed.

Lemma add_title_known release title :
  rd_primary_title (Release.parse_release title) = rd_primary_title release \/
  rd_primary_title (Release.parse_release title) ∈ rd_alternate_titles release ->
  add_title release title = release.
Proof using.
  unfold add_title. intros [->|Hin]; [by rewrite str_eqb_refl|].
  unfold str_mem. rewrite (bool_decide_eq_true_2 _ Hin). by rewrite andb_false_r.
Qed.

Lemma add_titles_keep titles : forall release,
  let r := foldl add_title release titles in
  rd_kind r = rd_kind release /\ rd_primary_title r = rd_primary_title release /\
  (exists more, rd_alternate_titles r = rd_alternate_titles release ++ more) /\
  forall title, title ∈ titles -> let t := rd_primary_title (Release.parse_release title) in
    t = rd_primary_title r \/ t ∈ rd_alternate_titles r.
Proof using.
  induction titles as [|title titles IH]; intros release; cbn.
  - split_and!; try done; [exists []; by rewrite app_nil_r|]. by intros title ?%not_elem_of_nil.
  - destruct (add_title_keeps release title) as (K1 & P1 & [m1 A1] & T1).
    destruct (IH (add_title release title)) as (K2 & P2 & [m2 A2] & T2). rewrite K2, P2, A2, K1, P1, A1.
    split_and!; try done; [exists (m1 ++ m2); by rewrite app_assoc|].
    intros t [->|Ht]%elem_of_cons.
    + rewrite P1, A1 in T1. destruct T1 as [?|?]; [by left|right]. apply elem_of_app. by left.
    + specialize (T2 t Ht). by rewrite P2, A2, P1, A1 in T2.
Qed.

(** Enriching twice is enriching once. *)
Lemma enriched_again release found model :
  enriched (enriched release found model) found model = enriched release found model.
Proof using.
  unfold enriched at 1. set (titles := omap id _). set (r := enriched release found model).
  assert (foldl add_title r titles = r) as ->; [|done].
  destruct (add_titles_keep titles release) as (_ & _ & _ & Hall).
  assert (forall title, title ∈ titles -> rd_primary_title (Release.parse_release title) = rd_primary_title r \/
    rd_primary_title (Release.parse_release title) ∈ rd_alternate_titles r) as Hr by exact Hall.
  clearbody r. clear -Hr. induction titles as [|title titles IH]; [done|]. cbn.
  rewrite add_title_known by (apply Hr; by left). apply IH. intros t Ht. apply Hr. by right.
Qed.

Lemma enriched_kind release found model : rd_kind (enriched release found model) = rd_kind release.
Proof using. by destruct (add_titles_keep (omap id [id_title found; Some (id_source_title found)]) release). Qed.

(** Storing the facts again changes nothing, *)
Lemma replace_again source_id ty release n :
  Facts.replace source_id ty release (Facts.replace source_id ty release n) = Facts.replace source_id ty release n.
Proof using.
  destruct (Facts.replace_spec source_id ty release n) as (_ & _ & _ & _ & T1 & X1).
  set (m := Facts.replace _ _ _ n) in *.
  destruct (Facts.replace_spec source_id ty release m) as (A & B & C & D & T2 & X2). cbv zeta in *.
  destruct (Facts.replace _ _ _ m) as [t s d f ti ex], m as [t' s' d' f' ti' ex']. cbn in *. subst.
  f_equal; apply set_eq; intros p.
  - specialize (T1 p). specialize (T2 p). case_bool_decide; tauto.
  - specialize (X1 p). specialize (X2 p). case_bool_decide; tauto.
Qed.

Lemma alter_twice (f : QbitRow -> QbitRow) (source_id : str) (rows : gmap str QbitRow) :
  (forall row, f (f row) = f row) -> alter f source_id (alter f source_id rows) = alter f source_id rows.
Proof using.
  intros Hf. apply map_eq. intros other. destruct (decide (other = source_id)) as [->|Hne].
  - rewrite !lookup_alter_eq. destruct (rows !! source_id); cbn; [by rewrite Hf|done].
  - by rewrite !lookup_alter_ne.
Qed.

(** nor does storing the release again. *)
Lemma apply_again source_id release l :
  apply_release source_id release (apply_release source_id release l) = apply_release source_id release l.
Proof using.
  set (f := with_release_json (encode_release release)).
  set (updated := fun n => mkInventory (alter f source_id (n_torrent n)) (n_state n) (n_data n) (n_file n)
    (n_title n) (n_external n)).
  set (m := Facts.replace source_id (lit "qbittorrent") release (updated (inventory l))).
  change (apply_release source_id release l) with (with_inventory m l).
  change (apply_release source_id release (with_inventory m l)) with
    (with_inventory (Facts.replace source_id (lit "qbittorrent") release (updated (inventory (with_inventory m l))))
       (with_inventory m l)).
  assert (inventory (with_inventory m l) = m) as -> by by destruct m.
  assert (updated m = m) as ->.
  { destruct (Facts.replace_spec source_id (lit "qbittorrent") release (updated (inventory l))) as (E & _).
    unfold updated. fold m in E. cbv zeta in E. rewrite E. unfold updated at 1. cbn [n_torrent].
    rewrite alter_twice by done.
    replace (alter f source_id (n_torrent (inventory l))) with (n_torrent m) by exact E. by destruct m. }
  unfold m. rewrite replace_again. by destruct l.
Qed.

(** The row of an enriched torrent *)
Lemma apply_release_row source_id release l row :
  sporos_qbit_torrent l !! source_id = Some row ->
  sporos_qbit_torrent (apply_release source_id release l) !! source_id
  = Some (with_release_json (encode_release release) row).
Proof using.
  intros Hrow. unfold apply_release. cbn [sporos_qbit_torrent with_inventory].
  match goal with |- context [Facts.replace ?i ?t ?r ?n] =>
    destruct (Facts.replace_spec i t r n) as (-> & _) end.
  cbn. by rewrite lookup_alter_eq, Hrow.
Qed.

Lemma keeps_all_library source_id source_hash now c l instances founds :
  Forall2 (fun instance found => keeps c source_id instance source_hash now found) instances founds ->
  Forall2 (fun instance found => keeps (with_library l c) source_id instance source_hash now found) instances founds.
Proof using. intros Hall. eapply Forall2_impl; [exact Hall|]. intros i f Hk. exact Hk. Qed.

Lemma keys_distinct_filter source_id (p : EnrichmentInstance -> Prop) `{!forall i, Decision (p i)} instances :
  keys_distinct source_id instances -> keys_distinct source_id (filter p instances).
Proof using.
  unfold keys_distinct. induction instances as [|i instances IH]; [done|]. rewrite filter_cons.
  intros [Hni Hnd]%NoDup_cons. specialize (IH Hnd). case_decide; [|done].
  cbn. constructor; [|done]. contradict Hni. apply list_elem_of_fmap in Hni as (x & -> & Hx).
  apply list_elem_of_fmap. exists x. split; [done|]. by apply list_elem_of_filter in Hx as [_ Hx].
Qed.

(** The instances that are asked *)
Definition chosen (instances : list EnrichmentInstance) (release : ReleaseDescriptor) :=
  filter (fun instance => relevant (in_kind instance) (rd_kind release) = true) instances.

Lemma chosen_again instances release found model :
  chosen instances (enriched release found model) = chosen instances release.
Proof using. unfold chosen. by rewrite (enriched_kind release found model). Qed.

(** The second pass over a torrent whose release was read *)
Lemma finish_again source_id source_hash now (S' : ArrService) c release instances founds row found model :
  Forall2 (fun instance found => keeps c source_id instance source_hash now found)
    (chosen instances release) founds ->
  selection (chosen instances release) founds None = Some (found, model) ->
  sporos_qbit_torrent (library c) !! source_id = Some row -> qt_available row = true ->
  qt_qbit_id row = Some source_hash ->
  let c1 := with_library (apply_release source_id (enriched release found model) (library c)) c in
  exists report', enrich S' instances source_id now c1 = (c1, Ok report') /\
    er_queried report' = 0%nat /\ er_failed report' = 0%nat /\ er_applied report' = true.
Proof.
  intros Hall Hsel Hrow Hav Hid c1. set (r := enriched release found model) in *.
  pose proof (apply_release_row source_id r _ _ Hrow) as Hrow1.
  destruct (asks_kept S' source_id source_hash now c1 _ _ no_report None
              (keeps_all_library source_id source_hash now c (apply_release source_id r (library c)) _ _ Hall))
    as (report' & Ha & Hq & Hf & _).
  exists (with_applied report'). split; [|by split_and!].
  unfold enrich, enrich_source. change (library c1) with (apply_release source_id r (library c)). rewrite Hrow1.
  cbn [qt_available qt_qbit_id qt_release_json with_release_json]. rewrite Hav, Hid. cbn [negb].
  unfold enrich_release, mbind, M_bind, liftr. rewrite release_roundtrip. cbn [ok_or].
  fold (chosen instances r).
  rewrite (chosen_again instances release found model : chosen instances r = chosen instances release).
  unfold Selected in *. rewrite Ha.
  unfold finish. cbn [fst snd]. rewrite Hsel. f_equal.
  change (library c1) with (apply_release source_id r (library c)).
  rewrite (enriched_again release found model : enriched r found model = r), apply_again. by destruct c.
Qed.

(** C24: A torrent is not enriched again while its answers are fresh.  The instances are told
    apart by their kind and name, every instance that was asked answered, and none of the
    answers that say no match is an hour old yet (those are asked again then; an identity
    stays).  Then enriching the torrent again asks no instance, whatever the instances would
    say, and changes nothing in the database: the answers are found in the cache, the
    enriched release selects the same instances, and its titles, identity and facts are
    already there. *)
Theorem enriched_once (S S' : ArrService) instances source_id now later c c1 report :
  keys_distinct source_id instances ->
  enrich S instances source_id now c = (c1, Ok report) -> er_failed report = 0%nat ->
  Forall (fresh c1 source_id later) instances ->
  exists report', enrich S' instances source_id later c1 = (c1, Ok report') /\
    er_queried report' = 0%nat /\ er_failed report' = 0%nat /\ er_applied report' = er_applied report.
Proof.
  intros Hnd Hrun Hfail Hfresh. unfold enrich, enrich_source in Hrun.
  destruct (sporos_qbit_torrent (library c) !! source_id) as [row|] eqn:Hrow.
  2: { injection Hrun as <- <-. exists no_report. unfold enrich, enrich_source. by rewrite Hrow. }
  destruct (qt_available row) eqn:Hav; cbn [negb] in Hrun.
  2: { injection Hrun as <- <-. exists no_report. unfold enrich, enrich_source. by rewrite Hrow, Hav. }
  destruct (qt_qbit_id row) as [source_hash|] eqn:Hid, (qt_release_json row) as [json|] eqn:Hj;
    try (injection Hrun as <- <-; exists no_report; unfold enrich, enrich_source; by rewrite Hrow, Hav, Hid, ?Hj).
  unfold enrich_release in Hrun. rewrite M_bind_Ok in Hrun. destruct Hrun as (c0 & release & Hd & Hrun).
  unfold liftr in Hd. destruct (decode_release json) as [release'|] eqn:Hdec; [|done]. injection Hd as <- ->.
  rewrite M_bind_Ok in Hrun. destruct Hrun as (c2 & [report2 selected] & Ha & Hfin).
  fold (chosen instances release) in *.
  assert (Forall (fresh c2 source_id later) instances /\ er_failed report2 = 0%nat) as [Hfresh2 Hfail2].
  { unfold finish in Hfin. cbn [fst snd] in Hfin. by destruct selected as [[found model]|]; injection Hfin as <- <-. }
  destruct (asks_keep S source_id source_hash now later (chosen instances release) no_report None c c2 report2 selected
              (keys_distinct_filter _ _ _ Hnd) Ha) as (Hl & _ & Happ & _ & Hk).
  destruct Hk as (founds & Hall & ->); [by rewrite Hfail2| |].
  { apply Forall_forall. intros i [_ Hi]%list_elem_of_filter. rewrite Forall_forall in Hfresh2. by apply Hfresh2. }
  unfold finish in Hfin. cbn [fst snd] in Hfin.
  destruct (selection (chosen instances release) founds None) as [[found model]|] eqn:Hsel; injection Hfin as <- <-.
  - rewrite Hl in *. rewrite <- Hl. eapply finish_again; try done. by rewrite Hl.
  - destruct (asks_kept S' source_id source_hash later c2 (chosen instances release) founds no_report None Hall)
      as (report' & Ha' & Hq & Hf & Happ').
    exists report'. split_and!; [|done|done|].
    + unfold enrich, enrich_source. rewrite Hl, Hrow, Hav, Hid, Hj. cbn [negb].
      unfold enrich_release, mbind, M_bind, liftr. rewrite Hdec. cbn [ok_or]. fold (chosen instances release).
      unfold Selected in *. rewrite Ha'.
      unfold finish. cbn [fst snd]. by rewrite Hsel.
    + by rewrite Happ', Happ.
Qed.
End Arr.

Module Sample.
Import Codec.
#[local] Existing Instance Prowlarr.Sample.http.
#[local] Existing Instance Text.ascii_unicode.

#[local] Instance serial_identity : Serial ArrIdentity.
Proof.
  refine (serial_via
    (fun i => ((id_source_title i : str, id_event_type i : str, id_series_id i, id_episode_id i),
               (id_movie_id i, id_title i : option str, id_tvdb_id i, id_tmdb_id i, id_imdb_id i : option str)))
    (fun '((a, b, c, d), (e, f, g, h, i)) => mkIdentity a b c d e f g h i) _).
  by intros [].
Defined.
#[local] Instance identity_codec : IdentityCodec := {|
  encode_identity := put; decode_identity s := fst <$> get s |}.
#[local] Instance identity_codec_laws : IdentityCodecLaws.
Proof.
  split. intros i. cbn [encode_identity decode_identity identity_codec].
  by rewrite <- (app_nil_r (put i)), get_put.
Qed.

(** Radarr knows the film by another title, *)
Definition film : HistoryRecord :=
  mkHistoryRecord (Some (lit "AA")) (lit "Film.2020.1080p") (lit "grabbed") None None (Some 9) None
    (Some (mkEntity (Some (lit "The Film")) None (Some 5) None)).
Definition knows : ArrService := {|
  history _ _ _ := Ok (mkResponse 200 (Some 3) None [Ok [1; 2]; Ok [3]]);
  decode_history _ := Some [film]; header_value _ := true |}.
(** and then it is gone. *)
Definition gone : ArrService := {|
  history _ _ _ := Err tt; decode_history _ := None; header_value _ := true |}.

Definition radarr (name : str) : EnrichmentInstance :=
  mkInstance Config.Radarr name (mkArrClient (lit "radarr", lit "/") (lit "key")).
Definition instances : list EnrichmentInstance :=
  [mkInstance Config.Sonarr (lit "a") (mkArrClient (lit "sonarr", lit "/") (lit "key")); radarr (lit "a")].
Definition before : Catalogue :=
  empty_catalogue (mkLibrary empty_db ∅ ∅ ∅ ∅
    {[lit "torrent" := mkQbitRow (Some (lit "aa")) None None (lit "Film.2020.1080p") 4 0 1000000 (lit "uploading")
        (lit "/data") (lit "/data") [] [] true true 0 (lit "unloaded") None None None
        (Some (encode_release (Release.parse_release (lit "Film.2020.1080p")))) None 1 0]}
    (mkInventoryRow None 0 None None None None None None) ∅ ∅ ∅ ∅ ∅ ∅ ∅ ∅).
Definition after : Catalogue := (enrich knows instances (lit "torrent") 10 before).1.
Definition titles (c : Catalogue) : option (list str) :=
  row ← sporos_qbit_torrent (library c) !! lit "torrent"; json ← qt_release_json row;
  rd_alternate_titles <$> decode_release json.

(** Once the film was enriched, the answer of Radarr is not needed any more. *)
Lemma enriched_once_witness :
  (enrich knows instances (lit "torrent") 10 before).2 = Ok (mkReport 1 0 0 true) /\
  titles before = Some [] /\ titles after = Some [lit "the film"] /\
  exists report', enrich gone instances (lit "torrent") 20 after = (after, Ok report') /\
    er_queried report' = 0%nat /\ er_failed report' = 0%nat /\ er_applied report' = true.
Proof.
  assert ((enrich knows instances (lit "torrent") 10 before).2 = Ok (mkReport 1 0 0 true)) as Hr
    by (vm_compute; reflexivity).
  split; [exact Hr|]. split; [vm_compute; reflexivity|]. split; [vm_compute; reflexivity|].
  apply (enriched_once knows gone instances (lit "torrent") 10 20 before after (mkReport 1 0 0 true)).
  - unfold keys_distinct. apply (bool_decide_eq_true_1 _). vm_compute. reflexivity.
  - unfold after. rewrite <- Hr. by destruct (enrich knows instances (lit "torrent") 10 before).
  - reflexivity.
  - repeat constructor; intros row expires Hrow; vm_compute in Hrow; try discriminate Hrow.
    injection Hrow as <-. discriminate.
Defined.
End Sample.
