(* ===== verification/Api.v ===== *)
(** The HTTP interface (http.rs): what the endpoints for autobrr and for administration check,
    do and answer, the paging of their lists, and the bearer token in front of them.

    axum, serde and base64 are third-party: a request comes decoded, [Transport] has the
    encodings that the handlers apply themselves, and a [Problem] is what is printed.  A
    statement that SQLite cannot perform is not modelled; the rows are those of Store.v,
    Library.v and Catalogue.v.  The readiness flag, the metrics, the request log and the
    limits of bodies are left out; the permits of uploads are the number that is free. *)

From stdpp Require Import strings.
From S2P Require Import Prelude Text Model Store Duroxide Candidate Library Catalogue Torznab Prowlarr Search.
From S2P Require Release Ingress Torrent Paths Accept TaskControl Completion QbitProjection Preflight DataScan Scan Config.
Local Open Scope Z_scope.

(** ** Identifiers *)

Definition HEX : str := lit "0123456789abcdef".

Definition encode_hex (bytes : str) : str :=
  concat (map (fun byte => [default 0 (HEX !! Z.to_nat (Z.shiftr byte 4));
                            default 0 (HEX !! Z.to_nat (Z.land byte 15))]) bytes).

Definition hex_value (byte : Z) : option Z :=
  if (48 <=? byte) && (byte <=? 57) then Some (byte - 48) else
  if (97 <=? byte) && (byte <=? 102) then Some (byte - 97 + 10) else None.

(** The loop over [as_chunks::<2>()] *)
Fixpoint hex_pairs (value : str) : option str :=
  match value with
  | high :: low :: value =>
      high ← hex_value high; low ← hex_value low; id ← hex_pairs value;
      Some (Z.lor (Z.shiftl high 4) low :: id)
  | _ => Some []
  end.

Definition parse_id (value : str) : option str :=
  if negb (length value =? 32)%nat
     || negb (forallb (fun byte => is_ascii_hexdigit byte && negb (is_ascii_upper byte)) value)
  then None else hex_pairs value.

Definition valid_info_hash (value : str) : bool :=
  ((length value =? 40)%nat || (length value =? 64)%nat)
  && forallb (fun byte => is_ascii_digit byte || ((97 <=? byte) && (byte <=? 102))) value.

(** [RequestId::next] at a value of its counter: [format!("req_{sequence:016x}")] *)
Definition RequestId_next (sequence : Z) : str * Z :=
  (lit "req_" ++ hex (be_bytes 8 sequence), (sequence + 1) mod 2^64).

(** ** Problems *)

Record Problem := mkProblem {
  pb_status : Z; pb_type : str; pb_title : string; pb_code : string; pb_detail : string; pb_request_id : str;
  pb_retry_after : option str }.

Definition Problem_new (status : Z) (code title detail : string) (request_id : str) : Problem :=
  mkProblem status (lit "urn:sporos:error:" ++ lit code) title code detail request_id None.
Definition with_retry_after (value : str) (self : Problem) : Problem :=
  mkProblem (pb_status self) (pb_type self) (pb_title self) (pb_code self) (pb_detail self)
    (pb_request_id self) (Some value).
Definition Problem_database (request_id : str) : Problem :=
  Problem_new 500 "database_unavailable" "Database unavailable" "the task projection could not be read" request_id.

(** ** Requests and responses *)

Record AutobrrCheckRequest := mkCheckRequest {
  cr_torrent_name : str; cr_size : option Z; cr_indexer : option str; cr_indexer_name : option str }.
Record AutobrrCheckResponse := mkCheckResponse {
  ck_decision : string; ck_provisional : bool; ck_source_state : Preflight.SourceState; ck_reason : string;
  ck_request_id : str }.
Record AutobrrTorrentRequest := mkTorrentRequest {
  tr_torrent_data : str; tr_torrent_name : option str; tr_indexer : option str; tr_indexer_name : option str;
  tr_category : option str; tr_tags : list str; tr_dry_run : bool }.
Record AutobrrTorrentResponse := mkTorrentResponse {
  ts_candidate_id : str; ts_task_id : str; ts_duplicate : bool; ts_status : string; ts_request_id : str }.
Record InventoryStatus := mkInventoryStatus {
  vs_configured : bool; vs_baseline_complete : bool; vs_stale : bool; vs_response_id : option Z;
  vs_generation : Z; vs_torrents : Z; vs_available_torrents : Z; vs_complete_torrents : Z; vs_files : Z;
  vs_last_success_at : option Z; vs_last_full_reconcile_at : option Z; vs_reconcile_requested_at : option Z }.
Record ReconcileResponse := mkReconcileResponse { rr_queued : bool; rr_duplicate : bool }.
Record InventorySearchRequest := mkSearchRequest {
  sr_kind : str; sr_selection : BackfillSelection; sr_indexer_ids : list Z; sr_force : bool; sr_dry_run : bool }.
Record DataScanRequest := mkScanRequest {
  dr_root : str; dr_indexer_ids : list Z; dr_force : bool; dr_dry_run : bool }.
(** [InventorySearchResponse] and [DataScanResponse] *)
Record StartedResponse := mkStartedResponse {
  st_operation_id : str; st_task_id : str; st_duplicate : bool; st_status : string }.
(** [TaskQuery]; an [OperationQuery] has no state. *)
Record ListQuery := mkListQuery { lq_limit : nat; lq_cursor : option str; lq_state : option str }.
Record InventoryQuery := mkInventoryQuery {
  iq_limit : nat; iq_cursor : option str; iq_available : option bool; iq_complete : option bool }.
Record Page (View : Type) := mkPage { items : list View; next_cursor : option str }.
Arguments mkPage {View}. Arguments items {View}. Arguments next_cursor {View}.
(** [completed_tasks] and [failed_tasks] are what every operation is created with. *)
Record OperationView := mkOperationView {
  ov_id : str; ov_kind : str; ov_state : str; ov_produced_tasks : Z; ov_completed_tasks : Z; ov_failed_tasks : Z;
  ov_created_at : Z; ov_updated_at : Z }.
Record TaskView := mkTaskView {
  tv_id : str; tv_kind : str; tv_state : str; tv_projection_generation : Z; tv_duroxide_instance_id : str;
  tv_duroxide_execution_id : option str; tv_reason_code : option str; tv_created_at : Z; tv_updated_at : Z;
  tv_terminal_at : option Z }.
Record InventoryView := mkInventoryView {
  iw_id : str; iw_v1_hash : option str; iw_v2_hash : option str; iw_name : str; iw_total_size : Z;
  iw_amount_left : Z; iw_progress_ppm : Z; iw_state : str; iw_category : str; iw_tags : list str;
  iw_complete : bool; iw_available : bool; iw_file_manifest_version : Z; iw_file_manifest_state : str;
  iw_added_at : option Z; iw_completed_at : option Z; iw_updated_at : Z }.
Record TaskActionResponse := mkActionResponse {
  ta_task_id : str; ta_state : string; ta_instance_id : str; ta_duplicate : bool }.
(** The detail is the text of a JSON value. *)
Record TaskEventView := mkEventView {
  te_sequence : Z; te_state : str; te_reason_code : option str; te_detail : option str; te_created_at : Z }.

(** base64 of torrents, and the text of a cursor *)
Class Transport := {
  base64_encode : str -> str;
  base64_decode : str -> option str;
  cursor_text : Z * str -> str;
  cursor_of : str -> option (Z * str) }.
Class TransportLaws `{Transport} : Prop := {
  cursor_roundtrip : forall cursor, cursor_of (cursor_text cursor) = Some cursor }.

(** ** The state of the handlers *)

Record HttpState `{Http} := mkHttpState {
  hs_api_key : option str; hs_inventory_stale_after : option Z; hs_source_filters : SourceFilters;
  hs_matching : Accept.Matching; hs_candidate_ingress : Accept.CandidateIngress; hs_search_policy : SearchPolicy;
  hs_prowlarr_configured : bool; hs_prowlarr_client : option ProwlarrClient; hs_data_roots : gset str;
  hs_upload_permits : Z }.
Arguments mkHttpState {_}.

(** [HttpState::new] *)
Definition HttpState_new `{Http} (config : Config.Config) (client : option ProwlarrClient) : HttpState :=
  mkHttpState (Config.cf_auth_api_key config)
    (Config.qb_inventory_stale_after <$> Config.cf_qbittorrent config) (Config.cf_sources config)
    (Config.cf_matching config)
    (Accept.mkCandidateIngress (Config.cf_matching config) (Config.cf_sources config) (Config.cf_injection config)
       (Config.cf_paths config))
    (mkSearchPolicy (Config.cf_matching config) (Config.cf_sources config) (Config.cf_injection config)
       (Config.cf_paths config))
    (bool_decide (is_Some (Config.cf_prowlarr config))) client (dom (Config.cf_data_roots config))
    (Config.max_uploads (Config.cf_limits config)).

Definition default_page_size : nat := 50.

(** ** Pages *)

(** The rows that were fetched, one more than the limit, as a page and whether there are more *)
Definition page_of {Row} (limit : nat) (rows : list Row) : list Row * bool :=
  (take limit rows, (limit <? length rows)%nat).

(** [ORDER BY created_at DESC, id DESC] and [created_at < ? OR (created_at = ? AND id < ?)] *)
Definition newest_first {Row} (created_at : Row -> Z) (a b : str * Row) : bool :=
  (created_at b.2 <? created_at a.2) || ((created_at a.2 =? created_at b.2) && str_leb b.1 a.1).
Definition older {Row} (created_at : Row -> Z) (cursor : Z * str) (row : str * Row) : bool :=
  (created_at row.2 <? cursor.1) || ((created_at row.2 =? cursor.1) && negb (str_leb cursor.2 row.1)).

(** The statements of [list_tasks] and [list_operations] *)
Definition select_newest {Row} (created_at : Row -> Z) (matching : Row -> bool) (cursor : option (Z * str))
    (fetch : nat) (table : gmap str Row) : list (str * Row) :=
  take fetch (sort_by (newest_first created_at)
    (filter (fun row : str * Row =>
               matching row.2 && match cursor with Some cursor => older created_at cursor row | None => true end = true)
       (map_to_list table))).

Definition by_id {Row} (a b : str * Row) : bool := str_leb a.1 b.1.

(** ** The handlers *)

Section Handlers.
Context `{Unicode} `{Json} `{Client} `{Digest} `{CandidateCodec} `{!Accept.IntakeCodec} `{SearchCodec} `{Scan.ScanCodec}.
Context `{TaskControl.CancellationCodec} `{Http} `{Xml} `{!XmlReader} `{!Prowlarr} `{DataScan.DataFiles} `{Transport}.
Context (decode_with : str -> bool) (metainfo_parse : str -> option Torrent.MetaInfo).
Context (state : HttpState) (now : Z) (request_id : str).

Abbreviation Answer A := (result Problem A).
Abbreviation Act A := (M Catalogue Problem A).

Definition problem (status : Z) (code title detail : string) : Problem :=
  Problem_new status code title detail request_id.
Definition database : Problem := Problem_database request_id.

(** A handler that only reads *)
Definition reading {A} (f : Catalogue -> Answer A) : Act (Z * A) := reads (fun c => pair 200 <$> f c).
(** An operation whose errors are those of the database *)
Definition or_database {E A} (m : M Catalogue E A) : Act A := fun c => let '(c, r) := m c in (c, map_err (fun _ => database) r).

(** *** Announcements *)

Definition as_millis (duration : Z) : Z := duration / 1000000.
Definition saturating_sub_i64 (a b : Z) : Z := Z.max i64_min (Z.min i64_max (a - b)).
(** [now.saturating_sub(success) <= i64::try_from(limit.as_millis()).unwrap_or(i64::MAX)] *)
Definition recent (success limit : Z) : bool :=
  saturating_sub_i64 now success <=? default i64_max (i64_try_from (as_millis limit)).

Definition usable (inventory : QbitProjection.InventoryState) : bool :=
  match hs_inventory_stale_after state with
  | None => false
  | Some limit =>
      QbitProjection.has_baseline inventory
      && match QbitProjection.is_last_success_at inventory with
         | Some success => recent success limit
         | None => false
         end
  end.

(** [PfNull] is a panic, which is not answered. *)
Definition preflight_problem (error : Preflight.PreflightError) : Problem :=
  match error with
  | Preflight.SizeRange => problem 400 "invalid_size" "Invalid size" "size exceeds the supported SQLite integer range"
  | Preflight.PfJson | Preflight.PfNull => database
  end.

(** What is checked before the library is asked *)
Definition check_announcement (request : AutobrrCheckRequest) (c : Catalogue) : Answer () :=
  let name := cr_torrent_name request in
  _ ← bail_if (bool_decide (name = []) || (1024 <? length name)%nat)
        (problem 400 "invalid_torrent_name" "Invalid torrent name"
           "torrentName must contain between 1 and 1024 UTF-8 bytes");
  _ ← bail_if (existsb (fun value : str => (128 <? length value)%nat)
                 (omap id [cr_indexer request; cr_indexer_name request]))
        (problem 400 "invalid_indexer" "Invalid indexer" "indexer and indexerName must not exceed 128 UTF-8 bytes");
  inventory ← map_err (fun _ => database) (QbitProjection.qbit_inventory_state (library c));
  bail_if (negb (usable inventory))
    (problem 503 "inventory_unavailable" "Inventory unavailable"
       "the local qBittorrent inventory is not reconciled or is stale").

(** [None] is a panic. *)
Definition autobrr_check (request : AutobrrCheckRequest) (c : Catalogue) : option (Answer AutobrrCheckResponse) :=
  match check_announcement request c with
  | Err p => Some (Err p)
  | Ok _ =>
      match Preflight.preflight_source (Release.parse_release (cr_torrent_name request))
              (size ← cr_size request; if 0 <? size then Some size else None)
              (Accept.preflight_size_tolerance (hs_matching state))
              (mp_allow_season_from_episodes (Accept.mt_policy (hs_matching state))) (hs_source_filters state)
              (library c) with
      | Err Preflight.PfNull => None
      | Err error => Some (Err (preflight_problem error))
      | Ok None => Some (Err (problem 404 "no_match" "No plausible source"
                                "no plausible local source matches the announced release"))
      | Ok (Some source_state) => Some (Ok (mkCheckResponse "accept" true source_state "plausible_source" request_id))
      end
  end.

(** *** Torrents *)

Definition valid_optional (value : option str) (maximum : nat) : bool :=
  match value with Some value => negb (bool_decide (value = [])) && (length value <=? maximum)%nat | None => true end.

Definition validate_upload_metadata (request : AutobrrTorrentRequest) : Answer () :=
  _ ← bail_if (bool_decide (tr_torrent_data request = []))
        (problem 400 "invalid_torrent_data" "Invalid torrent data" "torrentData cannot be empty");
  bail_if (negb (valid_optional (tr_torrent_name request) 1024) || negb (valid_optional (tr_indexer request) 128)
           || negb (valid_optional (tr_indexer_name request) 128) || negb (valid_optional (tr_category request) 128)
           || (64 <? length (tr_tags request))%nat
           || existsb (fun tag : str => bool_decide (tag = []) || (128 <? length tag)%nat) (tr_tags request))
    (problem 400 "invalid_candidate_metadata" "Invalid candidate metadata"
       "candidate metadata exceeds its configured field limits").

(** The encoders of JSON of the acceptance do not fail. *)
Definition candidate_problem (error : Accept.CandidateError) : Problem :=
  match error with
  | Accept.TorrentTooLarge =>
      problem 413 "torrent_too_large" "Torrent too large" "decoded torrent data exceeds the configured byte limit"
  | Accept.TooManyFiles | Accept.PathTooLong | Accept.InvalidUtf8Name | Accept.InvalidUtf8Path
  | Accept.TorrentError _ =>
      problem 422 "invalid_torrent" "Invalid torrent" "the torrent cannot pass structural validation"
  | Accept.CaDatabase _ | Accept.CaIngress _ =>
      problem 507 "storage_unavailable" "Storage unavailable" "the candidate could not be committed durably"
  | Accept.BlobCollision | Accept.CandidateCollision | Accept.CandidateTaskCollision | Accept.UnmappedLinkRoot =>
      problem 500 "candidate_ingress_failed" "Candidate ingress failed"
        "the candidate identity could not be established safely"
  end.

Definition upload_submission (request : AutobrrTorrentRequest) (bytes : str) : Accept.CandidateSubmission :=
  Accept.mkSubmission bytes (tr_torrent_name request) (tr_indexer request) None (lit "autobrr") None
    (tr_category request) (tr_tags request) request_id (tr_dry_run request) now.

Definition invalid_torrent_data : Problem :=
  problem 400 "invalid_torrent_data" "Invalid torrent data" "torrentData must be canonical base64".

(** The checks before the acceptance; [available] permits are free. *)
Definition upload_bytes (available : Z) (request : AutobrrTorrentRequest) : Answer str :=
  _ ← validate_upload_metadata request;
  _ ← bail_if (available <=? 0)
        (with_retry_after (lit "1")
           (problem 429 "upload_capacity_reached" "Upload capacity reached"
              "the bounded upload admission pool is full"));
  bytes ← ok_or (base64_decode (tr_torrent_data request)) invalid_torrent_data;
  _ ← bail_if (negb (str_eqb (base64_encode bytes) (tr_torrent_data request))) invalid_torrent_data;
  Ok bytes.

Definition torrent_response (accepted : Accept.AcceptedCandidate) : Z * AutobrrTorrentResponse :=
  (if Accept.ac_duplicate accepted then 200 else 202,
   mkTorrentResponse (lit "cand_" ++ encode_hex (Accept.ac_candidate_id accepted))
     (lit "task_" ++ encode_hex (Accept.ac_task_id accepted)) (Accept.ac_duplicate accepted) "queued" request_id).

(** [None] is a panic of the parser of torrents. *)
Definition autobrr_torrent (available : Z) (request : AutobrrTorrentRequest) (c : Catalogue)
  : option (Catalogue * Answer (Z * AutobrrTorrentResponse)) :=
  match upload_bytes available request with
  | Err p => Some (c, Err p)
  | Ok bytes =>
      '(l, r) ← Accept.accept decode_with metainfo_parse (hs_candidate_ingress state)
                  (upload_submission request bytes) (library c);
      Some (with_library l c, torrent_response <$> map_err candidate_problem r)
  end.

(** *** The inventory *)

Definition count {A} (test : A -> bool) (l : list A) : Z := Z.of_nat (length (filter (fun a => test a = true) l)).

Definition get_inventory (c : Catalogue) : Answer InventoryStatus :=
  inventory ← map_err (fun _ => database) (QbitProjection.qbit_inventory_state (library c));
  let torrents := map snd (map_to_list (sporos_qbit_torrent (library c))) in
  let stale := match QbitProjection.is_last_success_at inventory, hs_inventory_stale_after state with
               | Some success, Some limit => negb (recent success limit)
               | _, _ => true
               end in
  Ok (mkInventoryStatus (bool_decide (is_Some (hs_inventory_stale_after state)))
        (QbitProjection.has_baseline inventory) stale (QbitProjection.is_response_id inventory)
        (QbitProjection.is_generation inventory) (count (fun _ => true) torrents) (count qt_available torrents)
        (count (fun row => qt_available row && qt_is_complete row) torrents)
        (count sf_available (map snd (map_to_list (sporos_source_file (library c)))))
        (QbitProjection.is_last_success_at inventory) (QbitProjection.is_last_full_reconcile_at inventory)
        (QbitProjection.is_reconcile_requested_at inventory)).

Definition request_inventory_reconcile (full : bool) : Act (Z * ReconcileResponse) :=
  _ ← (liftr (bail_if (negb full)
         (problem 400 "full_reconcile_required" "Full reconciliation required"
            "the Phase 2 administrative reconciliation must set full to true")) : Act ());
  _ ← (liftr (bail_if (bool_decide (hs_inventory_stale_after state = None))
         (problem 503 "qbittorrent_not_configured" "qBittorrent not configured"
            "the qBittorrent integration is not configured")) : Act ());
  queued ← or_database (on_library (QbitProjection.request_qbit_reconcile now));
  mret (202, mkReconcileResponse queued (negb queued)).

(** *** Searches and scans *)

Definition started (operation_id task_id : str) (duplicate : bool) : Z * StartedResponse :=
  (if duplicate then 200 else 202,
   mkStartedResponse (encode_hex operation_id) (encode_hex task_id) duplicate "queued").

Definition force_nonce (force : bool) : option str := if force then Some request_id else None.

(** The loop over the selected indexers *)
Definition check_indexers (indexer_ids : list Z) : Act () :=
  reads (fun c =>
    bail_if (negb (forallb (is_eligible c) indexer_ids))
      (problem 422 "indexer_ineligible" "Indexer is not eligible"
         "an explicitly selected Prowlarr indexer is absent or unsafe")).

Definition refresh_indexers (indexer_ids : list Z) : Act () :=
  match indexer_ids, hs_prowlarr_client state with
  | _ :: _, Some client =>
      refreshed ← (liftr (map_err (fun _ => problem 503 "prowlarr_unavailable" "Prowlarr unavailable"
                                              "the Prowlarr indexer projection could not be refreshed")
                            (indexers client)) : Act (list ProjectedIndexer));
      or_database (project_indexers refreshed now)
  | _, _ => mret ()
  end.

Definition start_inventory_search (request : InventorySearchRequest) : Act (Z * StartedResponse) :=
  _ ← (liftr (bail_if (negb (hs_prowlarr_configured state))
         (problem 503 "prowlarr_not_configured" "Prowlarr not configured"
            "the Prowlarr integration is not configured")) : Act ());
  _ ← refresh_indexers (sr_indexer_ids request);
  let hashes := bs_hashes (sr_selection request) in
  _ ← (liftr (bail_if (negb (str_eqb (sr_kind request) (lit "qbittorrent"))
                       || (100 <? length (sr_indexer_ids request))%nat || (10000 <? Z.of_nat (length hashes))
                       || existsb (fun hash => negb (valid_info_hash hash)) hashes)
         (problem 400 "invalid_inventory_search" "Invalid inventory search"
            "source selection, hashes, or indexer IDs are invalid")) : Act ());
  _ ← check_indexers (sr_indexer_ids request);
  accepted ← or_database (accept_backfill (with_dry_run (sr_dry_run request) (hs_search_policy state))
                            (sr_selection request) (sr_indexer_ids request) (force_nonce (sr_force request)) now);
  mret (started (ab_operation_id accepted) (ab_task_id accepted) (ab_duplicate accepted)).

Definition start_data_scan (request : DataScanRequest) : Act (Z * StartedResponse) :=
  _ ← (liftr (bail_if (negb (bool_decide (dr_root request ∈ hs_data_roots state)))
         (problem 422 "data_root_not_configured" "Data root not configured"
            "root must name a configured data scan root")) : Act ());
  _ ← (liftr (bail_if (100 <? length (dr_indexer_ids request))%nat
         (problem 400 "invalid_data_scan" "Invalid data scan" "at most 100 Prowlarr indexers may be selected")) : Act ());
  _ ← check_indexers (dr_indexer_ids request);
  accepted ← or_database (Scan.accept (dr_root request) (with_dry_run (dr_dry_run request) (hs_search_policy state))
                            (dr_indexer_ids request) (force_nonce (dr_force request)) now);
  mret (started (Scan.as_operation_id accepted) (Scan.as_task_id accepted) (Scan.as_duplicate accepted)).

(** *** Lists *)

Definition check_limit (limit : nat) : Answer () :=
  bail_if (negb ((1 <=? limit) && (limit <=? 200))%nat)
    (problem 400 "invalid_page_size" "Invalid page size" "limit must be between 1 and 200").

Definition decode_cursor (cursor : str) : option (Z * str) :=
  '(created_at, id) ← cursor_of cursor;
  if (length id =? 16)%nat then Some (created_at, id) else None.

(** [query.cursor.as_deref().map(decode).transpose()] *)
Definition read_cursor {K} (decode : str -> option K) (detail : string) (cursor : option str) : Answer (option K) :=
  match cursor with
  | None => Ok None
  | Some cursor => Some <$> ok_or (decode cursor) (problem 400 "invalid_cursor" "Invalid cursor" detail)
  end.

Definition encode_cursor {Row} (created_at : Row -> Z) (row : str * Row) : str := cursor_text (created_at row.2, row.1).

Definition list_newest {Row View} (created_at : Row -> Z) (view : str * Row -> View) (matching : Row -> bool)
    (query : ListQuery) (table : gmap str Row) : Answer (Page View) :=
  _ ← check_limit (lq_limit query);
  cursor ← read_cursor decode_cursor "the pagination cursor is invalid" (lq_cursor query);
  let '(rows, has_more) := page_of (lq_limit query)
                             (select_newest created_at matching cursor (S (lq_limit query)) table) in
  Ok (mkPage (map view rows) (if has_more then encode_cursor created_at <$> last rows else None)).

Definition operation_view (row : str * OperationRow) : OperationView :=
  mkOperationView (encode_hex row.1) (op_kind row.2) (op_state row.2) (op_produced_tasks row.2) 0 0
    (op_created_at row.2) (op_updated_at row.2).
Definition list_operations (query : ListQuery) (c : Catalogue) : Answer (Page OperationView) :=
  list_newest op_created_at operation_view (fun _ => true) query (sporos_operation (tasks (library c))).
Definition get_operation (operation_id : str) (c : Catalogue) : Answer OperationView :=
  id ← ok_or (parse_id operation_id)
         (problem 400 "invalid_operation_id" "Invalid operation ID"
            "operation ID must be 32 lowercase hexadecimal characters");
  row ← ok_or (sporos_operation (tasks (library c)) !! id)
          (problem 404 "operation_not_found" "Operation not found" "no operation has that ID");
  Ok (operation_view (id, row)).

Definition task_view (row : str * TaskRow) : TaskView :=
  mkTaskView (encode_hex row.1) (t_kind row.2) (t_state row.2) (projection_generation row.2)
    (duroxide_instance_id row.2) (duroxide_execution_id row.2) (t_reason_code row.2) (t_created_at row.2)
    (updated_at row.2) (terminal_at row.2).
Definition list_tasks (query : ListQuery) (c : Catalogue) : Answer (Page TaskView) :=
  list_newest t_created_at task_view
    (fun row => match lq_state query with Some filter => str_eqb (t_state row) filter | None => true end)
    query (sporos_task (tasks (library c))).

Definition task_action_id (value : str) : Answer str :=
  ok_or (parse_id value) (problem 400 "invalid_task_id" "Invalid task ID"
                            "task ID must be 32 lowercase hexadecimal characters").
Definition task_not_found : Problem := problem 404 "task_not_found" "Task not found" "no task has that ID".
Definition get_task (task_id : str) (c : Catalogue) : Answer TaskView :=
  id ← task_action_id task_id;
  row ← ok_or (sporos_task (tasks (library c)) !! id) task_not_found;
  Ok (task_view (id, row)).

Definition inventory_view (row : str * QbitRow) : InventoryView :=
  mkInventoryView (encode_hex row.1) (encode_hex <$> qt_v1_hash row.2) (encode_hex <$> qt_v2_hash row.2)
    (qt_name row.2) (qt_total_size row.2) (qt_amount_left row.2) (qt_progress_ppm row.2) (qt_state row.2)
    (qt_category row.2) (qt_tags row.2) (qt_is_complete row.2) (qt_available row.2) (qt_manifest_version row.2)
    (qt_manifest_state row.2) (qt_added_at row.2) (qt_completed_at row.2) (qt_updated_at row.2).

(** [? IS NULL OR column = ?] *)
Definition wanted (value : option bool) (column : bool) : bool :=
  match value with Some value => Bool.eqb column value | None => true end.
Definition select_torrents (query : InventoryQuery) (cursor : option str) (table : gmap str QbitRow)
  : list (str * QbitRow) :=
  take (S (iq_limit query)) (sort_by by_id
    (filter (fun row : str * QbitRow =>
               match cursor with Some id => negb (str_leb row.1 id) | None => true end
               && wanted (iq_available query) (qt_available row.2) && wanted (iq_complete query) (qt_is_complete row.2)
               = true) (map_to_list table))).
Definition list_inventory_torrents (query : InventoryQuery) (c : Catalogue) : Answer (Page InventoryView) :=
  _ ← check_limit (iq_limit query);
  cursor ← read_cursor parse_id "the inventory cursor must be a source ID" (iq_cursor query);
  let '(rows, has_more) := page_of (iq_limit query) (select_torrents query cursor (sporos_qbit_torrent (library c))) in
  let items := map inventory_view rows in
  Ok (mkPage items (if has_more then iw_id <$> last items else None)).

(** *** Tasks *)

Definition task_control_problem (error : TaskControl.TaskControlError) : Problem :=
  match error with
  | TaskControl.TaskNotFound => task_not_found
  | TaskControl.TaskTerminal | TaskControl.TaskNotRetryable | TaskControl.UnsupportedRetry =>
      problem 409 "task_action_conflict" "Task action conflict" "the task state or kind does not permit that action"
  | TaskControl.Database _ | TaskControl.Duroxide _ | TaskControl.GenerationRange | TaskControl.EncodeCancellation =>
      problem 500 "task_control_failed" "Task control failed"
        "the authoritative workflow action could not be recorded safely"
  end.

Definition controlling {A} (m : M Db TaskControl.TaskControlError A) : Act A :=
  fun c => let '(c, r) := on_tasks m c in (c, map_err task_control_problem r).

Definition retry_task (task_id : str) : Act (Z * TaskActionResponse) :=
  id ← (liftr (task_action_id task_id) : Act str);
  accepted ← controlling (TaskControl.retry id now);
  mret (202, mkActionResponse task_id "queued" (TaskControl.ra_instance_id accepted) false).

Definition cancel_task (task_id : str) : Act (Z * TaskActionResponse) :=
  id ← (liftr (task_action_id task_id) : Act str);
  accepted ← controlling (TaskControl.request_cancel id now);
  mret (if TaskControl.ca_duplicate accepted then 200 else 202,
        mkActionResponse task_id "cancellation_requested" (TaskControl.ca_target_instance accepted)
          (TaskControl.ca_duplicate accepted)).

Definition event_view (event : Z * EventRow) : Answer TaskEventView :=
  _ ← bail_if (match e_detail_json event.2 with Some json => negb (json_valid json) | None => false end) database;
  Ok (mkEventView event.1 (e_state event.2) (e_reason_code event.2) (e_detail_json event.2) (e_created_at event.2)).
Definition events_of (id : str) (db : Db) : list (Z * EventRow) :=
  sort_by (fun a b => a.1 <=? b.1)
    (map (fun p : (str * Z) * EventRow => (p.1.2, p.2))
       (filter (fun p : (str * Z) * EventRow => p.1.1 = id) (map_to_list (sporos_task_event db)))).
Definition get_task_events (task_id : str) (c : Catalogue) : Answer (list TaskEventView) :=
  id ← task_action_id task_id;
  let rows := events_of id (tasks (library c)) in
  _ ← bail_if (bool_decide (rows = [])) task_not_found;
  collect event_view rows.

(** ** The router *)

(** The endpoints behind [require_api_key], with what they are called with *)
Inductive Call :=
| AutobrrCheck (request : AutobrrCheckRequest) | AutobrrTorrent (available : Z) (request : AutobrrTorrentRequest)
| ListTasks (query : ListQuery) | ListOperations (query : ListQuery) | GetOperation (operation_id : str)
| StartInventorySearch (request : InventorySearchRequest) | StartDataScan (request : DataScanRequest)
| GetTask (task_id : str) | RetryTask (task_id : str) | CancelTask (task_id : str) | GetTaskEvents (task_id : str)
| GetInventory | ListInventoryTorrents (query : InventoryQuery) | RequestReconcile (full : bool).

Inductive Reply :=
| RCheck (r : AutobrrCheckResponse) | RTorrent (r : AutobrrTorrentResponse) | RTasks (r : Page TaskView)
| ROperations (r : Page OperationView) | ROperation (r : OperationView) | RStarted (r : StartedResponse)
| RTask (r : TaskView) | RAction (r : TaskActionResponse) | REvents (r : list TaskEventView)
| RInventory (r : InventoryStatus) | RTorrents (r : Page InventoryView) | RReconcile (r : ReconcileResponse).

Definition replying {A} (reply : A -> Reply) (outcome : Catalogue * Answer (Z * A)) : Catalogue * Answer (Z * Reply) :=
  (outcome.1, (fun p : Z * A => (p.1, reply p.2)) <$> outcome.2).
Definition answering {A} (reply : A -> Reply) (m : Act (Z * A)) (c : Catalogue)
  : option (Catalogue * Answer (Z * Reply)) := Some (replying reply (m c)).

Definition handle (call : Call) (c : Catalogue) : option (Catalogue * Answer (Z * Reply)) :=
  match call with
  | AutobrrCheck request => r ← autobrr_check request c; answering RCheck (reading (fun _ => r)) c
  | AutobrrTorrent available request =>
      replying RTorrent <$> autobrr_torrent available request c
  | ListTasks query => answering RTasks (reading (list_tasks query)) c
  | ListOperations query => answering ROperations (reading (list_operations query)) c
  | GetOperation operation_id => answering ROperation (reading (get_operation operation_id)) c
  | StartInventorySearch request => answering RStarted (start_inventory_search request) c
  | StartDataScan request => answering RStarted (start_data_scan request) c
  | GetTask task_id => answering RTask (reading (get_task task_id)) c
  | RetryTask task_id => answering RAction (retry_task task_id) c
  | CancelTask task_id => answering RAction (cancel_task task_id) c
  | GetTaskEvents task_id => answering REvents (reading (get_task_events task_id)) c
  | GetInventory => answering RInventory (reading get_inventory) c
  | ListInventoryTorrents query => answering RTorrents (reading (list_inventory_torrents query)) c
  | RequestReconcile full => answering RReconcile (request_inventory_reconcile full) c
  end.

(** The digests are compared in constant time. *)
Definition token_eq (expected supplied : str) : bool := str_eqb (sha256 expected) (sha256 supplied).

Definition BEARER : str := lit "Bearer ".
Definition supplied (authorization : option str) : option str :=
  value ← authorization; if starts_with BEARER value then Some (drop (length BEARER) value) else None.

(** [authorize] with the text of the header, before the call *)
Definition serve (authorization : option str) (call : Call) (c : Catalogue)
  : option (Catalogue * Answer (Z * Reply)) :=
  match hs_api_key state with
  | None => handle call c
  | Some expected =>
      if negb (match supplied authorization with Some value => token_eq expected value | None => false end)
      then Some (c, Err (problem 401 "authentication_required" "Authentication required"
                           "a valid bearer token is required"))
      else handle call c
  end.
End Handlers.
