(* ===== verification/ApiProofs.v ===== *)
(** The HTTP interface (Api.v): identifiers are read back, lists are complete whatever happens
    between two pages, a request that is refused changes nothing, and an upload may be
    repeated. *)

From stdpp Require Import strings.
From S2P Require Import Prelude Text Model Store Duroxide Candidate Library Catalogue Torznab Prowlarr Search Api.
From S2P Require Release Ingress Torrent Paths Accept AcceptProofs TaskControl Completion QbitProjection Preflight DataScan Scan Config Codec SearchSample DataScanProofs.
Local Open Scope Z_scope.

(** ** Identifiers *)

Definition is_byte (b : Z) : Prop := 0 <= b < 256.
Definition is_id (id : str) : Prop := length id = 16%nat /\ Forall is_byte id.

(** A statement on numbers below a bound can be computed. *)
Lemma below_ind (P : Z -> bool) (n : nat) :
  forallb (fun i => P (Z.of_nat i)) (seq 0 n) = true -> forall z, 0 <= z < Z.of_nat n -> P z = true.
Proof.
  intros Hall z Hz. rewrite forallb_forall in Hall. rewrite <- (Z2Nat.id z) by lia.
  apply Hall, in_seq. lia.
Qed.

Definition lower_hex (b : Z) : bool := is_ascii_hexdigit b && negb (is_ascii_upper b).
Definition digit (v : Z) : Z := default 0 (HEX !! Z.to_nat v).
Definition high_digit (b : Z) : Z := digit (Z.shiftr b 4).
Definition low_digit (b : Z) : Z := digit (Z.land b 15).

Lemma byte_digits b : is_byte b ->
  lower_hex (high_digit b) = true /\ lower_hex (low_digit b) = true /\
  exists high low, hex_value (high_digit b) = Some high /\ hex_value (low_digit b) = Some low /\
    Z.lor (Z.shiftl high 4) low = b.
Proof.
  intros Hb.
  pose proof (below_ind (fun b => lower_hex (high_digit b) && lower_hex (low_digit b) &&
    match hex_value (high_digit b), hex_value (low_digit b) with
    | Some high, Some low => Z.lor (Z.shiftl high 4) low =? b
    | _, _ => false
    end) 256 ltac:(vm_compute; reflexivity) b Hb) as Hc. cbv beta in Hc.
  apply andb_prop in Hc as [[Hh Hl]%andb_prop Hc]. split; [done|]. split; [done|].
  destruct (hex_value (high_digit b)) as [high|]; [|done]. destruct (hex_value (low_digit b)) as [low|]; [|done].
  exists high, low. split_and!; [done..|by apply Z.eqb_eq].
Qed.

Lemma lower_hex_value c : lower_hex c = true -> exists v, hex_value c = Some v /\ 0 <= v < 16.
Proof.
  unfold lower_hex, is_ascii_hexdigit, is_ascii_upper, is_ascii_digit, hex_value. intros Hc.
  destruct ((48 <=? c) && (c <=? 57)) eqn:H1; [eexists; split; [done|lia]|].
  destruct ((97 <=? c) && (c <=? 102)) eqn:H2; [eexists; split; [done|lia]|]. lia.
Qed.

Lemma digits_of_pair c d high low : hex_value c = Some high -> hex_value d = Some low ->
  0 <= high < 16 -> 0 <= low < 16 ->
  let b := Z.lor (Z.shiftl high 4) low in is_byte b /\ high_digit b = c /\ low_digit b = d.
Proof.
  intros Hc Hd Hh Hl.
  assert (forall e v, hex_value e = Some v -> digit v = e) as Hdigit.
  { intros e v. unfold hex_value. destruct ((48 <=? e) && (e <=? 57)) eqn:H1.
    - intros [= <-]. assert (0 <= e - 48 < Z.of_nat 10) as He by lia.
      pose proof (below_ind (fun v => digit v =? v + 48) 10 ltac:(vm_compute; reflexivity) _ He).
      cbv beta in *. lia.
    - destruct ((97 <=? e) && (e <=? 102)) eqn:H2; [|done]. intros [= <-].
      assert (0 <= e - 97 < Z.of_nat 6) as He by lia.
      pose proof (below_ind (fun v => digit (v + 10) =? v + 97) 6
        ltac:(vm_compute; reflexivity) _ He). cbv beta in *. lia. }
  pose proof (below_ind (fun high => forallb (fun low => let b := Z.lor (Z.shiftl high 4) (Z.of_nat low) in
      (0 <=? b) && (b <? 256) && (Z.shiftr b 4 =? high) && (Z.land b 15 =? Z.of_nat low)) (seq 0 16)) 16
    ltac:(vm_compute; reflexivity) high Hh) as Hall. cbv beta in Hall.
  rewrite forallb_forall in Hall. specialize (Hall (Z.to_nat low) ltac:(apply in_seq; lia)).
  cbv zeta in Hall. rewrite Z2Nat.id in Hall by lia. cbv zeta.
  apply andb_prop in Hall as [Hall Hlow%Z.eqb_eq]. apply andb_prop in Hall as [Hall Hhigh%Z.eqb_eq].
  apply andb_prop in Hall as [H0%Z.leb_le H256%Z.ltb_lt]. split; [done|]. unfold high_digit, low_digit. rewrite Hlow, Hhigh. auto.
Qed.

Lemma hex_pairs_encode id : Forall is_byte id -> hex_pairs (encode_hex id) = Some id.
Proof.
  induction 1 as [|b id Hb Hid IH]; [done|]. destruct (byte_digits b Hb) as (_ & _ & high & low & Hh & Hl & Hv).
  change (encode_hex (b :: id)) with (high_digit b :: low_digit b :: encode_hex id). cbn [hex_pairs].
  rewrite Hh. cbn. rewrite Hl. cbn. rewrite IH. cbn. by rewrite Hv.
Qed.

Lemma length_encode_hex id : length (encode_hex id) = (2 * length id)%nat.
Proof.
  induction id as [|b id IH]; [done|].
  change (encode_hex (b :: id)) with (high_digit b :: low_digit b :: encode_hex id). cbn [length]. lia.
Qed.

Lemma encode_lower id : Forall is_byte id -> forallb lower_hex (encode_hex id) = true.
Proof.
  induction 1 as [|b id Hb Hid IH]; [done|]. destruct (byte_digits b Hb) as (Hh & Hl & _).
  change (encode_hex (b :: id)) with (high_digit b :: low_digit b :: encode_hex id). cbn [forallb].
  by rewrite Hh, Hl.
Qed.

Lemma hex_pairs_Some n : forall value id, length value = (2 * n)%nat -> forallb lower_hex value = true ->
  hex_pairs value = Some id -> length id = n /\ Forall is_byte id /\ encode_hex id = value.
Proof.
  induction n as [|n IH]; intros value id Hlen Hall Hp.
  { destruct value; [|done]. injection Hp as <-. done. }
  destruct value as [|c [|d value]]; [done|cbn in Hlen; lia|]. cbn [forallb] in Hall.
  apply andb_prop in Hall as [Hc Hall]. apply andb_prop in Hall as [Hd Hall].
  destruct (lower_hex_value c Hc) as (high & Hh & Rh). destruct (lower_hex_value d Hd) as (low & Hl & Rl).
  cbn [hex_pairs] in Hp. rewrite Hh in Hp. cbn in Hp. rewrite Hl in Hp. cbn in Hp.
  destruct (hex_pairs value) as [id'|] eqn:Hv; [|done]. injection Hp as <-.
  destruct (IH value id') as (H1 & H2 & H3); [cbn in Hlen; lia|done|done|].
  destruct (digits_of_pair c d high low Hh Hl Rh Rl) as (Hb & E1 & E2).
  split; [cbn; lia|]. split; [by constructor|].
  cbv zeta in *. match goal with |- encode_hex (?b :: id') = _ =>
    change (high_digit b :: low_digit b :: encode_hex id' = c :: d :: value) end.
  by rewrite E1, E2, H3.
Qed.

(** The identifiers that are printed are the ones that are read.  An identifier of sixteen
    bytes is printed as text that is read back as itself, and only such text is read. *)
Theorem ids_roundtrip value id : parse_id value = Some id <-> is_id id /\ value = encode_hex id.
Proof.
  unfold parse_id. split.
  - destruct (length value =? 32)%nat eqn:Hlen; [|done]. cbn [negb orb].
    destruct (forallb _ value) eqn:Hall; [|done]. cbn [negb]. intros Hp. apply Nat.eqb_eq in Hlen.
    destruct (hex_pairs_Some 16 value id Hlen Hall Hp) as (H1 & H2 & H3). done.
  - intros [[Hlen Hb] ->]. rewrite length_encode_hex, Hlen. cbn [Nat.mul Nat.add Nat.eqb negb orb].
    pose proof (encode_lower id Hb) as Hl. unfold lower_hex in Hl. rewrite Hl. cbn [negb].
    by apply hex_pairs_encode.
Qed.

Lemma encode_hex_inj a b : is_id a -> is_id b -> encode_hex a = encode_hex b -> a = b.
Proof.
  intros [_ Ha] [_ Hb] He. apply hex_pairs_encode in Ha, Hb. rewrite He in Ha. congruence.
Qed.

(** ** Pages

    Rows have distinct keys in an order; a page holds the first rows after a cursor, and its
    cursor is the key of its last row.  The table may be another one for each page. *)

Section Paging.
Context {Row Key : Type} (key : Row -> Key) (leb : Key -> Key -> bool) (n : nat).
Hypothesis leb_total : forall a b, leb a b = true \/ leb b a = true.
Hypothesis leb_trans : forall a b c, leb a b = true -> leb b c = true -> leb a c = true.
Hypothesis leb_antisym : forall a b, leb a b = true -> leb b a = true -> a = b.
Hypothesis n_pos : (1 <= n)%nat.

Definition after (cursor : option Key) (k : Key) : Prop :=
  match cursor with Some cursor => leb k cursor = false | None => True end.
Definition in_order (rows : list Row) : Prop := StronglySorted (fun a b => leb (key b) (key a) = false) rows.

(** [rows] is what is after the cursor in the table, in order. *)
Record rest_of (table : list Row) (cursor : option Key) (rows : list Row) : Prop := {
  ro_elem : forall row, row ∈ rows <-> row ∈ table /\ after cursor (key row);
  ro_order : in_order rows }.

(** A walk over the pages: the tables it met, and the rows it listed *)
Inductive walk : option Key -> list (list Row) -> list Row -> Prop :=
| walk_end cursor table rows :
    rest_of table cursor rows -> (length rows <= n)%nat -> walk cursor [table] rows
| walk_next cursor table rows row tables listed :
    rest_of table cursor rows -> (n < length rows)%nat -> last (take n rows) = Some row ->
    walk (Some (key row)) tables listed -> walk cursor (table :: tables) (take n rows ++ listed).

Lemma after_trans a b cursor : leb b a = false -> after cursor a -> after cursor b.
Proof using leb_trans leb_total.
  destruct cursor as [cursor|]; [|done]. cbn. intros Hba Ha. apply not_true_iff_false. intros Hb.
  apply not_true_iff_false in Ha. destruct (leb_total a b) as [Hab|]; [|congruence].
  apply Ha. eapply leb_trans; eassumption.
Qed.

Lemma in_order_app rows1 rows2 : in_order (rows1 ++ rows2) <->
  in_order rows1 /\ in_order rows2 /\ forall a b, a ∈ rows1 -> b ∈ rows2 -> leb (key b) (key a) = false.
Proof using.
  unfold in_order. induction rows1 as [|x rows1 IH]; cbn.
  { split; [intros; split_and!; [constructor|done|by intros ? ? ?%not_elem_of_nil]|by intros (_ & ? & _)]. }
  assert (forall rows, StronglySorted (fun a b => leb (key b) (key a) = false) (x :: rows) <->
    StronglySorted (fun a b => leb (key b) (key a) = false) rows /\
    forall b, b ∈ rows -> leb (key b) (key x) = false) as Hcons.
  { intros rows. rewrite <- Forall_forall. split; [apply StronglySorted_inv|intros []; by constructor]. }
  rewrite !Hcons, IH. setoid_rewrite elem_of_cons. setoid_rewrite elem_of_app. naive_solver.
Qed.

(** The rows up to the last one of a page are on it. *)
Lemma page_holds rows row k :
  in_order rows -> last (take n rows) = Some row -> k ∈ map key rows -> leb k (key row) = true ->
  k ∈ map key (take n rows).
Proof using leb_total leb_trans.
  intros Ho Hl Hk Hle. rewrite <- (take_drop n rows) in Ho, Hk. apply in_order_app in Ho as (_ & _ & Hlt).
  rewrite map_app, elem_of_app in Hk. destruct Hk as [Hk|Hk]; [done|].
  apply list_elem_of_fmap in Hk as (x & -> & Hx). rewrite (Hlt row x) in Hle; [done| |done].
  by apply last_Some_elem_of.
Qed.

(** What is after a cursor, in order, is determined. *)
Lemma rest_of_unique table cursor rows1 rows2 :
  rest_of table cursor rows1 -> rest_of table cursor rows2 -> rows1 = rows2.
Proof using leb_total.
  intros [E1 O1] [E2 O2]. assert (forall x, x ∈ rows1 <-> x ∈ rows2) as He by (intros x; by rewrite E1, E2).
  clear E1 E2. revert rows2 O2 He. induction rows1 as [|x rows1 IH]; intros [|y rows2] O2 He.
  - done.
  - assert (y ∈ []) as []%not_elem_of_nil by (apply He; left).
  - assert (x ∈ []) as []%not_elem_of_nil by (apply He; left).
  - apply StronglySorted_inv in O1 as [O1 H1], O2 as [O2 H2]. rewrite Forall_forall in H1, H2.
    assert (forall z, leb (key z) (key z) = true) as Hrefl by (intros z; by destruct (leb_total (key z) (key z))).
    assert (x = y) as <-.
    { assert (x ∈ y :: rows2) as [|Hx]%elem_of_cons by (apply He; left); [done|].
      assert (y ∈ x :: rows1) as [|Hy]%elem_of_cons by (apply He; left); [done|].
      specialize (H1 y Hy). specialize (H2 x Hx). destruct (leb_total (key x) (key y)); congruence. }
    f_equal. apply IH; [done..|]. intros z. specialize (He z). rewrite !elem_of_cons in He.
    assert (z ∈ rows1 -> z <> x) by (intros Hz ->; specialize (H1 x Hz); by rewrite Hrefl in H1).
    assert (z ∈ rows2 -> z <> x) by (intros Hz ->; specialize (H2 x Hz); by rewrite Hrefl in H2). tauto.
Qed.

(** A walk lists rows of the tables it met, in order and after its cursor, and every key that
    was there all the time. *)
Lemma walk_lists cursor tables listed :
  walk cursor tables listed ->
  in_order listed /\ (forall row, row ∈ listed -> after cursor (key row) /\ exists table, table ∈ tables /\ row ∈ table) /\
  forall k, after cursor k -> (forall table, table ∈ tables -> k ∈ map key table) -> k ∈ map key listed.
Proof using All.
  induction 1 as [cursor table rows [He Ho] Hn|cursor table rows row tables listed [He Ho] Hn Hl Hw (IHo & IHe & IHk)].
  - split; [done|]. split.
    + intros row [Ht Ha]%He. split; [done|]. exists table. split; [by left|done].
    + intros k Ha Hall. specialize (Hall table ltac:(by left)). apply list_elem_of_fmap in Hall as (x & -> & Hx).
      apply list_elem_of_fmap. exists x. split; [done|]. by apply He.
  - assert (forall x, x ∈ take n rows -> x ∈ rows) as Htake.
    { intros x Hx. rewrite <- (take_drop n rows). apply elem_of_app. by left. }
    pose proof Ho as Hto. rewrite <- (take_drop n rows) in Hto. apply in_order_app in Hto as (Hto & _ & _).
    assert (row ∈ rows) as Hrow by by apply Htake, last_Some_elem_of.
    assert (forall x, x ∈ take n rows -> x = row \/ leb (key row) (key x) = false) as Hbefore.
    { apply last_Some in Hl as (l & Hl). rewrite Hl in Hto |- *. apply in_order_app in Hto as (_ & _ & Hto).
      intros x [Hx|Hx%list_elem_of_singleton]%elem_of_app; [right|by left]. apply Hto; [done|by left]. }
    split_and!.
    + apply in_order_app. split_and!; [done..|]. intros a b Ha Hb. destruct (IHe b Hb) as [Hb' _]. cbn in Hb'.
      destruct (Hbefore a Ha) as [->|Hr]; [done|]. apply not_true_iff_false. intros Hba.
      apply not_true_iff_false in Hb', Hr. destruct (leb_total (key a) (key row)) as [Har|]; [|congruence].
      apply Hb'. eapply leb_trans; eassumption.
    + intros x [Hx|Hx]%elem_of_app.
      * apply Htake, He in Hx as [Hx Ha]. split; [done|]. exists table. split; [by left|done].
      * destruct (IHe x Hx) as (Ha & t & Ht & Hxt). split.
        -- eapply after_trans; [exact Ha|]. by apply He.
        -- exists t. split; [by right|done].
    + intros k Ha Hall. rewrite map_app, elem_of_app. destruct (leb k (key row)) eqn:Hk.
      * left. eapply page_holds; [done..| |done]. specialize (Hall table ltac:(by left)).
        apply list_elem_of_fmap in Hall as (x & -> & Hx). apply list_elem_of_fmap. exists x. split; [done|]. by apply He.
      * right. apply IHk; [exact Hk|]. intros t Ht. apply Hall. by right.
Qed.

(** While the table stays the same a walk ends, with one page more than it fills at most, and
    lists what is after its cursor. *)
Lemma pages_end table : forall size cursor rows,
  (length rows <= size)%nat -> rest_of table cursor rows ->
  exists pages, (pages <= S (size / n))%nat /\ walk cursor (replicate pages table) rows.
Proof using All.
  induction size as [size IH] using lt_wf_ind. intros cursor rows Hs Hr. destruct (decide (length rows <= n)%nat) as [Hn|Hn].
  { exists 1%nat. split; [lia|]. by constructor. }
  destruct (last (take n rows)) as [row|] eqn:Hl.
  2: { apply last_None in Hl. destruct rows, n; cbn in *; lia || done. }
  destruct Hr as [He Ho]. pose proof Ho as Hto. rewrite <- (take_drop n rows) in Hto.
  apply in_order_app in Hto as (Hto & Hdo & Hlt).
  assert (rest_of table (Some (key row)) (drop n rows)) as Hrest.
  { split; [|done]. intros x. cbn. split.
    - intros Hx. split; [apply He; rewrite <- (take_drop n rows); apply elem_of_app; by right|].
      apply Hlt; [by apply last_Some_elem_of|done].
    - intros [Hx Ha]. assert (x ∈ rows) as Hxr.
      { apply He. split; [done|]. eapply after_trans; [exact Ha|]. apply He.
        rewrite <- (take_drop n rows). apply elem_of_app. left. by apply last_Some_elem_of. }
      rewrite <- (take_drop n rows) in Hxr. apply elem_of_app in Hxr as [Hxr|]; [|done].
      apply last_Some in Hl as (l & Hl). rewrite Hl in Hto, Hxr. apply in_order_app in Hto as (_ & _ & Hto).
      apply elem_of_app in Hxr as [Hxr|Hxr%list_elem_of_singleton].
      + exfalso. specialize (Hto x row Hxr ltac:(by left)). destruct (leb_total (key x) (key row)); congruence.
      + subst x. exfalso. destruct (leb_total (key row) (key row)); congruence. }
  destruct (IH (size - n)%nat ltac:(lia) (Some (key row)) (drop n rows)) as (pages & Hp & Hw); [|done|].
  { rewrite length_drop. lia. }
  exists (S pages). split.
  - replace size with (size - n + 1 * n)%nat by lia. rewrite Nat.div_add by lia. lia.
  - rewrite <- (take_drop n rows). cbn [replicate]. eapply walk_next; [by split|lia|exact Hl|exact Hw].
Qed.
End Paging.

(** ** Lists of the newest first *)

Definition cursor_key {Row} (created_at : Row -> Z) (row : str * Row) : Z * str := (created_at row.2, row.1).
Definition newest_leb (a b : Z * str) : bool := (b.1 <? a.1) || ((a.1 =? b.1) && str_leb b.2 a.2).

Lemma newest_total a b : newest_leb a b = true \/ newest_leb b a = true.
Proof.
  unfold newest_leb. destruct (Z.ltb_spec b.1 a.1), (Z.ltb_spec a.1 b.1); cbn; auto.
  replace (a.1 =? b.1) with true by lia. replace (b.1 =? a.1) with true by lia. destruct (str_leb_total b.2 a.2); auto.
Qed.
Lemma newest_trans a b c : newest_leb a b = true -> newest_leb b c = true -> newest_leb a c = true.
Proof.
  unfold newest_leb. rewrite !orb_true_iff, !andb_true_iff, !Z.ltb_lt, !Z.eqb_eq.
  intros [?|[? ?]] [?|[? ?]]; try (left; lia). right. split; [lia|]. eauto with sporos.
Qed.
Lemma newest_antisym a b : newest_leb a b = true -> newest_leb b a = true -> a = b.
Proof.
  unfold newest_leb. rewrite !orb_true_iff, !andb_true_iff, !Z.ltb_lt, !Z.eqb_eq. destruct a as [x a], b as [y b].
  cbn. intros [?|[-> ?]] [?|[? ?]]; try lia. f_equal. eauto with sporos.
Qed.

Lemma older_after {Row} (created_at : Row -> Z) cursor row :
  older created_at cursor row = negb (newest_leb (cursor_key created_at row) cursor).
Proof.
  unfold older, newest_leb, cursor_key. cbn. destruct (Z.ltb_spec (created_at row.2) cursor.1),
    (Z.ltb_spec cursor.1 (created_at row.2)), (Z.eqb_spec (created_at row.2) cursor.1); try lia; cbn; done.
Qed.

(** Sorting rows of distinct keys *)
Lemma rest_of_sorted {Row Key} (key : Row -> Key) leb (table : list Row) cursor (test : Row -> bool) :
  (forall a b, leb a b = true \/ leb b a = true) ->
  (forall a b c, leb a b = true -> leb b c = true -> leb a c = true) ->
  (forall a b, leb a b = true -> leb b a = true -> a = b) ->
  NoDup (map key table) ->
  (forall row, test row = true <-> after leb cursor (key row)) ->
  rest_of key leb table cursor
    (sort_by (fun a b => leb (key a) (key b)) (filter (fun row => test row = true) table)).
Proof.
  intros Ht Htr Ha Hnd Htest. set (rows := filter _ table).
  assert (NoDup (map key (sort_by (fun a b => leb (key a) (key b)) rows))) as Hnd'.
  { rewrite sort_by_Permutation. clear -Hnd. unfold rows. induction table as [|x table IH]; [done|].
    apply NoDup_cons in Hnd as [Hni Hnd]. rewrite filter_cons. case_decide; [|auto]. cbn. constructor; [|auto].
    contradict Hni. apply list_elem_of_fmap in Hni as (y & -> & Hy). apply list_elem_of_fmap. exists y. split; [done|].
    by apply list_elem_of_filter in Hy as [_ Hy]. }
  split.
  - intros row. rewrite elem_of_sort_by. unfold rows. rewrite list_elem_of_filter, Htest. tauto.
  - pose proof (sort_by_sorted (fun a b => leb (key a) (key b)) (fun a b => Ht (key a) (key b))
      (fun a b c => Htr (key a) (key b) (key c)) rows) as Hs.
    revert Hnd'. induction Hs as [|x l Hl IH Hx]; intros Hnd'; [constructor|]. cbn in Hnd'.
    apply NoDup_cons in Hnd' as [Hni Hnd']. constructor; [by apply IH|]. rewrite Forall_forall in Hx |- *.
    intros y Hy. apply not_true_iff_false. intros Hyx. specialize (Hx y Hy). apply Is_true_true in Hx.
    apply Hni. rewrite (Ha _ _ Hx Hyx). apply list_elem_of_fmap. by exists y.
Qed.

(** Following the cursors of a list: the databases that the pages were read from, and what
    they showed *)
Inductive listing {T View} (fetch : option str -> T -> result Problem (Page View))
  : option str -> list T -> list View -> Prop :=
| listing_end cursor t page :
    fetch cursor t = Ok page -> next_cursor page = None -> listing fetch cursor [t] (items page)
| listing_next cursor t page next ts views :
    fetch cursor t = Ok page -> next_cursor page = Some next -> listing fetch (Some next) ts views ->
    listing fetch cursor (t :: ts) (items page ++ views).

Section Lists.
Context `{Transport} `{!TransportLaws}.
Context {Row View : Type} (created_at : Row -> Z) (view : str * Row -> View) (matching : Row -> bool).
Context (request_id : str) (limit : nat) (wanted_state : option str).
Hypothesis limit_ok : (1 <= limit <= 200)%nat.

Definition rows_of (table : gmap str Row) : list (str * Row) :=
  filter (fun row : str * Row => matching row.2 = true) (map_to_list table).
Definition ids_ok (table : gmap str Row) : Prop := forall id row, table !! id = Some row -> is_id id.
Definition fetch (cursor : option str) (table : gmap str Row) : result Problem (Page View) :=
  list_newest request_id created_at view matching (mkListQuery limit cursor wanted_state) table.

Lemma rows_of_keys table : NoDup (map (cursor_key created_at) (rows_of table)).
Proof using.
  apply NoDup_fmap_2_strong; [|apply NoDup_filter, NoDup_map_to_list].
  intros [i r] [j s] [_ Hi]%list_elem_of_filter [_ Hj]%list_elem_of_filter He. injection He as _ He.
  cbn in He. subst j. apply elem_of_map_to_list in Hi, Hj. congruence.
Qed.

Lemma fetch_page cursor k table :
  read_cursor request_id decode_cursor "the pagination cursor is invalid" cursor = Ok k ->
  exists rows, rest_of (cursor_key created_at) newest_leb (rows_of table) k rows /\
    fetch cursor table = Ok (mkPage (map view (take limit rows))
      (if (limit <? length rows)%nat then encode_cursor created_at <$> last (take limit rows) else None)).
Proof using limit_ok.
  intros Hk.
  exists (sort_by (newest_first created_at) (filter (fun row : str * Row =>
    matching row.2 && match k with Some cursor => older created_at cursor row | None => true end = true)
       (map_to_list table))). split.
  - set (test := fun row : str * Row => match k with Some cursor => older created_at cursor row | None => true end).
    pose proof (rest_of_sorted (cursor_key created_at) newest_leb (rows_of table) k test newest_total newest_trans
      newest_antisym (rows_of_keys table)) as Hr.
    assert (filter (fun row : str * Row => test row = true) (rows_of table)
      = filter (fun row : str * Row => matching row.2 && test row = true) (map_to_list table)) as Hf.
    { unfold rows_of. rewrite list_filter_filter. apply list_filter_iff. intros row. rewrite andb_true_iff. tauto. }
    rewrite Hf in Hr. apply Hr. intros row. unfold test. destruct k as [k|]; [|done]. cbn. rewrite older_after.
    by rewrite negb_true_iff.
  - unfold fetch, list_newest, check_limit. cbn [lq_limit lq_cursor lq_state].
    replace ((1 <=? limit)%nat && (limit <=? 200)%nat) with true.
    2: { symmetry. apply andb_true_intro. split; apply Nat.leb_le; lia. }
    cbn [bail_if negb mbind result_bind]. rewrite Hk. cbn [bail_if negb mbind result_bind].
    unfold page_of, select_newest. set (rows := sort_by _ _).
    assert ((limit <? length (take (S limit) rows))%nat = (limit <? length rows)%nat) as ->.
    { rewrite length_take. apply eq_true_iff_eq. rewrite !Nat.ltb_lt. lia. }
    rewrite take_take, Nat.min_l by lia. reflexivity.
Qed.

Lemma next_read id (created : Z) : is_id id ->
  read_cursor request_id decode_cursor "the pagination cursor is invalid" (Some (cursor_text (created, id)))
  = Ok (Some (created, id)).
Proof using All. intros [Hid _]. cbn. unfold decode_cursor. rewrite cursor_roundtrip. cbn. by rewrite Hid. Qed.

Context {T : Type} (table : T -> gmap str Row).
Abbreviation walk_of := (walk (cursor_key created_at) newest_leb limit).
Abbreviation listing_of := (listing (fun cursor t => fetch cursor (table t))).

Lemma last_row_ok t k rows row : ids_ok (table t) ->
  rest_of (cursor_key created_at) newest_leb (rows_of (table t)) k rows -> last (take limit rows) = Some row ->
  is_id row.1.
Proof using.
  intros Hids [He _] Hl. apply last_Some_elem_of in Hl.
  assert (row ∈ rows) as [Hr _]%He by (rewrite <- (take_drop limit rows); apply elem_of_app; by left).
  apply list_elem_of_filter in Hr as [_ Hr]. destruct row as [id row]. apply elem_of_map_to_list in Hr. by eapply Hids.
Qed.

Lemma listing_walk cursor ts views : listing_of cursor ts views ->
  Forall (fun t => ids_ok (table t)) ts -> forall k,
  read_cursor request_id decode_cursor "the pagination cursor is invalid" cursor = Ok k ->
  exists rows, views = map view rows /\ walk_of k (map (fun t => rows_of (table t)) ts) rows.
Proof using All.
  induction 1 as [cursor t page Hf Hn|cursor t page next ts views Hf Hn Hw IH]; intros [Hids Hall]%Forall_cons k Hk;
    destruct (fetch_page cursor k (table t) Hk) as (rows & Hr & Hf'); rewrite Hf in Hf'; injection Hf' as ->;
    cbn [items next_cursor] in *.
  - destruct (limit <? length rows)%nat eqn:E; [apply Nat.ltb_lt in E|apply Nat.ltb_ge in E].
    + destruct (last (take limit rows)) as [row|] eqn:Hl; [done|]. apply last_None in Hl.
      destruct rows; [cbn in E; lia|]. destruct limit; [lia|done].
    + rewrite take_ge by done. exists rows. split; [done|]. by constructor.
  - destruct (limit <? length rows)%nat eqn:E; [apply Nat.ltb_lt in E|done].
    destruct (last (take limit rows)) as [row|] eqn:Hl; [|done]. injection Hn as <-.
    pose proof (last_row_ok t k rows row Hids Hr Hl) as Hrow.
    destruct (IH Hall (Some (cursor_key created_at row))) as (rest & -> & Hrest); [by apply next_read|].
    exists (take limit rows ++ rest). split; [by rewrite map_app|]. cbn [map]. by eapply walk_next.
Qed.

Lemma walk_listing ts : forall cursor k rows,
  walk_of k (map (fun t => rows_of (table t)) ts) rows -> Forall (fun t => ids_ok (table t)) ts ->
  read_cursor request_id decode_cursor "the pagination cursor is invalid" cursor = Ok k ->
  listing_of cursor ts (map view rows).
Proof using All.
  induction ts as [|t ts IH]; intros cursor k rows Hw Hids Hk; [by inversion Hw|].
  apply Forall_cons in Hids as [Hid Hids]. destruct (fetch_page cursor k (table t) Hk) as (rows' & Hr' & Hf).
  cbn [map] in Hw. inversion Hw as [k' tb rows0 Hr Hn Ek Et|k' tb rows0 row tbs listed Hr Hn Hl Hrest Ek Et]; subst;
    pose proof (rest_of_unique _ _ newest_total _ _ _ _ Hr Hr') as <-.
  - destruct ts; [|done]. replace (limit <? length rows)%nat with false in Hf by (symmetry; by apply Nat.ltb_ge).
    rewrite take_ge in Hf by done. exact (listing_end _ cursor t _ Hf eq_refl).
  - replace (limit <? length rows0)%nat with true in Hf by (symmetry; by apply Nat.ltb_lt). rewrite Hl in Hf.
    rewrite map_app. eapply (listing_next _ cursor t _ _ ts (map view listed) Hf); [reflexivity|].
    eapply IH; [exact Hrest|done|]. apply next_read. by eapply last_row_ok.
Qed.
End Lists.

Section ListTheorems.
Context `{Transport} `{!TransportLaws}.

(** What a walk over a list of the newest first shows *)
Lemma lists_newest {Row View T} (created_at : Row -> Z) (view : str * Row -> View) (matching : Row -> bool) (request_id : str) (limit : nat)
    (st : option str)
    (table : T -> gmap str Row) :
  (1 <= limit <= 200)%nat ->
  let fetch cursor t := list_newest request_id created_at view matching (mkListQuery limit cursor st) (table t) in
  (forall ts views, listing fetch None ts views -> Forall (fun t => ids_ok (table t)) ts ->
     exists rows, views = map view rows /\ in_order (cursor_key created_at) newest_leb rows /\
       (forall id row, (id, row) ∈ rows -> matching row = true /\ exists t, t ∈ ts /\ table t !! id = Some row) /\
       (forall id created, (forall t, t ∈ ts -> exists row, table t !! id = Some row /\
            created_at row = created /\ matching row = true) ->
          exists row, (id, row) ∈ rows /\ created_at row = created)) /\
  (forall t, ids_ok (table t) ->
     exists pages rows, (pages <= S (size (table t) / limit))%nat /\
       listing fetch None (replicate pages t) (map view rows) /\ Permutation rows (rows_of matching (table t))).
Proof using All.
  intros Hlimit fetch'. split.
  - intros ts views Hl Hids.
    destruct (listing_walk created_at view matching request_id limit st Hlimit table None ts views Hl Hids None eq_refl)
      as (rows & -> & Hw). exists rows. split; [done|].
    destruct (walk_lists _ _ limit newest_total newest_trans newest_antisym ltac:(lia) _ _ _ Hw) as (Ho & He & Hk).
    split; [done|]. split.
    + intros id row [_ (tb & Htb & Hin)]%He. apply list_elem_of_fmap in Htb as (t & -> & Ht).
      apply list_elem_of_filter in Hin as [Hm Hin]. split; [done|]. exists t. split; [done|].
      by apply elem_of_map_to_list in Hin.
    + intros id created Hall. specialize (Hk (created, id) I) as Hin.
      assert ((created, id) ∈ map (cursor_key created_at) rows) as Hr.
      { apply Hin. intros tb Htb. apply list_elem_of_fmap in Htb as (t & -> & Ht).
        destruct (Hall t Ht) as (row & Hrow & <- & Hm). apply list_elem_of_fmap. exists (id, row). split; [done|].
        apply list_elem_of_filter. split; [done|]. by apply elem_of_map_to_list. }
      apply list_elem_of_fmap in Hr as ([i row] & [= -> ->] & Hr). by exists row.
  - intros t Hids. pose proof (rest_of_sorted (cursor_key created_at) newest_leb (rows_of matching (table t)) None
      (fun _ => true) newest_total newest_trans newest_antisym (rows_of_keys created_at matching (table t))) as Hr.
    specialize (Hr ltac:(done)). set (rows := sort_by _ _) in Hr.
    assert (Permutation rows (rows_of matching (table t))) as Hp.
    { unfold rows. rewrite sort_by_Permutation. clear. induction (rows_of _ _) as [|x l IH]; [done|].
      rewrite filter_cons_True by done. by constructor. }
    assert (length rows <= size (table t))%nat as Hlen.
    { rewrite Hp. unfold rows_of. rewrite <- (length_map_to_list (table t)). apply length_filter. }
    destruct (pages_end (cursor_key created_at) newest_leb limit newest_total newest_trans newest_antisym ltac:(lia) (rows_of matching (table t)) _ None rows Hlen Hr)
      as (pages & Hpages & Hw).
    exists pages, rows. split; [done|]. split; [|done].
    apply (walk_listing created_at view matching request_id limit st Hlimit table _ None None); [|by apply Forall_replicate|done].
    replace (map _ (replicate pages t)) with (replicate pages (rows_of matching (table t))); [exact Hw|].
    clear. induction pages; cbn; [done|]. by f_equal.
Qed.

(** The tasks that a query asks for *)
Definition in_state (wanted_state : option str) (row : TaskRow) : bool :=
  match wanted_state with Some wanted_state => str_eqb (t_state row) wanted_state | None => true end.
Definition tasks_of (c : Catalogue) : gmap str TaskRow := sporos_task (tasks (library c)).

(** C21: A list of tasks is complete.  Whoever follows the cursors of the list sees rows of the
    databases that the pages were read from, each key once and the newest first, and among them
    every task that was there, and in the state that was asked for, all the time, whatever
    happened between two pages.  While nothing changes the walk ends, after one page more than
    it fills at most, and shows exactly the tasks in that state. *)
Theorem pages_list_every_task request_id limit wanted_state :
  (1 <= limit <= 200)%nat ->
  let fetch cursor c := list_tasks request_id (mkListQuery limit cursor wanted_state) c in
  (forall cs views, listing fetch None cs views -> Forall (fun c => ids_ok (tasks_of c)) cs ->
     exists rows, views = map task_view rows /\ in_order (cursor_key t_created_at) newest_leb rows /\
       (forall id row, (id, row) ∈ rows ->
          in_state wanted_state row = true /\ exists c, c ∈ cs /\ tasks_of c !! id = Some row) /\
       (forall id created, (forall c, c ∈ cs -> exists row, tasks_of c !! id = Some row /\
            t_created_at row = created /\ in_state wanted_state row = true) ->
          exists row, (id, row) ∈ rows /\ t_created_at row = created)) /\
  (forall c, ids_ok (tasks_of c) ->
     exists pages rows, (pages <= S (size (tasks_of c) / limit))%nat /\
       listing fetch None (replicate pages c) (map task_view rows) /\
       Permutation rows (rows_of (in_state wanted_state) (tasks_of c))).
Proof using All. apply (lists_newest t_created_at task_view (in_state wanted_state) request_id limit wanted_state tasks_of). Qed.
End ListTheorems.

(** ** Refusals *)

Section Requests.
Context `{Unicode} `{Json} `{Client} `{Digest} `{CandidateCodec} `{!Accept.IntakeCodec} `{SearchCodec} `{Scan.ScanCodec}.
Context `{TaskControl.CancellationCodec} `{Http} `{Xml} `{!XmlReader} `{!Prowlarr} `{DataScan.DataFiles} `{Transport}.
Context (decode_with : str -> bool) (metainfo_parse : str -> option Torrent.MetaInfo).
#[local] Set Default Proof Using "All".

Implicit Types (c : Catalogue) (state : HttpState).

(** An operation that changes nothing when it fails *)
Definition keeps_on_error {E A} (m : M Catalogue E A) : Prop := forall c c' e, m c = (c', Err e) -> c' = c.

Lemma keeps_atomically {E A} (m : M Catalogue E A) : keeps_on_error (atomically m).
Proof using. intros c c' e He. by apply atomically_Err in He. Qed.

Lemma keeps_or_database {E A} request_id (m : M Catalogue E A) : keeps_on_error m -> keeps_on_error (or_database request_id m).
Proof using.
  intros Hm c c' e. unfold or_database. destruct (m c) as [c1 [a|e1]] eqn:Hr; intros [= <- <-]. by apply (Hm c c1 e1).
Qed.

Lemma keeps_controlling {A} request_id (m : M Db TaskControl.TaskControlError A) :
  keeps_on_error (controlling request_id (transaction m)).
Proof using.
  intros c c' e. unfold controlling, on_tasks, on_library, transaction.
  destruct (m (tasks (library c))) as [db [a|e1]]; intros [= <- _]. destruct c as [l]. by destruct l.
Qed.

(** The checks in front of an operation change nothing. *)
Lemma keeps_checked {E A B} (check : M Catalogue E A) (f : A -> M Catalogue E B) :
  (forall c, (check c).1 = c) -> (forall a, keeps_on_error (f a)) -> keeps_on_error (check ≫= f).
Proof using.
  intros Hc Hf c c' e. unfold mbind, M_bind. specialize (Hc c). destruct (check c) as [c1 [a|e1]]; cbn in Hc; subst c1.
  - apply Hf.
  - by intros [= <- _].
Qed.

Lemma keeps_then_ok {E A B} (m : M Catalogue E A) (f : A -> B) :
  keeps_on_error m -> keeps_on_error (a ← m; mret (f a)).
Proof using.
  intros Hm c c' e. unfold mbind, M_bind. destruct (m c) as [c1 [a|e1]] eqn:Hr; [done|].
  intros [= <- _]. by apply (Hm c c1 e1).
Qed.

Lemma keeps_reading {A} (f : Catalogue -> result Problem A) : keeps_on_error (reading f).
Proof using. intros c c' e. unfold reading, reads. by intros [= <- _]. Qed.

Lemma upload_keeps state now request_id available request c c' e :
  autobrr_torrent decode_with metainfo_parse state now request_id available request c = Some (c', Err e) -> c' = c.
Proof.
  unfold autobrr_torrent. destruct (upload_bytes _ _ _) as [bytes|p]; [|by intros [= <- _]].
  unfold Accept.accept. destruct (Accept.prepare _ _ _ _) as [[p|e1]|]; [| |done]; cbn.
  - destruct (atomically _ _) as [l [a|e1]] eqn:Hr; [done|]. intros [= <- _].
    apply atomically_Err in Hr as ->. by rewrite with_library_id.
  - intros [= <- _]. by rewrite with_library_id.
Qed.

Lemma replying_Err {A} (reply : A -> Reply) (outcome : Catalogue * result Problem (Z * A)) c' p :
  replying reply outcome = (c', Err p) -> outcome = (c', Err p).
Proof using. destruct outcome as [c [[s a]|e]]; intros [= -> ->]; done. Qed.

Lemma answering_keeps {A} (reply : A -> Reply) (m : M Catalogue Problem (Z * A)) c c' p :
  keeps_on_error m -> answering reply m c = Some (c', Err p) -> c' = c.
Proof using. intros Hm Hr%(inj Some)%replying_Err. by apply Hm in Hr. Qed.

Lemma scan_keeps state now request_id request : keeps_on_error (start_data_scan state now request_id request).
Proof.
  unfold start_data_scan. repeat (apply keeps_checked; [by intros c|intros _]).
  apply keeps_then_ok with (f := fun accepted => started _ _ _), keeps_or_database, keeps_atomically.
Qed.

(** Only the refresh of the indexers is not undone. *)
Lemma search_keeps state now request_id request c c' p :
  start_inventory_search state now request_id request c = (c', Err p) ->
  c' = c \/ (sr_indexer_ids request <> [] /\ c' = with_indexers (sporos_indexer c') c).
Proof.
  unfold start_inventory_search. unfold mbind at 1, M_bind at 1. unfold liftr at 1.
  destruct (bail_if _ _) as [[]|e]; [|intros [= <- _]; by left].
  unfold mbind at 1, M_bind at 1.
  assert ((refresh_indexers state now request_id (sr_indexer_ids request) c).1 = c \/
    (sr_indexer_ids request <> [] /\ let c1 := (refresh_indexers state now request_id (sr_indexer_ids request) c).1 in
       c1 = with_indexers (sporos_indexer c1) c)) as Hrefresh.
  { unfold refresh_indexers. destruct (sr_indexer_ids request) as [|id ids]; [by left|].
    destruct (hs_prowlarr_client state) as [client|]; [|by left].
    unfold mbind, M_bind, liftr. destruct (indexers client) as [l|e]; cbn; [right|by left].
    split; [done|]. by destruct c. }
  destruct (refresh_indexers _ _ _ _ _) as [c1 [[]|e]]; cbn [fst] in Hrefresh.
  2: { intros [= <- _]. destruct Hrefresh as [->|[? ?]]; [by left|by right]. }
  intros Hr. assert (c' = c1) as ->.
  { revert Hr. apply keeps_checked; [by intros c2|intros _]. apply keeps_checked; [by intros c2|intros _].
    apply keeps_then_ok with (f := fun accepted => started _ _ _), keeps_or_database, keeps_atomically. }
  destruct Hrefresh as [->|[? ?]]; [by left|by right].
Qed.

Lemma retry_keeps now request_id task_id : keeps_on_error (retry_task now request_id task_id).
Proof.
  unfold retry_task. apply keeps_checked; [by intros c|intros id].
  apply keeps_then_ok with (f := fun accepted => _), keeps_controlling.
Qed.

Lemma cancel_keeps now request_id task_id : keeps_on_error (cancel_task now request_id task_id).
Proof.
  unfold cancel_task. apply keeps_checked; [by intros c|intros id].
  apply keeps_then_ok with (f := fun accepted => _), keeps_controlling.
Qed.

Lemma reconcile_keeps state now request_id full : keeps_on_error (request_inventory_reconcile state now request_id full).
Proof.
  unfold request_inventory_reconcile. repeat (apply keeps_checked; [by intros c|intros _]).
  apply keeps_then_ok with (f := fun queued => _), keeps_or_database. intros c c' e.
  unfold on_library, QbitProjection.request_qbit_reconcile. by destruct (iv_reconcile_requested_at _).
Qed.

Lemma supplied_Some authorization value : supplied authorization = Some value <-> authorization = Some (BEARER ++ value).
Proof using.
  unfold supplied. destruct authorization as [text|]; cbn [mbind option_bind]; [|done].
  destruct (starts_with BEARER text) eqn:Hs.
  - apply starts_with_spec in Hs as [rest ->]. rewrite drop_app_length.
    split; [congruence|]. intros Ha%(inj Some)%app_inv_head. by subst.
  - split; [done|]. intros [= ->]. apply not_true_iff_false in Hs. destruct Hs. apply starts_with_spec. by eexists.
Qed.

(** C20: A request that is refused changes nothing.  Without the token that is configured every
    call is answered by 401; and when a call is answered by a problem, of whatever status,
    then no table is changed, except that a search for selected indexers may have refreshed
    the table of indexers before it was refused.  A call that only reads never changes
    anything. *)
Theorem refused_requests_change_nothing state now request_id authorization call c c' answer :
  serve decode_with metainfo_parse state now request_id authorization call c = Some (c', answer) ->
  (forall token, hs_api_key state = Some token ->
     (forall value, authorization = Some (BEARER ++ value) -> sha256 value <> sha256 token) ->
     c' = c /\ exists p, answer = Err p /\ pb_status p = 401) /\
  (forall p, answer = Err p ->
     c' = c \/ exists request, call = StartInventorySearch request /\ sr_indexer_ids request <> [] /\
                 c' = with_indexers (sporos_indexer c') c) /\
  (match call with
   | AutobrrTorrent _ _ | StartInventorySearch _ | StartDataScan _ | RetryTask _ | CancelTask _ | RequestReconcile _ => True
   | _ => c' = c
   end).
Proof.
  intros Hs. split_and!.
  - intros token Htoken Hno. unfold serve in Hs. rewrite Htoken in Hs.
    assert (match supplied authorization with Some value => token_eq token value | None => false end = false) as Hf.
    { destruct (supplied authorization) as [value|] eqn:Hv; [|done]. apply supplied_Some in Hv.
      unfold token_eq. apply not_true_iff_false. intros He%str_eqb_spec. by destruct (Hno value Hv). }
    rewrite Hf in Hs. cbn in Hs. injection Hs as <- <-. split; [done|]. by eexists.
  - intros p ->. assert (handle decode_with metainfo_parse state now request_id call c = Some (c', Err p) \/ c' = c) as [Hh|]; [|clear Hs|by left].
    { unfold serve in Hs. destruct (hs_api_key state); [|by left]. destruct (negb _); [right|by left]. by injection Hs as <-. }
    destruct call; cbn [handle] in Hh;
      try (destruct (autobrr_check _ _ _ _ _) as [r|]; [|done]; cbn [mbind option_bind] in Hh);
      try (left; by eapply answering_keeps; [apply keeps_reading|exact Hh]).
    + left. destruct (autobrr_torrent _ _ _ _ _ _ _ _) as [outcome|] eqn:Hu; [|done]. cbn in Hh.
      apply (inj Some), replying_Err in Hh. subst outcome. by eapply upload_keeps.
    + apply (inj Some), replying_Err in Hh. apply search_keeps in Hh as [|[? ?]]; [by left|right]. by eexists.
    + left. by eapply answering_keeps; [apply scan_keeps|exact Hh].
    + left. by eapply answering_keeps; [apply retry_keeps|exact Hh].
    + left. by eapply answering_keeps; [apply cancel_keeps|exact Hh].
    + left. by eapply answering_keeps; [apply reconcile_keeps|exact Hh].
  - unfold serve in Hs. destruct (hs_api_key state); [destruct (negb _); [by injection Hs as <-; destruct call|]|];
      destruct call; try done; cbn [handle] in Hs;
      try (destruct (autobrr_check _ _ _ _ _) as [r|]; [|done]; cbn [mbind option_bind] in Hs); by injection Hs as <-.
Qed.

Lemma upload_bytes_Ok id available request bytes :
  upload_bytes id available request = Ok bytes <->
  validate_upload_metadata id request = Ok tt /\ 0 < available /\
  base64_decode (tr_torrent_data request) = Some bytes /\ base64_encode bytes = tr_torrent_data request.
Proof using.
  unfold upload_bytes. rewrite bind_Ok. split.
  - intros ([] & Hv & Hr). apply bind_Ok in Hr as ([] & Ha%bail_if_Ok%Z.leb_gt & Hr).
    apply bind_Ok in Hr as (b & Hd%ok_or_Ok & Hr). apply bind_Ok in Hr as ([] & He%bail_if_Ok & [= ->]).
    apply negb_false_iff, str_eqb_spec in He. done.
  - intros (Hv & Ha & Hd & He). exists tt. split; [done|]. unfold bail_if. rewrite (proj2 (Z.leb_gt available 0) Ha).
    cbn. rewrite Hd. cbn. by rewrite He, str_eqb_refl.
Qed.

Lemma torrent_Ok state now id available request c c1 status r :
  autobrr_torrent decode_with metainfo_parse state now id available request c = Some (c1, Ok (status, r)) <->
  exists bytes accepted l, upload_bytes id available request = Ok bytes /\
    Accept.accept decode_with metainfo_parse (hs_candidate_ingress state) (upload_submission now id request bytes)
      (library c) = Some (l, Ok accepted) /\
    c1 = with_library l c /\ (status, r) = torrent_response id accepted.
Proof using.
  unfold autobrr_torrent. destruct (upload_bytes id available request) as [bytes|p]; [|naive_solver].
  destruct (Accept.accept _ _ _ _ _) as [[l [accepted|e]]|] eqn:Ha; cbn; [|naive_solver..]. split.
  - intros [= <- <- <-]. by exists bytes, accepted, l.
  - intros (b & a & l' & Hb & Ha' & -> & Hr). injection Hb as <-. rewrite Ha in Ha'. injection Ha' as <- <-.
    by rewrite <- Hr.
Qed.

(** C19: An upload can be repeated.  A torrent that is answered by 202 or 200 has its candidate
    and its task in the database, under the identifiers that are printed, and the answer says
    whether the task was there before.  Uploading the same torrent again, after whatever time
    and under whatever announcement, is answered by 200 with the same identifiers, and only
    where it came from is recorded. *)
Theorem uploads_can_be_repeated state now id available request c c1 status r :
  library_ok (library c) -> db_ok (tasks (library c)) ->
  autobrr_torrent decode_with metainfo_parse state now id available request c = Some (c1, Ok (status, r)) ->
  exists candidate_id task_id,
    ts_candidate_id r = lit "cand_" ++ encode_hex candidate_id /\ ts_task_id r = lit "task_" ++ encode_hex task_id /\
    is_Some (sporos_candidate (library c1) !! candidate_id) /\ is_Some (tasks_of c1 !! task_id) /\
    (status = 200 /\ is_Some (tasks_of c !! task_id) \/ status = 202 /\ tasks_of c !! task_id = None) /\
    forall now2 id2 available2 request2,
      0 < available2 -> validate_upload_metadata id2 request2 = Ok tt ->
      tr_torrent_data request2 = tr_torrent_data request -> tr_dry_run request2 = tr_dry_run request ->
      exists provenance,
        autobrr_torrent decode_with metainfo_parse state now2 id2 available2 request2 c1
        = Some (with_library (AcceptProofs.with_provenance provenance (library c1)) c1,
                Ok (200, mkTorrentResponse (ts_candidate_id r) (ts_task_id r) true "queued" id2)).
Proof.
  intros Hlib Hok (bytes & a & l & Hb & Ha & -> & [= -> ->])%torrent_Ok.
  destruct (AcceptProofs.accept_atomic _ _ _ _ _ _ _ Hlib Hok Ha) as (Hlib' & Hok' & Hdup & Hcand & _).
  pose proof (AcceptProofs.accepted_task _ _ _ _ _ _ _ Hok Ha) as Htask.
  exists (Accept.ac_candidate_id a), (Accept.ac_task_id a). split_and!; try done.
  - unfold tasks_of. destruct (Accept.ac_duplicate a); [left; naive_solver|right]. split; [done|].
    apply eq_None_not_Some. intros Hs. by apply Hdup in Hs.
  - intros now2 id2 available2 request2 Hav Hv Hdata Hdry. apply upload_bytes_Ok in Hb as (_ & _ & Hd & He).
    eexists. apply torrent_Ok. eexists bytes, _, _. split_and!.
    + apply upload_bytes_Ok. rewrite Hdata. done.
    + apply (AcceptProofs.accepted_again _ _ _ _ (upload_submission now2 id2 request2 bytes) _ _ _ Hok) in Ha; [exact Ha|done|].
      cbn. by rewrite Hdry.
    + done.
    + done.
Qed.
End Requests.

Module Sample.
Import Codec.
#[local] Existing Instance Text.ascii_unicode.
#[local] Existing Instance Torznab.Sample.xml.
#[local] Existing Instance Prowlarr.Sample.http.
#[local] Existing Instance Prowlarr.Sample.xml_reader.
#[local] Existing Instance Prowlarr.Sample.prowlarr.
#[local] Existing Instance DataScanProofs.Sample.files.
#[local] Existing Instance TaskControl.sample_codec.
#[local] Existing Instance SearchSample.search_digest.
#[local] Existing Instance SearchSample.search_intake.
#[local] Existing Instance SearchSample.search_codec.
#[local] Instance scan_codec : Scan.ScanCodec := {|
  Scan.encode_scan_input i := Scan.sci_operation_id i;
  Scan.encode_scan_request root ids force := Codec.put (root, ids, force) |}.
#[local] Instance transport : Transport := {|
  base64_encode s := s; base64_decode s := Some s;
  cursor_text p := p.1 :: p.2; cursor_of s := match s with z :: id => Some (z, id) | [] => None end |}.
#[local] Instance transport_laws : TransportLaws.
Proof. split. by intros []. Qed.

Definition ingress : Accept.CandidateIngress :=
  Accept.mkCandidateIngress (sp_matching SearchSample.policy) (sp_source_filters SearchSample.policy)
    (sp_injection SearchSample.policy)
    (Paths.mkPaths (lit "/links") [Paths.mkPathRewrite (lit "all") (lit "/remote") (lit "/links") [lit "qbittorrent"]]).
Definition state : HttpState :=
  mkHttpState (Some (lit "secret")) (Some (60 * 1000000000)) (sp_source_filters SearchSample.policy)
    (sp_matching SearchSample.policy) ingress SearchSample.policy true None ∅ 4.
Definition sample_serve (now sequence : Z) (authorization : option str) (call : Call) (c : Catalogue) :=
  serve (fun _ => true) (fun _ => Some Torrent.sample_metainfo) state now (RequestId_next sequence).1 authorization call c.
Definition bearer (token : string) : option str := Some (BEARER ++ lit token).
Definition empty : Catalogue := empty_catalogue AcceptProofs.Sample.empty_library.

(** ** An upload *)

Definition request (name : string) : AutobrrTorrentRequest :=
  mkTorrentRequest (lit "bytes of a torrent file") (Some (lit name)) None None None [] false.
Definition upload (now sequence : Z) (name : string) (c : Catalogue) :=
  autobrr_torrent (fun _ => true) (fun _ => Some Torrent.sample_metainfo) state now (RequestId_next sequence).1 1
    (request name) c.
Definition uploaded : Catalogue := match upload 5 1 "Show.S01E01" empty with Some (c, _) => c | None => empty end.
Definition response : AutobrrTorrentResponse :=
  match upload 5 1 "Show.S01E01" empty with
  | Some (_, Ok (_, r)) => r
  | _ => mkTorrentResponse [] [] false "" []
  end.

Lemma upload_answers : upload 5 1 "Show.S01E01" empty = Some (uploaded, Ok (202, response)).
Proof.
  assert (exists r, (snd <$> upload 5 1 "Show.S01E01" empty) = Some (Ok (202, r))) as [r Hr]
    by (eexists; vm_compute; reflexivity).
  unfold uploaded, response. destruct (upload 5 1 "Show.S01E01" empty) as [[c a]|]; [|done]. cbn in Hr.
  by injection Hr as ->.
Qed.

(** The announcement of another tracker brings the same torrent. *)
Lemma uploads_can_be_repeated_witness :
  exists provenance,
    upload 9 2 "Show.S01E01.repost" uploaded
    = Some (with_library (AcceptProofs.with_provenance provenance (library uploaded)) uploaded,
            Ok (200, mkTorrentResponse (ts_candidate_id response) (ts_task_id response) true "queued"
                       (RequestId_next 2).1)).
Proof.
  destruct (uploads_can_be_repeated (fun _ => true) (fun _ => Some Torrent.sample_metainfo) state 5 (RequestId_next 1).1
    1 (request "Show.S01E01") empty uploaded 202 response AcceptProofs.Sample.empty_library_ok db_ok_empty
    upload_answers) as (candidate_id & task_id & _ & _ & _ & _ & _ & Hagain).
  exact (Hagain 9 (RequestId_next 2).1 1 (request "Show.S01E01.repost") ltac:(lia) ltac:(reflexivity) eq_refl eq_refl).
Defined.

(** ** Refusals *)

(** A task that is not there, with the token and without *)
Lemma refused_requests_change_nothing_witness :
  let call := CancelTask (lit "00000000000000000000000000000000") in
  exists c1 p1 c2 p2,
    sample_serve 10 3 None call uploaded = Some (c1, Err p1) /\ c1 = uploaded /\ pb_status p1 = 401 /\
    sample_serve 10 4 (bearer "secret") call uploaded = Some (c2, Err p2) /\ c2 = uploaded /\ pb_status p2 = 404.
Proof.
  intros call.
  assert (exists p2, (snd <$> sample_serve 10 4 (bearer "secret") call uploaded) = Some (Err p2) /\ pb_status p2 = 404)
    as (p2 & Hp2 & Hs2) by (eexists; split; vm_compute; reflexivity).
  destruct (sample_serve 10 3 None call uploaded) as [[c1 answer1]|] eqn:H1; [|discriminate H1].
  destruct (refused_requests_change_nothing _ _ _ _ _ _ _ _ _ _ H1) as (Hno & _ & _).
  destruct (Hno (lit "secret") eq_refl) as (-> & p1 & -> & Hs1); [by intros value [=]|].
  destruct (sample_serve 10 4 (bearer "secret") call uploaded) as [[c2 answer2]|] eqn:H2; [|discriminate Hp2].
  injection Hp2 as ->.
  destruct (refused_requests_change_nothing _ _ _ _ _ _ _ _ _ _ H2) as (_ & Herr & _).
  destruct (Herr p2 eq_refl) as [->|(r & [=] & _)]. exists uploaded, p1, uploaded, p2.
  exact (conj eq_refl (conj eq_refl (conj Hs1 (conj eq_refl (conj eq_refl Hs2))))).
Defined.

(** ** Lists *)

Definition row (created : Z) (task_state : string) : TaskRow :=
  {| t_kind := lit "data_scan"; t_state := lit task_state; projection_generation := 0; t_operation_id := None;
     duroxide_instance_id := []; duroxide_execution_id := None; policy_snapshot_id := []; t_reason_code := None;
     last_error_class := None; last_error_message := None; observed_retry_count := 0; t_created_at := created;
     updated_at := created; terminal_at := None; projection_repair_checked_at := None |}.
Definition tasks3 : gmap str TaskRow :=
  list_to_map [(replicate 16 1, row 5 "queued"); (replicate 16 2, row 7 "queued"); (replicate 16 3, row 6 "completed")].
Definition listed : Catalogue :=
  let l := AcceptProofs.Sample.empty_library in
  empty_catalogue (with_tasks (set_tasks (fun _ => tasks3) (tasks l)) l).

Lemma listed_ids : ids_ok (tasks_of listed).
Proof.
  intros id r Hr%elem_of_map_to_list. vm_compute in Hr.
  repeat (apply elem_of_cons in Hr as [Hr|Hr];
    [injection Hr as -> _; split; [reflexivity|repeat (constructor; [unfold is_byte; lia|]); constructor]|]).
  by apply not_elem_of_nil in Hr.
Qed.

(** One task on a page *)
Lemma pages_list_every_task_witness :
  exists pages rows, (pages <= 4)%nat /\
    listing (fun cursor c => list_tasks (lit "req") (mkListQuery 1 cursor (Some (lit "queued"))) c) None
      (replicate pages listed) (map task_view rows) /\
    Permutation rows (rows_of (in_state (Some (lit "queued"))) (tasks_of listed)).
Proof.
  exact (proj2 (pages_list_every_task (lit "req") 1 (Some (lit "queued")) ltac:(lia)) listed listed_ids).
Defined.

(** ** Forced searches *)

(** The counter of the requests begins again with the process.  A forced search that gets the
    number of one before the restart is answered as its duplicate, and nothing is searched. *)
Definition forced : Call :=
  StartInventorySearch (mkSearchRequest (lit "qbittorrent") (mkBackfillSelection [] [] [] [] []) [] true false).
Definition forced_once : Catalogue :=
  match sample_serve 10 1 (bearer "secret") forced empty with Some (c, _) => c | None => empty end.
Lemma forced_search_after_restart :
  (exists r, sample_serve 10 1 (bearer "secret") forced empty = Some (forced_once, Ok (202, RStarted r))) /\
  (exists r, sample_serve 1000 1 (bearer "secret") forced forced_once = Some (forced_once, Ok (200, RStarted r))) /\
  (exists c r, sample_serve 1000 2 (bearer "secret") forced forced_once = Some (c, Ok (202, RStarted r))).
Proof. split; [eexists|split; [eexists|eexists _, _]]; vm_compute; reflexivity. Qed.
End Sample.
